(* ===== verification/_CoqProject ===== *)
-Q . S2P
Prelude.v
Opcode.v
Codec.v
Function.v
VerifierModel.v
VerifierHeader.v
VerifierPredecode.v
VerifierStatic.v
VerifierStack.v
Verifier.v
Assembler.v
AssemblerFacts.v
AssemblerFinish.v
Decimal.v
CompilerString.v
Disassembly.v
RuntimePrelude.v
JsStrings.v
JsStringFacts.v
JsStringDepth.v
ArrayIndex.v
Uri.v
Arena.v
ArenaFacts.v
ByteCodec.v
ByteCodecFacts.v
BigInt.v
BigIntFacts.v
BigIntBits.v
BigIntDivision.v
BigIntText.v
Values.v
ValueFacts.v
Descriptors.v
DescriptorFacts.v
Collections.v
CollectionFacts.v
Objects.v
ObjectFacts.v
Arrays.v
ArrayFacts.v
ArrayLength.v
RegExp.v
RegExpFacts.v
RegExpSearch.v
RegExpCompiler.v
RegExpLayout.v
RegExpCompiled.v
RegExpMatcher.v
RegExpCorrect.v
RegExpLanguage.v
RegExpSpecification.v
AbstractValues.v
Optimizer.v
OptimizerRewrite.v
ControlFlow.v
OperandStack.v
AbstractValueFacts.v
TransferFacts.v
PropagationFacts.v
OptimizerSound.v
RetentionFacts.v
PropagationTotal.v
EmissionFacts.v
MarkerRenaming.v
OptimizerSimulation.v
OptimizerCorrect.v
OptimizerMetadata.v
ControlFlowPlans.v
Sources.v
SourceMaps.v
SourceFacts.v
SourceMapFacts.v
