(* ===== verification/Prelude.v ===== *)
(** * Fusor: verification of the bytecode trust boundary, the control-flow
    optimizer, the runtime's values, regular expressions and source positions

    Fusor is a JavaScript engine in Rust.  Its compiler plans instructions with
    a symbolic assembler, the assembler emits final bytecode, an optimizer folds
    the branches it can decide, and nothing is executed before a verifier has
    checked the bytes: the crate
    [crates/fusor-bytecode] is the boundary between bytes that may be hostile
    and an interpreter that trusts them.  The interpreter's crate
    [crates/fusor-runtime] keeps its heap in arenas and computes on strings and
    big integers of its own.  [crates/fusor-regexp] compiles regular expressions
    to programs of a backtracking machine.  This library models the first crate's
    opcode schema, codec, headers, control-flow verifier, assembler, disassembler
    and compiler strings, the planning and optimization of control flow in
    [crates/fusor-compiler], the runtime's strings, array indices, URI functions,
    arenas, byte codecs, big integers, values, property descriptors, keyed
    collections, property tables, arrays and operand stack, the compiler and
    executor of regular expressions, and the source registry of
    [crates/fusor-diagnostics], and proves what each promises.

    ** How the parts interact

    - [opcode_table.rs], [lib.rs]: the opcode tables; every other part reads
      operand formats, sizes and stack effects from them.
    - [codec.rs]: typed operands and instructions to and from bytes, one at a
      time ([decode_instruction]), as a stream ([InstructionDecoder]) and into a
      bounded buffer ([BytecodeBuilder]).
    - [function.rs]: packed function headers, written by the compiler and checked
      by the verifier.
    - [verifier/]: [verify_control_flow] (serialized bodies) and
      [verify_compiler_control_flow] (fresh compiler output): limits, predecoding,
      header and layouts, static semantics, stack dataflow, in this order; the
      result is a [VerifiedControlFlow] certificate.
    - [assembler.rs]: plans with labels; [finish] threads redundant [goto]s,
      relaxes branch widths and emits through the builder.
    - [lowering/control_flow.rs] (compiler): what the lowering of a function body
      calls: planned instructions with source ranges, labels with expected stack
      depths, terminals; [finish], and [verify_with_inputs], which verifies the
      bytes, optimizes the certificate and verifies the result again.
    - [lowering/control_flow/optimizer]: constant propagation over abstract
      operand stacks ([analysis.rs], [abstract_value.rs]), what else must be kept
      ([retention.rs]), re-emission through the assembler ([rewrite.rs]) and the
      renumbering of what refers to instructions ([metadata.rs]).
    - [vm/stack.rs], [vm/execution.rs], [vm/exceptions.rs], [vm/bindings.rs],
      [runtime/installation.rs]: the interpreter's operand stack, where [catch]
      markers and return addresses of [finally] stand between values, and the
      constants installed from the compiler's pools.
    - [disassembly.rs]: bounded text of a decoded stream.
    - [compiler_string.rs]: canonical storage of string constants and atoms.
    - [string.rs] (runtime): UTF-16 strings as Latin-1 or wide leaves and ropes of
      them; property keys ([array_index.rs]), the URI functions ([vm/uri.rs]) and
      the codecs of byte arrays ([vm/uint8_array/codec.rs]) read and build them.
    - [arena.rs]: generation-checked slots, the identities of every heap object.
    - [bigint.rs]: arbitrary-precision integers in two's complement.
    - [number.rs], [value.rs], [atom.rs]: the values of the language, their three
      equalities and the identity of property keys, which every table relies on.
    - [property.rs], [define_property.rs]: property layouts, descriptors and the
      decision what a definition does to a property.
    - [object.rs], [runtime/maps.rs], [runtime/sets.rs], [vm/map.rs],
      [vm/set.rs]: hashed tables with tombstones behind Map and Set, reached
      through the arena and charged to budgets.
    - [object.rs], [runtime/arrays.rs], [runtime/heap.rs]: the properties of an
      object as a shape and a vector of slots; arrays, whose elements are in a
      dense vector or among the properties, and move between the two.
    - [fusor-regexp]: [compiler.rs] numbers the groups of a syntax tree and lowers
      it through a stack of actions to instructions whose labels are then
      resolved; [executor.rs] runs them on UTF-16 code units within limits.
    - [fusor-diagnostics]: [source.rs] keeps the source texts and converts byte
      offsets to lines and columns; [source_map.rs] follows incoming source maps
      from a generated position to an original one.

    ** The files

    - [Prelude]: the [result] monad (Rust's [Result] and [?]), loops with early
      return ([try_fold], [try_map], [try_for_each] and their loop rules), machine
      integers as [Z] with checked and saturating operations, little-endian bytes,
      slices, packed bits, binary search, and the allocator.
    - [Opcode]: [lib.rs], [opcode_table.rs].  [Codec]: [codec.rs].  [Function]:
      [function.rs].
    - [VerifierModel]: [verifier/error.rs], [limits.rs], [model.rs].
      [VerifierHeader]: [header.rs], [layouts.rs].  [VerifierPredecode]:
      [predecode.rs], [targets.rs].  [VerifierStatic]: [operands.rs],
      [opcode_semantics.rs], [static_control_flow.rs].  [VerifierStack]:
      [stack.rs].  [Verifier]: [pipeline.rs] and the certificate's queries.
    - [Assembler]: [assembler.rs].  [AssemblerFacts]: layouts, relaxation and
      threading.  [AssemblerFinish]: the plan invariant, emission and progress.
    - [Decimal]: decimal spellings, shared.  [CompilerString]:
      [compiler_string.rs].  [Disassembly]: [disassembly.rs].
    - [RuntimePrelude]: outcomes with panics, handlers on a state with their
      weakest preconditions, UTF-16 and UTF-8.  [JsStrings]: [string.rs];
      [JsStringFacts] its theorems, [JsStringDepth] the depth of rebalanced ropes.  [ArrayIndex]: [array_index.rs].  [Uri]: [vm/uri.rs].
      [Arena], [ArenaFacts]: [arena.rs].  [ByteCodec], [ByteCodecFacts]:
      [vm/uint8_array/codec.rs].
    - [BigInt]: [bigint.rs]; [BigIntFacts] (values and arithmetic), [BigIntBits],
      [BigIntDivision] its theorems; [BigIntText] printing and parsing.
    - [Values], [ValueFacts]: [number.rs], [value.rs], [atom.rs].  [Descriptors],
      [DescriptorFacts]: [property.rs], [define_property.rs],
      [vm/define_property_intrinsics.rs].  [Collections], [CollectionFacts]: the
      tables of [object.rs], [runtime/maps.rs], [runtime/sets.rs], [vm/map.rs],
      [vm/set.rs].
    - [Objects], [ObjectFacts]: records, own keys and array storage of [object.rs].
      [Arrays]: [runtime/arrays.rs] and its part of [runtime/heap.rs];
      [ArrayFacts] (definition) and [ArrayLength] (deletion, length, reachable
      arrays) its theorems.
    - [RegExp]: [flags.rs], [program.rs], [properties.rs], [emoji.rs],
      [executor.rs].  [RegExpFacts]: the executor is safe.  [RegExpSearch]: it is a
      depth-first search.  [RegExpCompiler]: [compiler.rs] from the syntax tree
      on.  [RegExpLayout]: what it emits.  [RegExpCompiled]: compiled programs
      meet the conditions of the executor's theorems.  [RegExpMatcher]: the
      matcher on the syntax tree, which programs implement.  [RegExpCorrect]: it
      is defined, and answers are its answers.  [RegExpLanguage]: a matcher from
      the language specification, leaves included.  [RegExpSpecification]: where
      the two agree.
    - [AbstractValues]: [optimizer/abstract_value.rs], the failures of lowering
      and the constants of [compiler_graph.rs].  [Optimizer]: [analysis.rs],
      [retention.rs].  [OptimizerRewrite]: [rewrite.rs], [metadata.rs],
      [optimizer.rs].  [ControlFlow]: [control_flow.rs].  [OperandStack]: the
      interpreter's operand stack.
    - [AbstractValueFacts], [TransferFacts]: the abstract transfer against the
      interpreter's arms.  [PropagationFacts], [PropagationTotal]: the analysis
      returns a fixed point.  [OptimizerSound]: frames, their steps and runs, and
      that runs stay within the facts.  [RetentionFacts]: nothing executable is
      dropped.  [EmissionFacts], [MarkerRenaming], [OptimizerSimulation],
      [OptimizerCorrect]: the rewritten code, step by step.  [OptimizerMetadata],
      [ControlFlowPlans]: renumbered metadata, source lookup, plans.
    - [Sources]: [source.rs].  [SourceMaps]: lookup and resolution of
      [source_map.rs].  [SourceFacts], [SourceMapFacts]: their theorems.

    Definitions keep the names of the source.  A struct is a [Record], an enum an
    [Inductive] (in a module of its own when its variants clash), a method a
    definition in a module of its type's name, a [&mut self] method a function to
    the new state, and an error a value of the source's error type.  A long
    function is cut into definitions along its loops and blocks.

    ** What the theorems show

    - Verified code is safe ([Verifier]).  [Machine] runs raw bytes on a byte
      position and a stack depth, knowing nothing of the verifier.  Along every run
      of verified bytes it decodes an instruction, never underflows, stays within
      the declared (or computed) stack size, has a successor, reaches each position
      at one depth and names only declared slots (of compiler output, the runs
      that take no [gosub] edge).  Conversely acceptance is
      characterised exactly by a declarative specification ([acceptable]).  The
      certificate's position queries are exact.
    - The stages are exact on their own: predecoding and target resolution
      ([VerifierPredecode]), static semantics and operand domains
      ([VerifierStatic]), the worklist dataflow with its termination
      ([VerifierStack]), headers and layouts ([VerifierHeader]).
    - The codec is a bijection on valid instructions, streams and builder runs
      included, and a failed push changes nothing ([Codec], [Opcode]).
    - The assembler is correct ([AssemblerFacts], [AssemblerFinish]): planning keeps
      its invariant, threading follows [goto] chains and nothing else, relaxation
      reaches the least layout in which the branches reach, [finish] never panics or
      loops, succeeds within stated resources, and its bytes decode to the plan with
      every branch at its label, as the verifier's own resolver finds.
    - Optimization is correct.  A frame of the interpreter is a step relation over
      verified control flow ([Frame] in [OptimizerSound]): the modelled arms as
      they are written, every other instruction as any exchange within its stack
      effect that leaves markers alone, and an exception at any point.  Along
      every run the analysis is right ([analysis_sound]), and the control flow
      the compiler keeps simulates the one it verified first
      ([optimization_preserves_execution]).  The analysis ends in a fixed point
      ([propagation_answers]); source ranges, [eval] calls, boundaries and
      anchors follow the code ([metadata_renumbered]); diagnoses find the right
      source ([source_lookup_exact]).  A loop planned by hand makes the second
      verification refuse the optimizer's own output ([dead_loop_rejected]).
    - Positions in sources are exact in every column unit ([positions_exact]) and
      excerpts are whole lines around the highlight ([snippet_exact]);
      source-map positions and offsets are inverse
      ([source_map_positions_inverse]); resolution follows the one chain of
      mappings and always ends ([resolution_exact]), and two ends in one source
      give the range between them ([resolve_span_exact]).
    - The disassembler writes whole lines only and its text determines the bytes
      ([Disassembly]); strings are stored canonically and the tagged-integer test is
      exact ([CompilerString]).
    - Runtime strings behave as their code units whatever their representation
      ([JsStringFacts]), except that rebalancing can build a rope too deep for the
      iterator ([JsStringDepth]).  Array indices, URI texts, base64 and hexadecimal
      decode exactly what they should and undo their encoders.
    - An arena is a finite map whose removed identities never come back, unless
      a record is restored into a freed slot ([ArenaFacts]).
    - Big integers are the integers in range: arithmetic, division, bits, text
      (without U+0085) and comparison are exact, panic-free, and fail only on the
      stated conditions; products and powers fail when their magnitude is out of
      range, though the result may not be.
    - Defining a property is the specification's ValidateAndApplyPropertyDescriptor
      ([DescriptorFacts]).  The seven methods of Map and five of Set that
      neither call back nor allocate an iterator are the specification's on its
      ordered lists, also after deletion and restoring ([CollectionFacts]).
    - An object record is an ordered map of properties, truncation is the deletion
      loop of ArraySetLength and own keys come in the specified order
      ([ObjectFacts]).  An array's two storages look like one to the language:
      definition, deletion and length changes do what they should and keep the
      length property, the indices and the counts consistent ([ArrayFacts],
      [ArrayLength]), except that a release build can lose a far write
      ([array_write_lost]).
    - Regular expressions compile and run correctly.  The compiler always ends and
      resolves every label; the machine neither panics nor loops; and whatever it
      answers is what a function on the syntax tree in continuation style answers,
      with the executor's tests of characters and classes ([regexp_correct]).  On
      case-sensitive patterns with classes of single characters these tests are
      replaced by the language's own ([regexp_specification]).  Cases that are
      excepted and shown to differ from the language: a class that contains the
      empty string, a quantifier whose last required iteration is empty, a
      case-insensitive range and a negated class among strings.  The syntax tree
      is that of the parser library; the groups that an iteration forgets are
      those the code finds in a span; positions are those of code units, and a
      start within a surrogate pair is read as the unit there.

    ** Bounds and fuel

    Integers are unbounded [Z]s with the source's width checks written out; ranges
    are hypotheses ([is_u32] and its siblings) where the Rust type gives them.
    [usize] is taken to be 64 bits wide.  Loops without structural recursion carry
    a fuel that is proved enough: the decoding loops and the renderer have one turn
    per remaining byte ([for_each_spec], [disassembly_exact]), the dataflow one per
    instruction ([stack_analysis_terminates]), a goto chain one per label and
    relaxation two widenings per item ([finish_never_stuck], which also covers every
    index the source writes with [v[i]]).  In the runtime files an [outcome] tells
    errors, panics and exhausted fuel apart, and the theorems exclude the last two:
    the URI and codec loops have one turn per code unit, a power one per bit of its
    exponent, a carry one per limb, printing one per bit of the magnitude.  The
    regular-expression machine has one turn per step of its own limit, the
    compiler's stacks one per unit of a weight that every action loses, and a
    repeat of the matcher one per required iteration and position.  Constant
    propagation has one turn per instruction and two per slot of its entry stack
    ([propagation_fuel], since a value moves up the lattice at most twice), the
    retention of exception components four per instruction, since each is expanded
    once and queues at most three others.  A resolution has one turn more than its
    depth limit, and the search for an unloaded section one per level of nesting.

    The host's memory is a parameter: [Allocator] answers every [try_reserve], and
    completeness theorems assume a [GenerousAllocator], which [always_allocates]
    instantiates in the concrete runs.  The disassembler's sink is a parameter, and
    the theorems are about the string sink.  The Unicode libraries are parameters
    ([UnicodeData], [PropertyData]), about which nothing is assumed; so is the
    source-map library ([DecodedMaps]), of which it is assumed that embedded maps
    nest finitely ([NestedMaps]; [token_maps] is an instance).

    ** What is not modelled

    Error and [Display] texts other than the disassembly, test-only allocation
    hooks and entry points, the sharing of [Arc]s (an assembler identity is a
    number, and pointer equality of strings a parameter), conversions of big
    integers to and from binary64, the rewriting of a pattern's source before it is
    parsed, the sharing of equal shapes, and the rest of the engine: the
    whole-bytecode typed verifier and its function graphs ([verified_bytecode/],
    [compiler_graph.rs] but its constants), the other opcodes of the interpreter,
    the other kinds of objects, snapshots and most built-ins ([fusor-runtime];
    arithmetic on binary64 among them), the lowering of syntax to plans
    ([fusor-compiler]), the parser adapter ([fusor-frontend]),
    the decoding of source-map documents and the rendering of diagnostics,
    internationalization, the host loop and the command line.  They depend on
    each other through one realm and heap, or on third-party parsers, Unicode data
    and input and output.

    Of a frame's run, the simulation leaves out a [nip_catch] that discards
    temporaries, a [for_of_next] whose record is not on top, and a host that
    changes the [IsHTMLDDA] mark of an object while code runs.  The optimized run
    is not shown to pass the interpreter's entry-depth check, whose structural
    depths at joins of [gosub] are left to the typed verifier. *)

From Stdlib Require Export ZArith Lia Sorted.
From stdpp Require Export base numbers list gmap strings option.

#[global] Open Scope Z_scope.
#[global] Arguments Nat.div : simpl never.
#[global] Arguments Nat.modulo : simpl never.
#[global] Arguments Z.testbit : simpl never.

(** ** Results

    Rust's [Result<A, E>], with the error type first so that [result E] is a
    monad.  stdpp's [x ← c; k] and [c ;; k] play the part of [?]. *)

Inductive result (E A : Type) : Type :=
| Ok (a : A)
| Err (e : E).
Arguments Ok {E A} a.
Arguments Err {E A} e.

#[export] Instance result_ret E : MRet (result E) := fun A a => Ok a.
#[export] Instance result_bind E : MBind (result E) := fun A B f m =>
  match m with Ok a => f a | Err e => Err e end.
#[export] Instance result_fmap E : FMap (result E) := fun A B f m =>
  match m with Ok a => Ok (f a) | Err e => Err e end.

(** [Result::map_err], [Option::ok_or] and the early return of an error. *)
Definition map_err {E F A} (f : E → F) (m : result E A) : result F A :=
  match m with Ok a => Ok a | Err e => Err (f e) end.

Definition ok_or {E A} (o : option A) (e : E) : result E A :=
  match o with Some a => Ok a | None => Err e end.

(** [if bad { return Err(e) }] *)
Definition reject_if {E} (bad : bool) (e : E) : result E unit :=
  if bad then Err e else Ok tt.

Section result_lemmas.
Context {E F A B : Type}.

Lemma bind_Ok (m : result E A) (f : A → result E B) b :
  (m ≫= f) = Ok b ↔ ∃ a, m = Ok a ∧ f a = Ok b.
Proof. destruct m; simpl; naive_solver. Qed.

Lemma bind_Err (m : result E A) (f : A → result E B) e :
  (m ≫= f) = Err e ↔ m = Err e ∨ ∃ a, m = Ok a ∧ f a = Err e.
Proof. destruct m; simpl; naive_solver. Qed.

Lemma fmap_Ok (m : result E A) (f : A → B) b :
  (f <$> m) = Ok b ↔ ∃ a, m = Ok a ∧ f a = b.
Proof. destruct m; simpl; naive_solver. Qed.

Lemma map_err_Ok (m : result E A) (f : E → F) a : map_err f m = Ok a ↔ m = Ok a.
Proof. destruct m; simpl; naive_solver. Qed.

Lemma ok_or_Ok (o : option A) (e : E) a : ok_or o e = Ok a ↔ o = Some a.
Proof. destruct o; simpl; naive_solver. Qed.

Lemma Ok_inj (a a' : A) : @Ok E A a = Ok a' → a = a'.
Proof. congruence. Qed.

Lemma reject_if_Ok (b : bool) (e : E) u : reject_if b e = Ok u ↔ b = false.
Proof. destruct b, u; simpl; naive_solver. Qed.
End result_lemmas.

(** [for x in l { state = f(state, x)? }] *)
Fixpoint try_fold {E S A} (f : S → A → result E S) (s : S) (l : list A) : result E S :=
  match l with
  | [] => Ok s
  | x :: l => s ← f s x; try_fold f s l
  end.

(** [for x in l { f(x)? }] *)
Fixpoint try_for_each {E A} (f : A → result E unit) (l : list A) : result E unit :=
  match l with
  | [] => Ok tt
  | x :: l => f x ;; try_for_each f l
  end.

(** [for x in l { out.push(f(x)?) }] *)
Fixpoint try_map {E A B} (f : A → result E B) (l : list A) : result E (list B) :=
  match l with
  | [] => Ok []
  | x :: l => y ← f x; ys ← try_map f l; Ok (y :: ys)
  end.

Lemma try_for_each_Ok {E A} (f : A → result E unit) l u :
  try_for_each f l = Ok u ↔ Forall (λ x, f x = Ok tt) l.
Proof.
  destruct u. induction l as [|x l IH]; simpl; split; try done.
  - intros ([] & ? & ?)%bind_Ok. constructor; [done|]. by apply IH.
  - intros Hl. apply Forall_cons_1 in Hl as [Hx Hl%IH]. simpl. by rewrite Hx.
Qed.

Lemma try_map_Ok {E A B} (f : A → result E B) l ys :
  try_map f l = Ok ys ↔ Forall2 (λ x y, f x = Ok y) l ys.
Proof.
  revert ys. induction l as [|x l IH]; simpl; intros ys; split.
  - intros [= <-]. constructor.
  - by intros ->%Forall2_nil_inv_l.
  - intros (y & Hy & (ys' & Hys & [= <-])%bind_Ok)%bind_Ok.
    constructor; [done|]. by apply IH.
  - intros (y & ys' & Hy & Hys%IH & ->)%Forall2_cons_inv_l.
    simpl. by rewrite Hy, Hys.
Qed.

(** [l.iter().enumerate()] *)
Fixpoint enumerate_from {A} (n : nat) (l : list A) : list (nat * A) :=
  match l with
  | [] => []
  | x :: l => (n, x) :: enumerate_from (S n) l
  end.
Notation enumerate := (enumerate_from 0).

(** The loop rule: an invariant on the position and the state. *)
Lemma try_fold_enumerate {E St A} (f : St → nat * A → result E St) (P : nat → St → Prop) l : ∀ n s s',
  (∀ i x s s', l !! i = Some x → P (n + i)%nat s → f s ((n + i)%nat, x) = Ok s' →
     P (n + i + 1)%nat s') →
  P n s → try_fold f s (enumerate_from n l) = Ok s' → P (n + length l)%nat s'.
Proof.
  induction l as [|x l IH]; intros n s s' Hf Hs; simpl.
  { intros [= <-]. by rewrite Nat.add_0_r. }
  intros (s1 & Hs1 & Hrest)%bind_Ok.
  replace (n + S (length l))%nat with (S n + length l)%nat by lia.
  eapply IH; [|..|exact Hrest].
  - intros i y t t' Hi. replace (S n + i)%nat with (n + S i)%nat by lia. by apply Hf.
  - specialize (Hf 0%nat x s s1 eq_refl). rewrite Nat.add_0_r in Hf.
    replace (S n) with (n + 1)%nat by lia. by apply Hf.
Qed.

(** The loop succeeds when every turn does under the invariant. *)
Lemma try_fold_enumerate_total {E St A} (f : St → nat * A → result E St) (P : nat → St → Prop) l :
  ∀ n s, (∀ i x s, l !! i = Some x → P (n + i)%nat s →
            ∃ s', f s ((n + i)%nat, x) = Ok s' ∧ P (n + i + 1)%nat s') →
  P n s → ∃ s', try_fold f s (enumerate_from n l) = Ok s'.
Proof.
  induction l as [|x l IH]; intros n s Hf Hs; simpl; [by eexists|].
  destruct (Hf 0%nat x s eq_refl) as (s1 & Hs1 & HP1); rewrite Nat.add_0_r in *; [done|].
  rewrite Hs1. simpl. apply IH.
  - intros i y t Hi. replace (S n + i)%nat with (n + S i)%nat by lia. by apply Hf.
  - by replace (S n) with (n + 1)%nat by lia.
Qed.

(** Inverts the hypotheses that say a computation succeeded. *)
Ltac inv_ok :=
  repeat match goal with
  | H : Ok _ = Ok _ |- _ => apply Ok_inj in H
  | H : Err _ = Ok _ |- _ => discriminate H
  | H : Ok _ = Err _ |- _ => discriminate H
  | H : mbind _ _ = Ok _ |- _ => apply bind_Ok in H as (? & ? & H)
  | H : fmap _ _ = Ok _ |- _ => apply fmap_Ok in H as (? & ? & H)
  | H : map_err _ _ = Ok _ |- _ => apply map_err_Ok in H
  | H : ok_or _ _ = Ok _ |- _ => apply ok_or_Ok in H
  | H : reject_if _ _ = Ok _ |- _ => apply reject_if_Ok in H
  | u : unit |- _ => destruct u
  end.

(** As [inv_ok], also splitting the [match]es and [if]s of such hypotheses. *)
Ltac inv_ok_cases :=
  repeat (inv_ok;
    match goal with
    | H : match ?x with _ => _ end = Ok _ |- _ => destruct x eqn:?
    end; try discriminate); inv_ok.

(** ** Machine integers

    A [w]-bit integer is a [Z]; [is_u8] and its siblings are the ranges, and
    the checked conversions of the source are functions into [option]. *)

Definition u8_max : Z := 255.
Definition u16_max : Z := 65535.
Definition u32_max : Z := 4294967295.
Definition u64_max : Z := 18446744073709551615.

Definition is_u8 (z : Z) : Prop := 0 ≤ z ≤ 255.
Definition is_u16 (z : Z) : Prop := 0 ≤ z ≤ 65535.
Definition is_u32 (z : Z) : Prop := 0 ≤ z ≤ 4294967295.
Definition is_u64 (z : Z) : Prop := 0 ≤ z ≤ 18446744073709551615.
Definition is_i8 (z : Z) : Prop := -128 ≤ z ≤ 127.
Definition is_i16 (z : Z) : Prop := -32768 ≤ z ≤ 32767.
Definition is_i32 (z : Z) : Prop := -2147483648 ≤ z ≤ 2147483647.
Definition is_i64 (z : Z) : Prop := -9223372036854775808 ≤ z ≤ 9223372036854775807.

(** [T::try_from(z).ok()] for the widths the source uses. *)
Definition try_u32 (z : Z) : option Z := if (0 <=? z) && (z <=? u32_max) then Some z else None.
Definition try_u64 (z : Z) : option Z := if (0 <=? z) && (z <=? u64_max) then Some z else None.
Definition try_i8 (z : Z) : option Z := if (-128 <=? z) && (z <=? 127) then Some z else None.
Definition try_i16 (z : Z) : option Z := if (-32768 <=? z) && (z <=? 32767) then Some z else None.
Definition try_i32 (z : Z) : option Z :=
  if (-2147483648 <=? z) && (z <=? 2147483647) then Some z else None.
Definition try_i64 (z : Z) : option Z :=
  if (-9223372036854775808 <=? z) && (z <=? 9223372036854775807) then Some z else None.

(** [usize::try_from(z)]: the host is a 64-bit one. *)
Definition try_usize (z : Z) : option nat :=
  if (0 <=? z) && (z <=? u64_max) then Some (Z.to_nat z) else None.

(** [a.checked_add(b)] at 8, 32 and 64 bits. *)
Definition checked_add_u8 (a b : Z) : option Z := if a + b <=? u8_max then Some (a + b) else None.
Definition checked_add_u32 (a b : Z) : option Z := if a + b <=? u32_max then Some (a + b) else None.
Definition checked_add_u64 (a b : Z) : option Z := if a + b <=? u64_max then Some (a + b) else None.
Definition checked_add_i64 (a b : Z) : option Z := try_i64 (a + b).

(** [a.saturating_add(b)] and [a.saturating_sub(b)] at 64 bits. *)
Definition saturating_add_u64 (a b : Z) : Z := Z.min (a + b) u64_max.
Definition saturating_sub (a b : Z) : Z := Z.max (a - b) 0.

(** [l.len()], a [usize]. *)
Definition len {A} (l : list A) : Z := Z.of_nat (length l).

Lemma len_app {A} (l k : list A) : len (l ++ k) = len l + len k.
Proof. unfold len. rewrite length_app. lia. Qed.

Lemma len_nonneg {A} (l : list A) : 0 ≤ len l.
Proof. unfold len. lia. Qed.
Arguments len {A} l : simpl never.

Ltac unfold_ints :=
  unfold is_u8, is_u16, is_u32, is_u64, is_i8, is_i16, is_i32, is_i64,
    u8_max, u16_max, u32_max, u64_max, len in *.
Ltac solve_ints := unfold_ints; lia.

(** Turns the boolean tests of the code into the propositions they decide. *)
Ltac bool_to_prop :=
  repeat match goal with
  | H : (_ && _) = true |- _ => apply andb_true_iff in H as [? H]
  | H : (_ || _) = false |- _ => apply orb_false_iff in H as [? H]
  | H : negb _ = true |- _ => apply negb_true_iff in H
  | H : negb _ = false |- _ => apply negb_false_iff in H
  | H : (_ <=? _) = true |- _ => apply Z.leb_le in H
  | H : (_ <=? _) = false |- _ => apply Z.leb_gt in H
  | H : (_ <? _) = true |- _ => apply Z.ltb_lt in H
  | H : (_ <? _) = false |- _ => apply Z.ltb_ge in H
  | H : (_ =? _) = true |- _ => apply Z.eqb_eq in H
  | H : (_ =? _) = false |- _ => apply Z.eqb_neq in H
  end.

(** ** Little-endian byte strings

    [to_le_bytes n z] is Rust's [z.to_le_bytes()] at a width of [n] bytes, for
    signed and unsigned [z] alike (the floor division of [Z] gives the two's
    complement digits); [from_le_bytes] is the unsigned reading of the bytes,
    and [sign_extend w] re-reads a [w]-bit unsigned integer as a signed one. *)

Definition byte_list (l : list Z) : Prop := Forall is_u8 l.

Fixpoint to_le_bytes (n : nat) (z : Z) : list Z :=
  match n with
  | O => []
  | S n => z mod 256 :: to_le_bytes n (z / 256)
  end.

Fixpoint from_le_bytes (l : list Z) : Z :=
  match l with
  | [] => 0
  | b :: l => b + 256 * from_le_bytes l
  end.

Definition sign_extend (w u : Z) : Z := if u <? 2 ^ (w - 1) then u else u - 2 ^ w.

Lemma length_to_le_bytes n z : length (to_le_bytes n z) = n.
Proof. revert z. induction n as [|n IH]; intros z; simpl; [done|]. by rewrite IH. Qed.

Lemma to_le_bytes_bytes n z : byte_list (to_le_bytes n z).
Proof.
  revert z. induction n as [|n IH]; intros z; simpl; constructor; [|apply IH].
  pose proof (Z.mod_pos_bound z 256 ltac:(lia)). solve_ints.
Qed.

Lemma from_to_le_bytes n z : from_le_bytes (to_le_bytes n z) = z mod 256 ^ Z.of_nat n.
Proof.
  revert z. induction n as [|n IH]; intros z; simpl.
  { by rewrite Z.mod_1_r. }
  rewrite IH, Nat2Z.inj_succ, Z.pow_succ_r by lia.
  rewrite Z.rem_mul_r by lia. lia.
Qed.

Lemma from_le_bytes_bound l :
  byte_list l → 0 ≤ from_le_bytes l < 256 ^ Z.of_nat (length l).
Proof.
  induction 1 as [|b l Hb _ IH]; simpl; [lia|].
  rewrite Nat2Z.inj_succ, Z.pow_succ_r by lia. unfold_ints. lia.
Qed.

Lemma to_from_le_bytes l : byte_list l → to_le_bytes (length l) (from_le_bytes l) = l.
Proof.
  induction 1 as [|b l Hb _ IH]; simpl; [done|]. unfold_ints.
  rewrite (Z.mul_comm 256), Z.mod_add, Z.div_add by lia.
  rewrite Z.mod_small, Z.div_small, Z.add_0_l by lia. by rewrite IH.
Qed.

Lemma sign_extend_mod w z :
  0 < w → - 2 ^ (w - 1) ≤ z < 2 ^ (w - 1) → sign_extend w (z mod 2 ^ w) = z.
Proof.
  intros Hw Hz. unfold sign_extend.
  assert (2 ^ w = 2 * 2 ^ (w - 1)) as E by (rewrite <- Z.pow_succ_r by lia; f_equal; lia).
  destruct (decide (0 ≤ z)).
  - rewrite Z.mod_small by lia. destruct (Z.ltb_spec z (2 ^ (w - 1))); lia.
  - rewrite <- (Z.mod_add z 1), Z.mod_small by lia.
    destruct (Z.ltb_spec (z + 1 * 2 ^ w) (2 ^ (w - 1))); lia.
Qed.

Lemma sign_extend_bound w u :
  0 < w → 0 ≤ u < 2 ^ w → - 2 ^ (w - 1) ≤ sign_extend w u < 2 ^ (w - 1).
Proof.
  intros Hw Hu. unfold sign_extend.
  assert (2 ^ w = 2 * 2 ^ (w - 1)) as E by (rewrite <- Z.pow_succ_r by lia; f_equal; lia).
  destruct (Z.ltb_spec u (2 ^ (w - 1))); lia.
Qed.

Lemma mod_sign_extend w u :
  0 < w → 0 ≤ u < 2 ^ w → sign_extend w u mod 2 ^ w = u.
Proof.
  intros Hw Hu. unfold sign_extend. destruct (Z.ltb_spec u (2 ^ (w - 1))).
  - by apply Z.mod_small.
  - rewrite <- (Z.mod_add _ 1) by lia. rewrite Z.mod_small; lia.
Qed.

Lemma to_le_bytes_mod n z : to_le_bytes n z = to_le_bytes n (z mod 256 ^ Z.of_nat n).
Proof.
  rewrite <- from_to_le_bytes.
  rewrite <- (length_to_le_bytes n z) at 2.
  by rewrite to_from_le_bytes by apply to_le_bytes_bytes.
Qed.

(** Facts about byte lists that proofs use without naming them. *)
Create HintDb bytes.
#[export] Hint Resolve to_le_bytes_bytes : bytes.

(** ** Allocation

    Every growing collection of the source asks [try_reserve] first and
    reports a structured error when the host refuses.  The allocator is an
    argument of the model: [try_reserve site len additional] says whether a
    collection of [len] entries, at the named site, may grow by
    [additional]. *)

Class Allocator := try_reserve : string → Z → Z → bool.

Definition reserve {E} `{Allocator} (site : string) (length additional : Z) (e : E) : result E unit :=
  reject_if (negb (try_reserve site length additional)) e.

(** The host never refuses. *)
Class GenerousAllocator `{Allocator} : Prop :=
  generous : ∀ site length additional, try_reserve site length additional = true.

Lemma reserve_generous {E} `{GenerousAllocator} site n k (e : E) :
  reserve site n k e = Ok tt.
Proof. unfold reserve. by rewrite generous. Qed.

(** The allocator the concrete runs use. *)
Definition always_allocates : Allocator := λ _ _ _, true.

Lemma always_allocates_generous : @GenerousAllocator always_allocates.
Proof. done. Qed.

(** ** Slices *)

(** [l.get(first..last)] *)
Definition get_range {A} (l : list A) (first last : Z) : option (list A) :=
  if (first <=? last) && (last <=? len l)
  then Some (take (Z.to_nat (last - first)) (drop (Z.to_nat first) l)) else None.

(** The [n] entries of [l] from position [p] on. *)
Definition segment {A} (p n : Z) (l : list A) : list A :=
  take (Z.to_nat n) (drop (Z.to_nat p) l).

Lemma get_range_Some {A} (l : list A) a b s :
  get_range l a b = Some s ↔ a ≤ b ≤ len l ∧ s = segment a (b - a) l.
Proof.
  unfold get_range, segment.
  destruct (Z.leb_spec a b), (Z.leb_spec b (len l)); simpl; naive_solver lia.
Qed.

Lemma len_segment {A} p n (l : list A) :
  0 ≤ p → 0 ≤ n → p + n ≤ len l → len (segment p n l) = n.
Proof. unfold segment, len. intros. rewrite length_take, length_drop. lia. Qed.

Lemma segment_cons {A} p n (l : list A) x :
  0 ≤ p → 0 ≤ n → l !! Z.to_nat p = Some x → segment p (n + 1) l = x :: segment (p + 1) n l.
Proof.
  intros Hp Hn Hx. unfold segment.
  rewrite (drop_S _ _ _ Hx). replace (Z.to_nat (n + 1)) with (S (Z.to_nat n)) by lia.
  simpl. do 3 f_equal. lia.
Qed.

Lemma segment_app_here {A} (l1 l2 l3 : list A) :
  segment (len l1) (len l2) (l1 ++ l2 ++ l3) = l2.
Proof.
  unfold segment, len. rewrite !Nat2Z.id, drop_app_length, take_app_length. done.
Qed.

Lemma segment_split {A} p n m (l : list A) :
  0 ≤ p → 0 ≤ n → 0 ≤ m → segment p (n + m) l = segment p n l ++ segment (p + n) m l.
Proof.
  intros. unfold segment. rewrite !Z2Nat.inj_add by done.
  rewrite <- (drop_drop l). generalize (drop (Z.to_nat p) l) as k. intros k.
  rewrite <- (take_take_drop k). done.
Qed.

Lemma segment_all {A} (l : list A) : segment 0 (len l) l = l.
Proof. unfold segment, len. rewrite Nat2Z.id. simpl. apply firstn_all. Qed.

Lemma segment_lookup {A} p n (l : list A) x k :
  0 ≤ p → segment p n l = x :: k → l !! Z.to_nat p = Some x.
Proof.
  intros Hp H. unfold segment in H. destruct (Z.to_nat n); [done|].
  destruct (drop (Z.to_nat p) l) as [|y l'] eqn:E; [done|]. simplify_eq/=.
  rewrite <- (Nat.add_0_r (Z.to_nat p)), <- lookup_drop, E. done.
Qed.

Lemma byte_list_segment p n l : byte_list l → byte_list (segment p n l).
Proof. intros H. unfold segment, byte_list. by apply Forall_take, Forall_drop. Qed.
#[export] Hint Resolve byte_list_segment : bytes.

Lemma try_usize_u32 z : is_u32 z → try_usize z = Some (Z.to_nat z).
Proof.
  intros H. unfold try_usize. unfold_ints.
  destruct (Z.leb_spec 0 z); [|lia].
  destruct (Z.leb_spec z 18446744073709551615); [done|lia].
Qed.

Lemma try_usize_Some z n : try_usize z = Some n → 0 ≤ z ∧ n = Z.to_nat z.
Proof. unfold try_usize. intros H. case_match; simplify_eq. bool_to_prop. lia. Qed.

Lemma checked_add_u32_Some a b c : checked_add_u32 a b = Some c → c = a + b ∧ a + b ≤ u32_max.
Proof. unfold checked_add_u32. intros H. case_match; simplify_eq. bool_to_prop. lia. Qed.

Lemma checked_add_u32_fits a b : a + b ≤ u32_max → checked_add_u32 a b = Some (a + b).
Proof. unfold checked_add_u32. intros H. destruct (Z.leb_spec (a + b) u32_max); [done|lia]. Qed.

Lemma checked_add_u64_Some a b c : checked_add_u64 a b = Some c → c = a + b ∧ a + b ≤ u64_max.
Proof. unfold checked_add_u64. intros H. case_match; simplify_eq. bool_to_prop. lia. Qed.

Lemma checked_add_u64_fits a b : a + b ≤ u64_max → checked_add_u64 a b = Some (a + b).
Proof. unfold checked_add_u64. intros H. destruct (Z.leb_spec (a + b) u64_max); [done|lia]. Qed.

Lemma checked_add_u8_fits a b : a + b ≤ u8_max → checked_add_u8 a b = Some (a + b).
Proof. unfold checked_add_u8. intros H. destruct (Z.leb_spec (a + b) u8_max); [done|lia]. Qed.

(** Inverts the checked conversions and additions that succeeded. *)
Ltac inv_checked :=
  repeat match goal with
  | H : try_usize _ = Some ?n |- _ => apply try_usize_Some in H as [? H]; subst n
  | H : checked_add_u32 _ _ = Some ?n |- _ => apply checked_add_u32_Some in H as [H ?]; subst n
  | H : checked_add_u64 _ _ = Some ?n |- _ => apply checked_add_u64_Some in H as [H ?]; subst n
  end.

(** ** Packed bits *)

Lemma land_bit a b : 0 ≤ b → Z.land a (Z.shiftl 1 b) = if Z.testbit a b then Z.shiftl 1 b else 0.
Proof.
  intros Hb. apply Z.bits_inj'. intros n Hn. rewrite Z.land_spec, Z.shiftl_spec by done.
  destruct (decide (n = b)) as [->|Hne].
  - rewrite Z.sub_diag. destruct (Z.testbit a b); [by rewrite Z.shiftl_spec, Z.sub_diag by done|].
    by rewrite Z.testbit_0_l.
  - assert (Z.testbit 1 (n - b) = false) as E.
    { destruct (decide (n < b)); [by apply Z.testbit_neg_r; lia|].
      apply Z.bits_above_log2; [lia|]. simpl. lia. }
    rewrite E, andb_false_r.
    destruct (Z.testbit a b); [by rewrite Z.shiftl_spec, E by done|by rewrite Z.testbit_0_l].
Qed.

Lemma land_bit_nonzero a b : 0 ≤ b → negb (Z.land a (Z.shiftl 1 b) =? 0) = Z.testbit a b.
Proof.
  intros Hb. rewrite land_bit by done. destruct (Z.testbit a b); [|done].
  rewrite Z.shiftl_1_l. destruct (Z.eqb_spec (2 ^ b) 0) as [E|]; [|done].
  pose proof (Z.pow_pos_nonneg 2 b). lia.
Qed.

Lemma ldiff_ones_zero a n : 0 ≤ a → 0 ≤ n → Z.ldiff a (Z.ones n) = 0 ↔ a < 2 ^ n.
Proof.
  intros Ha Hn. rewrite Z.ldiff_ones_r, Z.shiftr_div_pow2, Z.shiftl_mul_pow2 by done.
  pose proof (Z.pow_pos_nonneg 2 n ltac:(lia) Hn). split.
  - intros E. assert (a / 2 ^ n = 0) as Hq by nia. apply Z.div_small_iff in Hq; lia.
  - intros. rewrite Z.div_small by lia. done.
Qed.

(** ** Binary search

    [l.binary_search_by_key(&key, f).ok()], as the standard library computes
    it: halve the window, keep the upper half unless its first key is greater
    than [key], and compare the one entry left. *)

Section binary_search.
Context {A : Type} (f : A → Z) (key : Z) (l : list A).

(** The [while size > 1] loop.  The window shrinks at every turn, so a fuel of
    the slice's length is enough ([search_loop_spec]). *)
Fixpoint search_loop (fuel base size : nat) : nat :=
  match fuel with
  | O => base
  | S fuel =>
      if decide (size ≤ 1)%nat then base else
      let half := (size / 2)%nat in
      let mid := (base + half)%nat in
      match l !! mid with
      | None => base
      | Some x => search_loop fuel (if key <? f x then base else mid) (size - half)
      end
  end.

Definition binary_search_by_key : option nat :=
  if decide (l = []) then None else
  let base := search_loop (length l) 0 (length l) in
  x ← l !! base; if f x =? key then Some base else None.

Definition strictly_ascending : Prop :=
  ∀ i j x y, l !! i = Some x → l !! j = Some y → (i < j)%nat → f x < f y.

Lemma search_loop_spec (Hs : strictly_ascending) i x :
  l !! i = Some x → f x = key → ∀ fuel base size,
  (base + size ≤ length l)%nat → (base ≤ i < base + size)%nat → (size ≤ fuel)%nat →
  search_loop fuel base size = i.
Proof.
  intros Hi Hx. induction fuel as [|fuel IH]; intros base size Hw Hin Hf; [lia|]. cbn [search_loop].
  destruct (decide (size ≤ 1)%nat); [lia|].
  pose proof (Nat.Div0.mul_div_le size 2).
  assert (1 ≤ size / 2)%nat by (apply Nat.div_le_lower_bound; lia).
  generalize dependent (size / 2)%nat. intros half Hhalf Hpos.
  destruct (lookup_lt_is_Some_2 l (base + half)%nat) as [y Hy]; [lia|]. rewrite Hy.
  destruct (Z.ltb_spec key (f y)).
  - apply IH; [lia| |lia]. split; [lia|].
    destruct (decide (i < base + half)%nat); [lia|].
    destruct (decide (i = base + half)%nat) as [->|]; [simplify_eq; lia|].
    pose proof (Hs _ _ _ _ Hy Hi ltac:(lia)). lia.
  - apply IH; [lia| |lia]. split; [|lia].
    destruct (decide (i < base + half)%nat); [|lia].
    pose proof (Hs _ _ _ _ Hi Hy ltac:(lia)). lia.
Qed.

Lemma binary_search_Some (Hs : strictly_ascending) i :
  binary_search_by_key = Some i ↔ ∃ x, l !! i = Some x ∧ f x = key.
Proof.
  unfold binary_search_by_key. split.
  - intros H. destruct (decide (l = [])); [done|].
    destruct (l !! search_loop _ _ _) as [x|] eqn:E; simpl in H; [|done].
    destruct (Z.eqb_spec (f x) key); simplify_eq. by exists x.
  - intros (x & Hi & Hx). destruct (decide (l = [])) as [->|]; [done|].
    rewrite (search_loop_spec Hs i x) by (done || (apply lookup_lt_Some in Hi; lia)).
    rewrite Hi. simpl. by rewrite (proj2 (Z.eqb_eq _ _) Hx).
Qed.
End binary_search.

Lemma try_u32_Some z n : try_u32 z = Some n ↔ n = z ∧ is_u32 z.
Proof.
  unfold try_u32. destruct (Z.leb_spec 0 z), (Z.leb_spec z u32_max); simpl; unfold_ints;
    naive_solver lia.
Qed.

(** ** Lists indexed by [Z] *)

Definition at_index {A} (l : list A) (i : Z) : option A :=
  if i <? 0 then None else l !! Z.to_nat i.

Lemma at_index_Some {A} (l : list A) i x :
  at_index l i = Some x ↔ 0 ≤ i ∧ l !! Z.to_nat i = Some x.
Proof. unfold at_index. destruct (Z.ltb_spec i 0); naive_solver lia. Qed.

Lemma at_index_range {A} (l : list A) i x : at_index l i = Some x → 0 ≤ i < len l.
Proof. intros [? Hx%lookup_lt_Some]%at_index_Some. unfold len. lia. Qed.

Lemma at_index_is_Some {A} (l : list A) i : is_Some (at_index l i) ↔ 0 ≤ i < len l.
Proof.
  split; [intros [x ?%at_index_range]; done|]. intros Hi.
  destruct (lookup_lt_is_Some_2 l (Z.to_nat i)) as [x Hx]; [unfold len in Hi; lia|].
  exists x. apply at_index_Some. split; [lia|done].
Qed.

Lemma at_index_insert_eq {A} (l : list A) i x :
  0 ≤ i < len l → at_index (<[Z.to_nat i := x]> l) i = Some x.
Proof.
  intros Hi. apply at_index_Some. split; [lia|]. apply list_lookup_insert_eq. unfold len in Hi. lia.
Qed.

Lemma at_index_insert_ne {A} (l : list A) i j x :
  0 ≤ i → i ≠ j → at_index (<[Z.to_nat i := x]> l) j = at_index l j.
Proof.
  intros Hi Hne. unfold at_index. destruct (Z.ltb_spec j 0); [done|].
  apply list_lookup_insert_ne. lia.
Qed.
