(* ===== verification/Opcode.v ===== *)
(** * The opcode schema

    Models [crates/fusor-bytecode/src/lib.rs] and [opcode_table.rs]: the
    operand formats, the final and temporary opcode tables with their metadata,
    checked opcode decoding and the resolution of stack effects.

    Every type whose Rust variants clash with Rocq names ([None], [In], [Eq],
    ...) lives in a module of its own and its constructors are written
    qualified, as in the source: [FinalOpcode.GetLoc], [OperandFormat.None]. *)

From S2P Require Import Prelude.

(** ** Operand formats *)

Module OperandFormat.

(** The encoding of an opcode's operands. *)
Inductive OperandFormat : Set :=
| None | NoneInt | NoneLoc | NoneArg | NoneVarRef
| U8 | I8 | Loc8 | Const8 | Label8
| U16 | I16 | Label16 | NPop | NPopX | NPopU16
| Loc | Arg | VarRef
| U32 | I32 | Const | Label | Atom
| AtomU8 | AtomU16 | AtomLabelU8 | AtomLabelU16 | LabelU16.

#[global] Instance OperandFormat_eq_dec : EqDecision OperandFormat.
Proof. solve_decision. Defined.

(** The number of encoded operand bytes. *)
Definition operand_width (f : OperandFormat) : Z :=
  match f with
  | None | NoneInt | NoneLoc | NoneArg | NoneVarRef | NPopX => 0
  | U8 | I8 | Loc8 | Const8 | Label8 => 1
  | U16 | I16 | Label16 | NPop | Loc | Arg | VarRef => 2
  | NPopU16 | U32 | I32 | Const | Label | Atom => 4
  | AtomU8 => 5
  | AtomU16 | LabelU16 => 6
  | AtomLabelU8 => 9
  | AtomLabelU16 => 10
  end.

(** The full encoded instruction size, its opcode byte included. *)
Definition instruction_size (f : OperandFormat) : Z := operand_width f + 1.

(** The spelling used by the upstream macro table. *)
Definition upstream_name (f : OperandFormat) : string :=
  match f with
  | None => "none" | NoneInt => "none_int" | NoneLoc => "none_loc"
  | NoneArg => "none_arg" | NoneVarRef => "none_var_ref"
  | U8 => "u8" | I8 => "i8" | Loc8 => "loc8" | Const8 => "const8" | Label8 => "label8"
  | U16 => "u16" | I16 => "i16" | Label16 => "label16"
  | NPop => "npop" | NPopX => "npopx" | NPopU16 => "npop_u16"
  | Loc => "loc" | Arg => "arg" | VarRef => "var_ref"
  | U32 => "u32" | I32 => "i32" | Const => "const" | Label => "label" | Atom => "atom"
  | AtomU8 => "atom_u8" | AtomU16 => "atom_u16" | AtomLabelU8 => "atom_label_u8"
  | AtomLabelU16 => "atom_label_u16" | LabelU16 => "label_u16"
  end%string.

End OperandFormat.
Notation OperandFormat := OperandFormat.OperandFormat.

(** ** Stack effects and opcode metadata *)

(** The number of stack values popped and pushed by an instruction. *)
Record StackEffect := mkStackEffect { pops : Z; pushes : Z }.

Definition net_change (e : StackEffect) : Z := pushes e - pops e.

Definition with_additional_pops (e : StackEffect) (additional_pops : Z) : StackEffect :=
  mkStackEffect (pops e + additional_pops) (pushes e).

(** Static metadata for one final or temporary opcode. *)
Module OpcodeMetadata.

Record OpcodeMetadata := mk {
  mnemonic : string;
  instruction_size : Z;
  base_pops : Z;
  base_pushes : Z;
  operand_format : OperandFormat }.

Definition base_stack_effect (m : OpcodeMetadata) : StackEffect :=
  mkStackEffect (base_pops m) (base_pushes m).

End OpcodeMetadata.
Notation OpcodeMetadata := OpcodeMetadata.OpcodeMetadata.

(** ** Final opcodes *)

Module FinalOpcode.
Import OpcodeMetadata.

(** A final bytecode opcode: the variants of the table's [final] section, then
    those of its [short] section. *)
Inductive FinalOpcode : Set :=
  | Invalid | PushI32 | PushConst | FClosure | PushAtomValue | PrivateSymbol | Undefined | Null
  | PushThis | PushFalse | PushTrue | Object | SpecialObject | Rest | Drop | Nip | Nip1 | Dup
  | Dup1 | Dup2 | Dup3 | Insert2 | Insert3 | Insert4 | Perm3 | Perm4 | Perm5 | Swap | Swap2
  | Rot3l | Rot3r | Rot4l | Rot5l | CallConstructor | Call | TailCall | CallMethod
  | TailCallMethod | ArrayFrom | Apply | Return | ReturnUndef | CheckCtorReturn | CheckCtor
  | InitCtor | CheckBrand | AddBrand | ReturnAsync | Throw | ThrowError | Eval | ApplyEval
  | RegExp | GetSuper | Import | ImportDefer | GetVarUndef | GetVar | PutVar | PutVarInit
  | GetRefValue | PutRefValue | GetField | GetField2 | PutField | GetPrivateField
  | PutPrivateField | DefinePrivateField | GetArrayEl | GetArrayEl2 | GetArrayEl3 | PutArrayEl
  | GetSuperValue | PutSuperValue | DefineField | SetName | SetNameComputed | SetProto
  | SetHomeObject | DefineArrayEl | Append | CopyDataProperties | DefineMethod
  | DefineMethodComputed | DefineClass | DefineClassComputed | GetLoc | PutLoc | SetLoc
  | GetArg | PutArg | SetArg | GetVarRef | PutVarRef | SetVarRef | SetLocUninitialized
  | GetLocCheck | PutLocCheck | SetLocCheck | PutLocCheckInit | GetLocCheckThis
  | GetVarRefCheck | PutVarRefCheck | PutVarRefCheckInit | CloseLoc | IfFalse | IfTrue | Goto
  | Catch | Gosub | Ret | NipCatch | ToObject | ToPropKey | WithGetVar | WithPutVar
  | WithDeleteVar | WithMakeRef | WithGetRef | MakeLocRef | MakeArgRef | MakeVarRefRef
  | MakeVarRef | ForInStart | ForOfStart | ForAwaitOfStart | ForInNext | ForOfNext
  | ForAwaitOfNext | IteratorCheckObject | IteratorGetValueDone | IteratorClose | IteratorNext
  | IteratorCall | InitialYield | Yield | YieldStar | AsyncYieldStar | Await | Neg | Plus | Dec
  | Inc | PostDec | PostInc | DecLoc | IncLoc | AddLoc | Not | Lnot | Typeof | Delete
  | DeleteVar | Mul | Div | Mod | Add | Sub | Pow | Shl | Sar | Shr | Lt | Lte | Gt | Gte
  | InstanceOf | In | Eq | Neq | StrictEq | StrictNeq | And | Xor | Or | IsUndefinedOrNull
  | PrivateIn | PushBigIntI32 | Nop | PushMinus1 | Push0 | Push1 | Push2 | Push3 | Push4
  | Push5 | Push6 | Push7 | PushI8 | PushI16 | PushConst8 | FClosure8 | PushEmptyString
  | GetLoc8 | PutLoc8 | SetLoc8 | GetLoc0 | GetLoc1 | GetLoc2 | GetLoc3 | PutLoc0 | PutLoc1
  | PutLoc2 | PutLoc3 | SetLoc0 | SetLoc1 | SetLoc2 | SetLoc3 | GetArg0 | GetArg1 | GetArg2
  | GetArg3 | PutArg0 | PutArg1 | PutArg2 | PutArg3 | SetArg0 | SetArg1 | SetArg2 | SetArg3
  | GetVarRef0 | GetVarRef1 | GetVarRef2 | GetVarRef3 | PutVarRef0 | PutVarRef1 | PutVarRef2
  | PutVarRef3 | SetVarRef0 | SetVarRef1 | SetVarRef2 | SetVarRef3 | GetLength | IfFalse8
  | IfTrue8 | Goto8 | Goto16 | Call0 | Call1 | Call2 | Call3 | IsUndefined | IsNull
  | TypeofIsUndefined | TypeofIsFunction | TailApply | TailEval | TailApplyEval | ImportMeta.

(** The one-byte discriminant: the variant's position. *)
Definition encoded_byte (o : FinalOpcode) : Z :=
  match o with
  | Invalid => 0 | PushI32 => 1 | PushConst => 2 | FClosure => 3 | PushAtomValue => 4
  | PrivateSymbol => 5 | Undefined => 6 | Null => 7 | PushThis => 8 | PushFalse => 9
  | PushTrue => 10 | Object => 11 | SpecialObject => 12 | Rest => 13 | Drop => 14 | Nip => 15
  | Nip1 => 16 | Dup => 17 | Dup1 => 18 | Dup2 => 19 | Dup3 => 20 | Insert2 => 21
  | Insert3 => 22 | Insert4 => 23 | Perm3 => 24 | Perm4 => 25 | Perm5 => 26 | Swap => 27
  | Swap2 => 28 | Rot3l => 29 | Rot3r => 30 | Rot4l => 31 | Rot5l => 32 | CallConstructor => 33
  | Call => 34 | TailCall => 35 | CallMethod => 36 | TailCallMethod => 37 | ArrayFrom => 38
  | Apply => 39 | Return => 40 | ReturnUndef => 41 | CheckCtorReturn => 42 | CheckCtor => 43
  | InitCtor => 44 | CheckBrand => 45 | AddBrand => 46 | ReturnAsync => 47 | Throw => 48
  | ThrowError => 49 | Eval => 50 | ApplyEval => 51 | RegExp => 52 | GetSuper => 53
  | Import => 54 | ImportDefer => 55 | GetVarUndef => 56 | GetVar => 57 | PutVar => 58
  | PutVarInit => 59 | GetRefValue => 60 | PutRefValue => 61 | GetField => 62 | GetField2 => 63
  | PutField => 64 | GetPrivateField => 65 | PutPrivateField => 66 | DefinePrivateField => 67
  | GetArrayEl => 68 | GetArrayEl2 => 69 | GetArrayEl3 => 70 | PutArrayEl => 71
  | GetSuperValue => 72 | PutSuperValue => 73 | DefineField => 74 | SetName => 75
  | SetNameComputed => 76 | SetProto => 77 | SetHomeObject => 78 | DefineArrayEl => 79
  | Append => 80 | CopyDataProperties => 81 | DefineMethod => 82 | DefineMethodComputed => 83
  | DefineClass => 84 | DefineClassComputed => 85 | GetLoc => 86 | PutLoc => 87 | SetLoc => 88
  | GetArg => 89 | PutArg => 90 | SetArg => 91 | GetVarRef => 92 | PutVarRef => 93
  | SetVarRef => 94 | SetLocUninitialized => 95 | GetLocCheck => 96 | PutLocCheck => 97
  | SetLocCheck => 98 | PutLocCheckInit => 99 | GetLocCheckThis => 100 | GetVarRefCheck => 101
  | PutVarRefCheck => 102 | PutVarRefCheckInit => 103 | CloseLoc => 104 | IfFalse => 105
  | IfTrue => 106 | Goto => 107 | Catch => 108 | Gosub => 109 | Ret => 110 | NipCatch => 111
  | ToObject => 112 | ToPropKey => 113 | WithGetVar => 114 | WithPutVar => 115
  | WithDeleteVar => 116 | WithMakeRef => 117 | WithGetRef => 118 | MakeLocRef => 119
  | MakeArgRef => 120 | MakeVarRefRef => 121 | MakeVarRef => 122 | ForInStart => 123
  | ForOfStart => 124 | ForAwaitOfStart => 125 | ForInNext => 126 | ForOfNext => 127
  | ForAwaitOfNext => 128 | IteratorCheckObject => 129 | IteratorGetValueDone => 130
  | IteratorClose => 131 | IteratorNext => 132 | IteratorCall => 133 | InitialYield => 134
  | Yield => 135 | YieldStar => 136 | AsyncYieldStar => 137 | Await => 138 | Neg => 139
  | Plus => 140 | Dec => 141 | Inc => 142 | PostDec => 143 | PostInc => 144 | DecLoc => 145
  | IncLoc => 146 | AddLoc => 147 | Not => 148 | Lnot => 149 | Typeof => 150 | Delete => 151
  | DeleteVar => 152 | Mul => 153 | Div => 154 | Mod => 155 | Add => 156 | Sub => 157
  | Pow => 158 | Shl => 159 | Sar => 160 | Shr => 161 | Lt => 162 | Lte => 163 | Gt => 164
  | Gte => 165 | InstanceOf => 166 | In => 167 | Eq => 168 | Neq => 169 | StrictEq => 170
  | StrictNeq => 171 | And => 172 | Xor => 173 | Or => 174 | IsUndefinedOrNull => 175
  | PrivateIn => 176 | PushBigIntI32 => 177 | Nop => 178 | PushMinus1 => 179 | Push0 => 180
  | Push1 => 181 | Push2 => 182 | Push3 => 183 | Push4 => 184 | Push5 => 185 | Push6 => 186
  | Push7 => 187 | PushI8 => 188 | PushI16 => 189 | PushConst8 => 190 | FClosure8 => 191
  | PushEmptyString => 192 | GetLoc8 => 193 | PutLoc8 => 194 | SetLoc8 => 195 | GetLoc0 => 196
  | GetLoc1 => 197 | GetLoc2 => 198 | GetLoc3 => 199 | PutLoc0 => 200 | PutLoc1 => 201
  | PutLoc2 => 202 | PutLoc3 => 203 | SetLoc0 => 204 | SetLoc1 => 205 | SetLoc2 => 206
  | SetLoc3 => 207 | GetArg0 => 208 | GetArg1 => 209 | GetArg2 => 210 | GetArg3 => 211
  | PutArg0 => 212 | PutArg1 => 213 | PutArg2 => 214 | PutArg3 => 215 | SetArg0 => 216
  | SetArg1 => 217 | SetArg2 => 218 | SetArg3 => 219 | GetVarRef0 => 220 | GetVarRef1 => 221
  | GetVarRef2 => 222 | GetVarRef3 => 223 | PutVarRef0 => 224 | PutVarRef1 => 225
  | PutVarRef2 => 226 | PutVarRef3 => 227 | SetVarRef0 => 228 | SetVarRef1 => 229
  | SetVarRef2 => 230 | SetVarRef3 => 231 | GetLength => 232 | IfFalse8 => 233 | IfTrue8 => 234
  | Goto8 => 235 | Goto16 => 236 | Call0 => 237 | Call1 => 238 | Call2 => 239 | Call3 => 240
  | IsUndefined => 241 | IsNull => 242 | TypeofIsUndefined => 243 | TypeofIsFunction => 244
  | TailApply => 245 | TailEval => 246 | TailApplyEval => 247 | ImportMeta => 248
  end.

(** The variants of the [final] and of the [short] section, in order. *)
Definition final_section_opcodes : list FinalOpcode := [
  Invalid; PushI32; PushConst; FClosure; PushAtomValue; PrivateSymbol; Undefined; Null;
  PushThis; PushFalse; PushTrue; Object; SpecialObject; Rest; Drop; Nip; Nip1; Dup; Dup1; Dup2;
  Dup3; Insert2; Insert3; Insert4; Perm3; Perm4; Perm5; Swap; Swap2; Rot3l; Rot3r; Rot4l;
  Rot5l; CallConstructor; Call; TailCall; CallMethod; TailCallMethod; ArrayFrom; Apply; Return;
  ReturnUndef; CheckCtorReturn; CheckCtor; InitCtor; CheckBrand; AddBrand; ReturnAsync; Throw;
  ThrowError; Eval; ApplyEval; RegExp; GetSuper; Import; ImportDefer; GetVarUndef; GetVar;
  PutVar; PutVarInit; GetRefValue; PutRefValue; GetField; GetField2; PutField; GetPrivateField;
  PutPrivateField; DefinePrivateField; GetArrayEl; GetArrayEl2; GetArrayEl3; PutArrayEl;
  GetSuperValue; PutSuperValue; DefineField; SetName; SetNameComputed; SetProto; SetHomeObject;
  DefineArrayEl; Append; CopyDataProperties; DefineMethod; DefineMethodComputed; DefineClass;
  DefineClassComputed; GetLoc; PutLoc; SetLoc; GetArg; PutArg; SetArg; GetVarRef; PutVarRef;
  SetVarRef; SetLocUninitialized; GetLocCheck; PutLocCheck; SetLocCheck; PutLocCheckInit;
  GetLocCheckThis; GetVarRefCheck; PutVarRefCheck; PutVarRefCheckInit; CloseLoc; IfFalse;
  IfTrue; Goto; Catch; Gosub; Ret; NipCatch; ToObject; ToPropKey; WithGetVar; WithPutVar;
  WithDeleteVar; WithMakeRef; WithGetRef; MakeLocRef; MakeArgRef; MakeVarRefRef; MakeVarRef;
  ForInStart; ForOfStart; ForAwaitOfStart; ForInNext; ForOfNext; ForAwaitOfNext;
  IteratorCheckObject; IteratorGetValueDone; IteratorClose; IteratorNext; IteratorCall;
  InitialYield; Yield; YieldStar; AsyncYieldStar; Await; Neg; Plus; Dec; Inc; PostDec; PostInc;
  DecLoc; IncLoc; AddLoc; Not; Lnot; Typeof; Delete; DeleteVar; Mul; Div; Mod; Add; Sub; Pow;
  Shl; Sar; Shr; Lt; Lte; Gt; Gte; InstanceOf; In; Eq; Neq; StrictEq; StrictNeq; And; Xor; Or;
  IsUndefinedOrNull; PrivateIn; PushBigIntI32; Nop
].

Definition short_section_opcodes : list FinalOpcode := [
  PushMinus1; Push0; Push1; Push2; Push3; Push4; Push5; Push6; Push7; PushI8; PushI16;
  PushConst8; FClosure8; PushEmptyString; GetLoc8; PutLoc8; SetLoc8; GetLoc0; GetLoc1; GetLoc2;
  GetLoc3; PutLoc0; PutLoc1; PutLoc2; PutLoc3; SetLoc0; SetLoc1; SetLoc2; SetLoc3; GetArg0;
  GetArg1; GetArg2; GetArg3; PutArg0; PutArg1; PutArg2; PutArg3; SetArg0; SetArg1; SetArg2;
  SetArg3; GetVarRef0; GetVarRef1; GetVarRef2; GetVarRef3; PutVarRef0; PutVarRef1; PutVarRef2;
  PutVarRef3; SetVarRef0; SetVarRef1; SetVarRef2; SetVarRef3; GetLength; IfFalse8; IfTrue8;
  Goto8; Goto16; Call0; Call1; Call2; Call3; IsUndefined; IsNull; TypeofIsUndefined;
  TypeofIsFunction; TailApply; TailEval; TailApplyEval; ImportMeta
].

(** Every final opcode in encoded-byte order. *)
Definition ALL_FINAL_OPCODES : list FinalOpcode :=
  final_section_opcodes ++ short_section_opcodes.

(** The metadata rows of the [final] section: values, calls and properties,
    then variables, control flow and operators. *)
Definition final_section_metadata_values : list OpcodeMetadata := [
  mk "invalid" 1 0 0 OperandFormat.None;
  mk "push_i32" 5 0 1 OperandFormat.I32;
  mk "push_const" 5 0 1 OperandFormat.Const;
  mk "fclosure" 5 0 1 OperandFormat.Const;
  mk "push_atom_value" 5 0 1 OperandFormat.Atom;
  mk "private_symbol" 5 0 1 OperandFormat.Atom;
  mk "undefined" 1 0 1 OperandFormat.None;
  mk "null" 1 0 1 OperandFormat.None;
  mk "push_this" 1 0 1 OperandFormat.None;
  mk "push_false" 1 0 1 OperandFormat.None;
  mk "push_true" 1 0 1 OperandFormat.None;
  mk "object" 1 0 1 OperandFormat.None;
  mk "special_object" 2 0 1 OperandFormat.U8;
  mk "rest" 3 0 1 OperandFormat.U16;
  mk "drop" 1 1 0 OperandFormat.None;
  mk "nip" 1 2 1 OperandFormat.None;
  mk "nip1" 1 3 2 OperandFormat.None;
  mk "dup" 1 1 2 OperandFormat.None;
  mk "dup1" 1 2 3 OperandFormat.None;
  mk "dup2" 1 2 4 OperandFormat.None;
  mk "dup3" 1 3 6 OperandFormat.None;
  mk "insert2" 1 2 3 OperandFormat.None;
  mk "insert3" 1 3 4 OperandFormat.None;
  mk "insert4" 1 4 5 OperandFormat.None;
  mk "perm3" 1 3 3 OperandFormat.None;
  mk "perm4" 1 4 4 OperandFormat.None;
  mk "perm5" 1 5 5 OperandFormat.None;
  mk "swap" 1 2 2 OperandFormat.None;
  mk "swap2" 1 4 4 OperandFormat.None;
  mk "rot3l" 1 3 3 OperandFormat.None;
  mk "rot3r" 1 3 3 OperandFormat.None;
  mk "rot4l" 1 4 4 OperandFormat.None;
  mk "rot5l" 1 5 5 OperandFormat.None;
  mk "call_constructor" 3 2 1 OperandFormat.NPop;
  mk "call" 3 1 1 OperandFormat.NPop;
  mk "tail_call" 3 1 0 OperandFormat.NPop;
  mk "call_method" 3 2 1 OperandFormat.NPop;
  mk "tail_call_method" 3 2 0 OperandFormat.NPop;
  mk "array_from" 3 0 1 OperandFormat.NPop;
  mk "apply" 3 3 1 OperandFormat.U16;
  mk "return" 1 1 0 OperandFormat.None;
  mk "return_undef" 1 0 0 OperandFormat.None;
  mk "check_ctor_return" 1 1 2 OperandFormat.None;
  mk "check_ctor" 1 0 0 OperandFormat.None;
  mk "init_ctor" 1 0 1 OperandFormat.None;
  mk "check_brand" 1 2 2 OperandFormat.None;
  mk "add_brand" 1 2 0 OperandFormat.None;
  mk "return_async" 1 1 0 OperandFormat.None;
  mk "throw" 1 1 0 OperandFormat.None;
  mk "throw_error" 6 0 0 OperandFormat.AtomU8;
  mk "eval" 5 1 1 OperandFormat.NPopU16;
  mk "apply_eval" 3 2 1 OperandFormat.U16;
  mk "regexp" 1 2 1 OperandFormat.None;
  mk "get_super" 1 1 1 OperandFormat.None;
  mk "import" 1 2 1 OperandFormat.None;
  mk "import_defer" 1 2 1 OperandFormat.None;
  mk "get_var_undef" 3 0 1 OperandFormat.VarRef;
  mk "get_var" 3 0 1 OperandFormat.VarRef;
  mk "put_var" 3 1 0 OperandFormat.VarRef;
  mk "put_var_init" 3 1 0 OperandFormat.VarRef;
  mk "get_ref_value" 1 2 3 OperandFormat.None;
  mk "put_ref_value" 1 3 0 OperandFormat.None;
  mk "get_field" 5 1 1 OperandFormat.Atom;
  mk "get_field2" 5 1 2 OperandFormat.Atom;
  mk "put_field" 5 2 0 OperandFormat.Atom;
  mk "get_private_field" 1 2 1 OperandFormat.None;
  mk "put_private_field" 1 3 0 OperandFormat.None;
  mk "define_private_field" 2 3 1 OperandFormat.U8;
  mk "get_array_el" 1 2 1 OperandFormat.None;
  mk "get_array_el2" 1 2 2 OperandFormat.None;
  mk "get_array_el3" 1 2 3 OperandFormat.None;
  mk "put_array_el" 1 3 0 OperandFormat.None;
  mk "get_super_value" 1 3 1 OperandFormat.None;
  mk "put_super_value" 1 4 0 OperandFormat.None;
  mk "define_field" 5 2 1 OperandFormat.Atom;
  mk "set_name" 5 1 1 OperandFormat.Atom;
  mk "set_name_computed" 1 2 2 OperandFormat.None;
  mk "set_proto" 1 2 1 OperandFormat.None;
  mk "set_home_object" 1 2 2 OperandFormat.None;
  mk "define_array_el" 1 3 2 OperandFormat.None;
  mk "append" 1 3 2 OperandFormat.None;
  mk "copy_data_properties" 2 3 3 OperandFormat.U8;
  mk "define_method" 6 2 1 OperandFormat.AtomU8;
  mk "define_method_computed" 2 3 1 OperandFormat.U8;
  mk "define_class" 6 2 2 OperandFormat.AtomU8;
  mk "define_class_computed" 6 3 3 OperandFormat.AtomU8
].

Definition final_section_metadata_variables : list OpcodeMetadata := [
  mk "get_loc" 3 0 1 OperandFormat.Loc;
  mk "put_loc" 3 1 0 OperandFormat.Loc;
  mk "set_loc" 3 1 1 OperandFormat.Loc;
  mk "get_arg" 3 0 1 OperandFormat.Arg;
  mk "put_arg" 3 1 0 OperandFormat.Arg;
  mk "set_arg" 3 1 1 OperandFormat.Arg;
  mk "get_var_ref" 3 0 1 OperandFormat.VarRef;
  mk "put_var_ref" 3 1 0 OperandFormat.VarRef;
  mk "set_var_ref" 3 1 1 OperandFormat.VarRef;
  mk "set_loc_uninitialized" 3 0 0 OperandFormat.Loc;
  mk "get_loc_check" 3 0 1 OperandFormat.Loc;
  mk "put_loc_check" 3 1 0 OperandFormat.Loc;
  mk "set_loc_check" 3 1 1 OperandFormat.Loc;
  mk "put_loc_check_init" 3 1 0 OperandFormat.Loc;
  mk "get_loc_checkthis" 3 0 1 OperandFormat.Loc;
  mk "get_var_ref_check" 3 0 1 OperandFormat.VarRef;
  mk "put_var_ref_check" 3 1 0 OperandFormat.VarRef;
  mk "put_var_ref_check_init" 3 1 0 OperandFormat.VarRef;
  mk "close_loc" 3 0 0 OperandFormat.Loc;
  mk "if_false" 5 1 0 OperandFormat.Label;
  mk "if_true" 5 1 0 OperandFormat.Label;
  mk "goto" 5 0 0 OperandFormat.Label;
  mk "catch" 5 0 1 OperandFormat.Label;
  mk "gosub" 5 0 0 OperandFormat.Label;
  mk "ret" 1 1 0 OperandFormat.None;
  mk "nip_catch" 1 2 1 OperandFormat.None;
  mk "to_object" 1 1 1 OperandFormat.None;
  mk "to_propkey" 1 1 1 OperandFormat.None;
  mk "with_get_var" 10 1 0 OperandFormat.AtomLabelU8;
  mk "with_put_var" 10 2 1 OperandFormat.AtomLabelU8;
  mk "with_delete_var" 10 1 0 OperandFormat.AtomLabelU8;
  mk "with_make_ref" 10 1 0 OperandFormat.AtomLabelU8;
  mk "with_get_ref" 10 1 0 OperandFormat.AtomLabelU8;
  mk "make_loc_ref" 7 0 2 OperandFormat.AtomU16;
  mk "make_arg_ref" 7 0 2 OperandFormat.AtomU16;
  mk "make_var_ref_ref" 7 0 2 OperandFormat.AtomU16;
  mk "make_var_ref" 5 0 2 OperandFormat.Atom;
  mk "for_in_start" 1 1 1 OperandFormat.None;
  mk "for_of_start" 1 1 3 OperandFormat.None;
  mk "for_await_of_start" 1 1 3 OperandFormat.None;
  mk "for_in_next" 1 1 3 OperandFormat.None;
  mk "for_of_next" 2 3 5 OperandFormat.U8;
  mk "for_await_of_next" 1 3 4 OperandFormat.None;
  mk "iterator_check_object" 1 1 1 OperandFormat.None;
  mk "iterator_get_value_done" 1 2 3 OperandFormat.None;
  mk "iterator_close" 1 3 0 OperandFormat.None;
  mk "iterator_next" 1 4 4 OperandFormat.None;
  mk "iterator_call" 2 4 5 OperandFormat.U8;
  mk "initial_yield" 1 0 0 OperandFormat.None;
  mk "yield" 1 1 2 OperandFormat.None;
  mk "yield_star" 1 1 2 OperandFormat.None;
  mk "async_yield_star" 1 1 2 OperandFormat.None;
  mk "await" 1 1 1 OperandFormat.None;
  mk "neg" 1 1 1 OperandFormat.None;
  mk "plus" 1 1 1 OperandFormat.None;
  mk "dec" 1 1 1 OperandFormat.None;
  mk "inc" 1 1 1 OperandFormat.None;
  mk "post_dec" 1 1 2 OperandFormat.None;
  mk "post_inc" 1 1 2 OperandFormat.None;
  mk "dec_loc" 2 0 0 OperandFormat.Loc8;
  mk "inc_loc" 2 0 0 OperandFormat.Loc8;
  mk "add_loc" 2 1 0 OperandFormat.Loc8;
  mk "not" 1 1 1 OperandFormat.None;
  mk "lnot" 1 1 1 OperandFormat.None;
  mk "typeof" 1 1 1 OperandFormat.None;
  mk "delete" 1 2 1 OperandFormat.None;
  mk "delete_var" 5 0 1 OperandFormat.Atom;
  mk "mul" 1 2 1 OperandFormat.None;
  mk "div" 1 2 1 OperandFormat.None;
  mk "mod" 1 2 1 OperandFormat.None;
  mk "add" 1 2 1 OperandFormat.None;
  mk "sub" 1 2 1 OperandFormat.None;
  mk "pow" 1 2 1 OperandFormat.None;
  mk "shl" 1 2 1 OperandFormat.None;
  mk "sar" 1 2 1 OperandFormat.None;
  mk "shr" 1 2 1 OperandFormat.None;
  mk "lt" 1 2 1 OperandFormat.None;
  mk "lte" 1 2 1 OperandFormat.None;
  mk "gt" 1 2 1 OperandFormat.None;
  mk "gte" 1 2 1 OperandFormat.None;
  mk "instanceof" 1 2 1 OperandFormat.None;
  mk "in" 1 2 1 OperandFormat.None;
  mk "eq" 1 2 1 OperandFormat.None;
  mk "neq" 1 2 1 OperandFormat.None;
  mk "strict_eq" 1 2 1 OperandFormat.None;
  mk "strict_neq" 1 2 1 OperandFormat.None;
  mk "and" 1 2 1 OperandFormat.None;
  mk "xor" 1 2 1 OperandFormat.None;
  mk "or" 1 2 1 OperandFormat.None;
  mk "is_undefined_or_null" 1 1 1 OperandFormat.None;
  mk "private_in" 1 2 1 OperandFormat.None;
  mk "push_bigint_i32" 5 0 1 OperandFormat.I32;
  mk "nop" 1 0 0 OperandFormat.None
].

Definition short_section_metadata : list OpcodeMetadata := [
  mk "push_minus1" 1 0 1 OperandFormat.NoneInt;
  mk "push_0" 1 0 1 OperandFormat.NoneInt;
  mk "push_1" 1 0 1 OperandFormat.NoneInt;
  mk "push_2" 1 0 1 OperandFormat.NoneInt;
  mk "push_3" 1 0 1 OperandFormat.NoneInt;
  mk "push_4" 1 0 1 OperandFormat.NoneInt;
  mk "push_5" 1 0 1 OperandFormat.NoneInt;
  mk "push_6" 1 0 1 OperandFormat.NoneInt;
  mk "push_7" 1 0 1 OperandFormat.NoneInt;
  mk "push_i8" 2 0 1 OperandFormat.I8;
  mk "push_i16" 3 0 1 OperandFormat.I16;
  mk "push_const8" 2 0 1 OperandFormat.Const8;
  mk "fclosure8" 2 0 1 OperandFormat.Const8;
  mk "push_empty_string" 1 0 1 OperandFormat.None;
  mk "get_loc8" 2 0 1 OperandFormat.Loc8;
  mk "put_loc8" 2 1 0 OperandFormat.Loc8;
  mk "set_loc8" 2 1 1 OperandFormat.Loc8;
  mk "get_loc0" 1 0 1 OperandFormat.NoneLoc;
  mk "get_loc1" 1 0 1 OperandFormat.NoneLoc;
  mk "get_loc2" 1 0 1 OperandFormat.NoneLoc;
  mk "get_loc3" 1 0 1 OperandFormat.NoneLoc;
  mk "put_loc0" 1 1 0 OperandFormat.NoneLoc;
  mk "put_loc1" 1 1 0 OperandFormat.NoneLoc;
  mk "put_loc2" 1 1 0 OperandFormat.NoneLoc;
  mk "put_loc3" 1 1 0 OperandFormat.NoneLoc;
  mk "set_loc0" 1 1 1 OperandFormat.NoneLoc;
  mk "set_loc1" 1 1 1 OperandFormat.NoneLoc;
  mk "set_loc2" 1 1 1 OperandFormat.NoneLoc;
  mk "set_loc3" 1 1 1 OperandFormat.NoneLoc;
  mk "get_arg0" 1 0 1 OperandFormat.NoneArg;
  mk "get_arg1" 1 0 1 OperandFormat.NoneArg;
  mk "get_arg2" 1 0 1 OperandFormat.NoneArg;
  mk "get_arg3" 1 0 1 OperandFormat.NoneArg;
  mk "put_arg0" 1 1 0 OperandFormat.NoneArg;
  mk "put_arg1" 1 1 0 OperandFormat.NoneArg;
  mk "put_arg2" 1 1 0 OperandFormat.NoneArg;
  mk "put_arg3" 1 1 0 OperandFormat.NoneArg;
  mk "set_arg0" 1 1 1 OperandFormat.NoneArg;
  mk "set_arg1" 1 1 1 OperandFormat.NoneArg;
  mk "set_arg2" 1 1 1 OperandFormat.NoneArg;
  mk "set_arg3" 1 1 1 OperandFormat.NoneArg;
  mk "get_var_ref0" 1 0 1 OperandFormat.NoneVarRef;
  mk "get_var_ref1" 1 0 1 OperandFormat.NoneVarRef;
  mk "get_var_ref2" 1 0 1 OperandFormat.NoneVarRef;
  mk "get_var_ref3" 1 0 1 OperandFormat.NoneVarRef;
  mk "put_var_ref0" 1 1 0 OperandFormat.NoneVarRef;
  mk "put_var_ref1" 1 1 0 OperandFormat.NoneVarRef;
  mk "put_var_ref2" 1 1 0 OperandFormat.NoneVarRef;
  mk "put_var_ref3" 1 1 0 OperandFormat.NoneVarRef;
  mk "set_var_ref0" 1 1 1 OperandFormat.NoneVarRef;
  mk "set_var_ref1" 1 1 1 OperandFormat.NoneVarRef;
  mk "set_var_ref2" 1 1 1 OperandFormat.NoneVarRef;
  mk "set_var_ref3" 1 1 1 OperandFormat.NoneVarRef;
  mk "get_length" 1 1 1 OperandFormat.None;
  mk "if_false8" 2 1 0 OperandFormat.Label8;
  mk "if_true8" 2 1 0 OperandFormat.Label8;
  mk "goto8" 2 0 0 OperandFormat.Label8;
  mk "goto16" 3 0 0 OperandFormat.Label16;
  mk "call0" 1 1 1 OperandFormat.NPopX;
  mk "call1" 1 1 1 OperandFormat.NPopX;
  mk "call2" 1 1 1 OperandFormat.NPopX;
  mk "call3" 1 1 1 OperandFormat.NPopX;
  mk "is_undefined" 1 1 1 OperandFormat.None;
  mk "is_null" 1 1 1 OperandFormat.None;
  mk "typeof_is_undefined" 1 1 1 OperandFormat.None;
  mk "typeof_is_function" 1 1 1 OperandFormat.None;
  mk "tail_apply" 3 3 0 OperandFormat.U16;
  mk "tail_eval" 5 1 0 OperandFormat.NPopU16;
  mk "tail_apply_eval" 3 2 0 OperandFormat.U16;
  mk "import_meta" 1 0 1 OperandFormat.None
].

Definition FINAL_OPCODE_METADATA : list OpcodeMetadata :=
  final_section_metadata_values ++ final_section_metadata_variables ++ short_section_metadata.

(** This opcode's static metadata: the row at its encoded byte (the index is
    always in range, [metadata_row]). *)
Definition metadata (o : FinalOpcode) : OpcodeMetadata :=
  nth (Z.to_nat (encoded_byte o)) FINAL_OPCODE_METADATA (mk "" 0 0 0 OperandFormat.None).

Definition FIRST_SHORT_OPCODE_BYTE : Z := encoded_byte PushMinus1.

Definition FINAL_OPCODE_COUNT : Z := len ALL_FINAL_OPCODES.

(** Whether this opcode is in the final short-opcode range. *)
Definition is_short (o : FinalOpcode) : bool := FIRST_SHORT_OPCODE_BYTE <=? encoded_byte o.

(** Converts a table byte to an opcode, the reserved sentinel included. *)
Definition from_table_byte (byte : Z) : option FinalOpcode :=
  ALL_FINAL_OPCODES !! Z.to_nat byte.

(** Failure to decode a byte as a final opcode. *)
Inductive FinalOpcodeDecodeError : Set :=
| ReservedInvalid
| Unknown (byte : Z).

(** Checks and decodes one final opcode byte. *)
Definition decode (byte : Z) : result FinalOpcodeDecodeError FinalOpcode :=
  match from_table_byte byte with
  | Some Invalid => Err ReservedInvalid
  | Some opcode => Ok opcode
  | None => Err (Unknown byte)
  end.

(** The location of an opcode's dynamic argument count. *)
Inductive ArgumentCountSource : Set :=
| NoArgumentCount
| FirstU16Operand
| Opcode.

Definition argument_count_source (o : FinalOpcode) : ArgumentCountSource :=
  match operand_format (metadata o) with
  | OperandFormat.NPop | OperandFormat.NPopU16 => FirstU16Operand
  | OperandFormat.NPopX => Opcode
  | _ => NoArgumentCount
  end.

(** Failure to resolve an opcode's complete stack effect. *)
Inductive StackEffectError : Set :=
| MissingArgumentCount (opcode : FinalOpcode)
| UnexpectedArgumentCount (opcode : FinalOpcode) (argument_count : Z)
| InvalidImplicitArgumentOpcode (opcode : FinalOpcode).

(** The argument count that [call0] to [call3] imply. *)
Definition implicit_argument_count (o : FinalOpcode) : option Z :=
  match o with
  | Call0 => Some 0
  | Call1 => Some 1
  | Call2 => Some 2
  | Call3 => Some 3
  | _ => None
  end.

(** Resolves the full stack effect for this opcode. *)
Definition stack_effect (o : FinalOpcode) (argument_count : option Z) :
    result StackEffectError StackEffect :=
  let base := base_stack_effect (metadata o) in
  match operand_format (metadata o) with
  | OperandFormat.NPop | OperandFormat.NPopU16 =>
      count ← ok_or argument_count (MissingArgumentCount o);
      Ok (with_additional_pops base count)
  | OperandFormat.NPopX =>
      match argument_count with
      | Some count => Err (UnexpectedArgumentCount o count)
      | None =>
          count ← ok_or (implicit_argument_count o) (InvalidImplicitArgumentOpcode o);
          Ok (with_additional_pops base count)
      end
  | _ =>
      match argument_count with
      | Some count => Err (UnexpectedArgumentCount o count)
      | None => Ok base
      end
  end.

End FinalOpcode.
Notation FinalOpcode := FinalOpcode.FinalOpcode.

(** ** Temporary compiler opcodes *)

Module TemporaryOpcode.
Import OpcodeMetadata.

(** A compiler-only opcode; its byte overlaps the final short opcodes. *)
Inductive TemporaryOpcode : Set :=
  | EnterScope | LeaveScope | Label | ScopeGetVarUndef | ScopeGetVar | ScopePutVar
  | ScopeDeleteVar | ScopeMakeRef | ScopeGetRef | ScopePutVarInit | ScopeGetVarCheckThis
  | ScopeGetPrivateField | ScopeGetPrivateField2 | ScopePutPrivateField | ScopeInPrivateField
  | GetFieldOptChain | GetArrayElOptChain | SetClassName | LineNum.

(** The variant's position in the [temporary] section. *)
Definition discriminant (o : TemporaryOpcode) : Z :=
  match o with
  | EnterScope => 0 | LeaveScope => 1 | Label => 2 | ScopeGetVarUndef => 3 | ScopeGetVar => 4
  | ScopePutVar => 5 | ScopeDeleteVar => 6 | ScopeMakeRef => 7 | ScopeGetRef => 8
  | ScopePutVarInit => 9 | ScopeGetVarCheckThis => 10 | ScopeGetPrivateField => 11
  | ScopeGetPrivateField2 => 12 | ScopePutPrivateField => 13 | ScopeInPrivateField => 14
  | GetFieldOptChain => 15 | GetArrayElOptChain => 16 | SetClassName => 17 | LineNum => 18
  end.

Definition ALL_TEMPORARY_OPCODES : list TemporaryOpcode := [
  EnterScope; LeaveScope; Label; ScopeGetVarUndef; ScopeGetVar; ScopePutVar; ScopeDeleteVar;
  ScopeMakeRef; ScopeGetRef; ScopePutVarInit; ScopeGetVarCheckThis; ScopeGetPrivateField;
  ScopeGetPrivateField2; ScopePutPrivateField; ScopeInPrivateField; GetFieldOptChain;
  GetArrayElOptChain; SetClassName; LineNum
].

Definition TEMPORARY_OPCODE_METADATA : list OpcodeMetadata := [
  mk "enter_scope" 3 0 0 OperandFormat.U16;
  mk "leave_scope" 3 0 0 OperandFormat.U16;
  mk "label" 5 0 0 OperandFormat.Label;
  mk "scope_get_var_undef" 7 0 1 OperandFormat.AtomU16;
  mk "scope_get_var" 7 0 1 OperandFormat.AtomU16;
  mk "scope_put_var" 7 1 0 OperandFormat.AtomU16;
  mk "scope_delete_var" 7 0 1 OperandFormat.AtomU16;
  mk "scope_make_ref" 11 0 2 OperandFormat.AtomLabelU16;
  mk "scope_get_ref" 7 0 2 OperandFormat.AtomU16;
  mk "scope_put_var_init" 7 0 2 OperandFormat.AtomU16;
  mk "scope_get_var_checkthis" 7 0 1 OperandFormat.AtomU16;
  mk "scope_get_private_field" 7 1 1 OperandFormat.AtomU16;
  mk "scope_get_private_field2" 7 1 2 OperandFormat.AtomU16;
  mk "scope_put_private_field" 7 2 0 OperandFormat.AtomU16;
  mk "scope_in_private_field" 7 1 1 OperandFormat.AtomU16;
  mk "get_field_opt_chain" 5 1 1 OperandFormat.Atom;
  mk "get_array_el_opt_chain" 1 2 1 OperandFormat.None;
  mk "set_class_name" 5 1 1 OperandFormat.U32;
  mk "line_num" 5 0 0 OperandFormat.U32
].

(** First intermediate byte occupied by temporary opcodes, and first after. *)
Definition TEMPORARY_OPCODE_START : Z := FinalOpcode.encoded_byte FinalOpcode.Nop + 1.
Definition TEMPORARY_OPCODE_END_EXCLUSIVE : Z := TEMPORARY_OPCODE_START + discriminant LineNum + 1.

(** The intermediate byte used by the upstream compiler. *)
Definition encoded_byte (o : TemporaryOpcode) : Z := TEMPORARY_OPCODE_START + discriminant o.

(** This temporary opcode's static metadata. *)
Definition metadata (o : TemporaryOpcode) : OpcodeMetadata :=
  nth (Z.to_nat (discriminant o)) TEMPORARY_OPCODE_METADATA (mk "" 0 0 0 OperandFormat.None).

(** Checks and decodes an intermediate compiler-opcode byte; the error is the
    rejected byte ([TemporaryOpcodeDecodeError]). *)
Definition decode (byte : Z) : result Z TemporaryOpcode :=
  if byte <? TEMPORARY_OPCODE_START then Err byte
  else ok_or (ALL_TEMPORARY_OPCODES !! Z.to_nat (byte - TEMPORARY_OPCODE_START)) byte.

End TemporaryOpcode.
Notation TemporaryOpcode := TemporaryOpcode.TemporaryOpcode.

(** ** Facts about the tables *)

Module OpcodeFacts.
Import OpcodeMetadata FinalOpcode.

Lemma encoded_byte_bound o : 0 ≤ encoded_byte o < 249.
Proof. destruct o; simpl; lia. Qed.

Lemma table_position o : ALL_FINAL_OPCODES !! Z.to_nat (encoded_byte o) = Some o.
Proof. by destruct o. Qed.

Lemma table_position_inv i o :
  ALL_FINAL_OPCODES !! i = Some o → i = Z.to_nat (encoded_byte o).
Proof.
  intros Hi. assert (length ALL_FINAL_OPCODES = 249%nat) as Hlen by done.
  assert (i < 249)%nat as Hlt by (rewrite <- Hlen; by eapply lookup_lt_Some).
  do 249 (destruct i as [|i]; [by inversion Hi|]). lia.
Qed.

(** The index of [metadata] is always in range. *)
Lemma metadata_row o : FINAL_OPCODE_METADATA !! Z.to_nat (encoded_byte o) = Some (metadata o).
Proof. by destruct o. Qed.

Lemma encoded_byte_inj : Inj (=) (=) encoded_byte.
Proof.
  intros o1 o2 H. pose proof (table_position o1) as H1.
  rewrite H, table_position in H1. congruence.
Qed.

#[global] Instance FinalOpcode_eq_dec : EqDecision FinalOpcode.
Proof. exact (inj_eq_dec (Inj0 := encoded_byte_inj) encoded_byte). Defined.

Lemma metadata_size o :
  instruction_size (metadata o) = OperandFormat.instruction_size (operand_format (metadata o)).
Proof. by destruct o. Qed.

Lemma operand_width_bound f : 0 ≤ OperandFormat.operand_width f ≤ 10.
Proof. destruct f; simpl; lia. Qed.

Lemma instruction_size_bound o : 1 ≤ instruction_size (metadata o) ≤ 11.
Proof.
  rewrite metadata_size. unfold OperandFormat.instruction_size.
  pose proof (operand_width_bound (operand_format (metadata o))). lia.
Qed.

Lemma decode_encoded o : o ≠ Invalid → decode (encoded_byte o) = Ok o.
Proof.
  intros Ho. unfold decode, from_table_byte. rewrite table_position. by destruct o.
Qed.

Lemma decode_Ok byte o :
  is_u8 byte → decode byte = Ok o ↔ byte = encoded_byte o ∧ o ≠ Invalid.
Proof.
  intros Hb. split; [|by intros [-> ?]; apply decode_encoded].
  unfold decode, from_table_byte. intros H.
  destruct (ALL_FINAL_OPCODES !! Z.to_nat byte) as [o'|] eqn:E; [|done].
  apply table_position_inv in E.
  assert (o = o' ∧ o ≠ Invalid) as [-> ?] by (destruct o'; by inversion H).
  pose proof (encoded_byte_bound o'). split; [solve_ints|done].
Qed.

(** The metadata row of a non-[npop] opcode has no dynamic count, so its
    effect is the base one. *)
Lemma stack_effect_bound o n e :
  default 0 n ≤ 65535 → 0 ≤ default 0 n → stack_effect o n = Ok e →
  0 ≤ pops e ≤ 65540 ∧ 0 ≤ pushes e ≤ 6.
Proof.
  intros ? ? He.
  assert (0 ≤ base_pops (metadata o) ≤ 5 ∧ 0 ≤ base_pushes (metadata o) ≤ 6) as [? ?]
    by (destruct o; vm_compute; repeat split; discriminate).
  assert (∀ k, implicit_argument_count o = Some k → 0 ≤ k ≤ 3) as Himp
    by (intros k; destruct o; cbn; intros [= <-]; lia).
  unfold stack_effect, base_stack_effect, with_additional_pops in He.
  destruct (operand_format (metadata o)); destruct n; inv_ok; subst; simpl in *;
    try lia; try (by simplify_eq/=; lia).
  match goal with H : implicit_argument_count _ = Some _ |- _ => apply Himp in H end. lia.
Qed.

Lemma stack_effect_pushes o n e : stack_effect o n = Ok e → 0 ≤ pushes e.
Proof.
  assert (0 ≤ base_pushes (metadata o)) by (destruct o; vm_compute; discriminate).
  unfold stack_effect. destruct (operand_format (metadata o)); destruct n; intros He;
    inv_ok; subst e; done.
Qed.
End OpcodeFacts.


(** ** Properties of the opcode schema *)

(** Opcode bytes and opcodes correspond one to one.  For every byte,
    checked decoding accepts exactly the encoded bytes of the 248 executable
    opcodes and returns the opcode with that byte; byte zero is the reserved
    sentinel and every byte past the table is reported as unknown. *)
Theorem opcode_decode_exact (byte : Z) (Hbyte : is_u8 byte) :
  (∀ o, FinalOpcode.decode byte = Ok o ↔
        byte = FinalOpcode.encoded_byte o ∧ o ≠ FinalOpcode.Invalid) ∧
  (FinalOpcode.decode byte = Err FinalOpcode.ReservedInvalid ↔ byte = 0) ∧
  (FinalOpcode.decode byte = Err (FinalOpcode.Unknown byte) ↔ FinalOpcode.FINAL_OPCODE_COUNT ≤ byte).
Proof.
  split; [by intros o; apply OpcodeFacts.decode_Ok|].
  unfold FinalOpcode.decode, FinalOpcode.from_table_byte.
  change FinalOpcode.FINAL_OPCODE_COUNT with 249. unfold_ints.
  destruct (FinalOpcode.ALL_FINAL_OPCODES !! Z.to_nat byte) as [o|] eqn:Ho.
  - apply OpcodeFacts.table_position_inv in Ho.
    pose proof (OpcodeFacts.encoded_byte_bound o).
    assert (byte = FinalOpcode.encoded_byte o) as -> by lia.
    split; [|split; [by destruct o|lia]].
    destruct o; (split; [try done|]); intros He; cbn in He; done.
  - apply lookup_ge_None_1 in Ho. change (length _) with 249%nat in Ho.
    split; split; try done; lia.
Qed.

Lemma opcode_decode_exact_witness :
  is_u8 0 ∧ FinalOpcode.decode 0 = Err FinalOpcode.ReservedInvalid ∧
  FinalOpcode.decode 250 = Err (FinalOpcode.Unknown 250).
Proof.
  split; [unfold is_u8; lia|]. split.
  - by apply (opcode_decode_exact 0 ltac:(unfold is_u8; lia)).
  - apply (opcode_decode_exact 250 ltac:(unfold is_u8; lia)). by vm_compute.
Defined.

(** Stack effects are defined exactly when the caller supplies the
    argument count the opcode takes from its first operand, and only then; the
    count adds to the pops, and no opcode of the table has a malformed implicit
    count. *)
Theorem stack_effect_exact (o : FinalOpcode) (count : option Z) :
  let m := FinalOpcode.metadata o in
  FinalOpcode.stack_effect o count =
    match FinalOpcode.argument_count_source o, count with
    | FinalOpcode.FirstU16Operand, Some n =>
        Ok (mkStackEffect (OpcodeMetadata.base_pops m + n) (OpcodeMetadata.base_pushes m))
    | FinalOpcode.FirstU16Operand, None => Err (FinalOpcode.MissingArgumentCount o)
    | FinalOpcode.Opcode, None =>
        Ok (mkStackEffect
              (FinalOpcode.encoded_byte o - FinalOpcode.encoded_byte FinalOpcode.Call0
               + OpcodeMetadata.base_pops m) (OpcodeMetadata.base_pushes m))
    | FinalOpcode.NoArgumentCount, None =>
        Ok (mkStackEffect (OpcodeMetadata.base_pops m) (OpcodeMetadata.base_pushes m))
    | _, Some n => Err (FinalOpcode.UnexpectedArgumentCount o n)
    end.
Proof. by destruct o, count. Qed.
