(* ===== verification/Codec.v ===== *)
(** * The instruction codec

    Models [crates/fusor-bytecode/src/codec.rs]: typed operands and their
    little-endian encoding, validated instructions, checked decoding of one
    instruction and of a stream, and the bounded [BytecodeBuilder].  A
    [BytecodePc] and an [AtomPoolIndex] are their [u32] payload, bytes are
    [Z]s in [0..255] and [Vec<u8>] is a list. *)

From S2P Require Import Prelude Opcode.
Import OpcodeMetadata.

Notation BytecodePc := Z (only parsing).
Notation AtomPoolIndex := Z (only parsing).

Definition MAX_ENCODED_OPERAND_BYTES : nat := 10.

(** ** Errors *)

(** Failure to encode typed operands. *)
Inductive OperandEncodeError : Set :=
| BufferCapacityExceeded (format : OperandFormat) (capacity_bytes : Z)
| SchemaWidthMismatch (format : OperandFormat) (expected_bytes actual_bytes : Z).

(** Failure to decode a typed operand payload. *)
Inductive OperandDecodeError : Set :=
| LengthMismatch (format : OperandFormat) (expected_bytes actual_bytes : Z).

(** Failure to construct a validated instruction. *)
Inductive InstructionError : Set :=
| ReservedOpcode
| OperandFormatMismatch (opcode : FinalOpcode) (expected actual : OperandFormat).

(** Failure to decode a final instruction stream. *)
Inductive DecodeError : Set :=
| PcNotRepresentable (pc : BytecodePc)
| PcOutOfBounds (pc : BytecodePc) (bytecode_len : Z)
| MissingOpcode (pc : BytecodePc) (expected_bytes remaining_bytes : Z)
| InvalidOpcode (pc : BytecodePc) (opcode_byte : Z) (source : FinalOpcode.FinalOpcodeDecodeError)
| TruncatedOperands (pc : BytecodePc) (opcode : FinalOpcode) (expected_bytes remaining_bytes : Z)
| OperandDecoding (pc : BytecodePc) (opcode : FinalOpcode) (source : OperandDecodeError)
| NextPcOverflow (pc : BytecodePc) (instruction_size : Z).

(** Failure to append a final instruction. *)
Inductive EncodeError : Set :=
| InvalidInstruction (pc : BytecodePc) (source : InstructionError)
| OperandEncoding (pc : BytecodePc) (opcode : FinalOpcode) (source : OperandEncodeError)
| SchemaSizeMismatch (pc : BytecodePc) (opcode : FinalOpcode) (declared_size actual_size : Z)
| PcOverflow (pc : BytecodePc) (instruction_size : Z)
| EncodedLengthOverflow (encoded_bytes instruction_size : Z)
| ByteLimitExceeded (pc : BytecodePc) (instruction_size encoded_bytes byte_limit : Z)
| EncodeAllocationFailed (pc : BytecodePc) (additional_bytes : Z).

(** ** Encoded operand buffers *)

Module EncodedOperands.

(** Fixed-capacity encoded operand bytes: a ten-byte array and its fill. *)
Record EncodedOperands := mk { bytes : list Z; fill : Z }.

Definition new : EncodedOperands := mk (replicate MAX_ENCODED_OPERAND_BYTES 0) 0.

(** [self.bytes.get(..len).unwrap_or_default()] *)
Definition as_bytes (e : EncodedOperands) : list Z :=
  if fill e <=? len (bytes e) then take (Z.to_nat (fill e)) (bytes e) else [].

(** One iteration of [push_bytes]: write the slot at [len], then advance. *)
Definition push_byte (format : OperandFormat) (e : EncodedOperands) (byte : Z) :
    result OperandEncodeError EncodedOperands :=
  let full := BufferCapacityExceeded format (Z.of_nat MAX_ENCODED_OPERAND_BYTES) in
  let index := Z.to_nat (fill e) in
  match bytes e !! index with
  | None => Err full
  | Some _ =>
      next ← ok_or (checked_add_u8 (fill e) 1) full;
      Ok (mk (<[index := byte]> (bytes e)) next)
  end.

Definition push_bytes (format : OperandFormat) (e : EncodedOperands) (l : list Z) :
    result OperandEncodeError EncodedOperands :=
  try_fold (push_byte format) e l.

End EncodedOperands.
Notation EncodedOperands := EncodedOperands.EncodedOperands.

(** ** Reading little-endian operands *)

Definition read_u8 (bytes : list Z) (offset : nat) : option Z := bytes !! offset.

Definition read_u16 (bytes : list Z) (offset : nat) : option Z :=
  b0 ← read_u8 bytes offset;
  b1 ← read_u8 bytes (offset + 1);
  Some (from_le_bytes [b0; b1]).

Definition read_i16 (bytes : list Z) (offset : nat) : option Z :=
  b0 ← read_u8 bytes offset;
  b1 ← read_u8 bytes (offset + 1);
  Some (sign_extend 16 (from_le_bytes [b0; b1])).

Definition read_u32 (bytes : list Z) (offset : nat) : option Z :=
  b0 ← read_u8 bytes offset;
  b1 ← read_u8 bytes (offset + 1);
  b2 ← read_u8 bytes (offset + 2);
  b3 ← read_u8 bytes (offset + 3);
  Some (from_le_bytes [b0; b1; b2; b3]).

Definition read_i32 (bytes : list Z) (offset : nat) : option Z :=
  b0 ← read_u8 bytes offset;
  b1 ← read_u8 bytes (offset + 1);
  b2 ← read_u8 bytes (offset + 2);
  b3 ← read_u8 bytes (offset + 3);
  Some (sign_extend 32 (from_le_bytes [b0; b1; b2; b3])).

(** ** Typed operands *)

Module Operands.

(** Lossless typed operands for every [OperandFormat]. *)
Inductive Operands : Set :=
| None | NoneInt | NoneLoc | NoneArg | NoneVarRef
| U8 (value : Z) | I8 (value : Z) | Loc8 (index : Z) | Const8 (index : Z)
| Label8 (displacement : Z)
| U16 (value : Z) | I16 (value : Z) | Label16 (displacement : Z)
| NPop (argument_count : Z) | NPopX | NPopU16 (argument_count scope_index : Z)
| Loc (index : Z) | Arg (index : Z) | VarRef (index : Z)
| U32 (value : Z) | I32 (value : Z) | Const (index : Z) | Label (displacement : Z)
| Atom (atom : AtomPoolIndex)
| AtomU8 (atom : AtomPoolIndex) (value : Z)
| AtomU16 (atom : AtomPoolIndex) (value : Z)
| AtomLabelU8 (atom : AtomPoolIndex) (label : Z) (value : Z)
| AtomLabelU16 (atom : AtomPoolIndex) (label : Z) (value : Z)
| LabelU16 (label : Z) (value : Z).

(** This value's exact operand format. *)
Definition format (o : Operands) : OperandFormat :=
  match o with
  | None => OperandFormat.None
  | NoneInt => OperandFormat.NoneInt
  | NoneLoc => OperandFormat.NoneLoc
  | NoneArg => OperandFormat.NoneArg
  | NoneVarRef => OperandFormat.NoneVarRef
  | U8 _ => OperandFormat.U8
  | I8 _ => OperandFormat.I8
  | Loc8 _ => OperandFormat.Loc8
  | Const8 _ => OperandFormat.Const8
  | Label8 _ => OperandFormat.Label8
  | U16 _ => OperandFormat.U16
  | I16 _ => OperandFormat.I16
  | Label16 _ => OperandFormat.Label16
  | NPop _ => OperandFormat.NPop
  | NPopX => OperandFormat.NPopX
  | NPopU16 _ _ => OperandFormat.NPopU16
  | Loc _ => OperandFormat.Loc
  | Arg _ => OperandFormat.Arg
  | VarRef _ => OperandFormat.VarRef
  | U32 _ => OperandFormat.U32
  | I32 _ => OperandFormat.I32
  | Const _ => OperandFormat.Const
  | Label _ => OperandFormat.Label
  | Atom _ => OperandFormat.Atom
  | AtomU8 _ _ => OperandFormat.AtomU8
  | AtomU16 _ _ => OperandFormat.AtomU16
  | AtomLabelU8 _ _ _ => OperandFormat.AtomLabelU8
  | AtomLabelU16 _ _ _ => OperandFormat.AtomLabelU16
  | LabelU16 _ _ => OperandFormat.LabelU16
  end.

(** A dynamic argument count, when one is stored in the operands. *)
Definition dynamic_argument_count (o : Operands) : option Z :=
  match o with
  | NPop argument_count | NPopU16 argument_count _ => Some argument_count
  | _ => Datatypes.None
  end.

(** The function-local atom-pool index carried by an atom operand. *)
Definition atom_pool_index (o : Operands) : option AtomPoolIndex :=
  match o with
  | Atom index | AtomU8 index _ | AtomU16 index _
  | AtomLabelU8 index _ _ | AtomLabelU16 index _ _ => Some index
  | _ => Datatypes.None
  end.

(** The values an operand's Rust type admits. *)
Definition in_range (o : Operands) : Prop :=
  match o with
  | None | NoneInt | NoneLoc | NoneArg | NoneVarRef | NPopX => True
  | U8 v | Loc8 v | Const8 v => is_u8 v
  | I8 v | Label8 v => is_i8 v
  | U16 v | NPop v | Loc v | Arg v | VarRef v => is_u16 v
  | I16 v | Label16 v => is_i16 v
  | NPopU16 a s => is_u16 a ∧ is_u16 s
  | U32 v | Const v | Atom v => is_u32 v
  | I32 v | Label v => is_i32 v
  | AtomU8 a v => is_u32 a ∧ is_u8 v
  | AtomU16 a v => is_u32 a ∧ is_u16 v
  | AtomLabelU8 a l v => is_u32 a ∧ is_i32 l ∧ is_u8 v
  | AtomLabelU16 a l v => is_u32 a ∧ is_i32 l ∧ is_u16 v
  | LabelU16 l v => is_i32 l ∧ is_u16 v
  end.

(** The pushes of the [match] in [encode], in order. *)
Definition encode_fields (o : Operands) (output : EncodedOperands) :
    result OperandEncodeError EncodedOperands :=
  let push := EncodedOperands.push_bytes (format o) in
  match o with
  | None | NoneInt | NoneLoc | NoneArg | NoneVarRef | NPopX => Ok output
  | U8 value | Loc8 value | Const8 value => push output [value]
  | I8 value | Label8 value => push output (to_le_bytes 1 value)
  | U16 value | Loc value | Arg value | VarRef value | NPop value =>
      push output (to_le_bytes 2 value)
  | I16 value | Label16 value => push output (to_le_bytes 2 value)
  | NPopU16 argument_count scope_index =>
      output ← push output (to_le_bytes 2 argument_count);
      push output (to_le_bytes 2 scope_index)
  | U32 value | Const value => push output (to_le_bytes 4 value)
  | Atom index => push output (to_le_bytes 4 index)
  | I32 value | Label value => push output (to_le_bytes 4 value)
  | AtomU8 atom value =>
      output ← push output (to_le_bytes 4 atom);
      push output [value]
  | AtomU16 atom value =>
      output ← push output (to_le_bytes 4 atom);
      push output (to_le_bytes 2 value)
  | AtomLabelU8 atom label value =>
      output ← push output (to_le_bytes 4 atom);
      output ← push output (to_le_bytes 4 label);
      push output [value]
  | AtomLabelU16 atom label value =>
      output ← push output (to_le_bytes 4 atom);
      output ← push output (to_le_bytes 4 label);
      push output (to_le_bytes 2 value)
  | LabelU16 label value =>
      output ← push output (to_le_bytes 4 label);
      push output (to_le_bytes 2 value)
  end.

(** Encodes these operands into a fixed-capacity owned buffer. *)
Definition encode (o : Operands) : result OperandEncodeError EncodedOperands :=
  output ← encode_fields o EncodedOperands.new;
  let expected := OperandFormat.operand_width (format o) in
  if negb (EncodedOperands.fill output =? expected)
  then Err (SchemaWidthMismatch (format o) expected (EncodedOperands.fill output))
  else Ok output.

(** Decodes exactly one operand payload. *)
Definition decode (f : OperandFormat) (bytes : list Z) : result OperandDecodeError Operands :=
  let expected := OperandFormat.operand_width f in
  let malformed := LengthMismatch f expected (len bytes) in
  let u8_at offset := ok_or (read_u8 bytes offset) malformed in
  let u16_at offset := ok_or (read_u16 bytes offset) malformed in
  let i16_at offset := ok_or (read_i16 bytes offset) malformed in
  let u32_at offset := ok_or (read_u32 bytes offset) malformed in
  let i32_at offset := ok_or (read_i32 bytes offset) malformed in
  if negb (len bytes =? expected) then Err malformed else
  match f with
  | OperandFormat.None => Ok None
  | OperandFormat.NoneInt => Ok NoneInt
  | OperandFormat.NoneLoc => Ok NoneLoc
  | OperandFormat.NoneArg => Ok NoneArg
  | OperandFormat.NoneVarRef => Ok NoneVarRef
  | OperandFormat.U8 => U8 <$> u8_at 0%nat
  | OperandFormat.I8 => b ← u8_at 0%nat; Ok (I8 (sign_extend 8 (from_le_bytes [b])))
  | OperandFormat.Loc8 => Loc8 <$> u8_at 0%nat
  | OperandFormat.Const8 => Const8 <$> u8_at 0%nat
  | OperandFormat.Label8 => b ← u8_at 0%nat; Ok (Label8 (sign_extend 8 (from_le_bytes [b])))
  | OperandFormat.U16 => U16 <$> u16_at 0%nat
  | OperandFormat.I16 => I16 <$> i16_at 0%nat
  | OperandFormat.Label16 => Label16 <$> i16_at 0%nat
  | OperandFormat.NPop => NPop <$> u16_at 0%nat
  | OperandFormat.NPopX => Ok NPopX
  | OperandFormat.NPopU16 =>
      argument_count ← u16_at 0%nat; scope_index ← u16_at 2%nat;
      Ok (NPopU16 argument_count scope_index)
  | OperandFormat.Loc => Loc <$> u16_at 0%nat
  | OperandFormat.Arg => Arg <$> u16_at 0%nat
  | OperandFormat.VarRef => VarRef <$> u16_at 0%nat
  | OperandFormat.U32 => U32 <$> u32_at 0%nat
  | OperandFormat.I32 => I32 <$> i32_at 0%nat
  | OperandFormat.Const => Const <$> u32_at 0%nat
  | OperandFormat.Label => Label <$> i32_at 0%nat
  | OperandFormat.Atom => Atom <$> u32_at 0%nat
  | OperandFormat.AtomU8 =>
      atom ← u32_at 0%nat; value ← u8_at 4%nat; Ok (AtomU8 atom value)
  | OperandFormat.AtomU16 =>
      atom ← u32_at 0%nat; value ← u16_at 4%nat; Ok (AtomU16 atom value)
  | OperandFormat.AtomLabelU8 =>
      atom ← u32_at 0%nat; label ← i32_at 4%nat; value ← u8_at 8%nat;
      Ok (AtomLabelU8 atom label value)
  | OperandFormat.AtomLabelU16 =>
      atom ← u32_at 0%nat; label ← i32_at 4%nat; value ← u16_at 8%nat;
      Ok (AtomLabelU16 atom label value)
  | OperandFormat.LabelU16 =>
      label ← i32_at 0%nat; value ← u16_at 4%nat; Ok (LabelU16 label value)
  end.

End Operands.
Notation Operands := Operands.Operands.

(** ** Instructions *)

Module Instruction.

(** A validated, owned final instruction. *)
Record Instruction := mk { opcode : FinalOpcode; operands : Operands }.

(** Creates an instruction whose operands match its opcode metadata. *)
Definition new (opcode : FinalOpcode) (operands : Operands) : result InstructionError Instruction :=
  if decide (opcode = FinalOpcode.Invalid) then Err ReservedOpcode else
  let expected := operand_format (FinalOpcode.metadata opcode) in
  let actual := Operands.format operands in
  if decide (expected = actual) then Ok (mk opcode operands)
  else Err (OperandFormatMismatch opcode expected actual).

(** The instruction's encoded width. *)
Definition encoded_size (i : Instruction) : Z :=
  instruction_size (FinalOpcode.metadata (opcode i)).

(** The heritage bit of a derived [define_class]. *)
Definition is_derived_define_class (i : Instruction) : bool :=
  match opcode i, operands i with
  | FinalOpcode.DefineClass, Operands.AtomU8 _ value => negb (Z.land value 1 =? 0)
  | _, _ => false
  end.

(** The complete stack effect, dynamic arguments included. *)
Definition stack_effect (i : Instruction) : result FinalOpcode.StackEffectError StackEffect :=
  if is_derived_define_class i then Ok (mkStackEffect 3 2)
  else FinalOpcode.stack_effect (opcode i) (Operands.dynamic_argument_count (operands i)).

(** What [Instruction::new] guarantees, with operand values of their type. *)
Definition valid (i : Instruction) : Prop :=
  opcode i ≠ FinalOpcode.Invalid ∧
  operand_format (FinalOpcode.metadata (opcode i)) = Operands.format (operands i) ∧
  Operands.in_range (operands i).

End Instruction.
Notation Instruction := Instruction.Instruction.

(** A decoded instruction and its bytecode positions. *)
Record DecodedInstruction := mkDecoded {
  pc : BytecodePc;
  instruction : Instruction;
  next_pc : BytecodePc }.

(** Decodes one final instruction at [pc]. *)
Definition decode_instruction (bytecode : list Z) (pc : BytecodePc) :
    result DecodeError DecodedInstruction :=
  index ← ok_or (try_usize pc) (PcNotRepresentable pc);
  let index := Z.of_nat index in
  if len bytecode <? index then Err (PcOutOfBounds pc (len bytecode)) else
  let remaining := len bytecode - index in
  opcode_byte ← ok_or (bytecode !! Z.to_nat index) (MissingOpcode pc 1 remaining);
  opcode ← map_err (InvalidOpcode pc opcode_byte) (FinalOpcode.decode opcode_byte);
  let metadata := FinalOpcode.metadata opcode in
  let expected_operands := OperandFormat.operand_width (operand_format metadata) in
  operand_start ← ok_or (checked_add_u64 index 1) (PcNotRepresentable pc);
  let remaining_operands := saturating_sub (len bytecode) operand_start in
  let truncated := TruncatedOperands pc opcode expected_operands remaining_operands in
  if remaining_operands <? expected_operands then Err truncated else
  operand_end ← ok_or (checked_add_u64 operand_start expected_operands) (PcNotRepresentable pc);
  operand_bytes ← ok_or (get_range bytecode operand_start operand_end) truncated;
  operands ← map_err (OperandDecoding pc opcode)
               (Operands.decode (operand_format metadata) operand_bytes);
  let instruction := Instruction.mk opcode operands in
  let instruction_size := instruction_size metadata in
  next_pc ← ok_or (checked_add_u32 pc instruction_size) (NextPcOverflow pc instruction_size);
  Ok (mkDecoded pc instruction next_pc).

(** ** The instruction iterator *)

Module InstructionDecoder.

(** A checked iterator over a final instruction stream. *)
Record InstructionDecoder := mk {
  bytecode : list Z;
  next_pc : BytecodePc;
  finished : bool }.

Definition new (bytecode : list Z) : InstructionDecoder := mk bytecode 0 false.

Definition with_pc (bytecode : list Z) (pc : BytecodePc) : InstructionDecoder :=
  mk bytecode pc false.

(** [Iterator::next]: the item, if any, and the iterator after the call. *)
Definition next (d : InstructionDecoder) :
    option (result DecodeError DecodedInstruction) * InstructionDecoder :=
  let stop := mk (bytecode d) (next_pc d) true in
  if finished d then (None, d) else
  match try_usize (next_pc d) with
  | None => (Some (Err (PcNotRepresentable (next_pc d))), stop)
  | Some index =>
      if Z.of_nat index =? len (bytecode d) then (None, stop) else
      match decode_instruction (bytecode d) (next_pc d) with
      | Ok decoded => (Some (Ok decoded), mk (bytecode d) (Codec.next_pc decoded) false)
      | Err error => (Some (Err error), stop)
      end
  end.

(** [for item in decoder { state = body(state, item)? }].  Every item of the
    iterator consumes at least one byte, so a fuel above the number of bytes
    is never exhausted ([for_each_spec]). *)
Fixpoint for_each {E S} (fuel : nat) (body : S → result DecodeError DecodedInstruction → result E S)
    (d : InstructionDecoder) (s : S) : result E S :=
  match fuel with
  | O => Ok s
  | S fuel =>
      match next d with
      | (None, _) => Ok s
      | (Some item, d) => s ← body s item; for_each fuel body d s
      end
  end.

End InstructionDecoder.
Notation InstructionDecoder := InstructionDecoder.InstructionDecoder.

(** ** The bytecode builder *)

Module BytecodeBuilder.

(** A bounded encoder for final instructions. *)
Record BytecodeBuilder := mk {
  bytes : list Z;
  next_pc : BytecodePc;
  encoded_len : Z;
  byte_limit : Z }.

Definition with_origin_and_byte_limit (origin : BytecodePc) (byte_limit : Z) : BytecodeBuilder :=
  mk [] origin 0 byte_limit.
Definition new : BytecodeBuilder := with_origin_and_byte_limit 0 u32_max.
Definition with_byte_limit (byte_limit : Z) : BytecodeBuilder :=
  with_origin_and_byte_limit 0 byte_limit.
Definition with_origin (origin : BytecodePc) : BytecodeBuilder :=
  with_origin_and_byte_limit origin u32_max.

Section builder.
Context `{Allocator}.

(** The checks of [push_instruction], with the encoded operands and the next
    position and length they compute. *)
Definition check_instruction (b : BytecodeBuilder) (i : Instruction) :
    result EncodeError (EncodedOperands * Z * Z) :=
  let pc := next_pc b in
  let opcode := Instruction.opcode i in
  let declared_size := instruction_size (FinalOpcode.metadata opcode) in
  encoded_operands ← map_err (OperandEncoding pc opcode)
                       (Operands.encode (Instruction.operands i));
  actual_size ← ok_or (checked_add_u8 (EncodedOperands.fill encoded_operands) 1)
                  (SchemaSizeMismatch pc opcode declared_size u8_max);
  if negb (actual_size =? declared_size)
  then Err (SchemaSizeMismatch pc opcode declared_size actual_size) else
  next_pc ← ok_or (checked_add_u32 pc actual_size) (PcOverflow pc actual_size);
  next_encoded_len ← ok_or (checked_add_u32 (encoded_len b) actual_size)
                       (EncodedLengthOverflow (encoded_len b) actual_size);
  if byte_limit b <? next_encoded_len
  then Err (ByteLimitExceeded pc actual_size (encoded_len b) (byte_limit b)) else
  reserve "bytecode" (len (bytes b)) actual_size (EncodeAllocationFailed pc actual_size) ;;
  Ok (encoded_operands, next_pc, next_encoded_len).

(** Appends an already validated instruction: the result and the builder
    after the call. *)
Definition push_instruction (b : BytecodeBuilder) (i : Instruction) :
    result EncodeError BytecodePc * BytecodeBuilder :=
  match check_instruction b i with
  | Err e => (Err e, b)
  | Ok (encoded_operands, next_pc', next_encoded_len) =>
      let opcode_byte := FinalOpcode.encoded_byte (Instruction.opcode i) in
      (Ok (next_pc b),
       mk ((bytes b ++ [opcode_byte]) ++ EncodedOperands.as_bytes encoded_operands)
          next_pc' next_encoded_len (byte_limit b))
  end.

(** Validates and appends an opcode and its operands. *)
Definition push (b : BytecodeBuilder) (opcode : FinalOpcode) (operands : Operands) :
    result EncodeError BytecodePc * BytecodeBuilder :=
  match Instruction.new opcode operands with
  | Err source => (Err (InvalidInstruction (next_pc b) source), b)
  | Ok i => push_instruction b i
  end.
End builder.

End BytecodeBuilder.
Notation BytecodeBuilder := BytecodeBuilder.BytecodeBuilder.

(** ** Operand encoding round trips *)

Module OperandFacts.

(** What a partly filled buffer holds. *)
Definition holds (e : EncodedOperands) (l : list Z) : Prop :=
  EncodedOperands.fill e = len l ∧ length (EncodedOperands.bytes e) = MAX_ENCODED_OPERAND_BYTES ∧
  take (length l) (EncodedOperands.bytes e) = l.

Lemma holds_new : holds EncodedOperands.new [].
Proof. done. Qed.

Lemma push_byte_holds f e l b :
  holds e l → (length l < 10)%nat →
  ∃ e', EncodedOperands.push_byte f e b = Ok e' ∧ holds e' (l ++ [b]).
Proof.
  intros (Hf & Hb & Ht) Hl. unfold EncodedOperands.push_byte, len in *.
  rewrite Hf, Nat2Z.id.
  destruct (lookup_lt_is_Some_2 (EncodedOperands.bytes e) (length l)) as [x Hx];
    [by rewrite Hb|].
  rewrite Hx, checked_add_u8_fits by solve_ints. simpl. eexists; split; [done|].
  split_and!; simpl; unfold len; rewrite ?length_app, ?length_insert; [simpl; lia|done|].
  simpl. replace (length l + 1)%nat with (S (length l)) by lia.
  rewrite (take_S_r _ _ b) by (apply list_lookup_insert_eq; unfold MAX_ENCODED_OPERAND_BYTES in Hb; lia).
  rewrite take_insert_ge by lia. by rewrite Ht.
Qed.

Lemma push_bytes_holds f k : ∀ e l,
  holds e l → (length l + length k ≤ 10)%nat →
  ∃ e', EncodedOperands.push_bytes f e k = Ok e' ∧ holds e' (l ++ k).
Proof.
  unfold EncodedOperands.push_bytes. induction k as [|b k IH]; intros e l He Hl; simpl in *.
  { exists e. by rewrite app_nil_r. }
  destruct (push_byte_holds f e l b He) as (e1 & -> & He1); [lia|]. simpl.
  destruct (IH e1 (l ++ [b]) He1) as (e2 & H2 & He2); [rewrite length_app; simpl; lia|].
  exists e2. split; [done|]. by rewrite <- app_assoc in He2.
Qed.

Lemma as_bytes_holds e l : holds e l → EncodedOperands.as_bytes e = l.
Proof.
  intros (Hf & Hb & Ht). unfold EncodedOperands.as_bytes. rewrite Hf.
  assert (length l ≤ 10)%nat by (rewrite <- Ht, length_take; unfold MAX_ENCODED_OPERAND_BYTES in Hb; lia).
  unfold len, MAX_ENCODED_OPERAND_BYTES in *. rewrite Hb.
  destruct (Z.leb_spec (Z.of_nat (length l)) (Z.of_nat 10)); [|lia].
  by rewrite Nat2Z.id.
Qed.

(** The wire format of typed operands, as a reference definition: the
    little-endian fields, concatenated. *)
Definition wire (o : Operands) : list Z :=
  match o with
  | Operands.None | Operands.NoneInt | Operands.NoneLoc | Operands.NoneArg
  | Operands.NoneVarRef | Operands.NPopX => []
  | Operands.U8 v | Operands.Loc8 v | Operands.Const8 v => [v]
  | Operands.I8 v | Operands.Label8 v => to_le_bytes 1 v
  | Operands.U16 v | Operands.I16 v | Operands.Label16 v | Operands.NPop v
  | Operands.Loc v | Operands.Arg v | Operands.VarRef v => to_le_bytes 2 v
  | Operands.U32 v | Operands.I32 v | Operands.Const v | Operands.Label v
  | Operands.Atom v => to_le_bytes 4 v
  | Operands.NPopU16 a s => to_le_bytes 2 a ++ to_le_bytes 2 s
  | Operands.AtomU8 a v => to_le_bytes 4 a ++ [v]
  | Operands.AtomU16 a v => to_le_bytes 4 a ++ to_le_bytes 2 v
  | Operands.AtomLabelU8 a l v => to_le_bytes 4 a ++ to_le_bytes 4 l ++ [v]
  | Operands.AtomLabelU16 a l v => to_le_bytes 4 a ++ to_le_bytes 4 l ++ to_le_bytes 2 v
  | Operands.LabelU16 l v => to_le_bytes 4 l ++ to_le_bytes 2 v
  end.

Lemma length_wire o : len (wire o) = OperandFormat.operand_width (Operands.format o).
Proof. by destruct o; unfold len; simpl. Qed.

Lemma wire_bytes o : Operands.in_range o → byte_list (wire o).
Proof.
  unfold byte_list.
  destruct o; intros; cbn [wire Operands.in_range] in *; destruct_and?;
    repeat (apply Forall_app; split);
    first [apply to_le_bytes_bytes | by repeat apply Forall_cons_2].
Qed.

(** Runs the pushes of [encode_fields] one after the other. *)
Ltac run_pushes :=
  repeat match goal with
  | He : holds ?e ?l |- context [EncodedOperands.push_bytes ?f ?e ?k] =>
      let e' := fresh "e" in let H := fresh in let He' := fresh "He" in
      destruct (push_bytes_holds f k e l He) as (e' & H & He');
      [ simpl; lia | rewrite H; cbn [mbind result_bind]; clear H He ]
  end.

Lemma encode_fields_wire o :
  ∃ e, Operands.encode_fields o EncodedOperands.new = Ok e ∧ holds e (wire o).
Proof.
  pose proof holds_new as H.
  destruct o; unfold Operands.encode_fields; cbv zeta; run_pushes; eexists;
    (split; [reflexivity|]); try done; by rewrite <- ?app_assoc in *.
Qed.

Lemma encode_wire o :
  ∃ e, Operands.encode o = Ok e ∧ holds e (wire o).
Proof.
  destruct (encode_fields_wire o) as (e & He & Hh). exists e. split; [|done].
  unfold Operands.encode. rewrite He. simpl. destruct Hh as (-> & _).
  by rewrite length_wire, Z.eqb_refl.
Qed.

(** Reading back little-endian fields of their type. *)
Lemma le_unsigned n v :
  0 ≤ v < 256 ^ Z.of_nat n → from_le_bytes (to_le_bytes n v) = v.
Proof. intros Hv. rewrite from_to_le_bytes. by apply Z.mod_small. Qed.

Lemma le_signed n w v :
  w = 8 * Z.of_nat n → 0 < w → - 2 ^ (w - 1) ≤ v < 2 ^ (w - 1) →
  sign_extend w (from_le_bytes (to_le_bytes n v)) = v.
Proof.
  intros -> Hw Hv. rewrite from_to_le_bytes.
  rewrite <- (sign_extend_mod (8 * Z.of_nat n) v) at 2 by done.
  rewrite Z.pow_mul_r by lia. done.
Qed.

Lemma le_signed_bytes n w l :
  w = 8 * Z.of_nat n → 0 < w → length l = n → byte_list l →
  to_le_bytes n (sign_extend w (from_le_bytes l)) = l ∧
  - 2 ^ (w - 1) ≤ sign_extend w (from_le_bytes l) < 2 ^ (w - 1).
Proof.
  intros -> Hw <- Hl. pose proof (from_le_bytes_bound l Hl) as Hb.
  change 256 with (2 ^ 8) in Hb. rewrite <- Z.pow_mul_r in Hb by lia.
  split; [|by apply sign_extend_bound].
  rewrite to_le_bytes_mod. change (256 ^ _) with ((2 ^ 8) ^ Z.of_nat (length l)).
  rewrite <- Z.pow_mul_r, mod_sign_extend by lia. by apply to_from_le_bytes.
Qed.

Lemma decode_wire o :
  Operands.in_range o → Operands.decode (Operands.format o) (wire o) = Ok o.
Proof.
  intros Ho. unfold Operands.decode. rewrite length_wire, Z.eqb_refl. cbn [negb].
  destruct o; cbn -[from_le_bytes sign_extend Z.modulo Z.div]; simpl in Ho; destruct_and?;
    unfold_ints; try done;
    repeat match goal with
    | |- context [from_le_bytes [?v mod 256]] =>
        change (from_le_bytes [v mod 256]) with (from_le_bytes (to_le_bytes 1 v))
    | |- context [from_le_bytes [?v mod 256; (?v / 256) mod 256]] =>
        change (from_le_bytes [v mod 256; (v / 256) mod 256])
          with (from_le_bytes (to_le_bytes 2 v))
    | |- context [from_le_bytes [?v mod 256; (?v / 256) mod 256; ?b2; ?b3]] =>
        change (from_le_bytes [v mod 256; (v / 256) mod 256; b2; b3])
          with (from_le_bytes (to_le_bytes 4 v))
    end;
    rewrite ?le_signed by (simpl; lia); rewrite ?le_unsigned by (simpl; lia); done.
Qed.

Lemma le_unsigned_bytes n l :
  length l = n → byte_list l →
  to_le_bytes n (from_le_bytes l) = l ∧ 0 ≤ from_le_bytes l < 256 ^ Z.of_nat n.
Proof. intros <- Hl. split; [by apply to_from_le_bytes|by apply from_le_bytes_bound]. Qed.

(** Brings in what is known of the fields that occur in the goal. *)
Ltac field_facts :=
  repeat match goal with
  | |- context [sign_extend ?w (from_le_bytes ?l)] =>
      destruct (le_signed_bytes (length l) w l eq_refl eq_refl eq_refl ltac:(by unfold byte_list; repeat apply Forall_cons_2));
      generalize dependent (sign_extend w (from_le_bytes l)); intros
  | |- context [from_le_bytes ?l] =>
      destruct (le_unsigned_bytes (length l) l eq_refl ltac:(by unfold byte_list; repeat apply Forall_cons_2));
      generalize dependent (from_le_bytes l); intros
  end.

Lemma wire_decode f bs o :
  byte_list bs → Operands.decode f bs = Ok o →
  Operands.format o = f ∧ Operands.in_range o ∧ wire o = bs.
Proof.
  intros Hbs. unfold Operands.decode.
  destruct (Z.eqb_spec (len bs) (OperandFormat.operand_width f)) as [Hlen|]; [|done].
  cbn [negb]. intros Hd. unfold len in Hlen.
  destruct f; simpl in Hlen;
    do 11 (try (destruct bs as [|? bs]; [try (exfalso; simpl in Hlen; lia)|]));
    try (exfalso; simpl in Hlen; lia); clear Hlen;
    cbn -[from_le_bytes sign_extend] in Hd; apply Ok_inj in Hd as <-;
    unfold byte_list in Hbs;
    repeat match goal with
    | H : Forall _ (_ :: _) |- _ => apply Forall_cons_1 in H as [? H]
    end;
    (split; [done|]);
    cbn [Operands.in_range wire]; field_facts; simpl length in *;
    repeat match goal with H : to_le_bytes _ _ = _ |- _ => rewrite H; clear H end;
    unfold_ints; repeat split; simpl in *; try lia; done.
Qed.
End OperandFacts.

(** ** Instruction and stream round trips *)

Module CodecFacts.
Import OpcodeFacts OperandFacts.

(** The bytes of an instruction: its opcode byte and its operand fields. *)
Definition instruction_wire (i : Instruction) : list Z :=
  FinalOpcode.encoded_byte (Instruction.opcode i) :: wire (Instruction.operands i).

Lemma len_cons {A} (x : A) l : len (x :: l) = len l + 1.
Proof. unfold len. simpl. lia. Qed.

Lemma len_instruction_wire i :
  Instruction.valid i → len (instruction_wire i) = Instruction.encoded_size i.
Proof.
  intros (_ & Hf & _). unfold instruction_wire, Instruction.encoded_size.
  by rewrite len_cons, length_wire, <- Hf, metadata_size.
Qed.

Lemma encoded_size_bound i : 1 ≤ Instruction.encoded_size i ≤ 11.
Proof. apply instruction_size_bound. Qed.

Lemma instruction_wire_bytes i : Instruction.valid i → byte_list (instruction_wire i).
Proof.
  intros (_ & _ & Hr). apply Forall_cons_2; [|by apply wire_bytes].
  pose proof (encoded_byte_bound (Instruction.opcode i)). solve_ints.
Qed.

Lemma decode_instruction_sound bc p d :
  byte_list bc → decode_instruction bc p = Ok d →
  pc d = p ∧ Instruction.valid (instruction d) ∧
  next_pc d = p + Instruction.encoded_size (instruction d) ∧
  0 ≤ p ∧ next_pc d ≤ len bc ∧ next_pc d ≤ u32_max ∧
  segment p (Instruction.encoded_size (instruction d)) bc = instruction_wire (instruction d).
Proof.
  intros Hbc Hd. unfold decode_instruction in Hd. inv_ok. inv_checked.
  rewrite Z2Nat.id in Hd by done. destruct (len bc <? p) eqn:?; [done|]. inv_ok. inv_checked.
  destruct (saturating_sub _ _ <? _) eqn:?; [done|]. inv_ok. inv_checked.
  match goal with H : FinalOpcode.decode _ = Ok ?x |- _ => rename H into Ho, x into o end.
  rename select (get_range _ _ _ = _) into Hr. apply get_range_Some in Hr as [Hr ->].
  apply decode_Ok in Ho as [-> Hinv]; [|by eapply Forall_lookup_1].
  rename select (Operands.decode _ _ = _) into Hw.
  apply wire_decode in Hw as (Hf & Hrng & Hw); [|auto with bytes].
  subst d. simpl. unfold Instruction.valid, Instruction.encoded_size. simpl.
  rewrite metadata_size in *. unfold OperandFormat.instruction_size in *.
  set (w := OperandFormat.operand_width _) in *.
  pose proof (operand_width_bound (operand_format (FinalOpcode.metadata o))).
  split_and!; try done; try lia.
  rewrite (segment_cons _ _ _ (FinalOpcode.encoded_byte o)) by (done || lia).
  unfold instruction_wire. simpl. rewrite Hw. f_equal. f_equal. lia.
Qed.

Lemma decode_instruction_complete bc p i :
  Instruction.valid i → 0 ≤ p → p + Instruction.encoded_size i ≤ u32_max →
  segment p (Instruction.encoded_size i) bc = instruction_wire i →
  decode_instruction bc p = Ok (mkDecoded p i (p + Instruction.encoded_size i)).
Proof.
  intros Hi Hp Hu Hs. pose proof (encoded_size_bound i) as Hsz.
  pose proof (len_instruction_wire i Hi) as Hw. destruct Hi as (Hinv & Hf & Hr).
  assert (p + Instruction.encoded_size i ≤ len bc) as Hlen.
  { rewrite <- Hs in Hw. unfold segment, len in Hw. rewrite length_take, length_drop in Hw.
    unfold len. lia. }
  pose proof (segment_lookup _ _ _ _ _ Hp Hs) as Hb.
  destruct i as [o ops]. unfold Instruction.encoded_size in *. simpl in *.
  rewrite metadata_size in *. unfold OperandFormat.instruction_size in *.
  set (w := OperandFormat.operand_width _) in *. assert (0 ≤ w) as Hw0 by lia.
  rewrite (segment_cons _ _ _ _ Hp Hw0 Hb) in Hs. unfold instruction_wire in Hs.
  apply (inj2 cons) in Hs as [_ Hs]. simpl in Hs.
  unfold decode_instruction. rewrite try_usize_u32 by solve_ints.
  cbn [ok_or mbind result_bind]. rewrite Z2Nat.id by done.
  destruct (Z.ltb_spec (len bc) p); [lia|]. rewrite Hb. cbn [ok_or mbind result_bind].
  rewrite decode_encoded by done. cbn [map_err mbind result_bind].
  rewrite checked_add_u64_fits by solve_ints. cbn [ok_or mbind result_bind]. fold w.
  destruct (Z.ltb_spec (saturating_sub (len bc) (p + 1)) w);
    [unfold saturating_sub in *; lia|].
  rewrite checked_add_u64_fits by solve_ints. cbn [ok_or mbind result_bind].
  rewrite (proj2 (get_range_Some bc (p + 1) (p + 1 + w) (wire ops)));
    [|split; [lia|]; rewrite <- Hs; f_equal; lia].
  cbn [ok_or mbind result_bind].
  rewrite Hf, decode_wire by done. cbn [map_err mbind result_bind].
  rewrite metadata_size. unfold OperandFormat.instruction_size. fold w.
  by rewrite checked_add_u32_fits by done.
Qed.
End CodecFacts.

(** ** Whole streams and the builder *)

(** [decodes_to bc p ds]: reading [bc] instruction by instruction from [p] on
    gives exactly [ds] and ends at the last byte. *)
Inductive decodes_to (bc : list Z) : Z → list DecodedInstruction → Prop :=
| decodes_to_end : decodes_to bc (len bc) []
| decodes_to_step p d ds :
    p < len bc → decode_instruction bc p = Ok d → decodes_to bc (next_pc d) ds →
    decodes_to bc p (d :: ds).

Module StreamFacts.
Import OpcodeFacts OperandFacts CodecFacts.

Section for_each.
Context {E S : Type} (body : S → result DecodeError DecodedInstruction → result E S).
Context (bc : list Z) (Hbc : byte_list bc).

Lemma next_end : InstructionDecoder.next (InstructionDecoder.with_pc bc (len bc))
  = if len bc <=? u64_max then (None, InstructionDecoder.mk bc (len bc) true)
    else (Some (Err (PcNotRepresentable (len bc))), InstructionDecoder.mk bc (len bc) true).
Proof.
  unfold InstructionDecoder.next, try_usize. simpl. pose proof (len_nonneg bc).
  destruct (Z.leb_spec 0 (len bc)); [|lia]. simpl.
  destruct (len bc <=? u64_max); [|done]. by rewrite Z2Nat.id, Z.eqb_refl.
Qed.

Lemma for_each_stream ds : ∀ p s fuel,
  len bc ≤ u64_max → decodes_to bc p ds → (len bc - p < Z.of_nat fuel) →
  InstructionDecoder.for_each fuel body (InstructionDecoder.with_pc bc p) s
  = try_fold (λ s d, body s (Ok d)) s ds.
Proof.
  intros p s fuel Hu Hds. revert s fuel.
  induction Hds as [|p d ds Hp Hd Hds IH]; intros s fuel Hf.
  - destruct fuel; [lia|]. simpl. rewrite next_end.
    destruct (Z.leb_spec (len bc) u64_max); [done|lia].
  - pose proof (decode_instruction_sound _ _ _ Hbc Hd) as (Hpc & _ & Hn & H0 & Hle & Hu32 & _).
    pose proof (encoded_size_bound (instruction d)). destruct fuel as [|fuel]; [lia|]. simpl.
    unfold InstructionDecoder.next. simpl. rewrite try_usize_u32 by solve_ints.
    rewrite Z2Nat.id by done. destruct (Z.eqb_spec p (len bc)); [lia|]. rewrite Hd.
    destruct (body s (Ok d)) as [s'|e]; [|done]. simpl. apply IH. lia.
Qed.

(** A fuel above the number of remaining bytes is enough: a loop whose body
    rejects decoding errors and succeeds has seen the whole stream. *)
Lemma for_each_spec fuel : ∀ p s s',
  (∀ s e s', body s (Err e) ≠ Ok s') → 0 ≤ p ≤ len bc → len bc - p < Z.of_nat fuel →
  InstructionDecoder.for_each fuel body (InstructionDecoder.with_pc bc p) s = Ok s' →
  ∃ ds, decodes_to bc p ds ∧ try_fold (λ s d, body s (Ok d)) s ds = Ok s'.
Proof.
  induction fuel as [|fuel IH]; intros p s s' Hbody Hp Hf; [lia|].
  simpl. unfold InstructionDecoder.next. simpl.
  destruct (try_usize p) as [n|] eqn:Hn; [|intros (? & []%Hbody & _)%bind_Ok].
  inv_checked. rewrite Z2Nat.id by lia. destruct (Z.eqb_spec p (len bc)) as [->|Hne].
  { intros [= <-]. exists []. split; [constructor|done]. }
  destruct (decode_instruction bc p) as [d|e] eqn:Hd; [|intros (? & []%Hbody & _)%bind_Ok].
  pose proof (decode_instruction_sound _ _ _ Hbc Hd) as (Hpc & _ & Hnx & _ & Hle & _).
  pose proof (encoded_size_bound (instruction d)).
  intros (s1 & Hs1 & Hrest)%bind_Ok.
  destruct (IH (next_pc d) s1 s' Hbody) as (ds & Hds & Hfold); [lia|lia|done|].
  exists (d :: ds). split; [econstructor; eauto; lia|]. simpl. by rewrite Hs1.
Qed.
End for_each.

(** *** Positions of a stream *)

Section stream.
Context (bc : list Z) (Hbc : byte_list bc).

Lemma decodes_to_le p ds : 0 ≤ p → decodes_to bc p ds → p ≤ len bc.
Proof. intros Hp []; lia. Qed.

Lemma decodes_to_decoded p ds d :
  decodes_to bc p ds → d ∈ ds →
  decode_instruction bc (pc d) = Ok d ∧ p ≤ pc d < next_pc d ∧ next_pc d ≤ len bc.
Proof.
  induction 1 as [|p d' ds Hp Hd Hds IH]; [by intros ?%not_elem_of_nil|].
  pose proof (decode_instruction_sound _ _ _ Hbc Hd) as (Hpc & _ & Hnx & _ & Hle & _).
  pose proof (encoded_size_bound (instruction d')).
  intros [->|Hin]%elem_of_cons; [rewrite Hpc; split_and!; auto; lia|].
  apply IH in Hin as (? & ? & ?). split_and!; auto; lia.
Qed.

(** Consecutive instructions are adjacent, and the last one ends the code. *)
Lemma decodes_to_next p ds i d :
  decodes_to bc p ds → ds !! i = Some d →
  next_pc d = match ds !! S i with Some d' => pc d' | None => len bc end.
Proof.
  intros Hds. revert i. induction Hds as [|p d' ds Hp Hd Hds IH]; intros i; [done|].
  destruct i as [|i]; simpl; [|apply IH]. intros [= ->].
  inversion Hds as [Hl|? d2 ds2 ? Hd2 ?]; subst; simpl; [done|].
  by apply (decode_instruction_sound _ _ _ Hbc) in Hd2 as (-> & _).
Qed.

(** Re-encoding a decoded stream gives the bytes it was decoded from. *)
Lemma decodes_to_wire p ds :
  0 ≤ p → decodes_to bc p ds →
  concat (map (instruction_wire ∘ instruction) ds) = segment p (len bc - p) bc.
Proof.
  intros Hp Hds. induction Hds as [|p d ds Hlt Hd Hds IH].
  { unfold segment. rewrite Z.sub_diag. done. }
  pose proof (decode_instruction_sound _ _ _ Hbc Hd) as (Hpc & Hv & Hnx & _ & Hle & _ & Hseg).
  pose proof (encoded_size_bound (instruction d)).
  cbn [map concat compose]. rewrite IH by lia. rewrite <- Hseg, Hnx.
  replace (len bc - p) with (Instruction.encoded_size (instruction d)
    + (len bc - (p + Instruction.encoded_size (instruction d)))) by lia.
  rewrite segment_split by lia. done.
Qed.

Lemma decodes_to_functional p ds ds' : decodes_to bc p ds → decodes_to bc p ds' → ds = ds'.
Proof.
  intros Hds. revert ds'. induction Hds as [|p d ds Hlt Hd Hds IH]; intros ds' H';
    inversion H'; subst; try done; try lia.
  match goal with H : decode_instruction bc p = Ok ?d0 |- _ =>
    assert (d = d0) as <- by (by rewrite Hd in H; apply Ok_inj in H) end.
  f_equal. by apply IH.
Qed.

(** Different instructions start at different positions, in order. *)
Lemma decodes_to_sorted p ds i j d d' :
  decodes_to bc p ds → ds !! i = Some d → ds !! j = Some d' → (i < j)%nat → pc d < pc d'.
Proof.
  intros Hds. revert i j. induction Hds as [|p d1 ds Hlt Hd Hds IH]; intros i j Hi Hj Hij; [done|].
  destruct j as [|j]; [lia|]. destruct i as [|i]; simplify_eq/=; [|eapply (IH i j); eauto; lia].
  pose proof (decode_instruction_sound _ _ _ Hbc Hd) as (Hpc & _ & Hnx & _).
  pose proof (encoded_size_bound (instruction d)).
  apply list_elem_of_lookup_2 in Hj.
  destruct (decodes_to_decoded _ _ _ Hds Hj) as (_ & ? & _). lia.
Qed.

Lemma decodes_to_position_inj p ds i j d d' :
  decodes_to bc p ds → ds !! i = Some d → ds !! j = Some d' → pc d = pc d' → i = j.
Proof.
  intros Hds Hi Hj E. destruct (lt_eq_lt_dec i j) as [[H|H]|H]; [|done|].
  - pose proof (decodes_to_sorted _ _ _ _ _ _ Hds Hi Hj H). lia.
  - pose proof (decodes_to_sorted _ _ _ _ _ _ Hds Hj Hi H). lia.
Qed.

Lemma decodes_to_length p ds : decodes_to bc p ds → p + Z.of_nat (length ds) ≤ len bc ∨ ds = [].
Proof.
  induction 1 as [|p d ds Hlt Hd Hds IH]; [by right|]. left. simpl.
  pose proof (decode_instruction_sound _ _ _ Hbc Hd) as (Hpc & _ & Hnx & _ & Hle & _).
  pose proof (encoded_size_bound (instruction d)). destruct IH as [?| ->]; simpl; lia.
Qed.

(** A stream with an instruction in it fits the [u32] position domain. *)
Lemma decodes_to_u32 p ds : decodes_to bc p ds → ds ≠ [] → len bc ≤ u32_max.
Proof.
  induction 1 as [|p d ds Hlt Hd Hds IH]; [done|]. intros _.
  destruct ds as [|d' ds]; [|by apply IH].
  pose proof (decode_instruction_sound _ _ _ Hbc Hd) as (_ & _ & _ & _ & _ & Hu & _).
  inversion Hds as [E|]. congruence.
Qed.
End stream.

(** Encoding a list of valid instructions and decoding it back. *)
Lemma decodes_to_encoded il : ∀ pre,
  Forall Instruction.valid il →
  len pre + len (concat (map instruction_wire il)) ≤ u32_max →
  ∃ ds, decodes_to (pre ++ concat (map instruction_wire il)) (len pre) ds ∧
        map instruction ds = il.
Proof.
  induction il as [|i il IH]; intros pre His Hlen.
  { exists []. simpl. rewrite app_nil_r. split; [constructor|done]. }
  apply Forall_cons_1 in His as [Hi His]. cbn [map concat] in *. rewrite len_app in Hlen.
  pose proof (len_instruction_wire i Hi) as Hw. pose proof (encoded_size_bound i).
  pose proof (len_nonneg pre). pose proof (len_nonneg (concat (map instruction_wire il))).
  destruct (IH (pre ++ instruction_wire i) His) as (ds & Hds & Hmap); [rewrite len_app; lia|].
  rewrite len_app, Hw, <- app_assoc in Hds.
  eexists (mkDecoded (len pre) i _ :: ds). cbn [map instruction]. rewrite Hmap. split; [|done].
  eapply decodes_to_step; [rewrite !len_app; lia| |exact Hds].
  apply decode_instruction_complete; try done; try lia.
  rewrite <- Hw. apply segment_app_here.
Qed.
End StreamFacts.

Module BuilderFacts.
Import OpcodeFacts OperandFacts CodecFacts StreamFacts BytecodeBuilder.

(** The counters of a builder agree with the bytes it holds. *)
Record builder_ok (origin : Z) (b : BytecodeBuilder) : Prop := {
  builder_pc : next_pc b = origin + len (bytes b);
  builder_len : encoded_len b = len (bytes b);
  builder_limit : encoded_len b ≤ byte_limit b;
  builder_u32 : next_pc b ≤ u32_max;
  builder_bytes : byte_list (bytes b) }.

Lemma with_origin_ok origin limit :
  0 ≤ origin ≤ u32_max → 0 ≤ limit → builder_ok origin (with_origin_and_byte_limit origin limit).
Proof. intros. constructor; simpl; unfold len; simpl; try lia. constructor. Qed.

Section with_allocator.
Context `{Allocator}.

Lemma check_instruction_Ok b i e np nl :
  Instruction.valid i → check_instruction b i = Ok (e, np, nl) →
  EncodedOperands.as_bytes e = wire (Instruction.operands i) ∧
  np = next_pc b + Instruction.encoded_size i ∧ np ≤ u32_max ∧
  nl = encoded_len b + Instruction.encoded_size i ∧ nl ≤ byte_limit b.
Proof.
  intros (_ & Hf & _) Hc. unfold check_instruction in Hc.
  destruct (encode_wire (Instruction.operands i)) as (e' & He & Hh). rewrite He in Hc. inv_ok.
  subst. destruct (negb _) eqn:Hsz in Hc; [done|]. inv_ok. inv_checked.
  destruct (byte_limit b <? _) eqn:? in Hc; [done|]. inv_ok. simplify_eq. bool_to_prop. subst.
  unfold Instruction.encoded_size. split_and!; try done; by apply as_bytes_holds.
Qed.

(** A push appends the instruction's bytes and advances the counters. *)
Lemma push_instruction_Ok b i p b' :
  Instruction.valid i → push_instruction b i = (Ok p, b') →
  p = next_pc b ∧ bytes b' = bytes b ++ instruction_wire i ∧
  next_pc b' = next_pc b + Instruction.encoded_size i ∧ next_pc b' ≤ u32_max ∧
  encoded_len b' = encoded_len b + Instruction.encoded_size i ∧
  encoded_len b' ≤ byte_limit b ∧ byte_limit b' = byte_limit b.
Proof.
  intros Hi. unfold push_instruction.
  destruct (check_instruction b i) as [[[e np] nl]|err] eqn:Hc; [|done].
  intros [= <- <-]. simpl. apply check_instruction_Ok in Hc as (-> & -> & ? & -> & ?); [|done].
  split_and!; try done. by rewrite <- app_assoc.
Qed.

Lemma push_instruction_builder_ok origin b i p b' :
  Instruction.valid i → builder_ok origin b → push_instruction b i = (Ok p, b') →
  builder_ok origin b'.
Proof.
  intros Hi [Hpc Hlen Hlim Hu Hb] (-> & Hby & Hn & ? & Hel & ? & Hbl)%push_instruction_Ok; [|done].
  constructor; rewrite ?Hn, ?Hel, ?Hbl, ?Hby, ?len_app, ?len_instruction_wire by done; try lia.
  apply Forall_app. split; [done|]. by apply instruction_wire_bytes.
Qed.

(** With room in the position, length and byte budgets, a push succeeds. *)
Lemma push_instruction_succeeds `{!GenerousAllocator} b i :
  Instruction.valid i → next_pc b + Instruction.encoded_size i ≤ u32_max →
  encoded_len b + Instruction.encoded_size i ≤ Z.min u32_max (byte_limit b) →
  ∃ b', push_instruction b i = (Ok (next_pc b), b').
Proof.
  intros Hi Hp Hl. pose proof (len_instruction_wire i Hi) as Hw. pose proof (encoded_size_bound i).
  destruct (encode_wire (Instruction.operands i)) as (e & He & Hh).
  pose proof Hh as (Hfill & _).
  unfold instruction_wire in Hw. rewrite len_cons in Hw.
  unfold Instruction.encoded_size in *.
  assert (check_instruction b i = Ok (e, next_pc b + Instruction.encoded_size i,
    encoded_len b + Instruction.encoded_size i)) as Hc.
  { unfold check_instruction. rewrite He. simpl. rewrite Hfill.
    rewrite checked_add_u8_fits by solve_ints. simpl. rewrite Hw, Z.eqb_refl. simpl.
    rewrite !checked_add_u32_fits by lia. simpl.
    destruct (Z.ltb_spec (byte_limit b)
      (encoded_len b + instruction_size (FinalOpcode.metadata (Instruction.opcode i)))); [lia|].
    by rewrite reserve_generous. }
  unfold push_instruction. rewrite Hc. by eexists.
Qed.

(** Pushes a list of instructions, collecting their positions. *)
Fixpoint push_all (b : BytecodeBuilder) (l : list Instruction) :
    result EncodeError (list Z) * BytecodeBuilder :=
  match l with
  | [] => (Ok [], b)
  | i :: l =>
      match push_instruction b i with
      | (Err e, b) => (Err e, b)
      | (Ok p, b) => let '(r, b) := push_all b l in (cons p <$> r, b)
      end
  end.

(** The positions of consecutive instructions from [p] on. *)
Fixpoint positions (p : Z) (l : list Instruction) : list Z :=
  match l with
  | [] => []
  | i :: l => p :: positions (p + Instruction.encoded_size i) l
  end.

Lemma push_all_Ok l : ∀ origin b ps b',
  Forall Instruction.valid l → builder_ok origin b → push_all b l = (Ok ps, b') →
  builder_ok origin b' ∧ bytes b' = bytes b ++ concat (map instruction_wire l) ∧
  ps = positions (next_pc b) l ∧ byte_limit b' = byte_limit b.
Proof.
  induction l as [|i l IH]; intros origin b ps b' Hl Hb; simpl.
  { intros [= <- <-]. rewrite app_nil_r. done. }
  apply Forall_cons_1 in Hl as [Hi Hl].
  destruct (push_instruction b i) as [[p|e] b1] eqn:Hp; [|done].
  pose proof (push_instruction_builder_ok _ _ _ _ _ Hi Hb Hp) as Hb1.
  destruct (push_instruction_Ok _ _ _ _ Hi Hp) as (-> & Hby & Hn & _ & _ & _ & Hlim).
  destruct (push_all b1 l) as [[ps1|e] b2] eqn:Hrest; [|done].
  intros [= <- <-]. destruct (IH _ _ _ _ Hl Hb1 Hrest) as (? & Hby2 & -> & ->).
  split_and!; [done| |by rewrite Hn|done]. by rewrite Hby2, Hby, <- app_assoc.
Qed.

Lemma map_pc_positions bc ds : ∀ p,
  byte_list bc → decodes_to bc p ds → map pc ds = positions p (map instruction ds).
Proof.
  intros p Hbc. induction 1 as [|p d ds Hlt Hd Hds IH]; [done|]. simpl.
  pose proof (decode_instruction_sound _ _ _ Hbc Hd) as (-> & _ & Hn & _).
  by rewrite IH, Hn.
Qed.
End with_allocator.
End BuilderFacts.

(** ** Properties of the codec *)

(** Typed operands survive the wire: every operand value of its type
    encodes without error to exactly the width its format declares, and
    decoding those bytes gives the value back. *)
Theorem operand_roundtrip (o : Operands) (Ho : Operands.in_range o) :
  ∃ e, Operands.encode o = Ok e ∧
       len (EncodedOperands.as_bytes e) = OperandFormat.operand_width (Operands.format o) ∧
       byte_list (EncodedOperands.as_bytes e) ∧
       Operands.decode (Operands.format o) (EncodedOperands.as_bytes e) = Ok o.
Proof.
  destruct (OperandFacts.encode_wire o) as (e & He & Hh). exists e.
  rewrite (OperandFacts.as_bytes_holds _ _ Hh). split_and!; [done|..].
  - apply OperandFacts.length_wire.
  - by apply OperandFacts.wire_bytes.
  - by apply OperandFacts.decode_wire.
Qed.

Lemma operand_roundtrip_witness :
  ∃ e, Operands.encode (Operands.AtomLabelU8 70000 (-5) 1) = Ok e ∧
       Operands.decode OperandFormat.AtomLabelU8 (EncodedOperands.as_bytes e)
       = Ok (Operands.AtomLabelU8 70000 (-5) 1).
Proof.
  destruct (operand_roundtrip (Operands.AtomLabelU8 70000 (-5) 1)) as (e & He & _ & _ & Hd).
  { simpl. unfold_ints. lia. }
  exists e. split; [exact He|exact Hd].
Defined.

(** Checked decoding of one instruction is exact: it succeeds at [p] if
    and only if the bytes from [p] on start with the encoding of some valid
    instruction that ends within the code and within the [u32] position
    domain, and it then returns that instruction with its two positions. *)
Theorem decode_instruction_exact (bc : list Z) (p : Z) (d : DecodedInstruction)
    (Hbc : byte_list bc) (Hp : 0 ≤ p) :
  decode_instruction bc p = Ok d ↔
  ∃ i, d = mkDecoded p i (p + Instruction.encoded_size i) ∧ Instruction.valid i ∧
       p + Instruction.encoded_size i ≤ Z.min (len bc) u32_max ∧
       segment p (Instruction.encoded_size i) bc = CodecFacts.instruction_wire i.
Proof.
  split.
  - intros Hd. pose proof (CodecFacts.decode_instruction_sound _ _ _ Hbc Hd)
      as (Hpc & Hv & Hn & _ & Hl & Hu & Hs).
    exists (instruction d). split_and!; try done; [|lia]. destruct d; simpl in *; by subst.
  - intros (i & -> & Hv & Hle & Hs). apply CodecFacts.decode_instruction_complete; (done || lia).
Qed.

Lemma decode_instruction_exact_witness :
  decode_instruction [41; 107; 3; 0; 0; 0] 1 =
    Ok (mkDecoded 1 (Instruction.mk FinalOpcode.Goto (Operands.Label 3)) 6).
Proof.
  apply (decode_instruction_exact [41; 107; 3; 0; 0; 0] 1).
  - unfold byte_list, is_u8. repeat apply Forall_cons_2; (lia || apply Forall_nil_2).
  - lia.
  - exists (Instruction.mk FinalOpcode.Goto (Operands.Label 3)).
    split; [reflexivity|]. split; [|split; [vm_compute; discriminate|reflexivity]].
    split; [discriminate|]. split; [reflexivity|]. simpl. unfold is_i32. lia.
Defined.

(** Building and decoding are inverse: after a run of [push_instruction]
    over any list of valid instructions, the positions it returned are those
    the stream decoder finds, and the decoder reads back exactly the pushed
    instructions, from the first byte to the last. *)
Theorem builder_stream_roundtrip (a : Allocator) (limit : Z) (l : list Instruction)
    (ps : list Z) (b : BytecodeBuilder)
    (Hl : Forall Instruction.valid l) (Hlimit : is_u32 limit)
    (Hpush : BuilderFacts.push_all (BytecodeBuilder.with_byte_limit limit) l = (Ok ps, b)) :
  len (BytecodeBuilder.bytes b) ≤ limit ∧
  ∃ ds, decodes_to (BytecodeBuilder.bytes b) 0 ds ∧ map instruction ds = l ∧ map pc ds = ps.
Proof.
  pose proof (BuilderFacts.with_origin_ok 0 limit ltac:(solve_ints) ltac:(solve_ints)) as Hok.
  destruct (BuilderFacts.push_all_Ok _ _ _ _ _ Hl Hok Hpush) as (Hb & Hbytes & -> & Hl').
  simpl in Hbytes, Hl'. destruct Hb as [Hpc Hlen Hlim Hu Hby]. split; [lia|].
  destruct (StreamFacts.decodes_to_encoded l [] Hl) as (ds & Hds & Hmap).
  { rewrite <- Hbytes. unfold len at 1. simpl. lia. }
  simpl in Hds. rewrite <- Hbytes in Hds. exists ds. split_and!; [done|done|].
  rewrite <- Hmap. by eapply BuilderFacts.map_pc_positions.
Qed.

(** A two-instruction program for the concrete runs. *)
Definition demo_program : list Instruction :=
  [Instruction.mk FinalOpcode.PushI32 (Operands.I32 (-7));
   Instruction.mk FinalOpcode.Return Operands.None].

Lemma demo_program_valid : Forall Instruction.valid demo_program.
Proof.
  repeat apply Forall_cons_2; try apply Forall_nil_2;
    (split; [discriminate|]; split; [reflexivity|]; simpl; unfold_ints; lia).
Qed.

Lemma builder_stream_roundtrip_witness :
  ∃ b ds, @BuilderFacts.push_all always_allocates (BytecodeBuilder.with_byte_limit 6) demo_program
            = (Ok [0; 5], b) ∧
          decodes_to (BytecodeBuilder.bytes b) 0 ds ∧ map instruction ds = demo_program.
Proof.
  destruct (@BuilderFacts.push_all always_allocates (BytecodeBuilder.with_byte_limit 6) demo_program)
    as [r b] eqn:Hp.
  assert (r = Ok [0; 5]) as -> by (vm_compute in Hp; congruence).
  destruct (builder_stream_roundtrip always_allocates 6 demo_program [0; 5] b demo_program_valid
              ltac:(unfold is_u32; lia) Hp) as (_ & ds & Hds & Hi & _).
  exists b, ds. split; [reflexivity|]. split; [exact Hds|exact Hi].
Defined.

(** A push is all or nothing: on any error the builder is the one before
    the call, and with room in the position domain and in the byte budget the
    push succeeds, appends exactly the instruction's bytes and keeps the
    builder's counters equal to what it holds. *)
Theorem builder_push_atomic (a : Allocator) (Ha : GenerousAllocator) (origin : Z)
    (b : BytecodeBuilder) (i : Instruction)
    (Hb : BuilderFacts.builder_ok origin b) (Hi : Instruction.valid i) :
  (∀ e b', BytecodeBuilder.push_instruction b i = (Err e, b') → b' = b) ∧
  (BytecodeBuilder.next_pc b + Instruction.encoded_size i ≤ u32_max →
   BytecodeBuilder.encoded_len b + Instruction.encoded_size i
     ≤ Z.min u32_max (BytecodeBuilder.byte_limit b) →
   ∃ b', BytecodeBuilder.push_instruction b i = (Ok (BytecodeBuilder.next_pc b), b') ∧
         BytecodeBuilder.bytes b' = BytecodeBuilder.bytes b ++ CodecFacts.instruction_wire i ∧
         BuilderFacts.builder_ok origin b').
Proof.
  split.
  - intros e b'. unfold BytecodeBuilder.push_instruction.
    destruct (BytecodeBuilder.check_instruction b i) as [[[? ?] ?]|]; by intros [= _ <-].
  - intros Hp Hl. destruct (BuilderFacts.push_instruction_succeeds b i Hi Hp Hl) as (b' & Hb').
    exists b'. split_and!; [done| |by eapply BuilderFacts.push_instruction_builder_ok].
    by apply BuilderFacts.push_instruction_Ok in Hb' as (_ & ? & _).
Qed.

Lemma builder_push_atomic_witness :
  ∃ b', @BytecodeBuilder.push_instruction always_allocates (BytecodeBuilder.with_byte_limit 5)
          (Instruction.mk FinalOpcode.PushI32 (Operands.I32 (-7))) = (Ok 0, b') ∧
        BuilderFacts.builder_ok 0 b'.
Proof.
  destruct (builder_push_atomic always_allocates always_allocates_generous 0
    (BytecodeBuilder.with_byte_limit 5)
    (Instruction.mk FinalOpcode.PushI32 (Operands.I32 (-7)))) as [_ Hok].
  - apply BuilderFacts.with_origin_ok; unfold u32_max; lia.
  - exact (Forall_inv demo_program_valid).
  - destruct Hok as (b' & Hb' & _ & Hinv); [vm_compute; discriminate..|].
    exists b'. split; [exact Hb'|exact Hinv].
Defined.
