(* ===== verification/Function.v ===== *)
(** * Function execution metadata

    Models [crates/fusor-bytecode/src/function.rs]: function kinds and their
    requirements, the raw header with its per-profile constructors, and the
    validated flags, mode and header.  Packed bits are [Z]s read with
    [Z.land] and [Z.testbit]. *)

From S2P Require Import Prelude.

Definition FUNCTION_KIND_SHIFT : Z := 4.
Definition FUNCTION_KIND_MASK : Z := Z.shiftl 3 FUNCTION_KIND_SHIFT.
Definition SERIALIZED_FUNCTION_FLAGS_MASK : Z := 8191.
Definition JS_MODE_MASK : Z := 1.

(** ** Kinds *)

Module FunctionKind.

(** The four function execution kinds. *)
Inductive FunctionKind : Set := Normal | Generator | Async | AsyncGenerator.

#[global] Instance FunctionKind_eq_dec : EqDecision FunctionKind.
Proof. solve_decision. Defined.

Definition from_serialized_flags (flags : Z) : FunctionKind :=
  let value := Z.land flags FUNCTION_KIND_MASK in
  if value =? 0 then Normal
  else if value =? Z.shiftl 1 FUNCTION_KIND_SHIFT then Generator
  else if value =? Z.shiftl 2 FUNCTION_KIND_SHIFT then Async
  else AsyncGenerator.

End FunctionKind.
Notation FunctionKind := FunctionKind.FunctionKind.

Module FunctionKindRequirement.

(** A typed function-kind precondition for an opcode or packed flag. *)
Inductive FunctionKindRequirement : Set :=
| Normal | Generator | SynchronousGenerator | Async | AsyncGenerator | NonNormal.

(** Whether a kind satisfies the requirement. *)
Definition accepts (r : FunctionKindRequirement) (kind : FunctionKind) : bool :=
  match r with
  | Normal => match kind with FunctionKind.Normal => true | _ => false end
  | Generator =>
      match kind with FunctionKind.Generator | FunctionKind.AsyncGenerator => true | _ => false end
  | SynchronousGenerator => match kind with FunctionKind.Generator => true | _ => false end
  | Async =>
      match kind with FunctionKind.Async | FunctionKind.AsyncGenerator => true | _ => false end
  | AsyncGenerator => match kind with FunctionKind.AsyncGenerator => true | _ => false end
  | NonNormal => negb (match kind with FunctionKind.Normal => true | _ => false end)
  end.

End FunctionKindRequirement.
Notation FunctionKindRequirement := FunctionKindRequirement.FunctionKindRequirement.

(** A packed function flag with a function-kind constraint. *)
Inductive FunctionHeaderFlag : Set := HasPrototype | DerivedClassConstructor.

(** A serialized function bit field whose allowed mask is validated. *)
Inductive FunctionBitField : Set := SerializedFlags | JsMode.

(** ** Direct-eval capabilities *)

Module DirectEvalFunctionCapabilities.

Definition NEW_TARGET : Z := Z.shiftl 1 0.
Definition SUPER_PROPERTY : Z := Z.shiftl 1 1.
Definition SUPER_CALL : Z := Z.shiftl 1 2.
Definition INSTANCE_ELEMENTS : Z := Z.shiftl 1 3.

(** The capability set inherited from the caller, as its [u8]. *)
Definition new (new_target super_property super_call : bool) : Z :=
  Z.lor (Z.lor (if new_target then NEW_TARGET else 0)
               (if super_property then SUPER_PROPERTY else 0))
        (if super_call then SUPER_CALL else 0).

Definition allows_new_target (c : Z) : bool := negb (Z.land c NEW_TARGET =? 0).
Definition allows_super_property (c : Z) : bool := negb (Z.land c SUPER_PROPERTY =? 0).
Definition allows_super_call (c : Z) : bool := negb (Z.land c SUPER_CALL =? 0).

(** [self.0 &= !BIT] on a [u8] clears the bit: [Z.ldiff]. *)
Definition with_instance_elements (c : Z) (yes : bool) : Z :=
  if yes then Z.lor c INSTANCE_ELEMENTS else Z.ldiff c INSTANCE_ELEMENTS.

Definition has_instance_elements (c : Z) : bool := negb (Z.land c INSTANCE_ELEMENTS =? 0).

End DirectEvalFunctionCapabilities.

(** ** Raw headers *)

Module UnverifiedFunctionHeader.

(** Raw serialized function metadata that has not crossed the verifier. *)
Record UnverifiedFunctionHeader := new {
  serialized_flags : Z;
  js_mode : Z;
  defined_argument_count : Z;
  variable_reference_count : Z }.

(** [(1 << a) | (1 << b) | ...] *)
Definition bits (l : list Z) : Z := foldr (λ b acc, Z.lor (Z.shiftl 1 b) acc) 0 l.

Definition STRIPPED_ORDINARY_SOURCE_FLAGS : Z := bits [0; 1; 6; 9].
Definition ORDINARY_SOURCE_FLAGS : Z := Z.lor STRIPPED_ORDINARY_SOURCE_FLAGS (bits [10]).
Definition ORDINARY_ARROW_FLAGS : Z := bits [1; 6; 10].
Definition ASYNC_ARROW_FLAGS : Z := Z.lor ORDINARY_ARROW_FLAGS (Z.shiftl 2 FUNCTION_KIND_SHIFT).
Definition ORDINARY_METHOD_FLAGS : Z := bits [1; 6; 8; 9; 10].
Definition CLASS_CONSTRUCTOR_FLAGS : Z := bits [1; 3; 6; 8; 9; 10].
Definition DERIVED_CLASS_CONSTRUCTOR_FLAGS : Z := Z.lor CLASS_CONSTRUCTOR_FLAGS (bits [2; 7]).
Definition GENERATOR_SOURCE_FLAGS : Z := bits [1; 4; 6; 9; 10].
Definition GENERATOR_METHOD_FLAGS : Z := bits [1; 4; 6; 8; 9; 10].
Definition ASYNC_SOURCE_FLAGS : Z := Z.lor (bits [1; 6; 9; 10]) (Z.shiftl 2 4).
Definition ASYNC_METHOD_FLAGS : Z := Z.lor (bits [1; 6; 8; 9; 10]) (Z.shiftl 2 4).
Definition ASYNC_GENERATOR_SOURCE_FLAGS : Z := Z.lor (bits [1; 6; 9; 10]) (Z.shiftl 3 4).
Definition ASYNC_GENERATOR_METHOD_FLAGS : Z := Z.lor (bits [1; 6; 8; 9; 10]) (Z.shiftl 3 4).
Definition DYNAMIC_FUNCTION_SCRIPT_FLAGS : Z := bits [10].

Definition mode_of (strict : bool) : Z := if strict then 1 else 0.

Section constructors.
Context (strict : bool) (defined_argument_count variable_reference_count : Z).

Definition profile (flags : Z) : UnverifiedFunctionHeader :=
  new flags (mode_of strict) defined_argument_count variable_reference_count.

Definition stripped_ordinary_source_function_with_variable_references :=
  profile STRIPPED_ORDINARY_SOURCE_FLAGS.
Definition ordinary_source_function_with_variable_references := profile ORDINARY_SOURCE_FLAGS.
Definition ordinary_arrow_with_variable_references := profile ORDINARY_ARROW_FLAGS.
Definition async_arrow_with_variable_references := profile ASYNC_ARROW_FLAGS.
Definition ordinary_method_with_variable_references := profile ORDINARY_METHOD_FLAGS.
Definition class_constructor_with_variable_references := profile CLASS_CONSTRUCTOR_FLAGS.
Definition derived_class_constructor_with_variable_references :=
  profile DERIVED_CLASS_CONSTRUCTOR_FLAGS.
Definition generator_source_function_with_variable_references := profile GENERATOR_SOURCE_FLAGS.
Definition generator_method_with_variable_references := profile GENERATOR_METHOD_FLAGS.
Definition async_source_function_with_variable_references := profile ASYNC_SOURCE_FLAGS.
Definition async_method_with_variable_references := profile ASYNC_METHOD_FLAGS.
Definition async_generator_source_function_with_variable_references :=
  profile ASYNC_GENERATOR_SOURCE_FLAGS.
Definition async_generator_method_with_variable_references :=
  profile ASYNC_GENERATOR_METHOD_FLAGS.
End constructors.

Definition stripped_ordinary_source_function (strict : bool) (defined_argument_count : Z) :=
  stripped_ordinary_source_function_with_variable_references strict defined_argument_count 0.
Definition ordinary_source_function (strict : bool) (defined_argument_count : Z) :=
  ordinary_source_function_with_variable_references strict defined_argument_count 0.

Definition dynamic_function_script (variable_reference_count : Z) : UnverifiedFunctionHeader :=
  new DYNAMIC_FUNCTION_SCRIPT_FLAGS 0 0 variable_reference_count.
Definition global_script (strict : bool) (variable_reference_count : Z) :=
  new DYNAMIC_FUNCTION_SCRIPT_FLAGS (mode_of strict) 0 variable_reference_count.
Definition module (variable_reference_count : Z) : UnverifiedFunctionHeader :=
  new DYNAMIC_FUNCTION_SCRIPT_FLAGS 1 0 variable_reference_count.
Definition async_module (variable_reference_count : Z) : UnverifiedFunctionHeader :=
  new (Z.lor DYNAMIC_FUNCTION_SCRIPT_FLAGS (Z.shiftl 2 4)) 1 0 variable_reference_count.

(** A direct-eval Script header carrying its inherited capabilities. *)
Definition direct_eval_script (strict : bool) (variable_reference_count capabilities : Z) :
    UnverifiedFunctionHeader :=
  let add (condition : bool) (bit flags : Z) :=
    if condition then Z.lor flags (Z.shiftl 1 bit) else flags in
  let flags := DYNAMIC_FUNCTION_SCRIPT_FLAGS in
  let flags := add (DirectEvalFunctionCapabilities.allows_new_target capabilities) 6 flags in
  let flags := add (DirectEvalFunctionCapabilities.allows_super_call capabilities) 7 flags in
  let flags := add (DirectEvalFunctionCapabilities.allows_super_property capabilities) 8 flags in
  let flags := add (DirectEvalFunctionCapabilities.has_instance_elements capabilities) 12 flags in
  new flags (mode_of strict) 0 variable_reference_count.

(** Selects the simple-parameter-list flag. *)
Definition with_simple_parameter_list (h : UnverifiedFunctionHeader) (simple : bool) :=
  let bit := Z.shiftl 1 1 in
  new (if simple then Z.lor (serialized_flags h) bit else Z.ldiff (serialized_flags h) bit)
      (js_mode h) (defined_argument_count h) (variable_reference_count h).

End UnverifiedFunctionHeader.
Notation UnverifiedFunctionHeader := UnverifiedFunctionHeader.UnverifiedFunctionHeader.

(** ** Validated headers *)

Module FunctionHeaderFlags.

(** Validated packed function flags are their bits. *)
Definition has_bit (flags bit : Z) : bool := negb (Z.land flags (Z.shiftl 1 bit) =? 0).

Definition has_prototype (flags : Z) : bool := has_bit flags 0.
Definition has_simple_parameter_list (flags : Z) : bool := has_bit flags 1.
Definition is_derived_class_constructor (flags : Z) : bool := has_bit flags 2.
Definition needs_home_object (flags : Z) : bool := has_bit flags 3.
Definition new_target_allowed (flags : Z) : bool := has_bit flags 6.
Definition super_call_allowed (flags : Z) : bool := has_bit flags 7.
Definition super_allowed (flags : Z) : bool := has_bit flags 8.
Definition arguments_allowed (flags : Z) : bool := has_bit flags 9.
Definition has_debug (flags : Z) : bool := has_bit flags 10.
Definition is_eval (flags : Z) : bool := has_bit flags 11.
Definition direct_eval_has_instance_elements (flags : Z) : bool := has_bit flags 12.

End FunctionHeaderFlags.

(** Whether strict-mode execution is selected. *)
Definition FunctionMode_is_strict (mode : Z) : bool := negb (Z.land mode (Z.shiftl 1 0) =? 0).

(** Function execution metadata that has crossed the staged body verifier. *)
Record VerifiedFunctionHeader := mkVerifiedHeader {
  flags : Z;
  mode : Z;
  kind : FunctionKind;
  defined_argument_count : Z;
  variable_reference_count : Z }.
