(* ===== verification/VerifierModel.v ===== *)
(** * The verifier's data: errors, limits, layouts and certificates

    Models [crates/fusor-bytecode/src/verifier/error.rs], [limits.rs] and
    [model.rs]: the structured errors of the control-flow verifier, its
    resource limits, the index domains and compiler-owned layouts a function
    body is checked against, and the certificate a successful verification
    returns.  [FunctionPath], a unit type in the source, is left out of the
    error record. *)

From S2P Require Import Prelude Opcode Codec Function.

(** ** Limits *)

Definition MAX_FUNCTION_INDEX_ENTRIES : Z := 65534.
Definition MAX_OPERAND_STACK_DEPTH : Z := 65534.

(** Resource limits for one control-flow verification; every maximum is
    inclusive. *)
Record VerificationLimits := mkLimits {
  max_bytecode_bytes_per_function : Z;
  max_instructions_per_function : Z;
  max_constants_per_function : Z;
  max_atom_pool_entries : Z;
  max_transfer_evaluations : Z;
  max_stack_depth : Z }.

Definition UNTRUSTED : VerificationLimits :=
  mkLimits (16 * 1024 * 1024) 4194304 262144 1048576 33554432 MAX_OPERAND_STACK_DEPTH.

(** Resource named by a verifier budget or allocation error. *)
Module VerificationResource.
Inductive VerificationResource : Set :=
| BytecodeBytes | Instructions | Constants | AtomPoolEntries | TransferEvaluations
| StackDepth | InstructionBoundaryWords | WorklistEntries | CompilerCaptures.
End VerificationResource.
Notation VerificationResource := VerificationResource.VerificationResource.

(** ** Layouts *)

(** Function-local index-domain lengths. *)
Record FunctionIndexDomains := mkDomains {
  atom_pool_len : Z;
  constant_pool_len : Z;
  argument_count : Z;
  local_count : Z;
  closure_var_count : Z }.

(** One function-owned binding backed by a variable-reference cell. *)
Module CompilerCapturedBinding.
Inductive CompilerCapturedBinding : Set :=
| Argument (index : Z) | FunctionLocal (index : Z) | ScopedLocal (index : Z).
End CompilerCapturedBinding.
Notation CompilerCapturedBinding := CompilerCapturedBinding.CompilerCapturedBinding.

Module CompilerCapturedBindingIdentity.
Inductive CompilerCapturedBindingIdentity : Set := Argument (index : Z) | Local (index : Z).

#[global] Instance identity_eq_dec : EqDecision CompilerCapturedBindingIdentity.
Proof. solve_decision. Defined.

(** The hash-map key: the two variants, injected into a sum. *)
Definition to_sum (i : CompilerCapturedBindingIdentity) : Z + Z :=
  match i with Argument n => inl n | Local n => inr n end.
Definition of_sum (s : Z + Z) : CompilerCapturedBindingIdentity :=
  match s with inl n => Argument n | inr n => Local n end.

#[global] Instance identity_countable : Countable CompilerCapturedBindingIdentity.
Proof. by apply (inj_countable' to_sum of_sum); intros []. Defined.
End CompilerCapturedBindingIdentity.
Notation CompilerCapturedBindingIdentity :=
  CompilerCapturedBindingIdentity.CompilerCapturedBindingIdentity.

Definition identity (b : CompilerCapturedBinding) : CompilerCapturedBindingIdentity :=
  match b with
  | CompilerCapturedBinding.Argument index => CompilerCapturedBindingIdentity.Argument index
  | CompilerCapturedBinding.FunctionLocal index | CompilerCapturedBinding.ScopedLocal index =>
      CompilerCapturedBindingIdentity.Local index
  end.

(** Immutable compiler-owned capture metadata for one function frame. *)
Record CompilerCaptureLayout := mkCaptureLayout {
  bindings : list CompilerCapturedBinding;
  mapped_arguments : option (list Z) }.

Definition binding_for_variable_reference (l : CompilerCaptureLayout) (index : Z) :
    option CompilerCapturedBinding :=
  index ← try_usize index; bindings l !! index.

(** Compiler-known runtime kind of one constant-pool entry. *)
Module CompilerConstantKind.
Inductive CompilerConstantKind : Set := Value | Function.

#[global] Instance CompilerConstantKind_eq_dec : EqDecision CompilerConstantKind.
Proof. solve_decision. Defined.
End CompilerConstantKind.
Notation CompilerConstantKind := CompilerConstantKind.CompilerConstantKind.

(** Immutable compiler-owned type layout for one function's constant pool. *)
Record CompilerConstantLayout := mkConstantLayout { kinds : list CompilerConstantKind }.

Definition constant_kind (l : CompilerConstantLayout) (index : Z) : option CompilerConstantKind :=
  index ← try_usize index; kinds l !! index.

(** ** Unverified bodies *)

(** Owned bytecode and structural counts that have not been verified. *)
Record UnverifiedFunctionBody := mkUnverified {
  unverified_bytecode : list Z;
  expected_stack_size : Z;
  unverified_domains : FunctionIndexDomains;
  unverified_header : UnverifiedFunctionHeader }.

(** Compiler-generated bytecode whose maximum stack size is not yet known. *)
Record UnverifiedCompilerFunctionBody := mkUnverifiedCompiler {
  compiler_bytecode : list Z;
  compiler_domains : FunctionIndexDomains;
  compiler_header : UnverifiedFunctionHeader;
  capture_layout : option CompilerCaptureLayout;
  constant_layout : option CompilerConstantLayout }.

(** ** Errors *)

Module FunctionCountDomain.
Inductive FunctionCountDomain : Set :=
| Arguments | Locals | VariableReferences | ClosureVariables | ExpectedStackSize.
End FunctionCountDomain.
Notation FunctionCountDomain := FunctionCountDomain.FunctionCountDomain.

Module OperandIndexDomain.
Inductive OperandIndexDomain : Set :=
| AtomPool | ConstantPool | Local | Argument | ClosureVariable.
End OperandIndexDomain.
Notation OperandIndexDomain := OperandIndexDomain.OperandIndexDomain.

Module SecondaryOperandField.
Inductive SecondaryOperandField : Set :=
| SpecialObjectKind | RestFirstArgument | ApplyMagic | ThrowErrorKind | DefineMethodFlags
| DefinePrivateFieldKind | DefineClassFlags | IsWith | IteratorCallFlags.
End SecondaryOperandField.
Notation SecondaryOperandField := SecondaryOperandField.SecondaryOperandField.

Module ControlFlowEdge.
Inductive ControlFlowEdge : Set :=
| Fallthrough | Branch | Jump | CatchHandler | FinallySubroutine | FinallyContinuation
| WithBinding.
End ControlFlowEdge.
Notation ControlFlowEdge := ControlFlowEdge.ControlFlowEdge.

Module InvalidControlFlowTargetReason.
Inductive InvalidControlFlowTargetReason : Set :=
| OutsideBytecode | NotInstructionBoundary | CatchTargetZero.
End InvalidControlFlowTargetReason.
Notation InvalidControlFlowTargetReason :=
  InvalidControlFlowTargetReason.InvalidControlFlowTargetReason.

Module UnsupportedVerifierFeature.
Inductive UnsupportedVerifierFeature : Set :=
| ConstantPoolTyping | RawFunctionStack | EvalScopeMetadata | CapturedBindingMetadata
| CatchMarkers | FinallyReturnAddresses | WithEnvironmentBranches | IteratorMarkers
| PackedStackOffsets.
End UnsupportedVerifierFeature.
Notation UnsupportedVerifierFeature := UnsupportedVerifierFeature.UnsupportedVerifierFeature.

(** A structured control-flow verifier failure. *)
Module VerificationErrorKind.
Inductive VerificationErrorKind : Set :=
| EmptyBytecode
| LimitExceeded (resource : VerificationResource) (limit observed : Z)
| AllocationFailed (resource : VerificationResource) (requested : Z)
| MetadataCountOutOfRange (domain : FunctionCountDomain) (value maximum : Z)
| DisallowedFunctionBits (field : FunctionBitField) (value allowed_mask disallowed_bits : Z)
| DefinedArgumentCountOutOfRange (defined argument_count : Z)
| VariableReferenceCountOutOfRange (variable_references argument_count local_count : Z)
| CompilerCaptureCountMismatch (variable_references captures : Z)
| MissingCompilerCaptureLayout (variable_references : Z)
| CompilerConstantCountMismatch (declared entries : Z)
| MissingCompilerConstantLayout (constants : Z)
| CompilerConstantKindMismatch (index : Z) (expected actual : CompilerConstantKind)
| CompilerCaptureIndexOutOfBounds (binding : CompilerCapturedBinding) (len : Z)
| DuplicateCompilerCapture (binding : CompilerCapturedBinding)
| CompilerMappedArgumentIndexOutOfBounds (index len : Z)
| CompilerMappedArgumentsNotAscending (previous index : Z)
| CloseLocRequiresScopedCapture (local : Z)
| FunctionFlagNotAllowedForKind (flag : FunctionHeaderFlag) (kind : FunctionKind)
    (requirement : FunctionKindRequirement)
| ConflictingFunctionFlags (first second : FunctionHeaderFlag)
| InvalidStackLimit (value maximum : Z)
| Decode (source : DecodeError)
| IndexOutOfBounds (domain : OperandIndexDomain) (index len : Z)
| InvalidSecondaryOperand (field : SecondaryOperandField) (value : Z)
| ControlFlowTargetOverflow (edge : ControlFlowEdge) (base displacement : Z)
| InvalidControlFlowTarget (edge : ControlFlowEdge) (target bytecode_len : Z)
    (reason : InvalidControlFlowTargetReason)
| MissingControlFlowOperand (expected : OperandFormat)
| UnsupportedOpcodeSemantics (feature : UnsupportedVerifierFeature)
| OpcodeNotAllowedForFunctionKind (kind : FunctionKind) (requirement : FunctionKindRequirement)
| StackEffect (source : FinalOpcode.StackEffectError)
| StackUnderflow (required available : Z)
| StackLimitExceeded (depth limit : Z)
| InconsistentStackAtJoin (target established_depth incoming_depth incoming_from : Z)
| NonEmptyCompilerExitStack (remaining : Z)
| SerializedStackSizeMismatch (serialized computed : Z).
End VerificationErrorKind.
Notation VerificationErrorKind := VerificationErrorKind.VerificationErrorKind.

(** Verifier error with its instruction context. *)
Record VerificationError := mkVerificationError {
  error_pc : option Z;
  error_opcode : option FinalOpcode;
  error_kind : VerificationErrorKind }.

Definition root (kind : VerificationErrorKind) : VerificationError :=
  mkVerificationError None None kind.

Definition at_instruction (decoded : DecodedInstruction) (kind : VerificationErrorKind) :
    VerificationError :=
  mkVerificationError (Some (pc decoded)) (Some (Instruction.opcode (instruction decoded))) kind.

Definition decode_error_location (error : DecodeError) : Z * option FinalOpcode :=
  match error with
  | PcNotRepresentable pc | PcOutOfBounds pc _ | MissingOpcode pc _ _
  | InvalidOpcode pc _ _ | NextPcOverflow pc _ => (pc, None)
  | TruncatedOperands pc opcode _ _ | OperandDecoding pc opcode _ => (pc, Some opcode)
  end.

Definition from_decode (source : DecodeError) : VerificationError :=
  let '(pc, opcode) := decode_error_location source in
  mkVerificationError (Some pc) opcode (VerificationErrorKind.Decode source).

Notation verified A := (result VerificationError A).

(** ** Certificates *)

(** Validated successor instruction indices; an [InstructionIndex] is its
    [u32] payload. *)
Module VerifiedSuccessors.
Inductive VerifiedSuccessors : Set :=
| Fallthrough (index : Z)
| Branch (taken not_taken : Z)
| Jump (index : Z)
| Terminate.

Definition fallthrough (s : VerifiedSuccessors) : option Z :=
  match s with
  | Fallthrough index | Branch _ index => Some index
  | Jump _ | Terminate => None
  end.

Definition branch_target (s : VerifiedSuccessors) : option Z :=
  match s with Branch taken _ => Some taken | _ => None end.

Definition jump_target (s : VerifiedSuccessors) : option Z :=
  match s with Jump index => Some index | _ => None end.
End VerifiedSuccessors.
Notation VerifiedSuccessors := VerifiedSuccessors.VerifiedSuccessors.

(** One decoded instruction with validated successors and its analysed entry
    stack depth ([None]: structurally valid but unreachable). *)
Record VerifiedInstruction := mkVerifiedInstruction {
  decoded : DecodedInstruction;
  entry_stack_depth : option Z;
  successors : VerifiedSuccessors }.

(** Completely predecoded and ordinary-stack-verified control flow. *)
Record VerifiedControlFlow := mkVerifiedControlFlow {
  bytecode : list Z;
  instructions : list VerifiedInstruction;
  instruction_start_bitmap : list Z;
  computed_stack_size : Z;
  transfer_evaluations : Z;
  domains : FunctionIndexDomains;
  function_header : VerifiedFunctionHeader;
  compiler_capture_layout : option CompilerCaptureLayout;
  compiler_constant_layout : option CompilerConstantLayout }.
