(* ===== verification/VerifierHeader.v ===== *)
(** * Header, limit and layout validation

    Models [crates/fusor-bytecode/src/verifier/header.rs] and [layouts.rs]: the
    checks made on a function's limits and counts, on its serialized header
    and on the compiler-owned constant and capture layouts. *)

From S2P Require Import Prelude Opcode Codec Function VerifierModel.
Import VerificationErrorKind.

(** ** Limits and counts *)

Definition check_structural_count (domain : FunctionCountDomain) (value : Z) : verified unit :=
  reject_if (MAX_FUNCTION_INDEX_ENTRIES <? value)
    (root (MetadataCountOutOfRange domain value MAX_FUNCTION_INDEX_ENTRIES)).

Definition check_limit (resource : VerificationResource) (observed limit : Z) : verified unit :=
  reject_if (limit <? observed) (root (LimitExceeded resource limit observed)).

Definition validate_limits_and_counts (bytecode_len : Z) (domains : FunctionIndexDomains)
    (function_header : UnverifiedFunctionHeader) (expected_stack_size : option Z)
    (limits : VerificationLimits) : verified unit :=
  reject_if (MAX_OPERAND_STACK_DEPTH <? max_stack_depth limits)
    (root (InvalidStackLimit (max_stack_depth limits) MAX_OPERAND_STACK_DEPTH)) ;;
  check_limit VerificationResource.BytecodeBytes bytecode_len
    (max_bytecode_bytes_per_function limits) ;;
  check_limit VerificationResource.Constants (constant_pool_len domains)
    (max_constants_per_function limits) ;;
  check_limit VerificationResource.AtomPoolEntries (atom_pool_len domains)
    (max_atom_pool_entries limits) ;;
  check_structural_count FunctionCountDomain.Arguments (argument_count domains) ;;
  check_structural_count FunctionCountDomain.Locals (local_count domains) ;;
  check_structural_count FunctionCountDomain.VariableReferences
    (UnverifiedFunctionHeader.variable_reference_count function_header) ;;
  check_structural_count FunctionCountDomain.ClosureVariables (closure_var_count domains) ;;
  match expected_stack_size with
  | Some expected_stack_size =>
      check_structural_count FunctionCountDomain.ExpectedStackSize expected_stack_size ;;
      check_limit VerificationResource.StackDepth expected_stack_size (max_stack_depth limits)
  | None => Ok tt
  end.

(** ** The function header *)

(** The flag a non-normal function must not carry, if it carries one. *)
Definition invalid_flag_for_kind (flags : Z) : option FunctionHeaderFlag :=
  if FunctionHeaderFlags.has_prototype flags then Some HasPrototype
  else if FunctionHeaderFlags.is_derived_class_constructor flags then Some DerivedClassConstructor
  else None.

Definition validate_function_header (header : UnverifiedFunctionHeader)
    (domains : FunctionIndexDomains) : verified VerifiedFunctionHeader :=
  let serialized_flags := UnverifiedFunctionHeader.serialized_flags header in
  let unknown_flags := Z.ldiff serialized_flags SERIALIZED_FUNCTION_FLAGS_MASK in
  reject_if (negb (unknown_flags =? 0))
    (root (DisallowedFunctionBits SerializedFlags serialized_flags
             SERIALIZED_FUNCTION_FLAGS_MASK unknown_flags)) ;;
  let js_mode := UnverifiedFunctionHeader.js_mode header in
  let unknown_mode := Z.ldiff js_mode JS_MODE_MASK in
  reject_if (negb (unknown_mode =? 0))
    (root (DisallowedFunctionBits JsMode js_mode JS_MODE_MASK unknown_mode)) ;;
  let defined_argument_count := UnverifiedFunctionHeader.defined_argument_count header in
  reject_if (argument_count domains <? defined_argument_count)
    (root (DefinedArgumentCountOutOfRange defined_argument_count (argument_count domains))) ;;
  let variable_reference_count := UnverifiedFunctionHeader.variable_reference_count header in
  let available_bindings := argument_count domains + local_count domains in
  reject_if (available_bindings <? variable_reference_count)
    (root (VariableReferenceCountOutOfRange variable_reference_count
             (argument_count domains) (local_count domains))) ;;
  let kind := FunctionKind.from_serialized_flags serialized_flags in
  reject_if (FunctionHeaderFlags.has_prototype serialized_flags
             && FunctionHeaderFlags.is_derived_class_constructor serialized_flags)
    (root (ConflictingFunctionFlags HasPrototype DerivedClassConstructor)) ;;
  match kind, invalid_flag_for_kind serialized_flags with
  | FunctionKind.Normal, _ | _, None =>
      Ok (mkVerifiedHeader serialized_flags js_mode kind
            defined_argument_count variable_reference_count)
  | _, Some flag =>
      Err (root (FunctionFlagNotAllowedForKind flag kind FunctionKindRequirement.Normal))
  end.

(** ** Compiler layouts *)

Definition validate_compiler_constant_layout (layout : CompilerConstantLayout)
    (domains : FunctionIndexDomains) : verified CompilerConstantLayout :=
  let entries := len (kinds layout) in
  if negb (entries =? constant_pool_len domains)
  then Err (root (CompilerConstantCountMismatch (constant_pool_len domains) entries))
  else Ok layout.

Record ValidatedCompilerCaptureLayout := mkValidatedCapture {
  layout : CompilerCaptureLayout;
  bindings_by_identity : gmap CompilerCapturedBindingIdentity CompilerCapturedBinding }.

Definition is_scoped_local (v : ValidatedCompilerCaptureLayout) (local : Z) : bool :=
  match bindings_by_identity v !! CompilerCapturedBindingIdentity.Local local with
  | Some (CompilerCapturedBinding.ScopedLocal _) => true
  | _ => false
  end.

(** The index of a captured binding and the length of its frame domain. *)
Definition binding_domain (domains : FunctionIndexDomains) (b : CompilerCapturedBinding) : Z * Z :=
  match b with
  | CompilerCapturedBinding.Argument index => (index, argument_count domains)
  | CompilerCapturedBinding.FunctionLocal index
  | CompilerCapturedBinding.ScopedLocal index => (index, local_count domains)
  end.

Definition check_binding_bounds (domains : FunctionIndexDomains) (b : CompilerCapturedBinding) :
    verified unit :=
  let '(index, length) := binding_domain domains b in
  reject_if (length <=? index) (root (CompilerCaptureIndexOutOfBounds b length)).

(** One iteration of the mapped-arguments loop; the state is the previous
    position. *)
Definition check_mapped_argument (domains : FunctionIndexDomains) (previous : option Z) (index : Z) :
    verified (option Z) :=
  if argument_count domains <=? index
  then Err (root (CompilerMappedArgumentIndexOutOfBounds index (argument_count domains))) else
  match previous with
  | Some p =>
      if index <=? p then Err (root (CompilerMappedArgumentsNotAscending p index))
      else Ok (Some index)
  | None => Ok (Some index)
  end.

(** One iteration of the duplicate check: [insert(..).is_some()]. *)
Definition insert_binding (m : gmap CompilerCapturedBindingIdentity CompilerCapturedBinding)
    (b : CompilerCapturedBinding) :
    verified (gmap CompilerCapturedBindingIdentity CompilerCapturedBinding) :=
  match m !! identity b with
  | Some _ => Err (root (DuplicateCompilerCapture b))
  | None => Ok (<[identity b := b]> m)
  end.

Definition validate_compiler_capture_layout `{Allocator} (l : CompilerCaptureLayout)
    (domains : FunctionIndexDomains) (function_header : VerifiedFunctionHeader) :
    verified ValidatedCompilerCaptureLayout :=
  let capture_count := len (bindings l) in
  reject_if (negb (capture_count =? variable_reference_count function_header))
    (root (CompilerCaptureCountMismatch (variable_reference_count function_header)
             capture_count)) ;;
  try_for_each (check_binding_bounds domains) (bindings l) ;;
  match mapped_arguments l with
  | Some mapped => try_fold (check_mapped_argument domains) None mapped ;; Ok tt
  | None => Ok tt
  end ;;
  reserve "compiler captures" 0 capture_count
    (root (AllocationFailed VerificationResource.CompilerCaptures capture_count)) ;;
  bindings_by_identity ← try_fold insert_binding ∅ (bindings l);
  Ok (mkValidatedCapture l bindings_by_identity).

(** ** Facts *)

Module HeaderFacts.

Lemma check_limit_Ok r o l u : check_limit r o l = Ok u ↔ o ≤ l.
Proof. unfold check_limit. rewrite reject_if_Ok, Z.ltb_ge. done. Qed.

Lemma check_structural_count_Ok d v u :
  check_structural_count d v = Ok u ↔ v ≤ MAX_FUNCTION_INDEX_ENTRIES.
Proof. unfold check_structural_count. rewrite reject_if_Ok, Z.ltb_ge. done. Qed.

(** The limits and counts a body must respect. *)
Record limits_ok (bytecode_len : Z) (d : FunctionIndexDomains) (h : UnverifiedFunctionHeader)
    (expected : option Z) (l : VerificationLimits) : Prop := {
  limit_stack : max_stack_depth l ≤ MAX_OPERAND_STACK_DEPTH;
  limit_bytes : bytecode_len ≤ max_bytecode_bytes_per_function l;
  limit_constants : constant_pool_len d ≤ max_constants_per_function l;
  limit_atoms : atom_pool_len d ≤ max_atom_pool_entries l;
  limit_arguments : argument_count d ≤ MAX_FUNCTION_INDEX_ENTRIES;
  limit_locals : local_count d ≤ MAX_FUNCTION_INDEX_ENTRIES;
  limit_references : UnverifiedFunctionHeader.variable_reference_count h ≤ MAX_FUNCTION_INDEX_ENTRIES;
  limit_closure : closure_var_count d ≤ MAX_FUNCTION_INDEX_ENTRIES;
  limit_expected e : expected = Some e → e ≤ MAX_FUNCTION_INDEX_ENTRIES ∧ e ≤ max_stack_depth l }.

Lemma validate_limits_and_counts_spec n d h e l :
  validate_limits_and_counts n d h e l = Ok tt ↔ limits_ok n d h e l.
Proof.
  unfold validate_limits_and_counts. split.
  - intros H. inv_ok. bool_to_prop.
    repeat match goal with
    | H : check_limit _ _ _ = Ok _ |- _ => apply check_limit_Ok in H
    | H : check_structural_count _ _ = Ok _ |- _ => apply check_structural_count_Ok in H
    end. constructor; try done. intros x ->. inv_ok.
    repeat match goal with
    | H : check_limit _ _ _ = Ok _ |- _ => apply check_limit_Ok in H
    | H : check_structural_count _ _ = Ok _ |- _ => apply check_structural_count_Ok in H
    end. done.
  - intros [Hs Hb Hc Ha Harg Hloc Href Hcl He]. unfold check_structural_count, check_limit.
    repeat match goal with
    | H : ?a ≤ ?b |- context [?b <? ?a] => rewrite (proj2 (Z.ltb_ge b a) H)
    end. simpl. destruct e as [e|]; [|done]. destruct (He e eq_refl) as [H1 H2].
    by rewrite (proj2 (Z.ltb_ge _ e) H1), (proj2 (Z.ltb_ge _ e) H2).
Qed.

(** The duplicate check succeeds exactly on distinct identities, and the map it
    builds is the table of the bindings. *)
Lemma insert_bindings_Ok bs : ∀ m m',
  try_fold insert_binding m bs = Ok m' →
  NoDup (identity <$> bs) ∧ (∀ b, b ∈ bs → m !! identity b = None) ∧
  (∀ i x, m' !! i = Some x ↔ m !! i = Some x ∨ (x ∈ bs ∧ identity x = i)).
Proof.
  induction bs as [|b bs IH]; intros m m'; simpl.
  { intros [= <-]. split_and!; [constructor|by intros ? ?%not_elem_of_nil|].
    intros i x. rewrite elem_of_nil. naive_solver. }
  intros (m1 & H1 & H2)%bind_Ok. unfold insert_binding in H1.
  destruct (m !! identity b) as [b'|] eqn:Hb; simplify_eq.
  destruct (IH _ _ H2) as (Hnd & Hfresh & Hlook). split_and!.
  - apply NoDup_cons_2; [|done]. intros (x & Hx & Hin)%list_elem_of_fmap.
    specialize (Hfresh x Hin). by rewrite <- Hx, lookup_insert_eq in Hfresh.
  - intros x [->|Hin]%elem_of_cons; [done|]. specialize (Hfresh x Hin).
    by apply lookup_insert_None in Hfresh as [? _].
  - intros i x. rewrite Hlook, lookup_insert_Some, elem_of_cons.
    split; [naive_solver|]. intros [Hm|[[->|Hin] <-]]; [|by left; left|by right].
    left. right. split; [|done]. intros <-. congruence.
Qed.

Lemma insert_bindings_succeeds bs : ∀ m,
  NoDup (identity <$> bs) → (∀ b, b ∈ bs → m !! identity b = None) →
  ∃ m', try_fold insert_binding m bs = Ok m'.
Proof.
  induction bs as [|b bs IH]; intros m Hnd Hfresh; simpl; [by eexists|].
  pose proof (NoDup_cons_1_1 _ _ Hnd) as Hb. apply NoDup_cons_1_2 in Hnd. 
  assert (insert_binding m b = Ok (<[identity b := b]> m)) as ->.
  { unfold insert_binding. by rewrite Hfresh by (apply elem_of_cons; by left). }
  simpl. apply IH; [done|].
  intros x Hx. apply lookup_insert_None. split; [by apply Hfresh, elem_of_cons; right|].
  intros Heq. apply Hb. apply list_elem_of_fmap. by exists x.
Qed.

Lemma check_mapped_argument_Ok d prev i r :
  check_mapped_argument d prev i = Ok r ↔
  r = Some i ∧ i < argument_count d ∧ (∀ p, prev = Some p → p < i).
Proof.
  unfold check_mapped_argument. destruct (Z.leb_spec (argument_count d) i).
  { split; [done|]. intros (_ & ? & _). lia. }
  destruct prev as [p|]; [|naive_solver].
  destruct (Z.leb_spec i p); (split; [try done|]).
  - intros (_ & _ & Hp). specialize (Hp p eq_refl). lia.
  - intros [= <-]. split_and!; [done|done|]. by intros ? [= <-].
  - by intros (-> & _).
Qed.

Lemma check_mapped_arguments_Ok d l : ∀ prev,
  (∃ r, try_fold (check_mapped_argument d) prev l = Ok r) ↔
  Forall (λ i, i < argument_count d) l ∧
  StronglySorted Z.lt (match prev with Some p => p :: l | None => l end).
Proof.
  induction l as [|i l IH]; intros prev.
  { split; [intros _|intros _; by eexists]. destruct prev; repeat constructor. }
  simpl. split.
  - intros (r & (q & (-> & Hi & Hp)%check_mapped_argument_Ok & Hr)%bind_Ok).
    destruct (proj1 (IH (Some i))) as [Hall Hs]; [by eexists|].
    split; [by apply Forall_cons_2|]. destruct prev as [p|]; [|done].
    specialize (Hp p eq_refl). constructor; [done|]. apply Forall_cons_2; [done|].
    apply StronglySorted_inv in Hs as [_ Hs]. eapply Forall_impl; [|exact Hs]. simpl. intros; lia.
  - intros [[Hi Hall]%Forall_cons_1 Hs].
    assert (StronglySorted Z.lt (i :: l)) as Hs'
      by (destruct prev; [by apply StronglySorted_inv in Hs as [? _]|done]).
    assert (check_mapped_argument d prev i = Ok (Some i)) as ->.
    { apply check_mapped_argument_Ok. split_and!; [done|done|]. intros p ->.
      apply StronglySorted_inv in Hs as [_ Hs]. by apply Forall_cons_1 in Hs as [? _]. }
    by apply (IH (Some i)).
Qed.

Lemma capture_layout_Ok `{Allocator} l d h v :
  validate_compiler_capture_layout l d h = Ok v →
  layout v = l ∧ len (bindings l) = variable_reference_count h ∧
  Forall (λ b, (binding_domain d b).1 < (binding_domain d b).2) (bindings l) ∧
  NoDup (identity <$> bindings l) ∧
  (∀ m, mapped_arguments l = Some m →
     Forall (λ i, i < argument_count d) m ∧ StronglySorted Z.lt m) ∧
  (∀ i x, bindings_by_identity v !! i = Some x ↔ x ∈ bindings l ∧ identity x = i).
Proof.
  unfold validate_compiler_capture_layout. intros Hv. inv_ok. subst v. simpl. bool_to_prop.
  rename select (try_for_each _ _ = _) into Hb. apply try_for_each_Ok in Hb.
  rename select (try_fold insert_binding _ _ = _) into Hm.
  apply insert_bindings_Ok in Hm as (Hnd & _ & Hlook).
  split_and!; try done.
  - eapply Forall_impl; [|exact Hb]. intros b. unfold check_binding_bounds.
    destruct (binding_domain d b); simpl. rewrite reject_if_Ok, Z.leb_gt. done.
  - intros m Hm. rewrite Hm in *. inv_ok.
    apply (check_mapped_arguments_Ok d m None). by eexists.
  - intros i x. rewrite Hlook, lookup_empty. naive_solver.
Qed.

Lemma capture_layout_succeeds `{GenerousAllocator} l d h :
  len (bindings l) = variable_reference_count h →
  Forall (λ b, (binding_domain d b).1 < (binding_domain d b).2) (bindings l) →
  NoDup (identity <$> bindings l) →
  (∀ m, mapped_arguments l = Some m →
     Forall (λ i, i < argument_count d) m ∧ StronglySorted Z.lt m) →
  ∃ v, validate_compiler_capture_layout l d h = Ok v.
Proof.
  intros Hlen Hb Hnd Hm. unfold validate_compiler_capture_layout.
  rewrite Hlen, Z.eqb_refl. cbn [negb reject_if mbind result_bind].
  assert (try_for_each (check_binding_bounds d) (bindings l) = Ok tt) as ->.
  { apply try_for_each_Ok. eapply Forall_impl; [|exact Hb]. intros b Hlt.
    unfold check_binding_bounds. simpl in Hlt. destruct (binding_domain d b) as [i n]. apply reject_if_Ok, Z.leb_gt. exact Hlt. }
  cbn [mbind result_bind].
  assert (∃ u, match mapped_arguments l with
    | Some mapped => try_fold (check_mapped_argument d) None mapped ;; Ok tt
    | None => Ok tt end = Ok u) as [[] ->].
  { destruct (mapped_arguments l) as [m|]; [|by eexists].
    destruct (proj2 (check_mapped_arguments_Ok d m None) (Hm m eq_refl)) as [r ->]. by eexists. }
  cbn [mbind result_bind]. rewrite reserve_generous. cbn [mbind result_bind].
  destruct (insert_bindings_succeeds (bindings l) ∅ Hnd) as [m ->]; [|by eexists].
  intros. apply lookup_empty.
Qed.

Lemma is_scoped_local_spec `{Allocator} l d h v n :
  validate_compiler_capture_layout l d h = Ok v →
  is_scoped_local v n = true ↔ CompilerCapturedBinding.ScopedLocal n ∈ bindings l.
Proof.
  intros (_ & _ & _ & _ & _ & Hlook)%capture_layout_Ok. unfold is_scoped_local.
  split.
  - destruct (_ !! _) as [[]|] eqn:E; try done. apply Hlook in E as [? [= ->]]. done.
  - intros Hin. assert (bindings_by_identity v !! CompilerCapturedBindingIdentity.Local n =
      Some (CompilerCapturedBinding.ScopedLocal n)) as -> by (by apply Hlook). done.
Qed.
End HeaderFacts.

(** ** Properties of header validation *)

Module FlagFacts.
Import FunctionHeaderFlags.

Lemma has_bit_testbit flags b : 0 ≤ b → has_bit flags b = Z.testbit flags b.
Proof. apply land_bit_nonzero. Qed.

(** The two kind bits, read as the kind they encode. *)
Definition kind_of_bits (low high : bool) : FunctionKind :=
  match high, low with
  | false, false => FunctionKind.Normal
  | false, true => FunctionKind.Generator
  | true, false => FunctionKind.Async
  | true, true => FunctionKind.AsyncGenerator
  end.

Lemma kind_testbit f :
  FunctionKind.from_serialized_flags f = kind_of_bits (Z.testbit f 4) (Z.testbit f 5).
Proof.
  unfold FunctionKind.from_serialized_flags.
  replace (Z.land f FUNCTION_KIND_MASK)
    with (Z.lor (Z.land f (Z.shiftl 1 4)) (Z.land f (Z.shiftl 1 5)))
    by (by rewrite <- Z.land_lor_distr_r).
  rewrite !land_bit by lia. by destruct (Z.testbit f 4), (Z.testbit f 5).
Qed.

Lemma invalid_flag_None f :
  invalid_flag_for_kind f = None ↔ Z.testbit f 0 = false ∧ Z.testbit f 2 = false.
Proof.
  unfold invalid_flag_for_kind, has_prototype, is_derived_class_constructor.
  rewrite !has_bit_testbit by lia. destruct (Z.testbit f 0), (Z.testbit f 2); naive_solver.
Qed.

(** The headers the verifier accepts. *)
Record header_ok (h : UnverifiedFunctionHeader) (d : FunctionIndexDomains) : Prop := {
  ok_flags : UnverifiedFunctionHeader.serialized_flags h < 2 ^ 13;
  ok_mode : UnverifiedFunctionHeader.js_mode h < 2;
  ok_defined : UnverifiedFunctionHeader.defined_argument_count h ≤ argument_count d;
  ok_references : UnverifiedFunctionHeader.variable_reference_count h
                    ≤ argument_count d + local_count d;
  ok_constructor : Z.testbit (UnverifiedFunctionHeader.serialized_flags h) 0 = true →
                   Z.testbit (UnverifiedFunctionHeader.serialized_flags h) 2 = false;
  ok_kind : Z.testbit (UnverifiedFunctionHeader.serialized_flags h) 4 = true ∨
            Z.testbit (UnverifiedFunctionHeader.serialized_flags h) 5 = true →
            Z.testbit (UnverifiedFunctionHeader.serialized_flags h) 0 = false ∧
            Z.testbit (UnverifiedFunctionHeader.serialized_flags h) 2 = false }.

Definition accepted_header (h : UnverifiedFunctionHeader) : VerifiedFunctionHeader :=
  let f := UnverifiedFunctionHeader.serialized_flags h in
  mkVerifiedHeader f (UnverifiedFunctionHeader.js_mode h)
    (kind_of_bits (Z.testbit f 4) (Z.testbit f 5))
    (UnverifiedFunctionHeader.defined_argument_count h)
    (UnverifiedFunctionHeader.variable_reference_count h).

Lemma kind_step f (A : Type) (x : A) (e : FunctionHeaderFlag → verified A) v :
  match FunctionKind.from_serialized_flags f, invalid_flag_for_kind f with
  | FunctionKind.Normal, _ | _, None => Ok x
  | _, Some flag => e flag
  end = Ok v →
  (∀ flag, e flag ≠ Ok v) →
  v = x ∧ (Z.testbit f 4 = true ∨ Z.testbit f 5 = true →
           Z.testbit f 0 = false ∧ Z.testbit f 2 = false).
Proof.
  rewrite kind_testbit. destruct (invalid_flag_for_kind f) as [flag|] eqn:E.
  - intros Hv He. destruct (Z.testbit f 4), (Z.testbit f 5); simpl in Hv;
      try (by exfalso; eapply He). apply Ok_inj in Hv as <-. split; [done|naive_solver].
  - apply invalid_flag_None in E as [-> ->]. intros Hv _.
    split; [|done]. by destruct (kind_of_bits _ _); apply Ok_inj in Hv as <-.
Qed.
Lemma validate_function_header_spec h d v :
  is_u16 (UnverifiedFunctionHeader.serialized_flags h) →
  is_u8 (UnverifiedFunctionHeader.js_mode h) →
  validate_function_header h d = Ok v ↔ header_ok h d ∧ v = accepted_header h.
Proof.
  intros Hf Hm. unfold validate_function_header, FunctionHeaderFlags.has_prototype,
    FunctionHeaderFlags.is_derived_class_constructor.
  rewrite !has_bit_testbit by lia. split.
  - intros Hv. inv_ok. bool_to_prop.
    change SERIALIZED_FUNCTION_FLAGS_MASK with (Z.ones 13) in *.
    change JS_MODE_MASK with (Z.ones 1) in *.
    repeat match goal with H : Z.ldiff _ _ = 0 |- _ =>
      apply ldiff_ones_zero in H; [|unfold_ints; lia..] end.
    apply kind_step in Hv as [-> Hk]; [|done].
    unfold accepted_header. rewrite kind_testbit. split; [|done].
    constructor; try done.
    match goal with H : _ && _ = false |- _ => revert H end.
    destruct (Z.testbit _ 0), (Z.testbit _ 2); done.
  - intros [[Hfl Hmo Hde Hre Hco Hki] ->]. unfold accepted_header. cbv zeta.
    change SERIALIZED_FUNCTION_FLAGS_MASK with (Z.ones 13).
    change JS_MODE_MASK with (Z.ones 1).
    assert (Z.ldiff (UnverifiedFunctionHeader.serialized_flags h) (Z.ones 13) = 0) as ->
      by (apply ldiff_ones_zero; unfold_ints; lia).
    assert (Z.ldiff (UnverifiedFunctionHeader.js_mode h) (Z.ones 1) = 0) as ->
      by (apply ldiff_ones_zero; unfold_ints; lia).
    rewrite (proj2 (Z.ltb_ge _ _) Hde), (proj2 (Z.ltb_ge _ _) Hre).
    cbn [reject_if negb mbind result_bind Z.eqb].
    assert (Z.testbit (UnverifiedFunctionHeader.serialized_flags h) 0
      && Z.testbit (UnverifiedFunctionHeader.serialized_flags h) 2 = false) as ->
      by (destruct (Z.testbit _ 0); [by rewrite Hco|done]).
    cbn [reject_if mbind result_bind]. rewrite kind_testbit.
    destruct (invalid_flag_for_kind _) as [flag|] eqn:E; [|by destruct (kind_of_bits _ _)].
    destruct (Z.testbit _ 4) eqn:H4, (Z.testbit _ 5) eqn:H5; try done; exfalso;
      (destruct Hki as [H0 H2]; [tauto|]);
      rewrite (proj2 (invalid_flag_None _) (conj H0 H2)) in E; done.
Qed.
End FlagFacts.

(** Header validation is exact: a header of its field widths is accepted
    if and only if only known flag and mode bits are set, the counts fit the
    frame, a prototype-carrying function is not a derived constructor and a
    generator or async function is neither; the accepted header carries the
    same bits and counts and the kind its two kind bits encode. *)
Theorem function_header_exact (h : UnverifiedFunctionHeader) (d : FunctionIndexDomains)
    (v : VerifiedFunctionHeader)
    (Hf : is_u16 (UnverifiedFunctionHeader.serialized_flags h))
    (Hm : is_u8 (UnverifiedFunctionHeader.js_mode h)) :
  validate_function_header h d = Ok v ↔ FlagFacts.header_ok h d ∧ v = FlagFacts.accepted_header h.
Proof. by apply FlagFacts.validate_function_header_spec. Qed.

Lemma function_header_exact_witness :
  validate_function_header (UnverifiedFunctionHeader.generator_source_function_with_variable_references
    true 1 2) (mkDomains 0 0 1 3 0)
  = Ok (mkVerifiedHeader 1618 1 FunctionKind.Generator 1 2).
Proof.
  apply function_header_exact; [vm_compute; split; discriminate..|]. split; [|reflexivity].
  constructor; vm_compute; (reflexivity || discriminate || tauto).
Defined.

(** The compiler's source-function profiles and the kind each selects. *)
Definition source_profiles : list ((bool → Z → Z → UnverifiedFunctionHeader) * FunctionKind) :=
  [(UnverifiedFunctionHeader.stripped_ordinary_source_function_with_variable_references,
      FunctionKind.Normal);
   (UnverifiedFunctionHeader.ordinary_source_function_with_variable_references,
      FunctionKind.Normal);
   (UnverifiedFunctionHeader.ordinary_arrow_with_variable_references, FunctionKind.Normal);
   (UnverifiedFunctionHeader.async_arrow_with_variable_references, FunctionKind.Async);
   (UnverifiedFunctionHeader.ordinary_method_with_variable_references, FunctionKind.Normal);
   (UnverifiedFunctionHeader.class_constructor_with_variable_references, FunctionKind.Normal);
   (UnverifiedFunctionHeader.derived_class_constructor_with_variable_references,
      FunctionKind.Normal);
   (UnverifiedFunctionHeader.generator_source_function_with_variable_references,
      FunctionKind.Generator);
   (UnverifiedFunctionHeader.generator_method_with_variable_references, FunctionKind.Generator);
   (UnverifiedFunctionHeader.async_source_function_with_variable_references, FunctionKind.Async);
   (UnverifiedFunctionHeader.async_method_with_variable_references, FunctionKind.Async);
   (UnverifiedFunctionHeader.async_generator_source_function_with_variable_references,
      FunctionKind.AsyncGenerator);
   (UnverifiedFunctionHeader.async_generator_method_with_variable_references,
      FunctionKind.AsyncGenerator);
   (λ strict _ references, UnverifiedFunctionHeader.global_script strict references,
      FunctionKind.Normal);
   (λ _ _ references, UnverifiedFunctionHeader.dynamic_function_script references,
      FunctionKind.Normal);
   (λ _ _ references, UnverifiedFunctionHeader.module references, FunctionKind.Normal);
   (λ _ _ references, UnverifiedFunctionHeader.async_module references, FunctionKind.Async)].

(** The direct-eval profiles, one per combination of inherited capabilities. *)
Definition direct_eval_profiles :
    list ((bool → Z → Z → UnverifiedFunctionHeader) * FunctionKind) :=
  new_target ← [false; true]; super_property ← [false; true];
  super_call ← [false; true]; instance_elements ← [false; true];
  [(λ strict _ references, UnverifiedFunctionHeader.direct_eval_script strict references
      (DirectEvalFunctionCapabilities.with_instance_elements
         (DirectEvalFunctionCapabilities.new new_target super_property super_call)
         instance_elements), FunctionKind.Normal)].

(** Every header the compiler's constructors build is one the verifier
    accepts: whatever the strictness, the parameter-list shape and the counts
    that fit the frame, validation succeeds with the header's own bits and
    with the kind the profile stands for. *)
Theorem compiler_profiles_accepted (strict simple : bool) (defined references : Z)
    (d : FunctionIndexDomains)
    (make : bool → Z → Z → UnverifiedFunctionHeader) (k : FunctionKind)
    (Hp : (make, k) ∈ source_profiles ++ direct_eval_profiles)
    (Hdef : 0 ≤ defined ≤ argument_count d)
    (Href : 0 ≤ references ≤ argument_count d + local_count d) :
  let h := UnverifiedFunctionHeader.with_simple_parameter_list
             (make strict defined references) simple in
  ∃ v, validate_function_header h d = Ok v ∧ kind v = k ∧
       flags v = UnverifiedFunctionHeader.serialized_flags h ∧
       FunctionHeaderFlags.has_simple_parameter_list (flags v) = simple ∧
       variable_reference_count v = references.
Proof.
  unfold source_profiles, direct_eval_profiles in Hp. simpl in Hp.
  repeat (apply elem_of_cons in Hp as [Hp|Hp]);
    [..|by apply not_elem_of_nil in Hp]; injection Hp as -> ->;
    eexists; (split;
      [apply FlagFacts.validate_function_header_spec;
         [destruct strict, simple; vm_compute; (split; discriminate)..|];
       split; [constructor|reflexivity]; simpl; try lia;
         destruct strict, simple; vm_compute; (reflexivity || discriminate || tauto || naive_solver)
      |destruct strict, simple; done]).
Qed.

Lemma compiler_profiles_accepted_witness :
  ∃ v, validate_function_header
         (UnverifiedFunctionHeader.with_simple_parameter_list
            (UnverifiedFunctionHeader.async_method_with_variable_references true 1 2) false)
         (mkDomains 0 0 2 1 0) = Ok v ∧ kind v = FunctionKind.Async.
Proof.
  destruct (compiler_profiles_accepted true false 1 2 (mkDomains 0 0 2 1 0)
    UnverifiedFunctionHeader.async_method_with_variable_references FunctionKind.Async)
    as (v & Hv & Hk & _); [|simpl; lia..|exists v; split; [exact Hv|exact Hk]].
  unfold source_profiles. simpl.
  do 10 (apply elem_of_cons; right). apply elem_of_cons; left. reflexivity.
Defined.

(** Capture-layout validation is exact: with memory available it accepts
    a layout if and only if there is one binding per variable reference, every
    binding lies in its frame domain, no frame slot is captured twice and the
    mapped arguments are in range and strictly ascending; what it accepts
    answers exactly which locals are block-scoped captures. *)
Theorem capture_layout_exact (a : Allocator) (Ha : GenerousAllocator)
    (l : CompilerCaptureLayout) (d : FunctionIndexDomains) (h : VerifiedFunctionHeader) :
  ((∃ v, validate_compiler_capture_layout l d h = Ok v) ↔
   len (bindings l) = variable_reference_count h ∧
   Forall (λ b, (binding_domain d b).1 < (binding_domain d b).2) (bindings l) ∧
   NoDup (identity <$> bindings l) ∧
   (∀ m, mapped_arguments l = Some m →
      Forall (λ i, i < argument_count d) m ∧ StronglySorted Z.lt m)) ∧
  (∀ v, validate_compiler_capture_layout l d h = Ok v →
     layout v = l ∧
     ∀ n, is_scoped_local v n = true ↔ CompilerCapturedBinding.ScopedLocal n ∈ bindings l).
Proof.
  split; [split|].
  - intros (v & (_ & ? & ? & ? & ? & _)%HeaderFacts.capture_layout_Ok). done.
  - intros (Hlen & Hb & Hnd & Hm). by apply HeaderFacts.capture_layout_succeeds.
  - intros v Hv. split; [by apply HeaderFacts.capture_layout_Ok in Hv as (? & _)|].
    intros n. by eapply HeaderFacts.is_scoped_local_spec.
Qed.

Lemma capture_layout_exact_witness :
  ∃ v, @validate_compiler_capture_layout always_allocates
         (mkCaptureLayout [CompilerCapturedBinding.ScopedLocal 1; CompilerCapturedBinding.Argument 0]
            (Some [0; 1]))
         (mkDomains 0 0 2 2 0) (mkVerifiedHeader 0 0 FunctionKind.Normal 0 2) = Ok v.
Proof.
  apply (capture_layout_exact always_allocates always_allocates_generous).
  split; [reflexivity|]. split; [repeat apply Forall_cons_2; (apply Forall_nil_2 || reflexivity)|].
  split; [apply (bool_decide_unpack _); reflexivity|].
  intros m [= <-]. split; [repeat apply Forall_cons_2; (apply Forall_nil_2 || reflexivity)|].
  repeat constructor.
Defined.
