(* ===== verification/VerifierPredecode.v ===== *)
(** * Predecoding and target resolution

    Models [crates/fusor-bytecode/src/verifier/predecode.rs] and [targets.rs]:
    the complete decoding of a body with its instruction-boundary bitmap, and
    the resolution of encoded and fallthrough targets to instruction
    indices. *)

From S2P Require Import Prelude Opcode Codec Function VerifierModel.
Import VerificationErrorKind.

(** ** Predecoding *)

(** Completely decoded instructions and their exact byte-boundary map. *)
Record PredecodedBody := mkPredecoded {
  predecoded_instructions : list DecodedInstruction;
  predecoded_bitmap : list Z }.

Definition allocate_boundary_bitmap `{Allocator} (bytecode_len : Z) : verified (list Z) :=
  bits ← ok_or (checked_add_u64 bytecode_len 63)
           (root (AllocationFailed VerificationResource.InstructionBoundaryWords u64_max));
  let word_count := bits / 64 in
  reserve "instruction boundary words" 0 word_count
    (root (AllocationFailed VerificationResource.InstructionBoundaryWords word_count)) ;;
  Ok (replicate (Z.to_nat word_count) 0).

Definition mark_instruction_start (bitmap : list Z) (bytecode_len : Z) (pc : BytecodePc) :
    verified (list Z) :=
  offset ← ok_or (try_usize pc) (from_decode (PcNotRepresentable pc));
  word ← ok_or (bitmap !! (offset / 64)%nat) (from_decode (PcOutOfBounds pc bytecode_len));
  Ok (<[(offset / 64)%nat := Z.lor word (Z.shiftl 1 (Z.of_nat (offset mod 64)))]> bitmap).

Definition is_instruction_start (bitmap : list Z) (bytecode_len : Z) (pc : BytecodePc) : bool :=
  match try_usize pc with
  | None => false
  | Some offset =>
      if bytecode_len <=? Z.of_nat offset then false else
      match bitmap !! (offset / 64)%nat with
      | Some word => negb (Z.land word (Z.shiftl 1 (Z.of_nat (offset mod 64))) =? 0)
      | None => false
      end
  end.

(** One turn of the decoding loop, on the instructions and the bitmap so
    far.  Growing the vector succeeds whenever it has spare capacity; that is
    part of the allocator's answer. *)
Definition predecode_item `{Allocator} (bytecode_len max_instructions : Z)
    (state : list DecodedInstruction * list Z) (item : result DecodeError DecodedInstruction) :
    verified (list DecodedInstruction * list Z) :=
  let '(instructions, bitmap) := state in
  decoded ← map_err from_decode item;
  let observed := saturating_add_u64 (len instructions) 1 in
  reject_if (max_instructions <? observed)
    (at_instruction decoded
       (LimitExceeded VerificationResource.Instructions max_instructions observed)) ;;
  bitmap ← mark_instruction_start bitmap bytecode_len (pc decoded);
  reserve "instructions" (len instructions) 1
    (at_instruction decoded (AllocationFailed VerificationResource.Instructions 1)) ;;
  Ok (instructions ++ [decoded], bitmap).

(** Decodes the complete body and records every instruction boundary. *)
Definition predecode_complete `{Allocator} (bytecode : list Z) (max_instructions : Z) :
    verified PredecodedBody :=
  bitmap ← allocate_boundary_bitmap (len bytecode);
  state ← InstructionDecoder.for_each (S (length bytecode))
            (predecode_item (len bytecode) max_instructions)
            (InstructionDecoder.new bytecode) ([], bitmap);
  Ok (mkPredecoded (fst state) (snd state)).

(** ** Targets *)

Definition require_encoded_target (decoded : DecodedInstruction) (target : option Z) :
    verified Z :=
  ok_or target (at_instruction decoded (MissingControlFlowOperand
    (OpcodeMetadata.operand_format
       (FinalOpcode.metadata (Instruction.opcode (instruction decoded)))))).

Definition decoded_instruction_index_at (instructions : list DecodedInstruction)
    (bitmap : list Z) (bytecode_len : Z) (target : BytecodePc) : option Z :=
  if negb (is_instruction_start bitmap bytecode_len target) then None else
  index ← binary_search_by_key pc target instructions;
  try_u32 (Z.of_nat index).

(** The same lookup on verified instructions. *)
Definition instruction_index_at (instructions : list VerifiedInstruction)
    (bitmap : list Z) (bytecode_len : Z) (target : BytecodePc) : option Z :=
  if negb (is_instruction_start bitmap bytecode_len target) then None else
  index ← binary_search_by_key (λ i, pc (decoded i)) target instructions;
  try_u32 (Z.of_nat index).

(** The edge, base offset and displacement of an encoded relative target. *)
Definition relative_target_spec (decoded : DecodedInstruction) :
    verified (option (ControlFlowEdge * Z * Z)) :=
  let opcode := Instruction.opcode (instruction decoded) in
  let operands := Instruction.operands (instruction decoded) in
  let missing expected := at_instruction decoded (MissingControlFlowOperand expected) in
  let label8 edge :=
    match operands with
    | Operands.Label8 displacement => Ok (Some (edge, 1, displacement))
    | _ => Err (missing OperandFormat.Label8)
    end in
  let label16 edge :=
    match operands with
    | Operands.Label16 displacement => Ok (Some (edge, 1, displacement))
    | _ => Err (missing OperandFormat.Label16)
    end in
  let label edge :=
    match operands with
    | Operands.Label displacement => Ok (Some (edge, 1, displacement))
    | _ => Err (missing OperandFormat.Label)
    end in
  match opcode with
  | FinalOpcode.IfFalse8 | FinalOpcode.IfTrue8 => label8 ControlFlowEdge.Branch
  | FinalOpcode.IfFalse | FinalOpcode.IfTrue => label ControlFlowEdge.Branch
  | FinalOpcode.Goto8 => label8 ControlFlowEdge.Jump
  | FinalOpcode.Goto16 => label16 ControlFlowEdge.Jump
  | FinalOpcode.Goto => label ControlFlowEdge.Jump
  | FinalOpcode.Catch => label ControlFlowEdge.CatchHandler
  | FinalOpcode.Gosub => label ControlFlowEdge.FinallySubroutine
  | FinalOpcode.WithGetVar | FinalOpcode.WithPutVar | FinalOpcode.WithDeleteVar
  | FinalOpcode.WithMakeRef | FinalOpcode.WithGetRef =>
      match operands with
      | Operands.AtomLabelU8 _ label _ => Ok (Some (ControlFlowEdge.WithBinding, 5, label))
      | _ => Err (missing OperandFormat.AtomLabelU8)
      end
  | _ => Ok None
  end.

Section targets.
Context (instructions : list DecodedInstruction) (bitmap : list Z) (bytecode_len : Z).

Definition resolve_target (decoded : DecodedInstruction) (edge : ControlFlowEdge) (target : Z) :
    verified Z :=
  bytecode_len_u32 ← ok_or (try_u32 bytecode_len)
    (root (LimitExceeded VerificationResource.BytecodeBytes u32_max bytecode_len));
  let invalid reason :=
    at_instruction decoded (InvalidControlFlowTarget edge target bytecode_len_u32 reason) in
  reject_if ((target <? 0) || (bytecode_len_u32 <=? target))
    (invalid InvalidControlFlowTargetReason.OutsideBytecode) ;;
  reject_if (bool_decide (Instruction.opcode (instruction decoded) = FinalOpcode.Catch)
             && (target =? 0))
    (invalid InvalidControlFlowTargetReason.CatchTargetZero) ;;
  target_pc ← ok_or (try_u32 target) (invalid InvalidControlFlowTargetReason.OutsideBytecode);
  ok_or (decoded_instruction_index_at instructions bitmap bytecode_len target_pc)
    (invalid InvalidControlFlowTargetReason.NotInstructionBoundary).

Definition resolve_relative_target (decoded : DecodedInstruction) : verified (option Z) :=
  spec ← relative_target_spec decoded;
  match spec with
  | None => Ok None
  | Some (edge, base_delta, displacement) =>
      let position := pc decoded in
      base ← ok_or (checked_add_i64 position base_delta)
        (at_instruction decoded (ControlFlowTargetOverflow edge position base_delta));
      target ← ok_or (checked_add_i64 base displacement)
        (at_instruction decoded (ControlFlowTargetOverflow edge base displacement));
      Some <$> resolve_target decoded edge target
  end.

Definition validate_gosub_continuation (decoded : DecodedInstruction) : verified unit :=
  if decide (Instruction.opcode (instruction decoded) ≠ FinalOpcode.Gosub) then Ok tt else
  resolve_target decoded ControlFlowEdge.FinallyContinuation (next_pc decoded) ;; Ok tt.

Definition resolve_fallthrough (decoded : DecodedInstruction) : verified Z :=
  resolve_target decoded ControlFlowEdge.Fallthrough (next_pc decoded).
End targets.

(** ** Facts *)

Module PredecodeFacts.
Import CodecFacts StreamFacts.

(** Bit [k] of the boundary bitmap. *)
Definition bit_at (bitmap : list Z) (k : nat) : bool :=
  match bitmap !! (k / 64)%nat with
  | Some word => Z.testbit word (Z.of_nat (k mod 64))
  | None => false
  end.

Lemma bit_at_zero n k : bit_at (replicate n 0) k = false.
Proof.
  unfold bit_at. destruct (_ !! _) eqn:E; [|done].
  apply lookup_replicate in E as [-> _]. apply Z.testbit_0_l.
Qed.

Lemma is_instruction_start_spec bitmap n q :
  n ≤ u64_max →
  is_instruction_start bitmap n q = true ↔ 0 ≤ q < n ∧ bit_at bitmap (Z.to_nat q) = true.
Proof.
  intros Hn. unfold is_instruction_start, bit_at.
  destruct (try_usize q) as [k|] eqn:Hq.
  - inv_checked. rewrite Z2Nat.id by done. destruct (Z.leb_spec n q); [naive_solver lia|].
    destruct (bitmap !! _); [|naive_solver]. rewrite land_bit_nonzero by lia. naive_solver.
  - split; [done|]. intros [Hr _]. unfold try_usize in Hq.
    destruct (Z.leb_spec 0 q), (Z.leb_spec q u64_max); simpl in Hq; (done || lia).
Qed.

Lemma mark_bit w i j :
  Z.testbit (Z.lor w (Z.shiftl 1 (Z.of_nat j))) (Z.of_nat i)
  = Z.testbit w (Z.of_nat i) || bool_decide (i = j).
Proof.
  rewrite Z.lor_spec, Z.shiftl_1_l, Z.pow2_bits_eqb by lia. f_equal.
  destruct (Z.eqb_spec (Z.of_nat j) (Z.of_nat i)); case_bool_decide; (done || lia).
Qed.

Lemma mark_instruction_start_Ok bitmap n q bitmap' :
  mark_instruction_start bitmap n q = Ok bitmap' →
  0 ≤ q ∧ length bitmap' = length bitmap ∧
  ∀ k, bit_at bitmap' k = bit_at bitmap k || bool_decide (k = Z.to_nat q).
Proof.
  unfold mark_instruction_start. intros H. inv_ok. inv_checked. subst bitmap'.
  match goal with H : bitmap !! _ = Some ?x |- _ => rename H into Hw, x into w end.
  split_and!; [done|by rewrite length_insert|]. intros k. unfold bit_at.
  set (p := Z.to_nat q) in *.
  destruct (decide (p / 64 = k / 64)%nat) as [E|E].
  - rewrite E, list_lookup_insert_eq by (rewrite <- E; by eapply lookup_lt_Some).
    rewrite <- E, Hw, mark_bit. f_equal.
    pose proof (Nat.div_mod_eq k 64). pose proof (Nat.div_mod_eq p 64).
    do 2 case_bool_decide; congruence || lia.
  - rewrite list_lookup_insert_ne by done.
    rewrite bool_decide_false by congruence. by rewrite orb_false_r.
Qed.

Lemma mark_instruction_start_succeeds bitmap n q :
  0 ≤ q ≤ u64_max → q < 64 * len bitmap → ∃ bitmap', mark_instruction_start bitmap n q = Ok bitmap'.
Proof.
  intros Hq Hlt. unfold mark_instruction_start, try_usize.
  destruct (Z.leb_spec 0 q), (Z.leb_spec q u64_max); [|lia..]. simpl.
  destruct (lookup_lt_is_Some_2 bitmap (Z.to_nat q / 64)%nat) as [w ->]; [|by eexists].
  apply Nat.Div0.div_lt_upper_bound. unfold len in Hlt. lia.
Qed.

Section fold.
Context `{Allocator} (n max : Z).

Let step := λ s d, predecode_item n max s (Ok d).

Lemma predecode_item_Ok acc bm d acc' bm' :
  max < u64_max → step (acc, bm) d = Ok (acc', bm') →
  acc' = acc ++ [d] ∧ len acc' ≤ max ∧ mark_instruction_start bm n (pc d) = Ok bm'.
Proof.
  intros Hm. unfold step, predecode_item. intros Hs. inv_ok. simplify_eq. bool_to_prop.
  rewrite len_app, len_cons. change (len []) with 0. unfold saturating_add_u64 in *.
  split_and!; [done|lia|done].
Qed.

Lemma predecode_fold_Ok ds : ∀ acc bm acc' bm',
  max < u64_max → try_fold step (acc, bm) ds = Ok (acc', bm') →
  acc' = acc ++ ds ∧ (ds = [] ∨ len acc' ≤ max) ∧
  ∀ k, bit_at bm' k = true ↔ bit_at bm k = true ∨ ∃ d, d ∈ ds ∧ k = Z.to_nat (pc d).
Proof.
  induction ds as [|d ds IH]; intros acc bm acc' bm' Hm; simpl.
  { intros [= <- <-]. rewrite app_nil_r. split_and!; [done|by left|]. intros k.
    setoid_rewrite elem_of_nil. naive_solver. }
  intros ([acc1 bm1] & (-> & Hl1 & Hmark)%predecode_item_Ok & Hrest)%bind_Ok; [|done].
  destruct (IH _ _ _ _ Hm Hrest) as (-> & Hl & Hbits).
  apply mark_instruction_start_Ok in Hmark as (_ & _ & Hmark).
  split_and!; [by rewrite <- app_assoc| |].
  - right. destruct Hl as [->|?]; [by rewrite app_nil_r|done].
  - intros k. rewrite Hbits, Hmark, orb_true_iff, bool_decide_eq_true.
    setoid_rewrite elem_of_cons. naive_solver.
Qed.

Lemma predecode_fold_succeeds `{!GenerousAllocator} ds : ∀ acc bm,
  len acc + len ds ≤ max → max < u64_max →
  Forall (λ d, 0 ≤ pc d ≤ u64_max ∧ pc d < 64 * len bm) ds →
  ∃ st, try_fold step (acc, bm) ds = Ok st.
Proof.
  induction ds as [|d ds IH]; intros acc bm Hlen Hm Hds; simpl; [by eexists|].
  apply Forall_cons_1 in Hds as [[Hd Hlt] Hds]. rewrite len_cons in Hlen.
  pose proof (len_nonneg ds).
  destruct (mark_instruction_start_succeeds bm n (pc d) Hd Hlt) as [bm1 Hbm].
  unfold step at 1, predecode_item. cbn [map_err mbind result_bind].
  destruct (Z.ltb_spec max (saturating_add_u64 (len acc) 1)); [unfold saturating_add_u64 in *; lia|].
  cbn [reject_if mbind result_bind]. rewrite Hbm. cbn [mbind result_bind].
  rewrite reserve_generous. cbn [mbind result_bind]. apply IH; [|done|].
  - rewrite len_app, len_cons. change (len []) with 0. lia.
  - apply mark_instruction_start_Ok in Hbm as (_ & Hl & _). unfold len. rewrite Hl. done.
Qed.
End fold.

(** What predecoding establishes of a body. *)
Record predecoded (bc : list Z) (ds : list DecodedInstruction) (bitmap : list Z) : Prop := {
  predecoded_stream : decodes_to bc 0 ds;
  predecoded_starts q :
    is_instruction_start bitmap (len bc) q = true ↔ ∃ d, d ∈ ds ∧ pc d = q }.

Lemma predecode_complete_Ok `{Allocator} bc max p :
  byte_list bc → max < u64_max → predecode_complete bc max = Ok p →
  predecoded bc (predecoded_instructions p) (predecoded_bitmap p) ∧
  (len (predecoded_instructions p) ≤ max ∨ predecoded_instructions p = []).
Proof.
  intros Hbc Hm. unfold predecode_complete. intros Hp. inv_ok. subst p.
  rename select (allocate_boundary_bitmap _ = _) into Ha.
  unfold allocate_boundary_bitmap in Ha. inv_ok. inv_checked. subst.
  rename select (InstructionDecoder.for_each _ _ _ _ = _) into Hf.
  match type of Hf with _ = Ok ?s => destruct s as [acc bm] end.
  apply (for_each_spec _ _ Hbc) in Hf as (ds & Hds & Hfold);
    [|by intros [] ? ?|simpl; pose proof (len_nonneg bc); lia|simpl; unfold len; lia].
  apply predecode_fold_Ok in Hfold as (-> & Hmax & Hbits); [|done]. simpl in *.
  split; [|naive_solver]. split; [done|]. intros q.
  rewrite is_instruction_start_spec, Hbits, bit_at_zero by (unfold_ints; lia). split.
  - intros [Hq [?|(d & Hd & Heq)]]; [done|]. exists d. split; [done|].
    destruct (decodes_to_decoded _ Hbc _ _ _ Hds Hd) as (_ & ? & _). lia.
  - intros (d & Hd & <-). destruct (decodes_to_decoded _ Hbc _ _ _ Hds Hd) as (_ & ? & ?).
    split; [lia|]. right. by exists d.
Qed.

Lemma predecode_complete_succeeds `{GenerousAllocator} bc max ds :
  byte_list bc → max < u64_max → len bc ≤ u32_max → decodes_to bc 0 ds → len ds ≤ max →
  ∃ p, predecode_complete bc max = Ok p ∧ predecoded_instructions p = ds.
Proof.
  intros Hbc Hm Hlen Hds Hmax. unfold predecode_complete, allocate_boundary_bitmap.
  rewrite checked_add_u64_fits by solve_ints. cbn [ok_or mbind result_bind].
  rewrite reserve_generous. cbn [mbind result_bind].
  set (bm := replicate _ 0). pose proof (len_nonneg bc).
  change (InstructionDecoder.new bc) with (InstructionDecoder.with_pc bc 0).
  rewrite (for_each_stream _ _ Hbc ds) by (done || solve_ints).
  destruct (predecode_fold_succeeds (len bc) max ds [] bm) as [[acc bm'] Hfold]; [done..| |].
  - apply Forall_forall. intros d Hd%list_elem_of_In.
    destruct (decodes_to_decoded _ Hbc _ _ _ Hds Hd) as (_ & ? & ?). split; [solve_ints|].
    unfold bm, len at 1. rewrite length_replicate.
    pose proof (Z.div_mod (len bc + 63) 64 ltac:(lia)).
    pose proof (Z.mod_pos_bound (len bc + 63) 64 ltac:(lia)). rewrite Z2Nat.id; lia.
  - rewrite Hfold. cbn [mbind result_bind]. eexists; split; [done|]. simpl.
    by apply predecode_fold_Ok in Hfold as (-> & _).
Qed.
End PredecodeFacts.

Module TargetFacts.
Import CodecFacts StreamFacts PredecodeFacts OpcodeFacts.

(** The position an encoded label denotes: displacements count from the first
    byte of the label operand, which follows the opcode byte and, in the
    atom-carrying format, the four atom bytes. *)
Definition label_target (d : DecodedInstruction) : option Z :=
  match Instruction.operands (instruction d) with
  | Operands.Label8 l | Operands.Label16 l | Operands.Label l => Some (pc d + 1 + l)
  | Operands.AtomLabelU8 _ l _ => Some (pc d + 5 + l)
  | _ => None
  end.

(** The opcodes whose label is a control-flow target. *)
Definition has_label_edge (o : FinalOpcode) : bool :=
  match OpcodeMetadata.operand_format (FinalOpcode.metadata o) with
  | OperandFormat.Label8 | OperandFormat.Label16 | OperandFormat.Label
  | OperandFormat.AtomLabelU8 => true
  | _ => false
  end.

Lemma unlabelled_target p o ops np :
  OpcodeMetadata.operand_format (FinalOpcode.metadata o) = Operands.format ops →
  has_label_edge o = false → label_target (mkDecoded p (Instruction.mk o ops) np) = None.
Proof. unfold has_label_edge. intros ->. by destruct ops. Qed.

Lemma unlabelled_spec p o ops np :
  has_label_edge o = false →
  relative_target_spec (mkDecoded p (Instruction.mk o ops) np) = Ok None.
Proof. by destruct o. Qed.

(** A valid instruction has a relative target exactly when its format carries
    a label, and the target is the label's. *)
Lemma relative_target_spec_valid d :
  Instruction.valid (instruction d) →
  ∃ spec, relative_target_spec d = Ok spec ∧
    label_target d = (λ '(_, base, displacement), pc d + base + displacement) <$> spec ∧
    (∀ e b l, spec = Some (e, b, l) → 1 ≤ b ≤ 5 ∧ is_i32 l) ∧
    is_Some spec ∨ relative_target_spec d = Ok None ∧
    has_label_edge (Instruction.opcode (instruction d)) = false ∧ label_target d = None.
Proof.
  destruct d as [p [o ops] np]. intros (_ & Hf & Hr). simpl in *.
  destruct (has_label_edge o) eqn:He.
  - destruct o; try discriminate He; destruct ops; try discriminate Hf;
      (eexists; left; split_and!; [done|done| |by eexists]);
      intros ? ? ? [= <- <- <-]; simpl in Hr; unfold_ints; lia.
  - exists None. right. split_and!; [by apply unlabelled_spec|done|by apply unlabelled_target].
Qed.

Lemma checked_add_i64_Some a b c : checked_add_i64 a b = Some c → c = a + b.
Proof. unfold checked_add_i64, try_i64. case_match; naive_solver. Qed.

Lemma checked_add_i64_fits a b :
  -9223372036854775808 ≤ a + b ≤ 9223372036854775807 → checked_add_i64 a b = Some (a + b).
Proof.
  intros. unfold checked_add_i64, try_i64.
  destruct (Z.leb_spec (-9223372036854775808) (a + b)); [|lia].
  by destruct (Z.leb_spec (a + b) 9223372036854775807); [|lia].
Qed.

Section resolution.
Context (bc : list Z) (ds : list DecodedInstruction) (bitmap : list Z).
Context (Hbc : byte_list bc) (Hpre : predecoded bc ds bitmap).

Let Hds : decodes_to bc 0 ds := predecoded_stream _ _ _ Hpre.

Lemma stream_ascending : strictly_ascending pc ds.
Proof. intros i j x y Hx Hy Hij. by eapply decodes_to_sorted. Qed.

Lemma stream_u32 d : d ∈ ds → 0 ≤ pc d < len bc ∧ len bc ≤ u32_max ∧ len ds ≤ u32_max.
Proof.
  intros Hd. destruct (decodes_to_decoded _ Hbc _ _ _ Hds Hd) as (_ & Hp & Hn).
  assert (len bc ≤ u32_max) as Hu.
  { apply (decodes_to_u32 _ Hbc _ _ Hds). intros ->. by apply not_elem_of_nil in Hd. }
  destruct (decodes_to_length _ Hbc _ _ Hds) as [?| ->]; [|by apply not_elem_of_nil in Hd].
  unfold len in *. lia.
Qed.

Lemma index_at_spec t i :
  decoded_instruction_index_at ds bitmap (len bc) t = Some i ↔
  0 ≤ i ∧ ∃ d, ds !! Z.to_nat i = Some d ∧ pc d = t.
Proof.
  unfold decoded_instruction_index_at. split.
  - destruct (is_instruction_start _ _ _); simpl; [|done].
    intros (k & (d & Hk & Ht)%(binary_search_Some _ _ _ stream_ascending) & Hi)%bind_Some.
    apply try_u32_Some in Hi as [-> _]. split; [lia|]. exists d. by rewrite Nat2Z.id.
  - intros (Hi & d & Hd & Ht). pose proof (list_elem_of_lookup_2 _ _ _ Hd) as Hin.
    rewrite (proj2 (predecoded_starts _ _ _ Hpre t)) by (by exists d). simpl.
    rewrite (proj2 (binary_search_Some pc t ds stream_ascending (Z.to_nat i))) by (by exists d).
    simpl. apply try_u32_Some. rewrite Z2Nat.id by done. split; [done|].
    apply lookup_lt_Some in Hd. destruct (stream_u32 d Hin) as (_ & _ & ?). solve_ints.
Qed.

Lemma resolve_target_Ok d e t i :
  resolve_target ds bitmap (len bc) d e t = Ok i ↔
  0 ≤ i ∧ (∃ d', ds !! Z.to_nat i = Some d' ∧ pc d' = t) ∧
  (Instruction.opcode (instruction d) = FinalOpcode.Catch → t ≠ 0).
Proof.
  unfold resolve_target. split.
  - intros H. inv_ok. bool_to_prop.
    match goal with H : try_u32 t = Some _ |- _ => apply try_u32_Some in H as [-> _] end.
    apply index_at_spec in H as [? ?]. split_and!; [done|done|]. intros Hc ->.
    match goal with H : _ && _ = false |- _ => revert H end.
    by rewrite bool_decide_true by done.
  - intros (Hi & (d' & Hd' & Ht) & Hcatch).
    destruct (stream_u32 d') as (Hp & Hlen & _); [by eapply list_elem_of_lookup_2|].
    rewrite (proj2 (try_u32_Some (len bc) (len bc))) by (split; [done|solve_ints]). simpl.
    destruct (Z.ltb_spec t 0); [lia|]. destruct (Z.leb_spec (len bc) t); [lia|]. simpl.
    assert (bool_decide (Instruction.opcode (instruction d) = FinalOpcode.Catch) && (t =? 0) = false)
      as ->.
    { case_bool_decide; [|done]. simpl. apply Z.eqb_neq. auto. }
    simpl. rewrite (proj2 (try_u32_Some t t)) by (split; [done|solve_ints]). simpl.
    rewrite (proj2 (index_at_spec t i)) by (split; [done|by exists d']). done.
Qed.

(** Resolving the encoded target of a decoded instruction never overflows and
    lands on the instruction that starts at the label's position. *)
Lemma resolve_relative_target_Ok d r :
  d ∈ ds → resolve_relative_target ds bitmap (len bc) d = Ok r →
  match r with
  | Some i => 0 ≤ i ∧ ∃ d' t, ds !! Z.to_nat i = Some d' ∧ label_target d = Some t ∧ pc d' = t
  | None => label_target d = None
  end.
Proof.
  intros Hd. destruct (decodes_to_decoded _ Hbc _ _ _ Hds Hd) as (Hdec & _).
  destruct (decode_instruction_sound _ _ _ Hbc Hdec) as (_ & Hv & _).
  unfold resolve_relative_target.
  destruct (relative_target_spec_valid d Hv) as (spec & [(-> & -> & _ & [[[e b] l] ->])|(-> & _ & ->)]);
    simpl; intros H; inv_ok; subst; [|done].
  repeat match goal with H : checked_add_i64 _ _ = Some _ |- _ => apply checked_add_i64_Some in H as -> end.
  rename select (resolve_target _ _ _ _ _ _ = _) into Hr.
  apply resolve_target_Ok in Hr as (? & (d' & ? & ?) & _). split; [done|]. by exists d', (pc d + b + l).
Qed.

Lemma resolve_relative_target_catch d i :
  d ∈ ds → resolve_relative_target ds bitmap (len bc) d = Ok (Some i) →
  Instruction.opcode (instruction d) = FinalOpcode.Catch → label_target d ≠ Some 0.
Proof.
  intros Hd. destruct (decodes_to_decoded _ Hbc _ _ _ Hds Hd) as (Hdec & _).
  destruct (decode_instruction_sound _ _ _ Hbc Hdec) as (_ & Hv & _).
  unfold resolve_relative_target.
  destruct (relative_target_spec_valid d Hv)
    as (spec & [(-> & -> & _ & [[[e b] l] ->])|(-> & _ & ->)]); simpl; intros H; inv_ok; [|done].
  repeat match goal with H : checked_add_i64 _ _ = Some _ |- _ => apply checked_add_i64_Some in H as -> end.
  rename select (resolve_target _ _ _ _ _ _ = _) into Hr.
  apply resolve_target_Ok in Hr as (_ & _ & Hc). intros Hop E. by apply Hc in Hop; simplify_eq.
Qed.

Lemma stream_position_inj i j d d' :
  ds !! i = Some d → ds !! j = Some d' → pc d = pc d' → i = j.
Proof. by apply (decodes_to_position_inj bc Hbc 0 ds). Qed.

Lemma resolve_relative_target_succeeds d t d' :
  d ∈ ds → label_target d = Some t → d' ∈ ds → pc d' = t →
  (Instruction.opcode (instruction d) = FinalOpcode.Catch → t ≠ 0) →
  ∃ i, resolve_relative_target ds bitmap (len bc) d = Ok (Some i).
Proof.
  intros Hd Ht (i & Hi)%list_elem_of_lookup_1 Hp Hc.
  destruct (decodes_to_decoded _ Hbc _ _ _ Hds Hd) as (Hdec & _).
  destruct (decode_instruction_sound _ _ _ Hbc Hdec) as (_ & Hv & _).
  destruct (stream_u32 d Hd) as (Hpc & Hlen & _).
  unfold resolve_relative_target.
  destruct (relative_target_spec_valid d Hv)
    as (spec & [(-> & Hl & Hb & [[[e b] l] ->])|(_ & _ & E)]); [|congruence].
  destruct (Hb _ _ _ eq_refl) as [Hb5 Hl32]. rewrite Hl in Ht. simplify_eq/=.
  rewrite checked_add_i64_fits by solve_ints. simpl.
  rewrite checked_add_i64_fits by solve_ints. simpl.
  exists (Z.of_nat i). rewrite (proj2 (resolve_target_Ok d e _ (Z.of_nat i))); [done|].
  rewrite Nat2Z.id. split_and!; [lia|by exists d'|]. intros E. specialize (Hc E). lia.
Qed.
End resolution.
End TargetFacts.

(** ** Properties *)

(** Predecoding is exact and complete: whatever it returns is the decoding
    of the whole body from its first byte to its last, with a bitmap whose set
    bits are precisely the instruction starts; and a body that decodes within
    the instruction limit is never refused when memory is available. *)
Theorem predecode_exact (a : Allocator) (bc : list Z) (max : Z)
    (Hbc : byte_list bc) (Hlen : len bc ≤ u32_max) (Hmax : is_u32 max) :
  (∀ p, predecode_complete bc max = Ok p →
     decodes_to bc 0 (predecoded_instructions p) ∧ len (predecoded_instructions p) ≤ max ∧
     ∀ q, is_instruction_start (predecoded_bitmap p) (len bc) q = true ↔
          ∃ d, d ∈ predecoded_instructions p ∧ pc d = q) ∧
  (GenerousAllocator → ∀ ds, decodes_to bc 0 ds → len ds ≤ max →
     ∃ p, predecode_complete bc max = Ok p ∧ predecoded_instructions p = ds).
Proof.
  split.
  - intros p Hp. apply PredecodeFacts.predecode_complete_Ok in Hp as [[? ?] Hl];
      [|done|solve_ints]. split_and!; [done| |done].
    destruct Hl as [?| ->]; [done|]. change (len []) with 0. solve_ints.
  - intros Ha ds Hds Hl. apply PredecodeFacts.predecode_complete_succeeds; (done || solve_ints).
Qed.

(** A loop, for the concrete runs: [push_0], [if_true8] back to it,
    [return_undef]. *)
Definition demo_loop : list Z := [180; 234; 254; 41].

Lemma demo_loop_bytes : byte_list demo_loop.
Proof. unfold byte_list, is_u8, demo_loop. repeat apply Forall_cons_2; (lia || apply Forall_nil_2). Qed.

(** The decoded loop and its bitmap. *)
Definition demo_loop_decoded : PredecodedBody :=
  mkPredecoded
    [mkDecoded 0 (Instruction.mk FinalOpcode.Push0 Operands.NoneInt) 1;
     mkDecoded 1 (Instruction.mk FinalOpcode.IfTrue8 (Operands.Label8 (-2))) 3;
     mkDecoded 3 (Instruction.mk FinalOpcode.ReturnUndef Operands.None) 4] [11].

Lemma predecode_exact_witness :
  decodes_to demo_loop 0 (predecoded_instructions demo_loop_decoded) ∧
  is_instruction_start [11] 4 2 = false.
Proof.
  destruct (predecode_exact always_allocates demo_loop 3 demo_loop_bytes) as [Hp _];
    [vm_compute; discriminate|unfold is_u32; lia|].
  destruct (Hp demo_loop_decoded) as (Hds & _ & _); [vm_compute; reflexivity|].
  split; [exact Hds|reflexivity].
Defined.

(** Encoded branch targets resolve exactly: in a predecoded body, an
    instruction's target resolves to index [i] if and only if its format
    carries a label and instruction [i] starts at the position that label
    denotes (counted from the label operand, past the atom in the [with_*]
    formats), a [catch] handler at position 0 being the one exclusion.  In
    particular the 64-bit target arithmetic never overflows. *)
Theorem relative_target_exact (bc : list Z) (ds : list DecodedInstruction) (bitmap : list Z)
    (d : DecodedInstruction) (i : Z)
    (Hbc : byte_list bc) (Hpre : PredecodeFacts.predecoded bc ds bitmap) (Hd : d ∈ ds) :
  resolve_relative_target ds bitmap (len bc) d = Ok (Some i) ↔
  0 ≤ i ∧ ∃ d' t, ds !! Z.to_nat i = Some d' ∧ TargetFacts.label_target d = Some t ∧ pc d' = t ∧
    (Instruction.opcode (instruction d) = FinalOpcode.Catch → t ≠ 0).
Proof.
  split.
  - intros H. pose proof (TargetFacts.resolve_relative_target_catch _ _ _ Hbc Hpre _ _ Hd H) as Hc.
    apply (TargetFacts.resolve_relative_target_Ok _ _ _ Hbc Hpre) in H as (? & d' & t & ? & ? & ?);
      [|done]. split; [done|]. exists d', t. split_and!; [done..|].
    intros Hop ->. by apply Hc in Hop.
  - intros (Hi & d' & t & Hd' & Ht & Hp & Hc).
    destruct (TargetFacts.resolve_relative_target_succeeds _ _ _ Hbc Hpre d t d') as [j Hj];
      [done|done|by eapply list_elem_of_lookup_2|done|done|].
    rewrite Hj. pose proof Hj as Hj'.
    apply (TargetFacts.resolve_relative_target_Ok _ _ _ Hbc Hpre) in Hj' as (? & d2 & t2 & Hd2 & ? & ?);
      [|done]. do 2 f_equal. apply (Z2Nat.inj _ _); [done|done|].
    eapply (TargetFacts.stream_position_inj _ _ _ Hbc Hpre); [done..|congruence].
Qed.

Lemma relative_target_exact_witness :
  resolve_relative_target (predecoded_instructions demo_loop_decoded) [11] 4
    (mkDecoded 1 (Instruction.mk FinalOpcode.IfTrue8 (Operands.Label8 (-2))) 3) = Ok (Some 0).
Proof.
  apply (relative_target_exact demo_loop).
  - exact demo_loop_bytes.
  - destruct (PredecodeFacts.predecode_complete_Ok (H := always_allocates) demo_loop 3
      demo_loop_decoded demo_loop_bytes ltac:(reflexivity) ltac:(vm_compute; reflexivity)) as [Hp _].
    exact Hp.
  - apply elem_of_cons; right. apply elem_of_cons; left. reflexivity.
  - split; [lia|]. exists (mkDecoded 0 (Instruction.mk FinalOpcode.Push0 Operands.NoneInt) 1), 0.
    split; [reflexivity|]. split; [reflexivity|]. split; [reflexivity|discriminate].
Defined.
