(* ===== verification/VerifierStatic.v ===== *)
(** * Static semantics

    Models [crates/fusor-bytecode/src/verifier/operands.rs],
    [opcode_semantics.rs] and [static_control_flow.rs]: the operand domains of
    every instruction, the capability policy of the opcodes, and the validated
    successors of a decoded body. *)

From S2P Require Import Prelude Opcode Codec Function VerifierModel VerifierHeader VerifierPredecode.
Import VerificationErrorKind.

(** ** Operands *)

Definition validate_compiler_constant_kind (decoded : DecodedInstruction)
    (constant_layout : CompilerConstantLayout) : verified unit :=
  let i := instruction decoded in
  selected ← match Instruction.opcode i, Instruction.operands i with
    | FinalOpcode.PushConst, Operands.Const index => Ok (index, CompilerConstantKind.Value)
    | FinalOpcode.PushConst8, Operands.Const8 index => Ok (index, CompilerConstantKind.Value)
    | FinalOpcode.FClosure, Operands.Const index => Ok (index, CompilerConstantKind.Function)
    | FinalOpcode.FClosure8, Operands.Const8 index => Ok (index, CompilerConstantKind.Function)
    | _, _ => Err (at_instruction decoded (MissingControlFlowOperand
        (OpcodeMetadata.operand_format (FinalOpcode.metadata (Instruction.opcode i)))))
    end;
  let '(index, expected) := selected in
  actual ← ok_or (constant_kind constant_layout index)
    (at_instruction decoded (IndexOutOfBounds OperandIndexDomain.ConstantPool index
       (Z.min (len (kinds constant_layout)) u32_max)));
  reject_if (bool_decide (expected = CompilerConstantKind.Value)
             && bool_decide (actual = CompilerConstantKind.Function))
    (at_instruction decoded
       (UnsupportedOpcodeSemantics UnsupportedVerifierFeature.RawFunctionStack)) ;;
  reject_if (bool_decide (actual ≠ expected))
    (at_instruction decoded (CompilerConstantKindMismatch index expected actual)).

Definition validate_compiler_close_loc (decoded : DecodedInstruction)
    (capture_layout : ValidatedCompilerCaptureLayout) : verified unit :=
  match Instruction.operands (instruction decoded) with
  | Operands.Loc local =>
      reject_if (negb (is_scoped_local capture_layout local))
        (at_instruction decoded (CloseLocRequiresScopedCapture local))
  | _ => Err (at_instruction decoded (MissingControlFlowOperand OperandFormat.Loc))
  end.

Definition validate_index (decoded : DecodedInstruction) (domain : OperandIndexDomain)
    (index len : Z) : verified unit :=
  reject_if (len <=? index) (at_instruction decoded (IndexOutOfBounds domain index len)).

Definition implied_local_index (opcode : FinalOpcode) : option Z :=
  match opcode with
  | FinalOpcode.GetLoc0 | FinalOpcode.PutLoc0 | FinalOpcode.SetLoc0 => Some 0
  | FinalOpcode.GetLoc1 | FinalOpcode.PutLoc1 | FinalOpcode.SetLoc1 => Some 1
  | FinalOpcode.GetLoc2 | FinalOpcode.PutLoc2 | FinalOpcode.SetLoc2 => Some 2
  | FinalOpcode.GetLoc3 | FinalOpcode.PutLoc3 | FinalOpcode.SetLoc3 => Some 3
  | _ => None
  end.

Definition implied_argument_index (opcode : FinalOpcode) : option Z :=
  match opcode with
  | FinalOpcode.GetArg0 | FinalOpcode.PutArg0 | FinalOpcode.SetArg0 => Some 0
  | FinalOpcode.GetArg1 | FinalOpcode.PutArg1 | FinalOpcode.SetArg1 => Some 1
  | FinalOpcode.GetArg2 | FinalOpcode.PutArg2 | FinalOpcode.SetArg2 => Some 2
  | FinalOpcode.GetArg3 | FinalOpcode.PutArg3 | FinalOpcode.SetArg3 => Some 3
  | _ => None
  end.

Definition implied_closure_variable_index (opcode : FinalOpcode) : option Z :=
  match opcode with
  | FinalOpcode.GetVarRef0 | FinalOpcode.PutVarRef0 | FinalOpcode.SetVarRef0 => Some 0
  | FinalOpcode.GetVarRef1 | FinalOpcode.PutVarRef1 | FinalOpcode.SetVarRef1 => Some 1
  | FinalOpcode.GetVarRef2 | FinalOpcode.PutVarRef2 | FinalOpcode.SetVarRef2 => Some 2
  | FinalOpcode.GetVarRef3 | FinalOpcode.PutVarRef3 | FinalOpcode.SetVarRef3 => Some 3
  | _ => None
  end.

Definition validate_operand_indices (decoded : DecodedInstruction)
    (domains : FunctionIndexDomains) : verified unit :=
  let opcode := Instruction.opcode (instruction decoded) in
  let operands := Instruction.operands (instruction decoded) in
  let local index := validate_index decoded OperandIndexDomain.Local index (local_count domains) in
  let argument index :=
    validate_index decoded OperandIndexDomain.Argument index (argument_count domains) in
  let closure_variable index :=
    validate_index decoded OperandIndexDomain.ClosureVariable index (closure_var_count domains) in
  let constant index :=
    validate_index decoded OperandIndexDomain.ConstantPool index (constant_pool_len domains) in
  let implied index format :=
    ok_or index (at_instruction decoded (MissingControlFlowOperand format)) in
  match Operands.atom_pool_index operands with
  | Some index => validate_index decoded OperandIndexDomain.AtomPool index (atom_pool_len domains)
  | None => Ok tt
  end ;;
  match operands with
  | Operands.Const index | Operands.Const8 index => constant index
  | Operands.Loc index | Operands.Loc8 index => local index
  | Operands.Arg index => argument index
  | Operands.VarRef index => closure_variable index
  | Operands.AtomU16 _ value =>
      match opcode with
      | FinalOpcode.MakeLocRef => local value
      | FinalOpcode.MakeArgRef => argument value
      | FinalOpcode.MakeVarRefRef => closure_variable value
      | _ => Ok tt
      end
  | Operands.NoneLoc =>
      index ← implied (implied_local_index opcode) OperandFormat.NoneLoc; local index
  | Operands.NoneArg =>
      index ← implied (implied_argument_index opcode) OperandFormat.NoneArg; argument index
  | Operands.NoneVarRef =>
      index ← implied (implied_closure_variable_index opcode) OperandFormat.NoneVarRef;
      closure_variable index
  | _ => Ok tt
  end.

(** The arms of the source's match each guard one opcode's secondary field. *)
Definition validate_secondary_operands (decoded : DecodedInstruction)
    (domains : FunctionIndexDomains) : verified unit :=
  let reject (bad : bool) field value :=
    reject_if bad (at_instruction decoded (InvalidSecondaryOperand field value)) in
  let opcode := Instruction.opcode (instruction decoded) in
  let operands := Instruction.operands (instruction decoded) in
  match opcode, operands with
  | FinalOpcode.SpecialObject, Operands.U8 value =>
      reject (6 <? value) SecondaryOperandField.SpecialObjectKind value
  | FinalOpcode.Rest, Operands.U16 value =>
      reject (argument_count domains <? value) SecondaryOperandField.RestFirstArgument value
  | FinalOpcode.Apply, Operands.U16 value =>
      reject (2 <? value) SecondaryOperandField.ApplyMagic value
  | FinalOpcode.ThrowError, Operands.AtomU8 _ value =>
      reject (4 <? value) SecondaryOperandField.ThrowErrorKind value
  | FinalOpcode.DefineMethod, Operands.AtomU8 _ value
  | FinalOpcode.DefineMethodComputed, Operands.U8 value =>
      reject (negb (Z.ldiff value 7 =? 0) || (Z.land value 3 =? 3))
        SecondaryOperandField.DefineMethodFlags value
  | FinalOpcode.DefinePrivateField, Operands.U8 value =>
      reject (3 <? value) SecondaryOperandField.DefinePrivateFieldKind value
  | (FinalOpcode.DefineClass | FinalOpcode.DefineClassComputed), Operands.AtomU8 _ value =>
      reject (3 <? value) SecondaryOperandField.DefineClassFlags value
  | (FinalOpcode.WithGetVar | FinalOpcode.WithPutVar | FinalOpcode.WithDeleteVar
     | FinalOpcode.WithMakeRef | FinalOpcode.WithGetRef), Operands.AtomLabelU8 _ _ value =>
      reject (1 <? value) SecondaryOperandField.IsWith value
  | FinalOpcode.IteratorCall, Operands.U8 value =>
      reject (2 <? value) SecondaryOperandField.IteratorCallFlags value
  | _, _ => Ok tt
  end.

(** ** Opcode capability policy *)

Module SuccessorShape.
Inductive SuccessorShape : Set := Fallthrough | Branch | Jump | Terminate.
End SuccessorShape.
Notation SuccessorShape := SuccessorShape.SuccessorShape.

Module OpcodeSemantics.

(** Capability policy for the semantics the control-flow verifier can prove. *)
Inductive OpcodeSemantics : Set :=
| Invalid | Ordinary | Conditional | Jump | Terminate
| Unsupported (feature : UnsupportedVerifierFeature) (shape : SuccessorShape).

Definition successor_shape (s : OpcodeSemantics) : option SuccessorShape :=
  match s with
  | Invalid => None
  | Ordinary => Some SuccessorShape.Fallthrough
  | Conditional => Some SuccessorShape.Branch
  | Jump => Some SuccessorShape.Jump
  | Terminate => Some SuccessorShape.Terminate
  | Unsupported _ shape => Some shape
  end.

End OpcodeSemantics.
Notation OpcodeSemantics := OpcodeSemantics.OpcodeSemantics.

Definition opcode_semantics (opcode : FinalOpcode) : OpcodeSemantics :=
  match opcode with
  | FinalOpcode.Invalid => OpcodeSemantics.Invalid
  | FinalOpcode.IfFalse | FinalOpcode.IfTrue | FinalOpcode.IfFalse8 | FinalOpcode.IfTrue8
  | FinalOpcode.Catch | FinalOpcode.Gosub | FinalOpcode.WithGetVar | FinalOpcode.WithDeleteVar
  | FinalOpcode.WithMakeRef | FinalOpcode.WithGetRef => OpcodeSemantics.Conditional
  | FinalOpcode.Goto | FinalOpcode.Goto8 | FinalOpcode.Goto16 => OpcodeSemantics.Jump
  | FinalOpcode.TailCall | FinalOpcode.TailCallMethod | FinalOpcode.TailApply
  | FinalOpcode.TailEval | FinalOpcode.TailApplyEval | FinalOpcode.Return
  | FinalOpcode.ReturnUndef | FinalOpcode.ReturnAsync | FinalOpcode.Throw
  | FinalOpcode.ThrowError | FinalOpcode.Ret => OpcodeSemantics.Terminate
  | FinalOpcode.PushConst | FinalOpcode.FClosure | FinalOpcode.PushConst8
  | FinalOpcode.FClosure8 =>
      OpcodeSemantics.Unsupported UnsupportedVerifierFeature.ConstantPoolTyping
        SuccessorShape.Fallthrough
  | FinalOpcode.DefineClassComputed =>
      OpcodeSemantics.Unsupported UnsupportedVerifierFeature.RawFunctionStack
        SuccessorShape.Fallthrough
  | FinalOpcode.Eval | FinalOpcode.ApplyEval =>
      OpcodeSemantics.Unsupported UnsupportedVerifierFeature.EvalScopeMetadata
        SuccessorShape.Fallthrough
  | FinalOpcode.CloseLoc | FinalOpcode.MakeLocRef | FinalOpcode.MakeArgRef
  | FinalOpcode.MakeVarRefRef | FinalOpcode.MakeVarRef =>
      OpcodeSemantics.Unsupported UnsupportedVerifierFeature.CapturedBindingMetadata
        SuccessorShape.Fallthrough
  | FinalOpcode.WithPutVar =>
      OpcodeSemantics.Unsupported UnsupportedVerifierFeature.WithEnvironmentBranches
        SuccessorShape.Branch
  | FinalOpcode.ForOfStart | FinalOpcode.ForAwaitOfStart | FinalOpcode.ForOfNext
  | FinalOpcode.ForAwaitOfNext | FinalOpcode.IteratorGetValueDone | FinalOpcode.IteratorClose
  | FinalOpcode.IteratorNext | FinalOpcode.IteratorCall =>
      OpcodeSemantics.Unsupported UnsupportedVerifierFeature.IteratorMarkers
        SuccessorShape.Fallthrough
  | FinalOpcode.CopyDataProperties =>
      OpcodeSemantics.Unsupported UnsupportedVerifierFeature.PackedStackOffsets
        SuccessorShape.Fallthrough
  | FinalOpcode.DefineClass | FinalOpcode.NipCatch | FinalOpcode.PushI32
  | FinalOpcode.InitialYield | FinalOpcode.Yield | FinalOpcode.YieldStar
  | FinalOpcode.AsyncYieldStar | FinalOpcode.Await | FinalOpcode.PushAtomValue
  | FinalOpcode.PrivateSymbol | FinalOpcode.Undefined | FinalOpcode.Null | FinalOpcode.PushThis
  | FinalOpcode.PushFalse | FinalOpcode.PushTrue | FinalOpcode.Object | FinalOpcode.SpecialObject
  | FinalOpcode.Rest | FinalOpcode.Drop | FinalOpcode.Nip | FinalOpcode.Nip1 | FinalOpcode.Dup
  | FinalOpcode.Dup1 | FinalOpcode.Dup2 | FinalOpcode.Dup3 | FinalOpcode.Insert2
  | FinalOpcode.Insert3 | FinalOpcode.Insert4 | FinalOpcode.Perm3 | FinalOpcode.Perm4
  | FinalOpcode.Perm5 | FinalOpcode.Swap | FinalOpcode.Swap2 | FinalOpcode.Rot3l
  | FinalOpcode.Rot3r | FinalOpcode.Rot4l | FinalOpcode.Rot5l | FinalOpcode.CallConstructor
  | FinalOpcode.Call | FinalOpcode.CallMethod | FinalOpcode.ArrayFrom | FinalOpcode.Apply
  | FinalOpcode.CheckCtorReturn | FinalOpcode.CheckCtor | FinalOpcode.InitCtor
  | FinalOpcode.CheckBrand | FinalOpcode.AddBrand | FinalOpcode.RegExp | FinalOpcode.GetSuper
  | FinalOpcode.Import | FinalOpcode.ImportDefer | FinalOpcode.ImportMeta
  | FinalOpcode.GetVarUndef | FinalOpcode.GetVar | FinalOpcode.PutVar | FinalOpcode.PutVarInit
  | FinalOpcode.GetRefValue | FinalOpcode.PutRefValue | FinalOpcode.GetField
  | FinalOpcode.GetField2 | FinalOpcode.PutField | FinalOpcode.GetPrivateField
  | FinalOpcode.PutPrivateField | FinalOpcode.DefinePrivateField | FinalOpcode.GetArrayEl
  | FinalOpcode.GetArrayEl2 | FinalOpcode.GetArrayEl3 | FinalOpcode.PutArrayEl
  | FinalOpcode.GetSuperValue | FinalOpcode.PutSuperValue | FinalOpcode.DefineField
  | FinalOpcode.SetName | FinalOpcode.SetNameComputed | FinalOpcode.SetProto
  | FinalOpcode.SetHomeObject | FinalOpcode.DefineArrayEl | FinalOpcode.Append
  | FinalOpcode.DefineMethod | FinalOpcode.DefineMethodComputed | FinalOpcode.GetLoc
  | FinalOpcode.PutLoc | FinalOpcode.SetLoc | FinalOpcode.GetArg | FinalOpcode.PutArg
  | FinalOpcode.SetArg | FinalOpcode.GetVarRef | FinalOpcode.PutVarRef | FinalOpcode.SetVarRef
  | FinalOpcode.SetLocUninitialized | FinalOpcode.GetLocCheck | FinalOpcode.PutLocCheck
  | FinalOpcode.SetLocCheck | FinalOpcode.PutLocCheckInit | FinalOpcode.GetLocCheckThis
  | FinalOpcode.GetVarRefCheck | FinalOpcode.PutVarRefCheck | FinalOpcode.PutVarRefCheckInit
  | FinalOpcode.ToObject | FinalOpcode.ToPropKey | FinalOpcode.ForInStart | FinalOpcode.ForInNext
  | FinalOpcode.IteratorCheckObject | FinalOpcode.Neg | FinalOpcode.Plus | FinalOpcode.Dec
  | FinalOpcode.Inc | FinalOpcode.PostDec | FinalOpcode.PostInc | FinalOpcode.DecLoc
  | FinalOpcode.IncLoc | FinalOpcode.AddLoc | FinalOpcode.Not | FinalOpcode.Lnot
  | FinalOpcode.Typeof | FinalOpcode.Delete | FinalOpcode.DeleteVar | FinalOpcode.Mul
  | FinalOpcode.Div | FinalOpcode.Mod | FinalOpcode.Add | FinalOpcode.Sub | FinalOpcode.Pow
  | FinalOpcode.Shl | FinalOpcode.Sar | FinalOpcode.Shr | FinalOpcode.Lt | FinalOpcode.Lte
  | FinalOpcode.Gt | FinalOpcode.Gte | FinalOpcode.InstanceOf | FinalOpcode.In | FinalOpcode.Eq
  | FinalOpcode.Neq | FinalOpcode.StrictEq | FinalOpcode.StrictNeq | FinalOpcode.And
  | FinalOpcode.Xor | FinalOpcode.Or | FinalOpcode.IsUndefinedOrNull | FinalOpcode.PrivateIn
  | FinalOpcode.PushBigIntI32 | FinalOpcode.Nop | FinalOpcode.PushMinus1 | FinalOpcode.Push0
  | FinalOpcode.Push1 | FinalOpcode.Push2 | FinalOpcode.Push3 | FinalOpcode.Push4
  | FinalOpcode.Push5 | FinalOpcode.Push6 | FinalOpcode.Push7 | FinalOpcode.PushI8
  | FinalOpcode.PushI16 | FinalOpcode.PushEmptyString | FinalOpcode.GetLoc8 | FinalOpcode.PutLoc8
  | FinalOpcode.SetLoc8 | FinalOpcode.GetLoc0 | FinalOpcode.GetLoc1 | FinalOpcode.GetLoc2
  | FinalOpcode.GetLoc3 | FinalOpcode.PutLoc0 | FinalOpcode.PutLoc1 | FinalOpcode.PutLoc2
  | FinalOpcode.PutLoc3 | FinalOpcode.SetLoc0 | FinalOpcode.SetLoc1 | FinalOpcode.SetLoc2
  | FinalOpcode.SetLoc3 | FinalOpcode.GetArg0 | FinalOpcode.GetArg1 | FinalOpcode.GetArg2
  | FinalOpcode.GetArg3 | FinalOpcode.PutArg0 | FinalOpcode.PutArg1 | FinalOpcode.PutArg2
  | FinalOpcode.PutArg3 | FinalOpcode.SetArg0 | FinalOpcode.SetArg1 | FinalOpcode.SetArg2
  | FinalOpcode.SetArg3 | FinalOpcode.GetVarRef0 | FinalOpcode.GetVarRef1 | FinalOpcode.GetVarRef2
  | FinalOpcode.GetVarRef3 | FinalOpcode.PutVarRef0 | FinalOpcode.PutVarRef1
  | FinalOpcode.PutVarRef2 | FinalOpcode.PutVarRef3 | FinalOpcode.SetVarRef0
  | FinalOpcode.SetVarRef1 | FinalOpcode.SetVarRef2 | FinalOpcode.SetVarRef3
  | FinalOpcode.GetLength | FinalOpcode.Call0 | FinalOpcode.Call1 | FinalOpcode.Call2
  | FinalOpcode.Call3 | FinalOpcode.IsUndefined | FinalOpcode.IsNull
  | FinalOpcode.TypeofIsUndefined | FinalOpcode.TypeofIsFunction =>
      OpcodeSemantics.Ordinary
  end.

(** ** Static control flow *)

(** Structurally checked successors before ordinary stack dataflow. *)
Record StructurallyVerifiedControlFlow := mkStructural {
  structural_instructions : list VerifiedInstruction;
  function_kind : FunctionKind }.

Definition validate_function_kind_opcode (decoded : DecodedInstruction) (kind : FunctionKind) :
    verified unit :=
  let require requirement :=
    reject_if (negb (FunctionKindRequirement.accepts requirement kind))
      (at_instruction decoded (OpcodeNotAllowedForFunctionKind kind requirement)) in
  match Instruction.opcode (instruction decoded) with
  | FinalOpcode.TailCall | FinalOpcode.TailCallMethod | FinalOpcode.TailApply
  | FinalOpcode.TailEval | FinalOpcode.TailApplyEval | FinalOpcode.Return
  | FinalOpcode.ReturnUndef => require FunctionKindRequirement.Normal
  | FinalOpcode.InitialYield | FinalOpcode.Yield => require FunctionKindRequirement.Generator
  | FinalOpcode.YieldStar => require FunctionKindRequirement.SynchronousGenerator
  | FinalOpcode.AsyncYieldStar => require FunctionKindRequirement.AsyncGenerator
  | FinalOpcode.Await => require FunctionKindRequirement.Async
  | FinalOpcode.ReturnAsync => require FunctionKindRequirement.NonNormal
  | _ => Ok tt
  end.

Definition resolve_static_successors (instructions : list DecodedInstruction) (bitmap : list Z)
    (bytecode_len : Z) (current : DecodedInstruction) (semantics : OpcodeSemantics)
    (target : option Z) : verified VerifiedSuccessors :=
  match OpcodeSemantics.successor_shape semantics with
  | None =>
      Err (at_instruction current (Decode (InvalidOpcode (pc current)
        (FinalOpcode.encoded_byte FinalOpcode.Invalid) FinalOpcode.ReservedInvalid)))
  | Some SuccessorShape.Fallthrough =>
      index ← resolve_fallthrough instructions bitmap bytecode_len current;
      Ok (VerifiedSuccessors.Fallthrough index)
  | Some SuccessorShape.Branch =>
      taken ← require_encoded_target current target;
      not_taken ← resolve_fallthrough instructions bitmap bytecode_len current;
      Ok (VerifiedSuccessors.Branch taken not_taken)
  | Some SuccessorShape.Jump =>
      index ← require_encoded_target current target;
      Ok (VerifiedSuccessors.Jump index)
  | Some SuccessorShape.Terminate => Ok VerifiedSuccessors.Terminate
  end.

(** The body of the first loop of [validate_static_semantics]. *)
Definition validate_static_instruction (instructions : list DecodedInstruction)
    (bitmap : list Z) (bytecode_len : Z) (domains : FunctionIndexDomains)
    (current : DecodedInstruction) : verified VerifiedInstruction :=
  validate_operand_indices current domains ;;
  validate_secondary_operands current domains ;;
  target ← resolve_relative_target instructions bitmap bytecode_len current;
  validate_gosub_continuation instructions bitmap bytecode_len current ;;
  let semantics := opcode_semantics (Instruction.opcode (instruction current)) in
  successors ← resolve_static_successors instructions bitmap bytecode_len current semantics target;
  Ok (mkVerifiedInstruction current None successors).

(** The opcodes whose markers and metadata the whole-function verifier proves
    for compiler-generated bodies. *)
Definition compiler_deferred_opcode (opcode : FinalOpcode) : bool :=
  match opcode with
  | FinalOpcode.ForOfStart | FinalOpcode.ForAwaitOfStart | FinalOpcode.ForOfNext
  | FinalOpcode.ForAwaitOfNext | FinalOpcode.IteratorGetValueDone | FinalOpcode.IteratorClose
  | FinalOpcode.IteratorNext | FinalOpcode.IteratorCall | FinalOpcode.CopyDataProperties
  | FinalOpcode.Eval | FinalOpcode.ApplyEval | FinalOpcode.MakeVarRefRef => true
  | _ => false
  end.

(** The body of the second loop: unsupported opcodes and function kinds. *)
Definition validate_capability (kind : FunctionKind)
    (capture_layout : option ValidatedCompilerCaptureLayout)
    (constant_layout : option CompilerConstantLayout) (compiler_generated : bool)
    (decoded : DecodedInstruction) : verified unit :=
  let opcode := Instruction.opcode (instruction decoded) in
  match opcode_semantics opcode with
  | OpcodeSemantics.Unsupported feature _ =>
      let unsupported := Err (at_instruction decoded (UnsupportedOpcodeSemantics feature)) in
      match opcode with
      | FinalOpcode.CloseLoc =>
          match capture_layout with
          | Some capture_layout => validate_compiler_close_loc decoded capture_layout
          | None => unsupported
          end
      | FinalOpcode.PushConst | FinalOpcode.FClosure | FinalOpcode.PushConst8
      | FinalOpcode.FClosure8 =>
          match constant_layout with
          | Some constant_layout => validate_compiler_constant_kind decoded constant_layout
          | None => unsupported
          end
      | _ => if compiler_generated && compiler_deferred_opcode opcode then Ok tt else unsupported
      end
  | _ => Ok tt
  end ;;
  validate_function_kind_opcode decoded kind.

Definition validate_static_semantics `{Allocator} (decoded : list DecodedInstruction)
    (instruction_start_bitmap : list Z) (bytecode_len : Z) (domains : FunctionIndexDomains)
    (kind : FunctionKind) (capture_layout : option ValidatedCompilerCaptureLayout)
    (constant_layout : option CompilerConstantLayout) (compiler_generated : bool) :
    verified StructurallyVerifiedControlFlow :=
  reserve "verified instructions" 0 (len decoded)
    (root (AllocationFailed VerificationResource.Instructions (len decoded))) ;;
  verified ← try_map
    (validate_static_instruction decoded instruction_start_bitmap bytecode_len domains) decoded;
  try_for_each (λ i, validate_capability kind capture_layout constant_layout compiler_generated
                       (VerifierModel.decoded i)) verified ;;
  Ok (mkStructural verified kind).

(** ** Facts *)

Module OperandIndexFacts.
Import OpcodeMetadata.

Definition domain_len (d : FunctionIndexDomains) (domain : OperandIndexDomain) : Z :=
  match domain with
  | OperandIndexDomain.AtomPool => atom_pool_len d
  | OperandIndexDomain.ConstantPool => constant_pool_len d
  | OperandIndexDomain.Local => local_count d
  | OperandIndexDomain.Argument => argument_count d
  | OperandIndexDomain.ClosureVariable => closure_var_count d
  end.

(** The slot a four-opcode family names: its distance from the family's
    first opcode, modulo four. *)
Definition implied_slot (first o : FinalOpcode) : Z :=
  (FinalOpcode.encoded_byte o - FinalOpcode.encoded_byte first) mod 4.

(** Every table slot an instruction names. *)
Definition named_indices (i : Instruction) : list (OperandIndexDomain * Z) :=
  match Instruction.operands i with
  | Operands.Const n | Operands.Const8 n => [(OperandIndexDomain.ConstantPool, n)]
  | Operands.Loc n | Operands.Loc8 n => [(OperandIndexDomain.Local, n)]
  | Operands.Arg n => [(OperandIndexDomain.Argument, n)]
  | Operands.VarRef n => [(OperandIndexDomain.ClosureVariable, n)]
  | Operands.Atom a | Operands.AtomU8 a _ | Operands.AtomLabelU8 a _ _
  | Operands.AtomLabelU16 a _ _ => [(OperandIndexDomain.AtomPool, a)]
  | Operands.AtomU16 a v =>
      (OperandIndexDomain.AtomPool, a) ::
      match Instruction.opcode i with
      | FinalOpcode.MakeLocRef => [(OperandIndexDomain.Local, v)]
      | FinalOpcode.MakeArgRef => [(OperandIndexDomain.Argument, v)]
      | FinalOpcode.MakeVarRefRef => [(OperandIndexDomain.ClosureVariable, v)]
      | _ => []
      end
  | Operands.NoneLoc =>
      [(OperandIndexDomain.Local, implied_slot FinalOpcode.GetLoc0 (Instruction.opcode i))]
  | Operands.NoneArg =>
      [(OperandIndexDomain.Argument, implied_slot FinalOpcode.GetArg0 (Instruction.opcode i))]
  | Operands.NoneVarRef =>
      [(OperandIndexDomain.ClosureVariable,
        implied_slot FinalOpcode.GetVarRef0 (Instruction.opcode i))]
  | _ => []
  end.

Lemma implied_local_slot o :
  operand_format (FinalOpcode.metadata o) = OperandFormat.NoneLoc →
  implied_local_index o = Some (implied_slot FinalOpcode.GetLoc0 o).
Proof. by destruct o. Qed.

Lemma implied_argument_slot o :
  operand_format (FinalOpcode.metadata o) = OperandFormat.NoneArg →
  implied_argument_index o = Some (implied_slot FinalOpcode.GetArg0 o).
Proof. by destruct o. Qed.

Lemma implied_closure_variable_slot o :
  operand_format (FinalOpcode.metadata o) = OperandFormat.NoneVarRef →
  implied_closure_variable_index o = Some (implied_slot FinalOpcode.GetVarRef0 o).
Proof. by destruct o. Qed.

Lemma validate_index_Ok d domain i n : validate_index d domain i n = Ok tt ↔ i < n.
Proof. unfold validate_index. by rewrite reject_if_Ok, Z.leb_gt. Qed.

Definition in_domains (d : FunctionIndexDomains) (named : OperandIndexDomain * Z) : Prop :=
  named.2 < domain_len d named.1.

Lemma one_index (d : FunctionIndexDomains) domain n :
  Forall (in_domains d) [(domain, n)] ↔ n < domain_len d domain.
Proof. rewrite Forall_singleton. done. Qed.

Lemma two_indices d p q :
  Forall (in_domains d) [p; q] ↔ in_domains d p ∧ in_domains d q.
Proof. by rewrite Forall_cons_iff, Forall_singleton. Qed.

Lemma bind_unit {E} (m : result E unit) (k : result E unit) :
  (m ;; k) = Ok tt ↔ m = Ok tt ∧ k = Ok tt.
Proof. destruct m as [[]|]; simpl; naive_solver. Qed.

Lemma validate_operand_indices_Ok d domains :
  Instruction.valid (instruction d) →
  validate_operand_indices d domains = Ok tt ↔
  Forall (in_domains domains) (named_indices (instruction d)).
Proof.
  destruct d as [p [o ops] np]. intros (_ & Hf & _). simpl in Hf.
  unfold validate_operand_indices, named_indices. cbv zeta. rewrite bind_unit. simpl.
  destruct ops; simpl; rewrite ?validate_index_Ok;
    try (rewrite (implied_local_slot o Hf)); try (rewrite (implied_argument_slot o Hf));
    try (rewrite (implied_closure_variable_slot o Hf)); simpl;
    rewrite ?one_index, ?validate_index_Ok; simpl; try tauto;
    try (split; [intros _; constructor|done]).
  destruct o; try discriminate Hf;
    rewrite ?two_indices, ?one_index, ?validate_index_Ok; unfold in_domains; simpl; tauto.
Qed.
End OperandIndexFacts.

Module StaticFacts.
Import CodecFacts StreamFacts PredecodeFacts TargetFacts.

Definition shape_of (d : DecodedInstruction) : option SuccessorShape :=
  OpcodeSemantics.successor_shape (opcode_semantics (Instruction.opcode (instruction d))).

(** Instruction [i] of the stream starts at position [q]. *)
Definition starts_at (ds : list DecodedInstruction) (i q : Z) : Prop :=
  0 ≤ i ∧ ∃ d, ds !! Z.to_nat i = Some d ∧ pc d = q.

(** The successors of an instruction are the ones its shape, its label and its
    end position denote. *)
Definition successors_ok (ds : list DecodedInstruction) (v : VerifiedInstruction) : Prop :=
  let d := decoded v in
  match successors v with
  | VerifiedSuccessors.Fallthrough i =>
      shape_of d = Some SuccessorShape.Fallthrough ∧ starts_at ds i (next_pc d)
  | VerifiedSuccessors.Branch taken not_taken =>
      shape_of d = Some SuccessorShape.Branch ∧
      (∃ t, label_target d = Some t ∧ starts_at ds taken t) ∧ starts_at ds not_taken (next_pc d)
  | VerifiedSuccessors.Jump i =>
      shape_of d = Some SuccessorShape.Jump ∧ ∃ t, label_target d = Some t ∧ starts_at ds i t
  | VerifiedSuccessors.Terminate => shape_of d = Some SuccessorShape.Terminate
  end.

Section static.
Context (bc : list Z) (ds : list DecodedInstruction) (bitmap : list Z).
Context (Hbc : byte_list bc) (Hpre : predecoded bc ds bitmap).

Lemma fallthrough_starts d i :
  resolve_fallthrough ds bitmap (len bc) d = Ok i → starts_at ds i (next_pc d).
Proof. intros (? & ? & _)%(resolve_target_Ok _ _ _ Hbc Hpre). done. Qed.

Lemma label_starts d r i :
  d ∈ ds → resolve_relative_target ds bitmap (len bc) d = Ok r →
  require_encoded_target d r = Ok i → ∃ t, label_target d = Some t ∧ starts_at ds i t.
Proof.
  intros Hd Hr Hi. apply (resolve_relative_target_Ok _ _ _ Hbc Hpre) in Hr; [|done].
  unfold require_encoded_target in Hi. inv_ok. subst r.
  destruct Hr as (? & d' & t & ? & ? & ?). exists t. split; [done|]. split; [done|]. by exists d'.
Qed.

Lemma resolve_static_successors_ok d target s :
  d ∈ ds → resolve_relative_target ds bitmap (len bc) d = Ok target →
  resolve_static_successors ds bitmap (len bc) d
    (opcode_semantics (Instruction.opcode (instruction d))) target = Ok s →
  successors_ok ds (mkVerifiedInstruction d None s).
Proof.
  intros Hd Ht. unfold resolve_static_successors, successors_ok. simpl.
  change (OpcodeSemantics.successor_shape _) with (shape_of d).
  destruct (shape_of d) as [[]|]; intros Hs; inv_ok; subst s; [| | |done]; split; try done.
  - by apply fallthrough_starts.
  - split; [by eapply label_starts|by apply fallthrough_starts].
  - by eapply label_starts.
Qed.

Lemma validate_static_instruction_Ok domains d v :
  d ∈ ds → validate_static_instruction ds bitmap (len bc) domains d = Ok v →
  decoded v = d ∧ entry_stack_depth v = None ∧ successors_ok ds v ∧
  validate_operand_indices d domains = Ok tt ∧ validate_secondary_operands d domains = Ok tt ∧
  (Instruction.opcode (instruction d) = FinalOpcode.Gosub → ∃ i, starts_at ds i (next_pc d)).
Proof.
  intros Hd. unfold validate_static_instruction. intros Hv. inv_ok. subst v. simpl.
  split_and!; try done; [by eapply resolve_static_successors_ok|]. intros Hg.
  rename select (validate_gosub_continuation _ _ _ _ = _) into Hc.
  unfold validate_gosub_continuation in Hc. rewrite Hg, decide_False in Hc by (by intros []).
  inv_ok. rename select (resolve_target _ _ _ _ _ _ = _) into Hr.
  apply (resolve_target_Ok _ _ _ Hbc Hpre) in Hr as (? & ? & _). by eexists.
Qed.

(** What the static stage establishes of each instruction. *)
Record static_ok (domains : FunctionIndexDomains) (kind : FunctionKind)
    (captures : option ValidatedCompilerCaptureLayout)
    (constants : option CompilerConstantLayout) (generated : bool) (v : VerifiedInstruction) : Prop := {
  static_unset : entry_stack_depth v = None;
  static_successors : successors_ok ds v;
  static_indices :
    Forall (OperandIndexFacts.in_domains domains)
      (OperandIndexFacts.named_indices (instruction (decoded v)));
  static_secondary : validate_secondary_operands (decoded v) domains = Ok tt;
  static_capability : validate_capability kind captures constants generated (decoded v) = Ok tt }.

Lemma try_map_decoded (f : DecodedInstruction → verified VerifiedInstruction) l vs :
  (∀ d v, d ∈ l → f d = Ok v → decoded v = d) → try_map f l = Ok vs → decoded <$> vs = l.
Proof.
  intros Hf Hm%try_map_Ok. induction Hm as [|d v l vs Hv Hm IH]; [done|]. simpl.
  rewrite (Hf d v) by (done || by apply elem_of_cons; left). f_equal. apply IH.
  intros d' v' ?. apply Hf. apply elem_of_cons. by right.
Qed.

Lemma validate_static_semantics_Ok `{Allocator} domains kind captures constants generated s :
  validate_static_semantics ds bitmap (len bc) domains kind captures constants generated = Ok s →
  decoded <$> structural_instructions s = ds ∧ function_kind s = kind ∧
  Forall (static_ok domains kind captures constants generated) (structural_instructions s).
Proof.
  unfold validate_static_semantics. intros Hs. inv_ok. subst s. simpl.
  rename select (try_map _ _ = _) into Hm. rename select (try_for_each _ _ = _) into Hc.
  apply try_for_each_Ok in Hc.
  split_and!; [|done|].
  { eapply try_map_decoded; [|exact Hm]. intros d v Hd Hv.
    by apply validate_static_instruction_Ok in Hv as (? & _). }
  apply try_map_Ok in Hm. apply Forall_forall. intros v Hv%list_elem_of_In.
  apply list_elem_of_lookup_1 in Hv as [i Hi].
  destruct (Forall2_lookup_r _ _ _ _ _ Hm Hi) as (d & Hd & Hdv).
  pose proof (list_elem_of_lookup_2 _ _ _ Hd) as Hin.
  pose proof (Forall_lookup_1 _ _ _ _ Hc Hi) as Hcap. simpl in Hcap.
  apply validate_static_instruction_Ok in Hdv as (<- & ? & ? & Hidx & ? & _); [|done].
  constructor; try done. apply OperandIndexFacts.validate_operand_indices_Ok; [|done].
  destruct (decodes_to_decoded _ Hbc _ _ _ (predecoded_stream _ _ _ Hpre) Hin) as (Hdec & _).
  by destruct (decode_instruction_sound _ _ _ Hbc Hdec) as (_ & ? & _).
Qed.

(** *** What the static stage accepts *)

Definition position_starts (q : Z) : Prop := ∃ d, d ∈ ds ∧ pc d = q.

(** The static well-formedness of one instruction of the body: slots in their
    domains, secondary fields in range, the label at an instruction start
    (never position 0 for a [catch]), and an instruction after it unless it
    jumps or ends. *)
Record well_formed (domains : FunctionIndexDomains) (d : DecodedInstruction) : Prop := {
  wf_indices : Forall (OperandIndexFacts.in_domains domains)
                 (OperandIndexFacts.named_indices (instruction d));
  wf_secondary : validate_secondary_operands d domains = Ok tt;
  wf_label t : label_target d = Some t →
    position_starts t ∧ (Instruction.opcode (instruction d) = FinalOpcode.Catch → t ≠ 0);
  wf_next : shape_of d = Some SuccessorShape.Fallthrough ∨ shape_of d = Some SuccessorShape.Branch →
    position_starts (next_pc d) }.

Lemma labelled_shape d :
  Instruction.valid (instruction d) →
  shape_of d = Some SuccessorShape.Branch ∨ shape_of d = Some SuccessorShape.Jump →
  is_Some (label_target d).
Proof.
  intros Hv Hs. destruct (relative_target_spec_valid d Hv) as (spec & [(_ & -> & _ & [x ->])|(_ & Hl & _)]).
  - by eexists.
  - exfalso. unfold shape_of in Hs. destruct (Instruction.opcode (instruction d));
      first [discriminate Hl | destruct Hs as [[=]|[=]]].
Qed.

Lemma stream_valid d :
  d ∈ ds → Instruction.valid (instruction d) ∧ 0 ≤ pc d < next_pc d.
Proof.
  intros Hd. destruct (decodes_to_decoded _ Hbc _ _ _ (predecoded_stream _ _ _ Hpre) Hd)
    as (Hdec & Hlt & _).
  by destruct (decode_instruction_sound _ _ _ Hbc Hdec) as (_ & ? & _).
Qed.

Lemma starts_position i q : starts_at ds i q → position_starts q.
Proof. intros (_ & d & Hd%list_elem_of_lookup_2 & Hp). by exists d. Qed.

Lemma validate_static_instruction_wf domains d v :
  d ∈ ds → validate_static_instruction ds bitmap (len bc) domains d = Ok v → well_formed domains d.
Proof.
  intros Hd Hv. pose proof Hv as (<- & _ & Hsucc & Hidx & Hsec & _)%validate_static_instruction_Ok;
    [|done]. destruct (stream_valid _ Hd) as [Hval _]. constructor; [|done| |].
  - by apply OperandIndexFacts.validate_operand_indices_Ok.
  - intros t Ht. unfold validate_static_instruction in Hv. inv_ok.
    rename select (resolve_relative_target _ _ _ _ = _) into Hr.
    match type of Hr with _ = Ok ?r => destruct r as [i|] end.
    + pose proof (resolve_relative_target_catch _ _ _ Hbc Hpre _ _ Hd Hr) as Hc.
      apply (resolve_relative_target_Ok _ _ _ Hbc Hpre) in Hr as (? & d' & t' & Hd' & Ht' & <-);
        [|done]. simplify_eq. split; [exists d'; split; [by eapply list_elem_of_lookup_2|done]|].
      intros Hop E. apply Hc in Hop. by rewrite E in Ht'.
    + apply (resolve_relative_target_Ok _ _ _ Hbc Hpre) in Hr; [|done]. congruence.
  - unfold successors_ok in Hsucc. intros Hs. destruct (successors v); destruct_and?;
      try (exfalso; destruct_or?; congruence); by eapply starts_position.
Qed.

Lemma position_resolves d e q :
  position_starts q → (Instruction.opcode (instruction d) = FinalOpcode.Catch → q ≠ 0) →
  ∃ i, resolve_target ds bitmap (len bc) d e q = Ok i.
Proof.
  intros (d' & (i & Hi)%list_elem_of_lookup_1 & Hp) Hc. exists (Z.of_nat i).
  apply (resolve_target_Ok _ _ _ Hbc Hpre). rewrite Nat2Z.id. split_and!; [lia|by exists d'|done].
Qed.

Lemma relative_target_resolves domains d :
  d ∈ ds → well_formed domains d →
  ∃ r, resolve_relative_target ds bitmap (len bc) d = Ok r ∧
       (is_Some (label_target d) → is_Some r).
Proof.
  intros Hd [_ _ Hlab _]. destruct (label_target d) as [t|] eqn:Ht.
  - destruct (Hlab t eq_refl) as [(d' & Hd' & Hp) Hc].
    destruct (resolve_relative_target_succeeds _ _ _ Hbc Hpre d t d') as [i Hi]; [done..|].
    exists (Some i). done.
  - destruct (relative_target_spec_valid d) as (spec & [(_ & E & _ & [[[? ?] ?] ->])|(E & _)]);
      [by apply stream_valid|rewrite Ht in E; done|].
    exists None. unfold resolve_relative_target. rewrite E. split; [done|]. by intros [? [=]].
Qed.

Lemma validate_static_instruction_complete domains d :
  d ∈ ds → Instruction.opcode (instruction d) ≠ FinalOpcode.Invalid → well_formed domains d →
  ∃ v, validate_static_instruction ds bitmap (len bc) domains d = Ok v.
Proof.
  intros Hd Hinv Hwf. destruct (stream_valid _ Hd) as [Hval Hpos].
  destruct (relative_target_resolves domains d Hd Hwf) as (r & Hr & Hsome).
  destruct Hwf as [Hidx Hsec Hlab Hnext]. unfold validate_static_instruction.
  rewrite (proj2 (OperandIndexFacts.validate_operand_indices_Ok d domains Hval) Hidx).
  cbn [mbind result_bind]. rewrite Hsec. cbn [mbind result_bind]. rewrite Hr.
  cbn [mbind result_bind].
  assert (validate_gosub_continuation ds bitmap (len bc) d = Ok tt) as ->.
  { unfold validate_gosub_continuation. destruct (decide _) as [|Hg]; [done|].
    apply dec_stable in Hg.
    destruct (position_resolves d ControlFlowEdge.FinallyContinuation (next_pc d)) as [i ->];
      [apply Hnext; right; unfold shape_of; by rewrite Hg|lia|done]. }
  cbn [mbind result_bind]. unfold resolve_static_successors.
  change (OpcodeSemantics.successor_shape _) with (shape_of d).
  assert (∀ e, shape_of d = Some SuccessorShape.Fallthrough ∨ shape_of d = Some SuccessorShape.Branch →
    ∃ i, resolve_target ds bitmap (len bc) d e (next_pc d) = Ok i) as Hfall
    by (intros e Hs; apply position_resolves; [by apply Hnext|lia]).
  unfold resolve_fallthrough, require_encoded_target.
  destruct (shape_of d) as [[]|] eqn:Hs.
  - destruct (Hfall ControlFlowEdge.Fallthrough) as [i ->]; [by left|]. by eexists.
  - destruct Hsome as [t ->]; [by apply labelled_shape; [|left]|]. simpl.
    destruct (Hfall ControlFlowEdge.Fallthrough) as [i ->]; [by right|]. by eexists.
  - destruct Hsome as [t ->]; [by apply labelled_shape; [|right]|]. by eexists.
  - by eexists.
  - exfalso. apply Hinv. revert Hs. unfold shape_of.
    by destruct (Instruction.opcode (instruction d)).
Qed.

Lemma validate_static_semantics_wf `{Allocator} domains kind captures constants generated s :
  validate_static_semantics ds bitmap (len bc) domains kind captures constants generated = Ok s →
  Forall (well_formed domains) ds ∧
  Forall (λ d, validate_capability kind captures constants generated d = Ok tt) ds.
Proof.
  intros Hs. pose proof Hs as (Hdec & _ & Hall)%validate_static_semantics_Ok.
  unfold validate_static_semantics in Hs. inv_ok. rename select (try_map _ _ = _) into Hm.
  apply try_map_Ok in Hm. split.
  - apply Forall_forall. intros d Hd%list_elem_of_In. pose proof Hd as (i & Hi)%list_elem_of_lookup_1.
    destruct (Forall2_lookup_l _ _ _ _ _ Hm Hi) as (v & _ & Hv).
    by eapply validate_static_instruction_wf.
  - rewrite <- Hdec. apply Forall_fmap. eapply Forall_impl; [|exact Hall]. intros v []. done.
Qed.

Lemma validate_static_semantics_complete `{GenerousAllocator} domains kind captures constants generated :
  Forall (well_formed domains) ds →
  Forall (λ d, validate_capability kind captures constants generated d = Ok tt) ds →
  ∃ s, validate_static_semantics ds bitmap (len bc) domains kind captures constants generated = Ok s.
Proof.
  intros Hwf Hcap. unfold validate_static_semantics. rewrite reserve_generous. simpl.
  assert (∀ l, (∀ d, d ∈ l → d ∈ ds) → ∃ vs,
    try_map (validate_static_instruction ds bitmap (len bc) domains) l = Ok vs) as Hmap.
  { induction l as [|d l IH]; intros Hl; simpl; [by eexists|].
    assert (d ∈ ds) as Hd by (apply Hl, elem_of_cons; by left).
    destruct (validate_static_instruction_complete domains d Hd) as [v ->].
    - by destruct (stream_valid d Hd) as [(? & _) _].
    - by apply (proj1 (Forall_forall _ _) Hwf), list_elem_of_In.
    - destruct IH as [vs ->]; [|by eexists]. intros d' Hd'. apply Hl, elem_of_cons. by right. }
  destruct (Hmap ds) as [vs Hvs]; [done|]. rewrite Hvs. simpl.
  assert (decoded <$> vs = ds) as Hdec.
  { eapply try_map_decoded; [|exact Hvs]. intros d v Hd Hv.
    by apply validate_static_instruction_Ok in Hv as (? & _). }
  assert (try_for_each (λ i, validate_capability kind captures constants generated
    (VerifierModel.decoded i)) vs = Ok tt) as ->; [|by eexists].
  apply try_for_each_Ok. rewrite <- Hdec in Hcap. by apply Forall_fmap in Hcap.
Qed.

(** Without compiler layouts only opcodes of proved semantics pass. *)
Lemma capability_serialized kind d :
  validate_capability kind None None false d = Ok tt →
  ∀ feature shape, opcode_semantics (Instruction.opcode (instruction d))
                   ≠ OpcodeSemantics.Unsupported feature shape.
Proof.
  unfold validate_capability. intros ([] & Hc & _)%bind_Ok feature shape E. rewrite E in Hc.
  by destruct (Instruction.opcode (instruction d)).
Qed.
End static.
End StaticFacts.

(** ** Properties *)

(** Static validation yields a sound control-flow graph: in a predecoded
    body it keeps the instructions in order, every successor index is that of
    the instruction starting at the position the edge denotes (the encoded
    label for a taken branch or a jump, the end of the instruction for a
    fallthrough) with the shape the opcode's policy gives, every named table
    slot is in its domain, and without compiler layouts no opcode of unproved
    semantics is present. *)
Theorem static_semantics_sound (a : Allocator) (bc : list Z) (ds : list DecodedInstruction)
    (bitmap : list Z) (domains : FunctionIndexDomains) (kind : FunctionKind)
    (captures : option ValidatedCompilerCaptureLayout)
    (constants : option CompilerConstantLayout) (generated : bool)
    (s : StructurallyVerifiedControlFlow)
    (Hbc : byte_list bc) (Hpre : PredecodeFacts.predecoded bc ds bitmap)
    (Hs : validate_static_semantics ds bitmap (len bc) domains kind captures constants generated
          = Ok s) :
  decoded <$> structural_instructions s = ds ∧
  Forall (λ v, StaticFacts.successors_ok ds v ∧
               Forall (OperandIndexFacts.in_domains domains)
                 (OperandIndexFacts.named_indices (instruction (decoded v))))
    (structural_instructions s) ∧
  (captures = None → constants = None → generated = false →
   Forall (λ v, ∀ feature shape, opcode_semantics (Instruction.opcode (instruction (decoded v)))
                                 ≠ OpcodeSemantics.Unsupported feature shape)
     (structural_instructions s)).
Proof.
  apply (StaticFacts.validate_static_semantics_Ok _ _ _ Hbc Hpre) in Hs as (Hd & _ & Hall).
  split_and!; [done| |].
  - eapply Forall_impl; [|exact Hall]. intros v []. done.
  - intros -> -> ->. eapply Forall_impl; [|exact Hall]. intros v [_ _ _ _ Hc].
    by eapply StaticFacts.capability_serialized.
Qed.

(** The static stage on the demonstration loop. *)
Definition demo_loop_structural : StructurallyVerifiedControlFlow :=
  mkStructural
    [mkVerifiedInstruction (mkDecoded 0 (Instruction.mk FinalOpcode.Push0 Operands.NoneInt) 1) None
       (VerifiedSuccessors.Fallthrough 1);
     mkVerifiedInstruction
       (mkDecoded 1 (Instruction.mk FinalOpcode.IfTrue8 (Operands.Label8 (-2))) 3) None
       (VerifiedSuccessors.Branch 0 2);
     mkVerifiedInstruction
       (mkDecoded 3 (Instruction.mk FinalOpcode.ReturnUndef Operands.None) 4) None
       VerifiedSuccessors.Terminate] FunctionKind.Normal.

Lemma static_semantics_sound_witness :
  decoded <$> structural_instructions demo_loop_structural
    = predecoded_instructions demo_loop_decoded.
Proof.
  destruct (PredecodeFacts.predecode_complete_Ok (H := always_allocates) demo_loop 3
    demo_loop_decoded demo_loop_bytes ltac:(reflexivity) ltac:(vm_compute; reflexivity)) as [Hp _].
  destruct (static_semantics_sound always_allocates demo_loop
    (predecoded_instructions demo_loop_decoded) (predecoded_bitmap demo_loop_decoded)
    (mkDomains 0 0 0 0 0) FunctionKind.Normal None None false demo_loop_structural
    demo_loop_bytes Hp ltac:(vm_compute; reflexivity)) as [Hd _].
  exact Hd.
Defined.

(** The operand-index check is exact: on a valid instruction it succeeds
    if and only if every table slot the instruction names, encoded or implied
    by the opcode's place in its four-opcode family, lies inside the
    function's domain for it. *)
Theorem operand_indices_exact (d : DecodedInstruction) (domains : FunctionIndexDomains)
    (Hv : Instruction.valid (instruction d)) :
  validate_operand_indices d domains = Ok tt ↔
  Forall (OperandIndexFacts.in_domains domains) (OperandIndexFacts.named_indices (instruction d)).
Proof. by apply OperandIndexFacts.validate_operand_indices_Ok. Qed.

Lemma operand_indices_exact_witness :
  validate_operand_indices (mkDecoded 0 (Instruction.mk FinalOpcode.PutLoc3 Operands.NoneLoc) 1)
    (mkDomains 0 0 0 4 0) = Ok tt.
Proof.
  apply operand_indices_exact.
  - split; [discriminate|]. split; [reflexivity|exact I].
  - apply Forall_cons_2; [vm_compute; reflexivity|apply Forall_nil_2].
Defined.
