(* ===== verification/VerifierStack.v ===== *)
(** * Ordinary-stack dataflow

    Models [crates/fusor-bytecode/src/verifier/stack.rs]: the bounded worklist
    that gives every reachable instruction its entry stack depth, checks
    underflow, the stack limit, joins and exits, and computes the maximum
    depth.  The [while let] loop of [analyze_ordinary_stack] is cut along its
    stages; its state is [AnalysisState]. *)

From S2P Require Import Prelude Opcode Codec Function VerifierModel VerifierStatic.
Import VerificationErrorKind.

(** Ordinary-stack dataflow certificate for structurally checked control flow. *)
Record StackCertificate := mkStackCertificate {
  certificate_instructions : list VerifiedInstruction;
  certificate_stack_size : Z;
  certificate_evaluations : Z }.

(** The mutable locals of the analysis. *)
Record AnalysisState := mkAnalysis {
  analysed : list VerifiedInstruction;
  worklist : list Z;
  computed_max : Z;
  evaluations : Z }.

Definition set_entry_depth (v : VerifiedInstruction) (depth : Z) : VerifiedInstruction :=
  mkVerifiedInstruction (decoded v) (Some depth) (successors v).

Definition opcode_of (v : VerifiedInstruction) : FinalOpcode :=
  Instruction.opcode (instruction (decoded v)).

Section analysis.
Context `{Allocator}.

(** Growing the queue succeeds whenever it has spare capacity; that is part of
    the allocator's answer. *)
Definition reserve_worklist_entry (worklist : list Z) (decoded : DecodedInstruction) :
    verified unit :=
  reserve "worklist" (len worklist) 1
    (at_instruction decoded (AllocationFailed VerificationResource.WorklistEntries 1)).

Definition propagate_stack_depth (state : list VerifiedInstruction * list Z) (target : Z)
    (incoming_depth : Z) (source : DecodedInstruction) (defer_gosub_join_to_typed_stack : bool) :
    verified (list VerifiedInstruction * list Z) :=
  let '(instructions, worklist) := state in
  position ← ok_or (try_usize target)
    (at_instruction source (LimitExceeded VerificationResource.Instructions u32_max target));
  target_instruction ← ok_or (instructions !! position)
    (at_instruction source
       (LimitExceeded VerificationResource.Instructions (len instructions) (target + 1)));
  match entry_stack_depth target_instruction with
  | None =>
      reserve_worklist_entry worklist source ;;
      Ok (<[position := set_entry_depth target_instruction incoming_depth]> instructions,
          worklist ++ [target])
  | Some established_depth =>
      if established_depth =? incoming_depth then Ok (instructions, worklist)
      else if defer_gosub_join_to_typed_stack then Ok (instructions, worklist)
      else Err (at_instruction source (InconsistentStackAtJoin
             (pc (decoded target_instruction)) established_depth incoming_depth (pc source)))
  end.

Context (limits : VerificationLimits).

(** Counts one transfer evaluation against the budget. *)
Definition count_evaluation (current : DecodedInstruction) (evaluations : Z) : verified Z :=
  evaluations ← ok_or (checked_add_u64 evaluations 1)
    (at_instruction current (LimitExceeded VerificationResource.TransferEvaluations
       (max_transfer_evaluations limits) u64_max));
  reject_if (max_transfer_evaluations limits <? evaluations)
    (at_instruction current (LimitExceeded VerificationResource.TransferEvaluations
       (max_transfer_evaluations limits) evaluations)) ;;
  Ok evaluations.

(** The depth after the instruction's pops and pushes. *)
Definition output_depth_of (current : DecodedInstruction) (entry_depth : Z) : verified Z :=
  effect ← map_err (λ source, at_instruction current (StackEffect source))
             (Instruction.stack_effect (instruction current));
  reject_if (entry_depth <? pops effect)
    (at_instruction current (StackUnderflow (pops effect) entry_depth)) ;;
  let output_depth := entry_depth - pops effect + pushes effect in
  let exceeded := at_instruction current (StackLimitExceeded output_depth (max_stack_depth limits)) in
  reject_if (max_stack_depth limits <? output_depth) exceeded ;;
  ok_or (try_u32 output_depth) exceeded.

(** A taken edge that carries [extra] values beyond the output depth. *)
Definition extended_depth (current : DecodedInstruction) (output_depth extra : Z) : verified Z :=
  depth ← ok_or (checked_add_u64 output_depth extra)
    (at_instruction current (StackLimitExceeded u64_max (max_stack_depth limits)));
  let exceeded := at_instruction current (StackLimitExceeded depth (max_stack_depth limits)) in
  reject_if (max_stack_depth limits <? depth) exceeded ;;
  ok_or (try_u32 depth) exceeded.

(** The depth a [gosub] hands its subroutine: the return address is pushed. *)
Definition finally_subroutine_depth (current : DecodedInstruction) (output_depth : Z) :
    verified (option Z) :=
  if decide (Instruction.opcode (instruction current) = FinalOpcode.Gosub)
  then Some <$> extended_depth current output_depth 1 else Ok None.

Definition with_branch_values (opcode : FinalOpcode) : Z :=
  match opcode with
  | FinalOpcode.WithGetVar | FinalOpcode.WithDeleteVar => 1
  | FinalOpcode.WithMakeRef | FinalOpcode.WithGetRef => 2
  | _ => 0
  end.

(** The depth a found [with_*] binding hands its target. *)
Definition with_binding_depth (current : DecodedInstruction) (output_depth : Z) :
    verified (option Z) :=
  let values := with_branch_values (Instruction.opcode (instruction current)) in
  if negb (values =? 0) then Some <$> extended_depth current output_depth values else Ok None.

(** [computed_max.max(depth)] for an optional depth. *)
Definition raise_max (computed_max : Z) (depth : option Z) : Z :=
  match depth with Some depth => Z.max computed_max depth | None => computed_max end.

(** [finally_subroutine_depth.or(with_binding_depth).unwrap_or(output_depth)] *)
Definition taken_depth (finally_depth binding_depth : option Z) (output_depth : Z) : Z :=
  match finally_depth, binding_depth with
  | Some depth, _ | None, Some depth => depth
  | None, None => output_depth
  end.

Context (require_empty_exits : bool) (kind : FunctionKind) (has_gosub : bool).

(** Whether a terminal may leave values behind. *)
Definition may_abandon_stack (opcode : FinalOpcode) : bool :=
  let abandons_expression :=
    match opcode with
    | FinalOpcode.Throw | FinalOpcode.ThrowError | FinalOpcode.TailCall
    | FinalOpcode.TailCallMethod | FinalOpcode.TailApply | FinalOpcode.TailEval
    | FinalOpcode.TailApplyEval => true
    | _ => false
    end in
  let returns_from_finally := bool_decide (opcode = FinalOpcode.Ret) in
  let abandons_generator_expression :=
    match kind with
    | FunctionKind.Generator | FunctionKind.AsyncGenerator =>
        bool_decide (opcode = FinalOpcode.ReturnAsync)
    | _ => false
    end in
  let defers_typed_finally_exit :=
    has_gosub &&
    match opcode with
    | FinalOpcode.Return | FinalOpcode.ReturnUndef | FinalOpcode.Throw => true
    | _ => false
    end in
  abandons_expression || returns_from_finally || abandons_generator_expression
  || defers_typed_finally_exit.

Definition check_exit (current : DecodedInstruction) (output_depth : Z) : verified unit :=
  reject_if (require_empty_exits && negb (output_depth =? 0)
             && negb (may_abandon_stack (Instruction.opcode (instruction current))))
    (at_instruction current (NonEmptyCompilerExitStack output_depth)).

(** Propagation along the successors. *)
Definition propagate_successors (state : list VerifiedInstruction * list Z)
    (current : VerifiedInstruction) (output_depth taken_depth : Z) :
    verified (list VerifiedInstruction * list Z) :=
  match successors current with
  | VerifiedSuccessors.Fallthrough successor | VerifiedSuccessors.Jump successor =>
      propagate_stack_depth state successor output_depth (decoded current) false
  | VerifiedSuccessors.Branch taken not_taken =>
      state ← propagate_stack_depth state taken taken_depth (decoded current)
        (require_empty_exits && bool_decide (opcode_of current = FinalOpcode.Gosub));
      propagate_stack_depth state not_taken output_depth (decoded current) false
  | VerifiedSuccessors.Terminate =>
      check_exit (decoded current) output_depth ;; Ok state
  end.

(** One turn of the loop, for the index just popped. *)
Definition analyze_index (state : AnalysisState) (index : Z) : verified AnalysisState :=
  position ← ok_or (try_usize index)
    (root (LimitExceeded VerificationResource.Instructions u32_max index));
  current ← ok_or (analysed state !! position)
    (root (LimitExceeded VerificationResource.Instructions (len (analysed state)) (index + 1)));
  match entry_stack_depth current with
  | None => Ok state
  | Some entry_depth =>
      evaluations ← count_evaluation (decoded current) (evaluations state);
      output_depth ← output_depth_of (decoded current) entry_depth;
      let computed_max := Z.max (computed_max state) output_depth in
      finally_depth ← finally_subroutine_depth (decoded current) output_depth;
      let computed_max := raise_max computed_max finally_depth in
      binding_depth ← with_binding_depth (decoded current) output_depth;
      let computed_max := raise_max computed_max binding_depth in
      next ← propagate_successors (analysed state, worklist state) current output_depth
               (taken_depth finally_depth binding_depth output_depth);
      Ok (mkAnalysis (fst next) (snd next) computed_max evaluations)
  end.

(** [while let Some(index) = worklist.pop_front()].  Each turn takes one entry
    and an entry is queued at most once per instruction, so a fuel of the
    number of instructions empties the queue ([analyze_loop_drains]). *)
Fixpoint analyze_loop (fuel : nat) (state : AnalysisState) : verified AnalysisState :=
  match fuel, worklist state with
  | O, _ | _, [] => Ok state
  | S fuel, index :: rest =>
      state ← analyze_index (mkAnalysis (analysed state) rest (computed_max state)
                               (evaluations state)) index;
      analyze_loop fuel state
  end.
End analysis.

Definition analyze_ordinary_stack `{Allocator}
    (structurally_verified : StructurallyVerifiedControlFlow) (limits : VerificationLimits)
    (require_empty_exits : bool) : verified StackCertificate :=
  let instructions := structural_instructions structurally_verified in
  match instructions with
  | [] => Err (root EmptyBytecode)
  | entry :: rest =>
      let instructions := set_entry_depth entry 0 :: rest in
      reserve_worklist_entry [] (decoded entry) ;;
      let has_gosub := existsb (λ v, bool_decide (opcode_of v = FinalOpcode.Gosub)) instructions in
      state ← analyze_loop limits require_empty_exits (function_kind structurally_verified)
                has_gosub (length instructions) (mkAnalysis instructions [0] 0 0);
      Ok (mkStackCertificate (analysed state) (computed_max state) (evaluations state))
  end.

(** ** Facts *)

Module StackFacts.

(** *** The transfer function, as a reference *)

(** The depth after executing [v] at depth [k]; [None] on underflow. *)
Definition transfer (v : VerifiedInstruction) (k : Z) : option Z :=
  match Instruction.stack_effect (instruction (decoded v)) with
  | Ok effect => if k <? pops effect then None else Some (k - pops effect + pushes effect)
  | Err _ => None
  end.

(** The values a taken branch adds: a [gosub]'s return address, the results of
    a found [with_*] binding. *)
Definition extra (o : FinalOpcode) : Z :=
  if decide (o = FinalOpcode.Gosub) then 1 else with_branch_values o.

Definition entry_at (vs : list VerifiedInstruction) (i : Z) : option Z :=
  at_index vs i ≫= entry_stack_depth.

(** The outgoing edges of [v] at output depth [o]: target, incoming depth, and
    whether a depth mismatch at the target is deferred. *)
Definition edges (generated : bool) (v : VerifiedInstruction) (o : Z) : list (Z * Z * bool) :=
  match successors v with
  | VerifiedSuccessors.Fallthrough j | VerifiedSuccessors.Jump j => [(j, o, false)]
  | VerifiedSuccessors.Branch taken not_taken =>
      [(taken, o + extra (opcode_of v),
        generated && bool_decide (opcode_of v = FinalOpcode.Gosub));
       (not_taken, o, false)]
  | VerifiedSuccessors.Terminate => []
  end.

(** Depths reachable from the entry along the edges. *)
Inductive reaches (vs : list VerifiedInstruction) : Z → Z → Prop :=
| reaches_entry : reaches vs 0 0
| reaches_edge i k v o j d deferred :
    reaches vs i k → at_index vs i = Some v → transfer v k = Some o →
    (j, d, deferred) ∈ edges false v o → reaches vs j d.

Lemma extra_bound o : 0 ≤ extra o ≤ 2.
Proof. unfold extra. destruct (decide _); [lia|]. by destruct o; simpl; lia. Qed.

Lemma edges_generated g v o j d b :
  (j, d, b) ∈ edges g v o → ∃ b', (j, d, b') ∈ edges false v o.
Proof.
  unfold edges. destruct (successors v); intros H;
    repeat (apply elem_of_cons in H as [H|H]); try (by apply not_elem_of_nil in H);
    injection H as -> -> ->; eexists; repeat (apply elem_of_cons; (by left) || right); done.
Qed.

(** *** One propagation *)

(** Either the target's depth is known and agrees (or is deferred), or it is
    recorded and queued. *)
Definition mark_one (vs : list VerifiedInstruction) (wl : list Z) (e : Z * Z * bool)
    (vs' : list VerifiedInstruction) (wl' : list Z) : Prop :=
  let '(t, k, deferred) := e in
  (vs' = vs ∧ wl' = wl ∧ ∃ k0, entry_at vs t = Some k0 ∧ (k0 = k ∨ deferred = true)) ∨
  (∃ v, at_index vs t = Some v ∧ entry_stack_depth v = None ∧
        vs' = <[Z.to_nat t := set_entry_depth v k]> vs ∧ wl' = wl ++ [t]).

Inductive marked : list VerifiedInstruction → list Z → list (Z * Z * bool) →
    list VerifiedInstruction → list Z → Prop :=
| marked_nil vs wl : marked vs wl [] vs wl
| marked_cons vs wl e es vs1 wl1 vs2 wl2 :
    mark_one vs wl e vs1 wl1 → marked vs1 wl1 es vs2 wl2 → marked vs wl (e :: es) vs2 wl2.

Lemma propagate_stack_depth_Ok `{Allocator} vs wl t k src deferred vs' wl' :
  propagate_stack_depth (vs, wl) t k src deferred = Ok (vs', wl') →
  mark_one vs wl (t, k, deferred) vs' wl'.
Proof.
  unfold propagate_stack_depth, mark_one, entry_at. intros Hp. inv_ok. inv_checked.
  match goal with H : vs !! _ = Some ?x |- _ => rename H into Hv, x into v end.
  assert (at_index vs t = Some v) as Hi by (by apply at_index_Some). rewrite Hi. simpl.
  destruct (entry_stack_depth v) as [k0|] eqn:Hk.
  - left. destruct (Z.eqb_spec k0 k); [|destruct deferred; [|done]];
      injection Hp as <- <-; split_and!; try done; exists k0; auto.
  - right. inv_ok. injection Hp as <- <-. exists v. done.
Qed.

Lemma propagate_successors_Ok `{Allocator} gen kind hg vs wl v o vs' wl' :
  propagate_successors gen kind hg (vs, wl) v o (o + extra (opcode_of v)) = Ok (vs', wl') →
  marked vs wl (edges gen v o) vs' wl' ∧
  (successors v = VerifiedSuccessors.Terminate → check_exit gen kind hg (decoded v) o = Ok tt).
Proof.
  unfold propagate_successors, edges. destruct (successors v); intros Hp.
  1,3: split; [|done]; econstructor; [by eapply propagate_stack_depth_Ok|constructor].
  - inv_ok. match goal with s : list VerifiedInstruction * list Z |- _ => destruct s end.
    split; [|done].
    econstructor; [by eapply propagate_stack_depth_Ok|].
    econstructor; [by eapply propagate_stack_depth_Ok|constructor].
  - inv_ok. injection Hp as <- <-. split; [constructor|done].
Qed.

(** *** What propagation preserves *)

(** Same code, and every depth already known is kept. *)
Definition extends (vs vs' : list VerifiedInstruction) : Prop :=
  length vs' = length vs ∧
  ∀ i v, at_index vs i = Some v → ∃ v', at_index vs' i = Some v' ∧ decoded v' = decoded v ∧
    successors v' = successors v ∧ ∀ k, entry_stack_depth v = Some k → entry_stack_depth v' = Some k.

Lemma extends_refl vs : extends vs vs.
Proof. split; [done|]. intros i v Hv. by exists v. Qed.

Lemma extends_trans vs1 vs2 vs3 : extends vs1 vs2 → extends vs2 vs3 → extends vs1 vs3.
Proof.
  intros [Hl1 H1] [Hl2 H2]. split; [congruence|]. intros i v Hv.
  destruct (H1 i v Hv) as (v' & Hv' & E1 & E2 & E3).
  destruct (H2 i v' Hv') as (v'' & ? & ? & ? & ?). exists v''. split_and!; (congruence || auto).
Qed.

#[export] Instance extends_preorder : PreOrder extends.
Proof. split; [exact extends_refl|exact extends_trans]. Qed.

Lemma extends_entry vs vs' i k : extends vs vs' → entry_at vs i = Some k → entry_at vs' i = Some k.
Proof.
  intros [_ He] (v & Hv & Hk)%bind_Some. destruct (He i v Hv) as (v' & Hv' & _ & _ & Hk').
  unfold entry_at. rewrite Hv'. simpl. auto.
Qed.

Lemma extends_back vs vs' i v' :
  extends vs vs' → at_index vs' i = Some v' →
  ∃ v, at_index vs i = Some v ∧ decoded v' = decoded v ∧ successors v' = successors v.
Proof.
  intros [Hl He] Hv'. pose proof (at_index_range _ _ _ Hv') as Hr.
  destruct (proj2 (at_index_is_Some vs i)) as [v Hv]; [unfold len in *; lia|].
  exists v. destruct (He i v Hv) as (v2 & ? & ? & ? & _). simplify_eq. done.
Qed.

(** The instructions whose depth is unknown. *)
Definition unset (vs : list VerifiedInstruction) : nat :=
  length (filter (λ v, entry_stack_depth v = None) vs).

Lemma unset_insert vs : ∀ i v k,
  vs !! i = Some v → entry_stack_depth v = None →
  (unset (<[i := set_entry_depth v k]> vs) + 1 = unset vs)%nat.
Proof.
  unfold unset. induction vs as [|w vs IH]; intros i v k Hi Hv; [done|].
  destruct i as [|i]; simplify_eq/=.
  - rewrite !filter_cons. rewrite decide_False by done. rewrite decide_True by done. simpl. lia.
  - rewrite !filter_cons. specialize (IH i v k Hi Hv).
    destruct (decide (entry_stack_depth w = None)); simpl; lia.
Qed.

Lemma mark_one_spec vs wl t k df vs' wl' :
  mark_one vs wl (t, k, df) vs' wl' →
  extends vs vs' ∧ (unset vs' + length wl' = unset vs + length wl)%nat ∧
  (∃ k0, entry_at vs' t = Some k0 ∧ (df = false → k0 = k)) ∧
  (∀ x, x ∈ wl → x ∈ wl') ∧
  (∀ i d, entry_at vs' i = Some d → entry_at vs i = Some d ∨ (i = t ∧ d = k ∧ i ∈ wl')).
Proof.
  intros [(-> & -> & k0 & Hk0 & Hor)|(v & Hv & Hnone & -> & ->)].
  { split_and!; auto; [reflexivity|]. exists k0. split; [done|]. intros ->. naive_solver. }
  pose proof (at_index_range _ _ _ Hv) as Hr. split_and!.
  - split; [apply length_insert|]. intros i w Hw.
    destruct (decide (t = i)) as [<-|Hne].
    + rewrite at_index_insert_eq by done. simplify_eq. eexists. split_and!; try done.
      intros ?. congruence.
    + rewrite at_index_insert_ne by (done || lia). by exists w.
  - apply at_index_Some in Hv as [_ Hv]. rewrite length_app. simpl.
    pose proof (unset_insert _ _ _ k Hv Hnone). lia.
  - exists k. split; [|done]. unfold entry_at. by rewrite at_index_insert_eq.
  - intros x Hx. apply elem_of_app. by left.
  - intros i d. unfold entry_at. destruct (decide (t = i)) as [<-|Hne].
    + rewrite at_index_insert_eq by done. intros [= <-]. right. split_and!; [done|done|].
      apply elem_of_app. right. by apply elem_of_cons; left.
    + rewrite at_index_insert_ne by (done || lia). auto.
Qed.

Lemma marked_spec vs wl es vs' wl' :
  marked vs wl es vs' wl' →
  extends vs vs' ∧ (unset vs' + length wl' = unset vs + length wl)%nat ∧
  (∀ t k df, (t, k, df) ∈ es → ∃ k0, entry_at vs' t = Some k0 ∧ (df = false → k0 = k)) ∧
  (∀ x, x ∈ wl → x ∈ wl') ∧
  (∀ i d, entry_at vs' i = Some d →
     entry_at vs i = Some d ∨ (i ∈ wl' ∧ ∃ df, (i, d, df) ∈ es)).
Proof.
  induction 1 as [vs wl|vs wl [[t k] df] es vs1 wl1 vs2 wl2 H1 _ IH].
  { split_and!; auto; [reflexivity|]. by intros ? ? ? ?%not_elem_of_nil. }
  apply mark_one_spec in H1 as (Hext1 & Hun1 & (k0 & Hk0 & Hdf) & Hwl1 & Hnew1).
  destruct IH as (Hext2 & Hun2 & Hedge & Hwl2 & Hnew2). split_and!.
  - by etrans.
  - lia.
  - intros t' k' df' [[= -> -> ->]|Hin]%elem_of_cons; [|by eapply Hedge].
    exists k0. split; [by eapply extends_entry|done].
  - auto.
  - intros i d [Hd|[Hw (b & Hb)]]%Hnew2.
    + apply Hnew1 in Hd as [?|(-> & -> & Hw)]; [by left|]. right. split; [auto|].
      exists df. apply elem_of_cons. by left.
    + right. split; [done|]. exists b. apply elem_of_cons. by right.
Qed.

(** *** One turn of the loop *)

Section loop.
Context `{Allocator} (limits : VerificationLimits) (gen : bool) (kind : FunctionKind) (hg : bool).

Lemma output_depth_of_Ok v k o :
  output_depth_of limits (decoded v) k = Ok o ↔
  transfer v k = Some o ∧ 0 ≤ o ≤ u32_max ∧ o ≤ max_stack_depth limits.
Proof.
  unfold output_depth_of, transfer.
  destruct (Instruction.stack_effect _) as [effect|e]; simpl; [|naive_solver].
  destruct (Z.ltb_spec k (pops effect)); simpl; [naive_solver|].
  destruct (Z.ltb_spec (max_stack_depth limits) (k - pops effect + pushes effect)); simpl.
  { naive_solver lia. }
  rewrite ok_or_Ok, try_u32_Some. unfold is_u32. unfold u32_max. naive_solver.
Qed.

Lemma extended_depth_Ok d o x r :
  0 ≤ o → 0 ≤ x → max_stack_depth limits ≤ u32_max →
  extended_depth limits d o x = Ok r ↔ r = o + x ∧ o + x ≤ max_stack_depth limits.
Proof.
  intros Ho Hx Hm. unfold extended_depth. split.
  - intros Hr. inv_ok. inv_checked. bool_to_prop.
    match goal with H : try_u32 _ = Some _ |- _ => apply try_u32_Some in H as [-> _] end. done.
  - intros [-> Hle]. rewrite checked_add_u64_fits by solve_ints. simpl.
    destruct (Z.ltb_spec (max_stack_depth limits) (o + x)); [lia|]. simpl.
    rewrite (proj2 (try_u32_Some (o + x) (o + x))); [done|]. split; [done|solve_ints].
Qed.

(** The two optional depths together: the taken edge's depth and the maximum
    it raises. *)
Lemma taken_depths_Ok v o fd bd cm :
  0 ≤ o → max_stack_depth limits ≤ u32_max →
  finally_subroutine_depth limits (decoded v) o = Ok fd →
  with_binding_depth limits (decoded v) o = Ok bd → o ≤ max_stack_depth limits →
  o + extra (opcode_of v) ≤ max_stack_depth limits ∧
  taken_depth fd bd o = o + extra (opcode_of v) ∧
  raise_max (raise_max (Z.max cm o) fd) bd = Z.max cm (o + extra (opcode_of v)).
Proof.
  intros Ho Hm. unfold finally_subroutine_depth, with_binding_depth, extra. fold (opcode_of v).
  destruct (decide (opcode_of v = FinalOpcode.Gosub)) as [Hg|Hg].
  - rewrite Hg. simpl. intros Hf [= <-] Hle. inv_ok. subst fd.
    rename select (extended_depth _ _ _ _ = _) into He. apply extended_depth_Ok in He as [-> ?]; [|lia..].
    simpl. split_and!; lia.
  - intros [= <-]. destruct (Z.eqb_spec (with_branch_values (opcode_of v)) 0) as [->|Hne]; simpl.
    + intros [= <-] Hle. simpl. split_and!; lia.
    + intros Hf Hle. inv_ok. subst bd.
      rename select (extended_depth _ _ _ _ = _) into He.
      assert (0 ≤ with_branch_values (opcode_of v)) by (by destruct (opcode_of v)).
      apply extended_depth_Ok in He as [-> ?]; [|lia..]. simpl. split_and!; lia.
Qed.

Lemma analyze_index_Ok st i st' :
  max_stack_depth limits ≤ u32_max → analyze_index limits gen kind hg st i = Ok st' →
  ∃ v, at_index (analysed st) i = Some v ∧
    match entry_stack_depth v with
    | None => st' = st
    | Some k =>
        ∃ o, transfer v k = Some o ∧ 0 ≤ o ∧ o + extra (opcode_of v) ≤ max_stack_depth limits ∧
          computed_max st' = Z.max (computed_max st) (o + extra (opcode_of v)) ∧
          evaluations st' = evaluations st + 1 ∧ evaluations st' ≤ max_transfer_evaluations limits ∧
          marked (analysed st) (worklist st) (edges gen v o) (analysed st') (worklist st') ∧
          (successors v = VerifiedSuccessors.Terminate →
           check_exit gen kind hg (decoded v) o = Ok tt)
    end.
Proof.
  intros Hm. unfold analyze_index. intros Hi. inv_ok. inv_checked.
  match goal with H : _ !! _ = Some ?x |- _ => rename H into Hv, x into v end.
  exists v. split; [by apply at_index_Some|].
  destruct (entry_stack_depth v) as [k|] eqn:Hk; [|by inv_ok].
  inv_ok. subst st'. simpl.
  rename select (count_evaluation _ _ _ = _) into Hc. unfold count_evaluation in Hc.
  inv_ok. inv_checked. bool_to_prop. subst.
  rename select (output_depth_of _ _ _ = _) into Ho. apply output_depth_of_Ok in Ho as (Ht & Ho & Hle).
  rename select (propagate_successors _ _ _ _ _ _ _ = _) into Hp.
  match goal with Hf : finally_subroutine_depth _ _ ?o = _, Hb : with_binding_depth _ _ _ = _ |- _ =>
    exists o; destruct (taken_depths_Ok v o _ _ (computed_max st) ltac:(lia) Hm Hf Hb Hle)
      as (Hmax & Htd & ->) end.
  rewrite Htd in Hp. match type of Hp with _ = Ok ?s => destruct s as [vs' wl'] end.
  apply propagate_successors_Ok in Hp as [? ?]. simpl. split_and!; (done || lia).
Qed.

(** *** The invariant *)

(** A processed instruction: what the transfer at its depth guarantees. *)
Definition processed (vs : list VerifiedInstruction) (bound : Z) (v : VerifiedInstruction) (k : Z) :
    Prop :=
  ∃ o, transfer v k = Some o ∧ 0 ≤ o ∧ o + extra (opcode_of v) ≤ max_stack_depth limits ∧
    o + extra (opcode_of v) ≤ bound ∧
    (∀ t d df, (t, d, df) ∈ edges gen v o →
       ∃ d0, entry_at vs t = Some d0 ∧ (df = false → d0 = d)) ∧
    (successors v = VerifiedSuccessors.Terminate → check_exit gen kind hg (decoded v) o = Ok tt).

Lemma processed_mono vs vs' b b' v k :
  extends vs vs' → b ≤ b' → processed vs b v k → processed vs' b' v k.
Proof.
  intros He Hb (o & ? & ? & ? & ? & Hed & ?). exists o. split_and!; try done; [lia|].
  intros t d df Hin. destruct (Hed t d df Hin) as (d0 & ? & ?). exists d0.
  split; [by eapply extends_entry|done].
Qed.

(** [processed] and [transfer] read only the code of an instruction. *)
Lemma transfer_code v v' k : decoded v' = decoded v → transfer v' k = transfer v k.
Proof. unfold transfer. by intros ->. Qed.

Lemma edges_code g v v' o :
  decoded v' = decoded v → successors v' = successors v → edges g v' o = edges g v o.
Proof. unfold edges, opcode_of. by intros -> ->. Qed.

Lemma processed_code vs b v v' k :
  decoded v' = decoded v → successors v' = successors v → processed vs b v k → processed vs b v' k.
Proof.
  intros Hd Hs (o & ? & ? & ? & ? & ? & ?). exists o. unfold opcode_of in *.
  rewrite (transfer_code v v'), (edges_code gen v v'), Hd, Hs by done. done.
Qed.

Record analysis_inv (vs0 : list VerifiedInstruction) (st : AnalysisState) : Prop := {
  inv_code : extends vs0 (analysed st);
  inv_done i v k :
    at_index (analysed st) i = Some v → entry_stack_depth v = Some k →
    i ∈ worklist st ∨ processed (analysed st) (computed_max st) v k;
  inv_reach i k : entry_at (analysed st) i = Some k → reaches vs0 i k;
  inv_max :
    computed_max st = 0 ∨ ∃ i k v o, reaches vs0 i k ∧ at_index vs0 i = Some v ∧
      transfer v k = Some o ∧ computed_max st = o + extra (opcode_of v);
  inv_max_pos : 0 ≤ computed_max st;
  inv_evals : evaluations st + Z.of_nat (unset (analysed st) + length (worklist st)) ≤ len vs0 }.

(** Depths recorded by a turn are reachable. *)
Lemma turn_reaches vs0 vs wl vs' wl' i v k o :
  extends vs0 vs → (∀ j d, entry_at vs j = Some d → reaches vs0 j d) →
  at_index vs i = Some v → entry_stack_depth v = Some k → transfer v k = Some o →
  marked vs wl (edges gen v o) vs' wl' →
  (∃ v0, reaches vs0 i k ∧ at_index vs0 i = Some v0 ∧ transfer v0 k = Some o ∧
         opcode_of v0 = opcode_of v) ∧
  ∀ j d, entry_at vs' j = Some d → reaches vs0 j d.
Proof.
  intros Hcode Hreach Hv Hk Ht Hm.
  assert (reaches vs0 i k) as Hr by (apply Hreach; unfold entry_at; by rewrite Hv).
  destruct (extends_back _ _ _ _ Hcode Hv) as (v0 & Hv0 & Hd & Hs).
  assert (transfer v0 k = Some o) as Ht0 by (by rewrite <- (transfer_code v0 v)).
  split; [exists v0; unfold opcode_of; by rewrite Hd|].
  apply marked_spec in Hm as (_ & _ & _ & _ & Hnew).
  intros j d [?|[_ (df & Hin)]]%Hnew; [by apply Hreach|].
  apply edges_generated in Hin as [df' Hin]. rewrite (edges_code false v0 v) in Hin by done.
  by eapply reaches_edge.
Qed.

(** A turn processes its instruction and keeps the others' obligations. *)
Lemma turn_done vs wl vs' wl' ix v k o cm :
  at_index vs ix = Some v → entry_stack_depth v = Some k → transfer v k = Some o → 0 ≤ o →
  o + extra (opcode_of v) ≤ max_stack_depth limits →
  marked vs wl (edges gen v o) vs' wl' →
  (successors v = VerifiedSuccessors.Terminate → check_exit gen kind hg (decoded v) o = Ok tt) →
  (∀ i w d, at_index vs i = Some w → entry_stack_depth w = Some d →
     i ∈ ix :: wl ∨ processed vs cm w d) →
  ∀ i w d, at_index vs' i = Some w → entry_stack_depth w = Some d →
    i ∈ wl' ∨ processed vs' (Z.max cm (o + extra (opcode_of v))) w d.
Proof.
  intros Hv Hk Ht Ho Hlim Hm Hexit Hdone i w d Hw Hd.
  apply marked_spec in Hm as (Hext & _ & Hedge & Hsub & Hnew).
  assert (entry_at vs' i = Some d) as [He|[Hin _]]%Hnew by (unfold entry_at; by rewrite Hw);
    [|by left].
  apply bind_Some in He as (w0 & Hw0 & Hd0).
  destruct (proj2 Hext i w0 Hw0) as (w' & Hw' & Hdec & Hsuc & _). simplify_eq.
  destruct (Hdone i w0 d Hw0 Hd0) as [Hin|Hp].
  - apply elem_of_cons in Hin as [->|Hin]; [|by left; apply Hsub]. right.
    assert (w0 = v) as -> by congruence. assert (d = k) as -> by congruence.
    apply (processed_code _ _ v); [done..|]. exists o. split_and!; (done || lia).
  - right. apply (processed_code _ _ w0); [done..|].
    eapply processed_mono; [done| |done]. lia.
Qed.

Lemma turn_preserves vs0 ix rest st st' :
  max_stack_depth limits ≤ u32_max → worklist st = ix :: rest → analysis_inv vs0 st →
  analyze_index limits gen kind hg
    (mkAnalysis (analysed st) rest (computed_max st) (evaluations st)) ix = Ok st' →
  analysis_inv vs0 st' ∧
  (unset (analysed st') + length (worklist st') + 1 = unset (analysed st) + length (worklist st))%nat.
Proof.
  intros Hml Hwl [Hcode Hdone Hreach Hmax Hpos Hev] (v & Hv & Hturn)%analyze_index_Ok; [|done].
  rewrite Hwl in *. simpl in *. destruct (entry_stack_depth v) as [k|] eqn:Hk.
  - destruct Hturn as (o & Ht & Ho & Hlim & Hcm & Heq & Hle & Hm & Hexit).
    destruct (turn_reaches vs0 _ _ _ _ ix v k o Hcode Hreach Hv Hk Ht Hm)
      as [(v0 & Hr0 & Hv0 & Ht0 & Hop) Hreach'].
    pose proof (turn_done _ _ _ _ _ _ _ _ _ Hv Hk Ht Ho Hlim Hm Hexit Hdone) as Hdone'.
    apply marked_spec in Hm as (Hext & Hun & _). pose proof (extra_bound (opcode_of v)).
    split; [|lia]. constructor; [by etrans|by rewrite Hcm|done| |lia|lia].
    destruct (Z.max_spec (computed_max st) (o + extra (opcode_of v))) as [[_ E]|[_ E]];
      rewrite Hcm, E; [|done]. right. exists ix, k, v0, o. by rewrite Hop.
  - subst st'. simpl. split; [|lia]. constructor; simpl; try done; [|lia].
    intros i w d Hw Hd. destruct (Hdone i w d Hw Hd) as [Hin|]; [|by right].
    apply elem_of_cons in Hin as [->|]; [|by left]. congruence.
Qed.

(** The loop keeps the invariant and empties the queue. *)
Lemma analyze_loop_drains vs0 fuel : ∀ st st',
  max_stack_depth limits ≤ u32_max → analysis_inv vs0 st →
  (unset (analysed st) + length (worklist st) ≤ fuel)%nat →
  analyze_loop limits gen kind hg fuel st = Ok st' →
  analysis_inv vs0 st' ∧ worklist st' = [].
Proof.
  induction fuel as [|fuel IH]; intros st st' Hml Hinv Hf; simpl.
  { intros [= <-]. split; [done|]. destruct (worklist st); [done|]. simpl in Hf. lia. }
  destruct (worklist st) as [|ix rest] eqn:Hwl; [by intros [= <-]|].
  intros (st1 & Hst1 & Hrest)%bind_Ok.
  destruct (turn_preserves vs0 ix rest st st1 Hml Hwl Hinv Hst1) as [Hinv1 Hm].
  eapply IH; [done..| |done]. rewrite Hwl in Hm. simpl in *. lia.
Qed.

(** More fuel than queued and unknown entries changes nothing. *)
Lemma analyze_loop_fuel vs0 fuel : ∀ fuel' st,
  max_stack_depth limits ≤ u32_max → analysis_inv vs0 st →
  (unset (analysed st) + length (worklist st) ≤ fuel)%nat → (fuel ≤ fuel')%nat →
  analyze_loop limits gen kind hg fuel' st = analyze_loop limits gen kind hg fuel st.
Proof.
  induction fuel as [|fuel IH]; intros fuel' st Hml Hinv Hf Hle.
  { destruct (worklist st) as [|ix rest] eqn:Hwl; [|simpl in Hf; lia].
    destruct fuel'; simpl; by rewrite ?Hwl. }
  destruct fuel' as [|fuel']; [lia|]. simpl.
  destruct (worklist st) as [|ix rest] eqn:Hwl; [done|].
  destruct (analyze_index _ _ _ _ _ _) as [st1|e] eqn:Hst1; [|done]. simpl.
  destruct (turn_preserves vs0 ix rest st st1 Hml Hwl Hinv Hst1) as [Hinv1 Hm].
  rewrite Hwl in Hm. simpl in *. apply IH; [done|done|lia..].
Qed.
End loop.

Lemma unset_le vs : (unset vs ≤ length vs)%nat.
Proof. unfold unset. apply length_filter. Qed.

Lemma reaches_entry_code v rest i k :
  reaches (set_entry_depth v 0 :: rest) i k → reaches (v :: rest) i k.
Proof.
  induction 1 as [|i k w o j d df _ IH Hw Ht Hin]; [constructor|].
  apply at_index_Some in Hw as [Hi Hw]. destruct (Z.to_nat i) eqn:E; simplify_eq/=.
  - eapply (reaches_edge _ i k v); [done| |done|done]. apply at_index_Some. by rewrite E.
  - eapply (reaches_edge _ i k w); [done| |done|done]. apply at_index_Some. by rewrite E.
Qed.

Lemma transfer_nonneg v k o : transfer v k = Some o → 0 ≤ o.
Proof.
  unfold transfer. destruct (Instruction.stack_effect _) as [e|] eqn:He; [|done].
  destruct (Z.ltb_spec k (pops e)); [done|]. intros [= <-].
  assert (0 ≤ pushes e); [|lia]. unfold Instruction.stack_effect in He.
  destruct (Instruction.is_derived_define_class _); [inv_ok; by subst e|].
  by eapply OpcodeFacts.stack_effect_pushes.
Qed.

(** *** The certificate *)

(** What the analysis of [instructions] establishes. *)
Record certified (limits : VerificationLimits) (gen : bool) (kind : FunctionKind)
    (instructions : list VerifiedInstruction) (c : StackCertificate) : Prop := {
  certified_decoded : decoded <$> certificate_instructions c = decoded <$> instructions;
  certified_successors : successors <$> certificate_instructions c = successors <$> instructions;
  certified_entry : entry_at (certificate_instructions c) 0 = Some 0;
  certified_processed i v k :
    at_index (certificate_instructions c) i = Some v → entry_stack_depth v = Some k →
    processed limits gen kind
      (existsb (λ v, bool_decide (opcode_of v = FinalOpcode.Gosub)) instructions)
      (certificate_instructions c) (certificate_stack_size c) v k;
  certified_reach i k : entry_at (certificate_instructions c) i = Some k → reaches instructions i k;
  certified_size :
    certificate_stack_size c = 0 ∨ ∃ i k v o, reaches instructions i k ∧
      at_index instructions i = Some v ∧ transfer v k = Some o ∧
      certificate_stack_size c = o + extra (opcode_of v);
  certified_size_pos : 0 ≤ certificate_stack_size c;
  certified_evaluations : certificate_evaluations c ≤ len instructions }.

Lemma extends_fmap {B} (f : VerifiedInstruction → B) vs vs' :
  (∀ v v', decoded v' = decoded v → successors v' = successors v → f v' = f v) →
  extends vs vs' → f <$> vs' = f <$> vs.
Proof.
  intros Hf [Hl He]. apply list_eq. intros i. rewrite !list_lookup_fmap.
  destruct (vs !! i) as [v|] eqn:Hv.
  - destruct (He (Z.of_nat i) v) as (v' & Hv' & ? & ? & _).
    { apply at_index_Some. rewrite Nat2Z.id. split; [lia|done]. }
    apply at_index_Some in Hv' as [_ Hv']. rewrite Nat2Z.id in Hv'. rewrite Hv'. simpl.
    f_equal. by apply Hf.
  - apply lookup_ge_None in Hv. by rewrite (proj2 (lookup_ge_None vs' i)) by lia.
Qed.

Lemma initial_entries entry rest i v k :
  Forall (λ v, entry_stack_depth v = None) (entry :: rest) →
  at_index (set_entry_depth entry 0 :: rest) i = Some v → entry_stack_depth v = Some k →
  i = 0 ∧ k = 0.
Proof.
  intros [Hent Hrest]%Forall_cons_1 [Hi Hv]%at_index_Some Hk.
  destruct (Z.to_nat i) as [|n] eqn:E; simplify_eq/=; [split; lia|].
  rewrite (Forall_lookup_1 _ _ _ _ Hrest Hv) in Hk. done.
Qed.

Lemma initial_inv limits gen kind hg entry rest :
  Forall (λ v, entry_stack_depth v = None) (entry :: rest) →
  analysis_inv limits gen kind hg (set_entry_depth entry 0 :: rest)
    (mkAnalysis (set_entry_depth entry 0 :: rest) [0] 0 0).
Proof.
  intros Hnone. pose proof (λ i v k, initial_entries entry rest i v k Hnone) as Honly.
  constructor; simpl.
  - reflexivity.
  - intros i v k Hv Hk. left. destruct (Honly i v k Hv Hk) as [-> _]. by apply elem_of_cons; left.
  - intros i k (v & Hv & Hk)%bind_Some. destruct (Honly i v k Hv Hk) as [-> ->]. constructor.
  - by left.
  - done.
  - pose proof (unset_le rest). unfold unset, len in *. rewrite filter_cons.
    rewrite decide_False by done. simpl. lia.
Qed.

Lemma existsb_entry entry rest :
  existsb (λ v, bool_decide (opcode_of v = FinalOpcode.Gosub)) (set_entry_depth entry 0 :: rest)
  = existsb (λ v, bool_decide (opcode_of v = FinalOpcode.Gosub)) (entry :: rest).
Proof. done. Qed.

Lemma analyze_certified `{Allocator} s limits gen c :
  Forall (λ v, entry_stack_depth v = None) (structural_instructions s) →
  max_stack_depth limits ≤ u32_max →
  analyze_ordinary_stack s limits gen = Ok c →
  certified limits gen (function_kind s) (structural_instructions s) c.
Proof.
  intros Hnone Hml. unfold analyze_ordinary_stack.
  destruct (structural_instructions s) as [|entry rest] eqn:Hs; [done|].
  rewrite existsb_entry. intros Hc. inv_ok. subst c.
  rename select (analyze_loop _ _ _ _ _ _ = _) into Hloop.
  pose proof (initial_inv limits gen (function_kind s)
    (existsb (λ v, bool_decide (opcode_of v = FinalOpcode.Gosub)) (entry :: rest))
    entry rest Hnone) as Hinit.
  eapply analyze_loop_drains in Hloop as [[Hcode Hdone Hreach Hmax Hpos Hev] Hwl];
    [|done|exact Hinit|]; last first.
  { simpl. pose proof (unset_le rest). unfold unset in *. rewrite filter_cons.
    rewrite decide_False by done. lia. }
  constructor; simpl.
  - rewrite (extends_fmap decoded _ _ (λ v v' E _, E) Hcode). done.
  - rewrite (extends_fmap successors _ _ (λ v v' _ E, E) Hcode). done.
  - by eapply extends_entry.
  - intros i v k Hv Hk. destruct (Hdone i v k Hv Hk) as [Hin|]; [|done].
    rewrite Hwl in Hin. by apply not_elem_of_nil in Hin.
  - intros i k Hk. by apply reaches_entry_code, Hreach.
  - destruct Hmax as [?|(i & k & v & o & Hr & Hv & Ht & E)]; [by left|]. right.
    apply reaches_entry_code in Hr. apply at_index_Some in Hv as [Hi Hv].
    destruct (Z.to_nat i) as [|n] eqn:Ei; simplify_eq/=.
    + exists i, k, entry, o. split_and!; try done. apply at_index_Some. by rewrite Ei.
    + exists i, k, v, o. split_and!; try done. apply at_index_Some. by rewrite Ei.
  - done.
  - rewrite Hwl in Hev. simpl in Hev. unfold len in *. simpl in *. lia.
Qed.

(** *** Completeness *)

(** A consistent assignment of entry depths to instructions: the entry has
    depth zero, an instruction has at most one depth, and the transfer from an
    assigned depth is safe and leads to assigned depths. *)
Record assignment (limits : VerificationLimits) (gen : bool) (kind : FunctionKind) (hg : bool)
    (vs : list VerifiedInstruction) (A : Z → Z → Prop) : Prop := {
  assigned_entry : A 0 0;
  assigned_unique i k k' : A i k → A i k' → k = k';
  assigned_step i v k :
    at_index vs i = Some v → A i k →
    ∃ o, transfer v k = Some o ∧ o + extra (opcode_of v) ≤ max_stack_depth limits ∧
      (∀ t d df, (t, d, df) ∈ edges false v o → A t d ∧ 0 ≤ t < len vs) ∧
      (successors v = VerifiedSuccessors.Terminate → check_exit gen kind hg (decoded v) o = Ok tt) }.

Section completeness.
Context `{GenerousAllocator} (limits : VerificationLimits) (gen : bool) (kind : FunctionKind)
  (hg : bool) (vs0 : list VerifiedInstruction) (A : Z → Z → Prop).
Context (HA : assignment limits gen kind hg vs0 A) (Hml : max_stack_depth limits ≤ u32_max)
  (Hu : len vs0 ≤ u32_max) (Hbudget : len vs0 ≤ max_transfer_evaluations limits).

Definition agrees (vs : list VerifiedInstruction) : Prop :=
  ∀ i k, entry_at vs i = Some k → A i k.

Lemma propagate_succeeds vs wl t d src df :
  agrees vs → A t d → 0 ≤ t < len vs → len vs ≤ u32_max →
  ∃ vs' wl', propagate_stack_depth (vs, wl) t d src df = Ok (vs', wl') ∧ agrees vs' ∧
    extends vs vs' ∧ (wl' = wl ∨ wl' = wl ++ [t]).
Proof.
  intros Hag HAt Ht Hlen. unfold propagate_stack_depth.
  rewrite try_usize_u32 by solve_ints. simpl.
  destruct (proj2 (at_index_is_Some vs t) Ht) as [v Hv].
  pose proof Hv as [_ Hv']%at_index_Some. rewrite Hv'. simpl.
  destruct (entry_stack_depth v) as [k|] eqn:Hk.
  - assert (A t k) as HAk by (apply Hag; unfold entry_at; by rewrite Hv).
    rewrite (assigned_unique _ _ _ _ _ _ HA _ _ _ HAk HAt), Z.eqb_refl. exists vs, wl. split_and!; auto. reflexivity.
  - unfold reserve_worklist_entry. rewrite reserve_generous. simpl. do 2 eexists. split; [done|].
    assert (mark_one vs wl (t, d, df)
      (<[Z.to_nat t := set_entry_depth v d]> vs) (wl ++ [t])) as Hm by (right; by exists v).
    apply mark_one_spec in Hm as (? & _ & _ & _ & Hnew). split_and!; [|done|by right].
    intros i k [?|(-> & -> & _)]%Hnew; [by apply Hag|done].
Qed.

Definition in_range (x : Z) : Prop := 0 ≤ x < len vs0.

Lemma propagate_successors_succeeds vs wl v o :
  agrees vs → len vs = len vs0 → Forall in_range wl →
  (∀ t d df, (t, d, df) ∈ edges false v o → A t d ∧ 0 ≤ t < len vs0) →
  (successors v = VerifiedSuccessors.Terminate → check_exit gen kind hg (decoded v) o = Ok tt) →
  ∃ vs' wl', propagate_successors gen kind hg (vs, wl) v o (o + extra (opcode_of v))
    = Ok (vs', wl') ∧ agrees vs' ∧ Forall in_range wl'.
Proof.
  intros Hag Hlen Hwl Hed Hex. unfold propagate_successors, edges in *.
  destruct (successors v) as [t|t n|t|].
  1,3: destruct (Hed t o false) as [HAt Ht]; [by apply elem_of_cons; left|];
    destruct (propagate_succeeds vs wl t o (decoded v) false Hag HAt) as (vs' & wl' & Hp & ? & _ & Hor);
    [lia|lia|]; exists vs', wl'; (split_and!; [done|done|]); destruct Hor as [->| ->];
    [done|by apply Forall_app; split; [|apply Forall_singleton]].
  - destruct (Hed t (o + extra (opcode_of v)) false) as [HAt Ht]; [by apply elem_of_cons; left|].
    destruct (Hed n o false) as [HAn Hn]; [by apply elem_of_cons; right; apply elem_of_cons; left|].
    destruct (propagate_succeeds vs wl t _ (decoded v)
      (gen && bool_decide (opcode_of v = FinalOpcode.Gosub)) Hag HAt)
      as (vs1 & wl1 & -> & Hag1 & [Hl1 _] & Hor1); [lia|lia|]. cbn [mbind result_bind].
    destruct (propagate_succeeds vs1 wl1 n o (decoded v) false Hag1 HAn)
      as (vs2 & wl2 & -> & Hag2 & _ & Hor2); [unfold len in *; lia..|].
    do 2 eexists. split_and!; [done|done|].
    destruct Hor1 as [->| ->], Hor2 as [->| ->]; rewrite ?Forall_app, ?Forall_singleton; done.
  - rewrite Hex by done. simpl. by exists vs, wl.
Qed.

Lemma extended_succeeds d o x :
  0 ≤ o → 0 ≤ x → o + x ≤ max_stack_depth limits → extended_depth limits d o x = Ok (o + x).
Proof. intros. by apply extended_depth_Ok. Qed.

Lemma optional_depths_succeed v o :
  0 ≤ o → o + extra (opcode_of v) ≤ max_stack_depth limits →
  ∃ fd bd, finally_subroutine_depth limits (decoded v) o = Ok fd ∧
           with_binding_depth limits (decoded v) o = Ok bd.
Proof.
  intros Ho Hle. unfold finally_subroutine_depth, with_binding_depth, extra in *. fold (opcode_of v).
  destruct (decide (opcode_of v = FinalOpcode.Gosub)) as [Hg|Hg].
  - rewrite Hg, extended_succeeds by lia. by do 2 eexists.
  - assert (0 ≤ with_branch_values (opcode_of v)) by (by destruct (opcode_of v)).
    destruct (Z.eqb_spec (with_branch_values (opcode_of v)) 0); simpl; [by do 2 eexists|].
    rewrite extended_succeeds by lia. by do 2 eexists.
Qed.

Lemma turn_succeeds st ix :
  extends vs0 (analysed st) → agrees (analysed st) → Forall in_range (worklist st) →
  in_range ix → 0 ≤ evaluations st → evaluations st + 1 ≤ len vs0 →
  ∃ st', analyze_index limits gen kind hg st ix = Ok st' ∧
    agrees (analysed st') ∧ Forall in_range (worklist st') ∧ 0 ≤ evaluations st'.
Proof.
  intros Hcode Hag Hwl Hix Hev0 Hev.
  pose proof Hcode as [Hlen _]. unfold in_range in Hix.
  destruct (proj2 (at_index_is_Some (analysed st) ix)) as [v Hv]; [unfold len in *; lia|].
  pose proof Hv as [_ Hv']%at_index_Some. unfold analyze_index.
  rewrite try_usize_u32 by solve_ints. simpl. rewrite Hv'. simpl.
  destruct (entry_stack_depth v) as [k|] eqn:Hk; [|by exists st].
  destruct (extends_back _ _ _ _ Hcode Hv) as (v0 & Hv0 & Hd & Hs).
  assert (A ix k) as HAk by (apply Hag; unfold entry_at; by rewrite Hv).
  destruct (assigned_step _ _ _ _ _ _ HA ix v0 k Hv0 HAk) as (o & Ht & Hlim & Hed & Hex).
  pose proof (transfer_nonneg _ _ _ Ht) as Ho. pose proof (extra_bound (opcode_of v0)).
  rewrite <- (transfer_code v0 v k Hd) in Ht. rewrite <- Hd, <- Hs in Hex.
  setoid_rewrite <- (edges_code false v0 v o Hd Hs) in Hed.
  assert (opcode_of v0 = opcode_of v) as Hop by (unfold opcode_of; by rewrite Hd).
  rewrite Hop in *.
  unfold count_evaluation. rewrite checked_add_u64_fits by solve_ints. simpl.
  destruct (Z.ltb_spec (max_transfer_evaluations limits) (evaluations st + 1)); [lia|]. simpl.
  rewrite (proj2 (output_depth_of_Ok limits v k o)) by (split_and!; solve [done|lia]). simpl.
  destruct (optional_depths_succeed v o Ho Hlim) as (fd & bd & Hfd & Hbd). rewrite Hfd. simpl.
  rewrite Hbd. simpl.
  destruct (taken_depths_Ok limits v o fd bd 0 Ho Hml Hfd Hbd ltac:(lia)) as (_ & -> & _).
  destruct (propagate_successors_succeeds (analysed st) (worklist st) v o)
    as (vs' & wl' & -> & ? & ?); [done|unfold len in *; lia|done|done|done|].
  simpl. eexists. split; [done|]. simpl. split_and!; [done|done|lia].
Qed.

Lemma analyze_loop_succeeds fuel : ∀ st,
  analysis_inv limits gen kind hg vs0 st → agrees (analysed st) → Forall in_range (worklist st) →
  0 ≤ evaluations st → ∃ st', analyze_loop limits gen kind hg fuel st = Ok st'.
Proof.
  induction fuel as [|fuel IH]; intros st Hinv Hag Hwl Hev; simpl; [by eexists|].
  destruct (worklist st) as [|ix rest] eqn:Ewl; [by eexists|].
  apply Forall_cons_1 in Hwl as [Hix Hrest].
  destruct (turn_succeeds (mkAnalysis (analysed st) rest (computed_max st) (evaluations st)) ix)
    as (st' & Hst' & ? & ? & ?); [by destruct Hinv|done|done|done|done| |].
  { pose proof (inv_evals _ _ _ _ _ _ Hinv) as He. rewrite Ewl in He. simpl in *. lia. }
  rewrite Hst'. simpl. apply IH; [|done..].
  by destruct (turn_preserves limits gen kind hg vs0 ix rest st st' Hml Ewl Hinv Hst').
Qed.
End completeness.

Lemma assignment_entry limits gen kind hg entry rest A :
  assignment limits gen kind hg (entry :: rest) A →
  assignment limits gen kind hg (set_entry_depth entry 0 :: rest) A.
Proof.
  intros [H0 Huniq Hstep]. split; [done|done|]. intros i v k [Hi Hv]%at_index_Some HAi.
  destruct (Z.to_nat i) as [|n] eqn:E; simplify_eq/=.
  - apply (Hstep i entry k); [|done]. apply at_index_Some. by rewrite E.
  - apply (Hstep i v k); [|done]. apply at_index_Some. by rewrite E.
Qed.

Lemma analyze_complete `{GenerousAllocator} s limits gen A :
  let vs := structural_instructions s in
  Forall (λ v, entry_stack_depth v = None) vs → vs ≠ [] →
  max_stack_depth limits ≤ u32_max → len vs ≤ u32_max → len vs ≤ max_transfer_evaluations limits →
  assignment limits gen (function_kind s)
    (existsb (λ v, bool_decide (opcode_of v = FinalOpcode.Gosub)) vs) vs A →
  ∃ c, analyze_ordinary_stack s limits gen = Ok c.
Proof.
  intros vs Hnone Hne Hml Hlen Hbud HA. unfold analyze_ordinary_stack. subst vs.
  destruct (structural_instructions s) as [|entry rest]; [done|].
  unfold reserve_worklist_entry. rewrite reserve_generous. cbn [mbind result_bind].
  rewrite existsb_entry. apply assignment_entry in HA.
  pose proof (initial_inv limits gen (function_kind s)
    (existsb (λ v, bool_decide (opcode_of v = FinalOpcode.Gosub)) (entry :: rest))
    entry rest Hnone) as Hinit.
  destruct (analyze_loop_succeeds limits gen (function_kind s) _ (set_entry_depth entry 0 :: rest)
    A HA Hml Hlen Hbud (length (set_entry_depth entry 0 :: rest)) _ Hinit) as [st ->]; [| | |by eexists].
  - intros i k (v & Hv & Hk)%bind_Some.
    destruct (initial_entries _ _ _ _ _ Hnone Hv Hk) as [-> ->].
    apply (assigned_entry _ _ _ _ _ _ HA).
  - apply Forall_singleton. unfold in_range, len. simpl. lia.
  - done.
Qed.

Lemma certified_code limits gen kind vs c i v0 v :
  certified limits gen kind vs c → at_index vs i = Some v0 →
  at_index (certificate_instructions c) i = Some v →
  decoded v = decoded v0 ∧ successors v = successors v0.
Proof.
  intros Hc [_ Hv0]%at_index_Some [_ Hv]%at_index_Some.
  pose proof (f_equal (.!! Z.to_nat i) (certified_decoded _ _ _ _ _ Hc)) as E1.
  pose proof (f_equal (.!! Z.to_nat i) (certified_successors _ _ _ _ _ Hc)) as E2.
  rewrite !list_lookup_fmap, Hv, Hv0 in E1. rewrite !list_lookup_fmap, Hv, Hv0 in E2.
  simpl in *. by simplify_eq.
Qed.

Lemma certified_assignment limits kind vs c :
  certified limits false kind vs c →
  assignment limits false kind (existsb (λ v, bool_decide (opcode_of v = FinalOpcode.Gosub)) vs)
    vs (λ i k, entry_at (certificate_instructions c) i = Some k).
Proof.
  intros Hcert. pose proof Hcert as [Hdec Hsuc Hent Hproc _ _ _ _].
  split; [done|intros; congruence|]. intros i v0 k Hv0 (v & Hv & Hk)%bind_Some.
  destruct (certified_code _ _ _ _ _ _ _ _ Hcert Hv0 Hv) as [Hd Hs].
  destruct (Hproc i v k Hv Hk) as (o & Ht & _ & Hlim & _ & Hed & Hex). exists o.
  unfold opcode_of in Hlim. rewrite Hd in Hlim, Hex. rewrite Hs in Hex.
  split_and!; [by rewrite <- (transfer_code v0 v)|done| |done]. intros t d df Hin.
  rewrite <- (edges_code false v0 v) in Hin by done.
  assert (df = false) as ->.
  { unfold edges in Hin. destruct (successors v);
      repeat (apply elem_of_cons in Hin as [Hin|Hin]); try (by apply not_elem_of_nil in Hin);
      injection Hin; naive_solver. }
  destruct (Hed t d false Hin) as (d0 & He & Heq). rewrite (Heq eq_refl) in He. split; [done|].
  apply bind_Some in He as (w & Hw%at_index_range & _). unfold len in *.
  apply (f_equal length) in Hdec. rewrite !length_fmap in Hdec. lia.
Qed.

Lemma assignment_reaches limits kind hg vs A i k :
  assignment limits false kind hg vs A → reaches vs i k → A i k.
Proof.
  intros [H0 _ Hstep]. induction 1 as [|i k v o j d df _ IH Hv Ht Hin]; [done|].
  destruct (Hstep i v k Hv IH) as (o' & Ht' & _ & Hed & _). simplify_eq. by eapply Hed.
Qed.

(** The depths and the size of a serialized certificate are those of the
    paths. *)
Lemma certified_exact limits kind vs c :
  certified limits false kind vs c →
  (∀ i k, entry_at (certificate_instructions c) i = Some k ↔ reaches vs i k) ∧
  (∀ i k v o, reaches vs i k → at_index vs i = Some v → transfer v k = Some o →
     o + extra (opcode_of v) ≤ certificate_stack_size c) ∧
  (certificate_stack_size c = 0 ∨
   ∃ i k v o, reaches vs i k ∧ at_index vs i = Some v ∧ transfer v k = Some o ∧
     certificate_stack_size c = o + extra (opcode_of v)).
Proof.
  intros Hc. pose proof (certified_assignment _ _ _ _ Hc) as HA. split_and!.
  - intros i k. split; [apply (certified_reach _ _ _ _ _ Hc)|].
    intros Hr. exact (assignment_reaches _ _ _ _ _ _ _ HA Hr).
  - intros i k v0 o Hr Hv0 Ht. pose proof (assignment_reaches _ _ _ _ _ _ _ HA Hr) as He.
    apply bind_Some in He as (v & Hv & Hk).
    destruct (certified_code _ _ _ _ _ _ _ _ Hc Hv0 Hv) as [Hd Hs].
    destruct (certified_processed _ _ _ _ _ Hc i v k Hv Hk) as (o' & Ht' & _ & _ & Hle & _).
    rewrite (transfer_code v0 v) in Ht' by done. simplify_eq. unfold opcode_of in *.
    by rewrite <- Hd.
  - apply (certified_size _ _ _ _ _ Hc).
Qed.

Lemma certified_paths limits kind vs c :
  certified limits false kind vs c →
  (∀ i k v, reaches vs i k → at_index vs i = Some v →
     ∃ o, transfer v k = Some o ∧ o + extra (opcode_of v) ≤ max_stack_depth limits ∧
       ∀ t d df, (t, d, df) ∈ edges false v o → 0 ≤ t < len vs) ∧
  (∀ i k k', reaches vs i k → reaches vs i k' → k = k').
Proof.
  intros HA%certified_assignment. split.
  - intros i k v Hr Hv. apply (assignment_reaches _ _ _ _ _ _ _ HA) in Hr.
    destruct (assigned_step _ _ _ _ _ _ HA i v k Hv Hr) as (o & ? & ? & Hed & _).
    exists o. split_and!; try done. intros t d df Hin. by destruct (Hed t d df Hin).
  - intros i k k' Hr Hr'. eapply (assigned_unique _ _ _ _ _ _ HA);
      by apply (assignment_reaches _ _ _ _ _ _ _ HA).
Qed.

(** The analysis of a serialized body accepts exactly the graphs whose paths
    are safe and agree. *)
Lemma analyze_exact `{GenerousAllocator} s limits :
  let vs := structural_instructions s in
  Forall (λ v, entry_stack_depth v = None) vs → vs ≠ [] →
  max_stack_depth limits ≤ u32_max → len vs ≤ u32_max → len vs ≤ max_transfer_evaluations limits →
  (∃ c, analyze_ordinary_stack s limits false = Ok c) ↔
  (∀ i k v, reaches vs i k → at_index vs i = Some v →
     ∃ o, transfer v k = Some o ∧ o + extra (opcode_of v) ≤ max_stack_depth limits ∧
       ∀ t d df, (t, d, df) ∈ edges false v o → 0 ≤ t < len vs) ∧
  (∀ i k k', reaches vs i k → reaches vs i k' → k = k').
Proof.
  intros vs Hnone Hne Hml Hlen Hbud. split.
  - intros [c Hc]. apply analyze_certified in Hc; [|done..]. by eapply certified_paths.
  - intros [Hsafe Huniq]. eapply (analyze_complete s limits false (reaches vs)); try done.
    split; [constructor|done|]. intros i v k Hv Hr.
    destruct (Hsafe i k v Hr Hv) as (o & ? & ? & Hed). exists o. split_and!; try done.
    intros t d df Hin. split; [by eapply reaches_edge|by eapply Hed].
Qed.
End StackFacts.

(** ** Properties of the dataflow *)

Section properties.
Import StackFacts.

(** The worklist loop terminates: from the initial state, any fuel of at
    least the number of instructions gives the same outcome, and a successful
    outcome has an empty queue, so the fuel stands for the unbounded loop of
    the source; each instruction is evaluated at most once, so the count of
    evaluations never exceeds the number of instructions. *)
Theorem stack_analysis_terminates (a : Allocator) (limits : VerificationLimits) (gen : bool)
    (kind : FunctionKind) (hg : bool) (entry : VerifiedInstruction)
    (rest : list VerifiedInstruction) (fuel : nat)
    (Hnone : Forall (λ v, entry_stack_depth v = None) (entry :: rest))
    (Hml : max_stack_depth limits ≤ u32_max) (Hfuel : (length (entry :: rest) ≤ fuel)%nat) :
  let st0 := mkAnalysis (set_entry_depth entry 0 :: rest) [0] 0 0 in
  analyze_loop limits gen kind hg fuel st0
    = analyze_loop limits gen kind hg (length (entry :: rest)) st0 ∧
  ∀ st, analyze_loop limits gen kind hg fuel st0 = Ok st →
    worklist st = [] ∧ evaluations st ≤ len (entry :: rest).
Proof.
  intros st0. pose proof (initial_inv limits gen kind hg entry rest Hnone) as Hinit.
  assert (unset (analysed st0) + length (worklist st0) ≤ length (entry :: rest))%nat as Hm.
  { pose proof (inv_evals _ _ _ _ _ _ Hinit) as He. unfold len in He. simpl in *. lia. }
  split; [by apply (analyze_loop_fuel _ _ _ _ _ _ _ _ Hml Hinit)|]. intros st Hst.
  destruct (analyze_loop_drains _ _ _ _ _ _ _ _ Hml Hinit (Nat.le_trans _ _ _ Hm Hfuel) Hst)
    as [Hinv Hwl].
  split; [done|]. pose proof (inv_evals _ _ _ _ _ _ Hinv). rewrite Hwl in *. unfold len in *.
  simpl in *. lia.
Qed.

Lemma stack_analysis_terminates_witness :
  ∃ st, @analyze_loop always_allocates UNTRUSTED false FunctionKind.Normal false 7
          (mkAnalysis [mkVerifiedInstruction
             (mkDecoded 0 (Instruction.mk FinalOpcode.ReturnUndef Operands.None) 1)
             (Some 0) VerifiedSuccessors.Terminate] [0] 0 0) = Ok st ∧ worklist st = [].
Proof.
  set (entry := mkVerifiedInstruction
    (mkDecoded 0 (Instruction.mk FinalOpcode.ReturnUndef Operands.None) 1) None
    VerifiedSuccessors.Terminate).
  destruct (stack_analysis_terminates always_allocates UNTRUSTED false FunctionKind.Normal false
    entry [] 7) as [_ Hdrain].
  - apply Forall_cons_2; [reflexivity|apply Forall_nil_2].
  - vm_compute; discriminate.
  - simpl. lia.
  - eexists. split; [vm_compute; reflexivity|]. apply Hdrain. vm_compute. reflexivity.
Defined.

(** The dataflow check is exact for serialized bodies: with memory and
    evaluation budget available, the analysis accepts a control-flow graph if
    and only if no path from the entry underflows, exceeds the stack limit or
    leaves the body, and all paths to an instruction reach it with the same
    depth. *)
Theorem stack_analysis_exact (a : Allocator) (Ha : GenerousAllocator)
    (s : StructurallyVerifiedControlFlow) (limits : VerificationLimits)
    (Hnone : Forall (λ v, entry_stack_depth v = None) (structural_instructions s))
    (Hne : structural_instructions s ≠ []) (Hml : max_stack_depth limits ≤ u32_max)
    (Hlen : len (structural_instructions s) ≤ u32_max)
    (Hbudget : len (structural_instructions s) ≤ max_transfer_evaluations limits) :
  (∃ c, analyze_ordinary_stack s limits false = Ok c) ↔
  (∀ i k v, reaches (structural_instructions s) i k →
     at_index (structural_instructions s) i = Some v →
     ∃ o, transfer v k = Some o ∧ o + extra (opcode_of v) ≤ max_stack_depth limits ∧
       ∀ t d df, (t, d, df) ∈ edges false v o → 0 ≤ t < len (structural_instructions s)) ∧
  (∀ i k k', reaches (structural_instructions s) i k → reaches (structural_instructions s) i k' →
     k = k').
Proof. by apply analyze_exact. Qed.

(** The depths of the demonstration loop. *)
Definition demo_loop_certificate : StackCertificate :=
  mkStackCertificate
    [mkVerifiedInstruction (mkDecoded 0 (Instruction.mk FinalOpcode.Push0 Operands.NoneInt) 1)
       (Some 0) (VerifiedSuccessors.Fallthrough 1);
     mkVerifiedInstruction
       (mkDecoded 1 (Instruction.mk FinalOpcode.IfTrue8 (Operands.Label8 (-2))) 3) (Some 1)
       (VerifiedSuccessors.Branch 0 2);
     mkVerifiedInstruction
       (mkDecoded 3 (Instruction.mk FinalOpcode.ReturnUndef Operands.None) 4) (Some 0)
       VerifiedSuccessors.Terminate] 1 3.

Lemma demo_loop_unset :
  Forall (λ v, entry_stack_depth v = None) (structural_instructions demo_loop_structural).
Proof. repeat apply Forall_cons_2; (reflexivity || apply Forall_nil_2). Qed.

Lemma stack_analysis_exact_witness :
  structural_instructions demo_loop_structural ≠ [] ∧
  (∀ i k k', reaches (structural_instructions demo_loop_structural) i k →
     reaches (structural_instructions demo_loop_structural) i k' → k = k').
Proof.
  split; [discriminate|].
  apply (stack_analysis_exact always_allocates always_allocates_generous demo_loop_structural
    UNTRUSTED demo_loop_unset); [discriminate|vm_compute; discriminate..|].
  exists demo_loop_certificate. vm_compute. reflexivity.
Defined.

(** The certificate's depths and size are exact for serialized bodies: an
    instruction carries entry depth [k] if and only if some path from the
    entry reaches it with depth [k]; unreachable instructions carry none; and
    the computed stack size is the largest depth any reachable transfer
    produces (or zero), attained by one of them. *)
Theorem stack_depths_exact (a : Allocator) (s : StructurallyVerifiedControlFlow)
    (limits : VerificationLimits) (c : StackCertificate)
    (Hnone : Forall (λ v, entry_stack_depth v = None) (structural_instructions s))
    (Hml : max_stack_depth limits ≤ u32_max)
    (Hc : analyze_ordinary_stack s limits false = Ok c) :
  let vs := structural_instructions s in
  (∀ i k, entry_at (certificate_instructions c) i = Some k ↔ reaches vs i k) ∧
  (∀ i k v o, reaches vs i k → at_index vs i = Some v → transfer v k = Some o →
     o + extra (opcode_of v) ≤ certificate_stack_size c) ∧
  (certificate_stack_size c = 0 ∨
   ∃ i k v o, reaches vs i k ∧ at_index vs i = Some v ∧ transfer v k = Some o ∧
     certificate_stack_size c = o + extra (opcode_of v)).
Proof.
  intros vs. apply analyze_certified in Hc; [|done..]. by apply (certified_exact limits (function_kind s) vs).
Qed.

Lemma stack_depths_exact_witness :
  reaches (structural_instructions demo_loop_structural) 1 1.
Proof.
  destruct (stack_depths_exact always_allocates demo_loop_structural UNTRUSTED
    demo_loop_certificate demo_loop_unset) as [Hd _];
    [vm_compute; discriminate|vm_compute; reflexivity|].
  apply Hd. reflexivity.
Defined.
End properties.
