(* ===== verification/Verifier.v ===== *)
(** * The verification pipeline

    Models [crates/fusor-bytecode/src/verifier/pipeline.rs]: the one place that
    combines the stages into a [VerifiedControlFlow], and the position queries
    of [verifier/model.rs] on it.  The file ends with what
    the certificate is worth: an abstract machine that runs the bytes
    directly, and the proof that verified bytes never drive it into a bad
    state. *)

From S2P Require Import Prelude Opcode Codec Function VerifierModel VerifierHeader VerifierPredecode VerifierStatic VerifierStack.
Import VerificationErrorKind.

(** ** The pipeline *)

Module StackVerificationMode.
Inductive StackVerificationMode : Set :=
| Serialized (expected_stack_size : Z)
| CompilerGenerated.

Definition expected_stack_size (m : StackVerificationMode) : option Z :=
  match m with
  | Serialized expected_stack_size => Some expected_stack_size
  | CompilerGenerated => None
  end.

Definition requires_empty_exits (m : StackVerificationMode) : bool :=
  match m with CompilerGenerated => true | _ => false end.
End StackVerificationMode.
Notation StackVerificationMode := StackVerificationMode.StackVerificationMode.

(** [option.map(f).transpose()?] *)
Definition transpose {A B} (f : A → verified B) (o : option A) : verified (option B) :=
  match o with
  | Some a => Some <$> f a
  | None => Ok None
  end.

Section pipeline.
Context `{Allocator}.

Definition verify_control_flow_common (bytecode : list Z) (domains : FunctionIndexDomains)
    (function_header : UnverifiedFunctionHeader) (stack_mode : StackVerificationMode)
    (compiler_capture_layout : option CompilerCaptureLayout)
    (compiler_constant_layout : option CompilerConstantLayout) (limits : VerificationLimits) :
    verified VerifiedControlFlow :=
  validate_limits_and_counts (len bytecode) domains function_header
    (StackVerificationMode.expected_stack_size stack_mode) limits ;;
  reject_if (bool_decide (bytecode = [])) (root EmptyBytecode) ;;
  predecoded ← predecode_complete bytecode (max_instructions_per_function limits);
  let decoded := predecoded_instructions predecoded in
  let instruction_start_bitmap := predecoded_bitmap predecoded in
  function_header ← validate_function_header function_header domains;
  let generated := StackVerificationMode.requires_empty_exits stack_mode in
  reject_if (generated && bool_decide (compiler_capture_layout = None)
             && negb (variable_reference_count function_header =? 0))
    (root (MissingCompilerCaptureLayout (variable_reference_count function_header))) ;;
  captures ← transpose (λ l, validate_compiler_capture_layout l domains function_header)
               compiler_capture_layout;
  reject_if (generated && bool_decide (compiler_constant_layout = None)
             && negb (constant_pool_len domains =? 0))
    (root (MissingCompilerConstantLayout (constant_pool_len domains))) ;;
  constants ← transpose (λ l, validate_compiler_constant_layout l domains)
                compiler_constant_layout;
  structurally_verified ← validate_static_semantics decoded instruction_start_bitmap
    (len bytecode) domains (kind function_header) captures constants generated;
  certificate ← analyze_ordinary_stack structurally_verified limits generated;
  Ok (mkVerifiedControlFlow bytecode (certificate_instructions certificate)
        instruction_start_bitmap (certificate_stack_size certificate)
        (certificate_evaluations certificate) domains function_header
        (layout <$> captures) constants).

Definition verify_control_flow (body : UnverifiedFunctionBody) (limits : VerificationLimits) :
    verified VerifiedControlFlow :=
  let expected := expected_stack_size body in
  verified ← verify_control_flow_common (unverified_bytecode body) (unverified_domains body)
    (unverified_header body) (StackVerificationMode.Serialized expected) None None limits;
  reject_if (negb (computed_stack_size verified =? expected))
    (root (SerializedStackSizeMismatch expected (computed_stack_size verified))) ;;
  Ok verified.

Definition verify_compiler_control_flow (body : UnverifiedCompilerFunctionBody)
    (limits : VerificationLimits) : verified VerifiedControlFlow :=
  verify_control_flow_common (compiler_bytecode body) (compiler_domains body)
    (compiler_header body) StackVerificationMode.CompilerGenerated
    (capture_layout body) (constant_layout body) limits.
End pipeline.

(** ** Queries on a certificate *)

Module VerifiedControlFlowQueries.

Definition is_instruction_start (c : VerifiedControlFlow) (pc : BytecodePc) : bool :=
  VerifierPredecode.is_instruction_start (instruction_start_bitmap c) (len (bytecode c)) pc.

Definition instruction_index_at (c : VerifiedControlFlow) (pc : BytecodePc) : option Z :=
  VerifierPredecode.instruction_index_at (instructions c) (instruction_start_bitmap c)
    (len (bytecode c)) pc.

Definition instruction (c : VerifiedControlFlow) (index : Z) : option VerifiedInstruction :=
  index ← try_usize index; instructions c !! index.

End VerifiedControlFlowQueries.

(** ** The machine the certificate is about

    A state is a byte position and an operand-stack depth.  A step decodes the
    bytes at the position, applies the stack effect and follows one edge; the
    taken edge of a [gosub] carries the return address, that of a found
    [with_*] binding its results.  [gosubs] says whether taken [gosub] edges
    are followed. *)

Module Machine.
Import StaticFacts TargetFacts StackFacts.

Definition state : Type := Z * Z.

Definition opcode (d : DecodedInstruction) : FinalOpcode := Instruction.opcode (instruction d).

(** The instruction at a position and the depth after its effect. *)
Definition executes (bc : list Z) (st : state) (d : DecodedInstruction) (o : Z) : Prop :=
  let '(p, k) := st in
  decode_instruction bc p = Ok d ∧
  ∃ e, Instruction.stack_effect (instruction d) = Ok e ∧ pops e ≤ k ∧ o = k - pops e + pushes e.

Inductive step (bc : list Z) (gosubs : bool) : state → state → Prop :=
| step_fallthrough st d o :
    executes bc st d o →
    shape_of d = Some SuccessorShape.Fallthrough ∨ shape_of d = Some SuccessorShape.Branch →
    step bc gosubs st (next_pc d, o)
| step_taken st d o t :
    executes bc st d o → shape_of d = Some SuccessorShape.Branch → label_target d = Some t →
    (opcode d = FinalOpcode.Gosub → gosubs = true) →
    step bc gosubs st (t, o + extra (opcode d))
| step_jump st d o t :
    executes bc st d o → shape_of d = Some SuccessorShape.Jump → label_target d = Some t →
    step bc gosubs st (t, o).

Definition runs (bc : list Z) (gosubs : bool) : state → state → Prop := rtc (step bc gosubs).

(** A state from which the program goes on or ends, within a stack of [size]
    slots. *)
Record safe (bc : list Z) (gosubs : bool) (size : Z) (st : state) : Prop := {
  safe_depth : 0 ≤ st.2 ≤ size;
  safe_executes : ∃ d o, executes bc st d o ∧ 0 ≤ o ≤ size ∧
    (shape_of d = Some SuccessorShape.Terminate ∨ ∃ st', step bc gosubs st st') }.
End Machine.

(** ** From certificate to machine *)

Module PipelineFacts.
Import CodecFacts StreamFacts PredecodeFacts TargetFacts StaticFacts StackFacts Machine.

(** What a successful run of the pipeline establishes of its result. *)
Record pipeline_ok (limits : VerificationLimits) (gen : bool) (bc : list Z)
    (domains : FunctionIndexDomains) (c : VerifiedControlFlow) : Prop := {
  pipeline_bytecode : bytecode c = bc;
  pipeline_domains : VerifierModel.domains c = domains;
  pipeline_stream : decodes_to bc 0 (decoded <$> instructions c);
  pipeline_starts q :
    is_instruction_start (instruction_start_bitmap c) (len bc) q = true ↔
    ∃ d, d ∈ decoded <$> instructions c ∧ pc d = q;
  pipeline_static :
    Forall (λ v, successors_ok (decoded <$> instructions c) v ∧
                 Forall (OperandIndexFacts.in_domains domains)
                   (OperandIndexFacts.named_indices (instruction (decoded v)))) (instructions c);
  pipeline_stack :
    ∃ vs kind, certified limits gen kind vs
      (mkStackCertificate (instructions c) (computed_stack_size c) (transfer_evaluations c)) ∧
      kind = Function.kind (function_header c) ∧ len vs = len (instructions c) ∧
      existsb (λ v, bool_decide (opcode_of v = FinalOpcode.Gosub)) vs
        = existsb (λ v, bool_decide (opcode_of v = FinalOpcode.Gosub)) (instructions c) }.

Lemma successors_ok_code ds v v' :
  decoded v' = decoded v → successors v' = successors v → successors_ok ds v → successors_ok ds v'.
Proof. unfold successors_ok. by intros -> ->. Qed.

Lemma Forall_code (P : VerifiedInstruction → Prop) vs vs' :
  (∀ v v', decoded v' = decoded v → successors v' = successors v → P v → P v') →
  decoded <$> vs' = decoded <$> vs → successors <$> vs' = successors <$> vs →
  Forall P vs → Forall P vs'.
Proof.
  intros HP Hd Hs HF. revert vs' Hd Hs.
  induction HF as [|v vs Hv _ IH]; intros [|v' vs'] Hd Hs; simplify_eq/=; constructor; eauto.
Qed.

Lemma existsb_code vs vs' :
  decoded <$> vs' = decoded <$> vs →
  existsb (λ v, bool_decide (opcode_of v = FinalOpcode.Gosub)) vs
  = existsb (λ v, bool_decide (opcode_of v = FinalOpcode.Gosub)) vs'.
Proof.
  revert vs'. induction vs as [|v vs IH]; intros [|v' vs'] Hd; simplify_eq/=; [done|].
  rewrite (IH vs') by done. f_equal. apply bool_decide_ext. unfold opcode_of.
  match goal with H : decoded v' = decoded v |- _ => rewrite H end. done.
Qed.

Lemma verify_common_Ok `{Allocator} bc domains header mode captures constants limits c :
  byte_list bc → max_instructions_per_function limits ≤ u32_max →
  verify_control_flow_common bc domains header mode captures constants limits = Ok c →
  pipeline_ok limits (StackVerificationMode.requires_empty_exits mode) bc domains c.
Proof.
  intros Hbc Hmax. unfold verify_control_flow_common. intros Hc. inv_ok. subst c.
  rename select (validate_limits_and_counts _ _ _ _ _ = _) into Hl.
  apply HeaderFacts.validate_limits_and_counts_spec in Hl as [Hml _ _ _ _ _ _ _ _].
  rename select (predecode_complete _ _ = _) into Hp.
  apply predecode_complete_Ok in Hp as [Hpre _]; [|done|unfold_ints; lia].
  rename select (validate_static_semantics _ _ _ _ _ _ _ _ = _) into Hs.
  apply (validate_static_semantics_Ok _ _ _ Hbc Hpre) in Hs as (Hdec & Hkind & Hall).
  rename select (analyze_ordinary_stack _ _ _ = _) into Ha.
  apply analyze_certified in Ha as Hcert;
    [|by eapply Forall_impl; [|exact Hall]; intros ? []
     |unfold MAX_OPERAND_STACK_DEPTH, u32_max in *; lia].
  pose proof (certified_decoded _ _ _ _ _ Hcert) as Hd.
  pose proof (certified_successors _ _ _ _ _ Hcert) as Hsu.
  constructor; simpl; rewrite ?Hd, ?Hdec; try done; try apply Hpre.
  - eapply Forall_code; [| | |eapply Forall_impl; [|exact Hall]]; [|done|done|].
    + intros v v' E1 E2 [? ?]. rewrite E1. split; [by eapply successors_ok_code|done].
    + intros v []. done.
  - eexists _, _. split_and!; [|done| |by apply existsb_code].
    + by match goal with c : StackCertificate |- _ => destruct c end.
    + unfold len. rewrite <- (length_fmap decoded), <- Hd, length_fmap. done.
Qed.

Section simulation.
Context (limits : VerificationLimits) (gen : bool) (bc : list Z) (domains : FunctionIndexDomains)
  (c : VerifiedControlFlow).
Context (Hbc : byte_list bc) (Hok : pipeline_ok limits gen bc domains c).

Let vs := instructions c.
Let size := computed_stack_size c.

(** A machine state the certificate describes. *)
Definition described (st : state) : Prop :=
  ∃ i v, at_index vs i = Some v ∧ pc (decoded v) = st.1 ∧ entry_stack_depth v = Some st.2 ∧
         0 ≤ st.2 ≤ size.

(** The facts the certificate has about one of its instructions. *)
Lemma certificate_at i v k :
  at_index vs i = Some v → entry_stack_depth v = Some k →
  decode_instruction bc (pc (decoded v)) = Ok (decoded v) ∧
  successors_ok (decoded <$> vs) v ∧
  processed limits gen (Function.kind (function_header c))
    (existsb (λ v, bool_decide (opcode_of v = FinalOpcode.Gosub)) vs) vs size v k.
Proof.
  intros Hv Hk. destruct Hok as [_ _ Hds _ Hst (vs0 & kd & Hcert & -> & _ & Hg)].
  pose proof Hv as [_ Hv']%at_index_Some. split_and!.
  - assert (decoded v ∈ decoded <$> vs) as Hin
      by (apply list_elem_of_fmap; exists v; split; [done|by eapply list_elem_of_lookup_2]).
    by destruct (decodes_to_decoded _ Hbc _ _ _ Hds Hin) as [? _].
  - by destruct (Forall_lookup_1 _ _ _ _ Hst Hv') as [? _].
  - unfold vs. rewrite <- Hg. by eapply (certified_processed _ _ _ _ _ Hcert).
Qed.

Lemma index_described i q d :
  starts_at (decoded <$> vs) i q → entry_at vs i = Some d → 0 ≤ d ≤ size → described (q, d).
Proof.
  intros (Hi & d' & Hd' & Hp) (v & Hv & Hk)%bind_Some Hd.
  exists i, v. split_and!; try (simpl; lia); try done. pose proof Hv as [_ Hv']%at_index_Some.
  rewrite list_lookup_fmap, Hv' in Hd'. simpl in *. by simplify_eq.
Qed.

Lemma executes_transfer st d o v :
  executes bc st d o → decode_instruction bc st.1 = Ok (decoded v) →
  decoded v = d ∧ transfer v st.2 = Some o.
Proof.
  destruct st as [p k]. intros (Hd & e & He & Hle & ->) Hv. simpl in *.
  assert (decoded v = d) as Heq by congruence. split; [done|]. unfold transfer.
  rewrite Heq, He. by destruct (Z.ltb_spec k (pops e)); [lia|].
Qed.

(** A firm edge of a described instruction leads to a described state. *)
Lemma edge_described v k t q d :
  processed limits gen (Function.kind (function_header c))
    (existsb (λ v, bool_decide (opcode_of v = FinalOpcode.Gosub)) vs) vs size v k →
  (∃ o, transfer v k = Some o ∧ (t, d, false) ∈ edges gen v o) →
  starts_at (decoded <$> vs) t q → described (q, d).
Proof.
  intros (o & Ht & Ho & _ & Hsz & Hed & _) (o' & Ht' & Hin) Hq. simplify_eq.
  destruct (Hed t d false Hin) as (d0 & Hd0 & Heq). rewrite (Heq eq_refl) in Hd0.
  eapply index_described; [done..|]. pose proof (extra_bound (opcode_of v)).
  unfold edges in Hin. destruct (successors v);
    repeat (apply elem_of_cons in Hin as [Hin|Hin]); try (by apply not_elem_of_nil in Hin);
    injection Hin; lia.
Qed.

(** Steps that follow no deferred edge stay inside the certificate. *)
Lemma described_step gosubs st st' :
  (gen = true → gosubs = false) → described st → step bc gosubs st st' → described st'.
Proof.
  intros Hgs (i & v & Hv & Hp & Hk & Hb) Hstep.
  destruct (certificate_at i v st.2 Hv Hk) as (Hdec & Hsucc & Hproc). rewrite Hp in Hdec.
  pose proof (λ t q d, edge_described v st.2 t q d Hproc) as Hedge. unfold edges in Hedge.
  unfold successors_ok in Hsucc.
  destruct Hstep as [st d o Hex Hshape|st d o t Hex Hshape Hlab Hg|st d o t Hex Hshape Hlab];
    destruct (executes_transfer _ _ _ v Hex Hdec) as [Hd Ht]; subst d;
    destruct (successors v) as [j|j n|j|]; destruct_and?;
    try (exfalso; destruct_or?; congruence).
  - eapply Hedge; [|done]. exists o. split; [done|]. by apply elem_of_cons; left.
  - eapply Hedge; [|done]. exists o. split; [done|].
    apply elem_of_cons; right. by apply elem_of_cons; left.
  - match goal with H : ∃ _, label_target _ = _ ∧ _ |- _ => destruct H as (t' & Ht' & Hs) end.
    simplify_eq. eapply Hedge; [|done]. exists o. split; [done|]. apply elem_of_cons; left.
    change (opcode (decoded v)) with (opcode_of v) in *.
    destruct gen; [|done]. rewrite bool_decide_false; [done|]. intros E.
    specialize (Hgs eq_refl). specialize (Hg E). congruence.
  - match goal with H : ∃ _, label_target _ = _ ∧ _ |- _ => destruct H as (t' & Ht' & Hs) end.
    simplify_eq. eapply Hedge; [|done]. exists o. split; [done|]. by apply elem_of_cons; left.
Qed.

Lemma described_initial : described (0, 0).
Proof.
  destruct Hok as [_ _ Hds _ _ (vs0 & kd & Hcert & _)].
  destruct Hcert as [_ _ Hent _ _ _ Hpos _]. simpl in *.
  apply bind_Some in Hent as (v & Hv & Hk). exists 0, v. split_and!; try done.
  apply at_index_Some in Hv as [_ Hv].
  inversion Hds as [|p d ds Hlt Hd Hrest E].
  { exfalso. unfold vs in Hv. destruct (instructions c); done. }
  apply (decode_instruction_sound _ _ _ Hbc) in Hd as (Hpc & _).
  destruct (instructions c) as [|v0 ?]; [done|]. simplify_eq/=. done.
Qed.

Lemma described_runs gosubs st :
  (gen = true → gosubs = false) → runs bc gosubs (0, 0) st → described st.
Proof.
  intros Hgs Hr. apply (rtc_ind_r described (0, 0)) in Hr; [done|exact described_initial|].
  intros y z _ Hs Hd. by eapply described_step.
Qed.

(** A described state executes, and goes on unless it is a terminal. *)
Lemma described_executes st :
  described st → ∃ i v o, at_index vs i = Some v ∧ pc (decoded v) = st.1 ∧
    entry_stack_depth v = Some st.2 ∧ executes bc st (decoded v) o ∧ 0 ≤ o ≤ size ∧
    successors_ok (decoded <$> vs) v ∧
    (successors v = VerifiedSuccessors.Terminate →
     check_exit gen (Function.kind (function_header c))
       (existsb (λ v, bool_decide (opcode_of v = FinalOpcode.Gosub)) vs) (decoded v) o = Ok tt).
Proof.
  intros (i & v & Hv & Hp & Hk & Hb).
  destruct (certificate_at i v st.2 Hv Hk) as (Hdec & Hsucc & o & Ht & Ho & _ & Hsz & _ & Hex).
  exists i, v, o. pose proof (extra_bound (opcode_of v)). split_and!; try done; [|lia].
  destruct st as [p k]. simpl in *. subst p. split; [done|]. unfold transfer in Ht.
  destruct (Instruction.stack_effect _) as [e|]; [|done]. exists e.
  destruct (Z.ltb_spec k (pops e)); simplify_eq. done.
Qed.

Lemma described_safe gosubs st : described st → safe bc gosubs size st.
Proof.
  intros Hd. pose proof Hd as (? & ? & _ & _ & _ & Hb). split; [done|].
  destruct (described_executes st Hd) as (i & v & o & Hv & Hp & Hk & Hex & Ho & Hsucc & _).
  exists (decoded v), o. split_and!; try lia; try done. unfold successors_ok in Hsucc.
  destruct (successors v); destruct_and?; [right|right|right|by left].
  - eexists. by eapply step_fallthrough; eauto.
  - eexists. by eapply step_fallthrough; eauto.
  - match goal with H : ∃ _, label_target _ = _ ∧ _ |- _ => destruct H as (t' & Ht' & _) end.
    eexists. by eapply step_jump.
Qed.

Lemma described_exit st d o :
  gen = true → described st → executes bc st d o → shape_of d = Some SuccessorShape.Terminate →
  o = 0 ∨ may_abandon_stack (Function.kind (function_header c))
    (existsb (λ v, bool_decide (opcode_of v = FinalOpcode.Gosub)) vs) (opcode d) = true.
Proof.
  intros Hgen Hd Hex Hsh.
  destruct (described_executes st Hd) as (i & v & o' & _ & _ & _ & Hex' & _ & Hsucc & Hexit).
  destruct st as [p k]. destruct Hex as (Hdec & e & He & _ & ->), Hex' as (Hdec' & e' & He' & _ & ->).
  assert (d = decoded v) as -> by congruence. assert (e = e') as -> by congruence.
  unfold successors_ok in Hsucc.
  destruct (successors v); try (exfalso; destruct_and?; congruence).
  specialize (Hexit eq_refl). unfold check_exit in Hexit. rewrite Hgen in Hexit.
  apply reject_if_Ok in Hexit. unfold opcode. simpl in Hexit.
  destruct (Z.eqb_spec (k - pops e' + pushes e') 0); [by left|]. right. simpl in Hexit.
  by apply negb_false_iff in Hexit.
Qed.

Lemma described_indices st d o :
  described st → executes bc st d o →
  Forall (OperandIndexFacts.in_domains domains) (OperandIndexFacts.named_indices (instruction d)).
Proof.
  intros Hd Hex.
  destruct (described_executes st Hd) as (i & v & o' & Hv & _ & _ & Hex' & _).
  destruct st as [p k]. assert (d = decoded v) as ->
    by (destruct Hex as [Hex _], Hex' as [Hex' _]; congruence).
  apply at_index_Some in Hv as [_ Hv].
  by destruct (Forall_lookup_1 _ _ _ _ (pipeline_static _ _ _ _ _ Hok) Hv) as [_ ?].
Qed.

(** Positions determine the certificate's instruction, hence the depth. *)
Lemma described_unique p k k' : described (p, k) → described (p, k') → k = k'.
Proof.
  intros (i & v & Hv & Hp & Hk & _) (j & w & Hw & Hq & Hl & _). simpl in *.
  destruct Hok as [_ _ Hds Hst _ _].
  pose proof Hv as [Hi Hv']%at_index_Some. pose proof Hw as [Hj Hw']%at_index_Some.
  assert (Z.to_nat i = Z.to_nat j) as E.
  { eapply (stream_position_inj bc (decoded <$> vs) (instruction_start_bitmap c) Hbc);
      [by split|by rewrite list_lookup_fmap, Hv'|by rewrite list_lookup_fmap, Hw'|congruence]. }
  rewrite E, Hw' in Hv'. by simplify_eq.
Qed.
End simulation.

(** *** Paths of the graph are runs of the bytes *)

Lemma executes_iff bc v k o :
  decode_instruction bc (pc (decoded v)) = Ok (decoded v) →
  executes bc (pc (decoded v), k) (decoded v) o ↔ transfer v k = Some o.
Proof.
  intros Hv. unfold executes, transfer. split.
  - intros (_ & e & -> & Hle & ->). by destruct (Z.ltb_spec k (pops e)); [lia|].
  - intros Ht. split; [done|]. destruct (Instruction.stack_effect _) as [e|]; [|done].
    destruct (Z.ltb_spec k (pops e)); simplify_eq. by exists e.
Qed.

Section paths.
Context (bc : list Z) (ds : list DecodedInstruction) (vs : list VerifiedInstruction).
Context (Hbc : byte_list bc) (Hds : decodes_to bc 0 ds) (Hdec : decoded <$> vs = ds)
  (Hsucc : Forall (successors_ok ds) vs).

Lemma vs_at i v :
  at_index vs i = Some v → ds !! Z.to_nat i = Some (decoded v) ∧
  decode_instruction bc (pc (decoded v)) = Ok (decoded v) ∧ successors_ok ds v.
Proof.
  intros [_ Hv]%at_index_Some.
  assert (ds !! Z.to_nat i = Some (decoded v)) as Hd by (by rewrite <- Hdec, list_lookup_fmap, Hv).
  split_and!; [done| |by eapply Forall_lookup_1 in Hv].
  apply list_elem_of_lookup_2 in Hd. by destruct (decodes_to_decoded _ Hbc _ _ _ Hds Hd) as [? _].
Qed.

Lemma starts_vs i q : starts_at ds i q → ∃ v, at_index vs i = Some v ∧ pc (decoded v) = q.
Proof.
  intros (Hi & d & Hd & Hp). rewrite <- Hdec, list_lookup_fmap in Hd.
  destruct (vs !! Z.to_nat i) as [v|] eqn:Hv; simplify_eq/=. exists v. split; [|done].
  by apply at_index_Some.
Qed.

Lemma edges_step i v k o t d df :
  at_index vs i = Some v → transfer v k = Some o → (t, d, df) ∈ edges false v o →
  ∃ w, at_index vs t = Some w ∧ step bc true (pc (decoded v), k) (pc (decoded w), d).
Proof.
  intros Hv Ht Hin. destruct (vs_at i v Hv) as (_ & Hd & Hs).
  apply (executes_iff bc v k o Hd) in Ht. unfold successors_ok in Hs. unfold edges in Hin.
  destruct (successors v) as [j|j n|j|]; destruct_and?;
    repeat (apply elem_of_cons in Hin as [Hin|Hin]); try (by apply not_elem_of_nil in Hin);
    injection Hin as -> -> ->;
    repeat match goal with H : ∃ _, label_target _ = _ ∧ _ |- _ => destruct H as (? & ? & ?) end;
    match goal with H : starts_at _ ?t _ |- context [at_index vs ?t] =>
      destruct (starts_vs _ _ H) as (w & Hw & Hpw) end; exists w; (split; [done|]); rewrite Hpw.
  - by eapply step_fallthrough; auto.
  - eapply (step_taken _ _ _ _ _ _ Ht); done.
  - by eapply step_fallthrough; auto.
  - by eapply step_jump.
Qed.

(** The edge to instruction [j], found among the listed ones. *)
Ltac edge_to j :=
  let w := fresh "w" in
  match goal with H : starts_at _ j _ |- _ => destruct (starts_vs _ _ H) as (w & ? & ?) end;
  exists j, false, w; split_and!; [done| |done|done]; simpl;
  repeat (apply elem_of_cons; (by left) || right); done.

Lemma step_edges i v k st' :
  at_index vs i = Some v → step bc true (pc (decoded v), k) st' →
  ∃ o t df w, transfer v k = Some o ∧ (t, st'.2, df) ∈ edges false v o ∧
    at_index vs t = Some w ∧ pc (decoded w) = st'.1.
Proof.
  intros Hv Hstep. destruct (vs_at i v Hv) as (_ & Hd & Hs). unfold successors_ok in Hs.
  remember (pc (decoded v), k) as st eqn:Est.
  destruct Hstep as [st d o Hex Hshape|st d o t Hex Hshape Hlab _|st d o t Hex Hshape Hlab]; subst st;
    (assert (d = decoded v) as -> by (destruct Hex as [Hex _]; congruence));
    apply (executes_iff bc v k o Hd) in Hex; exists o; unfold edges;
    destruct (successors v) as [j|j n|j|]; destruct_and?;
    try (exfalso; destruct_or?; congruence);
    repeat match goal with H : ∃ _, label_target _ = _ ∧ _ |- _ => destruct H as (? & ? & ?) end;
    try match goal with H : label_target ?d = Some ?x, H' : label_target ?d = Some ?y |- _ =>
      assert (x = y) by congruence; subst y; clear H' end.
  - edge_to j.
  - edge_to n.
  - edge_to j.
  - edge_to j.
Qed.

Lemma reaches_runs i k :
  reaches vs i k → is_Some (at_index vs 0) → (∀ v, at_index vs 0 = Some v → pc (decoded v) = 0) →
  ∃ v, at_index vs i = Some v ∧ runs bc true (0, 0) (pc (decoded v), k).
Proof.
  intros Hr [v0 Hv0] H0. induction Hr as [|i k v o j d df _ IH Hv Ht Hin].
  { exists v0. split; [done|]. rewrite (H0 v0 Hv0). apply rtc_refl. }
  destruct IH as (v' & Hv' & Hr). assert (v' = v) as -> by congruence.
  destruct (edges_step i v k o j d df Hv Ht Hin) as (w & Hw & Hstep).
  exists w. split; [done|]. by eapply rtc_r.
Qed.

Lemma runs_reaches st :
  runs bc true (0, 0) st → is_Some (at_index vs 0) →
  (∀ v, at_index vs 0 = Some v → pc (decoded v) = 0) →
  ∃ i v, at_index vs i = Some v ∧ pc (decoded v) = st.1 ∧ reaches vs i st.2.
Proof.
  intros Hrun [v0 Hv0] H0.
  apply (rtc_ind_r (λ st, ∃ i v, at_index vs i = Some v ∧ pc (decoded v) = st.1 ∧
    reaches vs i st.2) (0, 0)) in Hrun; [done| |].
  { exists 0, v0. split_and!; [done|by apply H0|constructor]. }
  intros y z _ Hs (i & v & Hv & Hp & Hr). destruct y as [p k]. simpl in *. subst p.
  destruct (step_edges i v k z Hv Hs) as (o & t & df & w & Ht & Hin & Hw & Hpw).
  exists t, w. split_and!; [done|done|]. by eapply reaches_edge.
Qed.

Lemma stream_first : ds ≠ [] → is_Some (at_index vs 0) ∧
  (∀ v, at_index vs 0 = Some v → pc (decoded v) = 0).
Proof.
  intros Hne. destruct ds as [|d l] eqn:Eds; [done|].
  assert (pc d = 0) as Hd0.
  { inversion Hds as [|p d' l' Hlt Hd Hrest]; subst.
    by apply (decode_instruction_sound _ _ _ Hbc) in Hd as (? & _). }
  destruct vs as [|v vs']; [done|]. injection Hdec as Hd _.
  split; [by eexists|]. intros w [= <-]. congruence.
Qed.
End paths.

(** *** The specification of serialized verification *)

(** Every run executes within the stack limit, all runs to a position agree on
    the depth, and [size] is the largest depth any of them produces. *)
Record stack_spec (bc : list Z) (limit size : Z) : Prop := {
  spec_executes st : runs bc true (0, 0) st →
    ∃ d o, executes bc st d o ∧ o + extra (opcode d) ≤ limit;
  spec_agree p k k' : runs bc true (0, 0) (p, k) → runs bc true (0, 0) (p, k') → k = k';
  spec_bound st d o : runs bc true (0, 0) st → executes bc st d o → o + extra (opcode d) ≤ size;
  spec_attained : size = 0 ∨ ∃ st d o, runs bc true (0, 0) st ∧ executes bc st d o ∧
    size = o + extra (opcode d) }.

Section stack_spec.
Context (bc : list Z) (ds : list DecodedInstruction) (vs : list VerifiedInstruction).
Context (Hbc : byte_list bc) (Hds : decodes_to bc 0 ds) (Hne : ds ≠ [])
  (Hdec : decoded <$> vs = ds) (Hsucc : Forall (successors_ok ds) vs).

Lemma reaches_run i k v :
  reaches vs i k → at_index vs i = Some v → runs bc true (0, 0) (pc (decoded v), k).
Proof.
  intros Hr Hv. destruct (stream_first bc ds vs Hbc Hds Hdec Hsucc Hne) as [H1 H2].
  destruct (reaches_runs bc ds vs Hbc Hds Hdec Hsucc i k Hr H1 H2) as (w & Hw & ?).
  by simplify_eq.
Qed.

Lemma run_reaches st :
  runs bc true (0, 0) st →
  ∃ i v, at_index vs i = Some v ∧ pc (decoded v) = st.1 ∧ reaches vs i st.2 ∧
    ∀ d o, executes bc st d o ↔ d = decoded v ∧ transfer v st.2 = Some o.
Proof.
  intros Hr. destruct (stream_first bc ds vs Hbc Hds Hdec Hsucc Hne) as [H1 H2].
  destruct (runs_reaches bc ds vs Hbc Hds Hdec Hsucc st Hr H1 H2) as (i & v & Hv & Hp & ?).
  exists i, v. split_and!; try done. intros d o. destruct st as [p k]. simpl in *. subst p.
  destruct (vs_at bc ds vs Hbc Hds Hdec Hsucc i v Hv) as (_ & Hd & _). split.
  - intros He. assert (d = decoded v) as -> by (destruct He as [He _]; congruence).
    split; [done|]. exact (proj1 (executes_iff bc v k o Hd) He).
  - intros [-> Ht]. exact (proj2 (executes_iff bc v k o Hd) Ht).
Qed.

Lemma paths_runs limit :
  (∀ i k v, reaches vs i k → at_index vs i = Some v →
     ∃ o, transfer v k = Some o ∧ o + extra (opcode_of v) ≤ limit ∧
       ∀ t d df, (t, d, df) ∈ edges false v o → 0 ≤ t < len vs) ∧
  (∀ i k k', reaches vs i k → reaches vs i k' → k = k') ↔
  (∀ st, runs bc true (0, 0) st → ∃ d o, executes bc st d o ∧ o + extra (opcode d) ≤ limit) ∧
  (∀ p k k', runs bc true (0, 0) (p, k) → runs bc true (0, 0) (p, k') → k = k').
Proof.
  split.
  - intros [Hsafe Huniq]. split.
    + intros st (i & v & Hv & _ & Hr & Hex)%run_reaches.
      destruct (Hsafe i st.2 v Hr Hv) as (o & Ht & Hle & _). exists (decoded v), o.
      split; [by apply Hex|done].
    + intros p k k' (i & v & Hv & Hp & Hr & _)%run_reaches (j & w & Hw & Hq & Hr' & _)%run_reaches.
      simpl in *. assert (i = j) as ->; [|by eapply Huniq].
      destruct (vs_at bc ds vs Hbc Hds Hdec Hsucc i v Hv) as (Hi & _).
      destruct (vs_at bc ds vs Hbc Hds Hdec Hsucc j w Hw) as (Hj & _).
      apply at_index_range in Hv, Hw. apply (Z2Nat.inj _ _); [lia..|].
      eapply (decodes_to_position_inj bc); [done..|congruence].
  - intros [Hsafe Hagree]. split.
    + intros i k v Hr Hv. pose proof (reaches_run i k v Hr Hv) as Hrun.
      destruct (Hsafe _ Hrun) as (d & o & Hex & Hle).
      destruct (vs_at bc ds vs Hbc Hds Hdec Hsucc i v Hv) as (_ & Hd & _).
      assert (d = decoded v) as -> by (destruct Hex as [Hex _]; congruence).
      apply (executes_iff bc v k o Hd) in Hex. exists o. split_and!; try done.
      intros t d df Hin. destruct (edges_step bc ds vs Hbc Hds Hdec Hsucc i v k o t d df)
        as (w & Hw & _); [done..|]. by apply at_index_range in Hw.
    + intros i k k' Hr Hr'. destruct (stream_first bc ds vs Hbc Hds Hdec Hsucc Hne) as [H1 H2].
      destruct (reaches_runs bc ds vs Hbc Hds Hdec Hsucc i k Hr H1 H2) as (v & Hv & Hrun).
      eapply Hagree; [exact Hrun|by apply (reaches_run i)].
Qed.

(** The size of a certificate is the largest depth of the runs. *)
Lemma certified_spec limits kind c :
  certified limits false kind vs c →
  (∀ st d o, runs bc true (0, 0) st → executes bc st d o →
     o + extra (opcode d) ≤ certificate_stack_size c) ∧
  (certificate_stack_size c = 0 ∨ ∃ st d o, runs bc true (0, 0) st ∧ executes bc st d o ∧
     certificate_stack_size c = o + extra (opcode d)).
Proof.
  intros (_ & Hb & Hatt)%certified_exact. split.
  - intros st d o (i & v & Hv & _ & Hr & Hex)%run_reaches [-> Ht]%Hex. by eapply Hb.
  - destruct Hatt as [?|(i & k & v & o & Hr & Hv & Ht & E)]; [by left|]. right.
    exists (pc (decoded v), k), (decoded v), o. split_and!; [by eapply reaches_run| |done].
    apply (executes_iff bc v k o); [|done].
    by destruct (vs_at bc ds vs Hbc Hds Hdec Hsucc i v Hv) as (_ & ? & _).
Qed.

Lemma certified_stack_spec limits kind c :
  certified limits false kind vs c →
  stack_spec bc (max_stack_depth limits) (certificate_stack_size c).
Proof.
  intros Hc. destruct (proj1 (paths_runs (max_stack_depth limits)) (certified_paths _ _ _ _ Hc)).
  destruct (certified_spec _ _ _ Hc). by constructor.
Qed.
End stack_spec.

(** Two sizes that are both the largest depth are equal. *)
Lemma sizes_agree bc a b :
  0 ≤ a → 0 ≤ b →
  (∀ st d o, runs bc true (0, 0) st → executes bc st d o → o + extra (opcode d) ≤ a) →
  (a = 0 ∨ ∃ st d o, runs bc true (0, 0) st ∧ executes bc st d o ∧ a = o + extra (opcode d)) →
  (∀ st d o, runs bc true (0, 0) st → executes bc st d o → o + extra (opcode d) ≤ b) →
  (b = 0 ∨ ∃ st d o, runs bc true (0, 0) st ∧ executes bc st d o ∧ b = o + extra (opcode d)) →
  a = b.
Proof.
  intros Ha Hb Hba Haa Hbb Hab. apply Z.le_antisymm.
  - destruct Haa as [->|(st & d & o & ? & ? & ->)]; [done|by eapply Hbb].
  - destruct Hab as [->|(st & d & o & ? & ? & ->)]; [done|by eapply Hba].
Qed.

(** The bodies serialized verification is meant to accept. *)
Record acceptable (body : UnverifiedFunctionBody) (limits : VerificationLimits) : Prop := {
  acceptable_limits :
    HeaderFacts.limits_ok (len (unverified_bytecode body)) (unverified_domains body)
      (unverified_header body) (Some (expected_stack_size body)) limits;
  acceptable_header : FlagFacts.header_ok (unverified_header body) (unverified_domains body);
  acceptable_code : ∃ ds, ds ≠ [] ∧ decodes_to (unverified_bytecode body) 0 ds ∧
    len ds ≤ max_instructions_per_function limits ∧
    Forall (well_formed ds (unverified_domains body)) ds ∧
    Forall (λ d, validate_capability (kind (FlagFacts.accepted_header (unverified_header body)))
                   None None false d = Ok tt) ds;
  acceptable_stack :
    stack_spec (unverified_bytecode body) (max_stack_depth limits) (expected_stack_size body) }.

Lemma not_empty (bc : list Z) : reject_if (bool_decide (bc = [])) (root EmptyBytecode) = Ok tt ↔ bc ≠ [].
Proof. rewrite reject_if_Ok. by rewrite bool_decide_eq_false. Qed.

Lemma decodes_to_nonempty bc ds : bc ≠ [] → decodes_to bc 0 ds → ds ≠ [].
Proof.
  intros Hne Hds ->. inversion Hds as [E|]. destruct bc; [done|]. unfold len in E. simpl in E. lia.
Qed.

Section acceptance.
Context `{Allocator} (body : UnverifiedFunctionBody) (limits : VerificationLimits).
Context (Hbc : byte_list (unverified_bytecode body))
  (Hflags : is_u16 (UnverifiedFunctionHeader.serialized_flags (unverified_header body)))
  (Hmode : is_u8 (UnverifiedFunctionHeader.js_mode (unverified_header body)))
  (Hexp : 0 ≤ expected_stack_size body) (Hmax : is_u32 (max_instructions_per_function limits)).

Lemma verify_control_flow_acceptable c :
  verify_control_flow body limits = Ok c → acceptable body limits.
Proof.
  unfold verify_control_flow. intros Hv. inv_ok. subst.
  rename select (verify_control_flow_common _ _ _ _ _ _ _ = _) into Hc.
  unfold verify_control_flow_common in Hc. inv_ok. subst c. simpl in *. bool_to_prop.
  rename select (validate_limits_and_counts _ _ _ _ _ = _) into Hl.
  apply HeaderFacts.validate_limits_and_counts_spec in Hl. pose proof Hl as [Hml _ _ _ _ _ _ _ _].
  rename select (bool_decide _ = false) into Hne. apply bool_decide_eq_false in Hne.
  rename select (predecode_complete _ _ = _) into Hp.
  apply predecode_complete_Ok in Hp as [Hpre Hlen]; [|done|unfold_ints; lia].
  rename select (validate_function_header _ _ = _) into Hh.
  apply FlagFacts.validate_function_header_spec in Hh as [Hh ->]; [|done..].
  rename select (validate_static_semantics _ _ _ _ _ _ _ _ = _) into Hs.
  pose proof (validate_static_semantics_wf _ _ _ Hbc Hpre _ _ _ _ _ _ Hs) as [Hwf Hcap].
  apply (validate_static_semantics_Ok _ _ _ Hbc Hpre) in Hs as (Hdec & Hkind & Hall).
  pose proof (predecoded_stream _ _ _ Hpre) as Hds.
  pose proof (decodes_to_nonempty _ _ Hne Hds) as Hdsne.
  repeat match goal with H : Ok None = Ok _ |- _ => apply Ok_inj in H; subst end.
  rename select (analyze_ordinary_stack _ _ _ = _) into Ha.
  apply analyze_certified in Ha as Hcert;
    [|by eapply Forall_impl; [|exact Hall]; intros ? []
     |unfold MAX_OPERAND_STACK_DEPTH, u32_max in *; lia].
  constructor; try done.
  - eexists. split_and!; [| |by destruct Hlen|done|done]; done.
  - match goal with H : certificate_stack_size _ = _ |- _ => rewrite <- H end.
    eapply certified_stack_spec; [done|exact Hds|done|done| |exact Hcert].
    eapply Forall_impl; [|exact Hall]. intros ? []. done.
Qed.

Lemma predecode_acceptable `{!GenerousAllocator} ds :
  decodes_to (unverified_bytecode body) 0 ds → ds ≠ [] →
  len ds ≤ max_instructions_per_function limits →
  ∃ p, predecode_complete (unverified_bytecode body) (max_instructions_per_function limits) = Ok p ∧
    predecoded (unverified_bytecode body) ds (predecoded_bitmap p) ∧ predecoded_instructions p = ds.
Proof.
  intros Hds Hne Hlen.
  destruct (predecode_complete_succeeds (unverified_bytecode body)
    (max_instructions_per_function limits) ds) as (p & Hp & <-);
    [done|unfold_ints; lia|by eapply decodes_to_u32|done|done|].
  exists p. split; [done|]. apply predecode_complete_Ok in Hp as [? _]; [done|done|unfold_ints; lia].
Qed.

(** The last stage accepts what the specification allows, with the declared
    size. *)
Lemma stack_acceptable `{!GenerousAllocator} ds s :
  decodes_to (unverified_bytecode body) 0 ds → ds ≠ [] → len ds ≤ u32_max →
  len ds ≤ max_transfer_evaluations limits → max_stack_depth limits ≤ MAX_OPERAND_STACK_DEPTH →
  decoded <$> structural_instructions s = ds →
  Forall (λ v, entry_stack_depth v = None ∧ successors_ok ds v) (structural_instructions s) →
  stack_spec (unverified_bytecode body) (max_stack_depth limits) (expected_stack_size body) →
  ∃ c, analyze_ordinary_stack s limits false = Ok c ∧
       certificate_stack_size c = expected_stack_size body.
Proof.
  intros Hds Hne Hlen Hbud Hml Hdec Hall [Hex Hag Hb Hatt].
  assert (len (structural_instructions s) = len ds) as Hl by (rewrite <- Hdec; unfold len; by rewrite length_fmap).
  assert (Forall (λ v, entry_stack_depth v = None) (structural_instructions s)) as Hnone
    by (eapply Forall_impl; [|exact Hall]; by intros ? []).
  assert (Forall (successors_ok ds) (structural_instructions s)) as Hsucc
    by (eapply Forall_impl; [|exact Hall]; by intros ? []).
  assert (max_stack_depth limits ≤ u32_max) as Hml'
    by (unfold MAX_OPERAND_STACK_DEPTH, u32_max in *; lia).
  destruct (proj2 (analyze_exact s limits Hnone ltac:(intros E; rewrite E in Hdec; by simplify_eq/=)
    Hml' ltac:(lia) ltac:(lia))) as [c Hc].
  { by apply (paths_runs _ _ _ Hbc Hds Hne Hdec Hsucc). }
  exists c. split; [done|]. apply analyze_certified in Hc; [|done..].
  pose proof (certified_size_pos _ _ _ _ _ Hc).
  destruct (certified_spec _ _ _ Hbc Hds Hne Hdec Hsucc _ _ _ Hc) as [Hb' Hatt'].
  by eapply sizes_agree.
Qed.

Lemma acceptable_verifies `{!GenerousAllocator} :
  max_instructions_per_function limits ≤ max_transfer_evaluations limits →
  acceptable body limits → ∃ c, verify_control_flow body limits = Ok c.
Proof.
  intros Hbud [Hl Hh (ds & Hne & Hds & Hlen & Hwf & Hcap) Hstack].
  destruct (predecode_acceptable ds Hds Hne Hlen) as (p & Hp & Hpre & Hpi).
  destruct (validate_static_semantics_complete _ _ _ Hbc Hpre (unverified_domains body)
    (kind (FlagFacts.accepted_header (unverified_header body))) None None false Hwf Hcap) as [s Hs].
  pose proof (validate_static_semantics_Ok _ _ _ Hbc Hpre _ _ _ _ _ _ Hs) as (Hdec & Hkind & Hall).
  destruct (stack_acceptable ds s) as (c & Hc & Hsize); try done; [unfold_ints; lia|lia| | |].
  { by destruct Hl. }
  { eapply Forall_impl; [|exact Hall]. by intros ? []. }
  unfold verify_control_flow, verify_control_flow_common. simpl.
  rewrite (proj2 (HeaderFacts.validate_limits_and_counts_spec _ _ _ _ _) Hl). simpl.
  rewrite (proj2 (not_empty _)); [|by intros E; rewrite E in Hds; inversion Hds; simplify_eq/=].
  simpl. rewrite Hp. simpl.
  rewrite (proj2 (FlagFacts.validate_function_header_spec _ _ _ Hflags Hmode) (conj Hh eq_refl)).
  cbn [mbind result_bind]. rewrite Hpi, Hs. cbn [mbind result_bind reject_if andb transpose].
  rewrite Hc. cbn [mbind result_bind]. simpl.
  rewrite Hsize, Z.eqb_refl. by eexists.
Qed.
End acceptance.

(** *** Queries *)

Section queries.
Context (limits : VerificationLimits) (gen : bool) (bc : list Z) (doms : FunctionIndexDomains)
  (c : VerifiedControlFlow) (Hbc : byte_list bc) (Hv : pipeline_ok limits gen bc doms c).

Lemma verified_decodes i v :
  instructions c !! i = Some v →
  decode_instruction bc (pc (decoded v)) = Ok (decoded v) ∧ Z.of_nat i ≤ u32_max.
Proof.
  intros Hi. pose proof (pipeline_stream _ _ _ _ _ Hv) as Hds.
  assert ((decoded <$> instructions c) !! i = Some (decoded v)) as Hd by (by rewrite list_lookup_fmap, Hi).
  pose proof (list_elem_of_lookup_2 _ _ _ Hd) as Hin. split.
  - by apply (StreamFacts.decodes_to_decoded _ Hbc _ _ _ Hds Hin).
  - apply lookup_lt_Some in Hd.
    assert (len bc ≤ u32_max).
    { apply (StreamFacts.decodes_to_u32 _ Hbc _ _ Hds). intros E. rewrite E in Hd. simpl in Hd. lia. }
    destruct (StreamFacts.decodes_to_length _ Hbc _ _ Hds) as [?|E]; [lia|].
    rewrite E in Hd. simpl in Hd. lia.
Qed.

Lemma verified_ascending : strictly_ascending (λ v, pc (decoded v)) (instructions c).
Proof.
  intros i j x y Hx Hy Hij.
  eapply (StreamFacts.decodes_to_sorted _ Hbc 0 (decoded <$> instructions c) i j);
    [apply Hv|by rewrite list_lookup_fmap, Hx|by rewrite list_lookup_fmap, Hy|done].
Qed.

Lemma verified_start q :
  VerifierPredecode.is_instruction_start (instruction_start_bitmap c) (len bc) q = true ↔
  ∃ i v, instructions c !! i = Some v ∧ pc (decoded v) = q.
Proof.
  rewrite (pipeline_starts _ _ _ _ _ Hv). split.
  - intros (d & (v & -> & (i & Hi)%list_elem_of_lookup_1)%list_elem_of_fmap & <-). by exists i, v.
  - intros (i & v & Hi & <-). exists (decoded v). split; [|done].
    apply list_elem_of_fmap. exists v. split; [done|by eapply list_elem_of_lookup_2].
Qed.

Lemma query_index q i :
  VerifiedControlFlowQueries.instruction_index_at c q = Some i ↔
  ∃ v, VerifiedControlFlowQueries.instruction c i = Some v ∧ pc (decoded v) = q.
Proof.
  unfold VerifiedControlFlowQueries.instruction_index_at, VerifiedControlFlowQueries.instruction,
    VerifierPredecode.instruction_index_at. rewrite (pipeline_bytecode _ _ _ _ _ Hv). split.
  - destruct (VerifierPredecode.is_instruction_start _ _ _); simpl; [|done].
    intros (k & (v & Hk & Hp)%(binary_search_Some _ _ _ verified_ascending) & Hi)%bind_Some.
    apply try_u32_Some in Hi as [-> Hu]. exists v. rewrite try_usize_u32 by done. simpl.
    rewrite Nat2Z.id. done.
  - intros (v & (k & Hk & Hi)%bind_Some & Hp). inv_checked.
    rewrite (proj2 (verified_start q)) by (by eexists _, v). simpl.
    rewrite (proj2 (binary_search_Some _ q _ verified_ascending (Z.to_nat i))) by (by exists v). simpl.
    destruct (verified_decodes _ _ Hi) as [_ ?]. apply try_u32_Some. unfold_ints. lia.
Qed.

Lemma query_start q :
  VerifiedControlFlowQueries.is_instruction_start c q = true ↔
  is_Some (VerifiedControlFlowQueries.instruction_index_at c q).
Proof.
  unfold VerifiedControlFlowQueries.is_instruction_start. rewrite (pipeline_bytecode _ _ _ _ _ Hv).
  rewrite verified_start. split.
  - intros (i & v & Hi & Hq). exists (Z.of_nat i). apply query_index. exists v. split; [|done].
    unfold VerifiedControlFlowQueries.instruction. destruct (verified_decodes _ _ Hi) as [_ ?].
    rewrite try_usize_u32 by (unfold_ints; lia). simpl. by rewrite Nat2Z.id.
  - intros (i & (v & (k & _ & Hi)%bind_Some & Hq)%query_index). by exists k, v.
Qed.

Lemma query_decodes i v :
  VerifiedControlFlowQueries.instruction c i = Some v →
  decode_instruction bc (pc (decoded v)) = Ok (decoded v).
Proof. intros (k & _ & Hi)%bind_Some. by apply (verified_decodes k). Qed.
End queries.
End PipelineFacts.

(** ** What verification is worth *)

(** C1.  Verified serialized bytecode is safe to run: along every run of the
    raw bytes from position 0 with an empty stack, following every branch and
    every [gosub], each position reached decodes, its instruction never pops
    more than the stack holds, the stack never exceeds the size the body
    declares, a non-terminal always has a next step, and the depth at a
    position is the same on every run. *)
Theorem verified_serialized_safe (a : Allocator) (body : UnverifiedFunctionBody)
    (limits : VerificationLimits) (c : VerifiedControlFlow) (st : Machine.state)
    (Hbc : byte_list (unverified_bytecode body))
    (Hmax : max_instructions_per_function limits ≤ u32_max)
    (Hc : verify_control_flow body limits = Ok c)
    (Hrun : Machine.runs (unverified_bytecode body) true (0, 0) st) :
  Machine.safe (unverified_bytecode body) true (expected_stack_size body) st ∧
  ∀ k, Machine.runs (unverified_bytecode body) true (0, 0) (st.1, k) → k = st.2.
Proof.
  unfold verify_control_flow in Hc. inv_ok. subst.
  rename select (verify_control_flow_common _ _ _ _ _ _ _ = _) into Hv.
  apply PipelineFacts.verify_common_Ok in Hv; [|done..]. bool_to_prop.
  match goal with H : computed_stack_size _ = _ |- _ => rewrite <- H end.
  apply (PipelineFacts.described_runs _ _ _ _ _ Hbc Hv) in Hrun; [|done].
  split; [by apply (PipelineFacts.described_safe _ _ _ _ _ Hbc Hv)|]. intros k Hk.
  apply (PipelineFacts.described_runs _ _ _ _ _ Hbc Hv) in Hk; [|done].
  destruct st as [p k']. by eapply (PipelineFacts.described_unique _ _ _ _ _ Hbc Hv).
Qed.

(** The demonstration loop as a serialized body that declares one slot. *)
Definition demo_body : UnverifiedFunctionBody :=
  mkUnverified demo_loop 1 (mkDomains 0 0 0 0 0)
    (UnverifiedFunctionHeader.ordinary_source_function true 0).

Definition demo_verified : VerifiedControlFlow :=
  mkVerifiedControlFlow demo_loop (certificate_instructions demo_loop_certificate) [11] 1 3
    (mkDomains 0 0 0 0 0) (mkVerifiedHeader 1603 1 FunctionKind.Normal 0 0) None None.

Lemma demo_run : Machine.runs demo_loop true (0, 0) (1, 1).
Proof.
  eapply rtc_l; [|apply rtc_refl].
  apply (Machine.step_fallthrough demo_loop true (0, 0)
    (mkDecoded 0 (Instruction.mk FinalOpcode.Push0 Operands.NoneInt) 1) 1); [|by left].
  split; [reflexivity|]. exists (mkStackEffect 0 1). split; [reflexivity|]. simpl. lia.
Qed.

Lemma verified_serialized_safe_witness : Machine.safe demo_loop true 1 (1, 1).
Proof.
  destruct (verified_serialized_safe always_allocates demo_body UNTRUSTED demo_verified (1, 1)
    demo_loop_bytes ltac:(vm_compute; discriminate) ltac:(vm_compute; reflexivity) demo_run)
    as [Hs _].
  exact Hs.
Defined.

(** C2.  Verification of serialized bodies is exact: with memory available and
    an evaluation budget of at least the instruction budget, it accepts a body
    if and only if the body respects the limits and the header rules, its
    bytes decode to instructions that are each well formed and of a supported
    opcode for the function's kind, every run of the bytes stays within the
    stack limit with one depth per position, and the declared stack size is
    the largest depth any run produces. *)
Theorem verify_control_flow_exact (a : Allocator) (Ha : GenerousAllocator)
    (body : UnverifiedFunctionBody) (limits : VerificationLimits)
    (Hbc : byte_list (unverified_bytecode body))
    (Hflags : is_u16 (UnverifiedFunctionHeader.serialized_flags (unverified_header body)))
    (Hmode : is_u8 (UnverifiedFunctionHeader.js_mode (unverified_header body)))
    (Hexp : 0 ≤ expected_stack_size body)
    (Hmax : is_u32 (max_instructions_per_function limits))
    (Hbudget : max_instructions_per_function limits ≤ max_transfer_evaluations limits) :
  (∃ c, verify_control_flow body limits = Ok c) ↔ PipelineFacts.acceptable body limits.
Proof.
  split.
  - intros [c Hc]. by eapply PipelineFacts.verify_control_flow_acceptable.
  - by apply PipelineFacts.acceptable_verifies.
Qed.

Lemma verify_control_flow_exact_witness : PipelineFacts.acceptable demo_body UNTRUSTED.
Proof.
  apply (verify_control_flow_exact always_allocates always_allocates_generous demo_body UNTRUSTED
    demo_loop_bytes).
  - vm_compute. split; discriminate.
  - vm_compute. split; discriminate.
  - vm_compute. discriminate.
  - vm_compute. split; discriminate.
  - vm_compute. discriminate.
  - exists demo_verified. vm_compute. reflexivity.
Defined.

(** The exits by which a function answers its caller: [return] and
    [return_undef] of a body without a [finally] subroutine, and the
    [return_async] of a body that is not a generator. *)
Definition completes_function (kind : FunctionKind) (has_finally : bool)
    (opcode : FinalOpcode) : bool :=
  match opcode with
  | FinalOpcode.Return | FinalOpcode.ReturnUndef => negb has_finally
  | FinalOpcode.ReturnAsync =>
      match kind with
      | FunctionKind.Generator | FunctionKind.AsyncGenerator => false
      | _ => true
      end
  | _ => false
  end.

(** Whether a function has a [gosub]. *)
Definition has_finally_subroutine (c : VerifiedControlFlow) : bool :=
  existsb (λ v, bool_decide (opcode_of v = FinalOpcode.Gosub)) (instructions c).

(** No completing exit is one of those that may abandon the stack. *)
Lemma completes_keeps_nothing kind has_finally opcode :
  completes_function kind has_finally opcode = true →
  may_abandon_stack kind has_finally opcode = false.
Proof. by destruct opcode, kind, has_finally. Qed.

(** Every completing exit is a terminal. *)
Lemma completes_terminates kind has_finally d :
  completes_function kind has_finally (Machine.opcode d) = true →
  StaticFacts.shape_of d = Some SuccessorShape.Terminate.
Proof. unfold StaticFacts.shape_of, Machine.opcode. by destruct (Instruction.opcode _). Qed.

(** C5.  Verified compiler output is safe to run, on the runs that do not take
    the edge of a [gosub] into a [finally] subroutine (whose join depths are
    left to the typed stack pass): at every state of such a run the raw bytes
    decode, the stack never underflows nor exceeds the computed size, every
    visit of a position finds the same depth, and control leaves the state for
    a state of the run or through a terminal.  The exits that answer the caller
    leave the stack empty: [return] and [return_undef] where the body has no
    [gosub], and [return_async] outside generators. *)
Theorem verified_compiler_safe (a : Allocator) (body : UnverifiedCompilerFunctionBody)
    (limits : VerificationLimits) (c : VerifiedControlFlow) (st : Machine.state)
    (Hbc : byte_list (compiler_bytecode body))
    (Hmax : max_instructions_per_function limits ≤ u32_max)
    (Hc : verify_compiler_control_flow body limits = Ok c)
    (Hrun : Machine.runs (compiler_bytecode body) false (0, 0) st) :
  Machine.safe (compiler_bytecode body) false (computed_stack_size c) st ∧
  (∀ k, Machine.runs (compiler_bytecode body) false (0, 0) (st.1, k) → k = st.2) ∧
  ∀ d o, Machine.executes (compiler_bytecode body) st d o →
    completes_function (kind (function_header c)) (has_finally_subroutine c)
      (Machine.opcode d) = true →
    o = 0.
Proof.
  unfold verify_compiler_control_flow in Hc.
  apply PipelineFacts.verify_common_Ok in Hc as Hv; [|done..].
  apply (PipelineFacts.described_runs _ _ _ _ _ Hbc Hv) in Hrun; [|done].
  split_and!; [by apply (PipelineFacts.described_safe _ _ _ _ _ Hbc Hv)| |].
  - intros k Hk. apply (PipelineFacts.described_runs _ _ _ _ _ Hbc Hv) in Hk; [|done].
    destruct st as [p k']. by eapply (PipelineFacts.described_unique _ _ _ _ _ Hbc Hv).
  - intros d o Hex Hcomp.
    destruct (PipelineFacts.described_exit _ _ _ _ _ Hbc Hv st d o) as [|Hab]; [done..| |done|].
    { by eapply completes_terminates. }
    apply completes_keeps_nothing in Hcomp. unfold has_finally_subroutine in Hcomp. congruence.
Qed.

(** [push_0; return] as a compiler body. *)
Definition demo_compiler_body : UnverifiedCompilerFunctionBody :=
  mkUnverifiedCompiler [180; 40] (mkDomains 0 0 0 0 0)
    (UnverifiedFunctionHeader.ordinary_source_function true 0) None None.

Lemma verified_compiler_safe_witness :
  ∃ size, Machine.safe [180; 40] false size (1, 1) ∧
    ∀ o, Machine.executes [180; 40] (1, 1)
      (mkDecoded 1 (Instruction.mk FinalOpcode.Return Operands.None) 2) o → o = 0.
Proof.
  destruct (@verify_compiler_control_flow always_allocates demo_compiler_body UNTRUSTED)
    as [c|e] eqn:Hc; [|vm_compute in Hc; discriminate].
  exists (computed_stack_size c).
  destruct (verified_compiler_safe always_allocates demo_compiler_body UNTRUSTED c (1, 1))
    as (Hs & _ & Hexit).
  - unfold byte_list, is_u8. repeat apply Forall_cons_2; (simpl; lia || apply Forall_nil_2).
  - vm_compute. discriminate.
  - exact Hc.
  - apply rtc_once.
    apply (Machine.step_fallthrough [180; 40] false (0, 0)
      (mkDecoded 0 (Instruction.mk FinalOpcode.Push0 Operands.NoneInt) 1) 1); [|by left].
    split; [reflexivity|]. exists (mkStackEffect 0 1). split; [reflexivity|]. simpl. lia.
  - split; [exact Hs|]. intros o Hex. apply (Hexit _ _ Hex).
    injection Hc as <-. vm_compute. reflexivity.
Defined.

(** C31.  Verified code touches only declared slots: whatever instruction a run
    of verified serialized bytecode executes, every atom, constant, argument,
    local or closure-variable slot it names lies inside the body's domains. *)
Theorem verified_slots_in_domain (a : Allocator) (body : UnverifiedFunctionBody)
    (limits : VerificationLimits) (c : VerifiedControlFlow) (st : Machine.state)
    (d : DecodedInstruction) (o : Z)
    (Hbc : byte_list (unverified_bytecode body))
    (Hmax : max_instructions_per_function limits ≤ u32_max)
    (Hc : verify_control_flow body limits = Ok c)
    (Hrun : Machine.runs (unverified_bytecode body) true (0, 0) st)
    (Hex : Machine.executes (unverified_bytecode body) st d o) :
  Forall (OperandIndexFacts.in_domains (unverified_domains body))
    (OperandIndexFacts.named_indices (instruction d)).
Proof.
  unfold verify_control_flow in Hc. inv_ok. subst.
  rename select (verify_control_flow_common _ _ _ _ _ _ _ = _) into Hv.
  apply PipelineFacts.verify_common_Ok in Hv; [|done..].
  apply (PipelineFacts.described_runs _ _ _ _ _ Hbc Hv) in Hrun; [|done].
  by eapply (PipelineFacts.described_indices _ _ _ _ _ Hbc Hv).
Qed.

(** [push_0; put_loc 1; get_loc 1; return] over two locals. *)
Definition demo_slots : list Z := [180; 87; 1; 0; 86; 1; 0; 40].

Definition demo_slots_body : UnverifiedFunctionBody :=
  mkUnverified demo_slots 1 (mkDomains 0 0 0 2 0)
    (UnverifiedFunctionHeader.ordinary_source_function true 0).

Lemma verified_slots_in_domain_witness :
  let put_loc := Instruction.mk FinalOpcode.PutLoc (Operands.Loc 1) in
  OperandIndexFacts.named_indices put_loc = [(OperandIndexDomain.Local, 1)] ∧
  Forall (OperandIndexFacts.in_domains (mkDomains 0 0 0 2 0))
    (OperandIndexFacts.named_indices put_loc).
Proof.
  split; [reflexivity|].
  destruct (@verify_control_flow always_allocates demo_slots_body UNTRUSTED)
    as [c|e] eqn:Hc; [|vm_compute in Hc; discriminate].
  apply (verified_slots_in_domain always_allocates demo_slots_body UNTRUSTED c (1, 1)
    (mkDecoded 1 (Instruction.mk FinalOpcode.PutLoc (Operands.Loc 1)) 4) 0).
  - unfold byte_list, is_u8. repeat apply Forall_cons_2; (simpl; lia || apply Forall_nil_2).
  - vm_compute. discriminate.
  - exact Hc.
  - apply rtc_once.
    apply (Machine.step_fallthrough demo_slots true (0, 0)
      (mkDecoded 0 (Instruction.mk FinalOpcode.Push0 Operands.NoneInt) 1) 1); [|by left].
    split; [reflexivity|]. exists (mkStackEffect 0 1). split; [reflexivity|]. simpl. lia.
  - split; [reflexivity|]. exists (mkStackEffect 1 0). split; [reflexivity|]. simpl. lia.
Defined.

(** A certificate answers position queries exactly: for the certificate of
    a verified body, [instruction_index_at] gives an index for a position if
    and only if the verified instruction of that index starts there, a position
    has an index exactly when it is an instruction start, and looking the index
    up gives the instruction the raw bytes decode to. *)
Theorem certificate_lookup_exact (a : Allocator) (body : UnverifiedFunctionBody)
    (limits : VerificationLimits) (c : VerifiedControlFlow) (q : BytecodePc)
    (Hbc : byte_list (unverified_bytecode body))
    (Hmax : max_instructions_per_function limits ≤ u32_max)
    (Hc : verify_control_flow body limits = Ok c) :
  (∀ i, VerifiedControlFlowQueries.instruction_index_at c q = Some i ↔
        ∃ v, VerifiedControlFlowQueries.instruction c i = Some v ∧ pc (decoded v) = q) ∧
  (VerifiedControlFlowQueries.is_instruction_start c q = true ↔
   is_Some (VerifiedControlFlowQueries.instruction_index_at c q)) ∧
  (∀ i v, VerifiedControlFlowQueries.instruction c i = Some v →
     decode_instruction (unverified_bytecode body) (pc (decoded v)) = Ok (decoded v)).
Proof.
  unfold verify_control_flow in Hc. inv_ok. subst.
  rename select (verify_control_flow_common _ _ _ _ _ _ _ = _) into Hv.
  apply PipelineFacts.verify_common_Ok in Hv; [|done..].
  pose proof (PipelineFacts.query_index _ _ _ _ _ Hbc Hv) as Hi. split_and!; [apply Hi| |].
  - by eapply PipelineFacts.query_start.
  - intros i v. by eapply PipelineFacts.query_decodes.
Qed.

Lemma certificate_lookup_exact_witness :
  ∃ v, VerifiedControlFlowQueries.instruction demo_verified 2 = Some v ∧ pc (decoded v) = 3.
Proof.
  apply (certificate_lookup_exact always_allocates demo_body UNTRUSTED demo_verified 3
    demo_loop_bytes ltac:(vm_compute; discriminate) ltac:(vm_compute; reflexivity)).
  vm_compute. reflexivity.
Defined.
