(* ===== verification/Assembler.v ===== *)
(** * The symbolic assembler

    Models [crates/fusor-bytecode/src/assembler.rs]: assembler-scoped labels,
    the plan of instructions and symbolic branches, the threading of branches
    through redundant [goto]s, the relaxation of branch widths to a fixed
    point, and the final emission through the [BytecodeBuilder].

    An [Arc<AssemblerIdentity>] is the number of its allocation, compared by
    equality.  A method that changes the assembler returns the changed one in
    its success; every check of the source precedes the change, so a failure
    leaves the receiver as it was.  Indexing a vector out of range panics in
    the source; here it is [Stuck], as is a loop cut by its fuel, and
    [finish_never_stuck] shows that neither happens. *)

From S2P Require Import Prelude Opcode Codec.

(** ** Data *)

(** A symbolic instruction-boundary label issued by one assembler. *)
Record AssemblerLabel := mkLabel { label_identity : Z; index : Z }.

Module BranchKind.

(** A symbolic branch family supported by final branch relaxation. *)
Inductive BranchKind : Set := IfFalse | IfTrue | Goto | Catch | Gosub.

Definition long_opcode (k : BranchKind) : FinalOpcode :=
  match k with
  | IfFalse => FinalOpcode.IfFalse
  | IfTrue => FinalOpcode.IfTrue
  | Goto => FinalOpcode.Goto
  | Catch => FinalOpcode.Catch
  | Gosub => FinalOpcode.Gosub
  end.

Definition supports_width (k : BranchKind) (instruction_size : Z) : bool :=
  match k with
  | IfFalse | IfTrue => (instruction_size =? 2) || (instruction_size =? 5)
  | Goto => (instruction_size =? 2) || (instruction_size =? 3) || (instruction_size =? 5)
  | Catch | Gosub => instruction_size =? 5
  end.

Definition minimum_size (k : BranchKind) : Z :=
  match k with
  | IfFalse | IfTrue | Goto => 2
  | Catch | Gosub => 5
  end.

End BranchKind.
Notation BranchKind := BranchKind.BranchKind.

Module AssemblyItem.
Inductive AssemblyItem : Set :=
| Instruction (instruction : Codec.Instruction)
| Branch (kind : BranchKind) (label_index : Z)
| WithBranch (opcode : FinalOpcode) (atom value label_index : Z).

Definition minimum_size (i : AssemblyItem) : Z :=
  match i with
  | Instruction instruction => Instruction.encoded_size instruction
  | Branch kind _ => BranchKind.minimum_size kind
  | WithBranch _ _ _ _ => 10
  end.

Definition is_branch (i : AssemblyItem) : bool :=
  match i with Branch _ _ => true | _ => false end.
End AssemblyItem.
Notation AssemblyItem := AssemblyItem.AssemblyItem.

Module BranchTargetState.
Inductive BranchTargetState : Set := Unknown | Resolving | Terminal (label : Z) | Cycle.

#[global] Instance BranchTargetState_eq_dec : EqDecision BranchTargetState.
Proof. solve_decision. Defined.
End BranchTargetState.
Notation BranchTargetState := BranchTargetState.BranchTargetState.

(** Inclusive resource limits for one symbolic assembly. *)
Record AssemblerLimits := mkAssemblerLimits {
  max_bytecode_bytes : Z;
  max_instructions : Z;
  max_relaxation_evaluations : Z }.

Definition default_limits : AssemblerLimits := mkAssemblerLimits u32_max u32_max u64_max.

(** A symbolic-assembly resource with an inclusive configured limit. *)
Inductive AssemblerResource : Set := Instructions | RelaxationEvaluations.

(** Final bytecode plus the relocated position of every emitted instruction. *)
Record AssembledBytecode := mkAssembled {
  assembled_bytecode : list Z;
  instruction_pcs : list BytecodePc }.

(** A symbolic-label or final-encoding failure. *)
Module AssemblerError.
Inductive AssemblerError : Set :=
| LimitExceeded (resource : AssemblerResource) (instruction_index limit observed : Z)
| TooManyLabels
| TooManyInstructions
| AllocationFailed (resource : string) (requested : Z)
| ForeignLabel
| UnknownLabel (label_index : Z)
| DuplicateLabel (label_index : Z)
| UnboundLabel (label_index : Z)
| TargetAtEnd (label_index : Z)
| SymbolicBranchRequired (opcode : FinalOpcode)
| InvalidInstruction (instruction_index : Z) (source : InstructionError)
| EncodedLengthOutOfRange (encoded_bytes : Z)
| BranchDisplacementOutOfRange (instruction_index label_index displacement : Z)
| Encoding (instruction_index : Z) (source : EncodeError)
| LayoutMismatch (instruction_index : Z) (expected actual : BytecodePc).

(** The stable assembler instruction and label of a failure. *)
Definition error_instruction_index (e : AssemblerError) : option Z :=
  match e with
  | LimitExceeded _ instruction_index _ _ | InvalidInstruction instruction_index _
  | BranchDisplacementOutOfRange instruction_index _ _ | Encoding instruction_index _
  | LayoutMismatch instruction_index _ _ => Some instruction_index
  | _ => None
  end.

Definition error_label_index (e : AssemblerError) : option Z :=
  match e with
  | UnknownLabel label_index | DuplicateLabel label_index | UnboundLabel label_index
  | TargetAtEnd label_index | BranchDisplacementOutOfRange _ label_index _ => Some label_index
  | _ => None
  end.
End AssemblerError.
Notation AssemblerError := AssemblerError.AssemblerError.

(** How a computation of the assembler fails to give a value: with an error, or
    without returning (an out-of-range index, a loop cut by its fuel). *)
Inductive failure : Set := Failed (e : AssemblerError) | Stuck.

Notation assembled A := (result failure A).

(** [v[i]] *)
Definition index_or_panic {A} (l : list A) (i : nat) : assembled A := ok_or (l !! i) Stuck.


(** A typed symbolic-label plan that resolves to final branches. *)
Record BytecodeAssembler := mkAssembler {
  identity : Z;
  items : list AssemblyItem;
  label_bindings : list (option nat);
  limits : AssemblerLimits }.

Definition set_items (a : BytecodeAssembler) (l : list AssemblyItem) : BytecodeAssembler :=
  mkAssembler (identity a) l (label_bindings a) (limits a).

Definition set_bindings (a : BytecodeAssembler) (l : list (option nat)) : BytecodeAssembler :=
  mkAssembler (identity a) (items a) l (limits a).

(** [with_limits]; [identity] is the fresh allocation. *)
Definition with_limits (identity : Z) (limits : AssemblerLimits) : BytecodeAssembler :=
  mkAssembler identity [] [] limits.
Definition new_assembler (identity : Z) : BytecodeAssembler := with_limits identity default_limits.
Definition assembler_with_byte_limit (identity byte_limit : Z) : BytecodeAssembler :=
  with_limits identity (mkAssemblerLimits byte_limit u32_max u64_max).

(** ** Building a plan *)

Section plan.
Context `{Allocator}.

Definition new_label (a : BytecodeAssembler) : assembled (AssemblerLabel * BytecodeAssembler) :=
  index ← ok_or (try_u32 (len (label_bindings a))) (Failed AssemblerError.TooManyLabels);
  reserve "label" (len (label_bindings a)) 1 (Failed (AssemblerError.AllocationFailed "label" 1)) ;;
  Ok (mkLabel (identity a) index, set_bindings a (label_bindings a ++ [None])).

(** [resolve_label], and the slot [resolve_label_mut] borrows. *)
Definition resolve_label (a : BytecodeAssembler) (label : AssemblerLabel) :
    assembled (option nat) :=
  reject_if (negb (identity a =? label_identity label)) (Failed AssemblerError.ForeignLabel) ;;
  ok_or (label_bindings a !! Z.to_nat (index label))
    (Failed (AssemblerError.UnknownLabel (index label))).

Definition bind (a : BytecodeAssembler) (label : AssemblerLabel) : assembled BytecodeAssembler :=
  let instruction_position := length (items a) in
  binding ← resolve_label a label;
  reject_if (bool_decide (is_Some binding))
    (Failed (AssemblerError.DuplicateLabel (index label))) ;;
  Ok (set_bindings a
        (<[Z.to_nat (index label) := Some instruction_position]> (label_bindings a))).

Definition next_instruction_index (a : BytecodeAssembler) : assembled Z :=
  instruction_index ← ok_or (try_u32 (len (items a))) (Failed AssemblerError.TooManyInstructions);
  let observed := instruction_index + 1 in
  let limit := max_instructions (limits a) in
  reject_if (limit <? observed)
    (Failed (AssemblerError.LimitExceeded Instructions instruction_index limit observed)) ;;
  Ok instruction_index.

Definition push_item (a : BytecodeAssembler) (item : AssemblyItem) : assembled BytecodeAssembler :=
  reserve "instruction" (len (items a)) 1
    (Failed (AssemblerError.AllocationFailed "instruction" 1)) ;;
  Ok (set_items a (items a ++ [item])).

Definition contains_symbolic_label (format : OperandFormat) : bool :=
  match format with
  | OperandFormat.Label8 | OperandFormat.Label16 | OperandFormat.Label
  | OperandFormat.AtomLabelU8 | OperandFormat.AtomLabelU16 | OperandFormat.LabelU16 => true
  | _ => false
  end.

Definition push (a : BytecodeAssembler) (opcode : FinalOpcode) (operands : Operands) :
    assembled (Z * BytecodeAssembler) :=
  instruction_index ← next_instruction_index a;
  instruction ← map_err (λ source, Failed (AssemblerError.InvalidInstruction instruction_index source))
                  (Instruction.new opcode operands);
  reject_if (contains_symbolic_label
               (OpcodeMetadata.operand_format (FinalOpcode.metadata (Instruction.opcode instruction))))
    (Failed (AssemblerError.SymbolicBranchRequired opcode)) ;;
  a ← push_item a (AssemblyItem.Instruction instruction);
  Ok (instruction_index, a).

Definition branch (a : BytecodeAssembler) (kind : BranchKind) (target : AssemblerLabel) :
    assembled (Z * BytecodeAssembler) :=
  resolve_label a target ;;
  instruction_index ← next_instruction_index a;
  a ← push_item a (AssemblyItem.Branch kind (index target));
  Ok (instruction_index, a).

Definition is_with_opcode (opcode : FinalOpcode) : bool :=
  match opcode with
  | FinalOpcode.WithGetVar | FinalOpcode.WithPutVar | FinalOpcode.WithDeleteVar
  | FinalOpcode.WithMakeRef | FinalOpcode.WithGetRef => true
  | _ => false
  end.

Definition with_branch (a : BytecodeAssembler) (opcode : FinalOpcode) (atom value : Z)
    (target : AssemblerLabel) : assembled (Z * BytecodeAssembler) :=
  resolve_label a target ;;
  instruction_index ← next_instruction_index a;
  reject_if (negb (is_with_opcode opcode))
    (Failed (AssemblerError.InvalidInstruction instruction_index
       (OperandFormatMismatch opcode (OpcodeMetadata.operand_format (FinalOpcode.metadata opcode))
          OperandFormat.AtomLabelU8))) ;;
  map_err (λ source, Failed (AssemblerError.InvalidInstruction instruction_index source))
    (Instruction.new opcode (Operands.AtomLabelU8 atom 0 value)) ;;
  a ← push_item a (AssemblyItem.WithBranch opcode atom value (index target));
  Ok (instruction_index, a).
End plan.

(** ** Labels at the end of planning *)

Definition target_position (a : BytecodeAssembler) (label_index : Z) : assembled nat :=
  ok_or (mjoin (label_bindings a !! Z.to_nat label_index))
    (Failed (AssemblerError.UnknownLabel label_index)).

Definition check_bound_label (entry : nat * option nat) : assembled unit :=
  let '(index, binding) := entry in
  match binding with
  | Some _ => Ok tt
  | None =>
      index ← ok_or (try_u32 (Z.of_nat index)) (Failed AssemblerError.TooManyLabels);
      Err (Failed (AssemblerError.UnboundLabel index))
  end.

Definition check_item_target (a : BytecodeAssembler) (item : AssemblyItem) : assembled unit :=
  match item with
  | AssemblyItem.Branch _ label_index | AssemblyItem.WithBranch _ _ _ label_index =>
      target ← target_position a label_index;
      reject_if (bool_decide (target = length (items a)))
        (Failed (AssemblerError.TargetAtEnd label_index))
  | AssemblyItem.Instruction _ => Ok tt
  end.

Definition validate_bound_labels (a : BytecodeAssembler) : assembled unit :=
  try_for_each check_bound_label (enumerate (label_bindings a)) ;;
  try_for_each (check_item_target a) (items a).

(** ** Threading redundant gotos *)

Definition label_goto_target (a : BytecodeAssembler) (label_index : nat) : option Z :=
  position ← mjoin (label_bindings a !! label_index);
  item ← items a !! position;
  match item with
  | AssemblyItem.Branch BranchKind.Goto target => Some target
  | _ => None
  end.

(** [for label in path.drain(..) { states[label] = state }] *)
Definition drain_path (path : list nat) (state : BranchTargetState)
    (states : list BranchTargetState) : list BranchTargetState :=
  foldl (λ states label, <[label := state]> states) states path.

(** The inner [loop], from [current] with the path walked so far.  Every turn
    that continues marks one more unknown label, so a fuel above the number of
    labels is never exhausted. *)
Fixpoint resolve_chain (a : BytecodeAssembler) (fuel current : nat) (path : list nat)
    (states : list BranchTargetState) : assembled (list BranchTargetState) :=
  match fuel with
  | O => Err Stuck
  | S fuel =>
      state ← index_or_panic states current;
      match state with
      | BranchTargetState.Unknown =>
          let states := <[current := BranchTargetState.Resolving]> states in
          let path := path ++ [current] in
          match label_goto_target a current with
          | None =>
              terminal ← ok_or (try_u32 (Z.of_nat current)) (Failed AssemblerError.TooManyLabels);
              Ok (drain_path path (BranchTargetState.Terminal terminal) states)
          | Some next => resolve_chain a fuel (Z.to_nat next) path states
          end
      | BranchTargetState.Resolving | BranchTargetState.Cycle =>
          Ok (drain_path path BranchTargetState.Cycle states)
      | BranchTargetState.Terminal terminal =>
          Ok (drain_path path (BranchTargetState.Terminal terminal) states)
      end
  end.

(** One turn of [for start in 0..label_count]. *)
Definition resolve_start (a : BytecodeAssembler) (states : list BranchTargetState) (start : nat) :
    assembled (list BranchTargetState) :=
  state ← index_or_panic states start;
  match state with
  | BranchTargetState.Unknown => resolve_chain a (S (length (label_bindings a))) start [] states
  | _ => Ok states
  end.

(** The rewriting of one item. *)
Definition thread_item (states : list BranchTargetState) (item : AssemblyItem) :
    assembled AssemblyItem :=
  match item with
  | AssemblyItem.Branch kind label_index =>
      match kind with
      | BranchKind.IfFalse | BranchKind.IfTrue | BranchKind.Goto =>
          state ← index_or_panic states (Z.to_nat label_index);
          match state with
          | BranchTargetState.Terminal target =>
              Ok (if target =? label_index then item else AssemblyItem.Branch kind target)
          | _ => Ok item
          end
      | _ => Ok item
      end
  | _ => Ok item
  end.

Definition thread_redundant_goto_targets `{Allocator} (a : BytecodeAssembler) :
    assembled BytecodeAssembler :=
  let label_count := length (label_bindings a) in
  let requested := Z.of_nat label_count in
  reserve "branch target state" 0 requested
    (Failed (AssemblerError.AllocationFailed "branch target state" requested)) ;;
  let states := replicate label_count BranchTargetState.Unknown in
  reserve "branch target path" 0 requested
    (Failed (AssemblerError.AllocationFailed "branch target path" requested)) ;;
  states ← try_fold (resolve_start a) states (seq 0 label_count);
  items ← try_map (thread_item states) (items a);
  Ok (set_items a items).

(** ** Relaxation *)

(** [populate_instruction_positions]: the running sums of the widths. *)
Fixpoint positions_from (position : Z) (widths : list Z) : assembled (list Z) :=
  match widths with
  | [] => Ok [position]
  | width :: widths =>
      next ← ok_or (checked_add_u64 position width)
        (Failed (AssemblerError.EncodedLengthOutOfRange u64_max));
      positions ← positions_from next widths;
      Ok (position :: positions)
  end.

Definition populate_instruction_positions (widths : list Z) : assembled (list Z) :=
  positions_from 0 widths.

Definition signed_displacement (source_pc target_pc : Z) : assembled Z :=
  base ← ok_or (checked_add_u64 source_pc 1)
    (Failed (AssemblerError.EncodedLengthOutOfRange source_pc));
  ok_or (try_i64 (target_pc - base))
    (Failed (AssemblerError.EncodedLengthOutOfRange (Z.max source_pc target_pc))).

Section branch_size.
Context (kind : BranchKind) (current_size : Z) (source_position target_position : nat)
  (positions : list Z).

(** The displacement if the branch itself were [candidate] bytes wide; the
    [u8] subtraction below zero panics. *)
Definition candidate_displacement (candidate : Z) : assembled Z :=
  added ← (if candidate <? current_size then Err Stuck else Ok (candidate - current_size));
  target_pc ← index_or_panic positions target_position;
  candidate_target ←
    (if decide (source_position < target_position)%nat
     then ok_or (checked_add_u64 target_pc added)
            (Failed (AssemblerError.EncodedLengthOutOfRange target_pc))
     else Ok target_pc);
  source_pc ← index_or_panic positions source_position;
  signed_displacement source_pc candidate_target.

Definition fits (candidate displacement : Z) : bool :=
  if candidate =? 2 then bool_decide (is_Some (try_i8 displacement))
  else if candidate =? 3 then bool_decide (is_Some (try_i16 displacement))
  else if candidate =? 5 then bool_decide (is_Some (try_i32 displacement))
  else false.

(** The [for candidate in [2, 3, 5]] loop, up to its [return]. *)
Fixpoint first_fitting (candidates : list Z) : assembled (option Z) :=
  match candidates with
  | [] => Ok None
  | candidate :: candidates =>
      if (candidate <? current_size) || negb (BranchKind.supports_width kind candidate)
      then first_fitting candidates else
      displacement ← candidate_displacement candidate;
      if fits candidate displacement then Ok (Some candidate) else first_fitting candidates
  end.

Definition required_branch_size (instruction_index label_index : Z) : assembled Z :=
  fitting ← first_fitting [2; 3; 5];
  match fitting with
  | Some candidate => Ok candidate
  | None =>
      let widest :=
        OpcodeMetadata.instruction_size (FinalOpcode.metadata (BranchKind.long_opcode kind)) in
      displacement ← candidate_displacement widest;
      Err (Failed (AssemblerError.BranchDisplacementOutOfRange instruction_index label_index
                     displacement))
  end.
End branch_size.

Definition charge_relaxation_pass (a : BytecodeAssembler) (completed : Z) : assembled Z :=
  let requested := len (items a) in
  let limit := max_relaxation_evaluations (limits a) in
  let remaining := saturating_sub limit completed in
  if remaining <? requested then
    denied_index ← ok_or (try_u32 remaining) (Failed AssemblerError.TooManyInstructions);
    Err (Failed (AssemblerError.LimitExceeded RelaxationEvaluations denied_index limit
                   (saturating_add_u64 limit 1)))
  else Ok (completed + requested).

(** One item of a relaxation pass, on the widths so far and the [changed]
    flag; [positions] is the layout of the pass's start. *)
Definition relax_item (a : BytecodeAssembler) (positions : list Z) (state : list Z * bool)
    (entry : nat * AssemblyItem) : assembled (list Z * bool) :=
  let '(widths, changed) := state in
  let '(position, item) := entry in
  match item with
  | AssemblyItem.Branch kind label_index =>
      target_position ← target_position a label_index;
      width ← index_or_panic widths position;
      instruction_index ← ok_or (try_u32 (Z.of_nat position))
        (Failed AssemblerError.TooManyInstructions);
      desired ← required_branch_size kind width position target_position positions
        instruction_index label_index;
      if width <? desired then Ok (<[position := desired]> widths, true) else Ok (widths, changed)
  | _ => Ok (widths, changed)
  end.

(** The fixed-point [loop].  Every pass but the last widens a branch, and a
    branch widens at most twice, so a fuel above twice the number of items is
    never exhausted. *)
Fixpoint relax (a : BytecodeAssembler) (fuel : nat) (evaluations : Z) (widths : list Z) :
    assembled (list Z * list Z) :=
  match fuel with
  | O => Err Stuck
  | S fuel =>
      evaluations ← charge_relaxation_pass a evaluations;
      positions ← populate_instruction_positions widths;
      pass ← try_fold (relax_item a positions) (widths, false) (enumerate (items a));
      let '(widths, changed) := pass in
      if negb changed then Ok (widths, positions) else relax a fuel evaluations widths
  end.

Definition relaxed_layout `{Allocator} (a : BytecodeAssembler) : assembled (list Z * list Z) :=
  let count := len (items a) in
  reserve "instruction width" 0 count
    (Failed (AssemblerError.AllocationFailed "instruction width" count)) ;;
  let widths := AssemblyItem.minimum_size <$> items a in
  let requested := saturating_add_u64 count 1 in
  reserve "instruction position" 0 requested
    (Failed (AssemblerError.AllocationFailed "instruction position" requested)) ;;
  if negb (existsb AssemblyItem.is_branch (items a)) then
    positions ← populate_instruction_positions widths; Ok (widths, positions)
  else relax a (S (2 * length (items a))) 0 widths.

(** ** Emission *)

Definition with_branch_displacement (source_pc target_pc instruction_index label_index : Z) :
    assembled Z :=
  base ← ok_or (checked_add_u64 source_pc 5)
    (Failed (AssemblerError.EncodedLengthOutOfRange source_pc));
  let displacement := target_pc - base in
  let reported :=
    match try_i64 displacement with
    | Some displacement => displacement
    | None => if displacement <? 0 then -9223372036854775808 else 9223372036854775807
    end in
  ok_or (try_i32 displacement)
    (Failed (AssemblerError.BranchDisplacementOutOfRange instruction_index label_index reported)).

Definition displacement_error (instruction_index label_index displacement : Z) : failure :=
  Failed (AssemblerError.BranchDisplacementOutOfRange instruction_index label_index displacement).

Definition branch_instruction (kind : BranchKind) (instruction_size displacement
    instruction_index label_index : Z) : assembled Instruction :=
  let unreachable := displacement_error instruction_index label_index displacement in
  let label8 opcode := d ← ok_or (try_i8 displacement) unreachable;
                       Ok (opcode, Operands.Label8 d) in
  let label16 opcode := d ← ok_or (try_i16 displacement) unreachable;
                        Ok (opcode, Operands.Label16 d) in
  let label opcode := d ← ok_or (try_i32 displacement) unreachable;
                      Ok (opcode, Operands.Label d) in
  pair ←
    match kind, instruction_size with
    | BranchKind.IfFalse, 2 => label8 FinalOpcode.IfFalse8
    | BranchKind.IfFalse, 5 => label FinalOpcode.IfFalse
    | BranchKind.IfTrue, 2 => label8 FinalOpcode.IfTrue8
    | BranchKind.IfTrue, 5 => label FinalOpcode.IfTrue
    | BranchKind.Goto, 2 => label8 FinalOpcode.Goto8
    | BranchKind.Goto, 3 => label16 FinalOpcode.Goto16
    | BranchKind.Goto, 5 => label FinalOpcode.Goto
    | BranchKind.Catch, 5 => label FinalOpcode.Catch
    | BranchKind.Gosub, 5 => label FinalOpcode.Gosub
    | _, _ => Err unreachable
    end;
  map_err (λ source, Failed (AssemblerError.InvalidInstruction instruction_index source))
    (Instruction.new (fst pair) (snd pair)).

(** The final instruction of one item under a layout. *)
Definition final_instruction (a : BytecodeAssembler) (widths positions : list Z) (position : nat)
    (instruction_index : Z) (item : AssemblyItem) : assembled Instruction :=
  match item with
  | AssemblyItem.Instruction instruction => Ok instruction
  | AssemblyItem.Branch kind label_index =>
      target_position ← target_position a label_index;
      source_pc ← index_or_panic positions position;
      target_pc ← index_or_panic positions target_position;
      displacement ← signed_displacement source_pc target_pc;
      width ← index_or_panic widths position;
      branch_instruction kind width displacement instruction_index label_index
  | AssemblyItem.WithBranch opcode atom value label_index =>
      target_position ← target_position a label_index;
      source_pc ← index_or_panic positions position;
      target_pc ← index_or_panic positions target_position;
      displacement ← with_branch_displacement source_pc target_pc instruction_index label_index;
      map_err (λ source, Failed (AssemblerError.InvalidInstruction instruction_index source))
        (Instruction.new opcode (Operands.AtomLabelU8 atom displacement value))
  end.

(** One turn of the emission loop, on the builder and the positions so far. *)
Definition emit_item `{Allocator} (a : BytecodeAssembler) (widths positions : list Z)
    (encoded_bytes : Z) (state : BytecodeBuilder * list BytecodePc) (entry : nat * AssemblyItem) :
    assembled (BytecodeBuilder * list BytecodePc) :=
  let '(builder, pcs) := state in
  let '(position, item) := entry in
  instruction_index ← ok_or (try_u32 (Z.of_nat position))
    (Failed AssemblerError.TooManyInstructions);
  planned ← index_or_panic positions position;
  expected ← ok_or (try_u32 planned)
    (Failed (AssemblerError.EncodedLengthOutOfRange encoded_bytes));
  instruction ← final_instruction a widths positions position instruction_index item;
  match BytecodeBuilder.push_instruction builder instruction with
  | (Err source, _) => Err (Failed (AssemblerError.Encoding instruction_index source))
  | (Ok actual, builder) =>
      reject_if (negb (actual =? expected))
        (Failed (AssemblerError.LayoutMismatch instruction_index expected actual)) ;;
      Ok (builder, pcs ++ [actual])
  end.

(** [*positions.last()] *)
Definition last_position (positions : list Z) : option Z := positions !! pred (length positions).

(** Resolves labels, relaxes branches, and emits final bytecode. *)
Definition finish `{Allocator} (a : BytecodeAssembler) : assembled AssembledBytecode :=
  validate_bound_labels a ;;
  a ← thread_redundant_goto_targets a;
  layout ← relaxed_layout a;
  let '(widths, positions) := layout in
  encoded_bytes ← ok_or (last_position positions)
    (Failed (AssemblerError.EncodedLengthOutOfRange 0));
  reject_if (u32_max <? encoded_bytes)
    (Failed (AssemblerError.EncodedLengthOutOfRange encoded_bytes)) ;;
  let builder := BytecodeBuilder.with_byte_limit (max_bytecode_bytes (limits a)) in
  reserve "instruction PC" 0 (len (items a))
    (Failed (AssemblerError.AllocationFailed "instruction PC" (len (items a)))) ;;
  final ← try_fold (emit_item a widths positions encoded_bytes) (builder, [])
            (enumerate (items a));
  let '(builder, pcs) := final in
  Ok (mkAssembled (BytecodeBuilder.bytes builder) pcs).
