(* ===== verification/AssemblerFacts.v ===== *)
(** * Correctness of the symbolic assembler

    Proves of [Assembler] that planning keeps its invariant, that threading
    follows chains of redundant [goto]s and nothing else, that relaxation
    reaches the least layout in which every branch fits, and that the emitted
    bytes decode to the plan with every branch at the instruction of its
    label. *)

From S2P Require Import Prelude Opcode Codec VerifierModel VerifierPredecode Assembler.

(** ** Layouts *)

Module LayoutFacts.

Definition total (ws : list Z) : Z := foldr Z.add 0 ws.

(** The position of item [i] under the widths [ws]. *)
Definition offset (ws : list Z) (i : nat) : Z := total (take i ws).

Lemma offset_0 ws : offset ws 0 = 0.
Proof. done. Qed.

Lemma offset_cons w ws i : offset (w :: ws) (S i) = w + offset ws i.
Proof. done. Qed.

Lemma offset_all ws : offset ws (length ws) = total ws.
Proof. unfold offset. by rewrite firstn_all. Qed.

Lemma offset_succ ws : ∀ i w, ws !! i = Some w → offset ws (S i) = offset ws i + w.
Proof.
  induction ws as [|x ws IH]; intros i w Hi; [done|]. destruct i as [|i]; simplify_eq/=.
  - rewrite offset_cons, !offset_0. lia.
  - rewrite !offset_cons, (IH i w Hi). lia.
Qed.

Lemma offset_nonneg ws i : Forall (Z.le 0) ws → 0 ≤ offset ws i.
Proof.
  intros Hws. revert i. induction Hws as [|w ws Hw _ IH]; intros [|i]; try done.
  rewrite offset_cons. specialize (IH i). lia.
Qed.

Lemma offset_total ws i : Forall (Z.le 0) ws → offset ws i ≤ total ws.
Proof.
  intros Hws. revert i. induction Hws as [|w ws Hw Hws IH]; intros [|i]; try done.
  - rewrite offset_0. simpl. rewrite <- offset_all. pose proof (offset_nonneg ws (length ws) Hws). lia.
  - rewrite offset_cons. simpl. specialize (IH i). lia.
Qed.

(** Spans grow with the widths. *)
Lemma span_mono ws ws' : Forall2 Z.le ws ws' → ∀ i j, (i ≤ j)%nat →
  offset ws j - offset ws i ≤ offset ws' j - offset ws' i.
Proof.
  induction 1 as [|w w' ws ws' Hw _ IH]; intros i j Hij.
  { unfold offset. rewrite !take_nil. done. }
  destruct j as [|j]; [by replace i with 0%nat by lia; rewrite !offset_0|].
  destruct i as [|i]; rewrite !offset_cons, ?offset_0.
  - specialize (IH 0%nat j ltac:(lia)). rewrite !offset_0 in IH. lia.
  - specialize (IH i j ltac:(lia)). lia.
Qed.

Lemma offset_mono ws i j : Forall (Z.le 0) ws → (i ≤ j)%nat → offset ws i ≤ offset ws j.
Proof.
  intros Hws. revert i j. induction Hws as [|w ws Hw Hws IH]; intros i j Hij.
  { unfold offset. rewrite !take_nil. done. }
  destruct i as [|i]; [rewrite offset_0; apply offset_nonneg; by constructor|].
  destruct j as [|j]; [lia|]. rewrite !offset_cons. specialize (IH i j ltac:(lia)). lia.
Qed.

Lemma positions_from_Ok ws : ∀ p ps,
  positions_from p ws = Ok ps →
  length ps = S (length ws) ∧ ∀ i, (i ≤ length ws)%nat → ps !! i = Some (p + offset ws i).
Proof.
  induction ws as [|w ws IH]; intros p ps; simpl.
  { intros [= <-]. split; [done|]. intros [|i] Hi; [simpl; rewrite offset_0; f_equal; lia|simpl in Hi; lia]. }
  intros Hp. inv_ok. inv_checked. subst ps.
  rename select (positions_from _ _ = _) into Hr. apply IH in Hr as [Hl Hi].
  split; [simpl; lia|]. intros [|i] Hle; simpl.
  - rewrite offset_0. f_equal. lia.
  - rewrite Hi by (simpl in Hle; lia). rewrite offset_cons. f_equal. lia.
Qed.

Lemma positions_from_succeeds ws : ∀ p,
  Forall (Z.le 0) ws → p + total ws ≤ u64_max → ∃ ps, positions_from p ws = Ok ps.
Proof.
  induction ws as [|w ws IH]; intros p Hws Hp; simpl in *; [by eexists|].
  apply Forall_cons_1 in Hws as [Hw Hws].
  assert (0 ≤ total ws) by (rewrite <- offset_all; by apply offset_nonneg).
  rewrite checked_add_u64_fits by lia. simpl.
  destruct (IH (p + w) Hws) as [ps ->]; [lia|]. by eexists.
Qed.

(** ** Branch sizes *)

(** The displacements a width can encode. *)
Definition reachable (width d : Z) : Prop :=
  (width = 2 ∧ is_i8 d) ∨ (width = 3 ∧ is_i16 d) ∨ (width = 5 ∧ is_i32 d).

Lemma try_i8_Some z n : try_i8 z = Some n ↔ n = z ∧ is_i8 z.
Proof.
  unfold try_i8, is_i8. destruct (Z.leb_spec (-128) z), (Z.leb_spec z 127); simpl; naive_solver lia.
Qed.

Lemma try_i16_Some z n : try_i16 z = Some n ↔ n = z ∧ is_i16 z.
Proof.
  unfold try_i16, is_i16.
  destruct (Z.leb_spec (-32768) z), (Z.leb_spec z 32767); simpl; naive_solver lia.
Qed.

Lemma try_i32_Some z n : try_i32 z = Some n ↔ n = z ∧ is_i32 z.
Proof.
  unfold try_i32, is_i32.
  destruct (Z.leb_spec (-2147483648) z), (Z.leb_spec z 2147483647); simpl; naive_solver lia.
Qed.

Lemma try_i64_Some z n : try_i64 z = Some n ↔ n = z ∧ is_i64 z.
Proof.
  unfold try_i64, is_i64.
  destruct (Z.leb_spec (-9223372036854775808) z), (Z.leb_spec z 9223372036854775807); simpl;
    naive_solver lia.
Qed.

Lemma fits_spec c d : fits c d = true ↔ reachable c d.
Proof.
  unfold fits, reachable.
  destruct (Z.eqb_spec c 2) as [->|]; [|destruct (Z.eqb_spec c 3) as [->|];
    [|destruct (Z.eqb_spec c 5) as [->|]]]; rewrite ?bool_decide_eq_true; unfold is_Some;
    setoid_rewrite try_i8_Some || setoid_rewrite try_i16_Some || setoid_rewrite try_i32_Some || idtac;
    naive_solver lia.
Qed.

(** The displacement of a branch from item [i] to item [t], were the branch
    [c] bytes wide. *)
Definition displacement (ws : list Z) (i t : nat) (own c : Z) : Z :=
  (if decide (i < t)%nat then offset ws t + (c - own) else offset ws t) - (offset ws i + 1).

Section size.
Context (kind : BranchKind) (ws ps : list Z) (i t : nat) (w : Z).
Context (Hi : ps !! i = Some (offset ws i)) (Ht : ps !! t = Some (offset ws t)).

Lemma candidate_displacement_Ok c d :
  candidate_displacement w i t ps c = Ok d → d = displacement ws i t w c.
Proof.
  unfold candidate_displacement, index_or_panic, signed_displacement, displacement.
  rewrite Hi, Ht. destruct (c <? w); [done|]. simpl. intros Hd. destruct (decide (i < t)%nat); inv_ok; inv_checked; subst;
    match goal with H : try_i64 _ = Some _ |- _ => by apply try_i64_Some in H as [-> _] end.
Qed.

Lemma first_fitting_Ok cs r :
  first_fitting kind w i t ps cs = Ok r →
  match r with
  | Some c => c ∈ cs ∧ w ≤ c ∧ BranchKind.supports_width kind c = true ∧
              reachable c (displacement ws i t w c)
  | None => True
  end.
Proof.
  induction cs as [|c cs IH]; simpl; [by intros [= <-]|].
  destruct ((c <? w) || negb _) eqn:Hskip.
  - intros Hr%IH. destruct r as [c'|]; [|done]. destruct Hr as (? & ?).
    split; [apply elem_of_cons; by right|done].
  - intros (d & Hd%candidate_displacement_Ok & Hr)%bind_Ok.
    destruct (fits c d) eqn:Hf; [|].
    + apply Ok_inj in Hr as <-. apply orb_false_iff in Hskip as [Hlt Hs]. bool_to_prop.
      split_and!; [apply elem_of_cons; by left|done|done|]. subst d. by apply fits_spec.
    + apply IH in Hr. destruct r as [c'|]; [|done]. destruct Hr as (? & ?).
      split; [apply elem_of_cons; by right|done].
Qed.

Lemma required_branch_size_Ok ii li c :
  required_branch_size kind w i t ps ii li = Ok c →
  w ≤ c ∧ BranchKind.supports_width kind c = true ∧ reachable c (displacement ws i t w c).
Proof.
  unfold required_branch_size. intros (r & Hr%first_fitting_Ok & Hc)%bind_Ok.
  destruct r as [c'|]; [|inv_ok; done]. apply Ok_inj in Hc as <-. naive_solver.
Qed.

(** A candidate that fits bounds the answer. *)
Lemma first_fitting_le cs r c :
  first_fitting kind w i t ps cs = Ok r → StronglySorted Z.le cs → c ∈ cs → w ≤ c →
  BranchKind.supports_width kind c = true → reachable c (displacement ws i t w c) →
  ∃ c', r = Some c' ∧ c' ≤ c.
Proof.
  induction cs as [|c0 cs IH]; simpl; [by intros _ _ ?%not_elem_of_nil|].
  intros Hr [Hsorted Hall]%StronglySorted_inv Hin Hle Hs Hf.
  apply elem_of_cons in Hin as [<-|Hin].
  - destruct (Z.ltb_spec c w); [lia|]. rewrite Hs in Hr. simpl in Hr.
    apply bind_Ok in Hr as (d & Hd%candidate_displacement_Ok & Hr). subst d.
    rewrite (proj2 (fits_spec _ _) Hf) in Hr. apply Ok_inj in Hr as <-. by exists c.
  - destruct ((c0 <? w) || negb _); [by apply IH|].
    apply bind_Ok in Hr as (d & Hd & Hr). destruct (fits c0 d).
    + apply Ok_inj in Hr as <-. exists c0. split; [done|].
      by apply (proj1 (Forall_forall _ _) Hall), list_elem_of_In.
    + by apply IH.
Qed.

Lemma candidates_sorted : StronglySorted Z.le [2; 3; 5].
Proof. repeat constructor; lia. Qed.

Lemma supports_candidate c : BranchKind.supports_width kind c = true → c ∈ [2; 3; 5].
Proof.
  intros Hs. assert (c = 2 ∨ c = 3 ∨ c = 5) as [->|[->| ->]].
  { destruct kind; simpl in Hs; repeat (apply orb_true_iff in Hs as [Hs|Hs]); bool_to_prop; lia. }
  all: by repeat (apply elem_of_cons; (by left) || right).
Qed.

Lemma required_branch_size_le ii li c c' :
  required_branch_size kind w i t ps ii li = Ok c → w ≤ c' →
  BranchKind.supports_width kind c' = true → reachable c' (displacement ws i t w c') → c ≤ c'.
Proof.
  unfold required_branch_size. intros (r & Hr & Hc)%bind_Ok Hle Hs Hf.
  destruct (first_fitting_le _ _ c' Hr candidates_sorted (supports_candidate _ Hs) Hle Hs Hf)
    as (x & -> & ?). apply Ok_inj in Hc as <-. done.
Qed.
End size.
End LayoutFacts.

(** ** Relaxation *)

Module RelaxFacts.
Import LayoutFacts.

(** The widths an item may have. *)
Definition width_ok (item : AssemblyItem) (w : Z) : Prop :=
  match item with
  | AssemblyItem.Instruction i => w = Instruction.encoded_size i
  | AssemblyItem.Branch kind _ => BranchKind.supports_width kind w = true
  | AssemblyItem.WithBranch _ _ _ _ => w = 10
  end.

Definition layout_ok (a : BytecodeAssembler) (ws : list Z) : Prop := Forall2 width_ok (items a) ws.

Lemma width_ok_bound item w : width_ok item w → 1 ≤ w ≤ 11.
Proof.
  destruct item as [i|k l|o at_ v l]; simpl.
  - intros ->. apply CodecFacts.encoded_size_bound.
  - intros Hs. destruct k; simpl in Hs; repeat (apply orb_true_iff in Hs as [Hs|Hs]); bool_to_prop; lia.
  - lia.
Qed.

Lemma layout_nonneg a ws : layout_ok a ws → Forall (Z.le 0) ws.
Proof.
  intros Hl. apply Forall_forall. intros w (i & Hi)%list_elem_of_In%list_elem_of_lookup_1.
  destruct (Forall2_lookup_r _ _ _ _ _ Hl Hi) as (item & _ & Hw%width_ok_bound). lia.
Qed.

Lemma minimum_layout a : layout_ok a (AssemblyItem.minimum_size <$> items a).
Proof.
  unfold layout_ok. induction (items a) as [|item l IH]; simpl; constructor; [|done].
  by destruct item as [i|[] l0|o at_ v l0].
Qed.

Section pass.
Context (a : BytecodeAssembler) (ws ps : list Z).
Context (Hlay : layout_ok a ws) (Hps : positions_from 0 ws = Ok ps)
  (Hb : ∀ l tp, target_position a l = Ok tp → (tp ≤ length (items a))%nat).

(** What a pass makes of one width. *)
Definition relaxed_width (i : nat) (item : AssemblyItem) (w w' : Z) : Prop :=
  match item with
  | AssemblyItem.Branch kind l =>
      ∃ tp c, target_position a l = Ok tp ∧
        required_branch_size kind w i tp ps (Z.of_nat i) l = Ok c ∧ w' = Z.max w c
  | _ => w' = w
  end.

Lemma length_layout : length ws = length (items a).
Proof. symmetry. by eapply Forall2_length. Qed.

Lemma position_at i : (i ≤ length (items a))%nat → ps !! i = Some (offset ws i).
Proof.
  intros Hi. destruct (positions_from_Ok _ _ _ Hps) as [_ Hp].
  rewrite Hp; [done|]. by rewrite length_layout.
Qed.

(** The state after the first [n] items of a pass. *)
Record pass_inv (n : nat) (state : list Z * bool) : Prop := {
  pass_length : length state.1 = length ws;
  pass_before j item w : (j < n)%nat → items a !! j = Some item → ws !! j = Some w →
    ∃ w', state.1 !! j = Some w' ∧ relaxed_width j item w w';
  pass_after j : (n ≤ j)%nat → state.1 !! j = ws !! j;
  pass_same : state.2 = false → state.1 = ws;
  pass_changed : state.2 = true →
    ∃ j w w', (j < n)%nat ∧ ws !! j = Some w ∧ state.1 !! j = Some w' ∧ w < w' }.

Lemma relax_item_inv i item st st' :
  items a !! i = Some item → pass_inv i st → relax_item a ps st (i, item) = Ok st' →
  pass_inv (i + 1) st'.
Proof.
  intros Hi Hinv Hr. destruct st as [cur ch].
  destruct Hinv as [Hlen Hbef Haft Hsame Hch]. simpl in *.
  assert (∀ x, relaxed_width i item x x → ∀ w, ws !! i = Some w → cur !! i = Some x → w = x →
    pass_inv (i + 1) (cur, ch)) as Hkeep.
  { intros x Hx w Hw Hc ->. constructor; simpl; try done.
    - intros j it w0 Hj Hit Hw0. destruct (decide (j = i)) as [->|]; [|apply Hbef; (done || lia)].
      simplify_eq. by exists x.
    - intros j Hj. apply Haft. lia.
    - intros Ht. destruct (Hch Ht) as (j & w & w' & ? & ?). exists j, w, w'. split; [lia|done]. }
  destruct (lookup_lt_is_Some_2 ws i) as [w Hw].
  { rewrite length_layout. by eapply lookup_lt_Some. }
  assert (cur !! i = Some w) as Hc by (by rewrite Haft).
  destruct item as [ins|k l|o at_ v l]; simpl in Hr; [by simplify_eq; eapply Hkeep| |by simplify_eq; eapply Hkeep].
  unfold index_or_panic in Hr. rewrite Hc in Hr. inv_ok.
  match goal with H : Some w = Some _ |- _ => injection H as <- end.
  match goal with H : try_u32 _ = Some _ |- _ => apply try_u32_Some in H as [-> _] end.
  rename select (target_position _ _ = _) into Ht. rename select (required_branch_size _ _ _ _ _ _ _ = _) into Hs.
  match type of Hs with _ = Ok ?x => rename x into c end.
  destruct (Z.ltb_spec w c); apply Ok_inj in Hr as <-.
  - constructor; simpl; [by rewrite length_insert| | |done|].
    + intros j it w0 Hj Hit Hw0. destruct (decide (j = i)) as [->|Hne].
      * simplify_eq. rewrite list_lookup_insert_eq by (by eapply lookup_lt_Some).
        exists c. split; [done|]. eexists _, c. split_and!; [done|done|lia].
      * rewrite list_lookup_insert_ne by done. apply Hbef; (done || lia).
    + intros j Hj. rewrite list_lookup_insert_ne by lia. apply Haft. lia.
    + intros _. exists i, w, c. split_and!; [lia|done| |lia].
      by rewrite list_lookup_insert_eq by (by eapply lookup_lt_Some).
  - eapply (Hkeep w); [|done..]. eexists _, c. split_and!; [done|done|lia].
Qed.

Lemma pass_Ok ws' ch :
  try_fold (relax_item a ps) (ws, false) (enumerate (items a)) = Ok (ws', ch) →
  pass_inv (length (items a)) (ws', ch).
Proof.
  intros Hf. apply (try_fold_enumerate _ pass_inv (items a) 0 _ _) in Hf; [done| |].
  - intros i item st st' Hi Hinv Hst. by eapply relax_item_inv.
  - constructor; simpl; try done. intros j item w Hj. lia.
Qed.

(** A branch that is not widened fits its layout. *)
Lemma relaxed_fits i k l w w' :
  items a !! i = Some (AssemblyItem.Branch k l) → ws !! i = Some w →
  relaxed_width i (AssemblyItem.Branch k l) w w' →
  w ≤ w' ∧ BranchKind.supports_width k w' = true ∧
  ∃ tp, target_position a l = Ok tp ∧ reachable w' (displacement ws i tp w w').
Proof.
  intros Hi Hw (tp & c & Ht & Hc & ->).
  pose proof (lookup_lt_Some _ _ _ Hi) as Hlt. pose proof (Hb l tp Ht) as Htp.
  apply (required_branch_size_Ok k ws ps i tp w) in Hc as (Hle & Hs & Hr);
    [|apply position_at; lia..].
  rewrite Z.max_r by done. split_and!; [done|done|]. by exists tp.
Qed.

Lemma pass_layout n st : (length (items a) ≤ n)%nat → pass_inv n st → layout_ok a st.1 ∧ Forall2 Z.le ws st.1.
Proof.
  intros Hn [Hlen Hbef _ _ _]. split.
  - apply Forall2_same_length_lookup. split; [by rewrite Hlen, length_layout|].
    intros i item w' Hi Hw'. destruct (Forall2_lookup_l _ _ _ _ _ Hlay Hi) as (w & Hw & Hok).
    destruct (Hbef i item w) as (w2 & Hw2 & Hr); [apply lookup_lt_Some in Hi; lia|done|done|].
    simplify_eq. destruct item; simpl in *; try congruence.
    by apply (relaxed_fits i kind label_index w w') in Hr as (_ & ? & _).
  - apply Forall2_same_length_lookup. split; [done|]. intros i w w' Hw Hw'.
    destruct (Forall2_lookup_r _ _ _ _ _ Hlay Hw) as (item & Hi & Hok).
    destruct (Hbef i item w) as (w2 & Hw2 & Hr); [apply lookup_lt_Some in Hi; lia|done|done|].
    simplify_eq. destruct item; simpl in Hr; [lia| |lia].
    by apply (relaxed_fits i kind label_index w w') in Hr as (? & _).
Qed.
End pass.

(** *** The measure *)

(** How often a width can still grow. *)
Definition slack (item : AssemblyItem) (w : Z) : nat :=
  match item with
  | AssemblyItem.Branch _ _ => if w <? 3 then 2%nat else if w <? 5 then 1%nat else 0%nat
  | _ => 0%nat
  end.

Definition slacks (l : list AssemblyItem) (ws : list Z) : nat := sum_list (zip_with slack l ws).

Lemma slack_le item w : (slack item w ≤ 2)%nat.
Proof. destruct item; simpl; repeat case_match; lia. Qed.

Lemma slacks_bound l ws : (slacks l ws ≤ 2 * length l)%nat.
Proof.
  unfold slacks. revert ws. induction l as [|item l IH]; intros [|w ws]; simpl; try lia.
  pose proof (slack_le item w). specialize (IH ws). lia.
Qed.

Lemma slack_decreases item w w' :
  width_ok item w → width_ok item w' → w ≤ w' →
  (slack item w' ≤ slack item w)%nat ∧ (w ≠ w' → (slack item w' < slack item w)%nat).
Proof.
  destruct item as [i|k l|o at_ v l]; simpl; [intros; split; lia| |intros; split; lia].
  intros Hw Hw' Hle.
  assert ((w = 2 ∨ w = 3 ∨ w = 5) ∧ (w' = 2 ∨ w' = 3 ∨ w' = 5)) as [[->|[->| ->]] [->|[->| ->]]]
    by (destruct k; simpl in *; repeat match goal with H : _ || _ = true |- _ =>
          apply orb_true_iff in H as [H|H] end; bool_to_prop; lia); simpl; lia.
Qed.

Lemma slacks_decrease l : ∀ ws ws',
  Forall2 width_ok l ws → Forall2 width_ok l ws' → Forall2 Z.le ws ws' →
  (slacks l ws' ≤ slacks l ws)%nat ∧ (ws ≠ ws' → (slacks l ws' < slacks l ws)%nat).
Proof.
  unfold slacks. induction l as [|item l IH]; intros ws ws' H1 H2 Hle.
  { apply Forall2_nil_inv_l in H1 as ->, H2 as ->. done. }
  apply Forall2_cons_inv_l in H1 as (w & ws1 & Hw & H1 & ->).
  apply Forall2_cons_inv_l in H2 as (w' & ws1' & Hw' & H2 & ->).
  apply Forall2_cons_1 in Hle as [Hlew Hle]. simpl.
  destruct (IH _ _ H1 H2 Hle) as [Ha Hb]. destruct (slack_decreases item w w' Hw Hw' Hlew) as [Hc Hd].
  split; [lia|]. intros Hne. destruct (decide (w = w')) as [<-|]; [|specialize (Hd ltac:(done)); lia].
  assert (ws1 ≠ ws1') as Hne' by congruence. specialize (Hb Hne'). lia.
Qed.

(** *** The fixed point *)

(** The distance a branch from item [i] to item [t] encodes. *)
Definition distance (ws : list Z) (i t : nat) : Z := offset ws t - (offset ws i + 1).

(** Every branch reaches its label at its own width. *)
Definition branches_fit (a : BytecodeAssembler) (ws : list Z) : Prop :=
  ∀ i k l, items a !! i = Some (AssemblyItem.Branch k l) →
    ∃ tp w, target_position a l = Ok tp ∧ ws !! i = Some w ∧ reachable w (distance ws i tp).

Definition targets_in_plan (a : BytecodeAssembler) : Prop :=
  ∀ l tp, target_position a l = Ok tp → (tp ≤ length (items a))%nat.

Lemma displacement_own ws i t w : displacement ws i t w w = distance ws i t.
Proof. unfold displacement, distance. destruct (decide _); lia. Qed.

Lemma pass_stable a ws ps :
  layout_ok a ws → positions_from 0 ws = Ok ps → targets_in_plan a →
  pass_inv a ws ps (length (items a)) (ws, false) → branches_fit a ws.
Proof.
  intros Hlay Hps Ht [_ Hbef _ _ _] i k l Hi.
  destruct (Forall2_lookup_l _ _ _ _ _ Hlay Hi) as (w & Hw & Hok).
  destruct (Hbef i _ w (lookup_lt_Some _ _ _ Hi) Hi Hw) as (w' & Hw' & Hr).
  simpl in Hw'. assert (w' = w) as -> by congruence.
  destruct (relaxed_fits a ws ps Hlay Hps Ht i k l w w Hi Hw Hr) as (_ & _ & tp & Htp & Hreach).
  exists tp, w. split_and!; [done|done|]. by rewrite displacement_own in Hreach.
Qed.

Lemma pass_result a ws ps ws' ch :
  layout_ok a ws → positions_from 0 ws = Ok ps → targets_in_plan a →
  try_fold (relax_item a ps) (ws, false) (enumerate (items a)) = Ok (ws', ch) →
  layout_ok a ws' ∧ Forall2 Z.le ws ws' ∧
  (if ch then (slacks (items a) ws' < slacks (items a) ws)%nat else ws' = ws ∧ branches_fit a ws).
Proof.
  intros Hlay Hps Ht Hp%(pass_Ok a ws ps Hlay).
  destruct (pass_layout a ws ps Hlay Hps Ht _ _ (le_n _) Hp) as [Hlay' Hle]. simpl in *.
  split_and!; [done|done|]. destruct ch.
  - apply slacks_decrease; [done..|]. intros <-.
    destruct (pass_changed _ _ _ _ _ Hp eq_refl) as (j & w & w' & _ & Hw & Hw' & ?).
    simpl in *. simplify_eq. lia.
  - assert (ws' = ws) as -> by (by apply (pass_same _ _ _ _ _ Hp)). split; [done|].
    by eapply pass_stable.
Qed.

Lemma relax_Ok a fuel : ∀ ev ws ws' ps,
  layout_ok a ws → targets_in_plan a → relax a fuel ev ws = Ok (ws', ps) →
  layout_ok a ws' ∧ positions_from 0 ws' = Ok ps ∧ branches_fit a ws'.
Proof.
  induction fuel as [|fuel IH]; intros ev ws ws' ps Hlay Ht; simpl; [done|].
  intros Hr. inv_ok. rename select (populate_instruction_positions _ = _) into Hps.
  rename select (try_fold _ _ _ = _) into Hp.
  match type of Hp with _ = Ok ?s => destruct s as [ws1 ch] end.
  apply pass_result in Hp as (Hlay1 & _ & Hch); [|done..].
  destruct ch; simpl in Hr; [by eapply IH|]. injection Hr as <- <-.
  destruct Hch as [-> ?]. done.
Qed.

(** *** Minimality *)

Lemma reachable_between w d D :
  reachable w D → (0 ≤ d ≤ D ∨ D ≤ d < 0) → reachable w d.
Proof. unfold reachable. unfold_ints. lia. Qed.

(** Under smaller widths a branch of width [v] reaches at least as well. *)
Lemma displacement_between ws vs i t w v :
  Forall (Z.le 0) ws → Forall2 Z.le ws vs → ws !! i = Some w → vs !! i = Some v → 1 ≤ v →
  0 ≤ displacement ws i t w v ≤ distance vs i t ∨ distance vs i t ≤ displacement ws i t w v < 0.
Proof.
  intros Hpos Hle Hw Hv Hv1. unfold displacement, distance. destruct (decide (i < t)%nat) as [Hlt|Hge].
  - left. pose proof (offset_succ _ _ _ Hw). pose proof (offset_succ _ _ _ Hv).
    pose proof (span_mono _ _ Hle (S i) t ltac:(lia)).
    pose proof (offset_mono ws (S i) t Hpos ltac:(lia)). lia.
  - right. pose proof (span_mono _ _ Hle t i ltac:(lia)).
    pose proof (offset_mono ws t i Hpos ltac:(lia)). lia.
Qed.

Lemma pass_below a ws ps ws' ch vs :
  layout_ok a ws → positions_from 0 ws = Ok ps → targets_in_plan a →
  layout_ok a vs → branches_fit a vs → Forall2 Z.le ws vs →
  try_fold (relax_item a ps) (ws, false) (enumerate (items a)) = Ok (ws', ch) →
  Forall2 Z.le ws' vs.
Proof.
  intros Hlay Hps Ht Hvs Hfit Hle Hp%(pass_Ok a ws ps Hlay). destruct Hp as [Hlen Hbef _ _ _].
  simpl in *. apply Forall2_same_length_lookup. split; [rewrite Hlen; by eapply Forall2_length|].
  intros i w' v Hw' Hv. destruct (Forall2_lookup_r _ _ _ _ _ Hvs Hv) as (item & Hi & Hokv).
  destruct (Forall2_lookup_r _ _ _ _ _ Hle Hv) as (w & Hw & Hwv).
  pose proof (lookup_lt_Some _ _ _ Hi) as Hlt.
  destruct (Hbef i item w) as (w2 & Hw2 & Hr); [done..|]. assert (w2 = w') as -> by congruence.
  destruct item as [ins|k l|o at_ x l]; simpl in Hr; [lia| |lia].
  destruct Hr as (tp & c & Htp & Hc & ->). destruct (Hfit i k l Hi) as (tp' & v' & Htp' & Hv' & Hreach).
  assert (tp' = tp) as -> by congruence. assert (v' = v) as -> by congruence. apply Z.max_lub; [done|].
  eapply (required_branch_size_le k ws ps i tp w); [..|exact Hc|done|done|].
  - apply (position_at a ws ps Hlay Hps). lia.
  - apply (position_at a ws ps Hlay Hps). by apply (Ht l).
  - eapply reachable_between; [exact Hreach|]. eapply displacement_between; try done.
    + by eapply layout_nonneg.
    + by eapply width_ok_bound.
Qed.

Lemma relax_least a fuel : ∀ ev ws ws' ps vs,
  layout_ok a ws → targets_in_plan a → layout_ok a vs → branches_fit a vs → Forall2 Z.le ws vs →
  relax a fuel ev ws = Ok (ws', ps) → Forall2 Z.le ws' vs.
Proof.
  induction fuel as [|fuel IH]; intros ev ws ws' ps vs Hlay Ht Hvs Hfit Hle; simpl; [done|].
  intros Hr. inv_ok. rename select (populate_instruction_positions _ = _) into Hps.
  rename select (try_fold _ _ _ = _) into Hp.
  match type of Hp with _ = Ok ?s => destruct s as [ws1 ch] end.
  pose proof (pass_below a ws _ ws1 ch vs Hlay Hps Ht Hvs Hfit Hle Hp) as Hle1.
  apply pass_result in Hp as (Hlay1 & _ & Hch); [|done..].
  destruct ch; simpl in Hr; [by eapply IH|]. by injection Hr as <- <-.
Qed.

Lemma minimum_least a vs : layout_ok a vs → Forall2 Z.le (AssemblyItem.minimum_size <$> items a) vs.
Proof.
  unfold layout_ok. induction 1 as [|item v l vs Hv _ IH]; simpl; constructor; [|done].
  destruct item as [i|k l0|o at_ x l0]; simpl in *; [lia| |lia].
  destruct k; simpl in *; repeat match goal with H : _ || _ = true |- _ =>
    apply orb_true_iff in H as [H|H] end; bool_to_prop; lia.
Qed.
End RelaxFacts.

(** ** Threading *)

Module ThreadFacts.

Section threading.
Context (a : BytecodeAssembler).

(** The label a redundant [goto] at label [l] leads to. *)
Definition goto_step (l l' : nat) : Prop :=
  ∃ z, label_goto_target a l = Some z ∧ l' = Z.to_nat z.

Definition goto_chain : nat → nat → Prop := rtc goto_step.

(** A label from which the [goto]s never end. *)
Definition diverges (l : nat) : Prop := ∀ t, goto_chain l t → is_Some (label_goto_target a t).

Lemma goto_step_functional l x y : goto_step l x → goto_step l y → x = y.
Proof. intros (z & Hz & ->) (z' & Hz' & ->). congruence. Qed.

Lemma chain_split l t u : goto_chain l t → goto_chain l u → goto_chain t u ∨ goto_chain u t.
Proof.
  intros Ht. revert u. induction Ht as [l|l x t Hs Hxt IH]; intros u Hu; [by left|].
  destruct Hu as [l|l y u Hs' Hyu]; [right; by eapply rtc_l|].
  rewrite (goto_step_functional _ _ _ Hs' Hs) in Hyu. by apply IH.
Qed.

Lemma diverges_chain l t : goto_chain l t → diverges t → diverges l.
Proof.
  intros Hlt Hd u Hlu. destruct (chain_split l t u Hlt Hlu) as [Htu|Hut]; [by apply Hd|].
  destruct Hut as [u|u x t (z & Hz & _) _]; [by apply Hd, rtc_refl|by exists z].
Qed.

Lemma tc_first c t : tc goto_step c t → ∃ x, goto_step c x ∧ goto_chain x t.
Proof.
  destruct 1 as [c x Hx|c x t Hx Hrest]; exists x; split; try done.
  by apply tc_rtc.
Qed.

Lemma loop_diverges c : tc goto_step c c → diverges c.
Proof.
  intros Hc t Hct. induction Hct as [c|c x t Hs Hxt IH].
  - apply tc_first in Hc as (x & (z & Hz & _) & _). by exists z.
  - apply IH. apply tc_first in Hc as (y & Hy & Hyc).
    rewrite (goto_step_functional _ _ _ Hy Hs) in Hyc.
    eapply tc_rtc_l; [exact Hyc|]. by apply tc_once.
Qed.

(** *** Draining the path *)

Lemma length_drain path st : ∀ ss, length (drain_path path st ss) = length ss.
Proof.
  unfold drain_path. induction path as [|l path IH]; intros ss; simpl; [done|].
  by rewrite IH, length_insert.
Qed.

Lemma drain_lookup path st : ∀ ss l,
  drain_path path st ss !! l = Some st ∧ l ∈ path ∨ drain_path path st ss !! l = ss !! l ∧
  (l ∈ path → ss !! l = None).
Proof.
  unfold drain_path. induction path as [|p path IH]; intros ss l; simpl.
  { right. split; [done|]. by intros ?%not_elem_of_nil. }
  destruct (IH (<[p := st]> ss) l) as [[H1 H2]|[H1 H2]].
  - left. split; [done|]. apply elem_of_cons. by right.
  - rewrite H1. destruct (decide (l = p)) as [->|Hne].
    + destruct (decide (p < length ss)%nat).
      * left. split; [by apply list_lookup_insert_eq|]. apply elem_of_cons. by left.
      * right. rewrite list_insert_ge by lia. split; [done|].
        intros _. by apply lookup_ge_None_2; lia.
    + right. rewrite list_lookup_insert_ne in H1 |- * by done.
      split; [done|]. intros [?|Hin]%elem_of_cons; [done|].
      specialize (H2 Hin). by rewrite list_lookup_insert_ne in H2.
Qed.

(** *** The states *)

(** What a settled state says of its label. *)
Definition state_ok (l : nat) (st : BranchTargetState) : Prop :=
  match st with
  | BranchTargetState.Terminal t =>
      0 ≤ t ∧ goto_chain l (Z.to_nat t) ∧ label_goto_target a (Z.to_nat t) = None
  | BranchTargetState.Cycle => diverges l
  | _ => True
  end.

(** The states say the truth and the labels being resolved are those of the
    path. *)
Record truthful (path : list nat) (ss : list BranchTargetState) : Prop := {
  truthful_ok l st : ss !! l = Some st → state_ok l st;
  truthful_path l : ss !! l = Some BranchTargetState.Resolving ↔ l ∈ path }.

Lemma drain_settles path ss st :
  truthful path ss → st ≠ BranchTargetState.Resolving → (∀ l, l ∈ path → state_ok l st) →
  truthful [] (drain_path path st ss).
Proof.
  intros [Hok Hres] Hst Hpath. split.
  - intros l st' Hl. destruct (drain_lookup path st ss l) as [[H1 H2]|[H1 _]].
    + rewrite H1 in Hl. injection Hl as <-. by apply Hpath.
    + apply Hok. by rewrite <- H1.
  - intros l. rewrite elem_of_nil. split; [|done]. intros Hl.
    destruct (drain_lookup path st ss l) as [[H1 H2]|[H1 H2]]; [congruence|].
    rewrite H1 in Hl. pose proof Hl as Hin%Hres. apply H2 in Hin. congruence.
Qed.

Lemma drain_known path st (ss : list BranchTargetState) (l : nat) :
  st ≠ BranchTargetState.Unknown → ss !! l ≠ Some BranchTargetState.Unknown →
  drain_path path st ss !! l ≠ Some BranchTargetState.Unknown.
Proof. intros Hst Hl. destruct (drain_lookup path st ss l) as [[H1 _]|[H1 _]]; congruence. Qed.

Lemma mark_truthful path current ss :
  truthful path ss → ss !! current = Some BranchTargetState.Unknown →
  truthful (path ++ [current]) (<[current := BranchTargetState.Resolving]> ss).
Proof.
  intros [Hok Hres] Hcur. pose proof (lookup_lt_Some _ _ _ Hcur) as Hlt. split.
  - intros l st Hl. destruct (decide (l = current)) as [->|Hne].
    + rewrite list_lookup_insert_eq in Hl by done. by simplify_eq.
    + rewrite list_lookup_insert_ne in Hl by done. by apply Hok.
  - intros l. rewrite elem_of_app, list_elem_of_singleton.
    destruct (decide (l = current)) as [->|Hne].
    + rewrite list_lookup_insert_eq by done. naive_solver.
    + rewrite list_lookup_insert_ne by done. rewrite Hres. naive_solver.
Qed.

Lemma mark_known (ss : list BranchTargetState) (current l : nat) :
  ss !! l ≠ Some BranchTargetState.Unknown →
  <[current := BranchTargetState.Resolving]> ss !! l ≠ Some BranchTargetState.Unknown.
Proof.
  intros Hl. destruct (decide (l = current)) as [->|Hne];
    [|by rewrite list_lookup_insert_ne by done].
  destruct (decide (current < length ss)%nat); [by rewrite list_lookup_insert_eq by done|].
  by rewrite list_insert_ge by lia.
Qed.

(** One walk settles its path, and the current label with it. *)
Lemma resolve_chain_Ok fuel : ∀ current path ss ss',
  truthful path ss → (∀ l, l ∈ path → tc goto_step l current) →
  resolve_chain a fuel current path ss = Ok ss' →
  truthful [] ss' ∧ length ss' = length ss ∧ ss' !! current ≠ Some BranchTargetState.Unknown ∧
  ∀ l, ss !! l ≠ Some BranchTargetState.Unknown → ss' !! l ≠ Some BranchTargetState.Unknown.
Proof.
  induction fuel as [|fuel IH]; intros current path ss ss' Htr Hch; cbn [resolve_chain]; [done|].
  unfold index_or_panic. destruct (ss !! current) as [st|] eqn:Hcur; [|done].
  cbn [ok_or mbind result_bind]. destruct st as [| |t|].
  - destruct (label_goto_target a current) as [next|] eqn:Hnext.
    + intros Hr. apply IH in Hr as (Htr' & Hlen & Hn & Hk).
      * rewrite length_insert in Hlen. split_and!; [done|done| |].
        -- apply Hk. by rewrite list_lookup_insert_eq by (by eapply lookup_lt_Some).
        -- intros l Hl. by apply Hk, mark_known.
      * by apply mark_truthful.
      * assert (goto_step current (Z.to_nat next)) as Hs by (by exists next).
        intros l [Hl|Hl]%elem_of_app; [eapply tc_r; [by apply Hch|done]|].
        apply list_elem_of_singleton in Hl as ->. by apply tc_once.
    + intros Hr. inv_ok. rename select (try_u32 _ = _) into Hu.
      apply try_u32_Some in Hu as [-> _]. subst ss'. split_and!.
      * eapply drain_settles; [by apply mark_truthful|done|]. intros l Hl. simpl.
        rewrite Nat2Z.id. split_and!; [lia| |done].
        apply elem_of_app in Hl as [Hl|Hl]; [by apply tc_rtc, Hch|].
        apply list_elem_of_singleton in Hl as ->. apply rtc_refl.
      * by rewrite length_drain, length_insert.
      * apply drain_known; [done|]. by rewrite list_lookup_insert_eq by (by eapply lookup_lt_Some).
      * intros l Hl. by apply drain_known, mark_known.
  - intros [= <-]. assert (tc goto_step current current) as Hloop by (by apply Hch, (truthful_path _ _ Htr)).
    split_and!; [|apply length_drain|apply drain_known; [done|congruence]|intros; by apply drain_known].
    apply drain_settles; [done|done|]. intros l Hl. simpl.
    eapply diverges_chain; [by apply tc_rtc, Hch|by apply loop_diverges].
  - intros [= <-].
    split_and!; [|apply length_drain|apply drain_known; [done|congruence]|intros; by apply drain_known].
    pose proof (truthful_ok _ _ Htr _ _ Hcur) as (? & Hc & ?). apply drain_settles; [done|done|].
    intros l Hl. split_and!; [done| |done]. etrans; [by apply tc_rtc, Hch|exact Hc].
  - intros [= <-].
    split_and!; [|apply length_drain|apply drain_known; [done|congruence]|intros; by apply drain_known].
    pose proof (truthful_ok _ _ Htr _ _ Hcur) as Hd. apply drain_settles; [done|done|].
    intros l Hl. eapply diverges_chain; [by apply tc_rtc, Hch|exact Hd].
Qed.

Lemma resolve_start_Ok ss start ss' :
  truthful [] ss → resolve_start a ss start = Ok ss' →
  truthful [] ss' ∧ length ss' = length ss ∧ ss' !! start ≠ Some BranchTargetState.Unknown ∧
  ∀ l, ss !! l ≠ Some BranchTargetState.Unknown → ss' !! l ≠ Some BranchTargetState.Unknown.
Proof.
  unfold resolve_start, index_or_panic. intros Htr.
  destruct (ss !! start) as [st|] eqn:Hst; [|done]. cbn [ok_or mbind result_bind].
  destruct st; [|intros [= <-]; split_and!; (done || congruence)..].
  intros Hr. eapply resolve_chain_Ok; [done| |exact Hr]. by intros l ?%not_elem_of_nil.
Qed.

Lemma resolve_all_Ok n : ∀ k ss ss',
  truthful [] ss → (∀ l, (l < k)%nat → ss !! l ≠ Some BranchTargetState.Unknown) →
  try_fold (resolve_start a) ss (seq k n) = Ok ss' →
  truthful [] ss' ∧ length ss' = length ss ∧
  ∀ l, (l < k + n)%nat → ss' !! l ≠ Some BranchTargetState.Unknown.
Proof.
  induction n as [|n IH]; intros k ss ss' Htr Hk; cbn [seq try_fold].
  { intros [= <-]. split_and!; [done|done|]. intros l Hl. apply Hk. lia. }
  intros (ss1 & Hr%resolve_start_Ok & Hrest)%bind_Ok; [|done].
  destruct Hr as (Htr1 & Hlen1 & Hstart & Hkeep).
  apply IH in Hrest as (? & Hlen & Hall); [|done|].
  - split_and!; [done|congruence|]. intros l Hl. apply Hall. lia.
  - intros l Hl. destruct (decide (l = k)) as [->|]; [done|]. apply Hkeep, Hk. lia.
Qed.

Lemma truthful_start n : truthful [] (replicate n BranchTargetState.Unknown).
Proof.
  split.
  - by intros l st [-> _]%lookup_replicate_1.
  - intros l. split; [by intros [? _]%lookup_replicate_1|by intros ?%not_elem_of_nil].
Qed.

(** ** What threading makes of an item *)

(** A conditional or unconditional jump to a label is sent to the end of the
    chain of [goto]s there, and kept if that chain never ends; every other item
    is kept. *)
Definition threaded (item item' : AssemblyItem) : Prop :=
  match item with
  | AssemblyItem.Branch k l =>
      match k with
      | BranchKind.IfFalse | BranchKind.IfTrue | BranchKind.Goto =>
          ∃ l', item' = AssemblyItem.Branch k l' ∧ goto_chain (Z.to_nat l) (Z.to_nat l') ∧
            (0 ≤ l' ∧ label_goto_target a (Z.to_nat l') = None ∨ l' = l ∧ diverges (Z.to_nat l))
      | _ => item' = item
      end
  | _ => item' = item
  end.

Lemma thread_item_Ok ss item item' :
  truthful [] ss → (∀ l, ss !! l ≠ Some BranchTargetState.Unknown) →
  thread_item ss item = Ok item' → threaded item item'.
Proof.
  intros [Hok Hres] Hknown. destruct item as [i|k l|o at_ v l]; [by intros [= <-]| |by intros [= <-]].
  destruct k; simpl; [| | |by intros [= <-]..]; unfold index_or_panic;
    (destruct (ss !! Z.to_nat l) as [st|] eqn:Hst; [|done]; cbn [ok_or mbind result_bind];
     pose proof (Hok _ _ Hst) as Hs; destruct st as [| |t|];
     [by apply Hknown in Hst|by apply Hres, not_elem_of_nil in Hst| |]).
  all: try (intros [= <-]; exists l; split_and!; [done|apply rtc_refl|by right]).
  all: destruct Hs as (H0 & Hc & Hn); destruct (Z.eqb_spec t l) as [->|]; intros [= <-];
    eexists; split_and!; [done|exact Hc|by left|done|exact Hc|by left].
Qed.

Lemma threaded_kind item item' :
  threaded item item' →
  (∃ k l l', item = AssemblyItem.Branch k l ∧ item' = AssemblyItem.Branch k l') ∨ item' = item.
Proof.
  destruct item as [i|k l|o at_ v l]; simpl; [by right| |by right].
  destruct k; [intros (l' & -> & _); left; by eexists _, _, _..|by right|by right].
Qed.
End threading.

Lemma thread_Ok `{Allocator} a a' :
  thread_redundant_goto_targets a = Ok a' →
  identity a' = identity a ∧ label_bindings a' = label_bindings a ∧ limits a' = limits a ∧
  Forall2 (threaded a) (items a) (items a').
Proof.
  unfold thread_redundant_goto_targets. intros Ht. inv_ok. subst a'. cbn.
  split_and!; [done..|]. rename select (try_fold _ _ _ = _) into Hf.
  rename select (try_map _ _ = _) into Hm.
  apply resolve_all_Ok in Hf as (Htr & Hlen & Hk); [|by apply truthful_start|by intros; lia].
  apply try_map_Ok in Hm. eapply Forall2_impl; [|exact Hm]. intros item item' Hi.
  eapply thread_item_Ok; [done| |exact Hi]. intros l Hl. eapply Hk; [|exact Hl].
  apply lookup_lt_Some in Hl. rewrite Hlen, length_replicate in Hl. lia.
Qed.
End ThreadFacts.

(** A plan with a loop, a jump to a jump and an exit:
    [start: if_false exit; goto middle; middle: goto start; exit: return_undef]. *)
Definition demo_plan : BytecodeAssembler :=
  mkAssembler 7
    [AssemblyItem.Instruction (Instruction.mk FinalOpcode.PushTrue Operands.None);
     AssemblyItem.Branch BranchKind.IfFalse 2;
     AssemblyItem.Branch BranchKind.Goto 1;
     AssemblyItem.Branch BranchKind.Goto 0;
     AssemblyItem.Instruction (Instruction.mk FinalOpcode.ReturnUndef Operands.None)]
    [Some 0%nat; Some 3%nat; Some 4%nat] default_limits.

(** ** Properties *)

(** Threading follows redundant [goto]s and does nothing else: a
    conditional or unconditional jump is sent to the first label of its
    [goto] chain whose instruction is not a [goto], a jump into a cycle of
    [goto]s is left as it was, and no other item, label, limit or identity
    changes. *)
Theorem threading_exact (alloc : Allocator) (a a' : BytecodeAssembler)
    (Ht : thread_redundant_goto_targets a = Ok a') :
  identity a' = identity a ∧ label_bindings a' = label_bindings a ∧ limits a' = limits a ∧
  Forall2 (ThreadFacts.threaded a) (items a) (items a').
Proof. by apply ThreadFacts.thread_Ok. Qed.

Lemma threading_exact_witness :
  ThreadFacts.threaded demo_plan (AssemblyItem.Branch BranchKind.Goto 1)
    (AssemblyItem.Branch BranchKind.Goto 0).
Proof.
  destruct (threading_exact always_allocates demo_plan
    (set_items demo_plan
      [AssemblyItem.Instruction (Instruction.mk FinalOpcode.PushTrue Operands.None);
       AssemblyItem.Branch BranchKind.IfFalse 2;
       AssemblyItem.Branch BranchKind.Goto 0;
       AssemblyItem.Branch BranchKind.Goto 0;
       AssemblyItem.Instruction (Instruction.mk FinalOpcode.ReturnUndef Operands.None)]))
    as (_ & _ & _ & Hitems); [reflexivity|].
  exact (Forall2_lookup_lr _ _ _ 2%nat _ _ Hitems eq_refl eq_refl).
Defined.
