(* ===== verification/AssemblerFinish.v ===== *)
(** * Planning and finishing an assembly

    The invariant every planning operation of [Assembler] keeps, and what
    [finish] makes of a plan: it never panics or loops, it succeeds within
    stated resources, the relaxed layout is the least one, and the emitted
    bytes decode to the plan with every branch at the instruction of its
    label. *)

From S2P Require Import Prelude Opcode Codec VerifierModel VerifierPredecode Assembler AssemblerFacts.

(** ** The invariant of a plan *)

Module PlanFacts.

(** What an item must satisfy in an assembler with [n] labels. *)
Definition item_ok (n : nat) (item : AssemblyItem) : Prop :=
  match item with
  | AssemblyItem.Instruction i =>
      Instruction.valid i ∧
      contains_symbolic_label
        (OpcodeMetadata.operand_format (FinalOpcode.metadata (Instruction.opcode i))) = false
  | AssemblyItem.Branch _ l => 0 ≤ l < Z.of_nat n
  | AssemblyItem.WithBranch o atom value l =>
      is_with_opcode o = true ∧ is_u32 atom ∧ is_u8 value ∧ 0 ≤ l < Z.of_nat n
  end.

Definition limits_ok (l : AssemblerLimits) : Prop :=
  is_u32 (max_bytecode_bytes l) ∧ is_u32 (max_instructions l) ∧
  is_u64 (max_relaxation_evaluations l).

Record assembler_ok (a : BytecodeAssembler) : Prop := {
  ok_items : Forall (item_ok (length (label_bindings a))) (items a);
  ok_bindings l p : label_bindings a !! l = Some (Some p) → (p ≤ length (items a))%nat;
  ok_labels : len (label_bindings a) ≤ u32_max + 1;
  ok_instructions : len (items a) ≤ max_instructions (limits a);
  ok_limits : limits_ok (limits a) }.

(** One successful planning call, with arguments of their Rust types. *)
Inductive plan_step `{Allocator} (a : BytecodeAssembler) : BytecodeAssembler → Prop :=
| plan_new_label label a' : new_label a = Ok (label, a') → plan_step a a'
| plan_bind label a' : is_u32 (index label) → bind a label = Ok a' → plan_step a a'
| plan_push opcode operands n a' :
    Operands.in_range operands → push a opcode operands = Ok (n, a') → plan_step a a'
| plan_branch kind label n a' :
    is_u32 (index label) → branch a kind label = Ok (n, a') → plan_step a a'
| plan_with_branch opcode atom value label n a' :
    is_u32 atom → is_u8 value → is_u32 (index label) →
    with_branch a opcode atom value label = Ok (n, a') → plan_step a a'.

Lemma item_ok_mono n m item : (n ≤ m)%nat → item_ok n item → item_ok m item.
Proof. destruct item; simpl; intros; naive_solver lia. Qed.

Lemma next_instruction_index_Ok a n :
  next_instruction_index a = Ok n → n = len (items a) ∧ n + 1 ≤ max_instructions (limits a).
Proof.
  unfold next_instruction_index. intros Hn. inv_ok. subst.
  rename select (try_u32 _ = _) into Hu. apply try_u32_Some in Hu as [-> _]. bool_to_prop. lia.
Qed.

Lemma push_item_ok `{Allocator} a item a' :
  assembler_ok a → item_ok (length (label_bindings a)) item →
  len (items a) + 1 ≤ max_instructions (limits a) → push_item a item = Ok a' → assembler_ok a'.
Proof.
  intros [Hi Hb Hl Hn Hlim] Hitem Hroom Hp. unfold push_item in Hp. inv_ok. subst.
  constructor; simpl; try done.
  - apply Forall_app. split; [done|]. by apply Forall_cons_2; [|apply Forall_nil_2].
  - intros l p Hlp. rewrite length_app. apply Hb in Hlp. simpl. lia.
  - rewrite len_app. unfold len in *. simpl. lia.
Qed.

Lemma resolve_label_Ok a label b :
  resolve_label a label = Ok b → label_bindings a !! Z.to_nat (index label) = Some b.
Proof. unfold resolve_label. intros Hr. by inv_ok. Qed.

Lemma resolve_label_range a label b :
  0 ≤ index label → resolve_label a label = Ok b →
  0 ≤ index label < Z.of_nat (length (label_bindings a)).
Proof. intros H0 Hr%resolve_label_Ok%lookup_lt_Some. lia. Qed.

Lemma new_ok o ops i :
  Operands.in_range ops → Instruction.new o ops = Ok i → i = Instruction.mk o ops ∧ Instruction.valid i.
Proof.
  unfold Instruction.new. intros Hr Hn. repeat case_decide; simplify_eq. done.
Qed.

Section steps.
Context `{Allocator} (a : BytecodeAssembler) (Ha : assembler_ok a).

Lemma new_label_ok label a' : new_label a = Ok (label, a') → assembler_ok a'.
Proof.
  destruct Ha as [Hi Hb Hl Hn Hlim]. unfold new_label. intros Hnl. inv_ok. simplify_eq.
  rename select (try_u32 _ = _) into Hu. apply try_u32_Some in Hu as [-> Hu].
  constructor; simpl; try done.
  - eapply Forall_impl; [|exact Hi]. intros item. apply item_ok_mono. rewrite length_app. lia.
  - intros l p [Hlp|[_ Hlp]]%lookup_app_Some; [by apply (Hb l)|].
    by apply list_lookup_singleton_Some in Hlp as [_ ?].
  - rewrite len_app. unfold len in *. simpl. unfold_ints. lia.
Qed.

Lemma bind_ok label a' : bind a label = Ok a' → assembler_ok a'.
Proof.
  destruct Ha as [Hi Hb Hl Hn Hlim]. unfold bind. intros Hbd. inv_ok. subst.
  constructor; simpl; try done.
  - by rewrite length_insert.
  - intros l p [(_ & [= <-] & _)|[_ ?]]%list_lookup_insert_Some; [done|by apply (Hb l)].
  - unfold len in *. by rewrite length_insert.
Qed.

Lemma push_ok opcode operands n a' :
  Operands.in_range operands → push a opcode operands = Ok (n, a') → assembler_ok a'.
Proof.
  unfold push. intros Hr Hp. inv_ok. simplify_eq.
  rename select (next_instruction_index a = _) into Hn.
  apply next_instruction_index_Ok in Hn as [-> ?].
  rename select (Instruction.new _ _ = _) into Hnew. apply new_ok in Hnew as [-> Hv]; [|done].
  eapply push_item_ok; [done| |done|done]. by split.
Qed.

Lemma branch_ok kind label n a' :
  is_u32 (index label) → branch a kind label = Ok (n, a') → assembler_ok a'.
Proof.
  unfold branch. intros Hr Hp. inv_ok. simplify_eq.
  rename select (next_instruction_index a = _) into Hn.
  apply next_instruction_index_Ok in Hn as [-> ?].
  eapply push_item_ok; [done| |done|done]. simpl. eapply resolve_label_range; [|done].
  unfold_ints. lia.
Qed.

Lemma with_branch_ok opcode atom value label n a' :
  is_u32 atom → is_u8 value → is_u32 (index label) →
  with_branch a opcode atom value label = Ok (n, a') → assembler_ok a'.
Proof.
  unfold with_branch. intros Hat Hv Hr Hp. inv_ok. simplify_eq.
  rename select (next_instruction_index a = _) into Hn.
  apply next_instruction_index_Ok in Hn as [-> ?].
  rename select (negb _ = _) into Hw. apply negb_false_iff in Hw.
  eapply push_item_ok; [done| |done|done]. simpl. split_and!; [done|done|done| |].
  all: eapply resolve_label_range; [|done]; unfold_ints; lia.
Qed.
End steps.

Lemma plan_step_ok `{Allocator} a a' : assembler_ok a → plan_step a a' → assembler_ok a'.
Proof.
  intros Ha [label a1|label a1|? ? ? a1|? ? ? a1|? ? ? ? ? a1]; intros;
    eauto using new_label_ok, bind_ok, push_ok, branch_ok, with_branch_ok.
Qed.

Lemma start_ok identity limits : limits_ok limits → assembler_ok (with_limits identity limits).
Proof.
  intros Hl. constructor; simpl; try done.
  destruct Hl as (_ & ? & _). unfold len. simpl. unfold_ints. lia.
Qed.
End PlanFacts.

(** ** Plans whose labels are bound *)

Module ReadyFacts.
Import PlanFacts ThreadFacts.

Definition item_label (item : AssemblyItem) : option Z :=
  match item with
  | AssemblyItem.Branch _ l | AssemblyItem.WithBranch _ _ _ l => Some l
  | AssemblyItem.Instruction _ => None
  end.

(** A plan all of whose branches lead to an item. *)
Record ready (a : BytecodeAssembler) : Prop := {
  ready_ok : assembler_ok a;
  ready_target i item l : items a !! i = Some item → item_label item = Some l →
    ∃ tp, target_position a l = Ok tp ∧ (tp < length (items a))%nat }.

Lemma check_item_target_Ok a item l :
  check_item_target a item = Ok tt → item_label item = Some l →
  ∃ tp, target_position a l = Ok tp ∧ tp ≠ length (items a).
Proof.
  destruct item as [i|k z|o at_ v z]; simpl; [done|..]; intros Hc [= <-]; inv_ok;
    eexists; (split; [done|]); by apply bool_decide_eq_false in Hc.
Qed.

Lemma target_position_lookup a l tp :
  target_position a l = Ok tp ↔ label_bindings a !! Z.to_nat l = Some (Some tp).
Proof.
  unfold target_position. rewrite ok_or_Ok. destruct (label_bindings a !! Z.to_nat l) as [[]|]; naive_solver.
Qed.

Lemma targets_bounded a : assembler_ok a → RelaxFacts.targets_in_plan a.
Proof. intros Ha l tp Ht%target_position_lookup. by eapply ok_bindings. Qed.

Lemma validate_ready a : assembler_ok a → validate_bound_labels a = Ok tt → ready a.
Proof.
  intros Ha Hv. split; [done|]. unfold validate_bound_labels in Hv. inv_ok.
  match goal with H : try_for_each (check_item_target a) _ = _ |- _ => rename H into Hc end.
  apply try_for_each_Ok in Hc. intros i item l Hi Hl.
  destruct (check_item_target_Ok a item l) as (tp & Ht & Hne); [exact (Forall_lookup_1 _ _ _ _ Hc Hi)|done|].
  exists tp. split; [done|]. pose proof (targets_bounded a Ha _ _ Ht). lia.
Qed.

Section threading.
Context (a : BytecodeAssembler) (Ha : ready a).

(** Labels of a ready plan that some item uses. *)
Definition used (n : nat) : Prop :=
  ∃ i item z, items a !! i = Some item ∧ item_label item = Some z ∧ Z.to_nat z = n.

Lemma goto_step_used l l' : goto_step a l l' → used l'.
Proof.
  intros (z & Hz & ->). unfold label_goto_target in Hz.
  destruct (mjoin (label_bindings a !! l)) as [p|]; [|done]. simpl in Hz.
  destruct (items a !! p) as [item|] eqn:Hp; [|done]. simpl in Hz.
  exists p, item, z. split_and!; [done| |done]. destruct item as [|[]|]; try done.
Qed.

Lemma chain_used l l' : goto_chain a l l' → used l → used l'.
Proof.
  induction 1 as [|l x l' Hs _ IH]; [done|]. intros _. apply IH. by eapply goto_step_used.
Qed.

Lemma used_bound n : used n →
  ∃ tp, label_bindings a !! n = Some (Some tp) ∧ (tp < length (items a))%nat.
Proof.
  intros (i & item & z & Hi & Hl & <-). destruct (ready_target a Ha i item z Hi Hl) as (tp & Ht & ?).
  exists tp. split; [|done]. by apply target_position_lookup.
Qed.

Lemma threaded_label i item item' l' :
  items a !! i = Some item → threaded a item item' → item_label item' = Some l' →
  0 ≤ l' ∧ used (Z.to_nat l').
Proof.
  intros Hi Ht Hl'. assert (item_ok (length (label_bindings a)) item) as Hok.
  { eapply Forall_lookup_1; [|exact Hi]. by apply ok_items, ready_ok. }
  assert (item' = item → 0 ≤ l' ∧ used (Z.to_nat l')) as Hsame.
  { intros ->. split; [|by exists i, item, l'].
    destruct item; simplify_eq/=; naive_solver lia. }
  destruct item as [ins|k l|o at_ v l]; [by apply Hsame| |by apply Hsame].
  destruct k; [| | |by apply Hsame|by apply Hsame]; destruct Ht as (z & -> & Hc & Hend);
    simplify_eq/=; (split; [destruct Hend as [[? _]|[-> _]]; lia|]);
    (eapply chain_used; [exact Hc|]); by eexists i, _, l.
Qed.

Lemma thread_item_ok i item item' :
  items a !! i = Some item → threaded a item item' →
  item_ok (length (label_bindings a)) item'.
Proof.
  intros Hi Ht. assert (item_ok (length (label_bindings a)) item) as Hok.
  { eapply Forall_lookup_1; [|exact Hi]. by apply ok_items, ready_ok. }
  destruct (threaded_kind a item item' Ht) as [(k & l & l' & -> & ->)| ->]; [|done].
  destruct (threaded_label i _ _ l' Hi Ht eq_refl) as (H0 & (tp & Hb & _)%used_bound).
  simpl. apply lookup_lt_Some in Hb. lia.
Qed.
End threading.

Lemma thread_ready `{Allocator} a a' :
  ready a → thread_redundant_goto_targets a = Ok a' → ready a'.
Proof.
  intros Ha Ht. pose proof (thread_Ok a a' Ht) as (Hid & Hb & Hlim & Hitems).
  pose proof (Forall2_length Hitems) as Hlen. pose proof (ready_ok a Ha) as [Hi Hbi Hl Hn Hlo].
  split.
  - constructor; rewrite ?Hb, ?Hlim, <- ?Hlen; try done; [|unfold len in *; by rewrite <- Hlen].
    apply Forall_lookup_2. intros i item' Hi'.
    destruct (Forall2_lookup_r _ _ _ _ _ Hitems Hi') as (item & Hit & Hth).
    by eapply thread_item_ok.
  - intros i item' l' Hi' Hl'. destruct (Forall2_lookup_r _ _ _ _ _ Hitems Hi') as (item & Hit & Hth).
    destruct (threaded_label a Ha i item item' l' Hit Hth Hl') as (_ & Hu).
    destruct (used_bound a Ha _ Hu) as (tp & Htp & Hlt). exists tp. rewrite <- Hlen. split; [|done].
    apply target_position_lookup. by rewrite Hb.
Qed.
End ReadyFacts.

(** ** Emission *)

Module EmitFacts.
Import PlanFacts ReadyFacts LayoutFacts RelaxFacts BuilderFacts TargetFacts.

(** The final opcodes of a symbolic branch. *)
Definition branch_opcodes (k : BranchKind) : list FinalOpcode :=
  match k with
  | BranchKind.IfFalse => [FinalOpcode.IfFalse8; FinalOpcode.IfFalse]
  | BranchKind.IfTrue => [FinalOpcode.IfTrue8; FinalOpcode.IfTrue]
  | BranchKind.Goto => [FinalOpcode.Goto8; FinalOpcode.Goto16; FinalOpcode.Goto]
  | BranchKind.Catch => [FinalOpcode.Catch]
  | BranchKind.Gosub => [FinalOpcode.Gosub]
  end.

(** What a final branch of width [w] over the displacement [d] is. *)
Record is_branch_instruction (k : BranchKind) (w d : Z) (ins : Instruction) : Prop := {
  branch_valid : Instruction.valid ins;
  branch_size : Instruction.encoded_size ins = w;
  branch_opcode : Instruction.opcode ins ∈ branch_opcodes k;
  branch_target p np : label_target (mkDecoded p ins np) = Some (p + 1 + d) }.

Lemma supported_widths k w : BranchKind.supports_width k w = true → w = 2 ∨ w = 3 ∨ w = 5.
Proof.
  intros Hs. destruct k; simpl in Hs; repeat (apply orb_true_iff in Hs as [Hs|Hs]); bool_to_prop; lia.
Qed.

Lemma in_branch_opcodes k o : bool_decide (o ∈ branch_opcodes k) = true → o ∈ branch_opcodes k.
Proof. apply bool_decide_eq_true. Qed.

Lemma branch_instruction_Ok k w d ii li ins :
  BranchKind.supports_width k w = true → branch_instruction k w d ii li = Ok ins →
  is_branch_instruction k w d ins.
Proof.
  intros Hs Hb. destruct (supported_widths k w Hs) as [->|[->| ->]]; destruct k; try discriminate Hs;
    cbn in Hb; inv_ok; subst;
    repeat match goal with
    | H : try_i8 _ = Some _ |- _ => apply try_i8_Some in H as [-> ?]
    | H : try_i16 _ = Some _ |- _ => apply try_i16_Some in H as [-> ?]
    | H : try_i32 _ = Some _ |- _ => apply try_i32_Some in H as [-> ?]
    end;
    (apply new_ok in Hb as [-> Hv]; [|done]);
    (constructor; [done|reflexivity|apply in_branch_opcodes; reflexivity|reflexivity]).
Qed.

Lemma branch_instruction_succeeds k w d ii li :
  BranchKind.supports_width k w = true → reachable w d →
  ∃ ins, branch_instruction k w d ii li = Ok ins.
Proof.
  intros Hs Hr. destruct (supported_widths k w Hs) as [->|[->| ->]];
    destruct k; try discriminate Hs; destruct Hr as [[? Hr]|[[? Hr]|[? Hr]]]; try lia; cbn.
  all: rewrite ?(proj2 (try_i8_Some d d) (conj eq_refl Hr)), ?(proj2 (try_i16_Some d d) (conj eq_refl Hr)),
    ?(proj2 (try_i32_Some d d) (conj eq_refl Hr)); by eexists.
Qed.

Section emission.
Context (a : BytecodeAssembler) (ws ps : list Z).
Context (Ha : ready a) (Hlay : layout_ok a ws) (Hfit : branches_fit a ws)
  (Hps : positions_from 0 ws = Ok ps).

(** What an item becomes under the layout. *)
Definition emitted (i : nat) (item : AssemblyItem) (ins : Instruction) : Prop :=
  match item with
  | AssemblyItem.Instruction x => ins = x
  | AssemblyItem.Branch k l =>
      Instruction.opcode ins ∈ branch_opcodes k ∧
      ∃ tp, target_position a l = Ok tp ∧
        ∀ np, label_target (mkDecoded (offset ws i) ins np) = Some (offset ws tp)
  | AssemblyItem.WithBranch o atom value l =>
      ∃ tp d, target_position a l = Ok tp ∧
        ins = Instruction.mk o (Operands.AtomLabelU8 atom d value) ∧
        offset ws i + 5 + d = offset ws tp
  end.

Lemma with_opcode_size o : is_with_opcode o = true →
  o ≠ FinalOpcode.Invalid ∧
  OpcodeMetadata.operand_format (FinalOpcode.metadata o) = OperandFormat.AtomLabelU8 ∧
  OpcodeMetadata.instruction_size (FinalOpcode.metadata o) = 10.
Proof. by destruct o. Qed.

Lemma target_ps l tp : target_position a l = Ok tp → ps !! tp = Some (offset ws tp).
Proof.
  intros Ht. apply (position_at a ws ps Hlay Hps).
  by apply (targets_bounded a (ready_ok a Ha) l).
Qed.

Lemma final_instruction_Ok i ii item ins :
  items a !! i = Some item → final_instruction a ws ps i ii item = Ok ins →
  Instruction.valid ins ∧ ws !! i = Some (Instruction.encoded_size ins) ∧ emitted i item ins.
Proof.
  intros Hi Hf. assert (item_ok (length (label_bindings a)) item) as Hok.
  { eapply Forall_lookup_1; [|exact Hi]. by apply ok_items, ready_ok. }
  destruct (Forall2_lookup_l _ _ _ _ _ Hlay Hi) as (w & Hw & Hwok).
  assert (ps !! i = Some (offset ws i)) as Hpi.
  { apply (position_at a ws ps Hlay Hps). apply lookup_lt_Some in Hi. lia. }
  destruct item as [x|k l|o at_ v l]; simpl in Hf, Hok, Hwok.
  - injection Hf as <-. split_and!; [by destruct Hok|by rewrite Hw, Hwok|done].
  - unfold index_or_panic, signed_displacement in Hf. rewrite Hpi, Hw in Hf. inv_ok. inv_checked.
    rename select (target_position _ _ = _) into Ht. pose proof (target_ps _ _ Ht) as Htp.
    match goal with H : try_i64 _ = Some _ |- _ => apply try_i64_Some in H as [-> _] end.
    simplify_eq. apply branch_instruction_Ok in Hf as [Hv Hsz Hop Htg]; [|done].
    split_and!; [done|by rewrite Hsz|]. split; [done|]. eexists; split; [exact Ht|]. intros np.
    rewrite Htg. f_equal. simplify_eq. lia.
  - unfold index_or_panic, with_branch_displacement in Hf. rewrite Hpi in Hf. inv_ok. inv_checked.
    rename select (target_position _ _ = _) into Ht. pose proof (target_ps _ _ Ht) as Htp.
    match goal with H : try_i32 _ = Some _ |- _ => apply try_i32_Some in H as [-> ?] end.
    apply new_ok in Hf as [-> Hv]; [|naive_solver]. destruct Hok as (Hop & _).
    split_and!; [done| |]; simpl.
    + rewrite Hw, Hwok. unfold Instruction.encoded_size. simpl.
      by destruct (with_opcode_size o Hop) as (_ & _ & ->).
    + eexists _, _. split_and!; [exact Ht|done|]. simplify_eq. lia.
Qed.

(** The emission loop after [n] items, with the instructions emitted so far. *)
Record emit_inv (limit : Z) (il : list Instruction) (n : nat)
    (state : BytecodeBuilder * list BytecodePc) : Prop := {
  emit_length : length il = n;
  emit_sizes : map Instruction.encoded_size il = take n ws;
  emit_valid : Forall Instruction.valid il;
  emit_items j ins item : il !! j = Some ins → items a !! j = Some item → emitted j item ins;
  emit_builder : builder_ok 0 state.1;
  emit_bytes : BytecodeBuilder.bytes state.1 = concat (map CodecFacts.instruction_wire il);
  emit_limit : BytecodeBuilder.byte_limit state.1 = limit;
  emit_pcs : state.2 = positions 0 il }.

Lemma positions_snoc l i : ∀ p,
  positions p (l ++ [i]) = positions p l ++ [p + total (map Instruction.encoded_size l)].
Proof.
  induction l as [|x l IH]; intros p; simpl; [by rewrite Z.add_0_r|].
  rewrite IH. do 3 f_equal. lia.
Qed.

Lemma len_wires l : Forall Instruction.valid l →
  len (concat (map CodecFacts.instruction_wire l)) = total (map Instruction.encoded_size l).
Proof.
  induction 1 as [|i l Hi _ IH]; [done|]. cbn [map concat]. rewrite len_app, IH.
  by rewrite CodecFacts.len_instruction_wire.
Qed.

Lemma emit_next_pc limit il n st :
  emit_inv limit il n st → BytecodeBuilder.next_pc st.1 = offset ws n.
Proof.
  intros [Hl Hsz Hv _ [Hpc _ _ _ _] Hby _ _]. rewrite Hpc, Hby, len_wires, Hsz by done.
  unfold offset. lia.
Qed.

Lemma emit_inv_start limit :
  is_u32 limit → emit_inv limit [] 0 (BytecodeBuilder.with_byte_limit limit, []).
Proof.
  intros Hl. constructor; simpl; try done. apply with_origin_ok; unfold_ints; lia.
Qed.

Section push.
Context `{Allocator}.

Lemma emit_inv_step limit il n b pcs item ins actual b' :
  emit_inv limit il n (b, pcs) → items a !! n = Some item → Instruction.valid ins →
  ws !! n = Some (Instruction.encoded_size ins) → emitted n item ins →
  BytecodeBuilder.push_instruction b ins = (Ok actual, b') →
  actual = offset ws n ∧ emit_inv limit (il ++ [ins]) (n + 1) (b', pcs ++ [actual]).
Proof.
  intros Hinv Hi Hv Hw Hem Hp. pose proof (emit_next_pc _ _ _ _ Hinv) as Hpc.
  destruct Hinv as [Hlen Hsz Hvs Hits Hb Hby Hlim Hpcs]. simpl in *.
  pose proof (push_instruction_builder_ok _ _ _ _ _ Hv Hb Hp) as Hb'.
  apply push_instruction_Ok in Hp as (-> & Hby' & _ & _ & _ & _ & Hlim'); [|done].
  split; [done|]. constructor; simpl; [|..|done| | |].
  - rewrite length_app. simpl. lia.
  - rewrite map_app, Hsz. simpl. replace (n + 1)%nat with (S n) by lia. by rewrite (take_S_r _ _ _ Hw).
  - apply Forall_app. split; [done|]. by apply Forall_cons_2; [|apply Forall_nil_2].
  - intros j x it [Hj|[Hge Hj]]%lookup_app_Some Hit; [by eapply Hits|].
    apply list_lookup_singleton_Some in Hj as [Hj <-].
    assert (j = n) as -> by lia. by simplify_eq.
  - by rewrite Hby', Hby, map_app, concat_app; simpl; rewrite app_nil_r.
  - by rewrite Hlim'.
  - rewrite positions_snoc, Hpcs, Hsz, Hpc. done.
Qed.

Lemma emit_item_Ok limit total_bytes il n st st' item :
  emit_inv limit il n st → items a !! n = Some item →
  emit_item a ws ps total_bytes st (n, item) = Ok st' →
  ∃ ins, emit_inv limit (il ++ [ins]) (n + 1) st'.
Proof.
  intros Hinv Hi He. destruct st as [b pcs]. unfold emit_item in He. inv_ok.
  rename select (final_instruction _ _ _ _ _ _ = _) into Hf.
  apply final_instruction_Ok in Hf as (Hv & Hw & Hem); [|done].
  match type of He with context [BytecodeBuilder.push_instruction b ?x] => rename x into ins end.
  destruct (BytecodeBuilder.push_instruction b ins) as [[actual|e] b'] eqn:Hp; [|done]. inv_ok. subst.
  exists ins. by eapply emit_inv_step.
Qed.

Lemma emit_all_Ok limit total_bytes st :
  is_u32 limit →
  try_fold (emit_item a ws ps total_bytes) (BytecodeBuilder.with_byte_limit limit, [])
    (enumerate (items a)) = Ok st →
  ∃ il, emit_inv limit il (length (items a)) st.
Proof.
  intros Hl Hf. apply (try_fold_enumerate _ (λ n st, ∃ il, emit_inv limit il n st) (items a) 0) in Hf;
    [done| |by exists []; apply emit_inv_start].
  intros i item s s' Hi (il & Hinv) Hs. destruct (emit_item_Ok _ _ _ _ _ _ _ Hinv Hi Hs) as (ins & ?).
  by exists (il ++ [ins]).
Qed.
End push.
End emission.
End EmitFacts.

(** ** The finished program *)

Module FinishFacts.
Import PlanFacts ReadyFacts ThreadFacts LayoutFacts RelaxFacts BuilderFacts TargetFacts EmitFacts.

Lemma relaxed_layout_Ok `{Allocator} a ws ps :
  assembler_ok a → relaxed_layout a = Ok (ws, ps) →
  layout_ok a ws ∧ positions_from 0 ws = Ok ps ∧ branches_fit a ws ∧
  ∀ vs, layout_ok a vs → branches_fit a vs → Forall2 Z.le ws vs.
Proof.
  intros Ha Hr. pose proof (targets_bounded a Ha) as Ht. unfold relaxed_layout in Hr. inv_ok.
  destruct (negb (existsb _ _)) eqn:Hb.
  - inv_ok. simplify_eq. split_and!; [apply minimum_layout|done| |].
    + intros i k l Hi. exfalso. apply negb_true_iff in Hb.
      assert (existsb AssemblyItem.is_branch (items a) = true) as E; [|congruence].
      apply existsb_exists. eexists. split; [|exact (eq_refl (AssemblyItem.is_branch (AssemblyItem.Branch k l)))].
      by apply list_elem_of_In, list_elem_of_lookup_2 with i.
    + intros vs Hvs _. by apply minimum_least.
  - destruct (relax_Ok a _ _ _ _ _ (minimum_layout a) Ht Hr) as (? & ? & ?).
    split_and!; [done..|]. intros vs Hvs Hfit.
    eapply relax_least; [apply minimum_layout|done|done|done|by apply minimum_least|exact Hr].
Qed.

(** The label of [d] is the position of the instruction [l] is bound to. *)
Definition lands (a : BytecodeAssembler) (ds : list DecodedInstruction) (l : Z)
    (d : DecodedInstruction) : Prop :=
  ∃ tp dt, target_position a l = Ok tp ∧ ds !! tp = Some dt ∧ label_target d = Some (pc dt).

(** [d] is the final form of [item] in the decoded program [ds]. *)
Definition realizes (a : BytecodeAssembler) (ds : list DecodedInstruction) (item : AssemblyItem)
    (d : DecodedInstruction) : Prop :=
  match item with
  | AssemblyItem.Instruction x => instruction d = x
  | AssemblyItem.Branch k l =>
      Instruction.opcode (instruction d) ∈ branch_opcodes k ∧
      match k with
      | BranchKind.IfFalse | BranchKind.IfTrue | BranchKind.Goto =>
          ∃ l', goto_chain a (Z.to_nat l) (Z.to_nat l') ∧
            (label_goto_target a (Z.to_nat l') = None ∨ l' = l ∧ diverges a (Z.to_nat l)) ∧
            lands a ds l' d
      | _ => lands a ds l d
      end
  | AssemblyItem.WithBranch o atom value l =>
      lands a ds l d ∧
      ∃ displacement, instruction d = Instruction.mk o (Operands.AtomLabelU8 atom displacement value)
  end.

Lemma positions_lookup l : ∀ p j, (j < length l)%nat →
  positions p l !! j = Some (p + offset (map Instruction.encoded_size l) j).
Proof.
  induction l as [|i l IH]; intros p j Hj; simpl in *; [lia|].
  destruct j as [|j]; simpl; [rewrite offset_0; f_equal; lia|].
  rewrite IH by lia. rewrite offset_cons. f_equal. lia.
Qed.

Section program.
Context (a : BytecodeAssembler) (ws : list Z) (Ha : ready a) (Hlay : layout_ok a ws).

(** The emitted bytes decode to the instructions of the items, each at its
    planned position. *)
Lemma emitted_program limit il b pcs :
  is_u32 limit → emit_inv a ws limit il (length (items a)) (b, pcs) →
  byte_list (BytecodeBuilder.bytes b) ∧ len (BytecodeBuilder.bytes b) ≤ limit ∧
  ∃ ds, decodes_to (BytecodeBuilder.bytes b) 0 ds ∧ map pc ds = pcs ∧
    length ds = length (items a) ∧
    ∀ j d item, ds !! j = Some d → items a !! j = Some item →
      pc d = offset ws j ∧ emitted a ws j item (instruction d).
Proof.
  intros Hl [Hlen Hsz Hv Hits [Hpc Hel Hlim Hu Hbytes] Hby Hlimit Hpcs]. simpl in *.
  split; [done|]. split; [lia|].
  destruct (StreamFacts.decodes_to_encoded il [] Hv) as (ds & Hds & Hmap).
  { rewrite <- Hby. unfold len at 1. simpl. lia. }
  simpl in Hds. rewrite <- Hby in Hds. exists ds.
  assert (map pc ds = pcs) as Hpcs'.
  { rewrite Hpcs, <- Hmap. by eapply map_pc_positions. }
  assert (length ds = length (items a)) as Hlen'.
  { by rewrite <- Hlen, <- Hmap, length_map. }
  split_and!; [done|done|done|]. intros j d item Hj Hi.
  assert (il !! j = Some (instruction d)) as Hins.
  { rewrite <- Hmap. by apply (list_lookup_fmap_Some_2 instruction ds j d). }
  split; [|by eapply Hits].
  assert (pcs !! j = Some (pc d)) as Hp.
  { rewrite <- Hpcs'. by apply (list_lookup_fmap_Some_2 pc ds j d). }
  rewrite Hpcs, positions_lookup, Hsz in Hp by (by eapply lookup_lt_Some).
  rewrite firstn_all2 in Hp; [simplify_eq; lia|].
  rewrite (Forall2_length Hlay). lia.
Qed.

Lemma emitted_lands ds i item d l :
  length ds = length (items a) →
  (∀ j d item, ds !! j = Some d → items a !! j = Some item →
      pc d = offset ws j ∧ emitted a ws j item (instruction d)) →
  ds !! i = Some d → items a !! i = Some item → item_label item = Some l → lands a ds l d.
Proof.
  intros Hlen Hall Hd Hi Hl. destruct (Hall i d item Hd Hi) as [Hpc Hem].
  destruct (ready_target a Ha i item l Hi Hl) as (tp & Ht & Hlt).
  destruct (lookup_lt_is_Some_2 ds tp) as [dt Hdt]; [lia|].
  destruct (lookup_lt_is_Some_2 (items a) tp) as [it Hit]; [lia|].
  destruct (Hall tp dt it Hdt Hit) as [Hpt _].
  exists tp, dt. split_and!; [done|done|]. rewrite Hpt. destruct d as [p ins np]. simpl in *. subst p.
  destruct item as [x|k z|o at_ v z]; simplify_eq/=.
  - destruct Hem as (_ & tp' & Ht' & Hlab). assert (tp' = tp) as -> by congruence. apply Hlab.
  - destruct Hem as (tp' & d & Ht' & -> & E). assert (tp' = tp) as -> by congruence.
    unfold label_target. simpl. f_equal. lia.
Qed.
End program.

(** Reads an item of the threaded plan back in the original one. *)
Lemma realizes_threaded a a' ds item item' i d ws :
  label_bindings a' = label_bindings a → threaded a item item' →
  (∀ l, item_label item' = Some l → lands a' ds l d) →
  emitted a' ws i item' (instruction d) → realizes a ds item d.
Proof.
  intros Hb Hth Hl Hem.
  assert (∀ l, lands a' ds l d → lands a ds l d) as Hsame.
  { intros l (tp & dt & Ht & ?). exists tp, dt. split; [|done].
    apply target_position_lookup. rewrite <- Hb. by apply target_position_lookup. }
  destruct item as [x|k l|o at_ v l]; simpl in Hth; [by subst item'| |subst item'].
  - destruct k; [| | |subst item'..]; try destruct Hth as (l' & -> & Hc & Hend);
      (split; [by destruct Hem|]); try (by apply Hsame, Hl);
      exists l'; (split_and!; [done| |by apply Hsame, Hl]); naive_solver.
  - destruct Hem as (tp & dd & _ & Hins & _). split; [by apply Hsame, Hl|by exists dd].
Qed.

Lemma finish_realizes `{Allocator} a out :
  assembler_ok a → finish a = Ok out →
  byte_list (assembled_bytecode out) ∧
  len (assembled_bytecode out) ≤ max_bytecode_bytes (limits a) ∧
  ∃ ds, decodes_to (assembled_bytecode out) 0 ds ∧ map pc ds = instruction_pcs out ∧
    Forall2 (realizes a ds) (items a) ds.
Proof.
  intros Ha Hf. unfold finish in Hf. inv_ok.
  rename select (validate_bound_labels a = _) into Hv. apply validate_ready in Hv as Hr; [|done].
  rename select (thread_redundant_goto_targets a = _) into Ht.
  match type of Ht with _ = Ok ?x => rename x into a' end.
  pose proof (thread_ready a a' Hr Ht) as Hr'. pose proof (thread_Ok a a' Ht) as (_ & Hb & Hlim & Hitems).
  rename select (relaxed_layout a' = _) into Hlay.
  match type of Hlay with _ = Ok ?x => destruct x as [ws ps] end. inv_ok.
  apply relaxed_layout_Ok in Hlay as (Hlay & Hps & Hfit & _); [|by apply ready_ok].
  match goal with H : try_fold _ _ _ = Ok ?x |- _ => destruct x as [b pcs]; rename H into He end.
  inv_ok. subst out. simpl. rewrite Hlim in He.
  assert (is_u32 (max_bytecode_bytes (limits a))) as Hu by (by apply Ha).
  apply (emit_all_Ok a' ws ps Hr' Hlay Hps) in He as (il & Hinv); [|done].
  destruct (emitted_program a' ws Hlay _ _ _ _ Hu Hinv) as (Hbl & Hle & ds & Hds & Hpcs & Hlen & Hall).
  split; [done|]. split; [done|]. exists ds. split_and!; [done|done|].
  apply Forall2_same_length_lookup. split; [by rewrite Hlen, (Forall2_length Hitems)|].
  intros i item d Hi Hd. destruct (Forall2_lookup_l _ _ _ _ _ Hitems Hi) as (item' & Hi' & Hth).
  eapply (realizes_threaded a a' ds item item' i d ws); [done|done| |].
  - intros l Hl. by eapply (emitted_lands a' ws Hr').
  - by apply Hall.
Qed.
End FinishFacts.

(** ** Progress

    [returns starved m]: the computation [m] gives a value, or, if [starved],
    an error of the source; never a panic or a cut loop.  At [True] this is the
    absence of panics, at [False] it is success: the same lemmas prove both,
    the resources they need being waived when [starved] holds. *)

Module ProgressFacts.
Import PlanFacts ReadyFacts ThreadFacts LayoutFacts RelaxFacts BuilderFacts EmitFacts.

Definition returns (starved : Prop) {A} (m : assembled A) : Prop :=
  match m with
  | Ok _ => True
  | Err (Failed _) => starved
  | Err Stuck => False
  end.

Section progress.
Context (starved : Prop).

Lemma returns_bind {A B} (m : assembled A) (f : A → assembled B) :
  returns starved m → (∀ x, m = Ok x → returns starved (f x)) → returns starved (m ≫= f).
Proof. destruct m as [x|[]]; simpl; auto. Qed.

Lemma returns_Ok {A} (x : A) : returns starved (Ok x : assembled A).
Proof. done. Qed.

Lemma returns_ok_or {A} (o : option A) e :
  starved ∨ is_Some o → returns starved (ok_or o (Failed e)).
Proof. intros [?|[x ->]]; [by destruct o|done]. Qed.

Lemma returns_index {A} (l : list A) i : is_Some (l !! i) → returns starved (index_or_panic l i).
Proof. unfold index_or_panic. by intros [x ->]. Qed.

Lemma returns_reject b e : starved ∨ b = false → returns starved (reject_if b (Failed e)).
Proof. intros [?| ->]; [by destruct b|done]. Qed.

Lemma returns_map_err {E A} (f : E → AssemblerError) (m : result E A) :
  starved ∨ (∃ x, m = Ok x) → returns starved (map_err (λ e, Failed (f e)) m).
Proof. intros [?|[x ->]]; [by destruct m|done]. Qed.

Lemma returns_reserve `{Allocator} site n k e :
  starved ∨ GenerousAllocator → returns starved (reserve site n k (Failed e)).
Proof.
  intros [?|Hg]; [|by rewrite reserve_generous]. unfold reserve, reject_if. by case_match.
Qed.

Lemma returns_try_fold_enumerate {St A} (f : St → nat * A → assembled St) (P : nat → St → Prop) l :
  ∀ n s, (∀ i x s, l !! i = Some x → P (n + i)%nat s → returns starved (f s ((n + i)%nat, x)) ∧
            ∀ s', f s ((n + i)%nat, x) = Ok s' → P (n + i + 1)%nat s') →
  P n s → returns starved (try_fold f s (enumerate_from n l)).
Proof.
  induction l as [|x l IH]; intros n s Hf Hs; [done|]. cbn [enumerate_from try_fold].
  destruct (Hf 0%nat x s eq_refl) as [Hr Hk]; rewrite Nat.add_0_r in *; [done|].
  apply returns_bind; [done|]. intros s1 Hs1. apply IH.
  - intros i y t Hi. replace (S n + i)%nat with (n + S i)%nat by lia. by apply Hf.
  - replace (S n) with (n + 1)%nat by lia. by apply Hk.
Qed.

Lemma returns_try_for_each {A} (f : A → assembled unit) l :
  (∀ x, x ∈ l → returns starved (f x)) → returns starved (try_for_each f l).
Proof.
  induction l as [|x l IH]; intros Hf; [done|]. cbn [try_for_each]. apply returns_bind.
  - apply Hf, elem_of_cons. by left.
  - intros _ _. apply IH. intros y Hy. apply Hf, elem_of_cons. by right.
Qed.

Lemma returns_try_map {A B} (f : A → assembled B) l :
  (∀ x, x ∈ l → returns starved (f x)) → returns starved (try_map f l).
Proof.
  induction l as [|x l IH]; intros Hf; [done|]. cbn [try_map]. apply returns_bind.
  { apply Hf, elem_of_cons. by left. }
  intros y _. apply returns_bind; [|done]. apply IH. intros z Hz. apply Hf, elem_of_cons. by right.
Qed.
End progress.

Create HintDb progress.
#[export] Hint Resolve returns_Ok returns_ok_or returns_index returns_reject returns_reserve
  returns_map_err : progress.

(** *** Validation and threading *)

Section threading.
Context (starved : Prop) `{Allocator} (Hmem : starved ∨ GenerousAllocator).
Context (a : BytecodeAssembler) (Ha : assembler_ok a).

(** All labels are bound and none that is used is at the end. *)
Definition labels_placed : Prop :=
  Forall is_Some (label_bindings a) ∧
  ∀ i item l, items a !! i = Some item → item_label item = Some l →
    label_bindings a !! Z.to_nat l ≠ Some (Some (length (items a))).

Lemma enumerate_elem {A} (l : list A) : ∀ n i x, (i, x) ∈ enumerate_from n l → x ∈ l.
Proof.
  induction l as [|y l IH]; intros n i x; simpl; [by intros ?%not_elem_of_nil|].
  intros [?|Hin]%elem_of_cons; apply elem_of_cons; [left; naive_solver|right; by eapply IH].
Qed.

Lemma item_label_bound i item l :
  items a !! i = Some item → item_label item = Some l → is_Some (label_bindings a !! Z.to_nat l).
Proof.
  intros Hi Hl. pose proof (Forall_lookup_1 _ _ _ _ (ok_items a Ha) Hi) as Hok.
  apply lookup_lt_is_Some_2. destruct item; simplify_eq/=; naive_solver lia.
Qed.

Lemma validate_returns : starved ∨ labels_placed → returns starved (validate_bound_labels a).
Proof.
  intros Hp. unfold validate_bound_labels. apply returns_bind.
  - apply returns_try_for_each. intros [i b] Hin%enumerate_elem. simpl.
    destruct b as [p|]; [done|]. destruct Hp as [Hs|[Hall _]].
    + apply returns_bind; [auto with progress|done].
    + apply Forall_forall with (x := None) in Hall; [by destruct Hall|by apply list_elem_of_In].
  - intros _ _. apply returns_try_for_each. intros item (i & Hi)%list_elem_of_lookup_1.
    assert (∀ l, item_label item = Some l → returns starved
      (target ← target_position a l;
       reject_if (bool_decide (target = length (items a))) (Failed (AssemblerError.TargetAtEnd l))))
      as Hgo; [|destruct item; [done|by apply Hgo..]].
    intros l Hl. apply returns_bind.
    + apply returns_ok_or. destruct Hp as [Hs|[Hall _]]; [by left|right].
      destruct (item_label_bound i item l Hi Hl) as [b Hb]. rewrite Hb.
      by apply (Forall_lookup_1 _ _ _ _ Hall Hb).
    + intros tp Ht. apply returns_reject. destruct Hp as [Hs|[_ Hend]]; [by left|right].
      apply bool_decide_eq_false. intros ->. apply target_position_lookup in Ht.
      by apply (Hend i item l Hi Hl).
Qed.

Definition unknowns (ss : list BranchTargetState) : nat :=
  length (filter (λ st, st = BranchTargetState.Unknown) ss).

Lemma unknowns_bound ss : (unknowns ss ≤ length ss)%nat.
Proof. apply length_filter. Qed.

Lemma unknowns_mark ss l :
  ss !! l = Some BranchTargetState.Unknown →
  (unknowns (<[l := BranchTargetState.Resolving]> ss) < unknowns ss)%nat.
Proof.
  intros Hl. unfold unknowns. rewrite <- (take_drop_middle ss l _ Hl) at 2.
  rewrite insert_take_drop by (by eapply lookup_lt_Some). rewrite !list.filter_app, !length_app.
  rewrite filter_cons_False by done. rewrite filter_cons_True by done. simpl. lia.
Qed.

(** Every turn that goes on marks a label, and the labels it goes to exist. *)
Lemma resolve_chain_returns fuel : ∀ current path ss,
  length ss = length (label_bindings a) → (current < length ss)%nat → (unknowns ss < fuel)%nat →
  returns starved (resolve_chain a fuel current path ss).
Proof.
  induction fuel as [|fuel IH]; intros current path ss Hlen Hcur Hfuel; [lia|].
  cbn [resolve_chain]. destruct (lookup_lt_is_Some_2 ss current Hcur) as [st Hst].
  unfold index_or_panic. rewrite Hst. cbn [ok_or mbind result_bind]. destruct st; [|done..].
  destruct (label_goto_target a current) as [next|] eqn:Hnext.
  - pose proof (unknowns_mark ss current Hst). apply IH; rewrite ?length_insert; [done| |lia].
    rewrite Hlen. destruct (goto_step_used a current (Z.to_nat next)) as (i & item & z & Hi & Hz & <-);
      [by exists next|].
    destruct (item_label_bound i item z Hi Hz) as [b Hb]. by eapply lookup_lt_Some.
  - apply returns_bind; [|done]. apply returns_ok_or. right. exists (Z.of_nat current).
    apply try_u32_Some. split; [done|]. pose proof (ok_labels a Ha). unfold len in *. unfold_ints. lia.
Qed.

Lemma resolve_all_returns n : ∀ k ss,
  truthful a [] ss → length ss = length (label_bindings a) → (k + n ≤ length ss)%nat →
  returns starved (try_fold (resolve_start a) ss (seq k n)).
Proof.
  induction n as [|n IH]; intros k ss Htr Hlen Hk; [done|]. cbn [seq try_fold]. apply returns_bind.
  - unfold resolve_start, index_or_panic. destruct (lookup_lt_is_Some_2 ss k) as [st ->]; [lia|].
    cbn [ok_or mbind result_bind]. destruct st; [|done..].
    apply resolve_chain_returns; [done|lia|]. pose proof (unknowns_bound ss). lia.
  - intros ss1 (Htr1 & Hlen1 & _)%resolve_start_Ok; [|done]. apply IH; [done|congruence|lia].
Qed.

Lemma thread_returns : returns starved (thread_redundant_goto_targets a).
Proof.
  unfold thread_redundant_goto_targets. repeat (apply returns_bind; [auto with progress|intros _ _]).
  assert (truthful a [] (replicate (length (label_bindings a)) BranchTargetState.Unknown)) as Htr
    by apply truthful_start.
  apply returns_bind.
  { apply resolve_all_returns; [done|..]; by rewrite length_replicate. }
  intros ss (_ & Hlen & _)%resolve_all_Ok; [|done|lia]. rewrite length_replicate in Hlen.
  apply returns_bind; [|done]. apply returns_try_map. intros item (i & Hi)%list_elem_of_lookup_1.
  destruct item as [x|k l|o at_ v l]; [done| |done].
  destruct (item_label_bound i _ l Hi eq_refl) as [b Hb%lookup_lt_Some].
  destruct k; [| | |done..]; simpl; (apply returns_bind;
    [apply returns_index, lookup_lt_is_Some_2; lia|intros []; done]).
Qed.
End threading.

(** *** Relaxation *)

(** The widest form of an item, and the plan's largest layout. *)
Definition widest (item : AssemblyItem) : Z :=
  match item with
  | AssemblyItem.Branch _ _ => 5
  | _ => AssemblyItem.minimum_size item
  end.

(** A layout in which every branch reaches its label and whose bytes number at
    most [limit]. *)
Record fitting_layout (a : BytecodeAssembler) (limit : Z) (vs : list Z) : Prop := {
  fitting_ok : layout_ok a vs;
  fitting_branches : branches_fit a vs;
  fitting_with i o atom value l tp :
    items a !! i = Some (AssemblyItem.WithBranch o atom value l) → target_position a l = Ok tp →
    is_i32 (offset vs tp - (offset vs i + 5));
  fitting_total : total vs ≤ limit }.

Section relaxation.
Context (starved : Prop) `{Allocator} (Hmem : starved ∨ GenerousAllocator).
Context (a : BytecodeAssembler) (Ha : ready a).
Context (vs : list Z) (Hvs : starved ∨ fitting_layout a u32_max vs).

Lemma total_le ws ws' : Forall2 Z.le ws ws' → total ws ≤ total ws'.
Proof. induction 1; simpl; lia. Qed.

Section pass.
Context (ws ps : list Z) (Hlay : layout_ok a ws) (Hps : positions_from 0 ws = Ok ps)
  (Hle : starved ∨ Forall2 Z.le ws vs).

Lemma offset_small i : starved ∨ 0 ≤ offset ws i ≤ u32_max.
Proof.
  destruct Hvs as [?|Hf]; [by left|]. destruct Hle as [?|Hle']; [by left|right].
  pose proof (layout_nonneg a ws Hlay) as Hpos. split; [by apply offset_nonneg|].
  etrans; [by apply offset_total|]. etrans; [by apply total_le|]. apply Hf.
Qed.

Lemma candidate_returns w i t c :
  (i ≤ length (items a))%nat → (t ≤ length (items a))%nat → 0 ≤ w ≤ c → c ≤ 11 →
  returns starved (candidate_displacement w i t ps c).
Proof.
  intros Hi Ht Hw Hc. unfold candidate_displacement, index_or_panic, signed_displacement.
  rewrite (position_at a ws ps Hlay Hps i Hi), (position_at a ws ps Hlay Hps t Ht).
  destruct (Z.ltb_spec c w); [lia|].
  cbn [ok_or mbind result_bind]. destruct (offset_small i) as [Hs|Hoi].
  { apply returns_bind; [case_decide; [auto with progress|done]|]. intros x _.
    apply returns_bind; [auto with progress|]. intros y _. auto with progress. }
  destruct (offset_small t) as [Hs|Hot].
  { apply returns_bind; [case_decide; [auto with progress|done]|]. intros x _.
    apply returns_bind; [auto with progress|]. intros y _. auto with progress. }
  rewrite (checked_add_u64_fits (offset ws t)), (checked_add_u64_fits (offset ws i) 1)
    by (unfold u32_max, u64_max in *; lia).
  unfold try_i64. case_decide; cbn [ok_or mbind result_bind];
    match goal with |- context [(?x <=? ?y) && (?y <=? ?z)] =>
      destruct (Z.leb_spec x y), (Z.leb_spec y z); [done|unfold u32_max in *; lia..] end.
Qed.

Lemma first_fitting_returns k w i t cs :
  (i ≤ length (items a))%nat → (t ≤ length (items a))%nat → 0 ≤ w ≤ 11 →
  Forall (λ c, 0 ≤ c ≤ 11) cs → returns starved (first_fitting k w i t ps cs).
Proof.
  intros Hi Ht Hw. induction 1 as [|c cs Hc _ IH]; [done|]. cbn [first_fitting].
  destruct (Z.ltb_spec c w); [done|]. destruct (negb _); [done|]. simpl.
  apply returns_bind; [apply candidate_returns; (done || lia)|].
  intros d _. by destruct (fits c d).
Qed.

(** A layout that fits offers a candidate that fits now. *)
Lemma fitting_candidate i k l tp w :
  fitting_layout a u32_max vs → Forall2 Z.le ws vs →
  items a !! i = Some (AssemblyItem.Branch k l) → target_position a l = Ok tp → ws !! i = Some w →
  ∃ v, w ≤ v ∧ BranchKind.supports_width k v = true ∧ reachable v (displacement ws i tp w v).
Proof.
  intros [Hvok Hvfit _ _] Hle' Hi Ht Hw. destruct (Hvfit i k l Hi) as (tp' & v & Ht' & Hv & Hreach).
  assert (tp' = tp) as -> by congruence. exists v.
  pose proof (Forall2_lookup_lr _ _ _ _ _ _ Hle' Hw Hv) as Hwv.
  pose proof (Forall2_lookup_lr _ _ _ _ _ _ Hvok Hi Hv) as Hok. split_and!; [done|done|].
  eapply reachable_between; [exact Hreach|]. eapply displacement_between; try done.
  - by eapply layout_nonneg.
  - by eapply width_ok_bound.
Qed.

Lemma required_returns i k l tp w ii :
  items a !! i = Some (AssemblyItem.Branch k l) → target_position a l = Ok tp → ws !! i = Some w →
  returns starved (required_branch_size k w i tp ps ii l).
Proof.
  intros Hi Ht Hw. pose proof (lookup_lt_Some _ _ _ Hi) as Hlt.
  pose proof (targets_bounded a (ready_ok a Ha) l tp Ht) as Htp.
  pose proof (width_ok_bound _ _ (Forall2_lookup_lr _ _ _ _ _ _ Hlay Hi Hw)) as Hwb.
  unfold required_branch_size. apply returns_bind.
  { apply first_fitting_returns; [lia|done|lia|]. repeat constructor; lia. }
  intros [c|] Hr; [done|]. destruct Hvs as [Hs|Hf], Hle as [Hs'|Hle'].
  4: { destruct (fitting_candidate i k l tp w Hf Hle' Hi Ht Hw) as (v & ? & Hsup & Hreach).
    destruct (first_fitting_le k ws ps i tp w) with (cs := [2; 3; 5]) (r := @None Z) (c := v)
      as (c' & [=] & _); try done.
    - apply (position_at a ws ps Hlay Hps). lia.
    - by apply (position_at a ws ps Hlay Hps).
    - apply candidates_sorted.
    - by eapply supports_candidate. }
  all: apply returns_bind; [|done]; apply candidate_returns; [lia|done| |by destruct k];
    destruct (supported_widths k w (Forall2_lookup_lr _ _ _ _ _ _ Hlay Hi Hw)) as [->|[->| ->]]; by destruct k.
Qed.

Lemma pass_returns :
  returns starved (try_fold (relax_item a ps) (ws, false) (enumerate (items a))).
Proof.
  apply (returns_try_fold_enumerate _ _ (pass_inv a ws ps)); simpl.
  2: { constructor; simpl; try done. intros j item w Hj. lia. }
  intros i item [cur ch] Hi Hinv. split; [|intros st' Hst; by eapply relax_item_inv].
  destruct item as [x|k l|o at_ v l]; [done| |done]. cbn [relax_item].
  destruct (ready_target a Ha i _ l Hi eq_refl) as (tp & Ht & _). rewrite Ht.
  destruct (lookup_lt_is_Some_2 ws i) as [w Hw].
  { rewrite (length_layout a ws Hlay). by eapply lookup_lt_Some. }
  assert (cur !! i = Some w) as Hc
    by (pose proof (pass_after _ _ _ _ _ Hinv i (le_n _)) as E; simpl in E; congruence).
  unfold index_or_panic. rewrite Hc.
  cbn [ok_or mbind result_bind]. apply returns_bind.
  - apply returns_ok_or. right. exists (Z.of_nat i). apply try_u32_Some. split; [done|].
    apply lookup_lt_Some in Hi. pose proof (ok_instructions a (ready_ok a Ha)).
    destruct (ok_limits a (ready_ok a Ha)) as (_ & ? & _). unfold len in *. unfold_ints. lia.
  - intros ii _. apply returns_bind; [by eapply required_returns|].
    intros c _. by destruct (w <? c).
Qed.
End pass.

(** The passes a relaxation may still need are paid for. *)
Definition evaluations_left (evaluations : Z) (ws : list Z) : Prop :=
  0 ≤ evaluations ∧
  evaluations + (Z.of_nat (slacks (items a) ws) + 1) * len (items a)
    ≤ max_relaxation_evaluations (limits a).

Lemma charge_returns ev ws :
  starved ∨ evaluations_left ev ws → returns starved (charge_relaxation_pass a ev).
Proof.
  unfold charge_relaxation_pass, saturating_sub. intros Hev. destruct (Z.ltb_spec
    (Z.max (max_relaxation_evaluations (limits a) - ev) 0) (len (items a))) as [Hlt|]; [|done].
  destruct Hev as [Hs|[H0 Hev]].
  - apply returns_bind; [auto with progress|done].
  - pose proof (len_nonneg (items a)). exfalso. nia.
Qed.

Lemma charge_Ok ev ev' : charge_relaxation_pass a ev = Ok ev' → ev' = ev + len (items a).
Proof. unfold charge_relaxation_pass. destruct (_ <? _); intros Hc; by inv_ok. Qed.

Lemma positions_returns ws :
  layout_ok a ws → starved ∨ Forall2 Z.le ws vs → returns starved (populate_instruction_positions ws).
Proof.
  intros Hlay Hle. unfold populate_instruction_positions.
  destruct Hvs as [Hs|Hf], Hle as [Hs'|Hle'].
  4: { destruct (positions_from_succeeds ws 0) as [ps ->]; [by eapply layout_nonneg| |done].
    apply total_le in Hle'. pose proof (fitting_total _ _ _ Hf). unfold u32_max, u64_max in *. lia. }
  all: assert starved as Hst by done; generalize 0; clear -Hst; induction ws as [|w ws IH]; intros p; [done|];
    cbn [positions_from]; (apply returns_bind; [auto with progress|]);
    intros q _; (apply returns_bind; [apply IH|done]).
Qed.

Lemma relax_returns fuel : ∀ ev ws,
  layout_ok a ws → starved ∨ Forall2 Z.le ws vs → starved ∨ evaluations_left ev ws →
  (slacks (items a) ws < fuel)%nat → returns starved (relax a fuel ev ws).
Proof.
  induction fuel as [|fuel IH]; intros ev ws Hlay Hle Hev Hfuel; [lia|]. cbn [relax].
  apply returns_bind; [by eapply charge_returns|]. intros ev' ->%charge_Ok.
  apply returns_bind; [by apply positions_returns|]. intros ps Hps.
  apply returns_bind; [by apply pass_returns|]. intros [ws' ch] Hp.
  pose proof (targets_bounded a (ready_ok a Ha)) as Ht.
  destruct (pass_result a ws ps ws' ch Hlay Hps Ht Hp) as (Hlay' & _ & Hch).
  destruct ch; [|done]. cbn [negb]. apply IH; [done| | |lia].
  - destruct Hvs as [?|Hf]; [by left|]. destruct Hle as [?|Hle']; [by left|right].
    eapply (pass_below a ws ps ws' true vs); try done; apply Hf.
  - destruct Hev as [?|[H0 Hev]]; [by left|right]. pose proof (len_nonneg (items a)).
    split; [lia|]. nia.
Qed.

Lemma relaxed_layout_returns :
  starved ∨ (2 * len (items a) + 1) * len (items a) ≤ max_relaxation_evaluations (limits a) →
  returns starved (relaxed_layout a).
Proof.
  intros Hev. unfold relaxed_layout.
  repeat (apply returns_bind; [auto with progress|intros _ _]).
  pose proof (minimum_layout a) as Hmin.
  assert (starved ∨ Forall2 Z.le (AssemblyItem.minimum_size <$> items a) vs) as Hle.
  { destruct Hvs as [?|Hf]; [by left|right]. by apply minimum_least, Hf. }
  pose proof (slacks_bound (items a) (AssemblyItem.minimum_size <$> items a)).
  destruct (negb _).
  - apply returns_bind; [by apply positions_returns|done].
  - apply relax_returns; [done|done| |lia]. destruct Hev as [?|Hev]; [by left|right].
    split; [done|]. pose proof (len_nonneg (items a)). unfold len in *. nia.
Qed.
End relaxation.

(** *** Emission *)

Lemma fitting_below a limit ws vs :
  layout_ok a ws → branches_fit a ws → Forall2 Z.le ws vs → fitting_layout a limit vs →
  fitting_layout a limit ws.
Proof.
  intros Hlay Hfit Hle [Hvok _ Hvwith Hvtot].
  split; [done|done| |pose proof (total_le _ _ Hle); lia].
  intros i o at_ v l tp Hi Ht. specialize (Hvwith i o at_ v l tp Hi Ht).
  destruct (Forall2_lookup_l _ _ _ _ _ Hlay Hi) as (w & Hw & Hok).
  destruct (Forall2_lookup_l _ _ _ _ _ Hvok Hi) as (w' & Hw' & Hok'). simpl in Hok, Hok'. subst w w'.
  pose proof (layout_nonneg a ws Hlay) as Hpos.
  pose proof (offset_succ _ _ _ Hw). pose proof (offset_succ _ _ _ Hw').
  destruct (decide (i < tp)%nat).
  - pose proof (span_mono _ _ Hle (S i) tp ltac:(lia)).
    pose proof (offset_mono ws (S i) tp Hpos ltac:(lia)). unfold_ints. lia.
  - pose proof (span_mono _ _ Hle tp i ltac:(lia)).
    pose proof (offset_mono ws tp i Hpos ltac:(lia)). unfold_ints. lia.
Qed.

Lemma branch_instruction_returns (starved : Prop) k w d ii li :
  starved → returns starved (branch_instruction k w d ii li).
Proof.
  intros Hs. unfold branch_instruction, displacement_error. apply returns_bind.
  - destruct k; repeat (case_match; try done);
      (apply returns_bind; [auto with progress|done]).
  - intros p _. apply returns_map_err. by left.
Qed.

Section emission.
Context (starved : Prop) `{Allocator} (Hmem : starved ∨ GenerousAllocator).
Context (a : BytecodeAssembler) (ws ps : list Z) (limit : Z).
Context (Ha : ready a) (Hlay : layout_ok a ws) (Hps : positions_from 0 ws = Ok ps)
  (Hlimit : is_u32 limit) (Hf : starved ∨ fitting_layout a limit ws).

Lemma planned_small i : starved ∨ 0 ≤ offset ws i ≤ u32_max.
Proof.
  destruct Hf as [?|Hf']; [by left|right]. pose proof (layout_nonneg a ws Hlay) as Hpos.
  split; [by apply offset_nonneg|]. etrans; [by apply offset_total|].
  pose proof (fitting_total _ _ _ Hf'). unfold_ints. lia.
Qed.

Lemma signed_displacement_returns i t :
  returns starved (signed_displacement (offset ws i) (offset ws t)).
Proof.
  unfold signed_displacement. destruct (planned_small i) as [Hs|Hi], (planned_small t) as [Hs'|Ht].
  4: { rewrite checked_add_u64_fits by (unfold u32_max, u64_max in *; lia). simpl.
    apply returns_ok_or. right. exists (offset ws t - (offset ws i + 1)).
    apply try_i64_Some. split; [done|]. unfold is_i64, u32_max in *. lia. }
  all: apply returns_bind; [auto with progress|]; intros x _; auto with progress.
Qed.

Lemma final_instruction_returns i ii item :
  items a !! i = Some item → returns starved (final_instruction a ws ps i ii item).
Proof.
  intros Hi. pose proof (lookup_lt_Some _ _ _ Hi) as Hlt.
  destruct (Forall2_lookup_l _ _ _ _ _ Hlay Hi) as (w & Hw & Hok).
  pose proof (position_at a ws ps Hlay Hps i ltac:(lia)) as Hpi.
  destruct item as [x|k l|o at_ v l]; [done|..]; cbn [final_instruction];
    destruct (ready_target a Ha i _ l Hi eq_refl) as (tp & Ht & Htlt); rewrite Ht;
    pose proof (position_at a ws ps Hlay Hps tp ltac:(lia)) as Hpt;
    unfold index_or_panic; cbn [ok_or mbind result_bind]; rewrite Hpi; cbn [ok_or mbind result_bind];
    rewrite Hpt; cbn [ok_or mbind result_bind].
  - apply returns_bind; [apply signed_displacement_returns|]. intros d Hd.
    unfold signed_displacement in Hd. inv_ok. inv_checked.
    match goal with H : try_i64 _ = Some _ |- _ => apply try_i64_Some in H as [-> _] end.
    rewrite Hw. cbn [ok_or mbind result_bind]. destruct Hf as [Hs|Hf'].
    + by apply branch_instruction_returns.
    + destruct (fitting_branches _ _ _ Hf' i k l Hi) as (tp' & w' & Ht' & Hw' & Hr).
      assert (tp' = tp) as -> by congruence. assert (w' = w) as -> by congruence.
      destruct (branch_instruction_succeeds k w (distance ws i tp) ii l Hok Hr) as [ins E].
      unfold distance in E. subst. by rewrite E.
  - apply returns_bind.
    + unfold with_branch_displacement. destruct (planned_small i) as [Hs|Hpi'].
      { apply returns_bind; [auto with progress|]. intros b _. auto with progress. }
      rewrite checked_add_u64_fits by (unfold u32_max, u64_max in *; lia). cbn [ok_or mbind result_bind].
      apply returns_ok_or. destruct Hf as [Hs|Hf']; [by left|right]. eexists. apply try_i32_Some.
      split; [done|]. by eapply fitting_with.
    + intros d _. apply returns_map_err. right. eexists. unfold Instruction.new.
      pose proof (Forall_lookup_1 _ _ _ _ (ok_items a (ready_ok a Ha)) Hi) as (Hop & _).
      destruct (with_opcode_size o Hop) as (Hne & Hfm & _).
      rewrite decide_False by done. rewrite decide_True by done. done.
Qed.

Lemma emit_item_returns total_bytes il n st item :
  emit_inv a ws limit il n st → items a !! n = Some item →
  returns starved (emit_item a ws ps total_bytes st (n, item)).
Proof.
  intros Hinv Hi. destruct st as [b pcs]. pose proof (lookup_lt_Some _ _ _ Hi) as Hlt.
  pose proof (emit_next_pc _ _ _ _ _ _ Hinv) as Hpc. simpl in Hpc. unfold emit_item.
  apply returns_bind.
  { apply returns_ok_or. right. exists (Z.of_nat n). apply try_u32_Some. split; [done|].
    pose proof (ok_instructions a (ready_ok a Ha)).
    destruct (ok_limits a (ready_ok a Ha)) as (_ & ? & _). unfold len in *. unfold_ints. lia. }
  intros ii _. unfold index_or_panic. rewrite (position_at a ws ps Hlay Hps n) by lia.
  cbn [ok_or mbind result_bind]. apply returns_bind.
  { apply returns_ok_or. destruct (planned_small n) as [?|Hp]; [by left|right].
    exists (offset ws n). apply try_u32_Some. split; [done|]. unfold_ints. lia. }
  intros expected Hexp. inv_ok. apply try_u32_Some in Hexp as [-> _].
  apply returns_bind; [by apply final_instruction_returns|]. intros ins Hfin.
  apply final_instruction_Ok in Hfin as (Hv & Hw & _); [|done..].
  destruct (BytecodeBuilder.push_instruction b ins) as [[actual|e] b'] eqn:Hpush.
  - apply push_instruction_Ok in Hpush as (-> & _); [|done]. rewrite Hpc, Z.eqb_refl. done.
  - destruct Hf as [?|Hf']; [done|]. destruct Hmem as [?|Hg]; [done|]. exfalso.
    pose proof (fitting_total _ _ _ Hf') as Htot. pose proof (offset_succ _ _ _ Hw) as Hs.
    pose proof (offset_total ws (S n) (layout_nonneg a ws Hlay)).
    destruct Hinv as [_ _ _ _ [Hbpc Hbl _ _ _] _ Hlim _]. simpl in *.
    destruct (push_instruction_succeeds b ins Hv) as [b2 E]; [| |congruence].
    + unfold_ints. lia.
    + rewrite Hlim. unfold_ints. lia.
Qed.

Lemma emit_all_returns total_bytes :
  returns starved (try_fold (emit_item a ws ps total_bytes)
    (BytecodeBuilder.with_byte_limit limit, []) (enumerate (items a))).
Proof.
  apply (returns_try_fold_enumerate _ _ (λ n st, ∃ il, emit_inv a ws limit il n st)).
  - intros i item st Hi (il & Hinv). split; [by eapply emit_item_returns|].
    intros st' Hst. destruct (emit_item_Ok a ws ps Ha Hlay Hps _ _ _ _ _ _ _ Hinv Hi Hst) as (ins & ?).
    by exists (il ++ [ins]).
  - exists []. by apply emit_inv_start.
Qed.
End emission.

(** *** The whole pipeline *)

Lemma widest_threaded a l l' : Forall2 (threaded a) l l' → widest <$> l' = widest <$> l.
Proof.
  induction 1 as [|item item' l l' Ht _ IH]; [done|]. csimpl. f_equal; [|done].
  by destruct (threaded_kind _ _ _ Ht) as [(k & z & z' & -> & ->)| ->].
Qed.

Lemma widest_layout a : layout_ok a (widest <$> items a).
Proof.
  unfold layout_ok. induction (items a) as [|item l IH]; csimpl; constructor; [|done].
  by destruct item as [i|[] l0|o at_ v l0].
Qed.

(** Two gigabytes are within every wide branch's reach. *)
Lemma widest_fitting a limit :
  ready a → total (widest <$> items a) ≤ Z.min 2147483647 limit →
  fitting_layout a limit (widest <$> items a).
Proof.
  intros Ha Htot. pose proof (widest_layout a) as Hlay. pose proof (layout_nonneg _ _ Hlay) as Hpos.
  split; [done| | |lia].
  - intros i k l Hi. destruct (ready_target a Ha i _ l Hi eq_refl) as (tp & Ht & _).
    exists tp, 5. split_and!; [done|by rewrite list_lookup_fmap, Hi|]. right. right. split; [done|].
    pose proof (offset_nonneg (widest <$> items a) i Hpos).
    pose proof (offset_nonneg (widest <$> items a) tp Hpos).
    pose proof (offset_total (widest <$> items a) i Hpos).
    pose proof (offset_total (widest <$> items a) tp Hpos). unfold distance. unfold_ints. lia.
  - intros i o at_ v l tp Hi Ht.
    assert ((widest <$> items a) !! i = Some 10) as Hw by (by rewrite list_lookup_fmap, Hi).
    pose proof (offset_succ _ _ _ Hw).
    pose proof (offset_nonneg (widest <$> items a) i Hpos).
    pose proof (offset_nonneg (widest <$> items a) tp Hpos).
    pose proof (offset_total (widest <$> items a) (S i) Hpos).
    pose proof (offset_total (widest <$> items a) tp Hpos). unfold_ints. lia.
Qed.

(** Enough of everything [finish] may run out of. *)
Record resources `{Allocator} (a : BytecodeAssembler) : Prop := {
  enough_memory : GenerousAllocator;
  enough_bytes : total (widest <$> items a) ≤ Z.min 2147483647 (max_bytecode_bytes (limits a));
  enough_evaluations :
    (2 * len (items a) + 1) * len (items a) ≤ max_relaxation_evaluations (limits a);
  all_placed : labels_placed a }.

Lemma last_position_total ws ps : positions_from 0 ws = Ok ps → last_position ps = Some (total ws).
Proof.
  intros [Hl Hp]%positions_from_Ok. unfold last_position. rewrite Hl. simpl.
  rewrite Hp by done. by rewrite offset_all.
Qed.

Lemma finish_returns (starved : Prop) `{Allocator} a :
  assembler_ok a → starved ∨ resources a → returns starved (finish a).
Proof.
  intros Ha Hres.
  assert (starved ∨ GenerousAllocator) as Hmem by (destruct Hres as [?|[]]; [by left|by right]).
  unfold finish. apply returns_bind.
  { eapply validate_returns; [done..|]. destruct Hres as [?|[]]; [by left|by right]. }
  intros [] Hv. apply validate_ready in Hv as Hr; [|done].
  apply returns_bind; [by apply thread_returns|]. intros a' Ht.
  pose proof (thread_ready a a' Hr Ht) as Hr'. pose proof (thread_Ok a a' Ht) as (_ & _ & Hlim & Hitems).
  pose proof (ok_limits a Ha) as (Hlb & _).
  assert (∀ limit, max_bytecode_bytes (limits a) ≤ limit →
    starved ∨ fitting_layout a' limit (widest <$> items a')) as Hfit.
  { intros limit Hle. destruct Hres as [?|[_ Hb _ _]]; [by left|right]. apply widest_fitting; [done|].
    rewrite (widest_threaded _ _ _ Hitems). lia. }
  apply returns_bind.
  { eapply relaxed_layout_returns; [done|done|apply Hfit; unfold_ints; lia|].
    destruct Hres as [?|[_ _ He _]]; [by left|right]. unfold len in *.
    by rewrite <- (Forall2_length Hitems), Hlim. }
  intros [ws ps] Hlay. apply FinishFacts.relaxed_layout_Ok in Hlay as (Hlay & Hps & Hbf & Hleast);
    [|by apply ready_ok].
  assert (starved ∨ fitting_layout a' (max_bytecode_bytes (limits a)) ws) as Hf.
  { destruct (Hfit _ (Z.le_refl _)) as [?|Hf]; [by left|right].
    eapply fitting_below; [done|done| |exact Hf]. apply Hleast; apply Hf. }
  rewrite (last_position_total ws ps Hps). cbn [ok_or mbind result_bind]. apply returns_bind.
  { apply returns_reject. destruct Hf as [?|Hf]; [by left|right].
    apply Z.ltb_ge. pose proof (fitting_total _ _ _ Hf). unfold_ints. lia. }
  intros _ _. apply returns_bind; [auto with progress|]. intros _ _.
  rewrite Hlim. apply returns_bind; [by apply emit_all_returns|]. by intros [b pcs] _.
Qed.
End ProgressFacts.

(** ** Properties *)

(** Planning keeps its invariant: in every assembler reached from a fresh
    one by successful calls of [new_label], [bind], [push], [branch] and
    [with_branch], every item is a valid non-branch instruction or names an
    issued label, every bound label is at a position of the plan, and labels
    and instructions stay within their index ranges and limits. *)
Theorem planning_invariant (alloc : Allocator) (identity : Z) (limits : AssemblerLimits)
    (a : BytecodeAssembler) (Hlimits : PlanFacts.limits_ok limits)
    (Hplan : rtc PlanFacts.plan_step (with_limits identity limits) a) :
  PlanFacts.assembler_ok a.
Proof.
  pose proof (PlanFacts.start_ok identity limits Hlimits) as Hs.
  induction Hplan as [|a1 a2 a3 Hstep _ IH]; [done|]. by apply IH, (PlanFacts.plan_step_ok a1).
Qed.

Lemma planning_invariant_witness : PlanFacts.assembler_ok demo_plan.
Proof.
  apply (planning_invariant always_allocates 7 default_limits).
  - unfold PlanFacts.limits_ok, default_limits. simpl. unfold is_u32, is_u64, u32_max, u64_max. lia.
  - eapply rtc_l; [by apply (PlanFacts.plan_new_label (H := always_allocates) _ (mkLabel 7 0))|].
    eapply rtc_l; [by apply (PlanFacts.plan_new_label (H := always_allocates) _ (mkLabel 7 1))|].
    eapply rtc_l; [by apply (PlanFacts.plan_new_label (H := always_allocates) _ (mkLabel 7 2))|].
    eapply rtc_l.
    { eapply (PlanFacts.plan_bind (H := always_allocates) _ (mkLabel 7 0)); [done|reflexivity]. }
    eapply rtc_l.
    { by eapply (PlanFacts.plan_push (H := always_allocates) _ FinalOpcode.PushTrue Operands.None). }
    eapply rtc_l.
    { by eapply (PlanFacts.plan_branch (H := always_allocates) _ BranchKind.IfFalse (mkLabel 7 2)). }
    eapply rtc_l.
    { by eapply (PlanFacts.plan_branch (H := always_allocates) _ BranchKind.Goto (mkLabel 7 1)). }
    eapply rtc_l; [by eapply (PlanFacts.plan_bind (H := always_allocates) _ (mkLabel 7 1))|].
    eapply rtc_l.
    { by eapply (PlanFacts.plan_branch (H := always_allocates) _ BranchKind.Goto (mkLabel 7 0)). }
    eapply rtc_l; [by eapply (PlanFacts.plan_bind (H := always_allocates) _ (mkLabel 7 2))|].
    eapply rtc_l.
    { by eapply (PlanFacts.plan_push (H := always_allocates) _ FinalOpcode.ReturnUndef Operands.None). }
    apply rtc_refl.
Defined.

Lemma demo_plan_ok : PlanFacts.assembler_ok demo_plan.
Proof.
  constructor; simpl.
  - repeat apply Forall_cons_2; try apply Forall_nil_2; simpl; (lia || by split_and!).
  - intros [|[|[|l]]] p; simpl; intros [= <-]; lia.
  - vm_compute. discriminate.
  - vm_compute. discriminate.
  - unfold PlanFacts.limits_ok, default_limits. simpl. unfold is_u32, is_u64, u32_max, u64_max. lia.
Qed.

(** C32.  Relaxation finds the least layout: the widths it returns are legal,
    its positions are their running sums, every branch reaches its label at
    its width, and every other legal layout in which the branches reach their
    labels is at least as wide at every item. *)
Theorem relaxation_least (alloc : Allocator) (a : BytecodeAssembler) (ws ps : list Z)
    (Ha : PlanFacts.assembler_ok a) (Hr : relaxed_layout a = Ok (ws, ps)) :
  RelaxFacts.layout_ok a ws ∧ RelaxFacts.branches_fit a ws ∧
  (∀ i, (i ≤ length ws)%nat → ps !! i = Some (LayoutFacts.offset ws i)) ∧
  (∀ vs, RelaxFacts.layout_ok a vs → RelaxFacts.branches_fit a vs → Forall2 Z.le ws vs).
Proof.
  apply FinishFacts.relaxed_layout_Ok in Hr as (Hlay & Hps & Hfit & Hleast); [|done].
  split_and!; [done|done| |done]. intros i Hi.
  by destruct (LayoutFacts.positions_from_Ok _ _ _ Hps) as [_ ->].
Qed.

Lemma relaxation_least_witness :
  @relaxed_layout always_allocates demo_plan = Ok ([1; 2; 2; 2; 1], [0; 1; 3; 5; 7; 8]) ∧
  (∀ vs, RelaxFacts.layout_ok demo_plan vs → RelaxFacts.branches_fit demo_plan vs →
         Forall2 Z.le [1; 2; 2; 2; 1] vs).
Proof.
  split; [vm_compute; reflexivity|].
  destruct (relaxation_least always_allocates demo_plan [1; 2; 2; 2; 1] [0; 1; 3; 5; 7; 8] demo_plan_ok)
    as (_ & _ & _ & Hleast); [vm_compute; reflexivity|]. exact Hleast.
Defined.

(** Relaxation is complete: whenever some legal layout lets every branch
    reach its label within the [u32] positions, relaxation reaches a fixed
    point and returns a layout, given memory and [(2n+1)n] evaluations for [n]
    items; its loop takes at most [2n+1] passes. *)
Theorem relaxation_complete (alloc : Allocator) (Halloc : GenerousAllocator)
    (a : BytecodeAssembler) (vs : list Z)
    (Ha : ReadyFacts.ready a) (Hvs : ProgressFacts.fitting_layout a u32_max vs)
    (Hev : (2 * len (items a) + 1) * len (items a) ≤ max_relaxation_evaluations (limits a)) :
  ∃ ws ps, relaxed_layout a = Ok (ws, ps) ∧ Forall2 Z.le ws vs.
Proof.
  pose proof (ProgressFacts.relaxed_layout_returns False (or_intror Halloc) a Ha vs
    (or_intror Hvs) (or_intror Hev)) as Hret.
  destruct (relaxed_layout a) as [[ws ps]|[]] eqn:Hr; [|done..]. exists ws, ps. split; [done|].
  apply FinishFacts.relaxed_layout_Ok in Hr as (_ & _ & _ & Hleast); [|by apply ReadyFacts.ready_ok].
  apply Hleast; apply Hvs.
Qed.

Lemma demo_plan_ready : ReadyFacts.ready demo_plan.
Proof. apply ReadyFacts.validate_ready; [apply demo_plan_ok|reflexivity]. Qed.

Lemma relaxation_complete_witness :
  ∃ ws ps, @relaxed_layout always_allocates demo_plan = Ok (ws, ps) ∧
           Forall2 Z.le ws [1; 5; 5; 5; 1].
Proof.
  apply (relaxation_complete always_allocates always_allocates_generous demo_plan [1; 5; 5; 5; 1]).
  - exact demo_plan_ready.
  - apply (ProgressFacts.widest_fitting demo_plan u32_max demo_plan_ready). vm_compute. discriminate.
  - vm_compute. discriminate.
Defined.

(** Finishing never panics and never runs forever: for every plan the
    planning calls can build, [finish] gives bytecode or one of its reported
    errors, whatever the labels, the widths and the allocator do. *)
Theorem finish_never_stuck (alloc : Allocator) (a : BytecodeAssembler)
    (Ha : PlanFacts.assembler_ok a) : finish a ≠ Err Stuck.
Proof.
  pose proof (ProgressFacts.finish_returns True a Ha (or_introl I)) as Hr.
  intros E. by rewrite E in Hr.
Qed.

Lemma finish_never_stuck_witness : @finish always_allocates demo_plan ≠ Err Stuck.
Proof. exact (finish_never_stuck always_allocates demo_plan demo_plan_ok). Defined.

(** C7.  Finishing succeeds within its resources: with memory, every label
    bound and no used label at the end of the plan, a plan whose widest form
    fits the byte limit and two gigabytes, and [(2n+1)n] relaxation
    evaluations, [finish] returns bytecode. *)
Theorem finish_succeeds (alloc : Allocator) (a : BytecodeAssembler)
    (Ha : PlanFacts.assembler_ok a) (Hres : ProgressFacts.resources a) :
  ∃ out, finish a = Ok out.
Proof.
  pose proof (ProgressFacts.finish_returns False a Ha (or_intror Hres)) as Hr.
  destruct (finish a) as [out|[]]; [by exists out|done..].
Qed.

Lemma finish_succeeds_witness : ∃ out, @finish always_allocates demo_plan = Ok out.
Proof.
  apply (finish_succeeds always_allocates demo_plan demo_plan_ok). constructor.
  - exact always_allocates_generous.
  - vm_compute. discriminate.
  - vm_compute. discriminate.
  - split.
    + repeat apply Forall_cons_2; try apply Forall_nil_2; by eexists.
    + intros [|[|[|[|[|i]]]]] item l; simpl; intros [= <-] [= <-]; simpl; discriminate.
Defined.

(** C6.  The emitted bytes are the plan: they stay within the byte limit,
    decode from the first to the last into one instruction per item at the
    positions [finish] reports, an ordinary instruction is emitted as pushed,
    a branch as an opcode of its family, and every branch's encoded label is
    the position of the instruction its label is bound to, after the
    redundant [goto]s there. *)
Theorem finish_sound (alloc : Allocator) (a : BytecodeAssembler) (out : AssembledBytecode)
    (Ha : PlanFacts.assembler_ok a) (Hf : finish a = Ok out) :
  len (assembled_bytecode out) ≤ max_bytecode_bytes (limits a) ∧
  ∃ ds, decodes_to (assembled_bytecode out) 0 ds ∧ map pc ds = instruction_pcs out ∧
    Forall2 (FinishFacts.realizes a ds) (items a) ds.
Proof. by apply FinishFacts.finish_realizes in Hf as (_ & ?). Qed.

(** What the demonstration plan assembles to. *)
Definition demo_assembled : AssembledBytecode := mkAssembled [10; 233; 5; 235; 252; 235; 250; 41] [0; 1; 3; 5; 7].

Lemma finish_sound_witness :
  ∃ ds, decodes_to [10; 233; 5; 235; 252; 235; 250; 41] 0 ds ∧ map pc ds = [0; 1; 3; 5; 7] ∧
        Forall2 (FinishFacts.realizes demo_plan ds) (items demo_plan) ds.
Proof.
  destruct (finish_sound always_allocates demo_plan demo_assembled demo_plan_ok) as (_ & Hds);
    [vm_compute; reflexivity|]. exact Hds.
Defined.

(** The label a branch item leads to: its own, after the chain of [goto]s a
    conditional branch or a [goto] is threaded through. *)
Definition branches_to (a : BytecodeAssembler) (item : AssemblyItem) (l : Z) : Prop :=
  match item with
  | AssemblyItem.Instruction _ => False
  | AssemblyItem.Branch (BranchKind.IfFalse | BranchKind.IfTrue | BranchKind.Goto) l' =>
      ThreadFacts.goto_chain a (Z.to_nat l') (Z.to_nat l) ∧
      (label_goto_target a (Z.to_nat l) = None ∨
       l = l' ∧ ThreadFacts.diverges a (Z.to_nat l'))
  | AssemblyItem.Branch _ l' | AssemblyItem.WithBranch _ _ _ l' => l = l'
  end.

Lemma realizes_lands a ds item d :
  (∀ i, item ≠ AssemblyItem.Instruction i) → FinishFacts.realizes a ds item d →
  ∃ l, branches_to a item l ∧ FinishFacts.lands a ds l d.
Proof.
  destruct item as [i|k l|o atom value l]; simpl; [by intros Hn; destruct (Hn i)| |by intros _ [? _]; exists l].
  intros _ [_ Hr]. destruct k; first [by exists l | by destruct Hr as (l' & ? & ? & ?); exists l'].
Qed.

(** Only the first instruction starts at position 0. *)
Lemma first_position bc ds i d :
  byte_list bc → decodes_to bc 0 ds → ds !! i = Some d → pc d = 0 → i = 0%nat.
Proof.
  intros Hbc Hds Hi Hp. destruct ds as [|d0 ds]; [done|].
  eapply (StreamFacts.decodes_to_position_inj bc Hbc 0 (d0 :: ds)); [exact Hds|exact Hi|done|].
  inversion Hds; subst. rewrite Hp. symmetry.
  by eapply CodecFacts.decode_instruction_sound.
Qed.

(** C8.  The verifier reads the assembler's labels back: the verifier's
    predecoder accepts the emitted bytes and finds exactly the emitted
    instructions, one per item, and for every branch item, [catch] and [gosub]
    included, resolving the encoded target gives the index of the item its
    label is bound to (for a conditional branch or a [goto], the label at the
    end of the chain of [goto]s).  The one exception is a [catch] whose handler
    is the very first item, a target the verifier refuses. *)
Theorem assembled_targets_resolve (alloc : Allocator) (Halloc : GenerousAllocator)
    (a : BytecodeAssembler) (out : AssembledBytecode) (max : Z)
    (Ha : PlanFacts.assembler_ok a) (Hf : finish a = Ok out)
    (Hmax : is_u32 max) (Hroom : len (items a) ≤ max) :
  ∃ p, predecode_complete (assembled_bytecode out) max = Ok p ∧
    map pc (predecoded_instructions p) = instruction_pcs out ∧
    Forall2 (FinishFacts.realizes a (predecoded_instructions p)) (items a)
      (predecoded_instructions p) ∧
    ∀ k item d, items a !! k = Some item → predecoded_instructions p !! k = Some d →
      (∀ i, item ≠ AssemblyItem.Instruction i) →
      ∃ l tp, branches_to a item l ∧ target_position a l = Ok tp ∧
        ((Instruction.opcode (instruction d) = FinalOpcode.Catch → tp ≠ 0%nat) →
         resolve_relative_target (predecoded_instructions p) (predecoded_bitmap p)
           (len (assembled_bytecode out)) d = Ok (Some (Z.of_nat tp))).
Proof.
  pose proof (PlanFacts.ok_limits a Ha) as (Hlb & _).
  apply FinishFacts.finish_realizes in Hf as (Hbl & Hle & ds & Hds & Hpcs & Hre); [|done].
  destruct (PredecodeFacts.predecode_complete_succeeds (assembled_bytecode out) max ds)
    as (p & Hp & <-); [done|solve_ints|solve_ints|done| |].
  { unfold len in *. by rewrite <- (Forall2_length Hre). }
  exists p. split_and!; [done|done|done|]. intros k item d Hk Hd Hb.
  destruct (realizes_lands a (predecoded_instructions p) item d Hb) as (l & Hl & tp & dt & Ht & Hdt & Hlab).
  { by eapply Forall2_lookup_lr. }
  exists l, tp. split_and!; [done|done|]. intros Hne.
  apply list_elem_of_lookup_2 in Hd.
  apply PredecodeFacts.predecode_complete_Ok in Hp as [Hpre _]; [|done|solve_ints].
  destruct (TargetFacts.resolve_relative_target_succeeds _ _ _ Hbl Hpre d (pc dt) dt) as [i Hi];
    [done|done|by eapply list_elem_of_lookup_2|done| |].
  { intros Hc E. by eapply (Hne Hc), first_position. }
  rewrite Hi. do 2 f_equal. pose proof Hi as Hi'.
  apply (TargetFacts.resolve_relative_target_Ok _ _ _ Hbl Hpre) in Hi'
    as (Hi0 & d' & t & Hd' & Hlab' & Hpc); [|done].
  rewrite (TargetFacts.stream_position_inj _ _ _ Hbl Hpre tp (Z.to_nat i) dt d'); [lia|done|done|congruence].
Qed.

(** [catch handler; return_undef; handler: throw]. *)
Definition demo_catch_plan : BytecodeAssembler :=
  mkAssembler 7
    [AssemblyItem.Branch BranchKind.Catch 0;
     AssemblyItem.Instruction (Instruction.mk FinalOpcode.ReturnUndef Operands.None);
     AssemblyItem.Instruction (Instruction.mk FinalOpcode.Throw Operands.None)]
    [Some 2%nat] default_limits.

Lemma demo_catch_plan_ok : PlanFacts.assembler_ok demo_catch_plan.
Proof.
  constructor; simpl.
  - repeat apply Forall_cons_2; try apply Forall_nil_2; simpl; (lia || by split_and!).
  - intros [|l] p; simpl; intros [= <-]; lia.
  - vm_compute. discriminate.
  - vm_compute. discriminate.
  - unfold PlanFacts.limits_ok, default_limits. simpl. unfold is_u32, is_u64, u32_max, u64_max. lia.
Qed.

Lemma assembled_targets_resolve_witness :
  ∃ out p d, @finish always_allocates demo_catch_plan = Ok out ∧
    predecoded_instructions p !! 0%nat = Some d ∧
    @predecode_complete always_allocates (assembled_bytecode out) 5 = Ok p ∧
    resolve_relative_target (predecoded_instructions p) (predecoded_bitmap p)
      (len (assembled_bytecode out)) d = Ok (Some 2).
Proof.
  destruct (@finish always_allocates demo_catch_plan) as [out|e] eqn:Hf;
    [|vm_compute in Hf; discriminate].
  destruct (assembled_targets_resolve always_allocates always_allocates_generous demo_catch_plan
    out 5 demo_catch_plan_ok Hf) as (p & Hp & _ & Hre & Hres).
  - unfold is_u32. lia.
  - vm_compute. discriminate.
  - destruct (predecoded_instructions p) as [|d ds] eqn:Hds; [inversion Hre|].
    exists out, p, d. rewrite Hds.
    destruct (Hres 0%nat (AssemblyItem.Branch BranchKind.Catch 0) d eq_refl eq_refl
      ltac:(discriminate)) as (l & tp & -> & Ht & Hr).
    injection Ht as <-.
    split; [reflexivity|]. split; [reflexivity|]. split; [exact Hp|]. apply Hr. discriminate.
Defined.
