(* ===== verification/Decimal.v ===== *)
(** * Decimal spellings

    The canonical decimal spelling of a number as code units, which the
    compiler's tagged-integer atoms, the runtime's array indices and the
    conversions of numbers share, and the checked arithmetic with which the
    source reads one. *)

From S2P Require Import Prelude.

(** [a.checked_mul(b)] at 32 bits. *)
Definition checked_mul_u32 (a b : Z) : option Z := if a * b <=? u32_max then Some (a * b) else None.

(** The canonical decimal spelling of a number, as code units. *)
Inductive decimal : Z → list Z → Prop :=
| decimal_digit d : 0 ≤ d ≤ 9 → decimal d [48 + d]
| decimal_snoc n l d : 0 < n → decimal n l → 0 ≤ d ≤ 9 → decimal (10 * n + d) (l ++ [48 + d]).

Definition is_digit (u : Z) : Prop := 48 ≤ u ≤ 57.

(** The number that digits denote after [integer]. *)
Definition value (integer : Z) (units : list Z) : Z :=
  foldl (λ acc u, 10 * acc + (u - 48)) integer units.

Lemma value_grows units : ∀ k, 0 ≤ k → Forall is_digit units → k ≤ value k units.
Proof.
  induction units as [|u units IH]; intros k Hk Hu; simpl; [done|].
  apply Forall_cons_1 in Hu as [Hu Hus]. unfold is_digit in Hu.
  specialize (IH (10 * k + (u - 48)) ltac:(lia) Hus). lia.
Qed.

Lemma value_snoc k l u : value k (l ++ [u]) = 10 * value k l + (u - 48).
Proof. unfold value. by rewrite foldl_snoc. Qed.

(** A canonical spelling is zero alone or starts with a non-zero digit. *)
Lemma decimal_shape n l :
  decimal n l → n = 0 ∧ l = [48] ∨
  0 < n ∧ ∃ u us, l = u :: us ∧ 49 ≤ u ≤ 57 ∧ Forall is_digit us ∧ value (u - 48) us = n.
Proof.
  induction 1 as [d Hd|n l d Hn _ IH Hd].
  - destruct (decide (d = 0)) as [->|]; [by left|right]. split; [lia|].
    exists (48 + d), []. split_and!; [done|lia..|constructor|]. unfold value. simpl. lia.
  - right. split; [lia|]. destruct IH as [[-> _]|(_ & u & us & -> & Hu & Hus & Hv)]; [lia|].
    exists u, (us ++ [48 + d]). split_and!; [done|lia..| |].
    + apply Forall_app. split; [done|]. apply Forall_cons_2; [|apply Forall_nil_2].
      unfold is_digit. lia.
    + rewrite value_snoc, Hv. lia.
Qed.

Lemma decimal_value us : ∀ k l, 0 < k → decimal k l → Forall is_digit us →
  decimal (value k us) (l ++ us).
Proof.
  induction us as [|u us IH]; intros k l Hk Hd Hus; [by rewrite app_nil_r|].
  apply Forall_cons_1 in Hus as [Hu Hus]. unfold is_digit in Hu.
  change (value k (u :: us)) with (value (10 * k + (u - 48)) us).
  replace (l ++ u :: us) with ((l ++ [u]) ++ us) by (by rewrite <- app_assoc).
  apply IH; [lia| |done].
  replace u with (48 + (u - 48)) at 2 by lia. apply decimal_snoc; [done|done|lia].
Qed.

(** Reading one more digit with checked [u32] arithmetic. *)
Lemma checked_step_Some k d r :
  (v ← checked_mul_u32 k 10; checked_add_u32 v d) = Some r → r = 10 * k + d.
Proof.
  unfold checked_mul_u32. destruct (k * 10 <=? u32_max); [|done]. simpl.
  intros [-> _]%checked_add_u32_Some. lia.
Qed.
