(* ===== verification/CompilerString.v ===== *)
(** * Compiler strings and atoms

    Models [crates/fusor-bytecode/src/compiler_string.rs]: the immutable
    exact-string artifacts of compiler constants and atoms, with their compact
    Latin-1 storage, their two-ended iterator and the tagged-integer test.  A
    code unit is a [Z] in the [u16] range. *)

From S2P Require Import Prelude Decimal.

(** ** Strings *)

Definition MAX_COMPILER_STRING_CODE_UNITS : Z := Z.shiftl 1 30 - 1.

(** Failure to freeze code units as a compiler string. *)
Inductive CompilerStringError : Set :=
| LengthExceeded (observed : Z)
| StringAllocationFailed (requested : Z).

Inductive CompilerStringStorage : Set :=
| Latin1 (units : list Z)
| Utf16 (units : list Z).

(** An immutable string of exact UTF-16 code units. *)
Record CompilerString := mkCompilerString { storage : CompilerStringStorage }.

(** [u8::try_from(unit)] *)
Definition try_u8 (unit : Z) : option Z := if unit <=? 255 then Some unit else None.

(** The loop that narrows the units; [None] is its early return of wide
    storage. *)
Fixpoint narrow_units (latin1 : list Z) (units : list Z) : option (list Z) :=
  match units with
  | [] => Some latin1
  | unit :: units =>
      match try_u8 unit with
      | None => None
      | Some unit => narrow_units (latin1 ++ [unit]) units
      end
  end.

Definition try_from_code_units `{Allocator} (code_units : list Z) :
    result CompilerStringError CompilerString :=
  reject_if (MAX_COMPILER_STRING_CODE_UNITS <? len code_units) (LengthExceeded (len code_units)) ;;
  if existsb (λ unit, bool_decide (try_u8 unit = None)) code_units
  then Ok (mkCompilerString (Utf16 code_units)) else
  reserve "latin1" 0 (len code_units) (StringAllocationFailed (len code_units)) ;;
  match narrow_units [] code_units with
  | None => Ok (mkCompilerString (Utf16 code_units))
  | Some latin1 => Ok (mkCompilerString (Latin1 latin1))
  end.

Definition string_len (s : CompilerString) : Z :=
  match storage s with Latin1 units => len units | Utf16 units => len units end.

Definition string_is_empty (s : CompilerString) : bool := string_len s =? 0.

(** The compact payload size in bytes. *)
Definition payload_bytes (s : CompilerString) : Z :=
  match storage s with Latin1 units => len units | Utf16 units => len units * 2 end.

Definition latin1_units (s : CompilerString) : option (list Z) :=
  match storage s with Latin1 units => Some units | Utf16 _ => None end.

Definition utf16_units (s : CompilerString) : option (list Z) :=
  match storage s with Latin1 _ => None | Utf16 units => Some units end.

(** ** The code-unit iterator *)

Module CompilerStringCodeUnits.

(** The units a slice iterator has left, by storage width. *)
Inductive CompilerStringCodeUnits : Set :=
| Latin1 (units : list Z)
| Utf16 (units : list Z).

(** [slice::Iter]: takes an element from the front or from the back. *)
Definition pop_front (units : list Z) : option Z * list Z :=
  match units with [] => (None, []) | unit :: units => (Some unit, units) end.

Definition pop_back (units : list Z) : option Z * list Z :=
  match rev units with [] => (None, []) | unit :: units => (Some unit, rev units) end.

Definition next (i : CompilerStringCodeUnits) : option Z * CompilerStringCodeUnits :=
  match i with
  | Latin1 units => let '(unit, units) := pop_front units in (unit, Latin1 units)
  | Utf16 units => let '(unit, units) := pop_front units in (unit, Utf16 units)
  end.

Definition next_back (i : CompilerStringCodeUnits) : option Z * CompilerStringCodeUnits :=
  match i with
  | Latin1 units => let '(unit, units) := pop_back units in (unit, Latin1 units)
  | Utf16 units => let '(unit, units) := pop_back units in (unit, Utf16 units)
  end.

Definition remaining (i : CompilerStringCodeUnits) : list Z :=
  match i with Latin1 units | Utf16 units => units end.

(** [ExactSizeIterator::len] *)
Definition exact_len (i : CompilerStringCodeUnits) : Z := len (remaining i).

End CompilerStringCodeUnits.
Notation CompilerStringCodeUnits := CompilerStringCodeUnits.CompilerStringCodeUnits.

Definition code_units (s : CompilerString) : CompilerStringCodeUnits :=
  match storage s with
  | Latin1 units => CompilerStringCodeUnits.Latin1 units
  | Utf16 units => CompilerStringCodeUnits.Utf16 units
  end.

(** ** Tagged-integer atoms *)

(** [(b'0'..=b'9').contains(&unit)] with another first digit. *)
Definition digit_from (first unit : Z) : bool := (48 + first <=? unit) && (unit <=? 57).

(** The [for unit in units] loop. *)
Fixpoint tagged_rest (integer : Z) (units : list Z) : bool :=
  match units with
  | [] => true
  | unit :: units =>
      if negb (digit_from 0 unit) then false else
      match value ← checked_mul_u32 integer 10; checked_add_u32 value (unit - 48) with
      | None => false
      | Some next => if 2147483647 <? next then false else tagged_rest next units
      end
  end.

(** Whether this exact spelling is represented as a tagged-integer atom. *)
Definition is_tagged_integer_atom (s : CompilerString) : bool :=
  let '(first, units) := CompilerStringCodeUnits.next (code_units s) in
  match first with
  | None => false
  | Some first =>
      if first =? 48 then bool_decide (fst (CompilerStringCodeUnits.next units) = None) else
      if negb (digit_from 1 first) then false else
      tagged_rest (first - 48) (CompilerStringCodeUnits.remaining units)
  end.

(** ** Atoms *)

(** One entry of a compiler function's content-interned atom pool. *)
Record CompilerAtom := mkCompilerAtom { atom_string : CompilerString; static_property_only : bool }.

Definition new_atom (s : CompilerString) : CompilerAtom := mkCompilerAtom s false.
Definition new_static_property_only (s : CompilerString) : CompilerAtom := mkCompilerAtom s true.

(** ** Facts *)

Module StringFacts.

(** The code units a string denotes. *)
Definition units_of (s : CompilerString) : list Z := CompilerStringCodeUnits.remaining (code_units s).

(** Storage is canonical: wide only if a unit needs it. *)
Definition canonical (s : CompilerString) : Prop :=
  match storage s with
  | Latin1 units => Forall (λ u, u ≤ 255) units
  | Utf16 units => Exists (λ u, 255 < u) units
  end.

Lemma try_u8_Some u v : try_u8 u = Some v ↔ v = u ∧ u ≤ 255.
Proof. unfold try_u8. destruct (Z.leb_spec u 255); naive_solver lia. Qed.

Lemma try_u8_None u : try_u8 u = None ↔ 255 < u.
Proof. unfold try_u8. destruct (Z.leb_spec u 255); naive_solver lia. Qed.

Lemma narrow_units_latin1 units : ∀ acc,
  Forall (λ u, u ≤ 255) units → narrow_units acc units = Some (acc ++ units).
Proof.
  induction units as [|u units IH]; intros acc Hu; simpl; [by rewrite app_nil_r|].
  apply Forall_cons_1 in Hu as [Hu Hus]. rewrite (proj2 (try_u8_Some u u)) by done.
  by rewrite IH, <- app_assoc.
Qed.

Lemma existsb_wide units :
  existsb (λ unit, bool_decide (try_u8 unit = None)) units = false ↔ Forall (λ u, u ≤ 255) units.
Proof.
  induction units as [|u units IH]; simpl; [split; [constructor|done]|].
  rewrite orb_false_iff, IH, bool_decide_eq_false, try_u8_None, Forall_cons_iff.
  naive_solver lia.
Qed.

Lemma existsb_wide_true units :
  existsb (λ unit, bool_decide (try_u8 unit = None)) units = true → Exists (λ u, 255 < u) units.
Proof.
  intros (u & Hin & Hu)%existsb_exists. apply Exists_exists. exists u. split; [done|].
  by apply bool_decide_eq_true, try_u8_None in Hu.
Qed.

Lemma try_from_Ok `{Allocator} units s :
  try_from_code_units units = Ok s →
  units_of s = units ∧ canonical s ∧ len units ≤ MAX_COMPILER_STRING_CODE_UNITS.
Proof.
  unfold try_from_code_units. intros Hs. inv_ok. bool_to_prop.
  destruct (existsb _ units) eqn:Hw.
  - inv_ok. subst s. split_and!; [done|by apply existsb_wide_true|done].
  - inv_ok. apply existsb_wide in Hw. rewrite narrow_units_latin1 in Hs by done.
    inv_ok. subst s. by split_and!.
Qed.

Lemma try_from_succeeds `{GenerousAllocator} units :
  len units ≤ MAX_COMPILER_STRING_CODE_UNITS → ∃ s, try_from_code_units units = Ok s.
Proof.
  intros Hl. unfold try_from_code_units.
  destruct (Z.ltb_spec MAX_COMPILER_STRING_CODE_UNITS (len units)); [lia|].
  cbn [reject_if mbind result_bind]. destruct (existsb _ units); [by eexists|].
  rewrite reserve_generous. cbn [mbind result_bind]. destruct (narrow_units _ _); by eexists.
Qed.

(** Two canonical strings of the same units are the same. *)
Lemma canonical_inj s s' : canonical s → canonical s' → units_of s = units_of s' → s = s'.
Proof.
  destruct s as [[u|u]], s' as [[u'|u']]; simpl; intros Hc Hc' E; unfold units_of in E; simpl in E;
    subst; try done; exfalso.
  - apply Exists_exists in Hc' as (x & Hin & Hx).
    apply (proj1 (Forall_forall _ _) Hc) in Hin. lia.
  - apply Exists_exists in Hc as (x & Hin & Hx).
    apply (proj1 (Forall_forall _ _) Hc') in Hin. lia.
Qed.
End StringFacts.

(** *** Decimal spellings *)

Module DecimalFacts.

Lemma digit_from_spec first u : digit_from first u = true ↔ 48 + first ≤ u ≤ 57.
Proof. unfold digit_from. rewrite andb_true_iff, !Z.leb_le. done. Qed.

(** The checked arithmetic only cuts numbers that are too large anyway. *)
Lemma checked_step k d :
  0 ≤ k → 0 ≤ d ≤ 9 → 10 * k + d ≤ 2147483647 →
  (v ← checked_mul_u32 k 10; checked_add_u32 v d) = Some (10 * k + d).
Proof.
  intros Hk Hd Hle. unfold checked_mul_u32, checked_add_u32.
  destruct (Z.leb_spec (k * 10) u32_max); [|unfold u32_max in *; lia]. simpl.
  destruct (Z.leb_spec (k * 10 + d) u32_max); [f_equal; lia|unfold u32_max in *; lia].
Qed.

Lemma tagged_rest_spec units : ∀ k, 0 ≤ k ≤ 2147483647 →
  tagged_rest k units = true ↔ Forall is_digit units ∧ value k units ≤ 2147483647.
Proof.
  induction units as [|u units IH]; intros k Hk; cbn [tagged_rest].
  { split; [intros _; split; [constructor|apply Hk]|done]. }
  rewrite Forall_cons_iff. destruct (digit_from 0 u) eqn:Hd; cbn [negb].
  - apply digit_from_spec in Hd. split.
    + destruct (mbind _ _) as [r|] eqn:Hr; [|done]. apply checked_step_Some in Hr as ->.
      destruct (Z.ltb_spec 2147483647 (10 * k + (u - 48))); [done|].
      rewrite IH by lia. unfold is_digit. intros [? ?]. split; [split; [lia|done]|done].
    + intros [[Hu Hus] Hv].
      pose proof (value_grows units (10 * k + (u - 48)) ltac:(lia) Hus) as Hg.
      change (value k (u :: units)) with (value (10 * k + (u - 48)) units) in Hv.
      rewrite checked_step by lia. destruct (Z.ltb_spec 2147483647 (10 * k + (u - 48))); [lia|].
      apply IH; [lia|done].
  - split; [done|]. intros [[Hu _] _]. unfold is_digit in Hu.
    assert (digit_from 0 u = true) by (apply digit_from_spec; lia). congruence.
Qed.

Lemma tagged_iff s :
  is_tagged_integer_atom s = true ↔
  ∃ n, n ≤ 2147483647 ∧ decimal n (StringFacts.units_of s).
Proof.
  assert (∀ units,
    match units with
    | [] => false
    | first :: rest =>
        if first =? 48 then bool_decide (fst (CompilerStringCodeUnits.pop_front rest) = None) else
        if negb (digit_from 1 first) then false else tagged_rest (first - 48) rest
    end = true ↔ ∃ n, n ≤ 2147483647 ∧ decimal n units) as Hgen.
  2: { unfold is_tagged_integer_atom, StringFacts.units_of, code_units.
    destruct (storage s) as [units|units]; simpl; rewrite <- Hgen; destruct units as [|f rest]; simpl;
      [done| |done|]; destruct rest; done. }
  intros [|first rest].
  { split; [done|]. intros (n & _ & Hd). by destruct (decimal_shape _ _ Hd) as [[_ ?]|(_ & ? & ? & ? & _)]. }
  destruct (Z.eqb_spec first 48) as [->|Hne].
  - rewrite bool_decide_eq_true. split.
    + destruct rest; simpl; [|done]. intros _. exists 0. split; [lia|].
      by apply (decimal_digit 0); lia.
    + intros (n & _ & Hd). destruct (decimal_shape _ _ Hd) as [[_ [= ->]]|(_ & u & us & [= <- ->] & ? & _)];
        [done|lia].
  - destruct (digit_from 1 first) eqn:Hf; cbn [negb].
    + apply digit_from_spec in Hf. rewrite tagged_rest_spec by lia. split.
      * intros [Hds Hv]. eexists; split; [exact Hv|].
        apply (decimal_value rest (first - 48) [first]); [lia| |done].
        replace [first] with [48 + (first - 48)] by (f_equal; lia). apply decimal_digit. lia.
      * intros (n & Hn & Hd). destruct (decimal_shape _ _ Hd) as [[_ [= -> _]]|(_ & u & us & [= <- <-] & _ & Hus & Hv)];
          [lia|]. split; [done|lia].
    + split; [done|]. intros (n & _ & Hd).
      destruct (decimal_shape _ _ Hd) as [[_ [= -> _]]|(_ & u & us & [= <- ->] & Hu & _)]; [done|].
      assert (digit_from 1 first = true) by (apply digit_from_spec; lia). congruence.
Qed.
End DecimalFacts.

Module IteratorFacts.
Import CompilerStringCodeUnits.

(** A client that takes units from the front ([true]) and the back ([false])
    in any order: what each end gave, in order, and the iterator left. *)
Fixpoint take_ends (choices : list bool) (i : CompilerStringCodeUnits) :
    list Z * list Z * CompilerStringCodeUnits :=
  match choices with
  | [] => ([], [], i)
  | true :: choices =>
      let '(unit, i) := next i in
      let '(front, back, i) := take_ends choices i in (option_list unit ++ front, back, i)
  | false :: choices =>
      let '(unit, i) := next_back i in
      let '(front, back, i) := take_ends choices i in (front, option_list unit ++ back, i)
  end.

Lemma pop_front_spec units :
  option_list (pop_front units).1 ++ (pop_front units).2 = units ∧
  length (pop_front units).2 = pred (length units).
Proof. by destruct units. Qed.

Lemma pop_back_spec units :
  (pop_back units).2 ++ option_list (pop_back units).1 = units ∧
  length (pop_back units).2 = pred (length units).
Proof.
  unfold pop_back. destruct (rev units) as [|u r] eqn:Hr; simpl.
  - apply (f_equal (@rev Z)) in Hr. rewrite rev_involutive in Hr. by subst.
  - apply (f_equal (@rev Z)) in Hr. rewrite rev_involutive in Hr. subst units. simpl.
    split; [done|]. rewrite length_app. simpl. lia.
Qed.

Lemma next_spec i :
  option_list (next i).1 ++ remaining (next i).2 = remaining i ∧
  length (remaining (next i).2) = pred (length (remaining i)).
Proof. destruct i as [u|u]; simpl; pose proof (pop_front_spec u); by destruct (pop_front u). Qed.

Lemma next_back_spec i :
  remaining (next_back i).2 ++ option_list (next_back i).1 = remaining i ∧
  length (remaining (next_back i).2) = pred (length (remaining i)).
Proof. destruct i as [u|u]; simpl; pose proof (pop_back_spec u); by destruct (pop_back u). Qed.

Lemma rev_option_list {A} (o : option A) : rev (option_list o) = option_list o.
Proof. by destruct o. Qed.

Lemma take_ends_spec choices : ∀ i front back i',
  take_ends choices i = (front, back, i') →
  remaining i = front ++ remaining i' ++ rev back ∧
  length (remaining i') = (length (remaining i) - length choices)%nat.
Proof.
  induction choices as [|[] choices IH]; intros i front back i'; cbn [take_ends].
  - intros [= <- <- <-]. simpl. rewrite app_nil_r. split; [done|lia].
  - pose proof (next_spec i) as [Hn Hl]. destruct (next i) as [unit i1]. simpl in *.
    destruct (take_ends choices i1) as [[f b] i2] eqn:E. intros [= <- <- <-].
    destruct (IH _ _ _ _ E) as [H1 H2]. split; [|lia]. rewrite <- Hn, H1. by rewrite <- app_assoc.
  - pose proof (next_back_spec i) as [Hn Hl]. destruct (next_back i) as [unit i1]. simpl in *.
    destruct (take_ends choices i1) as [[f b] i2] eqn:E. intros [= <- <- <-].
    destruct (IH _ _ _ _ E) as [H1 H2]. split; [|lia].
    rewrite <- Hn, H1, rev_app_distr, rev_option_list. by rewrite <- !app_assoc.
Qed.
End IteratorFacts.

(** ** Properties *)

(** Freezing code units is canonical: it keeps exactly the given units,
    in one byte each unless some unit needs two, two frozen strings are equal
    if and only if their units are, and within the length limit it succeeds
    when memory is available. *)
Theorem compiler_string_canonical (a : Allocator) (units : list Z) (s : CompilerString)
    (Hs : try_from_code_units units = Ok s) :
  StringFacts.units_of s = units ∧ string_len s = len units ∧
  (payload_bytes s = len units ∧ latin1_units s = Some units ∧ Forall (λ u, u ≤ 255) units ∨
   payload_bytes s = 2 * len units ∧ utf16_units s = Some units ∧ Exists (λ u, 255 < u) units) ∧
  (∀ units' s', try_from_code_units units' = Ok s' → s' = s ↔ units' = units).
Proof.
  destruct (StringFacts.try_from_Ok units s Hs) as (Hu & Hc & _).
  split_and!; [done| | |].
  - rewrite <- Hu. by destruct s as [[]].
  - destruct s as [[u|u]]; unfold StringFacts.units_of in Hu; simpl in *; subst u;
      [left; by split_and!|right; split_and!; [|done|done]].
    unfold payload_bytes. simpl. lia.
  - intros units' s' Hs'. destruct (StringFacts.try_from_Ok units' s' Hs') as (Hu' & Hc' & _).
    split; [intros ->; congruence|]. intros ->. apply StringFacts.canonical_inj; [done..|congruence].
Qed.

Lemma compiler_string_canonical_witness :
  payload_bytes (mkCompilerString (Utf16 [72; 8364])) = 4 ∧
  (∀ units' s', @try_from_code_units always_allocates units' = Ok s' →
     s' = mkCompilerString (Utf16 [72; 8364]) ↔ units' = [72; 8364]).
Proof.
  destruct (compiler_string_canonical always_allocates [72; 8364]
    (mkCompilerString (Utf16 [72; 8364]))) as (_ & _ & _ & Heq); [vm_compute; reflexivity|].
  split; [reflexivity|exact Heq].
Defined.

(** The tagged-integer test is exact: it holds for the canonical decimal
    spellings of the numbers from 0 to 2147483647 and for nothing else; its
    checked [u32] arithmetic never rejects one of them. *)
Theorem tagged_integer_exact (s : CompilerString) :
  is_tagged_integer_atom s = true ↔
  ∃ n, n ≤ 2147483647 ∧ decimal n (StringFacts.units_of s).
Proof. apply DecimalFacts.tagged_iff. Qed.

(** Iterating a string from both ends visits every unit once: whatever
    the interleaving of [next] and [next_back], the units taken from the front,
    the units left and the units taken from the back are the string, in order,
    and after as many calls as units nothing is left. *)
Theorem code_units_two_ended (s : CompilerString) (choices : list bool) (front back : list Z)
    (i : CompilerStringCodeUnits)
    (Ht : IteratorFacts.take_ends choices (code_units s) = (front, back, i)) :
  StringFacts.units_of s = front ++ CompilerStringCodeUnits.remaining i ++ rev back ∧
  CompilerStringCodeUnits.exact_len i = Z.max 0 (string_len s - len choices).
Proof.
  apply IteratorFacts.take_ends_spec in Ht as [Hu Hl]. split; [exact Hu|].
  unfold CompilerStringCodeUnits.exact_len, len. rewrite Hl.
  destruct s as [[u|u]]; unfold string_len, len; simpl; lia.
Qed.

Lemma code_units_two_ended_witness :
  [97; 98; 99] = [97] ++ [98] ++ rev [99].
Proof.
  exact (proj1 (code_units_two_ended (mkCompilerString (Latin1 [97; 98; 99])) [false; true]
    [97] [99] (CompilerStringCodeUnits.Latin1 [98]) eq_refl)).
Defined.
