(* ===== verification/Disassembly.v ===== *)
(** * Disassembly

    Models [crates/fusor-bytecode/src/disassembly.rs]: the bounded rendering
    of a checked instruction stream into a text sink, with the [Display] of
    opcodes, operands and instruction lines as strings.  A sink is a function
    that takes its state and a line and gives the new state or refuses; all
    text is ASCII, so its length is its number of UTF-8 bytes. *)

From Stdlib Require Import DecimalString DecimalN.
From S2P Require Import Prelude Opcode Codec.

(** ** Formatting *)

Notation text := String.string.

(** [{}] of an unsigned integer and of a signed one. *)
Definition show_unsigned (z : Z) : text := NilEmpty.string_of_uint (N.to_uint (Z.to_N z)).

Definition show_signed (z : Z) : text :=
  if z <? 0 then "-" +:+ show_unsigned (- z) else show_unsigned z.

(** [{:+}] of a signed integer. *)
Definition show_plus (z : Z) : text :=
  if z <? 0 then "-" +:+ show_unsigned (- z) else "+" +:+ show_unsigned z.

(** A hexadecimal digit, and [{:08x}] of a [u32]. *)
Definition hex_digit (d : Z) : Ascii.ascii :=
  Ascii.ascii_of_nat (Z.to_nat (if d <? 10 then 48 + d else 87 + d)).

Fixpoint show_hex (digits : nat) (z : Z) : text :=
  match digits with
  | O => ""
  | S digits => String.String (hex_digit (z / 16 ^ Z.of_nat digits mod 16)) (show_hex digits z)
  end.

Definition show_hex8 (z : Z) : text := show_hex 8 z.

(** [impl Display for Operands] *)
Definition show_operands (o : Operands) : text :=
  match o with
  | Operands.None => "none"
  | Operands.NoneInt => "none_int"
  | Operands.NoneLoc => "none_loc"
  | Operands.NoneArg => "none_arg"
  | Operands.NoneVarRef => "none_var_ref"
  | Operands.U8 value => "u8(" +:+ show_unsigned value +:+ ")"
  | Operands.I8 value => "i8(" +:+ show_signed value +:+ ")"
  | Operands.Loc8 index => "loc8(index=" +:+ show_unsigned index +:+ ")"
  | Operands.Const8 index => "const8(index=" +:+ show_unsigned index +:+ ")"
  | Operands.Label8 displacement => "label8(displacement=" +:+ show_plus displacement +:+ ")"
  | Operands.U16 value => "u16(" +:+ show_unsigned value +:+ ")"
  | Operands.I16 value => "i16(" +:+ show_signed value +:+ ")"
  | Operands.Label16 displacement => "label16(displacement=" +:+ show_plus displacement +:+ ")"
  | Operands.NPop argument_count => "npop(argument_count=" +:+ show_unsigned argument_count +:+ ")"
  | Operands.NPopX => "npopx"
  | Operands.NPopU16 argument_count scope_index =>
      "npop_u16(argument_count=" +:+ show_unsigned argument_count
        +:+ ", scope_index=" +:+ show_unsigned scope_index +:+ ")"
  | Operands.Loc index => "loc(index=" +:+ show_unsigned index +:+ ")"
  | Operands.Arg index => "arg(index=" +:+ show_unsigned index +:+ ")"
  | Operands.VarRef index => "var_ref(index=" +:+ show_unsigned index +:+ ")"
  | Operands.U32 value => "u32(" +:+ show_unsigned value +:+ ")"
  | Operands.I32 value => "i32(" +:+ show_signed value +:+ ")"
  | Operands.Const index => "const(index=" +:+ show_unsigned index +:+ ")"
  | Operands.Label displacement => "label(displacement=" +:+ show_plus displacement +:+ ")"
  | Operands.Atom index => "atom(pool_index=0x" +:+ show_hex8 index +:+ ")"
  | Operands.AtomU8 atom value =>
      "atom_u8(pool_index=0x" +:+ show_hex8 atom +:+ ", value=" +:+ show_unsigned value +:+ ")"
  | Operands.AtomU16 atom value =>
      "atom_u16(pool_index=0x" +:+ show_hex8 atom +:+ ", value=" +:+ show_unsigned value +:+ ")"
  | Operands.AtomLabelU8 atom label value =>
      "atom_label_u8(pool_index=0x" +:+ show_hex8 atom +:+ ", displacement=" +:+ show_plus label
        +:+ ", value=" +:+ show_unsigned value +:+ ")"
  | Operands.AtomLabelU16 atom label value =>
      "atom_label_u16(pool_index=0x" +:+ show_hex8 atom +:+ ", displacement=" +:+ show_plus label
        +:+ ", value=" +:+ show_unsigned value +:+ ")"
  | Operands.LabelU16 label value =>
      "label_u16(displacement=" +:+ show_plus label +:+ ", value=" +:+ show_unsigned value +:+ ")"
  end.

Record InstructionLine := mkLine {
  line_pc : BytecodePc;
  line_opcode : FinalOpcode;
  line_operands : Operands;
  line_stack_effect : StackEffect }.

Definition newline : text := String.String (Ascii.ascii_of_nat 10) "".

(** [impl Display for InstructionLine]; an opcode is shown as its mnemonic. *)
Definition show_line (line : InstructionLine) : text :=
  "pc=0x" +:+ show_hex8 (line_pc line)
    +:+ " opcode=" +:+ OpcodeMetadata.mnemonic (FinalOpcode.metadata (line_opcode line))
    +:+ " operands=" +:+ show_operands (line_operands line)
    +:+ " stack={pops=" +:+ show_unsigned (pops (line_stack_effect line))
    +:+ ",pushes=" +:+ show_unsigned (pushes (line_stack_effect line))
    +:+ "}" +:+ newline.

(** [ByteCounter] and [InstructionLine::encoded_len]; [None] is the counter's
    overflow. *)
Definition count_text (bytes : Z) (value : text) : option Z :=
  checked_add_u64 bytes (Z.of_nat (String.length value)).

Definition encoded_len (line : InstructionLine) : option Z := count_text 0 (show_line line).

(** ** Rendering *)

Record DisassemblyLimits := mkDisassemblyLimits {
  max_rendered_instructions : Z;
  max_output_bytes : Z }.

Record DisassemblySummary := mkSummary { instruction_count : Z; output_bytes : Z }.

Module DisassemblyError.
Inductive DisassemblyError : Set :=
| EmptyInstructionStream (pc : BytecodePc)
| Decode (source : DecodeError)
| StackEffect (pc : BytecodePc) (opcode : FinalOpcode) (source : FinalOpcode.StackEffectError)
| InstructionLimitExceeded (pc : BytecodePc) (rendered_instructions max_instructions : Z)
| OutputLimitExceeded (pc : BytecodePc) (rendered_bytes next_line_bytes max_output_bytes : Z)
| Formatting (pc : BytecodePc).
End DisassemblyError.
Notation DisassemblyError := DisassemblyError.DisassemblyError.

Section render.
Context {W : Type} (write : W → text → option W) (limits : DisassemblyLimits).

(** The line of an instruction, if the output has room for it. *)
Definition fit_line (decoded : DecodedInstruction) (line : InstructionLine) (bytes : Z) :
    result DisassemblyError (DecodedInstruction * text * Z) :=
  next_line_bytes ← ok_or (encoded_len line) (DisassemblyError.Formatting (pc decoded));
  reject_if (saturating_sub (max_output_bytes limits) bytes <? next_line_bytes)
    (DisassemblyError.OutputLimitExceeded (pc decoded) bytes next_line_bytes
       (max_output_bytes limits)) ;;
  Ok (decoded, show_line line, next_line_bytes).

(** One turn of the loop for an item of the stream: the line and its bytes. *)
Definition next_line (next_pc : BytecodePc) (item : result DecodeError DecodedInstruction)
    (count bytes : Z) : result DisassemblyError (DecodedInstruction * text * Z) :=
  reject_if (max_rendered_instructions limits <=? count)
    (DisassemblyError.InstructionLimitExceeded next_pc count (max_rendered_instructions limits)) ;;
  decoded ← map_err DisassemblyError.Decode item;
  let opcode := Instruction.opcode (instruction decoded) in
  effect ← map_err (DisassemblyError.StackEffect (pc decoded) opcode)
             (Instruction.stack_effect (instruction decoded));
  fit_line decoded (mkLine (pc decoded) opcode (Instruction.operands (instruction decoded)) effect)
    bytes.

(** The [loop], with the sink's state after it.  Every turn consumes at least
    one byte, so a fuel above the number of bytes is never exhausted. *)
Fixpoint render_loop (fuel : nat) (initial_pc : BytecodePc)
    (decoder : InstructionDecoder.InstructionDecoder) (output : W) (count bytes : Z) :
    option (result DisassemblyError DisassemblySummary * W) :=
  match fuel with
  | O => None
  | S fuel =>
      let next_pc := InstructionDecoder.next_pc decoder in
      match InstructionDecoder.next decoder with
      | (None, _) =>
          Some (if count =? 0 then Err (DisassemblyError.EmptyInstructionStream initial_pc)
                else Ok (mkSummary count bytes), output)
      | (Some item, decoder) =>
          match next_line next_pc item count bytes with
          | Err e => Some (Err e, output)
          | Ok (decoded, line, next_line_bytes) =>
              match write output line with
              | None => Some (Err (DisassemblyError.Formatting (pc decoded)), output)
              | Some output =>
                  render_loop fuel initial_pc decoder output (count + 1) (bytes + next_line_bytes)
              end
          end
      end
  end.

Definition render_disassembly (decoder : InstructionDecoder.InstructionDecoder) (output : W) :
    option (result DisassemblyError DisassemblySummary * W) :=
  render_loop (S (length (InstructionDecoder.bytecode decoder)))
    (InstructionDecoder.next_pc decoder) decoder output 0 0.
End render.

(** [impl Write for String] *)
Definition write_string (output line : text) : option text := Some (output +:+ line).

(** ** Facts *)

Module TextFacts.

#[local] Arguments String.append : simpl nomatch.
#[local] Arguments show_unsigned : simpl never.
#[local] Arguments show_signed : simpl never.
#[local] Arguments show_plus : simpl never.
#[local] Arguments show_hex8 : simpl never.

Lemma append_assoc (s t u : text) : (s +:+ t) +:+ u = s +:+ (t +:+ u).
Proof. induction s as [|c s IH]; simpl; [done|]. by rewrite IH. Qed.

Lemma append_nil (s : text) : s +:+ "" = s.
Proof. induction s as [|c s IH]; simpl; [done|]. by rewrite IH. Qed.

Lemma append_cancel_l (s r r' : text) : s +:+ r = s +:+ r' → r = r'.
Proof. induction s as [|c s IH]; simpl; [done|]. intros [= H]. by apply IH. Qed.

Lemma length_append (s t : text) :
  String.length (s +:+ t) = (String.length s + String.length t)%nat.
Proof. induction s as [|c s IH]; simpl; [done|]. by rewrite IH. Qed.

Fixpoint all_chars (p : Ascii.ascii → bool) (s : text) : bool :=
  match s with
  | String.EmptyString => true
  | String.String c s => p c && all_chars p s
  end.

Definition stops (p : Ascii.ascii → bool) (s : text) : Prop :=
  match s with
  | String.EmptyString => True
  | String.String c _ => p c = false
  end.

(** A field ends where its characters do. *)
Lemma span_inj p s s' r r' :
  all_chars p s = true → all_chars p s' = true → stops p r → stops p r' →
  s +:+ r = s' +:+ r' → s = s' ∧ r = r'.
Proof.
  revert s'. induction s as [|c s IH]; intros [|c' s'] Hs Hs' Hr Hr'; simpl in *.
  - done.
  - intros ->. simpl in Hr. apply andb_true_iff in Hs' as [? _]. congruence.
  - intros <-. simpl in Hr'. apply andb_true_iff in Hs as [? _]. congruence.
  - intros [= <- H]. apply andb_true_iff in Hs as [_ Hs], Hs' as [_ Hs'].
    destruct (IH s' Hs Hs' Hr Hr' H) as [-> ->]. done.
Qed.

Lemma fixed_inj (s s' r r' : text) :
  String.length s = String.length s' → s +:+ r = s' +:+ r' → s = s' ∧ r = r'.
Proof.
  revert s'. induction s as [|c s IH]; intros [|c' s'] Hl; simpl in *; try done.
  intros [= <- H]. destruct (IH s' ltac:(lia) H) as [-> ->]. done.
Qed.

(** *** Numbers *)

Definition number_char (c : Ascii.ascii) : bool :=
  let n := Ascii.nat_of_ascii c in
  ((48 <=? n) && (n <=? 57) || (n =? 43) || (n =? 45))%nat.

Definition minus : Ascii.ascii := Ascii.ascii_of_nat 45.

Definition not_minus (s : text) : Prop :=
  match s with String.EmptyString => True | String.String c _ => c ≠ minus end.

Lemma uint_chars u : all_chars number_char (NilEmpty.string_of_uint u) = true.
Proof. induction u; simpl; done. Qed.

Lemma uint_not_minus u : not_minus (NilEmpty.string_of_uint u).
Proof. by destruct u. Qed.

Lemma show_unsigned_inj z z' : 0 ≤ z → 0 ≤ z' → show_unsigned z = show_unsigned z' → z = z'.
Proof.
  intros Hz Hz' H. apply (f_equal NilEmpty.uint_of_string) in H. unfold show_unsigned in H.
  rewrite !NilEmpty.usu in H. injection H as H. apply Unsigned.to_uint_inj in H. lia.
Qed.

Lemma show_unsigned_chars z : all_chars number_char (show_unsigned z) = true.
Proof. apply uint_chars. Qed.

Lemma show_signed_chars z : all_chars number_char (show_signed z) = true.
Proof. unfold show_signed. destruct (z <? 0); apply uint_chars. Qed.

Lemma show_plus_chars z : all_chars number_char (show_plus z) = true.
Proof. unfold show_plus. destruct (z <? 0); apply uint_chars. Qed.

Lemma minus_unsigned s z : String.String minus s = show_unsigned z → False.
Proof. intros H. pose proof (uint_not_minus (N.to_uint (Z.to_N z))) as Hn.
  unfold show_unsigned in H. rewrite <- H in Hn. by apply Hn. Qed.

Lemma show_signed_inj z z' : show_signed z = show_signed z' → z = z'.
Proof.
  unfold show_signed. destruct (Z.ltb_spec z 0), (Z.ltb_spec z' 0); intros E.
  - injection E as E. apply show_unsigned_inj in E; lia.
  - by apply minus_unsigned in E.
  - symmetry in E. by apply minus_unsigned in E.
  - by apply show_unsigned_inj.
Qed.

Lemma show_plus_inj z z' : show_plus z = show_plus z' → z = z'.
Proof.
  unfold show_plus. destruct (Z.ltb_spec z 0), (Z.ltb_spec z' 0); intros E; simpl in E; try done;
    injection E as E; apply show_unsigned_inj in E; lia.
Qed.

Section number_fields.
Context (c c' : Ascii.ascii) (r r' : text).
Context (Hc : number_char c = false) (Hc' : number_char c' = false).

Lemma unsigned_field z z' :
  0 ≤ z → 0 ≤ z' → show_unsigned z +:+ String.String c r = show_unsigned z' +:+ String.String c' r' →
  z = z' ∧ String.String c r = String.String c' r'.
Proof.
  intros Hz Hz' H. apply (span_inj number_char) in H as [H ?];
    [|apply show_unsigned_chars..|done|done]. split; [by apply show_unsigned_inj|done].
Qed.

Lemma signed_field z z' :
  show_signed z +:+ String.String c r = show_signed z' +:+ String.String c' r' →
  z = z' ∧ String.String c r = String.String c' r'.
Proof.
  intros H. apply (span_inj number_char) in H as [H ?];
    [|apply show_signed_chars..|done|done]. split; [by apply show_signed_inj|done].
Qed.

Lemma plus_field z z' :
  show_plus z +:+ String.String c r = show_plus z' +:+ String.String c' r' →
  z = z' ∧ String.String c r = String.String c' r'.
Proof.
  intros H. apply (span_inj number_char) in H as [H ?];
    [|apply show_plus_chars..|done|done]. split; [by apply show_plus_inj|done].
Qed.
End number_fields.

(** *** Hexadecimal *)

Lemma length_show_hex n z : String.length (show_hex n z) = n.
Proof. induction n; simpl; congruence. Qed.

Lemma hex_digit_inj d d' : 0 ≤ d < 16 → 0 ≤ d' < 16 → hex_digit d = hex_digit d' → d = d'.
Proof.
  intros Hd Hd' H. unfold hex_digit in H. apply (f_equal Ascii.nat_of_ascii) in H.
  rewrite !Ascii.nat_ascii_embedding in H by (repeat case_match; lia).
  destruct (Z.ltb_spec d 10), (Z.ltb_spec d' 10); lia.
Qed.

Lemma show_hex_inj n z z' :
  show_hex n z = show_hex n z' → z mod 16 ^ Z.of_nat n = z' mod 16 ^ Z.of_nat n.
Proof.
  induction n as [|n IH]; [intros _; by rewrite !Z.mod_1_r|]. cbn [show_hex]. intros [= Hd Hr].
  apply hex_digit_inj in Hd; [|apply Z.mod_pos_bound; lia..]. apply IH in Hr.
  rewrite Nat2Z.inj_succ, Z.pow_succ_r, (Z.mul_comm 16) by lia.
  assert (0 < 16 ^ Z.of_nat n) by (apply Z.pow_pos_nonneg; lia).
  rewrite !Z.rem_mul_r by lia. congruence.
Qed.

Lemma show_hex8_inj z z' : is_u32 z → is_u32 z' → show_hex8 z = show_hex8 z' → z = z'.
Proof.
  intros Hz Hz' H. apply show_hex_inj in H. unfold is_u32 in *.
  rewrite !Z.mod_small in H; [done|..]; change (16 ^ Z.of_nat 8) with 4294967296; lia.
Qed.

Lemma hex8_field z z' r r' :
  is_u32 z → is_u32 z' → show_hex8 z +:+ r = show_hex8 z' +:+ r' → z = z' ∧ r = r'.
Proof.
  intros Hz Hz' H. apply fixed_inj in H as [H ?]; [|by unfold show_hex8; rewrite !length_show_hex].
  split; [by apply show_hex8_inj|done].
Qed.

(** *** Operands and lines *)

#[local] Opaque show_hex8.

Lemma string_tail c (r r' : text) : String.String c r = String.String c r' → r = r'.
Proof. by intros [= ->]. Qed.

(** Removes equal literal characters and reads off equal fields. *)
Ltac peel_fields H :=
  repeat first
    [ progress simpl in H
    | match type of H with
      | String.String ?c _ = String.String ?c _ => apply string_tail in H
      | show_unsigned _ +:+ _ = _ => apply unsigned_field in H as [? H]; [|reflexivity|reflexivity|solve_ints|solve_ints]
      | show_signed _ +:+ _ = _ => apply signed_field in H as [? H]; [|reflexivity|reflexivity]
      | show_plus _ +:+ _ = _ => apply plus_field in H as [? H]; [|reflexivity|reflexivity]
      | show_hex8 _ +:+ _ = _ => apply hex8_field in H as [? H]; [|assumption|assumption]
      end ].

Lemma operands_field o o' r r' :
  Operands.in_range o → Operands.in_range o' → Operands.format o = Operands.format o' →
  show_operands o +:+ r = show_operands o' +:+ r' → o = o' ∧ r = r'.
Proof.
  intros Ho Ho' Hf H.
  destruct o, o'; try discriminate Hf; clear Hf; unfold show_operands in H;
    rewrite ?append_assoc in H; simpl in Ho, Ho'; destruct_and?; peel_fields H; by subst.
Qed.

(** The opcode a mnemonic names. *)
Definition opcode_named (name : text) : option FinalOpcode :=
  find (λ o, String.eqb (OpcodeMetadata.mnemonic (FinalOpcode.metadata o)) name)
    FinalOpcode.ALL_FINAL_OPCODES.

Lemma opcode_named_mnemonic o :
  opcode_named (OpcodeMetadata.mnemonic (FinalOpcode.metadata o)) = Some o.
Proof. destruct o; vm_compute; reflexivity. Qed.

Definition not_space (c : Ascii.ascii) : bool := negb (Ascii.nat_of_ascii c =? 32)%nat.

Lemma mnemonic_chars o :
  all_chars not_space (OpcodeMetadata.mnemonic (FinalOpcode.metadata o)) = true.
Proof. destruct o; vm_compute; reflexivity. Qed.

Lemma mnemonic_field o o' (r r' : text) :
  OpcodeMetadata.mnemonic (FinalOpcode.metadata o) +:+ String.String (Ascii.ascii_of_nat 32) r
  = OpcodeMetadata.mnemonic (FinalOpcode.metadata o') +:+ String.String (Ascii.ascii_of_nat 32) r' →
  o = o' ∧ r = r'.
Proof.
  intros H. apply (span_inj not_space) in H as [H Hr]; [|apply mnemonic_chars..|done|done].
  split; [|by apply string_tail in Hr]. apply (f_equal opcode_named) in H.
  rewrite !opcode_named_mnemonic in H. by injection H.
Qed.

(** The text of a decoded instruction. *)
Definition line_of (d : DecodedInstruction) : text :=
  match Instruction.stack_effect (instruction d) with
  | Ok effect =>
      show_line (mkLine (pc d) (Instruction.opcode (instruction d))
                   (Instruction.operands (instruction d)) effect)
  | Err _ => ""
  end.

Lemma dynamic_count o : is_Some (Operands.dynamic_argument_count o) ↔
  Operands.format o = OperandFormat.NPop ∨ Operands.format o = OperandFormat.NPopU16.
Proof. unfold is_Some. destruct o; simpl; naive_solver. Qed.

Lemma opcode_effect_Ok o n :
  (is_Some n ↔ OpcodeMetadata.operand_format (FinalOpcode.metadata o) = OperandFormat.NPop ∨
               OpcodeMetadata.operand_format (FinalOpcode.metadata o) = OperandFormat.NPopU16) →
  ∃ e, FinalOpcode.stack_effect o n = Ok e.
Proof.
  intros Hn. destruct n as [n|].
  - assert (is_Some (Some n)) as Hs%Hn by done. clear Hn.
    destruct o; try (destruct Hs; discriminate); by eexists.
  - destruct o; try (by eexists); exfalso;
      (assert (is_Some (@None Z)) as [? [=]] by (apply Hn; (left; reflexivity) || (right; reflexivity))).
Qed.

(** A valid instruction has a stack effect. *)
Lemma valid_effect i : Instruction.valid i → ∃ e, Instruction.stack_effect i = Ok e.
Proof.
  intros (_ & Hf & _). unfold Instruction.stack_effect.
  destruct (Instruction.is_derived_define_class i); [by eexists|].
  apply opcode_effect_Ok. rewrite Hf. apply dynamic_count.
Qed.

Lemma line_field d d' (r r' : text) :
  Instruction.valid (instruction d) → Instruction.valid (instruction d') →
  is_u32 (pc d) → is_u32 (pc d') → line_of d +:+ r = line_of d' +:+ r' →
  pc d = pc d' ∧ instruction d = instruction d' ∧ r = r'.
Proof.
  intros Hv Hv' Hp Hp' H. destruct (valid_effect _ Hv) as [e He], (valid_effect _ Hv') as [e' He'].
  unfold line_of in H. rewrite He, He' in H. unfold show_line in H. cbn [line_pc line_opcode
    line_operands line_stack_effect] in H. rewrite !append_assoc in H.
  repeat (simpl in H; match type of H with String.String ?c _ = String.String ?c _ =>
    apply string_tail in H end).
  apply hex8_field in H as [Hpc H]; [|done..].
  repeat (simpl in H; match type of H with String.String ?c _ = String.String ?c _ =>
    apply string_tail in H end).
  apply mnemonic_field in H as [Hop H].
  repeat (simpl in H; match type of H with String.String ?c _ = String.String ?c _ =>
    apply string_tail in H end).
  destruct d as [p [o ops] np], d' as [p' [o' ops'] np']. simpl in *. subst o' p'.
  destruct Hv as (_ & Hf & Hr), Hv' as (_ & Hf' & Hr'). simpl in *.
  apply operands_field in H as [<- H]; [|done|done|congruence].
  assert (e' = e) as -> by congruence. split_and!; [done|done|].
  repeat (simpl in H; first [apply string_tail in H | apply append_cancel_l in H]). done.
Qed.
End TextFacts.

(** *** Rendering *)

Module RenderFacts.
Import TextFacts CodecFacts.

#[local] Arguments String.append : simpl nomatch.

(** The lines of decoded instructions and their bytes. *)
Definition text_of (ds : list DecodedInstruction) : text :=
  foldr (λ d t, line_of d +:+ t) "" ds.

Definition bytes_of (ds : list DecodedInstruction) : Z := Z.of_nat (String.length (text_of ds)).

(** Instructions that follow each other from [p] on, not necessarily to the
    end. *)
Inductive decodes_from (bc : list Z) : Z → list DecodedInstruction → Prop :=
| decodes_from_stop p : decodes_from bc p []
| decodes_from_step p d ds :
    decode_instruction bc p = Ok d → decodes_from bc (next_pc d) ds → decodes_from bc p (d :: ds).

Lemma line_of_effect d e :
  Instruction.stack_effect (instruction d) = Ok e →
  line_of d = show_line (mkLine (pc d) (Instruction.opcode (instruction d))
                           (Instruction.operands (instruction d)) e).
Proof. unfold line_of. by intros ->. Qed.

Lemma bytes_of_cons d ds :
  bytes_of (d :: ds) = Z.of_nat (String.length (line_of d)) + bytes_of ds.
Proof. unfold bytes_of. simpl. rewrite length_append. lia. Qed.

Lemma bytes_of_nonneg ds : 0 ≤ bytes_of ds.
Proof. unfold bytes_of. lia. Qed.

Section render.
Context (limits : DisassemblyLimits) (Hlimits : is_u64 (max_output_bytes limits)).
Context (bc : list Z) (Hbc : byte_list bc) (Hlen : len bc ≤ u32_max).

Lemma fit_line_Ok d line bytes d' t n :
  bytes ≤ max_output_bytes limits → fit_line limits d line bytes = Ok (d', t, n) →
  d' = d ∧ t = show_line line ∧ n = Z.of_nat (String.length t) ∧
  bytes + n ≤ max_output_bytes limits.
Proof.
  intros Hb. unfold fit_line, encoded_len, count_text. intros Hn. inv_ok. simplify_eq.
  rename select (checked_add_u64 _ _ = _) into Hl. apply checked_add_u64_Some in Hl as [Hl _].
  bool_to_prop. unfold saturating_sub in *. split_and!; [done|done|lia|lia].
Qed.

Lemma fit_line_succeeds d line bytes :
  0 ≤ bytes → bytes + Z.of_nat (String.length (show_line line)) ≤ max_output_bytes limits →
  fit_line limits d line bytes
  = Ok (d, show_line line, Z.of_nat (String.length (show_line line))).
Proof.
  intros H0 Hb. unfold fit_line, encoded_len, count_text.
  rewrite checked_add_u64_fits by (unfold_ints; lia). rewrite Z.add_0_l.
  cbn [ok_or mbind result_bind]. unfold saturating_sub.
  match goal with |- context [?a <? ?b] => destruct (Z.ltb_spec a b); [lia|] end. done.
Qed.

Lemma next_line_Ok q item count bytes d line n :
  bytes ≤ max_output_bytes limits →
  next_line limits q item count bytes = Ok (d, line, n) →
  item = Ok d ∧ line = line_of d ∧ n = Z.of_nat (String.length line) ∧
  count < max_rendered_instructions limits ∧ bytes + n ≤ max_output_bytes limits.
Proof.
  intros Hb. unfold next_line. intros Hn. inv_ok.
  rename select (Instruction.stack_effect _ = _) into He. apply line_of_effect in He.
  apply fit_line_Ok in Hn as (-> & Ht & -> & ?); [|done]. bool_to_prop. rewrite He.
  by split_and!.
Qed.

Lemma next_line_succeeds q d count bytes :
  Instruction.valid (instruction d) → count < max_rendered_instructions limits → 0 ≤ bytes →
  bytes + Z.of_nat (String.length (line_of d)) ≤ max_output_bytes limits →
  next_line limits q (Ok d) count bytes
  = Ok (d, line_of d, Z.of_nat (String.length (line_of d))).
Proof.
  intros Hv Hc H0 Hb. destruct (valid_effect _ Hv) as [e He].
  rewrite (line_of_effect d e He) in *. unfold next_line.
  destruct (Z.leb_spec (max_rendered_instructions limits) count); [lia|].
  cbn [reject_if mbind result_bind map_err]. rewrite He. cbn [mbind result_bind map_err].
  by apply fit_line_succeeds.
Qed.

(** Whatever happens, whole lines of the stream have been written, and success
    means the whole stream. *)
Lemma render_loop_writes fuel : ∀ init p out count bytes,
  0 ≤ p ≤ len bc → len bc - p < Z.of_nat fuel → 0 ≤ count → bytes ≤ max_output_bytes limits →
  ∃ r ds, render_loop write_string limits fuel init (InstructionDecoder.with_pc bc p) out count bytes
          = Some (r, out +:+ text_of ds) ∧ decodes_from bc p ds ∧
    ∀ s, r = Ok s → decodes_to bc p ds ∧ count + len ds ≠ 0 ∧
      (ds = [] ∨ count + len ds ≤ max_rendered_instructions limits) ∧
      bytes + bytes_of ds ≤ max_output_bytes limits ∧
      s = mkSummary (count + len ds) (bytes + bytes_of ds).
Proof.
  induction fuel as [|fuel IH]; intros init p out count bytes Hp Hf Hcount Hb; [lia|].
  cbn [render_loop]. unfold InstructionDecoder.next. cbn [InstructionDecoder.finished
    InstructionDecoder.with_pc InstructionDecoder.next_pc InstructionDecoder.bytecode].
  rewrite try_usize_u32 by (unfold_ints; lia). rewrite Z2Nat.id by lia.
  destruct (Z.eqb_spec p (len bc)) as [->|Hne].
  { eexists _, []. simpl. rewrite append_nil. split; [done|]. split; [constructor|].
    intros s. destruct (Z.eqb_spec count 0); [done|]. intros [= <-].
    split_and!; [constructor|unfold len; simpl; lia|by left|unfold bytes_of; simpl; lia|].
    unfold bytes_of, len. simpl. f_equal; lia. }
  destruct (decode_instruction bc p) as [d|e] eqn:Hd;
    match goal with |- context [next_line limits ?q ?it count bytes] =>
      destruct (next_line limits q it count bytes) as [[[d' line] n]|e'] eqn:Hn end.
  2, 4: eexists _, []; simpl; rewrite append_nil; split_and!; [done|constructor|done].
  2: { apply next_line_Ok in Hn as (? & _); done. }
  apply next_line_Ok in Hn as ([= <-] & -> & -> & Hc & Hbn); [|done].
  destruct (decode_instruction_sound _ _ _ Hbc Hd) as (Hpc & _ & Hnx & _ & Hle & _).
  pose proof (encoded_size_bound (instruction d)).
  cbn [write_string]. destruct (IH init (next_pc d) (out +:+ line_of d) (count + 1)
    (bytes + Z.of_nat (String.length (line_of d)))) as (r & ds & Hr & Hds & Hok); [lia..|].
  exists r, (d :: ds). unfold InstructionDecoder.with_pc in Hr. rewrite Hr, append_assoc.
  split; [done|]. split; [by econstructor|]. intros s Hs.
  destruct (Hok s Hs) as (Hall & _ & Hmax & Hbytes & ->). rewrite bytes_of_cons, len_cons.
  pose proof (len_nonneg ds). split_and!; [econstructor; (done || lia)| | |lia|f_equal; lia].
  - lia.
  - right. destruct Hmax as [->|?]; [|lia]. change (len []) with 0. lia.
Qed.

(** A stream within the limits is rendered to its end. *)
Lemma render_loop_succeeds fuel : ∀ init p out count bytes ds,
  decodes_to bc p ds → 0 ≤ p → len bc - p < Z.of_nat fuel → 0 ≤ count → 0 ≤ bytes →
  count + len ds ≤ max_rendered_instructions limits →
  bytes + bytes_of ds ≤ max_output_bytes limits → count + len ds ≠ 0 →
  render_loop write_string limits fuel init (InstructionDecoder.with_pc bc p) out count bytes
  = Some (Ok (mkSummary (count + len ds) (bytes + bytes_of ds)), out +:+ text_of ds).
Proof.
  induction fuel as [|fuel IH]; intros init p out count bytes ds Hds Hp Hf Hc Hb Hmax Hout Hne.
  { apply StreamFacts.decodes_to_le in Hds; lia. }
  cbn [render_loop]. unfold InstructionDecoder.next. cbn [InstructionDecoder.finished
    InstructionDecoder.with_pc InstructionDecoder.next_pc InstructionDecoder.bytecode].
  pose proof (StreamFacts.decodes_to_le _ _ _ Hp Hds).
  rewrite try_usize_u32 by (unfold_ints; lia). rewrite Z2Nat.id by lia.
  inversion Hds as [E|p' d ds' Hlt Hd Hrest]; subst.
  - rewrite Z.eqb_refl. change (len []) with 0 in *. destruct (Z.eqb_spec count 0); [lia|].
    unfold bytes_of. simpl. rewrite append_nil, !Z.add_0_r. done.
  - destruct (Z.eqb_spec p (len bc)); [lia|]. rewrite Hd. rewrite len_cons, bytes_of_cons in *.
    pose proof (len_nonneg ds'). pose proof (bytes_of_nonneg ds').
    destruct (decode_instruction_sound _ _ _ Hbc Hd) as (Hpc & Hv & Hnx & _ & Hle & _).
    pose proof (encoded_size_bound (instruction d)).
    rewrite next_line_succeeds by (done || lia). cbn [write_string].
    pose proof (IH init (next_pc d) (out +:+ line_of d) (count + 1)
      (bytes + Z.of_nat (String.length (line_of d))) ds' Hrest) as Hr.
    unfold InstructionDecoder.with_pc in Hr. rewrite Hr by lia. simpl text_of.
    rewrite append_assoc. do 3 f_equal. f_equal; lia.
Qed.

(** *** The text determines the code *)

Lemma line_nonempty d r : Instruction.valid (instruction d) → line_of d +:+ r ≠ "".
Proof.
  intros Hv. destruct (valid_effect _ Hv) as [e He]. rewrite (line_of_effect d e He).
  unfold show_line. rewrite !append_assoc. simpl. discriminate.
Qed.
End render.

Lemma text_inj bc bc' p ds : ∀ p' ds',
  byte_list bc → byte_list bc' → decodes_to bc p ds → decodes_to bc' p' ds' →
  text_of ds = text_of ds' → map instruction ds = map instruction ds'.
Proof.
  intros p' ds' Hbc Hbc' Hds. revert p' ds'.
  induction Hds as [|p d ds Hlt Hd Hds IH]; intros p' ds' Hds' E;
    destruct Hds' as [|p' d' ds' Hlt' Hd' Hds'].
  - done.
  - destruct (decode_instruction_sound _ _ _ Hbc' Hd') as (_ & Hv & _). simpl in E. symmetry in E.
    by apply line_nonempty in E.
  - destruct (decode_instruction_sound _ _ _ Hbc Hd) as (_ & Hv & _). simpl in E.
    by apply line_nonempty in E.
  - destruct (decode_instruction_sound _ _ _ Hbc Hd) as (Hp & Hv & Hn & H0 & _ & Hu & _).
    destruct (decode_instruction_sound _ _ _ Hbc' Hd') as (Hp' & Hv' & Hn' & H0' & _ & Hu' & _).
    pose proof (encoded_size_bound (instruction d)). pose proof (encoded_size_bound (instruction d')).
    simpl in E. apply line_field in E as (_ & Hi & E); [|done|done|unfold_ints; lia..].
    simpl. rewrite Hi. f_equal. by eapply IH.
Qed.

Lemma decodes_to_bytes bc ds :
  byte_list bc → decodes_to bc 0 ds → concat (map instruction_wire (map instruction ds)) = bc.
Proof.
  intros Hbc Hds. rewrite map_map. erewrite <- (segment_all bc).
  rewrite <- (Z.sub_0_r (len bc)) at 1. by apply StreamFacts.decodes_to_wire.
Qed.
End RenderFacts.

(** ** Properties *)

(** Rendering into a string is exact: it always returns, having appended
    whole lines of consecutive instructions from the start of the code and
    nothing else; it succeeds exactly on a non-empty code that decodes to its
    end within both limits, with the counts of what it wrote. *)
Theorem disassembly_exact (limits : DisassemblyLimits) (bc : list Z) (out : text)
    (Hlimits : is_u64 (max_output_bytes limits)) (Hbc : byte_list bc) (Hlen : len bc ≤ u32_max) :
  ∃ r ds, render_disassembly write_string limits (InstructionDecoder.new bc) out
          = Some (r, out +:+ RenderFacts.text_of ds) ∧ RenderFacts.decodes_from bc 0 ds ∧
    (∀ s, r = Ok s → decodes_to bc 0 ds ∧ ds ≠ [] ∧ len ds ≤ max_rendered_instructions limits ∧
       RenderFacts.bytes_of ds ≤ max_output_bytes limits ∧
       s = mkSummary (len ds) (RenderFacts.bytes_of ds)) ∧
    (∀ ds', decodes_to bc 0 ds' → ds' ≠ [] → len ds' ≤ max_rendered_instructions limits →
       RenderFacts.bytes_of ds' ≤ max_output_bytes limits →
       r = Ok (mkSummary (len ds') (RenderFacts.bytes_of ds'))).
Proof.
  pose proof (len_nonneg bc) as H0. unfold render_disassembly.
  destruct (RenderFacts.render_loop_writes limits bc Hbc Hlen (S (length bc)) 0 0 out 0 0)
    as (r & ds & Hr & Hfrom & Hok); [lia|unfold len; lia|done|unfold_ints; lia|].
  exists r, ds. split_and!; [exact Hr|done| |].
  - intros s Hs. destruct (Hok s Hs) as (Hds & Hne & Hmax & Hb & ->).
    assert (ds ≠ []) as Hnil by (by intros ->). split_and!; [done|done| |lia|f_equal; lia].
    destruct Hmax as [?|?]; [done|lia].
  - intros ds' Hds' Hne Hmax Hb.
    assert (len ds' ≠ 0) by (destruct ds'; [done|rewrite CodecFacts.len_cons;
      pose proof (len_nonneg ds'); lia]).
    pose proof (RenderFacts.render_loop_succeeds limits Hlimits bc Hbc Hlen (S (length bc)) 0 0 out 0 0
      ds' Hds') as Hr'.
    rewrite Hr in Hr'. specialize (Hr' ltac:(lia) ltac:(unfold len; lia) ltac:(lia) ltac:(lia)
      ltac:(lia) ltac:(lia) ltac:(lia)). injection Hr' as -> _. done.
Qed.

Definition demo_code : list Z := [180; 234; 254; 41].

Lemma demo_code_bytes : byte_list demo_code.
Proof. unfold byte_list, is_u8, demo_code. repeat apply Forall_cons_2; (lia || apply Forall_nil_2). Qed.

Lemma disassembly_exact_witness :
  ∃ r ds, render_disassembly write_string (mkDisassemblyLimits 3 400)
            (InstructionDecoder.new demo_code) "" = Some (r, "" +:+ RenderFacts.text_of ds) ∧
          RenderFacts.decodes_from demo_code 0 ds.
Proof.
  destruct (disassembly_exact (mkDisassemblyLimits 3 400) demo_code "") as (r & ds & Hr & Hd & _).
  - unfold is_u64. simpl. lia.
  - exact demo_code_bytes.
  - vm_compute. discriminate.
  - exists r, ds. split; [exact Hr|exact Hd].
Defined.

(** The text determines the code: two codes that render successfully to
    the same text are the same bytes.  Mnemonics are distinct, fields end
    where their characters do, and every number of a line can be read back. *)
Theorem disassembly_injective (limits limits' : DisassemblyLimits) (bc bc' : list Z)
    (s s' : DisassemblySummary) (t : text)
    (Hlimits : is_u64 (max_output_bytes limits)) (Hlimits' : is_u64 (max_output_bytes limits'))
    (Hbc : byte_list bc) (Hbc' : byte_list bc') (Hlen : len bc ≤ u32_max) (Hlen' : len bc' ≤ u32_max)
    (Hr : render_disassembly write_string limits (InstructionDecoder.new bc) "" = Some (Ok s, t))
    (Hr' : render_disassembly write_string limits' (InstructionDecoder.new bc') "" = Some (Ok s', t)) :
  bc = bc'.
Proof.
  pose proof (len_nonneg bc). pose proof (len_nonneg bc').
  unfold render_disassembly in Hr, Hr'.
  destruct (RenderFacts.render_loop_writes limits bc Hbc Hlen (S (length bc)) 0 0 "" 0 0)
    as (r & ds & E & _ & Hok); [lia|unfold len; lia|done|unfold_ints; lia|].
  destruct (RenderFacts.render_loop_writes limits' bc' Hbc' Hlen' (S (length bc')) 0 0 "" 0 0)
    as (r' & ds' & E' & _ & Hok'); [lia|unfold len; lia|done|unfold_ints; lia|].
  cbn in Hr, Hr', E, E'. rewrite Hr in E. rewrite Hr' in E'. injection E as <- Et. injection E' as <- Et'.
  destruct (Hok s eq_refl) as (Hds & _), (Hok' s' eq_refl) as (Hds' & _).
  rewrite <- (RenderFacts.decodes_to_bytes bc ds Hbc Hds),
    <- (RenderFacts.decodes_to_bytes bc' ds' Hbc' Hds').
  do 2 f_equal. eapply RenderFacts.text_inj; [exact Hbc|exact Hbc'|exact Hds|exact Hds'|].
  unfold String.append in Et, Et'. congruence.
Qed.

(** What the demonstration code renders to. *)
Definition demo_text : text :=
  "pc=0x00000000 opcode=push_0 operands=none_int stack={pops=0,pushes=1}" +:+ newline
  +:+ "pc=0x00000001 opcode=if_true8 operands=label8(displacement=-2) stack={pops=1,pushes=0}"
  +:+ newline
  +:+ "pc=0x00000003 opcode=return_undef operands=none stack={pops=0,pushes=0}" +:+ newline.

Lemma disassembly_injective_witness : demo_code = [180; 234; 254; 41].
Proof.
  apply (disassembly_injective (mkDisassemblyLimits 3 400) (mkDisassemblyLimits 10 1000)
    demo_code [180; 234; 254; 41] (mkSummary 3 229) (mkSummary 3 229) demo_text).
  - unfold is_u64. simpl. lia.
  - unfold is_u64. simpl. lia.
  - exact demo_code_bytes.
  - exact demo_code_bytes.
  - vm_compute. discriminate.
  - vm_compute. discriminate.
  - vm_compute. reflexivity.
  - vm_compute. reflexivity.
Defined.
