(* ===== verification/RuntimePrelude.v ===== *)
(** * Shared ground of the runtime components

    The runtime crate writes [v[i]], [expect] and [unreachable!] where the
    verifier would return an error: a computation has a third way to end
    besides a value and an error.  This file holds the outcomes with that
    ending, UTF-16 surrogates and UTF-8 code points, which strings and the URI
    functions share, and list facts of both. *)

From S2P Require Import Prelude.

(** ** Outcomes *)

(** How a computation fails: with an error of the source's type, by panicking
    ([v[i]] out of range, [expect] on [None], [unreachable!], unsigned
    underflow), or by running out of the model's fuel. *)
Inductive fault (E : Type) : Type :=
| Fail (e : E)
| Panic
| OutOfFuel.
Arguments Fail {E} e.
Arguments Panic {E}.
Arguments OutOfFuel {E}.

Notation outcome E := (result (fault E)).

(** A call whose callee cannot panic. *)
Definition lift {E A} (m : result E A) : outcome E A := map_err Fail m.

(** [o.expect(..)] and [v[i]] *)
Definition expect {E A} (o : option A) : outcome E A := ok_or o Panic.

Lemma lift_Ok {E A} (m : result E A) a : lift m = Ok a ↔ m = Ok a.
Proof. apply map_err_Ok. Qed.

Lemma expect_Ok {E A} (o : option A) a : expect (E := E) o = Ok a ↔ o = Some a.
Proof. apply ok_or_Ok. Qed.

(** ** Handlers

    A handler runs on a state whose changes survive an error. *)

Definition stateful (S E A : Type) : Type := S → S * result E A.

#[export] Instance stateful_ret S E : MRet (stateful S E) := λ A a s, (s, Ok a).
#[export] Instance stateful_bind S E : MBind (stateful S E) := λ A B f m s,
  match m s with
  | (s', Ok a) => f a s'
  | (s', Err e) => (s', Err e)
  end.

Definition throw {S E A} (e : E) : stateful S E A := λ s, (s, Err e).
Definition or_throw {S E A} (o : option A) (e : E) : stateful S E A :=
  match o with Some a => mret a | None => throw e end.
(** A computation that does not touch the state. *)
Definition embed {S E A} (m : result E A) : stateful S E A := λ s, (s, m).

(** One step of a handler applied to a state. *)
Ltac step_handler := unfold mbind at 1, stateful_bind at 1; cbv beta iota zeta.

(** What a run from a state establishes: one condition for the value and the
    final state, one for the error and the state it leaves. *)
Definition wp {S E A} (m : stateful S E A) (Q : A → S → Prop) (F : E → S → Prop) (s : S) : Prop :=
  match m s with
  | (s', Ok a) => Q a s'
  | (s', Err e) => F e s'
  end.

Section wp.
Context {S E : Type}.
Implicit Types (F G : E → S → Prop) (s : S).

Lemma wp_bind {A B} (m : stateful S E A) (f : A → stateful S E B) Q F s :
  wp m (λ a s', wp (f a) Q F s') F s → wp (m ≫= f) Q F s.
Proof. unfold wp, mbind, stateful_bind. destruct (m s) as [s' [a|e]]; auto. Qed.

Lemma wp_ret {A} (a : A) Q F s : Q a s → wp (mret a) Q F s.
Proof. done. Qed.

Lemma wp_mono {A} (m : stateful S E A) (Q R : A → S → Prop) F G s :
  wp m Q F s → (∀ a s', Q a s' → R a s') → (∀ e s', F e s' → G e s') → wp m R G s.
Proof. unfold wp. destruct (m s) as [s' [a|e]]; auto. Qed.

Lemma wp_embed {A} (m : result E A) Q F s :
  match m with Ok a => Q a s | Err e => F e s end → wp (embed m) Q F s.
Proof. unfold wp, embed. by destruct m. Qed.
End wp.

(** The host refuses some request for memory. *)
Definition refuses `{Allocator} : Prop :=
  ∃ site length additional, try_reserve site length additional = false.

(** The characters of an ASCII literal. *)
Fixpoint ascii_chars (message : string) : list Z :=
  match message with
  | EmptyString => []
  | String c message => Z.of_N (Ascii.N_of_ascii c) :: ascii_chars message
  end.

(** Linear arithmetic with quotients and remainders by constants. *)
Ltac divmod_lia :=
  repeat match goal with |- context [2 ^ ?n] => let v := eval vm_compute in (2 ^ n) in change (2 ^ n) with v end;
  Z.to_euclidean_division_equations; lia.

(** ** UTF-16 *)

Definition is_high_surrogate (unit : Z) : bool := (0xd800 <=? unit) && (unit <=? 0xdbff).
Definition is_low_surrogate (unit : Z) : bool := (0xdc00 <=? unit) && (unit <=? 0xdfff).

(** [0x1_0000 + ((u32::from(unit) - 0xd800) << 10) + (u32::from(low) - 0xdc00)] *)
Definition combine_surrogates (unit low : Z) : Z :=
  0x10000 + Z.shiftl (unit - 0xd800) 10 + (low - 0xdc00).

Definition unit_list (l : list Z) : Prop := Forall is_u16 l.

(** A Unicode scalar value, Rust's [char]. *)
Definition is_scalar (c : Z) : Prop := 0 ≤ c ≤ 0xd7ff ∨ 0xe000 ≤ c ≤ 0x10ffff.
#[export] Instance is_scalar_dec c : Decision (is_scalar c).
Proof. unfold is_scalar. apply _. Defined.

(** [char::encode_utf16] *)
Definition encode_utf16_char (c : Z) : list Z :=
  if c <=? 0xffff then [c]
  else let s := c - 0x10000 in [0xd800 + Z.shiftr s 10; 0xdc00 + Z.land s 0x3ff].

Ltac unfold_surrogates :=
  unfold is_high_surrogate, is_low_surrogate, is_scalar, combine_surrogates, encode_utf16_char in *.

Lemma is_high_surrogate_spec u : is_high_surrogate u = true ↔ 0xd800 ≤ u ≤ 0xdbff.
Proof. unfold is_high_surrogate. rewrite andb_true_iff, !Z.leb_le. done. Qed.
Lemma is_low_surrogate_spec u : is_low_surrogate u = true ↔ 0xdc00 ≤ u ≤ 0xdfff.
Proof. unfold is_low_surrogate. rewrite andb_true_iff, !Z.leb_le. done. Qed.

Lemma combine_surrogates_eq h l :
  combine_surrogates h l = 0x10000 + (h - 0xd800) * 1024 + (l - 0xdc00).
Proof. unfold combine_surrogates. rewrite Z.shiftl_mul_pow2 by lia. change (2 ^ 10) with 1024. lia. Qed.

Lemma land_ones_mod a n : 0 ≤ n → Z.land a (Z.ones n) = a mod 2 ^ n.
Proof. intros. by rewrite Z.land_ones. Qed.

(** A pair of surrogates spells one supplementary character, and back. *)
Lemma encode_combined h l :
  is_high_surrogate h = true → is_low_surrogate l = true →
  encode_utf16_char (combine_surrogates h l) = [h; l].
Proof.
  rewrite is_high_surrogate_spec, is_low_surrogate_spec, combine_surrogates_eq. intros Hh Hl.
  unfold encode_utf16_char. destruct (Z.leb_spec (0x10000 + (h - 0xd800) * 1024 + (l - 0xdc00)) 0xffff); [lia|].
  change 0x3ff with (Z.ones 10). rewrite land_ones_mod, Z.shiftr_div_pow2 by lia.
  change (2 ^ 10) with 1024.
  replace (0x10000 + (h - 0xd800) * 1024 + (l - 0xdc00) - 0x10000)
    with ((l - 0xdc00) + (h - 0xd800) * 1024) by lia.
  rewrite Z.div_add, Z.mod_add by lia. rewrite Z.div_small, Z.mod_small by lia.
  f_equal; [lia|]. f_equal. lia.
Qed.

Lemma encode_utf16_supplementary c : 0x10000 ≤ c ≤ 0x10ffff → ∃ h l,
  encode_utf16_char c = [h; l] ∧ is_high_surrogate h = true ∧ is_low_surrogate l = true
  ∧ combine_surrogates h l = c.
Proof.
  intros Hc. unfold encode_utf16_char. destruct (Z.leb_spec c 0xffff); [lia|].
  change 0x3ff with (Z.ones 10). rewrite land_ones_mod, Z.shiftr_div_pow2 by lia.
  change (2 ^ 10) with 1024.
  eexists _, _. split; [reflexivity|].
  rewrite is_high_surrogate_spec, is_low_surrogate_spec, combine_surrogates_eq.
  pose proof (Z.div_mod (c - 0x10000) 1024 ltac:(lia)).
  pose proof (Z.mod_pos_bound (c - 0x10000) 1024 ltac:(lia)).
  assert (0 ≤ (c - 0x10000) / 1024 < 1024) by lia. lia.
Qed.

Lemma encode_utf16_bmp c : 0 ≤ c ≤ 0xffff → encode_utf16_char c = [c].
Proof. intros. unfold encode_utf16_char. destruct (Z.leb_spec c 0xffff); [done|lia]. Qed.

(** ** UTF-8

    The bytes of a code point, as [char::encode_utf8], [encode_utf8_code_point]
    of the string type and [utf8_octets] of the URI functions write them, the
    surrogates included. *)

Definition utf8_bytes (c : Z) : list Z :=
  if c <? 0x80 then [c]
  else if c <? 0x800 then [Z.lor 0xc0 (Z.shiftr c 6); Z.lor 0x80 (Z.land c 0x3f)]
  else if c <? 0x10000 then
    [Z.lor 0xe0 (Z.shiftr c 12); Z.lor 0x80 (Z.land (Z.shiftr c 6) 0x3f);
     Z.lor 0x80 (Z.land c 0x3f)]
  else
    [Z.lor 0xf0 (Z.shiftr c 18); Z.lor 0x80 (Z.land (Z.shiftr c 12) 0x3f);
     Z.lor 0x80 (Z.land (Z.shiftr c 6) 0x3f); Z.lor 0x80 (Z.land c 0x3f)].

(** A tag in the high bits and a field in the low ones do not overlap. *)
Lemma land_tag k n f : 0 ≤ n → 0 ≤ f < 2 ^ n → Z.land (Z.shiftl k n) f = 0.
Proof.
  intros Hn Hf. apply Z.bits_inj'. intros i Hi.
  rewrite Z.land_spec, Z.shiftl_spec, Z.testbit_0_l by done.
  destruct (decide (i < n)); [by rewrite Z.testbit_neg_r by lia|].
  rewrite <- (Z.mod_small f (2 ^ n)) by done.
  rewrite Z.mod_pow2_bits_high by lia. apply andb_false_r.
Qed.

Lemma lor_tag k n f : 0 ≤ n → 0 ≤ f < 2 ^ n → Z.lor (k * 2 ^ n) f = k * 2 ^ n + f.
Proof.
  intros Hn Hf. rewrite <- Z.shiftl_mul_pow2 by done.
  pose proof (land_tag k n f Hn Hf) as H0.
  rewrite <- Z.lxor_lor by done. symmetry. by apply Z.add_nocarry_lxor.
Qed.

(** The continuation byte of a six-bit field. *)
Lemma continuation_byte c : Z.lor 0x80 (Z.land c 0x3f) = 0x80 + c mod 64.
Proof.
  change 0x3f with (Z.ones 6). rewrite land_ones_mod by lia.
  change 0x80 with (2 * 2 ^ 6). change (2 ^ 6) with 64. apply (lor_tag 2 6); [lia|].
  apply Z.mod_pos_bound. lia.
Qed.

(** The bytes in arithmetic form. *)
Lemma utf8_bytes_arith c : 0 ≤ c ≤ 0x10ffff → utf8_bytes c =
  if c <? 0x80 then [c]
  else if c <? 0x800 then [0xc0 + c / 64; 0x80 + c mod 64]
  else if c <? 0x10000 then [0xe0 + c / 4096; 0x80 + (c / 64) mod 64; 0x80 + c mod 64]
  else [0xf0 + c / 262144; 0x80 + (c / 4096) mod 64; 0x80 + (c / 64) mod 64; 0x80 + c mod 64].
Proof.
  intros Hc. unfold utf8_bytes. rewrite !continuation_byte, !Z.shiftr_div_pow2 by lia.
  change (2 ^ 6) with 64. change (2 ^ 12) with 4096. change (2 ^ 18) with 262144.
  destruct (Z.ltb_spec c 0x80); [done|].
  destruct (Z.ltb_spec c 0x800).
  { f_equal. change 0xc0 with (6 * 2 ^ 5). apply (lor_tag 6 5); divmod_lia. }
  destruct (Z.ltb_spec c 0x10000).
  { f_equal. change 0xe0 with (14 * 2 ^ 4). apply (lor_tag 14 4); divmod_lia. }
  f_equal. change 0xf0 with (30 * 2 ^ 3). apply (lor_tag 30 3); divmod_lia.
Qed.

(** UTF-8 is a prefix code. *)
Lemma utf8_bytes_prefix c d r r' : 0 ≤ c ≤ 0x10ffff → 0 ≤ d ≤ 0x10ffff →
  utf8_bytes c ++ r = utf8_bytes d ++ r' → c = d ∧ r = r'.
Proof.
  intros Hc Hd. rewrite !utf8_bytes_arith by done.
  repeat case_match; bool_to_prop; simpl app; intros Heq;
    repeat match goal with H : _ :: _ = _ :: _ |- _ => apply (inj2 cons) in H as [? H] end.
  all: first [split; [divmod_lia|done] | exfalso; divmod_lia].
Qed.

(** A check of all octets decides a property of octets. *)
Lemma octets_check (P : Z → bool) : forallb P (seqZ 0 256) = true → ∀ o, 0 ≤ o < 256 → P o = true.
Proof. intros Hall o Ho. rewrite forallb_forall in Hall. apply Hall, list_elem_of_In, elem_of_seqZ. lia. Qed.
