(* ===== verification/JsStrings.v ===== *)
(** * Runtime strings

    Models [crates/fusor-runtime/src/string.rs]: immutable ECMAScript strings,
    which are Latin-1 or UTF-16 leaves and depth-bounded ropes over them, with
    concatenation and its Fibonacci-bucket rebalancing, the non-recursive
    iterator with its fixed stack, slicing, comparison and the UTF-8, WTF-8 and
    CESU-8 conversions.

    The shared pointer [JsString(Arc<Repr>)] is its [Repr].  Unsigned arithmetic
    is checked: an underflow is a [Panic], as in a debug build. *)

From S2P Require Import Prelude RuntimePrelude.

Definition MAX_STRING_CODE_UNITS : Z := Z.shiftl 1 30 - 1.
Definition ROPE_SHORT_LEN : Z := 512.
Definition ROPE_SHORT_LEFT_LEN : Z := 8192.
Definition ROPE_MAX_DEPTH : Z := 60.
Definition ROPE_ITER_STACK_CAPACITY : nat := 61.
Definition MAX_INITIAL_RESERVE : Z := 4096.

Definition ROPE_BUCKET_LENGTHS : list Z :=
  [1; 2; 3; 5; 8; 13; 21; 34; 55; 89; 144; 233; 377; 610; 987; 1597; 2584; 4181; 6765; 10946;
   17711; 28657; 46368; 75025; 121393; 196418; 317811; 514229; 832040; 1346269; 2178309; 3524578;
   5702887; 9227465; 14930352; 24157817; 39088169; 63245986; 102334155; 165580141; 267914296;
   433494437; 701408733; 1134903170].

Inductive JsStringError : Set :=
| TooLong (requested maximum : Z)
| AllocationFailed (additional : Z)
| InvalidRange (start end_ length : Z).

(** ** Representation *)

Inductive Repr : Set :=
| Latin1 (units : list Z)
| Utf16 (units : list Z)
| Rope (left_ right_ : Repr) (length depth : Z) (wide : bool).

Module Repr.
(** The [expect] on the length of a leaf never fails: every constructor bounds
    the length by [MAX_STRING_CODE_UNITS]. *)
Definition len (self : Repr) : Z :=
  match self with
  | Latin1 units | Utf16 units => Prelude.len units
  | Rope _ _ length _ _ => length
  end.

Definition depth (self : Repr) : Z :=
  match self with
  | Latin1 _ | Utf16 _ => 0
  | Rope _ _ _ depth _ => depth
  end.

Definition is_wide (self : Repr) : bool :=
  match self with
  | Latin1 _ => false
  | Utf16 _ => true
  | Rope _ _ _ _ wide => wide
  end.

Definition is_leaf (self : Repr) : bool :=
  match self with
  | Latin1 _ | Utf16 _ => true
  | Rope _ _ _ _ _ => false
  end.
End Repr.

(** ** The iterator *)

Inductive LeafCursor : Set :=
| CursorLatin1 (units : list Z) (index : nat)
| CursorUtf16 (units : list Z) (index : nat).

Record CodeUnits : Set := mkCodeUnits {
  stack : list (option Repr);
  stack_len : nat;
  leaf : option LeafCursor;
  remaining : Z
}.

Module CodeUnits.
Definition new (string : Repr) : CodeUnits :=
  mkCodeUnits (<[0%nat := Some string]> (replicate ROPE_ITER_STACK_CAPACITY None))
    1 None (Repr.len string).

(** One step of the leaf cursor. *)
Definition cursor_next (cursor : LeafCursor) : option (Z * LeafCursor) :=
  match cursor with
  | CursorLatin1 units index => unit ← units !! index; Some (unit, CursorLatin1 units (S index))
  | CursorUtf16 units index => unit ← units !! index; Some (unit, CursorUtf16 units (S index))
  end.

(** The inner loop: walk to the leftmost leaf, stacking the right children. *)
Fixpoint descend {E} (node : Repr) (stack : list (option Repr)) (stack_len : nat) :
    outcome E (list (option Repr) * nat * LeafCursor) :=
  match node with
  | Latin1 units => Ok (stack, stack_len, CursorLatin1 units 0)
  | Utf16 units => Ok (stack, stack_len, CursorUtf16 units 0)
  | Rope left_ right_ _ _ _ =>
      if decide (stack_len < length stack)%nat
      then descend left_ (<[stack_len := Some right_]> stack) (S stack_len)
      else Err Panic
  end.

(** The outer loop of [next]. *)
Fixpoint next_loop {E} (fuel : nat) (self : CodeUnits) : outcome E (option Z * CodeUnits) :=
  match fuel with
  | O => Err OutOfFuel
  | S fuel =>
      match leaf self ≫= cursor_next with
      | Some (unit, cursor) =>
          if remaining self <=? 0 then Err Panic else
          Ok (Some unit,
              mkCodeUnits (stack self) (stack_len self) (Some cursor) (remaining self - 1))
      | None =>
          match stack_len self with
          | O => Ok (None, mkCodeUnits (stack self) 0 None (remaining self))
          | S top =>
              node ← expect (mjoin (stack self !! top));
              '(stack, stack_len, cursor) ← descend node (<[top := None]> (stack self)) top;
              next_loop fuel (mkCodeUnits stack stack_len (Some cursor) (remaining self))
          end
      end
  end.

Fixpoint nodes (r : Repr) : nat :=
  match r with
  | Latin1 _ | Utf16 _ => 1
  | Rope left_ right_ _ _ _ => S (nodes left_ + nodes right_)
  end.

(** Every turn of the loop takes a node off the stack for good, so the nodes
    below the stack bound its turns. *)
Definition pending_nodes (self : CodeUnits) : nat :=
  sum_list_with (from_option nodes 0%nat) (stack self).

Definition next {E} (self : CodeUnits) : outcome E (option Z * CodeUnits) :=
  next_loop (S (S (pending_nodes self))) self.
End CodeUnits.

(** What pulling an iterator to its end yields, whether it ends by panicking,
    and the lower bound of its [size_hint]. *)
Record Units : Set := mkUnits { yielded : list Z; panics : bool; lower_bound : Z }.

Module Units.
(** Pulls [next] until it returns [None] or panics. *)
Fixpoint pull (fuel : nat) (iterator : CodeUnits) : list Z * bool :=
  match fuel with
  | O => ([], true)
  | S fuel =>
      match CodeUnits.next (E := Empty_set) iterator with
      | Ok (Some unit, iterator) => let '(units, broken) := pull fuel iterator in (unit :: units, broken)
      | Ok (None, _) => ([], false)
      | Err _ => ([], true)
      end
  end.

(** [remaining] falls at every unit, so it bounds the pulls. *)
Definition of_iterator (iterator : CodeUnits) : Units :=
  let '(units, broken) := pull (S (Z.to_nat (remaining iterator))) iterator in
  mkUnits units broken (remaining iterator).

(** [Iterator::chain], [skip] and [take] *)
Definition chain (a b : Units) : Units :=
  mkUnits (yielded a ++ (if panics a then [] else yielded b)) (panics a || panics b)
    (saturating_add_u64 (lower_bound a) (lower_bound b)).
Definition skip (n : Z) (a : Units) : Units :=
  mkUnits (drop (Z.to_nat n) (yielded a)) (panics a) (saturating_sub (lower_bound a) n).
Definition take (n : Z) (a : Units) : Units :=
  mkUnits (firstn (Z.to_nat n) (yielded a))
    (panics a && (len (yielded a) <? n)) (Z.min (lower_bound a) n).

(** [Iterator::cmp]: pull both sides in step. *)
Fixpoint compare {E} (a b : list Z) (pa pb : bool) : outcome E comparison :=
  match a, b with
  | x :: a, y :: b => match x ?= y with Eq => compare a b pa pb | c => Ok c end
  | [], [] => if pa || pb then Err Panic else Ok Eq
  | [], _ :: _ => if pa then Err Panic else Ok Lt
  | _ :: _, [] => if pb then Err Panic else Ok Gt
  end.
Definition cmp {E} (a b : Units) : outcome E comparison :=
  compare (yielded a) (yielded b) (panics a) (panics b).
End Units.

(** ** Strings *)

Module JsString.
Section with_allocator.
Context `{Allocator}.

Definition check_length (length : Z) : result JsStringError Z :=
  if MAX_STRING_CODE_UNITS <? length then Err (TooLong length MAX_STRING_CODE_UNITS)
  else Ok length.

Definition checked_sum (left_ right_ : Z) : result JsStringError Z :=
  let requested := left_ + right_ in
  if MAX_STRING_CODE_UNITS <? requested then Err (TooLong requested MAX_STRING_CODE_UNITS)
  else Ok requested.

Definition reserve (site : string) (length additional : Z) : result JsStringError unit :=
  Prelude.reserve site length additional (AllocationFailed additional).

(** A push asks the host for room when the capacity is used up; the allocator
    answers for a push that fits too. *)
Definition try_push {A} (site : string) (values : list A) (value : A) :
    result JsStringError (list A) :=
  reserve site (len values) 1 ;; Ok (values ++ [value]).

Definition empty : Repr := Latin1 [].

Definition from_latin1 (units : list Z) : result JsStringError Repr :=
  check_length (len units) ;;
  if decide (units = []) then Ok empty else
  reserve "from_latin1" 0 (len units) ;;
  Ok (Latin1 units).

(** [u8::try_from(unit)] *)
Definition narrow (unit : Z) : option Z := if unit <=? 255 then Some unit else None.

(** One turn of the loop of [from_code_units] on the narrow and the wide
    buffer. *)
Definition push_unit (buffers : list Z * option (list Z)) (unit : Z) :
    result JsStringError (list Z * option (list Z)) :=
  let '(latin1, utf16) := buffers in
  let current_len := from_option len (len latin1) utf16 in
  reject_if (current_len =? MAX_STRING_CODE_UNITS)
    (TooLong (MAX_STRING_CODE_UNITS + 1) MAX_STRING_CODE_UNITS) ;;
  match utf16 with
  | Some wide => wide ← try_push "utf16" wide unit; Ok (latin1, Some wide)
  | None =>
      match narrow unit with
      | Some narrow => latin1 ← try_push "latin1" latin1 narrow; Ok (latin1, None)
      | None =>
          reserve "utf16" 0 (saturating_add_u64 (len latin1) 1) ;;
          Ok ([], Some (latin1 ++ [unit]))
      end
  end.

Definition from_code_units (units : Units) : outcome JsStringError Repr :=
  lift (reject_if (MAX_STRING_CODE_UNITS <? lower_bound units)
    (TooLong (lower_bound units) MAX_STRING_CODE_UNITS)) ;;
  lift (reserve "latin1" 0 (Z.min (lower_bound units) MAX_INITIAL_RESERVE)) ;;
  '(latin1, utf16) ← lift (try_fold push_unit ([], None) (yielded units));
  if panics units then Err Panic else
  match utf16 with
  | Some wide => Ok (Utf16 wide)
  | None => if decide (latin1 = []) then Ok empty else Ok (Latin1 latin1)
  end.

(** [text] is the sequence of characters of a Rust string; the size hint of its
    [encode_utf16] is an argument. *)
Definition from_utf8 (hint : Z) (text : list Z) : outcome JsStringError Repr :=
  from_code_units (mkUnits (text ≫= encode_utf16_char) false hint).

Definition is_empty (self : Repr) : bool := Repr.len self =? 0.
Definition is_latin1 (self : Repr) : bool := negb (Repr.is_wide self).

(** The loop of [code_unit_at]. *)
Fixpoint unit_at {E} (node : Repr) (index : Z) : outcome E Z :=
  match node with
  | Latin1 units | Utf16 units => expect (at_index units index)
  | Rope left_ right_ _ _ _ =>
      if index <? Repr.len left_ then unit_at left_ index
      else unit_at right_ (index - Repr.len left_)
  end.

Definition code_unit_at {E} (self : Repr) (index : Z) : outcome E (option Z) :=
  if Repr.len self <=? index then Ok None else Some <$> unit_at self index.

Definition code_units (self : Repr) : Units := Units.of_iterator (CodeUnits.new self).

Definition copy_concat (left_ right_ : Repr) : outcome JsStringError Repr :=
  from_code_units (Units.chain (code_units left_) (code_units right_)).

Definition saturating_add_u8 (a b : Z) : Z := Z.min (a + b) 255.

(** The node over two strings, without a bound on the depth. *)
Definition new_rope_node (left_ right_ : Repr) : result JsStringError Repr :=
  length ← checked_sum (Repr.len left_) (Repr.len right_);
  Ok (Rope left_ right_ length
        (saturating_add_u8 (Z.max (Repr.depth left_) (Repr.depth right_)) 1)
        (Repr.is_wide left_ || Repr.is_wide right_)).

(** The first loop of [rebalance_leaf]: gather the buckets below the length of
    the leaf.  [index + 1] past the table panics. *)
Fixpoint gather (fuel : nat) (length : Z) (index : nat) (aggregate : option Repr)
    (buckets : list (option Repr)) :
    outcome JsStringError (option Repr * nat * list (option Repr)) :=
  match fuel with
  | O => Err OutOfFuel
  | S fuel =>
      bound ← expect (ROPE_BUCKET_LENGTHS !! S index);
      if length <? bound then Ok (aggregate, index, buckets) else
      bucket ← expect (buckets !! index);
      match bucket with
      | Some bucket =>
          aggregate ← (match aggregate with
                       | None => Ok bucket
                       | Some right_ => lift (new_rope_node bucket right_)
                       end);
          gather fuel length (S index) (Some aggregate) (<[index := None]> buckets)
      | None => gather fuel length (S index) aggregate buckets
      end
  end.

(** The second loop: carry the aggregate up to the first free bucket. *)
Fixpoint place (fuel : nat) (index : nat) (aggregate : Repr) (buckets : list (option Repr)) :
    outcome JsStringError (list (option Repr)) :=
  match fuel with
  | O => Err OutOfFuel
  | S fuel =>
      match buckets !! index with
      | None => Err (Fail (TooLong (MAX_STRING_CODE_UNITS + 1) MAX_STRING_CODE_UNITS))
      | Some (Some left_) =>
          aggregate ← lift (new_rope_node left_ aggregate);
          place fuel (S index) aggregate (<[index := None]> buckets)
      | Some None => Ok (<[index := Some aggregate]> buckets)
      end
  end.

(** Both loops advance the index within the table, which bounds their turns. *)
Definition bucket_fuel : nat := S (length ROPE_BUCKET_LENGTHS).

Definition rebalance_leaf (leaf : Repr) (buckets : list (option Repr)) :
    outcome JsStringError (list (option Repr)) :=
  '(aggregate, index, buckets) ← gather bucket_fuel (Repr.len leaf) 0 None buckets;
  aggregate ← (match aggregate with
               | None => Ok leaf
               | Some left_ => lift (new_rope_node left_ leaf)
               end);
  place bucket_fuel index aggregate buckets.

(** The walk over the leaves with an explicit stack, the top of which is the
    head of the list. *)
Fixpoint rebalance_walk (fuel : nat) (stack : list Repr) (buckets : list (option Repr)) :
    outcome JsStringError (list (option Repr)) :=
  match fuel with
  | O => Err OutOfFuel
  | S fuel =>
      match stack with
      | [] => Ok buckets
      | Rope left_ right_ _ _ _ :: stack =>
          lift (reserve "stack" (len stack) 1) ;;
          lift (reserve "stack" (len stack + 1) 1) ;;
          rebalance_walk fuel (left_ :: right_ :: stack) buckets
      | node :: stack =>
          if is_empty node then rebalance_walk fuel stack buckets else
          buckets ← rebalance_leaf node buckets;
          rebalance_walk fuel stack buckets
      end
  end.

(** [for bucket in buckets.into_iter().flatten()] *)
Definition merge_bucket (result_ : option Repr) (bucket : option Repr) :
    outcome JsStringError (option Repr) :=
  match bucket, result_ with
  | None, _ => Ok result_
  | Some bucket, None => Ok (Some bucket)
  | Some bucket, Some right_ => Some <$> lift (new_rope_node bucket right_)
  end.

Definition rebalance (left_ right_ : Repr) : outcome JsStringError Repr :=
  lift (reserve "stack" 0 (ROPE_MAX_DEPTH + 2)) ;;
  buckets ← rebalance_walk (S (CodeUnits.nodes left_ + CodeUnits.nodes right_)) [left_; right_]
              (replicate (length ROPE_BUCKET_LENGTHS) None);
  result_ ← try_fold merge_bucket None buckets;
  Ok (default empty result_).

Definition new_rope (left_ right_ : Repr) : outcome JsStringError Repr :=
  length ← lift (checked_sum (Repr.len left_) (Repr.len right_));
  let depth := saturating_add_u8 (Z.max (Repr.depth left_) (Repr.depth right_)) 1 in
  if ROPE_MAX_DEPTH <? depth then rebalance left_ right_ else
  Ok (Rope left_ right_ length depth (Repr.is_wide left_ || Repr.is_wide right_)).

(** The children of a rope. *)
Definition children (self : Repr) : option (Repr * Repr) :=
  match self with
  | Rope left_ right_ _ _ _ => Some (left_, right_)
  | Latin1 _ | Utf16 _ => None
  end.

Definition is_short_leaf (self : Repr) : bool :=
  Repr.is_leaf self && (Repr.len self <=? ROPE_SHORT_LEN).

Definition concat (self other : Repr) : outcome JsStringError Repr :=
  lift (checked_sum (Repr.len self) (Repr.len other)) ;;
  if is_empty self then Ok other else
  if is_empty other then Ok self else
  if is_short_leaf other then
    if Repr.is_leaf self && (Repr.len self <=? ROPE_SHORT_LEFT_LEN) then copy_concat self other
    else match children self with
         | Some (left_, right_) =>
             if is_short_leaf right_ then
               merged_right ← copy_concat right_ other; new_rope left_ merged_right
             else new_rope self other
         | None => new_rope self other
         end
  else if Repr.is_leaf self then
    match children other with
    | Some (left_, right_) =>
        if is_short_leaf left_ then
          merged_left ← copy_concat self left_; new_rope merged_left right_
        else new_rope self other
    | None => new_rope self other
    end
  else new_rope self other.

Definition slice (self : Repr) (start end_ : Z) : outcome JsStringError Repr :=
  if (end_ <? start) || (Repr.len self <? end_)
  then Err (Fail (InvalidRange start end_ (Repr.len self))) else
  if (start =? 0) && (end_ =? Repr.len self) then Ok self else
  from_code_units (Units.take (end_ - start) (Units.skip start (code_units self))).

(** [Arc::ptr_eq] says whether the two handles are one allocation. *)
Definition eq {E} (ptr_eq : bool) (self other : Repr) : outcome E bool :=
  if ptr_eq then Ok true else
  if negb (Repr.len self =? Repr.len other) then Ok false else
  (λ c, match c with Eq => true | _ => false end) <$> Units.cmp (code_units self) (code_units other).

Definition cmp {E} (self other : Repr) : outcome E comparison :=
  Units.cmp (code_units self) (code_units other).

(** ** Conversions to bytes *)

(** [encode_utf8_code_point], which pushes onto the output. *)
Definition encode_utf8_code_point (output : list Z) (code_point : Z) : list Z :=
  output ++ utf8_bytes code_point.

(** The loop of [to_quickjs_utf8_bytes] over the peekable units. *)
Fixpoint wtf8_loop (cesu8 : bool) (units : list Z) (output : list Z) : list Z :=
  match units with
  | [] => output
  | unit :: units' =>
      if negb cesu8 && is_high_surrogate unit then
        match units' with
        | low :: units'' =>
            if is_low_surrogate low
            then wtf8_loop cesu8 units''
                   (encode_utf8_code_point output (combine_surrogates unit low))
            else wtf8_loop cesu8 units' (encode_utf8_code_point output unit)
        | [] => encode_utf8_code_point output unit
        end
      else wtf8_loop cesu8 units' (encode_utf8_code_point output unit)
  end.

Definition to_quickjs_utf8_bytes (self : Repr) (cesu8 : bool) : outcome JsStringError (list Z) :=
  let capacity := Repr.len self * 3 in
  lift (reject_if (u64_max <? capacity) (AllocationFailed u64_max)) ;;
  lift (reserve "output" 0 capacity) ;;
  if panics (code_units self) then Err Panic else
  Ok (wtf8_loop cesu8 (yielded (code_units self)) []).

Definition to_wtf8_bytes (self : Repr) := to_quickjs_utf8_bytes self false.
Definition to_cesu8_bytes (self : Repr) := to_quickjs_utf8_bytes self true.

(** [char::decode_utf16] with [unwrap_or(REPLACEMENT_CHARACTER)] *)
Fixpoint decode_utf16_lossy (units : list Z) : list Z :=
  match units with
  | [] => []
  | unit :: units' =>
      if is_high_surrogate unit then
        match units' with
        | low :: units'' =>
            if is_low_surrogate low then combine_surrogates unit low :: decode_utf16_lossy units''
            else 0xfffd :: decode_utf16_lossy units'
        | [] => [0xfffd]
        end
      else if is_low_surrogate unit then 0xfffd :: decode_utf16_lossy units'
      else unit :: decode_utf16_lossy units'
  end.

(** The UTF-8 bytes of the returned [String]. *)
Definition to_utf8_lossy (self : Repr) : outcome JsStringError (list Z) :=
  let capacity := Repr.len self * 3 in
  lift (reject_if (u64_max <? capacity) (AllocationFailed u64_max)) ;;
  lift (reserve "output" 0 capacity) ;;
  if panics (code_units self) then Err Panic else
  Ok (decode_utf16_lossy (yielded (code_units self)) ≫= utf8_bytes).
End with_allocator.
End JsString.
