(* ===== verification/JsStringFacts.v ===== *)
(** * Runtime strings are sequences of code units

    The abstract value of a string is the list of its code units ([units]).
    This file shows that the operations of [JsStrings] compute on that value
    whatever the representation: concatenation with its rebalancing, indexing,
    iteration, slicing, comparison and the byte conversions. *)

From S2P Require Import Prelude RuntimePrelude JsStrings.

(** ** The abstract value and well-formed representations *)

Fixpoint units (r : Repr) : list Z :=
  match r with
  | Latin1 us | Utf16 us => us
  | Rope left_ right_ _ _ _ => units left_ ++ units right_
  end.

Fixpoint wf (r : Repr) : Prop :=
  match r with
  | Latin1 us => byte_list us ∧ len us ≤ MAX_STRING_CODE_UNITS
  | Utf16 us => unit_list us ∧ Exists (λ u, 255 < u) us ∧ len us ≤ MAX_STRING_CODE_UNITS
  | Rope left_ right_ length depth wide =>
      wf left_ ∧ wf right_ ∧ length = Repr.len left_ + Repr.len right_
      ∧ length ≤ MAX_STRING_CODE_UNITS
      ∧ depth = JsString.saturating_add_u8 (Z.max (Repr.depth left_) (Repr.depth right_)) 1
      ∧ wide = (Repr.is_wide left_ || Repr.is_wide right_)
  end.

(** Strings shallow enough for the iterator's stack. *)
Definition shallow (r : Repr) : Prop := Repr.depth r ≤ 61.

Lemma len_nil_inv {A} (l : list A) : len l = 0 → l = [].
Proof. destruct l; [done|]. unfold len. simpl. lia. Qed.

Lemma wf_len r : wf r → Repr.len r = len (units r).
Proof.
  induction r as [| |l IHl r IHr n d w]; simpl; [done..|].
  intros (Hl & Hr & -> & _). rewrite len_app, IHl, IHr by done. done.
Qed.

Lemma wf_bound r : wf r → len (units r) ≤ MAX_STRING_CODE_UNITS.
Proof. intros H. rewrite <- wf_len by done. destruct r; simpl in *; naive_solver. Qed.

Lemma byte_list_units us : byte_list us → unit_list us.
Proof. apply Forall_impl. intros. solve_ints. Qed.

Lemma wf_units r : wf r → unit_list (units r).
Proof.
  induction r as [us|us|l IHl r IHr n d w]; simpl.
  - intros [? _]. by apply byte_list_units.
  - by intros (? & _).
  - intros (Hl & Hr & _). apply Forall_app. split; [by apply IHl|by apply IHr].
Qed.

Lemma depth_nonneg r : wf r → 0 ≤ Repr.depth r.
Proof.
  induction r as [us|us|l IHl r IHr n d w]; simpl; [lia..|].
  intros (Hl%IHl & Hr%IHr & _ & _ & -> & _). unfold JsString.saturating_add_u8. lia.
Qed.

(** The representation is canonical: the Latin-1 test is exact. *)
Lemma wf_wide r : wf r → Repr.is_wide r = true ↔ Exists (λ u, 255 < u) (units r).
Proof.
  induction r as [us|us|l IHl r IHr n d w]; simpl.
  - intros [Hb _]. split; [done|]. intros He. exfalso.
    apply Exists_exists in He as (u & Hu & Hgt).
    eapply Forall_forall in Hb; [|done]. solve_ints.
  - by intros (_ & ? & _).
  - intros (Hl & Hr & _ & _ & _ & ->). rewrite orb_true_iff, Exists_app, IHl, IHr by done. done.
Qed.

(** ** Runs

    [runs m P]: [m] returns a value with [P], or the host refused memory.  It
    neither panics, nor exhausts its fuel, nor returns any other error. *)

Section runs.
Context `{Allocator}.

Definition runs {A} (m : outcome JsStringError A) (P : A → Prop) : Prop :=
  match m with
  | Ok a => P a
  | Err (Fail (AllocationFailed _)) => refuses
  | Err _ => False
  end.

Lemma runs_bind {A B} (m : outcome JsStringError A) (f : A → outcome JsStringError B) P Q :
  runs m P → (∀ a, P a → runs (f a) Q) → runs (m ≫= f) Q.
Proof. destruct m as [a|[[]| |]]; simpl; naive_solver. Qed.

Lemma runs_mono {A} (m : outcome JsStringError A) (P Q : A → Prop) :
  runs m P → (∀ a, P a → Q a) → runs m Q.
Proof. destruct m as [a|[[]| |]]; simpl; naive_solver. Qed.

Lemma runs_reserve site n k : runs (lift (JsString.reserve site n k)) (λ _, True).
Proof.
  unfold JsString.reserve, Prelude.reserve, reject_if.
  destruct (try_reserve site n k) eqn:E; simpl; [done|]. by eexists _, _, _.
Qed.

Lemma runs_Ok {A} (m : outcome JsStringError A) P a : runs m P → m = Ok a → P a.
Proof. by intros Hr ->. Qed.

Lemma runs_generous {A} `{!GenerousAllocator} (m : outcome JsStringError A) P :
  runs m P → ∃ a, m = Ok a ∧ P a.
Proof.
  destruct m as [a|[[]| |]]; simpl; [eauto|done| |done..].
  intros (s & n & k & E). by rewrite generous in E.
Qed.
End runs.

Create HintDb strings.
#[export] Hint Resolve runs_reserve len_nonneg wf_units : strings.

(** Steps through a reservation. *)
Ltac step_reserve := eapply runs_bind; [by apply runs_reserve|]; intros [] _.

(** ** Building leaves *)

(** The canonical leaf of a list of units. *)
Definition leaf_of (us : list Z) : Repr :=
  if decide (Exists (λ u, 255 < u) us) then Utf16 us else Latin1 us.

Lemma units_leaf_of us : units (leaf_of us) = us.
Proof. unfold leaf_of. by case_decide. Qed.

Lemma depth_leaf_of us : Repr.depth (leaf_of us) = 0.
Proof. unfold leaf_of. by case_decide. Qed.

Lemma wf_leaf_of us : unit_list us → len us ≤ MAX_STRING_CODE_UNITS → wf (leaf_of us).
Proof.
  intros Hu Hl. unfold leaf_of. case_decide as Hd; simpl; [done|]. split; [|done].
  apply Forall_forall. intros u Hin. eapply Forall_forall in Hu; [|done].
  assert (¬ 255 < u) by (intros ?; apply Hd; apply Exists_exists; eauto). solve_ints.
Qed.

Section building.
Context `{Allocator}.

(** The buffers after [done_] units. *)
Definition buffers_of (done_ : list Z) : list Z * option (list Z) :=
  if decide (Exists (λ u, 255 < u) done_) then ([], Some done_) else (done_, None).

Lemma runs_push_unit done_ u : len done_ < MAX_STRING_CODE_UNITS →
  runs (lift (JsString.push_unit (buffers_of done_) u)) (λ b, b = buffers_of (done_ ++ [u])).
Proof.
  intros Hlt. unfold buffers_of. case_decide as Hd; cbn [JsString.push_unit from_option].
  - destruct (Z.eqb_spec (len done_) MAX_STRING_CODE_UNITS); [lia|]. simpl.
    unfold JsString.try_push. destruct (JsString.reserve _ _ _) as [[]|e] eqn:E; simpl.
    + rewrite decide_True; [done|]. apply Exists_app. by left.
    + pose proof (runs_reserve "utf16" (len done_) 1) as Hr. by rewrite E in Hr.
  - destruct (Z.eqb_spec (len done_) MAX_STRING_CODE_UNITS); [lia|]. simpl. unfold JsString.narrow.
    destruct (Z.leb_spec u 255).
    + unfold JsString.try_push. destruct (JsString.reserve _ _ _) as [[]|e] eqn:E; simpl.
      * rewrite decide_False; [done|]. rewrite Exists_app, Exists_cons, Exists_nil. naive_solver lia.
      * pose proof (runs_reserve "latin1" (len done_) 1) as Hr. by rewrite E in Hr.
    + destruct (JsString.reserve _ _ _) as [[]|e] eqn:E; simpl.
      * rewrite decide_True; [done|]. rewrite Exists_app, Exists_cons. auto.
      * pose proof (runs_reserve "utf16" 0 (saturating_add_u64 (len done_) 1)) as Hr.
        by rewrite E in Hr.
Qed.

Lemma lift_bind {E A B} (m : result E A) (f : A → result E B) :
  lift (m ≫= f) = (a ← lift m; lift (f a)).
Proof. by destruct m. Qed.

Lemma runs_push_units us : ∀ done_, len done_ + len us ≤ MAX_STRING_CODE_UNITS →
  runs (lift (try_fold JsString.push_unit (buffers_of done_) us))
    (λ b, b = buffers_of (done_ ++ us)).
Proof.
  induction us as [|u us IH]; intros done_ Hl; simpl; [by rewrite app_nil_r|].
  change (u :: us) with ([u] ++ us) in Hl. rewrite len_app in Hl. pose proof (len_nonneg us).
  change (len [u]) with 1 in Hl. rewrite lift_bind. eapply runs_bind.
  { apply runs_push_unit. lia. }
  intros b ->. rewrite (cons_middle u done_ us), app_assoc.
  apply IH. rewrite len_app. change (len [u]) with 1. lia.
Qed.

(** [from_code_units] copies what a well-behaved iterator yields. *)
Lemma runs_from_code_units us hint : len us ≤ MAX_STRING_CODE_UNITS → hint ≤ len us →
  runs (JsString.from_code_units (mkUnits us false hint)) (λ r, r = leaf_of us).
Proof.
  intros Hl Hh. unfold JsString.from_code_units. cbn [lower_bound yielded panics].
  destruct (Z.ltb_spec MAX_STRING_CODE_UNITS hint); [lia|]. simpl. step_reserve.
  eapply runs_bind; [apply (runs_push_units us [])|].
  { change (len (@nil Z)) with 0. lia. }
  simpl. intros b ->. unfold buffers_of, leaf_of. case_decide; [done|].
  by case_decide; simplify_eq.
Qed.
End building.

(** ** Iteration *)

(** The array of the iterator when the strings [rs], top first, are stacked. *)
Definition pad (rs : list Repr) : list (option Repr) :=
  (Some <$> reverse rs) ++ replicate (ROPE_ITER_STACK_CAPACITY - length rs) None.

(** A string at stack position [i] is at most [61 - i] deep. *)
Fixpoint stack_ok (rs : list Repr) : Prop :=
  match rs with
  | [] => True
  | r :: rs => wf r ∧ (Repr.depth r + len rs ≤ 61 ∧ len rs ≤ 60) ∧ stack_ok rs
  end.

Definition text (rs : list Repr) : list Z := rs ≫= units.
Definition total_nodes (rs : list Repr) : nat := sum_list_with CodeUnits.nodes rs.

Definition cursor_units (c : LeafCursor) : list Z :=
  match c with CursorLatin1 us i | CursorUtf16 us i => drop i us end.

Lemma pad_length rs : (length rs ≤ 61)%nat → length (pad rs) = 61%nat.
Proof.
  intros. unfold pad. rewrite length_app, length_fmap, length_reverse, length_replicate.
  unfold ROPE_ITER_STACK_CAPACITY. lia.
Qed.

Lemma pad_push r rs : (length rs < 61)%nat → <[length rs := Some r]> (pad rs) = pad (r :: rs).
Proof.
  intros Hl. unfold pad. rewrite reverse_cons, fmap_app. simpl length.
  replace (ROPE_ITER_STACK_CAPACITY - length rs)%nat
    with (S (ROPE_ITER_STACK_CAPACITY - S (length rs))) by (unfold ROPE_ITER_STACK_CAPACITY; lia).
  rewrite insert_app_r_alt by (rewrite length_fmap, length_reverse; done).
  rewrite length_fmap, length_reverse, Nat.sub_diag. simpl. by rewrite <- app_assoc.
Qed.

Lemma pad_pop r rs : (length rs < 61)%nat → <[length rs := None]> (pad (r :: rs)) = pad rs.
Proof.
  intros Hl. rewrite <- pad_push by done. rewrite list_insert_insert_eq. unfold pad.
  replace (ROPE_ITER_STACK_CAPACITY - length rs)%nat
    with (S (ROPE_ITER_STACK_CAPACITY - S (length rs))) by (unfold ROPE_ITER_STACK_CAPACITY; lia).
  rewrite insert_app_r_alt by (rewrite length_fmap, length_reverse; done).
  by rewrite length_fmap, length_reverse, Nat.sub_diag.
Qed.

Lemma pad_top r rs : pad (r :: rs) !! length rs = Some (Some r).
Proof.
  unfold pad. rewrite reverse_cons, fmap_app. simpl.
  rewrite lookup_app_l by (rewrite length_app, length_fmap, length_reverse; simpl; lia).
  rewrite lookup_app_r by (rewrite length_fmap, length_reverse; lia).
  by rewrite length_fmap, length_reverse, Nat.sub_diag.
Qed.

Lemma sum_list_with_replicate_zero {A} (f : A → nat) x n :
  f x = 0%nat → sum_list_with f (replicate n x) = 0%nat.
Proof. intros Hf. induction n as [|n IH]; simpl; [done|]. by rewrite Hf, IH. Qed.

Lemma pending_pad rs sl lf rem : CodeUnits.pending_nodes (mkCodeUnits (pad rs) sl lf rem) = total_nodes rs.
Proof.
  unfold CodeUnits.pending_nodes, pad, total_nodes. cbn [stack].
  rewrite sum_list_with_app, sum_list_with_replicate_zero by done. rewrite Nat.add_0_r.
  rewrite <- (sum_list_with_reverse _ rs). generalize (reverse rs) as k. intros k.
  induction k as [|r k IH]; [done|]. rewrite fmap_cons. simpl. by rewrite IH.
Qed.

(** Descending stacks the right children of the left spine. *)
Lemma descend_leaf {E} node rs c : stack_ok rs →
  CodeUnits.descend (E := E) node (pad rs) (length rs) = Ok (pad rs, length rs, c) →
  cursor_units c = units node → (0 < CodeUnits.nodes node)%nat → ∃ rs' c,
  CodeUnits.descend (E := E) node (pad rs) (length rs) = Ok (pad (rs' ++ rs), length (rs' ++ rs), c)
  ∧ cursor_units c ++ text rs' = units node ∧ stack_ok (rs' ++ rs)
  ∧ (total_nodes rs' < CodeUnits.nodes node)%nat.
Proof. intros ? ? ? ?. exists [], c. unfold text. simpl. by rewrite app_nil_r. Qed.

Lemma descend_spec {E} node : ∀ rs,
  wf node → Repr.depth node + len rs ≤ 61 → stack_ok rs → ∃ rs' c,
  CodeUnits.descend (E := E) node (pad rs) (length rs) = Ok (pad (rs' ++ rs), length (rs' ++ rs), c)
  ∧ cursor_units c ++ text rs' = units node ∧ stack_ok (rs' ++ rs)
  ∧ (total_nodes rs' < CodeUnits.nodes node)%nat.
Proof.
  induction node as [us|us|l IHl r _ n d w]; intros rs Hwf Hd Hrs.
  1,2: by eapply descend_leaf; [done|reflexivity|done|simpl; lia].
  destruct Hwf as (Hl & Hr & Hn & Hmax & -> & Hw).
  pose proof (depth_nonneg l Hl). pose proof (depth_nonneg r Hr).
  cbn [Repr.depth] in Hd. unfold JsString.saturating_add_u8 in Hd.
  pose proof (len_nonneg rs). assert (length rs < 61)%nat as Hlt by (unfold len in Hd; lia).
  assert (len rs ≤ 60) by (unfold len; lia).
  cbn [CodeUnits.descend]. rewrite decide_True by (rewrite pad_length by lia; done).
  rewrite pad_push by done. change (S (length rs)) with (length (r :: rs)).
  assert (len (r :: rs) = len rs + 1) as Hlen by (unfold len; simpl; lia).
  destruct (IHl (r :: rs)) as (rs' & c & Hdesc & Htext & Hok & Hnodes); [done|lia|simpl; split_and!; auto; lia|].
  exists (rs' ++ [r]), c. rewrite <- app_assoc. split; [done|].
  split; [|split; [done|]].
  - simpl. rewrite <- Htext. unfold text. rewrite bind_app, <- app_assoc. simpl. by rewrite app_nil_r.
  - unfold total_nodes in *. rewrite sum_list_with_app. simpl. lia.
Qed.

(** The cursor yields the units that are left in its leaf. *)
Lemma cursor_next_spec c :
  match cursor_units c with
  | [] => CodeUnits.cursor_next c = None
  | u :: us => ∃ c', CodeUnits.cursor_next c = Some (u, c') ∧ cursor_units c' = us
  end.
Proof.
  destruct c as [us i|us i]; simpl.
  all: destruct (us !! i) as [u|] eqn:Hi; simpl;
    [rewrite (drop_S _ _ _ Hi); eauto|by rewrite drop_ge by (by apply lookup_ge_None)].
Qed.

Definition iterator_text (lf : option LeafCursor) (rs : list Repr) : list Z :=
  from_option cursor_units [] lf ++ text rs.

(** One pull: the next unit of the text, or the end. *)
Lemma next_loop_spec {E} : ∀ fuel rs lf rem, stack_ok rs → (total_nodes rs + 1 < fuel)%nat →
  len (iterator_text lf rs) = rem →
  match iterator_text lf rs with
  | [] => ∃ it, CodeUnits.next_loop (E := E) fuel (mkCodeUnits (pad rs) (length rs) lf rem) = Ok (None, it)
  | u :: us => ∃ rs' lf',
      CodeUnits.next_loop (E := E) fuel (mkCodeUnits (pad rs) (length rs) lf rem)
      = Ok (Some u, mkCodeUnits (pad rs') (length rs') lf' (rem - 1))
      ∧ iterator_text lf' rs' = us ∧ stack_ok rs'
  end.
Proof.
  induction fuel as [|fuel IH]; intros rs lf rem Hok Hf Hrem; [lia|].
  cbn [CodeUnits.next_loop leaf stack_len stack remaining].
  assert (match from_option cursor_units [] lf with
          | [] => (lf ≫= CodeUnits.cursor_next) = None
          | u :: us => ∃ c', (lf ≫= CodeUnits.cursor_next) = Some (u, c') ∧ cursor_units c' = us
          end) as Hcur by (destruct lf as [c|]; [apply cursor_next_spec|done]).
  unfold iterator_text in *. destruct (from_option cursor_units [] lf) as [|u us].
  - rewrite Hcur. simpl app in *. destruct rs as [|r rs].
    { simpl. by eexists. }
    destruct Hok as (Hwf & [Hd Hl] & Hok). cbn [length].
    rewrite pad_top. cbn [mjoin option_join expect ok_or mbind result_bind].
    assert (length rs < 61)%nat by (unfold len in Hl; lia). rewrite pad_pop by done.
    destruct (descend_spec (E := E) r rs Hwf Hd Hok) as (rs' & c & -> & Ht & Hok' & Hn).
    cbn [mbind result_bind]. unfold total_nodes in Hf, Hn. simpl in Hf.
    specialize (IH (rs' ++ rs) (Some c) rem Hok').
    assert (from_option cursor_units [] (Some c) ++ text (rs' ++ rs) = text (r :: rs)) as E1.
    { simpl. unfold text in *. rewrite bind_app, app_assoc, Ht. done. }
    rewrite E1 in IH. apply IH; [|done]. unfold total_nodes. rewrite sum_list_with_app. lia.
  - destruct Hcur as (c' & -> & <-). simpl app in *.
    destruct (Z.leb_spec rem 0). { unfold len in Hrem. simpl in Hrem. lia. }
    exists rs, (Some c'). done.
Qed.

Lemma pull_spec us : ∀ fuel rs lf rem, stack_ok rs → iterator_text lf rs = us → rem = len us →
  (length us < fuel)%nat →
  Units.pull fuel (mkCodeUnits (pad rs) (length rs) lf rem) = (us, false).
Proof.
  induction us as [|u us IH]; intros [|fuel] rs lf rem Hok Ht -> Hf; simpl in Hf; try lia;
    cbn [Units.pull]; unfold CodeUnits.next; rewrite pending_pad;
    pose proof (next_loop_spec (E := Empty_set) (S (S (total_nodes rs))) rs lf _ Hok ltac:(lia) eq_refl)
      as Hn; rewrite Ht in Hn.
  - destruct Hn as [it ->]. done.
  - destruct Hn as (rs' & lf' & -> & Ht' & Hok').
    rewrite (IH fuel rs' lf') by (done || lia || (unfold len; simpl; lia)). done.
Qed.

(** A string that fits the iterator's stack yields its units and no panic. *)
Lemma code_units_spec s : wf s → shallow s →
  JsString.code_units s = mkUnits (units s) false (len (units s)).
Proof.
  intros Hwf Hsh. unfold JsString.code_units, Units.of_iterator, CodeUnits.new. rewrite wf_len by done.
  change (<[0%nat := Some s]> (replicate ROPE_ITER_STACK_CAPACITY None)) with (pad [s]).
  change 1%nat with (length [s]). cbn [remaining].
  rewrite (pull_spec (units s)); [done|..].
  - simpl. unfold shallow in Hsh. change (len (@nil Repr)) with 0. split_and!; auto; lia.
  - unfold iterator_text, text. simpl. by rewrite app_nil_r.
  - done.
  - unfold len. lia.
Qed.

(** ** Nodes and buckets *)

Lemma new_rope_node_spec l r : wf l → wf r →
  len (units l ++ units r) ≤ MAX_STRING_CODE_UNITS → ∃ s,
  JsString.new_rope_node l r = Ok s ∧ wf s ∧ units s = units l ++ units r.
Proof.
  intros Hl Hr Hm. rewrite len_app, <- !wf_len in Hm by done.
  unfold JsString.new_rope_node, JsString.checked_sum.
  destruct (Z.ltb_spec MAX_STRING_CODE_UNITS (Repr.len l + Repr.len r)); [lia|].
  cbn [mbind result_bind]. eexists. split; [reflexivity|]. done.
Qed.

(** The bucket lengths at least double in no step and outgrow every string. *)
Lemma bucket_step i a b : ROPE_BUCKET_LENGTHS !! i = Some a → ROPE_BUCKET_LENGTHS !! S i = Some b →
  0 < a < b ∧ b ≤ 2 * a.
Proof.
  intros Ha Hb.
  assert (Forall (λ p : Z * Z, 0 < p.1 < p.2 ∧ p.2 ≤ 2 * p.1)
            (zip ROPE_BUCKET_LENGTHS (tail ROPE_BUCKET_LENGTHS))) as Hall.
  { apply (bool_decide_unpack _). by vm_compute. }
  eapply Forall_lookup_1 in Hall; [|apply lookup_zip_with_Some; exists a, b; split_and!; [done..|]].
  - done.
  - by rewrite lookup_tail.
Qed.

Lemma bucket_last i a : ROPE_BUCKET_LENGTHS !! i = Some a → a ≤ MAX_STRING_CODE_UNITS → (i ≤ 42)%nat.
Proof.
  intros Hi Ha. apply dec_stable. intros Hgt.
  pose proof (lookup_lt_Some _ _ _ Hi) as Hlt. change (length ROPE_BUCKET_LENGTHS) with 44%nat in Hlt.
  assert (i = 43%nat) as -> by lia. injection Hi as <-. by vm_compute in Ha.
Qed.

(** Buckets hold strings in text order, the highest index first; the string at
    index [i] is at least as long as the table says. *)
Definition buckets_text (bs : list (option Repr)) : list Z :=
  reverse bs ≫= from_option units [].

Definition bucket_ok (i : nat) (b : option Repr) : Prop :=
  match b with
  | None => True
  | Some r => wf r ∧ ∃ a, ROPE_BUCKET_LENGTHS !! i = Some a ∧ a ≤ len (units r)
  end.

Record buckets_ok (bs : list (option Repr)) : Prop := {
  buckets_length : length bs = 44%nat;
  buckets_each : ∀ i b, bs !! i = Some b → bucket_ok i b
}.

Definition empty_below (n : nat) (bs : list (option Repr)) : Prop :=
  ∀ i, (i < n)%nat → bs !! i = Some None.

Lemma buckets_text_app bs cs : buckets_text (bs ++ cs) = buckets_text cs ++ buckets_text bs.
Proof. unfold buckets_text. by rewrite reverse_app, bind_app. Qed.

Lemma buckets_text_none bs : (∀ i b, bs !! i = Some b → b = None) → buckets_text bs = [].
Proof.
  induction bs as [|b bs IH]; intros Hn; [done|].
  change (b :: bs) with ([b] ++ bs). rewrite buckets_text_app.
  rewrite IH by (intros i c Hc; by apply (Hn (S i))). rewrite (Hn 0%nat b) by done. done.
Qed.

(** The text of a bucket with nothing below it comes last. *)
Lemma buckets_text_at n bs b : empty_below n bs → bs !! n = Some b →
  buckets_text bs = buckets_text (<[n := None]> bs) ++ from_option units [] b.
Proof.
  intros He Hn. pose proof (lookup_lt_Some _ _ _ Hn) as Hlt.
  assert (buckets_text (take n bs) = []) as Hlow.
  { apply buckets_text_none. intros i c Hc. apply lookup_take_Some in Hc as [Hc Hi].
    rewrite He in Hc by done. congruence. }
  rewrite insert_take_drop by done. rewrite <- (take_drop_middle bs n b) at 1 by done.
  rewrite !(cons_middle _ (take n bs)), !app_assoc, !buckets_text_app, Hlow, !app_nil_r.
  unfold buckets_text. simpl. rewrite !app_nil_r. done.
Qed.

Lemma empty_below_insert n bs : empty_below n bs → (n < length bs)%nat →
  empty_below (S n) (<[n := None]> bs).
Proof.
  intros He Hl i Hi. destruct (decide (i = n)) as [->|].
  - by apply list_lookup_insert_eq.
  - rewrite list_lookup_insert_ne by done. apply He. lia.
Qed.

Lemma empty_below_S n bs : empty_below n bs → bs !! n = Some None → empty_below (S n) bs.
Proof. intros He Hn i Hi. destruct (decide (i = n)) as [->|]; [done|]. apply He. lia. Qed.

Lemma buckets_ok_insert n b bs : buckets_ok bs → bucket_ok n b → buckets_ok (<[n := b]> bs).
Proof.
  intros [Hl He] Hb. split; [by rewrite length_insert|]. intros i c Hc.
  destruct (decide (i = n)) as [->|].
  - apply list_lookup_insert_Some in Hc as [(_ & -> & _)|[? ?]]; [done|done].
  - rewrite list_lookup_insert_ne in Hc by done. by apply He.
Qed.

Definition aggregate_ok (a : option Repr) : Prop := from_option wf True a.
Definition aggregate_text (a : option Repr) : list Z := from_option units [] a.

(** The first loop gathers everything below the bucket of the leaf. *)
Lemma gather_spec T length_ : 1 ≤ length_ ≤ MAX_STRING_CODE_UNITS →
  len T ≤ MAX_STRING_CODE_UNITS → ∀ fuel index agg bs,
  buckets_ok bs → empty_below index bs → aggregate_ok agg → buckets_text bs ++ aggregate_text agg = T →
  (∃ a, ROPE_BUCKET_LENGTHS !! index = Some a ∧ a ≤ length_) → (index ≤ 42)%nat →
  (43 - index < fuel)%nat → ∃ agg' index' bs',
  JsString.gather fuel length_ index agg bs = Ok (agg', index', bs')
  ∧ buckets_ok bs' ∧ empty_below index' bs' ∧ aggregate_ok agg'
  ∧ buckets_text bs' ++ aggregate_text agg' = T
  ∧ ∃ a, ROPE_BUCKET_LENGTHS !! index' = Some a ∧ a ≤ length_.
Proof.
  intros Hlen HT. induction fuel as [|fuel IH]; intros index agg bs Hb He Ha Ht Hi Hle Hf; [lia|].
  cbn [JsString.gather].
  destruct (lookup_lt_is_Some_2 ROPE_BUCKET_LENGTHS (S index)) as [bound Hbound]; [simpl; lia|].
  rewrite Hbound. cbn [expect ok_or mbind result_bind].
  destruct (Z.ltb_spec length_ bound) as [|Hge]; [by eexists _, _, _|].
  assert (S index ≤ 42)%nat as Hle' by (eapply bucket_last; [done|lia]).
  destruct (lookup_lt_is_Some_2 bs index) as [b Hbi]; [rewrite (buckets_length _ Hb); lia|].
  rewrite Hbi. cbn [expect ok_or mbind result_bind]. destruct b as [r|].
  - pose proof (buckets_text_at _ _ _ He Hbi) as Hat. simpl in Hat.
    destruct (buckets_each _ Hb _ _ Hbi) as [Hr _].
    assert (∃ agg', match agg with None => Ok r | Some right_ => lift (JsString.new_rope_node r right_) end
      = @Ok (fault JsStringError) _ agg' ∧ wf agg' ∧ units agg' = units r ++ aggregate_text agg)
      as (agg' & -> & Hwf' & Hu').
    { destruct agg as [right_|]; [|exists r; simpl; by rewrite app_nil_r].
      destruct (new_rope_node_spec r right_) as (s & -> & ? & ?); [done|done| |by exists s].
      rewrite <- Ht, Hat, <- app_assoc, len_app in HT.
      pose proof (len_nonneg (buckets_text (<[index:=None]> bs))). simpl in HT. lia. }
    cbn [mbind result_bind]. apply IH; try done; try lia.
    + by apply buckets_ok_insert.
    + apply empty_below_insert; [done|]. rewrite (buckets_length _ Hb). lia.
    + simpl. by rewrite Hu', app_assoc, <- Hat.
    + exists bound. split; [done|lia].
  - apply IH; try done; try lia; [by apply empty_below_S|]. exists bound. split; [done|lia].
Qed.

(** The second loop carries it to a free bucket. *)
Lemma place_spec T : len T ≤ MAX_STRING_CODE_UNITS → ∀ fuel index agg bs a,
  buckets_ok bs → empty_below index bs → wf agg → buckets_text bs ++ units agg = T →
  ROPE_BUCKET_LENGTHS !! index = Some a → a ≤ len (units agg) → (43 - index < fuel)%nat → ∃ bs',
  JsString.place fuel index agg bs = Ok bs' ∧ buckets_ok bs' ∧ buckets_text bs' = T.
Proof.
  intros HT. induction fuel as [|fuel IH]; intros index agg bs a Hb He Hagg Ht Ha Hal Hf; [lia|].
  cbn [JsString.place].
  assert (len (units agg) ≤ len T).
  { rewrite <- Ht, len_app. pose proof (len_nonneg (buckets_text bs)). lia. }
  assert (index ≤ 42)%nat as Hle by (eapply bucket_last; [done|lia]).
  destruct (lookup_lt_is_Some_2 bs index) as [b Hbi]; [rewrite (buckets_length _ Hb); lia|].
  rewrite Hbi. pose proof (buckets_text_at _ _ _ He Hbi) as Hat. destruct b as [r|].
  - destruct (buckets_each _ Hb _ _ Hbi) as [Hr (a' & Ha' & Hra)].
    rewrite Ha in Ha'. injection Ha' as <-. simpl in Hat.
    destruct (new_rope_node_spec r agg) as (s & -> & Hs & Hus); [done..| |].
    { rewrite <- Ht, Hat, <- app_assoc, len_app in HT.
      pose proof (len_nonneg (buckets_text (<[index:=None]> bs))). lia. }
    cbn [lift map_err mbind result_bind].
    destruct (lookup_lt_is_Some_2 ROPE_BUCKET_LENGTHS (S index)) as [c Hc]; [simpl; lia|].
    pose proof (bucket_step _ _ _ Ha Hc).
    eapply (IH (S index) s _ c); try done; try lia.
    + by apply buckets_ok_insert.
    + apply empty_below_insert; [done|]. rewrite (buckets_length _ Hb). lia.
    + by rewrite Hus, app_assoc, <- Hat.
    + rewrite Hus, len_app. lia.
  - eexists. split; [reflexivity|]. simpl in Hat. rewrite app_nil_r in Hat. split.
    + apply buckets_ok_insert; [done|]. split; [done|]. by exists a.
    + rewrite (buckets_text_at index (<[index:=Some agg]> bs) (Some agg)).
      * by rewrite list_insert_insert_eq, <- Hat.
      * intros i Hi. rewrite list_lookup_insert_ne by lia. by apply He.
      * apply list_lookup_insert_eq. rewrite (buckets_length _ Hb). lia.
Qed.

Lemma rebalance_leaf_spec leaf bs : buckets_ok bs → wf leaf → 1 ≤ len (units leaf) →
  len (buckets_text bs ++ units leaf) ≤ MAX_STRING_CODE_UNITS → ∃ bs',
  JsString.rebalance_leaf leaf bs = Ok bs' ∧ buckets_ok bs'
  ∧ buckets_text bs' = buckets_text bs ++ units leaf.
Proof.
  intros Hb Hwf H1 Hm. unfold JsString.rebalance_leaf. rewrite wf_len by done.
  destruct (gather_spec (buckets_text bs) (len (units leaf))) with (fuel := JsString.bucket_fuel)
    (index := 0%nat) (agg := @None Repr) (bs := bs)
    as (agg & index & bs1 & -> & Hb1 & He & Ha & Ht & a & Hidx & Hal).
  { split; [done|]. by apply wf_bound. }
  { rewrite len_app in Hm. lia. }
  { done. }
  { intros i Hi. lia. }
  { done. }
  { simpl. by rewrite app_nil_r. }
  { by exists 1. }
  { lia. }
  { unfold JsString.bucket_fuel. simpl. lia. }
  cbn [mbind result_bind].
  assert (∃ r, match agg with None => Ok leaf | Some l => lift (JsString.new_rope_node l leaf) end
    = @Ok (fault JsStringError) _ r ∧ wf r ∧ units r = aggregate_text agg ++ units leaf)
    as (r & -> & Hr & Hur).
  { destruct agg as [l|]; [|by exists leaf].
    destruct (new_rope_node_spec l leaf) as (s & -> & ? & ?); [done..| |by exists s].
    rewrite <- Ht, <- app_assoc, len_app in Hm. simpl in Hm.
    pose proof (len_nonneg (buckets_text bs1)). lia. }
  cbn [mbind result_bind].
  apply (place_spec (buckets_text bs ++ units leaf)) with (a := a); try done.
  - by rewrite Hur, app_assoc, Ht.
  - rewrite Hur, len_app. pose proof (len_nonneg (aggregate_text agg)). lia.
  - unfold JsString.bucket_fuel. simpl. lia.
Qed.

Lemma merge_buckets_spec bs : ∀ acc, (∀ i b, bs !! i = Some b → aggregate_ok b) → aggregate_ok acc →
  len (buckets_text bs ++ aggregate_text acc) ≤ MAX_STRING_CODE_UNITS → ∃ r,
  try_fold JsString.merge_bucket acc bs = Ok r ∧ aggregate_ok r
  ∧ aggregate_text r = buckets_text bs ++ aggregate_text acc.
Proof.
  induction bs as [|b bs IH]; intros acc Hbs Hacc Hm; simpl; [by exists acc|].
  assert (aggregate_ok b) as Hb by (by apply (Hbs 0%nat)).
  change (b :: bs) with ([b] ++ bs) in *. rewrite buckets_text_app, <- app_assoc in *.
  assert (∃ acc', JsString.merge_bucket acc b = Ok acc' ∧ aggregate_ok acc'
    ∧ aggregate_text acc' = buckets_text [b] ++ aggregate_text acc) as (acc' & -> & Hok & Ht).
  { destruct b as [l|]; [|by exists acc]. destruct acc as [r|]; simpl.
    - destruct (new_rope_node_spec l r) as (s & -> & ? & Hs); [done..| |].
      + unfold buckets_text in Hm. simpl in Hm. rewrite app_nil_r, len_app in Hm.
        pose proof (len_nonneg (buckets_text bs)). unfold buckets_text in *. lia.
      + exists (Some s). unfold buckets_text. simpl. by rewrite app_nil_r.
    - exists (Some l). unfold buckets_text. simpl. by rewrite !app_nil_r. }
  cbn [mbind result_bind]. destruct (IH acc') as (r & Hr & Hrok & Hrt); [|done|by rewrite Ht|].
  - intros i c Hc. by apply (Hbs (S i)).
  - exists r. rewrite Hrt, Ht. done.
Qed.

Section concatenation.
Context `{Allocator}.

Lemma runs_rebalance_walk : ∀ fuel stack bs, buckets_ok bs → Forall wf stack →
  len (buckets_text bs ++ text stack) ≤ MAX_STRING_CODE_UNITS → (total_nodes stack < fuel)%nat →
  runs (JsString.rebalance_walk fuel stack bs)
    (λ bs', buckets_ok bs' ∧ buckets_text bs' = buckets_text bs ++ text stack).
Proof.
  assert (∀ fuel node stack bs, buckets_ok bs → wf node → Forall wf stack →
    len (buckets_text bs ++ text (node :: stack)) ≤ MAX_STRING_CODE_UNITS →
    (∀ bs', buckets_ok bs' → len (buckets_text bs' ++ text stack) ≤ MAX_STRING_CODE_UNITS →
       runs (JsString.rebalance_walk fuel stack bs')
         (λ bs'', buckets_ok bs'' ∧ buckets_text bs'' = buckets_text bs' ++ text stack)) →
    runs (if JsString.is_empty node then JsString.rebalance_walk fuel stack bs
          else bs' ← JsString.rebalance_leaf node bs; JsString.rebalance_walk fuel stack bs')
      (λ bs', buckets_ok bs' ∧ buckets_text bs' = buckets_text bs ++ text (node :: stack))) as Hleaf.
  { intros fuel node stack bs Hb Hn Hs Hm IH. unfold JsString.is_empty. rewrite wf_len by done.
    change (text (node :: stack)) with (units node ++ text stack) in *. rewrite app_assoc in *.
    destruct (Z.eqb_spec (len (units node)) 0) as [E%len_nil_inv|].
    { rewrite E, app_nil_r in *. by apply IH. }
    pose proof (len_nonneg (units node)).
    destruct (rebalance_leaf_spec node bs) as (bs' & -> & Hb' & Ht'); [done..|lia| |].
    { rewrite len_app in Hm. pose proof (len_nonneg (text stack)). lia. }
    cbn [mbind result_bind]. rewrite <- Ht' in *. by apply IH. }
  induction fuel as [|fuel IH]; intros stack bs Hb Hs Hm Hf; [lia|].
  cbn [JsString.rebalance_walk]. destruct stack as [|node stack].
  { simpl. by rewrite app_nil_r. }
  apply Forall_cons_1 in Hs as [Hn Hs]. unfold total_nodes in Hf. simpl in Hf.
  destruct node as [us|us|l r n d w].
  1,2: apply Hleaf; [done..|]; intros bs' Hb' Hm'; apply IH; try done; unfold total_nodes; simpl in Hf; lia.
  destruct Hn as (Hl & Hr & _). step_reserve. step_reserve.
  assert (text (Rope l r n d w :: stack) = text (l :: r :: stack)) as E.
  { unfold text. simpl. by rewrite app_assoc. }
  rewrite E in *. apply IH; [done|by repeat apply Forall_cons_2|done|].
  unfold total_nodes. simpl in *. lia.
Qed.

Lemma runs_rebalance l r : wf l → wf r → len (units l ++ units r) ≤ MAX_STRING_CODE_UNITS →
  runs (JsString.rebalance l r) (λ s, wf s ∧ units s = units l ++ units r).
Proof.
  intros Hl Hr Hm. unfold JsString.rebalance. step_reserve.
  assert (buckets_text (replicate (length ROPE_BUCKET_LENGTHS) None) = []) as E0.
  { apply buckets_text_none. intros i b Hb. by apply lookup_replicate in Hb as [-> _]. }
  assert (text [l; r] = units l ++ units r) as E1 by (unfold text; simpl; by rewrite app_nil_r).
  eapply runs_bind.
  { apply runs_rebalance_walk.
    - split; [done|]. intros i b Hb. by apply lookup_replicate in Hb as [-> _].
    - by repeat apply Forall_cons_2.
    - by rewrite E0, E1.
    - unfold total_nodes. simpl. lia. }
  rewrite E0, E1. intros bs [Hb Ht]. simpl app in Ht.
  destruct (merge_buckets_spec bs None) as (res & -> & Hok & Hres); [|done| |].
  - intros i b Hi. apply (buckets_each _ Hb) in Hi. destruct b as [s|]; [|done]. by destruct Hi.
  - simpl. by rewrite app_nil_r, Ht.
  - simpl in *. rewrite app_nil_r, Ht in Hres. destruct res as [s|]; [done|]. simpl in *.
    split; [|done]. split; [constructor|by vm_compute].
Qed.

Lemma runs_new_rope l r : wf l → wf r → len (units l ++ units r) ≤ MAX_STRING_CODE_UNITS →
  runs (JsString.new_rope l r) (λ s, wf s ∧ units s = units l ++ units r).
Proof.
  intros Hl Hr Hm. unfold JsString.new_rope, JsString.checked_sum.
  pose proof Hm as Hm'. rewrite len_app, <- !wf_len in Hm' by done.
  destruct (Z.ltb_spec MAX_STRING_CODE_UNITS (Repr.len l + Repr.len r)); [lia|].
  cbn [lift map_err mbind result_bind]. case_match; [by apply runs_rebalance|].
  done.
Qed.

Lemma leaf_shallow r : Repr.is_leaf r = true → shallow r.
Proof. destruct r; [by vm_compute..|done]. Qed.

Lemma is_short_leaf_leaf r : JsString.is_short_leaf r = true → Repr.is_leaf r = true.
Proof. unfold JsString.is_short_leaf. by intros [? _]%andb_true_iff. Qed.

Lemma runs_copy_concat l r : wf l → wf r → Repr.is_leaf l = true → Repr.is_leaf r = true →
  len (units l ++ units r) ≤ MAX_STRING_CODE_UNITS →
  runs (JsString.copy_concat l r) (λ s, wf s ∧ units s = units l ++ units r).
Proof.
  intros Hl Hr Hll Hlr Hm. unfold JsString.copy_concat.
  rewrite !code_units_spec by auto using leaf_shallow. unfold Units.chain.
  cbn [yielded panics lower_bound orb].
  eapply runs_mono; [apply runs_from_code_units; [done|]|].
  - unfold saturating_add_u64. rewrite len_app. lia.
  - intros s ->. rewrite units_leaf_of. split; [|done]. apply wf_leaf_of; [|done].
    apply Forall_app. split; by apply wf_units.
Qed.
End concatenation.

(** ** Concatenation *)

(** The outcome of [concat] on well-formed strings. *)
Lemma concat_runs `{Allocator} a b : wf a → wf b →
  if decide (Repr.len a + Repr.len b ≤ MAX_STRING_CODE_UNITS)
  then runs (JsString.concat a b) (λ s, wf s ∧ units s = units a ++ units b)
  else JsString.concat a b =
       Err (Fail (TooLong (Repr.len a + Repr.len b) MAX_STRING_CODE_UNITS)).
Proof.
  intros Ha Hb. unfold JsString.concat, JsString.checked_sum. case_decide as Hm.
  2:{ destruct (Z.ltb_spec MAX_STRING_CODE_UNITS (Repr.len a + Repr.len b)); [done|lia]. }
  destruct (Z.ltb_spec MAX_STRING_CODE_UNITS (Repr.len a + Repr.len b)); [lia|].
  cbn [lift map_err mbind result_bind]. unfold JsString.is_empty.
  rewrite !wf_len, <- len_app in Hm by done. rewrite !wf_len by done.
  destruct (Z.eqb_spec (len (units a)) 0) as [E%len_nil_inv|Hna]; [by rewrite E|].
  destruct (Z.eqb_spec (len (units b)) 0) as [E%len_nil_inv|Hnb]; [by rewrite E, app_nil_r|].
  destruct (JsString.is_short_leaf b) eqn:Hsb.
  - apply is_short_leaf_leaf in Hsb. case_match eqn:Hla.
    { apply andb_true_iff in Hla as [? _]. by apply runs_copy_concat. }
    destruct a as [us|us|l r n d w]; cbn [JsString.children]; [by apply runs_new_rope..|].
    destruct (JsString.is_short_leaf r) eqn:Hsr; [|by apply runs_new_rope].
    apply is_short_leaf_leaf in Hsr. destruct Ha as (Hl & Hr & _). simpl units in *.
    rewrite <- app_assoc in *. pose proof Hm as Hm'. rewrite len_app in Hm'.
    pose proof (len_nonneg (units l)). eapply runs_bind; [apply runs_copy_concat; auto; lia|].
    intros s [Hs Hus]. rewrite <- Hus in *. by apply runs_new_rope.
  - destruct (Repr.is_leaf a) eqn:Hla; [|by apply runs_new_rope].
    destruct b as [us|us|l r n d w]; cbn [JsString.children]; [by apply runs_new_rope..|].
    destruct (JsString.is_short_leaf l) eqn:Hsl; [|by apply runs_new_rope].
    apply is_short_leaf_leaf in Hsl. destruct Hb as (Hl & Hr & _). simpl units in *.
    rewrite app_assoc in *. pose proof Hm as Hm'. rewrite len_app in Hm'.
    pose proof (len_nonneg (units r)). eapply runs_bind; [apply runs_copy_concat; auto; lia|].
    intros s [Hs Hus]. rewrite <- Hus in *. by apply runs_new_rope.
Qed.

(** C12. Concatenation appends the code units, whatever the representations: it
    keeps the representation invariant through the copying of short leaves, the
    ropes and the rebalancing, never panics, and fails only when the host
    refuses memory or, with the exact lengths in the error, when the result
    would be longer than the maximum. *)
Theorem string_concat_exact `{Allocator} a b : wf a → wf b →
  if decide (Repr.len a + Repr.len b ≤ MAX_STRING_CODE_UNITS)
  then runs (JsString.concat a b) (λ s, wf s ∧ units s = units a ++ units b)
  else JsString.concat a b =
       Err (Fail (TooLong (Repr.len a + Repr.len b) MAX_STRING_CODE_UNITS)).
Proof. apply concat_runs. Qed.

(** A rope, a short leaf and a wide leaf. *)
Definition demo_rope : Repr :=
  Rope (Latin1 (replicate 600 97)) (Rope (Utf16 [0xd83d; 0xde00]) (Latin1 [98]) 3 1 true) 603 2 true.

Lemma wf_demo_rope : wf demo_rope.
Proof.
  assert (∀ us, forallb (λ u, (0 <=? u) && (u <=? 255)) us = true → byte_list us) as Hb.
  { intros us H. apply Forall_forall. intros u Hu. rewrite forallb_forall in H.
    specialize (H u Hu). bool_to_prop. solve_ints. }
  cbn [wf demo_rope]. split_and!; try (by vm_compute); try (apply Hb; by vm_compute).
  - apply Forall_cons_2; [|apply Forall_cons_2; [|constructor]]; solve_ints.
  - apply Exists_cons. left. lia.
Qed.

Lemma string_concat_exact_witness : runs (H := always_allocates)
  (@JsString.concat always_allocates demo_rope (Latin1 [99]))
  (λ s, wf s ∧ units s = units demo_rope ++ [99]).
Proof.
  apply (@string_concat_exact always_allocates demo_rope (Latin1 [99])); [apply wf_demo_rope|].
  split; [by repeat constructor|by vm_compute].
Defined.

(** ** Observations *)

Lemma unit_at_spec {E} s : wf s → ∀ i, 0 ≤ i < len (units s) →
  ∃ u, JsString.unit_at (E := E) s i = Ok u ∧ units s !! Z.to_nat i = Some u.
Proof.
  induction s as [us|us|l IHl r IHr n d w]; intros Hwf i Hi.
  1,2: (simpl in *; destruct (proj2 (at_index_is_Some us i) Hi) as [u Hu]; exists u; rewrite Hu;
    split; [done|by apply at_index_Some in Hu as [_ ?]]).
  destruct Hwf as (Hl & Hr & _). cbn [JsString.unit_at units] in *. rewrite len_app in Hi.
  rewrite wf_len by done. destruct (Z.ltb_spec i (len (units l))).
  - destruct (IHl Hl i) as (u & Hu & Hlu); [lia|]. exists u. split; [done|]. by apply lookup_app_l_Some.
  - destruct (IHr Hr (i - len (units l))) as (u & Hu & Hru); [lia|]. exists u. split; [done|].
    rewrite lookup_app_r by (unfold len in *; lia). rewrite <- Hru. f_equal. unfold len. lia.
Qed.

Lemma code_unit_at_spec {E} s i : wf s → 0 ≤ i →
  JsString.code_unit_at (E := E) s i = Ok (units s !! Z.to_nat i).
Proof.
  intros Hs Hi. unfold JsString.code_unit_at. rewrite wf_len by done.
  destruct (Z.leb_spec (len (units s)) i).
  - rewrite lookup_ge_None_2 by (unfold len in *; lia). done.
  - destruct (unit_at_spec (E := E) s Hs i) as (u & -> & ->); [lia|done].
Qed.

Lemma units_compare_spec {E} a : ∀ b, ∃ c, Units.compare (E := E) a b false false = Ok c
  ∧ (c = Eq ↔ a = b)
  ∧ (c = Lt ↔ ∃ p y, (a = p ∧ ∃ b', b = p ++ y :: b')
                     ∨ ∃ x a' b', a = p ++ x :: a' ∧ b = p ++ y :: b' ∧ x < y).
Proof.
  induction a as [|x a IH]; intros [|y b]; cbn [Units.compare orb].
  - exists Eq. split; [done|]. split; [done|]. split; [done|].
    intros (p & y & [[_ (b' & Hb)]|(x & a' & b' & Ha & _)]); by destruct p.
  - exists Lt. split; [done|]. split; [done|]. split; [|done]. intros _. exists [], y. left. eauto.
  - exists Gt. split; [done|]. split; [done|]. split; [done|].
    intros (p & y & [[_ (b' & Hb)]|(x' & a' & b' & _ & Hb & _)]); by destruct p.
  - destruct (Z.compare_spec x y) as [->|Hlt|Hgt].
    + destruct (IH b) as (c & -> & Heq & Hltc). exists c. split; [done|]. split.
      { rewrite Heq. naive_solver. }
      rewrite Hltc. split.
      * intros (p & z & [[<- (b' & ->)]|(x' & a' & b' & -> & -> & ?)]).
        { exists (y :: a), z. naive_solver. }
        exists (y :: p), z. right. by exists x', a', b'.
      * intros (p & z & [[<- (b' & Hb)]|(x' & a' & b' & Ha & Hb & ?)]).
        { simplify_eq/=. exists a, z. naive_solver. }
        destruct p as [|q p]; simplify_eq/=; [lia|]. exists p, z. naive_solver.
    + exists Lt. split; [done|]. split; [split; [done|intros; simplify_eq; lia]|].
      split; [|done]. intros _. exists [], y. right. exists x, a, b. done.
    + exists Gt. split; [done|]. split; [split; [done|intros; simplify_eq; lia]|]. split; [done|].
      intros (p & z & [[<- (b' & Hb)]|(x' & a' & b' & Ha & Hb & ?)]).
      { simplify_eq/=. lia. }
      destruct p as [|q p]; simplify_eq/=; lia.
Qed.

Lemma runs_slice `{Allocator} s start end_ : wf s → shallow s →
  0 ≤ start ≤ end_ → end_ ≤ len (units s) →
  runs (JsString.slice s start end_) (λ r, wf r ∧ units r = segment start (end_ - start) (units s)).
Proof.
  intros Hwf Hsh Hse He. unfold JsString.slice. rewrite wf_len by done.
  destruct (Z.ltb_spec end_ start), (Z.ltb_spec (len (units s)) end_); [lia..|]. simpl.
  case_match eqn:Hall.
  { bool_to_prop. subst. simpl. split; [done|]. by rewrite Z.sub_0_r, segment_all. }
  rewrite code_units_spec by done. unfold Units.take, Units.skip.
  cbn [yielded panics lower_bound andb].
  fold (segment start (end_ - start) (units s)).
  assert (len (segment start (end_ - start) (units s)) = end_ - start) as Hl by (apply len_segment; lia).
  pose proof (wf_bound s Hwf).
  eapply runs_mono; [apply runs_from_code_units|].
  - lia.
  - unfold saturating_sub. lia.
  - intros r ->. rewrite units_leaf_of. split; [|done]. apply wf_leaf_of; [|lia].
    unfold segment. apply Forall_take, Forall_drop. by apply wf_units.
Qed.

Lemma eq_units ptr_eq s t : wf s → wf t → shallow s → shallow t → (ptr_eq = true → s = t) →
  JsString.eq (E := Empty_set) ptr_eq s t = Ok (bool_decide (units s = units t)).
Proof.
  intros Hs Ht Hsh Hth Hp. unfold JsString.eq. destruct ptr_eq.
  { rewrite (Hp eq_refl), bool_decide_true by done. done. }
  rewrite !code_units_spec, !wf_len by done. unfold Units.cmp. cbn [yielded panics].
  destruct (Z.eqb_spec (len (units s)) (len (units t))) as [|Hne]; simpl.
  - destruct (units_compare_spec (E := Empty_set) (units s) (units t)) as (c & -> & Heq & _).
    simpl. f_equal. destruct c; [by rewrite bool_decide_true by (by apply Heq)|
      rewrite bool_decide_false by (by intros ?%Heq); done..].
  - rewrite bool_decide_false by (intros E; by rewrite E in Hne). done.
Qed.

(** C13. Every observation of a string that fits the iterator's stack is a
    function of its code units, whatever the representation: indexing reads
    them, iteration yields all of them in order without a panic, slicing copies
    exactly the range and rejects exactly the invalid ones, the Latin-1 test,
    equality and the lexicographic order are those of the units. *)
Theorem string_observations_exact `{Allocator} s t :
  wf s → wf t → shallow s → shallow t →
  (∀ i, 0 ≤ i → JsString.code_unit_at (E := Empty_set) s i = Ok (units s !! Z.to_nat i))
  ∧ JsString.code_units s = mkUnits (units s) false (len (units s))
  ∧ (JsString.is_latin1 s = true ↔ Forall (λ u, u ≤ 255) (units s))
  ∧ (∀ start end_, 0 ≤ start →
       if decide (start ≤ end_ ≤ len (units s))
       then runs (JsString.slice s start end_)
              (λ r, wf r ∧ units r = segment start (end_ - start) (units s))
       else JsString.slice s start end_ = Err (Fail (InvalidRange start end_ (len (units s)))))
  ∧ (∀ ptr_eq, (ptr_eq = true → s = t) →
       JsString.eq (E := Empty_set) ptr_eq s t = Ok (bool_decide (units s = units t)))
  ∧ ∃ c, JsString.cmp (E := Empty_set) s t = Ok c ∧ (c = Eq ↔ units s = units t)
       ∧ (c = Lt ↔ ∃ p y, (units s = p ∧ ∃ t', units t = p ++ y :: t')
                          ∨ ∃ x s' t', units s = p ++ x :: s' ∧ units t = p ++ y :: t' ∧ x < y).
Proof.
  intros Hs Ht Hsh Hth. split_and!.
  - intros i Hi. by apply code_unit_at_spec.
  - by apply code_units_spec.
  - unfold JsString.is_latin1. rewrite negb_true_iff, <- not_true_iff_false, wf_wide by done.
    rewrite <- Forall_Exists_neg. apply Forall_proper; [|done]. intros u. lia.
  - intros start end_ H0. case_decide; [apply runs_slice; (done || lia)|].
    unfold JsString.slice. rewrite wf_len by done.
    destruct (Z.ltb_spec end_ start); [done|].
    destruct (Z.ltb_spec (len (units s)) end_); [done|lia].
  - intros ptr Hp. by apply eq_units.
  - unfold JsString.cmp. rewrite !code_units_spec by done. unfold Units.cmp. cbn [yielded panics].
    apply units_compare_spec.
Qed.

Lemma string_observations_exact_witness :
  JsString.code_unit_at (E := Empty_set) demo_rope 600 = Ok (Some 0xd83d)
  ∧ yielded (JsString.code_units demo_rope) = units demo_rope.
Proof.
  assert (shallow demo_rope) as Hsh by (unfold shallow; simpl; lia).
  assert (wf demo_rope) as Hw by apply wf_demo_rope.
  destruct (@string_observations_exact always_allocates demo_rope demo_rope) as (Hat & Hit & _);
    [exact Hw|exact Hw|exact Hsh|exact Hsh|].
  split; [rewrite Hat by lia; reflexivity|by rewrite Hit].
Defined.

(** ** Reading by position *)

Section reading.
Context (text : Repr) (Hwf : wf text).

(** [S] is what is left of the text at [index]. *)
Definition rest_at (index : Z) (S : list Z) : Prop :=
  0 ≤ index ∧ index + len S = len (units text) ∧ drop (Z.to_nat index) (units text) = S.

Lemma rest_at_lookup {E} i S k : rest_at i S → 0 ≤ k →
  JsString.code_unit_at (E := E) text (i + k) = Ok (S !! Z.to_nat k).
Proof.
  intros (Hi & Hl & HS) Hk. rewrite code_unit_at_spec by (done || lia).
  rewrite <- HS, lookup_drop. do 2 f_equal. lia.
Qed.

Lemma rest_at_step i l S : rest_at i (l ++ S) → rest_at (i + len l) S.
Proof.
  intros (Hi & Hl & HS). rewrite len_app in Hl. pose proof (len_nonneg l). split_and!; [lia|lia|].
  rewrite Z2Nat.inj_add by lia. rewrite <- drop_drop, HS. unfold len. by rewrite Nat2Z.id, drop_app_length.
Qed.

Lemma rest_at_bound i S : rest_at i S → i ≤ MAX_STRING_CODE_UNITS.
Proof. intros (Hi & Hl & HS). pose proof (wf_bound _ Hwf). pose proof (len_nonneg S). lia. Qed.

Lemma rest_at_start : rest_at 0 (units text).
Proof. split_and!; [done|lia|done]. Qed.
End reading.

(** ** Byte conversions *)

(** The code points of a string: valid pairs joined unless [cesu8]. *)
Fixpoint code_points (cesu8 : bool) (us : list Z) : list Z :=
  match us with
  | [] => []
  | unit :: us' =>
      if negb cesu8 && is_high_surrogate unit then
        match us' with
        | low :: us'' =>
            if is_low_surrogate low then combine_surrogates unit low :: code_points cesu8 us''
            else unit :: code_points cesu8 us'
        | [] => [unit]
        end
      else unit :: code_points cesu8 us'
  end.

(** Induction over two units at a time. *)
Lemma units_ind (P : list Z → Prop) : P [] → (∀ u, P [u]) →
  (∀ u v us, P us → P (v :: us) → P (u :: v :: us)) → ∀ us, P us.
Proof.
  intros H0 H1 H2. assert (∀ us, P us ∧ ∀ u, P (u :: us)) as H; [|intros us; apply H].
  induction us as [|v us [IH1 IH2]]; split; auto.
Qed.

Definition joins (cesu8 : bool) (u v : Z) : bool :=
  negb cesu8 && is_high_surrogate u && is_low_surrogate v.

Lemma code_points_one cesu8 u : code_points cesu8 [u] = [u].
Proof. simpl. by case_match. Qed.

Lemma code_points_two cesu8 u v us : code_points cesu8 (u :: v :: us) =
  if joins cesu8 u v then combine_surrogates u v :: code_points cesu8 us
  else u :: code_points cesu8 (v :: us).
Proof. unfold joins. cbn [code_points]. by destruct (negb cesu8), (is_high_surrogate u). Qed.

Lemma wtf8_loop_two cesu8 u v us out : JsString.wtf8_loop cesu8 (u :: v :: us) out =
  if joins cesu8 u v then JsString.wtf8_loop cesu8 us (out ++ utf8_bytes (combine_surrogates u v))
  else JsString.wtf8_loop cesu8 (v :: us) (out ++ utf8_bytes u).
Proof. unfold joins. cbn [JsString.wtf8_loop]. by destruct (negb cesu8), (is_high_surrogate u). Qed.

Lemma wtf8_loop_spec cesu8 us : ∀ out,
  JsString.wtf8_loop cesu8 us out = out ++ (code_points cesu8 us ≫= utf8_bytes).
Proof.
  induction us as [|u|u v us IH1 IH2] using units_ind; intros out.
  - simpl. by rewrite app_nil_r.
  - rewrite code_points_one. unfold JsString.wtf8_loop, JsString.encode_utf8_code_point.
    simpl. rewrite app_nil_r. by case_match.
  - rewrite code_points_two, wtf8_loop_two.
    by case_match; rewrite ?IH1, ?IH2, <- app_assoc.
Qed.

Lemma code_points_units us cesu8 : unit_list us → (code_points cesu8 us ≫= encode_utf16_char) = us.
Proof.
  induction us as [|u|u v us IH1 IH2] using units_ind; intros Hu; [done|..].
  - rewrite code_points_one. apply Forall_cons_1 in Hu as [Hu _]. unfold_ints. simpl.
    by rewrite encode_utf16_bmp by lia.
  - apply Forall_cons_1 in Hu as [Hu Hvus]. pose proof (Forall_cons_1 _ _ _ Hvus) as [Hv Hus].
    rewrite code_points_two. unfold_ints. case_match eqn:E; rewrite bind_cons.
    + unfold joins in E. apply andb_true_iff in E as [[_ ?]%andb_true_iff ?].
      by rewrite encode_combined, IH1 by done.
    + by rewrite IH2, encode_utf16_bmp by (done || lia).
Qed.

Lemma code_points_range us cesu8 : unit_list us → Forall (λ c, 0 ≤ c ≤ 0x10ffff) (code_points cesu8 us).
Proof.
  induction us as [|u|u v us IH1 IH2] using units_ind; intros Hu; [constructor|..].
  - rewrite code_points_one. apply Forall_cons_1 in Hu as [Hu _]. unfold_ints. repeat constructor; lia.
  - apply Forall_cons_1 in Hu as [Hu Hvus]. pose proof (Forall_cons_1 _ _ _ Hvus) as [Hv Hus].
    rewrite code_points_two. unfold_ints. case_match eqn:E; constructor; auto; try lia.
    unfold joins in E. apply andb_true_iff in E as [[_ ?%is_high_surrogate_spec]%andb_true_iff
      ?%is_low_surrogate_spec]. rewrite combine_surrogates_eq. lia.
Qed.

Lemma utf8_inj cs : ∀ ds, Forall (λ c, 0 ≤ c ≤ 0x10ffff) cs → Forall (λ c, 0 ≤ c ≤ 0x10ffff) ds →
  cs ≫= utf8_bytes = ds ≫= utf8_bytes → cs = ds.
Proof.
  assert (∀ c r, utf8_bytes c ++ r ≠ []) as Hne by (intros c r; unfold utf8_bytes; by repeat case_match).
  induction cs as [|c cs IH]; intros [|d ds] Hc Hd; rewrite ?bind_cons; simpl; try done.
  - intros E. by symmetry in E; apply Hne in E.
  - by intros E%Hne.
  - apply Forall_cons_1 in Hc as [Hc Hcs], Hd as [Hd Hds].
    intros [-> E]%utf8_bytes_prefix; [|done..]. f_equal. by apply IH.
Qed.

(** The WTF-8 and the CESU-8 conversion lose nothing: in either form, the
    bytes are the UTF-8 coding of the code points with (respectively without)
    surrogate pairs joined, from which the units are recovered, so two strings
    with the same bytes have the same units, lone surrogates included. *)
Theorem string_bytes_injective `{Allocator} cesu8 s t bytes bytes' :
  wf s → wf t → shallow s → shallow t →
  JsString.to_quickjs_utf8_bytes s cesu8 = Ok bytes →
  JsString.to_quickjs_utf8_bytes t cesu8 = Ok bytes' →
  bytes = (code_points cesu8 (units s) ≫= utf8_bytes)
  ∧ (code_points cesu8 (units s) ≫= encode_utf16_char) = units s
  ∧ (bytes = bytes' ↔ units s = units t).
Proof.
  intros Hs Ht Hsh Hth. unfold JsString.to_quickjs_utf8_bytes. rewrite !code_units_spec by done.
  cbn [panics yielded]. intros ([] & _ & ([] & _ & [= <-])%bind_Ok)%bind_Ok.
  intros ([] & _ & ([] & _ & [= <-])%bind_Ok)%bind_Ok.
  rewrite !wtf8_loop_spec. simpl app. split; [done|].
  split; [by apply code_points_units, wf_units|]. split; [|by intros ->].
  intros E%utf8_inj; [|by apply code_points_range, wf_units..].
  rewrite <- (code_points_units (units s) cesu8), E by (by apply wf_units).
  by apply code_points_units, wf_units.
Qed.

Lemma string_bytes_injective_witness :
  @JsString.to_wtf8_bytes always_allocates (Utf16 [0xd83d; 0xde00; 0xd800])
    = Ok [0xf0; 0x9f; 0x98; 0x80; 0xed; 0xa0; 0x80]
  ∧ (code_points false [0xd83d; 0xde00; 0xd800] ≫= encode_utf16_char) = [0xd83d; 0xde00; 0xd800].
Proof.
  set (s := Utf16 [0xd83d; 0xde00; 0xd800]). set (bs := [0xf0; 0x9f; 0x98; 0x80; 0xed; 0xa0; 0x80]).
  assert (@JsString.to_wtf8_bytes always_allocates s = Ok bs) as E by reflexivity.
  assert (wf s) as Hw.
  { split; [repeat apply Forall_cons_2; try apply Forall_nil_2; solve_ints|].
    split; [apply Exists_cons; left; lia|vm_compute; discriminate]. }
  assert (shallow s) as Hs by (unfold shallow; simpl; lia).
  destruct (@string_bytes_injective always_allocates false s s bs bs) as (_ & Hu & _);
    [exact Hw|exact Hw|exact Hs|exact Hs|exact E|exact E|].
  split; [exact E|exact Hu].
Defined.
