(* ===== verification/JsStringDepth.v ===== *)
(** * Rebalancing can outgrow the iterator

    [new_rope] bounds the depth of the ropes it makes by [ROPE_MAX_DEPTH] and
    hands deeper ones to [rebalance], and the iterator's array has room for one
    level more.  But [rebalance] builds its nodes with [new_rope_node], which has
    no bound, and its buckets do not give one: a leaf that fills bucket [i] is
    put on top of everything gathered below, two levels above bucket [i - 1] when
    a shorter leaf lies between.  This file builds, with [concat] alone, a string
    of 24 million code units that is rebalanced to depth 63 and on which the
    iterator indexes past its array. *)

From S2P Require Import Prelude RuntimePrelude JsStrings JsStringFacts.

(** The host that never refuses memory. *)
#[local] Existing Instance always_allocates.

(** The strings that concatenation makes of leaves. *)
Inductive built : Repr → Prop :=
| built_leaf s : wf s → Repr.is_leaf s = true → built s
| built_concat a b s : built a → built b → JsString.concat a b = Ok s → built s.

(** The length of the left spine, which the iterator stacks at once. *)
Fixpoint left_spine (r : Repr) : nat :=
  match r with
  | Latin1 _ | Utf16 _ => 0
  | Rope left_ _ _ _ _ => S (left_spine left_)
  end.

(** ** The iterator on a deep left spine *)

Lemma descend_panics {E} r : ∀ stack k, (k ≤ length stack < k + left_spine r)%nat →
  CodeUnits.descend (E := E) r stack k = Err Panic.
Proof.
  induction r as [| |l IHl r _ n d w]; intros stack k Hk; simpl in *; [lia..|].
  case_decide; [|done]. apply IHl. rewrite length_insert. lia.
Qed.

Lemma deep_panics r : (61 < left_spine r)%nat → panics (JsString.code_units r) = true.
Proof.
  intros Hs. unfold JsString.code_units, Units.of_iterator, CodeUnits.new.
  cbn [remaining Units.pull]. unfold CodeUnits.next. cbn [CodeUnits.next_loop leaf stack_len stack mbind option_bind].
  rewrite list_lookup_insert_eq by (rewrite length_replicate; unfold ROPE_ITER_STACK_CAPACITY; lia).
  cbn [mjoin option_join expect ok_or mbind result_bind].
  rewrite descend_panics; [done|]. rewrite !length_insert, length_replicate.
  unfold ROPE_ITER_STACK_CAPACITY. lia.
Qed.

(** ** Evaluating the operations *)

Definition node (l r : Repr) : Repr :=
  Rope l r (Repr.len l + Repr.len r)
    (JsString.saturating_add_u8 (Z.max (Repr.depth l) (Repr.depth r)) 1)
    (Repr.is_wide l || Repr.is_wide r).

Lemma checked_sum_ok a b : a + b ≤ MAX_STRING_CODE_UNITS → JsString.checked_sum a b = Ok (a + b).
Proof. intros. unfold JsString.checked_sum. by destruct (Z.ltb_spec MAX_STRING_CODE_UNITS (a + b)); [lia|]. Qed.

Lemma new_rope_node_ok l r : Repr.len l + Repr.len r ≤ MAX_STRING_CODE_UNITS →
  JsString.new_rope_node l r = Ok (node l r).
Proof. intros. unfold JsString.new_rope_node. by rewrite checked_sum_ok. Qed.

Lemma new_rope_ok l r : Repr.len l + Repr.len r ≤ MAX_STRING_CODE_UNITS →
  JsString.new_rope l r = if ROPE_MAX_DEPTH <? Repr.depth (node l r) then JsString.rebalance l r
                          else Ok (node l r).
Proof. intros. unfold JsString.new_rope. by rewrite checked_sum_ok. Qed.

Fixpoint leaves (r : Repr) : list Repr :=
  match r with
  | Latin1 _ | Utf16 _ => [r]
  | Rope left_ right_ _ _ _ => leaves left_ ++ leaves right_
  end.

(** The walk hands the leaves to the buckets in order. *)
Definition feed (bs : list (option Repr)) (leaf : Repr) : outcome JsStringError (list (option Repr)) :=
  if JsString.is_empty leaf then Ok bs else JsString.rebalance_leaf leaf bs.

Lemma feed_unfold bs leaf :
  feed bs leaf = if JsString.is_empty leaf then Ok bs else JsString.rebalance_leaf leaf bs.
Proof. done. Qed.

Lemma walk_feeds : ∀ fuel stack bs, (total_nodes stack < fuel)%nat →
  JsString.rebalance_walk fuel stack bs = try_fold feed bs (stack ≫= leaves).
Proof.
  induction fuel as [|fuel IH]; intros stack bs Hf; [lia|]. cbn [JsString.rebalance_walk].
  unfold total_nodes in *. destruct stack as [|[us|us|l r n d w] stack]; simpl in Hf; [done|..].
  1,2: rewrite bind_cons; simpl; rewrite feed_unfold; case_match;
    [by apply IH; simpl; lia|]; destruct (JsString.rebalance_leaf _ _); simpl; [by apply IH; simpl; lia|done].
  unfold JsString.reserve, Prelude.reserve. cbn [lift map_err reject_if negb mbind result_bind].
  rewrite IH by (simpl; lia). rewrite !bind_cons. simpl. by rewrite app_assoc.
Qed.

(** ** The ladder

    One bucket is in use, at index [i]. *)

Definition only (i : nat) (r : Repr) : list (option Repr) :=
  <[i := Some r]> (replicate (length ROPE_BUCKET_LENGTHS) None).

Lemma only_ne i r j : (j < 44)%nat → i ≠ j → only i r !! j = Some None.
Proof. intros. unfold only. rewrite list_lookup_insert_ne by done. by apply lookup_replicate_2. Qed.

Lemma only_eq i r : (i < 44)%nat → only i r !! i = Some (Some r).
Proof. intros. unfold only. apply list_lookup_insert_eq. by rewrite length_replicate. Qed.

Lemma bucket_bounds i j a b : ROPE_BUCKET_LENGTHS !! i = Some a → ROPE_BUCKET_LENGTHS !! j = Some b →
  (i < j)%nat → a < b.
Proof.
  intros Ha Hb Hij. revert b Hb. induction Hij as [|j Hij IH]; intros b Hb.
  - by apply (bucket_step i).
  - destruct (lookup_lt_is_Some_2 ROPE_BUCKET_LENGTHS j) as [c Hc].
    { apply lookup_lt_Some in Hb. lia. }
    pose proof (IH _ Hc). pose proof (bucket_step _ _ _ Hc Hb). lia.
Qed.

Lemma gather_skip bs length_ agg n a : ROPE_BUCKET_LENGTHS !! n = Some a → a ≤ length_ →
  ∀ k fuel index, (index + k = n)%nat → (∀ j, (index ≤ j < n)%nat → bs !! j = Some None) →
  JsString.gather (k + fuel) length_ index agg bs = JsString.gather fuel length_ n agg bs.
Proof.
  intros Ha Hle. induction k as [|k IH]; intros fuel index Hn Hbs.
  { rewrite Nat.add_0_r in Hn. by subst. }
  cbn [Nat.add JsString.gather].
  destruct (lookup_lt_is_Some_2 ROPE_BUCKET_LENGTHS (S index)) as [b Hb].
  { apply lookup_lt_Some in Ha. lia. }
  rewrite Hb. cbn [expect ok_or mbind result_bind].
  assert (b ≤ a) as Hba.
  { destruct (decide (S index = n)) as [En|]; [rewrite En, Ha in Hb; injection Hb; lia|].
    pose proof (bucket_bounds _ _ _ _ Hb Ha ltac:(lia)). lia. }
  destruct (Z.ltb_spec length_ b); [lia|].
  rewrite Hbs by lia. cbn [expect ok_or mbind result_bind]. apply IH; [lia|].
  intros j Hj. apply Hbs. lia.
Qed.

(** Taking the bucket at an index. *)
Lemma gather_take bs length_ agg fuel index b a :
  ROPE_BUCKET_LENGTHS !! S index = Some a → a ≤ length_ → bs !! index = Some (Some b) →
  Repr.len b + from_option Repr.len 0 agg ≤ MAX_STRING_CODE_UNITS →
  JsString.gather (S fuel) length_ index agg bs =
  JsString.gather fuel length_ (S index) (Some (from_option (node b) b agg)) (<[index := None]> bs).
Proof.
  intros Ha Hle Hb Hm. cbn [JsString.gather]. rewrite Ha. cbn [expect ok_or mbind result_bind].
  destruct (Z.ltb_spec length_ a); [lia|]. rewrite Hb. cbn [expect ok_or mbind result_bind].
  destruct agg as [r|]; simpl in *; [|done]. by rewrite new_rope_node_ok.
Qed.

Lemma gather_stop bs length_ agg fuel index a :
  ROPE_BUCKET_LENGTHS !! S index = Some a → length_ < a →
  JsString.gather (S fuel) length_ index agg bs = Ok (agg, index, bs).
Proof.
  intros Ha Hlt. cbn [JsString.gather]. rewrite Ha. cbn [expect ok_or mbind result_bind].
  by destruct (Z.ltb_spec length_ a); [|lia].
Qed.

(** A short leaf waits in the first bucket. *)
Lemma feed_short i r x : (0 < i < 44)%nat → Repr.len x = 1 →
  feed (only i r) x = Ok (<[0%nat := Some x]> (only i r)).
Proof.
  intros Hi Hx. unfold feed, JsString.is_empty. rewrite Hx. simpl.
  unfold JsString.rebalance_leaf, JsString.bucket_fuel. rewrite Hx.
  rewrite (gather_stop _ _ _ _ _ 2) by done. cbn [mbind result_bind JsString.place].
  by rewrite only_ne by lia.
Qed.

Lemma only_clear i r : (i < 44)%nat → <[i := None]> (only i r) = replicate 44 None.
Proof.
  intros. unfold only. rewrite list_insert_insert_eq. apply list_insert_id. by apply lookup_replicate_2.
Qed.

Lemma only_clear_short i r x : (0 < i < 44)%nat →
  <[0%nat := None]> (<[0%nat := Some x]> (only i r)) = only i r.
Proof. intros. rewrite list_insert_insert_eq. apply list_insert_id. apply only_ne; lia. Qed.

Lemma gather_only i r a b c length_ agg fuel index :
  ROPE_BUCKET_LENGTHS !! i = Some c → ROPE_BUCKET_LENGTHS !! S i = Some a →
  ROPE_BUCKET_LENGTHS !! S (S i) = Some b → a ≤ length_ < b → (index ≤ i)%nat →
  Repr.len r + from_option Repr.len 0 agg ≤ MAX_STRING_CODE_UNITS →
  JsString.gather ((i - index) + S (S fuel)) length_ index agg (only i r)
  = Ok (Some (from_option (node r) r agg), S i, replicate 44 None).
Proof.
  intros Hc Ha Hb Hl Hi Hm.
  assert (i < 44)%nat by (apply lookup_lt_Some in Hc; exact Hc).
  pose proof (bucket_step _ _ _ Hc Ha).
  rewrite (gather_skip _ _ _ i c); [|done|lia|lia|].
  2:{ intros j Hj. apply only_ne; lia. }
  rewrite (gather_take _ _ _ _ _ r a); [|done|lia|by apply only_eq|done].
  rewrite (gather_stop _ _ _ _ _ b) by (done || lia). by rewrite only_clear.
Qed.

(** A leaf one bucket up takes the short leaf and everything below it. *)
Lemma feed_rung (short : option Repr) i r f a : (i < 42)%nat → (is_Some short → 0 < i)%nat →
  ROPE_BUCKET_LENGTHS !! S i = Some a → Repr.len f = a →
  0 ≤ from_option Repr.len 0 short → 0 ≤ Repr.len r →
  Repr.len r + from_option Repr.len 0 short + a ≤ MAX_STRING_CODE_UNITS →
  feed (from_option (λ x, <[0%nat := Some x]> (only i r)) (only i r) short) f
  = Ok (only (S i) (node (from_option (node r) r short) f)).
Proof.
  intros Hi Hi0 Ha Hf Hs Hr Hm. unfold feed, JsString.is_empty, JsString.rebalance_leaf. rewrite Hf.
  assert (1 < a) by (apply (bucket_bounds 0 (S i)); [done|done|lia]).
  destruct (Z.eqb_spec a 0); [lia|].
  destruct (lookup_lt_is_Some_2 ROPE_BUCKET_LENGTHS (S (S i))) as [b Hb].
  { change (length ROPE_BUCKET_LENGTHS) with 44%nat. lia. }
  destruct (lookup_lt_is_Some_2 ROPE_BUCKET_LENGTHS i) as [c Hc].
  { change (length ROPE_BUCKET_LENGTHS) with 44%nat. lia. }
  pose proof (bucket_step _ _ _ Ha Hb).
  assert (JsString.gather JsString.bucket_fuel a 0 None
      (from_option (λ x, <[0%nat := Some x]> (only i r)) (only i r) short)
    = Ok (Some (from_option (node r) r short), S i, replicate 44 None)) as ->.
  { destruct short as [x|]; cbn [from_option] in *.
    - change JsString.bucket_fuel with (S 44).
      rewrite (gather_take _ _ _ _ _ x 2); [|done|lia| |simpl; lia].
      2:{ apply list_lookup_insert_eq. unfold only. rewrite length_insert, length_replicate.
          change (length ROPE_BUCKET_LENGTHS) with 44%nat. lia. }
      assert (0 < i)%nat by (by apply Hi0). rewrite only_clear_short by lia.
      replace 44%nat with ((i - 1) + S (S (43 - i)))%nat at 1 by lia.
      apply (gather_only i r a b c a (Some x)); simpl; (done || lia).
    - replace JsString.bucket_fuel with ((i - 0) + S (S (43 - i)))%nat
        by (change JsString.bucket_fuel with 45%nat; lia).
      apply (gather_only i r a b c a None); simpl; (done || lia). }
  cbn [mbind result_bind]. rewrite new_rope_node_ok.
  2:{ rewrite Hf. destruct short; simpl in *; lia. }
  cbn [lift map_err mbind result_bind]. unfold JsString.bucket_fuel. cbn [JsString.place].
  by rewrite lookup_replicate_2 by lia.
Qed.

Section ladder.
(** A leaf of every length. *)
Context (leaf : Z → Repr)
  (leaf_spec : ∀ n, 0 ≤ n ≤ MAX_STRING_CODE_UNITS →
     wf (leaf n) ∧ Repr.is_leaf (leaf n) = true ∧ Repr.len (leaf n) = n).

Definition fib (i : nat) : Z := default 0 (ROPE_BUCKET_LENGTHS !! i).

(** The lengths of the leaves that lead from bucket [i] upwards, and the string
    they make; a step is [true] when a short leaf precedes its rung. *)
Fixpoint rungs (i : nat) (steps : list bool) : list Z :=
  match steps with
  | [] => []
  | short :: steps => (if short then [1] else []) ++ fib (S i) :: rungs (S i) steps
  end.

Fixpoint climb (i : nat) (r : Repr) (steps : list bool) : Repr :=
  match steps with
  | [] => r
  | short :: steps =>
      climb (S i) (node (if short : bool then node r (leaf 1) else r) (leaf (fib (S i)))) steps
  end.

Lemma left_spine_climb steps : ∀ i r,
  left_spine (climb i r steps) =
  (left_spine r + sum_list_with (λ short : bool, if short then 2 else 1) steps)%nat.
Proof.
  induction steps as [|short steps IH]; intros i r; simpl; [lia|]. rewrite IH.
  destruct short; simpl; lia.
Qed.

Definition sum_Z (l : list Z) : Z := foldr Z.add 0 l.

Lemma feed_ladder steps : ∀ i r, (0 < i)%nat → (i + length steps < 43)%nat → 0 ≤ Repr.len r →
  Forall (λ n, 0 ≤ n) (rungs i steps) → Repr.len r + sum_Z (rungs i steps) ≤ MAX_STRING_CODE_UNITS →
  try_fold feed (only i r) (leaf <$> rungs i steps) = Ok (only (i + length steps) (climb i r steps)).
Proof.
  induction steps as [|short steps IH]; intros i r Hi Hl Hr Hn Hm; [by rewrite Nat.add_0_r|].
  cbn [length] in Hl. cbn [rungs climb length] in *. rewrite Nat.add_succ_r, <- Nat.add_succ_l.
  destruct (lookup_lt_is_Some_2 ROPE_BUCKET_LENGTHS (S i)) as [a Ha].
  { change (length ROPE_BUCKET_LENGTHS) with 44%nat. lia. }
  assert (fib (S i) = a) as Ef by (unfold fib; by rewrite Ha). rewrite Ef in *.
  assert (∀ l, Forall (λ n, 0 ≤ n) l → 0 ≤ sum_Z l) as Hpos.
  { intros l. unfold sum_Z. induction 1; simpl; lia. }
  assert (0 ≤ a ∧ 0 ≤ sum_Z (rungs (S i) steps) ∧ Forall (λ n, 0 ≤ n) (rungs (S i) steps)) as (H0 & H1 & H2).
  { destruct short; simpl in Hn; [apply Forall_cons_1 in Hn as [_ Hn]|];
      apply Forall_cons_1 in Hn as [? ?]; auto. }
  destruct short; cbn [app] in *; rewrite !fmap_cons; cbn [try_fold];
    unfold sum_Z in Hm; cbn [foldr] in Hm; fold (sum_Z (rungs (S i) steps)) in Hm.
  - destruct (leaf_spec 1) as (_ & _ & L1); [by split; [|vm_compute]|].
    destruct (leaf_spec a) as (_ & _ & La); [lia|].
    rewrite feed_short by (done || lia). cbn [mbind result_bind].
    pose proof (feed_rung (Some (leaf 1)) i r (leaf a) a) as Hf. cbn [from_option] in Hf.
    rewrite Hf by (done || lia).
    cbn [mbind result_bind]. apply IH; try lia; try done; simpl; lia.
  - destruct (leaf_spec a) as (_ & _ & La); [lia|].
    pose proof (feed_rung None i r (leaf a) a) as Hf. cbn [from_option] in Hf.
    rewrite Hf by (done || lia || by intros [? ?]).
    cbn [mbind result_bind]. apply IH; try lia; try done; simpl; lia.
Qed.

(** ** Building the ladder with [concat]

    A leaf added in front of a rope whose left child is a rope, then one added
    behind, are kept apart from their neighbours however short they are. *)

Definition left_is_rope (s : Repr) : Prop :=
  ∃ l r, JsString.children s = Some (l, r) ∧ Repr.is_leaf l = false.

Lemma concat_node a b : JsString.is_empty a = false → JsString.is_empty b = false →
  (JsString.is_short_leaf b = true →
     Repr.is_leaf a && (Repr.len a <=? ROPE_SHORT_LEFT_LEN) = false ∧
     ∀ l r, JsString.children a = Some (l, r) → JsString.is_short_leaf r = false) →
  (Repr.is_leaf a = true → ∀ l r, JsString.children b = Some (l, r) → JsString.is_short_leaf l = false) →
  Repr.len a + Repr.len b ≤ MAX_STRING_CODE_UNITS →
  Repr.depth (node a b) ≤ ROPE_MAX_DEPTH → JsString.concat a b = Ok (node a b).
Proof.
  intros Ha Hb Hsb Hla Hm Hd. unfold JsString.concat. rewrite checked_sum_ok by done.
  cbn [lift map_err mbind result_bind]. rewrite Ha, Hb.
  assert (JsString.new_rope a b = Ok (node a b)) as Hn.
  { rewrite new_rope_ok by done. by destruct (Z.ltb_spec ROPE_MAX_DEPTH (Repr.depth (node a b))); [lia|]. }
  destruct (JsString.is_short_leaf b) eqn:Eb.
  - destruct (Hsb eq_refl) as [-> Hr].
    destruct (JsString.children a) as [[l r]|] eqn:Ec; [|done]. by rewrite (Hr l r).
  - destruct (Repr.is_leaf a) eqn:Ea; [|done].
    destruct (JsString.children b) as [[l r]|] eqn:Ec; [|done]. by rewrite (Hla eq_refl l r).
Qed.

Lemma leaf_nonempty n : 1 ≤ n ≤ MAX_STRING_CODE_UNITS → JsString.is_empty (leaf n) = false.
Proof.
  intros Hn. destruct (leaf_spec n) as (_ & _ & Hl); [lia|]. unfold JsString.is_empty. rewrite Hl.
  by destruct (Z.eqb_spec n 0); [lia|].
Qed.

Lemma leaf_leaves r : Repr.is_leaf r = true → leaves r = [r] ∧ Repr.depth r = 0 ∧ JsString.children r = None.
Proof. by destruct r. Qed.

Lemma depth_node a b : 0 ≤ Repr.depth a ≤ 60 → 0 ≤ Repr.depth b ≤ 60 →
  Repr.depth (node a b) = Z.max (Repr.depth a) (Repr.depth b) + 1.
Proof. intros. simpl. unfold JsString.saturating_add_u8. lia. Qed.

Lemma nonempty_len s : 1 ≤ Repr.len s → JsString.is_empty s = false.
Proof. intros. unfold JsString.is_empty. by destruct (Z.eqb_spec (Repr.len s) 0); [lia|]. Qed.

Lemma short_leaf_is_leaf s : Repr.is_leaf s = false → JsString.is_short_leaf s = false.
Proof. intros H. unfold JsString.is_short_leaf. by rewrite H. Qed.

(** What is known of a string under construction. *)
Definition stage (s : Repr) (ls : list Z) (d : Z) : Prop :=
  built s ∧ left_is_rope s ∧ Repr.is_leaf s = false ∧ Repr.depth s = d
  ∧ Repr.len s = sum_Z ls ∧ leaves s = leaf <$> ls.

Lemma sum_Z_app l k : sum_Z (l ++ k) = sum_Z l + sum_Z k.
Proof. unfold sum_Z. induction l as [|x l IH]; simpl; lia. Qed.

Lemma grow_one p q s ls d : stage s ls d → 0 ≤ d ≤ 58 → 1 ≤ p → 1 ≤ q → 1 ≤ sum_Z ls →
  sum_Z (p :: ls ++ [q]) ≤ MAX_STRING_CODE_UNITS → ∃ s', stage s' (p :: ls ++ [q]) (d + 2).
Proof.
  intros (Hb & (l & r & Hc & Hl) & Hnl & Hd & Hlen & Hls) Hd58 Hp Hq Hs Hm.
  unfold sum_Z in Hm. cbn [foldr] in Hm. fold (sum_Z (ls ++ [q])) in Hm.
  rewrite sum_Z_app in Hm. change (sum_Z [q]) with (q + 0) in Hm.
  destruct (leaf_spec p) as (Hwp & Hlp & Lp); [lia|]. destruct (leaf_spec q) as (Hwq & Hlq & Lq); [lia|].
  destruct (leaf_leaves _ Hlp) as (Vp & Dp & _). destruct (leaf_leaves _ Hlq) as (Vq & Dq & Cq).
  assert (Repr.depth (node (leaf p) s) = d + 1) as D1 by (rewrite depth_node by lia; lia).
  assert (JsString.concat (leaf p) s = Ok (node (leaf p) s)) as E1.
  { apply concat_node; [by apply leaf_nonempty; lia|by apply nonempty_len; lia|..].
    - by rewrite short_leaf_is_leaf.
    - intros _ l' r' Hc'. rewrite Hc in Hc'. injection Hc' as <- <-. by apply short_leaf_is_leaf.
    - lia.
    - rewrite D1. unfold ROPE_MAX_DEPTH. lia. }
  assert (Repr.depth (node (node (leaf p) s) (leaf q)) = d + 2) as D2 by (rewrite depth_node; lia).
  assert (JsString.concat (node (leaf p) s) (leaf q) = Ok (node (node (leaf p) s) (leaf q))) as E2.
  { apply concat_node; [by apply nonempty_len; simpl; lia|by apply leaf_nonempty; lia|..].
    - intros _. split; [done|]. intros l' r' [= <- <-]. by apply short_leaf_is_leaf.
    - done.
    - simpl. lia.
    - rewrite D2. unfold ROPE_MAX_DEPTH. lia. }
  exists (node (node (leaf p) s) (leaf q)). split_and!.
  - apply (built_concat (node (leaf p) s) (leaf q)); [|by apply built_leaf|exact E2].
    apply (built_concat (leaf p) s); [by apply built_leaf|exact Hb|exact E1].
  - by eexists _, _.
  - done.
  - done.
  - unfold sum_Z. cbn [foldr]. fold (sum_Z (ls ++ [q])). rewrite sum_Z_app.
    change (sum_Z [q]) with (q + 0). simpl. lia.
  - rewrite fmap_cons, fmap_app, <- Hls. simpl. by rewrite Vp, Vq.
Qed.

Lemma grow_all gs : ∀ s ls d, stage s ls d → 0 ≤ d → d + 2 * len gs ≤ 60 → 1 ≤ sum_Z ls →
  Forall (λ g, 1 ≤ g.1 ∧ 1 ≤ g.2) gs →
  sum_Z (reverse gs.*1 ++ ls ++ gs.*2) ≤ MAX_STRING_CODE_UNITS →
  ∃ s', stage s' (reverse gs.*1 ++ ls ++ gs.*2) (d + 2 * len gs).
Proof.
  induction gs as [|[p q] gs IH]; intros s ls d Hs Hd Hl H1 Hg Hm.
  { exists s. simpl. rewrite app_nil_r. change (len (@nil (Z * Z))) with 0. by rewrite Z.add_0_r. }
  assert (len ((p, q) :: gs) = len gs + 1) as El by (unfold len; simpl; lia). rewrite El in *.
  pose proof (len_nonneg gs). apply Forall_cons_1 in Hg as [[Hp Hq] Hg]. simpl in Hp, Hq.
  rewrite !fmap_cons in *. cbn [fst snd] in *. rewrite reverse_cons in *.
  assert (∀ k : list (Z * Z), reverse k.*1 ++ (p :: ls ++ [q]) ++ k.*2 = (reverse k.*1 ++ [p]) ++ ls ++ q :: k.*2)
    as Eapp by (intros k; by rewrite <- !app_assoc; simpl; rewrite <- app_assoc).
  rewrite <- Eapp in *.
  assert (∀ l : list (Z * Z), Forall (λ g, 1 ≤ g.1 ∧ 1 ≤ g.2) l → 0 ≤ sum_Z (reverse l.*1) ∧ 0 ≤ sum_Z l.*2) as Hpos.
  { induction 1 as [|[a b] l [Ha Hb] _ [IH1 IH2]]; [done|]. rewrite !fmap_cons, reverse_cons, sum_Z_app.
    unfold sum_Z in *. simpl in *. lia. }
  destruct (Hpos gs Hg) as [P1 P2]. rewrite !sum_Z_app in Hm.
  destruct (grow_one p q s ls d) as [s1 Hs1]; try done; try lia.
  destruct (IH s1 (p :: ls ++ [q]) (d + 2) Hs1) as [s' Hs']; [lia|lia| |done| |].
  - change (p :: ls ++ [q]) with ([p] ++ ls ++ [q]). rewrite !sum_Z_app.
    change (sum_Z [p]) with (p + 0). change (sum_Z [q]) with (q + 0). lia.
  - by rewrite !sum_Z_app.
  - exists s'. by replace (d + 2 * (len gs + 1)) with (d + 2 + 2 * len gs) by lia.
Qed.

(** The ladder up to bucket 33: a short leaf before every rung but two, where
    the three long leaves of the core lie side by side. *)
Definition steps : list bool := replicate 14 true ++ [false; false] ++ replicate 16 true.
Definition ladder : list Z := [1; 2] ++ rungs 1 steps.

(** Its cut: 29 leaves, the core, 29 leaves, and three leaves of a second
    string. *)
Definition core : list Z := [fib 15; fib 16; fib 17].
Definition pairs : list (Z * Z) := zip (reverse (take 29 ladder)) (take 29 (drop 32 ladder)).
Definition tail_ : list Z := [fib 32; 1; fib 33].

Lemma ladder_cut : (reverse pairs.*1 ++ core ++ pairs.*2) ++ tail_ = ladder.
Proof. by vm_compute. Qed.

Lemma feed_start : try_fold feed (replicate 44 None) (leaf <$> [1; 2]) = Ok (only 1 (node (leaf 1) (leaf 2))).
Proof.
  destruct (leaf_spec 1) as (_ & _ & L1); [by split; [|vm_compute]|].
  destruct (leaf_spec 2) as (_ & _ & L2); [by split; [|vm_compute]|].
  rewrite !fmap_cons. cbn [try_fold].
  assert (feed (replicate 44 None) (leaf 1) = Ok (only 0 (leaf 1))) as ->.
  { unfold feed, JsString.is_empty, JsString.rebalance_leaf. rewrite L1. simpl Z.eqb.
    change JsString.bucket_fuel with (S 44). rewrite (gather_stop _ _ _ _ _ 2) by done.
    cbn [mbind result_bind JsString.place]. by rewrite lookup_replicate_2 by lia. }
  cbn [mbind result_bind]. pose proof (feed_rung None 0 (leaf 1) (leaf 2) 2) as Hf.
  cbn [from_option] in Hf. rewrite Hf; [done|lia|by intros [? ?]|done|done|lia|lia|].
  rewrite L1. by vm_compute.
Qed.

Lemma merge_only r : try_fold JsString.merge_bucket None (only 33 r) = Ok (Some r).
Proof. reflexivity. Qed.

Lemma try_fold_app {E S A} (f : S → A → result E S) s l k :
  try_fold f s (l ++ k) = (s' ← try_fold f s l; try_fold f s' k).
Proof. revert s. induction l as [|x l IH]; intros s; simpl; [done|]. destruct (f s x); simpl; auto. Qed.

Lemma rebalance_ladder a b : leaves a ++ leaves b = leaf <$> ladder →
  JsString.rebalance a b = Ok (climb 1 (node (leaf 1) (leaf 2)) steps).
Proof.
  intros Hl. unfold JsString.rebalance, JsString.reserve, Prelude.reserve.
  cbn [lift map_err reject_if negb mbind result_bind].
  rewrite walk_feeds by (unfold total_nodes; simpl; lia).
  assert ([a; b] ≫= leaves = leaf <$> [1; 2] ++ rungs 1 steps) as ->.
  { fold ladder. rewrite <- Hl. rewrite !bind_cons. simpl. by rewrite app_nil_r. }
  rewrite fmap_app, try_fold_app. change (length ROPE_BUCKET_LENGTHS) with 44%nat.
  rewrite feed_start. cbn [mbind result_bind].
  destruct (leaf_spec 1) as (_ & _ & L1); [by split; [|vm_compute]|].
  destruct (leaf_spec 2) as (_ & _ & L2); [by split; [|vm_compute]|].
  rewrite feed_ladder.
  - cbn [mbind result_bind]. change (1 + length steps)%nat with 33%nat. by rewrite merge_only.
  - lia.
  - vm_compute. lia.
  - simpl. lia.
  - apply (bool_decide_unpack _). by vm_compute.
  - simpl Repr.len. rewrite L1, L2. by vm_compute.
Qed.

(** Three leaves side by side. *)
Lemma join_three x y z : 1 ≤ x → 1 ≤ y → (ROPE_SHORT_LEN < y ∨ ROPE_SHORT_LEFT_LEN < x) →
  ROPE_SHORT_LEN < z → x + y + z ≤ MAX_STRING_CODE_UNITS → ∃ s, stage s [x; y; z] 2.
Proof.
  intros Hx Hy Hxy Hz Hm.
  assert (0 ≤ ROPE_SHORT_LEN) by done.
  destruct (leaf_spec x) as (Wx & Fx & Lx); [lia|]. destruct (leaf_leaves _ Fx) as (Vx & Dx & Cx).
  destruct (leaf_spec y) as (Wy & Fy & Ly); [lia|]. destruct (leaf_leaves _ Fy) as (Vy & Dy & Cy).
  destruct (leaf_spec z) as (Wz & Fz & Lz); [lia|]. destruct (leaf_leaves _ Fz) as (Vz & Dz & Cz).
  assert (Repr.depth (node (leaf x) (leaf y)) = 1) as D1 by (rewrite depth_node; lia).
  assert (Repr.depth (node (node (leaf x) (leaf y)) (leaf z)) = 2) as D2 by (rewrite depth_node; lia).
  assert (JsString.concat (leaf x) (leaf y) = Ok (node (leaf x) (leaf y))) as E1.
  { apply concat_node; [apply leaf_nonempty; lia..| | | |].
    - intros Hs. unfold JsString.is_short_leaf in Hs. rewrite Ly in Hs. bool_to_prop.
      split; [|intros l r; by rewrite Cx]. rewrite Lx.
      destruct (Z.leb_spec x ROPE_SHORT_LEFT_LEN); [lia|apply andb_false_r].
    - intros _ l r. by rewrite Cy.
    - lia.
    - by rewrite D1. }
  assert (JsString.concat (node (leaf x) (leaf y)) (leaf z) = Ok (node (node (leaf x) (leaf y)) (leaf z))) as E2.
  { apply concat_node; [apply nonempty_len; simpl; lia|apply leaf_nonempty; lia| | | |].
    - intros Hs. unfold JsString.is_short_leaf in Hs. rewrite Lz in Hs. bool_to_prop. lia.
    - done.
    - simpl. lia.
    - by rewrite D2. }
  exists (node (node (leaf x) (leaf y)) (leaf z)). split_and!; try done.
  - apply (built_concat (node (leaf x) (leaf y)) (leaf z)); [|by apply built_leaf|exact E2].
    apply (built_concat (leaf x) (leaf y)); [by apply built_leaf..|exact E1].
  - by eexists _, _.
  - unfold sum_Z. simpl. lia.
  - rewrite !fmap_cons. simpl. by rewrite Vx, Vy, Vz.
Qed.

(** The concatenation of the two halves of the ladder has a left spine that
    the iterator cannot stack. *)
Lemma ladder_escapes : ∃ s, built s ∧ (61 < left_spine s)%nat.
Proof.
  destruct (join_three (fib 15) (fib 16) (fib 17)) as [c Hc];
    [by vm_compute|by vm_compute|by left; vm_compute|by vm_compute|by vm_compute|].
  destruct (join_three (fib 32) 1 (fib 33)) as [b Hb];
    [by vm_compute|by vm_compute|by right; vm_compute|by vm_compute|by vm_compute|].
  destruct (grow_all pairs c core 2 Hc) as [a Ha];
    [lia|by vm_compute|by vm_compute|apply (bool_decide_unpack _); by vm_compute|by vm_compute|].
  change (2 + 2 * len pairs) with 60 in Ha.
  destruct Ha as (Ba & _ & Fa & Da & La & Va), Hb as (Bb & _ & Fb & Db & Lb & Vb).
  exists (climb 1 (node (leaf 1) (leaf 2)) steps). split.
  2:{ rewrite left_spine_climb. change (sum_list_with _ steps) with 62%nat. simpl. lia. }
  apply (built_concat a b); [done..|]. unfold JsString.concat.
  rewrite checked_sum_ok by (rewrite La, Lb; by vm_compute).
  cbn [lift map_err mbind result_bind].
  rewrite !nonempty_len by (rewrite ?La, ?Lb; by vm_compute).
  rewrite short_leaf_is_leaf, Fa by done.
  rewrite new_rope_ok by (rewrite La, Lb; by vm_compute).
  rewrite depth_node, Da, Db by (rewrite ?Da, ?Db; lia).
  apply rebalance_ladder. rewrite Va, Vb, <- fmap_app. exact (f_equal (fmap leaf) ladder_cut).
Qed.
End ladder.

(** ** The counterexample *)

Definition latin1_leaf (n : Z) : Repr := Latin1 (replicate (Z.to_nat n) 97).

Lemma latin1_leaf_spec n : 0 ≤ n ≤ MAX_STRING_CODE_UNITS →
  wf (latin1_leaf n) ∧ Repr.is_leaf (latin1_leaf n) = true ∧ Repr.len (latin1_leaf n) = n.
Proof.
  intros Hn. unfold latin1_leaf. simpl. unfold len. rewrite length_replicate. split_and!; [|lia|done|lia].
  apply Forall_replicate. solve_ints.
Qed.

Lemma built_wf s : built s → wf s.
Proof.
  induction 1 as [s Hs _|a b s _ Ha _ Hb Hc]; [done|].
  pose proof (concat_runs a b Ha Hb) as Hr. case_decide.
  - by eapply runs_Ok in Hr as [? _].
  - by rewrite Hr in Hc.
Qed.

(** The depth bound of ropes is not an invariant of concatenation: on a host
    that never refuses memory, a sequence of concatenations of well-formed
    leaves succeeds with a well-formed string that is too deep for the fixed
    stack of the code-unit iterator, so iterating it panics. *)
Theorem rope_depth_escapes_iterator :
  ∃ s, built s ∧ wf s ∧ ¬ shallow s ∧ panics (JsString.code_units s) = true.
Proof.
  destruct (ladder_escapes latin1_leaf latin1_leaf_spec) as (s & Hb & Hs).
  exists s. split; [done|]. split; [by apply built_wf|].
  assert (panics (JsString.code_units s) = true) as Hp by (by apply deep_panics).
  split; [|done]. intros Hsh. by rewrite code_units_spec in Hp by (done || by apply built_wf).
Qed.
