(* ===== verification/ArrayIndex.v ===== *)
(** * Array indices

    Models [crates/fusor-runtime/src/array_index.rs]: which property keys are
    array indices, and the string of an index. *)

From S2P Require Import Prelude Decimal RuntimePrelude JsStrings JsStringFacts.

Definition MAX_ARRAY_INDEX : Z := u32_max - 1.

(** An index in [0 ..= 2^32 - 2]. *)
Record ArrayIndex : Set := mkArrayIndex { get : Z }.

#[export] Instance ArrayIndex_eq_dec : EqDecision ArrayIndex.
Proof. solve_decision. Defined.

Module ArrayIndex.
Definition new (value : Z) : option ArrayIndex :=
  if value <=? MAX_ARRAY_INDEX then Some (mkArrayIndex value) else None.

Definition is_ascii_digit (unit : Z) : bool := (48 <=? unit) && (unit <=? 57).
Definition decimal_digit (value : Z) : Z := 48 + value mod 10.

(** [for index in 1..len] from [index] with [count] turns to go; [None] is an
    early return. *)
Fixpoint parse_rest {E} (key : Repr) (count : nat) (index value : Z) : outcome E (option Z) :=
  match count with
  | O => Ok (Some value)
  | S count =>
      unit ← JsString.code_unit_at key index;
      match unit with
      | None => Ok None
      | Some unit =>
          if negb (is_ascii_digit unit) then Ok None else
          match (value ← checked_mul_u32 value 10; checked_add_u32 value (unit - 48)) with
          | None => Ok None
          | Some value => parse_rest key count (index + 1) value
          end
      end
  end.

Definition parse_property_key {E} (key : Repr) : outcome E (option ArrayIndex) :=
  let length := Repr.len key in
  if (length =? 0) || (10 <? length) then Ok None else
  first ← JsString.code_unit_at key 0;
  match first with
  | None => Ok None
  | Some first =>
      if first =? 48 then Ok (if length =? 1 then Some (mkArrayIndex 0) else None) else
      if negb (is_ascii_digit first) then Ok None else
      value ← parse_rest key (Z.to_nat (length - 1)) 1 (first - 48);
      Ok (value ≫= new)
  end.

(** The loop that fills [digits] from the back; an index below zero panics. *)
Fixpoint write_digits (fuel : nat) (digits : list Z) (start : nat) (value : Z) :
    outcome JsStringError (list Z * nat) :=
  match fuel with
  | O => Err OutOfFuel
  | S fuel =>
      match start with
      | O => Err Panic
      | S start =>
          let digits := <[start := decimal_digit value]> digits in
          let value := value / 10 in
          if value =? 0 then Ok (digits, start) else write_digits fuel digits start value
      end
  end.

(** The array has ten bytes, which bounds the turns. *)
Definition to_js_string `{Allocator} (self : ArrayIndex) : outcome JsStringError Repr :=
  '(digits, start) ← write_digits 11 (replicate 10 0) 10 (get self);
  lift (JsString.from_latin1 (drop start digits)).
End ArrayIndex.

(** ** Facts *)

Section facts.
Import ArrayIndex.

Lemma is_ascii_digit_spec u : is_ascii_digit u = true ↔ is_digit u.
Proof. unfold is_ascii_digit, is_digit. rewrite andb_true_iff, !Z.leb_le. done. Qed.

(** Reading stops at a non-digit or where the value leaves the [u32] range. *)
Lemma parse_rest_spec {E} key rest : wf key → ∀ pre k, 0 ≤ k ≤ u32_max →
  units key = pre ++ rest →
  parse_rest (E := E) key (length rest) (len pre) k =
  Ok (if decide (Forall is_digit rest ∧ value k rest ≤ u32_max) then Some (value k rest) else None).
Proof.
  intros Hwf. induction rest as [|u rest IH]; intros pre k Hk Hu; cbn [length parse_rest].
  { rewrite decide_True; [done|]. simpl. split; [constructor|lia]. }
  rewrite code_unit_at_spec by (done || apply len_nonneg).
  assert (units key !! Z.to_nat (len pre) = Some u) as ->.
  { rewrite Hu, lookup_app_r by (unfold len; lia). unfold len. by rewrite Nat2Z.id, Nat.sub_diag. }
  cbn [mbind result_bind]. destruct (is_ascii_digit u) eqn:Hd; cbn [negb].
  2:{ rewrite decide_False; [done|]. intros [[Hu' _]%Forall_cons_1 _].
      apply is_ascii_digit_spec in Hu'. congruence. }
  apply is_ascii_digit_spec in Hd.
  destruct (mbind _ _) as [r|] eqn:Hr.
  - assert (r = 10 * k + (u - 48) ∧ 10 * k + (u - 48) ≤ u32_max) as [-> Hle].
    { pose proof (checked_step_Some _ _ _ Hr) as ->. split; [done|].
      unfold checked_mul_u32 in Hr. destruct (k * 10 <=? u32_max); [|done]. simpl in Hr.
      apply checked_add_u32_Some in Hr. lia. }
    unfold is_digit in Hd. specialize (IH (pre ++ [u]) (10 * k + (u - 48))).
    rewrite len_app in IH. change (len [u]) with 1 in IH. rewrite IH; [|lia|by rewrite <- app_assoc].
    f_equal. change (value k (u :: rest)) with (value (10 * k + (u - 48)) rest).
    apply decide_ext. rewrite Forall_cons_iff. unfold is_digit in *. naive_solver lia.
  - rewrite decide_False; [done|]. intros [[_ Hds]%Forall_cons_1 Hv].
    change (value k (u :: rest)) with (value (10 * k + (u - 48)) rest) in Hv. unfold is_digit in Hd.
    pose proof (value_grows rest (10 * k + (u - 48)) ltac:(lia) Hds).
    unfold checked_mul_u32, checked_add_u32 in Hr.
    destruct (Z.leb_spec (k * 10) u32_max); [|lia]. simpl in Hr.
    destruct (Z.leb_spec (k * 10 + (u - 48)) u32_max); [done|lia].
Qed.

(** The number of digits bounds the number from below. *)
Lemma value_lower us : ∀ k, 0 ≤ k → Forall is_digit us → k * 10 ^ len us ≤ value k us.
Proof.
  induction us as [|u us IH]; intros k Hk Hd; [unfold len; simpl; lia|].
  apply Forall_cons_1 in Hd as [Hu Hd]. unfold is_digit in Hu.
  change (value k (u :: us)) with (value (10 * k + (u - 48)) us).
  replace (len (u :: us)) with (Z.succ (len us)) by (unfold len; simpl; lia).
  pose proof (len_nonneg us). rewrite Z.pow_succ_r by done.
  specialize (IH (10 * k + (u - 48)) ltac:(lia) Hd).
  pose proof (Z.pow_pos_nonneg 10 (len us)). nia.
Qed.

Lemma decimal_len n l : decimal n l → n ≤ MAX_ARRAY_INDEX → 1 ≤ len l ≤ 10.
Proof.
  intros Hd Hn. destruct (decimal_shape _ _ Hd) as [[_ ->]|(_ & u & us & -> & Hu & Hus & Hv)];
    [by vm_compute|].
  pose proof (value_lower us (u - 48) ltac:(lia) Hus). pose proof (len_nonneg us).
  replace (len (u :: us)) with (len us + 1) by (unfold len; simpl; lia). split; [lia|].
  destruct (decide (len us ≤ 9)); [lia|].
  pose proof (Z.pow_le_mono_r 10 10 (len us)). unfold MAX_ARRAY_INDEX, u32_max in Hn. nia.
Qed.

Lemma parse_exact {E} key : wf key → ∃ o, parse_property_key (E := E) key = Ok o ∧
  ∀ i, o = Some i ↔ get i ≤ MAX_ARRAY_INDEX ∧ decimal (get i) (units key).
Proof.
  intros Hwf. unfold parse_property_key. rewrite wf_len by done.
  assert (MAX_ARRAY_INDEX = 4294967294) as EM by done.
  destruct ((len (units key) =? 0) || (10 <? len (units key))) eqn:Hl.
  { exists None. split; [done|]. intros i. split; [done|]. intros [Hi Hd].
    pose proof (decimal_len _ _ Hd Hi). apply orb_true_iff in Hl as [?%Z.eqb_eq|?%Z.ltb_lt]; lia. }
  apply orb_false_iff in Hl as [Hl0%Z.eqb_neq Hl10%Z.ltb_ge].
  rewrite code_unit_at_spec by (done || lia). cbn [mbind result_bind].
  destruct (units key) as [|u us] eqn:Hu; [done|]. simpl lookup.
  assert (len (u :: us) = len us + 1) as El by (unfold len; simpl; lia). rewrite El.
  destruct (Z.eqb_spec u 48) as [->|Hne].
  { destruct (Z.eqb_spec (len us + 1) 1) as [E0|].
    - exists (Some (mkArrayIndex 0)). split; [done|].
      assert (us = []) as -> by (apply len_nil_inv; lia). intros [n]. simpl. split.
      + intros [= <-]. split; [lia|]. by apply (Decimal.decimal_digit 0).
      + intros [_ Hd]. f_equal. f_equal.
        destruct (decimal_shape _ _ Hd) as [[-> _]|(_ & u & us & [= <- <-] & ? & _)]; [done|lia].
    - exists None. split; [done|]. intros i. split; [done|]. intros [_ Hd].
      destruct (decimal_shape _ _ Hd) as [[_ [= ->]]|(_ & u & us' & [= <- <-] & ? & _)]; [done|lia]. }
  destruct (is_ascii_digit u) eqn:Hd; cbn [negb].
  2:{ exists None. split; [done|]. intros i. split; [done|]. intros [_ Hdec]. apply not_true_iff_false in Hd.
      rewrite is_ascii_digit_spec in Hd. unfold is_digit in Hd.
      destruct (decimal_shape _ _ Hdec) as [[_ [= ->]]|(_ & v & us' & [= <- <-] & ? & _)]; lia. }
  apply is_ascii_digit_spec in Hd. unfold is_digit in Hd.
  replace (Z.to_nat (len us + 1 - 1)) with (length us) by (unfold len; lia).
  change 1 with (len [u]). rewrite (parse_rest_spec key us Hwf [u]) by (done || (unfold u32_max; lia)).
  cbn [mbind result_bind]. eexists. split; [done|]. intros [n].
  assert (Forall is_digit us → decimal (value (u - 48) us) (u :: us)) as Hdec.
  { intros Hus. apply (decimal_value us (u - 48) [u]); [lia| |done].
    replace [u] with [48 + (u - 48)] by (f_equal; lia). apply Decimal.decimal_digit. lia. }
  case_decide as Hc; simpl.
  - destruct Hc as [Hus Hv]. unfold new. destruct (Z.leb_spec (value (u - 48) us) MAX_ARRAY_INDEX).
    + split; [intros [= <-]; auto|]. intros [_ Hdn]. f_equal. f_equal.
      destruct (decimal_shape _ _ Hdn) as [[_ [= ->]]|(_ & v & us' & [= <- <-] & _ & _ & ?)]; [done|done].
    + split; [done|]. intros [? Hdn].
      destruct (decimal_shape _ _ Hdn) as [[_ [= ->]]|(_ & v & us' & [= <- <-] & _ & _ & ?)]; [done|lia].
  - split; [done|]. intros [Hn Hdn]. destruct Hc.
    destruct (decimal_shape _ _ Hdn) as [[_ [= ->]]|(_ & v & us' & [= <- <-] & _ & ? & ?)]; [done|].
    unfold u32_max. split; [done|lia].
Qed.

Lemma write_digits_spec : ∀ fuel digits start v, (start < fuel)%nat → (start ≤ length digits)%nat →
  (0 < start)%nat → 0 ≤ v < 10 ^ Z.of_nat start → ∃ digits' start' l,
  write_digits fuel digits start v = Ok (digits', start')
  ∧ drop start' digits' = l ++ drop start digits ∧ decimal v l.
Proof.
  induction fuel as [|fuel IH]; intros digits start v Hf Hl Hs Hv; [lia|].
  destruct start as [|start]; [lia|]. cbn [write_digits].
  assert (drop start (<[start := ArrayIndex.decimal_digit v]> digits)
    = ArrayIndex.decimal_digit v :: drop (S start) digits) as Hdrop.
  { rewrite (drop_S _ (ArrayIndex.decimal_digit v) start) by (apply list_lookup_insert_eq; lia).
    by rewrite drop_insert_lt by lia. }
  unfold ArrayIndex.decimal_digit in *. pose proof (Z.mod_pos_bound v 10 ltac:(lia)).
  pose proof (Z.div_mod v 10 ltac:(lia)).
  destruct (Z.eqb_spec (v / 10) 0) as [E0|].
  - eexists _, _, [48 + v mod 10]. split; [done|]. split; [done|].
    replace v with (v mod 10) at 1 by lia. apply Decimal.decimal_digit. lia.
  - rewrite Nat2Z.inj_succ, Z.pow_succ_r in Hv by lia.
    assert (0 < v / 10 < 10 ^ Z.of_nat start) as Hq by (split; [lia|apply Z.div_lt_upper_bound; lia]).
    destruct start as [|start]; [simpl in Hq; lia|].
    destruct (IH (<[S start := 48 + v mod 10]> digits) (S start) (v / 10)) as (ds' & st' & l & Hw & Hd & Hdec);
      [lia|rewrite length_insert; lia|lia|lia|].
    exists ds', st', (l ++ [48 + v mod 10]). split; [done|]. split.
    + rewrite Hd, Hdrop, <- app_assoc. done.
    + replace v with (10 * (v / 10) + v mod 10) at 1 by lia. apply decimal_snoc; [lia|done|lia].
Qed.

Lemma decimal_bytes n l : decimal n l → byte_list l.
Proof.
  induction 1 as [d Hd|n l d _ _ IH Hd].
  - apply Forall_cons_2; [solve_ints|constructor].
  - apply Forall_app. split; [done|]. apply Forall_cons_2; [solve_ints|constructor].
Qed.
End facts.

(** ** Properties *)

(** Array indices and their strings correspond one to one: parsing never
    panics and accepts exactly the canonical decimal spellings of the numbers up
    to 2^32 - 2, whatever the representation of the key; formatting an index
    neither runs off its ten-byte buffer nor fails but for memory, and yields the
    spelling that parses back to it. *)
Theorem array_index_exact `{Allocator} key index :
  wf key → 0 ≤ get index ≤ MAX_ARRAY_INDEX →
  (∃ o, ArrayIndex.parse_property_key (E := Empty_set) key = Ok o ∧
     ∀ i, o = Some i ↔ get i ≤ MAX_ARRAY_INDEX ∧ decimal (get i) (units key))
  ∧ runs (ArrayIndex.to_js_string index) (λ s,
      wf s ∧ decimal (get index) (units s)
      ∧ ArrayIndex.parse_property_key (E := Empty_set) s = Ok (Some index)).
Proof.
  intros Hwf Hi. split; [by apply parse_exact|].
  unfold ArrayIndex.to_js_string. unfold MAX_ARRAY_INDEX, u32_max in Hi.
  destruct (write_digits_spec 11 (replicate 10 0) 10 (get index)) as (ds & st & l & -> & Hd & Hdec);
    [lia|rewrite length_replicate; lia|lia|simpl; lia|].
  cbn [mbind result_bind]. rewrite Hd. change (drop 10 (replicate 10 0)) with (@nil Z).
  rewrite app_nil_r. pose proof (decimal_len _ _ Hdec ltac:(unfold MAX_ARRAY_INDEX, u32_max; lia)) as Hlen.
  assert (MAX_STRING_CODE_UNITS = 1073741823) as EM by done.
  assert (wf (Latin1 l)) as Hw by (split; [by eapply decimal_bytes|lia]).
  unfold JsString.from_latin1, JsString.check_length.
  destruct (Z.ltb_spec MAX_STRING_CODE_UNITS (len l)); [lia|]. cbn [mbind result_bind].
  case_decide as Hnil; [rewrite Hnil in Hlen; by destruct Hlen as [[]]|].
  unfold JsString.reserve, Prelude.reserve, reject_if.
  destruct (try_reserve _ _ _) eqn:Hr; simpl; [|by eexists _, _, _].
  split; [done|]. split; [done|].
  destruct (parse_exact (E := Empty_set) (Latin1 l) Hw) as (o & -> & Ho). f_equal. apply Ho.
  split; [unfold MAX_ARRAY_INDEX, u32_max; lia|done].
Qed.

Lemma array_index_exact_witness :
  ∃ o, ArrayIndex.parse_property_key (E := Empty_set) (Latin1 [52; 48; 57; 54]) = Ok o
    ∧ o = Some (mkArrayIndex 4096).
Proof.
  destruct (@array_index_exact always_allocates (Latin1 [52; 48; 57; 54]) (mkArrayIndex 7))
    as [(o & Ho & _) _].
  - split; [repeat apply Forall_cons_2; try apply Forall_nil_2; solve_ints|vm_compute; discriminate].
  - vm_compute; split; discriminate.
  - exists o. split; [exact Ho|]. vm_compute in Ho. injection Ho as <-. reflexivity.
Defined.
