(* ===== verification/Uri.v ===== *)
(** * URI encoding and decoding

    Models [crates/fusor-runtime/src/vm/uri.rs]: [encodeURI],
    [encodeURIComponent], [decodeURI] and [decodeURIComponent] over exact UTF-16
    code units.  The realm and the stack frame that an exception carries play no
    part; [function.is_component()] is the argument [component]. *)

From S2P Require Import Prelude RuntimePrelude JsStrings JsStringFacts.

(** [NativeFailure], as far as these functions raise it: a [URIError] with its
    message, an error of the string type, or a refused output buffer. *)
Inductive UriFailure : Set :=
| UriError (message : string)
| StringFailure (e : JsStringError)
| OutputAllocationFailed (additional : Z).

Module Uri.
Section with_allocator.
Context `{Allocator}.
(** The lower size hint of [str::encode_utf16]. *)
Context (utf16_hint : list Z → Z).

Definition saturating_add_u32 (a b : Z) : Z := Z.min (a + b) u32_max.

(** [JsStringError] into [NativeFailure], for [?]. *)
Definition string_failure {A} (m : outcome JsStringError A) : outcome UriFailure A :=
  map_err (λ f, match f with
                | Fail e => Fail (StringFailure e)
                | Panic => Panic
                | OutOfFuel => OutOfFuel
                end) m.

(** Building the exception copies its message first. *)
Definition uri_error {A} (message : string) : outcome UriFailure A :=
  let text := ascii_chars message in
  string_failure (JsString.from_utf8 (utf16_hint text) text) ;;
  Err (Fail (UriError message)).

Definition reserve_uri_output (output : list Z) (additional : Z) : outcome UriFailure unit :=
  let requested := saturating_add_u64 (len output) additional in
  if MAX_STRING_CODE_UNITS <? requested
  then Err (Fail (StringFailure (TooLong requested MAX_STRING_CODE_UNITS))) else
  lift (Prelude.reserve "uri output" (len output) additional (OutputAllocationFailed additional)).

Definition push_uri_unit (output : list Z) (unit : Z) : outcome UriFailure (list Z) :=
  reserve_uri_output output 1 ;; Ok (output ++ [unit]).

(** *** Characters *)

Definition is_ascii_alphanumeric (unit : Z) : bool :=
  (48 <=? unit) && (unit <=? 57) || (65 <=? unit) && (unit <=? 90) || (97 <=? unit) && (unit <=? 122).

(** [; / ? : @ & = + $ , #] *)
Definition is_uri_reserved (unit : Z) : bool :=
  existsb (Z.eqb unit)
    [0x3b; 0x2f; 0x3f; 0x3a; 0x40; 0x26; 0x3d; 0x2b; 0x24; 0x2c; 0x23].

(** Alphanumerics, [- _ . ! ~ * ' ( )] and, for whole URIs, the reserved. *)
Definition is_uri_unescaped (unit : Z) (component : bool) : bool :=
  is_ascii_alphanumeric unit
  || existsb (Z.eqb unit) [0x2d; 0x5f; 0x2e; 0x21; 0x7e; 0x2a; 0x27; 0x28; 0x29]
  || negb component && is_uri_reserved unit.

Definition hex_value (unit : Z) : option Z :=
  if (48 <=? unit) && (unit <=? 57) then Some (unit - 48)
  else if (97 <=? unit) && (unit <=? 102) then Some (unit - 97 + 10)
  else if (65 <=? unit) && (unit <=? 70) then Some (unit - 65 + 10)
  else None.

Definition hex_upper (value : Z) : Z := if value <? 10 then 48 + value else 65 + value - 10.

(** The buffer of four octets and how many are used. *)
Definition utf8_octets (code_point : Z) : list Z * nat :=
  if code_point <? 0x80 then ([code_point; 0; 0; 0], 1%nat)
  else if code_point <? 0x800 then
    ([Z.lor 0xc0 (Z.shiftr code_point 6); Z.lor 0x80 (Z.land code_point 0x3f); 0; 0], 2%nat)
  else if code_point <? 0x10000 then
    ([Z.lor 0xe0 (Z.shiftr code_point 12); Z.lor 0x80 (Z.land (Z.shiftr code_point 6) 0x3f);
      Z.lor 0x80 (Z.land code_point 0x3f); 0], 3%nat)
  else
    ([Z.lor 0xf0 (Z.shiftr code_point 18); Z.lor 0x80 (Z.land (Z.shiftr code_point 12) 0x3f);
      Z.lor 0x80 (Z.land (Z.shiftr code_point 6) 0x3f); Z.lor 0x80 (Z.land code_point 0x3f)], 4%nat).

(** *** Encoding *)

(** The escape of one octet. *)
Definition escape_octet (octet : Z) : list Z :=
  [37; hex_upper (Z.shiftr octet 4); hex_upper (Z.land octet 0x0f)].

(** The [for octet in &octets[..count]] block. *)
Definition push_octets (output : list Z) (code_point : Z) : outcome UriFailure (list Z) :=
  let '(octets, count) := utf8_octets code_point in
  reserve_uri_output output (Z.of_nat count * 3) ;;
  Ok (output ++ (take count octets ≫= escape_octet)).

(** The loop over the peekable units; [broken] says that pulling past them
    panics. *)
Fixpoint encode_loop (component broken : bool) (units output : list Z) : outcome UriFailure (list Z) :=
  match units with
  | [] => if broken then Err Panic else Ok output
  | unit :: units' =>
      if is_uri_unescaped unit component then
        output ← push_uri_unit output unit;
        encode_loop component broken units' output
      else if is_low_surrogate unit then uri_error "invalid character"
      else if is_high_surrogate unit then
        match units' with
        | low :: units'' =>
            if is_low_surrogate low then
              output ← push_octets output (combine_surrogates unit low);
              encode_loop component broken units'' output
            else uri_error "expecting surrogate pair"
        | [] => if broken then Err Panic else uri_error "expecting surrogate pair"
        end
      else
        output ← push_octets output unit;
        encode_loop component broken units' output
  end.

Definition encode_uri_text (text : Repr) (component : bool) : outcome UriFailure Repr :=
  reserve_uri_output [] (Repr.len text) ;;
  let units := JsString.code_units text in
  output ← encode_loop component (panics units) (yielded units) [];
  string_failure (JsString.from_code_units (mkUnits output false (len output))).

(** *** Decoding *)

Definition parse_percent_octet (text : Repr) (index : Z) : outcome UriFailure Z :=
  unit ← JsString.code_unit_at text index;
  if negb (bool_decide (unit = Some 37)) then uri_error "expecting %" else
  high ← JsString.code_unit_at text (saturating_add_u32 index 1);
  match high ≫= hex_value with
  | None => uri_error "expecting hex digit"
  | Some high =>
      low ← JsString.code_unit_at text (saturating_add_u32 index 2);
      match low ≫= hex_value with
      | None => uri_error "expecting hex digit"
      | Some low => Ok (Z.lor (Z.shiftl high 4) low)
      end
  end.

Definition push_utf16_code_point (output : list Z) (code_point : Z) : outcome UriFailure (list Z) :=
  if code_point <=? 0xffff then push_uri_unit output code_point else
  let scalar := code_point - 0x10000 in
  reserve_uri_output output 2 ;;
  Ok (output ++ [0xd800 + Z.shiftr scalar 10; 0xdc00 + Z.land scalar 0x3ff]).

(** [first.leading_ones()] *)
Definition leading_ones (octet : Z) : Z :=
  if octet <? 0x80 then 0 else if octet <? 0xc0 then 1 else if octet <? 0xe0 then 2
  else if octet <? 0xf0 then 3 else if octet <? 0xf8 then 4 else if octet <? 0xfc then 5
  else if octet <? 0xfe then 6 else if octet <? 0xff then 7 else 8.

(** [for _ in 1..count]: the continuation octets. *)
Fixpoint continuation (text : Repr) (count : nat) (next code_point : Z) : outcome UriFailure (Z * Z) :=
  match count with
  | O => Ok (next, code_point)
  | S count =>
      unit ← JsString.code_unit_at text next;
      if negb (bool_decide (unit = Some 37)) then uri_error "expecting %" else
      octet ← parse_percent_octet text next;
      if negb (Z.land octet 0xc0 =? 0x80) then uri_error "malformed UTF-8" else
      continuation text count (saturating_add_u32 next 3)
        (Z.lor (Z.shiftl code_point 6) (Z.land octet 0x3f))
  end.

(** One escape that is not an ASCII octet: the position after it and its code
    point. *)
Definition decode_multibyte (text : Repr) (index first : Z) : outcome UriFailure (Z * Z) :=
  let count := leading_ones first in
  if (count =? 1) || (4 <? count) then uri_error "malformed UTF-8" else
  '(code_point, minimum) ←
    (if count =? 2 then Ok (Z.land first 0x1f, 0x80)
     else if count =? 3 then Ok (Z.land first 0x0f, 0x800)
     else if count =? 4 then Ok (Z.land first 0x07, 0x10000)
     else uri_error "malformed UTF-8");
  '(next, code_point) ← continuation text (Z.to_nat (count - 1)) (saturating_add_u32 index 3) code_point;
  if (code_point <? minimum) || (0x10ffff <? code_point)
     || (0xd800 <=? code_point) && (code_point <=? 0xdfff)
  then uri_error "malformed UTF-8" else Ok (next, code_point).

(** The [while index < text.len()] loop; every turn consumes a unit. *)
Fixpoint decode_loop (fuel : nat) (component : bool) (text : Repr) (index : Z) (output : list Z) :
    outcome UriFailure (list Z) :=
  match fuel with
  | O => Err OutOfFuel
  | S fuel =>
      if Repr.len text <=? index then Ok output else
      unit ← JsString.code_unit_at text index;
      unit ← expect unit;
      if negb (unit =? 37) then
        output ← push_uri_unit output unit;
        decode_loop fuel component text (saturating_add_u32 index 1) output
      else
      first ← parse_percent_octet text index;
      if first <? 0x80 then
        output ←
          (if negb component && is_uri_reserved first then
             reserve_uri_output output 3 ;;
             one ← JsString.code_unit_at text (index + 1);
             one ← expect one;
             two ← JsString.code_unit_at text (index + 2);
             two ← expect two;
             Ok (output ++ [37; one; two])
           else push_uri_unit output first);
        decode_loop fuel component text (saturating_add_u32 index 3) output
      else
      '(next, code_point) ← decode_multibyte text index first;
      output ← push_utf16_code_point output code_point;
      decode_loop fuel component text next output
  end.

Definition decode_uri_text (text : Repr) (component : bool) : outcome UriFailure Repr :=
  output ← decode_loop (S (Z.to_nat (Repr.len text))) component text 0 [];
  string_failure (JsString.from_code_units (mkUnits output false (len output))).
End with_allocator.
End Uri.

(** ** Specifications *)

(** The escape [%XY] of an octet, in either case. *)
Definition percent (octet : Z) (us : list Z) : Prop :=
  ∃ h l hi lo, us = [37; h; l] ∧ Uri.hex_value h = Some hi ∧ Uri.hex_value l = Some lo
    ∧ octet = 16 * hi + lo.

Definition escaped (octets : list Z) (us : list Z) : Prop :=
  ∃ ls, Forall2 percent octets ls ∧ us = concat ls.

(** What decoding means: literal units stand for themselves, an escaped
    reserved character stays escaped in a whole URI, and any other escape is
    the UTF-8 coding of one character. *)
Inductive decodes (component : bool) : list Z → list Z → Prop :=
| decodes_nil : decodes component [] []
| decodes_unit u us os : u ≠ 37 → decodes component us os → decodes component (u :: us) (u :: os)
| decodes_reserved o l us os : negb component && Uri.is_uri_reserved o = true → percent o l →
    decodes component us os → decodes component (l ++ us) (l ++ os)
| decodes_char c l us os : is_scalar c → negb component && Uri.is_uri_reserved c = false →
    escaped (utf8_bytes c) l → decodes component us os →
    decodes component (l ++ us) (encode_utf16_char c ++ os).

(** The encoding of one character. *)
Definition encode_char (component : bool) (c : Z) : list Z :=
  if Uri.is_uri_unescaped c component then [c] else utf8_bytes c ≫= Uri.escape_octet.

(** ** Outcomes of the URI functions *)

Section settles.
Context `{Allocator}.

(** [settles m P bad long]: [m] returns a value with [P]; or throws a
    [URIError] and [bad] holds; or reports a string over the length limit and
    [long] holds; or the host refused memory.  It never panics. *)
Definition settles {A} (m : outcome UriFailure A) (P : A → Prop) (bad long : Prop) : Prop :=
  match m with
  | Ok a => P a
  | Err (Fail (UriError _)) => bad
  | Err (Fail (StringFailure (TooLong _ _))) => long
  | Err (Fail (StringFailure (AllocationFailed _))) | Err (Fail (OutputAllocationFailed _)) => refuses
  | Err _ => False
  end.

Lemma settles_bind {A B} (m : outcome UriFailure A) (f : A → outcome UriFailure B) P Q bad' bad long :
  settles m P bad' long → (∀ a, P a → settles (f a) Q bad long) → (bad' → bad) →
  settles (m ≫= f) Q bad long.
Proof. destruct m as [a|[[| [] |]| |]]; simpl; naive_solver. Qed.

Lemma settles_mono {A} (m : outcome UriFailure A) (P Q : A → Prop) bad bad' long :
  settles m P bad' long → (∀ a, P a → Q a) → (bad' → bad) → settles m Q bad long.
Proof. destruct m as [a|[[| [] |]| |]]; simpl; naive_solver. Qed.

Lemma settles_string {A} (m : outcome JsStringError A) P bad long :
  runs m P → settles (Uri.string_failure m) P bad long.
Proof. destruct m as [a|[[]| |]]; simpl; naive_solver. Qed.

Lemma settles_reserve out n bad (long : Prop) : 0 ≤ n → (MAX_STRING_CODE_UNITS < len out + n → long) →
  settles (Uri.reserve_uri_output out n) (λ _, True) bad long.
Proof.
  intros Hn Hl. unfold Uri.reserve_uri_output.
  destruct (Z.ltb_spec MAX_STRING_CODE_UNITS (saturating_add_u64 (len out) n)) as [Hlt|].
  - simpl. apply Hl. unfold saturating_add_u64 in Hlt. lia.
  - unfold Prelude.reserve, reject_if. destruct (try_reserve _ _ _) eqn:E; simpl; [done|].
    by eexists _, _, _.
Qed.

Lemma settles_push out u bad (long : Prop) : (MAX_STRING_CODE_UNITS < len out + 1 → long) →
  settles (Uri.push_uri_unit out u) (λ out', out' = out ++ [u]) bad long.
Proof.
  intros Hl. unfold Uri.push_uri_unit. eapply settles_bind; [by apply settles_reserve| |done].
  by intros [] _.
Qed.
End settles.

(** The contract of [Iterator::size_hint]: a lower bound. *)
Definition hint_contract (hint : list Z → Z) : Prop :=
  ∀ cs, hint cs ≤ len (cs ≫= encode_utf16_char).

Lemma len_hint : hint_contract len.
Proof.
  intros cs. induction cs as [|c cs IH]; [done|]. rewrite bind_cons. unfold len in *. rewrite length_app.
  assert (1 ≤ length (encode_utf16_char c))%nat by (unfold encode_utf16_char; case_match; simpl; lia).
  simpl length. lia.
Qed.

Section facts.
Context `{Allocator} (hint : list Z → Z) (Hhint : hint_contract hint).

Lemma settles_error {A} message (P : A → Prop) (bad long : Prop) :
  len (ascii_chars message ≫= encode_utf16_char) ≤ MAX_STRING_CODE_UNITS → bad →
  settles (Uri.uri_error hint message) P bad long.
Proof.
  intros Hlen Hbad. unfold Uri.uri_error, JsString.from_utf8. eapply settles_bind.
  - apply settles_string. by apply runs_from_code_units.
  - done.
  - instantiate (1 := bad). done.
Qed.

(** ** Octets *)

Lemma hex_value_range u v : Uri.hex_value u = Some v → 0 ≤ v < 16.
Proof. unfold Uri.hex_value. intros H1. repeat case_match; simplify_eq; bool_to_prop; lia. Qed.

Lemma octet_eq hi lo : 0 ≤ hi < 16 → 0 ≤ lo < 16 → Z.lor (Z.shiftl hi 4) lo = 16 * hi + lo.
Proof.
  intros. rewrite Z.shiftl_mul_pow2 by lia. rewrite (lor_tag hi 4) by (simpl; lia). simpl. lia.
Qed.

Lemma percent_inj o o' l l' us us' : percent o l → percent o' l' → l ++ us = l' ++ us' →
  o = o' ∧ l = l' ∧ us = us'.
Proof.
  intros (h & w & hi & lo & -> & Hh & Hw & ->) (h' & w' & hi' & lo' & -> & Hh' & Hw' & ->) E.
  simplify_eq/=. done.
Qed.

Lemma percent_range o l : percent o l → 0 ≤ o < 256.
Proof.
  intros (h & w & hi & lo & -> & Hh%hex_value_range & Hw%hex_value_range & ->). lia.
Qed.

(** Positions are small, so the saturating additions do not saturate. *)
Lemma add_index i k : i ≤ MAX_STRING_CODE_UNITS → 0 ≤ k ≤ 3 → Uri.saturating_add_u32 i k = i + k.
Proof.
  intros Hi Hk. assert (MAX_STRING_CODE_UNITS = 1073741823) by done.
  unfold Uri.saturating_add_u32, u32_max. lia.
Qed.

Definition is_continuation (o : Z) : Prop := 0x80 ≤ o < 0xc0.

Lemma continuation_test o : 0 ≤ o < 256 → (Z.land o 0xc0 =? 0x80) = true ↔ is_continuation o.
Proof.
  intros Ho. pose proof (octets_check (λ o, Bool.eqb (Z.land o 0xc0 =? 0x80) ((0x80 <=? o) && (o <? 0xc0)))
    ltac:(by vm_compute) o Ho) as E. apply eqb_prop in E. rewrite E.
  unfold is_continuation. rewrite andb_true_iff, Z.leb_le, Z.ltb_lt. done.
Qed.

(** Appending six bits to a code point. *)
Definition append_bits (c o : Z) : Z := c * 64 + o mod 64.

Lemma append_bits_eq c o : Z.lor (Z.shiftl c 6) (Z.land o 0x3f) = append_bits c o.
Proof.
  change 0x3f with (Z.ones 6). rewrite land_ones_mod, Z.shiftl_mul_pow2 by lia.
  apply (lor_tag c 6); [lia|]. apply Z.mod_pos_bound. lia.
Qed.

(** The lead octet of a coding of [n] octets, with its field and the least
    code point that needs as many. *)
Definition lead (n : nat) : option (Z * Z) :=
  match n with
  | 2%nat => Some (0x20, 0x80)
  | 3%nat => Some (0x10, 0x800)
  | 4%nat => Some (0x08, 0x10000)
  | _ => None
  end.

Lemma leading_ones_spec first n : 0x80 ≤ first < 256 → (2 ≤ n ≤ 4)%nat →
  Uri.leading_ones first = Z.of_nat n ↔
  (match n with 2%nat => 0xc0 ≤ first < 0xe0 | 3%nat => 0xe0 ≤ first < 0xf0 | _ => 0xf0 ≤ first < 0xf8 end).
Proof.
  intros Hf Hn. unfold Uri.leading_ones.
  assert (n = 2 ∨ n = 3 ∨ n = 4)%nat as [->|[->| ->]] by lia.
  all: repeat case_match; bool_to_prop; lia.
Qed.

(** The code point of a lead octet and its continuation. *)
Lemma utf8_recompose first bs field minimum : 0x80 ≤ first < 256 → Forall is_continuation bs →
  Uri.leading_ones first = Z.of_nat (S (length bs)) → lead (S (length bs)) = Some (field, minimum) →
  let c := foldl append_bits (first mod field) bs in
  minimum ≤ c ≤ 0x10ffff → utf8_bytes c = first :: bs.
Proof.
  intros Hf Hbs Hlo Hlead c Hc.
  assert (2 ≤ S (length bs) ≤ 4)%nat as Hn by (destruct bs as [|? [|? [|? [|]]]]; simpl in *; done || lia).
  apply leading_ones_spec in Hlo; [|done..].
  rewrite utf8_bytes_arith by (destruct bs as [|? [|? [|? [|]]]]; simplify_eq/=; lia).
  subst c. unfold append_bits, is_continuation in *.
  destruct bs as [|b1 [|b2 [|b3 [|]]]]; simplify_eq/=;
    repeat match goal with H : Forall _ (_ :: _) |- _ => apply Forall_cons_1 in H as [? H] end.
  all: repeat case_match; bool_to_prop; try (exfalso; divmod_lia).
  all: repeat (f_equal; [divmod_lia|]); f_equal; try divmod_lia.
Qed.

Lemma utf8_decompose c : 0x80 ≤ c ≤ 0x10ffff → ∃ first bs field minimum,
  utf8_bytes c = first :: bs ∧ 0x80 ≤ first < 256 ∧ Forall is_continuation bs
  ∧ Uri.leading_ones first = Z.of_nat (S (length bs)) ∧ lead (S (length bs)) = Some (field, minimum)
  ∧ foldl append_bits (first mod field) bs = c ∧ minimum ≤ c.
Proof.
  intros Hc. rewrite utf8_bytes_arith by lia. unfold append_bits, is_continuation.
  destruct (Z.ltb_spec c 0x80); [lia|]. repeat case_match; bool_to_prop.
  - exists (0xc0 + c / 64), [0x80 + c mod 64], 0x20, 0x80. split_and!; try done; try divmod_lia.
    + repeat constructor; divmod_lia.
    + apply leading_ones_spec; simpl; divmod_lia.
    + simpl. divmod_lia.
  - eexists _, _, 0x10, 0x800. split_and!; try done; try divmod_lia.
    + repeat constructor; divmod_lia.
    + apply leading_ones_spec; simpl; divmod_lia.
    + simpl. divmod_lia.
  - eexists _, _, 0x08, 0x10000. split_and!; try done; try divmod_lia.
    + repeat constructor; divmod_lia.
    + apply leading_ones_spec; simpl; divmod_lia.
    + simpl. divmod_lia.
Qed.

Section text.
Context (text : Repr) (Hwf : wf text).

Local Notation rest_at := (rest_at text).
Local Notation rest_at_lookup := (rest_at_lookup text Hwf (E := UriFailure)).
Local Notation rest_at_step := (rest_at_step text).
Local Notation rest_at_bound := (rest_at_bound text Hwf).

(** One escaped octet at a position. *)
Lemma settles_percent i S long : rest_at i S →
  settles (Uri.parse_percent_octet hint text i)
    (λ o, ∃ l S', S = l ++ S' ∧ percent o l ∧ len l = 3)
    (¬ ∃ o l S', S = l ++ S' ∧ percent o l) long.
Proof.
  intros HS. pose proof (rest_at_bound _ _ HS). unfold Uri.parse_percent_octet.
  rewrite !add_index by lia.
  rewrite <- (Z.add_0_r i) at 1. rewrite !(rest_at_lookup i S) by (done || lia).
  change (Z.to_nat 0) with 0%nat. change (Z.to_nat 1) with 1%nat. change (Z.to_nat 2) with 2%nat.
  cbn [mbind result_bind].
  destruct S as [|a S]; simpl lookup.
  { rewrite bool_decide_false by done. apply settles_error; [by vm_compute|].
    intros (o & l & S' & E & h & w & hi & lo & -> & _). done. }
  destruct (decide (a = 37)) as [->|Ha].
  2:{ rewrite bool_decide_false by naive_solver. apply settles_error; [by vm_compute|].
      intros (o & l & S' & E & h & w & hi & lo & -> & _). by simplify_eq/=. }
  rewrite bool_decide_true by done. cbn [negb].
  destruct S as [|h S]; simpl.
  { apply settles_error; [by vm_compute|]. intros (o & l & S' & E & h & w & hi & lo & -> & _). done. }
  destruct (Uri.hex_value h) as [hi|] eqn:Hh.
  2:{ apply settles_error; [by vm_compute|].
      intros (o & l & S' & E & h' & w & hi & lo & -> & Hh' & _). simplify_eq/=. }
  destruct S as [|w S]; simpl.
  { apply settles_error; [by vm_compute|]. intros (o & l & S' & E & h' & w & hi' & lo & -> & _). done. }
  destruct (Uri.hex_value w) as [lo|] eqn:Hw.
  2:{ apply settles_error; [by vm_compute|].
      intros (o & l & S' & E & h' & w' & hi' & lo & -> & Hh' & Hw' & _). simplify_eq/=. }
  exists [37; h; w], S. split; [done|]. split; [|done].
  exists h, w, hi, lo. split_and!; [done..|]. apply octet_eq; by eapply hex_value_range.
Qed.

(** The continuation octets at a position. *)
Definition continued (n : nat) (S : list Z) (bs l S' : list Z) : Prop :=
  S = l ++ S' ∧ length bs = n ∧ Forall is_continuation bs ∧ escaped bs l ∧ len l = 3 * Z.of_nat n.

Lemma escaped_nil l : escaped [] l ↔ l = [].
Proof.
  split.
  - by intros (ls & ->%Forall2_nil_inv_l & ->).
  - intros ->. exists []. split; [constructor|done].
Qed.

Lemma escaped_cons o os l : escaped (o :: os) l ↔ ∃ l1 l2, percent o l1 ∧ escaped os l2 ∧ l = l1 ++ l2.
Proof.
  split.
  - intros (ls & (l1 & ls' & H1 & H2 & ->)%Forall2_cons_inv_l & ->). exists l1, (concat ls').
    split; [done|]. split; [by exists ls'|done].
  - intros (l1 & l2 & H1 & (ls & H2 & ->) & ->). exists (l1 :: ls). split; [by constructor|done].
Qed.

Lemma settles_continuation n : ∀ i S c long, rest_at i S →
  settles (Uri.continuation hint text n i c)
    (λ r, ∃ bs l S', continued n S bs l S' ∧ r = (i + len l, foldl append_bits c bs))
    (¬ ∃ bs l S', continued n S bs l S') long.
Proof.
  induction n as [|n IH]; intros i S c long HS; cbn [Uri.continuation].
  { exists [], [], S. split; [|by rewrite Z.add_0_r]. split_and!; try done. by apply escaped_nil. }
  pose proof (settles_percent i S long HS) as Hp. pose proof (rest_at_bound _ _ HS).
  pose proof (rest_at_lookup i S 0 HS ltac:(lia)) as Hu. rewrite Z.add_0_r in Hu. rewrite Hu.
  cbn [mbind result_bind].
  assert ((¬ ∃ o l S', S = l ++ S' ∧ percent o l) → ¬ ∃ bs l S', continued (Datatypes.S n) S bs l S') as Hbad.
  { intros Hno (bs & l & S' & -> & Hb & _ & He & _). destruct bs as [|b bs]; [done|].
    apply escaped_cons in He as (l1 & l2 & Hp1 & _ & ->). apply Hno.
    exists b, l1, (l2 ++ S'). by rewrite <- app_assoc. }
  case_bool_decide as H37; cbn [negb].
  2:{ apply settles_error; [by vm_compute|]. apply Hbad.
      intros (o & l & S' & -> & h & w & hi & lo & -> & _). done. }
  eapply settles_bind; [apply Hp| |exact Hbad].
  intros o (l & S' & -> & Ho & Hl). pose proof (percent_range _ _ Ho) as Hr.
  destruct (Z.eqb (Z.land o 0xc0) 0x80) eqn:Ht; cbn [negb].
  2:{ apply settles_error; [by vm_compute|].
      intros (bs & k & S2 & E & Hb & Hc & He & _). destruct bs as [|b bs]; [done|].
      apply escaped_cons in He as (l1 & l2 & Hp1 & _ & ->). rewrite <- app_assoc in E.
      destruct (percent_inj _ _ _ _ _ _ Ho Hp1 E) as (<- & _ & _). apply Forall_cons_1 in Hc as [Hc _].
      apply continuation_test in Hc; [congruence|done]. }
  apply continuation_test in Ht; [|done]. rewrite add_index, append_bits_eq by lia.
  rewrite <- Hl. eapply settles_mono; [apply IH; by apply rest_at_step| |].
  - intros r (bs & l2 & S2 & (-> & Hlen & Hc & He & Hl2) & ->).
    exists (o :: bs), (l ++ l2), S2. split; [split_and!|].
    + by rewrite app_assoc.
    + simpl. by rewrite Hlen.
    + by constructor.
    + apply escaped_cons. by exists l, l2.
    + rewrite len_app. lia.
    + rewrite len_app. simpl. f_equal. lia.
  - intros Hno (bs & k & S2 & E & Hb & Hc & He & Hk). destruct bs as [|b bs]; [done|].
    apply escaped_cons in He as (l1 & l2 & Hp1 & He & ->). rewrite <- app_assoc in E.
    destruct (percent_inj _ _ _ _ _ _ Ho Hp1 E) as (<- & <- & ->). apply Hno.
    exists bs, l2, S2. apply Forall_cons_1 in Hc as [_ Hc]. rewrite len_app in Hk. simpl in Hb.
    split_and!; try done; lia.
Qed.

Lemma escaped_len os : ∀ l, escaped os l → len l = 3 * len os.
Proof.
  induction os as [|o os IH]; intros l He.
  - by apply escaped_nil in He as ->.
  - apply escaped_cons in He as (l1 & l2 & (h & w & hi & lo & -> & _) & He & ->).
    rewrite len_app, (IH _ He). unfold len. simpl. lia.
Qed.

Lemma escaped_inj bs : ∀ bs' k k' us us', length bs = length bs' → escaped bs k → escaped bs' k' →
  k ++ us = k' ++ us' → bs = bs'.
Proof.
  induction bs as [|b bs IH]; intros [|b' bs'] k k' us us' Hl; simpl in Hl; try done; try lia.
  intros (k1 & k2 & Hp & He & ->)%escaped_cons (k1' & k2' & Hp' & He' & ->)%escaped_cons.
  rewrite <- !app_assoc. intros E. destruct (percent_inj _ _ _ _ _ _ Hp Hp' E) as (-> & _ & E').
  f_equal. eapply IH; [lia|exact He|exact He'|exact E'].
Qed.

(** An escape beyond ASCII. *)
Definition multibyte (S : list Z) (c : Z) (l S' : list Z) : Prop :=
  S = l ++ S' ∧ is_scalar c ∧ 0x80 ≤ c ∧ escaped (utf8_bytes c) l.

Lemma lead_fields first n : Z.of_nat n = Uri.leading_ones first →
  (if Uri.leading_ones first =? 2 then Ok (Z.land first 0x1f, 0x80)
   else if Uri.leading_ones first =? 3 then Ok (Z.land first 0x0f, 0x800)
   else if Uri.leading_ones first =? 4 then Ok (Z.land first 0x07, 0x10000)
   else Uri.uri_error hint "malformed UTF-8")
  = match lead n with
    | Some (field, minimum) => Ok (first mod field, minimum)
    | None => Uri.uri_error hint "malformed UTF-8"
    end.
Proof.
  intros <-. change 0x1f with (Z.ones 5). change 0x0f with (Z.ones 4). change 0x07 with (Z.ones 3).
  rewrite !land_ones_mod by lia.
  destruct (Z.eqb_spec (Z.of_nat n) 2); [by replace n with 2%nat by lia|].
  destruct (Z.eqb_spec (Z.of_nat n) 3); [by replace n with 3%nat by lia|].
  destruct (Z.eqb_spec (Z.of_nat n) 4); [by replace n with 4%nat by lia|].
  destruct n as [|[|[|[|[|]]]]]; simpl; done || lia.
Qed.

Lemma settles_multibyte i first l1 S1 long : rest_at i (l1 ++ S1) → percent first l1 → 0x80 ≤ first →
  settles (Uri.decode_multibyte hint text i first)
    (λ r, ∃ c l S', multibyte (l1 ++ S1) c l S' ∧ r = (i + len l, c))
    (¬ ∃ c l S', multibyte (l1 ++ S1) c l S') long.
Proof.
  intros HS Hfirst Hf. pose proof (rest_at_bound _ _ HS). pose proof (percent_range _ _ Hfirst) as Hr.
  unfold Uri.decode_multibyte.
  assert (∃ n, Z.of_nat n = Uri.leading_ones first) as [n Hn].
  { exists (Z.to_nat (Uri.leading_ones first)). apply Z2Nat.id. unfold Uri.leading_ones. repeat case_match; lia. }
  assert (∀ c l S', multibyte (l1 ++ S1) c l S' → ∃ bs field minimum l2, n = S (length bs)
    ∧ lead n = Some (field, minimum) ∧ continued (n - 1) S1 bs l2 S'
    ∧ foldl append_bits (first mod field) bs = c ∧ minimum ≤ c ∧ l = l1 ++ l2) as Hinv.
  { intros c l S' (E & Hsc & H80 & He).
    destruct (utf8_decompose c) as (f & bs & field & minimum & Hu & Hfr & Hc & Hlo & Hld & Hfold & Hmin).
    { unfold is_scalar in Hsc. lia. }
    rewrite Hu in He. apply escaped_cons in He as (k1 & l2 & Hp1 & He & ->). rewrite <- app_assoc in E.
    destruct (percent_inj _ _ _ _ _ _ Hfirst Hp1 E) as (<- & <- & ->).
    assert (n = S (length bs)) as -> by lia.
    exists bs, field, minimum, l2. split_and!; try done.
    split_and!; try done; [simpl; lia|]. rewrite (escaped_len _ _ He). unfold len. simpl. lia. }
  rewrite (lead_fields first n Hn).
  destruct ((Uri.leading_ones first =? 1) || (4 <? Uri.leading_ones first)) eqn:Hcount.
  { apply settles_error; [by vm_compute|]. intros (c & l & S' & Hm).
    destruct (Hinv _ _ _ Hm) as (bs & field & minimum & l2 & -> & Hld & _).
    rewrite <- Hn in Hcount. destruct bs as [|? [|? [|? [|]]]]; done. }
  destruct (lead n) as [[field minimum]|] eqn:Hlead; cbn [mbind result_bind].
  2:{ apply (settles_bind _ _ (λ _, False) _ True); [by apply settles_error; [by vm_compute|]|done|].
      intros _ (c & l & S' & Hm). destruct (Hinv _ _ _ Hm) as (bs & fd & minimum & l2 & _ & Hld & _). done. }
  assert (2 ≤ n ≤ 4)%nat as Hn24 by (destruct n as [|[|[|[|[|]]]]]; simpl in Hlead; done || lia).
  rewrite add_index by lia. replace (Z.to_nat (Uri.leading_ones first - 1)) with (n - 1)%nat by lia.
  assert (len l1 = 3) as Hl1 by (by destruct Hfirst as (? & ? & ? & ? & -> & _)). rewrite <- Hl1.
  eapply settles_bind; [apply settles_continuation; by apply rest_at_step| |].
  - intros [nx cp] (bs & l2 & S' & (-> & Hlen & Hc & He & Hl2) & [= -> ->]).
    set (c := foldl append_bits (first mod field) bs).
    assert (n = S (length bs)) as -> by lia.
    case_match eqn:Hbad.
    + apply settles_error; [by vm_compute|]. intros (c' & l & S2 & Hm).
      destruct (Hinv _ _ _ Hm) as (bs' & fd & mn & l2' & Hn' & Hld & (E & Hlen' & Hc' & He' & _) & Hfold & Hmin & ->).
      injection Hld as <- <-.
      assert (bs = bs') as <- by (eapply escaped_inj; [lia|exact He|exact He'|exact E]).
      fold c in Hfold. subst c'. destruct Hm as (_ & Hsc & _). unfold is_scalar in Hsc.
      apply orb_true_iff in Hbad as [[?%Z.ltb_lt|?%Z.ltb_lt]%orb_true_iff|[?%Z.leb_le ?%Z.leb_le]%andb_true_iff]; lia.
    + apply orb_false_iff in Hbad as [[Hmin%Z.ltb_ge Hmax%Z.ltb_ge]%orb_false_iff Hsur].
      assert (is_scalar c ∧ 0x80 ≤ c) as [Hsc H80].
      { assert (0x80 ≤ minimum) by (destruct bs as [|? [|? [|? [|]]]]; simpl in Hlead; simplify_eq; lia).
        unfold is_scalar. apply andb_false_iff in Hsur as [?%Z.leb_gt|?%Z.leb_gt]; lia. }
      exists c, (l1 ++ l2), S'. split; [|rewrite len_app; f_equal; lia].
      split; [by rewrite app_assoc|]. split; [done|]. split; [done|].
      assert (utf8_bytes c = first :: bs) as ->
        by (apply (utf8_recompose first bs field minimum); [lia|done|lia|done|split; [exact Hmin|exact Hmax]]).
      apply escaped_cons. by exists l1, l2.
  - intros Hno (c & l & S' & Hm). destruct (Hinv _ _ _ Hm) as (bs & fd & mn & l2 & _ & _ & Hc & _).
    apply Hno. eauto.
Qed.

(** *** Inversions of the specification *)

Lemma utf8_head_ascii c o bs : is_scalar c → utf8_bytes c = o :: bs → o < 0x80 → c = o ∧ bs = [].
Proof.
  intros Hc. destruct (decide (c < 0x80)) as [Hlt|Hge].
  - unfold utf8_bytes. destruct (Z.ltb_spec c 0x80); [|lia]. naive_solver.
  - destruct (utf8_decompose c) as (f & bs' & ? & ? & -> & Hf & _); [unfold is_scalar in Hc; lia|].
    intros [= <- <-] ?. lia.
Qed.

Lemma utf8_ascii c : 0 ≤ c < 0x80 → utf8_bytes c = [c].
Proof. intros. unfold utf8_bytes. by destruct (Z.ltb_spec c 0x80); [|lia]. Qed.

Lemma utf8_cons c : ∃ o bs, utf8_bytes c = o :: bs.
Proof. unfold utf8_bytes. repeat case_match; eauto. Qed.

Lemma percent_head o l : percent o l → ∃ h w, l = [37; h; w].
Proof. intros (h & w & ? & ? & -> & _). eauto. Qed.

Lemma reserved_ascii c : Uri.is_uri_reserved c = true → 0 ≤ c < 0x80.
Proof.
  intros (x & Hin & ->%Z.eqb_eq)%existsb_exists. simpl in Hin. lia.
Qed.

(** A derivation that starts with an escape. *)
Lemma decodes_escape_inv component S os : decodes component (37 :: S) os →
  ∃ o l S', 37 :: S = l ++ S' ∧ percent o l ∧
  ((o < 0x80 ∧ ∃ os', decodes component S' os'
      ∧ os = (if negb component && Uri.is_uri_reserved o then l else [o]) ++ os')
   ∨ (∃ c l' S'' os', multibyte (37 :: S) c l' S'' ∧ decodes component S'' os'
      ∧ os = encode_utf16_char c ++ os')).
Proof.
  inversion 1 as [|u us os' Hu Hd|o l us os' Hres Hp Hd E1 E2|c l us os' Hsc Hnr He Hd E1 E2].
  - done.
  - exists o, l, us. split; [done|]. split; [done|]. left. split.
    + apply andb_true_iff in Hres as [_ Hres%reserved_ascii]. lia.
    + exists os'. by rewrite Hres.
  - destruct (utf8_cons c) as (o & bs & Hu). rewrite Hu in He.
    apply escaped_cons in He as (l1 & l2 & Hp & He & ->). exists o, l1, (l2 ++ us).
    rewrite app_assoc. split; [done|]. split; [done|]. destruct (decide (o < 0x80)) as [Hlt|].
    + left. split; [done|]. destruct (utf8_head_ascii c o bs) as [-> ->]; [done..|].
      apply escaped_nil in He as ->. exists os'. split; [done|].
      rewrite Hnr, encode_utf16_bmp by (unfold is_scalar in Hsc; lia). done.
    + right. exists c, (l1 ++ l2), us, os'. split; [|done]. split; [done|]. split; [done|].
      split; [|by rewrite Hu; apply escaped_cons; eauto].
      destruct (decide (c < 0x80)); [|lia]. rewrite utf8_ascii in Hu by (unfold is_scalar in Hsc; lia).
      naive_solver.
Qed.

Lemma multibyte_unique S c l S' c' l' S'' : multibyte S c l S' → multibyte S c' l' S'' →
  c = c' ∧ S' = S''.
Proof.
  intros (-> & Hc & H80 & He) (E & Hc' & H80' & He').
  destruct (utf8_decompose c) as (f & bs & fd & mn & Hu & _ & _ & Hlo & _); [unfold is_scalar in Hc; lia|].
  destruct (utf8_decompose c') as (f' & bs' & fd' & mn' & Hu' & _ & _ & Hlo' & _); [unfold is_scalar in Hc'; lia|].
  assert (utf8_bytes c = utf8_bytes c') as Eu.
  { rewrite Hu, Hu' in *. apply escaped_cons in He as Hx, He' as Hx'.
    destruct Hx as (k1 & k2 & Hp & He2 & ->), Hx' as (k1' & k2' & Hp' & He2' & ->).
    rewrite <- !app_assoc in E. destruct (percent_inj _ _ _ _ _ _ Hp Hp' E) as (-> & _ & E').
    f_equal. eapply escaped_inj; [lia|exact He2|exact He2'|exact E']. }
  assert (c = c') as <-.
  { apply (utf8_bytes_prefix c c' [] []); [unfold is_scalar in *; lia..|]. by rewrite Eu. }
  split; [done|]. pose proof (escaped_len _ _ He). pose proof (escaped_len _ _ He').
  apply (app_inj_1 l l') in E; [by destruct E|]. unfold len in *. lia.
Qed.

Lemma decodes_nil_inv component os : decodes component [] os → os = [].
Proof.
  inversion 1 as [| |o l us os2 ? (h & w & ? & ? & -> & _)|c l us os2 ? ? He]; [done|].
  destruct (utf8_cons c) as (o & bs & Hc). rewrite Hc in He.
  apply escaped_cons in He as (l1 & l2 & (h & w & ? & ? & -> & _) & _ & ->). by simplify_eq/=.
Qed.

Lemma decodes_unit_inv component u S os : u ≠ 37 → decodes component (u :: S) os →
  ∃ os', os = u :: os' ∧ decodes component S os'.
Proof.
  intros Hu. inversion 1 as [|? ? os2 ? Hd2|o l us os2 ? (h & w & ? & ? & -> & _)|c l us os2 ? ? He].
  - by exists os2.
  - by simplify_eq/=.
  - destruct (utf8_cons c) as (o & bs & Hc). rewrite Hc in He.
    apply escaped_cons in He as (l1 & l2 & (h & w & ? & ? & -> & _) & _ & ->). by simplify_eq/=.
Qed.

Lemma multibyte_not_ascii first l S' c k T : percent first l → first < 0x80 → ¬ multibyte (l ++ S') c k T.
Proof.
  intros Hp Hlt (E & Hsc & H80 & He).
  destruct (utf8_decompose c) as (f & bs & fd & mn & Hu & Hf & _); [unfold is_scalar in Hsc; lia|].
  rewrite Hu in He. apply escaped_cons in He as (k1 & k2 & Hp1 & _ & ->). rewrite <- app_assoc in E.
  destruct (percent_inj _ _ _ _ _ _ Hp Hp1 E) as (-> & _). lia.
Qed.

Lemma not_reserved_beyond_ascii component c : 0x80 ≤ c → negb component && Uri.is_uri_reserved c = false.
Proof.
  intros Hc. apply andb_false_iff. right. apply not_true_iff_false. intros ?%reserved_ascii. lia.
Qed.

Lemma settles_push_char out c bad (long : Prop) : is_scalar c →
  (MAX_STRING_CODE_UNITS < len out + 2 → long) →
  settles (Uri.push_utf16_code_point out c) (λ out', out' = out ++ encode_utf16_char c) bad long.
Proof.
  intros Hc Hl. unfold Uri.push_utf16_code_point, encode_utf16_char.
  case_match; [apply settles_push; intros; apply Hl; lia|].
  eapply settles_bind; [by apply settles_reserve; [lia|]| |done]. by intros [] _.
Qed.

(** What a literal unit, an ASCII escape and a longer escape contribute. *)
Lemma decodes_unit_iff component u S os : u ≠ 37 →
  decodes component ([u] ++ S) os ↔ ∃ os', decodes component S os' ∧ os = [u] ++ os'.
Proof.
  intros Hu. split.
  - intros (os' & -> & ?)%decodes_unit_inv; [|done]. by exists os'.
  - intros (os' & ? & ->). by constructor.
Qed.

Definition ascii_emit (component : bool) (o : Z) (l : list Z) : list Z :=
  if negb component && Uri.is_uri_reserved o then l else [o].

Lemma decodes_ascii_iff component o l S os : percent o l → o < 0x80 →
  decodes component (l ++ S) os ↔ ∃ os', decodes component S os' ∧ os = ascii_emit component o l ++ os'.
Proof.
  intros Hp Ho. destruct (percent_head _ _ Hp) as (h & w & El). split.
  - intros Hd. rewrite El in Hd.
    apply decodes_escape_inv in Hd as (o' & k & T & E & Hk & Hcase).
    assert (37 :: h :: w :: S = l ++ S) as Eq by (by rewrite El). simpl app in *. rewrite Eq in E, Hcase. destruct (percent_inj _ _ _ _ _ _ Hp Hk E) as (<- & <- & <-).
    destruct Hcase as [[_ ?]|(c & k & T & os' & Hm & _)]; [done|].
    by apply (multibyte_not_ascii o) in Hm.
  - intros (os' & Hd & ->). unfold ascii_emit. pose proof (percent_range _ _ Hp).
    destruct (negb component && Uri.is_uri_reserved o) eqn:Hres; [by apply (decodes_reserved component o)|].
    rewrite <- (encode_utf16_bmp o) by lia. apply (decodes_char component o); [unfold is_scalar; lia|done| |done].
    rewrite utf8_ascii by lia. apply escaped_cons. exists l, []. rewrite app_nil_r.
    split; [done|]. by split; [apply escaped_nil|].
Qed.

Lemma decodes_multibyte_inv component o l S os : percent o l → 0x80 ≤ o →
  decodes component (l ++ S) os → ∃ c k T os', multibyte (l ++ S) c k T
    ∧ decodes component T os' ∧ os = encode_utf16_char c ++ os'.
Proof.
  intros Hp Ho. destruct (percent_head _ _ Hp) as (h & w & El). intros Hd. rewrite El in Hd.
  apply decodes_escape_inv in Hd as (o' & k & T & E & Hk & Hcase).
  assert (37 :: h :: w :: S = l ++ S) as Eq by (by rewrite El). simpl app in *. rewrite Eq in E, Hcase. destruct (percent_inj _ _ _ _ _ _ Hp Hk E) as (<- & _).
  destruct Hcase as [[? _]|?]; [lia|done].
Qed.

Lemma decodes_multibyte_iff component o l S c k T os : percent o l → 0x80 ≤ o → multibyte (l ++ S) c k T →
  decodes component (k ++ T) os ↔ ∃ os', decodes component T os' ∧ os = encode_utf16_char c ++ os'.
Proof.
  intros Hp Ho Hm. pose proof Hm as (E & Hsc & H80 & He). split.
  - rewrite <- E. intros (c2 & k2 & T2 & os2 & Hm2 & Hd2 & ->)%(decodes_multibyte_inv _ o); [|done..].
    destruct (multibyte_unique _ _ _ _ _ _ _ Hm Hm2) as [<- <-]. by exists os2.
  - intros (os' & ? & ->). apply decodes_char; [done| |done|done]. by apply not_reserved_beyond_ascii.
Qed.

(** *** The loop *)

(** The output extends [out] by the one decoding of [S]. *)
Definition decoded (component : bool) (S out out' : list Z) : Prop :=
  ∃ os, decodes component S os ∧ (∀ os', decodes component S os' → os' = os)
    ∧ out' = out ++ os ∧ len os ≤ len S.

Lemma settles_advance component l S' emit out m :
  (∀ os, decodes component (l ++ S') os ↔ ∃ os', decodes component S' os' ∧ os = emit ++ os') →
  len emit ≤ len l →
  settles m (decoded component S' (out ++ emit)) (¬ ∃ os, decodes component S' os) False →
  settles m (decoded component (l ++ S') out) (¬ ∃ os, decodes component (l ++ S') os) False.
Proof.
  intros Hiff Hl Hm. eapply settles_mono; [exact Hm| |].
  - intros out' (os & Hd & Huniq & -> & Hlen). exists (emit ++ os). split_and!.
    + apply Hiff. by exists os.
    + intros os' (os2 & Hd2 & ->)%Hiff. f_equal. by apply Huniq.
    + by rewrite app_assoc.
    + rewrite !len_app. lia.
  - intros Hno [os (os' & Hd & _)%Hiff]. apply Hno. by exists os'.
Qed.

Lemma settles_ascii component i o l S' out : rest_at i (l ++ S') → percent o l → o < 0x80 →
  len out ≤ i →
  settles (if negb component && Uri.is_uri_reserved o then
             Uri.reserve_uri_output out 3 ;;
             one ← JsString.code_unit_at text (i + 1); one ← expect one;
             two ← JsString.code_unit_at text (i + 2); two ← expect two;
             Ok (out ++ [37; one; two])
           else Uri.push_uri_unit out o)
    (λ out', out' = out ++ ascii_emit component o l) False False.
Proof.
  intros HS Hp Ho Hout. pose proof HS as (_ & Hlen & _). rewrite len_app in Hlen.
  pose proof (wf_bound _ Hwf). pose proof (len_nonneg S').
  destruct (percent_head _ _ Hp) as (h & w & ->). change (len [37; h; w]) with 3 in Hlen.
  unfold ascii_emit. case_match; [|apply settles_push; lia].
  eapply settles_bind; [apply settles_reserve; lia| |exact (False_ind _)]. intros [] _.
  by rewrite !(rest_at_lookup i ([37; h; w] ++ S')) by (done || lia).
Qed.

Lemma settles_decode_loop component : ∀ fuel i S out, rest_at i S → len out ≤ i → (length S < fuel)%nat →
  settles (Uri.decode_loop hint fuel component text i out) (decoded component S out)
    (¬ ∃ os, decodes component S os) False.
Proof.
  induction fuel as [|fuel IH]; intros i S out HS Hout Hf; [lia|].
  pose proof (rest_at_bound _ _ HS) as Hi. pose proof HS as (Hi0 & Hlen & _).
  pose proof (wf_bound _ Hwf) as Hmax. cbn [Uri.decode_loop]. rewrite wf_len by done.
  destruct (Z.leb_spec (len (units text)) i).
  { assert (S = []) as -> by (apply len_nil_inv; pose proof (len_nonneg S); lia).
    exists []. split; [constructor|]. split; [by apply decodes_nil_inv|]. by rewrite app_nil_r. }
  destruct S as [|u S]; [change (len (@nil Z)) with 0 in Hlen; lia|].
  pose proof (rest_at_lookup i (u :: S) 0 HS ltac:(lia)) as Hu0. rewrite Z.add_0_r in Hu0. rewrite Hu0.
  cbn [mbind result_bind expect ok_or]. simpl lookup. cbn [expect ok_or mbind result_bind].
  destruct (Z.eqb_spec u 37) as [->|Hne]; cbn [negb].
  2:{ pose proof (len_nonneg S). change (u :: S) with ([u] ++ S) in *. rewrite len_app in Hlen.
      change (len [u]) with 1 in Hlen. simpl in Hf.
      eapply settles_bind; [apply settles_push; lia| |exact (False_ind _)].
      intros out' ->. rewrite add_index by lia.
      apply (settles_advance _ [u] S [u]); [intros os; by apply decodes_unit_iff|done|].
      apply IH; [by apply (rest_at_step i [u])|rewrite len_app; change (len [u]) with 1; lia|lia]. }
  eapply settles_bind; [by apply settles_percent| |].
  2:{ intros Hno [os (o & l & S' & E & Hp & _)%decodes_escape_inv]. apply Hno. by exists o, l, S'. }
  intros first (l & S' & HE & Hp & Hl3). rewrite HE in HS, Hf, Hlen |- *.
  rewrite length_app in Hf. rewrite len_app in Hlen.
  pose proof (len_nonneg S'). rewrite !add_index by lia.
  destruct (Z.ltb_spec first 0x80) as [Hlt|Hge].
  - eapply settles_bind; [by eapply settles_ascii|intros out' ->|exact (False_ind _)].
    assert (len (ascii_emit component first l) ≤ 3) by (unfold ascii_emit; case_match; [lia|done]).
    apply (settles_advance _ l S' (ascii_emit component first l));
      [intros os; by apply decodes_ascii_iff|lia|].
    apply IH; [rewrite <- Hl3; by apply rest_at_step|rewrite len_app; lia|unfold len in Hl3; lia].
  - eapply settles_bind; [by apply settles_multibyte| |].
    2:{ intros Hno [os (c & k & T & os' & Hm & _)%(decodes_multibyte_inv _ first)]; [|done..].
        apply Hno. by eexists _, _, _. }
    intros [next c] (c' & k & T & Hm & [= -> ->]). pose proof Hm as (E & Hsc & H80 & He).
    pose proof (escaped_len _ _ He) as Hk. pose proof (f_equal len E) as EL. rewrite !len_app in EL.
    assert (1 ≤ len (utf8_bytes c')) by (destruct (utf8_cons c') as (? & ? & ->); unfold len; simpl; lia).
    pose proof (len_nonneg T).
    assert (len (encode_utf16_char c') ≤ 2) as Hu2 by (unfold encode_utf16_char; by case_match).
    eapply settles_bind; [apply settles_push_char; [done|lia]|intros out' ->|exact (False_ind _)].
    rewrite E in HS |- *.
    apply (settles_advance _ k T (encode_utf16_char c'));
      [intros os; by eapply decodes_multibyte_iff|lia|].
    apply IH; [by apply rest_at_step|rewrite len_app; lia|].
    apply (f_equal length) in E. rewrite !length_app in E. unfold len in *. lia.
Qed.
End text.

(** ** Encoding *)

Lemma utf8_octets_bytes c : take (Uri.utf8_octets c).2 (Uri.utf8_octets c).1 = utf8_bytes c
  ∧ len (utf8_bytes c) = Z.of_nat (Uri.utf8_octets c).2.
Proof. unfold Uri.utf8_octets, utf8_bytes. by repeat case_match. Qed.

Lemma len_escapes os : len (os ≫= Uri.escape_octet) = 3 * len os.
Proof.
  induction os as [|o os IH]; [done|]. rewrite bind_cons, len_app, IH. unfold len. simpl. lia.
Qed.

Lemma settles_push_octets out c bad (long : Prop) :
  (MAX_STRING_CODE_UNITS < len (out ++ (utf8_bytes c ≫= Uri.escape_octet)) → long) →
  settles (Uri.push_octets out c) (λ out', out' = out ++ (utf8_bytes c ≫= Uri.escape_octet)) bad long.
Proof.
  intros Hl. destruct (utf8_octets_bytes c) as [Ht Hc]. unfold Uri.push_octets.
  destruct (Uri.utf8_octets c) as [octets count]. simpl in *. rewrite <- Ht in *.
  eapply settles_bind; [apply settles_reserve; [lia|]| |exact id]; [|by intros [] _].
  rewrite len_app, len_escapes in Hl. intros ?. apply Hl. lia.
Qed.

Lemma unescaped_ascii u component : Uri.is_uri_unescaped u component = true → 0 ≤ u < 0x80 ∧ u ≠ 37.
Proof.
  unfold Uri.is_uri_unescaped, Uri.is_ascii_alphanumeric, Uri.is_uri_reserved. intros Hu.
  apply orb_true_iff in Hu as [[Hu|Hu]%orb_true_iff|Hu].
  - apply orb_true_iff in Hu as [[Hu|Hu]%orb_true_iff|Hu]; bool_to_prop; lia.
  - apply existsb_exists in Hu as (x & Hin & ->%Z.eqb_eq). simpl in Hin. lia.
  - apply andb_true_iff in Hu as [_ Hu]. apply existsb_exists in Hu as (x & Hin & ->%Z.eqb_eq).
    simpl in Hin. lia.
Qed.

Lemma unit_scalar u : is_u16 u → is_scalar u ↔ is_high_surrogate u = false ∧ is_low_surrogate u = false.
Proof.
  intros Hu. rewrite <- !not_true_iff_false, is_high_surrogate_spec, is_low_surrogate_spec.
  unfold is_scalar. unfold_ints. lia.
Qed.

Definition encoded (component : bool) (us : list Z) : list Z :=
  code_points false us ≫= encode_char component.

(** What the loop does with one character, then with the rest. *)
Definition encodes (component : bool) (us out : list Z) (m : outcome UriFailure (list Z)) : Prop :=
  settles m (λ out', Forall is_scalar (code_points false us) ∧ out' = out ++ encoded component us)
    (¬ Forall is_scalar (code_points false us))
    (MAX_STRING_CODE_UNITS < len (out ++ encoded component us)).

Lemma encodes_step component c us us' out push rest :
  code_points false us = c :: code_points false us' → is_scalar c →
  settles push (λ out', out' = out ++ encode_char component c) False
    (MAX_STRING_CODE_UNITS < len (out ++ encode_char component c)) →
  encodes component us' (out ++ encode_char component c) (rest (out ++ encode_char component c)) →
  encodes component us out (push ≫= rest).
Proof.
  intros Hc Hs Hpush Hrest. unfold encodes, encoded in *. rewrite Hc, bind_cons, app_assoc.
  apply (settles_bind _ _ (λ out', out' = out ++ encode_char component c) _ False); [| |done].
  - destruct push as [o|[[m|[]|a]| |]]; simpl in *; try done.
    rewrite len_app. pose proof (len_nonneg (code_points false us' ≫= encode_char component)). lia.
  - simpl. intros out' ->. eapply settles_mono; [exact Hrest| |].
    + intros out' [Hall ->]. split; [by constructor|done].
    + intros Hno Hall. apply Hno. by apply Forall_cons_1 in Hall as [_ ?].
Qed.

Lemma code_points_head us u : is_high_surrogate u = false →
  code_points false (u :: us) = u :: code_points false us.
Proof. intros Hu. cbn [code_points]. by rewrite Hu. Qed.

Lemma unescaped_unit component u : is_u16 u → Uri.is_uri_unescaped u component = true →
  is_scalar u ∧ is_high_surrogate u = false ∧ encode_char component u = [u].
Proof.
  intros Hu Hun. pose proof (unescaped_ascii _ _ Hun).
  assert (is_scalar u) as Hs by (unfold is_scalar; lia). split; [done|].
  split; [by apply unit_scalar in Hs as [? _]|]. unfold encode_char. by rewrite Hun.
Qed.

Lemma escaped_unit component c : Uri.is_uri_unescaped c component = false →
  encode_char component c = utf8_bytes c ≫= Uri.escape_octet.
Proof. intros Hun. unfold encode_char. by rewrite Hun. Qed.

Lemma supplementary_escaped component c : 0x10000 ≤ c → Uri.is_uri_unescaped c component = false.
Proof. intros Hc. apply not_true_iff_false. intros ?%unescaped_ascii. lia. Qed.

Lemma encodes_error component us out message :
  len (ascii_chars message ≫= encode_utf16_char) ≤ MAX_STRING_CODE_UNITS →
  ¬ Forall is_scalar (code_points false us) →
  encodes component us out (Uri.uri_error hint message).
Proof. intros. by apply settles_error. Qed.

Lemma encodes_loop component us : ∀ out, unit_list us →
  encodes component us out (Uri.encode_loop hint component false us out).
Proof.
  induction us as [|u|u v us IH1 IH2] using units_ind; intros out Hus.
  { split; [constructor|]. unfold encoded. simpl. by rewrite app_nil_r. }
  all: apply Forall_cons_1 in Hus as [Hu Hus]; cbn [Uri.encode_loop].
  all: destruct (Uri.is_uri_unescaped u component) eqn:Hun;
    [destruct (unescaped_unit component u Hu Hun) as (Hs & Hh & He);
     eapply (encodes_step component u); [by apply code_points_head|done|
       rewrite He; apply settles_push; by rewrite len_app|rewrite He] |].
  - split; [constructor|]. unfold encoded. simpl. by rewrite app_nil_r.
  - destruct (is_low_surrogate u) eqn:Hl; [|destruct (is_high_surrogate u) eqn:Hh].
    + apply encodes_error; [by vm_compute|]. rewrite code_points_one.
      intros [Hs _]%Forall_cons_1. apply unit_scalar in Hs as [_ ?]; [congruence|done].
    + apply encodes_error; [by vm_compute|]. rewrite code_points_one.
      intros [Hs _]%Forall_cons_1. apply unit_scalar in Hs as [? _]; [congruence|done].
    + eapply (encodes_step component u); [by apply code_points_head|by apply unit_scalar|
        rewrite escaped_unit by done; by apply settles_push_octets|].
      split; [constructor|]. unfold encoded. simpl. by rewrite app_nil_r.
  - by apply IH2.
  - destruct (is_low_surrogate u) eqn:Hl; [|destruct (is_high_surrogate u) eqn:Hh].
    + apply encodes_error; [by vm_compute|]. rewrite code_points_head.
      2:{ apply not_true_iff_false. rewrite is_high_surrogate_spec. apply is_low_surrogate_spec in Hl. lia. }
      intros [Hs _]%Forall_cons_1. apply unit_scalar in Hs as [_ ?]; [congruence|done].
    + destruct (is_low_surrogate v) eqn:Hv.
      * apply Forall_cons_1 in Hus as [_ Hus].
        pose proof Hh as Hh'. pose proof Hv as Hv'. apply is_high_surrogate_spec in Hh'. apply is_low_surrogate_spec in Hv'.
        assert (0x10000 ≤ combine_surrogates u v ≤ 0x10ffff) by (rewrite combine_surrogates_eq; lia).
        eapply (encodes_step component (combine_surrogates u v)); [|unfold is_scalar; lia|
          rewrite escaped_unit by (apply supplementary_escaped; lia); by apply settles_push_octets|by apply IH1].
        rewrite code_points_two. unfold joins. by rewrite Hh, Hv.
      * apply encodes_error; [by vm_compute|]. rewrite code_points_two. unfold joins. rewrite Hh, Hv. simpl andb.
        intros [Hs _]%Forall_cons_1. apply unit_scalar in Hs as [? _]; [congruence|done].
    + eapply (encodes_step component u); [by apply code_points_head|by apply unit_scalar|
        rewrite escaped_unit by done; by apply settles_push_octets|by apply IH2].
Qed.

(** ** The encoding decodes *)

Lemma escape_octet_percent o : 0 ≤ o < 256 → percent o (Uri.escape_octet o).
Proof.
  intros Ho. unfold Uri.escape_octet.
  pose proof (octets_check (λ o, bool_decide
    (Uri.hex_value (Uri.hex_upper (Z.shiftr o 4)) = Some (o / 16)
     ∧ Uri.hex_value (Uri.hex_upper (Z.land o 0x0f)) = Some (o mod 16))) ltac:(by vm_compute) o Ho) as E.
  apply bool_decide_eq_true in E as [E1 E2].
  eexists _, _, _, _. split_and!; [done..|]. apply Z.div_mod. lia.
Qed.

Lemma escapes_escaped os : Forall (λ o, 0 ≤ o < 256) os → escaped os (os ≫= Uri.escape_octet).
Proof.
  induction 1 as [|o os Ho _ IH]; [by apply escaped_nil|]. rewrite bind_cons. apply escaped_cons.
  exists (Uri.escape_octet o), (os ≫= Uri.escape_octet). by split; [apply escape_octet_percent|].
Qed.

Lemma utf8_octet_range c : is_scalar c → Forall (λ o, 0 ≤ o < 256) (utf8_bytes c).
Proof.
  intros Hc. destruct (decide (c < 0x80)) as [Hlt|].
  - rewrite utf8_ascii by (unfold is_scalar in Hc; lia). repeat constructor; unfold is_scalar in Hc; lia.
  - destruct (utf8_decompose c) as (f & bs & ? & ? & -> & Hf & Hbs & _); [unfold is_scalar in Hc; lia|].
    constructor; [lia|]. eapply Forall_impl; [|exact Hbs]. unfold is_continuation. lia.
Qed.

Lemma encoded_decodes component cs : Forall is_scalar cs →
  decodes component (cs ≫= encode_char component) (cs ≫= encode_utf16_char).
Proof.
  induction 1 as [|c cs Hc _ IH]; [constructor|]. rewrite !bind_cons. unfold encode_char at 1.
  destruct (Uri.is_uri_unescaped c component) eqn:Hun.
  - pose proof (unescaped_ascii _ _ Hun) as [? ?]. rewrite encode_utf16_bmp by lia.
    simpl. by apply decodes_unit.
  - apply decodes_char; [done| |by apply escapes_escaped, utf8_octet_range|done].
    unfold Uri.is_uri_unescaped in Hun. by apply orb_false_iff in Hun as [_ ?].
Qed.

(** ** The whole functions *)

Lemma encode_utf16_units c : is_scalar c → unit_list (encode_utf16_char c).
Proof.
  intros Hc. destruct (decide (c < 0x10000)) as [Hlt|Hge].
  - rewrite encode_utf16_bmp by (unfold is_scalar in Hc; lia). repeat constructor; unfold is_scalar in Hc; solve_ints.
  - unfold is_scalar in Hc. destruct (encode_utf16_supplementary c) as (h & l & -> & Hh & Hl & _); [lia|].
    apply is_high_surrogate_spec in Hh. apply is_low_surrogate_spec in Hl. repeat constructor; solve_ints.
Qed.

Lemma decodes_units component us os : decodes component us os → unit_list us → unit_list os.
Proof.
  induction 1 as [|u us os _ _ IH|o l us os _ _ _ IH|c l us os Hc _ _ _ IH]; intros Hu; [done|..].
  - apply Forall_cons_1 in Hu as [? Hus]. apply Forall_cons_2; [done|]. by apply IH.
  - apply Forall_app in Hu as [? ?]. apply Forall_app. split; [done|by apply IH].
  - apply Forall_app in Hu as [_ ?]. apply Forall_app. split; [by apply encode_utf16_units|by apply IH].
Qed.

Lemma settles_leaf us (P : Repr → Prop) bad long : unit_list us → len us ≤ MAX_STRING_CODE_UNITS →
  (∀ r, wf r → shallow r → units r = us → P r) →
  settles (Uri.string_failure (JsString.from_code_units (mkUnits us false (len us)))) P bad long.
Proof.
  intros Hu Hl HP. apply settles_string. eapply runs_mono; [by apply runs_from_code_units|].
  intros r ->. apply HP; [by apply wf_leaf_of|unfold shallow, leaf_of; case_decide; simpl; lia|apply units_leaf_of].
Qed.

Lemma settles_decode text component : wf text →
  settles (Uri.decode_uri_text hint text component)
    (λ r, wf r ∧ decodes component (units text) (units r)
          ∧ ∀ os, decodes component (units text) os → os = units r)
    (¬ ∃ os, decodes component (units text) os) False.
Proof.
  intros Hwf. unfold Uri.decode_uri_text. eapply settles_bind; [eapply settles_decode_loop| |exact id].
  - done.
  - split_and!; [done|by rewrite Z.add_0_l|done].
  - done.
  - rewrite wf_len by done. unfold len. lia.
  - intros out (os & Hd & Hu & -> & Hl). simpl app. pose proof (wf_bound _ Hwf).
    apply settles_leaf; [by eapply decodes_units, wf_units|lia|]. intros r Hr _ ->. auto.
Qed.

Lemma encode_char_units component c : is_scalar c → unit_list (encode_char component c).
Proof.
  intros Hc. unfold encode_char. case_match eqn:Hun.
  - pose proof (unescaped_ascii _ _ Hun). repeat constructor; solve_ints.
  - apply Forall_bind. eapply Forall_impl; [|by apply utf8_octet_range]. intros o Ho.
    pose proof (octets_check (λ o, forallb (λ u, (0 <=? u) && (u <? 128)) (Uri.escape_octet o))
      ltac:(by vm_compute) o Ho) as E.
    rewrite forallb_forall in E. apply Forall_forall. intros u Hin.
    apply E in Hin. bool_to_prop. solve_ints.
Qed.

Lemma settles_encode text component : wf text → shallow text →
  settles (Uri.encode_uri_text hint text component)
    (λ e, wf e ∧ units e = encoded component (units text)
          ∧ Forall is_scalar (code_points false (units text)))
    (¬ Forall is_scalar (code_points false (units text)))
    (MAX_STRING_CODE_UNITS < len (encoded component (units text))).
Proof.
  intros Hwf Hsh. unfold Uri.encode_uri_text. rewrite wf_len by done.
  pose proof (wf_bound _ Hwf). pose proof (len_nonneg (units text)).
  eapply settles_bind; [apply (settles_reserve [] _ False); [done|]| |done].
  { change (len (@nil Z)) with 0. lia. }
  intros [] _. rewrite code_units_spec by done. cbn [panics yielded].
  eapply settles_bind; [apply (encodes_loop component (units text) [] (wf_units _ Hwf))| |exact id].
  intros out [Hall ->]. simpl app.
  destruct (decide (len (encoded component (units text)) ≤ MAX_STRING_CODE_UNITS)) as [Hle|Hgt].
  - apply settles_leaf; [|done|done]. apply Forall_bind. eapply Forall_impl; [|exact Hall].
    intros c Hc. by apply encode_char_units.
  - unfold JsString.from_code_units. cbn [lower_bound].
    destruct (Z.ltb_spec MAX_STRING_CODE_UNITS (len (encoded component (units text)))); [done|lia].
Qed.
End facts.

(** C15. [decodeURI] and [decodeURIComponent] are the decoding relation: on every
    string they return the one text that the string decodes to, throw a
    [URIError] exactly when there is none (a bad escape, an overlong, truncated
    or surrogate UTF-8 sequence), and never overflow the length limit, panic or
    run on. *)
Theorem uri_decode_exact `{Allocator} hint text component : hint_contract hint → wf text →
  settles (Uri.decode_uri_text hint text component)
    (λ r, wf r ∧ decodes component (units text) (units r)
          ∧ ∀ os, decodes component (units text) os → os = units r)
    (¬ ∃ os, decodes component (units text) os) False.
Proof. intros. by apply settles_decode. Qed.

Lemma uri_decode_exact_witness : settles (H := always_allocates)
  (@Uri.decode_uri_text always_allocates len (Latin1 [37; 67; 51; 37; 65; 57]) true)
  (λ r, wf r ∧ decodes true [37; 67; 51; 37; 65; 57] (units r)
        ∧ ∀ os, decodes true [37; 67; 51; 37; 65; 57] os → os = units r)
  (¬ ∃ os, decodes true [37; 67; 51; 37; 65; 57] os) False.
Proof.
  apply (@uri_decode_exact always_allocates len (Latin1 [37; 67; 51; 37; 65; 57]) true).
  - exact len_hint.
  - split; [by repeat constructor|by vm_compute].
Defined.

(** C37. [encodeURI] and [encodeURIComponent] escape the UTF-8 octets of every
    character outside the unescaped set, refuse exactly the strings with a lone
    surrogate, report a too long result only when the encoding is longer than
    a string can be, and the matching decoding of the result returns, and gives
    back the text. *)
Theorem uri_encode_roundtrip `{Allocator} hint text component :
  hint_contract hint → wf text → shallow text →
  settles (Uri.encode_uri_text hint text component)
    (λ e, wf e ∧ units e = encoded component (units text)
          ∧ Forall is_scalar (code_points false (units text))
          ∧ settles (Uri.decode_uri_text hint e component) (λ r, units r = units text) False False)
    (¬ Forall is_scalar (code_points false (units text)))
    (MAX_STRING_CODE_UNITS < len (encoded component (units text))).
Proof.
  intros Hhint Hwf Hsh. eapply settles_mono; [by apply settles_encode| |exact id].
  intros e (He & Hu & Hall). split_and!; [done..|].
  assert (decodes component (units e) (units text)) as Hd.
  { rewrite Hu. rewrite <- (code_points_units (units text) false) at 2 by (by apply wf_units).
    by apply encoded_decodes. }
  eapply settles_mono; [by apply settles_decode| |].
  - intros r (_ & _ & Huniq). symmetry. by apply Huniq.
  - intros Hno. apply Hno. by exists (units text).
Qed.

Lemma uri_encode_roundtrip_witness : settles (H := always_allocates)
  (@Uri.encode_uri_text always_allocates len (Utf16 [0xd83d; 0xde00; 47]) false)
  (λ e, wf e ∧ units e = encoded false [0xd83d; 0xde00; 47]
        ∧ Forall is_scalar (code_points false [0xd83d; 0xde00; 47])
        ∧ settles (H := always_allocates) (@Uri.decode_uri_text always_allocates len e false)
            (λ r, units r = [0xd83d; 0xde00; 47]) False False)
  (¬ Forall is_scalar (code_points false [0xd83d; 0xde00; 47]))
  (MAX_STRING_CODE_UNITS < len (encoded false [0xd83d; 0xde00; 47])).
Proof.
  apply (@uri_encode_roundtrip always_allocates len (Utf16 [0xd83d; 0xde00; 47]) false).
  - exact len_hint.
  - split; [repeat apply Forall_cons_2; try apply Forall_nil_2; solve_ints|].
    split; [apply Exists_cons; left; lia|vm_compute; discriminate].
  - unfold shallow. simpl. lia.
Defined.
