(* ===== verification/Arena.v ===== *)
(** * Generational arenas

    Models [crates/fusor-runtime/src/arena.rs]: the typed storage of every
    runtime record.  Slots carry a generation, vacant slots are linked into a
    free list, a slot whose generation cannot advance is retired.  The marker
    type [K] has no run-time content.

    ArenaFacts.v has the finite map that the operations implement and the
    theorems about them. *)

From S2P Require Import Prelude RuntimePrelude.

(** [Id]; [runtime] is the address in [RuntimeIdentity]. *)
Record Id : Set := mkId { runtime : Z; index : nat; generation : Z }.

#[export] Instance Id_eq_dec : EqDecision Id.
Proof. solve_decision. Defined.

#[export] Instance Id_countable : Countable Id.
Proof.
  refine (inj_countable' (λ id, (runtime id, index id, generation id))
    (λ p, mkId p.1.1 p.1.2 p.2) _). by intros [].
Defined.

Inductive SlotState (T : Type) : Type :=
| Occupied (value : T)
| Vacant (next : option nat)
| Retired.
Arguments Occupied {T} value.
Arguments Vacant {T} next.
Arguments Retired {T}.

Record Slot (T : Type) : Type := mkSlot { slot_generation : Z; state : SlotState T }.
Arguments mkSlot {T} slot_generation state.
Arguments slot_generation {T} s.
Arguments state {T} s.

Record Arena (T : Type) : Type := mkArena {
  arena_runtime : Z;
  slots : list (Slot T);
  free_head : option nat;
  live_len : Z;
  free_len : Z;
  retired_len : Z
}.
Arguments mkArena {T}.
Arguments arena_runtime {T} a.
Arguments slots {T} a.
Arguments free_head {T} a.
Arguments live_len {T} a.
Arguments free_len {T} a.
Arguments retired_len {T} a.

(** [std::collections::TryReserveError] *)
Inductive TryReserveError : Set := tryReserveError.

Module Arena.
Section with_allocator.
Context `{Allocator} {T : Type}.
Implicit Types (a : Arena T) (value : T).

(** [n -= 1] on [usize]: underflow panics. *)
Definition decrement (n : Z) : outcome Empty_set Z := if n =? 0 then Err Panic else Ok (n - 1).

(** [derive(Ord)] written out: the lexicographic order. *)
Definition id_cmp (x y : Id) : comparison :=
  match Z.compare (runtime x) (runtime y) with
  | Eq =>
      match Nat.compare (index x) (index y) with
      | Eq => Z.compare (generation x) (generation y)
      | c => c
      end
  | c => c
  end.

Definition id_from_index a (index : nat) : Id := mkId (arena_runtime a) index 0.

Definition new (runtime : Z) : Arena T := mkArena runtime [] None 0 0 0.

(** The new length of the vector is of no interest, whether it is allowed is. *)
Definition try_reserve a (additional : Z) : result TryReserveError unit :=
  Prelude.reserve "arena" (len (slots a)) (saturating_sub additional (free_len a)) tryReserveError.

(** One turn of the padding loop of [restore_insert]. *)
Definition pad a : Arena T :=
  mkArena (arena_runtime a) (slots a ++ [mkSlot 0 (Vacant (free_head a))])
    (Some (length (slots a))) (live_len a) (free_len a + 1) (retired_len a).

(** [while self.slots.len() < index]; [n] is the distance. *)
Fixpoint pad_to (n : nat) a : Arena T :=
  match n with
  | O => a
  | S n => pad_to n (pad a)
  end.

(** The [while let Some(current) = cursor] walk: [None] when a link leaves the
    vacant slots, else the predecessor and the cursor at the end. *)
Fixpoint unlink_walk (fuel : nat) (slots : list (Slot T)) (index : nat)
    (previous cursor : option nat) : outcome Empty_set (option (option nat * option nat)) :=
  match fuel with
  | O => Err OutOfFuel
  | S fuel =>
      match cursor with
      | None => Ok (Some (previous, cursor))
      | Some current =>
          if (current =? index)%nat then Ok (Some (previous, cursor))
          else match slots !! current with
               | Some (mkSlot _ (Vacant next)) => unlink_walk fuel slots index (Some current) next
               | _ => Ok None
               end
      end
  end.

(** The [match previous] block: the free head and the slots without the link. *)
Definition unlink a (previous next : option nat) : outcome Empty_set (option (option nat * list (Slot T))) :=
  match previous with
  | None => Ok (Some (next, slots a))
  | Some previous =>
      slot ← expect (slots a !! previous);
      match state slot with
      | Vacant _ =>
          Ok (Some (free_head a, <[previous := mkSlot (slot_generation slot) (Vacant next)]> (slots a)))
      | _ => Ok None
      end
  end.

(** [try_reserve] covers the padding; the push of the record itself grows the
    vector infallibly, and a refused growth ends the process. *)
Definition restore_insert a (index : nat) value : outcome Empty_set (Arena T * option Id) :=
  if (length (slots a) <=? index)%nat then
    match Prelude.reserve "arena padding" (len (slots a)) (Z.of_nat index - len (slots a)) tt with
    | Err _ => Ok (a, None)
    | Ok _ =>
        let b := pad_to (index - length (slots a)) a in
        if Prelude.try_reserve "arena record" (len (slots b)) 1 then
          Ok (mkArena (arena_runtime b) (slots b ++ [mkSlot 0 (Occupied value)]) (free_head b)
                (live_len b + 1) (free_len b) (retired_len b),
              Some (mkId (arena_runtime a) index 0))
        else Err Panic
    end
  else
    match slots a !! index with
    | Some (mkSlot _ (Vacant next)) =>
        found ← unlink_walk (S (length (slots a))) (slots a) index None (free_head a);
        match found with
        | None => Ok (a, None)
        | Some (previous, cursor) =>
            if negb (bool_decide (cursor = Some index)) then Ok (a, None) else
            unlinked ← unlink a previous next;
            match unlinked with
            | None => Ok (a, None)
            | Some (head, slots') =>
                _ ← expect (slots' !! index);
                free ← decrement (free_len a);
                Ok (mkArena (arena_runtime a) (<[index := mkSlot 0 (Occupied value)]> slots') head
                      (live_len a + 1) free (retired_len a),
                    Some (mkId (arena_runtime a) index 0))
            end
        end
    | _ => Ok (a, None)
    end.

Definition is_occupied (s : Slot T) : bool := match state s with Occupied _ => true | _ => false end.

Definition is_pristine_prefix a (end_ : nat) : bool :=
  if (length (slots a) <? end_)%nat then false
  else forallb (λ s, (slot_generation s =? 0) && is_occupied s) (take end_ (slots a)).

Definition is_dense_pristine a : bool :=
  (live_len a =? len (slots a)) && is_pristine_prefix a (length (slots a)).

Definition try_insert a value : outcome Empty_set (Arena T * result TryReserveError Id) :=
  match free_head a with
  | Some index =>
      slot ← expect (slots a !! index);
      match state slot with
      | Vacant next =>
          free ← decrement (free_len a);
          Ok (mkArena (arena_runtime a)
                (<[index := mkSlot (slot_generation slot) (Occupied value)]> (slots a)) next
                (live_len a + 1) free (retired_len a),
              Ok (mkId (arena_runtime a) index (slot_generation slot)))
      | _ => Err Panic
      end
  | None =>
      match Prelude.reserve "arena" (len (slots a)) 1 tryReserveError with
      | Err e => Ok (a, Err e)
      | Ok _ =>
          Ok (mkArena (arena_runtime a) (slots a ++ [mkSlot 0 (Occupied value)]) None
                (live_len a + 1) (free_len a) (retired_len a),
              Ok (mkId (arena_runtime a) (length (slots a)) 0))
      end
  end.

(** The slot that an identity selects. *)
Definition checked_slot a (id : Id) : option (Slot T) :=
  if negb (runtime id =? arena_runtime a) then None else
  slot ← slots a !! index id;
  if negb (slot_generation slot =? generation id) then None else Some slot.

Definition get a (id : Id) : option T :=
  slot ← checked_slot a id;
  match state slot with Occupied value => Some value | _ => None end.

Definition contains a (id : Id) : bool := bool_decide (is_Some (get a id)).

(** The value, and the arena after writing through the reference. *)
Definition get_mut a (id : Id) : option (T * (T → Arena T)) :=
  slot ← checked_slot a id;
  match state slot with
  | Occupied value =>
      Some (value, λ value',
        mkArena (arena_runtime a)
          (<[index id := mkSlot (slot_generation slot) (Occupied value')]> (slots a))
          (free_head a) (live_len a) (free_len a) (retired_len a))
  | _ => None
  end.

Definition remove a (id : Id) : outcome Empty_set (Arena T * option T) :=
  match checked_slot a id with
  | None => Ok (a, None)
  | Some slot =>
      match state slot with
      | Occupied value =>
          live ← decrement (live_len a);
          match checked_add_u32 (slot_generation slot) 1 with
          | Some next_generation =>
              Ok (mkArena (arena_runtime a)
                    (<[index id := mkSlot next_generation (Vacant (free_head a))]> (slots a))
                    (Some (index id)) live (free_len a + 1) (retired_len a), Some value)
          | None =>
              Ok (mkArena (arena_runtime a)
                    (<[index id := mkSlot (slot_generation slot) Retired]> (slots a))
                    (free_head a) live (free_len a) (retired_len a + 1), Some value)
          end
      | _ => Ok (a, None)
      end
  end.

(** [Arena::len] *)
Definition live a : Z := live_len a.

(** One entry of [iter]. *)
Definition entry (runtime : Z) (p : nat * Slot T) : option (Id * T) :=
  match state (snd p) with
  | Occupied value => Some (mkId runtime (fst p) (slot_generation (snd p)), value)
  | _ => None
  end.

Definition iter a : list (Id * T) := omap (entry (arena_runtime a)) (enumerate (slots a)).

(** [for (id, value) in arena.iter_mut() { *value = f(id, value) }] *)
Definition iter_mut (f : Id → T → T) a : Arena T :=
  mkArena (arena_runtime a)
    ((λ p, match state (snd p) with
           | Occupied value =>
               mkSlot (slot_generation (snd p))
                 (Occupied (f (mkId (arena_runtime a) (fst p) (slot_generation (snd p))) value))
           | _ => snd p
           end) <$> enumerate (slots a))
    (free_head a) (live_len a) (free_len a) (retired_len a).
End with_allocator.
End Arena.
