(* ===== verification/ArenaFacts.v ===== *)
(** * What the generational arena promises

    The specification of Arena.v is a finite map from live identities to
    values, and an invariant of the slots, the free list and the counters.  The
    operations refine the map; along any run of them an identity is handed out
    at most once and never revives. *)

From S2P Require Import Prelude RuntimePrelude Arena.
From stdpp Require Import list.
Local Open Scope Z_scope.

(** ** The abstraction and the invariant *)

Section facts.
Context `{Allocator} {T : Type}.
Implicit Types (a : Arena T) (value : T) (l : list nat) (ss : list (Slot T)).

(** The finite map that an arena implements. *)
Definition abs a : gmap Id T := list_to_map (Arena.iter a).

Definition is_vacant (s : Slot T) : bool := match state s with Vacant _ => true | _ => false end.
Definition is_retired (s : Slot T) : bool := match state s with Retired => true | _ => false end.

(** The free list starting at [head] visits [l]. *)
Fixpoint chain ss (head : option nat) l : Prop :=
  match l with
  | [] => head = None
  | i :: l => head = Some i ∧ ∃ g next, ss !! i = Some (mkSlot g (Vacant next)) ∧ chain ss next l
  end.

Fixpoint count (p : Slot T → bool) ss : Z :=
  match ss with
  | [] => 0
  | s :: ss => Z.b2z (p s) + count p ss
  end.

(** The free list visits every vacant slot once, and the counters count. *)
Record inv a : Prop := mkInv {
  inv_free : ∃ l, chain (slots a) (free_head a) l ∧ NoDup l
    ∧ (∀ i, i ∈ l ↔ ∃ s, slots a !! i = Some s ∧ is_vacant s = true)
    ∧ free_len a = len l;
  inv_live : live_len a = count Arena.is_occupied (slots a);
  inv_retired : retired_len a = count is_retired (slots a);
  inv_generation : Forall (λ s, is_u32 (slot_generation s)) (slots a)
}.

(** ** Counting *)

Lemma count_app p ss ss' : count p (ss ++ ss') = count p ss + count p ss'.
Proof. induction ss as [|s ss IH]; simpl; [done|]. rewrite IH. lia. Qed.

Lemma count_nonneg p ss : 0 ≤ count p ss.
Proof. induction ss as [|s ss IH]; simpl; [done|]. destruct (p s); simpl; lia. Qed.

Lemma count_insert p ss i s s' : ss !! i = Some s →
  count p (<[i := s']> ss) = count p ss - Z.b2z (p s) + Z.b2z (p s').
Proof.
  revert i. induction ss as [|x ss IH]; intros [|i] Hi; simplify_eq/=; [lia|]. rewrite (IH i) by done. lia.
Qed.

Lemma count_pos p ss i s : ss !! i = Some s → p s = true → 0 < count p ss.
Proof.
  revert i. induction ss as [|x ss IH]; intros [|i] Hi Hp; simplify_eq/=.
  - rewrite Hp. pose proof (count_nonneg p ss). simpl. lia.
  - pose proof (IH i Hi Hp). destruct (p x); simpl; lia.
Qed.

(** ** Chains *)

Lemma chain_insert_other ss i s l : ∀ head, i ∉ l → chain ss head l → chain (<[i := s]> ss) head l.
Proof.
  induction l as [|j l IH]; intros head Hi; [done|]. intros (-> & g & n & Hj & Hc).
  apply not_elem_of_cons in Hi as [Hne Hi]. split; [done|]. exists g, n.
  split; [by rewrite list_lookup_insert_ne|by apply IH].
Qed.

Lemma chain_app ss ss' l : ∀ head, chain ss head l → chain (ss ++ ss') head l.
Proof.
  induction l as [|j l IH]; intros head; [done|]. intros (-> & g & n & Hj & Hc).
  split; [done|]. exists g, n. split; [by apply lookup_app_l_Some|by apply IH].
Qed.

Lemma chain_bound ss l : ∀ head, chain ss head l → Forall (λ i, (i < length ss)%nat) l.
Proof.
  induction l as [|j l IH]; intros head; [constructor|]. intros (-> & g & n & Hj & Hc).
  constructor; [by eapply lookup_lt_Some|by eapply IH].
Qed.

(** A chain is no longer than the vector. *)
Lemma chain_length ss head l : chain ss head l → NoDup l → (length l ≤ length ss)%nat.
Proof.
  intros Hc Hn. apply chain_bound in Hc.
  rewrite <- (length_seq (length ss) 0). apply submseteq_length, NoDup_submseteq; [done|].
  intros i Hi. eapply Forall_forall in Hc; [|done]. apply elem_of_seq. lia.
Qed.

(** The last member of [l], or [previous]. *)
Fixpoint before (previous : option nat) l : option nat :=
  match l with
  | [] => previous
  | i :: l => before (Some i) l
  end.

Lemma before_snoc previous l i : before previous (l ++ [i]) = Some i.
Proof. revert previous. induction l as [|j l IH]; intros previous; [done|]. apply IH. Qed.

Lemma unlink_walk_spec ss i l1 l2 : ∀ fuel previous head,
  (length l1 < fuel)%nat → i ∉ l1 → chain ss head (l1 ++ i :: l2) →
  Arena.unlink_walk fuel ss i previous head = Ok (Some (before previous l1, Some i)).
Proof.
  induction l1 as [|j l1 IH]; intros [|fuel] previous head Hf Hi; try (simpl in Hf; lia).
  - intros (-> & _). cbn [Arena.unlink_walk]. by rewrite Nat.eqb_refl.
  - intros (-> & g & n & Hj & Hc). apply not_elem_of_cons in Hi as [Hne Hi]. simpl in Hf.
    cbn [Arena.unlink_walk]. destruct (Nat.eqb_spec j i); [congruence|]. rewrite Hj.
    apply IH; [lia|done|done].
Qed.

(** Linking past [i]. *)
Lemma chain_relink ss i g next p gp np l0 l2 : ∀ head,
  ss !! i = Some (mkSlot g (Vacant next)) → ss !! p = Some (mkSlot gp (Vacant np)) →
  NoDup (l0 ++ p :: i :: l2) → chain ss head (l0 ++ p :: i :: l2) →
  chain (<[p := mkSlot gp (Vacant next)]> ss) head (l0 ++ p :: l2).
Proof.
  induction l0 as [|j l0 IH]; intros head Hi Hp Hn.
  - intros (-> & ? & ? & Hp' & -> & ? & ? & Hi' & Hc). simplify_eq. split; [done|].
    exists gp, next. split; [apply list_lookup_insert_eq; by eapply lookup_lt_Some|].
    apply chain_insert_other; [|done]. apply NoDup_cons in Hn as [Hn _]. intros Hin. apply Hn.
    by apply list_elem_of_further.
  - intros (-> & g' & n' & Hj & Hc). simpl in Hn. apply NoDup_cons in Hn as [Hj0 Hn].
    split; [done|]. exists g', n'. split; [|by apply IH].
    rewrite list_lookup_insert_ne; [done|]. intros ->. apply Hj0, elem_of_app. right. apply list_elem_of_here.
Qed.

(** The slots after unlinking: the same up to the links of vacant slots. *)
Definition relinked ss ss' : Prop :=
  Forall2 (λ s s', s' = s ∨ ∃ g n n', s = mkSlot g (Vacant n) ∧ s' = mkSlot g (Vacant n')) ss ss'.

Lemma relinked_refl ss : relinked ss ss.
Proof. induction ss; constructor; auto. Qed.

Lemma relinked_insert ss p g n n' : ss !! p = Some (mkSlot g (Vacant n)) →
  relinked ss (<[p := mkSlot g (Vacant n')]> ss).
Proof.
  revert p. induction ss as [|s ss IH]; intros [|p] Hp; simplify_eq/=; constructor; auto.
  - right. eauto.
  - apply relinked_refl.
  - by apply IH.
Qed.

Lemma relinked_count p ss ss' : relinked ss ss' →
  (∀ g n n', p (mkSlot g (Vacant n)) = p (mkSlot g (Vacant n'))) → count p ss' = count p ss.
Proof.
  intros Hr Hp. induction Hr as [|s s' ss ss' [->|(g & n & n' & -> & ->)] _ IH]; simpl; [done|lia|].
  rewrite (Hp g n' n). lia.
Qed.

(** Taking [i] out of the chain. *)
Lemma unlink_spec a i g next l1 l2 : chain (slots a) (free_head a) (l1 ++ i :: l2) →
  NoDup (l1 ++ i :: l2) → slots a !! i = Some (mkSlot g (Vacant next)) →
  ∃ head ss', Arena.unlink a (before None l1) next = Ok (Some (head, ss'))
    ∧ chain ss' head (l1 ++ l2) ∧ relinked (slots a) ss' ∧ ss' !! i = slots a !! i.
Proof.
  intros Hc Hn Hi. destruct (decide (l1 = [])) as [->|Hne].
  - destruct Hc as (Hh & g' & n' & Hi' & Hc). simplify_eq/=. eexists _, (slots a).
    split_and!; [done|done|apply relinked_refl|done].
  - destruct (exists_last Hne) as (l0 & p & ->). rewrite before_snoc. rewrite <- app_assoc in Hc, Hn.
    simpl in Hc, Hn.
    assert (∃ gp np, slots a !! p = Some (mkSlot gp (Vacant np))) as (gp & np & Hp).
    { revert Hc. generalize (free_head a). clear. induction l0 as [|j l0 IH]; intros head.
      - intros (-> & g & n & Hp & _). eauto.
      - intros (-> & g & n & _ & Hc). by eapply IH. }
    unfold Arena.unlink. rewrite Hp. simpl. eexists _, _. split; [done|]. split_and!.
    + rewrite <- app_assoc. by eapply chain_relink.
    + by eapply relinked_insert.
    + apply list_lookup_insert_ne. intros ->. apply NoDup_app in Hn as (_ & _ & Hn).
      apply NoDup_cons in Hn as [Hn _]. apply Hn, list_elem_of_here.
Qed.

(** ** Identities and the map *)

Lemma get_Some a id v : Arena.get a id = Some v ↔
  runtime id = arena_runtime a ∧ slots a !! index id = Some (mkSlot (generation id) (Occupied v)).
Proof.
  unfold Arena.get, Arena.checked_slot. destruct (Z.eqb_spec (runtime id) (arena_runtime a)); simpl; [|naive_solver].
  destruct (slots a !! index id) as [[g st]|]; simpl; [|naive_solver].
  destruct (Z.eqb_spec g (generation id)); simpl; [|naive_solver].
  subst g. destruct st; naive_solver.
Qed.

Lemma checked_slot_Some a id s : Arena.checked_slot a id = Some s ↔
  runtime id = arena_runtime a ∧ slots a !! index id = Some s ∧ slot_generation s = generation id.
Proof.
  unfold Arena.checked_slot. destruct (Z.eqb_spec (runtime id) (arena_runtime a)); simpl; [|naive_solver].
  destruct (slots a !! index id) as [s'|]; simpl; [|naive_solver].
  destruct (Z.eqb_spec (slot_generation s') (generation id)); simpl; naive_solver.
Qed.

Lemma elem_of_enumerate ss i s : ∀ n,
  (i, s) ∈ enumerate_from n ss ↔ (n ≤ i)%nat ∧ ss !! (i - n)%nat = Some s.
Proof.
  induction ss as [|x ss IH]; intros n; cbn [enumerate_from].
  - rewrite elem_of_nil, lookup_nil. naive_solver.
  - rewrite elem_of_cons, IH. split.
    + intros [[= -> ->]|[Hle Hl]]; [rewrite Nat.sub_diag; auto|]. split; [lia|].
      by replace (i - n)%nat with (S (i - S n)) by lia.
    + intros [Hle Hl]. destruct (decide (i = n)) as [->|].
      * rewrite Nat.sub_diag in Hl. simplify_eq/=. by left.
      * right. split; [lia|]. by replace (i - n)%nat with (S (i - S n)) in Hl by lia.
Qed.

Lemma elem_of_iter a id v : (id, v) ∈ Arena.iter a ↔ Arena.get a id = Some v.
Proof.
  unfold Arena.iter. rewrite list_elem_of_omap, get_Some. split.
  - intros ([i s] & Hin%elem_of_enumerate & He). unfold Arena.entry in He. simpl in He.
    rewrite Nat.sub_0_r in Hin. destruct s as [g [v'| |]]; simplify_eq/=. naive_solver.
  - intros [Hr Hl]. exists (index id, mkSlot (generation id) (Occupied v)).
    split; [apply elem_of_enumerate; by rewrite Nat.sub_0_r; split; [lia|]|].
    unfold Arena.entry. simpl. rewrite <- Hr. by destruct id.
Qed.

(** [iter] visits the live identities in the order of their indices. *)
Lemma iter_sorted rt ss : ∀ n, Sorted lt (index ∘ fst <$> omap (Arena.entry rt) (enumerate_from n ss))
  ∧ Forall (λ i, (n ≤ i)%nat) (index ∘ fst <$> omap (Arena.entry rt) (enumerate_from n ss)).
Proof.
  induction ss as [|s ss IH]; intros n; [repeat constructor|]. cbn [enumerate_from omap list_omap].
  destruct (IH (S n)) as [Hs Hf].
  assert (Forall (λ i, (n ≤ i)%nat) (index ∘ fst <$> omap (Arena.entry rt) (enumerate_from (S n) ss)))
    by (eapply Forall_impl; [exact Hf|]; simpl; lia).
  destruct (Arena.entry rt (n, s)) as [[id v]|] eqn:E; [|done].
  assert (index id = n) as Hid by (unfold Arena.entry in E; destruct (state _) in E; by simplify_eq/=).
  cbn [fmap list_fmap compose fst]. rewrite Hid. split; [|by constructor].
  constructor; [done|]. destruct (_ <$> _) as [|i l]; constructor. by apply Forall_cons in Hf as [? _].
Qed.

Lemma iter_NoDup a : NoDup (Arena.iter a).*1.
Proof.
  destruct (iter_sorted (arena_runtime a) (slots a) 0) as [Hs _].
  apply Sorted_StronglySorted in Hs; [|intros x y z; lia].
  rewrite list_fmap_compose in Hs. change (omap _ _) with (Arena.iter a) in Hs.
  revert Hs. induction (Arena.iter a).*1 as [|id l IH]; intros Hs; [constructor|].
  inversion Hs as [|? ? Hs' Hf]; subst. constructor; [|auto]. intros Hin.
  rewrite Forall_fmap, Forall_forall in Hf. specialize (Hf _ Hin). simpl in Hf. lia.
Qed.

Lemma abs_lookup a id : abs a !! id = Arena.get a id.
Proof.
  apply option_eq. intros v. unfold abs.
  rewrite <- elem_of_list_to_map by apply iter_NoDup. apply elem_of_iter.
Qed.

Lemma abs_size a : size (abs a) = length (Arena.iter a).
Proof.
  apply map_size_list_to_map, iter_NoDup.
Qed.

Lemma iter_count rt ss : ∀ n, len (omap (Arena.entry rt) (enumerate_from n ss)) = count Arena.is_occupied ss.
Proof.
  induction ss as [|[g st] ss IH]; intros n; [done|]. cbn [enumerate_from omap list_omap count].
  rewrite <- (IH (S n)). unfold Arena.entry at 1, Arena.is_occupied. simpl. unfold len.
  destruct st; simpl; lia.
Qed.

Lemma live_size a : inv a → Arena.live a = Z.of_nat (size (abs a)).
Proof. intros Hi. unfold Arena.live. rewrite inv_live, abs_size by done. symmetry. apply iter_count. Qed.

(** ** How slots change *)

(** A generation never falls, a retired slot stays so, and a slot becomes
    vacant only in a new generation. *)
Definition advances (s s' : Slot T) : Prop :=
  slot_generation s ≤ slot_generation s'
  ∧ (is_retired s = true → is_retired s' = true)
  ∧ (is_vacant s' = true →
     slot_generation s < slot_generation s' ∨ is_vacant s = true ∧ slot_generation s = slot_generation s').

Definition evolves ss ss' : Prop :=
  ∀ i s, ss !! i = Some s → ∃ s', ss' !! i = Some s' ∧ advances s s'.

Lemma advances_refl s : advances s s.
Proof. unfold advances. split_and!; auto with lia. Qed.

Lemma evolves_refl ss : evolves ss ss.
Proof. intros i s Hi. exists s. split; [done|apply advances_refl]. Qed.

Lemma evolves_trans ss1 ss2 ss3 : evolves ss1 ss2 → evolves ss2 ss3 → evolves ss1 ss3.
Proof.
  intros H12 H23 i s (s' & Hs' & A1)%H12. destruct (H23 _ _ Hs') as (s'' & Hs'' & A2).
  exists s''. split; [done|]. unfold advances in *. naive_solver lia.
Qed.

Lemma evolves_app ss ss' : evolves ss (ss ++ ss').
Proof. intros i s Hi. exists s. split; [by apply lookup_app_l_Some|apply advances_refl]. Qed.

Lemma evolves_set ss i s s' : ss !! i = Some s → advances s s' → evolves ss (<[i := s']> ss).
Proof.
  intros Hi Ha j x Hj. destruct (decide (j = i)) as [->|].
  - exists s'. split; [apply list_lookup_insert_eq; by eapply lookup_lt_Some|congruence].
  - exists x. split; [by rewrite list_lookup_insert_ne|apply advances_refl].
Qed.

Lemma evolves_relinked ss ss' : relinked ss ss' → evolves ss ss'.
Proof.
  intros Hr i s Hi. destruct (Forall2_lookup_l _ _ _ _ _ Hr Hi) as (s' & Hs' & [->|(g & n & n' & -> & ->)]).
  - exists s. split; [done|apply advances_refl].
  - eexists. split; [done|]. unfold advances. simpl. auto with lia.
Qed.

(** What [get] sees of a changed slot, a new slot and a relinked list. *)
Lemma get_set a b i s s' : slots a !! i = Some s → slots b = <[i := s']> (slots a) →
  arena_runtime b = arena_runtime a → ∀ id v, Arena.get b id = Some v ↔
    (index id ≠ i ∧ Arena.get a id = Some v)
    ∨ (runtime id = arena_runtime a ∧ index id = i ∧ s' = mkSlot (generation id) (Occupied v)).
Proof.
  intros Hi Hb Hr id v. rewrite !get_Some, Hb, Hr. destruct (decide (index id = i)) as [<-|].
  - rewrite list_lookup_insert_eq by (by eapply lookup_lt_Some). naive_solver.
  - rewrite list_lookup_insert_ne by done. naive_solver.
Qed.

Lemma get_push a b s' : slots b = slots a ++ [s'] → arena_runtime b = arena_runtime a →
  ∀ id v, Arena.get b id = Some v ↔ Arena.get a id = Some v
    ∨ (runtime id = arena_runtime a ∧ index id = length (slots a) ∧ s' = mkSlot (generation id) (Occupied v)).
Proof.
  intros Hb Hr id v. rewrite !get_Some, Hb, Hr, lookup_app_Some, list_lookup_singleton_Some. split.
  - intros [? [?|(? & ? & ->)]]; [naive_solver|]. right. split_and!; [done|lia|done].
  - intros [[? ?]|(? & Hi & ->)]; [naive_solver|]. split; [done|]. right. rewrite Hi. split_and!; [lia|lia|done].
Qed.

Lemma get_relinked a b : relinked (slots a) (slots b) → arena_runtime b = arena_runtime a →
  ∀ id, Arena.get b id = Arena.get a id.
Proof.
  intros Hr Hrt id. apply option_eq. intros v. rewrite !get_Some, Hrt. f_equiv. split; intros Hi.
  - destruct (Forall2_lookup_r _ _ _ _ _ Hr Hi) as (s & ? & [->|(g & n & n' & ? & ?)]); congruence.
  - destruct (Forall2_lookup_l _ _ _ _ _ Hr Hi) as (s & ? & [->|(g & n & n' & ? & ?)]); congruence.
Qed.

(** An identity that no slot has given out in its current generation. *)
Definition unissued a (id : Id) : Prop :=
  runtime id = arena_runtime a ∧
  (slots a !! index id = None ∨ ∃ next, slots a !! index id = Some (mkSlot (generation id) (Vacant next))).

Lemma unissued_absent a id : unissued a id → abs a !! id = None.
Proof.
  intros [_ Hs]. rewrite abs_lookup. apply eq_None_not_Some. intros [v [_ Hv]%get_Some]. naive_solver.
Qed.

Lemma unissued_unoccupied a id s : unissued a id → slots a !! index id = Some s → Arena.is_occupied s = false.
Proof. intros [_ [?|[n ?]]] ?; naive_solver. Qed.

(** The map after a slot becomes occupied, by [<[i := _]>] or by a push. *)
Lemma abs_occupied a b id v : runtime id = arena_runtime a →
  (∀ s, slots a !! index id = Some s → Arena.is_occupied s = false) →
  (∀ id' w, Arena.get b id' = Some w ↔
     (index id' ≠ index id ∧ Arena.get a id' = Some w)
     ∨ (runtime id' = arena_runtime a ∧ index id' = index id
        ∧ mkSlot (generation id) (Occupied v) = mkSlot (generation id') (Occupied w))) →
  abs b = <[id := v]> (abs a).
Proof.
  intros Hrt Hun Hget. apply map_eq. intros id'. apply option_eq. intros w. rewrite abs_lookup, Hget.
  destruct (decide (id = id')) as [->|Hne].
  - rewrite lookup_insert_eq. naive_solver.
  - rewrite lookup_insert_ne, abs_lookup by done. split.
    + intros [[_ ?]|(? & ? & [= ? ?])]; [done|]. destruct Hne. destruct id, id'; simpl in *. congruence.
    + intros Hw. left. split; [|done]. intros Hi. apply get_Some in Hw as [_ Hw]. rewrite Hi in Hw. by apply Hun in Hw.
Qed.

Lemma inv_empty rt : inv (Arena.new (T := T) rt).
Proof.
  constructor; simpl; [|done|done|constructor]. exists []. split_and!; [done|constructor| |done].
  intros i. rewrite elem_of_nil. naive_solver.
Qed.

(** ** The operations *)

Lemma decrement_pos n : 0 < n → Arena.decrement n = Ok (n - 1).
Proof. intros Hn. unfold Arena.decrement. by destruct (Z.eqb_spec n 0); [lia|]. Qed.

(** The invariant without the free list. *)
Definition counted a : Prop :=
  live_len a = count Arena.is_occupied (slots a) ∧ retired_len a = count is_retired (slots a)
  ∧ Forall (λ s, is_u32 (slot_generation s)) (slots a).

Lemma inv_counted a : inv a → counted a.
Proof. by intros []. Qed.

(** The invariant after slot [i] changes from [s] to [s']: the free list [l']
    visits what is vacant then, and the counters follow. *)
Lemma inv_set a rt i s s' head l l' free : counted a →
  slots a !! i = Some s → is_u32 (slot_generation s') →
  (∀ j, j ∈ l ↔ ∃ x, slots a !! j = Some x ∧ is_vacant x = true) →
  chain (<[i := s']> (slots a)) head l' → NoDup l' → free = len l' →
  (∀ j, j ∈ l' ↔ if decide (j = i) then is_vacant s' = true else j ∈ l) →
  inv (mkArena rt (<[i := s']> (slots a)) head
         (live_len a - Z.b2z (Arena.is_occupied s) + Z.b2z (Arena.is_occupied s')) free
         (retired_len a - Z.b2z (is_retired s) + Z.b2z (is_retired s'))).
Proof.
  intros (Hlive & Hret & Hgen) Hi Hg Hl Hc Hn -> Hl'. constructor; simpl.
  - exists l'. split_and!; [done|done| |done]. intros j. rewrite Hl'. case_decide as Hj.
    + subst. rewrite list_lookup_insert_eq by (by eapply lookup_lt_Some). naive_solver.
    + by rewrite list_lookup_insert_ne.
  - rewrite (count_insert _ _ _ s) by done. lia.
  - rewrite (count_insert _ _ _ s) by done. lia.
  - by apply Forall_insert.
Qed.

Lemma inv_push a rt s' live retired : inv a → is_u32 (slot_generation s') → is_vacant s' = false →
  live = live_len a + Z.b2z (Arena.is_occupied s') → retired = retired_len a + Z.b2z (is_retired s') →
  inv (mkArena rt (slots a ++ [s']) (free_head a) live (free_len a) retired).
Proof.
  intros [(l & Hc & Hn & Hl & Hf) Hlive Hret Hgen] Hg Hv -> ->. constructor; simpl.
  - exists l. split_and!; [by apply chain_app|done| |done]. intros i. rewrite Hl. split.
    + intros (s & Hs & ?). exists s. split; [by apply lookup_app_l_Some|done].
    + intros (s & [Hs|(_ & Hs)]%lookup_app_Some & Hvs); [naive_solver|].
      apply list_lookup_singleton_Some in Hs as [_ ->]. congruence.
  - rewrite count_app. simpl. lia.
  - rewrite count_app. simpl. lia.
  - apply Forall_app. split; [done|by constructor].
Qed.

Lemma try_insert_spec a v : inv a → ∃ a' r, Arena.try_insert a v = Ok (a', r)
  ∧ inv a' ∧ arena_runtime a' = arena_runtime a ∧ evolves (slots a) (slots a')
  ∧ match r with
    | Ok id => unissued a id ∧ abs a' = <[id := v]> (abs a)
    | Err _ => a' = a ∧ free_head a = None ∧ Prelude.try_reserve "arena" (len (slots a)) 1 = false
    end.
Proof.
  intros Hinv. destruct (inv_free a Hinv) as (l & Hc & Hn & Hl & Hf). unfold Arena.try_insert.
  destruct l as [|i l].
  - simpl in Hc. rewrite Hc. unfold Prelude.reserve, reject_if.
    destruct (Prelude.try_reserve _ _ _) eqn:E; simpl; eexists _, _; (split; [done|]).
    2:{ split_and!; [done|done|apply evolves_refl|done..]. }
    assert (unissued a (mkId (arena_runtime a) (length (slots a)) 0)) as Hun.
    { split; [done|]. left. simpl. apply lookup_ge_None_2. lia. }
    split_and!; [|done|apply evolves_app|done|].
    + rewrite <- Hc. apply inv_push; [done|simpl; solve_ints|done|done|simpl; lia].
    + apply abs_occupied; [done|intros s; by apply unissued_unoccupied|]. intros id' w. rewrite (get_push a _ (mkSlot 0 (Occupied v))) by done. simpl.
      split; [|intros [[_ ?]|?]; auto]. intros [Hg|?]; [|auto]. left. split; [|done].
      apply get_Some in Hg as [_ Hg%lookup_lt_Some]. lia.
  - destruct Hc as (Hh & g & n & Hi & Hc). rewrite Hh, Hi. cbn [expect ok_or mbind result_bind state slot_generation].
    rewrite decrement_pos by (rewrite Hf; unfold len; simpl; lia). cbn [mbind result_bind].
    eexists _, _. split; [done|]. apply NoDup_cons in Hn as [Hni Hn].
    assert (unissued a (mkId (arena_runtime a) i g)) as Hun by (split; [done|]; right; by exists n).
    split_and!; [|done| |done|].
    + pose proof (inv_set a (arena_runtime a) i (mkSlot g (Vacant n)) (mkSlot g (Occupied v)) n (i :: l) l (free_len a - 1)
        (inv_counted a Hinv) Hi) as Hset. simpl in Hset. rewrite Z.sub_0_r, !Z.add_0_r, Z.sub_0_r in Hset. apply Hset; [|done|..|done| |].
      * pose proof (inv_generation _ Hinv) as Hg. rewrite Forall_lookup in Hg. exact (Hg _ _ Hi).
      * by apply chain_insert_other.
      * rewrite Hf. unfold len. simpl. lia.
      * intros j. case_decide; [by subst|]. rewrite elem_of_cons. naive_solver.
    + eapply evolves_set; [done|]. unfold advances. simpl. split_and!; [lia|done|done].
    + eapply abs_occupied; [done|intros s; by apply unissued_unoccupied|]. intros id' w. by rewrite (get_set a _ _ _ (mkSlot g (Occupied v)) Hi) by done.
Qed.

Lemma remove_spec a id : inv a → ∃ a', Arena.remove a id = Ok (a', abs a !! id)
  ∧ inv a' ∧ arena_runtime a' = arena_runtime a ∧ evolves (slots a) (slots a') ∧ abs a' = delete id (abs a).
Proof.
  intros Hinv. rewrite abs_lookup. unfold Arena.remove, Arena.get.
  destruct (Arena.checked_slot a id) as [[g st]|] eqn:Hs; simpl.
  2:{ exists a. split_and!; [done|done|done|apply evolves_refl|]. symmetry. apply delete_id.
      rewrite abs_lookup. unfold Arena.get. by rewrite Hs. }
  apply checked_slot_Some in Hs as (Hr & Hi & Hg). simpl in Hg. subst g.
  destruct st as [v|n|].
  2,3: exists a; split_and!; [done|done|done|apply evolves_refl|]; symmetry; apply delete_id;
    rewrite abs_lookup; apply eq_None_not_Some; intros [w [_ Hw]%get_Some]; congruence.
  destruct (inv_free a Hinv) as (l & Hc & Hn & Hl & Hf).
  rewrite decrement_pos by (rewrite (inv_live a Hinv); by eapply count_pos). cbn [mbind result_bind].
  assert (index id ∉ l) as Hnl by (rewrite Hl; intros (s & Hs & Hv); rewrite Hi in Hs; by simplify_eq/=).
  pose proof (inv_generation _ Hinv) as Hgen. rewrite Forall_lookup in Hgen. specialize (Hgen _ _ Hi). simpl in Hgen.
  assert (∀ b s', slots b = <[index id := s']> (slots a) → arena_runtime b = arena_runtime a →
    Arena.is_occupied s' = false → abs b = delete id (abs a)) as Habs.
  { intros b s' Hb Hrb Ho. apply map_eq. intros id'. apply option_eq. intros w.
    rewrite abs_lookup, (get_set a b _ _ _ Hi Hb Hrb). destruct (decide (id = id')) as [->|Hne].
    - rewrite lookup_delete_eq. split; [|done]. intros [[? _]|(_ & _ & ->)]; done.
    - rewrite lookup_delete_ne, abs_lookup by done. split.
      + intros [[_ ?]|(_ & _ & ->)]; [done|]. done.
      + intros Hw. left. split; [|done]. intros Hii. apply get_Some in Hw as [Hrw Hw].
        rewrite Hii, Hi in Hw. destruct Hne, id, id'; simplify_eq/=. congruence. }
  unfold checked_add_u32. destruct (Z.leb_spec (generation id + 1) u32_max).
  - eexists. split; [done|]. split_and!; [|done| |by eapply Habs].
    + pose proof (inv_set a (arena_runtime a) (index id) _ (mkSlot (generation id + 1) (Vacant (free_head a)))
        (Some (index id)) l (index id :: l) (free_len a + 1) (inv_counted a Hinv) Hi) as Hset. simpl in Hset.
      rewrite !Z.add_0_r, Z.sub_0_r in Hset. apply Hset; [solve_ints|done| |by constructor| |].
      * split; [done|]. exists (generation id + 1), (free_head a).
        split; [apply list_lookup_insert_eq; by eapply lookup_lt_Some|by apply chain_insert_other].
      * rewrite Hf. unfold len. simpl. lia.
      * intros j. rewrite elem_of_cons. case_decide; [subst; simpl; naive_solver|naive_solver].
    + eapply evolves_set; [done|]. unfold advances. simpl. split_and!; [lia|done|auto with lia].
  - eexists. split; [done|]. split_and!; [|done| |by eapply Habs].
    + pose proof (inv_set a (arena_runtime a) (index id) _ (mkSlot (generation id) Retired)
        (free_head a) l l (free_len a) (inv_counted a Hinv) Hi) as Hset. simpl in Hset.
      rewrite !Z.add_0_r, Z.sub_0_r in Hset. apply Hset; [done|done|by apply chain_insert_other|done|done|].
      intros j. case_decide; [subst; simpl; naive_solver|done].
    + eapply evolves_set; [done|]. unfold advances. simpl. split_and!; [lia|done|done].
Qed.

Lemma get_mut_spec a id : inv a →
  match Arena.get_mut a id with
  | None => abs a !! id = None
  | Some (v, write) => abs a !! id = Some v ∧ ∀ v', inv (write v')
      ∧ arena_runtime (write v') = arena_runtime a ∧ evolves (slots a) (slots (write v'))
      ∧ abs (write v') = <[id := v']> (abs a)
  end.
Proof.
  intros Hinv. rewrite abs_lookup. unfold Arena.get_mut, Arena.get.
  destruct (Arena.checked_slot a id) as [[g st]|] eqn:Hs; simpl; [|done].
  apply checked_slot_Some in Hs as (Hr & Hi & Hg). simpl in Hg. subst g. destruct st as [v|n|]; [|done|done].
  split; [done|]. intros v'. destruct (inv_free a Hinv) as (l & Hc & Hn & Hl & Hf).
  assert (index id ∉ l) as Hnl by (rewrite Hl; intros (s & Hs & Hv); rewrite Hi in Hs; by simplify_eq/=).
  split_and!; [|done| |].
  - pose proof (inv_set a (arena_runtime a) (index id) _ (mkSlot (generation id) (Occupied v'))
      (free_head a) l l (free_len a) (inv_counted a Hinv) Hi) as Hset. cbn -[Z.sub] in Hset.
    rewrite !Z.add_0_r, Z.sub_0_r, Z.sub_add in Hset. apply Hset; [|done|by apply chain_insert_other|done|done|].
    + pose proof (inv_generation _ Hinv) as Hg. rewrite Forall_lookup in Hg. exact (Hg _ _ Hi).
    + intros j. case_decide; [subst; simpl; naive_solver|done].
  - eapply evolves_set; [done|]. unfold advances. simpl. split_and!; [lia|done|done].
  - apply map_eq. intros id'. apply option_eq. intros w.
    rewrite abs_lookup, (get_set a _ _ _ (mkSlot (generation id) (Occupied v')) Hi) by done.
    destruct (decide (id = id')) as [->|Hne].
    + rewrite lookup_insert_eq. naive_solver.
    + rewrite lookup_insert_ne, abs_lookup by done. split.
      * intros [[_ ?]|(? & ? & [= ? ?])]; [done|]. destruct Hne. destruct id, id'; simpl in *. congruence.
      * intros Hw. left. split; [|done]. intros Hii. apply get_Some in Hw as [Hrw Hw].
        rewrite Hii, Hi in Hw. destruct Hne, id, id'; simplify_eq/=. congruence.
Qed.

Lemma pad_spec a : inv a → inv (Arena.pad a) ∧ ∀ id, Arena.get (Arena.pad a) id = Arena.get a id.
Proof.
  intros [(l & Hc & Hn & Hl & Hf) Hlive Hret Hgen]. split; [constructor; simpl|].
  - exists (length (slots a) :: l).
    assert (length (slots a) ∉ l) as Hnl.
    { intros Hin. apply chain_bound in Hc. rewrite Forall_forall in Hc. specialize (Hc _ Hin). lia. }
    split_and!; [| by constructor| |rewrite Hf; unfold len; simpl; lia].
    + split; [done|]. eexists _, _. split; [by rewrite list_lookup_middle|by apply chain_app].
    + intros i. rewrite elem_of_cons, Hl. split.
      * intros [->|(s & Hs & Hv)]; [eexists; split; [by rewrite list_lookup_middle|done]|].
        exists s. split; [by apply lookup_app_l_Some|done].
      * intros (s & [Hs|(? & Hs)]%lookup_app_Some & Hv); [naive_solver|].
        apply list_lookup_singleton_Some in Hs as [? _]. left. lia.
  - rewrite count_app. simpl. lia.
  - rewrite count_app. simpl. lia.
  - apply Forall_app. split; [done|]. constructor; [simpl; solve_ints|constructor].
  - intros id. apply option_eq. intros v. rewrite (get_push a _ (mkSlot 0 (Vacant (free_head a)))) by done.
    naive_solver.
Qed.

Lemma pad_to_spec n : ∀ a, inv a → let b := Arena.pad_to n a in
  inv b ∧ arena_runtime b = arena_runtime a ∧ (∀ id, Arena.get b id = Arena.get a id)
  ∧ ∃ ss, slots b = slots a ++ ss ∧ length ss = n.
Proof.
  induction n as [|n IH]; intros a Hinv; simpl.
  - split_and!; [done|done|done|]. exists []. by rewrite app_nil_r.
  - destruct (pad_spec a Hinv) as [Hp Hg]. destruct (IH _ Hp) as (Hi & Hr & Hg' & ss & Hss & Hn).
    split_and!; [done|done|intros id; by rewrite Hg', Hg|].
    eexists. split; [rewrite Hss; simpl; by rewrite <- app_assoc|simpl; lia].
Qed.

(** Past the end: padding, then the record. *)
Lemma restore_tail_spec a i v b : inv a → (length (slots a) ≤ i)%nat →
  b = Arena.pad_to (i - length (slots a)) a →
  let c := mkArena (arena_runtime b) (slots b ++ [mkSlot 0 (Occupied v)]) (free_head b)
             (live_len b + 1) (free_len b) (retired_len b) in
  inv c ∧ arena_runtime c = arena_runtime a ∧ evolves (slots a) (slots c)
  ∧ abs c = <[mkId (arena_runtime a) i 0 := v]> (abs a).
Proof.
  intros Hinv Hle -> c. destruct (pad_to_spec (i - length (slots a)) a Hinv) as (Hb & Hr & Hg & ss & Hss & Hn).
  set (b := Arena.pad_to _ a) in *. assert (length (slots b) = i) as Hlen by (rewrite Hss, length_app; lia).
  split_and!.
  - apply inv_push; [done|simpl; solve_ints|done|done|simpl; lia].
  - done.
  - subst c. simpl. rewrite Hss, <- app_assoc. apply evolves_app.
  - apply abs_occupied; [done| |].
    + intros s Hs%lookup_lt_Some. simpl in Hs. lia.
    + intros id w. rewrite (get_push b _ (mkSlot 0 (Occupied v))) by done. rewrite Hg, Hr, Hlen. simpl.
      split; [|intros [[_ ?]|?]; auto]. intros [Hw|?]; [|auto]. left. split; [|done].
      apply get_Some in Hw as [_ Hw%lookup_lt_Some]. lia.
Qed.

(** On a vacant slot: out of the free list, in the first generation. *)
Lemma restore_hole_spec a i v g next : inv a → slots a !! i = Some (mkSlot g (Vacant next)) →
  ∃ c, Arena.restore_insert a i v = Ok (c, Some (mkId (arena_runtime a) i 0))
    ∧ inv c ∧ arena_runtime c = arena_runtime a ∧ (g = 0 → evolves (slots a) (slots c))
    ∧ abs c = <[mkId (arena_runtime a) i 0 := v]> (abs a).
Proof.
  intros Hinv Hi. destruct (inv_free a Hinv) as (l & Hc & Hn & Hl & Hf).
  assert (i ∈ l) as Hil by (apply Hl; eexists; by split). pose proof (chain_length _ _ _ Hc Hn) as Hlen.
  apply list_elem_of_split in Hil as (l1 & l2 & ->).
  assert (i ∉ l1 ++ l2 ∧ NoDup (l1 ++ l2)) as [Hi12 Hn12]
    by (rewrite <- Permutation_middle in Hn; by apply NoDup_cons in Hn).
  unfold Arena.restore_insert. destruct (Nat.leb_spec (length (slots a)) i) as [Hge|_].
  { apply lookup_lt_Some in Hi. lia. }
  rewrite Hi, (unlink_walk_spec _ i l1 l2); [|rewrite length_app in Hlen; lia|set_solver|done].
  cbn [mbind result_bind]. rewrite bool_decide_eq_true_2 by done. cbn [negb].
  destruct (unlink_spec a i g next l1 l2 Hc Hn Hi) as (head & ss & Hu & Hc' & Hrel & Hss).
  rewrite Hu. cbn [mbind result_bind]. rewrite Hss, Hi. cbn [expect ok_or mbind result_bind].
  rewrite decrement_pos by (rewrite Hf; unfold len; rewrite length_app; simpl; lia). cbn [mbind result_bind].
  eexists. split; [done|].
  set (b := mkArena (arena_runtime a) ss head (live_len a) (free_len a) (retired_len a)).
  assert (∀ j, j ∈ l1 ++ i :: l2 ↔ ∃ x, ss !! j = Some x ∧ is_vacant x = true) as Hvac.
  { intros j. rewrite Hl. split; intros (x & Hx & Hv).
    - destruct (Forall2_lookup_l _ _ _ _ _ Hrel Hx) as (y & Hy & [->|(? & ? & ? & -> & ->)]); eauto.
    - destruct (Forall2_lookup_r _ _ _ _ _ Hrel Hx) as (y & Hy & [->|(? & ? & ? & -> & ->)]); eauto. }
  assert (counted b) as Hcount.
  { destruct (inv_counted a Hinv) as (Hlive & Hret & Hgen). split_and!; simpl.
    - rewrite Hlive. symmetry. by apply relinked_count.
    - rewrite Hret. symmetry. by apply relinked_count.
    - rewrite Forall_lookup. intros j y Hy. rewrite Forall_lookup in Hgen.
      destruct (Forall2_lookup_r _ _ _ _ _ Hrel Hy) as (x & Hx & [->|(? & ? & ? & -> & ->)]);
        [by eapply Hgen|]. apply (Hgen _ _ Hx). }
  assert (ss !! i = Some (mkSlot g (Vacant next))) as Hib by congruence.
  split_and!; [|done| |].
  - pose proof (inv_set b (arena_runtime a) i _ (mkSlot 0 (Occupied v)) head (l1 ++ i :: l2) (l1 ++ l2)
      (free_len a - 1) Hcount Hib) as Hset. simpl in Hset. rewrite Z.sub_0_r, !Z.add_0_r, Z.sub_0_r in Hset.
    apply Hset; [solve_ints|done|by apply chain_insert_other|done| |].
    + rewrite Hf. unfold len. rewrite !length_app. simpl. lia.
    + intros j. case_decide; [by subst|]. rewrite !elem_of_app, elem_of_cons. naive_solver.
  - intros ->. eapply evolves_trans; [by apply evolves_relinked|]. simpl. eapply evolves_set; [done|].
    unfold advances. simpl. split_and!; [lia|done|done].
  - apply (abs_occupied a _ (mkId (arena_runtime a) i 0)); [done|simpl; naive_solver|]. intros id w.
    rewrite (get_set b _ _ _ (mkSlot 0 (Occupied v)) Hib) by done. simpl.
    by rewrite (get_relinked a b) by done.
Qed.

(** A refusal: an index in use, or no room for the padding. *)
Definition refusable a (i : nat) : Prop :=
  (∃ s, slots a !! i = Some s ∧ is_vacant s = false)
  ∨ Prelude.try_reserve "arena padding" (len (slots a)) (Z.of_nat i - len (slots a)) = false.

Lemma restore_insert_spec a i v : inv a →
  match Arena.restore_insert a i v with
  | Ok (a', Some id) =>
      id = mkId (arena_runtime a) i 0 ∧ inv a' ∧ arena_runtime a' = arena_runtime a
      ∧ abs a !! id = None ∧ abs a' = <[id := v]> (abs a)
      ∧ (slots a !! i = None ∨ ∃ g next, slots a !! i = Some (mkSlot g (Vacant next)))
      ∧ ((∀ s, slots a !! i = Some s → slot_generation s = 0) → evolves (slots a) (slots a'))
  | Ok (a', None) => a' = a ∧ refusable a i
  | Err Panic => slots a !! i = None ∧ Prelude.try_reserve "arena record" (Z.of_nat i) 1 = false
  | Err _ => False
  end.
Proof.
  intros Hinv. destruct (slots a !! i) as [[g [w|next|]]|] eqn:Hi.
  1,3: unfold Arena.restore_insert; destruct (Nat.leb_spec (length (slots a)) i) as [Hge|_];
    [apply lookup_lt_Some in Hi; lia|]; rewrite Hi; split; [done|]; left; eexists; by split.
  - destruct (restore_hole_spec a i v g next Hinv Hi) as (c & -> & Hc & Hr & Hev & Habs).
    split_and!; [done|done|done| |done|eauto|intros H0; by apply Hev, (H0 (mkSlot g (Vacant next)))].
    rewrite abs_lookup. apply eq_None_not_Some. intros [w [_ Hw]%get_Some]. simpl in Hw. congruence.
  - pose proof Hi as Hge. apply lookup_ge_None_1 in Hge. unfold Arena.restore_insert.
    destruct (Nat.leb_spec (length (slots a)) i) as [_|]; [|lia].
    unfold Prelude.reserve, reject_if. destruct (Prelude.try_reserve _ _ _) eqn:E; simpl.
    2:{ split; [done|]. by right. }
    destruct (restore_tail_spec a i v _ Hinv Hge eq_refl) as (Hc & Hr & Hev & Habs).
    destruct (pad_to_spec (i - length (slots a)) a Hinv) as (_ & _ & _ & ss & Hss & Hn).
    assert (len (slots (Arena.pad_to (i - length (slots a)) a)) = Z.of_nat i) as Hlen
      by (rewrite Hss; unfold len; rewrite length_app; lia).
    destruct (Prelude.try_reserve "arena record" _ _) eqn:E2; [|split; [done|by rewrite <- Hlen]].
    split_and!; [done|done|done| |done|by left|done].
    rewrite abs_lookup. apply eq_None_not_Some. intros [w [_ Hw]%get_Some]. simpl in Hw. congruence.
Qed.

Lemma lookup_enumerate ss i : ∀ n, enumerate_from n ss !! i = (λ s, ((n + i)%nat, s)) <$> ss !! i.
Proof.
  revert i. induction ss as [|s ss IH]; intros [|i] n; cbn [enumerate_from]; simpl; [done|done|by rewrite Nat.add_0_r|].
  rewrite IH. by replace (S n + i)%nat with (n + S i)%nat by lia.
Qed.

Lemma lookup_iter_mut f a i : slots (Arena.iter_mut f a) !! i =
  (λ s, match state s with
        | Occupied v => mkSlot (slot_generation s) (Occupied (f (mkId (arena_runtime a) i (slot_generation s)) v))
        | _ => s
        end) <$> slots a !! i.
Proof. simpl. rewrite list_lookup_fmap, lookup_enumerate. by destruct (slots a !! i). Qed.

Lemma chain_same ss ss' l : (∀ i g n, ss !! i = Some (mkSlot g (Vacant n)) → ss' !! i = Some (mkSlot g (Vacant n))) →
  ∀ head, chain ss head l → chain ss' head l.
Proof.
  intros Hs. induction l as [|i l IH]; intros head; [done|]. intros (-> & g & n & Hi & Hc).
  split; [done|]. exists g, n. split; [by apply Hs|by apply IH].
Qed.

(** [count] over slots changed in place. *)
Lemma count_ext p (ps : list (nat * Slot T)) g : (∀ x, p (g x) = p (snd x)) →
  count p (g <$> ps) = count p (snd <$> ps).
Proof. intros Hp. induction ps as [|x ps IH]; [done|]. cbn. by rewrite IH, Hp. Qed.

Lemma snd_enumerate ss : ∀ n, snd <$> enumerate_from n ss = ss.
Proof. induction ss as [|s ss IH]; intros n; [done|]. cbn. f_equal. apply IH. Qed.

Lemma iter_mut_spec f a : inv a → let b := Arena.iter_mut f a in
  inv b ∧ evolves (slots a) (slots b) ∧ abs b = map_imap (λ id v, Some (f id v)) (abs a).
Proof.
  intros Hinv b. destruct (inv_free a Hinv) as (l & Hc & Hn & Hl & Hf). split_and!.
  - constructor.
    + exists l. split_and!; [|done| |done].
      * eapply chain_same; [|exact Hc]. intros i g n Hi. subst b. by rewrite lookup_iter_mut, Hi.
      * intros i. rewrite Hl. subst b. rewrite lookup_iter_mut.
        destruct (slots a !! i) as [[g []]|]; simpl; naive_solver.
    + simpl. rewrite (inv_live a Hinv), count_ext; [by rewrite snd_enumerate|]. by intros [? [? []]].
    + simpl. rewrite (inv_retired a Hinv), count_ext; [by rewrite snd_enumerate|]. by intros [? [? []]].
    + pose proof (inv_generation _ Hinv) as Hg. rewrite Forall_lookup in Hg |- *. intros i s. subst b.
      rewrite lookup_iter_mut. destruct (slots a !! i) as [[g st]|] eqn:Hi; simpl; [|done].
      intros [= <-]. pose proof (Hg _ _ Hi). by destruct st.
  - intros i s Hi. subst b. rewrite lookup_iter_mut, Hi. eexists. split; [done|].
    destruct s as [g []]; unfold advances; simpl; auto with lia.
  - apply map_eq. intros id. rewrite map_lookup_imap, !abs_lookup. apply option_eq. intros v.
    rewrite get_Some. subst b. rewrite lookup_iter_mut. unfold Arena.get, Arena.checked_slot. simpl.
    destruct (Z.eqb_spec (runtime id) (arena_runtime a)) as [E|]; simpl; [|naive_solver].
    destruct (slots a !! index id) as [[g st]|]; simpl; [|naive_solver].
    destruct (Z.eqb_spec g (generation id)) as [->|]; simpl; destruct st; simpl; try naive_solver.
    rewrite <- E. destruct id; simpl. naive_solver.
Qed.

(** ** Runs *)

(** The operations, by what they do. *)
Inductive operation : Set := Inserting | Removing | Writing | Restoring.

(** One operation on the arena, with the identities given out so far.  A
    restoration may use any index. *)
Inductive step : operation → Arena T * list Id → Arena T * list Id → Prop :=
| step_insert a ids v a' id :
    Arena.try_insert a v = Ok (a', Ok id) → step Inserting (a, ids) (a', id :: ids)
| step_insert_refused a ids v a' e :
    Arena.try_insert a v = Ok (a', Err e) → step Inserting (a, ids) (a', ids)
| step_remove a ids id a' r : Arena.remove a id = Ok (a', r) → step Removing (a, ids) (a', ids)
| step_write a ids id v write v' :
    Arena.get_mut a id = Some (v, write) → step Writing (a, ids) (write v', ids)
| step_iter_mut a ids f : step Writing (a, ids) (Arena.iter_mut f a, ids)
| step_restore a ids i v a' id :
    Arena.restore_insert a i v = Ok (a', Some id) → step Restoring (a, ids) (a', id :: ids)
| step_restore_refused a ids i v a' :
    Arena.restore_insert a i v = Ok (a', None) → step Restoring (a, ids) (a', ids).

(** While a snapshot is loaded nothing is removed; afterwards nothing is
    restored. *)
Definition loading (c c' : Arena T * list Id) : Prop := ∃ o, o ≠ Removing ∧ step o c c'.
Definition running (c c' : Arena T * list Id) : Prop := ∃ o, o ≠ Restoring ∧ step o c c'.

(** Every slot is of the first generation. *)
Definition first_generation (l : list (Slot T)) : Prop := Forall (λ s, slot_generation s = 0) l.

Lemma first_generation_lookup (ss : list (Slot T)) i s : first_generation ss → ss !! i = Some s → slot_generation s = 0.
Proof. intros Hf Hi. by apply (Forall_lookup_1 _ _ _ _ Hf Hi). Qed.

Lemma first_generation_insert (ss : list (Slot T)) i s :
  first_generation ss → slot_generation s = 0 → first_generation (<[i := s]> ss).
Proof. intros Hf Hs. by apply Forall_insert. Qed.

Lemma first_generation_snoc (ss : list (Slot T)) s :
  first_generation ss → slot_generation s = 0 → first_generation (ss ++ [s]).
Proof. intros Hf Hs. apply Forall_app. split; [done|]. by apply Forall_singleton. Qed.

Lemma first_generation_pad n : ∀ a,
  first_generation (slots a) → first_generation (slots (Arena.pad_to n a)).
Proof. induction n as [|n IH]; intros a Hf; [done|]. apply IH. by apply first_generation_snoc. Qed.

Lemma insert_first_generation a v a' r :
  Arena.try_insert a v = Ok (a', r) → first_generation (slots a) → first_generation (slots a').
Proof.
  unfold Arena.try_insert. intros Hop Hf. destruct (free_head a) as [i|].
  - destruct (slots a !! i) as [[g [w|n|]]|] eqn:Hi; simpl in Hop; try discriminate.
    destruct (Arena.decrement (free_len a)); simpl in Hop; simplify_eq.
    pose proof (first_generation_lookup _ _ _ Hf Hi). by apply first_generation_insert.
  - destruct (Prelude.reserve _ _ _ _); simplify_eq; [by apply first_generation_snoc|done].
Qed.

Lemma write_first_generation a id v write v' :
  Arena.get_mut a id = Some (v, write) → first_generation (slots a) →
  first_generation (slots (write v')).
Proof.
  unfold Arena.get_mut, Arena.checked_slot. intros Hop Hf.
  destruct (negb _); simpl in Hop; [done|]. destruct (slots a !! index id) as [[g st]|] eqn:Hi; simpl in Hop; [|done].
  destruct (negb _); simpl in Hop; [done|]. destruct st; simplify_eq.
  pose proof (first_generation_lookup _ _ _ Hf Hi). by apply first_generation_insert.
Qed.

Lemma iter_mut_first_generation f a :
  first_generation (slots a) → first_generation (slots (Arena.iter_mut f a)).
Proof.
  intros Hf. apply Forall_lookup. intros i s. rewrite lookup_iter_mut.
  destruct (slots a !! i) as [[g []]|] eqn:Hi; intros [= <-];
    apply (first_generation_lookup _ _ _ Hf Hi).
Qed.

Lemma restore_first_generation a i v a' r :
  Arena.restore_insert a i v = Ok (a', r) → first_generation (slots a) → first_generation (slots a').
Proof.
  unfold Arena.restore_insert. intros Hop Hf. destruct (Nat.leb _ _).
  - destruct (Prelude.reserve _ _ _ _); [|by simplify_eq].
    destruct (Prelude.try_reserve _ _ _); simplify_eq.
    apply first_generation_snoc; [by apply first_generation_pad|done].
  - destruct (slots a !! i) as [[g [w|next|]]|]; [by simplify_eq| |by simplify_eq..].
    apply bind_Ok in Hop as ([[previous cursor]|] & _ & Hop); [|by simplify_eq].
    destruct (negb _); [by simplify_eq|].
    apply bind_Ok in Hop as ([[head l]|] & Hu & Hop); [|by simplify_eq].
    assert (first_generation l) as Hl.
    { unfold Arena.unlink in Hu. destruct previous as [k|]; [|by simplify_eq].
      destruct (slots a !! k) as [[g' [w|n|]]|] eqn:Hk; simpl in Hu; simplify_eq.
      pose proof (first_generation_lookup _ _ _ Hf Hk). by apply first_generation_insert. }
    apply bind_Ok in Hop as (? & _ & Hop). apply bind_Ok in Hop as (? & _ & Hop). simplify_eq.
    by apply first_generation_insert.
Qed.

(** An identity of the past: its slot has it as its current generation, or has
    moved on. *)
Definition past a (id : Id) : Prop :=
  runtime id = arena_runtime a ∧ ∃ s, slots a !! index id = Some s
    ∧ 0 ≤ generation id ≤ slot_generation s
    ∧ (is_vacant s = true → generation id < slot_generation s).

(** An identity of the past that is not live will not be. *)
Definition dead a (id : Id) : Prop :=
  past a id ∧ ∃ s, slots a !! index id = Some s
    ∧ (generation id < slot_generation s ∨ is_retired s = true).

Record history (c : Arena T * list Id) : Prop := mkHistory {
  history_inv : inv (fst c);
  history_once : NoDup (snd c);
  history_past : ∀ id, id ∈ snd c → past (fst c) id;
  history_live : ∀ id, is_Some (abs (fst c) !! id) → id ∈ snd c
}.

Lemma past_evolves a a' id : arena_runtime a' = arena_runtime a → evolves (slots a) (slots a') →
  past a id → past a' id.
Proof.
  intros Hr Hev (Hrt & s & Hs & Hg & Hv). split; [congruence|].
  destruct (Hev _ _ Hs) as (s' & Hs' & Ha). exists s'. unfold advances in Ha. split_and!; [done|lia|lia|].
  intros Hvac. destruct Ha as (_ & _ & Ha). destruct (Ha Hvac) as [?|[Hv' ?]]; [lia|].
  specialize (Hv Hv'). lia.
Qed.

Lemma dead_evolves a a' id : arena_runtime a' = arena_runtime a → evolves (slots a) (slots a') →
  dead a id → dead a' id.
Proof.
  intros Hr Hev [Hp (s & Hs & Hd)]. split; [by eapply past_evolves|].
  destruct (Hev _ _ Hs) as (s' & Hs' & Ha). exists s'. split; [done|]. unfold advances in Ha. naive_solver lia.
Qed.

Lemma dead_spec a id : past a id → dead a id ↔ abs a !! id = None.
Proof.
  intros Hp. rewrite abs_lookup, eq_None_not_Some. split.
  - intros [_ (s & Hs & Hd)] [v [_ Hv]%get_Some]. rewrite Hv in Hs. simplify_eq/=. naive_solver lia.
  - intros Hno. split; [done|]. destruct Hp as (Hr & s & Hs & Hg & Hv). exists s. split; [done|].
    destruct s as [g [v|n|]]; simpl in *; [|left; by apply Hv|by right].
    left. destruct (decide (generation id = g)) as [<-|]; [|lia].
    destruct Hno. exists v. by apply get_Some.
Qed.

Lemma unissued_past a id : unissued a id → ¬ past a id.
Proof.
  intros [_ [Hn|[n Hn]]] (_ & s & Hs & Hg & Hv); [congruence|]. rewrite Hn in Hs. simplify_eq/=.
  specialize (Hv eq_refl). lia.
Qed.

Lemma live_past a id v : inv a → abs a !! id = Some v → past a id.
Proof.
  intros Hinv. rewrite abs_lookup, get_Some. intros [Hr Hs]. split; [done|]. eexists. split; [done|]. simpl.
  pose proof (inv_generation _ Hinv) as Hg. rewrite Forall_lookup in Hg. specialize (Hg _ _ Hs). simpl in Hg.
  split; [solve_ints|done].
Qed.

(** An operation that keeps the live identities, and one that adds one. *)
Lemma history_keep a a' ids : history (a, ids) → inv a' → arena_runtime a' = arena_runtime a →
  evolves (slots a) (slots a') → (∀ id, is_Some (abs a' !! id) → is_Some (abs a !! id)) → history (a', ids).
Proof.
  intros [? ? Hp Hl] Hinv Hr Hev Hlive. constructor; simpl in *; [done|done| |auto].
  intros id Hid. eapply past_evolves; eauto.
Qed.

Lemma history_add a a' ids id v : history (a, ids) → inv a' → arena_runtime a' = arena_runtime a →
  evolves (slots a) (slots a') → unissued a id → abs a' = <[id := v]> (abs a) → history (a', id :: ids).
Proof.
  intros [? ? Hp Hl] Hinv Hr Hev Hun Habs. constructor; simpl in *; [done| | |].
  - constructor; [|done]. intros Hin. by eapply unissued_past, Hp.
  - intros id'. rewrite elem_of_cons. intros [->|Hid]; [|eapply past_evolves; eauto].
    eapply (live_past a' id v); [done|]. by rewrite Habs, lookup_insert_eq.
  - intros id'. rewrite Habs, elem_of_cons. destruct (decide (id = id')) as [->|]; [by left|].
    rewrite lookup_insert_ne by done. right. auto.
Qed.

Lemma step_history o c c' : step o c c' → history c →
  (o = Restoring → first_generation (slots (fst c))) → history c'
  ∧ arena_runtime (fst c') = arena_runtime (fst c) ∧ evolves (slots (fst c)) (slots (fst c')) ∧ snd c ⊆ snd c'.
Proof.
  intros Hstep Hh Hfirst. pose proof (history_inv _ Hh) as Hinv.
  destruct Hstep as [a ids v a' id E|a ids v a' e E|a ids id a' r E|a ids id v write v' E|a ids f
    |a ids i v a' id E|a ids i v a' E]; simpl in *.
  - destruct (try_insert_spec a v Hinv) as (a2 & r & E2 & Hi & Hr & Hev & Hres). rewrite E in E2. simplify_eq.
    destruct Hres as [Hun Habs]. split_and!; [by eapply history_add|done|done|set_solver].
  - destruct (try_insert_spec a v Hinv) as (a2 & r & E2 & Hi & Hr & Hev & Hres). rewrite E in E2. simplify_eq.
    by destruct Hres as [-> _].
  - destruct (remove_spec a id Hinv) as (a2 & E2 & Hi & Hr & Hev & Habs).
    rewrite E in E2. simplify_eq.
    split_and!; [|done|done|done]. eapply history_keep; [done|done|done|done|]. intros id'.
    rewrite Habs, lookup_delete_is_Some. naive_solver.
  - pose proof (get_mut_spec a id Hinv) as Hgm. rewrite E in Hgm. destruct Hgm as [Hv Hw].
    destruct (Hw v') as (Hi & Hr & Hev & Habs). split_and!; [|done|done|done].
    eapply history_keep; [done|done|done|done|]. intros id'. rewrite Habs, lookup_insert_is_Some'. naive_solver.
  - destruct (iter_mut_spec f a Hinv) as (Hi & Hev & Habs). split_and!; [|done|done|done].
    eapply history_keep; [done|done|done|done|]. intros id'. rewrite Habs, map_lookup_imap.
    by destruct (abs a !! id').
  - pose proof (restore_insert_spec a i v Hinv) as Hres. rewrite E in Hres.
    destruct Hres as (-> & Hi & Hr & _ & Habs & Hslot & Hev).
    assert (∀ s, slots a !! i = Some s → slot_generation s = 0) as H0.
    { intros s. apply first_generation_lookup. by apply Hfirst. }
    specialize (Hev H0).
    split_and!; [|done|done|set_solver]. eapply history_add; [done|done|done|done| |done].
    split; [done|]. simpl. destruct Hslot as [?|(g & n & Hs)]; [by left|].
    right. exists n. rewrite Hs. pose proof (H0 _ Hs). simpl in *. by subst.
  - pose proof (restore_insert_spec a i v Hinv) as Hres. rewrite E in Hres. destruct Hres as [-> _].
    split_and!; [done|done|apply evolves_refl|done].
Qed.

Lemma history_empty rt : history (Arena.new rt, []).
Proof.
  constructor; simpl; [apply inv_empty|constructor|set_solver|]. intros id. rewrite abs_lookup. intros [v Hv].
  apply get_Some in Hv as [_ Hv]. simpl in Hv. by rewrite lookup_nil in Hv.
Qed.

Lemma loading_history c c' : rtc loading c c' → history c → first_generation (slots (fst c)) → history c'.
Proof.
  induction 1 as [c|c c1 c' (o & Ho & Hstep) _ IH]; intros Hh Hf; [done|]. apply IH.
  - apply (step_history _ _ _ Hstep Hh). by intros _.
  - destruct Hstep; simpl in *; [by eapply insert_first_generation|by eapply insert_first_generation|done
      |by eapply write_first_generation|by apply iter_mut_first_generation
      |by eapply restore_first_generation|by eapply restore_first_generation].
Qed.

Lemma run_history c c' : rtc running c c' → history c → history c'
  ∧ arena_runtime (fst c') = arena_runtime (fst c) ∧ evolves (slots (fst c)) (slots (fst c')) ∧ snd c ⊆ snd c'.
Proof.
  induction 1 as [c|c c1 c' (o & Ho & Hstep) _ IH]; intros Hh.
  - split_and!; [done|done|apply evolves_refl|done].
  - destruct (step_history _ _ _ Hstep Hh) as (Hh1 & Hr & Hev & Hsub); [done|].
    destruct (IH Hh1) as (Hh' & Hr' & Hev' & Hsub').
    split_and!; [done|congruence|by eapply evolves_trans|set_solver].
Qed.
End facts.

(** C11. An arena is a finite map from identities to values.  On every arena
    with a consistent free list and counters (the empty one is, and each
    operation keeps it so), insertion returns, adding the value under an
    identity that was not live, or leaves the arena as it was because the free
    list is empty and the host refused memory; removal takes away exactly the
    given identity and returns what was there; [get], [get_mut], [iter] and
    [len] are the map's lookup, update, entries and size. *)
Theorem arena_refines_map `{Allocator} {T} (a : Arena T) : inv a →
  (∀ v, ∃ a' r, Arena.try_insert a v = Ok (a', r) ∧ inv a' ∧
     match r with
     | Ok id => abs a !! id = None ∧ abs a' = <[id := v]> (abs a)
     | Err _ => a' = a ∧ free_head a = None ∧ Prelude.try_reserve "arena" (len (slots a)) 1 = false
     end)
  ∧ (∀ id, ∃ a', Arena.remove a id = Ok (a', abs a !! id) ∧ inv a' ∧ abs a' = delete id (abs a))
  ∧ (∀ id, Arena.get a id = abs a !! id ∧ (Arena.contains a id = true ↔ is_Some (abs a !! id)))
  ∧ (∀ id, match Arena.get_mut a id with
           | None => abs a !! id = None
           | Some (v, write) => abs a !! id = Some v
               ∧ ∀ v', inv (write v') ∧ abs (write v') = <[id := v']> (abs a)
           end)
  ∧ (∀ f, inv (Arena.iter_mut f a) ∧ abs (Arena.iter_mut f a) = map_imap (λ id v, Some (f id v)) (abs a))
  ∧ (∀ id v, (id, v) ∈ Arena.iter a ↔ abs a !! id = Some v) ∧ NoDup (Arena.iter a).*1
  ∧ Arena.live a = Z.of_nat (size (abs a)).
Proof.
  intros Hinv. split_and!.
  - intros v. destruct (try_insert_spec a v Hinv) as (a' & r & E & Hi & _ & _ & Hr).
    exists a', r. split_and!; [done|done|]. destruct r; [|done]. destruct Hr as [Hun ?].
    split; [by apply unissued_absent|done].
  - intros id. destruct (remove_spec a id Hinv) as (a' & ? & ? & _ & _ & ?). by exists a'.
  - intros id. rewrite abs_lookup. split; [done|]. apply bool_decide_eq_true.
  - intros id. pose proof (get_mut_spec a id Hinv) as Hg. destruct (Arena.get_mut a id) as [[v write]|]; [|done].
    destruct Hg as [? Hw]. split; [done|]. intros v'. destruct (Hw v') as (? & _ & _ & ?). done.
  - intros f. destruct (iter_mut_spec f a Hinv) as (? & _ & ?). done.
  - intros id v. by rewrite elem_of_iter, abs_lookup.
  - apply iter_NoDup.
  - by apply live_size.
Qed.

(** One removed record between two live ones. *)
Definition demo_arena : Arena Z :=
  mkArena 7 [mkSlot 0 (Occupied 10); mkSlot 3 (Vacant None); mkSlot 0 (Occupied 30)] (Some 1%nat) 2 1 0.

Lemma inv_demo : inv demo_arena.
Proof.
  constructor; [|done|done|].
  - exists [1%nat]. split_and!; [|apply NoDup_singleton| |done].
    + split; [done|]. by exists 3, None.
    + intros i. rewrite list_elem_of_singleton. split; [intros ->; by eexists|].
      intros (s & Hs & Hv). destruct i as [|[|[|i]]]; simplify_eq/=; done.
  - do 3 (apply Forall_cons_2; [simpl; solve_ints|]). apply Forall_nil_2.
Qed.

Lemma arena_refines_map_witness : ∃ a' r, @Arena.try_insert always_allocates Z demo_arena 20 = Ok (a', r)
  ∧ r = Ok (mkId 7 1 3) ∧ abs a' = <[mkId 7 1 3 := 20]> (abs demo_arena).
Proof.
  destruct (@arena_refines_map always_allocates Z demo_arena inv_demo) as [Hins _].
  destruct (Hins 20) as (a' & r & E & _ & Hr). exists a', r.
  assert (r = Ok (mkId 7 1 3)) as Er by (vm_compute in E; congruence).
  subst r. split; [exact E|]. split; [reflexivity|exact (proj2 Hr)].
Defined.

(** C33. No identity comes back to life.  An arena is first loaded, by any
    sequence of restorations at any index, insertions and writes, starting
    empty; then it is run, by any sequence of insertions, removals and writes.
    No identity is given out twice, only identities given out are live, and one
    that is not live at some point of the run is live at no later point: the
    generation of a reused slot differs, and a slot whose generation is
    exhausted is not reused. *)
Theorem arena_ids_never_revive `{Allocator} {T} rt (a0 a a' : Arena T) ids0 ids ids' :
  rtc loading (Arena.new rt, []) (a0, ids0) →
  rtc running (a0, ids0) (a, ids) → rtc running (a, ids) (a', ids') →
  NoDup ids' ∧ ids0 ⊆ ids ∧ ids ⊆ ids' ∧ (∀ id, is_Some (Arena.get a' id) → id ∈ ids')
  ∧ ∀ id, id ∈ ids → Arena.get a id = None → Arena.get a' id = None.
Proof.
  intros Hload Hrun Hrun'.
  pose proof (loading_history _ _ Hload (history_empty rt) (Forall_nil_2 _)) as Hh0.
  destruct (run_history _ _ Hrun Hh0) as (Hh & _ & _ & Hsub0).
  destruct (run_history _ _ Hrun' Hh) as (Hh' & Hr & Hev & Hsub). simpl in *.
  split_and!; [apply (history_once _ Hh')|done|done| |].
  - intros id. rewrite <- abs_lookup. apply (history_live _ Hh').
  - intros id Hid. rewrite <- !abs_lookup. pose proof (history_past _ Hh id Hid) as Hp.
    rewrite <- dead_spec by done. intros Hd. eapply dead_evolves in Hd; [|done..].
    apply dead_spec; [|done]. by destruct Hd.
Qed.

(** A record is restored at index 1, over a hole that then serves two
    insertions. *)
Lemma arena_ids_never_revive_witness :
  let restored := mkId 5 1 0 in let first := mkId 5 0 0 in let second := mkId 5 0 1 in
  let a0 : Arena Z := mkArena 5 [mkSlot 0 (Vacant None); mkSlot 0 (Occupied 7)] (Some 0%nat) 1 1 0 in
  let a := mkArena 5 [mkSlot 1 (Vacant None); mkSlot 0 (Occupied 7)] (Some 0%nat) 1 1 0 in
  let a' := mkArena 5 [mkSlot 1 (Occupied 20); mkSlot 0 (Occupied 7)] None 2 0 0 in
  Arena.get a first = None ∧ Arena.get a' first = None ∧ NoDup [second; first; restored].
Proof.
  intros restored first second a0 a a'.
  destruct (@arena_ids_never_revive always_allocates Z 5 a0 a a' [restored] [first; restored]
    [second; first; restored]) as (Hn & _ & _ & _ & Hd).
  - apply rtc_once. exists Restoring. split; [discriminate|].
    apply (step_restore (H := always_allocates) _ _ 1 7). reflexivity.
  - eapply rtc_l.
    + exists Inserting. split; [discriminate|]. apply (step_insert (H := always_allocates) _ _ 10). reflexivity.
    + apply rtc_once. exists Removing. split; [discriminate|].
      eapply (step_remove (H := always_allocates) _ _ first). reflexivity.
  - apply rtc_once. exists Inserting. split; [discriminate|].
    apply (step_insert (H := always_allocates) _ _ 20). reflexivity.
  - split; [reflexivity|]. split; [|exact Hn]. apply (Hd first); [apply list_elem_of_here|reflexivity].
Defined.

(** A restoration into a slot that has been freed resets its generation: the
    identity the removal invalidated reads the restored record. *)
Lemma restoration_revives :
  let a : Arena Z := mkArena 5 [mkSlot 1 (Vacant None)] (Some 0%nat) 0 1 0 in
  ∃ a', @step always_allocates Z Removing (mkArena 5 [mkSlot 0 (Occupied 10)] None 1 0 0, [mkId 5 0 0])
          (a, [mkId 5 0 0]) ∧
        Arena.get a (mkId 5 0 0) = None ∧
        @Arena.restore_insert always_allocates Z a 0 20 = Ok (a', Some (mkId 5 0 0)) ∧
        Arena.get a' (mkId 5 0 0) = Some 20.
Proof.
  eexists. split; [eapply (step_remove (H := always_allocates) _ _ (mkId 5 0 0)); reflexivity|].
  split; [reflexivity|]. split; reflexivity.
Qed.

(** Restoration on any consistent arena: the record lands at its recorded
    index, in the first generation, unless the index is in use or the padding
    is refused; the one abnormal end is a refused growth for the record itself,
    which the reservation does not cover. *)
Lemma arena_restore_exact `{Allocator} {T} (a : Arena T) i v : inv a →
  match Arena.restore_insert a i v with
  | Ok (a', Some id) =>
      id = Arena.id_from_index a i ∧ inv a' ∧ abs a !! id = None ∧ abs a' = <[id := v]> (abs a)
  | Ok (a', None) => a' = a ∧ refusable a i
  | Err Panic => slots a !! i = None ∧ Prelude.try_reserve "arena record" (Z.of_nat i) 1 = false
  | Err _ => False
  end.
Proof.
  intros Hinv. pose proof (restore_insert_spec a i v Hinv) as Hs.
  destruct (Arena.restore_insert a i v) as [[a' [id|]]|[]]; [|done..]. naive_solver.
Qed.

(** The record of an index at the tail asks for no reservation at all, so a
    host out of memory ends the process where [None] is documented. *)
Lemma restore_insert_unreserved :
  @Arena.restore_insert (λ _ _ additional, additional =? 0) Z (Arena.new 0) 0 10 = Err Panic.
Proof. reflexivity. Qed.
