(* ===== verification/ByteCodec.v ===== *)
(** * Base64 and hexadecimal byte codecs

    Models [crates/fusor-runtime/src/vm/uint8_array/codec.rs], the decoders and
    encoders behind [Uint8Array.fromBase64], [setFromBase64], [toBase64] and
    their hexadecimal forms, and the encoding loop of
    [finish_uint8_array_to_hex] in [vm/uint8_array.rs].  The theorems are in
    ByteCodecFacts.v. *)

From S2P Require Import Prelude RuntimePrelude JsStrings.

Inductive Base64Alphabet : Set := Standard | Url.
Inductive LastChunkHandling : Set := Loose | Strict | StopBeforePartial.

#[export] Instance LastChunkHandling_eq_dec : EqDecision LastChunkHandling.
Proof. solve_decision. Defined.

Record DecodeResult : Set := mkDecodeResult { read : Z; bytes : list Z; error : bool }.

(** [NativeFailure], as far as the codecs raise it. *)
Inductive CodecFailure : Set :=
| BytesAllocationFailed (additional : Z)
| RuntimeInvariant (message : string)
| CodecString (e : JsStringError).

Module ByteCodec.
Section with_allocator.
Context `{Allocator}.

Definition equals_sign : Z := 61.

(** [value << n] on [u8] *)
Definition shl_u8 (value n : Z) : Z := Z.shiftl value n mod 256.

(** *** Reading *)

Definition code_unit_at (input : Repr) (index : Z) : outcome CodecFailure Z :=
  index ← ok_or (try_u32 index) (Fail (RuntimeInvariant "JavaScript String index exceeded u32"));
  unit ← JsString.code_unit_at input index;
  ok_or unit (Fail (RuntimeInvariant "JavaScript String code-unit lookup escaped its length")).

Definition is_ascii_whitespace (unit : Z) : bool :=
  existsb (Z.eqb unit) [0x0009; 0x000a; 0x000c; 0x000d; 0x0020].

(** The [while index < length] loop. *)
Fixpoint skip_ascii_whitespace (fuel : nat) (input : Repr) (index length : Z) : outcome CodecFailure Z :=
  match fuel with
  | O => Err OutOfFuel
  | S fuel =>
      if index <? length then
        unit ← code_unit_at input index;
        if negb (is_ascii_whitespace unit) then Ok index
        else skip_ascii_whitespace fuel input (index + 1) length
      else Ok index
  end.

(** *** Base64 decoding *)

Definition base64_value (unit : Z) (alphabet : Base64Alphabet) : option Z :=
  if (65 <=? unit) && (unit <=? 90) then Some (unit - 65)
  else if (97 <=? unit) && (unit <=? 122) then Some (unit - 97 + 26)
  else if (48 <=? unit) && (unit <=? 57) then Some (unit - 48 + 52)
  else match alphabet with
       | Standard => if unit =? 43 then Some 62 else if unit =? 47 then Some 63 else None
       | Url => if unit =? 45 then Some 62 else if unit =? 95 then Some 63 else None
       end.

(** The chunk is an array of four. *)
Definition decode_full_base64_chunk (chunk : list Z) : list Z :=
  match chunk with
  | [c0; c1; c2; c3] =>
      [Z.lor (shl_u8 c0 2) (Z.shiftr c1 4); Z.lor (shl_u8 c1 4) (Z.shiftr c2 2);
       Z.lor (shl_u8 c2 6) c3]
  | _ => []
  end.

(** [None] for [false]: the extra bits are not zero.  The assertion on the
    length of the chunk is that of a debug build. *)
Definition append_final_base64_chunk (bytes chunk : list Z) (chunk_length : nat)
    (throw_on_extra_bits : bool) : outcome CodecFailure (option (list Z)) :=
  if negb ((chunk_length =? 2)%nat || (chunk_length =? 3)%nat) then Err Panic else
  let padded := take chunk_length chunk ++ replicate (4 - chunk_length) 0 in
  let decoded := decode_full_base64_chunk padded in
  if (chunk_length =? 2)%nat then
    d1 ← expect (decoded !! 1%nat);
    if throw_on_extra_bits && negb (d1 =? 0) then Ok None else
    d0 ← expect (decoded !! 0%nat);
    Ok (Some (bytes ++ [d0]))
  else
    d2 ← expect (decoded !! 2%nat);
    if throw_on_extra_bits && negb (d2 =? 0) then Ok None else
    Ok (Some (bytes ++ take 2 decoded)).

(** The end of the input with the chunk so far. *)
Definition finish_input (last_chunk : LastChunkHandling) (length read : Z) (bytes chunk : list Z)
    (chunk_length : nat) : outcome CodecFailure DecodeResult :=
  if (chunk_length =? 0)%nat then Ok (mkDecodeResult length bytes false) else
  match last_chunk with
  | StopBeforePartial => Ok (mkDecodeResult read bytes false)
  | Strict => Ok (mkDecodeResult read bytes true)
  | Loose =>
      if (chunk_length =? 1)%nat then Ok (mkDecodeResult read bytes true) else
      appended ← append_final_base64_chunk bytes chunk chunk_length false;
      bytes ← expect appended;
      Ok (mkDecodeResult length bytes false)
  end.

(** The branch of [=]; [index] is past it. *)
Definition finish_padding (fuel : nat) (input : Repr) (last_chunk : LastChunkHandling)
    (length index read : Z) (bytes chunk : list Z) (chunk_length : nat) :
    outcome CodecFailure DecodeResult :=
  if (chunk_length <? 2)%nat then Ok (mkDecodeResult read bytes true) else
  index ← skip_ascii_whitespace fuel input index length;
  let rest (index : Z) : outcome CodecFailure DecodeResult :=
    if index <? length then Ok (mkDecodeResult read bytes true) else
    appended ← append_final_base64_chunk bytes chunk chunk_length (bool_decide (last_chunk = Strict));
    match appended with
    | None => Ok (mkDecodeResult read bytes true)
    | Some bytes => Ok (mkDecodeResult length bytes false)
    end in
  if (chunk_length =? 2)%nat then
    if index =? length
    then Ok (mkDecodeResult read bytes (negb (bool_decide (last_chunk = StopBeforePartial)))) else
    unit ← code_unit_at input index;
    if unit =? equals_sign
    then index ← skip_ascii_whitespace fuel input (saturating_add_u64 index 1) length; rest index
    else rest index
  else rest index.

(** The [loop]; every turn that goes on consumes a unit. *)
Fixpoint decode_loop (fuel : nat) (input : Repr) (alphabet : Base64Alphabet)
    (last_chunk : LastChunkHandling) (max_length length index read : Z) (bytes chunk : list Z)
    (chunk_length : nat) : outcome CodecFailure DecodeResult :=
  match fuel with
  | O => Err OutOfFuel
  | S fuel =>
      index ← skip_ascii_whitespace (S (Z.to_nat length)) input index length;
      if index =? length then finish_input last_chunk length read bytes chunk chunk_length else
      unit ← code_unit_at input index;
      let index := saturating_add_u64 index 1 in
      if unit =? equals_sign
      then finish_padding (S (Z.to_nat length)) input last_chunk length index read bytes chunk chunk_length
      else
      match base64_value unit alphabet with
      | None => Ok (mkDecodeResult read bytes true)
      | Some value =>
          let remaining := saturating_sub max_length (len bytes) in
          if (remaining =? 1) && (chunk_length =? 2)%nat || (remaining =? 2) && (chunk_length =? 3)%nat
          then Ok (mkDecodeResult read bytes false) else
          _ ← expect (chunk !! chunk_length);
          let chunk := <[chunk_length := value]> chunk in
          let chunk_length := S chunk_length in
          if (chunk_length =? 4)%nat then
            let bytes := bytes ++ decode_full_base64_chunk chunk in
            if len bytes =? max_length then Ok (mkDecodeResult index bytes false)
            else decode_loop fuel input alphabet last_chunk max_length length index index bytes chunk 0
          else decode_loop fuel input alphabet last_chunk max_length length index read bytes chunk chunk_length
      end
  end.

Definition decode_base64 (input : Repr) (alphabet : Base64Alphabet) (last_chunk : LastChunkHandling)
    (max_length : Z) : outcome CodecFailure DecodeResult :=
  if max_length =? 0 then Ok (mkDecodeResult 0 [] false) else
  let length := Repr.len input in
  let capacity := Z.min (Z.min (saturating_add_u64 length 3 / 4 * 3) u64_max) max_length in
  lift (Prelude.reserve "base64 bytes" 0 capacity (BytesAllocationFailed capacity)) ;;
  decode_loop (S (Z.to_nat length)) input alphabet last_chunk max_length length 0 0 [] [0; 0; 0; 0] 0.

(** *** Hexadecimal *)

Definition hex_value (unit : Z) : option Z :=
  if (48 <=? unit) && (unit <=? 57) then Some (unit - 48)
  else if (97 <=? unit) && (unit <=? 102) then Some (unit - 97 + 10)
  else if (65 <=? unit) && (unit <=? 70) then Some (unit - 65 + 10)
  else None.

Definition hex_digit (value : Z) : Z := if value <? 10 then 48 + value else 97 + value - 10.

(** The [while read < length && bytes.len() < max_length] loop. *)
Fixpoint hex_loop (fuel : nat) (input : Repr) (max_length length read : Z) (bytes : list Z) :
    outcome CodecFailure DecodeResult :=
  match fuel with
  | O => Err OutOfFuel
  | S fuel =>
      if negb ((read <? length) && (len bytes <? max_length)) then Ok (mkDecodeResult read bytes false) else
      unit ← code_unit_at input read;
      match hex_value unit with
      | None => Ok (mkDecodeResult read bytes true)
      | Some high =>
          unit ← code_unit_at input (read + 1);
          match hex_value unit with
          | None => Ok (mkDecodeResult read bytes true)
          | Some low =>
              hex_loop fuel input max_length length (read + 2) (bytes ++ [Z.lor (shl_u8 high 4) low])
          end
      end
  end.

Definition decode_hex (input : Repr) (max_length : Z) : outcome CodecFailure DecodeResult :=
  let length := Repr.len input in
  if negb (length mod 2 =? 0) then Ok (mkDecodeResult 0 [] true) else
  let capacity := Z.min (length / 2) max_length in
  lift (Prelude.reserve "hex bytes" 0 capacity (BytesAllocationFailed capacity)) ;;
  hex_loop (S (Z.to_nat length)) input max_length length 0 [].

(** [JsString::from_latin1(&output)?] *)
Definition latin1 (output : list Z) : outcome CodecFailure Repr :=
  map_err (λ e, Fail (CodecString e)) (JsString.from_latin1 output).

(** The tail of [finish_uint8_array_to_hex]. *)
Definition encode_hex (bytes : list Z) : outcome CodecFailure Repr :=
  output_length ← ok_or (if len bytes * 2 <=? u64_max then Some (len bytes * 2) else None)
    (Fail (BytesAllocationFailed (len bytes)));
  lift (Prelude.reserve "hex text" 0 output_length (BytesAllocationFailed output_length)) ;;
  latin1 (bytes ≫= λ byte, [hex_digit (Z.shiftr byte 4); hex_digit (Z.land byte 0x0f)]).

(** *** Base64 encoding *)

Definition base64_alphabet (alphabet : Base64Alphabet) : list Z :=
  match alphabet with
  | Standard => ascii_chars "ABCDEFGHIJKLMNOPQRSTUVWXYZabcdefghijklmnopqrstuvwxyz0123456789+/"
  | Url => ascii_chars "ABCDEFGHIJKLMNOPQRSTUVWXYZabcdefghijklmnopqrstuvwxyz0123456789-_"
  end.

(** [alphabet[usize::from(value)]] for each value. *)
Definition digits (alphabet : list Z) (values : list Z) : outcome CodecFailure (list Z) :=
  try_map (λ value, expect (at_index alphabet value)) values.

(** [chunks_exact(3)], then its remainder. *)
Fixpoint encode_chunks (alphabet : list Z) (omit_padding : bool) (bytes : list Z) :
    outcome CodecFailure (list Z) :=
  match bytes with
  | [] => Ok []
  | [first] =>
      output ← digits alphabet [Z.shiftr first 2; shl_u8 (Z.land first 0x03) 4];
      Ok (output ++ if omit_padding then [] else [equals_sign; equals_sign])
  | [first; second] =>
      output ← digits alphabet
        [Z.shiftr first 2; Z.lor (shl_u8 (Z.land first 0x03) 4) (Z.shiftr second 4);
         shl_u8 (Z.land second 0x0f) 2];
      Ok (output ++ if omit_padding then [] else [equals_sign])
  | c0 :: c1 :: c2 :: bytes =>
      output ← digits alphabet
        [Z.shiftr c0 2; Z.lor (shl_u8 (Z.land c0 0x03) 4) (Z.shiftr c1 4);
         Z.lor (shl_u8 (Z.land c1 0x0f) 2) (Z.shiftr c2 6); Z.land c2 0x3f];
      rest ← encode_chunks alphabet omit_padding bytes;
      Ok (output ++ rest)
  end.

Definition encode_base64 (bytes : list Z) (alphabet : Base64Alphabet) (omit_padding : bool) :
    outcome CodecFailure Repr :=
  let padded_length := Z.min (saturating_add_u64 (len bytes) 2 / 3 * 4) u64_max in
  lift (Prelude.reserve "base64 text" 0 padded_length (BytesAllocationFailed padded_length)) ;;
  output ← encode_chunks (base64_alphabet alphabet) omit_padding bytes;
  latin1 output.
End with_allocator.
End ByteCodec.
