(* ===== verification/ByteCodecFacts.v ===== *)
(** * The byte codecs against reference definitions

    A reference decoder for base64 that reads the text without its whitespace
    in groups of four, and the theorems that the state machine of ByteCodec.v
    computes it, stays within the length it is given, reports how much it read
    exactly, and inverts the encoder; likewise for hexadecimal. *)

From S2P Require Import Prelude RuntimePrelude JsStrings JsStringFacts ByteCodec.
From stdpp Require Import list.
Local Open Scope Z_scope.

(** ** The reference *)

Definition visible (us : list Z) : list Z := filter (λ u, ByteCodec.is_ascii_whitespace u = false) us.

(** Four sextets make three bytes. *)
Definition group (a b c d : Z) : list Z := [a * 4 + b / 16; b mod 16 * 16 + c / 4; c mod 4 * 64 + d].

(** An incomplete group without padding. *)
Definition partial (last_chunk : LastChunkHandling) (bs : list Z) : list Z * bool :=
  match last_chunk with
  | Loose => (bs, true)
  | Strict => ([], false)
  | StopBeforePartial => ([], true)
  end.

(** A padded group: strict decoding wants its unused bits to be zero. *)
Definition padded (last_chunk : LastChunkHandling) (unused : Z) (bs : list Z) : list Z * bool :=
  if bool_decide (last_chunk = Strict) && negb (unused =? 0) then ([], false) else (bs, true).

(** What follows the last full group: the bytes, and whether it is well formed. *)
Definition closing (alphabet : Base64Alphabet) (last_chunk : LastChunkHandling) (us : list Z) : list Z * bool :=
  let value u := ByteCodec.base64_value u alphabet in
  match us with
  | [] => ([], true)
  | [a] => ([], bool_decide (last_chunk = StopBeforePartial) && bool_decide (is_Some (value a)))
  | a :: b :: rest =>
      match value a, value b with
      | Some x, Some y =>
          match rest with
          | [] => partial last_chunk [x * 4 + y / 16]
          | [c] =>
              if c =? 61 then ([], bool_decide (last_chunk = StopBeforePartial)) else
              match value c with
              | Some z => partial last_chunk [x * 4 + y / 16; y mod 16 * 16 + z / 4]
              | None => ([], false)
              end
          | [c; d] =>
              if negb (d =? 61) then ([], false)
              else if c =? 61 then padded last_chunk (y mod 16) [x * 4 + y / 16]
              else match value c with
                   | Some z => padded last_chunk (z mod 4) [x * 4 + y / 16; y mod 16 * 16 + z / 4]
                   | None => ([], false)
                   end
          | _ => ([], false)
          end
      | _, _ => ([], false)
      end
  end.

Fixpoint reference (alphabet : Base64Alphabet) (last_chunk : LastChunkHandling) (us : list Z) : list Z * bool :=
  let value u := ByteCodec.base64_value u alphabet in
  match us with
  | a :: b :: c :: d :: rest =>
      match value a, value b, value c, value d with
      | Some w, Some x, Some y, Some z =>
          let '(bs, ok) := reference alphabet last_chunk rest in (group w x y z ++ bs, ok)
      | _, _, _, _ => closing alphabet last_chunk us
      end
  | _ => closing alphabet last_chunk us
  end.

(** ** Sextets *)

Lemma sextets_check (P : Z → Z → bool) :
  forallb (λ x, forallb (P x) (seqZ 0 64)) (seqZ 0 64) = true →
  ∀ x y, 0 ≤ x < 64 → 0 ≤ y < 64 → P x y = true.
Proof.
  intros Hall x y Hx Hy. rewrite forallb_forall in Hall.
  assert (In x (seqZ 0 64)) as Hin by (apply list_elem_of_In, elem_of_seqZ; lia).
  specialize (Hall _ Hin). rewrite forallb_forall in Hall. apply Hall, list_elem_of_In, elem_of_seqZ. lia.
Qed.

Definition is_sextet (v : Z) : Prop := 0 ≤ v < 64.

Lemma full_chunk a b c d : is_sextet a → is_sextet b → is_sextet c → is_sextet d →
  ByteCodec.decode_full_base64_chunk [a; b; c; d] = group a b c d.
Proof.
  intros Ha Hb Hc Hd. unfold group. cbn [ByteCodec.decode_full_base64_chunk].
  pose proof (sextets_check (λ x y, Z.lor (ByteCodec.shl_u8 x 2) (Z.shiftr y 4) =? x * 4 + y / 16)
    ltac:(by vm_compute) a b Ha Hb) as E1.
  pose proof (sextets_check (λ x y, Z.lor (ByteCodec.shl_u8 x 4) (Z.shiftr y 2) =? x mod 16 * 16 + y / 4)
    ltac:(by vm_compute) b c Hb Hc) as E2.
  pose proof (sextets_check (λ x y, Z.lor (ByteCodec.shl_u8 x 6) y =? x mod 4 * 64 + y)
    ltac:(by vm_compute) c d Hc Hd) as E3.
  apply Z.eqb_eq in E1, E2, E3. by rewrite E1, E2, E3.
Qed.

Lemma value_sextet u alphabet v : ByteCodec.base64_value u alphabet = Some v → is_sextet v.
Proof.
  unfold ByteCodec.base64_value, is_sextet. intros Hv. destruct alphabet; repeat case_match; simplify_eq; bool_to_prop; lia.
Qed.

Lemma value_equals alphabet : ByteCodec.base64_value 61 alphabet = None.
Proof. by destruct alphabet. Qed.

Lemma group_bytes a b c d : is_sextet a → is_sextet b → is_sextet c → is_sextet d → byte_list (group a b c d).
Proof. unfold is_sextet. intros. repeat constructor; divmod_lia. Qed.

(** ** Groups of four *)

Section text.
Context (alphabet : Base64Alphabet).

Definition valued (us vs : list Z) : Prop :=
  Forall2 (λ u v, ByteCodec.base64_value u alphabet = Some v) us vs.

(** [us] is a sequence of full groups, which decodes to [bs]. *)
Inductive groups : list Z → list Z → Prop :=
| groups_nil : groups [] []
| groups_snoc us bs q w x y z : groups us bs → valued q [w; x; y; z] →
    groups (us ++ q) (bs ++ group w x y z).

Lemma valued_sextets us vs : valued us vs → Forall is_sextet vs.
Proof. induction 1 as [|u v us vs Hv _ IH]; constructor; [by eapply value_sextet|done]. Qed.

Lemma valued_four q w x y z : valued q [w; x; y; z] → ∃ a b c d, q = [a; b; c; d]
  ∧ ByteCodec.base64_value a alphabet = Some w ∧ ByteCodec.base64_value b alphabet = Some x
  ∧ ByteCodec.base64_value c alphabet = Some y ∧ ByteCodec.base64_value d alphabet = Some z.
Proof.
  intros Hv. apply Forall2_cons_inv_r in Hv as (a & q1 & Ha & Hv & ->).
  apply Forall2_cons_inv_r in Hv as (b & q2 & Hb & Hv & ->).
  apply Forall2_cons_inv_r in Hv as (c & q3 & Hc & Hv & ->).
  apply Forall2_cons_inv_r in Hv as (d & q4 & Hd & Hv & ->).
  apply Forall2_nil_inv_r in Hv as ->. naive_solver.
Qed.

Lemma group_length w x y z : len (group w x y z) = 3.
Proof. done. Qed.

Lemma groups_length us bs : groups us bs → 4 * len bs = 3 * len us.
Proof.
  induction 1 as [|us bs q w x y z _ IH Hv]; [done|]. rewrite !len_app, group_length.
  apply Forall2_length in Hv. unfold len in *. simpl in Hv. lia.
Qed.

Lemma groups_bytes us bs : groups us bs → byte_list bs.
Proof.
  induction 1 as [|us bs q w x y z _ IH Hv]; [constructor|]. apply Forall_app. split; [done|].
  apply valued_sextets in Hv. repeat (apply Forall_cons_1 in Hv as [? Hv]). by apply group_bytes.
Qed.

Lemma reference_four last_chunk q w x y z us : valued q [w; x; y; z] →
  reference alphabet last_chunk (q ++ us) =
    (group w x y z ++ (reference alphabet last_chunk us).1, (reference alphabet last_chunk us).2).
Proof.
  intros (a & b & c & d & -> & Ha & Hb & Hc & Hd)%valued_four. cbn [app reference].
  rewrite Ha, Hb, Hc, Hd. by destruct (reference alphabet last_chunk us).
Qed.

Lemma reference_groups last_chunk us bs : groups us bs → ∀ rest,
  reference alphabet last_chunk (us ++ rest) =
    (bs ++ (reference alphabet last_chunk rest).1, (reference alphabet last_chunk rest).2).
Proof.
  induction 1 as [|us bs q w x y z _ IH Hv]; intros rest.
  - simpl app. by destruct (reference _ _ _).
  - rewrite <- app_assoc, IH, (reference_four _ _ _ _ _ _ _ Hv). simpl. by rewrite <- app_assoc.
Qed.

Lemma reference_all last_chunk us bs : groups us bs → reference alphabet last_chunk us = (bs, true).
Proof. intros Hg. rewrite <- (app_nil_r us), (reference_groups _ _ _ Hg). simpl. by rewrite app_nil_r. Qed.

(** A unit that is neither a digit nor padding ends the decoding. *)
Lemma reference_invalid last_chunk q vs u rest : valued q vs → (length q ≤ 3)%nat → u ≠ 61 →
  ByteCodec.base64_value u alphabet = None → reference alphabet last_chunk (q ++ u :: rest) = ([], false).
Proof.
  intros Hv Hq Hu Hn.
  destruct Hv as [|a x q vs Ha Hv]; [|destruct Hv as [|b y q vs Hb Hv]; [|
    destruct Hv as [|c z q vs Hc Hv]; [|destruct Hv; [|simpl in Hq; lia]]]].
  all: apply Z.eqb_neq in Hu; destruct rest as [|r0 [|r1 [|r2 rest]]]; cbn [app reference]; unfold closing;
    rewrite ?Ha, ?Hb, ?Hc, ?Hn, ?Hu; simpl; rewrite ?andb_false_r; try done.
  all: repeat (case_match; try done).
Qed.

(** What is left after the full groups. *)
Lemma reference_short last_chunk q vs : valued q vs → (length q ≤ 3)%nat →
  reference alphabet last_chunk q = closing alphabet last_chunk q.
Proof. intros _ Hq. destruct q as [|a [|b [|c [|]]]]; simpl in Hq; [done..|lia]. Qed.

Lemma reference_padding last_chunk q vs us : valued q vs → (length q ≤ 3)%nat →
  reference alphabet last_chunk (q ++ 61 :: us) = closing alphabet last_chunk (q ++ 61 :: us).
Proof.
  intros Hv Hq. pose proof (value_equals alphabet) as He.
  destruct q as [|a [|b [|c [|]]]]; simpl in Hq; try lia;
    destruct us as [|u0 [|u1 [|u2 us]]]; cbn [app reference]; try done; rewrite He; try done; repeat (case_match; try done).
Qed.
End text.

(** ** The decoder *)

Lemma visible_app us vs : visible (us ++ vs) = visible us ++ visible vs.
Proof. apply filter_app. Qed.

Lemma visible_cons u us : ByteCodec.is_ascii_whitespace u = false → visible (u :: us) = u :: visible us.
Proof. intros Hu. unfold visible. by rewrite filter_cons_True. Qed.

Lemma visible_length us : len (visible us) ≤ len us.
Proof. unfold len, visible. pose proof (length_filter (λ u, ByteCodec.is_ascii_whitespace u = false) us). lia. Qed.

Lemma append_final_two bs chunk x y strict : take 2 chunk = [x; y] → is_sextet x → is_sextet y →
  ByteCodec.append_final_base64_chunk bs chunk 2 strict =
    Ok (if strict && negb (y mod 16 =? 0) then None else Some (bs ++ [x * 4 + y / 16])).
Proof.
  intros Ht Hx Hy. unfold ByteCodec.append_final_base64_chunk. rewrite Ht.
  cbn [Nat.eqb orb negb app replicate Nat.sub]. rewrite full_chunk by (done || by split).
  cbn [group lookup list_lookup expect ok_or mbind result_bind].
  replace (y mod 16 * 16 + 0 / 4 =? 0) with (y mod 16 =? 0); [by destruct (_ && _)|].
  destruct (Z.eqb_spec (y mod 16) 0), (Z.eqb_spec (y mod 16 * 16 + 0 / 4) 0); try done; exfalso; divmod_lia.
Qed.

Lemma append_final_three bs chunk x y z strict : take 3 chunk = [x; y; z] →
  is_sextet x → is_sextet y → is_sextet z →
  ByteCodec.append_final_base64_chunk bs chunk 3 strict =
    Ok (if strict && negb (z mod 4 =? 0) then None
        else Some (bs ++ [x * 4 + y / 16; y mod 16 * 16 + z / 4])).
Proof.
  intros Ht Hx Hy Hz. unfold ByteCodec.append_final_base64_chunk. rewrite Ht.
  cbn [Nat.eqb orb negb app replicate Nat.sub]. rewrite full_chunk by (done || by split).
  cbn [group lookup list_lookup expect ok_or mbind result_bind take].
  replace (z mod 4 * 64 + 0 =? 0) with (z mod 4 =? 0); [by destruct (_ && _)|].
  destruct (Z.eqb_spec (z mod 4) 0), (Z.eqb_spec (z mod 4 * 64 + 0) 0); try done; lia.
Qed.

Section decoder.
Context `{Allocator} (input : Repr) (Hwf : wf input) (alphabet : Base64Alphabet)
  (last_chunk : LastChunkHandling) (max_length : Z).
Local Notation us := (units input).
Local Notation reference := (reference alphabet last_chunk).
Local Notation rest_at := (rest_at input).

Lemma code_unit_at_rest i u S : rest_at i (u :: S) → ByteCodec.code_unit_at input i = Ok u.
Proof.
  intros HS. pose proof (rest_at_bound _ Hwf _ _ HS) as Hb. pose proof HS as (Hi & _).
  unfold ByteCodec.code_unit_at. assert (try_u32 i = Some i) as ->.
  { apply try_u32_Some. split; [done|]. assert (MAX_STRING_CODE_UNITS = 1073741823) by done. solve_ints. }
  cbn [ok_or mbind result_bind]. rewrite <- (Z.add_0_r i), (rest_at_lookup _ Hwf _ _ _ HS) by lia. done.
Qed.

Lemma rest_at_len i S : rest_at i S → i + len S = len us.
Proof. by intros (_ & ? & _). Qed.

Lemma skip_spec : ∀ fuel i S, rest_at i S → (length S < fuel)%nat → ∃ ws S',
  S = ws ++ S' ∧ visible ws = [] ∧ rest_at (i + len ws) S'
  ∧ ByteCodec.skip_ascii_whitespace fuel input i (len us) = Ok (i + len ws)
  ∧ (∀ u S'', S' = u :: S'' → ByteCodec.is_ascii_whitespace u = false).
Proof.
  induction fuel as [|fuel IH]; intros i S HS Hf; [lia|]. pose proof (rest_at_len _ _ HS) as Hl.
  cbn [ByteCodec.skip_ascii_whitespace]. destruct S as [|u S].
  - change (len (@nil Z)) with 0 in Hl. destruct (Z.ltb_spec i (len us)); [lia|]. exists [], [].
    change (len (@nil Z)) with 0. rewrite Z.add_0_r. by split_and!.
  - assert (len (u :: S) = 1 + len S) as Hu by (unfold len; simpl; lia). pose proof (len_nonneg S).
    destruct (Z.ltb_spec i (len us)); [|lia]. rewrite (code_unit_at_rest i u S HS). cbn [mbind result_bind].
    destruct (ByteCodec.is_ascii_whitespace u) eqn:Hw; cbn [negb].
    + destruct (IH (i + 1) S) as (ws & S' & -> & Hv & HS' & E & Hh).
      { by apply (rest_at_step input i [u]). }
      { simpl in Hf. lia. }
      assert (i + 1 + len ws = i + len (u :: ws)) as Hi by (unfold len; simpl; lia). rewrite Hi in *.
      exists (u :: ws), S'. split_and!; [done| |done|done|done].
      unfold visible. by rewrite filter_cons_False by congruence.
    + exists [], (u :: S). change (len (@nil Z)) with 0. rewrite Z.add_0_r. split_and!; [done..|]. naive_solver.
Qed.

(** What the decoder promises of a result. *)
Definition good (r : DecodeResult) : Prop :=
  0 ≤ read r ≤ len us ∧ len (bytes r) ≤ max_length ∧ byte_list (bytes r)
  ∧ reference (visible (take (Z.to_nat (read r)) us)) = (bytes r, true)
  ∧ (len us < max_length → reference (visible us) = (bytes r, negb (error r))
     ∧ (error r = false → last_chunk ≠ StopBeforePartial → read r = len us)).

(** Stopping after the last full group. *)
Lemma good_stop G bs read_ err : groups alphabet G bs → 0 ≤ read_ ≤ len us →
  visible (take (Z.to_nat read_) us) = G → len bs ≤ max_length →
  (len us < max_length → reference (visible us) = (bs, negb err) ∧ (err = false → last_chunk = StopBeforePartial)) →
  good (mkDecodeResult read_ bs err).
Proof.
  intros Hg Hr Hv Hm Hall. unfold good. simpl. split_and!; [lia|lia|done|by eapply groups_bytes| |].
  - rewrite Hv. by apply reference_all.
  - intros [? Hs]%Hall. split; [done|]. by intros ->%Hs.
Qed.

(** Reading to the end. *)
Lemma good_end bs : byte_list bs → len bs ≤ max_length → reference (visible us) = (bs, true) →
  good (mkDecodeResult (len us) bs false).
Proof.
  intros Hb Hm Hr. unfold good. cbn [read bytes error]. pose proof (len_nonneg us). split_and!; [lia|lia|done|done| |done].
  rewrite take_ge by (unfold len; lia). done.
Qed.

(** The state between two turns: the text before [index] is the full groups
    [G], decoded to [bs] and ending at [read_], then the digits [q] of the
    chunk. *)
Record between (index read_ : Z) (bs chunk G q vs : list Z) : Prop := mkBetween {
  between_groups : groups alphabet G bs;
  between_digits : valued alphabet q vs;
  between_index : visible (take (Z.to_nat index) us) = G ++ q;
  between_read : 0 ≤ read_ ≤ len us ∧ visible (take (Z.to_nat read_) us) = G;
  between_short : (length q ≤ 3)%nat;
  between_chunk : take (length q) chunk = vs ∧ length chunk = 4%nat;
  between_room : len bs < max_length ∧ (length q = 3%nat → len bs + 2 ≤ max_length)
}.

Lemma take_rest i l S : rest_at i (l ++ S) →
  take (Z.to_nat (i + len l)) us = take (Z.to_nat i) us ++ l.
Proof.
  intros (Hi & _ & HS). rewrite Z2Nat.inj_add by (apply len_nonneg || lia).
  rewrite <- take_take_drop, HS. f_equal. unfold len. by rewrite Nat2Z.id, take_app_length.
Qed.

Lemma whole_text i S G q : rest_at i S → visible (take (Z.to_nat i) us) = G ++ q →
  visible us = G ++ q ++ visible S.
Proof.
  intros (_ & _ & HS) Hv. rewrite <- (take_drop (Z.to_nat i) us), visible_app, Hv, HS. by rewrite app_assoc.
Qed.

Lemma bytes_two x y : is_sextet x → is_sextet y → byte_list [x * 4 + y / 16].
Proof. unfold is_sextet. intros. repeat constructor; divmod_lia. Qed.

Lemma bytes_three x y z : is_sextet x → is_sextet y → is_sextet z →
  byte_list [x * 4 + y / 16; y mod 16 * 16 + z / 4].
Proof. unfold is_sextet. intros. repeat constructor; divmod_lia. Qed.

(** The two ways to end after [G]: dropping what follows, or decoding it. *)
Lemma between_stop index read_ bs chunk G q vs w err : between index read_ bs chunk G q vs →
  visible us = G ++ w → reference w = closing alphabet last_chunk w →
  closing alphabet last_chunk w = ([], negb err) → (err = false → last_chunk = StopBeforePartial) →
  good (mkDecodeResult read_ bs err).
Proof.
  intros [Hg _ _ [Hr Hv] _ _ [Hm _]] Hus Hw Hc Hs. apply (good_stop G); [done|done|done|lia|]. intros _.
  rewrite Hus, (reference_groups _ _ _ _ Hg), Hw, Hc. simpl. by rewrite app_nil_r.
Qed.

Lemma between_end index read_ bs chunk G q vs w tail : between index read_ bs chunk G q vs →
  visible us = G ++ w → reference w = closing alphabet last_chunk w →
  closing alphabet last_chunk w = (tail, true) → byte_list tail → len (bs ++ tail) ≤ max_length →
  good (mkDecodeResult (len us) (bs ++ tail) false).
Proof.
  intros [Hg _ _ _ _ _ _] Hus Hw Hc Hb Hm.
  apply good_end; [apply Forall_app; split; [by eapply groups_bytes|done]|done|].
  by rewrite Hus, (reference_groups _ _ _ _ Hg), Hw, Hc.
Qed.

Lemma finish_input_spec index read_ bs chunk G q vs : between index read_ bs chunk G q vs →
  visible us = G ++ q →
  ∃ r, ByteCodec.finish_input last_chunk (len us) read_ bs chunk (length q) = Ok r ∧ good r.
Proof.
  intros Hbt Hus. pose proof Hbt as [_ Hd _ _ Hq [Ht _] [Hm Hm3]].
  pose proof (reference_short alphabet last_chunk q vs Hd Hq) as Hw.
  pose proof (λ err, between_stop _ _ _ _ _ _ _ q err Hbt Hus Hw) as Hstop.
  pose proof (λ tail, between_end _ _ _ _ _ _ _ q tail Hbt Hus Hw) as Hend.
  pose proof (valued_sextets _ _ _ Hd) as Hsx. clear Hbt Hus Hw. unfold ByteCodec.finish_input.
  destruct Hd as [|a x q vs Ha Hd].
  { eexists. split; [done|]. rewrite <- (app_nil_r bs). apply Hend; [done|constructor|].
    rewrite app_nil_r. lia. }
  apply Forall_cons_1 in Hsx as [Hx Hsx]. destruct Hd as [|b y q vs Hb' Hd].
  { destruct last_chunk eqn:El; simpl; (eexists; split; [done|]; apply Hstop; simpl; rewrite ?Ha; done). }
  apply Forall_cons_1 in Hsx as [Hy Hsx]. destruct Hd as [|c z q vs Hc Hd].
  { cbn [length] in *. destruct last_chunk eqn:El; cbn [Nat.eqb].
    - rewrite (append_final_two _ _ x y) by done. simpl. eexists. split; [done|].
      apply Hend; [simpl; by rewrite Ha, Hb'|by apply bytes_two|]. rewrite len_app. unfold len in *. simpl. lia.
    - eexists. split; [done|]. apply Hstop; [simpl; by rewrite Ha, Hb'|done].
    - eexists. split; [done|]. apply Hstop; [simpl; by rewrite Ha, Hb'|done]. }
  apply Forall_cons_1 in Hsx as [Hz Hsx]. destruct Hd; [|simpl in Hq; lia].
  assert (c ≠ 61) as Hne%Z.eqb_neq by (intros ->; by rewrite value_equals in Hc).
  cbn [length] in *. destruct last_chunk eqn:El; cbn [Nat.eqb].
  - rewrite (append_final_three _ _ x y z) by done. simpl. eexists. split; [done|].
    apply Hend; [simpl; by rewrite Ha, Hb', Hne, Hc|by apply bytes_three|].
    rewrite len_app. specialize (Hm3 eq_refl). unfold len in *. simpl. lia.
  - eexists. split; [done|]. apply Hstop; [simpl; by rewrite Ha, Hb', Hne, Hc|done].
  - eexists. split; [done|]. apply Hstop; [simpl; by rewrite Ha, Hb', Hne, Hc|done].
Qed.

Lemma next_index i u S : rest_at i (u :: S) → saturating_add_u64 i 1 = i + 1 ∧ rest_at (i + 1) S ∧ i < len us.
Proof.
  intros HS. pose proof (rest_at_bound _ Hwf _ _ HS). pose proof (rest_at_len _ _ HS) as Hl.
  assert (len (u :: S) = 1 + len S) as Hu by (unfold len; simpl; lia). pose proof (len_nonneg S).
  assert (MAX_STRING_CODE_UNITS = 1073741823) by done. split_and!.
  - unfold saturating_add_u64. solve_ints.
  - by apply (rest_at_step input i [u]).
  - lia.
Qed.

Lemma rest_at_end i : rest_at i [] → i = len us.
Proof. intros Hl%rest_at_len. change (len (@nil Z)) with 0 in Hl. lia. Qed.

Lemma rest_at_small i S : rest_at i S → (length S < Datatypes.S (Z.to_nat (len us)))%nat.
Proof. intros HS. pose proof (rest_at_len _ _ HS). pose proof HS as (? & _). unfold len in *. lia. Qed.

(** Padding after two digits: a second [=], then the end. *)
Lemma finish_padding_two index read_ bs chunk G a b x y i S : between index read_ bs chunk G [a; b] [x; y] →
  rest_at i S → visible us = G ++ [a; b; 61] ++ visible S →
  ∃ r, ByteCodec.finish_padding (Datatypes.S (Z.to_nat (len us))) input last_chunk (len us) i read_ bs chunk 2 = Ok r
       ∧ good r.
Proof.
  intros Hbt HS Hus. pose proof Hbt as [_ Hd _ _ Hq [Ht _] [Hm _]].
  pose proof (reference_padding alphabet last_chunk _ _ (visible S) Hd Hq) as Hw.
  pose proof (λ err, between_stop _ _ _ _ _ _ _ _ err Hbt Hus Hw) as Hstop.
  pose proof (λ tail, between_end _ _ _ _ _ _ _ _ tail Hbt Hus Hw) as Hend.
  clear Hbt Hus Hw. pose proof (valued_sextets _ _ _ Hd) as [Hx [Hy _]%Forall_cons_1]%Forall_cons_1.
  apply Forall2_cons in Hd as [Ha [Hb _]%Forall2_cons]. unfold ByteCodec.finish_padding.
  destruct (skip_spec _ i S HS (rest_at_small _ _ HS)) as (ws & S' & -> & Hws & HS' & Hskip & Hhead).
  rewrite visible_app, Hws in Hstop, Hend. cbn [app] in Hstop, Hend. cbn [Nat.ltb Nat.leb Nat.eqb].
  rewrite Hskip. cbn [mbind result_bind]. destruct S' as [|u S'].
  { rewrite (rest_at_end _ HS'), Z.eqb_refl. eexists. split; [done|]. apply Hstop.
    - simpl. rewrite Ha, Hb. simpl. by rewrite negb_involutive.
    - intros ?%negb_false_iff%bool_decide_eq_true. done. }
  destruct (next_index _ _ _ HS') as (Hsat & HS2 & Hlt). specialize (Hhead _ _ eq_refl).
  destruct (Z.eqb_spec (i + len ws) (len us)); [lia|].
  rewrite (code_unit_at_rest _ _ _ HS'). cbn [mbind result_bind]. rewrite visible_cons in Hstop, Hend by done.
  unfold ByteCodec.equals_sign. destruct (Z.eqb_spec u 61) as [->|Hu].
  2:{ destruct (Z.ltb_spec (i + len ws) (len us)); [|lia]. eexists. split; [done|]. apply Hstop; [|done].
      apply Z.eqb_neq in Hu. simpl. rewrite Ha, Hb. destruct (visible S'); [by rewrite Hu|done]. }
  rewrite Hsat. destruct (skip_spec _ _ _ HS2 (rest_at_small _ _ HS2)) as (ws2 & S3 & -> & Hws2 & HS3 & Hskip2 & Hhead2).
  rewrite Hskip2. cbn [mbind result_bind]. rewrite visible_app, Hws2 in Hstop, Hend. cbn [app] in Hstop, Hend.
  destruct S3 as [|v S3].
  - rewrite (rest_at_end _ HS3), Z.ltb_irrefl, (append_final_two _ _ x y) by done. cbn [mbind result_bind].
    unfold closing in Hstop, Hend. rewrite Ha, Hb in Hstop, Hend. simpl in Hstop, Hend. unfold padded in Hstop, Hend.
    destruct (_ && _); eexists; (split; [done|]); [by apply Hstop|].
    apply Hend; [done|by apply bytes_two|]. rewrite len_app. unfold len in *. simpl. lia.
  - destruct (next_index _ _ _ HS3) as (_ & _ & Hlt3). destruct (Z.ltb_spec (i + len ws + 1 + len ws2) (len us)); [|lia].
    eexists. split; [done|]. apply Hstop; [|done]. rewrite visible_cons by (by eapply Hhead2). simpl. by rewrite Ha, Hb.
Qed.

(** Padding after three digits: the end. *)
Lemma finish_padding_three index read_ bs chunk G a b c x y z i S :
  between index read_ bs chunk G [a; b; c] [x; y; z] →
  rest_at i S → visible us = G ++ [a; b; c; 61] ++ visible S →
  ∃ r, ByteCodec.finish_padding (Datatypes.S (Z.to_nat (len us))) input last_chunk (len us) i read_ bs chunk 3 = Ok r
       ∧ good r.
Proof.
  intros Hbt HS Hus. pose proof Hbt as [_ Hd _ _ Hq [Ht _] [Hm Hm3]].
  pose proof (reference_padding alphabet last_chunk _ _ (visible S) Hd Hq) as Hw.
  pose proof (λ err, between_stop _ _ _ _ _ _ _ _ err Hbt Hus Hw) as Hstop.
  pose proof (λ tail, between_end _ _ _ _ _ _ _ _ tail Hbt Hus Hw) as Hend.
  clear Hbt Hus Hw.
  pose proof (valued_sextets _ _ _ Hd) as [Hx [Hy [Hz _]%Forall_cons_1]%Forall_cons_1]%Forall_cons_1.
  apply Forall2_cons in Hd as [Ha [Hb [Hc _]%Forall2_cons]%Forall2_cons]. unfold ByteCodec.finish_padding.
  assert (c ≠ 61) as Hne%Z.eqb_neq by (intros ->; by rewrite value_equals in Hc).
  destruct (skip_spec _ i S HS (rest_at_small _ _ HS)) as (ws & S' & -> & Hws & HS' & Hskip & Hhead).
  rewrite visible_app, Hws in Hstop, Hend. cbn [app] in Hstop, Hend. cbn [Nat.ltb Nat.leb Nat.eqb].
  rewrite Hskip. cbn [mbind result_bind]. destruct S' as [|u S'].
  - rewrite (rest_at_end _ HS'), Z.ltb_irrefl, (append_final_three _ _ x y z) by done. cbn [mbind result_bind].
    unfold closing in Hstop, Hend. rewrite Ha, Hb in Hstop, Hend. simpl in Hstop, Hend.
    rewrite Hne, Hc in Hstop, Hend. unfold padded in Hstop, Hend.
    destruct (_ && _); eexists; (split; [done|]); [by apply Hstop|].
    apply Hend; [done|by apply bytes_three|]. rewrite len_app. specialize (Hm3 eq_refl). unfold len in *. simpl. lia.
  - destruct (next_index _ _ _ HS') as (_ & _ & Hlt). destruct (Z.ltb_spec (i + len ws) (len us)); [|lia].
    eexists. split; [done|]. apply Hstop; [|done]. rewrite visible_cons by (by eapply Hhead). simpl. by rewrite Ha, Hb.
Qed.

Lemma finish_padding_spec index read_ bs chunk G q vs i S : between index read_ bs chunk G q vs →
  rest_at i S → visible us = G ++ q ++ 61 :: visible S →
  ∃ r, ByteCodec.finish_padding (Datatypes.S (Z.to_nat (len us))) input last_chunk (len us) i read_ bs chunk
         (length q) = Ok r ∧ good r.
Proof.
  intros Hbt HS Hus. pose proof Hbt as [_ Hd _ _ Hq _ _]. pose proof (value_equals alphabet) as He.
  pose proof (reference_padding alphabet last_chunk _ _ (visible S) Hd Hq) as Hw.
  destruct Hd as [|a x q vs Ha Hd].
  { eexists. split; [done|]. eapply between_stop; [done|done|done| |done]. cbn [app]. unfold closing.
    destruct (visible S); rewrite He; simpl; [|done]. by rewrite andb_false_r. }
  destruct Hd as [|b y q vs Hb Hd].
  { eexists. split; [done|]. eapply between_stop; [done|done|done| |done]. cbn [app]. unfold closing. by rewrite Ha, He. }
  destruct Hd as [|c z q vs Hc Hd]; [by eapply finish_padding_two|].
  destruct Hd; [by eapply finish_padding_three|simpl in Hq; lia].
Qed.

Lemma chunk_push (chunk vs : list Z) v : take (length vs) chunk = vs → (length vs < length chunk)%nat →
  take (S (length vs)) (<[length vs := v]> chunk) = vs ++ [v].
Proof.
  intros Ht Hl. rewrite (take_S_r _ _ v) by (by apply list_lookup_insert_eq).
  by rewrite take_insert_ge, Ht by lia.
Qed.

(** The limit is never met when it is larger than the text. *)
Lemma limit_unmet G bs q u rest : groups alphabet G bs → visible us = G ++ q ++ u :: rest →
  len us < max_length → len bs + len q + 2 ≤ max_length.
Proof.
  intros Hg Hus Hm. pose proof (visible_length us) as Hv. rewrite Hus, !len_app in Hv.
  apply groups_length in Hg. pose proof (len_nonneg rest).
  assert (len (u :: rest) = 1 + len rest) by (unfold len; simpl; lia). pose proof (len_nonneg G). lia.
Qed.

(** One more digit, as far as the chunk is not full. *)
Lemma between_digit index read_ bs chunk G q vs u v i S : between index read_ bs chunk G q vs →
  rest_at i (u :: S) → visible (take (Z.to_nat i) us) = G ++ q → ByteCodec.is_ascii_whitespace u = false →
  ByteCodec.base64_value u alphabet = Some v → (length q < 3)%nat →
  (length q = 2%nat → len bs + 2 ≤ max_length) →
  between (i + 1) read_ bs (<[length q := v]> chunk) G (q ++ [u]) (vs ++ [v]).
Proof.
  intros [Hg Hd _ Hr Hq [Ht Hc] [Hm Hm3]] HS Hv Hw Hval Hlt Hroom. pose proof (Forall2_length _ _ _ Hd) as Hlen.
  constructor; [done| | |done| | |].
  - apply Forall2_app; [done|]. by repeat constructor.
  - change 1 with (len [u]). rewrite (take_rest i [u] S HS), visible_app, Hv, visible_cons by done.
    by rewrite <- app_assoc.
  - rewrite length_app. simpl. lia.
  - rewrite length_app, Nat.add_1_r, length_insert. split; [|done]. rewrite Hlen in *. apply chunk_push; [done|lia].
  - split; [done|]. rewrite length_app. simpl. intros. apply Hroom. lia.
Qed.

(** The fourth digit. *)
Lemma between_full index read_ bs chunk G q vs u v i S : between index read_ bs chunk G q vs →
  rest_at i (u :: S) → visible (take (Z.to_nat i) us) = G ++ q → ByteCodec.is_ascii_whitespace u = false →
  ByteCodec.base64_value u alphabet = Some v → length q = 3%nat →
  let chunk' := <[length q := v]> chunk in let bs' := bs ++ ByteCodec.decode_full_base64_chunk chunk' in
  groups alphabet (G ++ q ++ [u]) bs' ∧ len bs' = len bs + 3 ∧ length chunk' = 4%nat
  ∧ visible (take (Z.to_nat (i + 1)) us) = G ++ q ++ [u] ∧ 0 ≤ i + 1 ≤ len us.
Proof.
  intros [Hg Hd _ Hr Hq [Ht Hc] [Hm Hm3]] HS Hv Hw Hval Hlen chunk' bs'.
  pose proof (Forall2_length _ _ _ Hd) as Hlvs. destruct (next_index _ _ _ HS) as (_ & (? & ? & _) & ?).
  assert (chunk' = vs ++ [v]) as Hck.
  { rewrite <- (chunk_push chunk vs v); [|by rewrite <- Hlvs|lia]. subst chunk'.
    rewrite Hlvs, take_ge; [done|]. rewrite length_insert. lia. }
  assert (valued alphabet (q ++ [u]) (vs ++ [v])) as Hd' by (apply Forall2_app; [done|by repeat constructor]).
  pose proof (valued_sextets _ _ _ Hd') as Hsx. subst bs'. rewrite Hck.
  destruct vs as [|w [|x [|y [|]]]]; simpl in Hlvs; try lia. cbn [app] in *.
  repeat (apply Forall_cons_1 in Hsx as [? Hsx]). rewrite full_chunk by done. split_and!.
  - by apply groups_snoc.
  - by rewrite len_app.
  - done.
  - change 1 with (len [u]). rewrite (take_rest i [u] S HS), visible_app, Hv, visible_cons by done.
    by rewrite <- app_assoc.
  - lia.
  - lia.
Qed.

Lemma decode_loop_spec : ∀ fuel index S read_ bs chunk G q vs, between index read_ bs chunk G q vs →
  rest_at index S → (length S < fuel)%nat →
  ∃ r, ByteCodec.decode_loop fuel input alphabet last_chunk max_length (len us) index read_ bs chunk (length q) = Ok r
       ∧ good r.
Proof.
  induction fuel as [|fuel IH]; intros index S read_ bs chunk G q vs Hbt HS Hf; [lia|].
  cbn [ByteCodec.decode_loop].
  destruct (skip_spec _ index S HS (rest_at_small _ _ HS)) as (ws & S' & -> & Hws & HS' & -> & Hhead).
  cbn [mbind result_bind].
  assert (visible (take (Z.to_nat (index + len ws)) us) = G ++ q) as Hvis.
  { rewrite (take_rest _ _ _ HS), visible_app, Hws, app_nil_r. by apply (between_index _ _ _ _ _ _ _ Hbt). }
  pose proof (whole_text _ _ _ _ HS' Hvis) as Hus. destruct S' as [|u S'].
  { rewrite (rest_at_end _ HS'), Z.eqb_refl. eapply finish_input_spec; [done|]. by rewrite Hus, app_nil_r. }
  destruct (next_index _ _ _ HS') as (Hsat & HS2 & Hlt). specialize (Hhead _ _ eq_refl).
  rewrite visible_cons in Hus by done.
  destruct (Z.eqb_spec (index + len ws) (len us)); [lia|].
  rewrite (code_unit_at_rest _ _ _ HS'). cbn [mbind result_bind]. rewrite Hsat. unfold ByteCodec.equals_sign.
  destruct (Z.eqb_spec u 61) as [->|Hu]; [by eapply finish_padding_spec|].
  pose proof Hbt as [Hg Hd _ [Hr Hv] Hq [Ht Hc] [Hm Hm3]].
  destruct (ByteCodec.base64_value u alphabet) as [v|] eqn:Hval.
  2:{ eexists. split; [done|]. apply (good_stop G); [done|done|done|lia|]. intros _.
      rewrite Hus, (reference_groups _ _ _ _ Hg), (reference_invalid _ _ _ _ _ _ Hd Hq Hu Hval). simpl. by rewrite app_nil_r. }
  assert (length S' < fuel)%nat as Hf' by (rewrite length_app in Hf; simpl in Hf; lia).
  unfold saturating_sub. destruct (_ || _) eqn:Hlimit.
  { eexists. split; [done|]. apply (good_stop G); [done|done|done|lia|]. intros Hbig.
    pose proof (limit_unmet _ _ _ _ _ Hg Hus Hbig). exfalso. unfold len in *.
    apply orb_true_iff in Hlimit as [Hl|Hl]; apply andb_true_iff in Hl as [?%Z.eqb_eq ?%Nat.eqb_eq]; lia. }
  apply orb_false_iff in Hlimit as [Hl1 Hl2].
  assert (is_Some (chunk !! length q)) as [old Hold] by (apply lookup_lt_is_Some; lia).
  rewrite Hold. cbn [expect ok_or mbind result_bind].
  destruct (Nat.eqb_spec (Datatypes.S (length q)) 4) as [H4|H4].
  - assert (length q = 3%nat) as H3 by lia. specialize (Hm3 H3). rewrite H3, andb_true_r in Hl2. apply Z.eqb_neq in Hl2.
    destruct (between_full _ _ _ _ _ _ _ _ _ _ _ Hbt HS' Hvis Hhead Hval H3) as (Hg' & Hl' & Hc' & Hv' & Hi').
    destruct (Z.eqb_spec (len (bs ++ ByteCodec.decode_full_base64_chunk (<[length q := v]> chunk))) max_length) as [Hfull|Hfull].
    + eexists. split; [done|]. eapply good_stop; [done|done|done|lia|]. intros Hbig.
      pose proof (limit_unmet _ _ _ _ _ Hg Hus Hbig). exfalso. unfold len in *. lia.
    + apply (IH _ S' _ _ _ (G ++ q ++ [u]) [] []); [|done|done].
      constructor; [done|constructor|by rewrite app_nil_r|done|simpl; lia|done|]. split; [lia|done].
  - rewrite <- Nat.add_1_r. change 1%nat with (length [u]). rewrite <- length_app.
    apply (IH _ S' _ _ _ G _ (vs ++ [v])); [|done|done].
    eapply between_digit; [done|done|done|done|done|lia|]. intros H2. rewrite H2, andb_true_r in Hl1.
    apply Z.eqb_neq in Hl1. lia.
Qed.
End decoder.

(** ** Outcomes *)

(** [yields m P long]: [m] returns a value with [P]; or reports a string over
    the length limit and [long] holds; or the host refused memory.  It never
    panics, runs on or trips an invariant check. *)
Definition yields `{Allocator} {A} (m : outcome CodecFailure A) (P : A → Prop) (long : Prop) : Prop :=
  match m with
  | Ok a => P a
  | Err (Fail (CodecString (TooLong _ _))) => long
  | Err (Fail (CodecString (AllocationFailed _))) | Err (Fail (BytesAllocationFailed _)) => refuses
  | Err _ => False
  end.

Section yields.
Context `{Allocator}.

Lemma yields_reserve {A} site n k (m : outcome CodecFailure A) P long : yields m P long →
  yields (lift (Prelude.reserve site n k (BytesAllocationFailed k)) ;; m) P long.
Proof.
  intros Hm. unfold Prelude.reserve, reject_if. destruct (try_reserve _ _ _) eqn:E; simpl; [done|].
  by eexists _, _, _.
Qed.

Lemma yields_latin1 out (P : Repr → Prop) long : byte_list out → (MAX_STRING_CODE_UNITS < len out → long) →
  (∀ e, wf e → units e = out → P e) → yields (ByteCodec.latin1 out) P long.
Proof.
  intros Hb Hl HP. unfold ByteCodec.latin1, JsString.from_latin1, JsString.check_length.
  destruct (Z.ltb_spec MAX_STRING_CODE_UNITS (len out)); simpl; [auto|].
  case_decide as He; simpl.
  - subst. by apply HP.
  - unfold JsString.reserve, Prelude.reserve, reject_if.
    destruct (try_reserve _ _ _) eqn:E; simpl; [|by eexists _, _, _]. by apply HP.
Qed.

Lemma yields_mono {A} (m : outcome CodecFailure A) (P Q : A → Prop) (long long' : Prop) :
  yields m P long → (∀ a, P a → Q a) → (long → long') → yields m Q long'.
Proof. destruct m as [a|[[|?|[]]| |]]; simpl; naive_solver. Qed.

Lemma yields_decode input alphabet last_chunk max_length : wf input → 0 ≤ max_length →
  yields (ByteCodec.decode_base64 input alphabet last_chunk max_length)
    (good input alphabet last_chunk max_length) False.
Proof.
  intros Hwf Hm. unfold ByteCodec.decode_base64. pose proof (len_nonneg (units input)).
  destruct (Z.eqb_spec max_length 0) as [->|].
  { unfold good. simpl. split_and!; [lia|lia|done|constructor|done|intros; lia]. }
  apply yields_reserve. rewrite wf_len by done.
  destruct (decode_loop_spec input Hwf alphabet last_chunk max_length (S (Z.to_nat (len (units input)))) 0
    (units input) 0 [] [0; 0; 0; 0] [] [] []) as (r & Hr & Hg).
  - constructor; [constructor|constructor|done|split; [lia|done]|simpl; lia|done|].
    change (len (@nil Z)) with 0. split; [lia|done].
  - apply rest_at_start.
  - unfold len. lia.
  - simpl length in Hr. by rewrite Hr.
Qed.
End yields.

(** C35. Base64 decoding, for every text, alphabet, treatment of the last chunk
    and length limit: it always ends with a result (or for want of memory);
    the bytes fit the limit; the units it reports as read decode, without
    error, to exactly the bytes it returns; and when the limit exceeds the text
    the bytes and the error flag are those of the reference decoder, with the
    whole text read unless it stops before a partial chunk. *)
Theorem base64_decode_exact `{Allocator} input alphabet last_chunk max_length : wf input → 0 ≤ max_length →
  yields (ByteCodec.decode_base64 input alphabet last_chunk max_length)
    (λ r, 0 ≤ read r ≤ len (units input) ∧ len (bytes r) ≤ max_length ∧ byte_list (bytes r)
       ∧ reference alphabet last_chunk (visible (take (Z.to_nat (read r)) (units input))) = (bytes r, true)
       ∧ (len (units input) < max_length →
            reference alphabet last_chunk (visible (units input)) = (bytes r, negb (error r))
            ∧ (error r = false → last_chunk ≠ StopBeforePartial → read r = len (units input))))
    False.
Proof. intros. by apply yields_decode. Qed.

(** "Zm9 vYg" *)
Lemma base64_decode_exact_witness : yields (H := always_allocates)
  (@ByteCodec.decode_base64 always_allocates (Latin1 [90; 109; 57; 32; 118; 89; 103]) Standard Loose 3)
  (λ r, 0 ≤ read r ≤ 7 ∧ len (bytes r) ≤ 3 ∧ byte_list (bytes r)
     ∧ reference Standard Loose (visible (take (Z.to_nat (read r)) [90; 109; 57; 32; 118; 89; 103])) = (bytes r, true)
     ∧ (7 < 3 → reference Standard Loose (visible [90; 109; 57; 32; 118; 89; 103]) = (bytes r, negb (error r))
        ∧ (error r = false → Loose ≠ StopBeforePartial → read r = 7)))
  False.
Proof.
  apply (@base64_decode_exact always_allocates (Latin1 [90; 109; 57; 32; 118; 89; 103]) Standard Loose 3).
  - split; [by repeat constructor|by vm_compute].
  - lia.
Defined.

(** ** The base64 encoder *)

Section encoder.
Context (alphabet : Base64Alphabet).

(** A digit of the alphabet: read back, not skipped, and one byte. *)
Definition is_digit_of (u v : Z) : Prop :=
  ByteCodec.base64_value u alphabet = Some v ∧ ByteCodec.is_ascii_whitespace u = false ∧ is_u8 u.

Lemma alphabet_digit v : is_sextet v → ∃ u, at_index (ByteCodec.base64_alphabet alphabet) v = Some u ∧ is_digit_of u v.
Proof.
  intros Hv.
  pose proof (sextets_check (λ v _, match at_index (ByteCodec.base64_alphabet alphabet) v with
    | Some u => bool_decide (ByteCodec.base64_value u alphabet = Some v)
                && negb (ByteCodec.is_ascii_whitespace u) && (0 <=? u) && (u <=? 255)
    | None => false end) ltac:(destruct alphabet; by vm_compute) v v Hv Hv) as E.
  revert E. cbn beta. destruct (at_index _ v) as [u|]; [|done]. intros E. apply andb_true_iff in E as [[[E1 E2]%andb_true_iff E3]%andb_true_iff E4].
  apply bool_decide_eq_true in E1. apply negb_true_iff in E2. exists u. split; [done|].
  split_and!; [done|done|]. bool_to_prop. solve_ints.
Qed.

Lemma digits_spec vs : Forall is_sextet vs →
  ∃ q, ByteCodec.digits (ByteCodec.base64_alphabet alphabet) vs = Ok q ∧ Forall2 is_digit_of q vs.
Proof.
  unfold ByteCodec.digits. induction 1 as [|v vs Hv _ (q & Hq & Hd)]; [by exists []|].
  destruct (alphabet_digit v Hv) as (u & Hu & Hdu). exists (u :: q). cbn [try_map]. rewrite Hu. cbn [expect ok_or mbind result_bind].
  rewrite Hq. cbn [mbind result_bind]. split; [done|by constructor].
Qed.

Lemma digits_valued q vs : Forall2 is_digit_of q vs → valued alphabet q vs ∧ visible q = q ∧ byte_list q.
Proof.
  induction 1 as [|u v q vs (Hu & Hw & Hb) _ (Hv & Hvis & Hbs)]; [by repeat constructor|].
  split_and!; [by constructor|by rewrite visible_cons, Hvis|by constructor].
Qed.

(** The sextets of one, two and three bytes. *)
Lemma top_sextet c : is_u8 c → Z.shiftr c 2 = c / 4 ∧ is_sextet (c / 4).
Proof. intros Hc. rewrite Z.shiftr_div_pow2 by lia. unfold is_sextet. unfold_ints. split; divmod_lia. Qed.

Lemma shl_mod c n k : 0 ≤ c → 0 ≤ n → 0 ≤ k → n + k ≤ 8 →
  ByteCodec.shl_u8 (Z.land c (Z.ones k)) n = c mod 2 ^ k * 2 ^ n.
Proof.
  intros Hc Hn Hk Hle. unfold ByteCodec.shl_u8. rewrite land_ones_mod, Z.shiftl_mul_pow2 by done.
  pose proof (Z.mod_pos_bound c (2 ^ k) ltac:(by apply Z.pow_pos_nonneg)).
  pose proof (Z.pow_pos_nonneg 2 n ltac:(lia) Hn).
  apply Z.mod_small. split; [nia|].
  assert (2 ^ k * 2 ^ n ≤ 256) by (rewrite <- Z.pow_add_r by lia; change 256 with (2 ^ 8); apply Z.pow_le_mono_r; lia).
  nia.
Qed.

Lemma middle_sextet c d : is_u8 c → is_u8 d →
  Z.lor (ByteCodec.shl_u8 (Z.land c 0x03) 4) (Z.shiftr d 4) = c mod 4 * 16 + d / 16
  ∧ is_sextet (c mod 4 * 16 + d / 16).
Proof.
  intros Hc Hd. unfold_ints. change 0x03 with (Z.ones 2). rewrite shl_mod by lia.
  rewrite Z.shiftr_div_pow2 by lia. rewrite (lor_tag _ 4) by divmod_lia. unfold is_sextet. split; [done|divmod_lia].
Qed.

Lemma third_sextet c d : is_u8 c → is_u8 d →
  Z.lor (ByteCodec.shl_u8 (Z.land c 0x0f) 2) (Z.shiftr d 6) = c mod 16 * 4 + d / 64
  ∧ is_sextet (c mod 16 * 4 + d / 64).
Proof.
  intros Hc Hd. unfold_ints. change 0x0f with (Z.ones 4). rewrite shl_mod by lia.
  rewrite Z.shiftr_div_pow2 by lia. rewrite (lor_tag _ 2) by divmod_lia. unfold is_sextet. split; [done|divmod_lia].
Qed.

Definition encoded_length (omit_padding : bool) (n : Z) : Z :=
  if omit_padding then (4 * n + 2) / 3 else (n + 2) / 3 * 4.

(** Which treatments of the last chunk accept the encoding. *)
Definition accepts (omit_padding : bool) (last_chunk : LastChunkHandling) (n : Z) : Prop :=
  omit_padding = false ∨ last_chunk = Loose ∨ n mod 3 = 0.

(** What the encoding of [bs] is. *)
Definition encodes (omit_padding : bool) (bs out : list Z) : Prop :=
  byte_list out ∧ visible out = out ∧ len out = encoded_length omit_padding (len bs)
  ∧ ∀ last_chunk, accepts omit_padding last_chunk (len bs) → reference alphabet last_chunk out = (bs, true).

Lemma encodes_group omit_padding c0 c1 c2 bs q out w x y z : Forall2 is_digit_of q [w; x; y; z] →
  group w x y z = [c0; c1; c2] → encodes omit_padding bs out →
  encodes omit_padding (c0 :: c1 :: c2 :: bs) (q ++ out).
Proof.
  intros Hq Hg (Hb & Hv & Hl & Hr). destruct (digits_valued _ _ Hq) as (Hval & Hvis & Hbq).
  assert (len (c0 :: c1 :: c2 :: bs) = 3 + len bs) as Hlen by (unfold len; simpl; lia).
  pose proof (len_nonneg bs). split_and!.
  - by apply Forall_app.
  - by rewrite visible_app, Hvis, Hv.
  - rewrite Hlen, len_app, Hl. apply Forall2_length in Hq. unfold len at 1. rewrite Hq. unfold encoded_length. simpl.
    case_match; divmod_lia.
  - intros last_chunk Ha. rewrite (reference_four _ _ _ _ _ _ _ _ Hval), Hr, Hg; [done|].
    destruct Ha as [?|[?|Hm]]; [by left|by right; left|]. right. right. rewrite Hlen in Hm. divmod_lia.
Qed.

Lemma encodes_one omit_padding c q : is_u8 c → Forall2 is_digit_of q [c / 4; c mod 4 * 16] →
  encodes omit_padding [c] (q ++ if omit_padding then [] else [61; 61]).
Proof.
  intros Hc Hq. destruct (digits_valued _ _ Hq) as (Hval & Hvis & Hbq). unfold_ints.
  apply Forall2_cons_inv_r in Hval as (a & q1 & Ha & Hval & ->).
  apply Forall2_cons_inv_r in Hval as (b & q2 & Hb & Hval & ->). apply Forall2_nil_inv_r in Hval as ->.
  assert (c / 4 * 4 + c mod 4 * 16 / 16 = c) as Hback by divmod_lia.
  assert ((c mod 4 * 16) mod 16 = 0) as Hunused by divmod_lia.
  split_and!.
  - apply Forall_app. split; [done|]. case_match; repeat constructor; lia.
  - rewrite visible_app, Hvis. by destruct omit_padding.
  - by destruct omit_padding.
  - intros last_chunk Hacc. destruct omit_padding.
    + simpl. rewrite Ha, Hb, Hback. destruct Hacc as [?|[->|?]]; done.
    + cbn [app reference]. rewrite Ha, Hb, value_equals. simpl. rewrite Ha, Hb. unfold padded.
      by rewrite Hunused, Hback, andb_false_r.
Qed.

Lemma encodes_two omit_padding c d q : is_u8 c → is_u8 d →
  Forall2 is_digit_of q [c / 4; c mod 4 * 16 + d / 16; d mod 16 * 4] →
  encodes omit_padding [c; d] (q ++ if omit_padding then [] else [61]).
Proof.
  intros Hc Hd Hq. destruct (digits_valued _ _ Hq) as (Hval & Hvis & Hbq). unfold_ints.
  apply Forall2_cons_inv_r in Hval as (u & q1 & Hu & Hval & ->).
  apply Forall2_cons_inv_r in Hval as (v & q2 & Hv & Hval & ->).
  apply Forall2_cons_inv_r in Hval as (w & q3 & Hw & Hval & ->). apply Forall2_nil_inv_r in Hval as ->.
  assert (c / 4 * 4 + (c mod 4 * 16 + d / 16) / 16 = c) as Hback1 by divmod_lia.
  assert ((c mod 4 * 16 + d / 16) mod 16 * 16 + d mod 16 * 4 / 4 = d) as Hback2 by divmod_lia.
  assert ((d mod 16 * 4) mod 4 = 0) as Hunused by divmod_lia.
  assert (w ≠ 61) as Hne%Z.eqb_neq by (intros ->; by rewrite value_equals in Hw).
  split_and!.
  - apply Forall_app. split; [done|]. case_match; repeat constructor; lia.
  - rewrite visible_app, Hvis. by destruct omit_padding.
  - by destruct omit_padding.
  - intros last_chunk Hacc. destruct omit_padding.
    + simpl. rewrite Hu, Hv, Hne, Hw, Hback1, Hback2. destruct Hacc as [?|[->|?]]; done.
    + cbn [app reference]. rewrite Hu, Hv, Hw, value_equals. simpl. rewrite Hu, Hv, Hne, Hw. unfold padded.
      by rewrite Hunused, Hback1, Hback2, andb_false_r.
Qed.

Lemma encode_chunks_spec omit_padding : ∀ n bs, (length bs ≤ n)%nat → byte_list bs →
  ∃ out, ByteCodec.encode_chunks (ByteCodec.base64_alphabet alphabet) omit_padding bs = Ok out
         ∧ encodes omit_padding bs out.
Proof.
  induction n as [|n IH]; intros [|c0 [|c1 [|c2 bs]]] Hn Hb; try (simpl in Hn; lia).
  1,2: exists []; split; [done|]; split_and!; [constructor|done|by destruct omit_padding|done].
  all: cbn [ByteCodec.encode_chunks]; apply Forall_cons_1 in Hb as [H0 Hb]; destruct (top_sextet c0 H0) as [-> Hs0].
  - change 0x03 with (Z.ones 2). rewrite shl_mod by (unfold_ints; lia). change (2 ^ 2) with 4. change (2 ^ 4) with 16.
    destruct (digits_spec [c0 / 4; c0 mod 4 * 16]) as (q & -> & Hq).
    { repeat constructor; unfold is_sextet in *; try lia; divmod_lia. }
    eexists. split; [done|]. by apply encodes_one.
  - apply Forall_cons_1 in Hb as [H1 Hb]. destruct (middle_sextet c0 c1 H0 H1) as [-> Hs1].
    change 0x0f with (Z.ones 4). rewrite shl_mod by (unfold_ints; lia). change (2 ^ 2) with 4. change (2 ^ 4) with 16.
    destruct (digits_spec [c0 / 4; c0 mod 4 * 16 + c1 / 16; c1 mod 16 * 4]) as (q & -> & Hq).
    { repeat apply Forall_cons_2; [done|done| |apply Forall_nil_2]. unfold is_sextet. divmod_lia. }
    eexists. split; [done|]. by apply encodes_two.
  - apply Forall_cons_1 in Hb as [H1 Hb]. apply Forall_cons_1 in Hb as [H2 Hb].
    destruct (middle_sextet c0 c1 H0 H1) as [-> Hs1]. destruct (third_sextet c1 c2 H1 H2) as [-> Hs2].
    change 0x3f with (Z.ones 6). rewrite land_ones_mod by lia. change (2 ^ 6) with 64.
    destruct (digits_spec [c0 / 4; c0 mod 4 * 16 + c1 / 16; c1 mod 16 * 4 + c2 / 64; c2 mod 64]) as (q & -> & Hq).
    { repeat apply Forall_cons_2; [done..| |apply Forall_nil_2]. unfold is_sextet. divmod_lia. }
    destruct (IH bs) as (out & -> & Hout); [simpl in Hn; lia|done|]. cbn [mbind result_bind].
    eexists. split; [done|]. eapply encodes_group; [done| |done].
    unfold group. unfold_ints. repeat (f_equal; [divmod_lia|]). f_equal. divmod_lia.
Qed.
End encoder.

(** C38. [toBase64] then [fromBase64]: encoding returns a text of the stated
    length (and reports a too long string only when that length is over the
    limit), and decoding it with the same alphabet returns the bytes, without
    error and with the whole text read, whenever padding was written, or the
    last chunk is treated loosely, or there is no partial chunk. *)
Theorem base64_roundtrip `{Allocator} bs alphabet omit_padding : byte_list bs →
  yields (ByteCodec.encode_base64 bs alphabet omit_padding)
    (λ e, wf e ∧ len (units e) = encoded_length omit_padding (len bs)
       ∧ ∀ last_chunk max_length, accepts omit_padding last_chunk (len bs) → len (units e) < max_length →
           yields (ByteCodec.decode_base64 e alphabet last_chunk max_length)
             (λ r, bytes r = bs ∧ error r = false
                ∧ (last_chunk ≠ StopBeforePartial → read r = len (units e))) False)
    (MAX_STRING_CODE_UNITS < encoded_length omit_padding (len bs)).
Proof.
  intros Hb. unfold ByteCodec.encode_base64. apply yields_reserve.
  destruct (encode_chunks_spec alphabet omit_padding (length bs) bs (le_n _) Hb) as (out & -> & Hbo & Hv & Hl & Hr).
  cbn [mbind result_bind]. apply yields_latin1; [done|by rewrite Hl|]. intros e He Hu. rewrite Hu.
  split_and!; [done|done|]. intros last_chunk max_length Hacc Hmax. pose proof (len_nonneg out).
  eapply yields_mono; [apply yields_decode; [done|lia]| |done]. intros r (_ & _ & _ & _ & Hall).
  rewrite Hu in Hall. destruct (Hall Hmax) as [Hd Hread]. rewrite Hv, Hr in Hd by done.
  injection Hd as Hbs He'. symmetry in He'. apply negb_true_iff in He'. auto.
Qed.

Lemma base64_roundtrip_witness : yields (H := always_allocates)
  (@ByteCodec.encode_base64 always_allocates [102; 111; 255; 0] Url false)
  (λ e, wf e ∧ len (units e) = encoded_length false 4
     ∧ ∀ last_chunk max_length, accepts false last_chunk 4 → len (units e) < max_length →
         yields (H := always_allocates) (@ByteCodec.decode_base64 always_allocates e Url last_chunk max_length)
           (λ r, bytes r = [102; 111; 255; 0] ∧ error r = false
              ∧ (last_chunk ≠ StopBeforePartial → read r = len (units e))) False)
  (MAX_STRING_CODE_UNITS < encoded_length false 4).
Proof.
  apply (@base64_roundtrip always_allocates [102; 111; 255; 0] Url false).
  repeat apply Forall_cons_2; try apply Forall_nil_2; solve_ints.
Defined.

(** ** Hexadecimal *)

(** The bytes of the leading pairs of digits, and whether there is nothing else. *)
Fixpoint hex_reference (us : list Z) : list Z * bool :=
  match us with
  | h :: l :: us =>
      match ByteCodec.hex_value h, ByteCodec.hex_value l with
      | Some high, Some low => let '(bs, ok) := hex_reference us in (16 * high + low :: bs, ok)
      | _, _ => ([], false)
      end
  | [] => ([], true)
  | _ => ([], false)
  end.

(** The result when at most [max_length] bytes are wanted. *)
Definition hex_result (max_length : Z) (us : list Z) : DecodeResult :=
  if negb (len us mod 2 =? 0) then mkDecodeResult 0 [] true else
  let '(bs, ok) := hex_reference us in
  let bs' := take (Z.to_nat max_length) bs in
  mkDecodeResult (2 * len bs') bs' (negb ok && (len bs <? max_length)).

Lemma hex_nibble u v : ByteCodec.hex_value u = Some v → 0 ≤ v < 16.
Proof. unfold ByteCodec.hex_value. intros Hv. repeat case_match; simplify_eq; bool_to_prop; lia. Qed.

Lemma hex_byte high low : 0 ≤ high < 16 → 0 ≤ low < 16 → Z.lor (ByteCodec.shl_u8 high 4) low = 16 * high + low.
Proof.
  intros Hh Hl. unfold ByteCodec.shl_u8. rewrite Z.shiftl_mul_pow2, Z.mod_small by (simpl; lia).
  rewrite (lor_tag high 4) by (simpl; lia). simpl. lia.
Qed.

Lemma hex_loop_spec input max_length (Hwf : wf input) : 0 ≤ max_length → ∀ fuel i S bs,
  rest_at input i S → len S mod 2 = 0 → (length S < fuel)%nat → len bs ≤ max_length →
  ByteCodec.hex_loop fuel input max_length (len (units input)) i bs =
    Ok (let '(rest, ok) := hex_reference S in
        let more := take (Z.to_nat (max_length - len bs)) rest in
        mkDecodeResult (i + 2 * len more) (bs ++ more) (negb ok && (len bs + len rest <? max_length))).
Proof.
  intros Hm. induction fuel as [|fuel IH]; intros i S bs HS He Hf Hb; [lia|].
  cbn [ByteCodec.hex_loop]. pose proof (rest_at_len input i S HS) as Hl.
  destruct S as [|h S].
  { change (len (@nil Z)) with 0 in Hl. destruct (Z.ltb_spec i (len (units input))); [lia|]. simpl.
    rewrite take_nil, app_nil_r. change (len (@nil Z)) with 0. by rewrite Z.add_0_r. }
  destruct S as [|l S]; [by vm_compute in He|].
  assert (len (h :: l :: S) = 2 + len S) as H2 by (unfold len; simpl; lia). pose proof (len_nonneg S).
  destruct (Z.ltb_spec i (len (units input))); [|lia].
  destruct (Z.ltb_spec (len bs) max_length) as [Hlt|Hge]; cbn [andb negb].
  2:{ assert (Z.to_nat (max_length - len bs) = 0%nat) as -> by lia.
      destruct (hex_reference (h :: l :: S)) as [rest ok]. simpl. rewrite app_nil_r.
      change (len (@nil Z)) with 0. pose proof (len_nonneg rest).
      destruct (Z.ltb_spec (len bs + len rest) max_length); [lia|]. by rewrite Z.add_0_r, andb_false_r. }
  destruct (next_index input Hwf _ _ _ HS) as (_ & HS1 & _). destruct (next_index input Hwf _ _ _ HS1) as (_ & HS2 & _).
  rewrite (code_unit_at_rest input Hwf _ _ _ HS), (code_unit_at_rest input Hwf _ _ _ HS1). cbn [mbind result_bind hex_reference].
  destruct (ByteCodec.hex_value h) as [high|] eqn:Hh, (ByteCodec.hex_value l) as [low|] eqn:Hlo.
  2-4: simpl; rewrite take_nil, app_nil_r; change (len (@nil Z)) with 0;
    destruct (Z.ltb_spec (len bs + 0) max_length); [by rewrite Z.add_0_r|lia].
  rewrite hex_byte by (by eapply hex_nibble). replace (i + 2) with (i + 1 + 1) by lia.
  rewrite (IH _ S); [|done|rewrite H2 in He; divmod_lia|simpl in Hf; lia|rewrite len_app; unfold len in *; simpl; lia].
  destruct (hex_reference S) as [rest ok]. rewrite len_app. change (len [16 * high + low]) with 1.
  replace (Z.to_nat (max_length - len bs)) with (Datatypes.S (Z.to_nat (max_length - (len bs + 1)))) by lia.
  cbn [take]. rewrite <- app_assoc. cbn [app]. unfold len. cbn [length]. do 2 f_equal; [lia|]. f_equal. f_equal; lia.
Qed.

Lemma hex_pair o : is_u8 o → ∃ high low,
  ByteCodec.hex_value (ByteCodec.hex_digit (Z.shiftr o 4)) = Some high
  ∧ ByteCodec.hex_value (ByteCodec.hex_digit (Z.land o 0x0f)) = Some low ∧ 16 * high + low = o
  ∧ is_u8 (ByteCodec.hex_digit (Z.shiftr o 4)) ∧ is_u8 (ByteCodec.hex_digit (Z.land o 0x0f)).
Proof.
  intros Ho. assert (0 ≤ o < 256) as Ho' by (unfold_ints; lia).
  pose proof (octets_check (λ o, bool_decide
    (ByteCodec.hex_value (ByteCodec.hex_digit (Z.shiftr o 4)) = Some (o / 16)
     ∧ ByteCodec.hex_value (ByteCodec.hex_digit (Z.land o 0x0f)) = Some (o mod 16)
     ∧ 0 ≤ ByteCodec.hex_digit (Z.shiftr o 4) ≤ 255 ∧ 0 ≤ ByteCodec.hex_digit (Z.land o 0x0f) ≤ 255))
    ltac:(by vm_compute) o Ho') as E.
  apply bool_decide_eq_true in E as (E1 & E2 & E3 & E4).
  exists (o / 16), (o mod 16). repeat split; try done; try lia. symmetry. apply Z.div_mod. lia.
Qed.

Lemma hex_encoded bs : byte_list bs →
  let out := bs ≫= λ byte, [ByteCodec.hex_digit (Z.shiftr byte 4); ByteCodec.hex_digit (Z.land byte 0x0f)] in
  byte_list out ∧ len out = 2 * len bs ∧ hex_reference out = (bs, true).
Proof.
  induction 1 as [|o bs Ho _ (IHb & IHl & IHr)]; [by repeat constructor|].
  cbn zeta in *. rewrite bind_cons. cbn [app hex_reference].
  destruct (hex_pair o Ho) as (high & low & Hh & Hl & Heq & H1 & H2). rewrite Hh, Hl, IHr, Heq.
  split_and!; [by do 2 (apply Forall_cons_2; [done|])|unfold len in *; simpl; lia|done].
Qed.

Lemma yields_hex `{Allocator} input max_length : wf input → 0 ≤ max_length →
  yields (ByteCodec.decode_hex input max_length) (λ r, r = hex_result max_length (units input)) False.
Proof.
  intros Hwf Hm. unfold ByteCodec.decode_hex, hex_result. rewrite wf_len by done.
  destruct (Z.eqb_spec (len (units input) mod 2) 0) as [He|]; cbn [negb]; [|done]. apply yields_reserve.
  rewrite (hex_loop_spec input max_length Hwf Hm _ 0 (units input));
    [|apply rest_at_start|done|unfold len; lia|change (len (@nil Z)) with 0; lia].
  change (len (@nil Z)) with 0. rewrite Z.sub_0_r. by destruct (hex_reference (units input)).
Qed.

(** Hexadecimal: decoding returns, for every text and length limit, the
    bytes of the leading pairs of digits up to the limit, how much of the text
    they took, and an error exactly when the text is of odd length or a pair
    within the limit is malformed; encoding returns two digits a byte, which
    decode to the bytes again. *)
Theorem hex_codec_exact `{Allocator} input max_length bs :
  wf input → 0 ≤ max_length → byte_list bs → is_i64 (len bs) →
  yields (ByteCodec.decode_hex input max_length) (λ r, r = hex_result max_length (units input)) False
  ∧ yields (ByteCodec.encode_hex bs)
      (λ e, wf e ∧ len (units e) = 2 * len bs
         ∧ ∀ limit, len bs ≤ limit →
             yields (ByteCodec.decode_hex e limit) (λ r, r = mkDecodeResult (len (units e)) bs false) False)
      (MAX_STRING_CODE_UNITS < 2 * len bs).
Proof.
  intros Hwf Hm Hb Hlen. split; [by apply yields_hex|]. destruct (hex_encoded bs Hb) as (Hbo & Hl & Hr).
  unfold ByteCodec.encode_hex. destruct (Z.leb_spec (len bs * 2) u64_max); [|unfold_ints; lia].
  cbn [ok_or mbind result_bind]. apply yields_reserve. apply yields_latin1; [done|by rewrite Hl|].
  intros e He Hu. rewrite Hu. split_and!; [done|done|]. intros limit Hlimit. pose proof (len_nonneg bs).
  eapply yields_mono; [apply yields_hex; [done|lia]| |done]. intros r ->. unfold hex_result. rewrite Hu, Hl, Hr.
  rewrite (Z.mul_comm 2), Z.mod_mul by lia. simpl. rewrite take_ge by (unfold len in *; lia). f_equal. lia.
Qed.

Lemma hex_codec_exact_witness :
  yields (H := always_allocates) (@ByteCodec.decode_hex always_allocates (Latin1 [102; 70; 48; 103]) 2)
    (λ r, r = mkDecodeResult 2 [255] true) False
  ∧ yields (H := always_allocates) (@ByteCodec.encode_hex always_allocates [171])
      (λ e, wf e ∧ len (units e) = 2 * 1
         ∧ ∀ limit, 1 ≤ limit → yields (H := always_allocates) (@ByteCodec.decode_hex always_allocates e limit)
             (λ r, r = mkDecodeResult (len (units e)) [171] false) False)
      (MAX_STRING_CODE_UNITS < 2 * 1).
Proof.
  apply (@hex_codec_exact always_allocates (Latin1 [102; 70; 48; 103]) 2 [171]).
  - split; [by repeat constructor|by vm_compute].
  - lia.
  - repeat apply Forall_cons_2; try apply Forall_nil_2; solve_ints.
  - by vm_compute.
Defined.
