(* ===== verification/BigInt.v ===== *)
(** * Arbitrary-precision integers

    Models [crates/fusor-runtime/src/bigint.rs]: two's-complement values in
    32-bit limbs, least significant first, always normalized.  Text is in
    BigIntText.v; conversions to and from binary64 and [i128] are not modelled.
    The theorems are in BigIntFacts.v, BigIntBits.v and BigIntDivision.v. *)

From S2P Require Import Prelude RuntimePrelude.

Definition LIMB_BITS : Z := 32.
Definition MAX_LIMBS : Z := 1024 * 1024 / LIMB_BITS.

Inductive BigIntError : Set :=
| TooLarge
| ResultTooLarge
| AllocationFailed
| NotAnInteger
| NotFinite
| InvalidLiteral
| DivisionByZero
| NegativeExponent
| InvalidRadix.

Record JsBigInt : Set := mkBigInt { limbs : list Z }.

#[export] Instance JsBigInt_eq_dec : EqDecision JsBigInt.
Proof. solve_decision. Defined.

Module BigInt.
Section with_allocator.
Context `{Allocator}.

(** [!limb] *)
Definition not_u32 (limb : Z) : Z := u32_max - limb.
(** [limb << n] *)
Definition shl_u32 (limb n : Z) : Z := Z.shiftl limb n mod 2 ^ 32.
(** [a + b] and [a * b] on [u64], where overflow panics. *)
Definition add_u64 (a b : Z) : outcome BigIntError Z := expect (checked_add_u64 a b).
Definition mul_u64 (a b : Z) : outcome BigIntError Z := expect (if a * b <=? u64_max then Some (a * b) else None).

Definition split_u64 (value : Z) : Z * Z := (value mod 2 ^ 32, Z.shiftr value LIMB_BITS mod 2 ^ 32).
Definition limb_bit_offset (count : Z) : Z := count mod LIMB_BITS.

Definition reserve (additional : Z) : result BigIntError unit :=
  Prelude.reserve "bigint limbs" 0 additional AllocationFailed.

(** *** Representation *)

Definition zero : JsBigInt := mkBigInt [0].
Definition is_zero (self : JsBigInt) : bool := bool_decide (limbs self = [0]).
Definition top_limb (self : JsBigInt) : Z := List.last (limbs self) 0.
Definition is_negative (self : JsBigInt) : bool := Z.shiftr (top_limb self) (LIMB_BITS - 1) =? 1.
Definition sign_extension (self : JsBigInt) : Z := if is_negative self then u32_max else 0.
Definition limb (self : JsBigInt) (index : nat) : Z := default (sign_extension self) (limbs self !! index).

(** A limb that repeats the sign bit of the next. *)
Definition redundant (top next : Z) : bool :=
  (top =? 0) && (Z.shiftr next (LIMB_BITS - 1) =? 0)
  || (top =? u32_max) && (Z.shiftr next (LIMB_BITS - 1) =? 1).

(** The [while limbs.len() > 1] loop, most significant limb first. *)
Fixpoint trim (limbs : list Z) : list Z :=
  match limbs with
  | top :: (next :: _) as rest => if redundant top next then trim rest else limbs
  | _ => limbs
  end.

Definition normalize (limbs : list Z) : list Z := rev (trim (rev limbs)).

Definition from_limbs (limbs : list Z) : result BigIntError JsBigInt :=
  let limbs := match limbs with [] => [0] | _ => limbs end in
  let limbs := normalize limbs in
  if MAX_LIMBS <? len limbs then Err TooLarge else Ok (mkBigInt limbs).

(** [value.cast_unsigned()] is the value modulo the width. *)
Definition from_i32 (value : Z) : JsBigInt := mkBigInt [value mod 2 ^ 32].
Definition from_i64 (value : Z) : JsBigInt :=
  let '(low, high) := split_u64 (value mod 2 ^ 64) in mkBigInt (normalize [low; high]).
Definition from_u64 (value : Z) : JsBigInt :=
  let '(low, high) := split_u64 value in mkBigInt (normalize [low; high; 0]).

Definition low_u64_twos_complement (self : JsBigInt) : Z :=
  Z.lor (limb self 0) (Z.shiftl (limb self 1) LIMB_BITS).

Definition to_i64 (self : JsBigInt) : option Z :=
  if 2 <? len (limbs self) then None else
  let value := sign_extend 64 (low_u64_twos_complement self) in
  if decide (from_i64 value = self) then Some value else None.

Definition to_u64 (self : JsBigInt) : option Z :=
  if is_negative self || (3 <? len (limbs self)) then None else
  if (len (limbs self) =? 3) && negb (limb self 2 =? 0) then None else
  Some (low_u64_twos_complement self).

(** *** Sign and addition *)

(** The loop of [neg] over the given indices. *)
Fixpoint neg_loop (self : JsBigInt) (indices : list nat) (carry : Z) : outcome BigIntError (list Z) :=
  match indices with
  | [] => Ok []
  | index :: indices =>
      sum ← add_u64 (not_u32 (limb self index)) carry;
      rest ← neg_loop self indices (Z.shiftr sum LIMB_BITS);
      Ok (fst (split_u64 sum) :: rest)
  end.

Definition neg (self : JsBigInt) : outcome BigIntError JsBigInt :=
  lift (reserve (len (limbs self) + 1)) ;;
  limbs ← neg_loop self (seq 0 (S (length (limbs self)))) 1;
  lift (from_limbs limbs).

Definition abs (self : JsBigInt) : outcome BigIntError JsBigInt :=
  if is_negative self then neg self else Ok self.

Fixpoint add_loop (self other : JsBigInt) (subtract : bool) (indices : list nat) (carry : Z) :
    outcome BigIntError (list Z) :=
  match indices with
  | [] => Ok []
  | index :: indices =>
      let left_ := limb self index in
      let right_ := if subtract then not_u32 (limb other index) else limb other index in
      partial ← add_u64 left_ right_;
      sum ← add_u64 partial carry;
      rest ← add_loop self other subtract indices (Z.shiftr sum LIMB_BITS);
      Ok (fst (split_u64 sum) :: rest)
  end.

Definition add_with_sign (self other : JsBigInt) (subtract : bool) : outcome BigIntError JsBigInt :=
  let width := S (Nat.max (length (limbs self)) (length (limbs other))) in
  lift (reserve (Z.of_nat width)) ;;
  limbs ← add_loop self other subtract (seq 0 width) (Z.b2z subtract);
  lift (from_limbs limbs).

Definition add (self other : JsBigInt) := add_with_sign self other false.
Definition sub (self other : JsBigInt) := add_with_sign self other true.

(** *** Multiplication *)

Definition magnitude (self : JsBigInt) : outcome BigIntError (list Z) :=
  value ← abs self; Ok (limbs value).

(** The inner [for (right_index, &right_limb)] loop from [position] on. *)
Fixpoint mul_inner (product : list Z) (left_limb : Z) (position : nat) (right_ : list Z) (carry : Z) :
    outcome BigIntError (list Z * Z) :=
  match right_ with
  | [] => Ok (product, carry)
  | right_limb :: right_ =>
      current ← expect (product !! position);
      scaled ← mul_u64 left_limb right_limb;
      partial ← add_u64 current scaled;
      sum ← add_u64 partial carry;
      mul_inner (<[position := fst (split_u64 sum)]> product) left_limb (S position) right_
        (Z.shiftr sum LIMB_BITS)
  end.

(** The [while carry != 0] loop. *)
Fixpoint mul_carry (fuel : nat) (product : list Z) (position : nat) (carry : Z) :
    outcome BigIntError (list Z) :=
  match fuel with
  | O => Err OutOfFuel
  | S fuel =>
      if carry =? 0 then Ok product else
      current ← expect (product !! position);
      sum ← add_u64 current carry;
      mul_carry fuel (<[position := fst (split_u64 sum)]> product) (S position) (Z.shiftr sum LIMB_BITS)
  end.

(** The outer loop, from [left_index] on. *)
Fixpoint mul_outer (product : list Z) (left_index : nat) (left_ right_ : list Z) :
    outcome BigIntError (list Z) :=
  match left_ with
  | [] => Ok product
  | left_limb :: left_ =>
      if left_limb =? 0 then mul_outer product (S left_index) left_ right_ else
      '(product, carry) ← mul_inner product left_limb left_index right_ 0;
      product ← mul_carry (S (length product)) product (left_index + length right_) carry;
      mul_outer product (S left_index) left_ right_
  end.

Definition mul (self other : JsBigInt) : outcome BigIntError JsBigInt :=
  if is_zero self || is_zero other then Ok zero else
  let negative := negb (Bool.eqb (is_negative self) (is_negative other)) in
  left_ ← magnitude self;
  right_ ← magnitude other;
  product ← mul_outer (replicate (length left_ + length right_ + 1) 0) 0 left_ right_;
  value ← lift (from_limbs product);
  if negative then neg value else Ok value.

(** *** Division *)

(** [shift_magnitude_left_one] *)
Fixpoint shift_left_one (limbs : list Z) (carry : Z) : list Z :=
  match limbs with
  | [] => []
  | limb :: limbs => Z.lor (shl_u32 limb 1) carry :: shift_left_one limbs (Z.shiftr limb (LIMB_BITS - 1))
  end.

(** The loop of [compare_magnitudes] over the indices from the top. *)
Fixpoint compare_from (left_ right_ : list Z) (indices : list nat) : comparison :=
  match indices with
  | [] => Eq
  | index :: indices =>
      match Z.compare (default 0 (left_ !! index)) (default 0 (right_ !! index)) with
      | Eq => compare_from left_ right_ indices
      | ordering => ordering
      end
  end.

Definition compare_magnitudes (left_ right_ : list Z) : comparison :=
  compare_from left_ right_ (rev (seq 0 (Nat.max (length left_) (length right_)))).

(** [u32::try_from(value).expect(..)] *)
Definition to_limb (value : Z) : outcome BigIntError Z := expect (try_u32 value).

(** The loop of [subtract_magnitude]; [right_] runs out into zeros. *)
Fixpoint subtract_magnitude (left_ right_ : list Z) (borrow : Z) : outcome BigIntError (list Z) :=
  match left_ with
  | [] => Ok []
  | limb :: left_ =>
      let right_limb := default 0 (head right_) in
      let difference := limb - right_limb - borrow in
      if difference <? 0 then
        limb ← to_limb (difference + Z.shiftl 1 LIMB_BITS);
        rest ← subtract_magnitude left_ (tail right_) 1;
        Ok (limb :: rest)
      else
        limb ← to_limb difference;
        rest ← subtract_magnitude left_ (tail right_) 0;
        Ok (limb :: rest)
  end.

(** [limbs[index] |= bits] *)
Definition set_bits (limbs : list Z) (index : nat) (bits : Z) : outcome BigIntError (list Z) :=
  limb ← expect (limbs !! index); Ok (<[index := Z.lor limb bits]> limbs).

(** One turn of the bit loop. *)
Definition divide_bit (dividend divisor : list Z) (bit : nat) (state : list Z * list Z) :
    outcome BigIntError (list Z * list Z) :=
  let '(quotient, remainder) := state in
  let remainder := shift_left_one remainder 0 in
  let limb := (bit / 32)%nat in
  let offset := Z.of_nat (bit mod 32) in
  source ← expect (dividend !! limb);
  remainder ← (if Z.land (Z.shiftr source offset) 1 =? 1 then set_bits remainder 0 1 else Ok remainder);
  match compare_magnitudes remainder divisor with
  | Lt => Ok (quotient, remainder)
  | _ =>
      remainder ← subtract_magnitude remainder divisor 0;
      quotient ← set_bits quotient limb (shl_u32 1 offset);
      Ok (quotient, remainder)
  end.

(** [for bit in (0..bits).rev()] *)
Fixpoint divide_loop (dividend divisor : list Z) (bits : nat) (state : list Z * list Z) :
    outcome BigIntError (list Z * list Z) :=
  match bits with
  | O => Ok state
  | S bit => state ← divide_bit dividend divisor bit state; divide_loop dividend divisor bit state
  end.

Definition divide_magnitudes (dividend divisor : list Z) : outcome BigIntError (list Z * list Z) :=
  lift (reserve (len dividend + 1)) ;;
  lift (reserve (len divisor + len dividend + 1)) ;;
  '(quotient, remainder) ← divide_loop dividend divisor (length dividend * 32)
    (replicate (length dividend + 1) 0, replicate (length divisor + length dividend + 1) 0);
  Ok (quotient ++ [0], remainder ++ [0]).

Definition div_rem (self other : JsBigInt) : outcome BigIntError (JsBigInt * JsBigInt) :=
  if is_zero other then Err (Fail DivisionByZero) else
  if is_zero self then Ok (zero, zero) else
  let dividend_negative := is_negative self in
  let divisor_negative := is_negative other in
  dividend ← magnitude self;
  divisor ← magnitude other;
  '(quotient, remainder) ← divide_magnitudes dividend divisor;
  quotient ← lift (from_limbs quotient);
  remainder ← lift (from_limbs remainder);
  quotient ← (if negb (Bool.eqb dividend_negative divisor_negative) then neg quotient else Ok quotient);
  remainder ← (if dividend_negative then neg remainder else Ok remainder);
  Ok (quotient, remainder).

(** *** Powers *)

Definition promote_size_error (error : BigIntError) : BigIntError :=
  match error with TooLarge => ResultTooLarge | other => other end.

Definition promoted {A} (m : outcome BigIntError A) : outcome BigIntError A :=
  map_err (λ f, match f with Fail e => Fail (promote_size_error e) | f => f end) m.

(** The [while remaining > 0] loop; 64 turns exhaust a [u64]. *)
Fixpoint pow_loop (fuel : nat) (result_ base : JsBigInt) (remaining : Z) : outcome BigIntError JsBigInt :=
  match fuel with
  | O => Err OutOfFuel
  | S fuel =>
      if remaining =? 0 then Ok result_ else
      result_ ← (if Z.land remaining 1 =? 1 then promoted (mul result_ base) else Ok result_);
      let remaining := Z.shiftr remaining 1 in
      base ← (if 0 <? remaining then promoted (mul base base) else Ok base);
      pow_loop fuel result_ base remaining
  end.

Definition pow (self exponent : JsBigInt) : outcome BigIntError JsBigInt :=
  if is_negative exponent then Err (Fail NegativeExponent) else
  match to_u64 exponent with
  | None => Err (Fail ResultTooLarge)
  | Some remaining => pow_loop 65 (from_i32 1) self remaining
  end.

(** *** Bits *)

Definition bitwise (self other : JsBigInt) (operation : Z → Z → Z) : result BigIntError JsBigInt :=
  let width := Nat.max (length (limbs self)) (length (limbs other)) in
  reserve (Z.of_nat width) ;;
  from_limbs ((λ index, operation (limb self index) (limb other index)) <$> seq 0 width).

Definition bitand (self other : JsBigInt) := bitwise self other Z.land.
Definition bitor (self other : JsBigInt) := bitwise self other Z.lor.
Definition bitxor (self other : JsBigInt) := bitwise self other Z.lxor.

Definition not (self : JsBigInt) : result BigIntError JsBigInt :=
  reserve (len (limbs self)) ;; from_limbs (not_u32 <$> limbs self).

(** The [for &limb in &self.limbs] loop of [shl] with its carry. *)
Fixpoint shl_loop (limbs : list Z) (bit_shift carry : Z) : list Z * Z :=
  match limbs with
  | [] => ([], carry)
  | limb :: limbs =>
      if bit_shift =? 0 then let '(rest, carry) := shl_loop limbs bit_shift carry in (limb :: rest, carry)
      else
        let '(rest, carry') := shl_loop limbs bit_shift (Z.shiftr limb (LIMB_BITS - bit_shift)) in
        (Z.lor (shl_u32 limb bit_shift) carry :: rest, carry')
  end.

Definition shl (self : JsBigInt) (count : Z) : result BigIntError JsBigInt :=
  if is_zero self then Ok zero else
  let limb_shift := count / LIMB_BITS in
  let bit_shift := limb_bit_offset count in
  if MAX_LIMBS <? limb_shift then Err ResultTooLarge else
  reserve (len (limbs self) + limb_shift + 1) ;;
  let '(body, carry) := shl_loop (limbs self) bit_shift 0 in
  let extension := sign_extension self in
  let top := if bit_shift =? 0 then extension else Z.lor (shl_u32 extension bit_shift) carry in
  map_err promote_size_error (from_limbs (replicate (Z.to_nat limb_shift) 0 ++ body ++ [top])).

(** On 64-bit targets [count / 32] fits a [usize]. *)
Definition shr (self : JsBigInt) (count : Z) : result BigIntError JsBigInt :=
  let extension := sign_extension self in
  let limb_shift := count / LIMB_BITS in
  if len (limbs self) <=? limb_shift then from_limbs [extension] else
  let bit_shift := limb_bit_offset count in
  let remaining := (length (limbs self) - Z.to_nat limb_shift)%nat in
  reserve (Z.of_nat remaining) ;;
  from_limbs ((λ index,
    let current := limb self (Z.to_nat limb_shift + index) in
    if bit_shift =? 0 then current
    else Z.lor (Z.shiftr current bit_shift)
           (shl_u32 (limb self (Z.to_nat limb_shift + index + 1)) (LIMB_BITS - bit_shift)))
    <$> seq 0 remaining).

(** *** Comparison *)

Definition reverse_ordering (c : comparison) : comparison :=
  match c with Lt => Gt | Eq => Eq | Gt => Lt end.

(** The loop over [self.limbs[index]], where both have the length. *)
Fixpoint compare_limbs (left_ right_ : list Z) (indices : list nat) : outcome BigIntError comparison :=
  match indices with
  | [] => Ok Eq
  | index :: indices =>
      l ← expect (left_ !! index);
      r ← expect (right_ !! index);
      match Z.compare l r with
      | Eq => compare_limbs left_ right_ indices
      | ordering => Ok ordering
      end
  end.

Definition compare (self other : JsBigInt) : outcome BigIntError comparison :=
  match is_negative self, is_negative other with
  | true, false => Ok Lt
  | false, true => Ok Gt
  | negative, _ =>
      match Nat.compare (length (limbs self)) (length (limbs other)) with
      | Eq => compare_limbs (limbs self) (limbs other) (rev (seq 0 (length (limbs self))))
      | ordering => Ok (if negative then reverse_ordering ordering else ordering)
      end
  end.

(** *** Truncation *)

Definition bit (self : JsBigInt) (index : Z) : bool :=
  Z.land (Z.shiftr (limb self (Z.to_nat (index / LIMB_BITS))) (limb_bit_offset index)) 1 =? 1.

Definition truncate_to_bits (self : JsBigInt) (bits : Z) : outcome BigIntError JsBigInt :=
  let limb_count := (bits + (LIMB_BITS - 1)) / LIMB_BITS in
  if MAX_LIMBS <? limb_count then Err (Fail TooLarge) else
  lift (reserve (limb_count + 1)) ;;
  let limbs := limb self <$> seq 0 (Z.to_nat limb_count) in
  let used := limb_bit_offset bits in
  limbs ←
    (if negb (used =? 0) then
       let last := (length limbs - 1)%nat in
       limb ← expect (limbs !! last);
       Ok (<[last := Z.land limb (Z.shiftr u32_max (LIMB_BITS - used))]> limbs)
     else Ok limbs);
  lift (from_limbs (limbs ++ [0])).

Definition as_uint_n (self : JsBigInt) (bits : Z) : outcome BigIntError JsBigInt :=
  if bits =? 0 then Ok zero else truncate_to_bits self bits.

Definition as_int_n (self : JsBigInt) (bits : Z) : outcome BigIntError JsBigInt :=
  if bits =? 0 then Ok zero else
  truncated ← truncate_to_bits self bits;
  if bit truncated (bits - 1) then
    modulus ← lift (shl (from_i32 1) bits);
    sub truncated modulus
  else Ok truncated.
End with_allocator.
End BigInt.
