(* ===== verification/BigIntFacts.v ===== *)
(** * Big integers denote integers

    The value of a limb list is its two's-complement reading.  This file shows
    that normalized lists and integers within the size limit correspond one to
    one, and that negation, addition, subtraction, multiplication, powers and
    comparison compute on the integers, failing with their size error only when
    the result is out of range. *)

From S2P Require Import Prelude RuntimePrelude BigInt.
From stdpp Require Import list.
Local Open Scope Z_scope.

Definition base : Z := 2 ^ 32.

(** The weight of limb [n]. *)
Definition weight (n : nat) : Z := base ^ Z.of_nat n.

Definition u32_list (l : list Z) : Prop := Forall is_u32 l.

(** The unsigned value of a limb list, and its two's-complement reading. *)
Fixpoint unsigned (l : list Z) : Z :=
  match l with
  | [] => 0
  | x :: l => x + base * unsigned l
  end.

Definition signed (l : list Z) : Z :=
  if 2 * unsigned l <? weight (length l) then unsigned l else unsigned l - weight (length l).

(** The integers that [n] limbs can hold, and that a value may have. *)
Definition in_range (n : nat) (z : Z) : Prop := - weight n ≤ 2 * z < weight n.
Definition fits (z : Z) : Prop := in_range (Z.to_nat MAX_LIMBS) z.

(** The shortest list with its value. *)
Definition normal (l : list Z) : Prop :=
  match rev l with
  | top :: next :: _ => BigInt.redundant top next = false
  | [_] => True
  | [] => False
  end.

(** [b] is the representation of [z]. *)
Record repr (b : JsBigInt) (z : Z) : Prop := mkRepr {
  repr_limbs : u32_list (limbs b);
  repr_normal : normal (limbs b);
  repr_size : len (limbs b) ≤ MAX_LIMBS;
  repr_value : signed (limbs b) = z
}.

(** ** Weights *)

Lemma weight_0 : weight 0 = 1.
Proof. done. Qed.

Lemma weight_S n : weight (S n) = base * weight n.
Proof. unfold weight. rewrite Nat2Z.inj_succ, Z.pow_succ_r by lia. done. Qed.

Lemma weight_pos n : 0 < weight n.
Proof. unfold weight, base. apply Z.pow_pos_nonneg; lia. Qed.

Lemma weight_add n m : weight (n + m) = weight n * weight m.
Proof. unfold weight. rewrite Nat2Z.inj_add, Z.pow_add_r by lia. done. Qed.

Lemma weight_mono n m : (n ≤ m)%nat → weight n ≤ weight m.
Proof. intros Hle. unfold weight. apply Z.pow_le_mono_r; [done|lia]. Qed.

Lemma base_eq : base = 4294967296.
Proof. done. Qed.

Lemma in_range_mono n m z : (n ≤ m)%nat → in_range n z → in_range m z.
Proof. intros Hle%weight_mono. unfold in_range. lia. Qed.

(** ** Limb lists *)

Lemma unsigned_app l k : unsigned (l ++ k) = unsigned l + weight (length l) * unsigned k.
Proof.
  induction l as [|x l IH]; cbn [unsigned app length]; [rewrite weight_0; lia|].
  rewrite IH, weight_S. ring.
Qed.

Lemma unsigned_bound l : u32_list l → 0 ≤ unsigned l < weight (length l).
Proof.
  induction 1 as [|x l Hx _ IH]; cbn [unsigned length]; [rewrite weight_0; lia|].
  rewrite weight_S, base_eq. unfold_ints. lia.
Qed.

Lemma unsigned_inj l k : u32_list l → u32_list k → length l = length k → unsigned l = unsigned k → l = k.
Proof.
  intros Hl. revert k. induction Hl as [|x l Hx _ IH]; intros [|y k] Hk Hlen E; try done.
  apply Forall_cons_1 in Hk as [Hy Hk]. cbn [unsigned] in E. simpl in Hlen.
  rewrite base_eq in E. unfold_ints. assert (x = y) as -> by lia. f_equal. apply IH; [done|lia|lia].
Qed.

Lemma signed_range l : u32_list l → in_range (length l) (signed l).
Proof.
  intros Hl%unsigned_bound. unfold signed, in_range.
  destruct (Z.ltb_spec (2 * unsigned l) (weight (length l))); lia.
Qed.

(** The reading is the residue in the range. *)
Lemma signed_mod l z : u32_list l → in_range (length l) z → unsigned l = z mod weight (length l) → signed l = z.
Proof.
  intros Hl Hz E. unfold signed. rewrite E. unfold in_range in Hz. set (w := weight (length l)) in *.
  pose proof (weight_pos (length l)). destruct (decide (0 ≤ z)) as [Hnn|Hneg].
  - rewrite Z.mod_small by lia. destruct (Z.ltb_spec (2 * z) w); lia.
  - assert (z mod w = z + w) as -> by (symmetry; apply Z.mod_unique_pos with (-1); lia).
    destruct (Z.ltb_spec (2 * (z + w)) w); lia.
Qed.

Lemma unsigned_signed l : u32_list l → unsigned l = signed l mod weight (length l).
Proof.
  intros Hl. pose proof (unsigned_bound _ Hl) as Hb. unfold signed.
  destruct (Z.ltb_spec (2 * unsigned l) (weight (length l))).
  - by rewrite Z.mod_small.
  - apply Z.mod_unique_pos with (-1); lia.
Qed.

(** The sign is the top bit. *)
Lemma top_bit x : is_u32 x → Z.shiftr x 31 = if x <? 2147483648 then 0 else 1.
Proof.
  intros Hx. rewrite Z.shiftr_div_pow2 by lia. unfold_ints.
  destruct (Z.ltb_spec x 2147483648); [apply Z.div_small; lia|]. symmetry. apply Z.div_unique_pos with (x - 2147483648); lia.
Qed.

Lemma signed_snoc l x : u32_list l → is_u32 x →
  signed (l ++ [x]) = unsigned l + weight (length l) * (if x <? 2147483648 then x else x - base).
Proof.
  intros Hl%unsigned_bound Hx. unfold signed. rewrite unsigned_app, length_app. simpl length.
  rewrite Nat.add_1_r, weight_S, base_eq. cbn [unsigned]. rewrite base_eq. unfold_ints.
  destruct (Z.ltb_spec x 2147483648), (Z.ltb_spec (2 * (unsigned l + weight (length l) * (x + 4294967296 * 0)))
    (4294967296 * weight (length l))); nia.
Qed.

Lemma snoc_cases (l : list Z) : l = [] ∨ ∃ l' x, l = l' ++ [x].
Proof. destruct (decide (l = [])) as [->|Hne]; [by left|]. right. destruct (exists_last Hne) as (l' & x & ->). eauto. Qed.

Lemma u32_snoc l x : u32_list (l ++ [x]) ↔ u32_list l ∧ is_u32 x.
Proof. unfold u32_list. rewrite Forall_app, Forall_singleton. done. Qed.

Lemma is_negative_spec b : u32_list (limbs b) → limbs b ≠ [] → BigInt.is_negative b = (signed (limbs b) <? 0).
Proof.
  intros Hl Hne. destruct b as [l]. simpl in *. destruct (snoc_cases l) as [->|(l' & x & ->)]; [done|].
  apply u32_snoc in Hl as [Hl Hx]. rewrite signed_snoc by done. unfold BigInt.is_negative, BigInt.top_limb, LIMB_BITS.
  cbn [limbs]. rewrite last_last. change (32 - 1) with 31. rewrite top_bit by done.
  apply unsigned_bound in Hl. unfold_ints. rewrite base_eq. pose proof (weight_pos (length l')).
  destruct (Z.ltb_spec x 2147483648), (Z.ltb_spec (unsigned l' + weight (length l') * (if false then x else x)) 0); simpl.
  all: symmetry; rewrite ?Z.ltb_lt, ?Z.ltb_ge; nia.
Qed.

(** ** Normalization *)

(** A redundant limb adds nothing; any other widens the value. *)
Lemma redundant_signed l next top : u32_list l → is_u32 next → is_u32 top →
  BigInt.redundant top next = true → signed ((l ++ [next]) ++ [top]) = signed (l ++ [next]).
Proof.
  intros Hl Hn Ht Hr. rewrite !signed_snoc, unsigned_app, length_app by (done || by apply u32_snoc).
  simpl length. rewrite Nat.add_1_r, weight_S. cbn [unsigned].
  unfold BigInt.redundant, LIMB_BITS in Hr. change (32 - 1) with 31 in Hr. rewrite top_bit in Hr by done.
  rewrite base_eq. unfold_ints.
  destruct (Z.ltb_spec next 2147483648); simpl in Hr; apply orb_true_iff in Hr as [Hr|Hr];
    apply andb_true_iff in Hr as [Hr1%Z.eqb_eq Hr2]; try done; subst; simpl; ring.
Qed.

Lemma wide_signed l next top : u32_list l → is_u32 next → is_u32 top →
  BigInt.redundant top next = false → ¬ in_range (S (length l)) (signed ((l ++ [next]) ++ [top])).
Proof.
  intros Hl Hn Ht Hr. rewrite signed_snoc, unsigned_app, length_app by (done || by apply u32_snoc).
  simpl length. rewrite Nat.add_1_r. cbn [unsigned]. unfold in_range. rewrite weight_S.
  unfold BigInt.redundant, LIMB_BITS in Hr. change (32 - 1) with 31 in Hr. rewrite top_bit in Hr by done.
  apply unsigned_bound in Hl. pose proof (weight_pos (length l)). set (w := weight (length l)) in *.
  rewrite base_eq in *. unfold_ints. intros [H1 H2].
  destruct (Z.ltb_spec next 2147483648); simpl in Hr; rewrite ?andb_true_r, ?andb_false_r, ?orb_false_r in Hr; simpl in Hr;
    apply Z.eqb_neq in Hr; destruct (Z.ltb_spec top 2147483648); nia.
Qed.

Lemma trim_spec r : u32_list (rev r) → r ≠ [] →
  u32_list (rev (BigInt.trim r)) ∧ normal (rev (BigInt.trim r)) ∧ signed (rev (BigInt.trim r)) = signed (rev r).
Proof.
  induction r as [|top r IH]; intros Hu Hne; [done|]. cbn [BigInt.trim]. destruct r as [|next r].
  { split_and!; [done|done|done]. }
  cbn [rev] in Hu. apply u32_snoc in Hu as [Hu' Ht]. pose proof Hu' as [Hl Hn]%u32_snoc.
  destruct (BigInt.redundant top next) eqn:Hr.
  - destruct IH as (IH1 & IH2 & IH3); [done|done|]. split_and!; [done|done|].
    rewrite IH3. cbn [rev]. symmetry. by apply redundant_signed.
  - split_and!; [cbn [rev]; by apply u32_snoc| |done]. unfold normal. rewrite rev_involutive. done.
Qed.

Lemma normalize_spec l : u32_list l → l ≠ [] →
  u32_list (BigInt.normalize l) ∧ normal (BigInt.normalize l) ∧ signed (BigInt.normalize l) = signed l.
Proof.
  intros Hu Hne. unfold BigInt.normalize. destruct (trim_spec (rev l)) as (H1 & H2 & H3).
  - by rewrite rev_involutive.
  - intros E. apply Hne. by rewrite <- (rev_involutive l), E.
  - rewrite rev_involutive in H3. done.
Qed.

Lemma normal_nonempty l : normal l → l ≠ [].
Proof. by intros Hn ->. Qed.

(** A normal list is the shortest for its value. *)
Lemma normal_minimal l n : u32_list l → normal l → in_range n (signed l) → (1 ≤ n)%nat → (length l ≤ n)%nat.
Proof.
  intros Hu Hn Hr H1. destruct (decide (length l ≤ n)%nat) as [|Hgt]; [done|]. exfalso.
  unfold normal in Hn. destruct (rev l) as [|top [|next r]] eqn:E; [done|..].
  - apply (f_equal length) in E. rewrite length_rev in E. simpl in E. lia.
  - assert (l = (rev r ++ [next]) ++ [top]) as -> by (by rewrite <- (rev_involutive l), E).
    apply u32_snoc in Hu as [[Hl Hx]%u32_snoc Ht]. eapply wide_signed in Hn; [|done..]. apply Hn.
    eapply in_range_mono; [|exact Hr]. rewrite !length_app in Hgt. simpl in Hgt. lia.
Qed.

(** Each value has one representation. *)
Lemma repr_inj b b' z : repr b z → repr b' z → b = b'.
Proof.
  intros [Hu Hn _ Hv] [Hu' Hn' _ Hv']. destruct b as [l], b' as [l']. simpl in *. f_equal.
  assert (1 ≤ length l)%nat by (destruct l; [done|simpl; lia]).
  assert (1 ≤ length l')%nat by (destruct l'; [done|simpl; lia]).
  assert (length l = length l') as Hlen.
  { apply Nat.le_antisymm; apply normal_minimal; try done.
    - rewrite Hv, <- Hv'. by apply signed_range.
    - rewrite Hv', <- Hv. by apply signed_range. }
  apply unsigned_inj; [done|done|done|]. rewrite (unsigned_signed l Hu), (unsigned_signed l' Hu'), Hv, Hv', Hlen. done.
Qed.

Lemma max_limbs_eq : MAX_LIMBS = 32768.
Proof. done. Qed.

Lemma repr_fits b z : repr b z → fits z.
Proof.
  intros [Hu _ Hs <-]. unfold fits. apply (in_range_mono (length (limbs b))); [|by apply signed_range].
  unfold len in Hs. rewrite max_limbs_eq in *. lia.
Qed.

(** [from_limbs] represents the value, or refuses a value out of range. *)
Definition represents (m : result BigIntError JsBigInt) (z : Z) (e : BigIntError) : Prop :=
  match m with
  | Ok b => repr b z
  | Err e' => e' = e ∧ ¬ fits z
  end.

Lemma from_limbs_spec l z : u32_list l → l ≠ [] → signed l = z → represents (BigInt.from_limbs l) z TooLarge.
Proof.
  intros Hu Hne <-. unfold BigInt.from_limbs.
  assert (match l with [] => [0] | _ => l end = l) as -> by (by destruct l).
  destruct (normalize_spec l Hu Hne) as (Hu' & Hn & Hv).
  destruct (Z.ltb_spec MAX_LIMBS (len (BigInt.normalize l))) as [Hgt|Hle]; simpl; [|by constructor].
  split; [done|]. rewrite <- Hv. intros Hf.
  pose proof (normal_minimal (BigInt.normalize l) (Z.to_nat MAX_LIMBS) Hu' Hn Hf) as Hmin.
  unfold len in Hgt. rewrite max_limbs_eq in *. lia.
Qed.

(** ** Sign extension *)

(** The [n] low limbs of a value are its residue, whatever [n]. *)
Definition extended (b : JsBigInt) (n : nat) : list Z := BigInt.limb b <$> seq 0 n.

Lemma limb_u32 b i : u32_list (limbs b) → is_u32 (BigInt.limb b i).
Proof.
  intros Hu. unfold BigInt.limb, BigInt.sign_extension. destruct (limbs b !! i) as [x|] eqn:E; cbn [from_option].
  - unfold u32_list in Hu. rewrite Forall_lookup in Hu. by eapply Hu.
  - case_match; solve_ints.
Qed.

Lemma extended_u32 b n : u32_list (limbs b) → u32_list (extended b n).
Proof. intros Hu. apply Forall_fmap, Forall_true. intros i. by apply limb_u32. Qed.

Lemma length_extended b n : length (extended b n) = n.
Proof. unfold extended. by rewrite length_fmap, length_seq. Qed.

Lemma extended_S b n : extended b (S n) = extended b n ++ [BigInt.limb b n].
Proof. unfold extended. by rewrite seq_S, fmap_app. Qed.

Lemma extended_full b : extended b (length (limbs b)) = limbs b.
Proof.
  apply list_eq. intros i. unfold extended. rewrite list_lookup_fmap.
  destruct (decide (i < length (limbs b))%nat) as [Hlt|Hge].
  - rewrite lookup_seq_lt by done. simpl. unfold BigInt.limb.
    destruct (lookup_lt_is_Some_2 _ _ Hlt) as [x ->]. done.
  - rewrite lookup_seq_ge by lia. simpl. symmetry. apply lookup_ge_None_2. lia.
Qed.

Lemma repr_nonempty b z : repr b z → limbs b ≠ [].
Proof. intros [_ Hn _ _]. by apply normal_nonempty. Qed.

Lemma repr_negative b z : repr b z → BigInt.is_negative b = (z <? 0).
Proof. intros Hr. pose proof (repr_nonempty _ _ Hr). destruct Hr as [Hu _ _ <-]. by apply is_negative_spec. Qed.

Lemma extended_beyond b z n : repr b z → (length (limbs b) ≤ n)%nat →
  signed (extended b n) = z ∧ unsigned (extended b n) = z mod weight n.
Proof.
  intros Hr Hle. pose proof (repr_negative _ _ Hr) as Hneg. pose proof (repr_nonempty _ _ Hr) as Hne.
  destruct Hr as [Hu Hn _ Hv]. assert (signed (extended b n) = z) as Hs.
  - induction n as [|n IH]; [destruct (limbs b); simpl in Hle; [done|lia]|].
    destruct (decide (length (limbs b) = S n)) as [<-|Hlt]; [by rewrite extended_full|].
    assert (length (limbs b) ≤ n)%nat as Hle' by lia. rewrite extended_S, <- (IH Hle').
    destruct (snoc_cases (extended b n)) as [E|(l & next & E)].
    { apply (f_equal length) in E. rewrite length_extended in E. simpl in E. destruct (limbs b); [done|simpl in *; lia]. }
    pose proof (extended_u32 b n Hu) as Hue. rewrite E in Hue. apply u32_snoc in Hue as [Hul Hunext].
    rewrite E. apply redundant_signed; [done|done|by apply limb_u32|].
    assert (BigInt.limb b n = if z <? 0 then u32_max else 0) as ->.
    { unfold BigInt.limb, BigInt.sign_extension. rewrite lookup_ge_None_2 by lia. by rewrite Hneg. }
    pose proof (IH Hle') as Hz. rewrite E, signed_snoc in Hz by done. apply unsigned_bound in Hul.
    unfold BigInt.redundant, LIMB_BITS. change (32 - 1) with 31. rewrite top_bit by done.
    pose proof (weight_pos (length l)). rewrite base_eq in Hz. unfold_ints.
    destruct (Z.ltb_spec z 0), (Z.ltb_spec next 2147483648); simpl; try done; nia.
  - split; [done|]. rewrite <- Hs. rewrite (unsigned_signed (extended b n)) by (by apply extended_u32).
    by rewrite length_extended.
Qed.

Lemma unsigned_take l n : u32_list l → (n ≤ length l)%nat → unsigned (take n l) = unsigned l mod weight n.
Proof.
  intros Hu Hle. rewrite <- (take_drop n l) at 2. rewrite unsigned_app, length_take_le by done.
  rewrite (Z.mul_comm (weight n)), Z.mod_add by (pose proof (weight_pos n); lia). symmetry. apply Z.mod_small.
  pose proof (unsigned_bound (take n l) (Forall_take _ _ _ Hu)) as Hb. by rewrite length_take_le in Hb.
Qed.

Lemma extended_take b n m : (n ≤ m)%nat → take n (extended b m) = extended b n.
Proof. intros Hle. unfold extended. rewrite <- fmap_take, take_seq. by rewrite Nat.min_l by lia. Qed.

Lemma extended_unsigned b z n : repr b z → unsigned (extended b n) = z mod weight n.
Proof.
  intros Hr. destruct (decide (length (limbs b) ≤ n)%nat) as [Hle|Hgt]; [by apply extended_beyond|].
  rewrite <- (extended_take b n (length (limbs b))) by lia.
  rewrite unsigned_take; [|apply extended_u32; apply Hr|rewrite length_extended; lia].
  destruct (extended_beyond b z (length (limbs b)) Hr (le_n _)) as [_ ->].
  rewrite <- Znumtheory.Zmod_div_mod; [done|apply weight_pos|apply weight_pos|].
  exists (weight (length (limbs b) - n)). rewrite <- weight_add. f_equal. lia.
Qed.

(** ** Outcomes *)

(** [gives m z e over]: [m] returns the representation of [z]; or fails with
    [e] and [over] holds; or the host refused memory.  It neither panics nor
    exhausts its fuel. *)
Definition gives `{Allocator} (m : outcome BigIntError JsBigInt) (z : Z) (e : BigIntError) (over : Prop) : Prop :=
  match m with
  | Ok b => repr b z
  | Err (Fail e') => e' = AllocationFailed ∧ refuses ∨ e' = e ∧ over
  | Err _ => False
  end.

(** ** Carries *)

Lemma split_low sum : fst (BigInt.split_u64 sum) = sum mod base.
Proof. done. Qed.

Lemma shift_carry sum : Z.shiftr sum LIMB_BITS = sum / base.
Proof. apply Z.shiftr_div_pow2. done. Qed.

Lemma low_u32 sum : is_u32 (sum mod base).
Proof. pose proof (Z.mod_pos_bound sum base ltac:(done)) as Hb. rewrite base_eq in *. solve_ints. Qed.

(** Carrying a column into the rest. *)
Lemma carry_step sum x w : 0 < w →
  sum mod base + base * ((x + sum / base) mod w) = (sum + base * x) mod (base * w).
Proof.
  intros Hw. pose proof (Z.div_mod sum base ltac:(done)) as Hs.
  rewrite Hs at 3. pose proof (Z.mod_pos_bound sum base ltac:(done)).
  pose proof (Z.div_mod (x + sum / base) w ltac:(lia)) as Hd.
  pose proof (Z.mod_pos_bound (x + sum / base) w Hw).
  apply Z.mod_unique_pos with ((x + sum / base) / w); [rewrite base_eq in *; nia|].
  rewrite base_eq in *. nia.
Qed.

Lemma add_u64_fits a b : 0 ≤ a + b ≤ u64_max → BigInt.add_u64 a b = Ok (a + b).
Proof. intros Hb. unfold BigInt.add_u64. by rewrite checked_add_u64_fits by lia. Qed.

Section arithmetic.
Context `{Allocator}.

Lemma gives_reserve n (m : outcome BigIntError JsBigInt) z e over : gives m z e over →
  gives (lift (BigInt.reserve n) ;; m) z e over.
Proof.
  intros Hm. unfold BigInt.reserve, Prelude.reserve, reject_if. destruct (try_reserve _ _ _) eqn:E; simpl; [done|].
  left. split; [done|]. by eexists _, _, _.
Qed.

Lemma gives_from_limbs l z : u32_list l → l ≠ [] → signed l = z → gives (lift (BigInt.from_limbs l)) z TooLarge (¬ fits z).
Proof.
  intros Hu Hne Hz. pose proof (from_limbs_spec l z Hu Hne Hz) as Hf.
  destruct (BigInt.from_limbs l) as [b|e]; simpl in *; [done|]. by right.
Qed.

(** A list of [n] limbs with a residue represents the value of that residue. *)
Lemma gives_residue l n z : u32_list l → length l = S n → unsigned l = z mod weight (S n) → in_range (S n) z →
  gives (lift (BigInt.from_limbs l)) z TooLarge (¬ fits z).
Proof.
  intros Hu Hl Hz Hr. apply gives_from_limbs; [done|by intros ->|]. apply signed_mod; by rewrite ?Hl.
Qed.

Lemma not_u32_u32 x : is_u32 x → is_u32 (BigInt.not_u32 x).
Proof. intros Hx. unfold BigInt.not_u32, u32_max. solve_ints. Qed.

Lemma unsigned_not l : unsigned (BigInt.not_u32 <$> l) = weight (length l) - 1 - unsigned l.
Proof.
  induction l as [|x l IH]; [done|]. cbn [fmap list_fmap unsigned length]. change (list_fmap _ _ _ l) with (BigInt.not_u32 <$> l).
  rewrite IH, weight_S, base_eq. unfold BigInt.not_u32, u32_max. lia.
Qed.

(** *** Negation *)

Lemma neg_loop_spec b indices : u32_list (limbs b) → ∀ carry, 0 ≤ carry ≤ 1 → ∃ out,
  BigInt.neg_loop b indices carry = Ok out ∧ u32_list out ∧ length out = length indices
  ∧ unsigned out = (unsigned (BigInt.not_u32 <$> (BigInt.limb b <$> indices)) + carry) mod weight (length indices).
Proof.
  intros Hu. induction indices as [|i indices IH]; intros carry Hc.
  - exists []. split_and!; [done|constructor|done|]. cbn [length]. rewrite weight_0. symmetry. apply Z.mod_1_r.
  - pose proof (not_u32_u32 _ (limb_u32 b i Hu)) as Hn. cbn [BigInt.neg_loop fmap list_fmap unsigned length].
    set (a := BigInt.not_u32 (BigInt.limb b i)) in *. unfold_ints.
    rewrite add_u64_fits by (unfold u64_max; lia). cbn [mbind result_bind]. rewrite shift_carry.
    destruct (IH ((a + carry) / base)) as (out & -> & Ho & Hl & Hv).
    { rewrite base_eq. divmod_lia. }
    cbn [mbind result_bind]. rewrite split_low. eexists. split; [done|].
    split_and!; [constructor; [apply low_u32|done]|simpl; lia|]. cbn [unsigned]. rewrite Hv, weight_S, carry_step by apply weight_pos.
    f_equal. change (list_fmap _ _ ?f ?l) with (f <$> l). lia.
Qed.

Lemma gives_neg b z : repr b z → gives (BigInt.neg b) (- z) TooLarge (¬ fits (- z)).
Proof.
  intros Hr. pose proof Hr as [Hu _ _ Hv]. unfold BigInt.neg. apply gives_reserve.
  destruct (neg_loop_spec b (seq 0 (S (length (limbs b)))) Hu 1) as (out & -> & Ho & Hl & Hval); [lia|].
  cbn [mbind result_bind]. rewrite length_seq in *. eapply gives_residue; [done|done| |].
  - rewrite Hval, unsigned_not. change (BigInt.limb b <$> seq 0 (S (length (limbs b)))) with (extended b (S (length (limbs b)))).
    rewrite length_extended, (extended_unsigned b z) by done. set (w := weight (S (length (limbs b)))).
    assert (0 < w) by apply weight_pos.
    replace (w - 1 - z mod w + 1) with (w - z mod w) by lia. rewrite Zminus_mod_idemp_r.
    rewrite <- (Z.mod_add (- z) 1 w) by lia. f_equal. lia.
  - pose proof (signed_range _ Hu) as Hrange. rewrite Hv in Hrange. unfold in_range in *. rewrite weight_S, base_eq.
    pose proof (weight_pos (length (limbs b))). lia.
Qed.

(** *** Addition and subtraction *)

Definition addend (b : JsBigInt) (subtract : bool) (i : nat) : Z :=
  if subtract then BigInt.not_u32 (BigInt.limb b i) else BigInt.limb b i.

Lemma add_loop_spec a b subtract indices : u32_list (limbs a) → u32_list (limbs b) → ∀ carry, 0 ≤ carry ≤ 1 →
  ∃ out, BigInt.add_loop a b subtract indices carry = Ok out ∧ u32_list out ∧ length out = length indices
  ∧ unsigned out = (unsigned (BigInt.limb a <$> indices) + unsigned (addend b subtract <$> indices) + carry)
                   mod weight (length indices).
Proof.
  intros Ha Hb. induction indices as [|i indices IH]; intros carry Hc.
  - exists []. split_and!; [done|constructor|done|]. cbn [length]. rewrite weight_0. symmetry. apply Z.mod_1_r.
  - pose proof (limb_u32 a i Ha) as Hx. assert (is_u32 (addend b subtract i)) as Hy.
    { unfold addend. case_match; [apply not_u32_u32|]; by apply limb_u32. }
    cbn [BigInt.add_loop fmap list_fmap unsigned length]. change (list_fmap _ _ ?f ?l) with (f <$> l).
    change (if subtract then BigInt.not_u32 (BigInt.limb b i) else BigInt.limb b i) with (addend b subtract i).
    set (x := BigInt.limb a i) in *. set (y := addend b subtract i) in *. unfold_ints.
    rewrite add_u64_fits by (unfold u64_max; lia). cbn [mbind result_bind].
    rewrite add_u64_fits by (unfold u64_max; lia). cbn [mbind result_bind]. rewrite shift_carry.
    destruct (IH ((x + y + carry) / base)) as (out & -> & Ho & Hl & Hv).
    { rewrite base_eq. divmod_lia. }
    cbn [mbind result_bind]. rewrite split_low. eexists. split; [done|].
    split_and!; [constructor; [apply low_u32|done]|simpl; lia|]. cbn [unsigned]. rewrite Hv, weight_S.
    rewrite carry_step by apply weight_pos. f_equal. lia.
Qed.

Lemma addend_unsigned b z subtract n : repr b z →
  unsigned (addend b subtract <$> seq 0 n) + Z.b2z subtract
    = if subtract then weight n - z mod weight n else z mod weight n.
Proof.
  intros Hr. rewrite <- (extended_unsigned b z) by done. destruct subtract; unfold addend; cbn [Z.b2z].
  - rewrite (list_fmap_compose (BigInt.limb b) BigInt.not_u32), unsigned_not. change (BigInt.limb b <$> seq 0 n) with (extended b n).
    rewrite length_extended. lia.
  - apply Z.add_0_r.
Qed.

Lemma gives_add_with_sign a b x y subtract : repr a x → repr b y →
  gives (BigInt.add_with_sign a b subtract) (if subtract then x - y else x + y) TooLarge
    (¬ fits (if subtract then x - y else x + y)).
Proof.
  intros Ha Hb. unfold BigInt.add_with_sign. apply gives_reserve.
  set (n := Nat.max (length (limbs a)) (length (limbs b))).
  destruct (add_loop_spec a b subtract (seq 0 (S n)) (repr_limbs _ _ Ha) (repr_limbs _ _ Hb) (Z.b2z subtract))
    as (out & -> & Ho & Hl & Hv); [destruct subtract; simpl; lia|].
  cbn [mbind result_bind]. rewrite length_seq in *. eapply gives_residue; [done|done| |].
  - rewrite Hv, <- Z.add_assoc, (addend_unsigned b y) by done.
    change (BigInt.limb a <$> seq 0 (S n)) with (extended a (S n)). rewrite (extended_unsigned a x) by done.
    pose proof (weight_pos (S n)). set (w := weight (S n)) in *. destruct subtract.
    + replace (x mod w + (w - y mod w)) with (x mod w - y mod w + 1 * w) by lia.
      by rewrite Z.mod_add, <- Zminus_mod by lia.
    + by rewrite <- Zplus_mod.
  - assert (in_range n x) by (apply (in_range_mono (length (limbs a))); [lia|];
      rewrite <- (repr_value _ _ Ha); apply signed_range, Ha).
    assert (in_range n y) by (apply (in_range_mono (length (limbs b))); [lia|];
      rewrite <- (repr_value _ _ Hb); apply signed_range, Hb).
    unfold in_range in *. rewrite weight_S, base_eq. pose proof (weight_pos n). destruct subtract; lia.
Qed.

(** *** Absolute value *)

Lemma gives_abs b z : repr b z → gives (BigInt.abs b) (Z.abs z) TooLarge (¬ fits (Z.abs z)).
Proof.
  intros Hr. unfold BigInt.abs. rewrite (repr_negative _ _ Hr). destruct (Z.ltb_spec z 0).
  - rewrite Z.abs_neq by lia. by apply gives_neg.
  - by rewrite Z.abs_eq by lia.
Qed.

Lemma repr_is_zero b z : repr b z → BigInt.is_zero b = (z =? 0).
Proof.
  intros Hr. assert (repr BigInt.zero 0) as H0.
  { constructor; [repeat constructor; solve_ints|done|done|done]. }
  unfold BigInt.is_zero. destruct (Z.eqb_spec z 0) as [->|Hne].
  - rewrite (repr_inj _ _ _ Hr H0). done.
  - apply bool_decide_eq_false. intros E. apply Hne. destruct Hr as [_ _ _ <-]. by rewrite E.
Qed.

(** *** Multiplication *)

Lemma unsigned_insert l i x old : l !! i = Some old →
  unsigned (<[i := x]> l) = unsigned l + weight i * (x - old).
Proof.
  revert i. induction l as [|y l IH]; intros [|i] Hi; simplify_eq/=; [rewrite weight_0; lia|].
  rewrite (IH i Hi), weight_S. ring.
Qed.

Lemma u32_insert l i x : u32_list l → is_u32 x → u32_list (<[i := x]> l).
Proof. intros. by apply Forall_insert. Qed.

Lemma u32_lookup l i x : u32_list l → l !! i = Some x → is_u32 x.
Proof. intros Hu Hi. unfold u32_list in Hu. rewrite Forall_lookup in Hu. by eapply Hu. Qed.

(** Writing the low half of a column and carrying the high half. *)
Lemma column l i x sum : l !! i = Some x →
  unsigned (<[i := sum mod base]> l) + weight (S i) * (sum / base) = unsigned l + weight i * (sum - x).
Proof.
  intros Hi. rewrite (unsigned_insert _ _ _ _ Hi), weight_S. pose proof (Z.div_mod sum base ltac:(done)) as Hs.
  rewrite Hs at 3. ring.
Qed.

Lemma mul_inner_spec l : is_u32 l → ∀ right_ product pos carry, u32_list right_ → u32_list product →
  (pos + length right_ ≤ length product)%nat → 0 ≤ carry < base → ∃ product' carry',
  BigInt.mul_inner product l pos right_ carry = Ok (product', carry')
  ∧ u32_list product' ∧ length product' = length product ∧ 0 ≤ carry' < base
  ∧ unsigned product' + weight (pos + length right_) * carry'
    = unsigned product + weight pos * (l * unsigned right_ + carry).
Proof.
  intros Hl. induction right_ as [|r right_ IH]; intros product pos carry Hr Hp Hlen Hc.
  - exists product, carry. split_and!; [done|done|done|lia|lia|]. simpl length. rewrite Nat.add_0_r. simpl. lia.
  - apply Forall_cons_1 in Hr as [Hr0 Hr]. simpl in Hlen. cbn [BigInt.mul_inner].
    destruct (lookup_lt_is_Some_2 product pos ltac:(lia)) as [x Hx]. rewrite Hx. cbn [expect ok_or mbind result_bind].
    pose proof (u32_lookup _ _ _ Hp Hx) as Hux. rewrite base_eq in Hc. unfold_ints.
    assert (0 ≤ l * r ≤ 4294967295 * 4294967295) as Hlr by nia.
    unfold BigInt.mul_u64. destruct (Z.leb_spec (l * r) u64_max); [|unfold u64_max in *; lia]. cbn [expect ok_or mbind result_bind].
    rewrite add_u64_fits by (unfold u64_max; lia). cbn [mbind result_bind].
    rewrite add_u64_fits by (unfold u64_max; lia). cbn [mbind result_bind]. rewrite shift_carry, split_low.
    set (sum := x + l * r + carry).
    destruct (IH (<[pos := sum mod base]> product) (S pos) (sum / base)) as (p' & c' & -> & Hp' & Hlp & Hc' & Hv).
    + done.
    + apply u32_insert; [done|apply low_u32].
    + rewrite length_insert. lia.
    + rewrite base_eq. subst sum. split; [apply Z.div_pos; lia|apply Z.div_lt_upper_bound; lia].
    + exists p', c'. rewrite length_insert in Hlp. split_and!; [done|done|done|lia|lia|].
      simpl length. replace (pos + S (length right_))%nat with (S pos + length right_)%nat by lia. rewrite Hv.
      pose proof (column product pos x sum Hx) as Hcol. cbn [unsigned]. subst sum. rewrite weight_S in *. lia.
Qed.

Lemma mul_carry_spec : ∀ fuel product pos carry, u32_list product → 0 ≤ carry < base →
  (length product - pos < fuel)%nat → unsigned product + weight pos * carry < weight (length product) →
  ∃ product', BigInt.mul_carry fuel product pos carry = Ok product' ∧ u32_list product'
    ∧ length product' = length product ∧ unsigned product' = unsigned product + weight pos * carry.
Proof.
  induction fuel as [|fuel IH]; intros product pos carry Hp Hc Hf Hb; [lia|]. cbn [BigInt.mul_carry].
  destruct (Z.eqb_spec carry 0) as [->|Hne]; [exists product; split_and!; [done|done|done|lia]|].
  assert (pos < length product)%nat as Hlt.
  { destruct (decide (pos < length product)%nat) as [|Hge]; [done|]. exfalso.
    pose proof (weight_mono (length product) pos ltac:(lia)). pose proof (unsigned_bound _ Hp). nia. }
  destruct (lookup_lt_is_Some_2 _ _ Hlt) as [x Hx]. rewrite Hx. cbn [expect ok_or mbind result_bind].
  pose proof (u32_lookup _ _ _ Hp Hx) as Hux. rewrite base_eq in Hc. unfold_ints.
  rewrite add_u64_fits by (unfold u64_max; lia). cbn [mbind result_bind]. rewrite shift_carry, split_low.
  pose proof (column product pos x (x + carry) Hx) as Hcol.
  destruct (IH (<[pos := (x + carry) mod base]> product) (S pos) ((x + carry) / base)) as (p' & -> & Hp' & Hl' & Hv).
  - apply u32_insert; [done|apply low_u32].
  - rewrite base_eq. divmod_lia.
  - rewrite length_insert. lia.
  - rewrite length_insert. lia.
  - exists p'. rewrite length_insert in Hl'. split_and!; [done|done|done|lia].
Qed.

Lemma mul_outer_spec right_ : u32_list right_ → ∀ left_ product i, u32_list left_ → u32_list product →
  (i + length left_ + length right_ ≤ length product)%nat →
  unsigned product + weight i * (unsigned left_ * unsigned right_) < weight (length product) →
  ∃ product', BigInt.mul_outer product i left_ right_ = Ok product' ∧ u32_list product'
    ∧ length product' = length product
    ∧ unsigned product' = unsigned product + weight i * (unsigned left_ * unsigned right_).
Proof.
  intros Hr. induction left_ as [|l left_ IH]; intros product i Hl Hp Hlen Hb; cbn [BigInt.mul_outer unsigned].
  { exists product. split_and!; [done|done|done|]. lia. }
  apply Forall_cons_1 in Hl as [Hl0 Hl]. simpl in Hlen. cbn [unsigned] in Hb.
  pose proof (unsigned_bound _ Hl) as Hul. pose proof (unsigned_bound _ Hr) as Hur. pose proof (weight_pos i) as Hwi.
  assert (weight (S i) * (unsigned left_ * unsigned right_)
    = weight i * (base * unsigned left_ * unsigned right_)) as Hsplit by (rewrite weight_S; ring).
  destruct (Z.eqb_spec l 0) as [->|Hne].
  { destruct (IH product (S i)) as (p' & -> & Hp' & Hl' & Hv); [done|done|lia|rewrite Hsplit; lia|].
    exists p'. split_and!; [done|done|done|]. rewrite Hv, Hsplit. lia. }
  destruct (mul_inner_spec l Hl0 right_ product i 0 Hr Hp) as (p1 & c1 & -> & Hp1 & Hl1 & Hc1 & Hv1);
    [lia|rewrite base_eq; lia|]. cbn [mbind result_bind].
  assert (0 ≤ weight i * (base * unsigned left_ * unsigned right_)) as Hrest by (rewrite base_eq; nia).
  destruct (mul_carry_spec (S (length p1)) p1 (i + length right_) c1) as (p2 & -> & Hp2 & Hl2 & Hv2);
    [done|done|lia|rewrite Hv1, Hl1; lia|]. cbn [mbind result_bind].
  destruct (IH p2 (S i)) as (p' & -> & Hp' & Hl' & Hv); [done|done|lia|rewrite Hv2, Hv1, Hl2, Hl1, Hsplit; lia|].
  exists p'. split_and!; [done|done|lia|]. rewrite Hv, Hv2, Hv1, Hsplit. lia.
Qed.

Lemma gives_mono (m : outcome BigIntError JsBigInt) z e (over over' : Prop) :
  gives m z e over → (over → over') → gives m z e over'.
Proof. destruct m as [b|[e'| |]]; simpl; naive_solver. Qed.

Lemma gives_bind (m : outcome BigIntError JsBigInt) (f : JsBigInt → outcome BigIntError JsBigInt) x z e over :
  gives m x e over → (∀ b, repr b x → gives (f b) z e over) → gives (m ≫= f) z e over.
Proof. destruct m as [b|[e'| |]]; simpl; naive_solver. Qed.

Lemma fits_abs x y : Z.abs x ≤ Z.abs y → fits (Z.abs y) → fits (Z.abs x).
Proof. unfold fits, in_range. lia. Qed.

Lemma fits_neg x : fits (Z.abs x) → fits (- x).
Proof. unfold fits, in_range. lia. Qed.

Lemma fits_self x : fits (Z.abs x) → fits x.
Proof. unfold fits, in_range. lia. Qed.

(** The limbs of a magnitude, read without a sign. *)
Lemma repr_unsigned b z : repr b z → 0 ≤ z → unsigned (limbs b) = z.
Proof.
  intros [Hu _ _ Hv] Hz. pose proof (unsigned_bound _ Hu). unfold signed in Hv.
  destruct (Z.ltb_spec (2 * unsigned (limbs b)) (weight (length (limbs b)))); lia.
Qed.

Lemma repr_zero : repr BigInt.zero 0.
Proof. constructor; [repeat constructor; solve_ints|done|done|done]. Qed.

Lemma unsigned_zeros n : unsigned (replicate n 0) = 0.
Proof. induction n as [|n IH]; cbn [replicate unsigned]; [done|]. rewrite IH. lia. Qed.

Lemma u32_zeros n : u32_list (replicate n 0).
Proof. apply Forall_replicate. solve_ints. Qed.

(** The product of the magnitudes. *)
Lemma mul_magnitudes left_ right_ : u32_list left_ → u32_list right_ → ∃ product,
  BigInt.mul_outer (replicate (length left_ + length right_ + 1) 0) 0 left_ right_ = Ok product
  ∧ u32_list product ∧ product ≠ [] ∧ signed product = unsigned left_ * unsigned right_.
Proof.
  intros Hl Hr. set (n := (length left_ + length right_ + 1)%nat).
  pose proof (unsigned_bound _ Hl) as Hbl. pose proof (unsigned_bound _ Hr) as Hbr.
  assert (2 * (unsigned left_ * unsigned right_) < weight n) as Hb.
  { subst n. rewrite Nat.add_1_r, weight_S, weight_add, base_eq. nia. }
  destruct (mul_outer_spec right_ Hr left_ (replicate n 0) 0 Hl (u32_zeros n)) as (p & Hp & Hup & Hlp & Hv).
  - rewrite length_replicate. lia.
  - rewrite length_replicate, unsigned_zeros, weight_0. nia.
  - rewrite unsigned_zeros, weight_0 in Hv. rewrite length_replicate in Hlp. exists p. split_and!; [done|done| |].
    + intros ->. simpl in Hlp. lia.
    + unfold signed. rewrite Hlp, Hv. destruct (Z.ltb_spec (2 * (0 + 1 * (unsigned left_ * unsigned right_))) (weight n)); lia.
Qed.

Lemma gives_mul a b x y : repr a x → repr b y →
  gives (BigInt.mul a b) (x * y) TooLarge (¬ fits (Z.abs (x * y))).
Proof.
  intros Ha Hb. unfold BigInt.mul. rewrite (repr_is_zero _ _ Ha), (repr_is_zero _ _ Hb).
  destruct (Z.eqb_spec x 0) as [->|Hx]; [apply repr_zero|].
  destruct (Z.eqb_spec y 0) as [->|Hy]; [rewrite Z.mul_0_r; apply repr_zero|]. cbn [orb].
  rewrite (repr_negative _ _ Ha), (repr_negative _ _ Hb). unfold BigInt.magnitude.
  pose proof (gives_abs a x Ha) as Hma. pose proof (gives_abs b y Hb) as Hmb.
  rewrite Z.abs_mul.
  destruct (BigInt.abs a) as [a'|[e| |]]; simpl in Hma; [|destruct Hma as [?|[-> Hf]]|done|done]; cbn [mbind result_bind].
  2:{ by left. }
  2:{ right. split; [done|]. intros Hfx. apply Hf. rewrite <- Z.abs_mul in Hfx. eapply fits_abs; [|exact Hfx]. nia. }
  destruct (BigInt.abs b) as [b'|[e| |]]; simpl in Hmb; [|destruct Hmb as [?|[-> Hf]]|done|done]; cbn [mbind result_bind].
  2:{ by left. }
  2:{ right. split; [done|]. intros Hfx. apply Hf. rewrite <- Z.abs_mul in Hfx. eapply fits_abs; [|exact Hfx]. nia. }
  destruct (mul_magnitudes (limbs a') (limbs b') (repr_limbs _ _ Hma) (repr_limbs _ _ Hmb)) as (p & -> & Hup & Hpne & Hpv).
  cbn [mbind result_bind].
  rewrite (repr_unsigned _ _ Hma), (repr_unsigned _ _ Hmb) in Hpv by apply Z.abs_nonneg.
  eapply gives_bind; [by eapply gives_mono; [apply gives_from_limbs|]|]. intros v Hv.
  pose proof (repr_fits _ _ Hv) as Hfv. rewrite <- Z.abs_mul in Hv, Hfv.
  destruct (Z.ltb_spec x 0), (Z.ltb_spec y 0); simpl.
  2,3: eapply gives_mono; [replace (x * y) with (- Z.abs (x * y)) by (rewrite Z.abs_neq; nia); by apply gives_neg|];
    intros Hno; destruct Hno; revert Hfv; generalize (x * y); unfold fits, in_range; lia.
  all: by replace (x * y) with (Z.abs (x * y)) by (rewrite Z.abs_eq; nia).
Qed.

(** The magnitude of a product is built first, so a product is returned only
    when its magnitude is in range. *)
Lemma mul_magnitude_fits a b x y r : repr a x → repr b y → BigInt.mul a b = Ok r → fits (Z.abs (x * y)).
Proof.
  intros Ha Hb. unfold BigInt.mul. rewrite (repr_is_zero _ _ Ha), (repr_is_zero _ _ Hb).
  destruct (Z.eqb_spec x 0) as [->|Hx]; [intros _; apply (repr_fits _ _ repr_zero)|].
  destruct (Z.eqb_spec y 0) as [->|Hy]; [rewrite Z.mul_0_r; intros _; apply (repr_fits _ _ repr_zero)|].
  cbn [orb]. unfold BigInt.magnitude.
  pose proof (gives_abs a x Ha) as Hma. pose proof (gives_abs b y Hb) as Hmb.
  destruct (BigInt.abs a) as [a'|]; cbn [mbind result_bind]; [|discriminate].
  destruct (BigInt.abs b) as [b'|]; cbn [mbind result_bind]; [|discriminate]. simpl in Hma, Hmb.
  destruct (mul_magnitudes (limbs a') (limbs b') (repr_limbs _ _ Hma) (repr_limbs _ _ Hmb)) as (p & -> & Hup & Hpne & Hpv).
  cbn [mbind result_bind].
  rewrite (repr_unsigned _ _ Hma), (repr_unsigned _ _ Hmb) in Hpv by apply Z.abs_nonneg.
  pose proof (gives_from_limbs p _ Hup Hpne Hpv) as Hv. rewrite Z.abs_mul.
  destruct (lift (BigInt.from_limbs p)) as [v|]; [intros _|discriminate]. by apply (repr_fits v).
Qed.

End arithmetic.

(** ** Comparison *)

Fixpoint compare_columns (f g : nat → Z) (indices : list nat) : comparison :=
  match indices with
  | [] => Eq
  | i :: indices => match Z.compare (f i) (g i) with Eq => compare_columns f g indices | c => c end
  end.

(** Comparing limbs from the top compares the values. *)
Lemma compare_columns_spec f g n : (∀ i, is_u32 (f i)) → (∀ i, is_u32 (g i)) →
  compare_columns f g (rev (seq 0 n)) = Z.compare (unsigned (f <$> seq 0 n)) (unsigned (g <$> seq 0 n)).
Proof.
  intros Hf Hg. induction n as [|n IH]; [done|]. rewrite seq_S, rev_app_distr, !fmap_app. cbn [rev app compare_columns].
  rewrite !unsigned_app, !length_fmap, length_seq, IH. cbn [fmap list_fmap unsigned].
  assert (0 ≤ unsigned (f <$> seq 0 n) < weight n) as Hbf.
  { pose proof (unsigned_bound (f <$> seq 0 n)) as Hb. rewrite length_fmap, length_seq in Hb. apply Hb, Forall_fmap, Forall_true. done. }
  assert (0 ≤ unsigned (g <$> seq 0 n) < weight n) as Hbg.
  { pose proof (unsigned_bound (g <$> seq 0 n)) as Hb. rewrite length_fmap, length_seq in Hb. apply Hb, Forall_fmap, Forall_true. done. }
  rewrite Nat.add_0_l. pose proof (weight_pos n) as Hw. set (w := weight n) in *.
  destruct (Z.compare_spec (f n) (g n)) as [E|Hlt|Hgt]; symmetry.
  - rewrite E. destruct (Z.compare_spec (unsigned (f <$> seq 0 n)) (unsigned (g <$> seq 0 n)));
      [apply Z.compare_eq_iff|apply Z.compare_lt_iff|apply Z.compare_gt_iff]; lia.
  - apply Z.compare_lt_iff. nia.
  - apply Z.compare_gt_iff. nia.
Qed.

Lemma compare_limbs_spec left_ right_ indices : Forall (λ i, i < length left_ ∧ i < length right_)%nat indices →
  BigInt.compare_limbs left_ right_ indices
    = Ok (compare_columns (λ i, default 0 (left_ !! i)) (λ i, default 0 (right_ !! i)) indices).
Proof.
  induction 1 as [|i indices [Hl Hr] _ IH]; [done|]. cbn [BigInt.compare_limbs compare_columns].
  destruct (lookup_lt_is_Some_2 _ _ Hl) as [x ->], (lookup_lt_is_Some_2 _ _ Hr) as [y ->].
  cbn [expect ok_or mbind result_bind from_option id]. rewrite IH. by destruct (x ?= y).
Qed.

Lemma padded_limbs l : (λ i, default 0 (l !! i)) <$> seq 0 (length l) = l.
Proof.
  apply list_eq. intros i. rewrite list_lookup_fmap. destruct (decide (i < length l)%nat) as [Hlt|Hge].
  - rewrite lookup_seq_lt by done. simpl. by destruct (lookup_lt_is_Some_2 _ _ Hlt) as [x ->].
  - rewrite lookup_seq_ge by lia. simpl. symmetry. apply lookup_ge_None_2. lia.
Qed.

Lemma padded_u32 l i : u32_list l → is_u32 (default 0 (l !! i)).
Proof. intros Hu. destruct (l !! i) eqn:E; cbn [from_option]; [by eapply u32_lookup|solve_ints]. Qed.

Lemma compare_spec a b x y : repr a x → repr b y → BigInt.compare a b = Ok (Z.compare x y).
Proof.
  intros Ha Hb. unfold BigInt.compare. rewrite (repr_negative _ _ Ha), (repr_negative _ _ Hb).
  destruct Ha as [Hua Hna _ Hva], Hb as [Hub Hnb _ Hvb].
  pose proof (signed_range _ Hua) as Hra. pose proof (signed_range _ Hub) as Hrb. rewrite Hva in Hra. rewrite Hvb in Hrb.
  assert (1 ≤ length (limbs a) ∧ 1 ≤ length (limbs b))%nat as [H1a H1b].
  { apply normal_nonempty in Hna, Hnb. by destruct (limbs a), (limbs b); simpl; try lia. }
  assert (∀ n, in_range n x → (1 ≤ n)%nat → (length (limbs a) ≤ n)%nat) as Hmina
    by (intros n; rewrite <- Hva; by apply normal_minimal).
  assert (∀ n, in_range n y → (1 ≤ n)%nat → (length (limbs b) ≤ n)%nat) as Hminb
    by (intros n; rewrite <- Hvb; by apply normal_minimal).
  destruct (Z.ltb_spec x 0) as [Hx|Hx], (Z.ltb_spec y 0) as [Hy|Hy].
  2:{ f_equal. symmetry. apply Z.compare_lt_iff. lia. }
  2:{ f_equal. symmetry. apply Z.compare_gt_iff. lia. }
  all: destruct (Nat.compare_spec (length (limbs a)) (length (limbs b))) as [E|Hlt|Hgt]; cbn [BigInt.reverse_ordering].
  1,4: rewrite compare_limbs_spec by (apply Forall_rev, Forall_forall; intros i ?%elem_of_seq; lia);
    rewrite compare_columns_spec by (intros; by apply padded_u32);
    rewrite padded_limbs; rewrite E at 1; rewrite padded_limbs;
    rewrite (unsigned_signed _ Hua), (unsigned_signed _ Hub), Hva, Hvb, E;
    unfold in_range in *; rewrite E in Hra; f_equal.
  - rewrite <- (Z.mod_add x 1), <- (Z.mod_add y 1) by (pose proof (weight_pos (length (limbs b))); lia).
    rewrite !Z.mod_small by lia. symmetry. rewrite !Z.mul_1_l, !(Z.add_comm _ (weight _)). symmetry. apply Z.add_compare_mono_l.
  - by rewrite !Z.mod_small by lia.
  - f_equal. symmetry. apply Z.compare_gt_iff. destruct (decide (y < x)) as [|Hge]; [done|]. exfalso.
    pose proof (Hminb (length (limbs a))) as Hm. unfold in_range in *. lia.
  - f_equal. symmetry. apply Z.compare_lt_iff. destruct (decide (x < y)) as [|Hge]; [done|]. exfalso.
    pose proof (Hmina (length (limbs b))) as Hm. unfold in_range in *. lia.
  - f_equal. symmetry. apply Z.compare_lt_iff. destruct (decide (x < y)) as [|Hge]; [done|]. exfalso.
    pose proof (Hminb (length (limbs a))) as Hm. unfold in_range in *. lia.
  - f_equal. symmetry. apply Z.compare_gt_iff. destruct (decide (y < x)) as [|Hge]; [done|]. exfalso.
    pose proof (Hmina (length (limbs b))) as Hm. unfold in_range in *. lia.
Qed.

(** ** Every integer in range has a representation *)

Fixpoint limbs_of (n : nat) (z : Z) : list Z :=
  match n with
  | O => []
  | S n => z mod base :: limbs_of n (z / base)
  end.

Lemma limbs_of_spec n : ∀ z, u32_list (limbs_of n z) ∧ length (limbs_of n z) = n
  ∧ unsigned (limbs_of n z) = z mod weight n.
Proof.
  induction n as [|n IH]; intros z; cbn [limbs_of unsigned length].
  - split_and!; [constructor|done|]. rewrite weight_0. symmetry. apply Z.mod_1_r.
  - destruct (IH (z / base)) as (Hu & Hl & Hv). split_and!; [constructor; [apply low_u32|done]|lia|].
    rewrite Hv, weight_S. pose proof (carry_step z 0 (weight n) (weight_pos n)) as Hc.
    rewrite Z.add_0_l, Z.mul_0_r, Z.add_0_r in Hc. done.
Qed.

Lemma repr_exists_in n z : (1 ≤ n)%nat → in_range n z → fits z → ∃ b, repr b z.
Proof.
  intros Hn Hr Hf. destruct (limbs_of_spec n z) as (Hu & Hl & Hv).
  assert (limbs_of n z ≠ []) as Hne by (intros E; rewrite E in Hl; simpl in Hl; lia).
  pose proof (from_limbs_spec (limbs_of n z) z Hu Hne) as Hs.
  destruct (BigInt.from_limbs (limbs_of n z)) as [b|e].
  - exists b. apply Hs, signed_mod; by rewrite ?Hl.
  - destruct Hs as [_ Hno]; [|contradiction]. apply signed_mod; by rewrite ?Hl.
Qed.

Lemma repr_exists z : fits z → ∃ b, repr b z.
Proof. intros Hf. apply (repr_exists_in (Z.to_nat MAX_LIMBS)); [rewrite max_limbs_eq; lia|exact Hf|exact Hf]. Qed.

(** ** Machine integers *)

Lemma repr_of_limbs l z : u32_list l → l ≠ [] → signed l = z → (length l ≤ 3)%nat → repr (mkBigInt (BigInt.normalize l)) z.
Proof.
  intros Hu Hne Hz Hl. pose proof (from_limbs_spec l z Hu Hne Hz) as Hs. unfold BigInt.from_limbs in Hs.
  assert (match l with [] => [0] | _ => l end = l) as E by (by destruct l). rewrite E in Hs.
  destruct (Z.ltb_spec MAX_LIMBS (len (BigInt.normalize l))); [|done]. exfalso.
  destruct Hs as [_ Hno]. apply Hno. unfold fits. apply (in_range_mono (length l)); [rewrite max_limbs_eq; lia|].
  rewrite <- Hz. by apply signed_range.
Qed.

Lemma weight_2 : weight 2 = 2 ^ 64.
Proof. done. Qed.

Lemma split_spec v : 0 ≤ v < 2 ^ 64 → BigInt.split_u64 v = (v mod base, v / base)
  ∧ is_u32 (v / base) ∧ v mod base + base * (v / base) = v.
Proof.
  intros Hv. unfold BigInt.split_u64. rewrite shift_carry. change (2 ^ 32) with base.
  assert (0 ≤ v / base < base) as Hb.
  { rewrite base_eq. change (2 ^ 64) with (4294967296 * 4294967296) in Hv.
    split; [apply Z.div_pos; lia|apply Z.div_lt_upper_bound; lia]. }
  rewrite (Z.mod_small (v / base)) by done. split; [done|]. rewrite base_eq in *. split; [solve_ints|].
  pose proof (Z.div_mod v 4294967296 ltac:(done)). lia.
Qed.

Lemma repr_from_i32 v : is_i32 v → repr (BigInt.from_i32 v) v.
Proof.
  intros Hv. assert (u32_list [v mod 2 ^ 32]) as Hu by (constructor; [apply (low_u32 v)|constructor]).
  constructor; [done|done|by vm_compute|]. cbn [limbs BigInt.from_i32]. apply signed_mod; [done| |].
  - unfold in_range. cbn [length]. rewrite weight_S, weight_0, base_eq. solve_ints.
  - cbn [unsigned length]. rewrite weight_S, weight_0, Z.mul_0_r, Z.add_0_r, Z.mul_1_r. done.
Qed.

Lemma repr_from_i64 v : is_i64 v → repr (BigInt.from_i64 v) v.
Proof.
  intros Hv. unfold BigInt.from_i64.
  destruct (split_spec (v mod 2 ^ 64)) as (-> & Hh & Hsum); [by apply Z.mod_pos_bound|].
  assert (u32_list [v mod 2 ^ 64 mod base; v mod 2 ^ 64 / base]) as Hu
    by (constructor; [apply low_u32|constructor; [done|constructor]]).
  apply repr_of_limbs; [done|done| |simpl; lia]. apply signed_mod; [done| |].
  - cbn [length]. unfold in_range. rewrite weight_2. unfold_ints. change (2 ^ 64) with 18446744073709551616. lia.
  - cbn [unsigned length]. rewrite weight_2, Z.mul_0_r, Z.add_0_r. done.
Qed.

Lemma repr_from_u64 v : is_u64 v → repr (BigInt.from_u64 v) v.
Proof.
  intros Hv. unfold BigInt.from_u64. destruct (split_spec v) as (-> & Hh & Hsum); [unfold_ints; lia|].
  assert (u32_list [v mod base; v / base; 0]) as Hu
    by (constructor; [apply low_u32|constructor; [done|constructor; [solve_ints|constructor]]]).
  apply repr_of_limbs; [done|done| |simpl; lia]. change [v mod base; v / base; 0] with ([v mod base; v / base] ++ [0]).
  rewrite signed_snoc; [|constructor; [apply low_u32|by constructor]|solve_ints].
  change (0 <? 2147483648) with true. cbn [unsigned]. lia.
Qed.

Lemma low_u64_spec b z : repr b z → BigInt.low_u64_twos_complement b = z mod 2 ^ 64.
Proof.
  intros Hr. pose proof (extended_unsigned b z 2 Hr) as He. rewrite weight_2 in He. rewrite <- He.
  pose proof (limb_u32 b 0 (repr_limbs _ _ Hr)) as H0. unfold BigInt.low_u64_twos_complement, extended.
  cbn [seq fmap list_fmap unsigned]. rewrite Z.lor_comm, Z.shiftl_mul_pow2 by done.
  rewrite (lor_tag _ 32) by (unfold_ints; simpl; lia). rewrite base_eq. change (2 ^ LIMB_BITS) with 4294967296. lia.
Qed.

Lemma to_u64_spec b z : repr b z → BigInt.to_u64 b = if (0 <=? z) && (z <? 2 ^ 64) then Some z else None.
Proof.
  intros Hr. unfold BigInt.to_u64. rewrite (repr_negative _ _ Hr), (low_u64_spec _ _ Hr).
  destruct (Z.ltb_spec z 0) as [Hneg|Hz]; [by destruct (Z.leb_spec 0 z); [lia|]|]. cbn [orb].
  destruct (Z.leb_spec 0 z); [|lia]. cbn [andb].
  pose proof (repr_unsigned _ _ Hr Hz) as Huz. destruct Hr as [Hu Hn _ Hv].
  destruct (Z.ltb_spec 3 (len (limbs b))) as [H3|H3].
  { destruct (Z.ltb_spec z (2 ^ 64)) as [Hlt|]; [|done]. exfalso.
    assert (length (limbs b) ≤ 3)%nat; [|unfold len in H3; lia]. apply normal_minimal; [done|done| |lia].
    rewrite Hv. unfold in_range. rewrite weight_S, weight_2, base_eq. lia. }
  pose proof (unsigned_bound _ Hu) as Hb. rewrite Huz in Hb.
  destruct (Z.eqb_spec (len (limbs b)) 3) as [E|Hne3]; cbn [andb].
  - destruct (limbs b) as [|l0 [|l1 [|l2 [|]]]] eqn:El; try (unfold len in E; simpl in E; lia).
    unfold BigInt.limb. rewrite El. cbn [lookup list_lookup from_option id]. cbn [unsigned] in Huz.
    apply Forall_cons_1 in Hu as [H0 [H1 [H2 _]%Forall_cons_1]%Forall_cons_1]. unfold_ints.
    rewrite base_eq in Huz. change (2 ^ 64) with 18446744073709551616.
    destruct (Z.eqb_spec l2 0) as [->|Hl2]; cbn [negb].
    + destruct (Z.ltb_spec z 18446744073709551616); [|lia]. by rewrite Z.mod_small by lia.
    + destruct (Z.ltb_spec z 18446744073709551616); [lia|done].
  - assert (z < 2 ^ 64) as Hlt.
    { eapply Z.lt_le_trans; [apply Hb|]. rewrite <- weight_2. apply weight_mono. unfold len in *. lia. }
    destruct (Z.ltb_spec z (2 ^ 64)); [|lia]. by rewrite Z.mod_small by lia.
Qed.

Lemma to_i64_spec b z : repr b z → BigInt.to_i64 b = if bool_decide (is_i64 z) then Some z else None.
Proof.
  intros Hr. unfold BigInt.to_i64. rewrite (low_u64_spec _ _ Hr). destruct (decide (is_i64 z)) as [Hi|Hno].
  - rewrite bool_decide_eq_true_2 by done. destruct (Z.ltb_spec 2 (len (limbs b))) as [H2|_].
    { exfalso. destruct Hr as [Hu Hn _ Hv]. assert (length (limbs b) ≤ 2)%nat; [|unfold len in H2; lia].
      apply normal_minimal; [done|done| |lia]. rewrite Hv. unfold in_range. rewrite weight_2. unfold_ints.
      change (2 ^ 64) with 18446744073709551616. lia. }
    rewrite (sign_extend_mod 64) by (lia || (unfold_ints; simpl; lia)).
    rewrite decide_True; [done|]. eapply repr_inj; [by apply repr_from_i64|done].
  - rewrite bool_decide_eq_false_2 by done. case_match; [done|]. rewrite decide_False; [done|]. intros E. apply Hno.
    assert (is_i64 (sign_extend 64 (z mod 2 ^ 64))) as Hs.
    { pose proof (sign_extend_bound 64 (z mod 2 ^ 64) ltac:(lia) (Z.mod_pos_bound z (2 ^ 64) ltac:(done))) as Hsb.
      change (2 ^ (64 - 1)) with 9223372036854775808 in Hsb. unfold_ints. lia. }
    pose proof (repr_from_i64 _ Hs) as Hr'. rewrite E in Hr'.
    destruct Hr as [_ _ _ Hv], Hr' as [_ _ _ Hv']. congruence.
Qed.

(** ** Powers *)

Section powers.
Context `{Allocator}.

Lemma gives_promoted (m : outcome BigIntError JsBigInt) z over :
  gives m z TooLarge over → gives (BigInt.promoted m) z ResultTooLarge over.
Proof. destruct m as [b|[e| |]]; simpl; [done| |done|done]. intros [[-> ?]|[-> ?]]; simpl; auto. Qed.

Lemma fits_zero : fits 0.
Proof. unfold fits, in_range. pose proof (weight_pos (Z.to_nat MAX_LIMBS)). lia. Qed.

(** A factor of a product that fits, fits. *)
Lemma fits_factor p q : q ≠ 0 → fits (Z.abs (p * q)) → fits (Z.abs p).
Proof. intros Hq. apply fits_abs. rewrite Z.abs_mul. nia. Qed.

Lemma odd_land r : 0 ≤ r → (Z.land r 1 =? 1) = Z.odd r.
Proof.
  intros Hr. change 1 with (Z.ones 1) at 1. rewrite land_ones_mod by lia. change (2 ^ 1) with 2.
  rewrite Zmod_odd. by destruct (Z.odd r).
Qed.

Lemma square_and_multiply r y n : 0 ≤ n →
  r * y ^ n = (if Z.odd n then r * y else r) * (y * y) ^ (Z.shiftr n 1).
Proof.
  intros Hn. rewrite <- Z.div2_spec. pose proof (Z.div2_odd n) as E.
  assert (0 ≤ Z.div2 n) by (by apply Z.div2_nonneg). rewrite <- Z.pow_2_r, <- Z.pow_mul_r by lia.
  rewrite E at 1. destruct (Z.odd n); cbn [Z.b2z].
  - rewrite Z.pow_add_r, Z.pow_1_r by lia. ring.
  - by rewrite Z.add_0_r.
Qed.

Lemma pow_loop_spec : ∀ fuel a b r y n, repr a r → repr b y → (r = 0 → y = 0) →
  0 ≤ n < 2 ^ Z.of_nat fuel →
  gives (BigInt.pow_loop (S fuel) a b n) (r * y ^ n) ResultTooLarge (¬ fits (Z.abs (r * y ^ n))).
Proof.
  induction fuel as [|fuel IH]; intros a b r y n Ha Hb Hry Hn.
  { simpl in Hn. assert (n = 0) as -> by lia. simpl. by rewrite Z.mul_1_r. }
  remember (S fuel) as fuel' eqn:Ef. cbn [BigInt.pow_loop]. destruct (Z.eqb_spec n 0) as [->|Hne].
  { simpl. by rewrite Z.mul_1_r. }
  rewrite odd_land by lia. rewrite (square_and_multiply r y n) by lia.
  set (m := Z.shiftr n 1). set (r' := if Z.odd n then r * y else r).
  assert (0 ≤ m < 2 ^ Z.of_nat fuel) as Hm.
  { subst m. rewrite <- Z.div2_spec, Z.div2_div. subst fuel'. rewrite Nat2Z.inj_succ, Z.pow_succ_r in Hn by lia.
    split; [apply Z.div_pos; lia|apply Z.div_lt_upper_bound; lia]. }
  assert (0 < m → y ≠ 0 → (y * y) ^ (m - 1) ≠ 0) as Hnz by (intros; apply Z.pow_nonzero; nia).
  assert (m = 0 ∨ 0 < m) as Hm0 by lia.
  assert ((y * y) ^ m = y * y * (y * y) ^ (m - 1) ∨ m = 0) as Hpow.
  { destruct Hm0 as [|Hpos]; [by right|left]. rewrite <- Z.pow_succ_r by lia. f_equal. lia. }
  assert (r' = 0 → y = 0) as Hry'.
  { subst r'. destruct (Z.odd n); [|done]. intros [?|?]%Z.mul_eq_0; auto. }
  eapply gives_bind.
  { instantiate (1 := r'). subst r'. destruct (Z.odd n) eqn:Hodd; [|done]. eapply gives_mono; [by apply gives_promoted, gives_mul|].
    intros Hno Hf. apply Hno. destruct (decide (y = 0)) as [->|Hy]; [rewrite Z.mul_0_r; apply fits_zero|].
    eapply fits_factor; [|exact Hf]. apply Z.pow_nonzero; [nia|lia]. }
  intros a' Ha'. destruct (Z.ltb_spec 0 m) as [Hpos|]; cbv zeta.
  - destruct Hpow as [Hpow|]; [|lia]. eapply gives_bind.
    + eapply gives_mono; [by apply gives_promoted, gives_mul|]. intros Hno Hf. apply Hno.
      destruct (decide (y = 0)) as [->|Hy]; [apply fits_zero|].
      assert (r' ≠ 0) as Hr by exact (λ Hr, Hy (Hry' Hr)).
      eapply (fits_factor _ (r' * (y * y) ^ (m - 1))); [apply Z.neq_mul_0; auto|].
      replace (y * y * (r' * (y * y) ^ (m - 1))) with (r' * (y * y) ^ m) by (rewrite Hpow; ring). done.
    + intros b' Hb'. subst fuel'. apply IH; [done|done| |done]. intros Hr. rewrite (Hry' Hr). done.
  - assert (m = 0) as -> by lia. simpl. subst fuel'.
    pose proof (IH a' b r' y 0 Ha' Hb Hry' Hm) as Hdone. by rewrite Z.pow_0_r in *.
Qed.

Lemma gives_pow a b x n : repr a x → repr b n → 0 ≤ n →
  gives (BigInt.pow a b) (x ^ n) ResultTooLarge (¬ fits (Z.abs (x ^ n)) ∨ 2 ^ 64 ≤ n).
Proof.
  intros Ha Hb Hn. unfold BigInt.pow. rewrite (repr_negative _ _ Hb), (to_u64_spec _ _ Hb).
  destruct (Z.ltb_spec n 0); [lia|]. destruct (Z.leb_spec 0 n); [|lia]. cbn [andb].
  destruct (Z.ltb_spec n (2 ^ 64)) as [Hlt|Hge]; [|right; auto].
  assert (repr (BigInt.from_i32 1) 1) as Hone by (apply repr_from_i32; solve_ints).
  rewrite <- (Z.mul_1_l (x ^ n)). eapply gives_mono; [apply (pow_loop_spec 64); [done|done|done|done]|auto].
Qed.

Lemma pow_negative a b n : repr b n → n < 0 → BigInt.pow a b = Err (Fail NegativeExponent).
Proof.
  intros Hb Hn. unfold BigInt.pow. rewrite (repr_negative _ _ Hb). by destruct (Z.ltb_spec n 0); [|lia].
Qed.
End powers.

(** Big integers are the integers of at most a mebibit: every integer in
    range has exactly one representation, equality of representations is
    equality of values, [compare] orders by value, and the constructors from
    and conversions to machine integers are exact at their widths. *)
Theorem bigint_values_exact :
  (∀ z, fits z → ∃ b, repr b z ∧ ∀ b', repr b' z → b' = b)
  ∧ ∀ a b x y, repr a x → repr b y →
      fits x ∧ (a = b ↔ x = y) ∧ BigInt.compare a b = Ok (Z.compare x y)
      ∧ (BigInt.is_zero a = true ↔ x = 0) ∧ (BigInt.is_negative a = true ↔ x < 0)
      ∧ BigInt.to_i64 a = (if bool_decide (is_i64 x) then Some x else None)
      ∧ BigInt.to_u64 a = (if (0 <=? x) && (x <? 2 ^ 64) then Some x else None)
      ∧ BigInt.low_u64_twos_complement a = x mod 2 ^ 64
      ∧ (is_i64 x → a = BigInt.from_i64 x) ∧ (is_u64 x → a = BigInt.from_u64 x).
Proof.
  split.
  - intros z Hz. destruct (repr_exists z Hz) as [b Hb]. exists b. split; [done|]. intros b' Hb'. by eapply repr_inj.
  - intros a b x y Ha Hb. split_and!.
    + by eapply repr_fits.
    + split; [|intros ->; by eapply repr_inj]. intros ->. destruct Ha as [_ _ _ <-], Hb as [_ _ _ <-]. done.
    + by apply compare_spec.
    + rewrite (repr_is_zero _ _ Ha). apply Z.eqb_eq.
    + rewrite (repr_negative _ _ Ha). apply Z.ltb_lt.
    + by apply to_i64_spec.
    + by apply to_u64_spec.
    + by apply low_u64_spec.
    + intros Hx. eapply repr_inj; [done|]. by apply repr_from_i64.
    + intros Hx. eapply repr_inj; [done|]. by apply repr_from_u64.
Qed.

Lemma bigint_values_exact_witness :
  BigInt.compare (mkBigInt [4294967295; 0]) (mkBigInt [4294967293]) = Ok (Z.compare 4294967295 (-3))
  ∧ BigInt.to_i64 (mkBigInt [4294967295; 0]) = Some 4294967295.
Proof.
  destruct bigint_values_exact as [_ Hall].
  destruct (Hall (mkBigInt [4294967295; 0]) (mkBigInt [4294967293]) 4294967295 (-3)) as (_ & _ & Hc & _ & _ & Hi & _).
  - constructor; [repeat apply Forall_cons_2; try apply Forall_nil_2; solve_ints|reflexivity|vm_compute; discriminate|reflexivity].
  - constructor; [repeat apply Forall_cons_2; try apply Forall_nil_2; solve_ints|exact I|vm_compute; discriminate|reflexivity].
  - split; [exact Hc|exact Hi].
Defined.

(** C14. Negation, addition, subtraction, multiplication and exponentiation
    compute the integer result, carries and signs included, with no index out
    of range and no overflow of the 64-bit columns.  Negation, addition and
    subtraction fail with the size error only when the result is out of range;
    a product and a power can fail only when their magnitude is out of range
    (products and powers are built from magnitudes), and a power also when the
    exponent does not fit 64 bits; a negative exponent is refused. *)
Theorem bigint_arithmetic_exact `{Allocator} a b x y : repr a x → repr b y →
  gives (BigInt.neg a) (- x) TooLarge (¬ fits (- x))
  ∧ gives (BigInt.add a b) (x + y) TooLarge (¬ fits (x + y))
  ∧ gives (BigInt.sub a b) (x - y) TooLarge (¬ fits (x - y))
  ∧ gives (BigInt.mul a b) (x * y) TooLarge (¬ fits (Z.abs (x * y)))
  ∧ (0 ≤ y → gives (BigInt.pow a b) (x ^ y) ResultTooLarge (¬ fits (Z.abs (x ^ y)) ∨ 2 ^ 64 ≤ y))
  ∧ (y < 0 → BigInt.pow a b = Err (Fail NegativeExponent)).
Proof.
  intros Ha Hb. split_and!.
  - by apply gives_neg.
  - by apply (gives_add_with_sign a b x y false).
  - by apply (gives_add_with_sign a b x y true).
  - by apply gives_mul.
  - by apply gives_pow.
  - by apply pow_negative.
Qed.

(** 2^32 - 1 and -3 *)
Lemma bigint_arithmetic_exact_witness :
  gives (H := always_allocates) (@BigInt.mul always_allocates (mkBigInt [4294967295; 0]) (mkBigInt [4294967293]))
    (4294967295 * -3) TooLarge (¬ fits (Z.abs (4294967295 * -3))).
Proof.
  apply (@bigint_arithmetic_exact always_allocates (mkBigInt [4294967295; 0]) (mkBigInt [4294967293]) 4294967295 (-3)).
  - constructor; [repeat apply Forall_cons_2; try apply Forall_nil_2; solve_ints|reflexivity|vm_compute; discriminate|reflexivity].
  - constructor; [repeat apply Forall_cons_2; try apply Forall_nil_2; solve_ints|exact I|vm_compute; discriminate|reflexivity].
Defined.

(** One to the power of two to the 64: the exponent is refused although the
    result is one. *)
Lemma pow_refuses_one : @BigInt.pow always_allocates (BigInt.from_i32 1) (mkBigInt [0; 0; 1]) = Err (Fail ResultTooLarge).
Proof. reflexivity. Qed.
