(* ===== verification/BigIntBits.v ===== *)
(** * Big integers as bit sequences

    The bitwise operators, the shifts and the truncations of BigInt.v on the
    infinite two's-complement expansion of the integers. *)

From S2P Require Import Prelude RuntimePrelude BigInt BigIntFacts.
From stdpp Require Import list.
Local Open Scope Z_scope.

(** ** Limb-wise operations *)

Lemma weight_pow n : weight n = 2 ^ (32 * Z.of_nat n).
Proof. unfold weight, base. rewrite <- Z.pow_mul_r by lia. done. Qed.

(** The least integer in range is refused as a product. *)
Lemma least_product_refused `{Allocator} a b x y : repr a x → repr b y → x * y = - 2 ^ (32 * MAX_LIMBS - 1) →
  fits (x * y) ∧ ∀ r, BigInt.mul a b ≠ Ok r.
Proof.
  intros Ha Hb Hxy.
  assert (weight (Z.to_nat MAX_LIMBS) = 2 * 2 ^ (32 * MAX_LIMBS - 1)) as Hw.
  { rewrite weight_pow, Z2Nat.id by (rewrite max_limbs_eq; lia).
    replace (32 * MAX_LIMBS) with (Z.succ (32 * MAX_LIMBS - 1)) at 1 by lia.
    apply Z.pow_succ_r. rewrite max_limbs_eq. lia. }
  pose proof (Z.pow_pos_nonneg 2 (32 * MAX_LIMBS - 1) ltac:(lia) ltac:(rewrite max_limbs_eq; lia)) as Hp.
  unfold fits, in_range. rewrite Hxy. split; [lia|]. intros r Hr.
  apply (mul_magnitude_fits a b x y) in Hr; [|done..]. unfold fits, in_range in Hr. rewrite Hxy in Hr. lia.
Qed.
Section bitop.
Context (op : Z → Z → Z) (f : bool → bool → bool).
Context (Hop : ∀ a b n, 0 ≤ n → Z.testbit (op a b) n = f (Z.testbit a n) (Z.testbit b n)).
Context (Hf : f false false = false).

Lemma op_mod a b k : 0 ≤ k → op a b mod 2 ^ k = op (a mod 2 ^ k) (b mod 2 ^ k).
Proof.
  intros Hk. apply Z.bits_inj'. intros n Hn. destruct (decide (n < k)).
  - rewrite Z.mod_pow2_bits_low, !Hop, !Z.mod_pow2_bits_low by lia. done.
  - rewrite Z.mod_pow2_bits_high, Hop, !Z.mod_pow2_bits_high by lia. done.
Qed.

Lemma op_shiftr a b k : 0 ≤ k → Z.shiftr (op a b) k = op (Z.shiftr a k) (Z.shiftr b k).
Proof.
  intros Hk. apply Z.bits_inj'. intros n Hn. rewrite Z.shiftr_spec, !Hop, !Z.shiftr_spec by lia. done.
Qed.

Lemma op_sign a b : (a = 0 ∨ a = -1) → (b = 0 ∨ b = -1) → op a b = 0 ∨ op a b = -1.
Proof.
  intros Ha Hb. set (s := f (Z.testbit a 0) (Z.testbit b 0)).
  assert (op a b = if s then -1 else 0) as ->; [|destruct s; auto].
  assert (∀ c n, 0 ≤ n → (c = 0 ∨ c = -1) → Z.testbit c n = Z.testbit c 0) as Hconst.
  { intros c n Hn [->| ->]; [by rewrite !Z.bits_0|by rewrite !Z.bits_m1 by lia]. }
  apply Z.bits_inj'. intros n Hn. rewrite Hop by done. rewrite (Hconst a n), (Hconst b n) by done. fold s.
  destruct s; [by rewrite Z.bits_m1|by rewrite Z.bits_0].
Qed.

Lemma in_range_shiftr n z : in_range (S n) z ↔ (Z.shiftr z (32 * Z.of_nat (S n) - 1) = 0 ∨ Z.shiftr z (32 * Z.of_nat (S n) - 1) = -1).
Proof.
  unfold in_range. rewrite weight_pow. set (k := 32 * Z.of_nat (S n)). rewrite Z.shiftr_div_pow2 by lia.
  replace (2 ^ k) with (2 * 2 ^ (k - 1)) by (rewrite <- Z.pow_succ_r by lia; f_equal; lia).
  assert (0 < 2 ^ (k - 1)) by (apply Z.pow_pos_nonneg; lia). set (w := 2 ^ (k - 1)) in *. split.
  - intros Hz. pose proof (Z.div_mod z w ltac:(lia)). pose proof (Z.mod_pos_bound z w ltac:(lia)). nia.
  - intros Hz. pose proof (Z.div_mod z w ltac:(lia)). pose proof (Z.mod_pos_bound z w ltac:(lia)). nia.
Qed.

Lemma op_range n a b : in_range (S n) a → in_range (S n) b → in_range (S n) (op a b).
Proof. rewrite !in_range_shiftr. intros Ha Hb. rewrite op_shiftr by lia. by apply op_sign. Qed.

Lemma op_u32 a b : is_u32 a → is_u32 b → is_u32 (op a b).
Proof.
  intros Ha Hb. rewrite <- (Z.mod_small a base), <- (Z.mod_small b base) by (rewrite base_eq; unfold_ints; lia).
  unfold base. rewrite <- op_mod by lia. apply (low_u32 (op a b)).
Qed.

Lemma unsigned_op (g h : nat → Z) indices : (∀ i, is_u32 (g i)) → (∀ i, is_u32 (h i)) →
  unsigned ((λ i, op (g i) (h i)) <$> indices) = op (unsigned (g <$> indices)) (unsigned (h <$> indices)).
Proof.
  intros Hg Hh. induction indices as [|i indices IH]; cbn [fmap list_fmap unsigned].
  - symmetry. apply Z.bits_inj'. intros n Hn. by rewrite Hop, !Z.bits_0.
  - change (list_fmap _ _ ?k ?l) with (k <$> l). rewrite IH. set (X := unsigned (g <$> indices)). set (Y := unsigned (h <$> indices)).
    assert (∀ z, z = z mod 2 ^ 32 + base * Z.shiftr z 32) as Hsplit.
    { intros z. rewrite Z.shiftr_div_pow2 by lia. pose proof (Z.div_mod z (2 ^ 32) ltac:(done)). unfold base. lia. }
    rewrite (Hsplit (op (g i + base * X) (h i + base * Y))), op_mod, op_shiftr by lia.
    assert (∀ x Z0, is_u32 x → (x + base * Z0) mod 2 ^ 32 = x ∧ Z.shiftr (x + base * Z0) 32 = Z0) as Hcol.
    { intros x Z0 Hx. unfold_ints. rewrite (Z.mul_comm base). split.
      - unfold base. rewrite Z.mod_add by done. apply Z.mod_small. lia.
      - rewrite Z.shiftr_div_pow2 by lia. unfold base. rewrite Z.div_add, Z.div_small by (done || lia). lia. }
    destruct (Hcol (g i) X (Hg i)) as [-> ->], (Hcol (h i) Y (Hh i)) as [-> ->]. done.
Qed.

Lemma represents_bitwise `{Allocator} a b x y : repr a x → repr b y →
  gives (lift (BigInt.bitwise a b op)) (op x y) TooLarge False.
Proof.
  intros Ha Hb. unfold BigInt.bitwise. set (n := Nat.max (length (limbs a)) (length (limbs b))).
  assert (∃ m, n = S m) as [m Hm].
  { pose proof (repr_nonempty _ _ Ha). exists (pred n). destruct (limbs a); [done|]. subst n. simpl. lia. }
  assert (in_range n x) as Hx.
  { apply (in_range_mono (length (limbs a))); [lia|]. rewrite <- (repr_value _ _ Ha). apply signed_range, Ha. }
  assert (in_range n y) as Hy.
  { apply (in_range_mono (length (limbs b))); [lia|]. rewrite <- (repr_value _ _ Hb). apply signed_range, Hb. }
  assert (fits (op x y)) as Hfit.
  { pose proof (repr_fits _ _ Ha) as Hfx. pose proof (repr_fits _ _ Hb) as Hfy. unfold fits in *.
    assert (∃ k, Z.to_nat MAX_LIMBS = S k) as [k Hk] by (exists (Nat.pred (Z.to_nat MAX_LIMBS)); rewrite max_limbs_eq; lia).
    rewrite Hk in *. by apply op_range. }
  unfold BigInt.reserve, Prelude.reserve, reject_if.
  destruct (try_reserve _ _ _) eqn:E; simpl; [|left; split; [done|by eexists _, _, _]].
  eapply gives_mono; [eapply (gives_residue _ m (op x y))|done].
  - apply Forall_fmap, Forall_true. intros i. apply op_u32; apply limb_u32; [apply Ha|apply Hb].
  - by rewrite length_fmap, length_seq.
  - rewrite unsigned_op by (intros i; apply limb_u32; apply Ha || apply Hb).
    change (BigInt.limb a <$> seq 0 n) with (extended a n). change (BigInt.limb b <$> seq 0 n) with (extended b n).
    rewrite (extended_unsigned a x), (extended_unsigned b y), Hm, weight_pow by done. symmetry. apply op_mod. lia.
  - rewrite Hm in Hx, Hy. by apply op_range.
Qed.
End bitop.

Section shifts.
Context `{Allocator}.

Lemma gives_reserve_result n (m : result BigIntError JsBigInt) z e over : gives (lift m) z e over →
  gives (lift (BigInt.reserve n ;; m)) z e over.
Proof.
  intros Hm. unfold BigInt.reserve, Prelude.reserve, reject_if. destruct (try_reserve _ _ _) eqn:E; simpl; [done|].
  left. split; [done|]. by eexists _, _, _.
Qed.

(** ** Complement *)

Lemma length_limbs_pos b z : repr b z → ∃ n, length (limbs b) = S n.
Proof. intros Hr%repr_nonempty. destruct (limbs b) as [|x l]; [done|]. by exists (length l). Qed.

Lemma repr_range b z : repr b z → in_range (length (limbs b)) z.
Proof. intros [Hu _ _ <-]. by apply signed_range. Qed.

Lemma gives_not b z : repr b z → gives (lift (BigInt.not b)) (Z.lnot z) TooLarge False.
Proof.
  intros Hr. unfold BigInt.not. apply gives_reserve_result. destruct (length_limbs_pos _ _ Hr) as [n Hn].
  pose proof (repr_range _ _ Hr) as Hrange. pose proof (repr_fits _ _ Hr) as Hfit. rewrite Hn in Hrange.
  assert (∀ m, in_range (S m) z → in_range (S m) (Z.lnot z)) as Hneg.
  { intros m. unfold in_range, Z.lnot. rewrite weight_S, base_eq. set (w := weight m). lia. }
  eapply gives_mono; [eapply (gives_residue _ n)|].
  - apply Forall_fmap. eapply Forall_impl; [apply Hr|]. intros x. apply not_u32_u32.
  - by rewrite length_fmap.
  - rewrite unsigned_not. assert (unsigned (limbs b) = z mod weight (length (limbs b))) as ->
      by (rewrite <- (extended_full b) at 1; by apply extended_unsigned).
    rewrite Hn. pose proof (weight_pos (S n)). set (w := weight (S n)) in *. unfold Z.lnot.
    pose proof (Z.div_mod z w ltac:(lia)). pose proof (Z.mod_pos_bound z w ltac:(lia)).
    apply Z.mod_unique_pos with (- (z / w) - 1); [lia|]. unfold Z.pred. nia.
  - by apply Hneg.
  - intros Hno. apply Hno. unfold fits in *.
    assert (∃ k, Z.to_nat MAX_LIMBS = S k) as [k Hk] by (exists (Nat.pred (Z.to_nat MAX_LIMBS)); rewrite max_limbs_eq; lia).
    rewrite Hk in *. by apply Hneg.
Qed.

(** ** Left shift *)

Lemma shl_loop_spec s l : 0 < s < 32 → u32_list l → ∀ carry, 0 ≤ carry < 2 ^ s →
  let '(body, carry') := BigInt.shl_loop l s carry in
  u32_list body ∧ length body = length l ∧ 0 ≤ carry' < 2 ^ s
  ∧ unsigned body + weight (length l) * carry' = 2 ^ s * unsigned l + carry.
Proof.
  intros Hs Hu. induction Hu as [|x l Hx _ IH]; intros carry Hc; cbn [BigInt.shl_loop].
  - cbn [length unsigned]. rewrite weight_0. split_and!; [constructor|done|lia|lia|lia].
  - destruct (Z.eqb_spec s 0); [lia|].
    assert (Z.shiftr x (LIMB_BITS - s) = x / 2 ^ (32 - s)) as -> by (apply Z.shiftr_div_pow2; unfold LIMB_BITS; lia).
    assert (2 ^ s * 2 ^ (32 - s) = base) as Hpow by (rewrite <- Z.pow_add_r by lia; unfold base; f_equal; lia).
    assert (0 < 2 ^ s) by (apply Z.pow_pos_nonneg; lia). assert (0 < 2 ^ (32 - s)) by (apply Z.pow_pos_nonneg; lia).
    pose proof (Z.div_mod x (2 ^ (32 - s)) ltac:(lia)) as Hdm. pose proof (Z.mod_pos_bound x (2 ^ (32 - s)) ltac:(lia)).
    assert (0 ≤ x / 2 ^ (32 - s) < 2 ^ s) as Hc'.
    { split; [apply Z.div_pos; unfold_ints; lia|]. apply Z.div_lt_upper_bound; [lia|]. rewrite base_eq in Hpow. unfold_ints. lia. }
    specialize (IH _ Hc'). destruct (BigInt.shl_loop l s (x / 2 ^ (32 - s))) as [body c'].
    destruct IH as (Hub & Hl & Hcb & Hv).
    assert (BigInt.shl_u32 x s = (x mod 2 ^ (32 - s)) * 2 ^ s) as Hshl.
    { unfold BigInt.shl_u32. rewrite Z.shiftl_mul_pow2 by lia. change (2 ^ 32) with base. rewrite <- Hpow.
      rewrite (Z.mul_comm (2 ^ s)). rewrite Z.mul_mod_distr_r by lia. done. }
    rewrite Hshl, (lor_tag _ s) by lia.
    split_and!; [|simpl; lia|lia|lia|].
    + constructor; [|done]. rewrite base_eq in Hpow. unfold_ints. nia.
    + cbn [length unsigned]. rewrite weight_S.
      replace (x mod 2 ^ (32 - s) * 2 ^ s + carry + base * unsigned body + base * weight (length l) * c')
        with (x mod 2 ^ (32 - s) * 2 ^ s + carry + base * (unsigned body + weight (length l) * c')) by ring.
      rewrite Hv, <- Hpow. clear -Hdm. revert Hdm. generalize (x / 2 ^ (32 - s)), (x mod 2 ^ (32 - s)).
      intros q r ->. ring.
Qed.

Lemma shl_loop_zero l carry : BigInt.shl_loop l 0 carry = (l, carry).
Proof. induction l as [|x l IH]; [done|]. cbn [BigInt.shl_loop Z.eqb]. by rewrite IH. Qed.

(** The shifted limbs with the sign limb are a residue of the shifted value. *)
Lemma shl_limbs b z s : repr b z → 0 ≤ s < 32 →
  let '(body, carry) := BigInt.shl_loop (limbs b) s 0 in
  let ext := BigInt.sign_extension b in
  let top := if s =? 0 then ext else Z.lor (BigInt.shl_u32 ext s) carry in
  u32_list (body ++ [top]) ∧ length (body ++ [top]) = S (length (limbs b))
  ∧ unsigned (body ++ [top]) = (z * 2 ^ s) mod weight (S (length (limbs b))).
Proof.
  intros Hr Hs. pose proof (extended_unsigned b z (S (length (limbs b))) Hr) as Hext.
  assert (BigInt.limb b (length (limbs b)) = BigInt.sign_extension b) as Hlimb.
  { unfold BigInt.limb. by rewrite lookup_ge_None_2 by lia. }
  rewrite extended_S, extended_full, Hlimb in Hext.
  pose proof (limb_u32 b (length (limbs b)) (repr_limbs _ _ Hr)) as Hux. rewrite Hlimb in Hux.
  set (ext := BigInt.sign_extension b) in *. set (w := weight (S (length (limbs b)))) in *.
  assert (0 < w) by apply weight_pos.
  destruct (Z.eqb_spec s 0) as [->|Hne].
  - rewrite shl_loop_zero. cbv zeta. split_and!; [apply u32_snoc; split; [apply Hr|done]|rewrite length_app; simpl; lia|].
    by rewrite Hext, Z.mul_1_r.
  - pose proof (shl_loop_spec s (limbs b ++ [ext]) ltac:(lia) (proj2 (u32_snoc _ _) (conj (repr_limbs _ _ Hr) Hux)) 0
      ltac:(split; [lia|apply Z.pow_pos_nonneg; lia])) as Hall.
    assert (∀ l c, BigInt.shl_loop (l ++ [ext]) s c =
      let '(body, carry) := BigInt.shl_loop l s c in
      (body ++ [Z.lor (BigInt.shl_u32 ext s) carry], Z.shiftr ext (LIMB_BITS - s))) as Hsnoc.
    { induction l as [|x l IH]; intros c; cbn [app BigInt.shl_loop]; destruct (Z.eqb_spec s 0); try lia; [done|].
      rewrite IH. by destruct (BigInt.shl_loop l s _). }
    rewrite Hsnoc in Hall. destruct (BigInt.shl_loop (limbs b) s 0) as [body carry]. cbv zeta.
    destruct Hall as (Hu & Hl & Hc & Hv). rewrite (length_app (limbs b)) in Hl, Hv.
    change (length [ext]) with 1%nat in Hl, Hv. rewrite Nat.add_1_r in Hl, Hv.
    fold w in Hv. split_and!; [done|done|].
    pose proof (unsigned_bound _ Hu) as Hb. rewrite Hl in Hb. fold w in Hb. rewrite Hext in Hv.
    rewrite (Z.mul_comm z), <- Zmult_mod_idemp_r.
    apply Z.mod_unique_pos with (Z.shiftr ext (LIMB_BITS - s)); [done|]. lia.
Qed.

Lemma gives_promote (m : result BigIntError JsBigInt) z over :
  gives (lift m) z TooLarge over → gives (lift (map_err BigInt.promote_size_error m)) z ResultTooLarge over.
Proof. destruct m as [b|e]; simpl; [done|]. intros [[-> ?]|[-> ?]]; simpl; auto. Qed.

(** A count splits into whole limbs and the bits left over. *)
Lemma count_split count : 0 ≤ count →
  let k := Z.to_nat (count / LIMB_BITS) in let s := BigInt.limb_bit_offset count in
  0 ≤ s < 32 ∧ Z.of_nat k = count / LIMB_BITS ∧ count = 32 * Z.of_nat k + s ∧ 2 ^ count = 2 ^ s * weight k.
Proof.
  intros Hc. unfold BigInt.limb_bit_offset, LIMB_BITS. cbv zeta.
  pose proof (Z.div_mod count 32 ltac:(done)). pose proof (Z.mod_pos_bound count 32 ltac:(done)).
  assert (0 ≤ count / 32) by (apply Z.div_pos; lia).
  split_and!; [lia|lia|lia|lia|]. rewrite weight_pow, <- Z.pow_add_r by lia. f_equal. lia.
Qed.

Lemma pow_in_limb s : 0 ≤ s < 32 → 0 < 2 ^ s ∧ 2 * 2 ^ s ≤ base.
Proof.
  intros Hs. split; [apply Z.pow_pos_nonneg; lia|]. rewrite <- Z.pow_succ_r by lia. apply Z.pow_le_mono_r; lia.
Qed.

Lemma too_wide z count : z ≠ 0 → 32 * MAX_LIMBS ≤ count → ¬ fits (z * 2 ^ count).
Proof.
  intros Hz Hc. unfold fits, in_range. rewrite weight_pow, Z2Nat.id by (rewrite max_limbs_eq; lia).
  assert (2 ^ (32 * MAX_LIMBS) ≤ 2 ^ count) as Hle by (apply Z.pow_le_mono_r; lia).
  assert (0 < 2 ^ (32 * MAX_LIMBS)) by (apply Z.pow_pos_nonneg; [lia|rewrite max_limbs_eq; lia]).
  revert Hle. generalize dependent (2 ^ (32 * MAX_LIMBS)). generalize (2 ^ count). intros p w Hw Hle [H1 H2]. nia.
Qed.

Lemma gives_shl b z count : repr b z → 0 ≤ count →
  gives (lift (BigInt.shl b count)) (z * 2 ^ count) ResultTooLarge (¬ fits (z * 2 ^ count)).
Proof.
  intros Hr Hc. unfold BigInt.shl. rewrite (repr_is_zero _ _ Hr).
  destruct (Z.eqb_spec z 0) as [->|Hz]; [by apply repr_zero|].
  destruct (count_split count Hc) as (Hs & Hk & Hsum & Hpow).
  destruct (Z.ltb_spec MAX_LIMBS (count / LIMB_BITS)) as [Hgt|Hle].
  { right. split; [done|]. apply too_wide; [done|lia]. }
  apply gives_reserve_result. set (k := Z.to_nat (count / LIMB_BITS)) in *.
  set (s := BigInt.limb_bit_offset count) in *.
  pose proof (shl_limbs b z s Hr Hs) as Hl. destruct (BigInt.shl_loop (limbs b) s 0) as [body carry].
  cbv zeta in *. destruct Hl as (Hu & Hlen & Hv). set (top := if s =? 0 then _ else _) in *.
  apply gives_promote. pose proof (weight_pos k). destruct (pow_in_limb s Hs) as [Hps1 Hps2].
  eapply (gives_residue _ (k + length (limbs b))).
  - apply Forall_app. split; [apply u32_zeros|done].
  - rewrite length_app, length_replicate, Hlen. lia.
  - rewrite unsigned_app, unsigned_zeros, length_replicate, Hv, <- Nat.add_succ_r, weight_add, Hpow.
    rewrite Z.mul_assoc, (Z.mul_comm _ (weight k)), Z.mul_mod_distr_l by (pose proof (weight_pos (S (length (limbs b)))); lia). lia.
  - pose proof (repr_range _ _ Hr) as Hrange. unfold in_range in *. rewrite <- Nat.add_succ_r, weight_add, weight_S, Hpow.
    pose proof (weight_pos (length (limbs b))). clear Hpow Hv.
    generalize dependent (weight (length (limbs b))). generalize dependent (weight k). generalize dependent (2 ^ s).
    intros p Hp1 Hp2 w Hw v Hr2 Hv0. rewrite base_eq in *.
    assert (- v * (p * w) ≤ 2 * z * (p * w)) by (apply Z.mul_le_mono_nonneg_r; nia).
    assert (2 * z * (p * w) < v * (p * w)) by (apply Z.mul_lt_mono_pos_r; nia).
    assert (v * w * p ≤ v * w * 4294967296) by (apply Z.mul_le_mono_nonneg_l; nia). lia.
Qed.

(** ** Right shift *)

Lemma weight_split n m : (n ≤ m)%nat → weight m = weight n * weight (m - n).
Proof. intros Hle. rewrite <- weight_add. f_equal. lia. Qed.

(** The residue of a quotient by [p] is the quotient of the residue by [p * q]. *)
Lemma div_mod_swap z p q : 0 < p → 0 < q → (z / p) mod q = (z mod (p * q)) / p.
Proof. intros Hp Hq. rewrite Z.rem_mul_r by lia. rewrite (Z.mul_comm p (_ mod q)), Z.div_add by lia.
  rewrite (Z.div_small (z mod p)) by (apply Z.mod_pos_bound; lia). lia. Qed.

(** The limbs from [k] on are those of the value divided by the weight. *)
Lemma limbs_from b z k m : repr b z →
  unsigned ((λ i, BigInt.limb b (k + i)) <$> seq 0 m) = (z / weight k) mod weight m.
Proof.
  intros Hr. assert (extended b (k + m) = extended b k ++ ((λ i, BigInt.limb b (k + i)) <$> seq 0 m)) as E.
  { unfold extended. rewrite seq_app, fmap_app. f_equal. simpl. rewrite <- (Nat.add_0_r k) at 1.
    rewrite <- fmap_add_seq, <- list_fmap_compose. done. }
  apply (f_equal unsigned) in E. rewrite unsigned_app, length_extended, !(extended_unsigned b z) in E by done.
  pose proof (weight_pos k). pose proof (weight_pos m). rewrite div_mod_swap by done. rewrite weight_add in E.
  rewrite E, (Z.mul_comm (weight k) (unsigned _)), Z.div_add by lia.
  rewrite (Z.div_small (z mod weight k)) by (apply Z.mod_pos_bound; lia). lia.
Qed.

(** Joining each limb with the low bits of the next divides the whole. *)
Lemma shr_columns g s : (∀ i : nat, is_u32 (g i)) → 0 < s < 32 → ∀ m from,
  let col i := Z.lor (Z.shiftr (g i) s) (BigInt.shl_u32 (g (i + 1)%nat) (LIMB_BITS - s)) in
  unsigned (col <$> seq from m) = (unsigned (g <$> seq from (S m)) / 2 ^ s) mod weight m.
Proof.
  intros Hg Hs m. induction m as [|m IH]; intros from col.
  { cbn. symmetry. apply Z.mod_1_r. }
  change (seq from (S m)) with (from :: seq (S from) m).
  change (seq from (S (S m))) with (from :: seq (S from) (S m)).
  rewrite !fmap_cons. cbn [unsigned]. rewrite IH. set (X := unsigned (g <$> seq (S from) (S m))).
  assert (∃ Y, X = g (S from) + base * Y) as [Y HY].
  { exists (unsigned (g <$> seq (S (S from)) m)). reflexivity. }
  pose proof (Hg from) as Hx. pose proof (Hg (S from)) as Hy. subst col. cbv beta. rewrite Nat.add_1_r.
  set (x := g from) in *. set (y := g (S from)) in *.
  assert (2 ^ s * 2 ^ (32 - s) = base) as Hpow by (rewrite <- Z.pow_add_r by lia; unfold base; f_equal; lia).
  assert (0 < 2 ^ s) by (apply Z.pow_pos_nonneg; lia). assert (0 < 2 ^ (32 - s)) by (apply Z.pow_pos_nonneg; lia).
  assert (BigInt.shl_u32 y (LIMB_BITS - s) = (y mod 2 ^ s) * 2 ^ (32 - s)) as ->.
  { unfold BigInt.shl_u32, LIMB_BITS. rewrite Z.shiftl_mul_pow2 by lia. change (2 ^ 32) with base. rewrite <- Hpow.
    by rewrite Z.mul_mod_distr_r by lia. }
  rewrite Z.lor_comm, Z.shiftr_div_pow2 by lia. rewrite (lor_tag _ (32 - s)) by
    (lia || (split; [apply Z.div_pos; unfold_ints; lia|apply Z.div_lt_upper_bound; [lia|]; rewrite Hpow, base_eq; unfold_ints; lia])).
  rewrite weight_S. set (w := weight m). assert (0 < w) by apply weight_pos.
  assert (X mod 2 ^ s = y mod 2 ^ s) as HX.
  { rewrite HY, <- Hpow, <- Z.mul_assoc, (Z.mul_comm (2 ^ s)), Z.mod_add by lia. done. }
  pose proof (Z.div_mod X (2 ^ s) ltac:(lia)) as HXd. rewrite HX in HXd.
  assert ((x + base * X) / 2 ^ s = x / 2 ^ s + 2 ^ (32 - s) * X) as ->.
  { rewrite <- Hpow. replace (x + 2 ^ s * 2 ^ (32 - s) * X) with (x + (2 ^ (32 - s) * X) * 2 ^ s) by ring.
    by rewrite Z.div_add by lia. }
  assert (0 ≤ y mod 2 ^ s < 2 ^ s) by (apply Z.mod_pos_bound; lia).
  assert (0 ≤ x / 2 ^ s < 2 ^ (32 - s)).
  { split; [apply Z.div_pos; unfold_ints; lia|]. apply Z.div_lt_upper_bound; [lia|]. rewrite Hpow, base_eq. unfold_ints. lia. }
  set (low := y mod 2 ^ s * 2 ^ (32 - s) + x / 2 ^ s).
  assert (0 ≤ low < base) as Hlow by (subst low; rewrite <- Hpow; nia).
  replace (x / 2 ^ s + 2 ^ (32 - s) * X) with (low + base * (X / 2 ^ s))
    by (rewrite HXd at 2; subst low; rewrite <- Hpow; ring).
  rewrite Z.rem_mul_r, (Z.mul_comm base (X / 2 ^ s)), Z.mod_add, Z.div_add by (rewrite ?base_eq; lia).
  rewrite (Z.mod_small low), (Z.div_small low) by lia. by rewrite Z.add_0_l.
Qed.

(** Shifting past the width leaves the sign. *)
Lemma shr_sign z n w : 0 < w → in_range n z → weight n ≤ w → z / w = if z <? 0 then -1 else 0.
Proof.
  intros Hw [H1 H2] Hle. pose proof (weight_pos n). destruct (Z.ltb_spec z 0).
  - symmetry. apply Z.div_unique_pos with (z + w); lia.
  - apply Z.div_small. lia.
Qed.

Lemma fits_div z p : 0 < p → fits z → fits (z / p).
Proof.
  intros Hp [H1 H2]. unfold fits, in_range. pose proof (weight_pos (Z.to_nat MAX_LIMBS)).
  generalize dependent (weight (Z.to_nat MAX_LIMBS)). intros w Hz1 Hz2 Hw.
  pose proof (Z.div_mod z p ltac:(lia)). pose proof (Z.mod_pos_bound z p ltac:(lia)). nia.
Qed.

Lemma gives_sign b z : repr b z → gives (lift (BigInt.from_limbs [BigInt.sign_extension b])) (if z <? 0 then -1 else 0) TooLarge False.
Proof.
  intros Hr. unfold BigInt.sign_extension. rewrite (repr_negative _ _ Hr).
  destruct (z <? 0); [apply (repr_from_i32 (-1))|apply (repr_from_i32 0)]; solve_ints.
Qed.

Lemma div_residue z s w : 0 ≤ s < 32 → 0 < w → (z mod (base * w) / 2 ^ s) mod w = (z / 2 ^ s) mod w.
Proof.
  intros Hs Hw. assert (base * w = 2 ^ s * (2 ^ (32 - s) * w)) as ->.
  { rewrite Z.mul_assoc, <- Z.pow_add_r by lia. unfold base. do 2 f_equal. lia. }
  assert (0 < 2 ^ (32 - s)) by (apply Z.pow_pos_nonneg; lia).
  rewrite <- div_mod_swap by (nia || apply Z.pow_pos_nonneg; lia). apply Z.mod_mod_divide. by exists (2 ^ (32 - s)).
Qed.

Lemma shr_range z k m p : 0 < p → in_range (k + S m) z → in_range (S m) (z / (p * weight k)).
Proof.
  intros Hp. unfold in_range. rewrite weight_add, weight_S, base_eq. set (h := 2147483648 * weight m).
  replace (4294967296 * weight m) with (2 * h) by (subst h; ring). pose proof (weight_pos k). pose proof (weight_pos m).
  set (w := weight k) in *. assert (0 < h) by lia. clearbody h w. intros [Hz1 Hz2].
  pose proof (Z.div_le_lower_bound z (p * w) (- h) ltac:(nia) ltac:(nia)).
  pose proof (Z.div_lt_upper_bound z (p * w) h ltac:(nia) ltac:(nia)). lia.
Qed.

Lemma gives_shr b z count : repr b z → 0 ≤ count →
  gives (lift (BigInt.shr b count)) (z / 2 ^ count) TooLarge False.
Proof.
  intros Hr Hc. unfold BigInt.shr. destruct (count_split count Hc) as (Hs & Hk & Hsum & Hpow).
  pose proof (repr_range _ _ Hr) as Hrange. pose proof (repr_fits _ _ Hr) as Hfit.
  assert (0 < 2 ^ count) as Hpos by (apply Z.pow_pos_nonneg; lia).
  destruct (Z.leb_spec (len (limbs b)) (count / LIMB_BITS)) as [Hge|Hlt].
  { rewrite (shr_sign z (length (limbs b)) (2 ^ count)); [by apply gives_sign|done|done|].
    rewrite weight_pow. apply Z.pow_le_mono_r; [lia|]. unfold len in Hge. lia. }
  apply gives_reserve_result. set (k := Z.to_nat (count / LIMB_BITS)) in *. set (s := BigInt.limb_bit_offset count) in *.
  set (m := (length (limbs b) - k)%nat). unfold len in Hlt. assert (∃ m', m = S m') as [m' Hm'] by (exists (pred m); subst m; lia).
  pose proof (weight_pos k). destruct (pow_in_limb s Hs) as [Hps _].
  pose proof (λ i, limb_u32 b i (repr_limbs _ _ Hr)) as Hlu.
  eapply gives_mono; [eapply (gives_residue _ m' (z / 2 ^ count))|].
  - apply Forall_fmap, Forall_true. intros i. cbn. destruct (Z.eqb_spec s 0); [apply Hlu|]. apply op_u32 with orb; try done.
    + intros; apply Z.lor_spec.
    + pose proof (Hlu (k + i)%nat) as Hx. rewrite Z.shiftr_div_pow2 by lia. unfold_ints.
      split; [apply Z.div_pos; lia|]. apply Z.div_le_upper_bound; nia.
    + apply low_u32.
  - by rewrite length_fmap, length_seq.
  - rewrite <- Hm', Hpow. destruct (Z.eqb_spec s 0) as [->|Hne].
    + rewrite Z.pow_0_r, Z.mul_1_l. by apply limbs_from.
    + erewrite list_fmap_ext; [|intros i x _; rewrite <- Nat.add_assoc; reflexivity].
      rewrite (shr_columns (λ i, BigInt.limb b (k + i)) s) by (done || lia).
      rewrite (limbs_from b z) by done. rewrite (Z.mul_comm (2 ^ s)), <- Z.div_div by lia.
      rewrite weight_S. apply div_residue; [done|apply weight_pos].
  - rewrite Hpow. apply shr_range; [done|]. by replace (k + S m')%nat with (length (limbs b)) by lia.
  - intros Hno. apply Hno. by apply fits_div.
Qed.

(** ** Truncation *)

Lemma bit_spec b z i : repr b z → 0 ≤ i → BigInt.bit b i = Z.testbit z i.
Proof.
  intros Hr Hi. unfold BigInt.bit. destruct (count_split i Hi) as (Hs & Hk & Hsum & Hpow).
  set (k := Z.to_nat (i / LIMB_BITS)) in *. set (s := BigInt.limb_bit_offset i) in *.
  pose proof (limbs_from b z k 1 Hr) as Hl. cbn [seq fmap list_fmap unsigned] in Hl.
  rewrite Z.mul_0_r, Z.add_0_r, Nat.add_0_r in Hl. rewrite Hl, odd_land, <- Z.testbit_odd by
    (apply Z.shiftr_nonneg, Z.mod_pos_bound; done).
  replace (weight 1) with (2 ^ 32) by done. rewrite Z.mod_pow2_bits_low by lia.
  rewrite weight_pow, Z.div_pow2_bits by lia. f_equal. lia.
Qed.

Lemma mask_limb x used : 0 < used < 32 → Z.land x (Z.shiftr u32_max (LIMB_BITS - used)) = x mod 2 ^ used.
Proof.
  intros Hu. assert (Z.shiftr u32_max (LIMB_BITS - used) = Z.ones used) as ->; [|by rewrite land_ones_mod by lia].
  unfold LIMB_BITS. change u32_max with (Z.ones 32). apply Z.bits_inj'. intros n Hn.
  rewrite Z.shiftr_spec by lia. rewrite !Z.testbit_ones by lia.
  destruct (Z.leb_spec 0 (n + (32 - used))), (Z.leb_spec 0 n), (Z.ltb_spec (n + (32 - used)) 32), (Z.ltb_spec n used); lia || done.
Qed.

(** Masking the last limb truncates the whole. *)
Lemma mask_last l x used : u32_list l → is_u32 x → 0 < used < 32 →
  unsigned (l ++ [x mod 2 ^ used]) = unsigned (l ++ [x]) mod (weight (length l) * 2 ^ used).
Proof.
  intros Hu Hx Hused. rewrite !unsigned_app. cbn [unsigned]. rewrite !Z.mul_0_r, !Z.add_0_r.
  apply unsigned_bound in Hu. pose proof (weight_pos (length l)). assert (0 < 2 ^ used) by (apply Z.pow_pos_nonneg; lia).
  rewrite Z.rem_mul_r, (Z.mul_comm (weight _) x), Z.mod_add, Z.div_add, (Z.mod_small (unsigned l)), (Z.div_small (unsigned l)) by lia.
  by rewrite Z.add_0_l.
Qed.

Lemma div_ceil bits : 0 < bits → ∃ n, (bits + (LIMB_BITS - 1)) / LIMB_BITS = Z.of_nat (S n)
  ∧ 32 * Z.of_nat n < bits ≤ 32 * Z.of_nat (S n).
Proof.
  intros Hb. unfold LIMB_BITS. exists (Z.to_nat ((bits - 1) / 32)).
  assert (0 ≤ (bits - 1) / 32) by (apply Z.div_pos; lia). rewrite Nat2Z.inj_succ, Z2Nat.id by done.
  pose proof (Z.div_mod (bits - 1) 32 ltac:(done)). pose proof (Z.mod_pos_bound (bits - 1) 32 ltac:(done)).
  split; [|lia]. replace (bits + (32 - 1)) with (bits - 1 + 1 * 32) by lia. rewrite Z.div_add by done. lia.
Qed.

Lemma gives_nonnegative l z : u32_list l → unsigned l = z →
  gives (lift (BigInt.from_limbs (l ++ [0]))) z TooLarge (¬ fits z).
Proof.
  intros Hu <-. apply gives_from_limbs; [apply u32_snoc; split; [done|solve_ints]|by destruct l|].
  rewrite signed_snoc by (done || solve_ints). cbn. lia.
Qed.

Lemma gives_truncate b z bits : repr b z → 0 < bits →
  gives (BigInt.truncate_to_bits b bits) (z mod 2 ^ bits) TooLarge (32 * MAX_LIMBS < bits ∨ ¬ fits (z mod 2 ^ bits)).
Proof.
  intros Hr Hb. unfold BigInt.truncate_to_bits. destruct (div_ceil bits Hb) as (n & -> & Hn).
  destruct (Z.ltb_spec MAX_LIMBS (Z.of_nat (S n))) as [Hgt|Hle].
  { right. split; [done|]. left. lia. }
  apply gives_reserve. rewrite Nat2Z.id. change (BigInt.limb b <$> seq 0 (S n)) with (extended b (S n)). cbv zeta.
  rewrite length_extended. replace (S n - 1)%nat with n by lia.
  pose proof (extended_u32 b n (repr_limbs _ _ Hr)) as Hu. pose proof (limb_u32 b n (repr_limbs _ _ Hr)) as Hx.
  pose proof (extended_unsigned b z (S n) Hr) as Hv. rewrite extended_S in *.
  set (used := BigInt.limb_bit_offset bits). assert (used = bits mod 32) as Eused by done.
  pose proof (Z.div_mod bits 32 ltac:(done)). pose proof (Z.mod_pos_bound bits 32 ltac:(done)). rewrite <- Eused in *.
  destruct (Z.eqb_spec used 0) as [E|Hne]; cbn [negb].
  - cbn [mbind result_bind]. eapply gives_mono; [apply gives_nonnegative; [by apply u32_snoc|]|auto].
    rewrite Hv, weight_pow. do 2 f_equal. lia.
  - rewrite lookup_app_r, length_extended, Nat.sub_diag by (rewrite length_extended; lia). cbn [lookup list_lookup expect ok_or mbind result_bind].
    rewrite insert_app_r_alt, length_extended, Nat.sub_diag by (rewrite length_extended; lia). cbn [insert list_insert].
    rewrite mask_limb by lia. assert (0 < 2 ^ used) by (apply Z.pow_pos_nonneg; lia).
    eapply gives_mono; [apply gives_nonnegative; [apply u32_snoc; split; [done|]|]|auto].
    + pose proof (Z.mod_pos_bound (BigInt.limb b n) (2 ^ used) ltac:(lia)).
      destruct (pow_in_limb used) as [_ Hp]; [lia|]. rewrite base_eq in Hp. unfold_ints. lia.
    + rewrite mask_last, Hv, length_extended, weight_S by (done || lia). assert (2 ^ bits = weight n * 2 ^ used) as ->.
      { rewrite weight_pow, <- Z.pow_add_r by lia. f_equal. lia. }
      rewrite (Z.mul_comm base). apply Z.mod_mod_divide. exists (2 ^ (32 - used)).
      assert (base = 2 ^ (32 - used) * 2 ^ used) as -> by (rewrite <- Z.pow_add_r by lia; unfold base; f_equal; lia). ring.
Qed.

(** The residue of [z] in the signed range of [bits] bits. *)
Definition signed_residue (bits z : Z) : Z :=
  let r := z mod 2 ^ bits in if 2 * r <? 2 ^ bits then r else r - 2 ^ bits.

Lemma top_bit_set bits r : 0 < bits → 0 ≤ r < 2 ^ bits → Z.testbit r (bits - 1) = negb (2 * r <? 2 ^ bits).
Proof.
  intros Hb Hr. assert (2 ^ bits = 2 * 2 ^ (bits - 1)) as E by (rewrite <- Z.pow_succ_r by lia; f_equal; lia).
  assert (0 < 2 ^ (bits - 1)) by (apply Z.pow_pos_nonneg; lia). destruct (Z.ltb_spec (2 * r) (2 ^ bits)) as [Hlt|Hge]; cbn [negb].
  - rewrite Z.testbit_odd, Z.shiftr_div_pow2 by lia. by rewrite Z.div_small by lia.
  - rewrite Z.testbit_odd, Z.shiftr_div_pow2 by lia. assert (r / 2 ^ (bits - 1) = 1) as ->; [|done].
    symmetry. apply Z.div_unique_pos with (r - 2 ^ (bits - 1)); lia.
Qed.

Lemma fits_pow bits : 0 ≤ bits ≤ 32 * MAX_LIMBS - 2 → ∀ z, - 2 ^ bits ≤ z ≤ 2 ^ bits → fits z.
Proof.
  intros Hb z Hz. unfold fits, in_range. rewrite weight_pow, Z2Nat.id by (rewrite max_limbs_eq; lia).
  assert (2 ^ (2 + bits) ≤ 2 ^ (32 * MAX_LIMBS)) as Hle by (apply Z.pow_le_mono_r; lia).
  rewrite Z.pow_add_r in Hle by lia. change (2 ^ 2) with 4 in Hle. assert (0 < 2 ^ bits) by (apply Z.pow_pos_nonneg; lia).
  generalize dependent (2 ^ (32 * MAX_LIMBS)). intros w Hw. lia.
Qed.

Lemma gives_as_uint_n b z bits : repr b z → 0 ≤ bits →
  gives (BigInt.as_uint_n b bits) (z mod 2 ^ bits) TooLarge (32 * MAX_LIMBS < bits ∨ ¬ fits (z mod 2 ^ bits)).
Proof.
  intros Hr Hb. unfold BigInt.as_uint_n. destruct (Z.eqb_spec bits 0) as [->|Hne]; [|by apply gives_truncate; [|lia]].
  rewrite Z.mod_1_r. apply repr_zero.
Qed.

Lemma gives_as_int_n b z bits : repr b z → 0 ≤ bits ≤ 32 * MAX_LIMBS - 2 →
  gives (BigInt.as_int_n b bits) (signed_residue bits z) TooLarge False.
Proof.
  intros Hr Hb. unfold BigInt.as_int_n, signed_residue. destruct (Z.eqb_spec bits 0) as [->|Hne].
  { rewrite Z.mod_1_r. apply repr_zero. }
  assert (0 < 2 ^ bits) by (apply Z.pow_pos_nonneg; lia).
  pose proof (Z.mod_pos_bound z (2 ^ bits) ltac:(done)) as Hm. set (r := z mod 2 ^ bits) in *.
  eapply gives_bind.
  { eapply gives_mono; [apply gives_truncate; [done|lia]|]. intros [?|Hno]; [lia|].
    apply Hno. by apply (fits_pow bits); [|fold r; lia]. }
  intros t Ht. rewrite (bit_spec t r) by (done || lia). rewrite top_bit_set by lia.
  destruct (Z.ltb_spec (2 * r) (2 ^ bits)); cbn [negb]; [done|].
  pose proof (gives_shl (BigInt.from_i32 1) 1 bits (repr_from_i32 1 ltac:(solve_ints)) ltac:(lia)) as Hshl. rewrite Z.mul_1_l in Hshl.
  destruct (BigInt.shl (BigInt.from_i32 1) bits) as [p|e]; cbn [lift mbind result_bind].
  - eapply gives_mono; [by apply (gives_add_with_sign t p r (2 ^ bits) true)|].
    intros Hno. apply Hno. apply (fits_pow bits); lia.
  - destruct Hshl as [?|[_ Hno]]; [by left|]. exfalso. apply Hno. apply (fits_pow bits); lia.
Qed.

Lemma as_int_n_wide b bits : 32 * MAX_LIMBS < bits → BigInt.as_int_n b bits = Err (Fail TooLarge).
Proof.
  intros Hb. unfold BigInt.as_int_n, BigInt.truncate_to_bits. rewrite max_limbs_eq in *.
  destruct (Z.eqb_spec bits 0) as [|_]; [lia|]. destruct (div_ceil bits) as (k & -> & Hk); [lia|].
  by destruct (Z.ltb_spec 32768 (Z.of_nat (S k))); [|lia].
Qed.
End shifts.

(** The bit operations work on the infinite two's-complement expansion
    and never fail but for memory, except where the result is too wide: and,
    or, exclusive or and complement are those of the integers; a left shift
    multiplies and a right shift divides rounding down; [as_uint_n] is the
    residue modulo the power of two and [as_int_n] the residue in the signed
    range, the latter for every width up to two bits below the limit. *)
Theorem bigint_bits_exact `{Allocator} a b x y count : repr a x → repr b y → 0 ≤ count →
  gives (lift (BigInt.bitand a b)) (Z.land x y) TooLarge False
  ∧ gives (lift (BigInt.bitor a b)) (Z.lor x y) TooLarge False
  ∧ gives (lift (BigInt.bitxor a b)) (Z.lxor x y) TooLarge False
  ∧ gives (lift (BigInt.not a)) (Z.lnot x) TooLarge False
  ∧ gives (lift (BigInt.shl a count)) (x * 2 ^ count) ResultTooLarge (¬ fits (x * 2 ^ count))
  ∧ gives (lift (BigInt.shr a count)) (x / 2 ^ count) TooLarge False
  ∧ gives (BigInt.as_uint_n a count) (x mod 2 ^ count) TooLarge (32 * MAX_LIMBS < count ∨ ¬ fits (x mod 2 ^ count))
  ∧ (count ≤ 32 * MAX_LIMBS - 2 → gives (BigInt.as_int_n a count) (signed_residue count x) TooLarge False).
Proof.
  intros Ha Hb Hc. split_and!.
  - apply (represents_bitwise Z.land andb); [intros; apply Z.land_spec|done..].
  - apply (represents_bitwise Z.lor orb); [intros; apply Z.lor_spec|done..].
  - apply (represents_bitwise Z.lxor xorb); [intros; apply Z.lxor_spec|done..].
  - by apply gives_not.
  - by apply gives_shl.
  - by apply gives_shr.
  - by apply gives_as_uint_n.
  - intros Hle. by apply gives_as_int_n.
Qed.

(** The signed byte of 2^32 - 1, and its bits shared with -3. *)
Lemma bigint_bits_exact_witness :
  gives (H := always_allocates) (@BigInt.as_int_n always_allocates (mkBigInt [4294967295; 0]) 8) (-1) TooLarge False
  ∧ gives (H := always_allocates) (lift (@BigInt.bitand always_allocates (mkBigInt [4294967295; 0]) (mkBigInt [4294967293])))
      4294967293 TooLarge False.
Proof.
  destruct (@bigint_bits_exact always_allocates (mkBigInt [4294967295; 0]) (mkBigInt [4294967293]) 4294967295 (-3) 8)
    as (Hand & _ & _ & _ & _ & _ & _ & Hint).
  - constructor; [repeat apply Forall_cons_2; try apply Forall_nil_2; solve_ints|reflexivity|vm_compute; discriminate|reflexivity].
  - constructor; [repeat apply Forall_cons_2; try apply Forall_nil_2; solve_ints|exact I|vm_compute; discriminate|reflexivity].
  - discriminate.
  - split; [apply Hint; rewrite max_limbs_eq; discriminate|exact Hand].
Defined.

(** The signed residue of one is one at every width from two on, but a width
    over the limit is refused. *)
Lemma as_int_n_refuses_one bits : 32 * MAX_LIMBS < bits →
  signed_residue bits 1 = 1 ∧ @BigInt.as_int_n always_allocates (BigInt.from_i32 1) bits = Err (Fail TooLarge).
Proof.
  intros Hb. split; [|by apply as_int_n_wide]. rewrite max_limbs_eq in Hb. unfold signed_residue.
  assert (2 ^ 2 ≤ 2 ^ bits) by (apply Z.pow_le_mono_r; lia).
  rewrite Z.mod_small by lia. by destruct (Z.ltb_spec (2 * 1) (2 ^ bits)); [|lia].
Qed.
