(* ===== verification/BigIntDivision.v ===== *)
(** * Long division of big integers

    The bit-at-a-time division of BigInt.v computes the truncating quotient
    and the remainder with the sign of the dividend. *)

From S2P Require Import Prelude RuntimePrelude BigInt BigIntFacts BigIntBits.
From stdpp Require Import list.
Local Open Scope Z_scope.

(** ** Magnitudes *)

Lemma double_limb x : is_u32 x → 2 * x = BigInt.shl_u32 x 1 + base * Z.shiftr x 31 ∧ 0 ≤ Z.shiftr x 31 ≤ 1.
Proof.
  intros Hx. rewrite top_bit by done. unfold BigInt.shl_u32. rewrite Z.shiftl_mul_pow2 by lia. change (2 ^ 1) with 2.
  rewrite base_eq. change (2 ^ 32) with 4294967296. unfold_ints. destruct (Z.ltb_spec x 2147483648); (split; [|lia]).
  - rewrite Z.mod_small; lia.
  - assert (x * 2 mod 4294967296 = x * 2 - 4294967296) as ->; [|lia]. symmetry. apply Z.mod_unique_pos with 1; lia.
Qed.

Lemma shl_one_even x : ∃ h, BigInt.shl_u32 x 1 = h * 2 ^ 1.
Proof.
  unfold BigInt.shl_u32. rewrite Z.shiftl_mul_pow2 by lia. exists (x mod 2 ^ 31).
  change (2 ^ 32) with (2 ^ 31 * 2 ^ 1). by rewrite Z.mul_mod_distr_r.
Qed.

Lemma shift_left_one_spec l : u32_list l → ∀ carry, 0 ≤ carry ≤ 1 →
  u32_list (BigInt.shift_left_one l carry) ∧ length (BigInt.shift_left_one l carry) = length l
  ∧ unsigned (BigInt.shift_left_one l carry) = (2 * unsigned l + carry) mod weight (length l).
Proof.
  induction 1 as [|x l Hx _ IH]; intros carry Hc; cbn [BigInt.shift_left_one].
  - split_and!; [constructor|done|]. cbn [length unsigned]. rewrite weight_0, Z.mod_1_r. done.
  - destruct (double_limb x Hx) as [Hd Hs]. destruct (shl_one_even x) as [h Hh].
    change (LIMB_BITS - 1) with 31. destruct (IH _ Hs) as (Hu & Hl & Hv).
    rewrite Hh, (lor_tag h 1) by (simpl; lia). rewrite <- Hh.
    assert (0 ≤ BigInt.shl_u32 x 1 < base) as Hb by (apply Z.mod_pos_bound; done).
    assert (BigInt.shl_u32 x 1 + carry < base) by (rewrite base_eq in *; change (2 ^ 1) with 2 in *; lia).
    split_and!; [constructor; [rewrite base_eq in *; unfold_ints; lia|done]|simpl; lia|]. cbn [unsigned length].
    rewrite Hv, weight_S. set (c := Z.shiftr x 31) in *. set (low := BigInt.shl_u32 x 1) in *.
    assert ((low + carry + base * c) / base = c) as Ec
      by (symmetry; apply Z.div_unique_pos with (low + carry); lia).
    assert ((low + carry + base * c) mod base = low + carry) as Em
      by (symmetry; apply Z.mod_unique_pos with c; lia).
    pose proof (carry_step (low + carry + base * c) (2 * unsigned l) (weight (length l)) (weight_pos _)) as Hcs.
    rewrite Ec, Em in Hcs. rewrite Hcs. f_equal. lia.
Qed.

Lemma padded_longer l n : (length l ≤ n)%nat → unsigned ((λ i, default 0 (l !! i)) <$> seq 0 n) = unsigned l.
Proof.
  intros Hle. replace n with (length l + (n - length l))%nat by lia. rewrite seq_app, fmap_app, padded_limbs, unsigned_app.
  assert (∀ m from, (length l ≤ from)%nat → unsigned ((λ i, default 0 (l !! i)) <$> seq from m) = 0) as ->; [|lia|lia].
  induction m as [|m IH]; intros from Hf; [done|]. cbn [seq fmap list_fmap unsigned].
  change (list_fmap _ _ ?f ?l) with (f <$> l). rewrite IH, lookup_ge_None_2 by lia. done.
Qed.

Lemma compare_magnitudes_spec l r : u32_list l → u32_list r →
  BigInt.compare_magnitudes l r = Z.compare (unsigned l) (unsigned r).
Proof.
  intros Hl Hr. unfold BigInt.compare_magnitudes. set (n := Nat.max (length l) (length r)).
  rewrite <- (padded_longer l n), <- (padded_longer r n) by lia.
  rewrite <- compare_columns_spec by (intros i; by apply padded_u32). induction (rev (seq 0 n)) as [|i indices IH]; [done|].
  cbn [BigInt.compare_from compare_columns]. by rewrite IH.
Qed.

Lemma subtract_magnitude_spec l : u32_list l → ∀ r borrow, u32_list r → 0 ≤ borrow ≤ 1 → ∃ out,
  BigInt.subtract_magnitude l r borrow = Ok out ∧ u32_list out ∧ length out = length l
  ∧ unsigned out = (unsigned l - unsigned r - borrow) mod weight (length l).
Proof.
  induction 1 as [|x l Hx _ IH]; intros r borrow Hr Hb; cbn [BigInt.subtract_magnitude].
  { exists []. split_and!; [done|constructor|done|]. cbn [length]. by rewrite weight_0, Z.mod_1_r. }
  assert (∃ y r', default 0 (head r) = y ∧ tail r = r' ∧ is_u32 y ∧ u32_list r' ∧ unsigned r = y + base * unsigned r')
    as (y & r' & -> & -> & Hy & Hr' & ->).
  { destruct Hr as [|y r' Hy Hr']; [exists 0, []|exists y, r']; (split_and!; [done|done|solve_ints|by try constructor|done]). }
  set (d := x - y - borrow). assert (- base ≤ d < base) as Hd by (subst d; rewrite base_eq; unfold_ints; lia).
  change (Z.shiftl 1 LIMB_BITS) with base.
  assert (∀ b, 0 ≤ b ≤ 1 → 0 ≤ d + b * base < base → ∃ out,
    (limb ← BigInt.to_limb (d + b * base); rest ← BigInt.subtract_magnitude l r' b; Ok (limb :: rest)) = Ok out
    ∧ u32_list out ∧ length out = length (x :: l)
    ∧ unsigned out = (unsigned (x :: l) - (y + base * unsigned r') - borrow) mod weight (length (x :: l))) as Hgo.
  { intros b Hb1 Hb2. destruct (IH r' b Hr' Hb1) as (out & -> & Hu & Hl & Hv).
    assert (is_u32 (d + b * base)) as Hlimb by (rewrite base_eq in *; unfold_ints; lia).
    unfold BigInt.to_limb. rewrite (proj2 (try_u32_Some _ _) (conj eq_refl Hlimb)). cbn [expect ok_or mbind result_bind].
    eexists. split; [done|]. split_and!; [by constructor|simpl; lia|]. cbn [unsigned length]. rewrite Hv, weight_S.
    assert (d / base = - b) as Eq by (symmetry; apply Z.div_unique_pos with (d + b * base); lia).
    assert (d mod base = d + b * base) as Er by (symmetry; apply Z.mod_unique_pos with (- b); lia).
    pose proof (carry_step d (unsigned l - unsigned r') (weight (length l)) (weight_pos _)) as Hcs.
    rewrite Eq, Er in Hcs. rewrite <- Z.add_opp_r, Hcs. subst d. f_equal. ring. }
  destruct (Z.ltb_spec d 0) as [Hneg|Hpos].
  - destruct (Hgo 1 ltac:(lia) ltac:(lia)) as (out & Hout & Hrest). rewrite Z.mul_1_l in Hout. by exists out.
  - destruct (Hgo 0 ltac:(lia) ltac:(lia)) as (out & Hout & Hrest). rewrite Z.mul_0_l, Z.add_0_r in Hout. by exists out.
Qed.

(** ** Bits of a magnitude *)

Lemma lookup_limb l i x : u32_list l → l !! i = Some x → x = (unsigned l / weight i) mod base.
Proof.
  intros Hu Hi. rewrite <- (take_drop_middle l i x Hi) in Hu |- *. rewrite unsigned_app. cbn [unsigned].
  apply Forall_app in Hu as [Ht [Hx _]%Forall_cons_1]. apply unsigned_bound in Ht.
  rewrite length_take_le in * by (apply lookup_lt_Some in Hi; lia). pose proof (weight_pos i).
  rewrite (Z.mul_comm (weight i)), Z.div_add, Z.div_small, Z.add_0_l, (Z.mul_comm base), Z.mod_add by (rewrite ?base_eq; lia).
  symmetry. apply Z.mod_small. rewrite base_eq. unfold_ints. lia.
Qed.

Lemma limb_testbit l i x o : u32_list l → l !! i = Some x → 0 ≤ o < 32 →
  Z.testbit x o = Z.testbit (unsigned l) (32 * Z.of_nat i + o).
Proof.
  intros Hu Hi Ho. rewrite (lookup_limb l i x Hu Hi). unfold base. rewrite Z.mod_pow2_bits_low by lia.
  rewrite weight_pow, Z.div_pow2_bits by lia. f_equal. lia.
Qed.

Lemma lor_bit x o : 0 ≤ o → Z.testbit x o = false → Z.lor x (2 ^ o) = x + 2 ^ o.
Proof.
  intros Ho Hx. rewrite <- Z.lxor_lor, <- Z.add_nocarry_lxor; try done.
  all: apply Z.bits_inj'; intros n Hn; rewrite Z.land_spec, Z.bits_0, Z.pow2_bits_eqb by lia;
    destruct (Z.eqb_spec o n) as [->|]; [by rewrite Hx|by rewrite andb_false_r].
Qed.

(** Setting a clear bit adds its weight. *)
Lemma set_bits_spec l i o : u32_list l → (i < length l)%nat → 0 ≤ o < 32 →
  Z.testbit (unsigned l) (32 * Z.of_nat i + o) = false → ∃ l',
  BigInt.set_bits l i (2 ^ o) = Ok l' ∧ u32_list l' ∧ length l' = length l
  ∧ unsigned l' = unsigned l + 2 ^ (32 * Z.of_nat i + o).
Proof.
  intros Hu Hlt Ho Hbit. destruct (lookup_lt_is_Some_2 l i Hlt) as [x Hx]. unfold BigInt.set_bits. rewrite Hx.
  cbn [expect ok_or mbind result_bind]. rewrite <- (limb_testbit l i x o Hu Hx Ho) in Hbit.
  eexists. split; [done|]. split_and!.
  - apply u32_insert; [done|]. apply op_u32 with orb; [intros; apply Z.lor_spec|done|by eapply u32_lookup|].
    destruct (pow_in_limb o Ho) as [H1 H2]. rewrite base_eq in H2. unfold_ints. lia.
  - apply length_insert.
  - rewrite (unsigned_insert _ _ _ _ Hx), lor_bit by (done || lia). rewrite Z.pow_add_r, <- weight_pow by lia. lia.
Qed.

(** ** The bit loop *)

(** The state when the bits from [k] up have been divided by [v]. *)
Record divided (d v : Z) (n m : nat) (k : nat) (state : list Z * list Z) : Prop := mkDivided {
  divided_quotient : u32_list state.1 ∧ length state.1 = S n
    ∧ unsigned state.1 = (d / 2 ^ Z.of_nat k / v) * 2 ^ Z.of_nat k;
  divided_remainder : u32_list state.2 ∧ length state.2 = S m ∧ unsigned state.2 = (d / 2 ^ Z.of_nat k) mod v
}.

Lemma div_step d k : 0 ≤ k → d / 2 ^ k = 2 * (d / 2 ^ (k + 1)) + Z.b2z (Z.testbit d k).
Proof.
  intros Hk. rewrite Z.pow_add_r, <- Z.div_div by (try apply Z.pow_pos_nonneg; lia).
  change (2 ^ 1) with 2. rewrite Z.testbit_odd, Z.shiftr_div_pow2 by lia. set (q := d / 2 ^ k).
  rewrite <- Z.div2_div. apply Z.div2_odd.
Qed.

Lemma testbit_land x o : 0 ≤ x → 0 ≤ o → (Z.land (Z.shiftr x o) 1 =? 1) = Z.testbit x o.
Proof. intros Hx Ho. rewrite odd_land by (by apply Z.shiftr_nonneg). by rewrite Z.testbit_odd. Qed.

Section division.
Context (dividend divisor : list Z) (Hd : u32_list dividend) (Hv : u32_list divisor) (Hpos : 0 < unsigned divisor).
Let d := unsigned dividend.
Let v := unsigned divisor.
Let n := length dividend.
Let m := (length divisor + length dividend)%nat.

(** The remainder after the next bit came in. *)
Lemma bring_down r k bit : u32_list r → length r = S m → unsigned r = (d / 2 ^ (k + 1)) mod v →
  0 ≤ k → bit = Z.testbit d k → ∃ r',
  (if bit then BigInt.set_bits (BigInt.shift_left_one r 0) 0 1 else Ok (BigInt.shift_left_one r 0)) = Ok r'
  ∧ u32_list r' ∧ length r' = S m ∧ unsigned r' = 2 * ((d / 2 ^ (k + 1)) mod v) + Z.b2z bit.
Proof.
  intros Hu Hl Hval Hk ->. destruct (shift_left_one_spec r Hu 0 ltac:(lia)) as (Hu1 & Hl1 & Hv1).
  pose proof (Z.mod_pos_bound (d / 2 ^ (k + 1)) v Hpos) as Hm. rewrite <- Hval in Hm |- *.
  assert (2 * unsigned r + 1 < weight (length r)) as Hb.
  { pose proof (unsigned_bound _ Hv) as Hvb. fold v in Hvb. rewrite Hl. unfold m. rewrite weight_S, weight_add, base_eq.
    pose proof (weight_pos (length dividend)). nia. }
  rewrite Z.add_0_r, Z.mod_small in Hv1 by lia. destruct (Z.testbit d k); cbn [Z.b2z].
  - destruct (set_bits_spec (BigInt.shift_left_one r 0) 0 0) as (r' & Hr' & Hu' & Hl' & Hv'); [done|lia|lia| |].
    + rewrite Hv1. change (32 * Z.of_nat 0 + 0) with 0. by rewrite Z.testbit_even_0.
    + exists r'. split_and!; [done|done|lia|]. rewrite Hv', Hv1. done.
  - eexists. split_and!; [done|done|lia|lia].
Qed.

Lemma divide_bit_spec k state : (k < n * 32)%nat → divided d v n m (S k) state → ∃ state',
  BigInt.divide_bit dividend divisor k state = Ok state' ∧ divided d v n m k state'.
Proof.
  intros Hk [(Huq & Hlq & Hvq) (Hur & Hlr & Hvr)]. destruct state as [q r]. cbn [fst snd] in *. unfold BigInt.divide_bit.
  set (i := (k / 32)%nat). set (o := Z.of_nat (k mod 32)).
  pose proof (Nat.div_mod_eq k 32) as Hki. pose proof (Nat.mod_upper_bound k 32 ltac:(lia)). fold i in Hki.
  assert (0 ≤ o < 32) as Ho by lia. assert (Z.of_nat k = 32 * Z.of_nat i + o) as Ek by lia.
  assert (i < n)%nat as Hi by lia. destruct (lookup_lt_is_Some_2 dividend i Hi) as [x Hx]. rewrite Hx.
  cbn [expect ok_or mbind result_bind]. cbv zeta.
  rewrite testbit_land by (pose proof (u32_lookup _ _ _ Hd Hx); unfold_ints; lia).
  rewrite (limb_testbit dividend i x o Hd Hx Ho), <- Ek. fold d. rewrite Nat2Z.inj_succ in *. unfold Z.succ in *.
  destruct (bring_down r (Z.of_nat k) (Z.testbit d (Z.of_nat k)) Hur Hlr Hvr ltac:(lia) eq_refl) as (r' & -> & Hu' & Hl' & Hv').
  cbn [mbind result_bind]. rewrite compare_magnitudes_spec by done. fold v.
  pose proof (div_step d (Z.of_nat k) ltac:(lia)) as Hstep.
  set (D := d / 2 ^ (Z.of_nat k + 1)) in *. set (b := Z.b2z (Z.testbit d (Z.of_nat k))) in *.
  assert (0 ≤ b ≤ 1) as Hb by (subst b; destruct (Z.testbit d (Z.of_nat k)); simpl; lia).
  pose proof (Z.div_mod D v ltac:(lia)) as HD. pose proof (Z.mod_pos_bound D v Hpos) as HDb.
  assert (2 ^ (Z.of_nat k + 1) = 2 * 2 ^ Z.of_nat k) as Hpow by (rewrite Z.pow_add_r by lia; simpl; lia).
  assert (0 < 2 ^ Z.of_nat k) by (apply Z.pow_pos_nonneg; lia).
  destruct (Z.compare_spec (unsigned r') v) as [E|Hlt|Hgt].
  2:{ eexists. split; [done|]. constructor; cbn [fst snd]; (split_and!; [done|done|]); rewrite Hstep.
      - assert ((2 * D + b) / v = 2 * (D / v)) as -> by (symmetry; apply Z.div_unique_pos with (unsigned r'); lia).
        rewrite Hvq, Hpow. ring.
      - apply Z.mod_unique_pos with (2 * (D / v)); [|lia].
        pose proof (unsigned_bound _ Hu'). lia. }
  all: destruct (subtract_magnitude_spec r' Hu' divisor 0 Hv ltac:(lia)) as (r2 & -> & Hu2 & Hl2 & Hv2);
    cbn [mbind result_bind].
  all: assert (BigInt.shl_u32 1 o = 2 ^ o) as -> by (unfold BigInt.shl_u32; rewrite Z.shiftl_1_l;
    destruct (pow_in_limb o Ho); rewrite Z.mod_small; [done|change (2 ^ 32) with base; lia]).
  all: destruct (set_bits_spec q i o Huq) as (q2 & -> & Huq2 & Hlq2 & Hvq2); [lia|done| |].
  1,3: rewrite <- Ek, Hvq, Hpow; replace (D / v * (2 * 2 ^ Z.of_nat k)) with ((2 * (D / v)) * 2 ^ Z.of_nat k) by ring;
    rewrite Z.mul_pow2_bits, Z.sub_diag by lia; apply Z.testbit_even_0.
  all: cbn [mbind result_bind]; eexists; (split; [done|]).
  all: pose proof (unsigned_bound _ Hu') as Hbr; rewrite Z.sub_0_r, Z.mod_small in Hv2 by lia.
  all: constructor; cbn [fst snd]; (split_and!; [done|lia|]); rewrite Hstep.
  1,3: assert ((2 * D + b) / v = 2 * (D / v) + 1) as ->
    by (symmetry; apply Z.div_unique_pos with (unsigned r' - v); lia); rewrite Hvq2, <- Ek, Hvq, Hpow; ring.
  all: rewrite Hv2; fold v; apply Z.mod_unique_pos with (2 * (D / v) + 1); lia.
Qed.

Lemma divide_loop_spec k : (k ≤ n * 32)%nat → ∀ state, divided d v n m k state → ∃ state',
  BigInt.divide_loop dividend divisor k state = Ok state' ∧ divided d v n m 0 state'.
Proof.
  induction k as [|k IH]; intros Hk state Hs; cbn [BigInt.divide_loop]; [by exists state|].
  destruct (divide_bit_spec k state) as (state1 & -> & Hs1); [lia|done|]. cbn [mbind result_bind]. apply IH; [lia|done].
Qed.

Lemma divide_magnitudes_spec `{Allocator} :
  match BigInt.divide_magnitudes dividend divisor with
  | Ok (q, r) => ∃ q' r', q = q' ++ [0] ∧ r = r' ++ [0] ∧ u32_list q' ∧ u32_list r' ∧ unsigned q' = d / v ∧ unsigned r' = d mod v
  | Err f => f = Fail AllocationFailed ∧ refuses
  end.
Proof.
  unfold BigInt.divide_magnitudes, BigInt.reserve, Prelude.reserve, reject_if.
  destruct (try_reserve _ _ (len dividend + 1)) eqn:E1; simpl; [|split; [done|by eexists _, _, _]].
  destruct (try_reserve _ _ (len divisor + _ + 1)) eqn:E2; simpl; [|split; [done|by eexists _, _, _]].
  pose proof (unsigned_bound _ Hd) as Hb. fold d in Hb. rewrite weight_pow in Hb.
  destruct (divide_loop_spec (length dividend * 32) ltac:(done) (replicate (length dividend + 1) 0, replicate (length divisor + length dividend + 1) 0))
    as ([q r] & -> & [(Huq & Hlq & Hvq) (Hur & Hlr & Hvr)]).
  - assert (d / 2 ^ Z.of_nat (length dividend * 32) = 0) as E0.
    { apply Z.div_small. rewrite Nat2Z.inj_mul, Z.mul_comm. done. }
    constructor; cbn [fst snd]; rewrite E0; (split_and!; [apply u32_zeros|rewrite length_replicate; subst n m; lia|rewrite unsigned_zeros]).
    + by rewrite Z.div_0_l by lia.
    + by rewrite Z.mod_0_l by lia.
  - cbn [mbind result_bind fst snd] in *. exists q, r. rewrite Z.div_1_r, ?Z.mul_1_r in *. done.
Qed.
End division.

(** ** Signs *)

(** [gives] for a pair. *)
Definition gives_pair `{Allocator} (m : outcome BigIntError (JsBigInt * JsBigInt)) (q r : Z) (e : BigIntError) (over : Prop) : Prop :=
  match m with
  | Ok (a, b) => repr a q ∧ repr b r
  | Err (Fail e') => e' = AllocationFailed ∧ refuses ∨ e' = e ∧ over
  | Err _ => False
  end.

Section signs.
Context `{Allocator}.

Lemma gives_pair_bind (m : outcome BigIntError JsBigInt) (f : JsBigInt → outcome BigIntError (JsBigInt * JsBigInt)) x q r e over :
  gives m x e over → (∀ b, repr b x → gives_pair (f b) q r e over) → gives_pair (m ≫= f) q r e over.
Proof. destruct m as [b|[e'| |]]; simpl; naive_solver. Qed.

Lemma gives_signed b z negative over : repr b z → fits (- z) →
  gives (if negative : bool then BigInt.neg b else Ok b) (if negative then - z else z) TooLarge over.
Proof. intros Hr Hf. destruct negative; [|done]. eapply gives_mono; [by apply gives_neg|done]. Qed.

Lemma gives_pair_magnitude b z q r over (f : list Z → outcome BigIntError (JsBigInt * JsBigInt)) : repr b z →
  (¬ fits (Z.abs z) → over) →
  (∀ l, u32_list l → unsigned l = Z.abs z → fits (Z.abs z) → gives_pair (f l) q r TooLarge over) →
  gives_pair (BigInt.magnitude b ≫= f) q r TooLarge over.
Proof.
  intros Hr Hover Hf. unfold BigInt.magnitude. pose proof (gives_abs b z Hr) as Ha.
  destruct (BigInt.abs b) as [a|[e| |]]; simpl in *; [|naive_solver..].
  apply Hf; [apply Ha|apply repr_unsigned; [done|lia]|by eapply repr_fits].
Qed.

Lemma quotient_sign x y : y ≠ 0 →
  Z.quot x y = (if negb (Bool.eqb (x <? 0) (y <? 0)) then - (Z.abs x / Z.abs y) else Z.abs x / Z.abs y)
  ∧ Z.rem x y = (if x <? 0 then - (Z.abs x mod Z.abs y) else Z.abs x mod Z.abs y).
Proof.
  intros Hy. rewrite Z.quot_div, Z.rem_mod by done. destruct (decide (x = 0)) as [->|Hx].
  - simpl. rewrite Z.div_0_l, Z.mod_0_l by lia. by destruct (y <? 0).
  - destruct (Z.ltb_spec x 0), (Z.ltb_spec y 0); cbn [negb Bool.eqb];
      rewrite ?(Z.sgn_neg x), ?(Z.sgn_neg y), ?(Z.sgn_pos x), ?(Z.sgn_pos y) by lia; lia.
Qed.

Lemma gives_div_rem a b x y : repr a x → repr b y → y ≠ 0 →
  gives_pair (BigInt.div_rem a b) (Z.quot x y) (Z.rem x y) TooLarge (¬ fits (Z.abs x) ∨ ¬ fits (Z.abs y)).
Proof.
  intros Ha Hb Hy. unfold BigInt.div_rem. rewrite (repr_is_zero _ _ Ha), (repr_is_zero _ _ Hb).
  destruct (Z.eqb_spec y 0); [done|]. destruct (Z.eqb_spec x 0) as [->|Hx].
  { rewrite Z.quot_0_l, Z.rem_0_l by done. split; apply repr_zero. }
  rewrite (repr_negative _ _ Ha), (repr_negative _ _ Hb). destruct (quotient_sign x y Hy) as [-> ->]. cbv zeta.
  eapply gives_pair_magnitude; [done|by left|]. intros dividend Hud Hd Hfx.
  eapply gives_pair_magnitude; [done|by right|]. intros divisor Huv Hv Hfy.
  pose proof (divide_magnitudes_spec dividend divisor Hud Huv ltac:(lia)) as Hdiv. rewrite Hd, Hv in Hdiv.
  set (q := Z.abs x / Z.abs y) in *. set (r := Z.abs x mod Z.abs y) in *.
  assert (0 ≤ r < Z.abs y) as Hr by (apply Z.mod_pos_bound; lia).
  assert (0 ≤ q ≤ Z.abs x) as Hq by (split; [apply Z.div_pos|apply Z.div_le_upper_bound]; nia).
  assert (fits (Z.abs q)) as Hfq by (apply (fits_abs q x); [clear -Hq; lia|exact Hfx]).
  assert (fits (Z.abs r)) as Hfr by (apply (fits_abs r y); [clear -Hr; lia|exact Hfy]).
  destruct (BigInt.divide_magnitudes dividend divisor) as [[ql rl]|f]; [|destruct Hdiv as [-> ?]; by left].
  destruct Hdiv as (q' & r' & -> & -> & Huq & Hur & Eq & Er). cbn [mbind result_bind].
  eapply gives_pair_bind; [eapply gives_mono; [by apply gives_nonnegative|]|intros qb Hqb].
  { intros Hno. destruct Hno. by apply fits_self. }
  eapply gives_pair_bind; [eapply gives_mono; [by apply gives_nonnegative|]|intros rb Hrb].
  { intros Hno. destruct Hno. by apply fits_self. }
  eapply gives_pair_bind; [apply gives_signed; [exact Hqb|by apply fits_neg]|intros qs Hqs].
  eapply gives_pair_bind; [apply gives_signed; [exact Hrb|by apply fits_neg]|intros rs Hrs]. done.
Qed.
End signs.

(** Division truncates toward zero and the remainder takes the sign of
    the dividend, for operands of any lengths: the bit loop finishes without a
    borrow or an index out of range, and the only refusals are a zero divisor,
    an operand whose magnitude does not fit, and memory. *)
Theorem bigint_division_exact `{Allocator} a b x y : repr a x → repr b y →
  (y = 0 → BigInt.div_rem a b = Err (Fail DivisionByZero))
  ∧ (y ≠ 0 → gives_pair (BigInt.div_rem a b) (Z.quot x y) (Z.rem x y) TooLarge (¬ fits (Z.abs x) ∨ ¬ fits (Z.abs y))).
Proof.
  intros Ha Hb. split; [|by apply gives_div_rem]. intros ->. unfold BigInt.div_rem. by rewrite (repr_is_zero _ _ Hb).
Qed.

(** -(2^32 - 1) by 10 *)
Lemma bigint_division_exact_witness :
  gives_pair (H := always_allocates) (@BigInt.div_rem always_allocates (mkBigInt [1; 4294967295]) (mkBigInt [10]))
    (-429496729) (-5) TooLarge (¬ fits (Z.abs (-4294967295)) ∨ ¬ fits (Z.abs 10)).
Proof.
  apply (@bigint_division_exact always_allocates (mkBigInt [1; 4294967295]) (mkBigInt [10]) (-4294967295) 10).
  - constructor; [repeat apply Forall_cons_2; try apply Forall_nil_2; solve_ints|reflexivity|vm_compute; discriminate|reflexivity].
  - constructor; [repeat apply Forall_cons_2; try apply Forall_nil_2; solve_ints|exact I|vm_compute; discriminate|reflexivity].
  - discriminate.
Defined.
