(* ===== verification/BigIntText.v ===== *)
(** * Big integers as text

    Models [to_string_radix] and [from_str_radix] of
    [crates/fusor-runtime/src/bigint.rs] with the helpers they call, and proves
    that printing gives the canonical spelling, that parsing accepts exactly
    the literals of the grammar, and that parsing undoes printing.  A [&str] is
    the list of its characters. *)

From S2P Require Import Prelude RuntimePrelude BigInt BigIntFacts BigIntBits BigIntDivision.
From stdpp Require Import list.
Local Open Scope Z_scope.

Module BigIntText.
Section with_allocator.
Context `{Allocator}.

(** [normalize_magnitude], most significant limb first. *)
Fixpoint trim_zeros (limbs : list Z) : list Z :=
  match limbs with
  | top :: (_ :: _) as rest => if top =? 0 then trim_zeros rest else limbs
  | _ => limbs
  end.

Definition normalize_magnitude (limbs : list Z) : list Z := rev (trim_zeros (rev limbs)).

(** The loop runs over the limbs from the top. *)
Fixpoint divide_magnitude_by_small (limbs : list Z) (divisor : Z) : outcome BigIntError (list Z * Z) :=
  match limbs with
  | [] => Ok ([], 0)
  | limb :: limbs =>
      '(limbs, remainder) ← divide_magnitude_by_small limbs divisor;
      let current := Z.lor (Z.shiftl remainder LIMB_BITS mod 2 ^ 64) limb in
      limb ← BigInt.to_limb (current / divisor);
      Ok (limb :: limbs, current mod divisor)
  end.

(** [char::from_digit(digit, 36)] *)
Definition from_digit (digit : Z) : option Z :=
  if digit <? 10 then Some (48 + digit) else if digit <? 36 then Some (97 + (digit - 10)) else None.

Definition digit_char (digit : Z) : Z := default 63 (from_digit digit).

(** The [while] loop of [to_string_radix], least significant digit first. *)
Fixpoint digits_loop (fuel : nat) (magnitude : list Z) (radix : Z) : outcome BigIntError (list Z) :=
  match fuel with
  | O => Err OutOfFuel
  | S fuel =>
      if forallb (λ limb, limb =? 0) magnitude then Ok [] else
      '(magnitude, remainder) ← divide_magnitude_by_small magnitude radix;
      let digit := default u32_max (try_u32 remainder) in
      digits ← digits_loop fuel (normalize_magnitude magnitude) radix;
      Ok (digit_char digit :: digits)
  end.

(** Each turn drops at least one of the magnitude's bits. *)
Definition to_string_radix (self : JsBigInt) (radix : Z) : outcome BigIntError (list Z) :=
  if negb ((2 <=? radix) && (radix <=? 36)) then Err (Fail InvalidRadix) else
  if BigInt.is_zero self then Ok [48] else
  let negative := BigInt.is_negative self in
  magnitude ← BigInt.magnitude self;
  let magnitude := normalize_magnitude magnitude in
  digits ← digits_loop (S (32 * length magnitude)) magnitude radix;
  lift (Prelude.reserve "bigint text" 0 (len digits + Z.b2z negative) AllocationFailed) ;;
  Ok ((if negative then [45] else []) ++ rev digits).

(** [char::is_whitespace] *)
Definition is_whitespace (c : Z) : bool :=
  (9 <=? c) && (c <=? 13) || (c =? 0x20) || (c =? 0x85) || (c =? 0xa0) || (c =? 0x1680)
  || (0x2000 <=? c) && (c <=? 0x200a) || (c =? 0x2028) || (c =? 0x2029) || (c =? 0x202f) || (c =? 0x205f)
  || (c =? 0x3000).

Definition is_ecmascript_whitespace (c : Z) : bool :=
  bool_decide (c ∈ [9; 10; 11; 12; 13; 32; 0xa0; 0xfeff]) || is_whitespace c.

(** [text.trim_matches(f)] *)
Fixpoint trim_start_matches (f : Z → bool) (text : list Z) : list Z :=
  match text with
  | c :: rest => if f c then trim_start_matches f rest else text
  | [] => []
  end.

Definition trim_matches (f : Z → bool) (text : list Z) : list Z :=
  rev (trim_start_matches f (rev (trim_start_matches f text))).

(** [text.strip_prefix(prefix)] *)
Fixpoint strip_prefix (prefix text : list Z) : option (list Z) :=
  match prefix, text with
  | [], _ => Some text
  | p :: prefix, c :: text => if p =? c then strip_prefix prefix text else None
  | _, [] => None
  end.

Fixpoint first_prefix (prefixes : list (string * Z)) (text : list Z) : Z * list Z :=
  match prefixes with
  | [] => (10, text)
  | (prefix, radix) :: prefixes =>
      match strip_prefix (ascii_chars prefix) text with
      | Some rest => (radix, rest)
      | None => first_prefix prefixes text
      end
  end.

Definition radix_prefixes : list (string * Z) :=
  [("0x", 16); ("0X", 16); ("0o", 8); ("0O", 8); ("0b", 2); ("0B", 2)]%string.

Definition detect_radix_prefix (text : list Z) : Z * list Z := first_prefix radix_prefixes text.

(** [char::to_digit] *)
Definition to_digit (c radix : Z) : option Z :=
  let digit :=
    if (48 <=? c) && (c <=? 57) then Some (c - 48)
    else if (97 <=? c) && (c <=? 122) then Some (c - 97 + 10)
    else if (65 <=? c) && (c <=? 90) then Some (c - 65 + 10)
    else None in
  match digit with
  | Some d => if d <? radix then Some d else None
  | None => None
  end.

(** The [for character in digits.chars()] loop. *)
Fixpoint parse_loop (digits : list Z) (radix : Z) (multiplier value : JsBigInt) : outcome BigIntError JsBigInt :=
  match digits with
  | [] => Ok value
  | character :: digits =>
      digit ← lift (ok_or (to_digit character radix) InvalidLiteral);
      value ← BigInt.mul value multiplier;
      value ← BigInt.add value (BigInt.from_i32 digit);
      parse_loop digits radix multiplier value
  end.

Definition split_sign (trimmed : list Z) : bool * bool * list Z :=
  match strip_prefix [45] trimmed with
  | Some rest => (true, true, rest)
  | None =>
      match strip_prefix [43] trimmed with
      | Some rest => (false, true, rest)
      | None => (false, false, trimmed)
      end
  end.

(** The parsed digits and radix fit [i32], so the conversions keep them. *)
Definition from_str_radix (text : list Z) (radix : Z) : outcome BigIntError JsBigInt :=
  if negb ((2 <=? radix) && (radix <=? 36)) then Err (Fail InvalidRadix) else
  let trimmed := trim_matches is_ecmascript_whitespace text in
  if bool_decide (trimmed = []) then Ok BigInt.zero else
  let '(negative, explicit_sign, unsigned) := split_sign trimmed in
  let requested_radix := radix in
  let '(radix, digits) := if requested_radix =? 10 then detect_radix_prefix unsigned else (requested_radix, unsigned) in
  if explicit_sign && negb (radix =? requested_radix) then Err (Fail InvalidLiteral) else
  if bool_decide (digits = []) then Err (Fail InvalidLiteral) else
  value ← parse_loop digits radix (BigInt.from_i32 radix) BigInt.zero;
  if negative then BigInt.neg value else Ok value.
End with_allocator.
End BigIntText.

(** ** Digits *)

(** The value of a digit list after [k], and the digits of a number. *)
Definition digits_value (radix k : Z) (digits : list Z) : Z := foldl (λ acc d, acc * radix + d) k digits.

(** [cs] spells the digits [ds]. *)
Definition spells (radix : Z) (cs ds : list Z) : Prop := Forall2 (λ c d, BigIntText.to_digit c radix = Some d) cs ds.

(** The whitespace of the ECMAScript grammar: the white-space and
    line-terminator code points. *)
Definition es_whitespace (c : Z) : Prop :=
  c ∈ [9; 11; 12; 0xfeff] ∨ c ∈ [0x20; 0xa0; 0x1680; 0x202f; 0x205f; 0x3000] ∨ 0x2000 ≤ c ≤ 0x200a ∨ c ∈ [10; 13; 0x2028; 0x2029].

(** A digit of the grammar at a radix: decimal digits, then letters of either
    case. *)
Definition es_digit (radix c d : Z) : Prop :=
  0 ≤ d < radix ∧ (d ≤ 9 ∧ c = 48 + d ∨ 10 ≤ d ≤ 35 ∧ (c = 97 + (d - 10) ∨ c = 65 + (d - 10))).

(** The digit [0] and the letters of the hexadecimal, octal and binary
    prefixes. *)
Definition es_prefix (prefix : list Z) (radix : Z) : Prop :=
  radix = 16 ∧ (prefix = [48; 120] ∨ prefix = [48; 88]) ∨
  radix = 8 ∧ (prefix = [48; 111] ∨ prefix = [48; 79]) ∨
  radix = 2 ∧ (prefix = [48; 98] ∨ prefix = [48; 66]).

(** The literals of StringToBigInt, at any radix: blank text is zero; digits
    may have a sign; at radix ten digits of another radix may follow its
    prefix, without a sign.  Nothing here is taken from the code. *)
Inductive literal (radix : Z) : list Z → Z → Prop :=
| literal_blank w : Forall es_whitespace w → literal radix w 0
| literal_signed w sign cs ds w' negative :
    Forall es_whitespace (w ++ w') →
    (sign = [] ∨ sign = [43]) ∧ negative = false ∨ sign = [45] ∧ negative = true →
    cs ≠ [] → Forall2 (es_digit radix) cs ds →
    literal radix (w ++ sign ++ cs ++ w') (if negative : bool then - digits_value radix 0 ds else digits_value radix 0 ds)
| literal_prefixed w prefix radix' cs ds w' :
    Forall es_whitespace (w ++ w') →
    radix = 10 → es_prefix prefix radix' → cs ≠ [] → Forall2 (es_digit radix') cs ds →
    literal radix (w ++ prefix ++ cs ++ w') (digits_value radix' 0 ds).

(** The same texts, in terms of the code's tables. *)
Inductive accepted (radix : Z) : list Z → Z → Prop :=
| accepted_blank w : Forall (λ c, BigIntText.is_ecmascript_whitespace c = true) w → accepted radix w 0
| accepted_signed w sign cs ds w' negative :
    Forall (λ c, BigIntText.is_ecmascript_whitespace c = true) (w ++ w') →
    (sign = [] ∨ sign = [43]) ∧ negative = false ∨ sign = [45] ∧ negative = true →
    cs ≠ [] → spells radix cs ds →
    accepted radix (w ++ sign ++ cs ++ w') (if negative : bool then - digits_value radix 0 ds else digits_value radix 0 ds)
| accepted_prefixed w prefix radix' cs ds w' :
    Forall (λ c, BigIntText.is_ecmascript_whitespace c = true) (w ++ w') →
    radix = 10 → (prefix, radix') ∈ BigIntText.radix_prefixes → cs ≠ [] → spells radix' cs ds →
    accepted radix (w ++ ascii_chars prefix ++ cs ++ w') (digits_value radix' 0 ds).

(** ** Whitespace *)

(** The code's whitespace is the grammar's and U+0085. *)
Lemma whitespace_exact c : BigIntText.is_ecmascript_whitespace c = true ↔ es_whitespace c ∨ c = 0x85.
Proof.
  unfold BigIntText.is_ecmascript_whitespace, BigIntText.is_whitespace, es_whitespace.
  rewrite !orb_true_iff, !andb_true_iff, bool_decide_eq_true, !Z.leb_le, !Z.eqb_eq.
  rewrite !elem_of_cons, !elem_of_nil. lia.
Qed.

Lemma rev_reverse (l : list Z) : rev l = reverse l.
Proof. apply rev_alt. Qed.

Section trimming.
Context (f : Z → bool).
Notation blank := (Forall (λ c, f c = true)).

(** No whitespace at either end. *)
Definition trimmed (core : list Z) : Prop :=
  (∀ c, head core = Some c → f c = false) ∧ (∀ c, last core = Some c → f c = false).

Lemma trim_start_split text : ∃ w, text = w ++ BigIntText.trim_start_matches f text ∧ blank w
  ∧ ∀ c, head (BigIntText.trim_start_matches f text) = Some c → f c = false.
Proof.
  induction text as [|c text (w & IH & Hw & Hh)]; cbn [BigIntText.trim_start_matches]; [by exists []|].
  destruct (f c) eqn:E; [|exists []; split_and!; [done|constructor|by intros ? [= <-]]].
  exists (c :: w). split_and!; [by rewrite IH at 1|by constructor|done].
Qed.

Lemma trim_start_blank w text : blank w → BigIntText.trim_start_matches f (w ++ text) = BigIntText.trim_start_matches f text.
Proof. induction 1 as [|c w Hc _ IH]; [done|]. simpl. by rewrite Hc. Qed.

Lemma trim_start_stays text : (∀ c, head text = Some c → f c = false) → BigIntText.trim_start_matches f text = text.
Proof. destruct text as [|c text]; [done|]. intros Hh. simpl. by rewrite (Hh c). Qed.

Lemma trim_split text : ∃ w w', text = w ++ BigIntText.trim_matches f text ++ w' ∧ blank (w ++ w')
  ∧ trimmed (BigIntText.trim_matches f text).
Proof.
  unfold BigIntText.trim_matches. destruct (trim_start_split text) as (w & Hw & Hb & Hh).
  set (core := BigIntText.trim_start_matches f text) in *.
  destruct (trim_start_split (rev core)) as (w' & Hw' & Hb' & Hh').
  set (out := BigIntText.trim_start_matches f (rev core)) in *.
  assert (core = rev out ++ rev w') as Ecore by (by rewrite <- rev_app_distr, <- Hw', rev_involutive).
  exists w, (rev w'). split_and!.
  - by rewrite Hw, Ecore.
  - apply Forall_app. split; [done|]. rewrite rev_reverse. by apply Forall_reverse.
  - split.
    + intros c Hc. apply Hh. rewrite Ecore. destruct (rev out) as [|x l]; [done|]. done.
    + intros c Hc. apply Hh'. rewrite <- (rev_involutive out), rev_reverse, head_reverse. done.
Qed.

Lemma trim_core w core w' : blank (w ++ w') → trimmed core → BigIntText.trim_matches f (w ++ core ++ w') = core.
Proof.
  intros [Hw Hw']%Forall_app [Hh Hl]. unfold BigIntText.trim_matches. rewrite trim_start_blank by done.
  destruct core as [|c core].
  - simpl. rewrite <- (app_nil_r w'), trim_start_blank by done. done.
  - rewrite (trim_start_stays ((c :: core) ++ w')) by (intros x Hx; apply Hh; exact Hx). rewrite rev_app_distr, trim_start_blank.
    + rewrite trim_start_stays, rev_involutive; [done|]. intros x. rewrite rev_reverse, head_reverse. apply Hl.
    + rewrite rev_reverse. by apply Forall_reverse.
Qed.
End trimming.

(** ** The grammar *)

Lemma to_digit_range c radix d : BigIntText.to_digit c radix = Some d →
  0 ≤ d < radix ∧ (48 ≤ c ≤ 57 ∧ d = c - 48 ∨ 97 ≤ c ≤ 122 ∧ d = c - 87 ∨ 65 ≤ c ≤ 90 ∧ d = c - 55).
Proof.
  unfold BigIntText.to_digit.
  destruct (Z.leb_spec 48 c), (Z.leb_spec c 57), (Z.leb_spec 97 c), (Z.leb_spec c 122), (Z.leb_spec 65 c), (Z.leb_spec c 90);
    simpl; try done; try lia; case_match eqn:Hlt; try done; apply Z.ltb_lt in Hlt; intros [= <-]; lia.
Qed.

Lemma digit_not_blank c radix d : BigIntText.to_digit c radix = Some d → BigIntText.is_ecmascript_whitespace c = false.
Proof.
  intros Hd%to_digit_range. apply not_true_iff_false. rewrite whitespace_exact. unfold es_whitespace.
  rewrite !elem_of_cons, !elem_of_nil. lia.
Qed.

Lemma spells_inj radix cs ds ds' : spells radix cs ds → spells radix cs ds' → ds = ds'.
Proof.
  intros Hs. revert ds'. induction Hs as [|c d cs ds Hc _ IH]; intros ds' Hs'; inversion Hs'; simplify_eq; [done|].
  f_equal. by apply IH.
Qed.

Lemma spells_head radix c cs ds : spells radix (c :: cs) ds → ∃ d, BigIntText.to_digit c radix = Some d.
Proof. inversion 1; eauto. Qed.

Lemma spells_last radix cs ds c : spells radix cs ds → last cs = Some c → ∃ d, BigIntText.to_digit c radix = Some d.
Proof.
  intros Hs Hl. apply last_Some in Hl as [cs' ->]. apply Forall2_app_inv_l in Hs as (ds1 & ds2 & _ & Hs & _).
  inversion Hs; eauto.
Qed.

Lemma strip_prefix_spec prefix text rest : BigIntText.strip_prefix prefix text = Some rest ↔ text = prefix ++ rest.
Proof.
  revert text. induction prefix as [|p prefix IH]; intros text; simpl; [split; congruence|].
  destruct text as [|c text]; [done|]. destruct (Z.eqb_spec p c) as [->|Hne].
  - rewrite IH. split; [by intros ->|by intros [= ->]].
  - split; [done|]. by intros [= -> _].
Qed.

Lemma first_prefix_cases prefixes text : Forall (λ p, p.2 ≠ 10) prefixes →
  (BigIntText.first_prefix prefixes text = (10, text)
     ∧ ∀ p, p ∈ prefixes → ∀ rest, text ≠ ascii_chars p.1 ++ rest)
  ∨ ∃ prefix radix rest, BigIntText.first_prefix prefixes text = (radix, rest) ∧ radix ≠ 10
     ∧ (prefix, radix) ∈ prefixes ∧ text = ascii_chars prefix ++ rest.
Proof.
  induction 1 as [|[prefix radix] prefixes Hne _ IH]; cbn [BigIntText.first_prefix].
  { left. split; [done|]. by intros p Hp%elem_of_nil. }
  destruct (BigIntText.strip_prefix (ascii_chars prefix) text) as [rest|] eqn:E.
  - apply strip_prefix_spec in E. right. exists prefix, radix, rest. split_and!; [done|done|by left|done].
  - destruct IH as [[-> Hno]|(p & r & rest & -> & Hr & Hin & Ht)].
    + left. split; [done|]. intros p [->|Hp]%elem_of_cons rest; [|by apply Hno].
      intros Ht%strip_prefix_spec. cbn [fst] in Ht. congruence.
    + right. exists p, r, rest. split_and!; [done|done|by right|done].
Qed.

Lemma prefixes_not_ten : Forall (λ p : string * Z, p.2 ≠ 10) BigIntText.radix_prefixes.
Proof. repeat constructor; done. Qed.

(** A prefix starts with a zero and a letter that is no decimal digit. *)
Lemma prefix_shape prefix radix : (prefix, radix) ∈ BigIntText.radix_prefixes →
  ∃ c, ascii_chars prefix = [48; c] ∧ 66 ≤ c.
Proof.
  unfold BigIntText.radix_prefixes. rewrite !elem_of_cons, elem_of_nil.
  intros [[= -> ->]|[[= -> ->]|[[= -> ->]|[[= -> ->]|[[= -> ->]|[[= -> ->]|[]]]]]]]; eexists; (split; [reflexivity|vm_compute; discriminate]).
Qed.

Lemma prefix_distinct p p' rest rest' : p ∈ BigIntText.radix_prefixes → p' ∈ BigIntText.radix_prefixes →
  ascii_chars p.1 ++ rest = ascii_chars p'.1 ++ rest' → p = p' ∧ rest = rest'.
Proof.
  unfold BigIntText.radix_prefixes. rewrite !elem_of_cons, !elem_of_nil.
  intros [->|[->|[->|[->|[->|[->|[]]]]]]] [->|[->|[->|[->|[->|[->|[]]]]]]] E; simpl in E; by simplify_eq.
Qed.

(** Decimal digits carry no prefix. *)
Lemma detect_digits cs ds : spells 10 cs ds → BigIntText.detect_radix_prefix cs = (10, cs).
Proof.
  intros Hs. destruct (first_prefix_cases _ cs prefixes_not_ten) as [[E _]|(p & r & rest & _ & _ & Hin & ->)]; [done|].
  destruct (prefix_shape _ _ Hin) as (c & Hc & Hge). rewrite Hc in Hs. inversion Hs as [|? ? ? ? _ Hs2]; subst.
  apply spells_head in Hs2 as [d Hd%to_digit_range]. lia.
Qed.

Lemma detect_prefix prefix radix rest : (prefix, radix) ∈ BigIntText.radix_prefixes →
  BigIntText.detect_radix_prefix (ascii_chars prefix ++ rest) = (radix, rest).
Proof.
  intros Hin. unfold BigIntText.detect_radix_prefix.
  destruct (first_prefix_cases _ (ascii_chars prefix ++ rest) prefixes_not_ten) as [[_ Hno]|(p & r & rest' & -> & _ & Hin' & E)].
  - by destruct (Hno _ Hin rest).
  - destruct (prefix_distinct (prefix, radix) (p, r) rest rest' Hin Hin' E) as [[= -> ->] ->]. done.
Qed.

(** What the code reads from the trimmed text. *)
Definition reads (radix : Z) (core : list Z) (z : Z) : Prop :=
  if bool_decide (core = []) then z = 0 else
  let '(negative, explicit_sign, unsigned) := BigIntText.split_sign core in
  let '(radix', digits) := if radix =? 10 then BigIntText.detect_radix_prefix unsigned else (radix, unsigned) in
  (explicit_sign = true → radix' = radix) ∧ digits ≠ [] ∧ ∃ ds, spells radix' digits ds
  ∧ z = if negative then - digits_value radix' 0 ds else digits_value radix' 0 ds.

Lemma split_sign_plain c core : c ≠ 45 → c ≠ 43 → BigIntText.split_sign (c :: core) = (false, false, c :: core).
Proof. intros H1 H2. unfold BigIntText.split_sign. cbn [BigIntText.strip_prefix].
  by rewrite (proj2 (Z.eqb_neq 45 c)), (proj2 (Z.eqb_neq 43 c)) by congruence. Qed.

Lemma core_trimmed sign radix cs ds : spells radix cs ds → cs ≠ [] → Forall (λ c, BigIntText.is_ecmascript_whitespace c = false) sign →
  trimmed BigIntText.is_ecmascript_whitespace (sign ++ cs).
Proof.
  intros Hs Hne Hsign. split; intros c Hc.
  - destruct sign as [|s sign]; simpl in Hc; [|injection Hc as <-; by apply Forall_cons_1 in Hsign as [? _]].
    destruct cs as [|c' cs]; [done|]. injection Hc as <-. apply spells_head in Hs as [d Hd]. by eapply digit_not_blank.
  - rewrite last_app_Some in Hc. destruct Hc as [Hc|[Hc%last_None _]]; [|done].
    destruct (spells_last _ _ _ _ Hs Hc) as [d Hd]. by eapply digit_not_blank.
Qed.

Lemma accepted_reads radix text z : accepted radix text z ↔
  reads radix (BigIntText.trim_matches BigIntText.is_ecmascript_whitespace text) z.
Proof.
  split.
  - intros [w Hw|w sign cs ds w' negative Hw Hsign Hne Hs|w prefix radix' cs ds w' Hw -> Hin Hne Hs].
    + rewrite <- (app_nil_r w), <- (app_nil_l []), trim_core; [done|by rewrite app_nil_r|by split].
    + assert (Forall (λ c, BigIntText.is_ecmascript_whitespace c = false) sign) as Hsb.
      { destruct Hsign as [[[->| ->] _]|[-> _]]; repeat constructor. }
      rewrite (app_assoc sign), trim_core by (done || by eapply core_trimmed). unfold reads.
      rewrite bool_decide_eq_false_2 by (intros [_ ->]%app_eq_nil; done).
      assert (BigIntText.split_sign (sign ++ cs) = (negative, bool_decide (sign ≠ []), cs)) as ->.
      { destruct Hsign as [[[->| ->] ->]|[-> ->]]; [|done..]. destruct cs as [|c cs]; [done|].
        apply spells_head in Hs as [d Hd%to_digit_range]. apply split_sign_plain; lia. }
      destruct (Z.eqb_spec radix 10) as [->|]; [rewrite (detect_digits _ _ Hs)|]; eauto 10.
    + destruct (prefix_shape _ _ Hin) as (c & Hc & Hge).
      rewrite (app_assoc (ascii_chars prefix)), trim_core; [|done|eapply core_trimmed; [done..|]].
      2:{ rewrite Hc. apply Forall_cons_2; [done|]. apply Forall_cons_2; [|done]. clear -Hin Hc.
          revert Hin Hc. unfold BigIntText.radix_prefixes. rewrite !elem_of_cons, elem_of_nil.
          intros [[= -> ->]|[[= -> ->]|[[= -> ->]|[[= -> ->]|[[= -> ->]|[[= -> ->]|[]]]]]]]; intros [= <-]; done. }
      unfold reads. rewrite bool_decide_eq_false_2 by (intros [_ ->]%app_eq_nil; done).
      assert (BigIntText.split_sign (ascii_chars prefix ++ cs) = (false, false, ascii_chars prefix ++ cs)) as ->.
      { rewrite Hc. by apply split_sign_plain. }
      change (10 =? 10) with true. cbv iota. rewrite (detect_prefix _ _ cs Hin). split_and!; [done|done|]. by exists ds.
  - destruct (trim_split BigIntText.is_ecmascript_whitespace text) as (w & w' & Et & Hb & _).
    set (core := BigIntText.trim_matches _ text) in *. unfold reads. destruct (decide (core = [])) as [E|Hne].
    { rewrite bool_decide_eq_true_2 by done. intros ->. rewrite Et, E. by apply accepted_blank. }
    rewrite bool_decide_eq_false_2 by done.
    assert (∃ sign negative explicit unsigned, BigIntText.split_sign core = (negative, explicit, unsigned) ∧ core = sign ++ unsigned
      ∧ (explicit = false → sign = [] ∧ negative = false)
      ∧ ((sign = [] ∨ sign = [43]) ∧ negative = false ∨ sign = [45] ∧ negative = true)) as (sign & negative & explicit & unsigned & -> & Ec & Hexp & Hsign).
    { unfold BigIntText.split_sign. destruct (BigIntText.strip_prefix [45] core) as [rest|] eqn:E1.
      - apply strip_prefix_spec in E1. exists [45], true, true, rest. split_and!; auto; done.
      - destruct (BigIntText.strip_prefix [43] core) as [rest|] eqn:E2.
        + apply strip_prefix_spec in E2. exists [43], false, true, rest. split_and!; auto; done.
        + exists [], false, false, core. split_and!; auto. }
    rewrite Et, Ec. destruct (Z.eqb_spec radix 10) as [->|Hne10].
    + unfold BigIntText.detect_radix_prefix.
      destruct (first_prefix_cases _ unsigned prefixes_not_ten) as [[-> _]|(p & r & rest & -> & Hr & Hin & ->)].
      * intros (_ & Hd & ds & Hs & ->). rewrite <- (app_assoc sign). by apply accepted_signed.
      * intros (Hx & Hd & ds & Hs & ->). destruct explicit; [by destruct Hr; apply Hx|].
        destruct Hexp as [-> ->]; [done|]. rewrite app_nil_l, <- (app_assoc (ascii_chars p)). by apply accepted_prefixed.
    + intros (_ & Hd & ds & Hs & ->). rewrite <- (app_assoc sign). by apply accepted_signed.
Qed.

Lemma to_digit_exact radix c d : radix ≤ 36 → BigIntText.to_digit c radix = Some d ↔ es_digit radix c d.
Proof.
  intros Hr. unfold es_digit. split; [intros Hd%to_digit_range; lia|].
  intros [Hd Hc]. unfold BigIntText.to_digit.
  assert (d <? radix = true) as E by lia.
  destruct Hc as [[H9 ->]|[Hl [-> | ->]]].
  - destruct (Z.leb_spec 48 (48 + d)), (Z.leb_spec (48 + d) 57); simpl; try lia.
    replace (48 + d - 48) with d by lia. by rewrite E.
  - destruct (Z.leb_spec (97 + (d - 10)) 57), (Z.leb_spec 97 (97 + (d - 10))), (Z.leb_spec (97 + (d - 10)) 122);
      rewrite ?andb_false_r; simpl; try lia. replace (97 + (d - 10) - 97 + 10) with d by lia. by rewrite E.
  - destruct (Z.leb_spec (65 + (d - 10)) 57), (Z.leb_spec 97 (65 + (d - 10))), (Z.leb_spec 65 (65 + (d - 10))),
      (Z.leb_spec (65 + (d - 10)) 90); rewrite ?andb_false_r; simpl; try lia.
    replace (65 + (d - 10) - 65 + 10) with d by lia. by rewrite E.
Qed.

Lemma spells_exact radix cs ds : radix ≤ 36 → spells radix cs ds ↔ Forall2 (es_digit radix) cs ds.
Proof. intros Hr. unfold spells. split; intros Hf; (eapply Forall2_impl; [exact Hf|]); intros c d; by apply to_digit_exact. Qed.

Lemma prefix_exact prefix radix :
  es_prefix prefix radix ↔ ∃ p, prefix = ascii_chars p ∧ (p, radix) ∈ BigIntText.radix_prefixes.
Proof.
  unfold es_prefix, BigIntText.radix_prefixes. split.
  - intros [[-> [-> | ->]]|[[-> [-> | ->]]|[-> [-> | ->]]]];
      [exists "0x"%string|exists "0X"%string|exists "0o"%string|exists "0O"%string|exists "0b"%string|exists "0B"%string];
      (split; [reflexivity|]); rewrite !elem_of_cons; auto 10.
  - intros (p & -> & Hin). rewrite !elem_of_cons, elem_of_nil in Hin.
    destruct Hin as [E|[E|[E|[E|[E|[E|[]]]]]]]; injection E as -> ->; vm_compute; auto 10.
Qed.

Lemma blank_exact w : Forall (λ c, c ≠ 0x85) w →
  Forall (λ c, BigIntText.is_ecmascript_whitespace c = true) w ↔ Forall es_whitespace w.
Proof.
  intros Hn. split; intros Hb; pose proof (proj2 (Forall_and _ _) (conj Hn Hb)) as H2;
    (eapply Forall_impl; [exact H2|]); intros c [Hc Hw]; [|by apply whitespace_exact; left].
  by apply whitespace_exact in Hw as [|].
Qed.

(** The code accepts the texts of the grammar, where U+0085 does not occur. *)
Lemma accepted_literal radix text z : radix ≤ 36 → Forall (λ c, c ≠ 0x85) text →
  accepted radix text z ↔ literal radix text z.
Proof.
  intros Hr Hn. split; intros Hl; destruct Hl as [w Hb|w sign cs ds w' negative Hb Hs Hc Hd|w prefix radix' cs ds w' Hb H10 Hp Hc Hd].
  - apply literal_blank. by apply blank_exact.
  - apply literal_signed; [|done|done|by apply spells_exact]. apply blank_exact; [|done].
    rewrite !Forall_app in Hn. apply Forall_app. tauto.
  - assert (radix' ≤ 36) as Hr'.
    { assert (es_prefix (ascii_chars prefix) radix') as Hx by (apply prefix_exact; by exists prefix). unfold es_prefix in Hx. lia. }
    apply literal_prefixed; [|done|apply prefix_exact; by exists prefix|done|by apply spells_exact].
    apply blank_exact; [|done]. rewrite !Forall_app in Hn. apply Forall_app. tauto.
  - apply accepted_blank. by apply blank_exact.
  - apply accepted_signed; [|done|done|by apply spells_exact]. apply blank_exact; [|done].
    rewrite !Forall_app in Hn. apply Forall_app. tauto.
  - assert (radix' ≤ 36) as Hr' by (unfold es_prefix in Hp; lia).
    apply prefix_exact in Hp as (p & -> & Hp).
    apply accepted_prefixed; [|done|done|done|by apply spells_exact].
    apply blank_exact; [|done]. rewrite !Forall_app in Hn. apply Forall_app. tauto.
Qed.

Lemma accepted_inj radix text z z' : accepted radix text z → accepted radix text z' → z = z'.
Proof.
  rewrite !accepted_reads. unfold reads. case_match; [congruence|].
  destruct (BigIntText.split_sign _) as [[negative explicit] unsigned]. case_match.
  intros (_ & _ & ds & Hs & ->) (_ & _ & ds' & Hs' & ->). by rewrite (spells_inj _ _ _ _ Hs Hs').
Qed.

(** ** Parsing *)

Lemma digits_value_grows radix ds : 1 ≤ radix → Forall (λ d, 0 ≤ d) ds → ∀ k, 0 ≤ k → k ≤ digits_value radix k ds.
Proof.
  intros Hr. induction 1 as [|d ds Hd _ IH]; intros k Hk; [done|]. cbn [digits_value foldl].
  specialize (IH (k * radix + d) ltac:(nia)). unfold digits_value in IH. nia.
Qed.

Lemma spells_nonneg radix cs ds : spells radix cs ds → Forall (λ d, 0 ≤ d < radix) ds.
Proof. induction 1 as [|c d cs ds Hd%to_digit_range _ IH]; constructor; [lia|done]. Qed.

(** [parses m P]: [m] returns the value that [P] describes; or there is none;
    or it does not fit; or the host refused memory. *)
Definition parses `{Allocator} (m : outcome BigIntError JsBigInt) (P : Z → Prop) : Prop :=
  match m with
  | Ok b => ∃ z, P z ∧ repr b z
  | Err (Fail InvalidLiteral) => ∀ z, ¬ P z
  | Err (Fail TooLarge) => ∀ z, P z → ¬ fits (Z.abs z)
  | Err (Fail AllocationFailed) => refuses
  | Err _ => False
  end.

Section parsing.
Context `{Allocator}.

Lemma parses_mono m (P Q : Z → Prop) : (∀ z, P z ↔ Q z) → parses m P → parses m Q.
Proof.
  intros HPQ. destruct m as [b|[[]| |]]; simpl; intros HP; try exact HP.
  - destruct HP as (z & Hz & Hb). exists z. split; [by apply HPQ|exact Hb].
  - intros z Hz. by apply HP, HPQ.
  - intros z Hz. by apply (HP z), HPQ.
Qed.

Lemma parses_bind (m : outcome BigIntError JsBigInt) f x P : gives m x TooLarge (∀ z, P z → ¬ fits (Z.abs z)) →
  (∀ b, repr b x → parses (f b) P) → parses (m ≫= f) P.
Proof. destruct m as [b|[e| |]]; simpl; [intros Hb Hf; by apply Hf| |done|done]. intros [[-> Hm]|[-> Hm]] _; exact Hm. Qed.

Lemma parse_loop_spec radix multiplier cs : 2 ≤ radix → repr multiplier radix → ∀ value k, repr value k → 0 ≤ k →
  parses (BigIntText.parse_loop cs radix multiplier value) (λ z, ∃ ds, spells radix cs ds ∧ z = digits_value radix k ds).
Proof.
  intros Hr Hm. induction cs as [|c cs IH]; intros value k Hv Hk; cbn [BigIntText.parse_loop].
  { exists k. split; [|done]. exists []. split; [constructor|done]. }
  destruct (BigIntText.to_digit c radix) as [d|] eqn:Ed; cbn [ok_or lift map_err mbind result_bind].
  2:{ intros z (ds & Hs & _). apply spells_head in Hs as [d Hd]. congruence. }
  pose proof (to_digit_range _ _ _ Ed) as Hd.
  assert (∀ x, Z.abs x ≤ k * radix + d → ¬ fits x →
    ∀ z, (∃ ds, spells radix (c :: cs) ds ∧ z = digits_value radix k ds) → ¬ fits (Z.abs z)) as Hover.
  { intros x Hx Hno z (ds & Hs & ->) Hf. apply Hno. inversion Hs as [|? d' ? ds' Hd' Hs']; subst.
    assert (d' = d) as -> by congruence. apply fits_self. eapply fits_abs; [|exact Hf].
    pose proof (spells_nonneg _ _ _ Hs') as Hn. cbn [digits_value foldl].
    pose proof (digits_value_grows radix ds' ltac:(lia) ltac:(eapply Forall_impl; [exact Hn|simpl; lia]) (k * radix + d) ltac:(nia)) as Hg.
    unfold digits_value in Hg. nia. }
  eapply parses_bind; [eapply gives_mono; [by apply gives_mul|apply Hover; nia]|]. intros v1 Hv1.
  eapply parses_bind; [eapply gives_mono; [apply (gives_add_with_sign _ _ (k * radix) d false); [done|apply repr_from_i32; unfold_ints; lia]|apply Hover; nia]|].
  intros v2 Hv2. eapply parses_mono; [|apply (IH v2 (k * radix + d)); [done|nia]]. intros z. split.
  - intros (ds & Hs & ->). exists (d :: ds). split; [by constructor|done].
  - intros (ds & Hs & ->). inversion Hs as [|? d' ? ds' Hd' Hs']; subst. assert (d' = d) as -> by congruence. by exists ds'.
Qed.

Lemma parses_neg m P : parses m P → (∀ z, P z → 0 ≤ z) →
  parses (value ← m; BigInt.neg value) (λ z, ∃ x, P x ∧ z = - x).
Proof.
  destruct m as [b|[[]| |]]; simpl; intros HP Hnn; try exact HP.
  - destruct HP as (x & Hx & Hb). pose proof (gives_neg b x Hb) as Hg. specialize (Hnn x Hx).
    destruct (BigInt.neg b) as [v|[e| |]]; simpl in *; [by eauto| |done|done].
    destruct Hg as [[-> ?]|[-> Hno]]; [done|]. destruct Hno. apply fits_neg. rewrite Z.abs_eq by done. by eapply repr_fits.
  - intros z (x & Hx & ->). rewrite Z.abs_opp. by apply HP.
  - intros z (x & Hx & _). by apply (HP x).
Qed.

Lemma from_str_radix_spec text radix : 2 ≤ radix ≤ 36 →
  parses (BigIntText.from_str_radix text radix) (accepted radix text).
Proof.
  intros Hr. eapply parses_mono; [intros z; symmetry; apply accepted_reads|]. unfold BigIntText.from_str_radix, reads.
  destruct (Z.leb_spec 2 radix), (Z.leb_spec radix 36); try lia. cbn [andb negb]. cbv zeta.
  set (core := BigIntText.trim_matches _ text). destruct (bool_decide (core = [])); [exists 0; split; [done|apply repr_zero]|].
  destruct (BigIntText.split_sign core) as [[negative explicit] unsigned].
  assert (∃ radix' digits, (if radix =? 10 then BigIntText.detect_radix_prefix unsigned else (radix, unsigned)) = (radix', digits)
    ∧ 2 ≤ radix' ≤ 36) as (radix' & digits & -> & Hr').
  { destruct (radix =? 10); [|by exists radix, unsigned]. unfold BigIntText.detect_radix_prefix.
    destruct (first_prefix_cases _ unsigned prefixes_not_ten) as [[-> _]|(p & r & rest & -> & _ & Hin & _)]; [by exists 10, unsigned|].
    exists r, rest. split; [done|]. revert Hin. unfold BigIntText.radix_prefixes. rewrite !elem_of_cons, elem_of_nil. clear.
    intros [E|[E|[E|[E|[E|[E|[]]]]]]]; injection E as -> ->; lia. }
  destruct (explicit && negb (radix' =? radix)) eqn:Esign.
  { intros z (Hx & _). apply andb_true_iff in Esign as [-> Hne%negb_true_iff%Z.eqb_neq]. by destruct Hne; apply Hx. }
  destruct (bool_decide_reflect (digits = [])) as [Hd|Hd]; [by intros z (_ & ? & _)|].
  assert (explicit = true → radix' = radix) as Hx.
  { intros ->. simpl in Esign. by apply negb_false_iff, Z.eqb_eq in Esign. }
  pose proof (parse_loop_spec radix' (BigInt.from_i32 radix') digits ltac:(lia) ltac:(apply repr_from_i32; unfold_ints; lia)
    BigInt.zero 0 repr_zero ltac:(lia)) as Hp.
  destruct negative.
  - eapply parses_mono; [|apply (parses_neg _ _ Hp)].
    + intros z. split; [intros (x & (ds & Hs & ->) & ->); split_and!; [done|done|by exists ds]|].
      intros (_ & _ & ds & Hs & ->). exists (digits_value radix' 0 ds). split; [by exists ds|done].
    + intros z (ds & Hs & ->). apply digits_value_grows; [lia| |lia].
      eapply Forall_impl; [by eapply spells_nonneg|simpl; lia].
  - assert (∀ m : outcome BigIntError JsBigInt, (value ← m; Ok value) = m) as -> by (by intros []).
    eapply parses_mono; [|exact Hp]. intros z. split; [intros (ds & Hs & ->); split_and!; [done|done|by exists ds]|].
    intros (_ & _ & ds & Hs & ->). by exists ds.
Qed.
End parsing.

(** ** Printing *)

Lemma divide_small_spec divisor l : 2 ≤ divisor ≤ 36 → u32_list l → ∃ q r,
  BigIntText.divide_magnitude_by_small l divisor = Ok (q, r) ∧ u32_list q ∧ 0 ≤ r < divisor
  ∧ unsigned l = unsigned q * divisor + r.
Proof.
  intros Hdiv. induction 1 as [|x l Hx _ IH]; cbn [BigIntText.divide_magnitude_by_small].
  { exists [], 0. split_and!; [done|constructor|lia|lia|done]. }
  destruct IH as (q & r & -> & Hq & Hr & Hv). cbn [mbind result_bind].
  assert (Z.shiftl r LIMB_BITS mod 2 ^ 64 = r * 2 ^ 32) as ->.
  { unfold LIMB_BITS. rewrite Z.shiftl_mul_pow2 by lia. apply Z.mod_small. change (2 ^ 32) with 4294967296. change (2 ^ 64) with 18446744073709551616. lia. }
  rewrite (lor_tag r 32) by (unfold_ints; simpl; lia). change (2 ^ 32) with base.
  set (current := r * base + x). pose proof (Z.div_mod current divisor ltac:(lia)) as Hdm.
  pose proof (Z.mod_pos_bound current divisor ltac:(lia)) as Hm.
  assert (is_u32 (current / divisor)) as Hlimb.
  { assert (0 ≤ current / divisor < base) as Hb; [|rewrite base_eq in Hb; unfold_ints; lia].
    split; [apply Z.div_pos|apply Z.div_lt_upper_bound]; subst current; rewrite ?base_eq; unfold_ints; nia. }
  unfold BigInt.to_limb. rewrite (proj2 (try_u32_Some _ _) (conj eq_refl Hlimb)). cbn [expect ok_or mbind result_bind].
  eexists _, _. split; [done|]. split_and!; [by constructor|lia|lia|]. cbn [unsigned]. rewrite Hv. subst current. nia.
Qed.

Lemma normalize_magnitude_spec l : u32_list l →
  u32_list (BigIntText.normalize_magnitude l) ∧ unsigned (BigIntText.normalize_magnitude l) = unsigned l.
Proof.
  intros Hu. unfold BigIntText.normalize_magnitude.
  assert (∀ r, u32_list (rev r) → u32_list (rev (BigIntText.trim_zeros r)) ∧ unsigned (rev (BigIntText.trim_zeros r)) = unsigned (rev r)) as Hgo.
  { induction r as [|x [|y r] IH]; intros Hr; [done|done|]. cbn [BigIntText.trim_zeros].
    destruct (Z.eqb_spec x 0) as [->|]; [|done]. cbn [rev] in Hr. apply u32_snoc in Hr as [Hr _].
    destruct (IH Hr) as [H1 H2]. split; [exact H1|]. etrans; [exact H2|]. cbn [rev]. rewrite (unsigned_app (rev r ++ [y])). cbn [unsigned]. lia. }
  specialize (Hgo (rev l)). rewrite rev_involutive in Hgo. by apply Hgo.
Qed.

Lemma all_zero l : u32_list l → forallb (λ limb, limb =? 0) l = (unsigned l =? 0).
Proof.
  induction 1 as [|x l Hx Hl IH]; [done|]. cbn [forallb unsigned]. rewrite IH. apply unsigned_bound in Hl.
  rewrite base_eq. unfold_ints. destruct (Z.eqb_spec x 0), (Z.eqb_spec (unsigned l) 0), (Z.eqb_spec (x + 4294967296 * unsigned l) 0); simpl; lia.
Qed.

(** The canonical digits of a positive number, least significant first. *)
Definition canonical (radix m : Z) (ds : list Z) : Prop :=
  Forall (λ d, 0 ≤ d < radix) ds ∧ digits_value radix 0 (rev ds) = m ∧ ∀ d, last ds = Some d → d ≠ 0.

Lemma digits_value_snoc radix k ds d : digits_value radix k (ds ++ [d]) = digits_value radix k ds * radix + d.
Proof. unfold digits_value. by rewrite foldl_snoc. Qed.

Lemma digits_loop_spec radix : 2 ≤ radix ≤ 36 → ∀ fuel l, u32_list l → unsigned l < 2 ^ Z.of_nat fuel → ∃ ds,
  BigIntText.digits_loop (S fuel) l radix = Ok (BigIntText.digit_char <$> ds) ∧ canonical radix (unsigned l) ds.
Proof.
  intros Hr. induction fuel as [|fuel IH]; intros l Hu Hlt; pose proof (unsigned_bound l Hu) as Hb.
  { exists []. simpl in Hlt. assert (unsigned l = 0) as E by lia. cbn [BigIntText.digits_loop]. rewrite all_zero, E by done.
    split; [done|]. split_and!; [constructor|done|done]. }
  remember (S fuel) as fuel' eqn:Ef. cbn [BigIntText.digits_loop]. rewrite all_zero by done.
  destruct (Z.eqb_spec (unsigned l) 0) as [E|Hne]; [exists []; rewrite E; split; [done|]; split_and!; [constructor|done|done]|].
  destruct (divide_small_spec radix l Hr Hu) as (q & r & -> & Hq & Hrr & Hv). cbn [mbind result_bind].
  destruct (normalize_magnitude_spec q Hq) as [Hun Hnv]. pose proof (unsigned_bound q Hq) as Hqb. subst fuel'.
  destruct (IH (BigIntText.normalize_magnitude q) Hun) as (ds & -> & Hds & Hdv & Hlast).
  { rewrite Hnv. rewrite Nat2Z.inj_succ, Z.pow_succ_r in Hlt by lia. nia. }
  cbn [mbind result_bind]. rewrite (proj2 (try_u32_Some r r)) by (split; [done|unfold_ints; lia]).
  exists (r :: ds). split; [done|]. rewrite Hnv in Hdv. split; [|split].
  - by constructor.
  - cbn [rev]. rewrite digits_value_snoc, Hdv. lia.
  - intros d Hd. rewrite last_cons in Hd. destruct (last ds) as [d'|] eqn:El; [injection Hd as <-; by apply Hlast|].
    injection Hd as <-. apply last_None in El as ->. cbn in Hdv. lia.
Qed.

Lemma digit_char_roundtrip radix d : 0 ≤ d < radix → radix ≤ 36 →
  BigIntText.to_digit (BigIntText.digit_char d) radix = Some d.
Proof.
  intros Hd Hr. unfold BigIntText.digit_char, BigIntText.from_digit, BigIntText.to_digit.
  destruct (Z.ltb_spec d 10); cbn [from_option id].
  - destruct (Z.leb_spec 48 (48 + d)), (Z.leb_spec (48 + d) 57); try lia. cbn [andb].
    destruct (Z.ltb_spec (48 + d - 48) radix); [|lia]. f_equal. lia.
  - destruct (Z.ltb_spec d 36); [|lia]. cbn [from_option id]. set (c := 97 + (d - 10)).
    destruct (Z.leb_spec c 57); [lia|]. rewrite andb_false_r.
    destruct (Z.leb_spec 97 c), (Z.leb_spec c 122); try lia. cbn [andb].
    destruct (Z.ltb_spec (c - 97 + 10) radix); [|lia]. f_equal. lia.
Qed.

Lemma spells_digit_chars radix ds : radix ≤ 36 → Forall (λ d, 0 ≤ d < radix) ds →
  spells radix (BigIntText.digit_char <$> ds) ds.
Proof. intros Hr. induction 1 as [|d ds Hd _ IH]; constructor; [by apply digit_char_roundtrip|done]. Qed.

(** The lower-case character of a digit. *)
Definition es_lower_digit (d : Z) : Z := if d <=? 9 then 48 + d else 97 + (d - 10).

Lemma digit_char_lower radix ds : radix ≤ 36 → Forall (λ d, 0 ≤ d < radix) ds →
  BigIntText.digit_char <$> ds = es_lower_digit <$> ds.
Proof.
  intros Hr. induction 1 as [|d ds Hd _ IH]; [done|]. rewrite !fmap_cons, IH. f_equal.
  unfold BigIntText.digit_char, BigIntText.from_digit, es_lower_digit.
  destruct (Z.ltb_spec d 10), (Z.leb_spec d 9); simpl; try lia. by destruct (Z.ltb_spec d 36); [|lia].
Qed.

(** The canonical spelling of [z]: a sign for negatives, no leading zero. *)
Definition canonical_text (radix z : Z) (text : list Z) : Prop :=
  ∃ ds, text = (if z <? 0 then [45] else []) ++ (es_lower_digit <$> ds)
  ∧ ds ≠ [] ∧ Forall (λ d, 0 ≤ d < radix) ds ∧ digits_value radix 0 ds = Z.abs z
  ∧ (∀ d, head ds = Some d → d = 0 → ds = [0]).

Section printing.
Context `{Allocator}.

Lemma to_string_radix_spec b z radix : repr b z → 2 ≤ radix ≤ 36 →
  match BigIntText.to_string_radix b radix with
  | Ok text => canonical_text radix z text ∧ fits (Z.abs z)
  | Err (Fail e) => e = AllocationFailed ∧ refuses ∨ e = TooLarge ∧ ¬ fits (Z.abs z)
  | Err _ => False
  end.
Proof.
  intros Hb Hr. unfold BigIntText.to_string_radix. destruct (Z.leb_spec 2 radix), (Z.leb_spec radix 36); try lia. cbn [andb negb].
  rewrite (repr_is_zero _ _ Hb), (repr_negative _ _ Hb). destruct (Z.eqb_spec z 0) as [->|Hne].
  { split; [|apply fits_zero]. exists [0]. split_and!; [done|done|repeat constructor; lia|done|by intros]. }
  cbv zeta. unfold BigInt.magnitude. pose proof (gives_abs b z Hb) as Hg.
  destruct (BigInt.abs b) as [v|[e| |]]; cbn [gives mbind result_bind] in *; [|exact Hg|done|done].
  destruct (normalize_magnitude_spec (limbs v) (repr_limbs _ _ Hg)) as [Hu Hv].
  rewrite (repr_unsigned _ _ Hg) in Hv by lia. set (l := BigIntText.normalize_magnitude (limbs v)) in *.
  destruct (digits_loop_spec radix Hr (32 * length l) l Hu) as (ds & -> & Hds & Hdv & Hlast).
  { pose proof (unsigned_bound l Hu) as Hbound. rewrite weight_pow in Hbound.
    replace (Z.of_nat (32 * length l)) with (32 * Z.of_nat (length l)) by lia. apply Hbound. }
  cbn [mbind result_bind]. unfold Prelude.reserve, reject_if.
  destruct (try_reserve _ _ _) eqn:E; cbn [negb lift map_err mbind result_bind]; [|left; split; [done|by eexists _, _, _]].
  split; [|by eapply repr_fits]. exists (rev ds). split_and!.
  - rewrite (digit_char_lower radix ds) by (lia || done). f_equal. symmetry. apply map_rev.
  - intros E0. rewrite E0 in Hdv. cbn in Hdv. lia.
  - rewrite rev_reverse. by apply Forall_reverse.
  - by rewrite Hdv.
  - intros d Hd ->. rewrite rev_reverse, head_reverse in Hd. by destruct (Hlast 0 Hd).
Qed.

Lemma canonical_accepted radix z text : 2 ≤ radix ≤ 36 → canonical_text radix z text → accepted radix text z.
Proof.
  intros Hr (ds & -> & Hne & Hds & Hv & _).
  assert (z = if z <? 0 then - digits_value radix 0 ds else digits_value radix 0 ds) as Ez
    by (rewrite Hv; destruct (Z.ltb_spec z 0); lia).
  rewrite Ez at 2. rewrite <- (digit_char_lower radix ds) by (lia || done).
  rewrite <- (app_nil_l (_ ++ _)), <- (app_nil_r (BigIntText.digit_char <$> ds)).
  apply accepted_signed; [constructor| | |apply spells_digit_chars; [lia|done]].
  - destruct (z <? 0); [by right|left; auto].
  - by destruct ds.
Qed.
End printing.

(** C34. Big integers print and parse exactly, at every radix from 2 to 36.
    [to_string_radix] gives the canonical spelling (lower-case digits, no
    leading zero, a sign for negatives) and fails only when the magnitude does
    not fit.  [from_str_radix], on a text without U+0085, returns a value exactly
    when the text is a literal of the grammar, stated with ECMAScript's own
    whitespace, digits and prefixes; it refuses as malformed no literal and
    as too large only literals whose magnitude does not fit.  Parsing a printed
    value gives it back. *)
Theorem bigint_text_exact `{Allocator} radix : 2 ≤ radix ≤ 36 →
  (∀ text, Forall (λ c, c ≠ 0x85) text → parses (BigIntText.from_str_radix text radix) (literal radix text))
  ∧ ∀ b z, repr b z → match BigIntText.to_string_radix b radix with
    | Ok text => canonical_text radix z text
        ∧ (BigIntText.from_str_radix text radix = Ok b
           ∨ BigIntText.from_str_radix text radix = Err (Fail AllocationFailed) ∧ refuses)
    | Err (Fail e) => e = AllocationFailed ∧ refuses ∨ e = TooLarge ∧ ¬ fits (Z.abs z)
    | Err _ => False
    end.
Proof.
  intros Hr. split.
  { intros text Hn. eapply parses_mono; [intros z; apply accepted_literal; [lia|exact Hn]|].
    by apply from_str_radix_spec. } intros b z Hb.
  pose proof (to_string_radix_spec b z radix Hb Hr) as Hp.
  destruct (BigIntText.to_string_radix b radix) as [text|f]; [|exact Hp]. destruct Hp as [Hc Hf]. split; [exact Hc|].
  pose proof (canonical_accepted radix z text Hr Hc) as Hl. pose proof (from_str_radix_spec text radix Hr) as Hs.
  destruct (BigIntText.from_str_radix text radix) as [b'|[[]| |]]; cbn [parses] in Hs; try (exfalso; exact Hs).
  - destruct Hs as (z' & Hl' & Hb'). left. rewrite (accepted_inj _ _ _ _ Hl' Hl) in Hb'. by rewrite (repr_inj _ _ _ Hb Hb').
  - destruct (Hs z Hl Hf).
  - by right.
  - destruct (Hs z Hl).
Qed.

(** 2^32 - 1 prints as [4294967295], and [-zz] is -1295 at radix 36. *)
Lemma bigint_text_exact_witness :
  canonical_text 10 4294967295 (ascii_chars "4294967295")
  ∧ parses (H := always_allocates) (@BigIntText.from_str_radix always_allocates (ascii_chars " -ZZ") 36) (literal 36 (ascii_chars " -ZZ"))
  ∧ @BigIntText.from_str_radix always_allocates (ascii_chars " -ZZ") 36 = Ok (BigInt.from_i32 (-1295)).
Proof.
  split_and!.
  - destruct (@bigint_text_exact always_allocates 10) as [_ Hprint]; [lia|].
    specialize (Hprint (mkBigInt [4294967295; 0]) 4294967295).
    assert (@BigIntText.to_string_radix always_allocates (mkBigInt [4294967295; 0]) 10 = Ok (ascii_chars "4294967295")) as E by (vm_compute; reflexivity).
    rewrite E in Hprint. apply Hprint.
    constructor; [repeat apply Forall_cons_2; try apply Forall_nil_2; solve_ints|reflexivity|vm_compute; discriminate|reflexivity].
  - destruct (@bigint_text_exact always_allocates 36) as [Hparse _]; [lia|]. apply (Hparse (ascii_chars " -ZZ")).
    repeat apply Forall_cons_2; (discriminate || apply Forall_nil_2).
  - vm_compute. reflexivity.
Defined.

(** U+0085 is no whitespace of the grammar, but the code skips it. *)
Lemma next_line_parses : ¬ es_whitespace 0x85 ∧ @BigIntText.from_str_radix always_allocates [0x85] 10 = Ok BigInt.zero.
Proof.
  split; [|reflexivity]. unfold es_whitespace. rewrite !elem_of_cons, !elem_of_nil. lia.
Qed.
