(* ===== verification/Values.v ===== *)
(** * JavaScript values and their equalities

    Models the value part of [crates/fusor-runtime/src/number.rs] (the integer
    fast path and the equalities of Numbers), the equalities of
    [value.rs] and the atoms and property keys of [atom.rs] as far as identity
    goes.  A binary64 is its bit pattern; the operations of the language on it
    that the source uses (comparison, tests, conversion from and to small
    integers) are the definitions of the first section.  Arithmetic on
    binary64 and its formatting are not modelled. *)

From S2P Require Import Prelude RuntimePrelude JsStrings JsStringFacts ArrayIndex Arena BigInt.
From stdpp Require Import list.
Local Open Scope Z_scope.

(** ** Binary64 *)

(** A binary64, as its bits. *)
Notation f64 := Z (only parsing).

Module F64.
Definition SIGN : Z := 2 ^ 63.
Definition INFINITY : Z := 0x7ff0000000000000.
(** [f64::NAN.to_bits()] *)
Definition NAN : Z := 0x7ff8000000000000.

Definition magnitude (bits : f64) : Z := bits mod 2 ^ 63.
Definition is_sign_negative (bits : f64) : bool := SIGN <=? bits.
Definition is_nan (bits : f64) : bool := INFINITY <? magnitude bits.

(** The finite and infinite patterns are ordered as sign and magnitude. *)
Definition order_key (bits : f64) : Z := if is_sign_negative bits then - magnitude bits else magnitude bits.

(** [==], [<=] and [<] *)
Definition eq (a b : f64) : bool := negb (is_nan a) && negb (is_nan b) && (order_key a =? order_key b).
Definition le (a b : f64) : bool := negb (is_nan a) && negb (is_nan b) && (order_key a <=? order_key b).

(** [f64::from] of an integer of at most 53 bits, which is exact. *)
Definition from_int (value : Z) : f64 :=
  if value =? 0 then 0 else
  let m := Z.abs value in
  let e := Z.log2 m in
  (if value <? 0 then SIGN else 0) + Z.shiftl (e + 1023) 52 + (Z.shiftl m (52 - e) - 2 ^ 52).

(** The integer part of a finite pattern. *)
Definition trunc_to_int (bits : f64) : Z :=
  let e := Z.shiftr (magnitude bits) 52 in
  let fraction := magnitude bits mod 2 ^ 52 in
  let '(significand, exponent) := if e =? 0 then (fraction, -1074) else (fraction + 2 ^ 52, e - 1075) in
  let m := if 0 <=? exponent then Z.shiftl significand exponent else Z.shiftr significand (- exponent) in
  if is_sign_negative bits then - m else m.

(** [value as i32] and [value as u32]: toward zero, saturating, NaN to zero. *)
Definition saturate (low high : Z) (bits : f64) : Z :=
  if is_nan bits then 0 else
  if magnitude bits =? INFINITY then (if is_sign_negative bits then low else high) else
  Z.max low (Z.min high (trunc_to_int bits)).
Definition as_i32 (bits : f64) : Z := saturate (- 2 ^ 31) (2 ^ 31 - 1) bits.
Definition as_u32 (bits : f64) : Z := saturate 0 u32_max bits.
End F64.

(** ** Numbers *)

Module NumberRepr.
Inductive NumberRepr : Set :=
| Int (value : Z)
| Float (value : f64).
End NumberRepr.
Import NumberRepr(NumberRepr).

Notation JsNumber := NumberRepr (only parsing).

Module JsNumber.
Definition as_f64 (self : JsNumber) : f64 :=
  match self with
  | NumberRepr.Int value => F64.from_int value
  | NumberRepr.Float value => value
  end.

Definition from_f64 (value : f64) : JsNumber :=
  if F64.le (F64.from_int (- 2 ^ 31)) value && F64.le value (F64.from_int (2 ^ 31 - 1)) then
    let integer := F64.as_i32 value in
    if value =? F64.from_int integer then NumberRepr.Int integer else NumberRepr.Float value
  else NumberRepr.Float value.

Definition from_i32 (value : Z) : JsNumber := NumberRepr.Int value.

(** [i32::try_from(value)] *)
Definition from_u32 (value : Z) : JsNumber :=
  if value <=? 2 ^ 31 - 1 then NumberRepr.Int value else NumberRepr.Float (F64.from_int value).

Definition strict_equals (self other : JsNumber) : bool := F64.eq (as_f64 self) (as_f64 other).

Definition same_value (self other : JsNumber) : bool :=
  let left_ := as_f64 self in
  let right_ := as_f64 other in
  if F64.is_nan left_ then F64.is_nan right_ else
  if F64.eq left_ 0 && F64.eq right_ 0 then left_ =? right_ else
  F64.eq left_ right_.

Definition same_value_zero (self other : JsNumber) : bool :=
  let left_ := as_f64 self in
  let right_ := as_f64 other in
  F64.eq left_ right_ || F64.is_nan left_ && F64.is_nan right_.
End JsNumber.

(** [array_length_from_number] of runtime.rs *)
Definition array_length_from_number (value : JsNumber) : option Z :=
  let value := JsNumber.as_f64 value in
  if negb (F64.le 0 value && F64.le value (F64.from_int u32_max)) then None else
  let length := F64.as_u32 value in
  if F64.eq (F64.from_int length) value then Some length else None.

(** ** Atoms and keys *)

Module AtomKind.
Inductive AtomKind : Set :=
| String
| GlobalSymbol
| Symbol
| Private.
End AtomKind.
Import AtomKind(AtomKind).

(** A handle to an atom entry: the allocation it points to, and the fields of
    the entry that the modelled code reads.  [predefined] is the ordinal. *)
Record Atom : Set := mkAtom {
  address : Z;
  kind : AtomKind;
  predefined_atom : option Z
}.

(** [PredefinedAtom::Length] *)
Definition LENGTH_ATOM : Z := 50.

(** [Arc::ptr_eq] *)
Definition is_same_identity (self other : Atom) : bool := address self =? address other.

Notation AtomHandle := Atom (only parsing).

Module PropertyKey.
Inductive PropertyKey : Set :=
| Index (index : ArrayIndex)
| Atom (atom : Atom).

Definition as_index (self : PropertyKey) : option ArrayIndex :=
  match self with Index index => Some index | Atom _ => None end.
Definition as_atom (self : PropertyKey) : option AtomHandle :=
  match self with Index _ => None | Atom atom => Some atom end.

(** The derived [==]: indices by value, atoms by identity. *)
Definition eq (self other : PropertyKey) : bool :=
  match self, other with
  | Index a, Index b => get a =? get b
  | Atom a, Atom b => is_same_identity a b
  | _, _ => false
  end.
End PropertyKey.
Import PropertyKey(PropertyKey).

(** ** Stored values *)

Notation FunctionId := Id (only parsing).
Notation ObjectId := Id (only parsing).

Module StoredValue.
Inductive StoredValue : Set :=
| Undefined
| Null
| Boolean (value : bool)
| Number (value : JsNumber)
| BigInt (value : JsBigInt)
| String (value : Repr)
| Symbol (value : AtomHandle)
| Function (value : FunctionId)
| Object (value : ObjectId).

(** [==] of strings compares their code units ([string_eq_code] below). *)
Definition string_eq (left_ right_ : Repr) : bool := bool_decide (units left_ = units right_).

Definition strict_equals (self other : StoredValue) : bool :=
  match self, other with
  | Undefined, Undefined | Null, Null => true
  | Boolean left_, Boolean right_ => Bool.eqb left_ right_
  | Number left_, Number right_ => JsNumber.strict_equals left_ right_
  | BigInt left_, BigInt right_ => bool_decide (left_ = right_)
  | String left_, String right_ => string_eq left_ right_
  | Symbol left_, Symbol right_ => is_same_identity left_ right_
  | Function left_, Function right_ => bool_decide (left_ = right_)
  | Object left_, Object right_ => bool_decide (left_ = right_)
  | _, _ => false
  end.

Definition same_value (self other : StoredValue) : bool :=
  match self, other with
  | Number left_, Number right_ => JsNumber.same_value left_ right_
  | _, _ => strict_equals self other
  end.

Definition same_value_zero (self other : StoredValue) : bool :=
  match self, other with
  | Number left_, Number right_ => JsNumber.same_value_zero left_ right_
  | _, _ => strict_equals self other
  end.
End StoredValue.
Import StoredValue(StoredValue).

(** The code's comparison of strings is that of their units. *)
Lemma string_eq_code ptr_eq s t : wf s → wf t → shallow s → shallow t → (ptr_eq = true → s = t) →
  JsString.eq (E := Empty_set) ptr_eq s t = Ok (StoredValue.string_eq s t).
Proof. intros. by apply eq_units. Qed.
