(* ===== verification/ValueFacts.v ===== *)
(** * Facts about values

    The binary64 patterns of integers, the integer fast path of Numbers, and
    what the equalities of values decide. *)

From S2P Require Import Prelude RuntimePrelude JsStrings JsStringFacts ArrayIndex Arena BigInt Values.
From stdpp Require Import list.
Local Open Scope Z_scope.

Import NumberRepr(NumberRepr) StoredValue(StoredValue) PropertyKey(PropertyKey).

(** ** Patterns *)

Definition is_f64 (bits : Z) : Prop := is_u64 bits.

Lemma magnitude_bound bits : 0 ≤ F64.magnitude bits < 2 ^ 63.
Proof. apply Z.mod_pos_bound. done. Qed.

Lemma f64_split bits : is_f64 bits → bits = (if F64.is_sign_negative bits then F64.SIGN else 0) + F64.magnitude bits.
Proof.
  intros Hb. unfold is_f64 in Hb. unfold_ints. unfold F64.is_sign_negative, F64.magnitude, F64.SIGN.
  change (2 ^ 63) with 9223372036854775808. destruct (Z.leb_spec 9223372036854775808 bits).
  - assert (bits mod 9223372036854775808 = bits - 9223372036854775808) as ->; [|lia].
    symmetry. apply Z.mod_unique_pos with 1; lia.
  - rewrite Z.mod_small; lia.
Qed.

(** Two patterns compare equal when they are the same or both zero. *)
Lemma f64_eq_spec a b : is_f64 a → is_f64 b →
  F64.eq a b = true ↔ F64.is_nan a = false ∧ F64.is_nan b = false
    ∧ (a = b ∨ F64.magnitude a = 0 ∧ F64.magnitude b = 0).
Proof.
  intros Ha Hb. unfold F64.eq. rewrite !andb_true_iff, !negb_true_iff, Z.eqb_eq. unfold F64.order_key.
  pose proof (f64_split a Ha). pose proof (f64_split b Hb).
  pose proof (magnitude_bound a). pose proof (magnitude_bound b).
  destruct (F64.is_sign_negative a), (F64.is_sign_negative b); unfold F64.SIGN in *; change (2 ^ 63) with 9223372036854775808 in *.
  all: split; [intros [[Hna Hnb] Hk]|intros (Hna & Hnb & Hk)]; (split_and!; [exact Hna|exact Hnb|lia]).
Qed.

(** ** Integers *)

Definition small (z : Z) : Prop := - 2 ^ 53 < z < 2 ^ 53.

(** The magnitude of the pattern of a positive integer. *)
Definition int_magnitude (m : Z) : Z := (Z.log2 m + 1023) * 2 ^ 52 + (m * 2 ^ (52 - Z.log2 m) - 2 ^ 52).

Lemma int_scaled m : 0 < m < 2 ^ 53 →
  0 ≤ Z.log2 m ≤ 52 ∧ 2 ^ 52 ≤ m * 2 ^ (52 - Z.log2 m) < 2 ^ 53 ∧ 0 < 2 ^ (52 - Z.log2 m).
Proof.
  intros Hm. pose proof (Z.log2_nonneg m). pose proof (Z.log2_spec m ltac:(lia)) as [Hlo Hhi].
  assert (Z.log2 m < 53) by (apply Z.log2_lt_pow2; lia).
  assert (0 < 2 ^ (52 - Z.log2 m)) as Hp by (apply Z.pow_pos_nonneg; lia). split_and!; try lia.
  - assert (2 ^ Z.log2 m * 2 ^ (52 - Z.log2 m) = 2 ^ 52) as <- by (rewrite <- Z.pow_add_r by lia; f_equal; lia). nia.
  - assert (2 ^ (Z.succ (Z.log2 m)) * 2 ^ (52 - Z.log2 m) = 2 ^ 53) as <- by (rewrite <- Z.pow_add_r by lia; f_equal; lia). nia.
Qed.

Lemma from_int_eq z : z ≠ 0 → small z →
  F64.from_int z = (if z <? 0 then F64.SIGN else 0) + int_magnitude (Z.abs z).
Proof.
  intros Hz Hs. unfold F64.from_int, small in *. destruct (Z.eqb_spec z 0); [done|].
  destruct (int_scaled (Z.abs z)) as (He & _ & _); [lia|]. unfold int_magnitude.
  rewrite !Z.shiftl_mul_pow2 by lia. lia.
Qed.

Lemma int_magnitude_bound m : 0 < m < 2 ^ 53 → 0 < int_magnitude m < F64.INFINITY.
Proof.
  intros Hm. destruct (int_scaled m Hm) as (He & Hs & _). unfold int_magnitude, F64.INFINITY.
  change (2 ^ 52) with 4503599627370496 in *. change (2 ^ 53) with 9007199254740992 in *. lia.
Qed.

Lemma int_magnitude_mono m m' : 0 < m < 2 ^ 53 → 0 < m' < 2 ^ 53 → m < m' → int_magnitude m < int_magnitude m'.
Proof.
  intros Hm Hm' Hlt. destruct (int_scaled m Hm) as (He & Hs & Hp), (int_scaled m' Hm') as (He' & Hs' & Hp').
  assert (Z.log2 m ≤ Z.log2 m') as Hle by (apply Z.log2_le_mono; lia). unfold int_magnitude.
  change (2 ^ 53) with (2 * 2 ^ 52) in *. change (2 ^ 52) with 4503599627370496 in *.
  destruct (decide (Z.log2 m = Z.log2 m')) as [E|]; [rewrite E in *; nia|]. nia.
Qed.

Lemma from_int_magnitude z : small z → F64.magnitude (F64.from_int z) = if z =? 0 then 0 else int_magnitude (Z.abs z).
Proof.
  intros Hs. destruct (Z.eqb_spec z 0) as [->|Hz]; [done|]. rewrite from_int_eq by done. unfold F64.magnitude, F64.SIGN.
  pose proof (int_magnitude_bound (Z.abs z) ltac:(unfold small in Hs; lia)) as Hb. unfold F64.INFINITY in Hb.
  change (2 ^ 63) with 9223372036854775808. destruct (z <? 0).
  - symmetry. apply Z.mod_unique_pos with 1; lia.
  - apply Z.mod_small. lia.
Qed.

Lemma from_int_sign z : small z → F64.is_sign_negative (F64.from_int z) = (z <? 0).
Proof.
  intros Hs. destruct (decide (z = 0)) as [->|Hz]; [done|]. rewrite from_int_eq by done. unfold F64.is_sign_negative, F64.SIGN.
  pose proof (int_magnitude_bound (Z.abs z) ltac:(unfold small in Hs; lia)) as Hb. unfold F64.INFINITY in Hb.
  change (2 ^ 63) with 9223372036854775808. destruct (z <? 0), (Z.leb_spec 9223372036854775808 (9223372036854775808 + int_magnitude (Z.abs z))),
    (Z.leb_spec 9223372036854775808 (0 + int_magnitude (Z.abs z))); lia || done.
Qed.

Lemma from_int_f64 z : small z → is_f64 (F64.from_int z) ∧ F64.is_nan (F64.from_int z) = false.
Proof.
  intros Hs. split.
  - destruct (decide (z = 0)) as [->|Hz]; [unfold is_f64; cbn; solve_ints|]. rewrite from_int_eq by done.
    pose proof (int_magnitude_bound (Z.abs z) ltac:(unfold small in Hs; lia)) as Hb. unfold F64.INFINITY, F64.SIGN, is_f64 in *.
    unfold_ints. change (2 ^ 63) with 9223372036854775808. destruct (z <? 0); lia.
  - unfold F64.is_nan. rewrite from_int_magnitude by done. destruct (Z.eqb_spec z 0); [done|].
    pose proof (int_magnitude_bound (Z.abs z) ltac:(unfold small in Hs; lia)). apply Z.ltb_ge. lia.
Qed.

(** The pattern of an integer is ordered as the integer. *)
Lemma from_int_key z z' : small z → small z' → z < z' → F64.order_key (F64.from_int z) < F64.order_key (F64.from_int z').
Proof.
  intros Hs Hs' Hlt. unfold F64.order_key. rewrite !from_int_sign, !from_int_magnitude by done.
  pose proof (λ H, int_magnitude_bound (Z.abs z) H) as Hb. pose proof (λ H, int_magnitude_bound (Z.abs z') H) as Hb'.
  unfold small in *. destruct (Z.ltb_spec z 0), (Z.ltb_spec z' 0), (Z.eqb_spec z 0), (Z.eqb_spec z' 0); try lia.
  - pose proof (int_magnitude_mono (Z.abs z') (Z.abs z) ltac:(lia) ltac:(lia) ltac:(lia)). lia.
  - pose proof (int_magnitude_mono (Z.abs z) (Z.abs z') ltac:(lia) ltac:(lia) ltac:(lia)). lia.
Qed.

Lemma from_int_le z z' : small z → small z' → F64.le (F64.from_int z) (F64.from_int z') = (z <=? z').
Proof.
  intros Hs Hs'. unfold F64.le. rewrite (proj2 (from_int_f64 z Hs)), (proj2 (from_int_f64 z' Hs')). cbn [negb andb].
  destruct (Z.leb_spec z z') as [Hle|Hgt].
  - apply Z.leb_le. destruct (decide (z = z')) as [->|]; [done|]. pose proof (from_int_key z z' Hs Hs' ltac:(lia)). lia.
  - apply Z.leb_gt. by apply from_int_key.
Qed.

Lemma from_int_inj z z' : small z → small z' → F64.from_int z = F64.from_int z' → z = z'.
Proof.
  intros Hs Hs' E. destruct (Z.lt_trichotomy z z') as [Hlt|[->|Hgt]]; [|done|].
  - pose proof (from_int_key z z' Hs Hs' Hlt). rewrite E in *. lia.
  - pose proof (from_int_key z' z Hs' Hs Hgt). rewrite E in *. lia.
Qed.

Lemma trunc_from_int z : small z → F64.trunc_to_int (F64.from_int z) = z.
Proof.
  intros Hs. destruct (decide (z = 0)) as [->|Hz]; [done|]. unfold F64.trunc_to_int.
  rewrite from_int_magnitude, from_int_sign by done. destruct (Z.eqb_spec z 0); [done|].
  assert (0 < Z.abs z < 2 ^ 53) as Hm by (unfold small in Hs; lia). destruct (int_scaled _ Hm) as (He & Hsc & Hp).
  set (m := Z.abs z) in *. set (e := Z.log2 m) in *. set (p := 2 ^ (52 - e)) in *.
  assert (int_magnitude m = (e + 1023) * 2 ^ 52 + (m * p - 2 ^ 52)) as -> by done.
  rewrite Z.shiftr_div_pow2 by lia.
  assert (((e + 1023) * 2 ^ 52 + (m * p - 2 ^ 52)) / 2 ^ 52 = e + 1023) as ->.
  { symmetry. apply Z.div_unique_pos with (m * p - 2 ^ 52); change (2 ^ 53) with (2 * 2 ^ 52) in *; lia. }
  assert (((e + 1023) * 2 ^ 52 + (m * p - 2 ^ 52)) mod 2 ^ 52 = m * p - 2 ^ 52) as ->.
  { symmetry. apply Z.mod_unique_pos with (e + 1023); change (2 ^ 53) with (2 * 2 ^ 52) in *; lia. }
  destruct (Z.eqb_spec (e + 1023) 0); [lia|].
  assert ((if 0 <=? e + 1023 - 1075 then Z.shiftl (m * p - 2 ^ 52 + 2 ^ 52) (e + 1023 - 1075)
    else Z.shiftr (m * p - 2 ^ 52 + 2 ^ 52) (- (e + 1023 - 1075))) = m) as ->; [|subst m; destruct (Z.ltb_spec z 0); lia].
  rewrite Z.sub_add. destruct (Z.leb_spec 0 (e + 1023 - 1075)).
  - subst p. replace (52 - e) with 0 by lia. replace (e + 1023 - 1075) with 0 by lia. rewrite Z.shiftl_0_r. lia.
  - rewrite Z.shiftr_div_pow2 by lia. replace (- (e + 1023 - 1075)) with (52 - e) by lia. fold p. apply Z.div_mul. lia.
Qed.

Lemma saturate_from_int low high z : low ≤ 0 ≤ high → small z → low ≤ z ≤ high → F64.saturate low high (F64.from_int z) = z.
Proof.
  intros H0 Hs Hz. unfold F64.saturate. rewrite (proj2 (from_int_f64 z Hs)), from_int_magnitude by done.
  assert ((if z =? 0 then 0 else int_magnitude (Z.abs z)) ≠ F64.INFINITY) as Hne.
  { destruct (Z.eqb_spec z 0); [done|]. pose proof (int_magnitude_bound (Z.abs z) ltac:(unfold small in Hs; lia)). lia. }
  destruct (Z.eqb_spec (if z =? 0 then 0 else int_magnitude (Z.abs z)) F64.INFINITY); [done|]. rewrite trunc_from_int by done. lia.
Qed.

Lemma saturate_bound low high bits : low ≤ 0 ≤ high → low ≤ F64.saturate low high bits ≤ high.
Proof. intros H0. unfold F64.saturate. repeat case_match; lia. Qed.

Lemma i32_small z : is_i32 z → small z.
Proof. unfold small. intros. unfold_ints. change (2 ^ 53) with 9007199254740992. lia. Qed.

Lemma u32_small z : is_u32 z → small z.
Proof. unfold small. intros. unfold_ints. change (2 ^ 53) with 9007199254740992. lia. Qed.

(** ** Numbers *)

(** A number of the representation's invariant. *)
Definition number_ok (n : NumberRepr) : Prop :=
  match n with NumberRepr.Int z => is_i32 z | NumberRepr.Float b => is_f64 b end.

Lemma as_f64_ok n : number_ok n → is_f64 (JsNumber.as_f64 n).
Proof. destruct n; simpl; [intros Hi; by apply from_int_f64, i32_small|done]. Qed.

Lemma from_f64_int bits z : JsNumber.from_f64 bits = NumberRepr.Int z ↔ is_i32 z ∧ bits = F64.from_int z.
Proof.
  unfold JsNumber.from_f64. split.
  - case_match; [|done]. case_match eqn:E; [|done]. intros [= <-]. apply Z.eqb_eq in E. split; [|done].
    pose proof (saturate_bound (- 2 ^ 31) (2 ^ 31 - 1) bits ltac:(lia)). unfold F64.as_i32. unfold_ints. simpl in *. lia.
  - intros [Hi ->]. pose proof (i32_small z Hi) as Hs.
    rewrite !from_int_le by (done || (unfold small; simpl; lia)).
    destruct (Z.leb_spec (- 2 ^ 31) z), (Z.leb_spec z (2 ^ 31 - 1)); unfold_ints; try (simpl in *; lia). cbn [andb].
    unfold F64.as_i32. rewrite saturate_from_int by (done || (simpl; lia)). by rewrite Z.eqb_refl.
Qed.

(** The fast path changes no bit, and is taken by the patterns of 32-bit
    integers only; the other constructors agree with it. *)
Lemma number_fast_path bits : is_f64 bits →
  number_ok (JsNumber.from_f64 bits) ∧ JsNumber.as_f64 (JsNumber.from_f64 bits) = bits
  ∧ ∀ v, is_u32 v → JsNumber.from_f64 (F64.from_int v) = JsNumber.from_u32 v.
Proof.
  intros Hb. split_and!.
  - destruct (JsNumber.from_f64 bits) as [z|b] eqn:E; simpl; [by apply from_f64_int in E as [? _]|].
    unfold JsNumber.from_f64 in E. repeat case_match; simplify_eq; done.
  - destruct (JsNumber.from_f64 bits) as [z|b] eqn:E; simpl; [by apply from_f64_int in E as [_ ->]|].
    unfold JsNumber.from_f64 in E. by repeat case_match; simplify_eq.
  - intros v Hv. unfold JsNumber.from_u32. destruct (Z.leb_spec v (2 ^ 31 - 1)) as [Hle|Hgt].
    + apply from_f64_int. split; [|done]. unfold_ints. simpl in *. lia.
    + destruct (JsNumber.from_f64 (F64.from_int v)) as [z|b] eqn:E.
      * apply from_f64_int in E as [Hz E]. apply from_int_inj in E; [|by apply u32_small|by apply i32_small].
        subst. unfold_ints. simpl in *. lia.
      * unfold JsNumber.from_f64 in E. f_equal. by repeat case_match; simplify_eq.
Qed.

Lemma same_value_spec a b : number_ok a → number_ok b → JsNumber.same_value a b = true ↔
  (F64.is_nan (JsNumber.as_f64 a) = true ∧ F64.is_nan (JsNumber.as_f64 b) = true) ∨ JsNumber.as_f64 a = JsNumber.as_f64 b.
Proof.
  intros Ha%as_f64_ok Hb%as_f64_ok. unfold JsNumber.same_value. set (x := JsNumber.as_f64 a) in *. set (y := JsNumber.as_f64 b) in *.
  destruct (F64.is_nan x) eqn:Enx.
  { split; [by left|]. intros [[_ ?]|E]; [done|]. by rewrite <- E. }
  assert (is_f64 0) as H0 by (unfold is_f64; solve_ints).
  destruct (F64.eq x 0 && F64.eq y 0) eqn:Ez.
  - rewrite Z.eqb_eq. split; [by right|]. by intros [[? _]|?].
  - rewrite f64_eq_spec by done. split.
    + intros (_ & Hny & [E|[Hx Hy]]); [by right|]. exfalso. apply andb_false_iff in Ez.
      assert (F64.eq x 0 = true) by (apply f64_eq_spec; [done|done|auto]).
      assert (F64.eq y 0 = true) by (apply f64_eq_spec; [done|done|auto]). destruct Ez; congruence.
    + intros [[? _]|E]; [done|]. rewrite E in *. auto.
Qed.

Lemma same_value_zero_spec a b : number_ok a → number_ok b → JsNumber.same_value_zero a b = true ↔
  (F64.is_nan (JsNumber.as_f64 a) = true ∧ F64.is_nan (JsNumber.as_f64 b) = true)
  ∨ F64.eq (JsNumber.as_f64 a) (JsNumber.as_f64 b) = true.
Proof. intros _ _. unfold JsNumber.same_value_zero. rewrite orb_true_iff, andb_true_iff. naive_solver. Qed.

(** ** Values *)

Definition value_ok (v : StoredValue) : Prop :=
  match v with StoredValue.Number n => number_ok n | _ => True end.

Lemma same_value_refl v : value_ok v → StoredValue.same_value v v = true.
Proof.
  destruct v as [| |b|n|b|s|a|f|o]; simpl; intros Hv; try done; try (by rewrite bool_decide_eq_true_2).
  - by destruct b.
  - apply same_value_spec; auto.
  - unfold StoredValue.string_eq. by rewrite bool_decide_eq_true_2.
  - apply Z.eqb_refl.
Qed.

Lemma same_value_sym v w : value_ok v → value_ok w → StoredValue.same_value v w = StoredValue.same_value w v.
Proof.
  intros Hv Hw. apply eq_bool_prop_intro. rewrite !Is_true_true.
  destruct v as [| |b|n|b|s|a|f|o], w as [| |b'|n'|b'|s'|a'|f'|o']; simpl in *; try done.
  - by destruct b, b'.
  - rewrite !same_value_spec by done. naive_solver.
  - by rewrite !bool_decide_eq_true.
  - unfold StoredValue.string_eq. by rewrite !bool_decide_eq_true.
  - unfold is_same_identity. by rewrite !Z.eqb_eq.
  - by rewrite !bool_decide_eq_true.
  - by rewrite !bool_decide_eq_true.
Qed.

(** A length is accepted when the number is one. *)
Lemma array_length_spec n length : number_ok n → array_length_from_number n = Some length ↔
  is_u32 length ∧ F64.eq (F64.from_int length) (JsNumber.as_f64 n) = true.
Proof.
  intros Hn%as_f64_ok. unfold array_length_from_number. set (x := JsNumber.as_f64 n) in *. split.
  - case_match; [done|]. case_match eqn:E; [|done]. intros [= <-]. split; [|done].
    pose proof (saturate_bound 0 u32_max x ltac:(unfold u32_max; lia)). unfold F64.as_u32. unfold_ints. unfold u32_max in *. lia.
  - intros [Hl E]. pose proof (u32_small _ Hl) as Hs. destruct (from_int_f64 _ Hs) as [Hf Hnan].
    assert (F64.is_nan x = false ∧ (x = F64.from_int length ∨ length = 0 ∧ F64.magnitude x = 0)) as [Hnx Hx].
    { apply f64_eq_spec in E as (_ & Hnx & E); [|done|done]. split; [done|]. destruct E as [->|[E1 E2]]; [by left|].
      rewrite from_int_magnitude in E1 by done. right. split; [|done]. destruct (Z.eqb_spec length 0); [done|].
      pose proof (int_magnitude_bound (Z.abs length) ltac:(unfold small in Hs; lia)). lia. }
    assert (F64.le 0 x = true ∧ F64.le x (F64.from_int u32_max) = true ∧ F64.as_u32 x = length) as (-> & -> & ->).
    { destruct Hx as [->|[-> Hm]].
      - change 0 with (F64.from_int 0). rewrite !from_int_le by (done || (unfold small; simpl; lia)).
        unfold F64.as_u32. rewrite saturate_from_int by (done || (unfold_ints; unfold u32_max; lia)).
        unfold_ints. unfold u32_max. split_and!; [apply Z.leb_le; lia|apply Z.leb_le; lia|done].
      - assert (F64.order_key x = 0) as Hk by (unfold F64.order_key; rewrite Hm; by destruct (F64.is_sign_negative x)).
        unfold F64.le. rewrite Hnx, Hk. split_and!; [done|done|]. unfold F64.as_u32, F64.saturate. rewrite Hnx, Hm.
        unfold F64.trunc_to_int. rewrite Hm. by destruct (F64.is_sign_negative x). }
    cbn [negb andb]. by rewrite E.
Qed.
