(* ===== verification/Descriptors.v ===== *)
(** * Property descriptors

    Models [crates/fusor-runtime/src/property.rs] (layouts, structural
    descriptors and their completion), [define_property.rs]
    (ValidateAndApplyPropertyDescriptor over runtime slots), [OwnProperty] of
    [object.rs], and the reading of collected fields in
    [vm/define_property_intrinsics.rs].  The second half states the algorithm
    of the language specification and proves the code equivalent to it. *)

From S2P Require Import Prelude RuntimePrelude JsStrings Arena Values ValueFacts.
From stdpp Require Import list.
Local Open Scope Z_scope.

Import NumberRepr(NumberRepr) StoredValue(StoredValue) PropertyKey(PropertyKey).

(** ** Layouts *)

Inductive PropertyLayoutKind : Set := DataKind | AccessorKind.

Inductive PropertyLayout : Set :=
| DataLayout (writable enumerable configurable : bool)
| AccessorLayout (enumerable configurable : bool).

#[export] Instance PropertyLayout_eq_dec : EqDecision PropertyLayout.
Proof. solve_decision. Defined.

Module PropertyLayout.
Definition data (writable enumerable configurable : bool) := DataLayout writable enumerable configurable.
Definition accessor (enumerable configurable : bool) := AccessorLayout enumerable configurable.

Definition kind (self : PropertyLayout) : PropertyLayoutKind :=
  match self with DataLayout _ _ _ => DataKind | AccessorLayout _ _ => AccessorKind end.
Definition writable (self : PropertyLayout) : option bool :=
  match self with DataLayout w _ _ => Some w | AccessorLayout _ _ => None end.
Definition is_enumerable (self : PropertyLayout) : bool :=
  match self with DataLayout _ e _ | AccessorLayout e _ => e end.
Definition is_configurable (self : PropertyLayout) : bool :=
  match self with DataLayout _ _ c | AccessorLayout _ c => c end.
Definition sealed (self : PropertyLayout) : PropertyLayout :=
  match self with DataLayout w e _ => data w e false | AccessorLayout e _ => accessor e false end.
Definition frozen (self : PropertyLayout) : PropertyLayout :=
  match self with DataLayout _ e _ => data false e false | AccessorLayout e _ => accessor e false end.
End PropertyLayout.

(** ** Structural descriptors *)

Record DescriptorFields (V : Type) : Type := mkFields {
  field_value : option V;
  field_writable : option bool;
  field_get : option V;
  field_set : option V;
  field_enumerable : option bool;
  field_configurable : option bool
}.
Arguments mkFields {V}.
Arguments field_value {V} d.
Arguments field_writable {V} d.
Arguments field_get {V} d.
Arguments field_set {V} d.
Arguments field_enumerable {V} d.
Arguments field_configurable {V} d.

Inductive PropertyDescriptorKind : Set := Generic | Data | Accessor.

Inductive PropertyDescriptorError : Set :=
| MixedDataAndAccessorFields (has_value has_writable has_get has_set : bool).

Inductive PropertyDescriptor (V : Type) : Type :=
| GenericDescriptor (enumerable configurable : option bool)
| DataDescriptor (value : option V) (writable enumerable configurable : option bool)
| AccessorDescriptor (get set : option V) (enumerable configurable : option bool).
Arguments GenericDescriptor {V}.
Arguments DataDescriptor {V}.
Arguments AccessorDescriptor {V}.

Inductive CompletedPropertyDescriptor (V : Type) : Type :=
| CompletedData (value : V) (writable enumerable configurable : bool)
| CompletedAccessor (get set : V) (enumerable configurable : bool).
Arguments CompletedData {V}.
Arguments CompletedAccessor {V}.

Definition is_some {A} (o : option A) : bool := match o with Some _ => true | None => false end.

Module PropertyDescriptor.
Section descriptors.
Context {V : Type}.

Definition structural_kind (fields : DescriptorFields V) : result PropertyDescriptorError PropertyDescriptorKind :=
  let has_value := is_some (field_value fields) in
  let has_writable := is_some (field_writable fields) in
  let has_get := is_some (field_get fields) in
  let has_set := is_some (field_set fields) in
  let has_data := has_value || has_writable in
  let has_accessor := has_get || has_set in
  if has_data && has_accessor then Err (MixedDataAndAccessorFields has_value has_writable has_get has_set)
  else if has_accessor then Ok Accessor
  else if has_data then Ok Data
  else Ok Generic.

Definition into_descriptor_with_kind (fields : DescriptorFields V) (kind : PropertyDescriptorKind) : PropertyDescriptor V :=
  match kind with
  | Generic => GenericDescriptor (field_enumerable fields) (field_configurable fields)
  | Data => DataDescriptor (field_value fields) (field_writable fields) (field_enumerable fields) (field_configurable fields)
  | Accessor => AccessorDescriptor (field_get fields) (field_set fields) (field_enumerable fields) (field_configurable fields)
  end.

Definition try_from_fields (fields : DescriptorFields V) : result PropertyDescriptorError (PropertyDescriptor V) :=
  kind ← structural_kind fields; Ok (into_descriptor_with_kind fields kind).

Definition complete_for_new_property (self : PropertyDescriptor V) (undefined : V) : CompletedPropertyDescriptor V :=
  match self with
  | GenericDescriptor enumerable configurable =>
      CompletedData undefined false (default false enumerable) (default false configurable)
  | DataDescriptor value writable enumerable configurable =>
      CompletedData (default undefined value) (default false writable) (default false enumerable) (default false configurable)
  | AccessorDescriptor get set enumerable configurable =>
      CompletedAccessor (default undefined get) (default undefined set) (default false enumerable) (default false configurable)
  end.

Definition layout (self : CompletedPropertyDescriptor V) : PropertyLayout :=
  match self with
  | CompletedData _ writable enumerable configurable => PropertyLayout.data writable enumerable configurable
  | CompletedAccessor _ _ enumerable configurable => PropertyLayout.accessor enumerable configurable
  end.
End descriptors.
End PropertyDescriptor.

(** ** Own properties *)

Module OwnProperty.
Inductive OwnProperty : Set :=
| Data (layout : PropertyLayout) (value : StoredValue)
| Accessor (layout : PropertyLayout) (getter setter : option FunctionId).

Definition layout (self : OwnProperty) : PropertyLayout :=
  match self with Data layout _ | Accessor layout _ _ => layout end.
End OwnProperty.
Import OwnProperty(OwnProperty).

(** ** Definitions *)

Inductive Requested (T : Type) : Type := Absent | Present (value : T).
Arguments Absent {T}.
Arguments Present {T} value.

Module Requested.
Definition unwrap_or {T} (self : Requested T) (default : T) : T :=
  match self with Absent => default | Present value => value end.
Definition is_present {T} (self : Requested T) : bool :=
  match self with Absent => false | Present _ => true end.
End Requested.

Module DefinitionFields.
Inductive DefinitionFields : Set :=
| Generic
| Data (value : Requested StoredValue) (writable : Requested bool)
| Accessor (getter setter : Requested (option FunctionId)).
End DefinitionFields.
Import DefinitionFields(DefinitionFields).

Record PropertyDefinition : Set := mkDefinition {
  fields : DefinitionFields;
  enumerable : Requested bool;
  configurable : Requested bool
}.

Inductive DefinitionDecision : Set :=
| Rejected
| Unchanged
| Create (property : OwnProperty)
| Replace (property : OwnProperty).

Module PropertyDefinition.
Definition generic : PropertyDefinition := mkDefinition DefinitionFields.Generic Absent Absent.
Definition data (value : Requested StoredValue) (writable : Requested bool) : PropertyDefinition :=
  mkDefinition (DefinitionFields.Data value writable) Absent Absent.
Definition accessor (getter setter : Requested (option FunctionId)) : PropertyDefinition :=
  mkDefinition (DefinitionFields.Accessor getter setter) Absent Absent.
Definition with_enumerable (self : PropertyDefinition) (enumerable : Requested bool) : PropertyDefinition :=
  mkDefinition (fields self) enumerable (configurable self).
Definition with_configurable (self : PropertyDefinition) (configurable : Requested bool) : PropertyDefinition :=
  mkDefinition (fields self) (enumerable self) configurable.

Definition has_slot_fields (self : PropertyDefinition) : bool :=
  match fields self with
  | DefinitionFields.Generic => false
  | DefinitionFields.Data value writable => Requested.is_present value || Requested.is_present writable
  | DefinitionFields.Accessor getter setter => Requested.is_present getter || Requested.is_present setter
  end.

Definition present_data_value (self : PropertyDefinition) : option StoredValue :=
  match fields self with
  | DefinitionFields.Data (Present value) _ => Some value
  | _ => None
  end.
End PropertyDefinition.

Module DefineProperty.
(** [layout.writable() == Some(true)] *)
Definition is_writable (layout : PropertyLayout) : bool := default false (PropertyLayout.writable layout).

Definition value_or_undefined (value : Requested StoredValue) : StoredValue :=
  match value with Absent => StoredValue.Undefined | Present value => value end.

Definition validate_and_apply_new (definition : PropertyDefinition) (extensible : bool) : DefinitionDecision :=
  if negb extensible then Rejected else
  let enumerable := Requested.unwrap_or (enumerable definition) false in
  let configurable := Requested.unwrap_or (configurable definition) false in
  match fields definition with
  | DefinitionFields.Accessor getter setter =>
      Create (OwnProperty.Accessor (PropertyLayout.accessor enumerable configurable)
        (Requested.unwrap_or getter None) (Requested.unwrap_or setter None))
  | DefinitionFields.Generic =>
      Create (OwnProperty.Data (PropertyLayout.data false enumerable configurable) StoredValue.Undefined)
  | DefinitionFields.Data value writable =>
      Create (OwnProperty.Data (PropertyLayout.data (Requested.unwrap_or writable false) enumerable configurable)
        (value_or_undefined value))
  end.

Definition non_configurable_slot_fields_are_compatible (definition : PropertyDefinition) (existing : OwnProperty) : bool :=
  match fields definition, existing with
  | DefinitionFields.Accessor getter setter, OwnProperty.Accessor _ read_hook write_hook =>
      bool_decide (Requested.unwrap_or getter read_hook = read_hook)
      && bool_decide (Requested.unwrap_or setter write_hook = write_hook)
  | DefinitionFields.Data _ writable, OwnProperty.Data layout _ =>
      is_writable layout || negb (Requested.unwrap_or writable false)
  | DefinitionFields.Generic, _ => true
  | DefinitionFields.Data _ _, OwnProperty.Accessor _ _ _
  | DefinitionFields.Accessor _ _, OwnProperty.Data _ _ => false
  end.

Definition decide_data (existing : OwnProperty) (layout : PropertyLayout) (value : StoredValue) : DefinitionDecision :=
  match existing with
  | OwnProperty.Data current current_value =>
      if bool_decide (current = layout) && StoredValue.same_value current_value value then Unchanged
      else Replace (OwnProperty.Data layout value)
  | _ => Replace (OwnProperty.Data layout value)
  end.

Definition decide_accessor (existing : OwnProperty) (layout : PropertyLayout) (getter setter : option FunctionId) :
    DefinitionDecision :=
  match existing with
  | OwnProperty.Accessor current current_getter current_setter =>
      if bool_decide (current = layout) && bool_decide (current_getter = getter) && bool_decide (current_setter = setter)
      then Unchanged else Replace (OwnProperty.Accessor layout getter setter)
  | _ => Replace (OwnProperty.Accessor layout getter setter)
  end.

Definition validate_and_apply_existing (definition : PropertyDefinition) (existing : OwnProperty) : DefinitionDecision :=
  let current := OwnProperty.layout existing in
  if negb (PropertyLayout.is_configurable current) && Requested.unwrap_or (configurable definition) false then Rejected else
  if negb (PropertyLayout.is_configurable current)
     && match enumerable definition with
        | Present enumerable => negb (Bool.eqb enumerable (PropertyLayout.is_enumerable current))
        | Absent => false
        end then Rejected else
  if negb (PropertyLayout.is_configurable current)
     && PropertyDefinition.has_slot_fields definition
     && negb (non_configurable_slot_fields_are_compatible definition existing) then Rejected else
  let enumerable := Requested.unwrap_or (enumerable definition) (PropertyLayout.is_enumerable current) in
  let configurable := Requested.unwrap_or (configurable definition) (PropertyLayout.is_configurable current) in
  match fields definition, existing with
  | DefinitionFields.Generic, OwnProperty.Data layout value =>
      decide_data existing (PropertyLayout.data (is_writable layout) enumerable configurable) value
  | DefinitionFields.Generic, OwnProperty.Accessor _ getter setter =>
      decide_accessor existing (PropertyLayout.accessor enumerable configurable) getter setter
  | DefinitionFields.Data requested_value requested_writable, OwnProperty.Data layout value =>
      let writable := Requested.unwrap_or requested_writable (is_writable layout) in
      match requested_value with
      | Absent => decide_data existing (PropertyLayout.data writable enumerable configurable) value
      | Present requested =>
          if negb (PropertyLayout.is_configurable layout) && negb (is_writable layout)
             && negb (StoredValue.same_value requested value) then Rejected else
          decide_data existing (PropertyLayout.data writable enumerable configurable) requested
      end
  | DefinitionFields.Data value writable, OwnProperty.Accessor _ _ _ =>
      Replace (OwnProperty.Data (PropertyLayout.data (Requested.unwrap_or writable false) enumerable configurable)
        (value_or_undefined value))
  | DefinitionFields.Accessor new_get new_set, OwnProperty.Accessor _ getter setter =>
      decide_accessor existing (PropertyLayout.accessor enumerable configurable)
        (Requested.unwrap_or new_get getter) (Requested.unwrap_or new_set setter)
  | DefinitionFields.Accessor getter setter, OwnProperty.Data _ _ =>
      Replace (OwnProperty.Accessor (PropertyLayout.accessor enumerable configurable)
        (Requested.unwrap_or getter None) (Requested.unwrap_or setter None))
  end.

(** *** Collected fields *)

(** The [TypeError] messages. *)
Inductive DescriptorError : Set := MixedFields | InvalidGetter | InvalidSetter.

Definition requested_flag (flag : option bool) : Requested bool :=
  match flag with Some flag => Present flag | None => Absent end.

Definition requested (present : bool) (function : option FunctionId) : Requested (option FunctionId) :=
  if present then Present function else Absent.

Definition accessor_function (value : option StoredValue) (error : DescriptorError) :
    result DescriptorError (option FunctionId) :=
  match value with
  | None | Some StoredValue.Undefined => Ok None
  | Some (StoredValue.Function function) => Ok (Some function)
  | Some _ => Err error
  end.

Definition has_accessor (collected : DescriptorFields StoredValue) : bool :=
  is_some (field_get collected) || is_some (field_set collected).
Definition has_data (collected : DescriptorFields StoredValue) : bool :=
  is_some (field_value collected) || is_some (field_writable collected).

Definition validate_collected_fields (collected : DescriptorFields StoredValue) : result DescriptorError unit :=
  if has_accessor collected && has_data collected then Err MixedFields else
  if has_accessor collected then
    accessor_function (field_get collected) InvalidGetter ;;
    accessor_function (field_set collected) InvalidSetter ;;
    Ok tt
  else Ok tt.

Definition property_definition_from_fields (collected : DescriptorFields StoredValue) :
    result DescriptorError PropertyDefinition :=
  definition ←
    (if has_accessor collected then
       getter ← accessor_function (field_get collected) InvalidGetter;
       setter ← accessor_function (field_set collected) InvalidSetter;
       Ok (PropertyDefinition.accessor (requested (is_some (field_get collected)) getter)
             (requested (is_some (field_set collected)) setter))
     else if has_data collected then
       Ok (PropertyDefinition.data
             (match field_value collected with Some value => Present value | None => Absent end)
             (requested_flag (field_writable collected)))
     else Ok PropertyDefinition.generic);
  Ok (PropertyDefinition.with_configurable
        (PropertyDefinition.with_enumerable definition (requested_flag (field_enumerable collected)))
        (requested_flag (field_configurable collected))).
End DefineProperty.
