(* ===== verification/DescriptorFacts.v ===== *)
(** * Property definition agrees with the language specification

    States ValidateAndApplyPropertyDescriptor (ECMAScript 10.1.6.3) over the
    six optional fields of a descriptor, as the specification does, and proves
    that [Descriptors] computes it: which requests are refused, what the
    property becomes, and when the object is left alone. *)

From S2P Require Import Prelude RuntimePrelude JsStrings Arena Values ValueFacts Descriptors.
From stdpp Require Import list.
Local Open Scope Z_scope.

Import NumberRepr(NumberRepr) StoredValue(StoredValue) OwnProperty(OwnProperty).

(** ** The specification *)

Notation Property := (CompletedPropertyDescriptor StoredValue) (only parsing).
Notation Descriptor := (DescriptorFields StoredValue) (only parsing).

Module Es.
Definition IsAccessorDescriptor (d : Descriptor) : bool := is_some (field_get d) || is_some (field_set d).
Definition IsDataDescriptor (d : Descriptor) : bool := is_some (field_value d) || is_some (field_writable d).
Definition IsGenericDescriptor (d : Descriptor) : bool := negb (IsAccessorDescriptor d) && negb (IsDataDescriptor d).

(** A present field that satisfies the test. *)
Definition has {A} (field : option A) (test : A → bool) : bool := match field with Some a => test a | None => false end.

Definition create (d : Descriptor) (enumerable configurable : bool) : Property :=
  if IsAccessorDescriptor d then
    CompletedAccessor (default StoredValue.Undefined (field_get d)) (default StoredValue.Undefined (field_set d))
      (default enumerable (field_enumerable d)) (default configurable (field_configurable d))
  else
    CompletedData (default StoredValue.Undefined (field_value d)) (default false (field_writable d))
      (default enumerable (field_enumerable d)) (default configurable (field_configurable d)).

Definition enumerable (p : Property) : bool :=
  match p with CompletedData _ _ e _ | CompletedAccessor _ _ e _ => e end.
Definition configurable (p : Property) : bool :=
  match p with CompletedData _ _ _ c | CompletedAccessor _ _ _ c => c end.
Definition is_accessor (p : Property) : bool :=
  match p with CompletedData _ _ _ _ => false | CompletedAccessor _ _ _ _ => true end.

(** Step 4: what a non-configurable property refuses. *)
Definition refused (d : Descriptor) (current : Property) : bool :=
  has (field_configurable d) id
  || has (field_enumerable d) (λ e, negb (Bool.eqb e (enumerable current)))
  || negb (IsGenericDescriptor d) && negb (Bool.eqb (IsAccessorDescriptor d) (is_accessor current))
  || match current with
     | CompletedAccessor get set _ _ =>
         has (field_get d) (λ v, negb (StoredValue.same_value v get))
         || has (field_set d) (λ v, negb (StoredValue.same_value v set))
     | CompletedData value writable _ _ =>
         negb writable
         && (has (field_writable d) id || has (field_value d) (λ v, negb (StoredValue.same_value v value)))
     end.

(** Step 5: the attributes after the update. *)
Definition update (d : Descriptor) (current : Property) : Property :=
  match current with
  | CompletedData value writable e c =>
      if IsAccessorDescriptor d then create d e c
      else CompletedData (default value (field_value d)) (default writable (field_writable d))
             (default e (field_enumerable d)) (default c (field_configurable d))
  | CompletedAccessor get set e c =>
      if IsDataDescriptor d then create d e c
      else CompletedAccessor (default get (field_get d)) (default set (field_set d))
             (default e (field_enumerable d)) (default c (field_configurable d))
  end.

(** [None]: the operation returns false. *)
Definition ValidateAndApplyPropertyDescriptor (extensible : bool) (d : Descriptor) (current : option Property) :
    option Property :=
  match current with
  | None => if extensible then Some (create d false false) else None
  | Some current => if negb (configurable current) && refused d current then None else Some (update d current)
  end.
End Es.

(** ** The correspondence *)

Definition accessor_value (function : option FunctionId) : StoredValue :=
  match function with Some function => StoredValue.Function function | None => StoredValue.Undefined end.

Definition completed (property : OwnProperty) : Property :=
  match property with
  | OwnProperty.Data layout value =>
      CompletedData value (DefineProperty.is_writable layout) (PropertyLayout.is_enumerable layout)
        (PropertyLayout.is_configurable layout)
  | OwnProperty.Accessor layout getter setter =>
      CompletedAccessor (accessor_value getter) (accessor_value setter) (PropertyLayout.is_enumerable layout)
        (PropertyLayout.is_configurable layout)
  end.

(** The layout of a slot is of the slot's kind, and its value is one. *)
Definition property_ok (property : OwnProperty) : Prop :=
  match property with
  | OwnProperty.Data layout value => PropertyLayout.kind layout = DataKind ∧ value_ok value
  | OwnProperty.Accessor layout _ _ => PropertyLayout.kind layout = AccessorKind
  end.

(** Equal attributes, up to SameValue. *)
Definition same_property (p q : Property) : bool :=
  match p, q with
  | CompletedData v w e c, CompletedData v' w' e' c' =>
      StoredValue.same_value v v' && Bool.eqb w w' && Bool.eqb e e' && Bool.eqb c c'
  | CompletedAccessor g s e c, CompletedAccessor g' s' e' c' =>
      StoredValue.same_value g g' && StoredValue.same_value s s' && Bool.eqb e e' && Bool.eqb c c'
  | _, _ => false
  end.

(** The decision the specification's answer calls for. *)
Definition expected (existing : OwnProperty) (result : option Property) (decision : DefinitionDecision) : Prop :=
  match result with
  | None => decision = Rejected
  | Some p =>
      if same_property (completed existing) p then decision = Unchanged
      else ∃ q, decision = Replace q ∧ completed q = p
  end.

Definition is_callable (v : StoredValue) : bool :=
  match v with StoredValue.Function _ => true | _ => false end.
Definition accessor_field_ok (field : option StoredValue) : Prop :=
  match field with
  | None | Some StoredValue.Undefined => True
  | Some v => is_callable v = true
  end.

(** ** Proof *)

(** The three shapes of a valid descriptor. *)
Definition fields_of (fields : DefinitionFields.DefinitionFields) (e c : option bool) : Descriptor :=
  let value_of {A} (r : Requested A) : option A := match r with Absent => None | Present a => Some a end in
  match fields with
  | DefinitionFields.Generic => mkFields None None None None e c
  | DefinitionFields.Data value writable => mkFields (value_of value) (value_of writable) None None e c
  | DefinitionFields.Accessor getter setter =>
      mkFields None None (accessor_value <$> value_of getter) (accessor_value <$> value_of setter) e c
  end.

Definition definition_of (fields : DefinitionFields.DefinitionFields) (e c : option bool) : PropertyDefinition :=
  mkDefinition fields (DefineProperty.requested_flag e) (DefineProperty.requested_flag c).

(** No kind without a field of the kind. *)
Definition inhabited_fields (fields : DefinitionFields.DefinitionFields) : Prop :=
  match fields with
  | DefinitionFields.Data Absent Absent | DefinitionFields.Accessor Absent Absent => False
  | _ => True
  end.

Lemma accessor_function_ok field error : accessor_field_ok field →
  ∃ f, DefineProperty.accessor_function field error = Ok f ∧ field = (if field then Some (accessor_value f) else None).
Proof. intros Hf. destruct field as [[]|]; simpl in *; try done; eexists; split; reflexivity. Qed.

Lemma accessor_function_err field error : ¬ accessor_field_ok field → DefineProperty.accessor_function field error = Err error.
Proof. intros Hf. destruct field as [[]|]; simpl in *; try done; by destruct Hf. Qed.

#[export] Instance accessor_field_ok_dec field : Decision (accessor_field_ok field).
Proof. destruct field as [[]|]; simpl; apply _. Defined.

Lemma accessor_function_iff field error :
  (∃ f, DefineProperty.accessor_function field error = Ok f) ↔ accessor_field_ok field.
Proof.
  split.
  - intros [f Hf]. destruct (decide (accessor_field_ok field)) as [|Hn]; [done|]. by rewrite accessor_function_err in Hf.
  - intros (f & Hf & _)%(accessor_function_ok _ error). eauto.
Qed.

Lemma validate_spec d : DefineProperty.validate_collected_fields d = Ok tt ↔
  (Es.IsAccessorDescriptor d && Es.IsDataDescriptor d) = false
  ∧ accessor_field_ok (field_get d) ∧ accessor_field_ok (field_set d).
Proof.
  unfold DefineProperty.validate_collected_fields, DefineProperty.has_accessor, DefineProperty.has_data,
    Es.IsAccessorDescriptor, Es.IsDataDescriptor.
  destruct d as [v w g s e c]; simpl.
  destruct ((is_some g || is_some s) && (is_some v || is_some w)); [naive_solver|].
  destruct (is_some g || is_some s) eqn:Ea.
  - destruct (decide (accessor_field_ok g)) as [Hg|Hg].
    + destruct (accessor_function_ok g DefineProperty.InvalidGetter Hg) as (fg & -> & _). simpl.
      destruct (decide (accessor_field_ok s)) as [Hs|Hs].
      * destruct (accessor_function_ok s DefineProperty.InvalidSetter Hs) as (fs & -> & _). naive_solver.
      * rewrite (accessor_function_err s) by exact Hs. naive_solver.
    + rewrite (accessor_function_err g) by exact Hg. naive_solver.
  - destruct g, s; try done.
Qed.

Lemma collected_shape d : DefineProperty.validate_collected_fields d = Ok tt →
  ∃ fields e c, d = fields_of fields e c ∧ inhabited_fields fields
    ∧ DefineProperty.property_definition_from_fields d = Ok (definition_of fields e c).
Proof.
  intros (Hm & Hg & Hs)%validate_spec. destruct d as [v w g s e c]; simpl in *.
  unfold DefineProperty.property_definition_from_fields, DefineProperty.has_accessor, DefineProperty.has_data; simpl.
  destruct (is_some g || is_some s) eqn:Ea.
    unfold Es.IsAccessorDescriptor in Hm; simpl in Hm. rewrite Ea in Hm. destruct v, w; try done.
    destruct (accessor_function_ok g DefineProperty.InvalidGetter Hg) as (fg & -> & Eg), (accessor_function_ok s DefineProperty.InvalidSetter Hs) as (fs & -> & Ess).
    exists (DefinitionFields.Accessor (DefineProperty.requested (is_some g) fg) (DefineProperty.requested (is_some s) fs)), e, c.
    destruct g, s; simplify_eq/=; try done.
  - destruct g, s; try done. destruct (is_some v || is_some w) eqn:Ed.
    + exists (DefinitionFields.Data (match v with Some value => Present value | None => Absent end) (DefineProperty.requested_flag w)), e, c.
      by destruct v, w.
    + destruct v, w; try done. by exists DefinitionFields.Generic, e, c.
Qed.

Lemma accessor_value_same f g : StoredValue.same_value (accessor_value f) (accessor_value g) = bool_decide (f = g).
Proof. destruct f as [f|], g as [g|]; simpl; [|done..]. apply bool_decide_ext. naive_solver. Qed.

Lemma new_exact fields e c extensible : inhabited_fields fields → 
  match Es.ValidateAndApplyPropertyDescriptor extensible (fields_of fields e c) None with
  | None => DefineProperty.validate_and_apply_new (definition_of fields e c) extensible = Rejected
  | Some p => ∃ q, DefineProperty.validate_and_apply_new (definition_of fields e c) extensible = Create q ∧ completed q = p
  end.
Proof.
  intros Hf. destruct extensible; [|done]. cbn.
  destruct fields as [|[|v] [|w]|[|g] [|s]], e, c; try done; eexists; (split; [reflexivity|reflexivity]).
Qed.

Lemma data_decision w e c v w' e' c' v' :
  expected (OwnProperty.Data (DataLayout w e c) v) (Some (CompletedData v' w' e' c'))
    (DefineProperty.decide_data (OwnProperty.Data (DataLayout w e c) v) (DataLayout w' e' c') v').
Proof.
  cbn. destruct (StoredValue.same_value v v').
  - destruct w, e, c, w', e', c'; cbn; eauto.
  - rewrite andb_false_r. cbn. eauto.
Qed.

Lemma accessor_decision e c g s e' c' g' s' :
  expected (OwnProperty.Accessor (AccessorLayout e c) g s) (Some (CompletedAccessor (accessor_value g') (accessor_value s') e' c'))
    (DefineProperty.decide_accessor (OwnProperty.Accessor (AccessorLayout e c) g s) (AccessorLayout e' c') g' s').
Proof.
  cbn. rewrite !accessor_value_same.
  destruct (bool_decide (g = g')), (bool_decide (s = s')); rewrite ?andb_false_r; cbn; eauto.
  destruct e, c, e', c'; cbn; eauto.
Qed.

Ltac step_definition :=
  cbn -[expected DefineProperty.decide_data DefineProperty.decide_accessor StoredValue.same_value accessor_value bool_decide];
  try apply data_decision; try apply accessor_decision; try done; try (by eexists).

Lemma existing_exact fields e c existing : inhabited_fields fields → property_ok existing →
  expected existing (Es.ValidateAndApplyPropertyDescriptor true (fields_of fields e c) (Some (completed existing)))
    (DefineProperty.validate_and_apply_existing (definition_of fields e c) existing).
Proof.
  intros Hf He. destruct existing as [[w0 e0 c0|] v0|[|e0 c0] g0 s0]; try (by destruct He); try done.
  all: unfold DefineProperty.validate_and_apply_existing, Es.ValidateAndApplyPropertyDescriptor, Es.refused.
  - destruct fields as [|[|v] [|w]|[|g] [|s]]; try done; destruct c0, e as [e|], c as [c|]; step_definition.
    all: destruct w0, e0; try destruct c; try destruct e; try destruct w; step_definition.
    all: destruct (StoredValue.same_value v v0); step_definition.
  - destruct fields as [|[|v] [|w]|[|g] [|s]]; try done; destruct c0, e as [e|], c as [c|]; step_definition.
    all: rewrite ?accessor_value_same.
    all: rewrite ?(bool_decide_eq_true_2 (g0 = g0)), ?(bool_decide_eq_true_2 (s0 = s0)) by done.
    all: destruct e0; try destruct c; try destruct e; step_definition.
    all: try destruct (bool_decide (g = g0)); try destruct (bool_decide (s = s0)); step_definition.
Qed.

(** The slots a definition installs are well formed. *)
Lemma definition_installs_ok fields e c existing extensible q :
  match fields with DefinitionFields.Data (Present v) _ => value_ok v | _ => True end →
  property_ok existing →
  DefineProperty.validate_and_apply_existing (definition_of fields e c) existing = Replace q
  ∨ DefineProperty.validate_and_apply_new (definition_of fields e c) extensible = Create q →
  property_ok q.
Proof.
  intros Hv He Hq. destruct existing as [[w0 e0 c0|] v0|[|e0 c0] g0 s0]; try (by destruct He); try done.
  all: destruct fields as [|[|v] [|w]|[|g] [|s]], extensible;
    unfold DefineProperty.validate_and_apply_existing in Hq;
    destruct Hq as [Hq|Hq]; cbn in *; repeat case_match; simplify_eq; cbn; tauto.
Qed.

Lemma structural_exact d desc : PropertyDescriptor.try_from_fields d = Ok desc →
  PropertyDescriptor.complete_for_new_property desc StoredValue.Undefined = Es.create d false false.
Proof. destruct d as [[] [] [] [] e c]; intros [= <-]; reflexivity. Qed.

(** C20. Defining a property is the specification's
    ValidateAndApplyPropertyDescriptor: collected fields are refused exactly
    when they mix the kinds or hold an accessor that is neither callable nor
    undefined; otherwise the definition built from them is granted or rejected
    as the specification says, a created or replaced slot carries exactly the
    specified attributes in a layout of its kind, and the object is left
    untouched exactly when the specified attributes are the current ones up to
    SameValue. *)
Theorem define_property_exact d :
  (DefineProperty.validate_collected_fields d = Ok tt ↔
    (Es.IsAccessorDescriptor d && Es.IsDataDescriptor d) = false
    ∧ accessor_field_ok (field_get d) ∧ accessor_field_ok (field_set d))
  ∧ (DefineProperty.validate_collected_fields d = Ok tt → (∀ v, field_value d = Some v → value_ok v) →
      ∃ definition, DefineProperty.property_definition_from_fields d = Ok definition
      ∧ (∀ extensible,
          match Es.ValidateAndApplyPropertyDescriptor extensible d None with
          | None => DefineProperty.validate_and_apply_new definition extensible = Rejected
          | Some p => ∃ q, DefineProperty.validate_and_apply_new definition extensible = Create q ∧ completed q = p ∧ property_ok q
          end)
      ∧ (∀ existing, property_ok existing →
          expected existing (Es.ValidateAndApplyPropertyDescriptor true d (Some (completed existing)))
            (DefineProperty.validate_and_apply_existing definition existing)
          ∧ ∀ q, DefineProperty.validate_and_apply_existing definition existing = Replace q → property_ok q)).
Proof.
  split; [apply validate_spec|]. intros (fields & e & c & -> & Hf & Hd)%collected_shape Hv. exists (definition_of fields e c).
  assert (match fields with DefinitionFields.Data (Present v) _ => value_ok v | _ => True end) as Hok.
  { destruct fields as [|[|v] w|]; simpl in *; auto. }
  split_and!; [done| |].
  - intros extensible. pose proof (new_exact fields e c extensible Hf) as Hn. case_match; [|done].
    destruct Hn as (q & Hq & Hc). exists q. split_and!; [done..|].
    by apply (definition_installs_ok fields e c (OwnProperty.Data (DataLayout false false false) StoredValue.Undefined) extensible); eauto.
  - intros existing He. split; [by apply existing_exact|]. intros q Hq.
    by apply (definition_installs_ok fields e c existing true); eauto.
Qed.

(** A frozen NaN may be redefined to NaN and to nothing else. *)
Example define_property_exact_witness :
  ∃ definition, DefineProperty.property_definition_from_fields
      (mkFields (Some (StoredValue.Number (NumberRepr.Float F64.NAN))) None None None None None) = Ok definition
    ∧ DefineProperty.validate_and_apply_existing definition
        (OwnProperty.Data (DataLayout false false false) (StoredValue.Number (NumberRepr.Float F64.NAN))) = Unchanged
    ∧ DefineProperty.validate_and_apply_existing definition
        (OwnProperty.Data (DataLayout false false false) StoredValue.Null) = Rejected.
Proof.
  destruct (proj2 (define_property_exact
    (mkFields (Some (StoredValue.Number (NumberRepr.Float F64.NAN))) None None None None None)) eq_refl) as (def & Hd & _ & He).
  { intros v [= <-]. unfold value_ok, number_ok, is_f64, F64.NAN. unfold_ints. lia. }
  exists def. split; [done|]. split.
  - apply (He (OwnProperty.Data (DataLayout false false false) (StoredValue.Number (NumberRepr.Float F64.NAN)))).
    split; [done|]. unfold value_ok, number_ok, is_f64, F64.NAN. unfold_ints. lia.
  - by apply (He (OwnProperty.Data (DataLayout false false false) StoredValue.Null)).
Defined.
