(* ===== verification/Collections.v ===== *)
(** * Map and Set

    Models the keyed collections of [crates/fusor-runtime/src]: [MapKey],
    [MapState], [SetState] and their iterators of [object.rs], the accounted
    updates of [runtime/maps.rs] and [runtime/sets.rs], and of [vm/map.rs] and
    [vm/set.rs] the methods that neither call back nor allocate an iterator
    (seven of the twelve of Map), and the scan and the move of the cursor of
    Map iterators and [forEach].

    A [HashMap] is an association list under the key type's [==]; its order is
    never observed.  The heap is the arena of Arena.v; of [HeapObject] only the
    variants of this component are told apart.  A handler runs in a monad of
    the runtime and the execution budget, whose effects survive an error.  The
    calls of user callbacks and the allocation of result objects, realms and
    stack traces are not modelled: a step that hands an entry to a callback
    returns that entry. *)

From S2P Require Import Prelude RuntimePrelude JsStrings Arena BigInt Values ValueFacts.
From stdpp Require Import list.
Local Open Scope Z_scope.

Import NumberRepr(NumberRepr) StoredValue(StoredValue).

(** ** Hash tables *)

Module HashMap.
Section hash_map.
Context {K V : Type} (eqb : K → K → bool).

Fixpoint get (m : list (K * V)) (key : K) : option V :=
  match m with
  | [] => None
  | (k, v) :: m => if eqb k key then Some v else get m key
  end.
Definition remove (m : list (K * V)) (key : K) : list (K * V) := filter (λ p, eqb p.1 key = false) m.
Definition insert (m : list (K * V)) (key : K) (value : V) : list (K * V) := (key, value) :: remove m key.
End hash_map.
End HashMap.

(** ** Keys *)

Module MapKey.
Inductive MapKey : Set :=
| Undefined
| Null
| Boolean (value : bool)
| Number (bits : Z)
| BigInt (value : JsBigInt)
| String (value : Repr)
| Symbol (value : Atom)
| Function (value : FunctionId)
| Object (value : ObjectId).

Definition from_value (value : StoredValue) : MapKey :=
  match value with
  | StoredValue.Undefined => Undefined
  | StoredValue.Null => Null
  | StoredValue.Boolean value => Boolean value
  | StoredValue.Number value =>
      let value := JsNumber.as_f64 value in
      Number (if F64.eq value 0 then 0 else if F64.is_nan value then F64.NAN else value)
  | StoredValue.BigInt value => BigInt value
  | StoredValue.String value => String value
  | StoredValue.Symbol value => Symbol value
  | StoredValue.Function value => Function value
  | StoredValue.Object value => Object value
  end.

(** [derive(Eq)] *)
Definition eq (self other : MapKey) : bool :=
  match self, other with
  | Undefined, Undefined | Null, Null => true
  | Boolean a, Boolean b => Bool.eqb a b
  | Number a, Number b => a =? b
  | BigInt a, BigInt b => bool_decide (a = b)
  | String a, String b => StoredValue.string_eq a b
  | Symbol a, Symbol b => is_same_identity a b
  | Function a, Function b => bool_decide (a = b)
  | Object a, Object b => bool_decide (a = b)
  | _, _ => false
  end.
End MapKey.
Import MapKey(MapKey).

(** ** Tables *)

Record MapEntry : Set := mkEntry { key : StoredValue; value : StoredValue; is_live : bool }.

Record MapState : Set := mkMapState {
  entries : list MapEntry;
  map_index : list (MapKey * nat);
  live_count : Z
}.

Inductive MapSetOutcome : Set := Inserted | Updated.

Definition tombstone : MapEntry := mkEntry StoredValue.Undefined StoredValue.Undefined false.

Module MapState.
Definition empty : MapState := mkMapState [] [] 0.

(** The loop of [restored], from position [position] on. *)
Fixpoint reindex (entries : list MapEntry) (position : nat) (index : list (MapKey * nat)) : list (MapKey * nat) :=
  match entries with
  | [] => index
  | entry :: entries =>
      reindex entries (S position)
        (if is_live entry then HashMap.insert MapKey.eq index (MapKey.from_value (key entry)) position else index)
  end.

Definition restored (entries : list MapEntry) : MapState :=
  mkMapState entries (reindex entries 0 []) (len (filter (λ e, is_live e = true) entries)).

(** [MapState::len] *)
Definition size (self : MapState) : Z := live_count self.
Definition retained_len (self : MapState) : Z := len (entries self).
Definition entry (self : MapState) (index : nat) : option MapEntry := entries self !! index.

Definition retained_values (self : MapState) : list StoredValue :=
  mjoin ((λ e, [key e; value e]) <$> entries self).
Definition live_entries (self : MapState) : list (StoredValue * StoredValue) :=
  (λ e, (key e, value e)) <$> filter (λ e, is_live e = true) (entries self).

Definition get (self : MapState) (k : StoredValue) : option StoredValue :=
  index ← HashMap.get MapKey.eq (map_index self) (MapKey.from_value k);
  entry ← entries self !! index;
  if is_live entry then Some (value entry) else None.

Definition contains_key (self : MapState) (k : StoredValue) : bool :=
  bool_decide (is_Some (HashMap.get MapKey.eq (map_index self) (MapKey.from_value k))).

Section with_allocator.
Context `{Allocator}.

(** The rest of [try_set] when the index names no entry. *)
Definition append (self : MapState) (k v : StoredValue) : result TryReserveError (MapState * MapSetOutcome) :=
  reserve "map entries" (len (entries self)) 1 tryReserveError ;;
  reserve "map index" (len (map_index self)) 1 tryReserveError ;;
  let index := length (entries self) in
  Ok (mkMapState (entries self ++ [mkEntry k v true])
        (HashMap.insert MapKey.eq (map_index self) (MapKey.from_value k) index)
        (saturating_add_u64 (live_count self) 1), Inserted).

Definition try_set (self : MapState) (k v : StoredValue) : result TryReserveError (MapState * MapSetOutcome) :=
  match HashMap.get MapKey.eq (map_index self) (MapKey.from_value k) with
  | Some index =>
      match entries self !! index with
      | Some entry =>
          Ok (mkMapState (<[index := mkEntry (key entry) v (is_live entry)]> (entries self))
                (map_index self) (live_count self), Updated)
      | None => append self k v
      end
  | None => append self k v
  end.
End with_allocator.

Definition delete (self : MapState) (k : StoredValue) : MapState * bool :=
  match HashMap.get MapKey.eq (map_index self) (MapKey.from_value k) with
  | None => (self, false)
  | Some index =>
      let removed := HashMap.remove MapKey.eq (map_index self) (MapKey.from_value k) in
      match entries self !! index with
      | None => (mkMapState (entries self) removed (live_count self), false)
      | Some _ =>
          (mkMapState (<[index := tombstone]> (entries self)) removed (saturating_sub (live_count self) 1), true)
      end
  end.

Definition clear (self : MapState) : MapState :=
  mkMapState ((λ _, tombstone) <$> entries self) [] 0.
End MapState.

Record SetState : Set := mkSetState { data : MapState }.

Module SetState.
Definition empty : SetState := mkSetState MapState.empty.
Definition restored (entries : list MapEntry) : SetState := mkSetState (MapState.restored entries).
Definition size (self : SetState) : Z := MapState.size (data self).
Definition retained_len (self : SetState) : Z := MapState.retained_len (data self).
Definition entry (self : SetState) (index : nat) : option MapEntry := MapState.entry (data self) index.
Definition retained_values (self : SetState) : list StoredValue :=
  key <$> filter (λ e, is_live e = true) (entries (data self)).
Definition contains (self : SetState) (value : StoredValue) : bool := MapState.contains_key (data self) value.

Section with_allocator.
Context `{Allocator}.
Definition try_with_capacity (capacity : Z) : result TryReserveError SetState :=
  reserve "set entries" 0 capacity tryReserveError ;;
  reserve "set index" 0 capacity tryReserveError ;;
  Ok empty.
Definition try_add (self : SetState) (value : StoredValue) : result TryReserveError (SetState * MapSetOutcome) :=
  '(data, outcome) ← MapState.try_set (data self) value StoredValue.Undefined;
  Ok (mkSetState data, outcome).
End with_allocator.

Definition delete (self : SetState) (value : StoredValue) : SetState * bool :=
  let '(data, deleted) := MapState.delete (data self) value in (mkSetState data, deleted).
Definition clear (self : SetState) : SetState := mkSetState (MapState.clear (data self)).
End SetState.

(** ** Iterators *)

Inductive MapIteratorKind : Set := KeyKind | ValueKind | KeyAndValueKind.
Record MapIterator : Set := mkMapIterator { iterated : option ObjectId; iterator_kind : MapIteratorKind; next : nat }.

Module MapIterator.
Definition new (iterated : ObjectId) (kind : MapIteratorKind) : MapIterator := mkMapIterator (Some iterated) kind 0.
(** [next] stays below the length of a vector, so the addition does not saturate. *)
Definition advance (self : MapIterator) : MapIterator :=
  mkMapIterator (iterated self) (iterator_kind self) (S (next self)).
Definition finish (self : MapIterator) : MapIterator := mkMapIterator None (iterator_kind self) (next self).
(** [while state.next() < next { state.advance() }] *)
Fixpoint advance_to (distance : nat) (self : MapIterator) : MapIterator :=
  match distance with O => self | S distance => advance_to distance (advance self) end.
End MapIterator.

(** ** The heap and the budget *)

(** The variants of [HeapObject] this component owns; [Other] stands for the rest. *)
Module HeapObject.
Inductive HeapObject : Set :=
| MapObject (state : MapState)
| SetObject (state : SetState)
| MapIteratorObject (state : MapIterator)
| Other.

Definition map_state (self : HeapObject) : option MapState := match self with MapObject state => Some state | _ => None end.
Definition set_state (self : HeapObject) : option SetState := match self with SetObject state => Some state | _ => None end.
Definition map_iterator_state (self : HeapObject) : option MapIterator :=
  match self with MapIteratorObject state => Some state | _ => None end.
End HeapObject.
Import HeapObject(HeapObject).

Record Runtime : Set := mkRuntime {
  objects : Arena HeapObject;
  collection_entries : Z;
  collection_pending : bool;
  max_collection_entries : Z
}.

Record ExecutionBudget : Set := mkBudget { instruction_limit : Z; executed_instructions : Z }.

Inductive NativeFailure : Set :=
| TypeError (message : string)
| StaleHeapEdge (edge : string) (id : ObjectId)
| RuntimeInvariant (message : string)
| InstructionLimitExceeded (limit executed : Z)
| LimitExceeded (limit observed : Z)
| AllocationFailed (additional : Z).

(** *** The monad of handlers *)

Record World : Set := mkWorld { world_runtime : Runtime; execution_budget : ExecutionBudget }.

Notation handler := (stateful World NativeFailure).

Definition get_runtime : handler Runtime := λ w, (w, Ok (world_runtime w)).
Definition put_runtime (r : Runtime) : handler unit := λ w, (mkWorld r (execution_budget w), Ok tt).
Definition charge_instructions (additional : Z) : handler unit := λ w,
  let budget := execution_budget w in
  if saturating_sub (instruction_limit budget) (executed_instructions budget) <? additional then
    (mkWorld (world_runtime w) (mkBudget (instruction_limit budget) (instruction_limit budget)),
     Err (InstructionLimitExceeded (instruction_limit budget) (instruction_limit budget)))
  else
    (mkWorld (world_runtime w)
       (mkBudget (instruction_limit budget) (saturating_add_u64 (executed_instructions budget) additional)), Ok tt).

Definition check_execution_limit (limit observed : Z) : handler unit :=
  if observed <=? limit then mret tt else throw (LimitExceeded limit observed).

(** The object found under [id], and the write through [get_mut]. *)
Definition lookup_state {S} (select : HeapObject → option S) (id : ObjectId) (e : NativeFailure) : handler S :=
  r ← get_runtime;
  or_throw (object ← Arena.get (objects r) id; select object) e.

Definition write_object (id : ObjectId) (object : HeapObject) (e : NativeFailure) : handler unit :=
  r ← get_runtime;
  '(_, write) ← or_throw (Arena.get_mut (objects r) id) e;
  put_runtime (mkRuntime (write object) (collection_entries r) (collection_pending r) (max_collection_entries r)).

(** ** Updates with accounting *)

Definition canonicalize_map_key (key : StoredValue) : StoredValue :=
  match key with
  | StoredValue.Number value =>
      if F64.eq (JsNumber.as_f64 value) 0 then StoredValue.Number (JsNumber.from_f64 0) else key
  | _ => key
  end.
(** [canonicalize_set_value] and [canonicalize_map_computed_key] repeat it. *)
Definition canonicalize_set_value := canonicalize_map_key.

Definition map_state (map : ObjectId) : handler MapState :=
  lookup_state HeapObject.map_state map (StaleHeapEdge "Map object" map).
Definition set_state (set : ObjectId) : handler SetState :=
  lookup_state HeapObject.set_state set (StaleHeapEdge "Set object" set).
Definition write_map (map : ObjectId) (state : MapState) : handler unit :=
  write_object map (HeapObject.MapObject state) (StaleHeapEdge "Map object" map).
Definition write_set (set : ObjectId) (state : SetState) : handler unit :=
  write_object set (HeapObject.SetObject state) (StaleHeapEdge "Set object" set).

(** The counters after [try_set] or [try_add]. *)
Definition account (outcome : MapSetOutcome) : handler unit :=
  r ← get_runtime;
  put_runtime (mkRuntime (objects r)
    (match outcome with Inserted => saturating_add_u64 (collection_entries r) 1 | Updated => collection_entries r end)
    true (max_collection_entries r)).

Definition check_insertion (inserts : bool) : handler unit :=
  r ← get_runtime;
  if inserts then check_execution_limit (max_collection_entries r) (saturating_add_u64 (collection_entries r) 1)
  else mret tt.

Section with_allocator.
Context `{Allocator}.

Definition map_set (map : ObjectId) (k v : StoredValue) : handler unit :=
  let k := canonicalize_map_key k in
  r ← get_runtime;
  let inserts := match Arena.get (objects r) map ≫= HeapObject.map_state with
                 | Some state => negb (MapState.contains_key state k)
                 | None => false
                 end in
  check_insertion inserts ;;
  state ← map_state map;
  match MapState.try_set state k v with
  | Err _ => throw (AllocationFailed 1)
  | Ok (state, outcome) => write_map map state ;; account outcome
  end.

Definition set_add (set : ObjectId) (v : StoredValue) : handler unit :=
  let v := canonicalize_set_value v in
  r ← get_runtime;
  let inserts := match Arena.get (objects r) set ≫= HeapObject.set_state with
                 | Some state => negb (SetState.contains state v)
                 | None => false
                 end in
  check_insertion inserts ;;
  state ← set_state set;
  match SetState.try_add state v with
  | Err _ => throw (AllocationFailed 1)
  | Ok (state, outcome) => write_set set state ;; account outcome
  end.

(** ** Methods *)

(** [high * 2^32 + low] is exact below 2^53. *)
Definition map_size_number (length : Z) : NumberRepr := JsNumber.from_f64 (F64.from_int length).

Definition require_map (receiver : StoredValue) : handler ObjectId :=
  match receiver with
  | StoredValue.Object map =>
      object ← lookup_state Some map (StaleHeapEdge "Map object" map);
      match HeapObject.map_state object with
      | None => throw (TypeError "not a Map object")
      | Some _ => mret map
      end
  | _ => throw (TypeError "not a Map object")
  end.

Definition require_set (receiver : StoredValue) : handler ObjectId :=
  match receiver with
  | StoredValue.Object set =>
      object ← lookup_state Some set (StaleHeapEdge "Set object" set);
      match HeapObject.set_state object with
      | None => throw (TypeError "not a Set object")
      | Some _ => mret set
      end
  | _ => throw (TypeError "not a Set object")
  end.

(** The methods that neither call back nor allocate an iterator, with the
    arguments they take; [forEach], [getOrInsertComputed], [keys], [values] and
    [entries] are left out. *)
Inductive MapMethod : Set :=
| MapSet (k v : StoredValue)
| MapGet (k : StoredValue)
| MapHas (k : StoredValue)
| MapDelete (k : StoredValue)
| MapClear
| MapSize
| MapGetOrInsert (k v : StoredValue).

Definition dispatch_map_method (method : MapMethod) (receiver : StoredValue) : handler StoredValue :=
  map ← require_map receiver;
  charge_instructions 1 ;;
  match method with
  | MapSet k v => map_set map k v ;; mret receiver
  | MapGet k =>
      state ← map_state map;
      mret (default StoredValue.Undefined (MapState.get state k))
  | MapHas k =>
      state ← map_state map;
      mret (StoredValue.Boolean (MapState.contains_key state k))
  | MapDelete k =>
      state ← map_state map;
      let '(state, deleted) := MapState.delete state k in
      write_map map state ;; mret (StoredValue.Boolean deleted)
  | MapClear =>
      state ← map_state map;
      write_map map (MapState.clear state) ;; mret StoredValue.Undefined
  | MapSize =>
      state ← map_state map;
      mret (StoredValue.Number (map_size_number (MapState.size state)))
  | MapGetOrInsert k v =>
      state ← map_state map;
      match MapState.get state k with
      | Some found => mret found
      | None => map_set map k v ;; mret v
      end
  end.

Inductive SetMethod : Set :=
| SetAdd (v : StoredValue)
| SetHas (v : StoredValue)
| SetDelete (v : StoredValue)
| SetClear
| SetSize.

Definition dispatch_set_method (method : SetMethod) (receiver : StoredValue) : handler StoredValue :=
  set ← require_set receiver;
  charge_instructions 1 ;;
  match method with
  | SetAdd v => set_add set v ;; mret receiver
  | SetHas v =>
      state ← set_state set;
      mret (StoredValue.Boolean (SetState.contains state v))
  | SetDelete v =>
      state ← set_state set;
      let '(state, deleted) := SetState.delete state v in
      write_set set state ;; mret (StoredValue.Boolean deleted)
  | SetClear =>
      state ← set_state set;
      charge_instructions (SetState.retained_len state) ;;
      write_set set (SetState.clear state) ;; mret StoredValue.Undefined
  | SetSize =>
      state ← set_state set;
      mret (StoredValue.Number (map_size_number (SetState.size state)))
  end.

(** ** Cursors *)

(** The loop of [begin_map_iterator_next] and [advance_map_for_each] over the
    entries from [next] on: the live entry found, and the cursor behind it. *)
Fixpoint find_live (rest : list MapEntry) (next : nat) : handler (option MapEntry * nat) :=
  charge_instructions 1 ;;
  match rest with
  | [] => mret (None, next)
  | entry :: rest => if is_live entry then mret (Some entry, S next) else find_live rest (S next)
  end.

(** The first half of [begin_map_iterator_next], up to the preparation of the
    result object: the iterator, its kind, the entry found and the cursor behind
    it; nothing when the iterator has come to its end before. *)
Definition scan_map_iterator (receiver : StoredValue) :
    handler (option (ObjectId * MapIteratorKind * option MapEntry * nat)) :=
  match receiver with
  | StoredValue.Object iterator =>
      object ← lookup_state Some iterator (StaleHeapEdge "Map Iterator object" iterator);
      match HeapObject.map_iterator_state object with
      | None => throw (TypeError "Map Iterator object expected")
      | Some state =>
          match iterated state with
          | None => mret None
          | Some map =>
              table ← map_state map;
              '(found, next) ← find_live (drop (next state) (entries table)) (next state);
              mret (Some (iterator, iterator_kind state, found, next))
          end
      end
  | _ => throw (TypeError "Map Iterator object expected")
  end.

(** Its last part, once the result object is there: the cursor moves and an
    iterator that found nothing lets go of its Map. *)
Definition advance_map_iterator (iterator : ObjectId) (next' : nat) (done : bool) : handler unit :=
  state ← lookup_state HeapObject.map_iterator_state iterator
    (RuntimeInvariant "validated Map Iterator disappeared");
  let state := MapIterator.advance_to (next' - next state) state in
  write_object iterator
    (HeapObject.MapIteratorObject (if done then MapIterator.finish state else state))
    (RuntimeInvariant "validated Map Iterator disappeared").

(** The entry the callback is called with, and the cursor of the continuation. *)
Definition advance_map_for_each (map : ObjectId) (next : nat) : handler (option (StoredValue * StoredValue) * nat) :=
  state ← map_state map;
  '(found, next) ← find_live (drop next (entries state)) next;
  mret ((λ e, (value e, key e)) <$> found, next).

(** The loop of [copy_set_to_intrinsic] over the source's entries. *)
Fixpoint copy_entries (rest : list MapEntry) (copied : SetState) : result TryReserveError SetState :=
  match rest with
  | [] => Ok copied
  | entry :: rest =>
      if is_live entry then
        '(copied, _) ← SetState.try_add copied (key entry);
        copy_entries rest copied
      else copy_entries rest copied
  end.

(** Up to the allocation of the new Set object. *)
Definition copy_set_to_intrinsic (source : ObjectId) : handler SetState :=
  state ← set_state source;
  charge_instructions (SetState.retained_len state) ;;
  match SetState.try_with_capacity (SetState.size state) with
  | Err _ => throw (AllocationFailed (SetState.size state))
  | Ok copied =>
      match copy_entries (entries (data state)) copied with
      | Err _ => throw (AllocationFailed 1)
      | Ok copied => mret copied
      end
  end.
End with_allocator.
