(* ===== verification/CollectionFacts.v ===== *)
(** * Map and Set implement the specification's ordered data

    The reference is the [[MapData]] list of the language specification: a
    list of records whose deleted ones are empty and whose operations scan it
    with SameValueZero.  The hashed table implements it, methods change nothing
    else in the heap, and the scan of a Map iterator finds the next live
    entry. *)

From S2P Require Import Prelude RuntimePrelude JsStrings Arena ArenaFacts BigInt Values ValueFacts Collections.
From stdpp Require Import list.
Local Open Scope Z_scope.

Import NumberRepr(NumberRepr) StoredValue(StoredValue) MapKey(MapKey) HeapObject(HeapObject).

(** ** Reference: the data of a Map *)

Module EsMap.
Notation Data := (list (option (StoredValue * StoredValue))) (only parsing).

Definition matches (k : StoredValue) (record : option (StoredValue * StoredValue)) : bool :=
  match record with Some (k', _) => StoredValue.same_value_zero k' k | None => false end.

(** The position of the first record with the key. *)
Definition find (d : Data) (k : StoredValue) : option nat := fst <$> list_find (λ r, matches k r = true) d.

Definition CanonicalizeKeyedCollectionKey (k : StoredValue) : StoredValue :=
  match k with
  | StoredValue.Number n => if F64.eq (JsNumber.as_f64 n) 0 then StoredValue.Number (NumberRepr.Int 0) else k
  | _ => k
  end.

Definition get (d : Data) (k : StoredValue) : option StoredValue :=
  i ← find d k; r ← d !! i; snd <$> r.
Definition has (d : Data) (k : StoredValue) : bool := bool_decide (is_Some (find d k)).
Definition set (d : Data) (k v : StoredValue) : Data :=
  match find d k with
  | Some i => alter (fmap (M := option) (λ p, (p.1, v))) i d
  | None => d ++ [Some (CanonicalizeKeyedCollectionKey k, v)]
  end.
Definition delete (d : Data) (k : StoredValue) : Data * bool :=
  match find d k with Some i => (<[i := None]> d, true) | None => (d, false) end.
Definition clear (d : Data) : Data := (λ _, None) <$> d.
Definition size (d : Data) : Z := len (filter is_Some d).

(** A method call on the Map [this]: the data afterwards and the result. *)
Definition method (m : MapMethod) (this : StoredValue) (d : Data) : Data * StoredValue :=
  match m with
  | MapSet k v => (set d k v, this)
  | MapGet k => (d, default StoredValue.Undefined (get d k))
  | MapHas k => (d, StoredValue.Boolean (has d k))
  | MapDelete k => let '(d, deleted) := delete d k in (d, StoredValue.Boolean deleted)
  | MapClear => (clear d, StoredValue.Undefined)
  | MapSize => (d, StoredValue.Number (JsNumber.from_f64 (F64.from_int (size d))))
  | MapGetOrInsert k v => match get d k with Some found => (d, found) | None => (set d k v, v) end
  end.

(** The method adds a record. *)
Definition appends (m : MapMethod) (d : Data) : bool :=
  match m with MapSet k _ | MapGetOrInsert k _ => negb (has d k) | _ => false end.
End EsMap.

(** ** Keys *)

Lemma map_key_refl a : MapKey.eq a a = true.
Proof.
  destruct a; simpl; try done; try (by rewrite bool_decide_eq_true_2); try apply Z.eqb_refl.
  - apply Bool.eqb_reflx.
  - unfold StoredValue.string_eq. by rewrite bool_decide_eq_true_2.
Qed.

(** Equal keys are equal to the same keys. *)
Lemma map_key_left a b c : MapKey.eq a b = true → MapKey.eq a c = MapKey.eq b c.
Proof.
  destruct a, b; simpl; try done; unfold StoredValue.string_eq, is_same_identity; intros E.
  - apply Bool.eqb_prop in E. by subst.
  - apply Z.eqb_eq in E. by subst.
  - apply bool_decide_eq_true in E. by subst.
  - apply bool_decide_eq_true in E. destruct c; try done. by rewrite E.
  - apply Z.eqb_eq in E. destruct c; try done. by rewrite E.
  - apply bool_decide_eq_true in E. by subst.
  - apply bool_decide_eq_true in E. by subst.
Qed.

Lemma map_key_sym a b : MapKey.eq a b = MapKey.eq b a.
Proof.
  apply eq_bool_prop_intro. rewrite !Is_true_true. split; intros E.
  - rewrite <- (map_key_left _ _ a E). apply map_key_refl.
  - rewrite <- (map_key_left _ _ b E). apply map_key_refl.
Qed.

Lemma nan_key : F64.is_nan F64.NAN = true. Proof. done. Qed.

(** The projection identifies the values that SameValueZero does. *)
Lemma map_key_exact a b : value_ok a → value_ok b →
  MapKey.eq (MapKey.from_value a) (MapKey.from_value b) = StoredValue.same_value_zero a b.
Proof.
  intros Ha Hb. destruct a as [| |x|n|x|s|x|x|x], b as [| |y|m|y|t|y|y|y]; try done. simpl in *.
  apply eq_bool_prop_intro. rewrite !Is_true_true, Z.eqb_eq, same_value_zero_spec by done.
  pose proof (as_f64_ok n Ha) as Hn. pose proof (as_f64_ok m Hb) as Hm.
  set (x := JsNumber.as_f64 n) in *. set (y := JsNumber.as_f64 m) in *. clearbody x y. clear Ha Hb n m.
  assert (is_f64 0) as H0 by (unfold is_f64; solve_ints).
  assert (∀ z, is_f64 z → F64.eq z 0 = true ↔ F64.is_nan z = false ∧ F64.magnitude z = 0) as Hz.
  { intros z Hz. rewrite f64_eq_spec by done. split; [|naive_solver]. intros (? & _ & [->|[? _]]); done. }
  rewrite (f64_eq_spec x y) by done.
  destruct (F64.eq x 0) eqn:Ex; [apply Hz in Ex as [Ex1 Ex2]; [|done]|].
  - destruct (F64.eq y 0) eqn:Ey; [apply Hz in Ey as [Ey1 Ey2]; [|done]; naive_solver|].
    split; [|intros [[? _]|(_ & Hy & [->|[_ ?]])]; [congruence| |]; exfalso; rewrite (proj2 (Hz y Hm)) in Ey; naive_solver].
    destruct (F64.is_nan y) eqn:Ny; [done|]. intros <-. exfalso. by vm_compute in Ey.
  - assert (¬ (F64.is_nan x = false ∧ F64.magnitude x = 0)) as Hx by (intros ?%Hz; [congruence|done]).
    destruct (F64.eq y 0) eqn:Ey; [apply Hz in Ey as [Ey1 Ey2]; [|done]|].
    + destruct (F64.is_nan x) eqn:Nx; [split; [done|naive_solver]|].
      split; [intros ->; by destruct Hx|]. intros [[? _]|(_ & _ & [->|[? _]])]; [done|by destruct Hx|by destruct Hx].
    + destruct (F64.is_nan x) eqn:Nx, (F64.is_nan y) eqn:Ny.
      * naive_solver.
      * split; [intros <-; by rewrite nan_key in Ny|naive_solver].
      * split; [intros ->; by rewrite nan_key in Nx|naive_solver].
      * naive_solver.
Qed.

(** ** Hash tables *)

Lemma index_get_remove (m : list (MapKey * nat)) k k' :
  HashMap.get MapKey.eq (HashMap.remove MapKey.eq m k) k' =
  if MapKey.eq k k' then None else HashMap.get MapKey.eq m k'.
Proof.
  unfold HashMap.remove. induction m as [|[k0 v] m IH]; simpl; [by case_match|]. rewrite filter_cons. simpl.
  destruct (decide (MapKey.eq k0 k = false)) as [E|E]; simpl.
  - rewrite IH. destruct (MapKey.eq k0 k') eqn:E0; [|done]. destruct (MapKey.eq k k') eqn:Ek; [|done].
    rewrite map_key_sym in Ek. rewrite (map_key_left k0 k' k E0) in E. congruence.
  - rewrite IH. apply not_false_is_true in E. rewrite (map_key_left k0 k k' E). by case_match.
Qed.

Lemma index_get_insert (m : list (MapKey * nat)) k v k' :
  HashMap.get MapKey.eq (HashMap.insert MapKey.eq m k v) k' =
  if MapKey.eq k k' then Some v else HashMap.get MapKey.eq m k'.
Proof. unfold HashMap.insert. simpl. rewrite index_get_remove. by case_match. Qed.

(** ** The invariant of a table *)

Definition canonical (k : StoredValue) : Prop := canonicalize_map_key k = k.

Record table_ok (st : MapState) : Prop := mkTableOk {
  ok_index : ∀ k i, HashMap.get MapKey.eq (map_index st) k = Some i ↔
    ∃ e, entries st !! i = Some e ∧ is_live e = true ∧ MapKey.eq (MapKey.from_value (key e)) k = true;
  ok_live : live_count st = len (filter (λ e, is_live e = true) (entries st));
  ok_entries : Forall (λ e, value_ok (key e) ∧ canonical (key e) ∧ (is_live e = false → e = tombstone)) (entries st)
}.

Definition record (e : MapEntry) : option (StoredValue * StoredValue) :=
  if is_live e then Some (key e, value e) else None.
Definition contents (st : MapState) : list (option (StoredValue * StoredValue)) := record <$> entries st.

Lemma canonicalize_es k : canonicalize_map_key k = EsMap.CanonicalizeKeyedCollectionKey k.
Proof. by destruct k. Qed.

Lemma canonicalize_key k : MapKey.from_value (canonicalize_map_key k) = MapKey.from_value k.
Proof. destruct k as [| | |n| | | | |]; try done. simpl. destruct (F64.eq (JsNumber.as_f64 n) 0) eqn:E; simpl; [done|by rewrite E]. Qed.

Lemma canonicalize_ok k : value_ok k → value_ok (canonicalize_map_key k) ∧ canonical (canonicalize_map_key k).
Proof.
  intros Hk. unfold canonical. destruct k as [| | |n| | | | |]; try done. simpl.
  destruct (F64.eq (JsNumber.as_f64 n) 0) eqn:E; simpl; [by split|by rewrite E].
Qed.

Lemma find_exact st k : table_ok st → value_ok k →
  HashMap.get MapKey.eq (map_index st) (MapKey.from_value k) = EsMap.find (contents st) k.
Proof.
  intros Hok Hk. assert (∀ i, (∃ r, contents st !! i = Some r ∧ EsMap.matches k r = true) ↔
    HashMap.get MapKey.eq (map_index st) (MapKey.from_value k) = Some i) as Hm.
  { intros i. rewrite (ok_index _ Hok). unfold contents. split.
    - intros (r & Hr & Hm). rewrite list_lookup_fmap in Hr. destruct (entries st !! i) as [e|] eqn:He; simplify_eq/=.
      exists e. unfold record in Hm. destruct (is_live e) eqn:El; [|done]. split_and!; [done..|].
      pose proof (proj1 (Forall_lookup _ _) (ok_entries _ Hok) _ _ He) as (Hv & _). by rewrite map_key_exact.
    - intros (e & He & El & Hm). exists (record e). rewrite list_lookup_fmap, He. split; [done|]. unfold record. rewrite El.
      pose proof (proj1 (Forall_lookup _ _) (ok_entries _ Hok) _ _ He) as (Hv & _). by rewrite map_key_exact in Hm. }
  unfold EsMap.find. destruct (list_find _ _) as [[i r]|] eqn:Ef; simpl.
  - apply list_find_Some in Ef as (Hi & Hr & _). apply Hm. eauto.
  - destruct (HashMap.get _ _ _) as [i|] eqn:Ei; [|done]. destruct (proj2 (Hm i) eq_refl) as (r & Hr & Hmr).
    apply list_find_None in Ef. by eapply Forall_lookup_1 in Ef.
Qed.

(** What the index finds is a live entry. *)
Lemma index_live st k i : table_ok st → HashMap.get MapKey.eq (map_index st) k = Some i →
  ∃ e, entries st !! i = Some e ∧ is_live e = true ∧ contents st !! i = Some (Some (key e, value e)).
Proof.
  intros Hok Hi. apply (ok_index _ Hok) in Hi as (e & He & El & _). exists e. split_and!; [done..|].
  unfold contents. rewrite list_lookup_fmap, He. unfold record. simpl. by rewrite El.
Qed.

Lemma get_exact st k : table_ok st → value_ok k → MapState.get st k = EsMap.get (contents st) k.
Proof.
  intros Hok Hk. unfold MapState.get, EsMap.get. rewrite <- find_exact by done.
  destruct (HashMap.get _ _ _) as [i|] eqn:Ei; [|done]. destruct (index_live _ _ _ Hok Ei) as (e & He & El & Hc).
  simpl. rewrite He, Hc. simpl. by rewrite El.
Qed.

Lemma contains_exact st k : table_ok st → value_ok k → MapState.contains_key st k = EsMap.has (contents st) k.
Proof. intros Hok Hk. unfold MapState.contains_key, EsMap.has. by rewrite find_exact. Qed.

(** The live entries, counted. *)
Definition live_len (l : list MapEntry) : Z := len (filter (λ e, is_live e = true) l).

Lemma live_len_app l l' : live_len (l ++ l') = live_len l + live_len l'.
Proof. unfold live_len. by rewrite filter_app, len_app. Qed.

Lemma live_len_cons e l : live_len (e :: l) = (if is_live e then 1 else 0) + live_len l.
Proof. unfold live_len. rewrite filter_cons. destruct (is_live e); simpl; unfold len; simpl; lia. Qed.

Lemma live_len_bound l : 0 ≤ live_len l ≤ len l.
Proof. induction l as [|e l IH]; [done|]. rewrite live_len_cons. unfold len in *. simpl. destruct (is_live e); lia. Qed.

Lemma live_len_insert l i e e' : l !! i = Some e →
  live_len (<[i := e']> l) = live_len l - (if is_live e then 1 else 0) + (if is_live e' then 1 else 0).
Proof.
  revert i. induction l as [|x l IH]; intros [|i] Hi; simplify_eq/=; rewrite !live_len_cons; [lia|]. rewrite (IH i) by done. lia.
Qed.

Lemma size_exact st : table_ok st → MapState.size st = EsMap.size (contents st).
Proof.
  intros Hok. unfold MapState.size. rewrite (ok_live _ Hok). fold (live_len (entries st)). unfold contents, EsMap.size. clear.
  induction (entries st) as [|e l IH]; [done|]. rewrite live_len_cons, IH, fmap_cons, filter_cons. unfold record at 2.
  destruct (decide _) as [[p Hp]|Hn]; unfold record in *; destruct (is_live e); unfold len; simpl; try lia; try done.
  destruct Hn; eauto.
Qed.

Lemma empty_ok : table_ok MapState.empty.
Proof. split; [|done|constructor]. intros k i. simpl. split; [done|]. intros (e & He & _). by rewrite lookup_nil in He. Qed.

Section updates.
Context `{Allocator}.

(** Overwriting a value in place. *)
Lemma overwrite_ok st i e v : table_ok st → entries st !! i = Some e → is_live e = true →
  table_ok (mkMapState (<[i := mkEntry (key e) v true]> (entries st)) (map_index st) (live_count st)).
Proof.
  intros Hok He El. split; cbn [entries map_index live_count].
  - intros k j. rewrite (ok_index _ Hok). destruct (decide (i = j)) as [<-|Hne].
    + rewrite He, list_lookup_insert_eq by (by eapply lookup_lt_Some). split; intros (e' & E & ? & ?); simplify_eq; eauto.
    + by rewrite list_lookup_insert_ne.
  - rewrite (ok_live _ Hok). fold (live_len (entries st)). fold (live_len (<[i := mkEntry (key e) v true]> (entries st))).
    rewrite (live_len_insert _ _ e) by done. rewrite El. simpl. lia.
  - apply Forall_insert; [apply Hok|]. simpl. pose proof (proj1 (Forall_lookup _ _) (ok_entries _ Hok) _ _ He). naive_solver.
Qed.

Lemma append_ok st k v : table_ok st → value_ok k → canonical k → MapState.retained_len st < u64_max →
  EsMap.find (contents st) k = None →
  table_ok (mkMapState (entries st ++ [mkEntry k v true])
    (HashMap.insert MapKey.eq (map_index st) (MapKey.from_value k) (length (entries st)))
    (saturating_add_u64 (live_count st) 1)).
Proof.
  intros Hok Hk Hc Hlen Hnone. rewrite <- find_exact in Hnone by done. split; cbn [entries map_index live_count].
  - intros k' i. rewrite index_get_insert. destruct (MapKey.eq (MapKey.from_value k) k') eqn:E.
    + split; [intros [= <-]; exists (mkEntry k v true); by rewrite lookup_app_r, Nat.sub_diag by lia|].
      intros (e & He & El & Hm). apply lookup_app_Some in He as [He|[Hi He]].
      * exfalso. rewrite map_key_sym in E. rewrite map_key_sym, (map_key_left _ _ _ E), map_key_sym in Hm.
        assert (HashMap.get MapKey.eq (map_index st) (MapKey.from_value k) = Some i) as Hs; [|congruence].
        apply (ok_index _ Hok). eauto.
      * f_equal. apply list_lookup_singleton_Some in He as [? _]. lia.
    + rewrite (ok_index _ Hok). split.
      * intros (e & He & ?). exists e. split; [by apply lookup_app_l_Some|done].
      * intros (e & He & El & Hm). apply lookup_app_Some in He as [He|[Hi He]]; [eauto|].
        apply list_lookup_singleton_Some in He as [_ <-]. simpl in Hm. congruence.
  - rewrite (ok_live _ Hok). fold (live_len (entries st)). fold (live_len (entries st ++ [mkEntry k v true])).
    rewrite live_len_app, live_len_cons. simpl. pose proof (live_len_bound (entries st)). unfold MapState.retained_len in Hlen.
    unfold saturating_add_u64. change (live_len []) with 0. lia.
  - apply Forall_app. split; [apply Hok|]. repeat constructor; done.
Qed.

Lemma contents_append st k v ix n : contents (mkMapState (entries st ++ [mkEntry k v true]) ix n) = contents st ++ [Some (k, v)].
Proof. unfold contents. simpl. by rewrite fmap_app. Qed.

Lemma contents_overwrite st i e v ix n : entries st !! i = Some e → is_live e = true →
  contents (mkMapState (<[i := mkEntry (key e) v true]> (entries st)) ix n)
  = alter (fmap (M := option) (λ p, (p.1, v))) i (contents st).
Proof.
  intros He El. unfold contents. simpl. apply list_eq. intros j. rewrite list_lookup_fmap. destruct (decide (i = j)) as [<-|Hne].
  - rewrite list_lookup_insert_eq by (by eapply lookup_lt_Some).
    rewrite list_lookup_alter_eq, list_lookup_fmap, He. unfold record. simpl. by rewrite El.
  - by rewrite list_lookup_insert_ne, list_lookup_alter_ne, list_lookup_fmap.
Qed.

(** [try_set] of a canonicalized key: the specification's update, or a refusal
    of the host when a record has to be added. *)
Lemma try_set_exact st k v : table_ok st → value_ok k → MapState.retained_len st < u64_max →
  match MapState.try_set st (canonicalize_map_key k) v with
  | Ok (st', o) => table_ok st' ∧ contents st' = EsMap.set (contents st) k v
      ∧ MapState.retained_len st' = MapState.retained_len st + (if EsMap.has (contents st) k then 0 else 1)
      ∧ o = (if EsMap.has (contents st) k then Updated else Inserted)
  | Err _ => EsMap.has (contents st) k = false ∧ refuses
  end.
Proof.
  intros Hok Hk Hlen. unfold MapState.try_set, EsMap.set, EsMap.has. rewrite canonicalize_key, find_exact by done.
  destruct (EsMap.find (contents st) k) as [i|] eqn:Ef.
  - rewrite <- find_exact in Ef by done. destruct (index_live _ _ _ Hok Ef) as (e & He & El & _). rewrite He, El.
    rewrite bool_decide_eq_true_2 by eauto. split_and!; [by apply overwrite_ok|by apply contents_overwrite| |done].
    unfold MapState.retained_len, len. simpl. rewrite length_insert. lia.
  - rewrite bool_decide_eq_false_2 by (intros [? ?]; done). unfold MapState.append, reserve.
    destruct (canonicalize_ok k Hk) as [Hk' Hc].
    destruct (try_reserve "map entries" _ _) eqn:E1; simpl; [|split; [done|by eexists _, _, _]].
    destruct (try_reserve "map index" _ _) eqn:E2; simpl; [|split; [done|by eexists _, _, _]].
    split_and!; [apply append_ok; try done| | |done].
    + rewrite <- find_exact in Ef |- * by done. by rewrite canonicalize_key.
    + by rewrite contents_append, canonicalize_es.
    + unfold MapState.retained_len. simpl. by rewrite len_app.
Qed.

Lemma delete_exact st k : table_ok st → value_ok k →
  table_ok (MapState.delete st k).1
  ∧ (contents (MapState.delete st k).1, (MapState.delete st k).2) = EsMap.delete (contents st) k
  ∧ MapState.retained_len (MapState.delete st k).1 = MapState.retained_len st.
Proof.
  intros Hok Hk. unfold MapState.delete, EsMap.delete. rewrite find_exact by done.
  destruct (EsMap.find (contents st) k) as [i|] eqn:Ef; [|done].
  rewrite <- find_exact in Ef by done. destruct (index_live _ _ _ Hok Ef) as (e & He & El & _). rewrite He. simpl. split_and!.
  - split; cbn [entries map_index live_count].
    + intros k' j. rewrite index_get_remove. destruct (MapKey.eq (MapKey.from_value k) k') eqn:E.
      * split; [done|]. intros (e' & He' & El' & Hm). exfalso. destruct (decide (i = j)) as [<-|Hne].
        { rewrite list_lookup_insert_eq in He' by (by eapply lookup_lt_Some). by simplify_eq. }
        rewrite list_lookup_insert_ne in He' by done. rewrite map_key_sym in E.
        rewrite map_key_sym, (map_key_left _ _ _ E), map_key_sym in Hm.
        assert (HashMap.get MapKey.eq (map_index st) (MapKey.from_value k) = Some j) as Hs; [|congruence].
        apply (ok_index _ Hok). eauto.
      * rewrite (ok_index _ Hok). destruct (decide (i = j)) as [<-|Hne]; [|by rewrite list_lookup_insert_ne].
        rewrite list_lookup_insert_eq by (by eapply lookup_lt_Some). split.
        -- intros (e' & He' & _ & Hm). simplify_eq. apply (ok_index _ Hok) in Ef as (e' & He' & _ & Hm').
           simplify_eq. rewrite (map_key_left _ _ _ Hm') in Hm. congruence.
        -- intros (e' & He' & El' & _). by simplify_eq.
    + rewrite (ok_live _ Hok). fold (live_len (entries st)). fold (live_len (<[i := tombstone]> (entries st))).
      rewrite (live_len_insert _ _ e) by done. rewrite El. simpl. unfold saturating_sub.
      pose proof (live_len_insert (entries st) i e tombstone He) as Hd. rewrite El in Hd. simpl in Hd.
      pose proof (live_len_bound (<[i := tombstone]> (entries st))). lia.
    + apply Forall_insert; [apply Hok|]. done.
  - f_equal. unfold contents. simpl. by rewrite list_fmap_insert.
  - unfold MapState.retained_len, len. simpl. by rewrite length_insert.
Qed.

Lemma clear_exact st : table_ok (MapState.clear st) ∧ contents (MapState.clear st) = EsMap.clear (contents st)
  ∧ MapState.retained_len (MapState.clear st) = MapState.retained_len st.
Proof.
  split_and!.
  - split; simpl.
    + intros k i. split; [done|]. intros (e & He & El & _). unfold MapState.clear in He. cbn [entries] in He. rewrite list_lookup_fmap in He. by destruct (entries st !! i); simplify_eq/=.
    + induction (entries st) as [|e l IH]; [done|]. by rewrite fmap_cons, filter_cons.
    + apply Forall_fmap, Forall_true. done.
  - unfold contents, EsMap.clear. simpl. rewrite <- !list_fmap_compose. done.
  - unfold MapState.retained_len, len. simpl. by rewrite length_fmap.
Qed.
End updates.

(** ** Handlers *)

(** Writing through [get_mut] replaces one object. *)
Lemma arena_write {T} (a : Arena T) id v : Arena.get a id = Some v →
  ∃ write, Arena.get_mut a id = Some (v, write)
    ∧ ∀ v' id', Arena.get (write v') id' = if decide (id' = id) then Some v' else Arena.get a id'.
Proof.
  intros Hg. pose proof Hg as [Hrt Hs]%get_Some. unfold Arena.get_mut.
  assert (Arena.checked_slot a id = Some (mkSlot (generation id) (Occupied v))) as -> by (by apply checked_slot_Some).
  eexists. split; [reflexivity|]. intros v' id'. destruct (decide (id' = id)) as [->|Hne].
  - apply get_Some. simpl. rewrite list_lookup_insert_eq by (by eapply lookup_lt_Some). done.
  - apply option_eq. intros x. rewrite !get_Some. simpl. destruct (decide (index id' = index id)) as [E|E].
    + rewrite E, list_lookup_insert_eq, Hs by (by eapply lookup_lt_Some).
      destruct id' as [r i g], id as [r0 i0 g0]; simpl in *. naive_solver.
    + by rewrite list_lookup_insert_ne.
Qed.

Notation heap w id := (Arena.get (objects (world_runtime w)) id).

(** The two worlds differ at most in the object [id]. *)
Definition only_changes (id : ObjectId) (w w' : World) : Prop := ∀ id', id' ≠ id → heap w' id' = heap w id'.

Lemma write_object_run w id object object' e : heap w id = Some object →
  ∃ objects', write_object id object' e w =
    (mkWorld (mkRuntime objects' (collection_entries (world_runtime w)) (collection_pending (world_runtime w))
       (max_collection_entries (world_runtime w))) (execution_budget w), Ok tt)
  ∧ ∀ id', Arena.get objects' id' = if decide (id' = id) then Some object' else heap w id'.
Proof.
  intros Hg. destruct (arena_write _ _ _ Hg) as (write & Hm & Hw). exists (write object'). split; [|by intros].
  unfold write_object, mbind, stateful_bind, get_runtime. simpl. by rewrite Hm.
Qed.

Lemma lookup_state_run {S} (select : HeapObject → option S) w id object s e :
  heap w id = Some object → select object = Some s → lookup_state select id e w = (w, Ok s).
Proof.
  intros Hg Hs. unfold lookup_state. unfold mbind at 1, stateful_bind, get_runtime. simpl. rewrite Hg. simpl. by rewrite Hs.
Qed.

(** Budgets as the runtime keeps them. *)
Definition budget_ok (b : ExecutionBudget) : Prop := 0 ≤ executed_instructions b ≤ instruction_limit b ∧ instruction_limit b ≤ u64_max.

Lemma charge_run w n : budget_ok (execution_budget w) → 0 ≤ n →
  charge_instructions n w =
  if instruction_limit (execution_budget w) <? executed_instructions (execution_budget w) + n then
    (mkWorld (world_runtime w) (mkBudget (instruction_limit (execution_budget w)) (instruction_limit (execution_budget w))),
     Err (InstructionLimitExceeded (instruction_limit (execution_budget w)) (instruction_limit (execution_budget w))))
  else
    (mkWorld (world_runtime w) (mkBudget (instruction_limit (execution_budget w)) (executed_instructions (execution_budget w) + n)), Ok tt).
Proof.
  intros [Hb Hl] Hn. unfold charge_instructions, saturating_sub, saturating_add_u64.
  destruct (Z.ltb_spec (Z.max (instruction_limit (execution_budget w) - executed_instructions (execution_budget w)) 0) n),
    (Z.ltb_spec (instruction_limit (execution_budget w)) (executed_instructions (execution_budget w) + n)); try lia; [done|].
  repeat f_equal. lia.
Qed.

Ltac step_runtime := step_handler; try unfold get_runtime at 1; cbv beta iota zeta.

(** The runtime's count of retained entries follows the table. *)
Definition accounted (w w' : World) (appended : bool) : Prop :=
  collection_entries (world_runtime w') =
    if appended then saturating_add_u64 (collection_entries (world_runtime w)) 1 else collection_entries (world_runtime w).

(** How an insertion can be refused. *)
Definition insertion_refused `{Allocator} (w : World) (e : NativeFailure) : Prop :=
  (∃ observed, observed = saturating_add_u64 (collection_entries (world_runtime w)) 1
     ∧ e = LimitExceeded (max_collection_entries (world_runtime w)) observed
     ∧ max_collection_entries (world_runtime w) < observed)
  ∨ e = AllocationFailed 1 ∧ refuses.

Section handlers.
Context `{Allocator}.

Lemma check_insertion_run w inserts :
  check_insertion inserts w = (w, Ok tt)
  ∨ inserts = true ∧ ∃ e, check_insertion inserts w = (w, Err e) ∧ insertion_refused w e.
Proof.
  unfold check_insertion, mbind, stateful_bind, get_runtime. destruct inserts; [|by left]. unfold check_execution_limit.
  destruct (Z.leb_spec (saturating_add_u64 (collection_entries (world_runtime w)) 1) (max_collection_entries (world_runtime w))); [by left|].
  right. split; [done|]. eexists. split; [reflexivity|]. left. eauto.
Qed.

Lemma map_set_exact w id st k v : heap w id = Some (HeapObject.MapObject st) → table_ok st → value_ok k →
  MapState.retained_len st < u64_max →
  match map_set id k v w with
  | (w', Ok _) => ∃ st', heap w' id = Some (HeapObject.MapObject st') ∧ table_ok st'
      ∧ contents st' = EsMap.set (contents st) k v ∧ only_changes id w w'
      ∧ execution_budget w' = execution_budget w ∧ accounted w w' (negb (EsMap.has (contents st) k))
  | (w', Err e) => w' = w ∧ EsMap.has (contents st) k = false ∧ insertion_refused w e
  end.
Proof.
  intros Hg Hok Hk Hlen. destruct (canonicalize_ok k Hk) as [Hk' _].
  unfold map_set. step_runtime. rewrite Hg. cbn [mbind option_bind HeapObject.map_state].
  assert (MapState.contains_key st (canonicalize_map_key k) = EsMap.has (contents st) k) as ->.
  { rewrite <- contains_exact by done. unfold MapState.contains_key. by rewrite canonicalize_key. }
  step_runtime. destruct (check_insertion_run w (negb (EsMap.has (contents st) k))) as [->|(Hi & e & -> & He)];
    [|split_and!; [done|by apply negb_true_iff|done]].
  step_runtime. unfold map_state. rewrite (lookup_state_run _ _ _ _ st _ Hg eq_refl).
  pose proof (try_set_exact st k v Hok Hk Hlen) as Hs. destruct (MapState.try_set st (canonicalize_map_key k) v) as [[st' o]|e].
  - destruct Hs as (Hok' & Hc & Hr & ->). step_runtime. unfold write_map.
    destruct (write_object_run w id _ (HeapObject.MapObject st') (StaleHeapEdge "Map object" id) Hg) as (objs & -> & Hw).
    unfold account. step_runtime. unfold put_runtime. exists st'. cbn [world_runtime objects execution_budget]. split_and!; try done.
    + by rewrite Hw, decide_True.
    + intros id' Hne. cbn [world_runtime objects]. by rewrite Hw, decide_False.
    + unfold accounted. cbn [world_runtime collection_entries]. by destruct (EsMap.has (contents st) k).
  - split_and!; [done|apply Hs|right; split; [done|apply Hs]].
Qed.
End handlers.

(** The arguments of a call are values. *)
Definition map_arguments_ok (m : MapMethod) : Prop :=
  match m with
  | MapSet k v | MapGetOrInsert k v => value_ok k ∧ value_ok v
  | MapGet k | MapHas k | MapDelete k => value_ok k
  | MapClear | MapSize => True
  end.

(** A call that returns ends in the specified data and result. *)
Definition call_returns (m : MapMethod) (id : ObjectId) (st : MapState) (w w' : World) (v : StoredValue) : Prop :=
  ∃ st', heap w' id = Some (HeapObject.MapObject st') ∧ table_ok st'
    ∧ EsMap.method m (StoredValue.Object id) (contents st) = (contents st', v)
    ∧ only_changes id w w' ∧ accounted w w' (EsMap.appends m (contents st)).

(** A call that fails has changed no object. *)
Definition call_fails `{Allocator} (m : MapMethod) (st : MapState) (w w' : World) (e : NativeFailure) : Prop :=
  world_runtime w' = world_runtime w
  ∧ (executed_instructions (execution_budget w) = instruction_limit (execution_budget w)
     ∧ e = InstructionLimitExceeded (instruction_limit (execution_budget w)) (instruction_limit (execution_budget w))
     ∨ EsMap.appends m (contents st) = true ∧ insertion_refused w e).

Section methods.
Context `{Allocator}.

(** Writing a new state that is the specified one. *)
Lemma write_map_returns m id st st' w w0 v : heap w id = Some (HeapObject.MapObject st) → world_runtime w0 = world_runtime w →
  table_ok st' → EsMap.method m (StoredValue.Object id) (contents st) = (contents st', v) →
  EsMap.appends m (contents st) = false →
  ∃ w', (write_map id st' ;; mret v) w0 = (w', Ok v) ∧ call_returns m id st w w' v.
Proof.
  intros Hg Ew Hok Hm Ha. unfold write_map. step_runtime.
  destruct (write_object_run w0 id (HeapObject.MapObject st) (HeapObject.MapObject st') (StaleHeapEdge "Map object" id))
    as (objs & -> & Hw); [by rewrite Ew|].
  eexists. split; [reflexivity|]. exists st'. cbn [world_runtime objects]. split_and!; try done.
  - by rewrite Hw, decide_True.
  - intros id' Hne. cbn [world_runtime objects]. by rewrite Hw, decide_False, Ew.
  - unfold accounted. rewrite Ha. cbn [world_runtime collection_entries]. by rewrite Ew.
Qed.

(** A call that only reads. *)
Lemma read_returns m id st w w0 v : heap w id = Some (HeapObject.MapObject st) → world_runtime w0 = world_runtime w →
  table_ok st → EsMap.method m (StoredValue.Object id) (contents st) = (contents st, v) →
  EsMap.appends m (contents st) = false → call_returns m id st w w0 v.
Proof.
  intros Hg Ew Hok Hm Ha. exists st. unfold only_changes, accounted. rewrite Ha, Ew. by split_and!.
Qed.

(** A call that sets. *)
Lemma set_returns m id st w w0 k x v : heap w id = Some (HeapObject.MapObject st) → world_runtime w0 = world_runtime w →
  table_ok st → value_ok k → MapState.retained_len st < u64_max →
  EsMap.method m (StoredValue.Object id) (contents st) = (EsMap.set (contents st) k x, v) →
  EsMap.appends m (contents st) = negb (EsMap.has (contents st) k) →
  match (map_set id k x ;; mret v) w0 with
  | (w', Ok u) => u = v ∧ call_returns m id st w w' v
  | (w', Err e) => call_fails m st w w' e
  end.
Proof.
  intros Hg Ew Hok Hk Hlen Hm Ha. step_runtime. pose proof (map_set_exact w0 id st k x) as Hs. rewrite Ew in Hs.
  specialize (Hs Hg Hok Hk Hlen). destruct (map_set id k x w0) as [w' [[]|e]].
  - split; [done|]. destruct Hs as (st' & Hg' & Hok' & Hc & Ho & _ & Hacc). exists st'. rewrite Hc, Ha.
    unfold only_changes, accounted in *. rewrite Ew in *. by split_and!.
  - destruct Hs as (-> & Hh & Hr). split; [done|]. right. rewrite Ha, Hh. unfold insertion_refused in *. by rewrite Ew in Hr.
Qed.
End methods.

Lemma require_map_run w id st : heap w id = Some (HeapObject.MapObject st) → require_map (StoredValue.Object id) w = (w, Ok id).
Proof. intros Hg. unfold require_map. step_runtime. by rewrite (lookup_state_run Some _ _ _ _ _ Hg eq_refl). Qed.

Lemma map_state_run w id st : heap w id = Some (HeapObject.MapObject st) → map_state id w = (w, Ok st).
Proof. intros Hg. by apply (lookup_state_run _ _ _ _ _ _ Hg). Qed.

(** C30. Every method of a Map that calls back no user code is the
    specification's: on a Map whose table is well formed, a call returns what
    scanning the ordered [[MapData]] list with SameValueZero returns and leaves
    the list as specified (keys canonicalized, records updated in place, deleted
    ones emptied, new ones appended), the table well formed, every other object
    of the heap untouched and the runtime's entry count adjusted; a call that
    fails has changed no object, and fails only for an exhausted budget, or
    when it has to add a record and the collection limit or the host refuses. *)
Theorem map_methods_exact `{Allocator} m w id st :
  heap w id = Some (HeapObject.MapObject st) → table_ok st → MapState.retained_len st < 2 ^ 53 →
  map_arguments_ok m → budget_ok (execution_budget w) →
  match dispatch_map_method m (StoredValue.Object id) w with
  | (w', Ok v) => call_returns m id st w w' v
  | (w', Err e) => call_fails m st w w' e
  end.
Proof.
  intros Hg Hok Hlen Hm Hb. assert (MapState.retained_len st < u64_max) as Hlen' by (unfold u64_max; lia).
  unfold dispatch_map_method. step_runtime. rewrite (require_map_run _ _ _ Hg). step_runtime. rewrite charge_run by done.
  destruct (Z.ltb_spec (instruction_limit (execution_budget w)) (executed_instructions (execution_budget w) + 1)) as [Hlt|Hle].
  { split; [done|]. left. split; [|done]. destruct Hb. lia. }
  set (w0 := mkWorld _ _). assert (world_runtime w0 = world_runtime w) as Ew by done.
  assert (heap w0 id = Some (HeapObject.MapObject st)) as Hg0 by done. clearbody w0.
  destruct m as [k v|k|k|k| | |k v]; try (step_runtime; rewrite (map_state_run _ _ _ Hg0)).
  - destruct Hm. pose proof (set_returns (MapSet k v) id st w w0 k v (StoredValue.Object id)) as Hs.
    destruct ((map_set id k v;; mret _) w0) as [w' [u|e]]; [|by apply Hs]. by destruct Hs as [-> ?].
  - apply read_returns; try done. simpl. by rewrite get_exact.
  - apply read_returns; try done. simpl. by rewrite contains_exact.
  - destruct (delete_exact st k Hok Hm) as (Hok' & Hc & _). destruct (MapState.delete st k) as [st' deleted].
    destruct (write_map_returns (MapDelete k) id st st' w w0 (StoredValue.Boolean deleted)) as (w' & -> & Hr); try done.
    simpl in *. by rewrite <- Hc.
  - destruct (clear_exact st) as (Hok' & Hc & _).
    destruct (write_map_returns MapClear id st (MapState.clear st) w w0 StoredValue.Undefined) as (w' & -> & Hr); try done.
    simpl. by rewrite Hc.
  - apply read_returns; try done. simpl. by rewrite <- size_exact.
  - destruct Hm as [Hk Hv]. rewrite get_exact by done.
    assert (EsMap.get (contents st) k = None ↔ EsMap.has (contents st) k = false) as Hgh.
    { unfold EsMap.get, EsMap.has. rewrite <- find_exact by done. destruct (HashMap.get _ _ _) as [i|] eqn:Ei; [|done].
      destruct (index_live _ _ _ Hok Ei) as (e & _ & _ & Hc). simpl. by rewrite Hc. }
    destruct (EsMap.get (contents st) k) as [found|] eqn:Eg.
    + apply read_returns; try done; simpl; [by rewrite Eg|].
      destruct (EsMap.has (contents st) k); [done|]. by destruct Hgh as [_ Hgh]; specialize (Hgh eq_refl).
    + pose proof (set_returns (MapGetOrInsert k v) id st w w0 k v v) as Hs. simpl in Hs. rewrite Eg in Hs.
      destruct ((map_set id k v;; mret _) w0) as [w' [u|e]]; [|by apply Hs]. by destruct Hs as [-> ?].
Qed.

(** ** Cursors *)

(** What a scan from position [next] finds: the first live entry at or after
    it, and the position behind that entry. *)
Definition next_live (l : list MapEntry) (next : nat) (found : option MapEntry) (next' : nat) : Prop :=
  match found with
  | Some e => (next < next')%nat ∧ l !! pred next' = Some e ∧ is_live e = true
      ∧ ∀ i e', (next ≤ i < pred next')%nat → l !! i = Some e' → is_live e' = false
  | None => (length l ≤ next')%nat ∧ (next ≤ next')%nat ∧ ∀ i e', (next ≤ i)%nat → l !! i = Some e' → is_live e' = false
  end.

Lemma find_live_run l : ∀ rest next w, drop next l = rest → budget_ok (execution_budget w) →
  match find_live rest next w with
  | (w', Ok (found, next')) => next_live l next found next' ∧ world_runtime w' = world_runtime w
      ∧ execution_budget w' = mkBudget (instruction_limit (execution_budget w))
          (executed_instructions (execution_budget w) + Z.of_nat (next' - next) + (if found then 0 else 1))
  | (w', Err e) => world_runtime w' = world_runtime w
      ∧ e = InstructionLimitExceeded (instruction_limit (execution_budget w)) (instruction_limit (execution_budget w))
      ∧ instruction_limit (execution_budget w) ≤ executed_instructions (execution_budget w) + len rest
  end.
Proof.
  induction rest as [|e rest IH]; intros next w Hd Hb; cbn [find_live]; step_runtime; rewrite charge_run by done.
  all: destruct (Z.ltb_spec (instruction_limit (execution_budget w)) (executed_instructions (execution_budget w) + 1)) as [Hlt|Hle];
    [split_and!; [done|done|unfold len; simpl; lia]|].
  - assert (length l ≤ next)%nat as Hn by (pose proof (f_equal length Hd) as E; rewrite length_drop in E; simpl in E; lia).
    split_and!; [|done|].
    + split_and!; [done|lia|]. intros i e' Hi He'. apply lookup_lt_Some in He'. lia.
    + simpl. rewrite Nat.sub_diag. f_equal. lia.
  - assert (l !! next = Some e) as He by (rewrite <- (Nat.add_0_r next), <- lookup_drop, Hd; done).
    assert (drop (S next) l = rest) as Hd' by (by rewrite <- Nat.add_1_r, <- drop_drop, Hd).
    destruct (is_live e) eqn:El.
    + split_and!; [|done|].
      * split_and!; [lia|done|done|]. intros i e' Hi. simpl in Hi. lia.
      * simpl. f_equal. lia.
    + set (w0 := mkWorld _ _). specialize (IH (S next) w0 Hd').
      assert (budget_ok (execution_budget w0)) as Hb0 by (destruct Hb; split; simpl; lia). specialize (IH Hb0).
      destruct (find_live rest (S next) w0) as [w' [[found next']|e']].
      * destruct IH as (Hn & Hr & Hx). split_and!; [|done|].
        -- destruct found as [e'|].
           ++ destruct Hn as (H1 & H2 & H3 & H4). split_and!; [lia|done|done|]. intros i e0 Hi He0.
              destruct (decide (i = next)) as [->|]; [congruence|]. apply (H4 i); [lia|done].
           ++ destruct Hn as (H1 & H2 & H3). split_and!; [done|lia|]. intros i e0 Hi He0.
              destruct (decide (i = next)) as [->|]; [congruence|]. apply (H3 i); [lia|done].
        -- rewrite Hx. simpl. f_equal. destruct found as [e'|]; destruct Hn as (H1 & H2 & _); lia.
      * destruct IH as (Hr & He' & Hl). split_and!; [done|done|]. simpl in Hl. unfold len in *. simpl. lia.
Qed.

Lemma advance_to_next distance it :
  MapIterator.advance_to distance it = mkMapIterator (iterated it) (iterator_kind it) (next it + distance).
Proof.
  revert it. induction distance as [|d IH]; intros it; simpl; [destruct it; simpl; by rewrite Nat.add_0_r|].
  rewrite IH. simpl. f_equal. lia.
Qed.

(** The scan of a Map iterator finds the first entry that is live at or after
    its cursor, skipping only deleted entries, and writes nothing; it fails only
    for want of instructions, and not when the budget covers the entries left
    and one instruction. *)
Lemma scan_map_iterator_run w id it map st :
  heap w id = Some (HeapObject.MapIteratorObject it) → budget_ok (execution_budget w) →
  iterated it = Some map → heap w map = Some (HeapObject.MapObject st) →
  match scan_map_iterator (StoredValue.Object id) w with
  | (w', Ok r) => ∃ found next', r = Some (id, iterator_kind it, found, next')
      ∧ next_live (entries st) (next it) found next' ∧ world_runtime w' = world_runtime w
  | (w', Err e) => world_runtime w' = world_runtime w
      ∧ instruction_limit (execution_budget w)
        < executed_instructions (execution_budget w) + Z.max 0 (MapState.retained_len st - Z.of_nat (next it)) + 1
  end.
Proof.
  intros Hg Hb Hit Hm. unfold scan_map_iterator.
  step_runtime. rewrite (lookup_state_run Some _ _ _ _ _ Hg eq_refl). cbn [HeapObject.map_iterator_state]. rewrite Hit.
  step_runtime. rewrite (map_state_run _ _ _ Hm). step_runtime.
  pose proof (find_live_run (entries st) (drop (next it) (entries st)) (next it) w eq_refl Hb) as Hf.
  destruct (find_live (drop (next it) (entries st)) (next it) w) as [w' [[found next']|e]].
  - destruct Hf as (Hn & Hr & _). by exists found, next'.
  - destruct Hf as (Hr & _ & Hl). split; [done|]. unfold MapState.retained_len, len in *. rewrite length_drop in Hl. lia.
Qed.

Lemma scan_finished w id it :
  heap w id = Some (HeapObject.MapIteratorObject it) → iterated it = None →
  scan_map_iterator (StoredValue.Object id) w = (w, Ok None).
Proof.
  intros Hg Hit. unfold scan_map_iterator. step_runtime.
  rewrite (lookup_state_run Some _ _ _ _ _ Hg eq_refl). simpl. by rewrite Hit.
Qed.

(** Advancing sets the cursor, or leaves it when it is further on, and
    detaches an iterator that is done; no other object changes. *)
Lemma advance_map_iterator_run w id it next' done :
  heap w id = Some (HeapObject.MapIteratorObject it) →
  ∃ w', advance_map_iterator id next' done w = (w', Ok tt) ∧ only_changes id w w' ∧
    heap w' id = Some (HeapObject.MapIteratorObject
      (mkMapIterator (if done then None else iterated it) (iterator_kind it) (Nat.max (next it) next'))).
Proof.
  intros Hg. unfold advance_map_iterator. step_runtime.
  rewrite (lookup_state_run HeapObject.map_iterator_state _ _ _ _ _ Hg eq_refl).
  rewrite advance_to_next. unfold MapIterator.finish. cbn [iterated iterator_kind next].
  replace (next it + (next' - next it))%nat with (Nat.max (next it) next') by lia.
  destruct (write_object_run w id _ (HeapObject.MapIteratorObject (if done
      then mkMapIterator None (iterator_kind it) (Nat.max (next it) next')
      else mkMapIterator (iterated it) (iterator_kind it) (Nat.max (next it) next')))
    (RuntimeInvariant "validated Map Iterator disappeared") Hg) as (objs & -> & Hw).
  eexists. split; [reflexivity|]. unfold only_changes. cbn [world_runtime objects]. split.
  - intros id' Hne. by rewrite Hw, decide_False.
  - rewrite Hw, decide_True by reflexivity. by destruct done.
Qed.

(** ** Rebuilding a table *)

(** Entries as a table or a snapshot holds them: keys canonical, no two live
    ones with the same key. *)
Definition distinct (l : list MapEntry) : Prop :=
  ∀ i j e e', (i < j)%nat → l !! i = Some e → l !! j = Some e' → is_live e = true → is_live e' = true →
    StoredValue.same_value_zero (key e) (key e') = false.

Definition entry_ok (e : MapEntry) : Prop := value_ok (key e) ∧ canonical (key e) ∧ (is_live e = false → e = tombstone).

Lemma not_found l k : (∀ i e, l !! i = Some e → is_live e = true → StoredValue.same_value_zero (key e) k = false) →
  EsMap.find (record <$> l) k = None.
Proof.
  intros Hl. unfold EsMap.find. destruct (list_find _ _) as [[i r]|] eqn:Ef; [|done]. exfalso.
  apply list_find_Some in Ef as (Hi & Hm & _). rewrite list_lookup_fmap in Hi.
  destruct (l !! i) as [e|] eqn:He; simplify_eq/=. unfold record, EsMap.matches in Hm.
  destruct (is_live e) eqn:El; [|done]. rewrite (Hl _ _ He El) in Hm. done.
Qed.

Lemma reindex_ok l2 : ∀ l1 ix, table_ok (mkMapState l1 ix (live_len l1)) → distinct (l1 ++ l2) → Forall entry_ok l2 →
  len (l1 ++ l2) < u64_max →
  table_ok (mkMapState (l1 ++ l2) (MapState.reindex l2 (length l1) ix) (live_len (l1 ++ l2))).
Proof.
  induction l2 as [|e l2 IH]; intros l1 ix Hok Hd Hf Hlen; [by rewrite app_nil_r|].
  apply Forall_cons in Hf as [(Hv & Hc & Ht) Hf]. cbn [MapState.reindex].
  assert (l1 ++ e :: l2 = (l1 ++ [e]) ++ l2) as Ha by (by rewrite <- app_assoc).
  assert (S (length l1) = length (l1 ++ [e])) as -> by (rewrite length_app; simpl; lia). rewrite Ha in *.
  apply IH; [|done|done|done]. rewrite live_len_app, live_len_cons. change (live_len []) with 0.
  assert (len l1 < u64_max) as Hlen1 by (rewrite !len_app in Hlen; pose proof (len_nonneg l2); unfold len at 2 in Hlen; simpl in Hlen; lia).
  destruct (is_live e) eqn:El.
  - pose proof (append_ok (mkMapState l1 ix (live_len l1)) (key e) (value e) Hok Hv Hc Hlen1) as Happ. simpl in Happ.
    destruct e as [k v live]. simpl in *. subst live. pose proof (live_len_bound l1).
    replace (live_len l1 + (1 + 0)) with (saturating_add_u64 (live_len l1) 1) by (unfold saturating_add_u64; lia).
    apply Happ. apply not_found. simpl. intros i e' He' El'.
    apply (Hd i (length l1) e' (mkEntry k v true)); [by eapply lookup_lt_Some|by rewrite <- app_assoc; apply lookup_app_l_Some| |done|done].
    rewrite <- app_assoc. by apply list_lookup_middle.
  - rewrite (Ht eq_refl). rewrite Z.add_0_r. split; cbn [entries map_index live_count].
    + intros k i. rewrite (ok_index _ Hok). simpl. split.
      * intros (e' & He' & ?). exists e'. split; [by apply lookup_app_l_Some|done].
      * intros (e' & He' & El' & Hm). apply lookup_app_Some in He' as [He'|[_ He']]; [eauto|].
        apply list_lookup_singleton_Some in He' as [_ <-]. done.
    + fold (live_len (l1 ++ [tombstone])). rewrite live_len_app, live_len_cons. change (live_len []) with 0. simpl. lia.
    + apply Forall_app. split; [apply Hok|]. by repeat constructor.
Qed.

Lemma restored_ok l : distinct l → Forall entry_ok l → len l < u64_max → table_ok (MapState.restored l).
Proof.
  intros Hd Hf Hl. unfold MapState.restored. apply (reindex_ok l [] []); try done. apply empty_ok.
Qed.

Lemma table_distinct st : table_ok st → distinct (entries st).
Proof.
  intros Hok i j e e' Hij Hi Hj El El'. apply not_true_is_false. intros Hs.
  pose proof (proj1 (Forall_lookup _ _) (ok_entries _ Hok) _ _ Hi) as (Hv & _).
  pose proof (proj1 (Forall_lookup _ _) (ok_entries _ Hok) _ _ Hj) as (Hv' & _). rewrite <- map_key_exact in Hs by done.
  assert (HashMap.get MapKey.eq (map_index st) (MapKey.from_value (key e')) = Some i) as G1 by (apply (ok_index _ Hok); eauto).
  assert (HashMap.get MapKey.eq (map_index st) (MapKey.from_value (key e')) = Some j) as G2.
  { apply (ok_index _ Hok). exists e'. split_and!; [done..|apply map_key_refl]. }
  simplify_eq. lia.
Qed.

Lemma distinct_cons e l : distinct (e :: l) ↔
  (∀ i e', l !! i = Some e' → is_live e = true → is_live e' = true → StoredValue.same_value_zero (key e) (key e') = false) ∧ distinct l.
Proof.
  split.
  - intros Hd. split; [intros i e' He' ??; apply (Hd 0%nat (S i)); [lia|done..]|].
    intros i j x y Hij Hx Hy. apply (Hd (S i) (S j)); [lia|done..].
  - intros [Hc Hd] [|i] [|j] x y Hij Hx Hy ??; try lia; simplify_eq/=; [by apply (Hc j)|]. apply (Hd i j); [lia|done..].
Qed.

Lemma distinct_filter l : distinct l → distinct (filter (λ e, is_live e = true) l).
Proof.
  induction l as [|e l IH]; [done|]. rewrite distinct_cons. intros [Hc Hd]. rewrite filter_cons. destruct (decide _); [|by apply IH].
  apply distinct_cons. split; [|by apply IH]. intros i e' He' ??.
  apply list_elem_of_lookup_2, list_elem_of_filter in He' as [_ He']. apply list_elem_of_lookup_1 in He' as [j Hj]. by apply (Hc j).
Qed.

(** Rebuilding a table from the live entries of a well-formed one, as a
    restored snapshot does, loses nothing but the tombstones: the table is well
    formed, its live entries and size are the same, every lookup answers the
    same, and nothing but live entries is retained. *)
Theorem map_restored_exact st : table_ok st → MapState.retained_len st < u64_max →
  let st' := MapState.restored (filter (λ e, is_live e = true) (entries st)) in
  table_ok st' ∧ MapState.live_entries st' = MapState.live_entries st ∧ MapState.size st' = MapState.size st
  ∧ MapState.retained_len st' = MapState.size st
  ∧ ∀ k, value_ok k → MapState.get st' k = MapState.get st k ∧ MapState.contains_key st' k = MapState.contains_key st k.
Proof.
  intros Hok Hlen. set (l := filter (λ e, is_live e = true) (entries st)).
  assert (filter (λ e, is_live e = true) l = l) as Hff.
  { unfold l. rewrite list_filter_filter. apply list_filter_iff. tauto. }
  assert (table_ok (MapState.restored l)) as Hok'.
  { apply restored_ok.
    - apply distinct_filter. by apply table_distinct.
    - apply Forall_forall. intros e [_ He]%list_elem_of_filter. by apply (proj1 (Forall_forall _ _) (ok_entries _ Hok)).
    - pose proof (live_len_bound (entries st)) as Hb. unfold MapState.retained_len, live_len in *. fold l in Hb. lia. }
  assert (∀ k, value_ok k → MapState.get (MapState.restored l) k = MapState.get st k
    ∧ MapState.contains_key (MapState.restored l) k = MapState.contains_key st k) as Hsame.
  { intros k Hk. rewrite !get_exact, !contains_exact by done. unfold contents. simpl. clear Hlen Hff Hok'.
    pose proof (table_distinct st Hok) as Hd. subst l. clear Hok. induction (entries st) as [|e l IH]; [done|].
    apply distinct_cons in Hd as [Hc Hd]. rewrite filter_cons. specialize (IH Hd). destruct IH as [IHg IHh].
    unfold EsMap.get, EsMap.has, EsMap.find in *. destruct (decide (is_live e = true)) as [El|El].
    - rewrite !fmap_cons. simpl. destruct (decide (EsMap.matches k (record e) = true)); [done|].
      destruct (list_find _ (record <$> filter _ l)) as [[i r]|], (list_find _ (record <$> l)) as [[i' r']|]; simpl in *; done.
    - apply not_true_is_false in El. assert (record e = None) as Er by (unfold record; by rewrite El).
      rewrite fmap_cons, Er. simpl.
      destruct (list_find _ (record <$> filter _ l)) as [[i r]|], (list_find _ (record <$> l)) as [[i' r']|]; simpl in *; done. }
  split_and!; try done.
  - unfold MapState.live_entries, MapState.restored. simpl. by rewrite Hff.
  - unfold MapState.size, MapState.restored. simpl. rewrite Hff. symmetry. apply Hok.
  - unfold MapState.size, MapState.retained_len, MapState.restored. simpl. symmetry. apply Hok.
Qed.

(** ** Sets *)

Module EsSet.
Notation Data := (list (option StoredValue)) (only parsing).
Definition find (d : Data) (v : StoredValue) : option nat :=
  fst <$> list_find (λ r, match r with Some u => StoredValue.same_value_zero u v | None => false end = true) d.
Definition has (d : Data) (v : StoredValue) : bool := bool_decide (is_Some (find d v)).
Definition add (d : Data) (v : StoredValue) : Data :=
  if has d v then d else d ++ [Some (EsMap.CanonicalizeKeyedCollectionKey v)].
Definition delete (d : Data) (v : StoredValue) : Data * bool :=
  match find d v with Some i => (<[i := None]> d, true) | None => (d, false) end.

Definition method (m : SetMethod) (this : StoredValue) (d : Data) : Data * StoredValue :=
  match m with
  | SetAdd v => (add d v, this)
  | SetHas v => (d, StoredValue.Boolean (has d v))
  | SetDelete v => let '(d, deleted) := delete d v in (d, StoredValue.Boolean deleted)
  | SetClear => ((λ _, None) <$> d, StoredValue.Undefined)
  | SetSize => (d, StoredValue.Number (JsNumber.from_f64 (F64.from_int (len (filter is_Some d)))))
  end.
End EsSet.

(** The values of a Set's table. *)
Definition elements (st : SetState) : list (option StoredValue) := fmap (M := option) fst <$> contents (data st).

Lemma set_find_exact d v : EsSet.find (fmap (M := option) fst <$> d) v = EsMap.find d v.
Proof.
  unfold EsSet.find, EsMap.find. induction d as [|r d IH]; [done|]. rewrite fmap_cons. cbn [list_find].
  destruct r as [[k x]|]; simpl; repeat case_decide; try done.
  all: destruct (list_find _ (fmap fst <$> d)) as [[i u]|], (list_find _ d) as [[i' u']|]; simpl in *; congruence.
Qed.

Lemma set_has_exact d v : EsSet.has (fmap (M := option) fst <$> d) v = EsMap.has d v.
Proof. unfold EsSet.has, EsMap.has. by rewrite set_find_exact. Qed.

Lemma set_size_exact (d : list (option (StoredValue * StoredValue))) :
  len (filter is_Some (fmap (M := option) fst <$> d)) = EsMap.size d.
Proof.
  unfold EsMap.size. induction d as [|[r|] d IH]; [done| |]; rewrite fmap_cons, !filter_cons.
  - rewrite !decide_True by (simpl; eauto). unfold len in *. simpl. lia.
  - rewrite !decide_False by (by intros [? ?]). exact IH.
Qed.

Lemma set_add_exact d v : fmap (M := option) fst <$> EsMap.set d v StoredValue.Undefined = EsSet.add (fmap (M := option) fst <$> d) v.
Proof.
  unfold EsMap.set, EsSet.add. rewrite set_has_exact. unfold EsMap.has. destruct (EsMap.find d v) as [i|].
  - rewrite bool_decide_eq_true_2 by eauto. apply list_eq. intros j. rewrite !list_lookup_fmap.
    destruct (decide (i = j)) as [<-|]; [rewrite list_lookup_alter_eq|by rewrite list_lookup_alter_ne].
    by destruct (d !! i) as [[[k x]|]|].
  - rewrite bool_decide_eq_false_2 by (intros [? ?]; done). by rewrite fmap_app.
Qed.

Lemma set_delete_exact d v :
  (fmap (M := option) fst <$> (EsMap.delete d v).1, (EsMap.delete d v).2) = EsSet.delete (fmap (M := option) fst <$> d) v.
Proof.
  unfold EsMap.delete, EsSet.delete. rewrite set_find_exact. destruct (EsMap.find d v); [|done]. simpl. by rewrite list_fmap_insert.
Qed.

Definition set_arguments_ok (m : SetMethod) : Prop :=
  match m with SetAdd v | SetHas v | SetDelete v => value_ok v | SetClear | SetSize => True end.

Definition set_call_returns (m : SetMethod) (id : ObjectId) (st : SetState) (w w' : World) (v : StoredValue) : Prop :=
  ∃ st', heap w' id = Some (HeapObject.SetObject st') ∧ table_ok (data st')
    ∧ EsSet.method m (StoredValue.Object id) (elements st) = (elements st', v)
    ∧ only_changes id w w'
    ∧ accounted w w' (match m with SetAdd v => negb (EsSet.has (elements st) v) | _ => false end).

(** Clearing charges the retained entries besides the call. *)
Definition set_call_cost (m : SetMethod) (st : SetState) : Z :=
  match m with SetClear => 1 + SetState.retained_len st | _ => 1 end.

Definition set_call_fails `{Allocator} (m : SetMethod) (st : SetState) (w w' : World) (e : NativeFailure) : Prop :=
  world_runtime w' = world_runtime w
  ∧ (instruction_limit (execution_budget w) < executed_instructions (execution_budget w) + set_call_cost m st
     ∧ e = InstructionLimitExceeded (instruction_limit (execution_budget w)) (instruction_limit (execution_budget w))
     ∨ (∃ v, m = SetAdd v ∧ EsSet.has (elements st) v = false) ∧ insertion_refused w e).

Lemma set_state_run w id st : heap w id = Some (HeapObject.SetObject st) → set_state id w = (w, Ok st).
Proof. intros Hg. by apply (lookup_state_run _ _ _ _ _ _ Hg). Qed.

Lemma require_set_run w id st : heap w id = Some (HeapObject.SetObject st) → require_set (StoredValue.Object id) w = (w, Ok id).
Proof. intros Hg. unfold require_set. step_runtime. by rewrite (lookup_state_run Some _ _ _ _ _ Hg eq_refl). Qed.

Lemma write_set_returns m id st st' w w0 v : heap w id = Some (HeapObject.SetObject st) → world_runtime w0 = world_runtime w →
  table_ok (data st') → EsSet.method m (StoredValue.Object id) (elements st) = (elements st', v) →
  match m with SetAdd _ => False | _ => True end →
  ∃ w', (write_set id st' ;; mret v) w0 = (w', Ok v) ∧ set_call_returns m id st w w' v.
Proof.
  intros Hg Ew Hok Hm Ha. unfold write_set. step_runtime.
  destruct (write_object_run w0 id (HeapObject.SetObject st) (HeapObject.SetObject st') (StaleHeapEdge "Set object" id))
    as (objs & -> & Hw); [by rewrite Ew|].
  eexists. split; [reflexivity|]. exists st'. cbn [world_runtime objects]. split_and!; try done.
  - by rewrite Hw, decide_True.
  - intros id' Hne. cbn [world_runtime objects]. by rewrite Hw, decide_False, Ew.
  - unfold accounted. cbn [world_runtime collection_entries]. rewrite Ew. by destruct m.
Qed.

Lemma set_add_run `{Allocator} w w0 id st v : heap w id = Some (HeapObject.SetObject st) → world_runtime w0 = world_runtime w →
  table_ok (data st) → value_ok v → SetState.retained_len st < u64_max →
  match (set_add id v ;; mret (StoredValue.Object id)) w0 with
  | (w', Ok u) => set_call_returns (SetAdd v) id st w w' u
  | (w', Err e) => set_call_fails (SetAdd v) st w w' e
  end.
Proof.
  intros Hg Ew Hok Hv Hlen. assert (heap w0 id = Some (HeapObject.SetObject st)) as Hg0 by (by rewrite Ew).
  assert (EsSet.has (elements st) v = EsMap.has (contents (data st)) v) as Hh by apply set_has_exact.
  destruct (canonicalize_ok v Hv) as [Hv' _].
  step_runtime. unfold set_add. step_runtime. rewrite Hg0. cbn [mbind option_bind HeapObject.set_state].
  assert (SetState.contains st (canonicalize_set_value v) = EsMap.has (contents (data st)) v) as ->.
  { rewrite <- contains_exact by done. unfold SetState.contains, MapState.contains_key, canonicalize_set_value. by rewrite canonicalize_key. }
  step_runtime. destruct (check_insertion_run w0 (negb (EsMap.has (contents (data st)) v))) as [->|(Hi & e & -> & He)].
  2: { split; [done|]. right. unfold insertion_refused in *. rewrite Ew in He. split; [|done]. exists v. rewrite Hh. by apply negb_true_iff in Hi. }
  step_runtime. rewrite (set_state_run _ _ _ Hg0).
  pose proof (try_set_exact (data st) v StoredValue.Undefined Hok Hv Hlen) as Hs. unfold SetState.try_add.
  change (canonicalize_set_value v) with (canonicalize_map_key v).
  destruct (MapState.try_set (data st) (canonicalize_map_key v) StoredValue.Undefined) as [[st' o]|e].
  - destruct Hs as (Hok' & Hc & _ & ->). cbn [mbind result_bind]. step_runtime. unfold write_set.
    destruct (write_object_run w0 id _ (HeapObject.SetObject (mkSetState st')) (StaleHeapEdge "Set object" id) Hg0) as (objs & -> & Hw).
    unfold account. step_runtime. unfold put_runtime. exists (mkSetState st'). cbn [world_runtime objects]. split_and!; try done.
    + by rewrite Hw, decide_True.
    + simpl. unfold elements. cbn [data]. by rewrite Hc, set_add_exact.
    + intros id' Hne. cbn [world_runtime objects]. by rewrite Hw, decide_False, Ew.
    + unfold accounted. cbn [world_runtime collection_entries]. rewrite Ew, Hh. by destruct (EsMap.has _ _).
  - split; [done|]. right. split; [exists v; rewrite Hh; by destruct Hs|]. right. by destruct Hs.
Qed.

(** Every method of a Set that calls back no user code is the
    specification's on the ordered [[SetData]] list, with the guarantees of
    [map_methods_exact]; clearing also pays one instruction for each retained
    entry before it changes anything. *)
Theorem set_methods_exact `{Allocator} m w id st :
  heap w id = Some (HeapObject.SetObject st) → table_ok (data st) → SetState.retained_len st < 2 ^ 53 →
  set_arguments_ok m → budget_ok (execution_budget w) →
  match dispatch_set_method m (StoredValue.Object id) w with
  | (w', Ok v) => set_call_returns m id st w w' v
  | (w', Err e) => set_call_fails m st w w' e
  end.
Proof.
  intros Hg Hok Hlen Hm Hb. assert (SetState.retained_len st < u64_max) as Hlen' by (unfold u64_max; lia).
  assert (0 ≤ SetState.retained_len st) as H0 by apply len_nonneg.
  unfold dispatch_set_method. step_runtime. rewrite (require_set_run _ _ _ Hg). step_runtime. rewrite charge_run by done.
  destruct (Z.ltb_spec (instruction_limit (execution_budget w)) (executed_instructions (execution_budget w) + 1)) as [Hlt|Hle].
  { split; [done|]. left. split; [|done]. unfold set_call_cost. destruct m; lia. }
  set (w0 := mkWorld _ _). assert (world_runtime w0 = world_runtime w) as Ew by done.
  assert (heap w0 id = Some (HeapObject.SetObject st)) as Hg0 by done.
  destruct m as [v|v|v| |]; try (step_runtime; rewrite (set_state_run _ _ _ Hg0)).
  - by apply set_add_run.
  - exists st. split_and!; try done. simpl. unfold SetState.contains, elements. by rewrite contains_exact, set_has_exact.
  - destruct (delete_exact (data st) v Hok Hm) as (Hok' & Hc & _). unfold SetState.delete.
    destruct (MapState.delete (data st) v) as [st' deleted]. simpl in Hok', Hc.
    destruct (write_set_returns (SetDelete v) id st (mkSetState st') w w0 (StoredValue.Boolean deleted)) as (w' & -> & Hr); try done.
    simpl. unfold elements at 1. rewrite <- set_delete_exact, <- Hc. done.
  - step_runtime. rewrite charge_run by (done || (destruct Hb; split; simpl; lia)).
    destruct (Z.ltb_spec (instruction_limit (execution_budget w0)) (executed_instructions (execution_budget w0) + SetState.retained_len st)) as [Hlt|Hge].
    { split; [done|]. left. split; [|done]. simpl in *. lia. }
    destruct (clear_exact (data st)) as (Hok' & Hc & _).
    match goal with |- context [mkWorld (world_runtime w0) ?b] =>
      destruct (write_set_returns SetClear id st (SetState.clear st) w (mkWorld (world_runtime w0) b) StoredValue.Undefined) as (w' & -> & Hr) end; try done.
    simpl. unfold elements. cbn [SetState.clear data]. rewrite Hc. unfold EsMap.clear. by rewrite <- !list_fmap_compose.
  - exists st. split_and!; try done. simpl. unfold SetState.size, elements. by rewrite set_size_exact, <- size_exact.
Qed.

(** *** Copying a Set *)

Definition copied_entry (e : MapEntry) : MapEntry := mkEntry (key e) StoredValue.Undefined true.

Lemma copy_entries_run `{GenerousAllocator} rest : ∀ copied, table_ok (data copied) → Forall entry_ok rest →
  distinct (entries (data copied) ++ rest) → len (entries (data copied) ++ rest) < u64_max →
  ∃ copied', copy_entries rest copied = Ok copied' ∧ table_ok (data copied')
    ∧ entries (data copied') = entries (data copied) ++ (copied_entry <$> filter (λ e, is_live e = true) rest).
Proof.
  induction rest as [|e rest IH]; intros copied Hok Hf Hd Hl; cbn [copy_entries].
  { exists copied. by rewrite app_nil_r. }
  apply Forall_cons in Hf as [(Hv & Hc & _) Hf]. rewrite filter_cons. destruct (is_live e) eqn:El.
  - rewrite decide_True by done.
    assert (len (entries (data copied)) < u64_max) as Hl1 by (rewrite len_app in Hl; pose proof (len_nonneg (e :: rest)); lia).
    assert (EsMap.find (contents (data copied)) (key e) = None) as Hn.
    { apply not_found. intros i e' He' El'. apply (Hd i (length (entries (data copied))) e' e);
        [by eapply lookup_lt_Some|by apply lookup_app_l_Some|by apply list_lookup_middle|done|done]. }
    unfold SetState.try_add, MapState.try_set. rewrite find_exact, Hn by done. unfold MapState.append.
    rewrite !reserve_generous. cbn [mbind result_bind].
    set (next := mkSetState _).
    destruct (IH next) as (copied' & -> & Hok' & He').
    + by apply append_ok.
    + done.
    + intros i j x y Hij Hx Hy Lx Ly. subst next. cbn [data entries] in *. rewrite <- app_assoc in Hx, Hy. simpl in Hx, Hy.
      assert (∀ k z, (entries (data copied) ++ copied_entry e :: rest) !! k = Some z → is_live z = true →
        ∃ z', (entries (data copied) ++ e :: rest) !! k = Some z' ∧ is_live z' = true ∧ key z' = key z) as Hsim.
      { intros k z Hz Lz. apply lookup_app_Some in Hz as [Hz|[Hk Hz]]; [exists z; split_and!; [by apply lookup_app_l_Some|done..]|].
        rewrite lookup_app_r by done. destruct (k - length _)%nat as [|m]; simplify_eq/=; [by exists e|by exists z]. }
      destruct (Hsim i x Hx Lx) as (x' & Hx' & Lx' & <-), (Hsim j y Hy Ly) as (y' & Hy' & Ly' & <-). by apply (Hd i j).
    + subst next. cbn [data entries]. rewrite !len_app in *. unfold len in *. simpl in *. lia.
    + exists copied'. split_and!; [done..|]. rewrite He'. subst next. cbn [data entries]. by rewrite <- app_assoc.
  - rewrite decide_False by congruence. apply IH; [done|done| |].
    + intros i j x y Hij Hx Hy. set (n := length (entries (data copied))).
      assert (∀ k z, (entries (data copied) ++ rest) !! k = Some z →
        (entries (data copied) ++ e :: rest) !! (if decide (k < n)%nat then k else S k) = Some z) as Hsim.
      { intros k z Hz. case_decide as Hk; [apply lookup_app_l_Some; by rewrite lookup_app_l in Hz|].
        rewrite lookup_app_r in Hz by (subst n; lia). rewrite lookup_app_r by (subst n; lia).
        by replace (S k - length (entries (data copied)))%nat with (S (k - length (entries (data copied)))) by (subst n; lia). }
      apply (Hd _ _ x y) with (2 := Hsim i x Hx) (3 := Hsim j y Hy). repeat case_decide; lia.
    + rewrite !len_app in *. unfold len in *. simpl in *. lia.
Qed.

(** Copying a Set, as the set operations that start from the receiver do,
    yields a well-formed table of exactly its live values in order and no
    tombstone, when the host grants the memory. *)
Theorem set_copy_exact `{GenerousAllocator} st : table_ok (data st) → SetState.retained_len st < u64_max →
  ∃ copied, copy_entries (entries (data st)) SetState.empty = Ok copied ∧ table_ok (data copied)
    ∧ elements copied = filter is_Some (elements st) ∧ SetState.size copied = SetState.size st
    ∧ SetState.retained_len copied = SetState.size st.
Proof.
  intros Hok Hl. destruct (copy_entries_run (entries (data st)) SetState.empty) as (copied & Hc & Hok' & He); try done.
  { apply empty_ok. } { apply Hok. } { by apply table_distinct. }
  simpl in He. exists copied. split_and!; [done|done| | |].
  - unfold elements, contents. rewrite He. clear. induction (entries (data st)) as [|e l IH]; [done|].
    rewrite filter_cons, (fmap_cons record), (fmap_cons (fmap fst)), (filter_cons is_Some).
    assert (record e = if is_live e then Some (key e, value e) else None) as -> by done. case_decide as El.
    + rewrite decide_True by (rewrite El; eauto). rewrite !fmap_cons, IH, El. done.
    + rewrite decide_False by (apply not_true_is_false in El; rewrite El; by intros [? ?]). exact IH.
  - unfold SetState.size, MapState.size. rewrite !(ok_live _ Hok'), (ok_live _ Hok), He. clear.
    induction (entries (data st)) as [|e l IH]; [done|]. rewrite !filter_cons. case_decide; [|done].
    rewrite fmap_cons, filter_cons, decide_True by done. unfold len in *. simpl. lia.
  - unfold SetState.size, MapState.size, SetState.retained_len, MapState.retained_len. rewrite (ok_live _ Hok), He. unfold len. by rewrite length_fmap.
Qed.

(** *** Runs *)

Definition numbers_map : MapState :=
  MapState.restored [mkEntry (StoredValue.Number (NumberRepr.Float F64.NAN)) (StoredValue.Boolean true) true].

Lemma numbers_map_ok : table_ok numbers_map.
Proof.
  pose proof (append_ok MapState.empty (StoredValue.Number (NumberRepr.Float F64.NAN)) (StoredValue.Boolean true) empty_ok) as Ha.
  apply Ha; try done.
Qed.

Definition numbers_world : World :=
  mkWorld (mkRuntime (mkArena 7 [mkSlot 0 (Occupied (HeapObject.MapObject numbers_map));
      mkSlot 0 (Occupied (HeapObject.MapIteratorObject (MapIterator.new (mkId 7 0 0) KeyAndValueKind)))] None 2 0 0) 1 false 10)
    (mkBudget 100 0).

Example map_restored_exact_witness :
  MapState.retained_len (MapState.restored (filter (λ e, is_live e = true) (entries (MapState.delete numbers_map
    (StoredValue.Number (NumberRepr.Float F64.NAN))).1))) = 0.
Proof.
  set (st := (MapState.delete numbers_map (StoredValue.Number (NumberRepr.Float F64.NAN))).1).
  destruct (map_restored_exact st) as (_ & _ & _ & -> & _); [|done|done].
  apply (delete_exact numbers_map); [exact numbers_map_ok|done].
Defined.

Definition numbers_set_world : World :=
  mkWorld (mkRuntime (mkArena 7 [mkSlot 0 (Occupied (HeapObject.SetObject (mkSetState numbers_map)))] None 1 0 0) 1 false 1)
    (mkBudget 100 0).

(** The collection limit stops an insertion and nothing else. *)
Example set_methods_exact_witness :
  match dispatch_set_method (H := always_allocates) (SetAdd StoredValue.Null) (StoredValue.Object (mkId 7 0 0)) numbers_set_world with
  | (w', Ok _) => False
  | (w', Err e) => world_runtime w' = world_runtime numbers_set_world
  end.
Proof.
  pose proof (set_methods_exact (H := always_allocates) (SetAdd StoredValue.Null) numbers_set_world (mkId 7 0 0)
    (mkSetState numbers_map) eq_refl numbers_map_ok eq_refl I ltac:(unfold budget_ok, u64_max; simpl; lia)) as Hm.
  destruct (dispatch_set_method _ _ _) as [w' [v|e]] eqn:E; [by vm_compute in E|apply Hm].
Defined.

Example set_copy_exact_witness :
  ∃ copied, copy_entries (H := always_allocates) (entries numbers_map) SetState.empty = Ok copied ∧ SetState.size copied = 1.
Proof.
  destruct (@set_copy_exact always_allocates always_allocates_generous (mkSetState numbers_map) numbers_map_ok eq_refl)
    as (copied & Hc & _ & _ & Hs & _). exists copied. split; [exact Hc|by rewrite Hs].
Defined.

(** Another NaN finds the entry. *)
Example map_methods_exact_witness :
  match dispatch_map_method (H := always_allocates) (MapGet (StoredValue.Number (NumberRepr.Float (F64.SIGN + F64.NAN))))
      (StoredValue.Object (mkId 7 0 0)) numbers_world with
  | (_, Ok v) => v = StoredValue.Boolean true
  | (_, Err _) => False
  end.
Proof.
  pose proof (map_methods_exact (H := always_allocates) (MapGet (StoredValue.Number (NumberRepr.Float (F64.SIGN + F64.NAN))))
    numbers_world (mkId 7 0 0) numbers_map eq_refl numbers_map_ok) as Hm.
  destruct (dispatch_map_method _ _ _) as [w' [v|e]] eqn:E; [|by vm_compute in E].
  destruct Hm as (st' & _ & _ & Hv & _).
  - vm_compute. done.
  - unfold map_arguments_ok, value_ok, number_ok, is_f64, F64.NAN, F64.SIGN. unfold_ints. simpl. lia.
  - unfold budget_ok, u64_max. simpl. lia.
  - by injection Hv as _ <-.
Defined.
