(* ===== verification/Objects.v ===== *)
(** * Property tables of objects

    Models [ObjectRecord] of [crates/fusor-runtime/src/object.rs] (the shape and
    slot vectors of ordinary objects), its own-key snapshots, and [ArrayState],
    the dense element storage of arrays.  A shape is its list of properties,
    whether or not other objects share it.  An index out of range panics. *)

From S2P Require Import Prelude RuntimePrelude JsStrings ArrayIndex Arena BigInt Values ValueFacts Descriptors.
From stdpp Require Import list sorting.
Local Open Scope Z_scope.

Import NumberRepr(NumberRepr) StoredValue(StoredValue) PropertyKey(PropertyKey) OwnProperty(OwnProperty) AtomKind(AtomKind).

(** ** Records *)

Module HeapReference.
Inductive HeapReference : Set :=
| Function (function : FunctionId)
| Object (object : ObjectId).
End HeapReference.
Import HeapReference(HeapReference).

Record ShapeProperty : Set := mkShapeProperty { shape_key : PropertyKey; shape_layout : PropertyLayout }.

Module PropertySlot.
Inductive PropertySlot : Set :=
| Data (value : StoredValue)
| Accessor (getter setter : option FunctionId).
End PropertySlot.
Import PropertySlot(PropertySlot).

Inductive ShapeTransition : Set :=
| Append (property : ShapeProperty)
| ReplaceLayout (index : nat) (layout : PropertyLayout)
| Delete (index : nat).

Inductive PropertyDeletion : Set := Missing | NotConfigurable | Deleted.

Record ObjectRecord : Set := mkRecord {
  prototype : option HeapReference;
  extensible : bool;
  is_html_dda : bool;
  shape : list ShapeProperty;
  slots : list PropertySlot
}.

(** A computation that can only panic. *)
Notation panics := (outcome Empty_set).

Definition widen {E A} (m : panics A) : outcome E A :=
  map_err (λ e : fault Empty_set, match e with Fail e => match e : Empty_set with end | Panic => Panic | OutOfFuel => OutOfFuel end) m.

(** [shape.iter().position(|property| property.key == *key)] *)
Fixpoint position (key : PropertyKey) (shape : list ShapeProperty) : option nat :=
  match shape with
  | [] => None
  | property :: shape => if PropertyKey.eq (shape_key property) key then Some O else S <$> position key shape
  end.

(** [v.remove(index)] *)
Definition remove_at {A} (index : nat) (l : list A) : panics (list A) :=
  if (index <? length l)%nat then Ok (delete index l) else Err Panic.

(** [v[index] = value] *)
Definition write_at {A} (index : nat) (value : A) (l : list A) : panics (list A) :=
  if (index <? length l)%nat then Ok (<[index := value]> l) else Err Panic.

Definition apply_transition (transition : ShapeTransition) (shape : list ShapeProperty) : panics (list ShapeProperty) :=
  match transition with
  | Append property => Ok (shape ++ [property])
  | ReplaceLayout index layout =>
      property ← expect (shape !! index);
      write_at index (mkShapeProperty (shape_key property) layout) shape
  | Delete index => remove_at index shape
  end.

(** [OwnProperty::into_parts] *)
Definition into_parts (self : OwnProperty) : PropertyLayout * PropertySlot :=
  match self with
  | OwnProperty.Data layout value => (layout, PropertySlot.Data value)
  | OwnProperty.Accessor layout getter setter => (layout, PropertySlot.Accessor getter setter)
  end.

Definition own_of (layout : PropertyLayout) (slot : PropertySlot) : OwnProperty :=
  match slot with
  | PropertySlot.Data value => OwnProperty.Data layout value
  | PropertySlot.Accessor getter setter => OwnProperty.Accessor layout getter setter
  end.

Record ArrayTruncation : Set := mkTruncation {
  final_length : Z;
  blocked_index : option ArrayIndex;
  removed : Z
}.

(** [Iterator::max] of the indices: the last of the greatest. *)
Definition max_index (l : list ArrayIndex) : option ArrayIndex :=
  foldl (λ m i, match m with Some m => if get m <=? get i then Some i else Some m | None => Some i end) None l.

Module ObjectRecord.
Definition empty (prototype : option HeapReference) : ObjectRecord := mkRecord prototype true false [] [].

Definition from_parts (prototype : option HeapReference) (extensible is_html_dda : bool) (shape : list ShapeProperty)
    (slots : list PropertySlot) : ObjectRecord := mkRecord prototype extensible is_html_dda shape slots.

Definition with_storage (self : ObjectRecord) (shape : list ShapeProperty) (slots : list PropertySlot) : ObjectRecord :=
  mkRecord (prototype self) (extensible self) (is_html_dda self) shape slots.

Definition transition_shape (self : ObjectRecord) (transition : ShapeTransition) : panics ObjectRecord :=
  shape ← apply_transition transition (shape self); Ok (with_storage self shape (slots self)).

Definition replace_prototype (self : ObjectRecord) (next : option HeapReference) : ObjectRecord * option HeapReference :=
  (mkRecord next (extensible self) (is_html_dda self) (shape self) (slots self), prototype self).

Definition prevent_extensions (self : ObjectRecord) : ObjectRecord :=
  mkRecord (prototype self) false (is_html_dda self) (shape self) (slots self).

Definition delete_own_property (self : ObjectRecord) (key : PropertyKey) : panics (ObjectRecord * PropertyDeletion) :=
  match position key (shape self) with
  | None => Ok (self, Missing)
  | Some index =>
      property ← expect (shape self !! index);
      if negb (PropertyLayout.is_configurable (shape_layout property)) then Ok (self, NotConfigurable) else
      self ← transition_shape self (Delete index);
      slots ← remove_at index (slots self);
      Ok (with_storage self (shape self) slots, Deleted)
  end.

Definition property_count (self : ObjectRecord) : Z := len (slots self).

Definition has_indexed_property (self : ObjectRecord) : bool :=
  existsb (λ property, is_some (PropertyKey.as_index (shape_key property))) (shape self).

Definition values (self : ObjectRecord) : list StoredValue :=
  omap (λ slot, match slot with PropertySlot.Data value => Some value | PropertySlot.Accessor _ _ => None end) (slots self).

Definition accessor_functions (self : ObjectRecord) : list FunctionId :=
  mjoin ((λ slot, match slot with
    | PropertySlot.Data _ => []
    | PropertySlot.Accessor getter setter => omap id [getter; setter]
    end) <$> slots self).

Definition own_property (self : ObjectRecord) (key : PropertyKey) : panics (option OwnProperty) :=
  match position key (shape self) with
  | None => Ok None
  | Some index =>
      property ← expect (shape self !! index);
      slot ← expect (slots self !! index);
      Ok (Some (own_of (shape_layout property) slot))
  end.

Definition replace_existing_data (self : ObjectRecord) (key : PropertyKey) (value : StoredValue) : panics (ObjectRecord * bool) :=
  match position key (shape self) with
  | None => Ok (self, false)
  | Some index =>
      slot ← expect (slots self !! index);
      match slot with
      | PropertySlot.Data _ =>
          slots ← write_at index (PropertySlot.Data value) (slots self);
          Ok (with_storage self (shape self) slots, true)
      | PropertySlot.Accessor _ _ => Ok (self, false)
      end
  end.

Definition replace_existing_data_layout (self : ObjectRecord) (key : PropertyKey) (layout : PropertyLayout) :
    panics (ObjectRecord * option PropertyLayout) :=
  match position key (shape self) with
  | None => Ok (self, None)
  | Some index =>
      slot ← expect (slots self !! index);
      match slot with
      | PropertySlot.Accessor _ _ => Ok (self, None)
      | PropertySlot.Data _ =>
          property ← expect (shape self !! index);
          self ← transition_shape self (ReplaceLayout index layout);
          Ok (self, Some (shape_layout property))
      end
  end.

Definition replace_existing_property (self : ObjectRecord) (key : PropertyKey) (replacement : OwnProperty) :
    panics (ObjectRecord * option OwnProperty) :=
  match position key (shape self) with
  | None => Ok (self, None)
  | Some index =>
      slot ← expect (slots self !! index);
      property ← expect (shape self !! index);
      let previous := own_of (shape_layout property) slot in
      let '(layout, slot) := into_parts replacement in
      self ← transition_shape self (ReplaceLayout index layout);
      slots ← write_at index slot (slots self);
      Ok (with_storage self (shape self) slots, Some previous)
  end.

(** [replace_existing_with_data], [replace_existing_with_accessor] and
    [restore_existing_property] *)
Definition replace_existing_with_data (self : ObjectRecord) (key : PropertyKey) (layout : PropertyLayout) (value : StoredValue) :=
  replace_existing_property self key (OwnProperty.Data layout value).
Definition replace_existing_with_accessor (self : ObjectRecord) (key : PropertyKey) (layout : PropertyLayout)
    (getter setter : option FunctionId) := replace_existing_property self key (OwnProperty.Accessor layout getter setter).
Definition restore_existing_property (self : ObjectRecord) (key : PropertyKey) (property : OwnProperty) :=
  replace_existing_property self key property.

Section with_allocator.
Context `{Allocator}.

Definition try_reserve_data (self : ObjectRecord) (additional : Z) : result TryReserveError unit :=
  reserve "slots" (len (slots self)) additional tryReserveError ;;
  reserve "shape" (len (shape self)) additional tryReserveError.

(** The push of [append_data] and [append_accessor]. *)
Definition append (self : ObjectRecord) (key : PropertyKey) (layout : PropertyLayout) (slot : PropertySlot) :
    result TryReserveError ObjectRecord :=
  try_reserve_data self 1 ;;
  Ok (with_storage self (shape self ++ [mkShapeProperty key layout]) (slots self ++ [slot])).
Definition append_data (self : ObjectRecord) (key : PropertyKey) (layout : PropertyLayout) (value : StoredValue) :=
  append self key layout (PropertySlot.Data value).
Definition append_accessor (self : ObjectRecord) (key : PropertyKey) (layout : PropertyLayout) (getter setter : option FunctionId) :=
  append self key layout (PropertySlot.Accessor getter setter).
End with_allocator.

(** The property [append_dense_storage_as_sparse] pushes for one element. *)
Definition index_property (offset : Z) : panics ShapeProperty :=
  index ← expect (try_u32 offset ≫= ArrayIndex.new);
  Ok (mkShapeProperty (PropertyKey.Index index) (PropertyLayout.data true true true)).

Fixpoint append_elements (elements : list (option StoredValue)) (offset : Z) (self : ObjectRecord) : panics ObjectRecord :=
  match elements with
  | [] => Ok self
  | None :: elements => append_elements elements (offset + 1) self
  | Some value :: elements =>
      property ← index_property offset;
      append_elements elements (offset + 1)
        (with_storage self (shape self ++ [property]) (slots self ++ [PropertySlot.Data value]))
  end.

Definition append_dense_storage_as_sparse (self : ObjectRecord) (elements : list (option StoredValue)) : panics ObjectRecord :=
  append_elements elements 0 self.

Definition pop_last_data (self : ObjectRecord) (key : PropertyKey) : ObjectRecord * option StoredValue :=
  match last (shape self), last (slots self) with
  | Some property, Some (PropertySlot.Data value) =>
      if negb (PropertyKey.eq (shape_key property) key) then (self, None)
      else (with_storage self (removelast (shape self)) (removelast (slots self)), Some value)
  | _, _ => (self, None)
  end.

(** *** Truncation *)

(** [v.swap(a, b)] *)
Definition swap {A} (a b : nat) (l : list A) : panics (list A) :=
  x ← expect (l !! a); y ← expect (l !! b); Ok (<[b := x]> (<[a := y]> l)).

(** The compaction loop from [current] on, with [count] turns to go. *)
Fixpoint compact (count : nat) (current retained : nat) (final_length : Z) (shape : list ShapeProperty) (slots : list PropertySlot) :
    panics (nat * list ShapeProperty * list PropertySlot) :=
  match count with
  | O => Ok (retained, shape, slots)
  | S count =>
      property ← expect (shape !! current);
      if match PropertyKey.as_index (shape_key property) with Some index => final_length <=? get index | None => false end then
        compact count (S current) retained final_length shape slots
      else if (retained =? current)%nat then compact count (S current) (S retained) final_length shape slots
      else
        shape ← swap retained current shape;
        slots ← swap retained current slots;
        compact count (S current) (S retained) final_length shape slots
  end.

Definition blocking_index (requested_length : Z) (property : ShapeProperty) : option ArrayIndex :=
  index ← PropertyKey.as_index (shape_key property);
  if (requested_length <=? get index) && negb (PropertyLayout.is_configurable (shape_layout property)) then Some index else None.

Definition truncate_array_indices (self : ObjectRecord) (requested_length : Z) : panics (ObjectRecord * ArrayTruncation) :=
  let blocked_index := max_index (omap (blocking_index requested_length) (shape self)) in
  let final_length := match blocked_index with Some index => Z.min (get index + 1) u32_max | None => requested_length end in
  let original_length := length (shape self) in
  '(retained, shape', slots') ← compact original_length 0 0 final_length (shape self) (slots self);
  Ok (with_storage self (take retained shape') (take retained slots'),
      mkTruncation final_length blocked_index (Z.of_nat (original_length - retained))).
End ObjectRecord.

(** ** Array storage *)

Definition MAX_DENSE_ARRAY_GAP : Z := 1024.

Module ArrayStorage.
Inductive ArrayStorage : Set :=
| Dense (elements : list (option StoredValue)) (present : Z)
| Sparse.
End ArrayStorage.
Import ArrayStorage(ArrayStorage).

Record ArrayState : Set := mkArrayState { array_length : Z; storage : ArrayStorage }.

(** The elements that are there. *)
Definition present_elements (elements : list (option StoredValue)) : Z := len (omap id elements).

Module ArrayState.
Definition new (length : Z) : ArrayState := mkArrayState length (ArrayStorage.Dense [] 0).
Definition sparse (length : Z) : ArrayState := mkArrayState length ArrayStorage.Sparse.
Definition dense (length : Z) (elements : list StoredValue) : ArrayState :=
  mkArrayState length (ArrayStorage.Dense (Some <$> elements) (len elements)).
Definition replace_length (self : ArrayState) (length : Z) : ArrayState := mkArrayState length (storage self).

Definition is_dense (self : ArrayState) : bool := match storage self with ArrayStorage.Dense _ _ => true | _ => false end.
Definition is_sparse (self : ArrayState) : bool := match storage self with ArrayStorage.Sparse => true | _ => false end.
Definition dense_property_count (self : ArrayState) : Z :=
  match storage self with ArrayStorage.Dense _ present => present | ArrayStorage.Sparse => 0 end.

(** The storage as a list. *)
Definition dense_elements (self : ArrayState) : list (option StoredValue) :=
  match storage self with ArrayStorage.Dense elements _ => elements | ArrayStorage.Sparse => [] end.

Definition dense_indices (self : ArrayState) : list ArrayIndex :=
  omap (λ p, match snd p with Some _ => try_u32 (Z.of_nat (fst p)) ≫= ArrayIndex.new | None => None end)
    (enumerate (dense_elements self)).
Definition dense_values (self : ArrayState) : list StoredValue := omap id (dense_elements self).

Definition dense_value (self : ArrayState) (index : ArrayIndex) : option StoredValue :=
  mjoin (dense_elements self !! Z.to_nat (get index)).

Definition can_store_dense (self : ArrayState) (index : ArrayIndex) : bool :=
  match storage self with
  | ArrayStorage.Dense elements _ => get index <=? saturating_add_u64 (len elements) MAX_DENSE_ARRAY_GAP
  | ArrayStorage.Sparse => false
  end.

Section with_allocator.
Context `{Allocator}.

Definition try_restore_dense (self : ArrayState) (index : ArrayIndex) : result TryReserveError (ArrayState * bool) :=
  match storage self with
  | ArrayStorage.Dense _ _ => Ok (self, false)
  | ArrayStorage.Sparse =>
      let capacity := get index + 1 in
      if MAX_DENSE_ARRAY_GAP <? capacity then Ok (self, false) else
      reserve "restored elements" 0 capacity tryReserveError ;;
      Ok (mkArrayState (array_length self) (ArrayStorage.Dense (replicate (Z.to_nat capacity) None) 0), true)
  end.

(** Fails with [TryReserveError]; panics on sparse storage. *)
Definition try_store_dense (self : ArrayState) (index : ArrayIndex) (value : StoredValue) :
    outcome TryReserveError (ArrayState * bool) :=
  match storage self with
  | ArrayStorage.Sparse => Err Panic
  | ArrayStorage.Dense elements present =>
      let index := get index in
      elements ←
        (if len elements <=? index then
           let additional := saturating_sub (saturating_add_u64 index 1) (len elements) in
           lift (reserve "elements" (len elements) additional tryReserveError) ;;
           Ok (elements ++ replicate (Z.to_nat (saturating_add_u64 index 1) - length elements) None)
         else Ok elements);
      element ← expect (elements !! Z.to_nat index);
      let created := negb (is_some element) in
      Ok (mkArrayState (array_length self)
            (ArrayStorage.Dense (<[Z.to_nat index := Some value]> elements)
               (if created then saturating_add_u64 present 1 else present)), created)
  end.
End with_allocator.

Definition delete_dense (self : ArrayState) (index : ArrayIndex) : ArrayState * bool :=
  match storage self with
  | ArrayStorage.Sparse => (self, false)
  | ArrayStorage.Dense elements present =>
      match elements !! Z.to_nat (get index) with
      | None | Some None => (self, false)
      | Some (Some _) =>
          (mkArrayState (array_length self)
             (ArrayStorage.Dense (<[Z.to_nat (get index) := None]> elements) (saturating_sub present 1)), true)
      end
  end.

Definition truncate_dense (self : ArrayState) (length : Z) : ArrayState * Z :=
  match storage self with
  | ArrayStorage.Sparse => (self, 0)
  | ArrayStorage.Dense elements present =>
      if len elements <=? length then (self, 0) else
      let removed := present_elements (drop (Z.to_nat length) elements) in
      (mkArrayState (array_length self)
         (ArrayStorage.Dense (take (Z.to_nat length) elements) (saturating_sub present removed)), removed)
  end.

Definition take_dense_elements (self : ArrayState) : ArrayState * option (list (option StoredValue)) :=
  (mkArrayState (array_length self) ArrayStorage.Sparse,
   match storage self with ArrayStorage.Dense elements _ => Some elements | ArrayStorage.Sparse => None end).
End ArrayState.

(** ** Own keys *)

Record KeyPhases : Set := mkPhases { indices : bool; strings : bool; symbols : bool }.

Inductive AtomKeyPhase : Set := StringPhase | SymbolPhase.

Record ForInCandidate : Set := mkCandidate { candidate_key : PropertyKey; candidate_enumerable : bool }.
Record ForInSnapshot : Set := mkSnapshot { candidates : list ForInCandidate; sort_work : Z }.

Module KeyPhases.
Definition STRING_KEYS : KeyPhases := mkPhases true true false.
Definition SYMBOL_KEYS : KeyPhases := mkPhases false false true.
Definition ALL : KeyPhases := mkPhases true true true.
End KeyPhases.

(** [u64::BITS - (entries - 1).leading_zeros()] is the length of [entries - 1] in bits. *)
Definition conservative_sort_work (entries : Z) : Z :=
  if entries <=? 1 then 0 else
  let levels := Z.log2 (entries - 1) + 1 in
  Z.min (Z.min (entries * levels) u64_max * 2) u64_max.

(** The order of [sort_unstable_by_key] on candidates with an index. *)
Definition candidate_le (a b : ForInCandidate) : Prop :=
  default 0 (get <$> PropertyKey.as_index (candidate_key a)) ≤ default 0 (get <$> PropertyKey.as_index (candidate_key b)).
#[export] Instance candidate_le_dec : RelDecision candidate_le.
Proof. intros a b. unfold candidate_le. apply _. Defined.

Definition candidate_of (property : ShapeProperty) : ForInCandidate :=
  mkCandidate (shape_key property) (PropertyLayout.is_enumerable (shape_layout property)).

Module OwnKeys.
Definition phase_of (atom : Atom) (phases : KeyPhases) : bool :=
  match kind atom with
  | AtomKind.String => strings phases
  | AtomKind.Symbol | AtomKind.GlobalSymbol => symbols phases
  | AtomKind.Private => false
  end.

Definition counted (virtual_indices : Z) (phases : KeyPhases) (property : ShapeProperty) : bool :=
  match shape_key property with
  | PropertyKey.Index index => indices phases && (virtual_indices <=? get index)
  | PropertyKey.Atom atom => phase_of atom phases
  end.

Definition virtual_of (string_length : option Z) (phases : KeyPhases) : Z :=
  if indices phases then default 0 string_length else 0.

Definition own_key_candidate_count_with_array (self : ObjectRecord) (string_length : option Z) (phases : KeyPhases)
    (array : option ArrayState) : Z :=
  let virtual_indices := virtual_of string_length phases in
  let dense_indices := if indices phases then default 0 (ArrayState.dense_property_count <$> array) else 0 in
  saturating_add_u64 (saturating_add_u64 virtual_indices dense_indices)
    (len (filter (λ p, counted virtual_indices phases p = true) (shape self))).

Definition matches_phase (phase : AtomKeyPhase) (property : ShapeProperty) : bool :=
  match PropertyKey.as_atom (shape_key property) with
  | None => false
  | Some atom =>
      match phase, kind atom with
      | StringPhase, AtomKind.String => true
      | SymbolPhase, (AtomKind.Symbol | AtomKind.GlobalSymbol) => true
      | _, _ => false
      end
  end.

Definition push_atom_keys (self : ObjectRecord) (candidates : list ForInCandidate) (phase : AtomKeyPhase) : list ForInCandidate :=
  candidates ++ (candidate_of <$> filter (λ p, matches_phase phase p = true) (shape self)).

Definition index_candidate (index : ArrayIndex) : ForInCandidate := mkCandidate (PropertyKey.Index index) true.

(** [for index in 0..virtual_indices] with [ArrayIndex::new(index).expect(..)] *)
Fixpoint virtual_candidates (count : nat) (index : Z) : panics (list ForInCandidate) :=
  match count with
  | O => Ok []
  | S count =>
      i ← expect (ArrayIndex.new index);
      rest ← virtual_candidates count (index + 1);
      Ok (index_candidate i :: rest)
  end.

Definition own_indices (self : ObjectRecord) (virtual_indices : Z) : list ForInCandidate :=
  candidate_of <$> filter (λ p, match PropertyKey.as_index (shape_key p) with
    | Some index => virtual_indices <=? get index | None => false end = true) (shape self).

Section with_allocator.
Context `{Allocator}.

Definition try_own_key_snapshot_with_array (self : ObjectRecord) (string_length : option Z) (phases : KeyPhases)
    (array : option ArrayState) : outcome TryReserveError ForInSnapshot :=
  let virtual_indices := virtual_of string_length phases in
  let capacity := own_key_candidate_count_with_array self string_length phases array in
  lift (reserve "candidates" 0 capacity tryReserveError) ;;
  '(found, work) ←
    (if indices phases then
       virtuals ← widen (virtual_candidates (Z.to_nat virtual_indices) 0);
       let all := virtuals
         ++ (index_candidate <$> default [] (ArrayState.dense_indices <$> array))
         ++ own_indices self virtual_indices in
       Ok (merge_sort candidate_le all, conservative_sort_work (len all))
     else Ok ([], 0));
  let found := if strings phases then push_atom_keys self found StringPhase else found in
  let found := if symbols phases then push_atom_keys self found SymbolPhase else found in
  Ok (mkSnapshot found work).

Definition try_own_key_snapshot (self : ObjectRecord) (string_length : option Z) (phases : KeyPhases) :=
  try_own_key_snapshot_with_array self string_length phases None.
Definition try_array_own_key_snapshot (self : ObjectRecord) (array : ArrayState) (phases : KeyPhases) :=
  try_own_key_snapshot_with_array self None phases (Some array).
End with_allocator.
End OwnKeys.
