(* ===== verification/ObjectFacts.v ===== *)
(** * Property tables are ordered maps

    The reference is the list of an object's properties in creation order, as
    [[OwnPropertyKeys]] observes it.  The record's two vectors implement it
    without panicking; truncation is the deletion loop of ArraySetLength; and the
    own-key snapshot is in the order of OrdinaryOwnPropertyKeys. *)

From S2P Require Import Prelude RuntimePrelude JsStrings ArrayIndex Arena BigInt Values ValueFacts Descriptors DescriptorFacts Objects.
From stdpp Require Import list sorting.
Local Open Scope Z_scope.

Import NumberRepr(NumberRepr) StoredValue(StoredValue) PropertyKey(PropertyKey) OwnProperty(OwnProperty) AtomKind(AtomKind).
Import HeapReference(HeapReference) PropertySlot(PropertySlot) ArrayStorage(ArrayStorage).

(** ** Keys *)

Lemma key_refl k : PropertyKey.eq k k = true.
Proof. destruct k; simpl; apply Z.eqb_refl. Qed.

Lemma key_left a b c : PropertyKey.eq a b = true → PropertyKey.eq a c = PropertyKey.eq b c.
Proof.
  destruct a as [x|x], b as [y|y]; simpl; try done; unfold is_same_identity; intros E%Z.eqb_eq; destruct c; simpl; try done;
    unfold is_same_identity; by rewrite E.
Qed.

Lemma key_sym a b : PropertyKey.eq a b = PropertyKey.eq b a.
Proof. destruct a, b; simpl; try done; unfold is_same_identity; apply Z.eqb_sym. Qed.

Lemma key_right a b c : PropertyKey.eq a b = true → PropertyKey.eq c a = PropertyKey.eq c b.
Proof. intros E. by rewrite !(key_sym c), (key_left a b c E). Qed.

Lemma key_index i k : PropertyKey.eq (PropertyKey.Index i) k = true ↔ k = PropertyKey.Index i.
Proof.
  destruct k as [j|a]; simpl; [|done]. rewrite Z.eqb_eq. destruct i as [i], j as [j]. simpl. naive_solver.
Qed.

(** ** Reference: properties in creation order *)

Module Properties.
Notation Table := (list (PropertyKey * OwnProperty)) (only parsing).

Fixpoint lookup (t : Table) (k : PropertyKey) : option OwnProperty :=
  match t with
  | [] => None
  | (k', p) :: t => if PropertyKey.eq k' k then Some p else lookup t k
  end.
Definition delete (t : Table) (k : PropertyKey) : Table := filter (λ e, PropertyKey.eq e.1 k = false) t.
Definition replace (t : Table) (k : PropertyKey) (p : OwnProperty) : Table :=
  (λ e, if PropertyKey.eq e.1 k then (e.1, p) else e) <$> t.

(** Some index at or above the bound. *)
Definition at_least (bound : Z) (k : PropertyKey) : bool :=
  match k with PropertyKey.Index i => bound <=? get i | PropertyKey.Atom _ => false end.

Lemma lookup_none t k : lookup t k = None ↔ Forall (λ e, PropertyKey.eq e.1 k = false) t.
Proof.
  induction t as [|[k' p] t IH]; simpl; [done|]. rewrite Forall_cons, <- IH. simpl. destruct (PropertyKey.eq k' k); naive_solver.
Qed.

Lemma lookup_app t t' k : lookup (t ++ t') k = match lookup t k with Some p => Some p | None => lookup t' k end.
Proof. induction t as [|[k' p] t IH]; simpl; [done|]. by destruct (PropertyKey.eq k' k). Qed.

Lemma delete_none t k : lookup t k = None → delete t k = t.
Proof.
  rewrite lookup_none. unfold delete. induction 1 as [|e t He _ IH]; [done|]. by rewrite filter_cons, decide_True, IH.
Qed.

Lemma replace_none t k p : lookup t k = None → replace t k p = t.
Proof. rewrite lookup_none. unfold replace. induction 1 as [|e t He _ IH]; [done|]. by rewrite fmap_cons, He, IH. Qed.

Lemma delete_app t t' k : delete (t ++ t') k = delete t k ++ delete t' k.
Proof. apply filter_app. Qed.

Lemma lookup_delete t k k' : lookup (delete t k) k' = if PropertyKey.eq k k' then None else lookup t k'.
Proof.
  unfold delete. induction t as [|[k0 p] t IH]; simpl; [by case_match|]. rewrite filter_cons. simpl.
  destruct (decide (PropertyKey.eq k0 k = false)) as [E|E]; simpl.
  - rewrite IH. destruct (PropertyKey.eq k0 k') eqn:E'; [|done]. destruct (PropertyKey.eq k k') eqn:E2; [|done].
    rewrite key_sym in E2. rewrite (key_left k0 k' k E') in E. congruence.
  - apply not_false_is_true in E. rewrite IH, (key_left k0 k k' E). by case_match.
Qed.

Lemma lookup_replace t k p k' :
  lookup (replace t k p) k' = if PropertyKey.eq k k' then (λ _, p) <$> lookup t k' else lookup t k'.
Proof.
  unfold replace. induction t as [|[k0 q] t IH]; [simpl; by case_match|]. rewrite fmap_cons. cbn [fst].
  destruct (PropertyKey.eq k0 k) eqn:E; cbn [lookup fst]; rewrite IH.
  - rewrite (key_left k0 k k' E). by destruct (PropertyKey.eq k k').
  - destruct (PropertyKey.eq k0 k') eqn:E'; [|done]. destruct (PropertyKey.eq k k') eqn:E2; [|done].
    rewrite key_sym in E2. rewrite (key_left k0 k' k E') in E. congruence.
Qed.
End Properties.

(** ** The invariant of a record *)

Definition entry_of (property : ShapeProperty) (slot : PropertySlot) : PropertyKey * OwnProperty :=
  (shape_key property, own_of (shape_layout property) slot).
Definition table (r : ObjectRecord) : list (PropertyKey * OwnProperty) := zip_with entry_of (shape r) (slots r).

Definition distinct_keys (l : list ShapeProperty) : Prop :=
  ForallOrdPairs (λ p q, PropertyKey.eq (shape_key p) (shape_key q) = false) l.

Record record_ok (r : ObjectRecord) : Prop := mkRecordOk {
  ok_slots : Forall2 (λ p s, property_ok (own_of (shape_layout p) s)) (shape r) (slots r);
  ok_keys : distinct_keys (shape r)
}.

Lemma distinct_app l1 l2 : distinct_keys (l1 ++ l2) ↔
  distinct_keys l1 ∧ distinct_keys l2 ∧ Forall (λ p, Forall (λ q, PropertyKey.eq (shape_key p) (shape_key q) = false) l2) l1.
Proof.
  unfold distinct_keys. induction l1 as [|p l1 IH]; simpl.
  - split; [intros; split_and!; [constructor|done|constructor]|naive_solver].
  - split.
    + inversion 1 as [|? ? Hp Ho]; subst. apply Forall_app in Hp as [Hp1 Hp2]. apply IH in Ho as (? & ? & ?).
      split_and!; [by constructor|done|by constructor].
    + intros (Ho & H2 & Hf). inversion Ho; subst. apply Forall_cons in Hf as [Hp Hf].
      constructor; [by apply Forall_app|]. apply IH. by split_and!.
Qed.

Lemma zip_entries_app l1 s1 l2 s2 : length l1 = length s1 →
  zip_with entry_of (l1 ++ l2) (s1 ++ s2) = zip_with entry_of l1 s1 ++ zip_with entry_of l2 s2.
Proof. intros. by apply zip_with_app. Qed.

Lemma lookup_absent l s k : Forall (λ q, PropertyKey.eq (shape_key q) k = false) l →
  Properties.lookup (zip_with entry_of l s) k = None.
Proof.
  intros Hl. revert s. induction Hl as [|q l Hq _ IH]; intros [|x s]; simpl; try done. by rewrite Hq.
Qed.

Lemma position_none k l : position k l = None ↔ Forall (λ q, PropertyKey.eq (shape_key q) k = false) l.
Proof.
  induction l as [|p l IH]; simpl; [done|]. rewrite Forall_cons, <- IH.
  destruct (PropertyKey.eq (shape_key p) k); [naive_solver|]. destruct (position k l); naive_solver.
Qed.

Lemma position_some k l i : position k l = Some i → ∃ l1 p l2, l = l1 ++ p :: l2 ∧ length l1 = i
  ∧ PropertyKey.eq (shape_key p) k = true ∧ Forall (λ q, PropertyKey.eq (shape_key q) k = false) l1.
Proof.
  revert i. induction l as [|p l IH]; intros i; simpl; [done|]. destruct (PropertyKey.eq (shape_key p) k) eqn:E.
  - intros [= <-]. by exists [], p, l.
  - destruct (position k l) as [j|]; [|done]. intros [= <-]. destruct (IH j eq_refl) as (l1 & q & l2 & -> & <- & Hq & Hf).
    exists (p :: l1), q, l2. split_and!; [done..|]. by constructor.
Qed.

(** The record around the property with the key. *)
Record located (r : ObjectRecord) (k : PropertyKey) (l1 : list ShapeProperty) p l2 s1 s s2 : Prop := mkLocated {
  loc_shape : shape r = l1 ++ p :: l2;
  loc_slots : slots r = s1 ++ s :: s2;
  loc_length : length l1 = length s1;
  loc_key : PropertyKey.eq (shape_key p) k = true;
  loc_before : Forall (λ q, PropertyKey.eq (shape_key q) k = false) l1;
  loc_after : Forall (λ q, PropertyKey.eq (shape_key q) k = false) l2
}.

Lemma locate r k i : record_ok r → position k (shape r) = Some i →
  ∃ l1 p l2 s1 s s2, located r k l1 p l2 s1 s s2 ∧ i = length l1.
Proof.
  intros [Hs Hk] (l1 & p & l2 & E & <- & Hp & Hf)%position_some. rewrite E in Hs, Hk.
  apply Forall2_app_inv_l in Hs as (s1 & s' & H1 & H2 & Es). inversion H2 as [|? s ? s2 Hps H2']; subst.
  exists l1, p, l2, s1, s, s2. split; [|done]. split; try done; [by eapply Forall2_length|].
  apply distinct_app in Hk as (_ & Hk & _). inversion Hk as [|? ? Hpl]; subst. eapply Forall_impl; [exact Hpl|].
  intros q Hq. simpl in Hq. rewrite (key_left _ _ _ Hp) in Hq. by rewrite key_sym.
Qed.

Lemma located_table r k l1 p l2 s1 s s2 : located r k l1 p l2 s1 s s2 →
  table r = zip_with entry_of l1 s1 ++ entry_of p s :: zip_with entry_of l2 s2.
Proof. intros Hl. unfold table. rewrite (loc_shape _ _ _ _ _ _ _ _ Hl), (loc_slots _ _ _ _ _ _ _ _ Hl). apply zip_entries_app. apply Hl. Qed.

Lemma located_lookup r k l1 p l2 s1 s s2 : located r k l1 p l2 s1 s s2 →
  Properties.lookup (table r) k = Some (own_of (shape_layout p) s)
  ∧ Properties.lookup (zip_with entry_of l1 s1) k = None ∧ Properties.lookup (zip_with entry_of l2 s2) k = None.
Proof.
  intros Hl. rewrite (located_table _ _ _ _ _ _ _ _ Hl), Properties.lookup_app.
  rewrite !lookup_absent by apply Hl. simpl. rewrite (loc_key _ _ _ _ _ _ _ _ Hl). done.
Qed.

Lemma absent_lookup r k : position k (shape r) = None → Properties.lookup (table r) k = None.
Proof. intros Hp%position_none. by apply lookup_absent. Qed.

Lemma lookup_middle_eq {A} (l1 l2 : list A) x : (l1 ++ x :: l2) !! length l1 = Some x.
Proof. by apply list_lookup_middle. Qed.

Lemma delete_middle_eq {A} (l1 l2 : list A) x : delete (length l1) (l1 ++ x :: l2) = l1 ++ l2.
Proof. by apply delete_middle. Qed.

Lemma insert_middle_eq {A} (l1 l2 : list A) x y : <[length l1 := y]> (l1 ++ x :: l2) = l1 ++ y :: l2.
Proof. rewrite insert_app_r_alt, Nat.sub_diag by lia. done. Qed.

Lemma write_at_middle {A} (l1 l2 : list A) x y : write_at (length l1) y (l1 ++ x :: l2) = Ok (l1 ++ y :: l2).
Proof.
  unfold write_at. destruct (Nat.ltb_spec (length l1) (length (l1 ++ x :: l2))) as [_|Hge]; [by rewrite insert_middle_eq|].
  rewrite length_app in Hge. simpl in Hge. lia.
Qed.

Lemma remove_at_middle {A} (l1 l2 : list A) x : remove_at (length l1) (l1 ++ x :: l2) = Ok (l1 ++ l2).
Proof.
  unfold remove_at. destruct (Nat.ltb_spec (length l1) (length (l1 ++ x :: l2))) as [_|Hge]; [by rewrite delete_middle_eq|].
  rewrite length_app in Hge. simpl in Hge. lia.
Qed.

(** ** Operations *)

Lemma own_property_exact r k : record_ok r → ObjectRecord.own_property r k = Ok (Properties.lookup (table r) k).
Proof.
  intros Hok. unfold ObjectRecord.own_property. destruct (position k (shape r)) as [i|] eqn:Ep; [|by rewrite absent_lookup].
  destruct (locate r k i Hok Ep) as (l1 & p & l2 & s1 & s & s2 & Hl & ->).
  rewrite (proj1 (located_lookup _ _ _ _ _ _ _ _ Hl)). destruct Hl as [-> -> Hlen _ _ _].
  rewrite lookup_middle_eq, Hlen, lookup_middle_eq. done.
Qed.

(** Changing the located property keeps the rest. *)
Lemma located_replace r k l1 p l2 s1 s s2 layout slot : record_ok r → located r k l1 p l2 s1 s s2 →
  property_ok (own_of layout slot) →
  let r' := ObjectRecord.with_storage r (l1 ++ mkShapeProperty (shape_key p) layout :: l2) (s1 ++ slot :: s2) in
  record_ok r' ∧ table r' = Properties.replace (table r) k (own_of layout slot).
Proof.
  intros [Hs Hk] Hl Hp. pose proof (located_lookup _ _ _ _ _ _ _ _ Hl) as (_ & H1 & H2). split.
  - destruct Hl as [E Es Hlen _ _ _]. rewrite E in Hk. rewrite E, Es in Hs. split; simpl.
    + apply Forall2_app_inv in Hs as [Ha Hb]; [|done]. inversion Hb; subst. by apply Forall2_app; [|constructor].
    + apply distinct_app in Hk as (K1 & K2 & K3). apply distinct_app. inversion K2 as [|? ? Hf]; subst. split_and!; [done|by constructor|].
      eapply Forall_impl; [exact K3|]. intros q Hq. simpl in Hq. inversion Hq; subst. by constructor.
  - rewrite (located_table _ _ _ _ _ _ _ _ Hl). unfold table. simpl. rewrite zip_entries_app by apply Hl.
    unfold Properties.replace. rewrite fmap_app, fmap_cons. fold (Properties.replace (zip_with entry_of l1 s1) k (own_of layout slot)).
    fold (Properties.replace (zip_with entry_of l2 s2) k (own_of layout slot)). rewrite !Properties.replace_none by done.
    simpl. by rewrite (loc_key _ _ _ _ _ _ _ _ Hl).
Qed.

Lemma replace_exact r k p : record_ok r → property_ok p →
  ∃ r', ObjectRecord.replace_existing_property r k p = Ok (r', Properties.lookup (table r) k)
    ∧ record_ok r' ∧ table r' = Properties.replace (table r) k p
    ∧ prototype r' = prototype r ∧ extensible r' = extensible r.
Proof.
  intros Hok Hp. unfold ObjectRecord.replace_existing_property. destruct (position k (shape r)) as [i|] eqn:Ep.
  - destruct (locate r k i Hok Ep) as (l1 & q & l2 & s1 & s & s2 & Hl & ->).
    rewrite (proj1 (located_lookup _ _ _ _ _ _ _ _ Hl)).
    destruct (into_parts p) as [layout slot] eqn:Eparts.
    assert (own_of layout slot = p) as Eo by (destruct p; by simplify_eq/=).
    pose proof (located_replace _ _ _ _ _ _ _ _ layout slot Hok Hl) as Hr. rewrite Eo in Hr. specialize (Hr Hp).
    pose proof (loc_shape _ _ _ _ _ _ _ _ Hl) as E. pose proof (loc_slots _ _ _ _ _ _ _ _ Hl) as Es.
    pose proof (loc_length _ _ _ _ _ _ _ _ Hl) as Hlen.
    eexists. split; [|exact (conj (proj1 Hr) (conj (proj2 Hr) (conj eq_refl eq_refl)))].
    unfold ObjectRecord.transition_shape, apply_transition. rewrite E, lookup_middle_eq, Es, Hlen, lookup_middle_eq.
    cbn [expect ok_or mbind result_bind]. rewrite <- Hlen, write_at_middle. cbn [mbind result_bind ObjectRecord.with_storage slots].
    by rewrite Hlen, write_at_middle.
  - pose proof (absent_lookup r k Ep) as Hn. exists r. rewrite Hn, Properties.replace_none by done. done.
Qed.

Lemma located_slot r k l1 p l2 s1 s s2 : record_ok r → located r k l1 p l2 s1 s s2 → property_ok (own_of (shape_layout p) s).
Proof.
  intros [Hs _] [E Es Hlen _ _ _]. rewrite E, Es in Hs. apply Forall2_app_inv in Hs as [_ Hb]; [|done]. by inversion Hb.
Qed.

(** What [replace_existing_data] writes: the value of a data property. *)
Definition set_value (p : OwnProperty) (v : StoredValue) : option OwnProperty :=
  match p with OwnProperty.Data layout _ => Some (OwnProperty.Data layout v) | OwnProperty.Accessor _ _ _ => None end.

Lemma replace_data_exact r k v : record_ok r → value_ok v →
  ∃ r' b, ObjectRecord.replace_existing_data r k v = Ok (r', b) ∧ record_ok r'
    ∧ prototype r' = prototype r ∧ extensible r' = extensible r
    ∧ match Properties.lookup (table r) k ≫= λ p, set_value p v with
      | Some q => b = true ∧ table r' = Properties.replace (table r) k q
      | None => b = false ∧ r' = r
      end.
Proof.
  intros Hok Hv. unfold ObjectRecord.replace_existing_data. destruct (position k (shape r)) as [i|] eqn:Ep.
  - destruct (locate r k i Hok Ep) as (l1 & q & l2 & s1 & s & s2 & Hl & ->).
    pose proof (located_slot _ _ _ _ _ _ _ _ Hok Hl) as Hps.
    rewrite (proj1 (located_lookup _ _ _ _ _ _ _ _ Hl)). pose proof (loc_slots _ _ _ _ _ _ _ _ Hl) as Es.
    pose proof (loc_shape _ _ _ _ _ _ _ _ Hl) as E. pose proof (loc_length _ _ _ _ _ _ _ _ Hl) as Hlen.
    rewrite Es, Hlen, lookup_middle_eq. cbn [expect ok_or mbind result_bind]. destruct s as [u|g t]; simpl.
    + rewrite write_at_middle. cbn [mbind result_bind]. eexists _, _. split; [reflexivity|].
      destruct (located_replace _ _ _ _ _ _ _ _ (shape_layout q) (PropertySlot.Data v) Hok Hl) as [Hr Ht].
      { simpl in *. split; [apply Hps|done]. }
      assert (mkShapeProperty (shape_key q) (shape_layout q) = q) as Eq by (by destruct q). rewrite Eq, <- E in Hr, Ht.
      by split_and!.
    + by eexists _, _.
  - rewrite absent_lookup by done. by eexists _, _.
Qed.

Lemma replace_layout_exact r k layout : record_ok r → PropertyLayout.kind layout = DataKind →
  ∃ r' o, ObjectRecord.replace_existing_data_layout r k layout = Ok (r', o) ∧ record_ok r'
    ∧ prototype r' = prototype r ∧ extensible r' = extensible r
    ∧ match Properties.lookup (table r) k with
      | Some (OwnProperty.Data previous v) => o = Some previous ∧ table r' = Properties.replace (table r) k (OwnProperty.Data layout v)
      | _ => o = None ∧ r' = r
      end.
Proof.
  intros Hok Hlay. unfold ObjectRecord.replace_existing_data_layout. destruct (position k (shape r)) as [i|] eqn:Ep.
  2: { rewrite absent_lookup by done. by eexists _, _. }
  destruct (locate r k i Hok Ep) as (l1 & q & l2 & s1 & s & s2 & Hl & ->). pose proof (located_slot _ _ _ _ _ _ _ _ Hok Hl) as Hps.
  rewrite (proj1 (located_lookup _ _ _ _ _ _ _ _ Hl)). pose proof (loc_slots _ _ _ _ _ _ _ _ Hl) as Es.
  pose proof (loc_shape _ _ _ _ _ _ _ _ Hl) as E. pose proof (loc_length _ _ _ _ _ _ _ _ Hl) as Hlen.
  rewrite Es, Hlen, lookup_middle_eq. cbn [expect ok_or mbind result_bind]. destruct s as [u|g t]; cbn [own_of]; [|by eexists _, _].
  rewrite E, <- Hlen, lookup_middle_eq. cbn [expect ok_or mbind result_bind]. unfold ObjectRecord.transition_shape, apply_transition.
  rewrite E, lookup_middle_eq. cbn [expect ok_or mbind result_bind]. rewrite write_at_middle. cbn [mbind result_bind]. eexists _, _. split; [reflexivity|].
  destruct (located_replace _ _ _ _ _ _ _ _ layout (PropertySlot.Data u) Hok Hl) as [Hr Ht]; [split; [done|apply Hps]|].
  rewrite <- Es in Hr, Ht. by split_and!.
Qed.

Lemma delete_property_exact r k : record_ok r →
  ∃ r' d, ObjectRecord.delete_own_property r k = Ok (r', d) ∧ record_ok r'
    ∧ prototype r' = prototype r ∧ extensible r' = extensible r
    ∧ match Properties.lookup (table r) k with
      | None => d = Missing ∧ r' = r
      | Some p => if PropertyLayout.is_configurable (OwnProperty.layout p)
                  then d = Deleted ∧ table r' = Properties.delete (table r) k
                  else d = NotConfigurable ∧ r' = r
      end.
Proof.
  intros Hok. unfold ObjectRecord.delete_own_property. destruct (position k (shape r)) as [i|] eqn:Ep.
  2: { rewrite absent_lookup by done. by eexists _, _. }
  destruct (locate r k i Hok Ep) as (l1 & q & l2 & s1 & s & s2 & Hl & ->).
  pose proof (located_lookup _ _ _ _ _ _ _ _ Hl) as (-> & H1 & H2).
  pose proof (loc_slots _ _ _ _ _ _ _ _ Hl) as Es. pose proof (loc_shape _ _ _ _ _ _ _ _ Hl) as E.
  pose proof (loc_length _ _ _ _ _ _ _ _ Hl) as Hlen. rewrite E, lookup_middle_eq. cbn [expect ok_or mbind result_bind].
  assert (OwnProperty.layout (own_of (shape_layout q) s) = shape_layout q) as -> by (by destruct s).
  destruct (PropertyLayout.is_configurable (shape_layout q)); cbn [negb]; [|by eexists _, _].
  unfold ObjectRecord.transition_shape, apply_transition. rewrite E, remove_at_middle.
  cbn [mbind result_bind ObjectRecord.with_storage slots shape]. rewrite Es, Hlen, remove_at_middle. cbn [mbind result_bind].
  eexists _, _. split; [reflexivity|]. split_and!; [|done|done|done|].
  - destruct Hok as [Hs Hk]. rewrite E in Hk. rewrite E, Es in Hs. split; simpl.
    + apply Forall2_app_inv in Hs as [Ha Hb]; [|done]. inversion Hb; subst. by apply Forall2_app.
    + apply distinct_app in Hk as (K1 & K2 & K3). apply distinct_app. inversion K2; subst. split_and!; [done..|].
      eapply Forall_impl; [exact K3|]. intros x Hx. simpl in Hx. by inversion Hx.
  - rewrite (located_table _ _ _ _ _ _ _ _ Hl). unfold table. simpl. rewrite zip_entries_app by done.
    unfold Properties.delete. rewrite filter_app, filter_cons, decide_False by (simpl; rewrite (loc_key _ _ _ _ _ _ _ _ Hl); done).
    fold (Properties.delete (zip_with entry_of l1 s1) k). fold (Properties.delete (zip_with entry_of l2 s2) k).
    by rewrite !Properties.delete_none.
Qed.

Lemma append_storage_ok r k layout slot : record_ok r → property_ok (own_of layout slot) → Properties.lookup (table r) k = None →
  let r' := ObjectRecord.with_storage r (shape r ++ [mkShapeProperty k layout]) (slots r ++ [slot]) in
  record_ok r' ∧ table r' = table r ++ [(k, own_of layout slot)].
Proof.
  intros [Hs Hk] Hp Hn. assert (length (shape r) = length (slots r)) as Hlen by (by eapply Forall2_length). simpl. split.
  - split; simpl; [apply Forall2_app; [done|by repeat constructor]|]. apply distinct_app. split_and!; [done|by repeat constructor|].
    apply Properties.lookup_none in Hn. unfold table in Hn. clear Hs Hk. revert Hn Hlen. generalize (slots r). generalize (shape r).
    induction l as [|p l IH]; intros [|s ss] Hn Hlen; simpl in *; try done.
    apply Forall_cons in Hn as [Hp' Hn]. constructor; [by repeat constructor|]. apply (IH ss); [done|lia].
  - unfold table. simpl. by rewrite zip_entries_app.
Qed.

Lemma append_exact `{Allocator} r k layout slot : record_ok r → property_ok (own_of layout slot) → Properties.lookup (table r) k = None →
  match ObjectRecord.append r k layout slot with
  | Ok r' => record_ok r' ∧ table r' = table r ++ [(k, own_of layout slot)] ∧ prototype r' = prototype r ∧ extensible r' = extensible r
  | Err _ => refuses
  end.
Proof.
  intros Hok Hp Hn. unfold ObjectRecord.append, ObjectRecord.try_reserve_data, reserve.
  destruct (try_reserve "slots" _ _) eqn:E1; simpl; [|by eexists _, _, _].
  destruct (try_reserve "shape" _ _) eqn:E2; simpl; [|by eexists _, _, _].
  destruct (append_storage_ok r k layout slot Hok Hp Hn) as [H1 H2]. by split_and!.
Qed.

(** ** Truncation *)

(** [swap] of two positions. *)
Lemma swap_middle {A} (a b c : list A) x y :
  ObjectRecord.swap (length a) (length a + S (length b)) (a ++ x :: b ++ y :: c) = Ok (a ++ y :: b ++ x :: c).
Proof.
  unfold ObjectRecord.swap. rewrite lookup_middle_eq.
  assert ((a ++ x :: b ++ y :: c) !! (length a + S (length b))%nat = Some y) as ->.
  { rewrite lookup_app_r by lia. replace (length a + S (length b) - length a)%nat with (S (length b)) by lia. simpl. apply lookup_middle_eq. }
  cbn [expect ok_or mbind result_bind]. f_equal. rewrite insert_middle_eq.
  rewrite insert_app_r_alt by lia. f_equal. replace (length a + S (length b) - length a)%nat with (S (length b)) by lia.
  simpl. f_equal. apply insert_middle_eq.
Qed.

Definition removes (bound : Z) (p : ShapeProperty) : bool := Properties.at_least bound (shape_key p).

Lemma removes_code bound p :
  match PropertyKey.as_index (shape_key p) with Some index => bound <=? get index | None => false end = removes bound p.
Proof. unfold removes. by destruct (shape_key p). Qed.

(** Kept pairs, in order. *)
Notation kept bound ps := (filter (λ e : ShapeProperty * PropertySlot, removes bound e.1 = false) ps).

Lemma compact_run bound ps : ∀ (front junk : list (ShapeProperty * PropertySlot)),
  ∃ shape' slots', ObjectRecord.compact (length ps) (length front + length junk) (length front) bound
      (front.*1 ++ junk.*1 ++ ps.*1) (front.*2 ++ junk.*2 ++ ps.*2)
    = Ok ((length front + length (kept bound ps))%nat, shape', slots')
  ∧ take (length front + length (kept bound ps)) shape' = front.*1 ++ (kept bound ps).*1
  ∧ take (length front + length (kept bound ps)) slots' = front.*2 ++ (kept bound ps).*2.
Proof.
  induction ps as [|[p s] ps IH]; intros front junk; cbn [ObjectRecord.compact length].
  { eexists _, _. rewrite Nat.add_0_r. split; [reflexivity|]. rewrite !app_nil_r.
    split; rewrite take_app_length' by (by rewrite length_fmap); done. }
  assert ((front.*1 ++ junk.*1 ++ p :: ps.*1) !! (length front + length junk)%nat = Some p) as Hp.
  { rewrite app_assoc. apply list_lookup_middle. by rewrite length_app, !length_fmap. }
  rewrite fmap_cons. cbn [fst]. rewrite Hp. cbn [expect ok_or mbind result_bind]. rewrite removes_code, filter_cons. cbn [fst].
  destruct (removes bound p) eqn:Er.
  - rewrite decide_False by done. destruct (IH front (junk ++ [(p, s)])) as (sh & sl & Hc & H1 & H2).
    rewrite length_app in Hc. cbn [length] in Hc. rewrite !fmap_app in Hc. cbn [fmap list_fmap fst snd] in Hc. rewrite <- !app_assoc in Hc.
    replace (length front + (length junk + 1))%nat with (S (length front + length junk)) in Hc by lia.
    exists sh, sl. by split_and!.
  - rewrite decide_True by done. destruct junk as [|[j t] junk].
    + cbn [length]. rewrite Nat.add_0_r, Nat.eqb_refl. destruct (IH (front ++ [(p, s)]) []) as (sh & sl & Hc & H1 & H2).
      rewrite !length_app in *. cbn [length] in *. rewrite !fmap_app in *. cbn [fmap list_fmap fst snd] in *. rewrite <- !app_assoc in *.
      replace (length front + 1 + 0)%nat with (S (length front)) in Hc by lia.
      replace (length front + 1)%nat with (S (length front)) in Hc, H1, H2 by lia.
      exists sh, sl. cbn [app] in *. replace (length front + S (length (kept bound ps)))%nat with (S (length front) + length (kept bound ps))%nat by lia.
      by split_and!.
    + destruct (Nat.eqb_spec (length front) (length front + length ((j, t) :: junk))) as [E|_]; [simpl in E; lia|].
      cbn [length]. rewrite !fmap_cons. cbn [fst snd].
      pose proof (swap_middle front.*1 junk.*1 ps.*1 j p) as W1. pose proof (swap_middle front.*2 junk.*2 ps.*2 t s) as W2.
      rewrite !length_fmap in W1. rewrite !length_fmap in W2. cbn [app] in *. rewrite W1. cbn [mbind result_bind]. rewrite W2. cbn [mbind result_bind].
      destruct (IH (front ++ [(p, s)]) (junk ++ [(j, t)])) as (sh & sl & Hc & H1 & H2).
      rewrite !length_app in *. cbn [length] in *. rewrite !fmap_app in *. cbn [fmap list_fmap fst snd] in *. rewrite <- !app_assoc in *.
      replace (length front + 1 + (length junk + 1))%nat with (S (length front + S (length junk))) in Hc by lia.
      replace (length front + 1)%nat with (S (length front)) in Hc, H1, H2 by lia. cbn [app] in *.
      exists sh, sl. replace (length front + S (length (kept bound ps)))%nat with (S (length front) + length (kept bound ps))%nat by lia.
      by split_and!.
Qed.

(** A property at index [i] that keeps the length above it. *)
Definition blocks (t : list (PropertyKey * OwnProperty)) (requested : Z) (i : ArrayIndex) : Prop :=
  requested ≤ get i ∧ ∃ p, (PropertyKey.Index i, p) ∈ t ∧ PropertyLayout.is_configurable (OwnProperty.layout p) = false.

Definition greatest_blocker (t : list (PropertyKey * OwnProperty)) (requested : Z) (o : option ArrayIndex) : Prop :=
  match o with
  | Some i => blocks t requested i ∧ ∀ j, blocks t requested j → get j ≤ get i
  | None => ∀ j, ¬ blocks t requested j
  end.

Lemma max_index_spec l : match max_index l with
  | Some m => m ∈ l ∧ ∀ i, i ∈ l → get i ≤ get m
  | None => l = []
  end.
Proof.
  unfold max_index. induction l as [|i l IH] using rev_ind; [done|]. rewrite foldl_app. simpl.
  destruct (foldl _ None l) as [m|].
  - destruct IH as [Hm Hle]. destruct (Z.leb_spec (get m) (get i)).
    + split; [apply elem_of_app; right; by apply list_elem_of_singleton|]. intros j [Hj|Hj%list_elem_of_singleton]%elem_of_app; [|by subst].
      specialize (Hle j Hj). lia.
    + split; [apply elem_of_app; by left|]. intros j [Hj|Hj%list_elem_of_singleton]%elem_of_app; [by apply Hle|subst; lia].
  - subst l. split; [by apply list_elem_of_singleton|]. intros j Hj%list_elem_of_singleton. by subst.
Qed.

Lemma table_pairs r : table r = (λ e, entry_of e.1 e.2) <$> zip (shape r) (slots r).
Proof. unfold table. generalize (slots r). induction (shape r) as [|p l IH]; intros [|s ss]; simpl; try done. by rewrite IH. Qed.

Lemma blockers_exact r n : length (shape r) = length (slots r) →
  greatest_blocker (table r) n (max_index (omap (ObjectRecord.blocking_index n) (shape r))).
Proof.
  intros Hlen. assert (∀ i, i ∈ omap (ObjectRecord.blocking_index n) (shape r) ↔ blocks (table r) n i) as Hiff.
  { intros i. rewrite list_elem_of_omap. unfold blocks. split.
    - intros (p & Hp & Hb). unfold ObjectRecord.blocking_index in Hb. destruct (shape_key p) as [j|] eqn:Ek; simplify_eq/=.
      destruct (_ && _) eqn:Eb; simplify_eq. apply andb_true_iff in Eb as [Hle%Z.leb_le Hc%negb_true_iff]. split; [done|].
      apply list_elem_of_lookup in Hp as [m Hm]. destruct (lookup_lt_is_Some_2 (slots r) m) as [s Hs].
      { rewrite <- Hlen. by eapply lookup_lt_Some. }
      exists (own_of (shape_layout p) s). split; [|by destruct s]. apply list_elem_of_lookup. exists m. unfold table.
      rewrite lookup_zip_with, Hm, Hs. unfold entry_of. simpl. by rewrite Ek.
    - intros (Hle & p & Hp & Hc). apply list_elem_of_lookup in Hp as [m Hm]. unfold table in Hm. rewrite lookup_zip_with in Hm.
      destruct (shape r !! m) as [q|] eqn:Eq; [|done]. destruct (slots r !! m) as [s|] eqn:Es; [|done]. simplify_eq/=.
      exists q. split; [by eapply list_elem_of_lookup_2|]. unfold ObjectRecord.blocking_index, entry_of in *.
      match goal with H : (_, _) = (_, _) |- _ => injection H as Hk Ho end. rewrite Hk. simpl. subst p.
      assert (OwnProperty.layout (own_of (shape_layout q) s) = shape_layout q) as El by (by destruct s). rewrite El in Hc.
      rewrite Hc. by rewrite (proj2 (Z.leb_le n (get i))). }
  pose proof (max_index_spec (omap (ObjectRecord.blocking_index n) (shape r))) as Hm. unfold greatest_blocker. destruct (max_index _) as [m|].
  - destruct Hm as [Hm Hle]. split; [by apply Hiff|]. intros j Hj. apply Hle. by apply Hiff.
  - intros j Hj%Hiff. rewrite Hm in Hj. by apply elem_of_nil in Hj.
Qed.

(** Where a truncation to [requested] stops. *)
Definition final_of (requested : Z) (blocked : option ArrayIndex) : Z :=
  match blocked with Some i => get i + 1 | None => requested end.

Definition indices_ok (t : list (PropertyKey * OwnProperty)) : Prop :=
  ∀ i p, (PropertyKey.Index i, p) ∈ t → 0 ≤ get i ≤ MAX_ARRAY_INDEX.

Lemma ok_length r : record_ok r → length (shape r) = length (slots r).
Proof. intros [Hs _]. by eapply Forall2_length. Qed.

Lemma truncate_exact r n : record_ok r → indices_ok (table r) →
  ∃ r' t, ObjectRecord.truncate_array_indices r n = Ok (r', t) ∧ record_ok r'
    ∧ greatest_blocker (table r) n (blocked_index t) ∧ final_length t = final_of n (blocked_index t)
    ∧ table r' = filter (λ e, Properties.at_least (final_length t) e.1 = false) (table r)
    ∧ removed t = len (table r) - len (table r')
    ∧ prototype r' = prototype r ∧ extensible r' = extensible r.
Proof.
  intros Hok Hi. pose proof (ok_length r Hok) as Hlen. unfold ObjectRecord.truncate_array_indices.
  pose proof (blockers_exact r n Hlen) as Hb. set (b := max_index _) in *.
  assert (match b with Some index => Z.min (get index + 1) u32_max | None => n end = final_of n b) as ->.
  { destruct b as [i|]; [|done]. destruct Hb as [(_ & p & Hp & _) _]. apply Hi in Hp. unfold MAX_ARRAY_INDEX in Hp. simpl. lia. }
  set (F := final_of n b). set (ps := zip (shape r) (slots r)).
  assert (ps.*1 = shape r ∧ ps.*2 = slots r) as [E1 E2] by (split; [apply fst_zip|apply snd_zip]; lia).
  assert (length ps = length (shape r)) as El by (unfold ps; rewrite length_zip; lia).
  destruct (compact_run F ps [] []) as (sh & sl & Hc & H1 & H2). cbn [length fmap list_fmap app Nat.add] in Hc, H1, H2.
  rewrite E1, E2, El in Hc. rewrite Hc. cbn [mbind result_bind].
  assert (table (ObjectRecord.with_storage r (kept F ps).*1 (kept F ps).*2)
    = filter (λ e, Properties.at_least F e.1 = false) (table r)) as Ht.
  { rewrite !table_pairs. simpl. fold ps. rewrite zip_fst_snd. clear. induction ps as [|[p s] ps IH]; [done|].
    rewrite fmap_cons, !filter_cons. cbn [fst snd entry_of]. unfold removes at 1. destruct (decide _); [rewrite fmap_cons; f_equal|]; exact IH. }
  eexists _, _. split; [reflexivity|]. rewrite H1, H2. cbn [blocked_index final_length removed]. split_and!; try done.
  - destruct Hok as [Hs Hk]. split; simpl.
    + rewrite <- E1, <- E2 in Hs. clear -Hs. induction ps as [|[p s] ps IH]; simpl in *; [constructor|]. inversion Hs; subst.
      rewrite filter_cons. case_decide; simpl; [constructor|]; auto.
    + rewrite <- E1 in Hk. clear -Hk. unfold distinct_keys in *. induction ps as [|[p s] ps IH]; simpl in *; [constructor|].
      inversion Hk as [|? ? Hf Ho]; subst. rewrite filter_cons. case_decide; simpl; [constructor|]; auto.
      apply Forall_fmap, Forall_forall. intros e [_ He]%list_elem_of_filter. rewrite Forall_fmap, Forall_forall in Hf. by apply Hf.
  - rewrite Ht, <- Ht. unfold len. rewrite table_pairs, length_fmap. fold ps. rewrite El. rewrite table_pairs. simpl. rewrite zip_fst_snd, length_fmap.
    pose proof (length_filter (λ e : ShapeProperty * PropertySlot, removes F e.1 = false) ps). lia.
Qed.

(** *** The deletion loop of ArraySetLength *)

Lemma filter_all {A} (P : A → Prop) `{∀ x, Decision (P x)} (l : list A) : (∀ x, x ∈ l → P x) → filter P l = l.
Proof.
  induction l as [|x l IH]; intros Hl; [done|]. rewrite filter_cons, decide_True by (apply Hl, elem_of_cons; by left).
  f_equal. apply IH. intros y Hy. apply Hl, elem_of_cons. by right.
Qed.

Lemma filter_ext {A} (P Q : A → Prop) `{∀ x, Decision (P x)} `{∀ x, Decision (Q x)} (l : list A) :
  (∀ x, x ∈ l → P x ↔ Q x) → filter P l = filter Q l.
Proof.
  induction l as [|x l IH]; intros Hl; [done|]. rewrite !filter_cons.
  assert (filter P l = filter Q l) as -> by (apply IH; intros y Hy; apply Hl, elem_of_cons; by right).
  assert (P x ↔ Q x) as Hx by (apply Hl, elem_of_cons; by left). repeat case_decide; tauto.
Qed.

(** The loop over the indices, the greatest first: it stops at the first that
    cannot be deleted. *)
Fixpoint deletion_loop (xs : list ArrayIndex) (t : list (PropertyKey * OwnProperty)) :
    list (PropertyKey * OwnProperty) * option ArrayIndex :=
  match xs with
  | [] => (t, None)
  | i :: xs =>
      match Properties.lookup t (PropertyKey.Index i) with
      | None => deletion_loop xs t
      | Some p =>
          if PropertyLayout.is_configurable (OwnProperty.layout p)
          then deletion_loop xs (Properties.delete t (PropertyKey.Index i)) else (t, Some i)
      end
  end.

(** The indices of [t] from [n] on, in descending order. *)
Definition descending (t : list (PropertyKey * OwnProperty)) (n : Z) (xs : list ArrayIndex) : Prop :=
  StronglySorted (λ a b, get b < get a) xs ∧ Forall (λ i, n ≤ get i) xs
  ∧ ∀ i p, (PropertyKey.Index i, p) ∈ t → n ≤ get i → i ∈ xs.

Definition index_functional (t : list (PropertyKey * OwnProperty)) : Prop :=
  ∀ i p q, (PropertyKey.Index i, p) ∈ t → (PropertyKey.Index i, q) ∈ t → p = q.

Lemma lookup_elem t k p : Properties.lookup t k = Some p → ∃ k', (k', p) ∈ t ∧ PropertyKey.eq k' k = true.
Proof.
  induction t as [|[k0 q] t IH]; simpl; [done|]. destruct (PropertyKey.eq k0 k) eqn:E.
  - intros [= <-]. exists k0. split; [apply elem_of_cons; by left|done].
  - intros (k' & Hk' & ?)%IH. exists k'. split; [apply elem_of_cons; by right|done].
Qed.

Lemma lookup_index_elem t i p : index_functional t →
  Properties.lookup t (PropertyKey.Index i) = Some p ↔ (PropertyKey.Index i, p) ∈ t.
Proof.
  intros Hf. split.
  - intros (k & Hk & E)%lookup_elem. rewrite key_sym in E. apply key_index in E as ->. done.
  - intros Hp. destruct (Properties.lookup t (PropertyKey.Index i)) as [q|] eqn:E.
    + apply lookup_elem in E as (k & Hk & E). rewrite key_sym in E. apply key_index in E as ->. f_equal. by eapply Hf.
    + apply Properties.lookup_none in E. rewrite Forall_forall in E. specialize (E _ Hp). simpl in E. by rewrite Z.eqb_refl in E.
Qed.

Lemma elem_of_delete t k e : e ∈ Properties.delete t k ↔ PropertyKey.eq e.1 k = false ∧ e ∈ t.
Proof. unfold Properties.delete. by rewrite list_elem_of_filter. Qed.

Lemma deletion_loop_exact n xs : ∀ t B, descending t n xs → index_functional t → greatest_blocker t n B →
  deletion_loop xs t = (filter (λ e, Properties.at_least (final_of n B) e.1 = false) t, B).
Proof.
  induction xs as [|i xs IH]; intros t B (Hs & Hn & Hc) Hf HB; cbn [deletion_loop].
  - assert (B = None) as ->.
    { destruct B as [j|]; [|done]. destruct HB as [(Hle & p & Hp & _) _]. by apply Hc, elem_of_nil in Hp. }
    f_equal. symmetry. apply filter_all. intros [k p] He. simpl. destruct k as [j|]; [|done]. simpl.
    apply Z.leb_gt. destruct (decide (n ≤ get j)) as [Hle|]; [|lia]. by apply (Hc j p He), elem_of_nil in Hle.
  - inversion Hs as [|? ? Hs' Hlt]; subst. apply Forall_cons in Hn as [Hni Hn].
    assert (∀ j p, (PropertyKey.Index j, p) ∈ t → n ≤ get j → j = i ∨ get j < get i) as Hmax.
    { intros j p Hj Hle. apply (Hc _ _ Hj), elem_of_cons in Hle as [->|Hin]; [by left|]. right. rewrite Forall_forall in Hlt. by apply Hlt. }
    destruct (Properties.lookup t (PropertyKey.Index i)) as [p|] eqn:Ep.
    + apply lookup_index_elem in Ep; [|done]. destruct (PropertyLayout.is_configurable (OwnProperty.layout p)) eqn:Econf.
      * assert (∀ j, blocks (Properties.delete t (PropertyKey.Index i)) n j ↔ blocks t n j) as Hbl.
        { intros j. unfold blocks. split; intros (Hle & q & Hq & Hcq); split; try done; exists q; split; try done.
          - by apply elem_of_delete in Hq as [_ Hq].
          - apply elem_of_delete. split; [|done]. simpl. apply Z.eqb_neq. intros E. assert (j = i) as -> by (destruct i, j; simpl in *; congruence).
            assert (p = q) as -> by (by eapply Hf). congruence. }
        rewrite (IH _ B).
        -- f_equal. unfold Properties.delete. rewrite list_filter_filter. apply filter_ext. intros [k q] He. simpl.
           split; [naive_solver|]. intros Ha. split; [done|]. destruct k as [j|]; [|done]. simpl in *. apply Z.eqb_neq. intros E.
           apply Z.leb_gt in Ha. destruct B as [b|]; simpl in Ha; [|lia]. destruct HB as [(Hle & q' & Hq' & Hcq') _].
           destruct (Hmax b q' Hq' Hle) as [->|]; [|lia]. assert (p = q') as -> by (by eapply Hf). congruence.
        -- split_and!; [done|done|]. intros j q [Ek Hq]%elem_of_delete Hle. apply (Hc _ _ Hq), elem_of_cons in Hle as [->|]; [|done].
           simpl in Ek. by rewrite Z.eqb_refl in Ek.
        -- intros j q q' [_ Hq]%elem_of_delete [_ Hq']%elem_of_delete. by eapply Hf.
        -- destruct B as [b|]; simpl in *; [|intros j Hj%Hbl; by apply (HB j)]. destruct HB as [Hb Hle].
           split; [by apply Hbl|]. intros j Hj%Hbl. by apply Hle.
      * assert (blocks t n i) as Hbi by (split; [done|eauto]).
        assert (B = Some i) as ->.
        { destruct B as [b|]; [|by destruct (HB i)]. destruct HB as [(Hle & q & Hq & _) Hge]. specialize (Hge i Hbi).
          destruct (Hmax b q Hq Hle) as [->|]; [done|lia]. }
        f_equal. symmetry. apply filter_all. intros [k q] He. simpl. destruct k as [j|]; [|done]. simpl. apply Z.leb_gt.
        destruct (decide (n ≤ get j)) as [Hle|]; [|lia]. destruct (Hmax j q He Hle) as [->|]; lia.
    + apply IH; [|done|done]. split_and!; [done|done|]. intros j q Hq Hle. apply (Hc _ _ Hq) in Hle as Hin.
      apply elem_of_cons in Hin as [->|]; [|done]. apply lookup_index_elem in Hq; [congruence|done].
Qed.

(** ** The properties of a record *)

Lemma elem_of_table r k p : (k, p) ∈ table r ↔ ∃ m q s, shape r !! m = Some q ∧ slots r !! m = Some s ∧ k = shape_key q ∧ p = own_of (shape_layout q) s.
Proof.
  rewrite list_elem_of_lookup. unfold table. setoid_rewrite lookup_zip_with. split.
  - intros [m Hm]. destruct (shape r !! m) as [q|] eqn:Eq; [|done]. destruct (slots r !! m) as [s|] eqn:Es; [|done].
    exists m, q, s. by injection Hm as <- <-.
  - intros (m & q & s & Hq & Hs & -> & ->). exists m. by rewrite Hq, Hs.
Qed.

Lemma distinct_lookup l i j p q : distinct_keys l → l !! i = Some p → l !! j = Some q →
  PropertyKey.eq (shape_key p) (shape_key q) = true → i = j.
Proof.
  intros Hd. revert i j. induction Hd as [|x l Hx _ IH]; intros [|i] [|j] Hi Hj E; simplify_eq/=; try done.
  - rewrite Forall_forall in Hx. apply list_elem_of_lookup_2, Hx in Hj. congruence.
  - rewrite Forall_forall in Hx. apply list_elem_of_lookup_2, Hx in Hi. rewrite key_sym in Hi. congruence.
  - f_equal. by apply IH.
Qed.

Lemma record_functional r : record_ok r → index_functional (table r).
Proof.
  intros [_ Hk] i p q. rewrite !elem_of_table. intros (m & x & s & Hx & Hs & Ex & ->) (m' & x' & s' & Hx' & Hs' & Ex' & ->).
  assert (m = m') as <-; [|by simplify_eq]. eapply distinct_lookup; [done..|]. rewrite <- Ex, <- Ex'. apply key_refl.
Qed.

(** C29. The two vectors of a well-formed record are an ordered map from keys to
    properties: reading, appending, replacing a property or the value of a data
    property, and deleting a configurable property do to it what they say and
    nothing else, keep the vectors aligned and the creation order of the rest,
    and never panic; only appending can fail, when the host refuses memory. *)
Theorem object_record_exact `{Allocator} r k : record_ok r →
  ObjectRecord.own_property r k = Ok (Properties.lookup (table r) k)
  ∧ (∀ p, property_ok p → ∃ r', ObjectRecord.replace_existing_property r k p = Ok (r', Properties.lookup (table r) k)
       ∧ record_ok r' ∧ table r' = Properties.replace (table r) k p)
  ∧ (∀ v, value_ok v → ∃ r' b, ObjectRecord.replace_existing_data r k v = Ok (r', b) ∧ record_ok r'
       ∧ match Properties.lookup (table r) k ≫= λ p, set_value p v with
         | Some q => b = true ∧ table r' = Properties.replace (table r) k q
         | None => b = false ∧ r' = r
         end)
  ∧ (∃ r' d, ObjectRecord.delete_own_property r k = Ok (r', d) ∧ record_ok r'
       ∧ match Properties.lookup (table r) k with
         | None => d = Missing ∧ r' = r
         | Some p => if PropertyLayout.is_configurable (OwnProperty.layout p)
                     then d = Deleted ∧ table r' = Properties.delete (table r) k
                     else d = NotConfigurable ∧ r' = r
         end)
  ∧ (∀ layout slot, property_ok (own_of layout slot) → Properties.lookup (table r) k = None →
       match ObjectRecord.append r k layout slot with
       | Ok r' => record_ok r' ∧ table r' = table r ++ [(k, own_of layout slot)]
       | Err _ => refuses
       end).
Proof.
  intros Hok. split_and!.
  - by apply own_property_exact.
  - intros p Hp. destruct (replace_exact r k p Hok Hp) as (r' & ? & ? & ? & _). eauto.
  - intros v Hv. destruct (replace_data_exact r k v Hok Hv) as (r' & b & ? & ? & _ & _ & ?). eauto.
  - destruct (delete_property_exact r k Hok) as (r' & d & ? & ? & _ & _ & ?). eauto.
  - intros layout slot Hp Hn. pose proof (append_exact r k layout slot Hok Hp Hn) as Ha.
    destruct (ObjectRecord.append r k layout slot); [|done]. destruct Ha as (? & ? & _). by split.
Qed.

(** Truncating the indices of a record by stable compaction is the deletion
    loop of ArraySetLength, which removes the indices from the requested length
    on from the greatest down and stops at the first that is not configurable:
    the same properties stay in the same order, the same index blocks, the new
    length is one past it, and the count of removed properties is right. *)
Theorem truncation_exact r n xs : record_ok r → indices_ok (table r) → descending (table r) n xs →
  ∃ r' t, ObjectRecord.truncate_array_indices r n = Ok (r', t) ∧ record_ok r'
    ∧ (table r', blocked_index t) = deletion_loop xs (table r)
    ∧ final_length t = final_of n (blocked_index t) ∧ removed t = len (table r) - len (table r').
Proof.
  intros Hok Hi Hd. destruct (truncate_exact r n Hok Hi) as (r' & t & Ht & Hok' & Hb & Hf & Htab & Hr & _).
  exists r', t. split_and!; try done. rewrite (deletion_loop_exact n xs (table r) (blocked_index t) Hd (record_functional r Hok) Hb).
  by rewrite Htab, Hf.
Qed.

(** ** Own keys *)

Definition index_of (c : ForInCandidate) : Z := default 0 (get <$> PropertyKey.as_index (candidate_key c)).

#[export] Instance candidate_le_total : Total candidate_le.
Proof. intros a b. unfold candidate_le. apply Z.le_ge_cases. Qed.
#[export] Instance candidate_le_trans : Transitive candidate_le.
Proof. intros a b c ??. unfold candidate_le in *. lia. Qed.

(** Sorted without repetition is ascending. *)
Lemma sorted_ascending l : StronglySorted candidate_le l → NoDup (index_of <$> l) → StronglySorted (λ a b, index_of a < index_of b) l.
Proof.
  induction 1 as [|c l Hs IH Hf]; intros Hn; [constructor|]. rewrite fmap_cons in Hn. apply NoDup_cons in Hn as [Hni Hn].
  constructor; [by apply IH|]. rewrite Forall_forall in Hf |- *. intros d Hd. specialize (Hf d Hd). change (index_of c ≤ index_of d) in Hf.
  assert (index_of c ≠ index_of d) as Hne; [|cbv beta; lia]. intros E. apply Hni. rewrite E. apply list_elem_of_fmap. eauto.
Qed.

Lemma virtual_run n : ∀ base, 0 ≤ base → base + Z.of_nat n ≤ MAX_ARRAY_INDEX + 1 →
  OwnKeys.virtual_candidates n base = Ok ((λ i, OwnKeys.index_candidate (mkArrayIndex i)) <$> seqZ base (Z.of_nat n)).
Proof.
  induction n as [|n IH]; intros base H0 Hb; [done|]. cbn [OwnKeys.virtual_candidates]. unfold ArrayIndex.new.
  destruct (Z.leb_spec base MAX_ARRAY_INDEX); [|lia]. cbn [expect ok_or mbind result_bind]. rewrite IH by lia. cbn [mbind result_bind].
  rewrite (seqZ_cons base) by lia. rewrite fmap_cons. by replace (Z.pred (Z.of_nat (S n))) with (Z.of_nat n) by lia.
Qed.

Lemma present_bound l : 0 ≤ present_elements l ≤ len l.
Proof.
  unfold present_elements, len. induction l as [|[v|] l IH]; [done| |].
  - change (omap id (Some v :: l)) with (v :: omap id l). cbn [length]. lia.
  - change (omap id (None :: l)) with (omap id l). cbn [length]. lia.
Qed.

(** The indices of the present elements from position [base] on. *)
Lemma dense_indices_spec elements : ∀ base, Z.of_nat base + len elements ≤ MAX_ARRAY_INDEX + 1 →
  let l := omap (λ p : nat * option StoredValue, match snd p with Some _ => try_u32 (Z.of_nat (fst p)) ≫= ArrayIndex.new | None => None end)
    (enumerate_from base elements) in
  StronglySorted (λ a b, get a < get b) l ∧ len l = present_elements elements
  ∧ ∀ i, i ∈ l ↔ ∃ j v, get i = Z.of_nat (base + j) ∧ elements !! j = Some (Some v).
Proof.
  induction elements as [|e elements IH]; intros base Hb; cbn [enumerate_from omap list_omap fst snd].
  { split_and!; [constructor|done|]. intros i. rewrite elem_of_nil. split; [done|]. intros (j & v & _ & Hj). by rewrite lookup_nil in Hj. }
  assert (Z.of_nat (S base) + len elements ≤ MAX_ARRAY_INDEX + 1) as Hb' by (unfold len in *; simpl in Hb; lia).
  destruct (IH (S base) Hb') as (Hs & Hl & Hi). set (l := omap _ _) in *.
  assert (∀ i, i ∈ l → Z.of_nat base < get i) as Hgt by (intros i (j & v & -> & _)%Hi; lia).
  destruct e as [v|]; cbn [option_bind mbind].
  - assert (try_u32 (Z.of_nat base) ≫= ArrayIndex.new = Some (mkArrayIndex (Z.of_nat base))) as ->.
    { pose proof (len_nonneg elements). unfold MAX_ARRAY_INDEX in *. unfold try_u32, ArrayIndex.new, MAX_ARRAY_INDEX, len in *. simpl in Hb.
      destruct (Z.leb_spec 0 (Z.of_nat base)), (Z.leb_spec (Z.of_nat base) u32_max); simpl; try lia.
      by destruct (Z.leb_spec (Z.of_nat base) (u32_max - 1)); [|lia]. }
    split_and!.
    + constructor; [done|]. apply Forall_forall. intros i Hin. simpl. by apply Hgt.
    + unfold present_elements, len in *. simpl. rewrite !Nat2Z.inj_succ. by rewrite Hl.
    + intros i. rewrite elem_of_cons. split.
      * intros [->|(j & w & E & Hj)%Hi]; [exists O, v; rewrite Nat.add_0_r; done|]. exists (S j), w. split; [lia|done].
      * intros ([|j] & w & E & Hj); simpl in Hj; [left; destruct i; simpl in *; f_equal; lia|]. right. apply Hi. exists j, w. split; [lia|done].
  - split_and!; [done|done|]. intros i. rewrite Hi. split.
    + intros (j & w & E & Hj). exists (S j), w. split; [lia|done].
    + intros ([|j] & w & E & Hj); simpl in Hj; [done|]. exists j, w. split; [lia|done].
Qed.

(** Boxed strings have virtual indices, arrays dense ones; no index is stored twice. *)
Definition storage_apart (r : ObjectRecord) (string_length : option Z) (array : option ArrayState) : Prop :=
  0 ≤ default 0 string_length ≤ MAX_ARRAY_INDEX + 1
  ∧ match array with
    | None => True
    | Some st => string_length = None ∧ len (ArrayState.dense_elements st) ≤ MAX_ARRAY_INDEX + 1
        ∧ ArrayState.dense_property_count st = present_elements (ArrayState.dense_elements st)
        ∧ (ArrayState.dense_elements st = [] ∨ ObjectRecord.has_indexed_property r = false)
    end.

(** The own indices of the object, with their enumerability. *)
Definition own_index (r : ObjectRecord) (string_length : option Z) (array : option ArrayState) (i : ArrayIndex) (e : bool) : Prop :=
  e = true ∧ 0 ≤ get i < default 0 string_length
  ∨ e = true ∧ 0 ≤ get i ∧ (∃ st v, array = Some st ∧ ArrayState.dense_value st i = Some v)
  ∨ default 0 string_length ≤ get i ∧ ∃ q, q ∈ shape r ∧ shape_key q = PropertyKey.Index i ∧ e = PropertyLayout.is_enumerable (shape_layout q).

Section own_keys.
Context (r : ObjectRecord) (string_length : option Z) (array : option ArrayState).
Context (Hok : record_ok r) (Happart : storage_apart r string_length array).
Notation n := (default 0 string_length).
Notation virtuals := ((λ i, OwnKeys.index_candidate (mkArrayIndex i)) <$> seqZ 0 n).
Notation denses := (OwnKeys.index_candidate <$> default [] (ArrayState.dense_indices <$> array)).
Notation owns := (OwnKeys.own_indices r n).

Lemma dense_spec : StronglySorted (λ a b, get a < get b) (default [] (ArrayState.dense_indices <$> array))
  ∧ (∀ i, i ∈ default [] (ArrayState.dense_indices <$> array) ↔
       0 ≤ get i ∧ ∃ st v, array = Some st ∧ ArrayState.dense_value st i = Some v)
  ∧ len (default [] (ArrayState.dense_indices <$> array)) = default 0 (ArrayState.dense_property_count <$> array).
Proof.
  destruct Happart as [_ Ha]. destruct array as [st|]; simpl.
  - destruct Ha as (_ & Hl & Hc & _). destruct (dense_indices_spec (ArrayState.dense_elements st) 0) as (Hs & Hlen & Hi); [done|].
    split_and!; [done| |by rewrite Hc]. intros i. unfold ArrayState.dense_indices. rewrite Hi. unfold ArrayState.dense_value. split.
    + intros (j & v & E & Hj). simpl in E. split; [lia|]. exists st, v. split; [done|]. by rewrite E, Nat2Z.id, Hj.
    + intros (H0 & st' & v & [= <-] & Hj). destruct (ArrayState.dense_elements st !! Z.to_nat (get i)) as [[w|]|] eqn:E; simplify_eq/=.
      exists (Z.to_nat (get i)), v. split; [lia|done].
  - split_and!; [constructor| |done]. intros i. rewrite elem_of_nil. naive_solver.
Qed.

Lemma elem_of_owns c : c ∈ owns ↔ ∃ q i, q ∈ shape r ∧ shape_key q = PropertyKey.Index i ∧ n ≤ get i ∧ c = candidate_of q.
Proof.
  unfold OwnKeys.own_indices. rewrite list_elem_of_fmap. split.
  - intros (q & -> & Hq). apply list_elem_of_filter in Hq as [Hk Hq]. destruct (shape_key q) as [i|] eqn:Ek; [|done]. apply Z.leb_le in Hk. eauto 10.
  - intros (q & i & Hq & Ek & Hle & ->). exists q. split; [done|]. apply list_elem_of_filter. rewrite Ek. split; [by apply Z.leb_le|done].
Qed.

Lemma owns_NoDup : NoDup (index_of <$> owns).
Proof.
  destruct Hok as [_ Hk]. unfold OwnKeys.own_indices. induction Hk as [|q l Hq _ IH]; [constructor|]. rewrite filter_cons. case_decide as Hd; [|done].
  rewrite !fmap_cons. apply NoDup_cons. split; [|done]. intros (c & Ec & (q' & -> & Hq')%list_elem_of_fmap)%list_elem_of_fmap.
  apply list_elem_of_filter in Hq' as [Hd' Hq']. rewrite Forall_forall in Hq. specialize (Hq q' Hq').
  unfold index_of, candidate_of in Ec. simpl in Ec. destruct (shape_key q) as [i|], (shape_key q') as [i'|]; simpl in *; try done.
  rewrite Ec, Z.eqb_refl in Hq. done.
Qed.

Lemma all_NoDup : NoDup (index_of <$> virtuals ++ denses ++ owns).
Proof.
  destruct dense_spec as (Hs & Hd & _). destruct Happart as [Hn Ha]. rewrite !fmap_app. apply NoDup_app. split_and!.
  - rewrite <- list_fmap_compose. apply NoDup_fmap_2_strong; [|apply NoDup_seqZ]. intros x y _ _ E. exact E.
  - intros x (c & -> & (i & -> & Hi%elem_of_seqZ)%list_elem_of_fmap)%list_elem_of_fmap [Hx|Hx]%elem_of_app.
    + apply list_elem_of_fmap in Hx as (c & Ec & (j & -> & Hj)%list_elem_of_fmap). apply Hd in Hj as (_ & st & v & -> & _).
      destruct Ha as (-> & _). simpl in Hi. lia.
    + apply list_elem_of_fmap in Hx as (c & Ec & (q & j & Hq & Ek & Hle & ->)%elem_of_owns). unfold index_of, candidate_of in Ec.
      simpl in Ec. rewrite Ek in Ec. simpl in Ec. lia.
  - apply NoDup_app. split_and!; [| |apply owns_NoDup].
    + rewrite <- list_fmap_compose. clear -Hs. induction Hs as [|i l _ IH Hf]; [constructor|]. rewrite fmap_cons. apply NoDup_cons. split; [|done].
      intros (j & E & Hj)%list_elem_of_fmap. rewrite Forall_forall in Hf. specialize (Hf j Hj). unfold index_of in E. simpl in E. lia.
    + intros x (c & -> & (i & -> & Hi)%list_elem_of_fmap)%list_elem_of_fmap Hx.
      apply list_elem_of_fmap in Hx as (c & Ec & (q & j & Hq & Ek & Hle & ->)%elem_of_owns).
      apply Hd in Hi as (H0 & st & v & -> & Hv). destruct Ha as (_ & _ & _ & [Hnil|Hno]).
      * unfold ArrayState.dense_value in Hv. rewrite Hnil, lookup_nil in Hv. done.
      * unfold ObjectRecord.has_indexed_property in Hno. rewrite <- not_true_iff_false, existsb_exists in Hno. apply Hno.
        exists q. rewrite <- list_elem_of_In, Ek. done.
Qed.

Lemma elem_of_all i e : mkCandidate (PropertyKey.Index i) e ∈ virtuals ++ denses ++ owns ↔ own_index r string_length array i e.
Proof.
  destruct dense_spec as (_ & Hd & _). rewrite !elem_of_app. unfold own_index. split.
  - intros [Hv|[Hv|Hv]].
    + left. apply list_elem_of_fmap in Hv as (j & [= -> ->] & Hj%elem_of_seqZ). simpl. split; [done|lia].
    + right; left. apply list_elem_of_fmap in Hv as (j & [= -> ->] & Hj%Hd). naive_solver.
    + right; right. apply elem_of_owns in Hv as (q & j & Hq & Ek & Hle & E). unfold candidate_of in E. rewrite Ek in E.
      injection E as -> ->. eauto.
  - intros [[-> Hi]|[(-> & H0 & Hd')|(Hle & q & Hq & Ek & ->)]].
    + left. apply list_elem_of_fmap. exists (get i). split; [by destruct i|]. apply elem_of_seqZ. lia.
    + right; left. apply list_elem_of_fmap. exists i. split; [done|]. by apply Hd.
    + right; right. apply elem_of_owns. exists q, i. split_and!; try done. unfold candidate_of. by rewrite Ek.
Qed.
End own_keys.

(** The keys of a phase, in creation order. *)
Definition phase_keys (r : ObjectRecord) (phase : AtomKeyPhase) : list ForInCandidate :=
  candidate_of <$> filter (λ p, OwnKeys.matches_phase phase p = true) (shape r).

Lemma counted_len r phases v : (indices phases = false → v = 0) →
  len (filter (λ p, OwnKeys.counted v phases p = true) (shape r)) =
  (if indices phases then len (OwnKeys.own_indices r v) else 0)
  + (if strings phases then len (phase_keys r StringPhase) else 0) + (if symbols phases then len (phase_keys r SymbolPhase) else 0).
Proof.
  intros _. unfold OwnKeys.own_indices, phase_keys, len. rewrite !length_fmap. induction (shape r) as [|q l IH].
  { simpl. by destruct (indices phases), (strings phases), (symbols phases). }
  rewrite !filter_cons. destruct q as [[j|a] layout]; repeat case_decide; unfold OwnKeys.counted, OwnKeys.matches_phase, OwnKeys.phase_of in *; simpl in *.
  all: try destruct (kind a); destruct (indices phases), (strings phases), (symbols phases); simpl in *; try done; try lia.
Qed.

(** C36. The own keys of an object come in the order of OrdinaryOwnPropertyKeys:
    the own indices in ascending order, each once, those of a boxed string and
    of dense array storage included; then strings and then symbols in creation
    order; private names never.  Each phase can be left out, the reserved
    capacity is exactly the number of keys, and only the host's refusal of that
    memory makes the snapshot fail. *)
Theorem own_keys_exact `{Allocator} r string_length phases array :
  record_ok r → storage_apart r string_length array → len (shape r) ≤ 2 ^ 62 →
  match OwnKeys.try_own_key_snapshot_with_array r string_length phases array with
  | Ok snapshot => ∃ ordered,
      candidates snapshot = ordered ++ (if strings phases then phase_keys r StringPhase else [])
                                    ++ (if symbols phases then phase_keys r SymbolPhase else [])
      ∧ StronglySorted (λ a b, index_of a < index_of b) ordered
      ∧ (∀ c, c ∈ ordered ↔ indices phases = true ∧ ∃ i e, c = mkCandidate (PropertyKey.Index i) e ∧ own_index r string_length array i e)
      ∧ len (candidates snapshot) = OwnKeys.own_key_candidate_count_with_array r string_length phases array
  | Err (Fail _) => refuses
  | Err _ => False
  end.
Proof.
  intros Hok Ha Hl. unfold OwnKeys.try_own_key_snapshot_with_array, reserve. cbv zeta.
  set (capacity := OwnKeys.own_key_candidate_count_with_array r string_length phases array).
  pose proof (dense_spec r string_length array Ha) as (_ & _ & Hdl). pose proof Ha as [Hn _].
  assert (0 ≤ default 0 (ArrayState.dense_property_count <$> array) ≤ MAX_ARRAY_INDEX + 1) as Hdc.
  { destruct array as [st|]; simpl; [|unfold MAX_ARRAY_INDEX, u32_max; lia]. destruct Ha as (_ & _ & Hb & -> & _).
    pose proof (present_bound (ArrayState.dense_elements st)). lia. }
  set (v := OwnKeys.virtual_of string_length phases).
  set (ordered := if indices phases then merge_sort candidate_le
    (((λ i, OwnKeys.index_candidate (mkArrayIndex i)) <$> seqZ 0 (default 0 string_length))
     ++ (OwnKeys.index_candidate <$> default [] (ArrayState.dense_indices <$> array)) ++ OwnKeys.own_indices r (default 0 string_length)) else []).
  assert (∃ work, (if indices phases then
       virtuals ← widen (OwnKeys.virtual_candidates (Z.to_nat v) 0);
       let all := virtuals ++ (OwnKeys.index_candidate <$> default [] (ArrayState.dense_indices <$> array)) ++ OwnKeys.own_indices r v in
       Ok (merge_sort candidate_le all, conservative_sort_work (len all))
     else Ok ([], 0)) = Ok (E := fault TryReserveError) (ordered, work)) as [work Hwork].
  { unfold v, ordered, OwnKeys.virtual_of. destruct (indices phases); [|by eexists]. rewrite virtual_run by lia.
    rewrite Z2Nat.id by lia. by eexists. }
  cbv zeta in Hwork. fold v. rewrite Hwork. destruct (try_reserve "candidates" 0 capacity) eqn:E1; [|by eexists _, _, _].
  cbn [negb reject_if lift map_err mbind result_bind]. exists ordered. cbn [candidates].
  assert ((if symbols phases then OwnKeys.push_atom_keys r (if strings phases then OwnKeys.push_atom_keys r ordered StringPhase else ordered) SymbolPhase
     else (if strings phases then OwnKeys.push_atom_keys r ordered StringPhase else ordered))
    = ordered ++ (if strings phases then phase_keys r StringPhase else []) ++ (if symbols phases then phase_keys r SymbolPhase else [])) as Hc.
  { unfold OwnKeys.push_atom_keys. destruct (strings phases), (symbols phases); rewrite ?app_nil_r, <- ?app_assoc; done. }
  rewrite Hc. split_and!; [done| | |].
  - unfold ordered. destruct (indices phases); [|constructor]. apply sorted_ascending; [apply StronglySorted_merge_sort; apply _|].
    rewrite merge_sort_Permutation. by apply all_NoDup.
  - intros c. unfold ordered. destruct (indices phases); [|rewrite elem_of_nil; naive_solver].
    rewrite merge_sort_Permutation. split.
    + intros Hin. split; [done|]. assert (∃ i e, c = mkCandidate (PropertyKey.Index i) e) as (i & e & ->).
      { apply elem_of_app in Hin as [Hin|[Hin|Hin]%elem_of_app].
        - apply list_elem_of_fmap in Hin as (j & -> & _). by eexists _, _.
        - apply list_elem_of_fmap in Hin as (j & -> & _). by eexists _, _.
        - apply elem_of_owns in Hin as (q & j & _ & Ek & _ & ->). unfold candidate_of. rewrite Ek. by eexists _, _. }
      exists i, e. split; [done|]. by apply elem_of_all in Hin.
    + intros (_ & i & e & -> & Hown). by apply elem_of_all.
  - unfold capacity, OwnKeys.own_key_candidate_count_with_array. fold v. rewrite counted_len by (unfold v, OwnKeys.virtual_of; by destruct (indices phases)).
    rewrite !len_app. assert (len ordered = (if indices phases then v + default 0 (ArrayState.dense_property_count <$> array) + len (OwnKeys.own_indices r v) else 0)) as ->.
    { unfold ordered, v, OwnKeys.virtual_of. destruct (indices phases); [|done].
      unfold len. rewrite merge_sort_Permutation, !length_app, !length_fmap, length_seqZ. unfold len in Hdl. lia. }
    pose proof (counted_len r phases v) as Hcl. unfold saturating_add_u64.
    assert (len (filter (λ p, OwnKeys.counted v phases p = true) (shape r)) ≤ len (shape r)) as Hle.
    { unfold len. pose proof (length_filter (λ p, OwnKeys.counted v phases p = true) (shape r)). lia. }
    rewrite Hcl in Hle by (unfold v, OwnKeys.virtual_of; by destruct (indices phases)).
    pose proof (len_nonneg (OwnKeys.own_indices r v)). pose proof (len_nonneg (phase_keys r StringPhase)). pose proof (len_nonneg (phase_keys r SymbolPhase)).
    unfold v, OwnKeys.virtual_of, MAX_ARRAY_INDEX, u32_max, u64_max in *. change (len []) with 0 in *.
    destruct (indices phases), (strings phases), (symbols phases); change (2 ^ 62) with 4611686018427387904 in *;
      change (len (@nil ForInCandidate)) with 0; lia.
Qed.

(** *** Runs *)

Definition blocked_record : ObjectRecord :=
  mkRecord None true false
    [mkShapeProperty (PropertyKey.Index (mkArrayIndex 7)) (DataLayout true true true);
     mkShapeProperty (PropertyKey.Index (mkArrayIndex 5)) (DataLayout true true false);
     mkShapeProperty (PropertyKey.Index (mkArrayIndex 3)) (DataLayout true true true)]
    [PropertySlot.Data StoredValue.Null; PropertySlot.Data StoredValue.Undefined; PropertySlot.Data StoredValue.Null].

Lemma blocked_record_ok : record_ok blocked_record.
Proof. split; simpl; [by repeat constructor|]. by repeat constructor. Qed.

Example object_record_exact_witness :
  ObjectRecord.own_property blocked_record (PropertyKey.Index (mkArrayIndex 5))
  = Ok (Some (OwnProperty.Data (DataLayout true true false) StoredValue.Undefined)).
Proof. by rewrite (proj1 (object_record_exact (H := always_allocates) blocked_record (PropertyKey.Index (mkArrayIndex 5)) blocked_record_ok)). Defined.

(** Truncating to 2 stops above index 5. *)
Example truncation_exact_witness :
  ∃ r' t, ObjectRecord.truncate_array_indices blocked_record 2 = Ok (r', t) ∧ final_length t = 6
    ∧ shape_key <$> shape r' = [PropertyKey.Index (mkArrayIndex 5); PropertyKey.Index (mkArrayIndex 3)].
Proof.
  destruct (truncation_exact blocked_record 2 [mkArrayIndex 7; mkArrayIndex 5; mkArrayIndex 3] blocked_record_ok) as (r' & t & Ht & _ & Hd & Hf & _).
  - intros i p Hp. cbn in Hp. repeat (apply elem_of_cons in Hp as [[= -> ->]|Hp]; [unfold MAX_ARRAY_INDEX, u32_max; simpl; lia|]). by apply elem_of_nil in Hp.
  - split_and!; [repeat constructor; simpl; lia|repeat constructor; simpl; lia|]. intros i p Hp _. cbn in Hp. 
    repeat (apply elem_of_cons in Hp as [[= -> ->]|Hp]; [rewrite !elem_of_cons; auto|]). by apply elem_of_nil in Hp.
  - exists r', t. split; [exact Ht|]. assert (blocked_index t = Some (mkArrayIndex 5)) as Hb by (by injection Hd).
    split; [by rewrite Hf, Hb|]. vm_compute in Ht. by injection Ht as <- _.
Defined.

(** Indices come out sorted whatever the order of creation. *)
Example own_keys_exact_witness :
  match OwnKeys.try_own_key_snapshot_with_array (H := always_allocates) blocked_record None KeyPhases.ALL None with
  | Ok snapshot => len (candidates snapshot) = 3
      ∧ ∃ ordered, candidates snapshot = ordered ++ [] ∧ StronglySorted (λ a b, index_of a < index_of b) ordered
  | Err _ => False
  end.
Proof.
  pose proof (own_keys_exact (H := always_allocates) blocked_record None KeyPhases.ALL None blocked_record_ok) as Hk.
  destruct (OwnKeys.try_own_key_snapshot_with_array _ _ _ _) as [snapshot|e] eqn:E; [|by vm_compute in E].
  destruct Hk as (ordered & Hc & Hs & _ & Hl).
  - split; [unfold MAX_ARRAY_INDEX, u32_max; simpl; lia|done].
  - done.
  - split; [exact Hl|]. exists ordered. split; [exact Hc|exact Hs].
Defined.
