(* ===== verification/Arrays.v ===== *)
(** * Arrays

    Models the array part of [crates/fusor-runtime/src]: the operations of
    [HeapObject] on an array's two storages ([object.rs]), definition, deletion
    and length changes ([runtime/arrays.rs], [runtime/heap.rs]).  The state is
    one array object and the runtime's counters; finding the object in its
    arena, which can only report a stale identity, is left out.  [debug_assert!]
    checks nothing. *)

From S2P Require Import Prelude RuntimePrelude JsStrings ArrayIndex Arena BigInt Values ValueFacts Descriptors Objects.
From stdpp Require Import list.
Local Open Scope Z_scope.

Import NumberRepr(NumberRepr) StoredValue(StoredValue) PropertyKey(PropertyKey) OwnProperty(OwnProperty).
Import PropertySlot(PropertySlot) ArrayStorage(ArrayStorage).

(** ** State *)

Record ArrayHeap : Set := mkHeap {
  record : ObjectRecord;
  array : ArrayState;
  object_properties : Z;
  max_object_properties : Z;
  collection_pending : bool;
  (** The live entries of the function arena. *)
  functions : list FunctionId;
  (** The atom behind [predefined_property_key(PredefinedAtom::Length)]. *)
  length_atom : Atom
}.

Inductive ArrayFailure : Set :=
| RuntimeInvariant (message : string)
| StaleFunction (function : FunctionId)
| LimitExceeded (limit observed : Z)
| AllocationFailed (additional : Z).

Notation array_step := (stateful ArrayHeap (fault ArrayFailure)).

Definition heap : array_step ArrayHeap := λ h, (h, Ok h).
Definition put_record (r : ObjectRecord) : array_step unit := λ h,
  (mkHeap r (array h) (object_properties h) (max_object_properties h) (collection_pending h) (functions h) (length_atom h), Ok tt).
Definition put_array (a : ArrayState) : array_step unit := λ h,
  (mkHeap (record h) a (object_properties h) (max_object_properties h) (collection_pending h) (functions h) (length_atom h), Ok tt).
Definition put_properties (n : Z) : array_step unit := λ h,
  (mkHeap (record h) (array h) n (max_object_properties h) (collection_pending h) (functions h) (length_atom h), Ok tt).
Definition set_pending : array_step unit := λ h,
  (mkHeap (record h) (array h) (object_properties h) (max_object_properties h) true (functions h) (length_atom h), Ok tt).

(** A call that can only panic; a call that the host can refuse memory. *)
Definition pure {A} (m : panics A) : array_step A := embed (widen m).
Definition allocating {A} (m : outcome TryReserveError A) : array_step A :=
  embed (map_err (λ e, match e with Fail _ => Fail (AllocationFailed 1) | Panic => Panic | OutOfFuel => OutOfFuel end) m).

Definition length_key (h : ArrayHeap) : PropertyKey := PropertyKey.Atom (length_atom h).

Definition check_limit : array_step unit :=
  h ← heap;
  let observed := saturating_add_u64 (object_properties h) 1 in
  if observed <=? max_object_properties h then mret tt else throw (Fail (LimitExceeded (max_object_properties h) observed)).

(** ** The two storages *)

Definition array_own_property (h : ArrayHeap) (key : PropertyKey) : panics (option OwnProperty) :=
  match PropertyKey.as_index key ≫= ArrayState.dense_value (array h) with
  | Some value => Ok (Some (OwnProperty.Data (PropertyLayout.data true true true) value))
  | None => ObjectRecord.own_property (record h) key
  end.

Section with_allocator.
Context `{Allocator}.

Definition transition_array_to_sparse : array_step bool :=
  h ← heap;
  if ArrayState.is_dense (array h) then
    allocating (lift (ObjectRecord.try_reserve_data (record h) (ArrayState.dense_property_count (array h)))) ;;
    let '(state, elements) := ArrayState.take_dense_elements (array h) in
    elements ← pure (expect elements);
    put_array state ;;
    r ← pure (ObjectRecord.append_dense_storage_as_sparse (record h) elements);
    put_record r ;;
    mret true
  else mret false.

Definition try_restore_dense_and_store (index : ArrayIndex) (value : StoredValue) : array_step bool :=
  h ← heap;
  let needs_restore := negb (ArrayState.can_store_dense (array h) index) in
  '(state, restored) ←
    (if needs_restore then allocating (lift (ArrayState.try_restore_dense (array h) index)) else mret (array h, true));
  put_array state ;;
  if negb restored then mret false else
  '(state, created) ← allocating (ArrayState.try_store_dense state index value);
  put_array state ;; mret created.

(** ** Definition *)

Definition default_dense_data_value (property : OwnProperty) : option StoredValue :=
  match property with
  | OwnProperty.Data layout value => if bool_decide (layout = PropertyLayout.data true true true) then Some value else None
  | OwnProperty.Accessor _ _ _ => None
  end.

Inductive ArrayPropertyLocation : Set := AbsentLocation | DenseLocation | SparseLocation.

Record ArrayDefinitionFacts : Set := mkFacts {
  facts_length : Z;
  existing : ArrayPropertyLocation;
  facts_extensible : bool;
  length_writable : bool
}.

(** [layout().writable() == Some(true)] *)
Definition writable_layout (p : OwnProperty) : bool := default false (PropertyLayout.writable (OwnProperty.layout p)).

Definition array_definition_facts (key : PropertyKey) : array_step ArrayDefinitionFacts :=
  h ← heap;
  length_property ← pure (ObjectRecord.own_property (record h) (length_key h));
  length_property ← or_throw length_property (Fail (RuntimeInvariant "array object has no own length property"));
  let dense_exists := is_some (PropertyKey.as_index key ≫= ArrayState.dense_value (array h)) in
  own ← pure (array_own_property h key);
  mret (mkFacts (array_length (array h))
          (if dense_exists then DenseLocation else if is_some own then SparseLocation else AbsentLocation)
          (extensible (record h)) (writable_layout length_property)).

Definition update_array_length (length : Z) : array_step unit :=
  h ← heap;
  '(r, replaced) ← pure (ObjectRecord.replace_existing_data (record h) (length_key h)
                           (StoredValue.Number (JsNumber.from_f64 (F64.from_int length))));
  put_record r ;;
  if negb replaced then throw (Fail (RuntimeInvariant "array object lost its own data length property")) else
  put_array (ArrayState.replace_length (array h) length).

Definition replace_sparse (key : PropertyKey) (property : OwnProperty) : array_step unit :=
  h ← heap;
  '(r, previous) ← pure (ObjectRecord.restore_existing_property (record h) key property);
  put_record r ;;
  match previous with
  | None => throw (Fail (RuntimeInvariant "located array property disappeared before its definition"))
  | Some _ => set_pending
  end.

Definition replace_existing_array_property (key : PropertyKey) (property : OwnProperty) (dense_exists : bool) : array_step unit :=
  if dense_exists then
    match default_dense_data_value property with
    | Some value =>
        h ← heap;
        index ← pure (expect (PropertyKey.as_index key));
        '(state, _) ← allocating (ArrayState.try_store_dense (array h) index value);
        put_array state ;; set_pending
    | None => transition_array_to_sparse ;; replace_sparse key property
    end
  else replace_sparse key property.

Definition try_store_new_dense_array_property (key : PropertyKey) (property : OwnProperty) : array_step bool :=
  match PropertyKey.as_index key, default_dense_data_value property with
  | Some index, Some value =>
      h ← heap;
      let can_store := ArrayState.can_store_dense (array h) index in
      let restorable := negb can_store && ArrayState.is_sparse (array h)
                        && negb (ObjectRecord.has_indexed_property (record h)) in
      if negb can_store && negb restorable then mret false else
      try_restore_dense_and_store index value ;; mret true
  | _, _ => mret false
  end.

Definition append_data_property (key : PropertyKey) (layout : PropertyLayout) (value : StoredValue) : array_step unit :=
  check_limit ;;
  h ← heap;
  r ← allocating (lift (ObjectRecord.append_data (record h) key layout value));
  put_record r ;; put_properties (object_properties h + 1) ;; set_pending.

(** [for function in [getter, setter].into_iter().flatten()] *)
Fixpoint check_functions (l : list FunctionId) : array_step unit :=
  match l with
  | [] => mret tt
  | function :: l =>
      h ← heap;
      if bool_decide (function ∈ functions h) then check_functions l else throw (Fail (StaleFunction function))
  end.

Definition append_accessor_property (key : PropertyKey) (layout : PropertyLayout) (getter setter : option FunctionId) : array_step unit :=
  match PropertyLayout.kind layout with
  | DataKind => throw (Fail (RuntimeInvariant "accessor insertion received a data-property layout"))
  | AccessorKind =>
      h ← heap;
      own ← pure (ObjectRecord.own_property (record h) key);
      match own with
      | Some _ => throw (Fail (RuntimeInvariant "accessor insertion targeted an existing own property"))
      | None =>
          check_functions (omap id [getter; setter]) ;;
          check_limit ;;
          r ← allocating (lift (ObjectRecord.append_accessor (record h) key layout getter setter));
          put_record r ;; put_properties (object_properties h + 1) ;; set_pending
      end
  end.

Definition append_own_property (key : PropertyKey) (property : OwnProperty) : array_step unit :=
  match property with
  | OwnProperty.Data layout value => append_data_property key layout value
  | OwnProperty.Accessor layout getter setter => append_accessor_property key layout getter setter
  end.

Inductive ArrayDefineOutcome : Set := Complete | NonExtensible | ReadOnlyLength.

Definition extend (extended_length : option Z) : array_step unit :=
  match extended_length with Some length => update_array_length length | None => mret tt end.

Definition define_array_own_property (key : PropertyKey) (property : OwnProperty) : array_step ArrayDefineOutcome :=
  if bool_decide ((PropertyKey.as_atom key ≫= predefined_atom) = Some LENGTH_ATOM) then
    throw (Fail (RuntimeInvariant "array length definition bypassed numeric length validation"))
  else
  facts ← array_definition_facts key;
  let extended_length := index ← PropertyKey.as_index key;
                         if facts_length facts <=? get index then Some (Z.min (get index + 1) u32_max) else None in
  if is_some extended_length && negb (length_writable facts) then mret ReadOnlyLength else
  match existing facts with
  | DenseLocation | SparseLocation =>
      replace_existing_array_property key property (match existing facts with DenseLocation => true | _ => false end) ;;
      extend extended_length ;;
      mret Complete
  | AbsentLocation =>
      if negb (facts_extensible facts) then mret NonExtensible else
      check_limit ;;
      stored ← try_store_new_dense_array_property key property;
      if stored : bool then
        extend extended_length ;;
        h ← heap;
        put_properties (saturating_add_u64 (object_properties h) 1) ;;
        set_pending ;; mret Complete
      else
        (if PropertyKey.as_index key then transition_array_to_sparse else mret false) ;;
        append_own_property key property ;;
        extend extended_length ;;
        set_pending ;; mret Complete
  end.

Definition define_array_data_property (key : PropertyKey) (layout : PropertyLayout) (value : StoredValue) : array_step ArrayDefineOutcome :=
  match PropertyLayout.kind layout with
  | AccessorKind => throw (Fail (RuntimeInvariant "array data-property definition received an accessor layout"))
  | DataKind => define_array_own_property key (OwnProperty.Data layout value)
  end.
End with_allocator.

(** ** Deletion *)

(** Arrays have no mapped arguments to detach. *)
Definition delete_own_property (key : PropertyKey) : array_step PropertyDeletion :=
  h ← heap;
  let '(state, dense_deleted) :=
    match PropertyKey.as_index key with
    | Some index => ArrayState.delete_dense (array h) index
    | None => (array h, false)
    end in
  put_array state ;;
  deletion ←
    (if dense_deleted : bool then mret Deleted else
     '(r, deletion) ← pure (ObjectRecord.delete_own_property (record h) key);
     put_record r ;; mret deletion);
  match deletion with
  | Deleted =>
      put_properties (saturating_sub (object_properties h) 1) ;; set_pending ;; mret Deleted
  | _ => mret deletion
  end.

(** ** Length *)

Inductive ArrayLengthWriteOutcome : Set :=
| LengthComplete
| LengthReadOnly
| BlockedByNonConfigurable (index : ArrayIndex) (final_length : Z).

Definition set_array_length (requested_length : Z) : array_step ArrayLengthWriteOutcome :=
  h ← heap;
  property ← pure (ObjectRecord.own_property (record h) (length_key h));
  property ← or_throw property (Fail (RuntimeInvariant "array object has no own length property"));
  if negb (writable_layout property) then mret LengthReadOnly else
  if array_length (array h) <=? requested_length then
    update_array_length requested_length ;; set_pending ;; mret LengthComplete
  else if ArrayState.is_dense (array h) then
    let '(state, removed) := ArrayState.truncate_dense (array h) requested_length in
    put_array state ;;
    put_properties (saturating_sub (object_properties h) removed) ;;
    update_array_length requested_length ;; set_pending ;; mret LengthComplete
  else
    '(r, truncation) ← pure (ObjectRecord.truncate_array_indices (record h) requested_length);
    put_record r ;;
    put_properties (saturating_sub (object_properties h) (removed truncation)) ;;
    update_array_length (final_length truncation) ;; set_pending ;;
    mret (match blocked_index truncation with
          | Some index => BlockedByNonConfigurable index (final_length truncation)
          | None => LengthComplete
          end).

Definition set_array_length_writable (writable : bool) : array_step unit :=
  h ← heap;
  '(r, previous) ← pure (ObjectRecord.replace_existing_data_layout (record h) (length_key h) (PropertyLayout.data writable false false));
  put_record r ;;
  match previous with
  | None => throw (Fail (RuntimeInvariant "array object lost its own data length layout"))
  | Some _ => set_pending
  end.

(** ** Construction *)

(** The object [allocate_array_with_prototype] inserts. *)
Definition new_array `{Allocator} (length_atom : Atom) (prototype : option HeapReference.HeapReference) (elements : list StoredValue) :
    result TryReserveError (ObjectRecord * ArrayState) :=
  let r := ObjectRecord.empty prototype in
  ObjectRecord.try_reserve_data r 1 ;;
  r ← ObjectRecord.append_data r (PropertyKey.Atom length_atom) (PropertyLayout.data true false false)
        (StoredValue.Number (JsNumber.from_f64 (F64.from_int (len elements))));
  Ok (r, ArrayState.dense (len elements) elements).
