(* ===== verification/ArrayFacts.v ===== *)
(** * Arrays keep their two storages consistent

    The reference is what the language sees of an array: its own properties by
    key, and its length.  Definition, deletion and length changes do to it what
    they should, whichever storage holds an element, with one exception: a far
    write into an array whose sparse storage has become empty is lost. *)

From S2P Require Import Prelude RuntimePrelude JsStrings ArrayIndex Arena BigInt Values ValueFacts Descriptors DescriptorFacts Objects ObjectFacts Arrays.
From stdpp Require Import list.
Local Open Scope Z_scope.

Import NumberRepr(NumberRepr) StoredValue(StoredValue) PropertyKey(PropertyKey) OwnProperty(OwnProperty).
Import PropertySlot(PropertySlot) ArrayStorage(ArrayStorage).

(** ** What the language sees *)

Definition dense_property (v : StoredValue) : OwnProperty := OwnProperty.Data (DataLayout true true true) v.

Definition own (h : ArrayHeap) (k : PropertyKey) : option OwnProperty :=
  match PropertyKey.as_index k ≫= ArrayState.dense_value (array h) with
  | Some v => Some (dense_property v)
  | None => Properties.lookup (table (record h)) k
  end.

Definition length_number (n : Z) : StoredValue := StoredValue.Number (JsNumber.from_f64 (F64.from_int n)).

Lemma lookup_key t k k' : PropertyKey.eq k k' = true → Properties.lookup t k = Properties.lookup t k'.
Proof. intros E. induction t as [|[k0 p] t IH]; simpl; [done|]. by rewrite IH, (key_right k k' k0 E). Qed.

(** ** Invariant

    Every index is below a bound, which is the array's length between two
    operations and the length to be within one. *)

Definition storage_ok (h : ArrayHeap) (bound : Z) : Prop :=
  match storage (array h) with
  | ArrayStorage.Sparse => True
  | ArrayStorage.Dense elements present =>
      (∀ i, Properties.lookup (table (record h)) (PropertyKey.Index i) = None) ∧ present = present_elements elements
      ∧ len elements ≤ bound ∧ Forall (λ e, ∀ v, e = Some v → value_ok v) elements
  end.

Record ok (bound : Z) (h : ArrayHeap) : Prop := mkOk {
  ok_bound : bound ≤ u32_max;
  ok_record : record_ok (record h);
  ok_storage : storage_ok h bound;
  ok_index : ∀ i p, Properties.lookup (table (record h)) (PropertyKey.Index i) = Some p → 0 ≤ get i < bound;
  ok_length : is_u32 (array_length (array h));
  ok_atom : predefined_atom (length_atom h) = Some LENGTH_ATOM;
  ok_length_property : ∃ w, Properties.lookup (table (record h)) (length_key h)
    = Some (OwnProperty.Data (DataLayout w false false) (length_number (array_length (array h))))
}.

Definition heap_ok (h : ArrayHeap) : Prop := ok (array_length (array h)) h.

(** A key as the runtime makes them: an index in range, or an atom that is the
    length atom exactly when it is marked as such. *)
Definition key_ok (h : ArrayHeap) (k : PropertyKey) : Prop :=
  match k with
  | PropertyKey.Index i => 0 ≤ get i ≤ MAX_ARRAY_INDEX
  | PropertyKey.Atom a => predefined_atom a = Some LENGTH_ATOM ↔ is_same_identity a (length_atom h) = true
  end.

Definition is_length (h : ArrayHeap) (k : PropertyKey) : bool := PropertyKey.eq k (length_key h).

Lemma own_code h k : record_ok (record h) → array_own_property h k = Ok (own h k).
Proof.
  intros Hok. unfold array_own_property, own. destruct (PropertyKey.as_index k ≫= ArrayState.dense_value (array h)); [done|].
  by apply own_property_exact.
Qed.

Lemma has_indexed_spec r : length (shape r) = length (slots r) →
  ObjectRecord.has_indexed_property r = false ↔ ∀ i, Properties.lookup (table r) (PropertyKey.Index i) = None.
Proof.
  intros Hlen. unfold ObjectRecord.has_indexed_property. rewrite <- not_true_iff_false, existsb_exists. setoid_rewrite <- list_elem_of_In. split.
  - intros Hn i. destruct (Properties.lookup _ _) as [p|] eqn:E; [|done]. exfalso.
    apply lookup_elem in E as (k & Hk & E). rewrite key_sym in E. apply key_index in E as ->.
    apply elem_of_table in Hk as (m & q & s & Hq & _ & Ek & _). apply Hn. exists q. split; [by eapply list_elem_of_lookup_2|by rewrite <- Ek].
  - intros Hn (q & Hq & Hk). destruct (shape_key q) as [i|] eqn:Ek; [|done].
    apply list_elem_of_lookup in Hq as [m Hm]. destruct (lookup_lt_is_Some_2 (slots r) m) as [s Hs].
    { rewrite <- Hlen. by eapply lookup_lt_Some. }
    specialize (Hn i). apply Properties.lookup_none in Hn. rewrite Forall_forall in Hn.
    specialize (Hn (PropertyKey.Index i, own_of (shape_layout q) s)). simpl in Hn. rewrite Z.eqb_refl in Hn.
    assert (true = false); [|done]. apply Hn. apply elem_of_table. exists m, q, s. by rewrite Ek.
Qed.

Lemma ok_mono b b' h : ok b h → b ≤ b' → b' ≤ u32_max → ok b' h.
Proof.
  intros Hc Hle Hb. split; try apply Hc; [done| |].
  - pose proof (ok_storage b h Hc) as Hs. unfold storage_ok in *. destruct (storage (array h)); [|done]. destruct Hs as (? & ? & ? & ?). split_and!; try done. lia.
  - intros i p Hi%(ok_index b h Hc). lia.
Qed.

(** ** Sparse transition *)

Fixpoint sparse_entries (elements : list (option StoredValue)) (offset : Z) : list (PropertyKey * OwnProperty) :=
  match elements with
  | [] => []
  | None :: elements => sparse_entries elements (offset + 1)
  | Some v :: elements => (PropertyKey.Index (mkArrayIndex offset), dense_property v) :: sparse_entries elements (offset + 1)
  end.

Lemma sparse_lookup_index elements : ∀ offset i,
  Properties.lookup (sparse_entries elements offset) (PropertyKey.Index i)
  = if offset <=? get i then dense_property <$> mjoin (elements !! Z.to_nat (get i - offset)) else None.
Proof.
  induction elements as [|e elements IH]; intros offset i; cbn [sparse_entries].
  { rewrite lookup_nil. by case_match. }
  assert (Properties.lookup (sparse_entries elements (offset + 1)) (PropertyKey.Index i)
    = if offset + 1 <=? get i then dense_property <$> mjoin ((e :: elements) !! Z.to_nat (get i - offset)) else None) as IH'.
  { rewrite IH. destruct (Z.leb_spec (offset + 1) (get i)); [|done].
    by replace (Z.to_nat (get i - offset)) with (S (Z.to_nat (get i - (offset + 1)))) by lia. }
  destruct e as [v|]; cbn [Properties.lookup PropertyKey.eq get]; rewrite ?IH'.
  - destruct (Z.eqb_spec offset (get i)) as [->|Hne].
    + by rewrite Z.leb_refl, Z.sub_diag.
    + destruct (Z.leb_spec (offset + 1) (get i)), (Z.leb_spec offset (get i)); try lia; done.
  - destruct (Z.leb_spec (offset + 1) (get i)), (Z.leb_spec offset (get i)); try lia; try done.
    by replace (get i - offset) with 0 by lia.
Qed.

Lemma sparse_lookup_atom elements a : ∀ offset, Properties.lookup (sparse_entries elements offset) (PropertyKey.Atom a) = None.
Proof. induction elements as [|[v|] elements IH]; intros offset; simpl; [done|apply IH|apply IH]. Qed.

Lemma append_elements_exact elements : ∀ offset r, record_ok r → 0 ≤ offset → offset + len elements ≤ MAX_ARRAY_INDEX + 1 →
  (∀ i, offset ≤ get i → Properties.lookup (table r) (PropertyKey.Index i) = None) →
  Forall (λ e, ∀ v, e = Some v → value_ok v) elements →
  ∃ r', ObjectRecord.append_elements elements offset r = Ok r' ∧ record_ok r'
    ∧ table r' = table r ++ sparse_entries elements offset ∧ prototype r' = prototype r ∧ extensible r' = extensible r.
Proof.
  induction elements as [|e elements IH]; intros offset r Hok H0 Hb Hn Hv; cbn [ObjectRecord.append_elements sparse_entries].
  { exists r. rewrite app_nil_r. done. }
  apply Forall_cons in Hv as [He Hv]. assert (offset + 1 + len elements ≤ MAX_ARRAY_INDEX + 1) as Hb' by (unfold len in *; simpl in Hb; lia).
  destruct e as [v|].
  - assert (ObjectRecord.index_property offset = Ok (mkShapeProperty (PropertyKey.Index (mkArrayIndex offset)) (DataLayout true true true))) as ->.
    { pose proof (len_nonneg elements). unfold ObjectRecord.index_property, try_u32, ArrayIndex.new, MAX_ARRAY_INDEX in *.
      destruct (Z.leb_spec 0 offset), (Z.leb_spec offset u32_max); simpl; try lia.
      by destruct (Z.leb_spec offset (u32_max - 1)); [|lia]. }
    cbn [mbind result_bind].
    destruct (append_storage_ok r (PropertyKey.Index (mkArrayIndex offset)) (DataLayout true true true) (PropertySlot.Data v) Hok) as [Hok' Ht].
    { simpl. split; [done|by apply He]. } { apply Hn. simpl. lia. }
    set (r0 := ObjectRecord.with_storage _ _ _) in *. destruct (IH (offset + 1) r0 Hok') as (r' & -> & H1 & H2 & H3 & H4); [lia|done| |done|].
    { intros i Hi. rewrite Ht, Properties.lookup_app, Hn by lia. simpl. destruct (Z.eqb_spec offset (get i)); [lia|done]. }
    exists r'. split_and!; try done. by rewrite H2, Ht, <- app_assoc.
  - destruct (IH (offset + 1) r Hok) as (r' & -> & ?); [lia|done| |done|eauto]. intros i Hi. apply Hn. lia.
Qed.

(** Indices are not negative. *)
Definition valid (k : PropertyKey) : Prop := match k with PropertyKey.Index i => 0 ≤ get i | PropertyKey.Atom _ => True end.

(** What array operations do not touch. *)
Record frame (h h' : ArrayHeap) : Prop := mkFrame {
  frame_extensible : extensible (record h') = extensible (record h);
  frame_atom : length_atom h' = length_atom h;
  frame_functions : functions h' = functions h;
  frame_limit : max_object_properties h' = max_object_properties h
}.

#[export] Instance frame_preorder : PreOrder frame.
Proof. split; [by split|]. intros h1 h2 h3 [] []. split; congruence. Qed.

(** Two heaps the language cannot tell apart, counters included. *)
Record same_view (h h' : ArrayHeap) : Prop := mkSameView {
  view_own : ∀ k, valid k → own h' k = own h k;
  view_length : array_length (array h') = array_length (array h);
  view_count : object_properties h' = object_properties h;
  view_frame : frame h h'
}.

#[export] Instance same_view_preorder : PreOrder same_view.
Proof.
  split; [by split|]. intros h1 h2 h3 [Ho1 ? ? ?] [Ho2 ? ? ?]. split; try congruence; [|by etrans].
  intros k Hk. by rewrite Ho2, Ho1.
Qed.

Lemma dense_value_dense st i v : ArrayState.dense_value st i = Some v → ArrayState.is_dense st = true.
Proof. unfold ArrayState.dense_value, ArrayState.dense_elements, ArrayState.is_dense. by destruct (storage st). Qed.

Lemma sparse_own h k : ArrayState.is_sparse (array h) = true → own h k = Properties.lookup (table (record h)) k.
Proof.
  intros Hs. unfold own, ArrayState.dense_value, ArrayState.dense_elements, ArrayState.is_sparse in *. destruct (storage (array h)); [done|].
  destruct (PropertyKey.as_index k); simpl; by rewrite ?lookup_nil.
Qed.

Lemma own_key h k k' : PropertyKey.eq k k' = true → own h k = own h k'.
Proof.
  intros E. unfold own. rewrite (lookup_key _ _ _ E). destruct k as [i|a]; [by apply key_index in E as ->|]. by destruct k'.
Qed.

Lemma own_atom h a : own h (PropertyKey.Atom a) = Properties.lookup (table (record h)) (PropertyKey.Atom a).
Proof. done. Qed.

(** The number of own properties. *)
Definition own_count (h : ArrayHeap) : Z := len (table (record h)) + present_elements (ArrayState.dense_elements (array h)).

Section steps.
Context `{Allocator}.

(** Memory ran out, and nothing changed. *)
Definition out_of_memory (h : ArrayHeap) (e : fault ArrayFailure) (h' : ArrayHeap) : Prop :=
  h' = h ∧ e = Fail (AllocationFailed 1) ∧ refuses.

Lemma wp_transition b h : ok b h →
  wp transition_array_to_sparse
    (λ _ h', ok b h' ∧ same_view h h' ∧ ArrayState.is_sparse (array h') = true) (out_of_memory h) h.
Proof.
  intros Hc. unfold transition_array_to_sparse. apply wp_bind. unfold heap at 1. cbn [wp].
  destruct (ArrayState.is_dense (array h)) eqn:Hd.
  2: { apply wp_ret. split; [done|]. split; [done|].
    unfold ArrayState.is_dense, ArrayState.is_sparse in *. by destruct (storage (array h)). }
  unfold ArrayState.is_dense in Hd. apply wp_bind, wp_embed. unfold ObjectRecord.try_reserve_data, reserve.
  destruct (try_reserve "slots" _ _) eqn:E1; cbn; [|split_and!; [done|done|by eexists _, _, _]].
  destruct (try_reserve "shape" _ _) eqn:E2; cbn; [|split_and!; [done|done|by eexists _, _, _]].
  pose proof (ok_storage b h Hc) as Hs. unfold storage_ok in Hs.
  destruct (storage (array h)) as [elements present|] eqn:Est; [|done]. destruct Hs as (Hn & Hp & Hl & Hv).
  pose proof (ok_bound b h Hc) as Hb. 
  destruct (append_elements_exact elements 0 (record h) (ok_record b h Hc)) as (r' & Ha & Hok' & Ht & _ & Hext); [lia|unfold MAX_ARRAY_INDEX; lia|by auto|done|].
  unfold wp, mbind, stateful_bind, pure, embed, put_array, put_record, ObjectRecord.append_dense_storage_as_sparse. cbn -[ObjectRecord.append_elements].
  rewrite Ha. cbn.
  assert (∀ k, valid k → Properties.lookup (table r') k = own h k) as Hown.
  { intros k Hk. rewrite Ht, Properties.lookup_app. unfold own, ArrayState.dense_value, ArrayState.dense_elements. rewrite Est.
    destruct k as [i|a]; simpl.
    - rewrite sparse_lookup_index, Z.sub_0_r, Hn. simpl in Hk. destruct (Z.leb_spec 0 (get i)); [|lia]. by destruct (mjoin _).
    - rewrite sparse_lookup_atom. by case_match. }
  split_and!; [|split; try done|done].
  - split; try apply Hc; cbn [array record length_atom array_length]; [done|done| |].
    + intros i p. rewrite Ht, Properties.lookup_app, Hn, sparse_lookup_index, Z.sub_0_r.
      destruct (Z.leb_spec 0 (get i)); [|done]. destruct (elements !! Z.to_nat (get i)) eqn:E; [|done].
      intros _. apply lookup_lt_Some in E. unfold len in Hl. lia.
    + destruct (ok_length_property b h Hc) as [w Hw]. exists w. unfold length_key. cbn [length_atom]. by rewrite Hown.
  - intros k Hk. rewrite sparse_own by done. by apply Hown.
Qed.

(** Replacing the record: what it must keep. *)
Lemma ok_with_record b h r : ok b h → record_ok r →
  (∀ i p, Properties.lookup (table r) (PropertyKey.Index i) = Some p → 0 ≤ get i < b) →
  (ArrayState.is_dense (array h) = true → ∀ i, Properties.lookup (table r) (PropertyKey.Index i) = None) →
  Properties.lookup (table r) (length_key h) = Properties.lookup (table (record h)) (length_key h) →
  ∀ count limit pending fs, ok b (mkHeap r (array h) count limit pending fs (length_atom h)).
Proof.
  intros Hc Hr Hi Hd Hl count limit pending fs. split; try apply Hc; cbn [record array]; try done.
  - pose proof (ok_storage b h Hc) as Hs. unfold storage_ok, ArrayState.is_dense in *. cbn [record array]. destruct (storage (array h)); [|done].
    split; [by apply Hd|apply Hs].
  - unfold length_key in *. cbn [length_atom]. rewrite Hl. apply Hc.
Qed.

(** Replacing the array's state. *)
Lemma ok_with_array b h a : ok b h → array_length a = array_length (array h) → storage_ok (mkHeap (record h) a 0 0 false [] (length_atom h)) b →
  ∀ count limit pending fs, ok b (mkHeap (record h) a count limit pending fs (length_atom h)).
Proof. intros Hc El Hs count limit pending fs. split; try apply Hc; cbn [record array]; rewrite ?El; try apply Hc. exact Hs. Qed.

Lemma ok_counters b h : ok b h → ∀ count limit pending fs, ok b (mkHeap (record h) (array h) count limit pending fs (length_atom h)).
Proof. intros Hc count limit pending fs. apply ok_with_array; try done. apply (ok_storage b h Hc). Qed.

Lemma length_value_ok n : is_u32 n → value_ok (length_number n).
Proof. intros Hn. simpl. apply number_fast_path, from_int_f64. by apply u32_small. Qed.

(** The own properties once the length property has the number [n]. *)
Definition relength (h : ArrayHeap) (n : Z) (k : PropertyKey) : option OwnProperty :=
  if is_length h k then own h k ≫= λ q, set_value q (length_number n) else own h k.

Lemma is_length_lookup b h k : ok b h → is_length h k = true →
  ∃ w, own h k = Some (OwnProperty.Data (DataLayout w false false) (length_number (array_length (array h)))).
Proof.
  intros Hc Hk. destruct (ok_length_property b h Hc) as [w Hw]. exists w. destruct k as [i|a]; [done|].
  rewrite own_atom. rewrite <- Hw. apply lookup_key. exact Hk.
Qed.

Lemma relength_same b h k : ok b h → relength h (array_length (array h)) k = own h k.
Proof.
  intros Hc. unfold relength. destruct (is_length h k) eqn:E; [|done]. by destruct (is_length_lookup b h k Hc E) as [w ->].
Qed.

Lemma wp_update_length b h n : ok b h → is_u32 n →
  wp (update_array_length n)
    (λ _ h', ok b h' ∧ array_length (array h') = n ∧ own_count h' = own_count h ∧ (∀ k, own h' k = relength h n k)
       ∧ object_properties h' = object_properties h ∧ frame h h') (λ _ _, False) h.
Proof.
  intros Hc Hn. destruct (ok_length_property b h Hc) as [w Hw].
  destruct (replace_data_exact (record h) (length_key h) (length_number n) (ok_record b h Hc) (length_value_ok n Hn)) as (r & c & Hr & Hok & _ & Hext & Ht).
  rewrite Hw in Ht. cbn in Ht. destruct Ht as [-> Ht]. unfold length_number in Hr.
  unfold wp, update_array_length, mbind, stateful_bind, heap, pure, embed, put_record, put_array. cbn -[ObjectRecord.replace_existing_data]. rewrite Hr. cbn.
  assert (∀ i, Properties.lookup (table r) (PropertyKey.Index i) = Properties.lookup (table (record h)) (PropertyKey.Index i)) as Hi.
  { intros i. rewrite Ht, Properties.lookup_replace. done. }
  split_and!; try done.
  - split; try apply Hc; cbn [record array array_length]; try done.
    + pose proof (ok_storage b h Hc) as Hs. unfold storage_ok in *. cbn [record array ArrayState.replace_length storage].
      destruct (storage (array h)); [|done]. split; [|apply Hs]. intros i. rewrite Hi. apply Hs.
    + intros i p. rewrite Hi. apply Hc.
    + exists w. unfold length_key in *. cbn [length_atom]. by rewrite Ht, Properties.lookup_replace, key_refl, Hw.
  - unfold own_count. cbn [record array]. rewrite Ht. unfold Properties.replace, len. by rewrite length_fmap.
  - intros k. unfold relength. destruct k as [i|a].
    + unfold own. cbn [record array]. rewrite Hi. done.
    + rewrite !own_atom. cbn [record]. rewrite Ht, Properties.lookup_replace. unfold is_length. rewrite key_sym.
      destruct (PropertyKey.eq _ _) eqn:E; [|done]. rewrite (lookup_key _ _ _ E), Hw. done.
Qed.

Lemma wp_replace_sparse b h k p q : ok b h → property_ok p → Properties.lookup (table (record h)) k = Some q → is_length h k = false →
  wp (replace_sparse k p)
    (λ _ h', ok b h' ∧ array h' = array h
       ∧ (∀ k', Properties.lookup (table (record h')) k' = if PropertyKey.eq k k' then Some p else Properties.lookup (table (record h)) k')
       ∧ object_properties h' = object_properties h ∧ frame h h') (λ _ _, False) h.
Proof.
  intros Hc Hp Hq Hk. destruct (replace_exact (record h) k p (ok_record b h Hc) Hp) as (r & Hr & Hok & Ht & _ & Hext). rewrite Hq in Hr.
  unfold wp, replace_sparse, ObjectRecord.restore_existing_property, mbind, stateful_bind, heap, pure, embed, put_record, set_pending. cbn -[ObjectRecord.replace_existing_property]. rewrite Hr. cbn.
  assert (∀ k', Properties.lookup (table r) k' = if PropertyKey.eq k k' then Some p else Properties.lookup (table (record h)) k') as Hl.
  { intros k'. rewrite Ht, Properties.lookup_replace. destruct (PropertyKey.eq k k') eqn:E; [|done]. by rewrite <- (lookup_key _ _ _ E), Hq. }
  split_and!; try done. apply ok_with_record; try done.
  - intros i u. rewrite Hl. destruct (PropertyKey.eq k (PropertyKey.Index i)) eqn:E; [|apply Hc]. intros _.
    rewrite key_sym in E. apply key_index in E as ->. by eapply Hc.
  - intros Hd i. rewrite Hl. pose proof (ok_storage b h Hc) as Hs. unfold storage_ok, ArrayState.is_dense in *. destruct (storage (array h)); [|done].
    destruct (PropertyKey.eq k (PropertyKey.Index i)) eqn:E; [|apply Hs]. rewrite key_sym in E. apply key_index in E as ->. destruct Hs as [Hs _]. by rewrite Hs in Hq.
  - rewrite Hl. unfold is_length in Hk. by rewrite Hk.
Qed.

(** *** Dense stores *)

Lemma present_insert elements i e v : elements !! i = Some e →
  present_elements (<[i := Some v]> elements) = present_elements elements + (if is_some e then 0 else 1).
Proof.
  unfold present_elements, len. revert i. induction elements as [|e0 elements IH]; intros [|i] He; simplify_eq/=.
  - destruct e; simpl; lia.
  - specialize (IH i He). destruct e0; simpl in *; lia.
Qed.

Lemma present_replicate n : present_elements (replicate n None) = 0.
Proof. unfold present_elements, len. induction n; [done|]. simpl. done. Qed.

Lemma present_app l1 l2 : present_elements (l1 ++ l2) = present_elements l1 + present_elements l2.
Proof. unfold present_elements, len. rewrite omap_app, length_app. lia. Qed.

(** [elements] long enough for an index. *)
Definition padded (elements : list (option StoredValue)) (i : Z) : list (option StoredValue) :=
  elements ++ replicate (Z.to_nat (i + 1) - length elements) None.

Lemma padded_lookup elements i j : mjoin (padded elements i !! j) = mjoin (elements !! j).
Proof.
  unfold padded. destruct (decide (j < length elements)%nat).
  - by rewrite lookup_app_l by done.
  - rewrite lookup_app_r, (lookup_ge_None_2 elements) by lia. destruct (_ !! _) as [e|] eqn:E; [|done]. by apply lookup_replicate in E as [-> _].
Qed.

Lemma padded_long elements i : len elements ≤ i → 0 ≤ i → len (padded elements i) = i + 1.
Proof. unfold padded, len. rewrite length_app, length_replicate. lia. Qed.

Lemma padded_short elements i : i < len elements → padded elements i = elements.
Proof. intros Hi. unfold padded, len in *. replace (Z.to_nat (i + 1) - length elements)%nat with O by lia. apply app_nil_r. Qed.

(** The array after a dense store. *)
Definition stored (st : ArrayState) (i : Z) (v : StoredValue) : ArrayState :=
  let elements := <[Z.to_nat i := Some v]> (padded (ArrayState.dense_elements st) i) in
  mkArrayState (array_length st) (ArrayStorage.Dense elements (present_elements elements)).

Lemma try_store_run st elements i v : storage st = ArrayStorage.Dense elements (present_elements elements) →
  0 ≤ get i < u32_max → len elements ≤ u32_max →
  (∃ c, ArrayState.try_store_dense st i v = Ok (stored st (get i) v, c))
  ∨ (∃ e, ArrayState.try_store_dense st i v = Err (Fail e)) ∧ refuses ∧ len elements ≤ get i.
Proof.
  intros Est Hi Hlen. unfold ArrayState.try_store_dense, stored, ArrayState.dense_elements. rewrite Est.
  assert (saturating_add_u64 (get i) 1 = get i + 1) as Esat by (unfold saturating_add_u64, u64_max, u32_max in *; lia). rewrite Esat.
  assert ((∃ e, (if len elements <=? get i then lift (reserve "elements" (len elements) (saturating_sub (get i + 1) (len elements)) tryReserveError);;
      Ok (elements ++ replicate (Z.to_nat (get i + 1) - length elements) None) else Ok elements) = Err (Fail e)) ∧ refuses ∧ len elements ≤ get i
    ∨ (if len elements <=? get i then lift (reserve "elements" (len elements) (saturating_sub (get i + 1) (len elements)) tryReserveError);;
      Ok (elements ++ replicate (Z.to_nat (get i + 1) - length elements) None) else Ok elements) = Ok (padded elements (get i))) as [[[e ->] ?]| -> ].
  { destruct (Z.leb_spec (len elements) (get i)).
    - unfold reserve. destruct (try_reserve "elements" _ _) eqn:E; cbn; [by right|]. left. split; [by eexists|]. split; [by eexists _, _, _|done].
    - right. by rewrite padded_short. }
  { right. split; [by eexists|done]. }
  left. cbn [mbind result_bind]. destruct (lookup_lt_is_Some_2 (padded elements (get i)) (Z.to_nat (get i))) as [e He].
  { destruct (decide (len elements ≤ get i)) as [Hle|Hgt]; [pose proof (padded_long elements (get i) Hle)|rewrite padded_short by lia]; unfold len in *; lia. }
  rewrite He. cbn [expect ok_or mbind result_bind]. eexists. f_equal. f_equal. f_equal. f_equal.
  rewrite (present_insert _ _ _ _ He). unfold padded in *. rewrite present_app, present_replicate in *.
  pose proof (present_bound elements). unfold saturating_add_u64, u64_max, u32_max in *. destruct e; simpl; lia.
Qed.

Lemma stored_value st i v j : 0 ≤ i → 0 ≤ get j →
  ArrayState.dense_value (stored st i v) j = if i =? get j then Some v else ArrayState.dense_value st j.
Proof.
  intros Hi Hj. unfold ArrayState.dense_value, stored. cbn [ArrayState.dense_elements storage].
  destruct (Z.eqb_spec i (get j)) as [->|Hne].
  - rewrite list_lookup_insert_eq; [done|]. destruct (decide (len (ArrayState.dense_elements st) ≤ get j)) as [Hle|Hgt];
      [pose proof (padded_long _ (get j) Hle)|rewrite padded_short by lia]; unfold len in *; lia.
  - rewrite list_lookup_insert_ne by lia. apply padded_lookup.
Qed.

Lemma dense_storage b h : ok b h → ArrayState.is_dense (array h) = true →
  ∃ elements, storage (array h) = ArrayStorage.Dense elements (present_elements elements)
    ∧ ArrayState.dense_elements (array h) = elements ∧ len elements ≤ b
    ∧ (∀ i, Properties.lookup (table (record h)) (PropertyKey.Index i) = None)
    ∧ Forall (λ e, ∀ v, e = Some v → value_ok v) elements.
Proof.
  intros Hc Hd. pose proof (ok_storage b h Hc) as Hs. unfold storage_ok, ArrayState.is_dense, ArrayState.dense_elements in *.
  destruct (storage (array h)) as [elements present|]; [|done]. destruct Hs as (Hn & -> & Hl & Hv). by exists elements.
Qed.

(** A heap with dense storage [st], one element stored. *)
Lemma ok_stored b h st i v : ok b h → (∀ j, Properties.lookup (table (record h)) (PropertyKey.Index j) = None) →
  array_length st = array_length (array h) → len (ArrayState.dense_elements st) ≤ b →
  Forall (λ e, ∀ v, e = Some v → value_ok v) (ArrayState.dense_elements st) → 0 ≤ i < b → value_ok v →
  ∀ count limit pending fs, ok b (mkHeap (record h) (stored st i v) count limit pending fs (length_atom h)).
Proof.
  intros Hc Hn El Hlen Hf Hi Hv count limit pending fs. apply ok_with_array; [done|done|]. unfold storage_ok, stored. cbn [array storage record].
  split_and!; [done|done| |].
  - unfold len. rewrite length_insert. fold (len (padded (ArrayState.dense_elements st) i)).
    destruct (decide (len (ArrayState.dense_elements st) ≤ i)); [rewrite padded_long by lia|rewrite padded_short by lia]; lia.
  - apply Forall_insert; [|by intros ? [= ->]]. unfold padded. apply Forall_app. split; [done|]. apply Forall_replicate. done.
Qed.

(** The own properties once [k] has the property [p]. *)
Definition redefined (h : ArrayHeap) (k : PropertyKey) (p : OwnProperty) (k' : PropertyKey) : option OwnProperty :=
  if PropertyKey.eq k k' then Some p else own h k'.

Lemma own_stored r st i v k count limit pending fs n : 0 ≤ get i → valid k →
  own (mkHeap r (stored st (get i) v) count limit pending fs n) k
  = if PropertyKey.eq (PropertyKey.Index i) k then Some (dense_property v) else own (mkHeap r st count limit pending fs n) k.
Proof.
  intros Hi Hk. unfold own. cbn [array record]. destruct k as [j|a]; [|done]. simpl. simpl in Hk. rewrite stored_value by done. by destruct (_ =? _).
Qed.

Lemma default_value_eq p v : default_dense_data_value p = Some v → p = dense_property v.
Proof. destruct p as [layout u|]; simpl; [|done]. case_bool_decide; [|done]. intros [= ->]. by subst. Qed.

(** [k] got the property [p]; [added] properties were created. *)
Record writes (b : Z) (h : ArrayHeap) (k : PropertyKey) (p : OwnProperty) (added : Z) (h' : ArrayHeap) : Prop := mkWrites {
  writes_ok : ok b h';
  writes_own : ∀ k', valid k' → own h' k' = redefined h k p k';
  writes_length : array_length (array h') = array_length (array h);
  writes_count : object_properties h' = object_properties h + added;
  writes_frame : frame h h'
}.

Lemma writes_view b h0 h k p n h' : same_view h0 h → writes b h k p n h' → writes b h0 k p n h'.
Proof.
  intros [Ho Hl Hn Hf] [? Ho' Hl' Hn' Hf']. split; try congruence; [|by etrans].
  intros k' Hk. rewrite Ho' by done. unfold redefined. case_match; auto.
Qed.

Lemma wp_replace_existing b h k p q : ok b h → property_ok p → valid k → own h k = Some q → is_length h k = false →
  wp (replace_existing_array_property k p (is_some (PropertyKey.as_index k ≫= ArrayState.dense_value (array h))))
    (λ _ h', writes b h k p 0 h') (out_of_memory h) h.
Proof.
  intros Hc Hp Hk Hq Hl. unfold replace_existing_array_property.
  assert (∀ h1, ok b h1 → same_view h h1 → ArrayState.is_sparse (array h1) = true →
    wp (replace_sparse k p) (λ _ h', writes b h k p 0 h') (λ _ _, False) h1) as Hsparse.
  { intros h1 Hc1 Hv Hs. pose proof (view_own h h1 Hv k Hk) as Ho. rewrite Hq, sparse_own in Ho by done.
    eapply wp_mono; [apply (wp_replace_sparse b h1 k p q Hc1 Hp Ho)| |done].
    - unfold is_length, length_key in *. by rewrite (frame_atom h h1 (view_frame h h1 Hv)).
    - intros _ h' (Hc' & Ha & Hlk & Hn & Hf). apply (writes_view b h h1); [done|]. split; try done; [|by rewrite Ha|lia].
      intros k' _. rewrite sparse_own by (by rewrite Ha). unfold redefined. rewrite Hlk, (sparse_own h1) by done. done. }
  destruct (PropertyKey.as_index k ≫= ArrayState.dense_value (array h)) as [u|] eqn:Ed; cbn [is_some].
  - destruct k as [i|]; [|done]. cbn [PropertyKey.as_index] in *. simpl in Ed, Hk.
    assert (ArrayState.is_dense (array h) = true) as Hd by (by eapply dense_value_dense).
    destruct (dense_storage b h Hc Hd) as (elements & Est & Eel & Hlen & Hn & Hf). pose proof (ok_bound b h Hc).
    assert (get i < len elements) as Hi.
    { unfold ArrayState.dense_value in Ed. rewrite Eel in Ed. destruct (elements !! _) eqn:E; [|done]. apply lookup_lt_Some in E. unfold len. lia. }
    destruct (default_dense_data_value p) as [v|] eqn:Ev.
    + apply default_value_eq in Ev as ->. apply wp_bind. unfold heap at 1. cbn [wp]. apply wp_bind, wp_embed. cbn [expect ok_or widen map_err].
      apply wp_bind, wp_embed. destruct (try_store_run (array h) elements i v Est) as [[c ->]|[_ [_ Hge]]]; [lia|lia| |lia].
      cbn [map_err]. unfold wp, mbind, stateful_bind, put_array, set_pending. cbn. split; cbn [object_properties array]; try done; [| |lia].
      * apply ok_stored; try done; try (by rewrite Eel); [lia|]. apply Hp.
      * intros k' Hk'. rewrite own_stored by done. done.
    + apply wp_bind. eapply wp_mono; [apply (wp_transition b h Hc)| |done]. intros _ h1 (Hc1 & Hv & Hs).
      eapply wp_mono; [by apply Hsparse|done|done].
  - assert (Properties.lookup (table (record h)) k = Some q) as Hlk. { unfold own in Hq. by rewrite Ed in Hq. }
    eapply wp_mono; [by apply (wp_replace_sparse b h k p q)| |done]. intros _ h' (Hc' & Ha & Hl' & Hn & Hf). split; try done; [|by rewrite Ha|lia].
    intros k' Hk'. unfold own, redefined. rewrite Ha, Hl'. destruct (PropertyKey.eq k k') eqn:E; [|done].
    assert (PropertyKey.as_index k' ≫= ArrayState.dense_value (array h) = None) as ->; [|done].
    destruct k as [i|a]; [apply key_index in E as ->; done|]. by destruct k'.
Qed.

(** *** New properties *)

(** A write the code reports as done and does not do. *)
Definition lost (h : ArrayHeap) (k : PropertyKey) (p : OwnProperty) : bool :=
  match PropertyKey.as_index k, default_dense_data_value p with
  | Some i, Some _ =>
      ArrayState.is_sparse (array h) && negb (ObjectRecord.has_indexed_property (record h)) && (MAX_DENSE_ARRAY_GAP <=? get i)
  | _, _ => false
  end.

Definition functions_of (p : OwnProperty) : list FunctionId :=
  match p with OwnProperty.Data _ _ => [] | OwnProperty.Accessor _ getter setter => omap id [getter; setter] end.

(** Why the creation of a property fails. *)
Inductive creation_error (h : ArrayHeap) (p : OwnProperty) : fault ArrayFailure → Prop :=
| no_memory : refuses → creation_error h p (Fail (AllocationFailed 1))
| no_room : max_object_properties h < saturating_add_u64 (object_properties h) 1 →
    creation_error h p (Fail (LimitExceeded (max_object_properties h) (saturating_add_u64 (object_properties h) 1)))
| stale f : f ∈ functions_of p → f ∉ functions h → creation_error h p (Fail (StaleFunction f)).

Lemma wp_limit h p Q : Q tt h → wp check_limit Q (λ e h', h' = h ∧ creation_error h p e) h.
Proof.
  intros HQ. unfold check_limit. apply wp_bind. unfold heap at 1. cbn [wp]. destruct (Z.leb_spec (saturating_add_u64 (object_properties h) 1) (max_object_properties h)); [done|].
  split; [done|by constructor].
Qed.

Lemma wp_check_functions h p fs Q : (∀ f, f ∈ fs → f ∈ functions_of p) → Q tt h →
  wp (check_functions fs) Q (λ e h', h' = h ∧ creation_error h p e) h.
Proof.
  intros Hf HQ. induction fs as [|f fs IH]; [done|]. cbn [check_functions]. apply wp_bind. unfold heap at 1. cbn [wp].
  case_bool_decide as Hin; [apply IH; intros g Hg; apply Hf, elem_of_cons; by right|]. split; [done|]. constructor; [apply Hf, elem_of_cons; by left|done].
Qed.

Lemma put_back h : mkHeap (record h) (array h) (object_properties h) (max_object_properties h) (collection_pending h) (functions h) (length_atom h) = h.
Proof. by destruct h. Qed.

(** The store into dense storage [st] that holds what the array has. *)
Lemma wp_store_into b h st elements i v : ok b h → 0 ≤ get i < b → value_ok v →
  storage st = ArrayStorage.Dense elements (present_elements elements) → array_length st = array_length (array h) →
  (∀ j, Properties.lookup (table (record h)) (PropertyKey.Index j) = None) →
  len elements ≤ b → Forall (λ e, ∀ v, e = Some v → value_ok v) elements →
  (∀ j, 0 ≤ get j → ArrayState.dense_value st j = ArrayState.dense_value (array h) j) → ∀ h1,
  h1 = mkHeap (record h) st (object_properties h) (max_object_properties h) (collection_pending h) (functions h) (length_atom h) →
  (get i < len elements ∨ h1 = h) →
  wp ('(state, created) ← allocating (ArrayState.try_store_dense st i v); put_array state ;; mret created)
    (λ _ h', writes b h (PropertyKey.Index i) (dense_property v) 0 h') (λ e h', h' = h ∧ creation_error h (dense_property v) e) h1.
Proof.
  intros Hc Hi Hv Est El Hn Hlen Hf Hdv h1 -> Hor. pose proof (ok_bound b h Hc) as Hb.
  assert (ArrayState.dense_elements st = elements) as Eel by (unfold ArrayState.dense_elements; by rewrite Est).
  apply wp_bind, wp_embed. destruct (try_store_run st elements i v Est) as [[c ->]|[[e ->] [Hr Hge]]]; [lia|lia| |].
  2: { cbn. destruct Hor as [Hor| ->]; [lia|]. split; [done|by constructor]. }
  cbn [map_err]. unfold wp, mbind, stateful_bind, put_array. cbn. split; cbn [object_properties array]; try done; [| |lia].
  - apply ok_stored; try done; by rewrite Eel.
  - intros k' Hk'. rewrite own_stored by (done || lia). unfold redefined. destruct (PropertyKey.eq _ k'); [done|]. unfold own. cbn [array record].
    destruct k' as [j|]; [|done]. simpl. by rewrite Hdv.
Qed.

Lemma wp_store_new b h k p : ok b h → property_ok p → own h k = None → (∀ i, k = PropertyKey.Index i → 0 ≤ get i < b) →
  wp (try_store_new_dense_array_property k p)
    (λ done h', if done : bool then if lost h k p then h' = h else writes b h k p 0 h' else h' = h ∧ lost h k p = false)
    (λ e h', h' = h ∧ creation_error h p e) h.
Proof.
  intros Hc Hp Hown Hi. unfold try_store_new_dense_array_property, lost. destruct k as [i|a]; [|done]. cbn [PropertyKey.as_index].
  destruct (default_dense_data_value p) as [v|] eqn:Ev; [|done]. apply default_value_eq in Ev as ->. specialize (Hi i eq_refl).
  pose proof (ok_bound b h Hc) as Hb. destruct Hp as [_ Hv]. apply wp_bind. unfold heap at 1. cbn [wp].
  pose proof (λ st elements, wp_store_into b h st elements i v Hc Hi Hv) as Hstore.
  destruct (ArrayState.can_store_dense (array h) i) eqn:Ecan; cbn [negb andb].
  - assert (ArrayState.is_dense (array h) = true) as Hd by (unfold ArrayState.can_store_dense, ArrayState.is_dense in *; by destruct (storage (array h))).
    assert (ArrayState.is_sparse (array h) = false) as -> by (unfold ArrayState.is_sparse, ArrayState.is_dense in *; by destruct (storage (array h))).
    destruct (dense_storage b h Hc Hd) as (elements & Est & Eel & Hlen & Hn & Hf). cbn [andb].
    apply wp_bind. unfold try_restore_dense_and_store. apply wp_bind. unfold heap at 1. cbn [wp]. rewrite Ecan. cbn [negb].
    apply wp_bind, wp_ret. apply wp_bind. unfold put_array at 1. cbn [wp]. rewrite put_back. cbn [negb].
    eapply wp_mono; [by eapply (Hstore (array h) elements); try done; [by rewrite put_back|by right]| |done]. intros ? h' Hw. exact Hw.
  - destruct (ArrayState.is_sparse (array h)) eqn:Hs; cbn [andb negb]; [|done].
    destruct (ObjectRecord.has_indexed_property (record h)) eqn:Hhas; cbn [andb negb]; [done|].
    assert (storage (array h) = ArrayStorage.Sparse) as Est by (unfold ArrayState.is_sparse in Hs; by destruct (storage (array h))).
    apply wp_bind. unfold try_restore_dense_and_store. apply wp_bind. unfold heap at 1. cbn [wp]. rewrite Ecan. cbn [negb].
    apply wp_bind, wp_embed. unfold ArrayState.try_restore_dense. rewrite Est.
    destruct (Z.ltb_spec MAX_DENSE_ARRAY_GAP (get i + 1)) as [Hgap|Hgap]; cbn [lift map_err].
    { rewrite (proj2 (Z.leb_le _ _)) by lia. apply wp_bind. unfold put_array at 1. cbn [wp]. rewrite put_back. done. }
    rewrite (proj2 (Z.leb_gt _ _)) by lia. unfold reserve. destruct (try_reserve "restored elements" _ _) eqn:Er; cbn [negb reject_if mbind result_bind map_err].
    2: { split; [done|]. constructor. by eexists _, _, _. }
    apply wp_bind. unfold put_array at 1. cbn [wp negb]. eapply wp_mono; [eapply (Hstore _ (replicate (Z.to_nat (get i + 1)) None))| |done].
    + cbn. by rewrite present_replicate.
    + done.
    + intros j. apply has_indexed_spec; [|done]. apply ObjectFacts.ok_length. apply Hc.
    + unfold len. rewrite length_replicate. lia.
    + by apply Forall_replicate.
    + intros j Hj. unfold ArrayState.dense_value, ArrayState.dense_elements. rewrite Est. cbn [storage]. rewrite lookup_nil.
      destruct (_ !! _) as [e|] eqn:E; [|done]. by apply lookup_replicate in E as [-> _].
    + done.
    + left. unfold len. rewrite length_replicate. lia.
    + intros ? h' Hw. exact Hw.
Qed.

Lemma writes_appended b h k layout slot r : ok b h → valid k → own h k = None → is_length h k = false → (∀ i, k = PropertyKey.Index i → 0 ≤ get i < b) →
  (is_some (PropertyKey.as_index k) = true → ArrayState.is_sparse (array h) = true) →
  record_ok r → table r = table (record h) ++ [(k, own_of layout slot)] → extensible r = extensible (record h) →
  ∀ pending, writes b h k (own_of layout slot) 1
    (mkHeap r (array h) (object_properties h + 1) (max_object_properties h) pending (functions h) (length_atom h)).
Proof.
  intros Hc Hk Hown Hl Hi Hsp Hr Ht Hext pending.
  assert (Properties.lookup (table (record h)) k = None) as Hn. { unfold own in Hown. by destruct (_ ≫= _). }
  assert (∀ k', Properties.lookup (table r) k' = if PropertyKey.eq k k' then Some (own_of layout slot) else Properties.lookup (table (record h)) k') as Hlk.
  { intros k'. rewrite Ht, Properties.lookup_app. simpl. destruct (PropertyKey.eq k k') eqn:E; [by rewrite <- (lookup_key _ _ _ E), Hn|]. by case_match. }
  split; try done.
  - apply ok_with_record; try done.
    + intros i p. rewrite Hlk. destruct (PropertyKey.eq k (PropertyKey.Index i)) eqn:E; [|apply Hc]. intros _. apply Hi.
      rewrite key_sym in E. by apply key_index in E.
    + intros Hd i. rewrite Hlk. destruct (PropertyKey.eq k (PropertyKey.Index i)) eqn:E.
      * rewrite key_sym in E. apply key_index in E as ->. unfold ArrayState.is_dense, ArrayState.is_sparse in *. specialize (Hsp eq_refl). by destruct (storage (array h)).
      * by destruct (dense_storage b h Hc Hd) as (? & _ & _ & _ & Hno & _).
    + rewrite Hlk. unfold is_length in Hl. by rewrite Hl.
  - intros k' Hk'. unfold redefined, own. cbn [array record]. rewrite Hlk. destruct (PropertyKey.eq k k') eqn:E; [|done].
    destruct (PropertyKey.as_index k' ≫= ArrayState.dense_value (array h)) eqn:Ed; [|done]. destruct k as [i|a]; [|by destruct k'].
    apply key_index in E as ->. unfold own in Hown. by rewrite Ed in Hown.
Qed.

Lemma wp_append b h k p : ok b h → property_ok p → valid k → own h k = None → is_length h k = false → (∀ i, k = PropertyKey.Index i → 0 ≤ get i < b) →
  (is_some (PropertyKey.as_index k) = true → ArrayState.is_sparse (array h) = true) →
  wp (append_own_property k p) (λ _ h', writes b h k p 1 h') (λ e h', h' = h ∧ creation_error h p e) h.
Proof.
  intros Hc Hp Hk Hown Hl Hi Hsp. assert (Properties.lookup (table (record h)) k = None) as Hn. { unfold own in Hown. by destruct (_ ≫= _). }
  pose proof (writes_appended b h k) as Hw. pose proof (ok_record b h Hc) as Hr.
  destruct p as [layout v|layout getter setter]; cbn [append_own_property].
  - unfold append_data_property. apply wp_bind, wp_limit. apply wp_bind. unfold heap at 1. cbn [wp]. apply wp_bind, wp_embed.
    pose proof (append_exact (record h) k layout (PropertySlot.Data v) Hr Hp Hn) as Ha. unfold ObjectRecord.append_data.
    destruct (ObjectRecord.append (record h) k layout (PropertySlot.Data v)) as [r|e]; cbn; [|split; [done|by constructor]].
    destruct Ha as (Hok & Ht & _ & Hext). by apply (Hw layout (PropertySlot.Data v) r).
  - unfold append_accessor_property. simpl in Hp. rewrite Hp. apply wp_bind. unfold heap at 1. cbn [wp]. rewrite own_property_exact, Hn by done.
    apply wp_bind, wp_embed. cbn [widen map_err].
    apply wp_bind, wp_check_functions; [done|]. apply wp_bind, wp_limit. apply wp_bind, wp_embed.
    pose proof (append_exact (record h) k layout (PropertySlot.Accessor getter setter) Hr Hp Hn) as Ha. unfold ObjectRecord.append_accessor.
    destruct (ObjectRecord.append (record h) k layout _) as [r|e]; cbn; [|split; [done|by constructor]].
    destruct Ha as (Hok & Ht & _ & Hext). by apply (Hw layout (PropertySlot.Accessor getter setter) r).
Qed.

(** *** Definition *)

(** The length once index [k] exists. *)
Definition length_with (h : ArrayHeap) (k : PropertyKey) : Z :=
  match k with PropertyKey.Index i => Z.max (array_length (array h)) (get i + 1) | PropertyKey.Atom _ => array_length (array h) end.

Definition length_is_writable (h : ArrayHeap) : bool :=
  match own h (length_key h) with Some p => writable_layout p | None => false end.

(** What a completed definition leaves. *)
Record defined (h : ArrayHeap) (k : PropertyKey) (p : OwnProperty) (h' : ArrayHeap) : Prop := mkDefined {
  defined_ok : heap_ok h';
  defined_length : array_length (array h') = length_with h k;
  defined_own : ∀ k', valid k' → own h' k' =
    if PropertyKey.eq k k' then if lost h k p then None else Some p else relength h (length_with h k) k';
  defined_count : object_properties h' = object_properties h + (if is_some (own h k) then 0 else 1);
  defined_frame : frame h h'
}.

Lemma key_length h k : key_ok h k → predefined_atom (length_atom h) = Some LENGTH_ATOM →
  (PropertyKey.as_atom k ≫= predefined_atom) = Some LENGTH_ATOM ↔ is_length h k = true.
Proof. intros Hk Ha. unfold is_length, length_key. destruct k as [i|a]; [done|]. exact Hk. Qed.

Lemma wp_extend b h0 h n : ok b h → is_u32 n → array_length (array h) = array_length (array h0) →
  wp (extend (if array_length (array h0) <? n then Some n else None))
    (λ _ h', ok b h' ∧ array_length (array h') = Z.max (array_length (array h0)) n
       ∧ (∀ k, own h' k = relength h (Z.max (array_length (array h0)) n) k)
       ∧ object_properties h' = object_properties h ∧ frame h h') (λ _ _, False) h.
Proof.
  intros Hc Hn El. destruct (Z.ltb_spec (array_length (array h0)) n); cbn [extend].
  - rewrite Z.max_r by lia. eapply wp_mono; [by apply wp_update_length| |done]. intros _ h' (? & ? & _ & ? & ? & ?). by split_and!.
  - apply wp_ret. rewrite Z.max_l, <- El by lia. split_and!; try done. intros k. symmetry. by apply (relength_same b).
Qed.

(** The heap after the length was extended, up to the counters. *)
Definition extended (b : Z) (h h1 h2 : ArrayHeap) (n : Z) : Prop :=
  ok b h2 ∧ array_length (array h2) = n ∧ (∀ k, own h2 k = relength h1 n k) ∧ object_properties h2 = object_properties h1 ∧ frame h1 h2.

Lemma is_length_frame h h' k : frame h h' → is_length h' k = is_length h k.
Proof. intros Hf. unfold is_length, length_key. by rewrite (frame_atom h h' Hf). Qed.

Lemma own_extended b h k p a h1 h2 n k' : writes b h k p a h1 → is_length h k = false → extended b h h1 h2 n → valid k' →
  own h2 k' = if PropertyKey.eq k k' then Some p else relength h n k'.
Proof.
  intros Hw Hl (_ & _ & Ho & _) Hk'. rewrite Ho. unfold relength. rewrite (is_length_frame h h1 k' (writes_frame _ _ _ _ _ _ Hw)).
  rewrite (writes_own _ _ _ _ _ _ Hw k' Hk'). unfold redefined. destruct (PropertyKey.eq k k') eqn:E; [|done].
  unfold is_length in *. by rewrite <- (key_left k k' _ E), Hl.
Qed.

Lemma length_with_u32 h k : heap_ok h → key_ok h k → is_u32 (length_with h k) ∧ array_length (array h) ≤ length_with h k ≤ u32_max.
Proof.
  intros Hc Hk. pose proof (ok_length _ h Hc) as Hl. unfold length_with, is_u32, u32_max in *. destruct k as [i|a]; [|lia].
  simpl in Hk. unfold MAX_ARRAY_INDEX, u32_max in Hk. lia.
Qed.

Lemma extended_code h k : heap_ok h → key_ok h k →
  (index ← PropertyKey.as_index k; if array_length (array h) <=? get index then Some (Z.min (get index + 1) u32_max) else None)
  = if array_length (array h) <? length_with h k then Some (length_with h k) else None.
Proof.
  intros Hc Hk. destruct k as [i|a]; simpl; [|by rewrite Z.ltb_irrefl]. simpl in Hk. unfold MAX_ARRAY_INDEX in Hk.
  destruct (Z.leb_spec (array_length (array h)) (get i)), (Z.ltb_spec (array_length (array h)) (Z.max (array_length (array h)) (get i + 1))); try lia; [|done].
  f_equal. lia.
Qed.

Lemma ok_pending b h : ok b h → ok b (fst (set_pending h)).
Proof. intros Hc. by apply ok_counters. Qed.

Lemma key_ok_valid h k : key_ok h k → valid k.
Proof. destruct k; simpl; [lia|done]. Qed.

Lemma wp_facts b h k Q F : ok b h →
  Q (mkFacts (array_length (array h))
       (if is_some (PropertyKey.as_index k ≫= ArrayState.dense_value (array h)) then DenseLocation
        else if is_some (own h k) then SparseLocation else AbsentLocation)
       (extensible (record h)) (length_is_writable h)) h →
  wp (array_definition_facts k) Q F h.
Proof.
  intros Hc HQ. destruct (ok_length_property b h Hc) as [w Hw]. unfold array_definition_facts. apply wp_bind. unfold heap at 1. cbn [wp].
  rewrite own_property_exact by apply Hc. apply wp_bind, wp_embed. rewrite own_code by apply Hc. cbn [widen map_err]. rewrite Hw.
  unfold length_is_writable in HQ. change (own h (length_key h)) with (Properties.lookup (table (record h)) (length_key h)) in HQ. rewrite Hw in HQ. exact HQ.
Qed.

Lemma wp_define_existing h k p q : heap_ok h → key_ok h k → property_ok p → is_length h k = false → own h k = Some q →
  wp (replace_existing_array_property k p (is_some (PropertyKey.as_index k ≫= ArrayState.dense_value (array h))) ;;
      extend (if array_length (array h) <? length_with h k then Some (length_with h k) else None) ;; mret Complete)
    (λ o h', o = Complete ∧ defined h k p h') (λ e h', same_view h h' ∧ heap_ok h' ∧ creation_error h p e) h.
Proof.
  intros Hc Hk Hp Hl Hq. destruct (length_with_u32 h k Hc Hk) as (Hu & Hle & Hmax).
  assert (ok (length_with h k) h) as Hb by (eapply ok_mono; [exact Hc|lia|lia]). pose proof (key_ok_valid h k Hk) as Hv.
  apply wp_bind. eapply wp_mono; [by eapply wp_replace_existing| |].
  2: { intros e h' (-> & -> & Hr). split_and!; [done|done|by constructor]. }
  intros ? h1 Hw. apply wp_bind. eapply wp_mono; [apply (wp_extend (length_with h k) h h1 _ (writes_ok _ _ _ _ _ _ Hw) Hu (writes_length _ _ _ _ _ _ Hw))| |done].
  rewrite Z.max_r by lia. intros _ h2 Hx. apply wp_ret. split; [done|]. pose proof Hx as (Hc2 & El & _ & Hn & Hf). split.
  - unfold heap_ok. by rewrite El.
  - done.
  - intros k' Hk'. rewrite (own_extended _ h k p 0 h1 h2 _ k' Hw Hl Hx Hk'). destruct (PropertyKey.eq k k') eqn:E; [|done].
    assert (lost h k p = false) as ->; [|done]. unfold lost. destruct (PropertyKey.as_index k) as [i|] eqn:Ek; [|done]. destruct (default_dense_data_value p); [|done].
    destruct (ArrayState.is_sparse (array h)) eqn:Es; [|done]. destruct (ObjectRecord.has_indexed_property (record h)) eqn:Eh; [done|].
    rewrite sparse_own in Hq by done. destruct k as [i'|]; [|done]. rewrite (proj1 (has_indexed_spec (record h) (ObjectFacts.ok_length _ (ok_record _ h Hc))) Eh) in Hq. done.
  - rewrite Hn, (writes_count _ _ _ _ _ _ Hw), Hq. done.
  - etrans; [apply Hw|done].
Qed.

Lemma lost_frame h h' k p : array h' = array h → record h' = record h → lost h' k p = lost h k p.
Proof. intros Ha Hr. unfold lost. by rewrite Ha, Hr. Qed.

Section new.
Context (h : ArrayHeap) (k : PropertyKey) (p : OwnProperty).
Context (Hc : heap_ok h) (Hk : key_ok h k) (Hp : property_ok p) (Hl : is_length h k = false) (Hq : own h k = None).
Context (Hcount : 0 ≤ object_properties h < u64_max).
Notation n := (length_with h k).
Notation extend_length := (extend (if array_length (array h) <? n then Some n else None)).

Lemma extended_ok : ok n h.
Proof. destruct (length_with_u32 h k Hc Hk) as (Hu & Hle & Hmax). eapply ok_mono; [exact Hc|lia|lia]. Qed.

Lemma wp_extend_new h1 : ok n h1 → array_length (array h1) = array_length (array h) →
  wp extend_length (λ _ h2, extended n h h1 h2 n) (λ _ _, False) h1.
Proof.
  intros Hc1 El1. destruct (length_with_u32 h k Hc Hk) as (Hu & Hle & Hmax).
  eapply wp_mono; [by apply (wp_extend n h h1 n)| |done]. rewrite Z.max_r by lia. by intros ? h2 Hx.
Qed.

(** The definition once the element is in the dense storage, or lost. *)
Lemma wp_define_stored h1 : (if lost h k p then h1 = h else writes n h k p 0 h1) →
  wp (extend_length ;; h ← heap; put_properties (saturating_add_u64 (object_properties h) 1) ;; set_pending ;; mret Complete)
    (λ o h', o = Complete ∧ defined h k p h') (λ _ _, False) h1.
Proof.
  intros Hs. assert (ok n h1 ∧ array_length (array h1) = array_length (array h) ∧ object_properties h1 = object_properties h ∧ frame h h1) as (Hc1 & El1 & Hn1 & Hf1).
  { destruct (lost h k p); [subst; split_and!; try done; apply extended_ok|]. destruct Hs. split_and!; try done; lia. }
  apply wp_bind. eapply wp_mono; [by apply wp_extend_new| |done].
  intros ? h2 Hx. pose proof Hx as (Hc2 & El & Ho & Hn & Hf). unfold wp, mbind, stateful_bind, heap, put_properties, set_pending. cbn. split; [done|]. split.
  - unfold heap_ok. cbn [array]. rewrite El. by apply ok_counters.
  - done.
  - intros k' Hk'. change (own _ k') with (own h2 k'). destruct (lost h k p) eqn:Elost.
    + subst h1. rewrite Ho. destruct (PropertyKey.eq k k') eqn:E; [|done]. unfold relength. unfold is_length in *. rewrite <- (key_left k k' _ E), Hl.
      by rewrite <- (own_key h k k' E).
    + by rewrite (own_extended _ h k p 0 h1 h2 _ k' Hs Hl Hx Hk').
  - cbn [object_properties]. rewrite Hn, Hn1, Hq. unfold saturating_add_u64. cbn [is_some]. lia.
  - etrans; [exact Hf1|]. etrans; [exact Hf|]. done.
Qed.

(** The definition that appends to the property table. *)
Lemma wp_define_appended : lost h k p = false →
  wp ((if PropertyKey.as_index k then transition_array_to_sparse else mret false) ;;
      append_own_property k p ;; extend_length ;; set_pending ;; mret Complete)
    (λ o h', o = Complete ∧ defined h k p h') (λ e h', same_view h h' ∧ heap_ok h' ∧ creation_error h p e) h.
Proof.
  intros Hlost. destruct (length_with_u32 h k Hc Hk) as (Hu & Hle & Hmax). pose proof (key_ok_valid h k Hk) as Hv.
  apply wp_bind. eapply (wp_mono _ (λ _ h', heap_ok h' ∧ same_view h h' ∧ (is_some (PropertyKey.as_index k) = true → ArrayState.is_sparse (array h') = true))
    _ (out_of_memory h)).
  { destruct (PropertyKey.as_index k); [|by apply wp_ret]. eapply wp_mono; [by apply (wp_transition (array_length (array h)))| |done].
    intros ? h' (? & Hview & ?). split_and!; try done. unfold heap_ok. by rewrite (view_length h h' Hview). }
  2: { intros e h' (-> & -> & Hr). split_and!; [done|done|by constructor]. }
  intros ? h1 (Hc1 & Hview & Hsp). pose proof (view_frame h h1 Hview) as Hf1.
  assert (ok n h1) as Hb1. { eapply ok_mono; [exact Hc1| |done]. by rewrite (view_length h h1 Hview). }
  apply wp_bind. eapply wp_mono; [apply (wp_append n h1 k p Hb1 Hp Hv)| |].
  { by rewrite (view_own h h1 Hview k Hv). } { by rewrite (is_length_frame h h1). } { intros i E. rewrite E in *. simpl in *. lia. } { done. }
  2: { intros e h' [-> He]. split_and!; [done|done|]. destruct He as [|Hroom|f ? Hst]; [by constructor| |].
    - rewrite (frame_limit h h1 Hf1), (view_count h h1 Hview) in *. by constructor.
    - constructor; [done|]. by rewrite <- (frame_functions h h1 Hf1). }
  intros ? h2 Hw. apply (writes_view n h) in Hw; [|done]. apply wp_bind. eapply wp_mono; [apply (wp_extend_new h2); apply Hw| |done].
  intros ? h3 Hx. pose proof Hx as (Hc3 & El & _ & Hn & Hf). unfold wp, mbind, stateful_bind, set_pending. cbn. split; [done|]. split.
  - unfold heap_ok. cbn [array]. rewrite El. by apply ok_counters.
  - done.
  - intros k' Hk'. change (own _ k') with (own h3 k'). by rewrite (own_extended _ h k p 1 h2 h3 _ k' Hw Hl Hx Hk'), Hlost.
  - cbn [object_properties]. rewrite Hn, (writes_count _ _ _ _ _ _ Hw), Hq. done.
  - etrans; [apply Hw|]. etrans; [exact Hf|]. done.
Qed.
End new.

(** Why a definition is refused whatever the key holds. *)
Definition length_refuses (h : ArrayHeap) (k : PropertyKey) : bool :=
  (array_length (array h) <? length_with h k) && negb (length_is_writable h).

Lemma wp_define h k p : heap_ok h → key_ok h k → property_ok p → 0 ≤ object_properties h < u64_max →
  wp (define_array_own_property k p)
    (λ o h', is_length h k = false ∧ match o with
       | ReadOnlyLength => h' = h ∧ length_refuses h k = true
       | NonExtensible => h' = h ∧ length_refuses h k = false ∧ own h k = None ∧ extensible (record h) = false
       | Complete => length_refuses h k = false ∧ (own h k = None → extensible (record h) = true) ∧ defined h k p h'
       end)
    (λ e h', if is_length h k then h' = h ∧ e = Fail (RuntimeInvariant "array length definition bypassed numeric length validation")
             else same_view h h' ∧ heap_ok h' ∧ creation_error h p e) h.
Proof.
  intros Hc Hk Hp Hcount. pose proof (key_length h k Hk (ok_atom _ h Hc)) as Hkl.
  unfold define_array_own_property. case_bool_decide as Ea; [apply Hkl in Ea; rewrite Ea; done|].
  assert (is_length h k = false) as Hl by (apply not_true_iff_false; naive_solver). rewrite Hl.
  apply wp_bind. eapply wp_facts; [exact Hc|]. cbv zeta. cbn [facts_length existing facts_extensible length_writable].
  rewrite extended_code by done.
  assert (is_some (if array_length (array h) <? length_with h k then Some (length_with h k) else None) && negb (length_is_writable h) = length_refuses h k) as -> by (unfold length_refuses; by destruct (_ <? _)).
  destruct (length_refuses h k); [by apply wp_ret|]. pose proof (wp_define_existing h k p) as Hex.
  destruct (own h k) as [q|] eqn:Hq.
  - specialize (Hex q Hc Hk Hp Hl eq_refl). destruct (is_some (PropertyKey.as_index k ≫= _)); cbn [is_some] in *.
    all: eapply wp_mono; [exact Hex|by intros o h' [-> ?]|done].
  - assert (is_some (PropertyKey.as_index k ≫= ArrayState.dense_value (array h)) = false) as ->.
    { unfold own in Hq. by destruct (PropertyKey.as_index k ≫= ArrayState.dense_value (array h)). } cbn [is_some].
    destruct (extensible (record h)) eqn:Hext; cbn [negb]; [|by apply wp_ret].
    apply wp_bind. eapply wp_mono; [apply (wp_limit h p (λ _ h', h' = h)); done| |intros e h' [-> ?]; done]. intros ? ? ->.
    apply wp_bind. eapply wp_mono; [apply (wp_store_new (length_with h k) h k p); try done; [by apply extended_ok|intros i ->; simpl in Hk |- *; lia]| |intros e h' [-> ?]; done].
    intros [] h1 Hs.
    + eapply wp_mono; [by apply (wp_define_stored h k p Hc Hk Hl Hq Hcount h1)|by intros o h' [-> ?]|done].
    + destruct Hs as [-> Hlost]. eapply wp_mono; [by apply (wp_define_appended h k p Hc Hk Hp Hl Hq)|by intros o h' [-> ?]|done].
Qed.

(** C21. Defining a property of an array (its length apart): with a read-only
    length and an index at or above it, nothing changes and the outcome says so;
    so too for a new property of an array that is not extensible; otherwise the
    definition completes.  Then [k] has exactly the property, the length has
    grown to cover an index, its [length] property says so, and every other key
    is as before, whether the element went to the dense or to the sparse storage
    or the array changed storage on the way.  The exception is [lost]: the code
    reports [Complete] and counts the property, and nothing is stored.  An
    error (no memory, no room, a stale accessor) leaves what the language sees
    unchanged. *)
Theorem array_define_exact h k p : heap_ok h → key_ok h k → property_ok p → 0 ≤ object_properties h < u64_max →
  match define_array_own_property k p h with
  | (h', Ok ReadOnlyLength) => h' = h ∧ is_length h k = false ∧ length_refuses h k = true
  | (h', Ok NonExtensible) => h' = h ∧ is_length h k = false ∧ length_refuses h k = false ∧ own h k = None ∧ extensible (record h) = false
  | (h', Ok Complete) => is_length h k = false ∧ length_refuses h k = false ∧ (own h k = None → extensible (record h) = true) ∧ defined h k p h'
  | (h', Err (Fail (RuntimeInvariant _))) => h' = h ∧ is_length h k = true
  | (h', Err e) => is_length h k = false ∧ same_view h h' ∧ heap_ok h' ∧ creation_error h p e
  end.
Proof.
  intros Hc Hk Hp Hcount. pose proof (wp_define h k p Hc Hk Hp Hcount) as Hwp. unfold wp in Hwp.
  destruct (define_array_own_property k p h) as [h' [o|e]]; [destruct o; naive_solver|].
  destruct (is_length h k); [destruct Hwp as [-> ->]; done|]. destruct Hwp as (Hv & Ho & He). destruct e as [[]| |]; [inversion He|by split_and!..].
Qed.
End steps.
