(* ===== verification/ArrayLength.v ===== *)
(** * Deletion, length and the life of an array

    The remaining operations of [Arrays.v], the invariant of every array that
    they can make, and runs, one of which loses a write. *)

From S2P Require Import Prelude RuntimePrelude JsStrings ArrayIndex Arena BigInt Values ValueFacts Descriptors DescriptorFacts Objects ObjectFacts Arrays ArrayFacts.
From stdpp Require Import list.
Local Open Scope Z_scope.

Import NumberRepr(NumberRepr) StoredValue(StoredValue) PropertyKey(PropertyKey) OwnProperty(OwnProperty).
Import PropertySlot(PropertySlot) ArrayStorage(ArrayStorage).

(** ** Deletion *)

Ltac simpl_heap := cbn [record array object_properties max_object_properties collection_pending functions length_atom].

Lemma own_below b h i p : ok b h → 0 ≤ get i → own h (PropertyKey.Index i) = Some p → get i < b.
Proof.
  intros Hc Hi. unfold own. simpl. destruct (ArrayState.dense_value (array h) i) as [v|] eqn:Ed; [|intros Hp%(ok_index b h Hc); lia].
  intros _. assert (ArrayState.is_dense (array h) = true) as Hd by (by eapply dense_value_dense).
  destruct (dense_storage b h Hc Hd) as (elements & _ & Eel & Hl & _). unfold ArrayState.dense_value in Ed. rewrite Eel in Ed.
  destruct (elements !! _) eqn:E; [|done]. apply lookup_lt_Some in E. unfold len in Hl. lia.
Qed.

Lemma delete_len r k p : record_ok r → Properties.lookup (table r) k = Some p →
  len (Properties.delete (table r) k) = len (table r) - 1.
Proof.
  intros Hok Hp. destruct (position k (shape r)) as [m|] eqn:Em; [|by rewrite absent_lookup in Hp].
  destruct (locate r k m Hok Em) as (l1 & q & l2 & s1 & s & s2 & Hl & ->). destruct (located_lookup _ _ _ _ _ _ _ _ Hl) as (_ & H1 & H2).
  rewrite (located_table _ _ _ _ _ _ _ _ Hl), Properties.delete_app, Properties.delete_none by done.
  assert (Properties.delete (entry_of q s :: zip_with entry_of l2 s2) k = zip_with entry_of l2 s2) as ->.
  { unfold Properties.delete. rewrite filter_cons, decide_False by (simpl; by rewrite (loc_key _ _ _ _ _ _ _ _ Hl)). by apply Properties.delete_none. }
  rewrite !len_app. unfold len. simpl. lia.
Qed.

Lemma delete_dense_exact b h i : ok b h → 0 ≤ get i →
  match ArrayState.dense_value (array h) i with
  | None => ArrayState.delete_dense (array h) i = (array h, false)
  | Some _ => ∃ st, ArrayState.delete_dense (array h) i = (st, true) ∧ array_length st = array_length (array h)
      ∧ (∀ j, 0 ≤ get j → ArrayState.dense_value st j = if get i =? get j then None else ArrayState.dense_value (array h) j)
      ∧ present_elements (ArrayState.dense_elements st) = present_elements (ArrayState.dense_elements (array h)) - 1
      ∧ storage_ok (mkHeap (record h) st 0 0 false [] (length_atom h)) b
  end.
Proof.
  intros Hc Hi. pose proof (ok_storage b h Hc) as Hs. unfold storage_ok, ArrayState.dense_value, ArrayState.delete_dense, ArrayState.dense_elements in *.
  destruct (storage (array h)) as [elements present|]; [|by rewrite lookup_nil]. destruct Hs as (Hn & -> & Hl & Hf).
  destruct (elements !! Z.to_nat (get i)) as [[v|]|] eqn:E; cbn [mjoin option_join]; [|done..].
  assert (present_elements (<[Z.to_nat (get i) := None]> elements) = present_elements elements - 1) as Hpres.
  { clear -E. unfold present_elements, len. revert E. generalize (Z.to_nat (get i)). induction elements as [|e elements IH]; intros [|m] E; simplify_eq/=; [lia|].
    specialize (IH m E). destruct e; simpl; lia. }
  eexists. split; [reflexivity|]. cbn [array_length storage array record]. split_and!; try done.
  - intros j Hj. destruct (Z.eqb_spec (get i) (get j)) as [Eij|Hne].
    + rewrite <- Eij, list_lookup_insert_eq; [done|]. by eapply lookup_lt_Some.
    + by rewrite list_lookup_insert_ne by lia.
  - rewrite Hpres. pose proof (present_bound (<[Z.to_nat (get i):=None]> elements)). unfold saturating_sub. lia.
  - unfold len. rewrite length_insert. exact Hl.
  - by apply Forall_insert.
Qed.

(** The array without [k]. *)
Record deleted (h : ArrayHeap) (k : PropertyKey) (h' : ArrayHeap) : Prop := mkDeleted {
  deleted_ok : heap_ok h';
  deleted_own : ∀ k', valid k' → own h' k' = if PropertyKey.eq k k' then None else own h k';
  deleted_length : array_length (array h') = array_length (array h);
  deleted_total : own_count h' = own_count h - 1;
  deleted_count : object_properties h' = saturating_sub (object_properties h) 1;
  deleted_frame : frame h h'
}.

Lemma delete_run h k : heap_ok h → valid k →
  match delete_own_property k h with
  | (h', Ok d) =>
      match own h k with
      | None => d = Missing ∧ h' = h
      | Some p =>
          if PropertyLayout.is_configurable (OwnProperty.layout p) then
            d = Deleted ∧ deleted h k h'
          else d = NotConfigurable ∧ h' = h
      end
  | (_, Err _) => False
  end.
Proof.
  intros Hc Hk. unfold delete_own_property, heap. step_handler.
  destruct (PropertyKey.as_index k ≫= ArrayState.dense_value (array h)) as [v|] eqn:Ed.
  - destruct k as [i|]; [|done]. simpl in Ed, Hk. pose proof (delete_dense_exact _ h i Hc Hk) as Hd. rewrite Ed in Hd.
    destruct Hd as (st & Est & El & Hv & Hpres & Hok). cbn [PropertyKey.as_index]. rewrite Est. unfold own at 1. simpl PropertyKey.as_index. cbn [mbind option_bind].
    rewrite Ed. cbn. split; [done|]. split; try done.
    + unfold heap_ok. simpl_heap. rewrite El. by apply ok_with_array.
    + intros k' Hk'. unfold own. cbn [array record]. destruct k' as [j|]; [|done]. simpl. rewrite Hv by done. simpl in Hk'.
      destruct (Z.eqb_spec (get i) (get j)) as [E|]; [|done]. assert (ArrayState.is_dense (array h) = true) as Hd by (by eapply dense_value_dense).
      by destruct (dense_storage _ h Hc Hd) as (? & _ & _ & _ & Hn & _).
    + unfold own_count. cbn [array record]. lia.
  - assert ((match PropertyKey.as_index k with Some index => ArrayState.delete_dense (array h) index | None => (array h, false) end) = (array h, false)) as ->.
    { destruct k as [i|]; [|done]. simpl in *. pose proof (delete_dense_exact _ h i Hc Hk) as Hd. by rewrite Ed in Hd. }
    destruct (delete_property_exact (record h) k (ok_record _ h Hc)) as (r & d & Hr & Hok & _ & Hext & Hlk). unfold own at 1. rewrite Ed.
    unfold mbind, stateful_bind, put_array, pure, embed, put_record. cbn -[ObjectRecord.delete_own_property]. rewrite Hr. cbn.
    destruct (Properties.lookup (table (record h)) k) as [p|] eqn:Elk; [|destruct Hlk as [-> ->]; cbn; by rewrite put_back].
    destruct (PropertyLayout.is_configurable (OwnProperty.layout p)) eqn:Ec; [|destruct Hlk as [-> ->]; cbn; by rewrite put_back].
    destruct Hlk as [-> Ht]. cbn. assert (∀ k', Properties.lookup (table r) k' = if PropertyKey.eq k k' then None else Properties.lookup (table (record h)) k') as Hl.
    { intros k'. by rewrite Ht, Properties.lookup_delete. }
    split; [done|]. split; try done.
    + unfold heap_ok. simpl_heap. apply ok_with_record; try done.
      * intros i q. rewrite Hl. case_match; [done|]. apply Hc.
      * intros Hd i. rewrite Hl. case_match; [done|]. by destruct (dense_storage _ h Hc Hd) as (? & _ & _ & _ & Hn & _).
      * rewrite Hl. destruct (PropertyKey.eq k (length_key h)) eqn:E; [|done]. destruct (ok_length_property _ h Hc) as [w Hw].
        rewrite (lookup_key _ _ _ E), Hw in Elk. by simplify_eq.
    + intros k' Hk'. unfold own. cbn [array record]. rewrite Hl. destruct (PropertyKey.eq k k') eqn:E; [|done].
      assert (PropertyKey.as_index k' ≫= ArrayState.dense_value (array h) = None) as ->; [|done].
      destruct k as [i|a]; [by apply key_index in E as ->|by destruct k'].
    + unfold own_count. cbn [array record]. rewrite Ht, (delete_len (record h) k p) by (done || apply Hc). lia.
Qed.

(** C40. Deleting a property of an array reports whether it was missing, could
    not be deleted, or is gone.  Only in the last case anything changes, and then
    only that key, whichever storage held it; the length stays, and the runtime
    counts one property less. *)
Theorem array_delete_exact h k : heap_ok h → valid k →
  match delete_own_property k h with
  | (h', Ok d) =>
      match own h k with
      | None => d = Missing ∧ h' = h
      | Some p =>
          if PropertyLayout.is_configurable (OwnProperty.layout p) then
            d = Deleted ∧ deleted h k h'
          else d = NotConfigurable ∧ h' = h
      end
  | (_, Err _) => False
  end.
Proof. apply delete_run. Qed.

(** ** Length *)

Lemma truncate_dense_exact b h n : ok b h → ArrayState.is_dense (array h) = true → 0 ≤ n ≤ u32_max →
  ∃ st removed, ArrayState.truncate_dense (array h) n = (st, removed) ∧ array_length st = array_length (array h)
    ∧ (∀ j, 0 ≤ get j → ArrayState.dense_value st j = if n <=? get j then None else ArrayState.dense_value (array h) j)
    ∧ present_elements (ArrayState.dense_elements st) = present_elements (ArrayState.dense_elements (array h)) - removed
    ∧ ∀ count limit pending fs, ok n (mkHeap (record h) st count limit pending fs (length_atom h)).
Proof.
  intros Hc Hd Hn. destruct (dense_storage b h Hc Hd) as (elements & Est & Eel & Hl & Hno & Hf).
  assert (∀ st rest, array_length st = array_length (array h) → storage st = ArrayStorage.Dense (take (Z.to_nat n) elements) rest →
    rest = present_elements (take (Z.to_nat n) elements) →
    ∀ count limit pending fs, ok n (mkHeap (record h) st count limit pending fs (length_atom h))) as Hok.
  { intros st rest El Es -> count limit pending fs. split; try apply Hc; simpl_heap; rewrite ?El; try apply Hc; [lia| |].
    - unfold storage_ok. simpl_heap. rewrite Es. split_and!; try done; [unfold len; rewrite length_take; lia|by apply Forall_take].
    - intros i p Hi. by rewrite Hno in Hi. }
  assert (present_elements elements = present_elements (take (Z.to_nat n) elements) + present_elements (drop (Z.to_nat n) elements)) as Hsum.
  { by rewrite <- present_app, take_drop. }
  assert (∀ j, 0 ≤ get j → mjoin (take (Z.to_nat n) elements !! Z.to_nat (get j)) = if n <=? get j then None else mjoin (elements !! Z.to_nat (get j))) as Hv.
  { intros j Hj. destruct (Z.leb_spec n (get j)); [rewrite lookup_take_ge by lia|rewrite lookup_take_lt by lia]; done. }
  unfold ArrayState.truncate_dense. rewrite Est. destruct (Z.leb_spec (len elements) n).
  - rewrite firstn_all2 in Hok, Hv by (unfold len in *; lia). exists (array h), 0. split_and!; [done|done| |lia|by eapply Hok].
    intros j Hj. unfold ArrayState.dense_value. rewrite Eel. by apply Hv.
  - eexists _, _. split; [reflexivity|]. split_and!; [done| | |].
    + intros j Hj. unfold ArrayState.dense_value. rewrite Eel. by apply Hv.
    + rewrite Eel. cbn [ArrayState.dense_elements storage]. lia.
    + eapply Hok; [done|reflexivity|]. pose proof (present_bound (take (Z.to_nat n) elements)). unfold saturating_sub. lia.
Qed.

Lemma lookup_truncated t f k :
  Properties.lookup (filter (λ e, Properties.at_least f e.1 = false) t) k = if Properties.at_least f k then None else Properties.lookup t k.
Proof.
  assert (∀ k', PropertyKey.eq k' k = true → Properties.at_least f k' = Properties.at_least f k) as Hat.
  { intros k' E. destruct k' as [i|a]; [by apply key_index in E as ->|by destruct k]. }
  induction t as [|[k' p] t IH]; simpl; [by case_match|]. rewrite filter_cons. simpl. case_decide as Ed; simpl; rewrite IH; destruct (PropertyKey.eq k' k) eqn:E; try done.
  - by rewrite <- (Hat k' E), Ed.
  - rewrite <- (Hat k' E). apply not_false_is_true in Ed. by rewrite Ed.
Qed.

(** An element at or above [n] that cannot be deleted. *)
Definition blocker (h : ArrayHeap) (n : Z) (i : ArrayIndex) : Prop :=
  0 ≤ get i ∧ n ≤ get i ∧ ∃ p, own h (PropertyKey.Index i) = Some p ∧ PropertyLayout.is_configurable (OwnProperty.layout p) = false.

(** The array cut or extended to length [f]. *)
Record resized (h : ArrayHeap) (f : Z) (h' : ArrayHeap) : Prop := mkResized {
  resized_ok : heap_ok h';
  resized_length : array_length (array h') = f;
  resized_own : ∀ k, valid k → own h' k = if Properties.at_least f k then None else relength h f k;
  resized_count : object_properties h' = saturating_sub (object_properties h) (own_count h - own_count h');
  resized_frame : frame h h'
}.

(** The last steps of [set_array_length], from the heap without the elements. *)
Lemma wp_resize {A} h h1 f (o : A) : heap_ok h → ok f h1 → is_u32 f → (∀ k, valid k → own h1 k = if Properties.at_least f k then None else own h k) →
  object_properties h1 = saturating_sub (object_properties h) (own_count h - own_count h1) → frame h h1 →
  wp (update_array_length f ;; set_pending ;; mret o) (λ o' h', o' = o ∧ resized h f h') (λ _ _, False) h1.
Proof.
  intros Hc Hc1 Hf Ho Hn Hfr. destruct (ok_length_property f h1 Hc1) as [w Hw].
  apply wp_bind. eapply wp_mono; [by apply (wp_update_length f h1)| |done]. intros u h2 (Hc2 & El & Est & Ho2 & Hn2 & Hf2).
  unfold wp, mbind, stateful_bind, set_pending. cbn. split; [done|]. split.
  - unfold heap_ok. simpl_heap. rewrite El. by apply ok_counters.
  - done.
  - intros k Hk. change (own _ k) with (own h2 k). rewrite Ho2. unfold relength. rewrite (is_length_frame h h1 k Hfr), Ho by done.
    destruct (Properties.at_least f k) eqn:E; [by case_match|done].
  - simpl_heap. rewrite Hn2, Hn, <- Est. done.
  - etrans; [exact Hfr|]. etrans; [exact Hf2|done].
Qed.

(** What setting the length to [n] reports and leaves. *)
Definition length_set (h : ArrayHeap) (n : Z) (o : ArrayLengthWriteOutcome) (h' : ArrayHeap) : Prop :=
  match o with
  | LengthReadOnly => h' = h ∧ length_is_writable h = false
  | LengthComplete => length_is_writable h = true ∧ (∀ i, ¬ blocker h n i) ∧ resized h n h'
  | BlockedByNonConfigurable i f =>
      length_is_writable h = true ∧ blocker h n i ∧ (∀ j, blocker h n j → get j ≤ get i) ∧ f = get i + 1 ∧ resized h f h'
  end.

Section set_length.
Context (h : ArrayHeap) (n : Z) (Hc : heap_ok h) (Hn : is_u32 n) (Hwr : length_is_writable h = true) (Hcount : 0 ≤ object_properties h).

Lemma wp_grow : array_length (array h) ≤ n →
  wp (update_array_length n ;; set_pending ;; mret LengthComplete) (length_set h n) (λ _ _, False) h.
Proof.
  intros Hle. pose proof Hn as Hn'. unfold is_u32 in Hn'. assert (∀ i p, 0 ≤ get i → own h (PropertyKey.Index i) = Some p → get i < n) as Hlow.
  { intros i p Hi Hp. pose proof (own_below _ h i p Hc Hi Hp). lia. }
  eapply wp_mono; [apply (wp_resize h h n LengthComplete Hc)| |done].
  - eapply ok_mono; [exact Hc|done|unfold u32_max; lia].
  - done.
  - intros k Hk. destruct (Properties.at_least n k) eqn:E; [|done]. destruct k as [i|]; [|done]. apply Z.leb_le in E. simpl in Hk.
    destruct (own h (PropertyKey.Index i)) as [p|] eqn:Ep; [|done]. specialize (Hlow i p Hk Ep). lia.
  - unfold saturating_sub. lia.
  - done.
  - intros o h' [-> Hr]. split_and!; [done| |done]. intros i (Hi & Hge & p & Hp & _). specialize (Hlow i p Hi Hp). lia.
Qed.

Lemma wp_cut_dense : n < array_length (array h) → ArrayState.is_dense (array h) = true →
  wp (let '(state, removed) := ArrayState.truncate_dense (array h) n in
      put_array state ;; put_properties (saturating_sub (object_properties h) removed) ;;
      update_array_length n ;; set_pending ;; mret LengthComplete) (length_set h n) (λ _ _, False) h.
Proof.
  intros Hlt Hd. pose proof Hn as Hn'. unfold is_u32 in Hn'. destruct (dense_storage _ h Hc Hd) as (elements & _ & _ & _ & Hno & _).
  destruct (truncate_dense_exact _ h n Hc Hd) as (st & removed & -> & El & Hv & Hp & Hok); [unfold u32_max; lia|].
  apply wp_bind. unfold put_array at 1. cbn [wp]. apply wp_bind. unfold put_properties at 1. cbn [wp]. simpl_heap.
  eapply wp_mono; [apply (wp_resize h _ n LengthComplete Hc); [apply Hok|done| | |done]| |done].
  - intros k Hk. unfold own. simpl_heap. destruct k as [i|]; [|done]. simpl in *. rewrite Hv by done. rewrite Hno. by destruct (n <=? get i).
  - unfold own_count. simpl_heap. f_equal. lia.
  - intros o h' [-> Hr]. split_and!; [done| |done]. intros i (Hi & _ & p & Ho & Hcfg). unfold own in Ho. simpl in Ho. rewrite Hno in Ho.
    destruct (ArrayState.dense_value (array h) i); simplify_eq/=.
Qed.

Lemma wp_cut_sparse : n < array_length (array h) → ArrayState.is_dense (array h) = false →
  wp ('(r, truncation) ← pure (ObjectRecord.truncate_array_indices (record h) n);
      put_record r ;; put_properties (saturating_sub (object_properties h) (removed truncation)) ;;
      update_array_length (final_length truncation) ;; set_pending ;;
      mret (match blocked_index truncation with
            | Some index => BlockedByNonConfigurable index (final_length truncation)
            | None => LengthComplete
            end)) (length_set h n) (λ _ _, False) h.
Proof.
  intros Hlt Hd. pose proof Hn as Hn'. unfold is_u32 in Hn'. pose proof (ok_bound _ h Hc) as Hb.
  assert (ArrayState.is_sparse (array h) = true) as Hs by (unfold ArrayState.is_dense, ArrayState.is_sparse in *; by destruct (storage (array h))).
  assert (∀ i p, (PropertyKey.Index i, p) ∈ table (record h) ↔ Properties.lookup (table (record h)) (PropertyKey.Index i) = Some p) as Hin.
  { intros i p. symmetry. apply lookup_index_elem, record_functional, Hc. }
  destruct (truncate_exact (record h) n (ok_record _ h Hc)) as (r & t & Ht & Hok & Hg & Hf & Htab & Hrem & _ & Hext).
  { intros i p Hp%Hin%(ok_index _ h Hc). unfold MAX_ARRAY_INDEX. lia. }
  assert (∀ i, blocks (table (record h)) n i ↔ blocker h n i) as Hbl.
  { intros i. unfold blocks, blocker. rewrite sparse_own by done. setoid_rewrite Hin. split; [|naive_solver].
    intros (Hge & p & Hp & Hcf). split; [by apply (ok_index _ h Hc) in Hp as []|eauto]. }
  set (f := final_length t) in *.
  assert (n ≤ f < array_length (array h) + 1) as Hfb.
  { rewrite Hf. unfold final_of. destruct (blocked_index t) as [i|]; [|lia]. destruct Hg as [(Hge & p & Hp & _) _]. apply Hin, (ok_index _ h Hc) in Hp. lia. }
  assert (∀ k, Properties.lookup (table r) k = if Properties.at_least f k then None else Properties.lookup (table (record h)) k) as Hlk by (intros k; by rewrite Htab, lookup_truncated).
  apply wp_bind, wp_embed. rewrite Ht. cbn [widen map_err]. apply wp_bind. unfold put_record at 1. cbn [wp]. apply wp_bind. unfold put_properties at 1. cbn [wp]. simpl_heap.
  eapply wp_mono; [eapply (wp_resize h _ f); [exact Hc| | | | |]| |done].
  - split; try apply Hc; simpl_heap; try done; [unfold u32_max in *; lia| | |].
    + unfold storage_ok. simpl_heap. unfold ArrayState.is_sparse in Hs. by destruct (storage (array h)).
    + intros i p. rewrite Hlk. cbn [Properties.at_least]. destruct (Z.leb_spec f (get i)); [done|]. intros Hp%(ok_index _ h Hc). lia.
    + rewrite Hlk. destruct (ok_length_property _ h Hc) as [w Hw]. exists w. exact Hw.
  - unfold is_u32, u32_max in *. lia.
  - intros k Hk. rewrite !sparse_own by done. simpl_heap. apply Hlk.
  - unfold own_count. simpl_heap. f_equal. rewrite Hrem. lia.
  - done.
  - intros o h' [-> Hr]. destruct (blocked_index t) as [i|] eqn:Eb.
    + destruct Hg as [Hbi Hmax]. split_and!; [done|by apply Hbl|intros j Hj; by apply Hmax, Hbl|exact Hf|exact Hr].
    + split_and!; [done|intros i Hi; by apply (Hg i), Hbl|]. replace n with f by exact Hf. exact Hr.
Qed.
End set_length.

Lemma wp_set_length h n : heap_ok h → is_u32 n → 0 ≤ object_properties h → wp (set_array_length n) (length_set h n) (λ _ _, False) h.
Proof.
  intros Hc Hn Hcount. destruct (ok_length_property _ h Hc) as [w Hw].
  assert (length_is_writable h = w) as Elw.
  { unfold length_is_writable. change (own h (length_key h)) with (Properties.lookup (table (record h)) (length_key h)). by rewrite Hw. }
  unfold set_array_length. apply wp_bind. unfold heap at 1. cbn [wp]. apply wp_bind, wp_embed. rewrite own_property_exact, Hw by apply Hc. cbn [widen map_err].
  apply wp_bind, wp_ret. cbn [writable_layout OwnProperty.layout PropertyLayout.writable default from_option].
  destruct w; [|by apply wp_ret]. cbn [negb].
  destruct (Z.leb_spec (array_length (array h)) n); [by apply wp_grow|].
  destruct (ArrayState.is_dense (array h)) eqn:Hd; [by apply wp_cut_dense|by apply wp_cut_sparse].
Qed.

(** C22. Setting the length of an array: nothing happens when its length is
    read-only.  Otherwise the elements from the requested length on go, down to
    the greatest one that cannot be deleted, which the outcome names with the
    length above it; the [length] property and the array's length agree, every
    other key is as before, and the runtime's count falls by the number of
    properties that went. *)
Theorem array_set_length_exact h n : heap_ok h → is_u32 n → 0 ≤ object_properties h →
  match set_array_length n h with
  | (h', Ok o) => length_set h n o h'
  | (_, Err _) => False
  end.
Proof.
  intros Hc Hn Hcount. pose proof (wp_set_length h n Hc Hn Hcount) as Hwp. unfold wp in Hwp. by destruct (set_array_length n h) as [h' [o|e]].
Qed.

(** The length can be made read-only, and writable again only by this call. *)
Lemma wp_length_writable h w : heap_ok h →
  wp (set_array_length_writable w)
    (λ _ h', heap_ok h' ∧ length_is_writable h' = w ∧ array h' = array h ∧ (∀ k, is_length h k = false → own h' k = own h k)
       ∧ object_properties h' = object_properties h ∧ frame h h') (λ _ _, False) h.
Proof.
  intros Hc. destruct (ok_length_property _ h Hc) as [w0 Hw].
  destruct (replace_layout_exact (record h) (length_key h) (PropertyLayout.data w false false) (ok_record _ h Hc) eq_refl) as (r & o & Hr & Hok & _ & Hext & Ht).
  rewrite Hw in Ht. destruct Ht as [-> Ht].
  assert (∀ k, Properties.lookup (table r) k = if PropertyKey.eq (length_key h) k then
    Some (OwnProperty.Data (DataLayout w false false) (length_number (array_length (array h)))) else Properties.lookup (table (record h)) k) as Hl.
  { intros k. rewrite Ht, Properties.lookup_replace. destruct (PropertyKey.eq _ k) eqn:E; [|done]. by rewrite <- (lookup_key _ _ _ E), Hw. }
  unfold wp, set_array_length_writable, mbind, stateful_bind, heap, pure, embed, put_record, set_pending. cbn -[ObjectRecord.replace_existing_data_layout].
  rewrite Hr. cbn. split_and!; try done.
  - unfold heap_ok. simpl_heap. split; try apply Hc; simpl_heap; try done.
    + pose proof (ok_storage _ h Hc) as Hs. unfold storage_ok in *. simpl_heap. destruct (storage (array h)); [|done].
      split; [intros i; rewrite Hl; apply Hs|apply Hs].
    + intros i p. rewrite Hl. apply Hc.
    + exists w. unfold length_key in *. simpl_heap. by rewrite Hl, key_refl.
  - unfold length_is_writable, length_key. simpl_heap. rewrite own_atom. simpl_heap. fold (length_key h). by rewrite Hl, key_refl.
  - intros k Hk. unfold own. simpl_heap. rewrite Hl. unfold is_length in Hk. by rewrite key_sym, Hk.
Qed.

(** ** Reachable arrays *)

Section reachable.
Context `{Allocator}.

(** An array the runtime made, and any operations on it since, whatever their
    outcome; the counters belong to the whole runtime. *)
Inductive reachable : ArrayHeap → Prop :=
| reach_new atom prototype elements r a count limit pending fs :
    predefined_atom atom = Some LENGTH_ATOM → len elements ≤ u32_max → Forall value_ok elements →
    new_array atom prototype elements = Ok (r, a) → reachable (mkHeap r a count limit pending fs atom)
| reach_define h k p h' o : reachable h → key_ok h k → property_ok p → 0 ≤ object_properties h < u64_max →
    define_array_own_property k p h = (h', o) → reachable h'
| reach_delete h k h' o : reachable h → valid k → delete_own_property k h = (h', o) → reachable h'
| reach_length h n h' o : reachable h → is_u32 n → 0 ≤ object_properties h → set_array_length n h = (h', o) → reachable h'
| reach_writable h w h' o : reachable h → set_array_length_writable w h = (h', o) → reachable h'
| reach_frozen h : reachable h → reachable (fst (put_record (ObjectRecord.prevent_extensions (record h)) h))
| reach_elsewhere h count limit pending fs : reachable h →
    reachable (mkHeap (record h) (array h) count limit pending fs (length_atom h)).

Lemma new_array_ok atom prototype elements r a count limit pending fs :
  predefined_atom atom = Some LENGTH_ATOM → len elements ≤ u32_max → Forall value_ok elements →
  new_array atom prototype elements = Ok (r, a) → heap_ok (mkHeap r a count limit pending fs atom).
Proof.
  intros Ha Hlen Hv. unfold new_array, ObjectRecord.try_reserve_data, reserve, ObjectRecord.append_data, ObjectRecord.append, ObjectRecord.try_reserve_data, reserve.
  cbv zeta. intros E. destruct (try_reserve "slots" _ 1); [|done]. destruct (try_reserve "shape" _ 1); [|done].
  cbn -[F64.from_int JsNumber.from_f64] in E. injection E as <- <-. pose proof (len_nonneg elements).
  assert (is_u32 (len elements)) as Hu by (unfold is_u32, u32_max in *; lia).
  split; simpl_heap; cbn [array_length]; try done.
  - split; cbn; repeat constructor. by apply (length_value_ok (len elements)).
  - unfold storage_ok. simpl_heap. cbn. split_and!; [done| | |].
    + unfold present_elements, len. f_equal. clear. induction elements as [|v elements IH]; [done|]. cbn. by rewrite <- IH.
    + unfold len. rewrite length_fmap. done.
    + apply Forall_fmap. eapply Forall_impl; [exact Hv|]. intros v Hok u [= ->]. done.
  - exists true. unfold length_key. cbn. unfold is_same_identity. by rewrite Z.eqb_refl.
Qed.

Lemma reachable_ok h : reachable h → heap_ok h.
Proof.
  induction 1 as [|h k p h' o _ Hc Hk Hp Hn E|h k h' o _ Hc Hk E|h n h' o _ Hc Hn H0 E|h w h' o _ Hc E|h _ Hc|h count limit pending fs _ Hc].
  - by eapply new_array_ok.
  - pose proof (wp_define h k p Hc Hk Hp Hn) as Hd. unfold wp in Hd. rewrite E in Hd. destruct o as [o|e].
    + destruct Hd as [_ Hd]. destruct o; [by apply Hd|by destruct Hd as [-> _]..].
    + destruct (is_length h k); [by destruct Hd as [-> _]|apply Hd].
  - pose proof (delete_run h k Hc Hk) as Hd. rewrite E in Hd. destruct o; [|done]. destruct (own h k); [case_match; [apply Hd|by destruct Hd as [_ ->]]|by destruct Hd as [_ ->]].
  - pose proof (wp_set_length h n Hc Hn H0) as Hd. unfold wp in Hd. rewrite E in Hd. destruct o as [o|]; [|done].
    destruct o; [apply Hd|by destruct Hd as [-> _]|apply Hd].
  - pose proof (wp_length_writable h w Hc) as Hd. unfold wp in Hd. rewrite E in Hd. destruct o; [by destruct Hd|done].
  - apply (ok_with_record _ h); [done|by destruct (ok_record _ h Hc)|apply Hc| |done].
    intros Hd. by destruct (dense_storage _ h Hc Hd) as (? & _ & _ & _ & Hn & _).
  - by apply ok_counters.
Qed.

(** C23. Whatever is done to an array, and whatever the outcomes: its own
    [length] property is a data property that is neither enumerable nor
    configurable and holds the array's length, a 32-bit number; every own index
    is below it; no element is in both storages; and the dense storage counts
    its elements. *)
Theorem array_invariant h : reachable h →
  (∃ w, own h (length_key h) = Some (OwnProperty.Data (DataLayout w false false) (length_number (array_length (array h)))))
  ∧ is_u32 (array_length (array h))
  ∧ (∀ i p, 0 ≤ get i → own h (PropertyKey.Index i) = Some p → get i < array_length (array h))
  ∧ (∀ i v, ArrayState.dense_value (array h) i = Some v → Properties.lookup (table (record h)) (PropertyKey.Index i) = None)
  ∧ ArrayState.dense_property_count (array h) = present_elements (ArrayState.dense_elements (array h)).
Proof.
  intros Hc%reachable_ok. split_and!; try apply Hc.
  - intros i p. by apply own_below.
  - intros i v Hv. assert (ArrayState.is_dense (array h) = true) as Hd by (by eapply dense_value_dense).
    by destruct (dense_storage _ h Hc Hd) as (? & _ & _ & _ & Hn & _).
  - pose proof (ok_storage _ h Hc) as Hs. unfold storage_ok, ArrayState.dense_property_count, ArrayState.dense_elements in *.
    destruct (storage (array h)); [apply Hs|done].
Qed.
End reachable.

(** ** Runs *)

Definition atom_length : Atom := mkAtom 1 AtomKind.String (Some LENGTH_ATOM).
Definition index_key (i : Z) : PropertyKey := PropertyKey.Index (mkArrayIndex i).

(** [[]] in a runtime with room for a million properties. *)
Definition empty_array : ArrayHeap :=
  mkHeap (mkRecord None true false [mkShapeProperty (PropertyKey.Atom atom_length) (DataLayout true false false)]
            [PropertySlot.Data (length_number 0)])
    (ArrayState.dense 0 []) 1 1000000 false [] atom_length.

Lemma empty_array_reachable : reachable (H := always_allocates) empty_array.
Proof. by apply (reach_new (H := always_allocates) atom_length None []). Qed.

Lemma empty_array_ok : heap_ok empty_array.
Proof. apply (reachable_ok (H := always_allocates)), empty_array_reachable. Qed.

(** The program [a = []; a[5000] = null; delete a[5000]; a[6000] = null]. *)
Definition far_writes : array_step ArrayDefineOutcome :=
  define_array_own_property (H := always_allocates) (index_key 5000) (dense_property StoredValue.Null) ;;
  delete_own_property (index_key 5000) ;;
  define_array_own_property (H := always_allocates) (index_key 6000) (dense_property StoredValue.Null).

(** A far write can be lost in a real program: once the only far element of
    an array has been deleted, writing another far element is reported complete
    and sets the length above it, and the array has no such element.  The same
    write into a fresh array is stored. *)
Example array_write_lost :
  (∃ h', far_writes empty_array = (h', Ok Complete) ∧ reachable (H := always_allocates) h'
     ∧ own h' (index_key 6000) = None ∧ array_length (array h') = 6001)
  ∧ ∃ h', define_array_own_property (H := always_allocates) (index_key 6000) (dense_property StoredValue.Null) empty_array = (h', Ok Complete)
     ∧ own h' (index_key 6000) = Some (dense_property StoredValue.Null) ∧ array_length (array h') = 6001.
Proof.
  split; [|eexists; split; [vm_compute; reflexivity|by vm_compute]].
  unfold far_writes, mbind, stateful_bind.
  destruct (define_array_own_property (index_key 5000) _ empty_array) as [h1 o1] eqn:E1.
  assert (reachable (H := always_allocates) h1) as R1.
  { eapply (reach_define (H := always_allocates)); [apply empty_array_reachable| | | |exact E1]; cbn; unfold MAX_ARRAY_INDEX, u32_max, u64_max; try done; lia. }
  vm_compute in E1. injection E1 as <- <-.
  match goal with |- context [delete_own_property _ ?h] => destruct (delete_own_property (index_key 5000) h) as [h2 o2] eqn:E2 end.
  assert (reachable (H := always_allocates) h2) as R2 by (eapply (reach_delete (H := always_allocates)); [exact R1| |exact E2]; cbn; lia).
  vm_compute in E2. injection E2 as <- <-.
  match goal with |- context [define_array_own_property _ _ ?h] => destruct (define_array_own_property (H := always_allocates) (index_key 6000) (dense_property StoredValue.Null) h) as [h3 o3] eqn:E3 end.
  assert (reachable (H := always_allocates) h3) as R3.
  { eapply (reach_define (H := always_allocates)); [exact R2| | | |exact E3]; cbn; unfold MAX_ARRAY_INDEX, u32_max, u64_max; try done; lia. }
  vm_compute in E3. injection E3 as <- <-. eexists. split; [reflexivity|]. split; [exact R3|by vm_compute].
Qed.

Example array_define_exact_witness :
  match define_array_own_property (H := always_allocates) (index_key 3) (dense_property StoredValue.Null) empty_array with
  | (h', Ok Complete) => defined empty_array (index_key 3) (dense_property StoredValue.Null) h'
  | _ => False
  end.
Proof.
  pose proof (array_define_exact (H := always_allocates) empty_array (index_key 3) (dense_property StoredValue.Null) empty_array_ok) as Hd.
  destruct (define_array_own_property _ _ _) as [h' o] eqn:E. vm_compute in E. injection E as <- <-. apply Hd; cbn; unfold MAX_ARRAY_INDEX, u32_max, u64_max; try done; lia.
Defined.

(** [length] cannot be deleted. *)
Example array_delete_exact_witness :
  match delete_own_property (PropertyKey.Atom atom_length) empty_array with
  | (h', Ok d) => d = NotConfigurable ∧ h' = empty_array
  | _ => False
  end.
Proof.
  pose proof (array_delete_exact empty_array (PropertyKey.Atom atom_length) empty_array_ok I) as Hd.
  destruct (delete_own_property _ _) as [h' [d|e]]; exact Hd.
Defined.

Example array_set_length_exact_witness :
  match set_array_length 7 empty_array with (h', Ok o) => length_set empty_array 7 o h' | _ => False end.
Proof. apply (array_set_length_exact empty_array 7 empty_array_ok); unfold is_u32; cbn; lia. Defined.

Example array_invariant_witness : is_u32 (array_length (array empty_array)).
Proof. apply (array_invariant (H := always_allocates) empty_array empty_array_reachable). Defined.
