(* ===== verification/RegExp.v ===== *)
(** * The regular-expression executor

    Models [crates/fusor-regexp/src]: flags ([flags.rs]), programs
    ([program.rs]), Unicode properties and emoji sequences ([properties.rs],
    [emoji.rs]) and the backtracking machine ([executor.rs]).  The Unicode data
    of the libraries that the crate calls are parameters ([UnicodeData]); the
    tables that a compiled property holds are functions.  The backtracking
    vector is a list with its top first.  Programs come from the compiler, which
    reads the syntax tree of a third-party parser and is not modelled. *)

From S2P Require Import Prelude RuntimePrelude.
From stdpp Require Import list.
Local Open Scope Z_scope.

(** ** Flags *)

Record RegExpFlags : Set := mkFlags {
  has_indices : bool;
  flag_global : bool;
  flag_ignore_case : bool;
  flag_multiline : bool;
  flag_dot_all : bool;
  flag_unicode : bool;
  flag_unicode_sets : bool;
  sticky : bool
}.

Record MatchMode : Set := mkMode {
  ignore_case : bool;
  multiline : bool;
  dot_all : bool;
  unicode : bool;
  unicode_sets : bool
}.

Module RegExpFlags.
Definition default : RegExpFlags := mkFlags false false false false false false false false.

(** The flag a character names, and the flags with it set. *)
Definition destination (flag : Z) (f : RegExpFlags) : option (bool * RegExpFlags) :=
  let '(mkFlags d g i m s u v y) := f in
  if flag =? 100 then Some (d, mkFlags true g i m s u v y)
  else if flag =? 103 then Some (g, mkFlags d true i m s u v y)
  else if flag =? 105 then Some (i, mkFlags d g true m s u v y)
  else if flag =? 109 then Some (m, mkFlags d g i true s u v y)
  else if flag =? 115 then Some (s, mkFlags d g i m true u v y)
  else if flag =? 117 then Some (u, mkFlags d g i m s true v y)
  else if flag =? 118 then Some (v, mkFlags d g i m s u true y)
  else if flag =? 121 then Some (y, mkFlags d g i m s u v true)
  else None.

(** The only error is [CompileError::InvalidFlags]. *)
Fixpoint parse_from (source : list Z) (flags : RegExpFlags) : option RegExpFlags :=
  match source with
  | [] => if flag_unicode flags && flag_unicode_sets flags then None else Some flags
  | flag :: source =>
      match destination flag flags with
      | None => None
      | Some (true, _) => None
      | Some (false, flags) => parse_from source flags
      end
  end.

Definition parse (source : list Z) : option RegExpFlags := parse_from source default.

Definition canonical_source (self : RegExpFlags) : list Z :=
  omap (λ '(enabled, flag), if enabled : bool then Some flag else None)
    [(has_indices self, 100); (flag_global self, 103); (flag_ignore_case self, 105); (flag_multiline self, 109);
     (flag_dot_all self, 115); (flag_unicode self, 117); (flag_unicode_sets self, 118); (sticky self, 121)].

Definition unicode_mode (self : RegExpFlags) : bool := flag_unicode self || flag_unicode_sets self.

Definition initial_mode (self : RegExpFlags) : MatchMode :=
  mkMode (flag_ignore_case self) (flag_multiline self) (flag_dot_all self) (unicode_mode self) (flag_unicode_sets self).
End RegExpFlags.

(** ** Unicode *)

(** What the code asks of its Unicode libraries. *)
Class UnicodeData : Type := {
  simple_fold : Z → Z;
  simple_lowercase : Z → Z;
  simple_uppercase : Z → Z;
  simple_titlecase : Z → Z;
  (** [EmojiSetData::new::<BasicEmoji>().contains_str], [emojis::get(v)] giving
      back [v], and [CodePointSetData::new::<EmojiModifierBase>().contains32] *)
  basic_emoji : list Z → bool;
  rgi_emoji : list Z → bool;
  emoji_modifier_base : Z → bool
}.

(** A table of the library is a function from code points; general categories
    and scripts are numbers. *)
Inductive UnicodePropertyMatcher : Type :=
| Any
| Ascii
| Assigned (category : Z → Z)
| Binary (contains : Z → bool)
| CategoryExact (category : Z → Z) (expected : Z)
| CategoryGroup (category : Z → Z) (contains : Z → bool)
| Script (script : Z → Z) (expected : Z)
| ScriptExtensions (has_script : Z → bool)
| EmojiString (name : string)
| Never.

Record UnicodeProperty : Type := mkProperty {
  property_negative : bool;
  property_strings : bool;
  matcher : UnicodePropertyMatcher
}.

(** [GeneralCategory::Unassigned] *)
Definition UNASSIGNED : Z := 0.

Module Emoji.
Definition RGI_FLAG_SEQUENCE : list Z :=
  [0x0c; 0x00; 0x09; 0x00; 0x04; 0x01; 0x02; 0x06; 0x03; 0x03; 0x01; 0x02; 0x01; 0x03; 0x07; 0x0d;
   0x18; 0x00; 0x09; 0x00; 0x00; 0x89; 0x08; 0x00; 0x00; 0x81; 0x88; 0x83; 0x8c; 0x10; 0x00; 0x01;
   0x07; 0x08; 0x29; 0x10; 0x28; 0x00; 0x80; 0x8a; 0x00; 0x0a; 0x00; 0x0e; 0x15; 0x18; 0x83; 0x89;
   0x06; 0x00; 0x81; 0x8d; 0x00; 0x12; 0x08; 0x00; 0x03; 0x00; 0x24; 0x00; 0x05; 0x21; 0x00; 0x00;
   0x29; 0x90; 0x00; 0x02; 0x00; 0x08; 0x09; 0x00; 0x08; 0x18; 0x8b; 0x80; 0x8c; 0x02; 0x19; 0x1a;
   0x11; 0x00; 0x00; 0x80; 0x9c; 0x80; 0x88; 0x02; 0x00; 0x00; 0x02; 0x20; 0x88; 0x0a; 0x00; 0x03;
   0x01; 0x02; 0x05; 0x08; 0x00; 0x01; 0x09; 0x20; 0x21; 0x18; 0x22; 0x00; 0x00; 0x00; 0x00; 0x18;
   0x28; 0x89; 0x80; 0x8b; 0x80; 0x90; 0x80; 0x92; 0x80; 0x8d; 0x05; 0x80; 0x8a; 0x80; 0x88; 0x80].

Definition between (low high value : Z) : bool := (low <=? value) && (value <? high).

(** One turn of the table decoder: the bytes left, where the next run starts and
    whether it is included; or the answer. *)
Definition decode_byte (byte : Z) (rest : list Z) (code_point : Z) (included : bool) (value : Z) : bool + (list Z * Z * bool) :=
  let start := code_point in
  let close rest code_point included :=
    let included := negb included in
    if (value <? code_point) && negb included then inl false else inr (rest, code_point, included) in
  if byte <? 0x40 then
    let code_point := code_point + Z.shiftr byte 3 + 1 in
    if included && between start code_point value then inl true else
    let included := negb included in
    let start := code_point in
    let code_point := code_point + Z.land byte 7 + 1 in
    if included && between start code_point value then inl true else close rest code_point included
  else if 0x80 <=? byte then
    let code_point := code_point + (byte - 0x80) + 1 in
    if included && between start code_point value then inl true else close rest code_point included
  else if byte <? 0x60 then
    match rest with
    | [] => inl false
    | next :: rest =>
        let code_point := code_point + Z.lor (Z.shiftl (byte - 0x40) 8) next + 1 in
        if included && between start code_point value then inl true else close rest code_point included
    end
  else
    match rest with
    | high :: low :: rest =>
        let code_point := code_point + Z.lor (Z.lor (Z.shiftl (byte - 0x60) 16) (Z.shiftl high 8)) low + 1 in
        if included && between start code_point value then inl true else close rest code_point included
    | _ => inl false
    end.

(** Each turn reads a byte at least: [length table] turns suffice. *)
Fixpoint compressed_loop (fuel : nat) (table : list Z) (code_point : Z) (included : bool) (value : Z) : bool :=
  match fuel, table with
  | S fuel, byte :: rest =>
      match decode_byte byte rest code_point included value with
      | inl answer => answer
      | inr (rest, code_point, included) => compressed_loop fuel rest code_point included value
      end
  | _, _ => false
  end.
Definition compressed_property_contains (table : list Z) (value : Z) : bool :=
  compressed_loop (length table) table 0 false value.

Definition is_valid_flag (first second : Z) : bool :=
  if negb ((0x1f1e6 <=? first) && (first <=? 0x1f1ff)) || negb ((0x1f1e6 <=? second) && (second <=? 0x1f1ff)) then false else
  compressed_property_contains RGI_FLAG_SEQUENCE ((first - 0x1f1e6) * 26 + second - 0x1f1e6).

(** The name that tags spell. *)
Fixpoint tag_name (tags : list Z) : option (list Z) :=
  match tags with
  | [] => Some []
  | tag :: tags =>
      if (tag <? 0xe0000) || negb (bool_decide (is_scalar (tag - 0xe0000))) then None
      else name ← tag_name tags; Some (tag - 0xe0000 :: name)
  end.

Definition is_valid_tag_sequence (sequence : list Z) : bool :=
  match sequence with
  | first :: tagged =>
      if negb (first =? 0x1f3f4) then false else
      match last tagged with
      | Some 0xe007f =>
          match tag_name (removelast tagged) with
          | None => false
          | Some name => bool_decide (name = ascii_chars "gbeng") || bool_decide (name = ascii_chars "gbsct") || bool_decide (name = ascii_chars "gbwls")
          end
      | _ => false
      end
  | [] => false
  end.

Section with_data.
Context `{UnicodeData}.

(** [to_string] fails on what is not a scalar. *)
Definition is_rgi_emoji (sequence : list Z) : bool :=
  forallb (λ c, bool_decide (is_scalar c)) sequence && rgi_emoji sequence.

Definition contains (name : string) (sequence : list Z) : bool :=
  if String.eqb name "Basic_Emoji" then forallb (λ c, bool_decide (is_scalar c)) sequence && basic_emoji sequence
  else if String.eqb name "Emoji_Keycap_Sequence" then
    match sequence with
    | [first; second; third] =>
        (second =? 0xfe0f) && (third =? 0x20e3)
        && ((first =? 0x23) || (first =? 0x2a) || ((0x30 <=? first) && (first <=? 0x39)))
    | _ => false
    end
  else if String.eqb name "RGI_Emoji_Modifier_Sequence" then
    match sequence with
    | [base; modifier] => (0x1f3fb <=? modifier) && (modifier <=? 0x1f3ff) && emoji_modifier_base base
    | _ => false
    end
  else if String.eqb name "RGI_Emoji_Flag_Sequence" then
    match sequence with [first; second] => is_valid_flag first second | _ => false end
  else if String.eqb name "RGI_Emoji_Tag_Sequence" then is_valid_tag_sequence sequence
  else if String.eqb name "RGI_Emoji_ZWJ_Sequence" then existsb (Z.eqb 0x200d) sequence && is_rgi_emoji sequence
  else if String.eqb name "RGI_Emoji" then is_rgi_emoji sequence
  else false.
End with_data.
End Emoji.

Module UnicodeProperty.
Definition base_matches (property : UnicodeProperty) (code_point : Z) : bool :=
  match matcher property with
  | Any => code_point <=? 0x10ffff
  | Ascii => code_point <=? 0x7f
  | Assigned category => negb (category code_point =? UNASSIGNED)
  | Binary contains => contains code_point
  | CategoryExact category expected => category code_point =? expected
  | CategoryGroup category contains => contains (category code_point)
  | Script script expected => script code_point =? expected
  | ScriptExtensions has_script => has_script code_point
  | EmojiString _ | Never => false
  end.

Section with_data.
Context `{UnicodeData}.

Definition case_equivalents (code_point : Z) : list Z :=
  if bool_decide (is_scalar code_point) then
    [code_point; simple_fold code_point; simple_lowercase code_point; simple_uppercase code_point; simple_titlecase code_point]
  else [code_point; code_point; code_point; code_point; code_point].

Definition matches (property : UnicodeProperty) (code_point : Z) (mode : MatchMode) : bool :=
  if negb (ignore_case mode) then xorb (base_matches property code_point) (property_negative property) else
  let equivalents := case_equivalents code_point in
  let any_inside := existsb (base_matches property) equivalents in
  if negb (property_negative property) then any_inside
  else if unicode_sets mode then negb any_inside
  else existsb (λ equivalent, negb (base_matches property equivalent)) equivalents.

Definition matches_sequence (property : UnicodeProperty) (sequence : list Z) (mode : MatchMode) : bool :=
  match matcher property with
  | EmojiString name => negb (property_negative property) && Emoji.contains name sequence
  | _ => match sequence with [code_point] => matches property code_point mode | _ => false end
  end.
End with_data.
End UnicodeProperty.

(** ** Programs *)

Inductive BoundaryKind : Set := Start | End_ | Word | NotWord.
#[export] Instance BoundaryKind_eq_dec : EqDecision BoundaryKind.
Proof. solve_decision. Defined.
Inductive Direction : Set := Forward | Backward.
#[export] Instance Direction_eq_dec : EqDecision Direction.
Proof. solve_decision. Defined.
Inductive LookaroundKind : Set := Ahead | NegativeAhead | Behind | NegativeBehind.

Module LookaroundKind.
Definition negative (self : LookaroundKind) : bool := match self with NegativeAhead | NegativeBehind => true | _ => false end.
Definition direction (self : LookaroundKind) : Direction :=
  match self with Ahead | NegativeAhead => Forward | Behind | NegativeBehind => Backward end.
End LookaroundKind.

Inductive CharacterClassKind : Set := Union | Intersection | Subtraction.

Inductive CharacterClass : Type :=
| mkClass (negative : bool) (kind : CharacterClassKind) (items : list CharacterClassItem) (strings : list (list Z))
    (has_string_properties : bool)
with CharacterClassItem : Type :=
| Range (first last : Z)
| Digit (negative : bool)
| Space (negative : bool)
| WordItem (negative : bool)
| Property (property : UnicodeProperty)
| Nested (class : CharacterClass)
| Sequence (value : list Z).

Definition strings (self : CharacterClass) : list (list Z) := let '(mkClass _ _ _ l _) := self in l.
Definition has_string_properties (self : CharacterClass) : bool := let '(mkClass _ _ _ _ b) := self in b.

Inductive Instruction : Type :=
| Character (value : Z) (mode : MatchMode)
| Dot (mode : MatchMode)
| Class (class : CharacterClass) (mode : MatchMode)
| Boundary (kind : BoundaryKind) (mode : MatchMode)
| SaveStart (index : nat)
| SaveEnd (index : nat)
| BackReference (captures : list nat) (mode : MatchMode)
| Lookaround (kind : LookaroundKind) (body exit : nat)
| LookaroundAccept (kind : LookaroundKind)
| Split (first second : nat)
| Jump (target : nat)
| Repeat (slot : nat) (min : Z) (max : option Z) (greedy : bool) (body exit capture_start capture_end : nat)
| RepeatEnd (slot head : nat)
| MatchInstruction.

Record Program : Type := mkProgram {
  instructions : list Instruction;
  capture_count : nat;
  capture_names : list (option string);
  repeat_count : nat;
  flags : RegExpFlags
}.

Record ExecLimits : Set := mkLimits { max_steps : Z; max_backtrack_states : Z }.
Inductive ExecError : Set := StepLimit | BacktrackLimit.

(** ** Characters of the input *)

Definition is_digit (value : Z) : bool := (0x30 <=? value) && (value <=? 0x39).
Definition is_space (value : Z) : bool :=
  ((0x9 <=? value) && (value <=? 0xd)) || (value =? 0x20) || (value =? 0xa0) || (value =? 0x1680)
  || ((0x2000 <=? value) && (value <=? 0x200a)) || (value =? 0x2028) || (value =? 0x2029) || (value =? 0x202f)
  || (value =? 0x205f) || (value =? 0x3000) || (value =? 0xfeff).
Definition is_line_terminator (value : Z) : bool :=
  (value =? 0xa) || (value =? 0xd) || (value =? 0x2028) || (value =? 0x2029).

Definition decode_at (input : list Z) (position : nat) (unicode : bool) : option (Z * nat) :=
  first ← input !! position;
  match input !! S position with
  | Some second =>
      if unicode && is_high_surrogate first && is_low_surrogate second
      then Some (combine_surrogates first second, S (S position)) else Some (first, S position)
  | None => Some (first, S position)
  end.

(** [input[..]] panics out of range. *)
Definition decode_before {E} (input : list Z) (position : nat) (unicode : bool) : outcome E (option (Z * nat)) :=
  match position with
  | O => Ok None
  | S last_position =>
      last ← expect (input !! last_position);
      if unicode && is_low_surrogate last && (0 <? last_position)%nat then
        first ← expect (input !! (last_position - 1)%nat);
        if is_high_surrogate first then Ok (Some (combine_surrogates first last, (last_position - 1)%nat))
        else Ok (Some (last, last_position))
      else Ok (Some (last, last_position))
  end.

Definition decode_in_direction {E} (input : list Z) (position : nat) (unicode : bool) (direction : Direction) : outcome E (option (Z * nat)) :=
  match direction with
  | Forward => Ok (decode_at input position unicode)
  | Backward => decode_before input position unicode
  end.

Definition advance_index (input : list Z) (position : nat) (unicode : bool) : nat :=
  match decode_at input position unicode with Some (_, next) => next | None => length input end.

Section with_data.
Context `{UnicodeData}.

Definition canonicalize (value : Z) (mode : MatchMode) : Z :=
  if negb (ignore_case mode) then value else
  if negb (bool_decide (is_scalar value)) then value else
  if unicode mode then simple_fold value else
  let upper := simple_uppercase value in
  if (0x80 <=? value) && (upper <? 0x80) then value else upper.

Definition is_word (value : Z) (mode : MatchMode) : bool :=
  let canonical := canonicalize value mode in
  is_digit canonical || ((0x41 <=? canonical) && (canonical <=? 0x5a)) || (canonical =? 0x5f)
  || ((0x61 <=? canonical) && (canonical <=? 0x7a)).

Definition same_character (a b : Z) (mode : MatchMode) : bool := canonicalize a mode =? canonicalize b mode.

(** *** Classes *)

Definition sequences_equal (left_ right_ : list Z) (mode : MatchMode) : bool :=
  (length left_ =? length right_)%nat && forallb (λ '(a, b), same_character a b mode) (zip left_ right_).

(** [let [value] = value else { return false }] *)
Definition single (value : list Z) (f : Z → bool) : bool := match value with [value] => f value | _ => false end.

Fixpoint class_contains_sequence (class : CharacterClass) (value : list Z) (mode : MatchMode) {struct class} : bool :=
  let '(mkClass negative kind items _ _) := class in
  let matched :=
    match kind with
    | Union => existsb (λ item, class_item_matches item value mode) items
    | Intersection => forallb (λ item, class_item_matches item value mode) items
    | Subtraction =>
        match items with
        | [] => false
        | first :: rest => class_item_matches first value mode && negb (existsb (λ item, class_item_matches item value mode) rest)
        end
    end in
  xorb matched negative
with class_item_matches (item : CharacterClassItem) (value : list Z) (mode : MatchMode) {struct item} : bool :=
  match item with
  | Range first last => single value (λ value,
      let canonical := canonicalize value mode in
      let first := canonicalize first mode in
      let last := canonicalize last mode in
      (Z.min first last <=? canonical) && (canonical <=? Z.max first last))
  | Digit negative => single value (λ value, xorb (is_digit value) negative)
  | Space negative => single value (λ value, xorb (is_space value) negative)
  | WordItem negative => single value (λ value, xorb (is_word value mode) negative)
  | Property property => UnicodeProperty.matches_sequence property value mode
  | Nested class => class_contains_sequence class value mode
  | Sequence expected => sequences_equal expected value mode
  end.

Definition class_matches (class : CharacterClass) (value : Z) (mode : MatchMode) : bool :=
  class_contains_sequence class [value] mode.

(** The loop over a string, in reading order. *)
Fixpoint match_string {E} (input : list Z) (position : nat) (value : list Z) (mode : MatchMode) (direction : Direction) :
    outcome E (option nat) :=
  match value with
  | [] => Ok (Some position)
  | expected :: value =>
      decoded ← decode_in_direction input position (unicode mode) direction;
      match decoded with
      | None => Ok None
      | Some (actual, next) =>
          if negb (same_character expected actual mode) then Ok None else match_string input next value mode direction
      end
  end.
Definition match_class_string {E} (input : list Z) (position : nat) (value : list Z) (mode : MatchMode) (direction : Direction) :
    outcome E (option nat) :=
  match_string input position (match direction with Forward => value | Backward => rev value end) mode direction.

Fixpoint directional_prefixes {E} (maximum : nat) (input : list Z) (value : list Z) (cursor : nat) (unicode : bool) (direction : Direction) :
    outcome E (list (list Z * nat)) :=
  match maximum with
  | O => Ok []
  | S maximum =>
      decoded ← decode_in_direction input cursor unicode direction;
      match decoded with
      | None => Ok []
      | Some (code_point, next) =>
          let value := match direction with Forward => value ++ [code_point] | Backward => code_point :: value end in
          rest ← directional_prefixes maximum input value next unicode direction;
          Ok ((value, next) :: rest)
      end
  end.

(** [if !positions.contains(&next) { positions.push(next) }] *)
Definition push_new (positions : list nat) (next : nat) : list nat :=
  if bool_decide (next ∈ positions) then positions else positions ++ [next].

Fixpoint string_positions {E} (class : CharacterClass) (l : list (list Z)) (input : list Z) (position : nat) (mode : MatchMode)
    (direction : Direction) (positions : list nat) : outcome E (list nat) :=
  match l with
  | [] => Ok positions
  | value :: l =>
      if (length value =? 1)%nat || negb (class_contains_sequence class value mode)
      then string_positions class l input position mode direction positions
      else
        matched ← match_class_string input position value mode direction;
        string_positions class l input position mode direction
          (match matched with Some next => push_new positions next | None => positions end)
  end.

Definition dynamic_positions (class : CharacterClass) (dynamic : list (list Z * nat)) (mode : MatchMode) (positions : list nat) : list nat :=
  foldl (λ positions '(value, next),
    if (1 <? length value)%nat && class_contains_sequence class value mode then push_new positions next else positions)
    positions (rev dynamic).

Definition class_match_positions {E} (class : CharacterClass) (input : list Z) (position : nat) (mode : MatchMode) (direction : Direction) :
    outcome E (list nat) :=
  positions ← string_positions class (strings class) input position mode direction [];
  positions ←
    (if has_string_properties class then
       dynamic ← directional_prefixes 16 input [] position (unicode mode) direction;
       Ok (dynamic_positions class dynamic mode positions)
     else Ok positions);
  decoded ← decode_in_direction input position (unicode mode) direction;
  match decoded with
  | Some (value, next) => if class_matches class value mode then Ok (push_new positions next) else Ok positions
  | None => Ok positions
  end.

(** *** Assertions *)

Definition boundary_matches {E} (kind : BoundaryKind) (input : list Z) (position : nat) (mode : MatchMode) : outcome E bool :=
  match kind with
  | Start =>
      if (position =? 0)%nat then Ok true else if negb (multiline mode) then Ok false else
      before ← decode_before input position (unicode mode);
      Ok (match before with Some (value, _) => is_line_terminator value | None => false end)
  | End_ =>
      Ok ((position =? length input)%nat
          || (multiline mode && match decode_at input position (unicode mode) with Some (value, _) => is_line_terminator value | None => false end))
  | Word | NotWord =>
      before ← decode_before input position (unicode mode);
      let previous := match before with Some (value, _) => is_word value mode | None => false end in
      let next := match decode_at input position (unicode mode) with Some (value, _) => is_word value mode | None => false end in
      Ok (match kind with Word => xorb previous next | _ => negb (xorb previous next) end)
  end.

(** The loop of [match_back_reference] over the captured range [first, last);
    every turn moves by one unit at least, so [last - first] turns suffice. *)
Fixpoint match_back_loop {E} (fuel : nat) (input : list Z) (position first last : nat) (mode : MatchMode) (direction : Direction) :
    outcome E (option nat) :=
  if (last <=? first)%nat then Ok (Some position) else
  match fuel with
  | O => Err OutOfFuel
  | S fuel =>
      captured ← decode_in_direction input (match direction with Forward => first | Backward => last end) (unicode mode) direction;
      match captured with
      | None => Ok None
      | Some (expected, next_capture) =>
          if match direction with Forward => (last <? next_capture)%nat | Backward => (next_capture <? first)%nat end then Ok None else
          decoded ← decode_in_direction input position (unicode mode) direction;
          match decoded with
          | None => Ok None
          | Some (actual, next_position) =>
              if negb (same_character expected actual mode) then Ok None else
              match direction with
              | Forward => match_back_loop fuel input next_position next_capture last mode direction
              | Backward => match_back_loop fuel input next_position first next_capture mode direction
              end
          end
      end
  end.
Definition match_back_reference {E} (input : list Z) (position : nat) (range : nat * nat) (mode : MatchMode) (direction : Direction) :
    outcome E (option nat) :=
  match_back_loop (range.2 - range.1) input position range.1 range.2 mode direction.
End with_data.

(** ** The machine *)

Record CaptureSlot : Set := mkCapture { capture_from : option nat; capture_to : option nat }.
Definition empty_capture : CaptureSlot := mkCapture None None.
Definition range (self : CaptureSlot) : option (nat * nat) :=
  first ← capture_from self; last ← capture_to self; Some (first, last).

Record RepeatState : Set := mkRepeat {
  active : bool;
  repeat_number : Z;
  iteration_start : option nat;
  optional_attempted : bool
}.
Definition idle_repeat : RepeatState := mkRepeat false 0 None false.

Record TerminalRepeat : Set := mkTerminal { terminal_slot : nat; terminal_body : nat; terminal_exit : nat }.

Record State : Set := mkState {
  pc : nat;
  position : nat;
  captures : list CaptureSlot;
  repeats : list RepeatState;
  terminal : option TerminalRepeat;
  direction : Direction
}.

Inductive BacktrackEntry : Set :=
| Alternative (state : State)
| LookaroundEntry (outer : State) (kind : LookaroundKind).

Notation Match := (list (option (nat * nat))) (only parsing).

(** Updates of a state. *)
Definition set_pc (s : State) (pc : nat) : State := mkState pc (position s) (captures s) (repeats s) (terminal s) (direction s).
Definition move (s : State) (position : nat) : State :=
  mkState (S (pc s)) position (captures s) (repeats s) (terminal s) (direction s).
Definition set_captures (s : State) (captures : list CaptureSlot) : State :=
  mkState (pc s) (position s) captures (repeats s) (terminal s) (direction s).
Definition set_repeats (s : State) (repeats : list RepeatState) : State :=
  mkState (pc s) (position s) (captures s) repeats (terminal s) (direction s).
Definition set_terminal (s : State) (terminal : option TerminalRepeat) : State :=
  mkState (pc s) (position s) (captures s) (repeats s) terminal (direction s).
Definition set_direction (s : State) (direction : Direction) : State :=
  mkState (pc s) (position s) (captures s) (repeats s) (terminal s) direction.

(** [v[index] = value] *)
Definition write {E A} (l : list A) (index : nat) (value : A) : outcome E (list A) :=
  if (index <? length l)%nat then Ok (<[index := value]> l) else Err Panic.

(** [v[first..last].fill(value)] *)
Definition fill {E A} (l : list A) (first last : nat) (value : A) : outcome E (list A) :=
  if (last <=? length l)%nat then Ok (take first l ++ replicate (last - first) value ++ drop last l) else Err Panic.

Fixpoint restore (backtrack : list BacktrackEntry) : option (State * list BacktrackEntry) :=
  match backtrack with
  | [] => None
  | Alternative alternative :: backtrack => Some (alternative, backtrack)
  | LookaroundEntry outer kind :: backtrack => if LookaroundKind.negative kind then Some (outer, backtrack) else restore backtrack
  end.

Fixpoint pop_lookaround (backtrack : list BacktrackEntry) : option (State * list BacktrackEntry) :=
  match backtrack with
  | [] => None
  | LookaroundEntry outer _ :: backtrack => Some (outer, backtrack)
  | Alternative _ :: backtrack => pop_lookaround backtrack
  end.

Definition recover_or_restore_terminal_repeat (state : State) (backtrack : list BacktrackEntry) : option (State * list BacktrackEntry) :=
  match terminal state with
  | Some t =>
      if (pc state =? terminal_body t)%nat then
        match repeats state !! terminal_slot t with
        | Some r =>
            let repeats := <[terminal_slot t := mkRepeat false (repeat_number r) (iteration_start r) (optional_attempted r)]> (repeats state) in
            Some (set_terminal (set_repeats (set_pc state (terminal_exit t)) repeats) None, backtrack)
        | None => restore backtrack
        end
      else restore backtrack
  | None => restore backtrack
  end.

Definition clear_terminal_repeat (state : State) (slot : nat) : State :=
  match terminal state with
  | Some t => if (terminal_slot t =? slot)%nat then set_terminal state None else state
  | None => state
  end.

Definition start_iteration {E} (state : State) (slot body capture_start capture_end : nat) : outcome E State :=
  captures ← (if (capture_start <? capture_end)%nat then fill (captures state) capture_start capture_end empty_capture else Ok (captures state));
  r ← expect (repeats state !! slot);
  let repeats := <[slot := mkRepeat (active r) (repeat_number r) (Some (position state)) (optional_attempted r)]> (repeats state) in
  Ok (set_pc (set_repeats (set_captures state captures) repeats) body).

Definition is_token (instruction : option Instruction) : bool :=
  match instruction with Some (Character _ _ | Dot _ | Class _ _) => true | _ => false end.

Definition terminal_repeat (program : Program) (slot body exit capture_start capture_end : nat) : option TerminalRepeat :=
  if negb (capture_start =? capture_end)%nat || negb (is_token (instructions program !! body))
     || negb (match instructions program !! S body with Some (RepeatEnd _ _) => true | _ => false end) then None else
  match instructions program !! exit with
  | Some (Boundary End_ mode) =>
      if multiline mode
         || negb (match instructions program !! S exit with Some (SaveEnd 0) => true | _ => false end)
         || negb (match instructions program !! S (S exit) with Some MatchInstruction => true | _ => false end) then None
      else Some (mkTerminal slot body exit)
  | _ => None
  end.

(** What one turn of the loop of [run_candidate] does: go on, or return. *)
Inductive Next : Set :=
| Continue (state : State) (backtrack : list BacktrackEntry)
| Return (found : option Match).

(** [if !restore(..) { return Ok(None); } continue] *)
Definition resume (restored : option (State * list BacktrackEntry)) : Next :=
  match restored with Some (state, backtrack) => Continue state backtrack | None => Return None end.

Section with_data.
Context `{UnicodeData}.
(** The function that recognizes terminal repeats; [terminal_repeat program] in
    the code. *)
Context (recognize : nat → nat → nat → nat → nat → option TerminalRepeat).
Context (program : Program) (input : list Z) (limits : ExecLimits).

Definition push (backtrack : list BacktrackEntry) (entry : BacktrackEntry) : outcome ExecError (list BacktrackEntry) :=
  if max_backtrack_states limits <=? len backtrack then Err (Fail BacktrackLimit) else Ok (entry :: backtrack).

Fixpoint push_all (backtrack : list BacktrackEntry) (states : list State) : outcome ExecError (list BacktrackEntry) :=
  match states with
  | [] => Ok backtrack
  | state :: states => backtrack ← push backtrack (Alternative state); push_all backtrack states
  end.

(** The [Repeat] instruction, from a slot that is active. *)
Definition step_repeat (state : State) (backtrack : list BacktrackEntry) (slot : nat) (min : Z) (max : option Z) (greedy : bool)
    (body exit capture_start capture_end : nat) : outcome ExecError Next :=
  repeated ← expect (repeats state !! slot);
  let inactive := <[slot := mkRepeat false (repeat_number repeated) (iteration_start repeated) (optional_attempted repeated)]> (repeats state) in
  let made_no_progress := (0 <? repeat_number repeated) && bool_decide (iteration_start repeated = Some (position state)) in
  let reached_max := match max with Some maximum => maximum <=? repeat_number repeated | None => false end in
  if (min <=? repeat_number repeated) && made_no_progress then
    if optional_attempted repeated then Ok (resume (restore backtrack))
    else Ok (Continue (set_pc (clear_terminal_repeat (set_repeats state inactive) slot) exit) backtrack)
  else if reached_max then Ok (Continue (set_pc (clear_terminal_repeat (set_repeats state inactive) slot) exit) backtrack)
  else if repeat_number repeated <? min then
    state ← start_iteration state slot body capture_start capture_end; Ok (Continue state backtrack)
  else
    let attempted := <[slot := mkRepeat (active repeated) (repeat_number repeated) (iteration_start repeated) true]> (repeats state) in
    body_state ← start_iteration (set_repeats state attempted) slot body capture_start capture_end;
    let exit_state := set_pc (set_repeats state inactive) exit in
    if greedy then
      match recognize slot body exit capture_start capture_end with
      | Some terminal => Ok (Continue (set_terminal body_state (Some terminal)) backtrack)
      | None => backtrack ← push backtrack (Alternative exit_state); Ok (Continue body_state backtrack)
      end
    else backtrack ← push backtrack (Alternative body_state); Ok (Continue exit_state backtrack).

Definition step (state : State) (backtrack : list BacktrackEntry) : outcome ExecError Next :=
  match instructions program !! pc state with
  | None => Ok (Return None)
  | Some (Character value mode) =>
      decoded ← decode_in_direction input (position state) (unicode mode) (direction state);
      match decoded with
      | None => Ok (resume (recover_or_restore_terminal_repeat state backtrack))
      | Some (actual, next) =>
          if negb (same_character actual value mode) then Ok (resume (recover_or_restore_terminal_repeat state backtrack))
          else Ok (Continue (move state next) backtrack)
      end
  | Some (Dot mode) =>
      decoded ← decode_in_direction input (position state) (unicode mode) (direction state);
      match decoded with
      | None => Ok (resume (recover_or_restore_terminal_repeat state backtrack))
      | Some (actual, next) =>
          if negb (dot_all mode) && is_line_terminator actual then Ok (resume (recover_or_restore_terminal_repeat state backtrack))
          else Ok (Continue (move state next) backtrack)
      end
  | Some (Class class mode) =>
      positions ← class_match_positions class input (position state) mode (direction state);
      match positions with
      | [] => Ok (resume (recover_or_restore_terminal_repeat state backtrack))
      | next :: alternatives =>
          backtrack ← push_all backtrack (move state <$> rev alternatives);
          Ok (Continue (move state next) backtrack)
      end
  | Some (Boundary kind mode) =>
      matched ← boundary_matches kind input (position state) mode;
      if negb matched then Ok (resume (restore backtrack)) else Ok (Continue (set_pc state (S (pc state))) backtrack)
  | Some (SaveStart index) =>
      capture ← expect (captures state !! index);
      captures ← write (captures state) index
        (mkCapture (Some (position state)) (if bool_decide (direction state = Forward) then None else capture_to capture));
      Ok (Continue (set_pc (set_captures state captures) (S (pc state))) backtrack)
  | Some (SaveEnd index) =>
      capture ← expect (captures state !! index);
      captures ← write (captures state) index
        (mkCapture (if bool_decide (direction state = Backward) then None
                    else Some (default (position state) (capture_from capture))) (Some (position state)));
      Ok (Continue (set_pc (set_captures state captures) (S (pc state))) backtrack)
  | Some (BackReference indices mode) =>
      match head (omap (λ index, captures state !! index ≫= range) indices) with
      | None => Ok (Continue (set_pc state (S (pc state))) backtrack)
      | Some found =>
          matched ← match_back_reference input (position state) found mode (direction state);
          match matched with
          | None => Ok (resume (restore backtrack))
          | Some next => Ok (Continue (move state next) backtrack)
          end
      end
  | Some (Split first second) =>
      backtrack ← push backtrack (Alternative (set_pc state second)); Ok (Continue (set_pc state first) backtrack)
  | Some (Lookaround kind body exit) =>
      backtrack ← push backtrack (LookaroundEntry (set_pc state exit) kind);
      Ok (Continue (set_direction (set_pc state body) (LookaroundKind.direction kind)) backtrack)
  | Some (LookaroundAccept kind) =>
      match pop_lookaround backtrack with
      | None => Ok (Return None)
      | Some (outer, backtrack) =>
          if LookaroundKind.negative kind then Ok (resume (restore backtrack))
          else Ok (Continue (set_captures outer (captures state)) backtrack)
      end
  | Some (Jump target) => Ok (Continue (set_pc state target) backtrack)
  | Some (Repeat slot min max greedy body exit capture_start capture_end) =>
      r ← expect (repeats state !! slot);
      let state := if active r then state else set_repeats state (<[slot := mkRepeat true 0 None false]> (repeats state)) in
      step_repeat state backtrack slot min max greedy body exit capture_start capture_end
  | Some (RepeatEnd slot head) =>
      r ← expect (repeats state !! slot);
      let repeats := <[slot := mkRepeat (active r) (saturating_add_u64 (repeat_number r) 1) (iteration_start r) (optional_attempted r)]> (repeats state) in
      Ok (Continue (set_pc (set_repeats state repeats) head) backtrack)
  | Some MatchInstruction => Ok (Return (Some (range <$> captures state)))
  end.

(** The loops, with the steps taken so far.  Every turn takes a step, so
    [max_steps - steps] turns suffice. *)
Fixpoint run_loop (fuel : nat) (steps : Z) (state : State) (backtrack : list BacktrackEntry) : outcome ExecError (option Match) * Z :=
  match fuel with
  | O => (Err OutOfFuel, steps)
  | S fuel =>
      if max_steps limits <=? steps then (Err (Fail StepLimit), steps) else
      match step state backtrack with
      | Err e => (Err e, steps + 1)
      | Ok (Return found) => (Ok found, steps + 1)
      | Ok (Continue state backtrack) => run_loop fuel (steps + 1) state backtrack
      end
  end.

Definition initial (candidate : nat) : State :=
  mkState 0 candidate (replicate (capture_count program) empty_capture) (replicate (repeat_count program) idle_repeat) None Forward.

Definition run_candidate (candidate : nat) (steps : Z) : outcome ExecError (option Match) * Z :=
  run_loop (S (Z.to_nat (max_steps limits - steps))) steps (initial candidate) [].

Fixpoint execute_loop (fuel : nat) (candidate : nat) (steps : Z) : outcome ExecError (option Match) * Z :=
  match fuel with
  | O => (Err OutOfFuel, steps)
  | S fuel =>
      if max_steps limits <=? steps then (Err (Fail StepLimit), steps) else
      match run_candidate candidate (steps + 1) with
      | (Err e, steps) => (Err e, steps)
      | (Ok (Some found), steps) => (Ok (Some found), steps)
      | (Ok None, steps) =>
          if sticky (flags program) || (candidate =? length input)%nat then (Ok None, steps)
          else execute_loop fuel (advance_index input candidate (RegExpFlags.unicode_mode (flags program))) steps
      end
  end.

(** [execute_counted], which starts at no steps and returns their number. *)
Definition execute_with (start_index : nat) : outcome ExecError (option Match) * Z :=
  if (length input <? start_index)%nat then (Ok None, 0)
  else execute_loop (S (Z.to_nat (max_steps limits))) start_index 0.
End with_data.

Definition execute `{UnicodeData} (program : Program) (input : list Z) (start_index : nat) (limits : ExecLimits) :
    outcome ExecError (option Match) * Z :=
  execute_with (terminal_repeat program) program input limits start_index.
