(* ===== verification/RegExpFacts.v ===== *)
(** * The executor never goes wrong

    For every program whose instructions name existing captures and repeats, the
    executor of [RegExp.v] neither panics nor loops: it answers, or reports that
    a limit is reached, and what it captures lies in the input. *)

From S2P Require Import Prelude RuntimePrelude RegExp.
From stdpp Require Import list.
Local Open Scope Z_scope.

(** ** Reading the input *)

Lemma decode_at_bound input p u c n : decode_at input p u = Some (c, n) → (p < n ≤ length input)%nat.
Proof.
  unfold decode_at. destruct (input !! p) as [first|] eqn:E1; [|done]. simpl. apply lookup_lt_Some in E1.
  destruct (input !! S p) as [second|] eqn:E2; [apply lookup_lt_Some in E2|]; repeat case_match; intros [= <- <-]; lia.
Qed.

Lemma decode_at_end input p u : (length input ≤ p)%nat → decode_at input p u = None.
Proof. intros Hp. unfold decode_at. by rewrite (lookup_ge_None_2 input p Hp). Qed.

Lemma decode_before_ok {E} input p u : (p ≤ length input)%nat →
  ∃ o, decode_before (E := E) input p u = Ok o ∧ ∀ c n, o = Some (c, n) → (n < p)%nat.
Proof.
  intros Hp. destruct p as [|q]; simpl; [by eexists|]. destruct (lookup_lt_is_Some_2 input q) as [last Hl]; [lia|]. rewrite Hl. simpl.
  destruct (u && is_low_surrogate last && (0 <? q)%nat) eqn:Eu; [|eexists; split; [done|]; intros c n [= <- <-]; lia].
  apply andb_true_iff in Eu as [_ Hq%Nat.ltb_lt]. destruct (lookup_lt_is_Some_2 input (q - 1)) as [first Hf]; [lia|]. rewrite Hf. simpl.
  case_match; eexists; (split; [done|]); intros c n [= <- <-]; lia.
Qed.

Lemma decode_ok {E} input p u d : (p ≤ length input)%nat →
  ∃ o, decode_in_direction (E := E) input p u d = Ok o
    ∧ ∀ c n, o = Some (c, n) → match d with Forward => (p < n ≤ length input)%nat | Backward => (n < p)%nat end.
Proof.
  intros Hp. destruct d; simpl; [|by apply decode_before_ok]. eexists. split; [done|]. intros c n Hd. by apply decode_at_bound in Hd.
Qed.

(** The position stays in the input. *)
Lemma decode_inside {E} input p u d : (p ≤ length input)%nat →
  ∃ o, decode_in_direction (E := E) input p u d = Ok o ∧ ∀ c n, o = Some (c, n) → (n ≤ length input)%nat.
Proof. intros Hp. destruct (decode_ok (E := E) input p u d Hp) as (o & -> & Ho). eexists. split; [done|]. intros c n Hn. specialize (Ho c n Hn). destruct d; lia. Qed.

Section with_data.
Context `{UnicodeData}.

Lemma match_string_ok {E} input value mode d : ∀ p, (p ≤ length input)%nat →
  ∃ o, match_string (E := E) input p value mode d = Ok o ∧ ∀ n, o = Some n → (n ≤ length input)%nat.
Proof.
  induction value as [|c value IH]; intros p Hp; simpl; [eexists; split; [done|]; by intros n [= <-]|].
  destruct (decode_inside (E := E) input p (unicode mode) d Hp) as (o & -> & Ho). simpl. destruct o as [[a n]|]; [|by eexists].
  case_match; [by eexists|]. apply IH. by eapply Ho.
Qed.

Lemma prefixes_ok {E} input u d max : ∀ value p, (p ≤ length input)%nat →
  ∃ l, directional_prefixes (E := E) max input value p u d = Ok l ∧ Forall (λ e, (e.2 ≤ length input)%nat) l.
Proof.
  induction max as [|max IH]; intros value p Hp; simpl; [by eexists|].
  destruct (decode_inside (E := E) input p u d Hp) as (o & -> & Ho). simpl. destruct o as [[a n]|]; [|by eexists].
  assert (n ≤ length input)%nat as Hn by (by eapply Ho).
  destruct (IH (match d with Forward => value ++ [a] | Backward => a :: value end) n Hn) as (l & -> & Hl). simpl. eexists. split; [done|]. by constructor.
Qed.

Lemma push_new_inside bound l n : Forall (λ p, p ≤ bound)%nat l → (n ≤ bound)%nat → Forall (λ p, p ≤ bound)%nat (push_new l n).
Proof. intros Hl Hn. unfold push_new. case_bool_decide; [done|]. apply Forall_app. by repeat constructor. Qed.

Lemma string_positions_ok {E} class input p mode d l : (p ≤ length input)%nat → ∀ acc, Forall (λ p, p ≤ length input)%nat acc →
  ∃ r, string_positions (E := E) class l input p mode d acc = Ok r ∧ Forall (λ p, p ≤ length input)%nat r.
Proof.
  intros Hp. induction l as [|value l IH]; intros acc Hacc; simpl; [by eexists|]. case_match; [by apply IH|].
  unfold match_class_string. edestruct (match_string_ok (E := E) input) as (o & -> & Ho); [done|]. simpl. apply IH.
  destruct o as [n|]; [|done]. apply push_new_inside; [done|by apply Ho].
Qed.

Lemma dynamic_inside class bound dynamic mode l : Forall (λ e, (e.2 ≤ bound)%nat) dynamic → Forall (λ p, p ≤ bound)%nat l →
  Forall (λ p, p ≤ bound)%nat (dynamic_positions class dynamic mode l).
Proof.
  intros Hd. unfold dynamic_positions. assert (Forall (λ e : list Z * nat, (e.2 ≤ bound)%nat) (rev dynamic)) as Hr.
  { apply Forall_rev. done. }
  revert l. induction Hr as [|[v n] r Hn _ IH]; intros l Hl; simpl; [done|]. apply IH. case_match; [|done]. by apply push_new_inside.
Qed.

Lemma class_positions_ok {E} class input p mode d : (p ≤ length input)%nat →
  ∃ r, class_match_positions (E := E) class input p mode d = Ok r ∧ Forall (λ p, p ≤ length input)%nat r.
Proof.
  intros Hp. unfold class_match_positions.
  destruct (string_positions_ok (E := E) class input p mode d (strings class) Hp [] ltac:(constructor)) as (r & -> & Hr). cbn [mbind result_bind].
  assert (∃ r', (if has_string_properties class then dynamic ← directional_prefixes (E := E) 16 input [] p (unicode mode) d;
      Ok (dynamic_positions class dynamic mode r) else Ok r) = Ok r' ∧ Forall (λ p, p ≤ length input)%nat r') as (r' & -> & Hr').
  { destruct (has_string_properties class); [|by eexists]. destruct (prefixes_ok (E := E) input (unicode mode) d 16 [] p Hp) as (l & -> & Hl).
    cbn [mbind result_bind]. eexists. split; [done|]. by apply dynamic_inside. }
  cbn [mbind result_bind]. destruct (decode_inside (E := E) input p (unicode mode) d Hp) as (o & -> & Ho). cbn [mbind result_bind].
  destruct o as [[c n]|]; [|by eexists]. case_match; [|by eexists]. eexists. split; [done|]. apply push_new_inside; [done|]. by eapply Ho.
Qed.

(** What holds of every position: of the ends of its strings, of the longer
    prefixes and of the next character. *)
Lemma class_positions_all {E} (Q : nat → Prop) class input p mode d l :
  (∀ value n, value ∈ strings class → match_class_string (E := E) input p value mode d = Ok (Some n) → Q n) →
  (∀ dynamic, directional_prefixes (E := E) 16 input [] p (unicode mode) d = Ok dynamic → Forall (λ e, Q e.2) dynamic) →
  (∀ c n, decode_in_direction (E := E) input p (unicode mode) d = Ok (Some (c, n)) → Q n) →
  class_match_positions (E := E) class input p mode d = Ok l → Forall Q l.
Proof.
  intros Hstrings Hprefixes Hnext. unfold class_match_positions.
  assert (∀ acc n, Forall Q acc → Q n → Forall Q (push_new acc n)) as Hpush.
  { intros acc n Ha Hn. unfold push_new. case_bool_decide; [done|]. apply Forall_app. by repeat constructor. }
  assert (∀ strs acc r, (∀ value, value ∈ strs → value ∈ strings class) → Forall Q acc → string_positions (E := E) class strs input p mode d acc = Ok r → Forall Q r) as Hstr.
  { induction strs as [|value strs IH]; intros acc r Hsub Hacc Er; cbn [string_positions] in Er; [by injection Er as <-|].
    assert (∀ value, value ∈ strs → value ∈ strings class) as Hsub' by (intros v Hv; apply Hsub, elem_of_cons; auto). destruct (_ || _); [by eapply IH|].
    destruct (match_class_string input p value mode d) as [o|] eqn:Em; [|done]. cbn [mbind result_bind] in Er. eapply IH; [done| |exact Er].
    destruct o as [n|]; [|done]. apply Hpush; [done|]. eapply Hstrings; [|exact Em]. apply Hsub, elem_of_cons. auto. }
  destruct (string_positions class (strings class) input p mode d []) as [r|] eqn:Es; [|done]. apply Hstr in Es; [|done|constructor]. cbn [mbind result_bind].
  assert (∀ r', (if has_string_properties class then dynamic ← directional_prefixes (E := E) 16 input [] p (unicode mode) d;
      Ok (dynamic_positions class dynamic mode r) else Ok r) = Ok r' → Forall Q r') as Hdyn.
  { intros r'. destruct (has_string_properties class); [|by intros [= <-]]. destruct (directional_prefixes 16 input [] p (unicode mode) d) as [dy|] eqn:Ed; [|done].
    intros [= <-]. specialize (Hprefixes dy eq_refl). apply Forall_rev in Hprefixes. unfold dynamic_positions. clear -Hprefixes Es Hpush. revert r Es.
    induction Hprefixes as [|[v n] d' Hn _ IH]; intros r Es; cbn [foldl]; [done|]. apply IH. case_match; [by apply Hpush|done]. }
  destruct (if has_string_properties class then _ else _) as [r'|]; [|done]. specialize (Hdyn r' eq_refl). cbn [mbind result_bind].
  destruct (decode_in_direction input p (unicode mode) d) as [[[c n]|]|]; [| |done]; cbn [mbind result_bind]; [|by intros [= <-]].
  destruct (class_matches _ _ _); intros [= <-]; [|done]. apply Hpush; [done|by eapply Hnext].
Qed.

Lemma boundary_ok {E} kind input p mode : (p ≤ length input)%nat → ∃ b, boundary_matches (E := E) kind input p mode = Ok b.
Proof.
  intros Hp. unfold boundary_matches. destruct (decode_before_ok (E := E) input p (unicode mode) Hp) as (o & -> & _).
  destruct kind; cbn [mbind result_bind]; [|by eexists..]. destruct (p =? 0)%nat; [by eexists|]. destruct (negb (multiline mode)); by eexists.
Qed.

Lemma back_loop_ok {E} input mode d fuel : ∀ p first last, (p ≤ length input)%nat → (last ≤ length input)%nat → (last - first ≤ fuel)%nat →
  ∃ o, match_back_loop (E := E) fuel input p first last mode d = Ok o ∧ ∀ n, o = Some n → (n ≤ length input)%nat.
Proof.
  induction fuel as [|fuel IH]; intros p first last Hp Hl Hf; cbn [match_back_loop]; destruct (Nat.leb_spec last first);
    try (eexists; split; [done|]; by intros n [= <-]); [lia|].
  destruct (decode_ok (E := E) input (match d with Forward => first | Backward => last end) (unicode mode) d) as (o & -> & Ho); [destruct d; lia|].
  cbn [mbind result_bind]. destruct o as [[c next]|]; [|by eexists]. specialize (Ho c next eq_refl).
  match goal with |- context [if ?b then Ok None else _] => destruct b eqn:Eover end; [by eexists|].
  destruct (decode_inside (E := E) input p (unicode mode) d Hp) as (o & -> & Hn). cbn [mbind result_bind]. destruct o as [[a n]|]; [|by eexists].
  specialize (Hn a n eq_refl). destruct (negb _); [by eexists|].
  destruct d; [apply Nat.ltb_ge in Eover|apply Nat.ltb_ge in Eover]; apply IH; lia.
Qed.
End with_data.

(** ** What one instruction does *)

Inductive Effect : Set :=
| Fails
| Goes (s : State)
(** The first of the states that does not fail. *)
| Tries (l : list State)
| Looks (kind : LookaroundKind) (body outer : State)
| Accepts (negative : bool) (c : list CaptureSlot)
| Ends (o : option (list (option (nat * nat)))).

(** The state a failed token goes to when its repeat is committed. *)
Definition recovered (s : State) : option State :=
  t ← terminal s;
  if (pc s =? terminal_body t)%nat then
    r ← repeats s !! terminal_slot t;
    let repeats := <[terminal_slot t := mkRepeat false (repeat_number r) (iteration_start r) (optional_attempted r)]> (repeats s) in
    Some (set_terminal (set_repeats (set_pc s (terminal_exit t)) repeats) None)
  else None.

Definition token_failure (s : State) : Effect := match recovered s with Some s' => Goes s' | None => Fails end.

Section effects.
Context `{UnicodeData} (recognize : nat → nat → nat → nat → nat → option TerminalRepeat) (program : Program) (input : list Z).

Definition repeat_effect (s : State) (slot : nat) (min : Z) (max : option Z) (greedy : bool)
    (body exit capture_start capture_end : nat) : outcome ExecError Effect :=
  repeated ← expect (repeats s !! slot);
  let inactive := <[slot := mkRepeat false (repeat_number repeated) (iteration_start repeated) (optional_attempted repeated)]> (repeats s) in
  let leave := set_pc (clear_terminal_repeat (set_repeats s inactive) slot) exit in
  if (min <=? repeat_number repeated) && ((0 <? repeat_number repeated) && bool_decide (iteration_start repeated = Some (position s))) then
    if optional_attempted repeated then Ok Fails else Ok (Goes leave)
  else if match max with Some maximum => maximum <=? repeat_number repeated | None => false end then Ok (Goes leave)
  else if repeat_number repeated <? min then s ← start_iteration s slot body capture_start capture_end; Ok (Goes s)
  else
    let attempted := <[slot := mkRepeat (active repeated) (repeat_number repeated) (iteration_start repeated) true]> (repeats s) in
    body_state ← start_iteration (set_repeats s attempted) slot body capture_start capture_end;
    let exit_state := set_pc (set_repeats s inactive) exit in
    if greedy then
      match recognize slot body exit capture_start capture_end with
      | Some terminal => Ok (Goes (set_terminal body_state (Some terminal)))
      | None => Ok (Tries [body_state; exit_state])
      end
    else Ok (Tries [exit_state; body_state]).

Definition effect (s : State) : outcome ExecError Effect :=
  match instructions program !! pc s with
  | None => Ok (Ends None)
  | Some (Character value mode) =>
      decoded ← decode_in_direction input (position s) (unicode mode) (direction s);
      match decoded with
      | Some (actual, next) => Ok (if same_character actual value mode then Goes (move s next) else token_failure s)
      | None => Ok (token_failure s)
      end
  | Some (Dot mode) =>
      decoded ← decode_in_direction input (position s) (unicode mode) (direction s);
      match decoded with
      | Some (actual, next) => Ok (if dot_all mode || negb (is_line_terminator actual) then Goes (move s next) else token_failure s)
      | None => Ok (token_failure s)
      end
  | Some (Class class mode) =>
      positions ← class_match_positions class input (position s) mode (direction s);
      Ok (match positions with [] => token_failure s | _ => Tries (move s <$> positions) end)
  | Some (Boundary kind mode) =>
      matched ← boundary_matches kind input (position s) mode;
      Ok (if matched : bool then Goes (set_pc s (S (pc s))) else Fails)
  | Some (SaveStart index) =>
      capture ← expect (captures s !! index);
      captures ← write (captures s) index
        (mkCapture (Some (position s)) (if bool_decide (direction s = Forward) then None else capture_to capture));
      Ok (Goes (set_pc (set_captures s captures) (S (pc s))))
  | Some (SaveEnd index) =>
      capture ← expect (captures s !! index);
      captures ← write (captures s) index
        (mkCapture (if bool_decide (direction s = Backward) then None
                    else Some (default (position s) (capture_from capture))) (Some (position s)));
      Ok (Goes (set_pc (set_captures s captures) (S (pc s))))
  | Some (BackReference indices mode) =>
      match list.head (omap (λ index, captures s !! index ≫= range) indices) with
      | None => Ok (Goes (set_pc s (S (pc s))))
      | Some found =>
          matched ← match_back_reference input (position s) found mode (direction s);
          Ok (match matched with Some next => Goes (move s next) | None => Fails end)
      end
  | Some (Split first second) => Ok (Tries [set_pc s first; set_pc s second])
  | Some (Lookaround kind body exit) =>
      Ok (Looks kind (set_direction (set_pc s body) (LookaroundKind.direction kind)) (set_pc s exit))
  | Some (LookaroundAccept kind) => Ok (Accepts (LookaroundKind.negative kind) (captures s))
  | Some (Jump target) => Ok (Goes (set_pc s target))
  | Some (Repeat slot min max greedy body exit capture_start capture_end) =>
      r ← expect (repeats s !! slot);
      repeat_effect (if active r then s else set_repeats s (<[slot := mkRepeat true 0 None false]> (repeats s)))
        slot min max greedy body exit capture_start capture_end
  | Some (RepeatEnd slot head) =>
      r ← expect (repeats s !! slot);
      Ok (Goes (set_pc (set_repeats s
        (<[slot := mkRepeat (active r) (saturating_add_u64 (repeat_number r) 1) (iteration_start r) (optional_attempted r)]> (repeats s))) head))
  | Some MatchInstruction => Ok (Ends (Some (range <$> captures s)))
  end.
End effects.

(** ** The machine performs the effects *)

Lemma fmap_rev {A B} (f : A → B) (l : list A) : f <$> rev l = rev (f <$> l).
Proof. induction l as [|a l IH]; [done|]. cbn [rev fmap list_fmap]. by rewrite fmap_app, IH. Qed.

Section perform.
Context `{UnicodeData} (recognize : nat → nat → nat → nat → nat → option TerminalRepeat) (program : Program) (input : list Z) (limits : ExecLimits).
Notation step := (step recognize program input limits).

Definition perform (e : Effect) (b : list BacktrackEntry) : outcome ExecError Next :=
  match e with
  | Fails | Tries [] => Ok (resume (restore b))
  | Goes s => Ok (Continue s b)
  | Tries (s :: l) => b ← push_all limits b (rev l); Ok (Continue s b)
  | Looks kind body outer => b ← push limits b (LookaroundEntry outer kind); Ok (Continue body b)
  | Accepts negative c =>
      match pop_lookaround b with
      | None => Ok (Return None)
      | Some (outer, b) => if negative : bool then Ok (resume (restore b)) else Ok (Continue (set_captures outer c) b)
      end
  | Ends o => Ok (Return o)
  end.

Lemma recover_recovered s b : recover_or_restore_terminal_repeat s b = match recovered s with Some s' => Some (s', b) | None => restore b end.
Proof.
  unfold recover_or_restore_terminal_repeat, recovered. destruct (terminal s) as [t|]; [|done]. cbn [mbind option_bind].
  destruct (pc s =? terminal_body t)%nat; [|done]. by destruct (repeats s !! terminal_slot t).
Qed.

Lemma token_failure_perform s b : Ok (resume (recover_or_restore_terminal_repeat s b)) = perform (token_failure s) b.
Proof. rewrite recover_recovered. unfold token_failure. by destruct (recovered s). Qed.

Lemma push_all_one b s (k : list BacktrackEntry → outcome ExecError Next) :
  (push limits b (Alternative s) ≫= k) = (push_all limits b [s] ≫= k).
Proof. simpl. by destruct (push limits b (Alternative s)). Qed.

Lemma step_repeat_effect s b slot min max greedy body exit first last :
  step_repeat recognize limits s b slot min max greedy body exit first last
  = (e ← repeat_effect recognize s slot min max greedy body exit first last; perform e b).
Proof.
  unfold step_repeat, repeat_effect. destruct (repeats s !! slot) as [r|]; [|done]. cbn [expect ok_or mbind result_bind].
  destruct (_ && _); [by destruct (optional_attempted r)|].
  destruct (match max with Some maximum => maximum <=? repeat_number r | None => false end); [done|].
  destruct (repeat_number r <? min); [by destruct (start_iteration s slot body first last)|].
  destruct (start_iteration _ slot body first last); [|done]. cbn [mbind result_bind].
  destruct greedy; [|apply push_all_one]. destruct (recognize slot body exit first last); [done|apply push_all_one].
Qed.

Lemma step_effect s b : step s b = (e ← effect recognize program input s; perform e b).
Proof.
  unfold RegExp.step, effect. destruct (instructions program !! pc s) as [i|]; [|done]. destruct i.
  - destruct (decode_in_direction _ _ _ _) as [[[a n]|]|]; cbn [mbind result_bind]; try done; rewrite token_failure_perform; [|done]. by destruct (same_character _ _ _).
  - destruct (decode_in_direction _ _ _ _) as [[[a n]|]|]; cbn [mbind result_bind]; try done; rewrite token_failure_perform; [|done].
    by destruct (dot_all mode), (is_line_terminator a).
  - destruct (class_match_positions _ _ _ _ _) as [[|n l]|]; cbn [mbind result_bind]; try done; [apply token_failure_perform|].
    cbn [perform fmap list_fmap]. by rewrite fmap_rev.
  - destruct (boundary_matches _ _ _ _) as [[]|]; done.
  - destruct (captures s !! index) as [c|]; [|done]. cbn [expect ok_or mbind result_bind]. by destruct (write _ _ _).
  - destruct (captures s !! index) as [c|]; [|done]. cbn [expect ok_or mbind result_bind]. by destruct (write _ _ _).
  - destruct (list.head _) as [found|]; [|done]. destruct (match_back_reference _ _ _ _ _) as [[n|]|]; done.
  - done.
  - done.
  - apply push_all_one.
  - done.
  - destruct (repeats s !! slot) as [r|]; [|done]. cbn [expect ok_or mbind result_bind]. apply step_repeat_effect.
  - by destruct (repeats s !! slot).
  - done.
Qed.
End perform.

(** ** Safety *)

Definition instruction_ok (program : Program) (i : Instruction) : Prop :=
  match i with
  | SaveStart index | SaveEnd index => (index < capture_count program)%nat
  | Repeat slot _ _ _ _ _ first last => (slot < repeat_count program)%nat ∧ (last ≤ capture_count program)%nat
  | RepeatEnd slot _ => (slot < repeat_count program)%nat
  | _ => True
  end.
#[export] Instance instruction_ok_dec program i : Decision (instruction_ok program i).
Proof. destruct i; simpl; apply _. Defined.

Definition program_ok (program : Program) : Prop := Forall (instruction_ok program) (instructions program).

Section safety.
Context `{UnicodeData} (program : Program) (input : list Z).

Definition capture_ok (c : CaptureSlot) : Prop :=
  ∀ p, capture_from c = Some p ∨ capture_to c = Some p → (p ≤ length input)%nat.

Record state_ok (s : State) : Prop := mkStateOk {
  ok_position : (position s ≤ length input)%nat;
  ok_captures : length (captures s) = capture_count program;
  ok_capture : Forall capture_ok (captures s);
  ok_repeats : length (repeats s) = repeat_count program
}.

Definition entry_ok (e : BacktrackEntry) : Prop :=
  match e with Alternative s => state_ok s | LookaroundEntry s _ => state_ok s end.
Notation stack_ok := (Forall entry_ok).

(** What a result may hold. *)
Definition match_ok (m : list (option (nat * nat))) : Prop :=
  length m = capture_count program ∧ Forall (λ o, ∀ a b, o = Some (a, b) → (a ≤ length input)%nat ∧ (b ≤ length input)%nat) m.

Definition next_ok (n : Next) : Prop :=
  match n with
  | Continue s b => state_ok s ∧ stack_ok b
  | Return None => True
  | Return (Some m) => match_ok m
  end.

Lemma empty_capture_ok : capture_ok empty_capture.
Proof. intros p [|]; done. Qed.

(** Updates keep the invariant. *)
Lemma set_pc_ok s n : state_ok s → state_ok (set_pc s n). Proof. by intros []. Qed.
Lemma move_ok s n : state_ok s → (n ≤ length input)%nat → state_ok (move s n). Proof. by intros [] ?. Qed.
Lemma set_direction_ok s d : state_ok s → state_ok (set_direction s d). Proof. by intros []. Qed.
Lemma set_terminal_ok s t : state_ok s → state_ok (set_terminal s t). Proof. by intros []. Qed.
Lemma set_repeats_ok s i r : state_ok s → state_ok (set_repeats s (<[i := r]> (repeats s))).
Proof. intros []. split; simpl; try done. by rewrite length_insert. Qed.
Lemma set_captures_ok s s' : state_ok s → state_ok s' → state_ok (set_captures s (captures s')).
Proof. by intros [] []. Qed.
Lemma write_capture_ok s i c : state_ok s → capture_ok c → (i < capture_count program)%nat →
  ∃ l, write (E := ExecError) (captures s) i c = Ok l ∧ state_ok (set_captures s l).
Proof.
  intros [] Hc Hi. unfold write. rewrite (proj2 (Nat.ltb_lt _ _)) by lia. eexists. split; [done|].
  split; simpl; try done; [by rewrite length_insert|by apply Forall_insert].
Qed.
Lemma clear_terminal_ok s i : state_ok s → state_ok (clear_terminal_repeat s i).
Proof. intros Hs. unfold clear_terminal_repeat. repeat case_match; [by apply set_terminal_ok|done|done]. Qed.
Lemma fill_ok s first last : state_ok s → (first < last)%nat → (last ≤ capture_count program)%nat →
  ∃ l, fill (E := ExecError) (captures s) first last empty_capture = Ok l ∧ state_ok (set_captures s l).
Proof.
  intros [] Hf Hl. unfold fill. rewrite (proj2 (Nat.leb_le _ _)) by lia. eexists. split; [done|]. split; simpl; try done.
  - rewrite !length_app, length_take, length_replicate, length_drop. lia.
  - apply Forall_app. split; [by apply Forall_take|]. apply Forall_app. split; [apply Forall_replicate, empty_capture_ok|by apply Forall_drop].
Qed.
#[local] Hint Resolve set_pc_ok move_ok set_direction_ok set_terminal_ok set_repeats_ok set_captures_ok clear_terminal_ok : core.

Lemma restore_ok b : stack_ok b → next_ok (resume (restore b)).
Proof.
  induction 1 as [|e b He Hb IH]; simpl; [done|]. destruct e as [s|s kind]; simpl; [done|]. destruct (LookaroundKind.negative kind); [done|exact IH].
Qed.

Lemma pop_ok b : stack_ok b → match pop_lookaround b with Some (s, b') => state_ok s ∧ stack_ok b' | None => True end.
Proof. induction 1 as [|e b He Hb IH]; simpl; [done|]. by destruct e. Qed.

Lemma recover_ok s b : state_ok s → stack_ok b → next_ok (resume (recover_or_restore_terminal_repeat s b)).
Proof.
  intros Hs Hb. unfold recover_or_restore_terminal_repeat. repeat case_match; try by apply restore_ok. simpl. split; [|done].
  apply set_terminal_ok. change (repeats s) with (repeats (set_pc s (terminal_exit t))). auto.
Qed.

Lemma start_iteration_ok s slot body first last : state_ok s → (slot < repeat_count program)%nat → (last ≤ capture_count program)%nat →
  ∃ s', start_iteration (E := ExecError) s slot body first last = Ok s' ∧ state_ok s'.
Proof.
  intros Hs Hslot Hl. unfold start_iteration.
  assert (∃ l, (if (first <? last)%nat then fill (E := ExecError) (captures s) first last empty_capture else Ok (captures s)) = Ok l
    ∧ state_ok (set_captures s l)) as (l & -> & Hc).
  { destruct (Nat.ltb_spec first last); [by apply fill_ok|]. eexists. split; [done|]. by apply set_captures_ok. }
  cbn [mbind result_bind]. destruct (lookup_lt_is_Some_2 (repeats s) slot) as [r Hr]; [rewrite (ok_repeats s Hs); done|]. rewrite Hr. cbn.
  eexists. split; [done|]. apply set_pc_ok. change (repeats s) with (repeats (set_captures s l)). auto.
Qed.

Lemma head_omap {A B} (f : A → option B) l x : list.head (omap f l) = Some x → ∃ a, f a = Some x.
Proof. induction l as [|a l IH]; simpl; [done|]. destruct (f a) eqn:E; [|done]. intros [= ->]. eauto. Qed.

(** A state that an effect names. *)
Definition successor (e : Effect) (s' : State) : Prop :=
  match e with
  | Goes s => s' = s
  | Tries l => s' ∈ l
  | Looks _ body outer => s' = body ∨ s' = outer
  | _ => False
  end.

Definition captures_ok (c : list CaptureSlot) : Prop := length c = capture_count program ∧ Forall capture_ok c.

Record effect_good (e : Effect) : Prop := mkGood {
  good_states : ∀ s', successor e s' → state_ok s';
  good_captures : ∀ b c, e = Accepts b c → captures_ok c;
  good_match : ∀ m, e = Ends (Some m) → match_ok m
}.

Lemma good_goes s : state_ok s → effect_good (Goes s).
Proof. intros Hs. split; [by intros ? ->|done..]. Qed.
Lemma good_fails : effect_good Fails.
Proof. done. Qed.
Lemma good_tries l : Forall state_ok l → effect_good (Tries l).
Proof. intros Hl. split; [|done..]. intros s' Hs'. rewrite Forall_forall in Hl. by apply Hl. Qed.
Lemma good_two s s' : state_ok s → state_ok s' → effect_good (Tries [s; s']).
Proof. intros Hs Hs'. apply good_tries. constructor; [done|]. by constructor. Qed.
#[local] Hint Resolve good_goes good_fails : core.

Lemma token_failure_good s : state_ok s → effect_good (token_failure s).
Proof.
  intros Hs. unfold token_failure. destruct (recovered s) as [s'|] eqn:E; [|done]. unfold recovered in E.
  destruct (terminal s) as [t|]; [|done]. cbn [mbind option_bind] in E. destruct (_ =? _)%nat; [|done]. destruct (repeats s !! terminal_slot t); [|done].
  injection E as <-. apply good_goes, set_terminal_ok. change (repeats s) with (repeats (set_pc s (terminal_exit t))). auto.
Qed.

Context (recognize : nat → nat → nat → nat → nat → option TerminalRepeat) (limits : ExecLimits).

Lemma repeat_effect_ok s slot min max greedy body exit first last : state_ok s →
  (slot < repeat_count program)%nat → (last ≤ capture_count program)%nat →
  ∃ e, repeat_effect recognize s slot min max greedy body exit first last = Ok e ∧ effect_good e.
Proof.
  intros Hs Hslot Hl. unfold repeat_effect. destruct (lookup_lt_is_Some_2 (repeats s) slot) as [r Hr]; [by rewrite (ok_repeats s Hs)|].
  rewrite Hr. cbn [expect ok_or mbind result_bind].
  assert (∀ r, state_ok (set_pc (clear_terminal_repeat (set_repeats s (<[slot := r]> (repeats s))) slot) exit)) as Hexit by auto.
  destruct (_ && _); [destruct (optional_attempted r); eauto 12|].
  destruct (match max with Some maximum => maximum <=? repeat_number r | None => false end); [eauto 12|].
  destruct (repeat_number r <? min).
  { destruct (start_iteration_ok s slot body first last Hs Hslot Hl) as (s' & -> & Hs'). cbn. eauto 12. }
  match goal with |- context [start_iteration ?t] => destruct (start_iteration_ok t slot body first last) as (s' & -> & Hs'); [auto|done|done|] end.
  cbn [mbind result_bind]. destruct greedy; [destruct (recognize slot body exit first last); [eauto 12|]|]; (eexists; split; [done|]); apply good_two; auto.
Qed.

Lemma effect_ok s : program_ok program → state_ok s → ∃ e, effect recognize program input s = Ok e ∧ effect_good e.
Proof.
  intros Hprog Hs. unfold effect. destruct (instructions program !! pc s) as [i|] eqn:Ei; [|by eexists].
  assert (instruction_ok program i) as Hi. { unfold program_ok in Hprog. rewrite Forall_forall in Hprog. by eapply Hprog, list_elem_of_lookup_2. }
  pose proof (ok_position s Hs) as Hp. pose proof (token_failure_good s Hs) as Hfail.
  assert (∀ c, captures s !! c = None → (capture_count program ≤ c)%nat) as Hnone.
  { intros c Hc. apply lookup_ge_None in Hc. rewrite <- (ok_captures s Hs). done. }
  assert (∀ c k, captures s !! k = Some c → capture_ok c) as Hcap.
  { intros c k Hc. pose proof (ok_capture s Hs) as Hf. rewrite Forall_forall in Hf. by eapply Hf, list_elem_of_lookup_2. }
  destruct i as [value mode|mode|class mode|kind mode|index|index|indices mode|kind body exit|kind|first second|target|slot min max greedy body exit first last|slot head|].
  - destruct (decode_inside (E := ExecError) input (position s) (unicode mode) (direction s) Hp) as (o & -> & Ho). cbn [mbind result_bind].
    destruct o as [[a n]|]; (eexists; split; [done|]); [|done]. case_match; [|done]. apply good_goes, move_ok; [done|by eapply Ho].
  - destruct (decode_inside (E := ExecError) input (position s) (unicode mode) (direction s) Hp) as (o & -> & Ho). cbn [mbind result_bind].
    destruct o as [[a n]|]; (eexists; split; [done|]); [|done]. case_match; [|done]. apply good_goes, move_ok; [done|by eapply Ho].
  - destruct (class_positions_ok (E := ExecError) class input (position s) mode (direction s) Hp) as (r & -> & Hr). cbn [mbind result_bind].
    destruct r as [|n r]; (eexists; split; [done|]); [done|]. apply good_tries, Forall_fmap. eapply Forall_impl; [exact Hr|]. intros q Hq. by apply move_ok.
  - destruct (boundary_ok (E := ExecError) kind input (position s) mode Hp) as [m ->]. cbn [mbind result_bind]. eexists. split; [done|]. destruct m; auto.
  - simpl in Hi. destruct (captures s !! index) as [c|] eqn:Hcs; [|apply Hnone in Hcs; lia]. cbn [expect ok_or mbind result_bind].
    edestruct (write_capture_ok s index) as (l & -> & Hl); [done| |done|].
    { intros p [[= <-]|E]; [done|]. simpl in E. case_bool_decide; [done|]. eapply (Hcap c); [done|]. by right. }
    cbn. eauto 12.
  - simpl in Hi. destruct (captures s !! index) as [c|] eqn:Hcs; [|apply Hnone in Hcs; lia]. cbn [expect ok_or mbind result_bind].
    edestruct (write_capture_ok s index) as (l & -> & Hl); [done| |done|].
    { intros p [E|[= <-]]; [|done]. simpl in E. case_bool_decide; [done|]. destruct (capture_from c) as [q|] eqn:Ec; simplify_eq/=; [|done].
      eapply (Hcap c); [done|]. by left. }
    cbn. eauto 12.
  - destruct (list.head _) as [[first last]|] eqn:Eh; [|eauto 12].
    assert (last ≤ length input)%nat as Hlast.
    { apply head_omap in Eh as (index & Ei'). destruct (captures s !! index) as [[from to]|] eqn:Ecs; [|done]. unfold range in Ei'. simpl in Ei'.
      destruct from, to; simplify_eq/=. eapply (Hcap _ index Ecs). by right. }
    unfold match_back_reference. cbn [fst snd]. destruct (back_loop_ok (E := ExecError) input mode (direction s) (last - first) (position s) first last) as (o & -> & Ho); [done..|].
    cbn [mbind result_bind]. eexists. split; [done|]. destruct o as [n|]; [|done]. apply good_goes, move_ok; [done|by apply Ho].
  - eexists. split; [done|]. split; [|done..]. intros s' [-> | ->]; auto.
  - eexists. split; [done|]. split; [done| |done]. intros b c [= _ <-]. split; apply Hs.
  - eexists. split; [done|]. apply good_two; auto.
  - eauto 12.
  - destruct Hi as [Hslot Hl]. destruct (lookup_lt_is_Some_2 (repeats s) slot) as [r Hr]; [by rewrite (ok_repeats s Hs)|]. rewrite Hr.
    cbn [expect ok_or mbind result_bind]. apply repeat_effect_ok; try done. destruct (active r); auto.
  - simpl in Hi. destruct (lookup_lt_is_Some_2 (repeats s) slot) as [r Hr]; [by rewrite (ok_repeats s Hs)|]. rewrite Hr. cbn. eauto 12.
  - eexists. split; [done|]. split; [done..|]. intros m [= <-]. split; [rewrite length_fmap; apply Hs|]. apply Forall_fmap. eapply Forall_impl; [apply Hs|].
    intros [from to] Hc a c E. unfold range in E. simpl in E. destruct from, to; simplify_eq/=. split; apply Hc; auto.
Qed.

Definition outcome_ok (o : outcome ExecError Next) : Prop :=
  match o with Ok n => next_ok n | Err (Fail BacktrackLimit) => True | Err _ => False end.

Lemma push_all_outcome ss k : ∀ b, Forall state_ok ss → stack_ok b → (∀ b', stack_ok b' → outcome_ok (k b')) →
  outcome_ok (push_all limits b ss ≫= k).
Proof.
  induction ss as [|s ss IH]; intros b Hss Hb Hk; simpl; [by apply Hk|]. apply Forall_cons in Hss as [Hs Hss].
  unfold push. destruct (_ <=? _); [done|]. apply IH; [done|by constructor|done].
Qed.

Lemma perform_ok e b : effect_good e → stack_ok b → outcome_ok (perform limits e b).
Proof.
  intros [Hs Hc Hm] Hb. destruct e as [|s|l|kind body outer|negative c|o]; simpl in *.
  - by apply restore_ok.
  - split; auto.
  - destruct l as [|s l]; [by apply restore_ok|]. apply push_all_outcome; [|done|].
    + apply Forall_rev, Forall_forall. intros s' Hs'. apply Hs, elem_of_cons. by right.
    + intros b' Hb'. split; [|done]. apply Hs, elem_of_cons. by left.
  - unfold push. destruct (_ <=? _); [done|]. split; [auto|]. constructor; [simpl; auto|done].
  - pose proof (pop_ok b Hb) as Hpop. destruct (pop_lookaround b) as [[outer b']|]; [|done]. destruct Hpop as [Ho Hb'].
    destruct negative; [by apply restore_ok|]. split; [|done]. destruct (Hc _ _ eq_refl), Ho. by split.
  - destruct o; [|done]. by apply Hm.
Qed.

Lemma step_ok s b : program_ok program → state_ok s → stack_ok b → outcome_ok (step recognize program input limits s b).
Proof. intros Hprog Hs Hb. rewrite step_effect. destruct (effect_ok s Hprog Hs) as (e & -> & He). by apply perform_ok. Qed.

Lemma initial_ok candidate : (candidate ≤ length input)%nat → state_ok (initial program candidate).
Proof. intros Hc. split; simpl; rewrite ?length_replicate; try done. apply Forall_replicate, empty_capture_ok. Qed.

(** What a run of either loop returns. *)
Definition run_ok (r : outcome ExecError (option (list (option (nat * nat)))) * Z) (steps : Z) : Prop :=
  steps ≤ r.2 ≤ max_steps limits
  ∧ match r.1 with
    | Ok None => True
    | Ok (Some m) => match_ok m
    | Err (Fail StepLimit) => r.2 = max_steps limits
    | Err (Fail BacktrackLimit) => True
    | Err _ => False
    end.

Lemma run_loop_ok fuel : program_ok program → ∀ steps s b, state_ok s → stack_ok b → steps ≤ max_steps limits →
  max_steps limits - steps < Z.of_nat fuel → run_ok (run_loop recognize program input limits fuel steps s b) steps.
Proof.
  intros Hp. induction fuel as [|fuel IH]; intros steps s b Hs Hb Hle Hf; [lia|]. cbn [run_loop].
  destruct (Z.leb_spec (max_steps limits) steps); [split; simpl; lia|].
  pose proof (step_ok s b Hp Hs Hb) as Hstep. destruct (step recognize program input limits s b) as [[s' b'|o]|[[]| |]]; try done.
  - destruct Hstep as [Hs' Hb']. destruct (IH (steps + 1) s' b' Hs' Hb' ltac:(lia) ltac:(lia)) as [H1 H2]. split; [lia|exact H2].
  - split; [simpl; lia|]. simpl. by destruct o.
  - split; [simpl; lia|done].
Qed.

Lemma execute_loop_ok fuel : program_ok program → ∀ candidate steps, (candidate ≤ length input)%nat → steps ≤ max_steps limits →
  max_steps limits - steps < Z.of_nat fuel → run_ok (execute_loop recognize program input limits fuel candidate steps) steps.
Proof.
  intros Hp. induction fuel as [|fuel IH]; intros candidate steps Hc Hle Hf; [lia|]. cbn [execute_loop].
  destruct (Z.leb_spec (max_steps limits) steps); [split; simpl; lia|]. unfold run_candidate.
  pose proof (run_loop_ok (S (Z.to_nat (max_steps limits - (steps + 1)))) Hp (steps + 1) (initial program candidate) [] (initial_ok candidate Hc)
    ltac:(constructor) ltac:(lia) ltac:(lia)) as [H1 H2].
  destruct (run_loop _ _ _ _ _ _ _ _) as [[[m|]|e] steps']; simpl in H1, H2; [split; simpl; [lia|done]| |split; simpl; [lia|done]].
  case_match; [split; simpl; [lia|done]|]. destruct (IH (advance_index input candidate (RegExpFlags.unicode_mode (flags program))) steps') as [Hst Hr]; [|lia|lia|].
  - unfold advance_index. destruct (decode_at _ _ _) as [[c n]|] eqn:E; [|done]. apply decode_at_bound in E. lia.
  - split; [lia|exact Hr].
Qed.
End safety.

Lemma execute_safe `{UnicodeData} program input start limits : program_ok program → 0 ≤ max_steps limits →
  let '(r, steps) := execute program input start limits in
  0 ≤ steps ≤ max_steps limits
  ∧ match r with
    | Ok None => True
    | Ok (Some m) => match_ok program input m
    | Err (Fail StepLimit) => steps = max_steps limits
    | Err (Fail BacktrackLimit) => True
    | Err _ => False
    end.
Proof.
  intros Hp Hl. unfold execute, execute_with. destruct (Nat.ltb_spec (length input) start); [split; [lia|done]|].
  pose proof (execute_loop_ok program input (terminal_repeat program) limits (S (Z.to_nat (max_steps limits))) Hp start 0 ltac:(lia) Hl ltac:(lia)) as Hr.
  destruct (execute_loop _ _ _ _ _ _ _) as [r steps]. exact Hr.
Qed.

(** The executor is total and safe: on every program whose instructions
    name existing captures and repeats, every input, every start and all limits
    it neither panics nor loops.  It takes at most [max_steps] steps and
    answers, or reports the step limit exactly when it has taken them all, or
    the backtracking limit; a match has one entry per group, and every captured
    range lies within the input. *)
Theorem regexp_execute_safe `{UnicodeData} program input start limits : program_ok program → 0 ≤ max_steps limits →
  let '(r, steps) := execute program input start limits in
  0 ≤ steps ≤ max_steps limits
  ∧ match r with
    | Ok None => True
    | Ok (Some m) => match_ok program input m
    | Err (Fail StepLimit) => steps = max_steps limits
    | Err (Fail BacktrackLimit) => True
    | Err _ => False
    end.
Proof. apply execute_safe. Qed.

(** *** An instance *)

(** The case mappings of the ASCII letters. *)
Definition ascii_lower (c : Z) : Z := if (65 <=? c) && (c <=? 90) then c + 32 else c.
Definition ascii_upper (c : Z) : Z := if (97 <=? c) && (c <=? 122) then c - 32 else c.
Definition ascii_data : UnicodeData :=
  Build_UnicodeData ascii_lower ascii_lower ascii_upper ascii_upper (λ _, false) (λ _, false) (λ _, false).

Definition plain_mode : MatchMode := mkMode false false false false false.

(** The program of [/^(?=a)[ab]*$/]. *)
Definition sample_program : Program := mkProgram
  [SaveStart 0; Boundary Start plain_mode; Lookaround Ahead 3 5; Character 97 plain_mode; LookaroundAccept Ahead;
   Repeat 0 0 None true 6 8 0 0; Class (mkClass false RegExp.Union [Range 97 98] [] false) plain_mode; RepeatEnd 0 5;
   Boundary End_ plain_mode; SaveEnd 0; MatchInstruction] 1 [None] 1 RegExpFlags.default.

Definition sample_limits : ExecLimits := mkLimits 1000 100.

Lemma sample_program_ok : program_ok sample_program.
Proof. unfold program_ok. apply (bool_decide_unpack _). vm_compute. done. Qed.

Lemma regexp_execute_safe_witness :
  let '(r, steps) := execute (H := ascii_data) sample_program [97; 98; 97] 0 sample_limits in
  r = Ok (Some [Some (0, 3)%nat]) ∧ 0 ≤ steps ≤ 1000 ∧ match_ok sample_program [97; 98; 97] [Some (0, 3)%nat].
Proof.
  pose proof (regexp_execute_safe (H := ascii_data) sample_program [97; 98; 97] 0 sample_limits sample_program_ok ltac:(done)) as Hsafe.
  destruct (execute (H := ascii_data) sample_program [97; 98; 97] 0 sample_limits) as [r steps] eqn:E. vm_compute in E. injection E as <- <-.
  destruct Hsafe. by split_and!.
Defined.
