(* ===== verification/RegExpSearch.v ===== *)
(** * The executor is a backtracking search

    A declarative semantics of programs: what an instruction does by itself, and
    the depth-first search over the choices that it leaves, with lookarounds as
    searches of their own.  The machine of [RegExp.v], with its stack of
    alternatives and its shortcut for repeats before an end anchor, answers what
    the search without the shortcut finds. *)

From S2P Require Import Prelude RuntimePrelude RegExp RegExpFacts.
From stdpp Require Import list.
Local Open Scope Z_scope.

(** ** The search *)

Section search.
Context `{UnicodeData} (recognize : nat → nat → nat → nat → nat → option TerminalRepeat) (program : Program) (input : list Z).
Notation effect := (effect recognize program input).

Inductive Answer : Set :=
| Failed
(** The innermost lookaround is decided. *)
| Accepted (negative : bool) (c : list CaptureSlot)
(** The whole execution is decided. *)
| Final (o : option (list (option (nat * nat)))).

Inductive search : State → Answer → Prop :=
| search_fails s : effect s = Ok Fails → search s Failed
| search_goes s s' r : effect s = Ok (Goes s') → search s' r → search s r
| search_tries s l r : effect s = Ok (Tries l) → search_first l r → search s r
| search_accepts s b c : effect s = Ok (Accepts b c) → search s (Accepted b c)
| search_ends s o : effect s = Ok (Ends o) → search s (Final o)
| search_looks_final s kind body outer o : effect s = Ok (Looks kind body outer) → search body (Final o) → search s (Final o)
| search_looks_negative s kind body outer c : effect s = Ok (Looks kind body outer) → search body (Accepted true c) → search s Failed
| search_looks_positive s kind body outer c r : effect s = Ok (Looks kind body outer) → search body (Accepted false c) →
    search (set_captures outer c) r → search s r
| search_looks_failed s kind body outer : effect s = Ok (Looks kind body outer) → search body Failed →
    LookaroundKind.negative kind = false → search s Failed
| search_looks_holds s kind body outer r : effect s = Ok (Looks kind body outer) → search body Failed →
    LookaroundKind.negative kind = true → search outer r → search s r
with search_first : list State → Answer → Prop :=
| first_none : search_first [] Failed
| first_found s l r : search s r → r ≠ Failed → search_first (s :: l) r
| first_next s l r : search s Failed → search_first l r → search_first (s :: l) r.
End search.

#[export] Instance failed_dec r : Decision (r = Failed).
Proof. destruct r; [by left|by right..]. Defined.

Scheme search_mut := Minimality for search Sort Prop
  with search_first_mut := Minimality for search_first Sort Prop.

(** ** The machine searches *)

Section machine.
Context `{UnicodeData} (recognize : nat → nat → nat → nat → nat → option TerminalRepeat) (program : Program) (input : list Z) (limits : ExecLimits).
Notation step := (step recognize program input limits).
Notation effect := (effect recognize program input).
Notation search := (search recognize program input).
Notation search_first := (search_first recognize program input).
Notation run_loop := (run_loop recognize program input limits).

(** From a state and a stack the machine answers [o] within [fuel] turns. *)
Definition answers (fuel : nat) (s : State) (b : list BacktrackEntry) (o : option (list (option (nat * nat)))) : Prop :=
  ∃ steps steps', run_loop fuel steps s b = (Ok o, steps').

Definition resumes (fuel : nat) (restored : option (State * list BacktrackEntry)) (o : option (list (option (nat * nat)))) : Prop :=
  match restored with None => o = None | Some (s, b) => answers fuel s b o end.

(** What the machine answers once the search from the current state has ended. *)
Definition after (fuel : nat) (r : Answer) (b : list BacktrackEntry) (o : option (list (option (nat * nat)))) : Prop :=
  match r with
  | Final o' => o = o'
  | Failed => resumes fuel (restore b) o
  | Accepted negative c =>
      match pop_lookaround b with
      | None => o = None
      | Some (outer, b) => if negative : bool then resumes fuel (restore b) o else answers fuel (set_captures outer c) b o
      end
  end.

Lemma answers_step fuel s b o : answers (S fuel) s b o →
  ∃ n, step s b = Ok n ∧ match n with Continue s' b' => answers fuel s' b' o | Return o' => o = o' end.
Proof.
  intros (steps & steps' & E). cbn [RegExp.run_loop] in E. destruct (max_steps limits <=? steps); [done|].
  destruct (step s b) as [[s' b'|o']|e]; [| |done]; (eexists; split; [done|]); [by eexists _, _|by injection E as -> _].
Qed.

Lemma push_all_stack l : ∀ b b', push_all limits b l = Ok b' → b' = rev (Alternative <$> l) ++ b.
Proof.
  induction l as [|s l IH]; intros b b' E; simpl in E; [by injection E|]. unfold push in E. destruct (_ <=? _); [done|]. apply IH in E.
  cbn [fmap list_fmap rev]. by rewrite E, <- app_assoc.
Qed.

Lemma pop_alternatives l b : pop_lookaround ((Alternative <$> l) ++ b) = pop_lookaround b.
Proof. induction l as [|s l IH]; [done|exact IH]. Qed.

Lemma search_of_answers fuel : ∀ s b o, answers fuel s b o → ∃ r, search s r ∧ ∃ fuel', (fuel' < fuel)%nat ∧ after fuel' r b o.
Proof.
  induction fuel as [fuel IH] using lt_wf_ind. intros s b o Ha. destruct fuel as [|fuel]; [by destruct Ha as (? & ? & ?)|].
  apply answers_step in Ha as (n & En & Hn). rewrite step_effect in En. destruct (effect s) as [e|] eqn:Ee; [|done]. cbn [mbind result_bind] in En.
  (** A list of states, the first of which runs with the others on the stack. *)
  assert (∀ l fuel0, (fuel0 ≤ fuel)%nat → ∀ s0, answers fuel0 s0 ((Alternative <$> l) ++ b) o →
    ∃ r, search_first (s0 :: l) r ∧ ∃ fuel', (fuel' < S fuel)%nat ∧ after fuel' r b o) as Hlist.
  { induction l as [|s1 l IHl]; intros fuel0 Hf s0 Ha; destruct (IH fuel0 ltac:(lia) s0 _ o Ha) as (r & Hr & fuel' & Hf' & Hafter).
    - destruct (decide (r = Failed)) as [->|Hne].
      + exists Failed. split; [by apply first_next; [|constructor]|]. exists fuel'. split; [lia|done].
      + exists r. split; [by constructor|]. exists fuel'. split; [lia|]. done.
    - destruct (decide (r = Failed)) as [->|Hne].
      + destruct (IHl fuel' ltac:(lia) s1 Hafter) as (r & Hr1 & Hrest). exists r. split; [by apply first_next|done].
      + exists r. split; [by constructor|]. exists fuel'. split; [lia|]. destruct r; [done| |done]. simpl in Hafter |- *. by rewrite pop_alternatives in Hafter. }
  assert (∀ o', match o' with None => o = None | Some (s', b') => answers fuel s' b' o end → resumes fuel o' o) as Hres by done.
  assert (∀ restored, Ok (resume restored) = Ok (E := fault ExecError) n → resumes fuel restored o) as Hresume.
  { intros restored [= <-]. by destruct restored as [[s' b']|]. }
  destruct e as [|s'|l|kind body outer|negative c|o']; cbn [perform] in En.
  - exists Failed. split; [by apply search_fails|]. exists fuel. split; [lia|]. by apply Hresume.
  - injection En as <-. destruct (IH fuel ltac:(lia) s' b o Hn) as (r & Hr & fuel' & ? & Hafter). exists r. split; [by eapply search_goes|]. exists fuel'. split; [lia|done].
  - destruct l as [|s0 l]; [exists Failed; split; [by eapply search_tries; [|constructor]|]; exists fuel; split; [lia|by apply Hresume]|].
    destruct (push_all limits b (rev l)) as [b'|] eqn:Eb; [|done]. cbn in En. injection En as <-. apply push_all_stack in Eb as ->.
    rewrite fmap_rev, rev_involutive in Hn. destruct (Hlist l fuel ltac:(lia) s0 Hn) as (r & Hr & Hrest). exists r. split; [by eapply search_tries|done].
  - unfold push in En. destruct (_ <=? _); [done|]. cbn in En. injection En as <-.
    destruct (IH fuel ltac:(lia) body _ o Hn) as (r & Hr & fuel' & Hf & Hafter). destruct r as [|negative c|o']; simpl in Hafter.
    + destruct (LookaroundKind.negative kind) eqn:Ek; simpl in Hafter.
      * destruct (IH fuel' ltac:(lia) outer b o Hafter) as (r & Hr' & fuel'' & ? & ?). exists r. split; [by eapply search_looks_holds|]. exists fuel''. split; [lia|done].
      * exists Failed. split; [by eapply search_looks_failed|]. exists fuel'. split; [lia|done].
    + destruct negative.
      * exists Failed. split; [by eapply search_looks_negative|]. exists fuel'. split; [lia|done].
      * destruct (IH fuel' ltac:(lia) _ b o Hafter) as (r & Hr' & fuel'' & ? & ?). exists r. split; [by eapply search_looks_positive|]. exists fuel''. split; [lia|done].
    + exists (Final o'). split; [by eapply search_looks_final|]. exists fuel'. split; [lia|done].
  - exists (Accepted negative c). split; [by apply search_accepts|]. exists fuel. split; [lia|]. simpl.
    destruct (pop_lookaround b) as [[outer b']|]; [|by injection En as <-]. destruct negative; [by apply Hresume|by injection En as <-].
  - injection En as <-. exists (Final o'). split; [by apply search_ends|]. exists fuel. split; [lia|done].
Qed.

(** What an answer at the top means. *)
Definition top (r : Answer) : option (list (option (nat * nat))) := match r with Final o => o | _ => None end.

Lemma run_candidate_search candidate steps o steps' : run_candidate recognize program input limits candidate steps = (Ok o, steps') →
  ∃ r, search (initial program candidate) r ∧ o = top r.
Proof.
  intros E. destruct (search_of_answers _ (initial program candidate) [] o (ex_intro _ _ (ex_intro _ _ E))) as (r & Hr & fuel & _ & Ha).
  exists r. split; [done|]. by destruct r.
Qed.
End machine.

(** *** The search is a function *)

Section deterministic.
Context `{UnicodeData} (recognize : nat → nat → nat → nat → nat → option TerminalRepeat) (program : Program) (input : list Z).
Notation search := (search recognize program input).
Notation search_first := (search_first recognize program input).

Lemma search_deterministic s r : search s r → ∀ r', search s r' → r = r'.
Proof.
  intros Hs. induction Hs using search_mut with (P0 := λ l r, ∀ r', search_first l r' → r = r'); intros r' Hr'; inversion Hr'; subst; try congruence.
  all: repeat match goal with
    | E : effect _ _ _ ?s = Ok _, E' : effect _ _ _ ?s = Ok _ |- _ => rewrite E in E'; injection E' as ?; subst
    | IH : ∀ r', search ?s r' → ?r = r', S : search ?s _ |- _ => apply IH in S; subst
    | IH : ∀ r', search_first ?s r' → ?r = r', S : search_first ?s _ |- _ => apply IH in S; subst
    | _ => progress simplify_eq
    end; try done; try congruence.
Qed.
End deterministic.

(** ** The shortcut changes no answer *)

(** The pieces of the program that the machine enters outside lookarounds are
    closed under its moves, [Match] is among them and no lookaround ends there. *)
Definition flows (main : nat → bool) (pc : nat) (i : Instruction) : Prop :=
  match i with
  | Character _ _ | Dot _ | Class _ _ | Boundary _ _ | SaveStart _ | SaveEnd _ | BackReference _ _ => main (S pc) = main pc
  | Split first second => main first = main pc ∧ main second = main pc
  | Jump target => main target = main pc
  | Repeat _ _ _ _ body exit _ _ => main body = main pc ∧ main exit = main pc
  | RepeatEnd _ head => main head = main pc
  | Lookaround _ body exit => main body = false ∧ main exit = main pc
  | LookaroundAccept _ => main pc = false
  | MatchInstruction => main pc = true
  end.

(** A token that reads forward moves forward. *)
Definition consumes (i : Instruction) : Prop :=
  match i with Class class _ => Forall (λ value, value ≠ []) (strings class) | _ => True end.

(** A repeat that the shortcut takes is closed by its own end and its token
    consumes. *)
Definition terminal_shape (program : Program) (head : nat) (i : Instruction) : Prop :=
  match i with
  | Repeat slot min _ true body exit first last =>
      match terminal_repeat program slot body exit first last with
      | Some _ => instructions program !! S body = Some (RepeatEnd slot head) ∧ min ≤ u64_max
          ∧ ∀ token, instructions program !! body = Some token → consumes token
      | None => True
      end
  | _ => True
  end.

Record structured (program : Program) (main : nat → bool) : Prop := mkStructured {
  structured_ok : program_ok program;
  structured_start : main 0%nat = true;
  structured_flow : ∀ pc i, instructions program !! pc = Some i → flows main pc i;
  structured_terminal : ∀ pc i, instructions program !! pc = Some i → terminal_shape program pc i
}.

Section forward.
Context `{UnicodeData}.

Lemma match_string_forward input value mode : ∀ p n, value ≠ [] → match_string (E := ExecError) input p value mode Forward = Ok (Some n) → (p < n)%nat.
Proof.
  induction value as [|c value IH]; intros p n Hne E; [done|]. simpl in E. destruct (decode_at input p (unicode mode)) as [[a q]|] eqn:Ed; [|done].
  apply decode_at_bound in Ed. destruct (negb _); [done|]. destruct value as [|c' value]; [injection E as <-; lia|]. specialize (IH q n ltac:(done) E). lia.
Qed.

Lemma prefixes_forward input u max : ∀ value p l, directional_prefixes (E := ExecError) max input value p u Forward = Ok l → Forall (λ e, (p < e.2)%nat) l.
Proof.
  induction max as [|max IH]; intros value p l E; simpl in E; [by injection E as <-|].
  destruct (decode_at input p u) as [[a n]|] eqn:Ed; [|by injection E as <-]. apply decode_at_bound in Ed.
  destruct (directional_prefixes _ _ _ n u Forward) as [rest|] eqn:Er; [|done]. injection E as <-. constructor; [simpl; lia|].
  eapply Forall_impl; [by eapply IH|]. simpl. lia.
Qed.

Lemma class_forward class input p mode l : Forall (λ value, value ≠ []) (strings class) →
  class_match_positions (E := ExecError) class input p mode Forward = Ok l → Forall (λ n, p < n)%nat l.
Proof.
  intros Hne. apply class_positions_all.
  - intros value n Hv. apply match_string_forward. rewrite Forall_forall in Hne. by apply Hne.
  - intros dynamic. apply prefixes_forward.
  - cbn. intros c n [= Ed]. apply decode_at_bound in Ed. lia.
Qed.
End forward.

(** *** Committed repeats *)

Lemma terminal_repeat_inv program slot body exit first last t : terminal_repeat program slot body exit first last = Some t →
  first = last ∧ t = mkTerminal slot body exit ∧ is_token (instructions program !! body) = true
  ∧ ∃ mode, instructions program !! exit = Some (Boundary End_ mode) ∧ multiline mode = false
    ∧ instructions program !! S exit = Some (SaveEnd 0) ∧ instructions program !! S (S exit) = Some MatchInstruction.
Proof.
  unfold terminal_repeat. destruct (Nat.eqb_spec first last); [|done]. destruct (is_token (instructions program !! body)); [|done].
  cbn [negb orb]. destruct (negb (match instructions program !! S body with Some (RepeatEnd _ _) => true | _ => false end)); [done|].
  destruct (instructions program !! exit) as [[| | |[] mode| | | | | | | | | |]|]; try done. destruct (multiline mode) eqn:Em; [done|]. cbn [orb].
  destruct (instructions program !! S exit) as [[| | | | |[|]| | | | | | | |]|]; try done. cbn [negb orb].
  destruct (instructions program !! S (S exit)) as [[| | | | | | | | | | | | |]|]; try done. intros [= <-]. split_and!; try done. by exists mode.
Qed.

Definition never : nat → nat → nat → nat → nat → option TerminalRepeat := λ _ _ _ _ _, None.

(** The same state in a search that commits to nothing. *)
Definition erase (s : State) : State := set_terminal s None.
Definition erase_effect (e : Effect) : Effect :=
  match e with
  | Goes s => Goes (erase s)
  | Tries l => Tries (erase <$> l)
  | Looks kind body outer => Looks kind (erase body) (erase outer)
  | e => e
  end.

Lemma erase_id s : terminal s = None → erase s = s.
Proof. destruct s; simpl; by intros ->. Qed.

Section shortcut.
Context `{UnicodeData} (program : Program) (input : list Z) (main : nat → bool) (Hst : structured program main).
Notation recognize := (terminal_repeat program).
Notation quick := (effect recognize program input).
Notation plain := (effect never program input).

(** The state is in the loop of a repeat that the shortcut took. *)
Record committed (s : State) (t : TerminalRepeat) (head : nat) (r : RepeatState) : Prop := mkCommitted {
  com_terminal : terminal s = Some t;
  com_head : ∃ min max first, min ≤ repeat_number r ∧ min ≤ u64_max
    ∧ instructions program !! head = Some (Repeat (terminal_slot t) min max true (terminal_body t) (terminal_exit t) first first)
    ∧ recognize (terminal_slot t) (terminal_body t) (terminal_exit t) first first = Some t;
  com_slot : repeats s !! terminal_slot t = Some r;
  com_active : active r = true;
  com_direction : direction s = Forward
}.

Definition at_body (s : State) : Prop := ∃ t head r, committed s t head r ∧ pc s = terminal_body t ∧ iteration_start r = Some (position s).
Definition at_end (s : State) : Prop :=
  ∃ t head r q, committed s t head r ∧ pc s = S (terminal_body t) ∧ iteration_start r = Some q ∧ (q < position s)%nat.
Definition at_head (s : State) : Prop :=
  ∃ t head r q, committed s t head r ∧ pc s = head ∧ iteration_start r = Some q ∧ (q < position s)%nat.
Definition exact (s : State) : Prop := terminal s = None ∨ at_end s ∨ at_head s.
Definition main_forward (s : State) : Prop := main (pc s) = true → direction s = Forward.

(** *** Leaving the repeat *)

Definition exit_answer (s : State) : Answer :=
  if (position s =? length input)%nat then
    match captures s !! 0%nat with
    | Some c => Final (Some (range <$> <[0%nat := mkCapture (Some (default (position s) (capture_from c))) (Some (position s))]> (captures s)))
    | None => Failed
    end
  else Failed.

Lemma exit_search f s slot body exit first last t : recognize slot body exit first last = Some t → length (captures s) = capture_count program →
  pc s = exit → direction s = Forward → search f program input s (exit_answer s).
Proof.
  intros Ht Hs Hpc Hd. apply terminal_repeat_inv in Ht as (_ & _ & _ & mode & I1 & Hm & I2 & I3). subst exit.
  assert (0 < capture_count program)%nat as Hc.
  { pose proof (structured_ok program main Hst) as Hp. unfold program_ok in Hp. rewrite Forall_forall in Hp.
    exact (Hp _ (list_elem_of_lookup_2 _ _ _ I2)). }
  destruct (lookup_lt_is_Some_2 (captures s) 0) as [c Hcap]; [by rewrite Hs|].
  unfold exit_answer. rewrite Hcap. destruct (Nat.eqb_spec (position s) (length input)) as [Hpos|Hpos].
  - eapply search_goes; [unfold effect; rewrite I1; unfold boundary_matches; rewrite (proj2 (Nat.eqb_eq _ _) Hpos); reflexivity|].
    eapply search_goes; [unfold effect; cbn [pc set_pc]; rewrite I2; cbn [captures set_pc]; rewrite Hcap; unfold write; rewrite (proj2 (Nat.ltb_lt _ _)) by (by eapply lookup_lt_Some); cbn; rewrite Hd; reflexivity|].
    apply search_ends. unfold effect. cbn [pc set_pc set_captures]. rewrite I3. done.
  - apply search_fails. unfold effect. rewrite I1. unfold boundary_matches. rewrite (proj2 (Nat.eqb_neq _ _) Hpos), Hm. done.
Qed.

(** *** Inside the repeat *)

Lemma committed_shape s t head r : committed s t head r →
  instructions program !! S (terminal_body t) = Some (RepeatEnd (terminal_slot t) head)
  ∧ is_token (instructions program !! terminal_body t) = true
  ∧ ∀ token, instructions program !! terminal_body t = Some token → consumes token.
Proof.
  intros [_ (min & max & first & _ & _ & Ih & Ht) _ _ _]. pose proof (structured_terminal program main Hst head _ Ih) as Hsh. simpl in Hsh. rewrite Ht in Hsh.
  apply terminal_repeat_inv in Ht as (_ & _ & Htok & _). naive_solver.
Qed.

Lemma recovered_at_body s : at_body s → ∃ s', recovered s = Some s' ∧ terminal s' = None ∧ position s' = position s ∧ captures s' = captures s
  ∧ direction s' = Forward ∧ ∃ t first, terminal s = Some t ∧ pc s' = terminal_exit t
    ∧ recognize (terminal_slot t) (terminal_body t) (terminal_exit t) first first = Some t.
Proof.
  intros (t & head & r & [Ht (min & max & first & _ & _ & _ & Hrec) Hslot _ Hd] & Hpc & _). unfold recovered. rewrite Ht. cbn [mbind option_bind].
  rewrite Hpc, Nat.eqb_refl, Hslot. cbn [mbind option_bind]. eexists. split; [done|]. cbn. split_and!; try done. by exists t, first.
Qed.

Lemma moved_at_end s n : at_body s → (position s < n)%nat → at_end (move s n).
Proof. intros (t & head & r & [Ht Hh Hslot Ha Hd] & Hpc & Hit) Hn. exists t, head, r, (position s). split_and!; try done; simpl. by rewrite Hpc. Qed.

(** The token of a committed repeat: it advances in both searches, or it fails
    in the plain one and leaves the repeat in the quick one. *)
Lemma effect_body s e : at_body s → state_ok program input s → quick s = Ok e →
  (plain (erase s) = Ok (erase_effect e) ∧ (position s < length input)%nat ∧ (∀ s', successor e s' → at_end s')
     ∧ match e with Goes _ | Tries _ => True | _ => False end)
  ∨ ∃ s', recovered s = Some s' ∧ e = Goes s' ∧ plain (erase s) = Ok Fails.
Proof.
  intros Hb Hs Ee. destruct (recovered_at_body s Hb) as (s' & Hrec & _). pose proof Hb as (t & head & r & Hcom & Hpc & _).
  destruct (committed_shape s t head r Hcom) as (_ & Htok & Hcons). pose proof (com_direction _ _ _ _ Hcom) as Hd.
  assert (token_failure s = Goes s') as Hfail by (unfold token_failure; by rewrite Hrec).
  unfold effect in Ee |- *. cbn [pc erase set_terminal position direction captures repeats]. rewrite Hpc in *.
  assert (token_failure (erase s) = Fails) as Hfail' by done. unfold erase in Hfail'.
  destruct (instructions program !! terminal_body t) as [[value mode|mode|class mode| | | | | | | | | | |]|]; try done; rewrite Hd in *; cbn [decode_in_direction mbind result_bind] in *.
  - destruct (decode_at input (position s) (unicode mode)) as [[a n]|] eqn:Ed; [apply decode_at_bound in Ed; destruct (same_character a value mode)|]; injection Ee as <-; rewrite ?Hfail; try (right; by eexists).
    left. split_and!; [done|lia| |done]. intros ? ->. apply moved_at_end; [done|lia].
  - destruct (decode_at input (position s) (unicode mode)) as [[a n]|] eqn:Ed; [apply decode_at_bound in Ed; destruct (dot_all mode || _)|]; injection Ee as <-; rewrite ?Hfail; try (right; by eexists).
    left. split_and!; [done|lia| |done]. intros ? ->. apply moved_at_end; [done|lia].
  - destruct (class_match_positions class input (position s) mode Forward) as [l|] eqn:El; [|done]. cbn [mbind result_bind] in *.
    pose proof (class_forward _ _ _ _ _ (Hcons _ eq_refl) El) as Hl.
    destruct (class_positions_ok (E := ExecError) class input (position s) mode Forward (ok_position _ _ s Hs)) as (l' & El' & Hl'). rewrite El in El'. injection El' as <-.
    injection Ee as <-. destruct l as [|n l]; [rewrite Hfail; right; by eexists|]. left. split_and!; [| | |done].
    + cbn [erase_effect]. f_equal. f_equal. rewrite <- list_fmap_compose. apply list_fmap_ext. done.
    + apply Forall_cons in Hl as [Hn _]. apply Forall_cons in Hl' as [Hn' _]. lia.
    + intros s0 Hs0. cbn [successor] in Hs0. apply list_elem_of_fmap in Hs0 as (m & -> & Hm).
      rewrite Forall_forall in Hl. by apply moved_at_end; [|apply Hl].
Qed.

(** *** At the head of a repeat *)

Lemma start_erase s slot body first last s' : start_iteration (E := ExecError) s slot body first last = Ok s' →
  start_iteration (E := ExecError) (erase s) slot body first last = Ok (erase s') ∧ terminal s' = terminal s.
Proof.
  unfold start_iteration. cbn [captures repeats erase set_terminal position]. destruct (if (first <? last)%nat then _ else _) as [l|]; [|done]. cbn [mbind result_bind].
  destruct (repeats s !! slot) as [r|]; [|done]. cbn. by intros [= <-].
Qed.

(** The slot of the repeat has an active count, the repeat of a committed state
    is the one it is committed to. *)
Definition may_enter (s : State) (r : RepeatState) (slot : nat) (min : Z) (greedy : bool) (body exit first last : nat) : Prop :=
  terminal s = None ∨ ∃ t q, terminal s = Some t ∧ terminal_slot t = slot ∧ iteration_start r = Some q ∧ (q < position s)%nat
    ∧ min ≤ repeat_number r ∧ greedy = true ∧ recognize slot body exit first last = Some t.

(** The quick search enters the body where the plain one tries both. *)
Record enters (s : State) (r : RepeatState) (min : Z) (slot body exit : nat) (t : TerminalRepeat) (sb se : State) : Prop := mkEnters {
  enters_terminal : terminal sb = Some t;
  enters_pc : pc sb = body;
  enters_repeat : repeats sb !! slot = Some (mkRepeat (active r) (repeat_number r) (Some (position s)) true);
  enters_count : min ≤ repeat_number r;
  enters_body : position sb = position s ∧ captures sb = captures s ∧ direction sb = direction s;
  enters_exit : position se = position s ∧ captures se = captures s ∧ direction se = direction s ∧ pc se = exit ∧ terminal se = None
}.

Lemma repeat_quick s r slot min max greedy body exit first last e : repeats s !! slot = Some r → may_enter s r slot min greedy body exit first last →
  repeat_effect recognize s slot min max greedy body exit first last = Ok e →
  (repeat_effect never (erase s) slot min max greedy body exit first last = Ok (erase_effect e) ∧ ∀ s', successor e s' → terminal s' = None)
  ∨ ∃ t sb se, greedy = true ∧ recognize slot body exit first last = Some t ∧ e = Goes sb ∧ enters s r min slot body exit t sb se
      ∧ repeat_effect never (erase s) slot min max greedy body exit first last = Ok (Tries [erase sb; se]).
Proof.
  intros Hr Hent Ee. unfold repeat_effect in *. cbn [repeats position erase set_terminal]. rewrite Hr in *. cbn [expect ok_or mbind result_bind] in *.
  assert (∀ l, terminal (clear_terminal_repeat (set_repeats s l) slot) = None ∧ clear_terminal_repeat (set_repeats (erase s) l) slot = erase (clear_terminal_repeat (set_repeats s l) slot)) as Hclear.
  { intros l. unfold clear_terminal_repeat. cbn [terminal set_repeats erase set_terminal]. destruct Hent as [Hn|(t & q & Hn & Hsl & _)]; rewrite Hn; [done|]. by rewrite Hsl, Nat.eqb_refl. }
  destruct ((min <=? repeat_number r) && ((0 <? repeat_number r) && bool_decide (iteration_start r = Some (position s)))) eqn:Enp.
  { left. destruct (optional_attempted r); injection Ee as <-; [done|]. split; [|by intros ? ->; apply Hclear]. cbn [erase_effect]. f_equal. f_equal.
    change (set_repeats (set_terminal s None)) with (set_repeats (erase s)). rewrite (proj2 (Hclear _)). done. }
  destruct (match max with Some maximum => maximum <=? repeat_number r | None => false end).
  { left. injection Ee as <-. split; [|by intros ? ->; apply Hclear]. cbn [erase_effect]. f_equal. f_equal.
    change (set_repeats (set_terminal s None)) with (set_repeats (erase s)). rewrite (proj2 (Hclear _)). done. }
  destruct (Z.ltb_spec (repeat_number r) min) as [Hlt|Hge].
  { left. destruct (start_iteration s slot body first last) as [s'|] eqn:Es; [|done]. injection Ee as <-. apply start_erase in Es as [Es Et].
    change (set_terminal s None) with (erase s). rewrite Es. split; [done|]. intros ? ->. rewrite Et. destruct Hent as [->|(t & q & _ & _ & _ & _ & Hmin & _)]; [done|lia]. }
  match goal with E : context [start_iteration ?u slot body first last] |- _ => destruct (start_iteration u slot body first last) as [sb|] eqn:Es; [|done]; set (s1 := u) in * end.
  pose proof (start_erase _ _ _ _ _ _ Es) as [Es' Et]. cbn [mbind result_bind] in Ee.
  assert (∀ l, set_repeats (set_terminal s None) l = erase (set_repeats s l)) as Hse by done. rewrite !Hse. fold s1. rewrite Es'. cbn [mbind result_bind].
  assert (terminal s1 = terminal s) as Et1 by done. rewrite Et1 in Et.
  destruct greedy; [|left; injection Ee as <-; destruct Hent as [Hn|(t & q & _ & _ & _ & _ & _ & ? & _)]; [|done]; split; [done|]; intros s' [->|[->|[]%elem_of_nil]%elem_of_cons]%elem_of_cons; [done|by rewrite Et]].
  destruct (recognize slot body exit first last) as [t|] eqn:Erec.
  2: { left. injection Ee as <-. destruct Hent as [Hn|(t & q & _ & _ & _ & _ & _ & _ & ?)]; [|congruence]. split; [done|].
    intros s' [->|[->|[]%elem_of_nil]%elem_of_cons]%elem_of_cons; [by rewrite Et|done]. }
  right. injection Ee as <-. pose proof (terminal_repeat_inv _ _ _ _ _ _ _ Erec) as (-> & _).
  exists t, (set_terminal sb (Some t)), (set_pc (set_repeats (erase s) (<[slot := mkRepeat false (repeat_number r) (iteration_start r) (optional_attempted r)]> (repeats s))) exit).
  unfold start_iteration in Es. rewrite Nat.ltb_irrefl in Es. cbn [mbind result_bind] in Es. unfold s1 in Es. cbn [repeats set_repeats] in Es.
  assert (slot < length (repeats s))%nat as Hlt by (by eapply lookup_lt_Some).
  rewrite list_lookup_insert_eq in Es by done. cbn in Es. injection Es as <-. split_and!; try done. split; try done; cbn.
  by rewrite list_insert_insert_eq, list_lookup_insert_eq.
Qed.

(** Before the exit of a repeat that the shortcut takes the program is outside
    lookarounds. *)
Lemma terminal_main pc slot min max body exit first last t : instructions program !! pc = Some (Repeat slot min max true body exit first last) →
  recognize slot body exit first last = Some t → main pc = true.
Proof.
  intros Ip Ht. apply terminal_repeat_inv in Ht as (_ & _ & _ & mode & I1 & _ & I2 & I3).
  pose proof (structured_flow _ _ Hst _ _ Ip) as [_ Hx]. pose proof (structured_flow _ _ Hst _ _ I1) as H1.
  pose proof (structured_flow _ _ Hst _ _ I2) as H2. pose proof (structured_flow _ _ Hst _ _ I3) as H3. simpl in *. congruence.
Qed.

(** What a step of the quick search is in the plain one: the same step, or the
    entry of a repeat whose exit the plain search keeps. *)
Definition follows (s : State) (e : Effect) : Prop :=
  (plain (erase s) = Ok (erase_effect e) ∧ (∀ s', successor e s' → main_forward s')
     ∧ match e with Looks _ body outer => terminal body = None ∧ terminal outer = None | _ => ∀ s', successor e s' → exact s' end)
  ∨ ∃ sb se, e = Goes sb ∧ at_body sb ∧ plain (erase s) = Ok (Tries [erase sb; se]) ∧ search never program input se (exit_answer sb).

Lemma follows_none s e : plain (erase s) = Ok (erase_effect e) → (∀ s', successor e s' → terminal s' = None ∧ main_forward s') → follows s e.
Proof.
  intros Ep Hs. left. split_and!; [done|by intros s' [_ ?]%Hs|]. destruct e; try (intros s' Hs'; left; by apply Hs).
  split; apply Hs; simpl; auto.
Qed.

Lemma exit_answer_ext s s' : position s = position s' → captures s = captures s' → exit_answer s = exit_answer s'.
Proof. unfold exit_answer. by intros -> ->. Qed.

Lemma start_moves s slot body first last s' : start_iteration (E := ExecError) s slot body first last = Ok s' → direction s' = direction s ∧ pc s' = body.
Proof.
  unfold start_iteration. destruct (if (first <? last)%nat then _ else _) as [l|]; [|done]. cbn [mbind result_bind].
  destruct (repeats s !! slot) as [r|]; [|done]. cbn. by intros [= <-].
Qed.

Lemma clear_direction s slot : direction (clear_terminal_repeat s slot) = direction s.
Proof. unfold clear_terminal_repeat. by repeat case_match. Qed.

Lemma repeat_moves s slot min max greedy body exit first last e : repeat_effect recognize s slot min max greedy body exit first last = Ok e →
  ∀ s', successor e s' → direction s' = direction s ∧ (pc s' = body ∨ pc s' = exit).
Proof.
  intros Ee. unfold repeat_effect in Ee. destruct (repeats s !! slot) as [r|]; [|done]. cbn [expect ok_or mbind result_bind] in Ee.
  destruct (_ && _); [destruct (optional_attempted r); injection Ee as <-; [done|]; intros ? ->; cbn; rewrite clear_direction; auto|].
  destruct (match max with Some maximum => maximum <=? repeat_number r | None => false end); [injection Ee as <-; intros ? ->; cbn; rewrite clear_direction; auto|].
  destruct (_ <? _).
  { destruct (start_iteration s slot body first last) as [s'|] eqn:Es; [|done]. injection Ee as <-. intros ? ->. apply start_moves in Es as []. auto. }
  destruct (start_iteration _ slot body first last) as [sb|] eqn:Es; [|done]. apply start_moves in Es as [Hd Hpc]. cbn [mbind result_bind] in Ee.
  destruct greedy; [destruct (recognize slot body exit first last)|]; injection Ee as <-; [intros ? ->; auto| |];
    intros s' [-> | [-> | []%elem_of_nil]%elem_of_cons]%elem_of_cons; auto.
Qed.

Definition is_repeat (i : option Instruction) : bool := match i with Some (Repeat _ _ _ _ _ _ _ _) => true | _ => false end.

(** Outside a committed repeat the direction is kept, and only a repeat commits. *)
Lemma effect_moves s e : terminal s = None → main_forward s → quick s = Ok e →
  ∀ s', successor e s' → main_forward s' ∧ (is_repeat (instructions program !! pc s) = false → terminal s' = None).
Proof.
  intros Ht Hm Ee. assert (∀ s', direction s' = direction s → main (pc s') = main (pc s) → (is_repeat (instructions program !! pc s) = false → terminal s' = None) →
    main_forward s' ∧ (is_repeat (instructions program !! pc s) = false → terminal s' = None)) as Hsame.
  { unfold main_forward. intros s' -> ->. done. }
  assert (token_failure s = Fails) as Hfail by (unfold token_failure, recovered; by rewrite Ht).
  unfold effect in Ee. destruct (instructions program !! pc s) as [i|] eqn:Ei; [|by injection Ee as <-].
  pose proof (structured_flow _ _ Hst _ _ Ei) as Hf.
  destruct i as [value mode|mode|class mode|kind mode|index|index|indices mode|kind body exit|kind|first second|target|slot min max greedy body exit first last|slot head|]; cbn [flows] in Hf; rewrite ?Hfail in Ee.
  - destruct (decode_in_direction _ _ _ _) as [[[a n]|]|]; [|by injection Ee as <-|done]. cbn in Ee. injection Ee as <-.
    case_match; [|done]. intros ? ->. by apply Hsame.
  - destruct (decode_in_direction _ _ _ _) as [[[a n]|]|]; [|by injection Ee as <-|done]. cbn in Ee. injection Ee as <-.
    case_match; [|done]. intros ? ->. by apply Hsame.
  - destruct (class_match_positions _ _ _ _ _) as [[|n l]|]; [by injection Ee as <-| |done]. cbn [mbind result_bind] in Ee. injection Ee as <-.
    intros s' Hs'. change (s' ∈ move s <$> (n :: l)) in Hs'. apply list_elem_of_fmap in Hs' as (m & -> & _). by apply Hsame.
  - destruct (boundary_matches _ _ _ _) as [[]|]; [|by injection Ee as <-|done]. cbn in Ee. injection Ee as <-. intros ? ->. by apply Hsame.
  - destruct (captures s !! index) as [c|]; [|done]. cbn [expect ok_or mbind result_bind] in Ee. destruct (write _ _ _); [|done]. injection Ee as <-. intros ? ->. by apply Hsame.
  - destruct (captures s !! index) as [c|]; [|done]. cbn [expect ok_or mbind result_bind] in Ee. destruct (write _ _ _); [|done]. injection Ee as <-. intros ? ->. by apply Hsame.
  - destruct (list.head _) as [found|]; [|injection Ee as <-; intros ? ->; by apply Hsame].
    destruct (match_back_reference _ _ _ _ _) as [[n|]|]; [|by injection Ee as <-|done]. cbn in Ee. injection Ee as <-. intros ? ->. by apply Hsame.
  - injection Ee as <-. destruct Hf as [Hb Hx]. intros ? [-> | ->]; [split; [intros Hmain; cbn in Hmain; congruence|done]|by apply Hsame].
  - by injection Ee as <-.
  - injection Ee as <-. intros s' [-> | [-> | []%elem_of_nil]%elem_of_cons]%elem_of_cons; apply Hsame; try done; apply Hf.
  - injection Ee as <-. intros ? ->. by apply Hsame.
  - destruct (repeats s !! slot) as [r|]; [|done]. cbn [expect ok_or mbind result_bind] in Ee. intros s' Hs'. destruct (repeat_moves _ _ _ _ _ _ _ _ _ _ Ee s' Hs') as [Hd Hpc].
    apply Hsame; [by rewrite Hd; destruct (active r)| |done]. destruct Hf, Hpc as [-> | ->]; congruence.
  - destruct (repeats s !! slot) as [r|]; [|done]. injection Ee as <-. intros ? ->. by apply Hsame.
  - by injection Ee as <-.
Qed.

(** A repeat, from a state that is not committed or is committed to it. *)
Lemma repeat_follows s0 s r slot min max greedy body exit first last e :
  instructions program !! pc s0 = Some (Repeat slot min max greedy body exit first last) →
  pc s = pc s0 → state_ok program input s → main_forward s → repeats s !! slot = Some r → active r = true →
  may_enter s r slot min greedy body exit first last →
  repeat_effect recognize s slot min max greedy body exit first last = Ok e →
  repeat_effect never (erase s) slot min max greedy body exit first last = plain (erase s0) → follows s0 e.
Proof.
  intros Ip Hpc Hs Hm Hr Ha Hent Ee Hplain. destruct (repeat_quick s r slot min max greedy body exit first last e Hr Hent Ee) as [[Ep Hterm]|(t & sb & se & -> & Ht & -> & Hin & Ep)].
  - apply follows_none; [by rewrite <- Hplain|]. intros s' Hs'. split; [by apply Hterm|]. destruct (repeat_moves _ _ _ _ _ _ _ _ _ _ Ee s' Hs') as [Hd Hpc'].
    pose proof (structured_flow _ _ Hst _ _ Ip) as [Hb Hx]. unfold main_forward in *. rewrite Hd. intros Hmain. apply Hm. rewrite Hpc. destruct Hpc' as [E|E]; rewrite E in Hmain; congruence.
  - assert (direction s = Forward) as Hd by (apply Hm; rewrite Hpc; by eapply terminal_main).
    pose proof (terminal_repeat_inv _ _ _ _ _ _ _ Ht) as (<- & -> & _). destruct Hin as [H1 H2 H3 H4 (P1 & C1 & D1) (P2 & C2 & D2 & X2 & T2)].
    pose proof (structured_terminal _ _ Hst _ _ Ip) as Hsh. cbn [terminal_shape] in Hsh. rewrite Ht in Hsh.
    right. exists sb, se. split_and!; [done| |by rewrite <- Hplain|].
    + eexists _, (pc s0), _. split; [split; [exact H1| |exact H3|exact Ha|by rewrite D1]|]; [|by cbn; rewrite P1].
      exists min, max, first. naive_solver.
    + rewrite (exit_answer_ext sb se) by congruence. eapply exit_search; [exact Ht| |done|congruence].
      rewrite C2. apply Hs.
Qed.

Lemma end_follows s e : at_end s → quick s = Ok e → follows s e.
Proof.
  intros (t & head & r & q & Hcom & Hpc & Hit & Hq) Ee. destruct (committed_shape _ _ _ _ Hcom) as (Ie & _).
  destruct Hcom as [Ht (min & max & first & Hmin & Hu & Ih & Hrec) Hr Ha Hd]. unfold effect in Ee. rewrite Hpc, Ie, Hr in Ee. cbn in Ee. injection Ee as <-.
  assert (terminal_slot t < length (repeats s))%nat as Hlt by (by eapply lookup_lt_Some).
  left. split_and!.
  - unfold effect. cbn [pc erase set_terminal repeats]. rewrite Hpc, Ie, Hr. done.
  - intros ? ->. by intros _.
  - intros ? ->. right. right. eexists t, head, _, q. cbn. split_and!; [|done| |done].
    + split; cbn; [exact Ht| |by rewrite list_lookup_insert_eq|exact Ha|exact Hd]. exists min, max, first. cbn. unfold saturating_add_u64. split_and!; try done. lia.
    + exact Hit.
Qed.

Lemma head_follows s e : at_head s → state_ok program input s → quick s = Ok e → follows s e.
Proof.
  intros (t & head & r & q & Hcom & Hpc & Hit & Hq) Hs Ee. destruct Hcom as [Ht (min & max & first & Hmin & Hu & Ih & Hrec) Hr Ha Hd].
  rewrite <- Hpc in Ih. unfold effect in Ee. rewrite Ih, Hr in Ee. cbn [expect ok_or mbind result_bind] in Ee. rewrite Ha in Ee.
  eapply (repeat_follows s s); [exact Ih|done|done|by intros _|exact Hr|exact Ha|right; exists t, q; by split_and!|exact Ee|].
  unfold effect. cbn [pc erase set_terminal repeats]. rewrite Ih, Hr. cbn [expect ok_or mbind result_bind]. by rewrite Ha.
Qed.

(** The successors of an effect other than a repeat's keep the state's
    commitment. *)
Lemma erase_effect_id e : (∀ s', successor e s' → terminal s' = None) → erase_effect e = e.
Proof.
  destruct e as [|s|l|kind body outer|b c|o]; simpl; intros Hs; try done.
  - by rewrite erase_id by auto.
  - f_equal. induction l as [|s l IH]; [done|]. cbn [fmap list_fmap]. rewrite erase_id by (apply Hs, elem_of_cons; auto). f_equal.
    apply IH. intros s' Hs'. apply Hs, elem_of_cons. auto.
  - by rewrite !erase_id by auto.
Qed.

Lemma plain_follows s e : terminal s = None → state_ok program input s → main_forward s → quick s = Ok e → follows s e.
Proof.
  intros Ht Hs Hm Ee. pose proof (effect_moves s e Ht Hm Ee) as Hmf. destruct (is_repeat (instructions program !! pc s)) eqn:Er.
  2: { apply follows_none; [|naive_solver]. rewrite erase_effect_id by naive_solver. rewrite erase_id, <- Ee by done. unfold effect. by destruct (instructions program !! pc s) as [[]|]. }
  destruct (instructions program !! pc s) as [[| | | | | | | | | | |slot min max greedy body exit first last| |]|] eqn:Ei; try done.
  unfold effect in Ee. rewrite Ei in Ee. destruct (repeats s !! slot) as [r|] eqn:Hr; [|done]. cbn [expect ok_or mbind result_bind] in Ee.
  assert (slot < length (repeats s))%nat as Hlt by (by eapply lookup_lt_Some).
  assert (plain (erase s) = repeat_effect never (erase (if active r then s else set_repeats s (<[slot := mkRepeat true 0 None false]> (repeats s))))
    slot min max greedy body exit first last) as Hplain.
  { unfold effect. cbn [pc erase set_terminal repeats]. rewrite Ei, Hr. cbn [expect ok_or mbind result_bind]. by destruct (active r). }
  destruct (active r) eqn:Ha.
  - eapply (repeat_follows s s); [exact Ei|done|done|done|exact Hr|exact Ha|by left|exact Ee|done].
  - eapply (repeat_follows s); [exact Ei| | | | | | |exact Ee|]; [done|by apply set_repeats_ok|done|cbn; by apply list_lookup_insert_eq|done|by left|done].
Qed.

Lemma exact_follows s e : exact s → state_ok program input s → main_forward s → quick s = Ok e → follows s e.
Proof. intros [Ht|[He|Hh]] Hs Hm Ee; [by apply plain_follows|by apply end_follows|by apply head_follows]. Qed.

Lemma good_successors s e s' : state_ok program input s → quick s = Ok e → successor e s' → state_ok program input s'.
Proof. intros Hs Ee. destruct (effect_ok program input recognize s (structured_ok _ _ Hst) Hs) as (e' & Ee' & Hg). rewrite Ee in Ee'. injection Ee' as <-. by apply good_states. Qed.

Lemma good_outer s c : captures_ok program input c → state_ok program input s → state_ok program input (set_captures s c).
Proof. intros [] []. by split. Qed.

(** A lookaround that accepts hands over proper captures. *)
Lemma search_captures s r : search recognize program input s r → state_ok program input s → ∀ b c, r = Accepted b c → captures_ok program input c.
Proof.
  intros Hs. induction Hs using search_mut with (P0 := λ l r, Forall (state_ok program input) l → ∀ b c, r = Accepted b c → captures_ok program input c);
    intros Hok b' c' Hr; try done; subst; repeat match goal with H : Forall _ (_ :: _) |- _ => apply Forall_cons in H as [??] end; eauto using good_successors.
  - eapply IHHs; [|done]. by eapply good_successors.
  - eapply IHHs; [|done]. apply Forall_forall. intros s' Hs'. by eapply good_successors.
  - injection Hr as <- <-. destruct (effect_ok program input recognize s (structured_ok _ _ Hst) Hok) as (e' & Ee' & Hg). rewrite H0 in Ee'. injection Ee' as <-. by eapply good_captures.
  - eapply IHHs2; [|done]. apply good_outer; [|eapply good_successors; [exact Hok|eassumption|simpl; auto]]. eapply IHHs1; [eapply good_successors; [exact Hok|eassumption|simpl; auto]|done].
  - eapply IHHs2; [|done]. eapply good_successors; [exact Hok|eassumption|simpl; auto].
Qed.

Notation plain_search := (search never program input).
Notation plain_first := (search_first never program input).

(** Where the quick search has committed, it answers for the alternative that it
    dropped too. *)
Definition tracks (s : State) (r : Answer) : Prop :=
  state_ok program input s → main_forward s →
  (exact s → plain_search (erase s) r)
  ∧ (at_body s → ∃ r1, plain_search (erase s) r1 ∧ r = if decide (r1 = Failed) then exit_answer s else r1).
Definition tracks_first (l : list State) (r : Answer) : Prop :=
  Forall (state_ok program input) l → Forall main_forward l → Forall exact l → plain_first (erase <$> l) r.

Lemma body_main_forward s : at_end s → main_forward s.
Proof. intros (t & head & r & q & [] & _). by intros _. Qed.

Lemma body_answer s r : (position s < length input)%nat → plain_search (erase s) r →
  ∃ r1, plain_search (erase s) r1 ∧ r = if decide (r1 = Failed) then exit_answer s else r1.
Proof.
  intros Hp Hr. exists r. split; [done|]. case_decide as Hd; [|done]. unfold exit_answer. by rewrite (proj2 (Nat.eqb_neq _ _)) by lia.
Qed.

Lemma tracks_goes s s' r : quick s = Ok (Goes s') → search recognize program input s' r → tracks s' r → tracks s r.
Proof.
  intros Ee Hq IH Hs Hm. pose proof (good_successors s (Goes s') s' Hs Ee eq_refl) as Hs'. split.
  - intros Hx. destruct (exact_follows s _ Hx Hs Hm Ee) as [(Ep & Hmf & Hex)|(sb & se & [= <-] & Hb & Ep & Hexit)].
    + eapply search_goes; [exact Ep|]. by apply IH; [|apply Hmf|apply Hex].
    + assert (main_forward s') as Hm' by (destruct Hb as (t & head & r0 & [] & _); by intros _).
      destruct (IH Hs' Hm') as [_ Hbody]. destruct (Hbody Hb) as (r1 & Hr1 & Hr). eapply search_tries; [exact Ep|].
      case_decide as Hd; subst; [|by apply first_found]. apply first_next; [done|].
      destruct (decide (exit_answer s' = Failed)) as [Hf|Hf]; [rewrite Hf in *; apply first_next; [done|constructor]|by apply first_found].
  - intros Hb. destruct (effect_body s _ Hb Hs Ee) as [(Ep & Hp & Hend & _)|(s1 & Hrec & [= ->] & Ep)].
    + specialize (Hend s' eq_refl). apply body_answer; [done|]. eapply search_goes; [exact Ep|]. apply IH; [done|by apply body_main_forward|]. right. by left.
    + exists Failed. split; [by apply search_fails|]. cbn [decide]. rewrite decide_True by done.
      destruct (recovered_at_body s Hb) as (s2 & Hrec' & _ & Hpos & Hcap & Hd & t & first & _ & Hpc & Ht). rewrite Hrec in Hrec'. injection Hrec' as <-.
      rewrite (exit_answer_ext s s1) by done. eapply search_deterministic; [exact Hq|]. eapply exit_search; [exact Ht| |done|done]. rewrite Hcap. apply Hs.
Qed.

Lemma tracks_tries s l r : quick s = Ok (Tries l) → tracks_first l r → tracks s r.
Proof.
  intros Ee IH Hs Hm. assert (Forall (state_ok program input) l) as Hl.
  { apply Forall_forall. intros s' Hs'. by eapply good_successors. }
  split.
  - intros Hx. destruct (exact_follows s _ Hx Hs Hm Ee) as [(Ep & Hmf & Hex)|(sb & se & ? & _)]; [|done].
    eapply search_tries; [exact Ep|]. by apply IH; [|apply Forall_forall..].
  - intros Hb. destruct (effect_body s _ Hb Hs Ee) as [(Ep & Hp & Hend & _)|(s1 & Hrec & ? & Ep)]; [|done]. apply body_answer; [done|].
    eapply search_tries; [exact Ep|]. apply IH; [done| |]; apply Forall_forall; intros s' Hs'; [by apply body_main_forward, Hend|]. right. left. by apply Hend.
Qed.

(** A step other than these two happens in no committed state. *)
Lemma tracks_other s e r : quick s = Ok e → match e with Goes _ | Tries _ => False | _ => True end →
  (state_ok program input s → main_forward s → follows s e → plain_search (erase s) r) → tracks s r.
Proof.
  intros Ee He Hsame Hs Hm. split; [intros Hx; apply Hsame; [done|done|]; by apply exact_follows|].
  intros Hb. destruct (effect_body s _ Hb Hs Ee) as [(_ & _ & _ & ?)|(s1 & _ & -> & _)]; [by destruct e|done].
Qed.

Lemma follows_looks s kind body outer : state_ok program input s → quick s = Ok (Looks kind body outer) → follows s (Looks kind body outer) →
  plain (erase s) = Ok (Looks kind (erase body) (erase outer))
  ∧ (state_ok program input body ∧ main_forward body ∧ exact body) ∧ (state_ok program input outer ∧ main_forward outer ∧ terminal outer = None).
Proof.
  intros Hs Ee [(Ep & Hm & Hb & Ho)|(sb & se & ? & _)]; [|done]. split_and!; try done; try (eapply good_successors; [exact Hs|exact Ee|simpl; auto]); try (apply Hm; simpl; auto). by left.
Qed.

Lemma search_tracks s r : search recognize program input s r → tracks s r.
Proof.
  intros Hq. induction Hq as [s Ee|s s' r Ee Hq IH|s l r Ee Hq IH|s b c Ee|s o Ee|s kind body outer o Ee Hq IH|s kind body outer c Ee Hq IH
    |s kind body outer c r Ee Hq IH Hq' IH'|s kind body outer Ee Hq IH Hk|s kind body outer r Ee Hq IH Hk Hq' IH'| |s l r Hq IH Hne|s l r Hq IH Hq' IH']
    using search_mut with (P0 := tracks_first).
  - eapply tracks_other; [exact Ee|done|]. intros Hs Hm [(Ep & _)|(sb & se & ? & _)]; [by apply search_fails|done].
  - by eapply tracks_goes.
  - by eapply tracks_tries.
  - eapply tracks_other; [exact Ee|done|]. intros Hs Hm [(Ep & _)|(sb & se & ? & _)]; [by apply search_accepts|done].
  - eapply tracks_other; [exact Ee|done|]. intros Hs Hm [(Ep & _)|(sb & se & ? & _)]; [by apply search_ends|done].
  - eapply tracks_other; [exact Ee|done|]. intros Hs Hm (Ep & (Hb1 & Hb2 & Hb3) & _)%follows_looks; [|done..]. eapply search_looks_final; [exact Ep|]. by apply IH.
  - eapply tracks_other; [exact Ee|done|]. intros Hs Hm (Ep & (Hb1 & Hb2 & Hb3) & _)%follows_looks; [|done..]. eapply search_looks_negative; [exact Ep|]. by apply IH.
  - eapply tracks_other; [exact Ee|done|]. intros Hs Hm (Ep & (Hb1 & Hb2 & Hb3) & Ho1 & Ho2 & Ho3)%follows_looks; [|done..]. eapply search_looks_positive; [exact Ep|by apply IH|].
    assert (state_ok program input (set_captures outer c)) as Hc by (apply good_outer; [eapply search_captures; [exact Hq|exact Hb1|done]|done]). apply (IH' Hc Ho2). by left.
  - eapply tracks_other; [exact Ee|done|]. intros Hs Hm (Ep & (Hb1 & Hb2 & Hb3) & _)%follows_looks; [|done..]. eapply search_looks_failed; [exact Ep|by apply IH|done].
  - eapply tracks_other; [exact Ee|done|]. intros Hs Hm (Ep & (Hb1 & Hb2 & Hb3) & Ho1 & Ho2 & Ho3)%follows_looks; [|done..]. eapply search_looks_holds; [exact Ep|by apply IH|done|].
    apply (IH' Ho1 Ho2). by left.
  - intros _ _ _. constructor.
  - intros [Hs _]%Forall_cons [Hm _]%Forall_cons [Hx _]%Forall_cons. apply first_found; [by apply IH|done].
  - intros [Hs Hsl]%Forall_cons [Hm Hml]%Forall_cons [Hx Hxl]%Forall_cons. apply first_next; [by apply IH|by apply IH'].
Qed.
End shortcut.

(** ** Execution *)

(** The positions are tried in order: the first at which the search matches
    decides, a sticky expression tries one. *)
Inductive finds `{UnicodeData} (program : Program) (input : list Z) : nat → option (list (option (nat * nat))) → Prop :=
| finds_match candidate r m : search never program input (initial program candidate) r → top r = Some m → finds program input candidate (Some m)
| finds_stop candidate r : search never program input (initial program candidate) r → top r = None →
    sticky (flags program) = true ∨ candidate = length input → finds program input candidate None
| finds_next candidate r o : search never program input (initial program candidate) r → top r = None →
    sticky (flags program) = false → candidate ≠ length input →
    finds program input (advance_index input candidate (RegExpFlags.unicode_mode (flags program))) o → finds program input candidate o.

Section execution.
Context `{UnicodeData} (program : Program) (input : list Z) (limits : ExecLimits) (main : nat → bool) (Hst : structured program main).

Lemma finds_deterministic candidate o : finds program input candidate o → ∀ o', finds program input candidate o' → o = o'.
Proof.
  induction 1 as [c r m Hr Ht|c r Hr Ht Hs|c r o Hr Ht Hs Hc _ IH]; intros o' Ho'; inversion Ho' as [c' r' m' Hr'|c' r' Hr' Ht' Hs'|c' r' o1 Hr' Ht' Hs' Hc' Ho1]; subst;
    pose proof (search_deterministic _ _ _ _ _ Hr _ Hr'); subst r'; try congruence; try (destruct Hs; congruence); [destruct Hs'; congruence|]. by apply IH.
Qed.

Lemma candidate_exact candidate steps o steps' : (candidate ≤ length input)%nat →
  run_candidate (terminal_repeat program) program input limits candidate steps = (Ok o, steps') →
  ∃ r, search never program input (initial program candidate) r ∧ top r = o.
Proof.
  intros Hc E. apply run_candidate_search in E as (r & Hr & ->). exists r. split; [|done].
  apply (search_tracks program input main Hst _ _ Hr); [by apply initial_ok|by intros _|by left].
Qed.

Lemma execute_loop_finds fuel : ∀ candidate steps o steps', (candidate ≤ length input)%nat →
  execute_loop (terminal_repeat program) program input limits fuel candidate steps = (Ok o, steps') → finds program input candidate o.
Proof.
  induction fuel as [|fuel IH]; intros candidate steps o steps' Hc E; cbn [execute_loop] in E; [done|].
  destruct (max_steps limits <=? steps); [done|].
  destruct (run_candidate _ program input limits candidate (steps + 1)) as [[[m|]|e] steps1] eqn:Er; [| |done].
  - injection E as <- <-. apply candidate_exact in Er as (r & Hr & Ht); [|done]. by eapply finds_match.
  - apply candidate_exact in Er as (r & Hr & Ht); [|done]. destruct (sticky (flags program) || (candidate =? length input)%nat) eqn:Es.
    + injection E as <- <-. eapply finds_stop; [done|done|]. apply orb_true_iff in Es as [?|?%Nat.eqb_eq]; auto.
    + apply orb_false_iff in Es as [Hs Hne%Nat.eqb_neq]. eapply finds_next; [done..|]. eapply IH; [|exact E].
      unfold advance_index. destruct (decode_at _ _ _) as [[c n]|] eqn:Ed; [|done]. apply decode_at_bound in Ed. lia.
Qed.
End execution.

(** The conditions on a program are decidable. *)
#[export] Instance flows_dec main pc i : Decision (flows main pc i).
Proof. destruct i; simpl; apply _. Defined.
#[export] Instance consumes_dec i : Decision (consumes i).
Proof. destruct i; simpl; apply _. Defined.
Definition terminal_shape_check (program : Program) (head : nat) (i : Instruction) : bool :=
  match i with
  | Repeat slot min _ true body exit first last =>
      match terminal_repeat program slot body exit first last with
      | Some _ => bool_decide (min ≤ u64_max)
          && match instructions program !! S body with Some (RepeatEnd slot' head') => bool_decide (slot' = slot ∧ head' = head) | _ => false end
          && match instructions program !! body with Some token => bool_decide (consumes token) | None => true end
      | None => true
      end
  | _ => true
  end.
Definition structured_check (program : Program) (main : nat → bool) : bool :=
  bool_decide (program_ok program) && main 0%nat
  && forallb (λ '(pc, i), bool_decide (flows main pc i) && terminal_shape_check program pc i) (imap pair (instructions program)).

Lemma terminal_shape_checked program head i : terminal_shape_check program head i = true → terminal_shape program head i.
Proof.
  destruct i as [| | | | | | | | | | |slot min max [] body exit first last| |]; try done. simpl. destruct (terminal_repeat _ _ _ _ _ _) as [t|]; [|done].
  rewrite !andb_true_iff. intros [[Hm%bool_decide_eq_true_1 He] Ht]. split_and!; [|done|].
  - destruct (instructions program !! S body) as [[]|]; try done. by apply bool_decide_eq_true_1 in He as [-> ->].
  - intros token Hi. rewrite Hi in Ht. by apply bool_decide_eq_true_1 in Ht.
Qed.

Lemma structured_checked program main : structured_check program main = true → structured program main.
Proof.
  unfold structured_check. rewrite !andb_true_iff, forallb_forall. intros [[Hp%bool_decide_eq_true_1 H0] Hall].
  assert (∀ pc i, instructions program !! pc = Some i → flows main pc i ∧ terminal_shape program pc i) as Hi.
  { intros pc i Hpc. specialize (Hall (pc, i)). simpl in Hall. rewrite andb_true_iff in Hall. destruct Hall as [H1%bool_decide_eq_true_1 H2%terminal_shape_checked]; [|done].
    apply list_elem_of_In, list_elem_of_lookup. exists pc. by rewrite list_lookup_imap, Hpc. }
  split; naive_solver.
Qed.

Lemma execute_finds `{UnicodeData} program main input start limits o steps : structured program main → execute program input start limits = (Ok o, steps) →
  (start ≤ length input)%nat → ∀ o', finds program input start o' ↔ o' = o.
Proof.
  intros Hst E Hs. unfold execute, execute_with in E. rewrite (proj2 (Nat.ltb_ge _ _) Hs) in E. apply (execute_loop_finds _ _ _ _ Hst) in E; [|done].
  intros o'. split; [|by intros ->]. intros Ho'. symmetry. by eapply finds_deterministic.
Qed.

(** C19. The executor is the backtracking search: on every structured program,
    whenever [execute] answers, the answer is the one that the depth-first
    search over the choices of the program finds at the first candidate position
    that matches, and no other answer is derivable.  In this search a greedy
    repeat keeps its exit as an alternative, lookarounds are searches of their
    own that are left by their first success, and nothing is committed early:
    the stack of alternatives shared with lookaround frames and the shortcut for
    a repeat before an end anchor change no answer. *)
Theorem regexp_search_exact `{UnicodeData} program main input start limits o steps : structured program main →
  execute program input start limits = (Ok o, steps) →
  if (length input <? start)%nat then o = None else ∀ o', finds program input start o' ↔ o' = o.
Proof.
  intros Hst E. destruct (Nat.ltb_spec (length input) start) as [Hs|Hs]; [|by eapply execute_finds].
  unfold execute, execute_with in E. rewrite (proj2 (Nat.ltb_lt _ _) Hs) in E. by injection E as <- <-.
Qed.

(** The lookaround of the sample is not part of its main flow. *)
Definition sample_main (pc : nat) : bool := negb (bool_decide (pc ∈ [3; 4]%nat)).

Lemma sample_structured : structured sample_program sample_main.
Proof. apply structured_checked. vm_compute. done. Qed.

Lemma regexp_search_exact_witness :
  finds (H := ascii_data) sample_program [97; 98; 97] 0 (Some [Some (0, 3)%nat]) ∧ ¬ finds (H := ascii_data) sample_program [97; 98; 97] 0 None.
Proof.
  destruct (execute (H := ascii_data) sample_program [97; 98; 97] 0 sample_limits) as [r steps] eqn:E.
  assert (r = Ok (Some [Some (0, 3)%nat])) as -> by (vm_compute in E; by injection E as <- <-).
  pose proof (regexp_search_exact (H := ascii_data) _ _ _ _ _ _ _ sample_structured E) as Hf. cbn [Nat.ltb Nat.leb length] in Hf.
  split; [by apply Hf|]. intros Hn. by apply Hf in Hn.
Defined.
