(* ===== verification/RegExpCompiler.v ===== *)
(** * The regular-expression compiler

    Models [compile] of [crates/fusor-regexp/src/compiler.rs] from the syntax
    tree on: the numbering of the groups, the lowering of the tree by a stack of
    actions, labels and their resolution, character classes and the properties
    they name ([properties.rs]).  The tree is that of the parser library; its
    types here have the fields that the compiler reads.  The Unicode data of the
    library are the parameter [PropertyData]. *)

From S2P Require Import Prelude RuntimePrelude RegExp.
From stdpp Require Import list gmap strings.
Local Open Scope Z_scope.

Record CompileLimits : Set := mkCompileLimits {
  max_pattern_bytes : Z;
  max_instructions : nat;
  max_captures : nat;
  max_nesting : nat
}.

Inductive CompileError : Set :=
| InvalidFlags
| Syntax (message : string)
| ResourceLimit (resource : string)
| Unsupported (feature : string).

(** ** The syntax tree *)

(** A set of the three flags that a group may change. *)
Record Modifier : Set := mkModifier { modifier_i : bool; modifier_m : bool; modifier_s : bool }.
Record Modifiers : Set := mkModifiers { enabling : Modifier; disabling : Modifier }.

Record PropertyEscape : Set := mkPropertyEscape {
  escape_negative : bool;
  escape_strings : bool;
  escape_name : string;
  escape_value : option string
}.

Inductive CharacterClassEscapeKind : Set := EscapeD | EscapeNegativeD | EscapeS | EscapeNegativeS | EscapeW | EscapeNegativeW.

Inductive AstClass : Set :=
| mkAstClass (negative : bool) (kind : CharacterClassKind) (body : list ClassContents)
with ClassContents : Set :=
| ContentsRange (first last : Z)
| ContentsEscape (kind : CharacterClassEscapeKind)
| ContentsCharacter (value : Z)
| ContentsProperty (property : PropertyEscape)
| ContentsNested (class : AstClass)
| ContentsStrings (body : list (list Z)).

(** Where a node stands in the source, in bytes. *)
Notation Span := (Z * Z)%type (only parsing).

(** An alternative is a list of terms, a disjunction a list of alternatives.  A
    quantifier comes with the span of its body. *)
Inductive Term : Set :=
| BoundaryAssertion (kind : BoundaryKind)
| LookAroundAssertion (kind : LookaroundKind) (body : list (list Term))
| Quantifier (min : Z) (max : option Z) (greedy : bool) (body_span : Span) (body : Term)
| CharacterTerm (value : Z)
| DotTerm
| CharacterClassEscape (kind : CharacterClassEscapeKind)
| UnicodePropertyEscape (property : PropertyEscape)
| CharacterClassTerm (class : AstClass)
| CapturingGroup (span : Span) (name : option string) (body : list (list Term))
| IgnoreGroup (modifiers : option Modifiers) (body : list (list Term))
| IndexedReference (index : nat)
| NamedReference (name : string).
Notation Alternative := (list Term) (only parsing).
Notation Disjunction := (list (list Term)) (only parsing).

(** The weight that bounds the work on a tree. *)
Fixpoint term_size (t : Term) : nat :=
  let disjunction := fix disjunction (d : list (list Term)) : nat :=
    match d with
    | [] => O
    | a :: d => 6 + (fix alternative (a : list Term) : nat := match a with [] => O | t :: a => term_size t + alternative a end) a + disjunction d
    end%nat in
  match t with
  | LookAroundAssertion _ d | CapturingGroup _ _ d | IgnoreGroup _ d => 8 + disjunction d
  | Quantifier _ _ _ _ body => 8 + term_size body
  | _ => 2
  end%nat.
Definition alternative_size (a : list Term) : nat := list_sum (term_size <$> a).
Definition disjunction_size (d : list (list Term)) : nat := list_sum ((λ a, (6 + alternative_size a)%nat) <$> d).

(** ** Unicode properties *)

(** The tables of the library: sets by their name, values by their name, and the
    category, script and script extensions of a code point. *)
Class PropertyData : Type := {
  ecma262_set : string → option (Z → bool);
  category_named : string → option Z;
  category_group_named : string → option (Z → bool);
  script_named : string → option Z;
  category_of : Z → Z;
  script_of : Z → Z;
  has_script : Z → Z → bool
}.

Section with_data.
Context `{PropertyData}.

Definition compile_general_category (name : string) : UnicodePropertyMatcher :=
  match category_named name with
  | Some expected => CategoryExact category_of expected
  | None => match category_group_named name with Some expected => CategoryGroup category_of expected | None => Never end
  end.

Definition compile_script (name : string) (extensions : bool) : UnicodePropertyMatcher :=
  match script_named name with
  | None => Never
  | Some expected => if extensions then ScriptExtensions (λ c, has_script c expected) else Script script_of expected
  end.

Definition compile_lone_property (name : string) : UnicodePropertyMatcher :=
  if String.eqb name "Any" then Any
  else if String.eqb name "ASCII" then Ascii
  else if String.eqb name "Assigned" then Assigned category_of
  else match ecma262_set name with None => compile_general_category name | Some set => Binary set end.

Definition compile_code_point_matcher (name : string) (value : option string) : UnicodePropertyMatcher :=
  match value with
  | Some value =>
      if String.eqb name "General_Category" || String.eqb name "gc" then compile_general_category value
      else if String.eqb name "Script" || String.eqb name "sc" then compile_script value false
      else if String.eqb name "Script_Extensions" || String.eqb name "scx" then compile_script value true
      else Never
  | None => compile_lone_property name
  end.

Definition compile_property (negative strings : bool) (name : string) (value : option string) : UnicodeProperty :=
  mkProperty negative strings (if strings then EmojiString name else compile_code_point_matcher name value).

Definition supports (name : string) : bool :=
  existsb (String.eqb name)
    ["Basic_Emoji"; "Emoji_Keycap_Sequence"; "RGI_Emoji"; "RGI_Emoji_Modifier_Sequence"; "RGI_Emoji_Flag_Sequence";
     "RGI_Emoji_Tag_Sequence"; "RGI_Emoji_ZWJ_Sequence"]%string.

Definition lower_unicode_property (property : PropertyEscape) : outcome CompileError UnicodeProperty :=
  if escape_strings property && negb (supports (escape_name property)) then Err (Fail (Unsupported "RGI emoji ZWJ properties of strings"))
  else Ok (compile_property (escape_negative property) (escape_strings property) (escape_name property) (escape_value property)).

(** ** Character classes *)

Definition class_escape (kind : CharacterClassEscapeKind) : CharacterClassItem :=
  match kind with
  | EscapeD => Digit false
  | EscapeNegativeD => Digit true
  | EscapeS => Space false
  | EscapeNegativeS => Space true
  | EscapeW => WordItem false
  | EscapeNegativeW => WordItem true
  end.

(** [sort_by_key(|string| Reverse(string.len()))], which is stable *)
Fixpoint insert_string (value : list Z) (l : list (list Z)) : list (list Z) :=
  match l with
  | [] => [value]
  | first :: rest => if (length first <? length value)%nat then value :: l else first :: insert_string value rest
  end.
Definition sort_strings (l : list (list Z)) : list (list Z) := foldl (λ sorted value, insert_string value sorted) [] l.

(** [dedup] *)
Fixpoint dedup_strings (l : list (list Z)) : list (list Z) :=
  match l with
  | [] => []
  | value :: rest =>
      match dedup_strings rest with
      | (next :: _) as rest => if bool_decide (value = next) then rest else value :: rest
      | [] => [value]
      end
  end.

(** What the loop over the contents of a class has gathered. *)
Notation gathered := (list CharacterClassItem * list (list Z) * bool)%type (only parsing).

Definition string_class (alternatives : list (list Z)) : CharacterClass :=
  mkClass false RegExp.Union (Sequence <$> alternatives) alternatives false.

Fixpoint lower_character_class (class : AstClass) (depth max_depth : nat) {struct class} : outcome CompileError CharacterClass :=
  let '(mkAstClass negative kind body) := class in
  if (max_depth <? depth)%nat then Err (Fail (ResourceLimit "nesting")) else
  '(items, strings, has) ←
    (fix lower_contents (body : list ClassContents) (acc : gathered) : outcome CompileError gathered :=
       match body with
       | [] => Ok acc
       | content :: body =>
           let '(items, strings, has) := acc in
           match content with
           | ContentsRange first last => lower_contents body (items ++ [Range first last], strings, has)
           | ContentsEscape kind => lower_contents body (items ++ [class_escape kind], strings, has)
           | ContentsCharacter value => lower_contents body (items ++ [Range value value], strings, has)
           | ContentsProperty property =>
               property ← lower_unicode_property property;
               lower_contents body (items ++ [Property property], strings, has || property_strings property)
           | ContentsNested nested =>
               nested ← lower_character_class nested (S depth) max_depth;
               lower_contents body (items ++ [Nested nested], strings ++ RegExp.strings nested, has || has_string_properties nested)
           | ContentsStrings alternatives =>
               lower_contents body (items ++ [Nested (string_class alternatives)], strings ++ alternatives, has)
           end
       end) body ([], [], false);
  Ok (mkClass negative kind items (dedup_strings (sort_strings strings)) has).
End with_data.

(** ** Capture groups *)

Record CaptureMetadata : Set := mkMetadata {
  by_start : gmap Z nat;
  spans : list (Z * Z * nat);
  by_name : gmap string (list nat);
  names : list (option string)
}.
Definition no_captures : CaptureMetadata := mkMetadata ∅ [] ∅ [].

(** The groups in a span, as a range of indices; [usize::MAX] while there is none. *)
Definition within (self : CaptureMetadata) (first last : Z) : nat * nat :=
  let '(lower, upper) :=
    foldl (λ '(lower, upper) '(capture_start, capture_end, index),
      if (first <=? capture_start) && (capture_end <=? last) then (Z.min lower (Z.of_nat index), Nat.max upper (S index)) else (lower, upper))
      (u64_max, O) (spans self) in
  if lower =? u64_max then (O, O) else (Z.to_nat lower, upper).

Inductive Visit : Set :=
| VisitDisjunction (disjunction : list (list Term)) (depth : nat)
| VisitTerm (term : Term) (depth : nat).
Definition visit_size (v : Visit) : nat :=
  match v with VisitDisjunction d _ => S (disjunction_size d) | VisitTerm t _ => term_size t end.

Definition add_capture (self : CaptureMetadata) (span : Z * Z) (name : option string) : CaptureMetadata :=
  let index := S (length (spans self)) in
  mkMetadata (<[span.1 := index]> (by_start self)) (spans self ++ [(span, index)])
    (match name with Some name => <[name := default [] (by_name self !! name) ++ [index]]> (by_name self) | None => by_name self end)
    (names self ++ [name]).

(** One turn of the loop: the visits it pushes, first on top, and the captures. *)
Definition visit (limits : CompileLimits) (v : Visit) (self : CaptureMetadata) : outcome CompileError (list Visit * CaptureMetadata) :=
  match v with
  | VisitDisjunction disjunction depth =>
      if (max_nesting limits <? depth)%nat then Err (Fail (ResourceLimit "nesting"))
      else Ok ((λ term, VisitTerm term depth) <$> concat disjunction, self)
  | VisitTerm (CapturingGroup span name body) depth =>
      if (max_captures limits <? S (length (spans self)))%nat then Err (Fail (ResourceLimit "capture count"))
      else Ok ([VisitDisjunction body (S depth)], add_capture self span name)
  | VisitTerm (IgnoreGroup _ body) depth => Ok ([VisitDisjunction body (S depth)], self)
  | VisitTerm (LookAroundAssertion _ body) depth => Ok ([VisitDisjunction body (S depth)], self)
  | VisitTerm (Quantifier _ _ _ _ body) depth => Ok ([VisitTerm body (S depth)], self)
  | VisitTerm _ _ => Ok ([], self)
  end.

(** Every visit weighs more than those it pushes: the weight of the stack
    suffices. *)
Fixpoint collect_loop (fuel : nat) (limits : CompileLimits) (stack : list Visit) (self : CaptureMetadata) : outcome CompileError CaptureMetadata :=
  match stack with
  | [] => Ok self
  | v :: stack =>
      match fuel with
      | O => Err OutOfFuel
      | S fuel => '(pushed, self) ← visit limits v self; collect_loop fuel limits (pushed ++ stack) self
      end
  end.
Definition collect_captures (limits : CompileLimits) (pattern : list (list Term)) : outcome CompileError CaptureMetadata :=
  collect_loop (S (disjunction_size pattern)) limits [VisitDisjunction pattern 0] no_captures.

(** ** Code *)

(** An instruction whose targets are labels. *)
Notation UnresolvedInstruction := Instruction (only parsing).

Inductive Assembly : Type :=
| Label (label : nat)
| AssembledInstruction (instruction : Instruction).

Inductive Action : Type :=
| ActDisjunction (disjunction : list (list Term)) (mode : MatchMode) (direction : Direction)
| ActAlternative (alternative : list Term) (mode : MatchMode) (direction : Direction)
| ActTerm (term : Term) (mode : MatchMode) (direction : Direction)
| Emit (instruction : Instruction)
| Mark (label : nat).
Definition action_size (a : Action) : nat :=
  match a with
  | ActDisjunction d _ _ => 2 + disjunction_size d
  | ActAlternative a _ _ => 1 + alternative_size a
  | ActTerm t _ _ => term_size t
  | Emit _ | Mark _ => 1
  end%nat.

(** [Compiler]: what changes while it builds, besides the flags, limits and
    captures, which do not. *)
Record Output : Type := mkOutput {
  assembly : list Assembly;
  instruction_count : nat;
  next_label : nat;
  next_repeat : nat
}.
Definition no_output : Output := mkOutput [] 0 0 0.

Definition push_assembly (self : Output) (a : Assembly) : Output :=
  mkOutput (assembly self ++ [a]) (instruction_count self) (next_label self) (next_repeat self).
(** [label], called several times *)
Definition take_labels (self : Output) (n : nat) : Output :=
  mkOutput (assembly self) (instruction_count self) (next_label self + n) (next_repeat self).

(** [v.len() + 1] and the like do not reach [usize::MAX]; the count of repeats
    is checked. *)
Definition take_slot (self : Output) : outcome CompileError Output :=
  match checked_add_u64 (Z.of_nat (next_repeat self)) 1 with
  | Some _ => Ok (mkOutput (assembly self) (instruction_count self) (next_label self) (S (next_repeat self)))
  | None => Err (Fail (ResourceLimit "repeat count"))
  end.

Definition apply_modifier (value enabled disabled : bool) : bool :=
  let value := if enabled then true else value in
  if disabled then false else value.

Definition nested_mode (mode : MatchMode) (modifiers : option Modifiers) : MatchMode :=
  match modifiers with
  | None => mode
  | Some m =>
      mkMode (apply_modifier (ignore_case mode) (modifier_i (enabling m)) (modifier_i (disabling m)))
        (apply_modifier (multiline mode) (modifier_m (enabling m)) (modifier_m (disabling m)))
        (apply_modifier (dot_all mode) (modifier_s (enabling m)) (modifier_s (disabling m)))
        (unicode mode) (unicode_sets mode)
  end.

Section compiler.
Context `{PropertyData} (compiler_flags : RegExpFlags) (limits : CompileLimits) (metadata : CaptureMetadata).

Definition emit (self : Output) (instruction : Instruction) : outcome CompileError Output :=
  let self := mkOutput (assembly self) (S (instruction_count self)) (next_label self) (next_repeat self) in
  if (max_instructions limits <? instruction_count self)%nat then Err (Fail (ResourceLimit "instruction count"))
  else Ok (push_assembly self (AssembledInstruction instruction)).

(** The loop over the alternatives, from the next free label on. *)
Fixpoint alternatives_actions (d : list (list Term)) (mode : MatchMode) (direction : Direction) (end_ label : nat) : list Action :=
  match d with
  | [] => []
  | [alternative] => [ActAlternative alternative mode direction]
  | alternative :: d =>
      Emit (Split label (S label)) :: Mark label :: ActAlternative alternative mode direction :: Emit (Jump end_) :: Mark (S label)
      :: alternatives_actions d mode direction end_ (S (S label))
  end.

Definition schedule_disjunction (self : Output) (d : list (list Term)) (mode : MatchMode) (direction : Direction) : list Action * Output :=
  match d with
  | [alternative] => ([ActAlternative alternative mode direction], self)
  | _ =>
      let end_ := next_label self in
      (alternatives_actions d mode direction end_ (S end_) ++ [Mark end_], take_labels self (1 + 2 * (length d - 1)))
  end.

Definition single_item (item : CharacterClassItem) (strings : bool) : CharacterClass := mkClass false RegExp.Union [item] [] strings.

Definition schedule_term (self : Output) (term : Term) (mode : MatchMode) (direction : Direction) : outcome CompileError (list Action * Output) :=
  match term with
  | BoundaryAssertion kind => Ok ([Emit (Boundary kind mode)], self)
  | LookAroundAssertion kind d =>
      let body := next_label self in
      let exit := S body in
      Ok ([Emit (Lookaround kind body exit); Mark body; ActDisjunction d mode (LookaroundKind.direction kind); Emit (LookaroundAccept kind);
           Mark exit], take_labels self 2)
  | Quantifier min max greedy span quantified =>
      let slot := next_repeat self in
      self ← take_slot self;
      let head := next_label self in
      let body := S head in
      let exit := S body in
      let '(capture_start, capture_end) := within metadata span.1 span.2 in
      Ok ([Mark head; Emit (Repeat slot min max greedy body exit capture_start capture_end); Mark body; ActTerm quantified mode direction;
           Emit (RepeatEnd slot head); Mark exit], take_labels self 3)
  | CharacterTerm value => Ok ([Emit (Character value mode)], self)
  | DotTerm => Ok ([Emit (Dot mode)], self)
  | CharacterClassEscape kind => Ok ([Emit (Class (single_item (class_escape kind) false) mode)], self)
  | UnicodePropertyEscape property =>
      lowered ← lower_unicode_property property;
      Ok ([Emit (Class (single_item (Property lowered) (escape_strings property)) mode)], self)
  | CharacterClassTerm class =>
      lowered ← lower_character_class class 0 (max_nesting limits); Ok ([Emit (Class lowered mode)], self)
  | CapturingGroup span _ body =>
      index ← ok_or (by_start metadata !! span.1) (Fail (ResourceLimit "capture metadata"));
      Ok (match direction with
          | Forward => [Emit (SaveStart index); ActDisjunction body mode direction; Emit (SaveEnd index)]
          | Backward => [Emit (SaveEnd index); ActDisjunction body mode direction; Emit (SaveStart index)]
          end, self)
  | IgnoreGroup modifiers body => Ok ([ActDisjunction body (nested_mode mode modifiers) direction], self)
  | IndexedReference index => Ok ([Emit (BackReference [index] mode)], self)
  | NamedReference name =>
      captures ← ok_or (by_name metadata !! name) (Fail (Syntax "unknown named capture"));
      Ok ([Emit (BackReference captures mode)], self)
  end.

(** One turn of the loop of [build]: the actions it pushes, first on top. *)
Definition act (self : Output) (action : Action) : outcome CompileError (list Action * Output) :=
  match action with
  | ActDisjunction d mode direction => Ok (schedule_disjunction self d mode direction)
  | ActAlternative alternative mode direction =>
      Ok ((λ term, ActTerm term mode direction) <$> (match direction with Forward => alternative | Backward => rev alternative end), self)
  | ActTerm term mode direction => schedule_term self term mode direction
  | Emit instruction => self ← emit self instruction; Ok ([], self)
  | Mark label => Ok ([], push_assembly self (Label label))
  end.

(** Every action weighs more than those it pushes. *)
Fixpoint build_loop (fuel : nat) (actions : list Action) (self : Output) : outcome CompileError Output :=
  match actions with
  | [] => Ok self
  | action :: actions =>
      match fuel with
      | O => Err OutOfFuel
      | S fuel => '(pushed, self) ← act self action; build_loop fuel (pushed ++ actions) self
      end
  end.

(** The labels' places. *)
Fixpoint place_labels (code : list Assembly) (labels : list (option nat)) (pc : nat) : outcome CompileError (list (option nat)) :=
  match code with
  | [] => Ok labels
  | Label label :: code => labels ← write labels label (Some pc); place_labels code labels pc
  | AssembledInstruction _ :: code => place_labels code labels (S pc)
  end.

Definition target (labels : list (option nat)) (label : nat) : outcome CompileError nat :=
  place ← expect (labels !! label); ok_or place (Fail (ResourceLimit "unresolved instruction label")).

Definition resolve_instruction (labels : list (option nat)) (instruction : Instruction) : outcome CompileError Instruction :=
  match instruction with
  | Lookaround kind body exit => body ← target labels body; exit ← target labels exit; Ok (Lookaround kind body exit)
  | Split first second => first ← target labels first; second ← target labels second; Ok (Split first second)
  | Jump label => label ← target labels label; Ok (Jump label)
  | Repeat slot min max greedy body exit capture_start capture_end =>
      body ← target labels body; exit ← target labels exit; Ok (Repeat slot min max greedy body exit capture_start capture_end)
  | RepeatEnd slot head => head ← target labels head; Ok (RepeatEnd slot head)
  | instruction => Ok instruction
  end.

Fixpoint resolve_all (labels : list (option nat)) (code : list Assembly) : outcome CompileError (list Instruction) :=
  match code with
  | [] => Ok []
  | Label _ :: code => resolve_all labels code
  | AssembledInstruction instruction :: code =>
      instruction ← resolve_instruction labels instruction; rest ← resolve_all labels code; Ok (instruction :: rest)
  end.

Definition resolve (self : Output) : outcome CompileError (list Instruction) :=
  labels ← place_labels (assembly self) (replicate (next_label self) None) 0;
  resolve_all labels (assembly self).

Definition initial_actions (pattern : list (list Term)) : list Action :=
  [Emit (SaveStart 0); ActDisjunction pattern (RegExpFlags.initial_mode compiler_flags) Forward; Emit (SaveEnd 0); Emit MatchInstruction].

Definition build (pattern : list (list Term)) : outcome CompileError Program :=
  self ← build_loop (list_sum (action_size <$> initial_actions pattern)) (initial_actions pattern) no_output;
  instructions ← resolve self;
  Ok (mkProgram instructions (S (length (spans metadata))) (None :: names metadata) (next_repeat self) compiler_flags).
End compiler.

(** [compile], from the tree that the parser returns. *)
Definition compile_pattern `{PropertyData} (flags : RegExpFlags) (limits : CompileLimits) (pattern : list (list Term)) : outcome CompileError Program :=
  metadata ← collect_captures limits pattern; build flags limits metadata pattern.

Example lowered_strings : sort_strings [[]; [97]; [97; 98]; [98; 99]; [97; 98]] = [[97; 98]; [98; 99]; [97; 98]; [97]; []]
  ∧ dedup_strings [[97; 98]; [97; 98]; [97]; []; []] = [[97; 98]; [97]; []].
Proof. done. Qed.
