(* ===== verification/RegExpLayout.v ===== *)
(** * The layout of compiled code

    What the compiler of [RegExpCompiler.v] emits: the code of a term is laid out
    at consecutive places, inner code inside outer code, and its targets are the
    places of the layout.  The compiler always ends, with a program or an error
    of its own, and it marks every label once. *)

From S2P Require Import Prelude RuntimePrelude RegExp RegExpFacts RegExpSearch RegExpCompiler.
From stdpp Require Import list gmap strings.
Local Open Scope nat_scope.

(** ** Induction on terms *)

Section induction.
Context (P : Term → Prop).
Hypothesis (Pboundary : ∀ kind, P (BoundaryAssertion kind)).
Hypothesis (Plook : ∀ kind d, Forall (Forall P) d → P (LookAroundAssertion kind d)).
Hypothesis (Pquantifier : ∀ min max greedy span t, P t → P (Quantifier min max greedy span t)).
Hypothesis (Pcharacter : ∀ value, P (CharacterTerm value)).
Hypothesis (Pdot : P DotTerm).
Hypothesis (Pescape : ∀ kind, P (CharacterClassEscape kind)).
Hypothesis (Pproperty : ∀ property, P (UnicodePropertyEscape property)).
Hypothesis (Pclass : ∀ class, P (CharacterClassTerm class)).
Hypothesis (Pgroup : ∀ span name d, Forall (Forall P) d → P (CapturingGroup span name d)).
Hypothesis (Pignore : ∀ modifiers d, Forall (Forall P) d → P (IgnoreGroup modifiers d)).
Hypothesis (Pindexed : ∀ index, P (IndexedReference index)).
Hypothesis (Pnamed : ∀ name, P (NamedReference name)).

Fixpoint term_induction (t : Term) : P t :=
  let disjunction := fix disjunction (d : list (list Term)) : Forall (Forall P) d :=
    match d with
    | [] => Forall_nil_2 _
    | a :: d => Forall_cons_2 _ _ _
        ((fix alternative (a : list Term) : Forall P a :=
            match a with [] => Forall_nil_2 _ | t :: a => Forall_cons_2 _ _ _ (term_induction t) (alternative a) end) a) (disjunction d)
    end in
  match t with
  | BoundaryAssertion kind => Pboundary kind
  | LookAroundAssertion kind d => Plook kind d (disjunction d)
  | Quantifier min max greedy span t => Pquantifier min max greedy span t (term_induction t)
  | CharacterTerm value => Pcharacter value
  | DotTerm => Pdot
  | CharacterClassEscape kind => Pescape kind
  | UnicodePropertyEscape property => Pproperty property
  | CharacterClassTerm class => Pclass class
  | CapturingGroup span name d => Pgroup span name d (disjunction d)
  | IgnoreGroup modifiers d => Pignore modifiers d (disjunction d)
  | IndexedReference index => Pindexed index
  | NamedReference name => Pnamed name
  end.
End induction.

(** ** The compiler ends *)

(** A value, or an error other than that of a label without a place. *)
Definition no_fault {A} (m : outcome CompileError A) : Prop :=
  match m with
  | Ok _ => True
  | Err (Fail e) => e ≠ ResourceLimit "unresolved instruction label"
  | Err (Panic | OutOfFuel) => False
  end.

Lemma no_fault_bind {A B} (m : outcome CompileError A) (f : A → outcome CompileError B) : no_fault m → (∀ a, m = Ok a → no_fault (f a)) → no_fault (m ≫= f).
Proof. destruct m as [a|[]]; simpl; auto. Qed.

Lemma no_fault_ok_or {A} (o : option A) e : e ≠ ResourceLimit "unresolved instruction label" → no_fault (ok_or o (Fail e)).
Proof. by destruct o. Qed.

Lemma term_size_disjunction d : ∀ kind, term_size (LookAroundAssertion kind d) = 8 + disjunction_size d.
Proof.
  intros kind. unfold disjunction_size. cbn [term_size]. f_equal. induction d as [|a d IH]; [done|]. cbn [fmap list_fmap list_sum foldr]. rewrite IH. f_equal.
  unfold alternative_size. f_equal. clear. induction a as [|t a IH]; [done|]. cbn [fmap list_fmap list_sum foldr]. by rewrite IH.
Qed.

Lemma term_size_group span name d : term_size (CapturingGroup span name d) = 8 + disjunction_size d.
Proof. apply (term_size_disjunction d Ahead). Qed.
Lemma term_size_ignore modifiers d : term_size (IgnoreGroup modifiers d) = 8 + disjunction_size d.
Proof. apply (term_size_disjunction d Ahead). Qed.

Lemma disjunction_size_cons a d : disjunction_size (a :: d) = 6 + alternative_size a + disjunction_size d.
Proof. done. Qed.

Lemma list_sum_cons n l : list_sum (n :: l) = n + list_sum l.
Proof. done. Qed.

Lemma visits_size d depth : list_sum (visit_size <$> ((λ t, VisitTerm t depth) <$> concat d)) ≤ disjunction_size d.
Proof.
  induction d as [|a d IH]; [done|]. cbn [concat]. rewrite !fmap_app, list_sum_app, disjunction_size_cons, <- (list_fmap_compose _ visit_size a).
  change (list_sum ((visit_size ∘ (λ t, VisitTerm t depth)) <$> a)) with (alternative_size a). lia.
Qed.

Lemma list_sum_rev l : list_sum (rev l) = list_sum l.
Proof. induction l as [|n l IH]; [done|]. cbn [rev]. rewrite list_sum_app, IH, !list_sum_cons. cbn. lia. Qed.

(** The weight of what a turn pushes. *)
Lemma visit_lighter limits v self pushed self' : visit limits v self = Ok (pushed, self') → list_sum (visit_size <$> pushed) < visit_size v.
Proof.
  destruct v as [d depth|t depth]; cbn [visit visit_size].
  - case_match; [done|]. intros [= <- <-]. pose proof (visits_size d depth). lia.
  - destruct t; cbn [visit]; try (intros [= <- <-]; cbn; lia).
    + intros [= <- <-]. rewrite term_size_disjunction. cbn. lia.
    + case_match; [done|]. intros [= <- <-]. rewrite term_size_group. cbn. lia.
    + intros [= <- <-]. rewrite term_size_ignore. cbn. lia.
Qed.

Lemma collect_ends limits fuel : ∀ stack self, list_sum (visit_size <$> stack) ≤ fuel → no_fault (collect_loop fuel limits stack self).
Proof.
  assert (∀ v, 0 < visit_size v) as Hpos by (intros [|[]]; simpl; lia).
  induction fuel as [|fuel IH]; intros [|v stack] self Hf; try done.
  { rewrite fmap_cons, list_sum_cons in Hf. specialize (Hpos v). lia. }
  cbn [collect_loop]. apply no_fault_bind.
  - destruct v as [d depth|[]]; simpl; try done; by case_match.
  - intros [pushed self'] Hv%visit_lighter. apply IH. rewrite fmap_cons, list_sum_cons in Hf. rewrite fmap_app, list_sum_app. lia.
Qed.

Section ends.
Context `{PropertyData} (compiler_flags : RegExpFlags) (limits : CompileLimits) (metadata : CaptureMetadata).
Notation act := (act limits metadata).
Notation build_loop := (build_loop limits metadata).

Lemma lower_property_ends property : no_fault (lower_unicode_property property).
Proof. unfold lower_unicode_property. by case_match. Qed.

Lemma lower_class_ends class : ∀ depth max_depth, no_fault (lower_character_class class depth max_depth).
Proof.
  revert class. fix IH 1. intros [negative kind body] depth max_depth. cbn [lower_character_class]. destruct (max_depth <? depth); [done|].
  apply no_fault_bind; [|by intros [[items strings] has] _].
  generalize (([], [], false) : list CharacterClassItem * list (list Z) * bool). induction body as [|content body IHb]; intros [[items strings] has]; [done|].
  destruct content as [first last|k|value|property|nested|alternatives]; try apply IHb.
  - apply no_fault_bind; [apply lower_property_ends|intros; apply IHb].
  - apply no_fault_bind; [apply IH|intros; apply IHb].
Qed.

Lemma alternatives_lighter d mode direction e : ∀ label, list_sum (action_size <$> alternatives_actions d mode direction e label) ≤ disjunction_size d.
Proof.
  induction d as [|a d IH]; intros label; [done|]. rewrite disjunction_size_cons. destruct d as [|a' d]; [cbn; lia|].
  specialize (IH (S (S label))). change (alternatives_actions (a :: a' :: d) mode direction e label) with ([Emit (Split label (S label)); Mark label;
    ActAlternative a mode direction; Emit (Jump e); Mark (S label)] ++ alternatives_actions (a' :: d) mode direction e (S (S label))).
  rewrite fmap_app, list_sum_app. change (list_sum (action_size <$> [Emit (Split label (S label)); Mark label; ActAlternative a mode direction; Emit (Jump e); Mark (S label)]))
    with (1 + (1 + (1 + alternative_size a + 2))). lia.
Qed.

Lemma act_lighter self action pushed self' : act self action = Ok (pushed, self') → list_sum (action_size <$> pushed) < action_size action.
Proof.
  destruct action as [d mode direction|a mode direction|t mode direction|i|label]; cbn [RegExpCompiler.act].
  - intros [= E]. assert (pushed = (schedule_disjunction self d mode direction).1) as -> by (by rewrite E).
    pose proof (alternatives_lighter d mode direction (next_label self) (S (next_label self))) as Hl. unfold schedule_disjunction. clear E.
    destruct d as [|a [|a' d]]; cbn [fst action_size]; [cbn; lia|cbn; lia|]. rewrite fmap_app, list_sum_app.
    change (list_sum (action_size <$> [Mark (next_label self)])) with 1. lia.
  - intros [= <- <-]. rewrite <- list_fmap_compose. cbn [action_size]. unfold alternative_size.
    assert (list_sum ((action_size ∘ (λ t, ActTerm t mode direction)) <$> match direction with Forward => a | Backward => rev a end) = list_sum (term_size <$> a)) as ->; [|lia].
    destruct direction; [done|]. clear. rewrite fmap_rev. unfold compose. cbn [action_size]. by rewrite list_sum_rev.
  - destruct t; cbn [schedule_term]; try (intros [= <- <-]; cbn; lia).
    + intros [= <- <-]. cbn [action_size]. rewrite term_size_disjunction. cbn. lia.
    + destruct (take_slot self) as [self1|]; [|done]. cbn [mbind result_bind]. destruct (within _ _ _). intros [= <- <-]. cbn. lia.
    + destruct (lower_unicode_property property) as [l|]; [|done]. cbn [mbind result_bind]. intros [= <- <-]. cbn. lia.
    + destruct (lower_character_class _ _ _) as [l|]; [|done]. cbn [mbind result_bind]. intros [= <- <-]. cbn. lia.
    + destruct (ok_or _ _) as [index|]; [|done]. cbn [mbind result_bind]. intros [= <- <-]. cbn [action_size]. rewrite term_size_group. destruct direction; cbn; lia.
    + intros [= <- <-]. cbn [action_size]. rewrite term_size_ignore. cbn. lia.
    + destruct (ok_or _ _) as [index|]; [|done]. cbn [mbind result_bind]. intros [= <- <-]. cbn. lia.
  - destruct (emit _ _ _) as [self1|]; [|done]. cbn. intros [= <- <-]. cbn. lia.
  - intros [= <- <-]. cbn. lia.
Qed.

Lemma act_ends self action : no_fault (act self action).
Proof.
  destruct action as [d mode direction|a mode direction|t mode direction|i|label]; cbn [RegExpCompiler.act]; try done.
  - destruct t; cbn [schedule_term]; try done.
    + apply no_fault_bind; [unfold take_slot; by case_match|]. intros self1 _. by destruct (within _ _ _).
    + apply no_fault_bind; [apply lower_property_ends|done].
    + apply no_fault_bind; [apply lower_class_ends|done].
    + apply no_fault_bind; [by apply no_fault_ok_or|done].
    + apply no_fault_bind; [by apply no_fault_ok_or|done].
  - apply no_fault_bind; [|done]. unfold emit. by case_match.
Qed.

Lemma action_size_pos a : 0 < action_size a.
Proof. destruct a as [| |[]| |]; cbn; lia. Qed.

Lemma build_ends fuel : ∀ actions self, list_sum (action_size <$> actions) ≤ fuel → no_fault (build_loop fuel actions self).
Proof.
  induction fuel as [|fuel IH]; intros [|a actions] self Hf; try done; rewrite fmap_cons, list_sum_cons in Hf; pose proof (action_size_pos a); [lia|].
  cbn [RegExpCompiler.build_loop]. apply no_fault_bind; [apply act_ends|]. intros [pushed self'] Ha%act_lighter. apply IH. rewrite fmap_app, list_sum_app. lia.
Qed.

(** *** Runs *)

Inductive runs : list Action → Output → Output → Prop :=
| runs_nil s : runs [] s s
| runs_cons a l s pushed s1 o : act s a = Ok (pushed, s1) → runs (pushed ++ l) s1 o → runs (a :: l) s o.

Lemma build_runs fuel : ∀ actions s o, build_loop fuel actions s = Ok o → runs actions s o.
Proof.
  induction fuel as [|fuel IH]; intros [|a actions] s o E; cbn [RegExpCompiler.build_loop] in E; try done; try (injection E as <-; constructor).
  destruct (act s a) as [[pushed s1]|] eqn:Ea; [|done]. eapply runs_cons; [done|by apply IH].
Qed.

Lemma runs_app l k s o : runs (l ++ k) s o → ∃ m, runs l s m ∧ runs k m o.
Proof.
  intros Hr. remember (l ++ k) as all eqn:Eall. revert l k Eall. induction Hr as [s|a all s pushed s1 o Ea Hr IH]; intros l k Eall.
  - symmetry in Eall. apply app_eq_nil in Eall as [-> ->]. exists s. split; constructor.
  - destruct l as [|a' l]; simpl in Eall.
    + subst k. exists s. split; [constructor|by eapply runs_cons].
    + injection Eall as -> ->. destruct (IH (pushed ++ l) k ltac:(by rewrite app_assoc)) as (m & H1 & H2). exists m. split; [by eapply runs_cons|done].
Qed.

Lemma runs_cons_inv a l s o : runs (a :: l) s o → ∃ m, runs [a] s m ∧ runs l m o.
Proof. apply (runs_app [a]). Qed.

Lemma runs_one a s o : runs [a] s o → ∃ pushed s1, act s a = Ok (pushed, s1) ∧ runs pushed s1 o.
Proof. inversion 1; subst. rewrite app_nil_r in *. eauto. Qed.
End ends.

(** ** What a run emits *)

Definition marks (code : list Assembly) : list nat := omap (λ a, match a with Label l => Some l | AssembledInstruction _ => None end) code.
Definition ins (code : list Assembly) : nat := length (omap (λ a, match a with Label _ => None | AssembledInstruction i => Some i end) code).
Definition targets (i : Instruction) : list nat :=
  match i with
  | Lookaround _ body exit => [body; exit]
  | Split first second => [first; second]
  | Jump label => [label]
  | Repeat _ _ _ _ body exit _ _ => [body; exit]
  | RepeatEnd _ head => [head]
  | _ => []
  end.
Definition targets_below (n : nat) (a : Assembly) : Prop :=
  match a with Label _ => True | AssembledInstruction i => Forall (λ l, l < n) (targets i) end.

(** [code] is appended; besides the labels taken on the way, each marked once, it
    marks [extra]. *)
Record emitted (s o : Output) (extra : list nat) (code : list Assembly) : Prop := mkEmitted {
  emitted_code : assembly o = assembly s ++ code;
  emitted_labels : next_label s ≤ next_label o;
  emitted_marks : marks code ≡ₚ extra ++ seq (next_label s) (next_label o - next_label s);
  emitted_slots : next_repeat s ≤ next_repeat o;
  emitted_targets : Forall (targets_below (next_label o)) code
}.

Lemma targets_mono n m a : n ≤ m → targets_below n a → targets_below m a.
Proof. destruct a as [|i]; [done|]. simpl. intros Hn Ht. eapply Forall_impl; [exact Ht|]. simpl. lia. Qed.

Lemma seq_split n k m : n ≤ k → k ≤ m → seq n (m - n) = seq n (k - n) ++ seq k (m - k).
Proof. intros. replace (m - n) with ((k - n) + (m - k)) by lia. rewrite seq_app. do 2 f_equal. lia. Qed.

Lemma emitted_nil s : emitted s s [] [].
Proof. split; try done; [by rewrite app_nil_r|by rewrite Nat.sub_diag]. Qed.

Lemma emitted_app s m o x1 x2 c1 c2 : emitted s m x1 c1 → emitted m o x2 c2 → emitted s o (x1 ++ x2) (c1 ++ c2).
Proof.
  intros [C1 L1 M1 S1 T1] [C2 L2 M2 S2 T2]. split; [by rewrite C2, C1, app_assoc|lia| |lia|].
  - unfold marks in *. rewrite omap_app, M1, M2. rewrite (seq_split (next_label s) (next_label m) (next_label o)) by done. solve_Permutation.
  - apply Forall_app. split; [|done]. eapply Forall_impl; [exact T1|]. intros a. by apply targets_mono.
Qed.

(** The labels taken before the code is emitted are marked in it. *)
Lemma emitted_taken s n o x code : emitted (take_labels s n) o x code → x ≡ₚ seq (next_label s) n → emitted s o [] code.
Proof.
  intros [C L M S T] Hx. cbn in *. split; try done; [lia|]. rewrite M, Hx. cbn. rewrite (seq_split (next_label s) (next_label s + n) (next_label o)) by lia.
  f_equiv. by rewrite Nat.add_comm, Nat.add_sub.
Qed.

Lemma emitted_slot s o x code : emitted (mkOutput (assembly s) (instruction_count s) (next_label s) (S (next_repeat s))) o x code → emitted s o x code.
Proof. intros [C L M S T]. cbn in *. split; try done. lia. Qed.

(** Between two places the program holds the code, with its labels placed by [L]. *)
Definition relocate (L : nat → nat) (i : Instruction) : Instruction :=
  match i with
  | Lookaround kind body exit => Lookaround kind (L body) (L exit)
  | Split first second => Split (L first) (L second)
  | Jump label => Jump (L label)
  | Repeat slot min max greedy body exit first last => Repeat slot min max greedy (L body) (L exit) first last
  | RepeatEnd slot head => RepeatEnd slot (L head)
  | i => i
  end.

Fixpoint embeds (L : nat → nat) (program : Program) (p : nat) (code : list Assembly) : Prop :=
  match code with
  | [] => True
  | Label l :: code => L l = p ∧ embeds L program p code
  | AssembledInstruction i :: code => instructions program !! p = Some (relocate L i) ∧ embeds L program (S p) code
  end.

Lemma ins_app c1 c2 : ins (c1 ++ c2) = ins c1 + ins c2.
Proof. unfold ins. by rewrite omap_app, length_app. Qed.

Lemma embeds_app L program c1 : ∀ p c2, embeds L program p (c1 ++ c2) ↔ embeds L program p c1 ∧ embeds L program (p + ins c1) c2.
Proof.
  induction c1 as [|[l|i] c1 IH]; intros p c2; simpl.
  - rewrite Nat.add_0_r. naive_solver.
  - rewrite IH. change (ins (Label l :: c1)) with (ins c1). naive_solver.
  - rewrite IH. change (ins (AssembledInstruction i :: c1)) with (S (ins c1)). rewrite Nat.add_succ_r. naive_solver.
Qed.

(** ** Layout *)

Section layout.
Context `{PropertyData} (limits : CompileLimits) (metadata : CaptureMetadata).
Notation runs := (runs limits metadata).

(** The instruction of a term that has one. *)
Definition leaf (t : Term) (mode : MatchMode) (i : Instruction) : Prop :=
  match t with
  | BoundaryAssertion kind => i = Boundary kind mode
  | CharacterTerm value => i = Character value mode
  | DotTerm => i = Dot mode
  | CharacterClassEscape kind => i = Class (single_item (class_escape kind) false) mode
  | UnicodePropertyEscape property => ∃ l, lower_unicode_property property = Ok l ∧ i = Class (single_item (Property l) (escape_strings property)) mode
  | CharacterClassTerm class => ∃ l, lower_character_class class 0 (max_nesting limits) = Ok l ∧ i = Class l mode
  | IndexedReference index => i = BackReference [index] mode
  | NamedReference name => ∃ l, by_name metadata !! name = Some l ∧ i = BackReference l mode
  | _ => False
  end.

(** The terms of an alternative in the order of their code. *)
Definition ordered (direction : Direction) (a : list Term) : list Term := match direction with Forward => a | Backward => rev a end.

(** The code of a term at the places from [p] to [q], its repeats numbered from
    [k] to [k']. *)
Inductive lays (program : Program) : Term → MatchMode → Direction → nat → nat → nat → nat → Prop :=
| lays_leaf t mode direction p k i : leaf t mode i → instructions program !! p = Some i → lays program t mode direction p (S p) k k
| lays_look kind d mode direction p q k k' : instructions program !! p = Some (Lookaround kind (S p) (S q)) →
    lays_disjunction program d mode (LookaroundKind.direction kind) (S p) q k k' → instructions program !! q = Some (LookaroundAccept kind) →
    lays program (LookAroundAssertion kind d) mode direction p (S q) k k'
| lays_quantifier min max greedy span t mode direction p q k k' :
    instructions program !! p = Some (Repeat k min max greedy (S p) (S q) (within metadata span.1 span.2).1 (within metadata span.1 span.2).2) →
    lays program t mode direction (S p) q (S k) k' → instructions program !! q = Some (RepeatEnd k p) →
    lays program (Quantifier min max greedy span t) mode direction p (S q) k k'
| lays_group span name d mode direction p q k k' index : by_start metadata !! span.1 = Some index →
    instructions program !! p = Some (match direction with Forward => SaveStart index | Backward => SaveEnd index end) →
    lays_disjunction program d mode direction (S p) q k k' →
    instructions program !! q = Some (match direction with Forward => SaveEnd index | Backward => SaveStart index end) →
    lays program (CapturingGroup span name d) mode direction p (S q) k k'
| lays_ignore modifiers d mode direction p q k k' : lays_disjunction program d (nested_mode mode modifiers) direction p q k k' →
    lays program (IgnoreGroup modifiers d) mode direction p q k k'
with lays_sequence (program : Program) : list Term → MatchMode → Direction → nat → nat → nat → nat → Prop :=
| lays_nil mode direction p k : lays_sequence program [] mode direction p p k k
| lays_cons t l mode direction p r q k k1 k' : lays program t mode direction p r k k1 → lays_sequence program l mode direction r q k1 k' →
    lays_sequence program (t :: l) mode direction p q k k'
with lays_disjunction (program : Program) : list (list Term) → MatchMode → Direction → nat → nat → nat → nat → Prop :=
| lays_none mode direction p k : lays_disjunction program [] mode direction p p k k
| lays_last a mode direction p q k k' : lays_sequence program (ordered direction a) mode direction p q k k' →
    lays_disjunction program [a] mode direction p q k k'
| lays_alternatives a a' d mode direction p r q k k1 k' : instructions program !! p = Some (Split (S p) (S r)) →
    lays_sequence program (ordered direction a) mode direction (S p) r k k1 → instructions program !! r = Some (Jump q) →
    lays_disjunction program (a' :: d) mode direction (S r) q k1 k' → lays_disjunction program (a :: a' :: d) mode direction p q k k'.

(** What a run of a term's action yields. *)
Definition yields (t : Term) : Prop := ∀ mode direction s o, runs [ActTerm t mode direction] s o →
  ∃ code, emitted s o [] code ∧ ∀ L program p, embeds L program p code → lays program t mode direction p (p + ins code) (next_repeat s) (next_repeat o).

Lemma runs_emit i s o : runs [Emit i] s o → Forall (λ l, l < next_label s) (targets i) →
  emitted s o [] [AssembledInstruction i] ∧ next_label o = next_label s ∧ next_repeat o = next_repeat s.
Proof.
  intros (pushed & s1 & Ea & Hr)%runs_one Ht. cbn [act] in Ea. unfold emit in Ea. destruct (_ <? _); [done|]. injection Ea as <- <-. inversion Hr; subst. cbn.
  split_and!; [|done|done]. split; cbn; try done; [by rewrite Nat.sub_diag|]. by constructor.
Qed.

Lemma runs_mark l s o : runs [Mark l] s o → emitted s o [l] [Label l] ∧ next_label o = next_label s ∧ next_repeat o = next_repeat s.
Proof.
  intros (pushed & s1 & Ea & Hr)%runs_one. injection Ea as <- <-. inversion Hr; subst. cbn. split_and!; [|done|done].
  split; cbn; try done; [by rewrite Nat.sub_diag|]. by constructor.
Qed.

Lemma sequence_yields mode direction l : Forall yields l → ∀ s o, runs ((λ t, ActTerm t mode direction) <$> l) s o →
  ∃ code, emitted s o [] code ∧ ∀ L program p, embeds L program p code →
    lays_sequence program l mode direction p (p + ins code) (next_repeat s) (next_repeat o).
Proof.
  induction 1 as [|t l Ht _ IH]; intros s o Hr.
  - inversion Hr; subst. exists []. split; [apply emitted_nil|]. intros L program p _. rewrite Nat.add_0_r. constructor.
  - rewrite fmap_cons in Hr. apply runs_cons_inv in Hr as (m & H1 & H2). destruct (Ht _ _ _ _ H1) as (c1 & E1 & Y1). destruct (IH _ _ H2) as (c2 & E2 & Y2).
    exists (c1 ++ c2). split; [by apply (emitted_app _ _ _ [] [] _ _ E1 E2)|]. intros L program p [Hc1 Hc2]%embeds_app. rewrite ins_app, Nat.add_assoc.
    econstructor; [by eapply Y1|by eapply Y2].
Qed.

Lemma alternative_yields mode direction a s o : Forall yields a → runs [ActAlternative a mode direction] s o →
  ∃ code, emitted s o [] code ∧ ∀ L program p, embeds L program p code →
    lays_sequence program (ordered direction a) mode direction p (p + ins code) (next_repeat s) (next_repeat o).
Proof.
  intros Ha (pushed & s1 & Ea & Hr)%runs_one. injection Ea as <- <-. apply sequence_yields; [|by destruct direction].
  destruct direction; [done|by apply Forall_rev].
Qed.

Lemma alternatives_yield mode direction e d : Forall (Forall yields) d → ∀ label s o, runs (alternatives_actions d mode direction e label) s o →
  e < next_label s → label + 2 * (length d - 1) ≤ next_label s →
  ∃ code, emitted s o (seq label (2 * (length d - 1))) code ∧ ∀ L program p, L e = p + ins code → embeds L program p code →
    lays_disjunction program d mode direction p (p + ins code) (next_repeat s) (next_repeat o).
Proof.
  induction 1 as [|a d Ha Hd IH]; intros label s o Hr He Hl.
  - inversion Hr; subst. exists []. split; [apply emitted_nil|]. intros L program p _ _. rewrite Nat.add_0_r. constructor.
  - destruct d as [|a' d]; cbn [alternatives_actions] in Hr.
    { destruct (alternative_yields _ _ _ _ _ Ha Hr) as (code & E & Y). exists code. split; [exact E|]. intros L program p _ Hc. constructor. by eapply Y. }
    cbn [length] in Hl. apply runs_cons_inv in Hr as (s1 & R1 & (s2 & R2 & (s3 & R3 & (s4 & R4 & (s5 & R5 & R6)%runs_cons_inv)%runs_cons_inv)%runs_cons_inv)%runs_cons_inv).
    apply runs_emit in R1 as (E1 & L1 & K1); [|repeat constructor; lia]. apply runs_mark in R2 as (E2 & L2 & K2).
    destruct (alternative_yields _ _ _ _ _ Ha R3) as (c3 & E3 & Y3). pose proof (emitted_labels _ _ _ _ E3).
    apply runs_emit in R4 as (E4 & L4 & K4); [|repeat constructor; lia]. apply runs_mark in R5 as (E5 & L5 & K5).
    destruct (IH (S (S label)) s5 o R6 ltac:(lia) ltac:(cbn [length]; lia)) as (c6 & E6 & Y6).
    pose proof (emitted_app _ _ _ _ _ _ _ E1 (emitted_app _ _ _ _ _ _ _ E2 (emitted_app _ _ _ _ _ _ _ E3 (emitted_app _ _ _ _ _ _ _ E4 (emitted_app _ _ _ _ _ _ _ E5 E6))))) as E.
    eexists. split; [|].
    { replace (seq label (2 * (length (a :: a' :: d) - 1))) with ([] ++ [label] ++ [] ++ [] ++ [S label] ++ seq (S (S label)) (2 * (length (a' :: d) - 1))); [exact E|].
      cbn [length app]. by replace (2 * (S (S (length d)) - 1)) with (S (S (2 * (S (length d) - 1)))) by lia. }
    intros L program p HL Hc. cbn [app embeds relocate] in Hc. destruct Hc as (I1 & HL1 & Hc). apply embeds_app in Hc as [Hc3 (I4 & HL5 & Hc6)].
    cbn [app] in HL |- *. change (ins (AssembledInstruction (Split label (S label)) :: Label label :: c3 ++ AssembledInstruction (Jump e) :: Label (S label) :: c6))
      with (S (ins (c3 ++ AssembledInstruction (Jump e) :: Label (S label) :: c6))) in *. rewrite ins_app in *.
    change (ins (AssembledInstruction (Jump e) :: Label (S label) :: c6)) with (S (ins c6)) in *. rewrite HL1, HL5 in *.
    replace (p + S (ins c3 + S (ins c6))) with (S (S p + ins c3) + ins c6) in * by lia.
    eapply lays_alternatives; [exact I1|rewrite <- K1, <- K2; by eapply Y3|by rewrite <- HL|]. rewrite <- K4, <- K5. by eapply Y6.
Qed.

Lemma disjunction_yields mode direction d s o : Forall (Forall yields) d → runs [ActDisjunction d mode direction] s o →
  ∃ code, emitted s o [] code ∧ ∀ L program p, embeds L program p code →
    lays_disjunction program d mode direction p (p + ins code) (next_repeat s) (next_repeat o).
Proof.
  intros Hd (pushed & s1 & Ea & Hr)%runs_one. cbn [act] in Ea. injection Ea as Es.
  assert ((∃ a, d = [a]) ∨ schedule_disjunction s d mode direction = (alternatives_actions d mode direction (next_label s) (S (next_label s)) ++ [Mark (next_label s)],
    take_labels s (1 + 2 * (length d - 1)))) as [(a & ->)|Es'].
  { destruct d as [|a [|a' d]]; [by right|left; by eexists|by right]. }
  - injection Es as <- <-. apply Forall_cons in Hd as [Hd _]. destruct (alternative_yields _ _ _ _ _ Hd Hr) as (code & E & Y). exists code. split; [exact E|].
    intros L program p Hc. constructor. by eapply Y.
  - rewrite Es' in Es. injection Es as <- <-. apply runs_app in Hr as (m & R1 & R2). apply runs_mark in R2 as (E2 & L2 & K2).
    destruct (alternatives_yield mode direction (next_label s) d Hd _ _ _ R1) as (c1 & E1 & Y1); [cbn; lia|cbn; lia|].
    pose proof (emitted_app _ _ _ _ _ _ _ E1 E2) as E. eexists. split.
    { eapply emitted_taken; [exact E|]. cbn [Nat.add seq]. by rewrite <- Permutation_cons_append. }
    intros L program p [Hc1 [HL _]]%embeds_app. rewrite ins_app, Nat.add_0_r. rewrite K2. by eapply Y1.
Qed.

Lemma leaf_yields t s o mode direction i : runs [ActTerm t mode direction] s o → act limits metadata s (ActTerm t mode direction) = Ok ([Emit i], s) →
  leaf t mode i → targets i = [] →
  ∃ code, emitted s o [] code ∧ ∀ L program p, embeds L program p code → lays program t mode direction p (p + ins code) (next_repeat s) (next_repeat o).
Proof.
  intros (pushed & s1 & Ea & Hr)%runs_one Ea' Hleaf Ht. rewrite Ea in Ea'. injection Ea' as -> ->. apply runs_emit in Hr as (E & _ & ->); [|by rewrite Ht].
  eexists. split; [exact E|]. intros L program p [Hi _]. cbn. rewrite Nat.add_1_r. eapply lays_leaf; [exact Hleaf|]. rewrite Hi. by destruct i.
Qed.

Lemma term_yields t : yields t.
Proof.
  induction t as [kind|kind d IH|min max greedy span t IH|value| |kind|property|class|span name d IH|modifiers d IH|index|name] using term_induction; intros mode direction s o Hr.
  1, 4, 5, 6, 11: by eapply leaf_yields.
  - apply runs_one in Hr as (pushed & s1 & Ea & Hr). injection Ea as <- <-.
    apply runs_cons_inv in Hr as (s2 & R1 & (s3 & R2 & (s4 & R3 & (s5 & R4 & R5)%runs_cons_inv)%runs_cons_inv)%runs_cons_inv).
    apply runs_emit in R1 as (E1 & L1 & K1); [|cbn; repeat constructor; lia]. apply runs_mark in R2 as (E2 & L2 & K2).
    destruct (disjunction_yields _ _ _ _ _ IH R3) as (c3 & E3 & Y3). apply runs_emit in R4 as (E4 & L4 & K4); [|done]. apply runs_mark in R5 as (E5 & L5 & K5).
    pose proof (emitted_app _ _ _ _ _ _ _ E1 (emitted_app _ _ _ _ _ _ _ E2 (emitted_app _ _ _ _ _ _ _ E3 (emitted_app _ _ _ _ _ _ _ E4 E5)))) as E.
    eexists. split; [eapply emitted_taken; [exact E|done]|].
    intros L program p Hc. cbn [app embeds relocate] in Hc. destruct Hc as (I1 & HL1 & Hc). apply embeds_app in Hc as [Hc3 (I4 & HL5 & _)].
    rewrite HL1, HL5 in I1. cbn [app]. match goal with |- context [ins (?a :: ?b :: c3 ++ ?l)] => change (ins (a :: b :: c3 ++ l)) with (S (ins (c3 ++ l))) end.
    rewrite ins_app. replace (p + S (ins c3 + _)) with (S (S p + ins c3)) by (cbn; lia).
    rewrite K5, K4. eapply lays_look; [exact I1| |exact I4]. replace (next_repeat s) with (next_repeat s3) by (by rewrite K2, K1). by eapply Y3.
  - apply runs_one in Hr as (pushed & s1 & Ea & Hr). cbn [act schedule_term] in Ea. unfold take_slot in Ea. destruct (checked_add_u64 _ _); [|done].
    cbn [mbind result_bind next_label] in Ea. destruct (within metadata span.1 span.2) as [first last] eqn:Ew. injection Ea as <- <-.
    apply runs_cons_inv in Hr as (s2 & R1 & (s3 & R2 & (s4 & R3 & (s5 & R4 & (s6 & R5 & R6)%runs_cons_inv)%runs_cons_inv)%runs_cons_inv)%runs_cons_inv).
    apply runs_mark in R1 as (E1 & L1 & K1). apply runs_emit in R2 as (E2 & L2 & K2); [|cbn in *; repeat constructor; lia]. apply runs_mark in R3 as (E3 & L3 & K3).
    destruct (IH _ _ _ _ R4) as (c4 & E4 & Y4). pose proof (emitted_labels _ _ _ _ E4). apply runs_emit in R5 as (E5 & L5 & K5); [|cbn in *; repeat constructor; lia]. apply runs_mark in R6 as (E6 & L6 & K6).
    pose proof (emitted_app _ _ _ _ _ _ _ E1 (emitted_app _ _ _ _ _ _ _ E2 (emitted_app _ _ _ _ _ _ _ E3 (emitted_app _ _ _ _ _ _ _ E4 (emitted_app _ _ _ _ _ _ _ E5 E6))))) as E.
    eexists. split.
    { apply (emitted_slot s). eapply emitted_taken; [exact E|done]. }
    intros L program p Hc. cbn [app embeds relocate] in Hc. destruct Hc as (HL1 & I2 & HL3 & Hc). apply embeds_app in Hc as [Hc4 (I5 & HL6 & _)].
    cbn [relocate] in I5. rewrite HL1 in I5. rewrite HL3, HL6 in I2. cbn [app].
    match goal with |- context [ins (?a :: ?b :: ?c :: c4 ++ ?l)] => change (ins (a :: b :: c :: c4 ++ l)) with (S (ins (c4 ++ l))) end.
    rewrite ins_app. replace (p + S (ins c4 + _)) with (S (S p + ins c4)) by (cbn; lia).
    rewrite K6, K5. cbn in K1. replace (first) with (within metadata span.1 span.2).1 in I2 by (by rewrite Ew). replace (last) with (within metadata span.1 span.2).2 in I2 by (by rewrite Ew).
    eapply lays_quantifier; [exact I2| |exact I5]. replace (S (next_repeat s)) with (next_repeat s4) by (by rewrite K3, K2, K1). by eapply Y4.
  - pose proof Hr as (pushed & s1 & Ea & _)%runs_one. cbn [act schedule_term] in Ea. destruct (lower_unicode_property property) as [l|] eqn:El; [|done].
    cbn [mbind result_bind] in Ea. injection Ea as <- <-. eapply leaf_yields; [exact Hr| | |]; [cbn [act schedule_term]; by rewrite El|by exists l|done].
  - pose proof Hr as (pushed & s1 & Ea & _)%runs_one. cbn [act schedule_term] in Ea. destruct (lower_character_class _ _ _) as [l|] eqn:El; [|done].
    cbn [mbind result_bind] in Ea. injection Ea as <- <-. eapply leaf_yields; [exact Hr| | |]; [cbn [act schedule_term]; by rewrite El|by exists l|done].
  - apply runs_one in Hr as (pushed & s1 & Ea & Hr). cbn [act schedule_term] in Ea. destruct (by_start metadata !! span.1) as [index|] eqn:Eb; [|done]. cbn [ok_or mbind result_bind] in Ea. injection Ea as <- <-.
    assert (runs [Emit (match direction with Forward => SaveStart index | Backward => SaveEnd index end); ActDisjunction d mode direction;
      Emit (match direction with Forward => SaveEnd index | Backward => SaveStart index end)] s o) as (s2 & R1 & (s3 & R2 & R3)%runs_cons_inv)%runs_cons_inv by (by destruct direction).
    apply runs_emit in R1 as (E1 & L1 & K1); [|by destruct direction]. destruct (disjunction_yields _ _ _ _ _ IH R2) as (c2 & E2 & Y2).
    apply runs_emit in R3 as (E3 & L3 & K3); [|by destruct direction].
    pose proof (emitted_app _ _ _ _ _ _ _ E1 (emitted_app _ _ _ _ _ _ _ E2 E3)) as E. eexists. split; [exact E|].
    intros L program p Hc. cbn [app embeds] in Hc. destruct Hc as (I1 & Hc). apply embeds_app in Hc as [Hc2 (I3 & _)]. cbn [app].
    match goal with |- context [ins (?a :: c2 ++ ?l)] => change (ins (a :: c2 ++ l)) with (S (ins (c2 ++ l))) end.
    rewrite ins_app. replace (p + S (ins c2 + _)) with (S (S p + ins c2)) by (cbn; lia). rewrite K3, <- K1.
    eapply lays_group; [exact Eb|rewrite I1; by destruct direction|by eapply Y2|rewrite I3; by destruct direction].
  - apply runs_one in Hr as (pushed & s1 & Ea & Hr). injection Ea as <- <-. destruct (disjunction_yields _ _ _ _ _ IH Hr) as (code & E & Y).
    exists code. split; [exact E|]. intros L program p Hc. apply lays_ignore. by eapply Y.
  - pose proof Hr as (pushed & s1 & Ea & _)%runs_one. cbn [act schedule_term] in Ea. destruct (by_name metadata !! name) as [l|] eqn:El; [|done].
    cbn [ok_or mbind result_bind] in Ea. injection Ea as <- <-. eapply leaf_yields; [exact Hr| | |]; [cbn [act schedule_term]; by rewrite El|by exists l|done].
Qed.
End layout.

(** ** Labels *)

Fixpoint positioned (L : nat → nat) (p : nat) (code : list Assembly) : Prop :=
  match code with
  | [] => True
  | Label l :: code => L l = p ∧ positioned L p code
  | AssembledInstruction _ :: code => positioned L (S p) code
  end.

Definition place (labels : list (option nat)) (l : nat) : nat := default 0 (mjoin (labels !! l)).

Lemma place_labels_exact code : ∀ labels p, NoDup (marks code) → Forall (λ l, l < length labels) (marks code) →
  ∃ labels', place_labels code labels p = Ok labels' ∧ (∀ l, l ∉ marks code → labels' !! l = labels !! l)
    ∧ positioned (place labels') p code ∧ ∀ l, l ∈ marks code → labels' !! l = Some (Some (place labels' l)).
Proof.
  induction code as [|[l|i] code IH]; intros labels p Hnd Hlt.
  - exists labels. split_and!; try done. by intros l []%elem_of_nil.
  - change (marks (Label l :: code)) with (l :: marks code) in *. apply NoDup_cons in Hnd as [Hl Hnd]. apply Forall_cons in Hlt as [Hl1 Hlt].
    cbn [place_labels]. unfold write. rewrite (proj2 (Nat.ltb_lt _ _)) by done. cbn [mbind result_bind].
    destruct (IH (<[l := Some p]> labels) p) as (labels' & E & Hother & Hpos & Hmarks); [done|by rewrite length_insert|]. exists labels'.
    assert (labels' !! l = Some (Some p)) as Hp by (rewrite Hother by done; by apply list_lookup_insert_eq).
    split_and!; [done| | |].
    + intros l' [Hne Hl']%not_elem_of_cons. rewrite Hother by done. by apply list_lookup_insert_ne.
    + split; [unfold place; by rewrite Hp|done].
    + intros l' [->|Hl']%elem_of_cons; [unfold place; by rewrite Hp|by apply Hmarks].
  - change (marks (AssembledInstruction i :: code)) with (marks code) in *. apply (IH labels (S p) Hnd Hlt).
Qed.

Definition instrs (code : list Assembly) : list Instruction := omap (λ a, match a with Label _ => None | AssembledInstruction i => Some i end) code.

Lemma resolve_all_exact labels code : (∀ l n, targets_below n (AssembledInstruction l) → n ≤ length labels → resolve_instruction labels l = Ok (relocate (place labels) l)) →
  Forall (targets_below (length labels)) code → resolve_all labels code = Ok (relocate (place labels) <$> instrs code).
Proof.
  intros Hi. induction 1 as [|[l|i] code Ha _ IH]; [done|exact IH|]. cbn [resolve_all]. rewrite (Hi i _ Ha) by done. cbn [mbind result_bind]. by rewrite IH.
Qed.

Lemma resolve_exact self : marks (assembly self) ≡ₚ seq 0 (next_label self) → Forall (targets_below (next_label self)) (assembly self) →
  ∃ L, positioned L 0 (assembly self) ∧ resolve self = Ok (relocate L <$> instrs (assembly self)).
Proof.
  intros Hm Ht. unfold resolve. destruct (place_labels_exact (assembly self) (replicate (next_label self) None) 0) as (labels & -> & Hother & Hpos & Hmarks).
  - rewrite Hm. apply NoDup_seq.
  - rewrite Hm, length_replicate. apply Forall_seq. lia.
  - exists (place labels). split; [done|]. cbn [mbind result_bind].
    assert (∀ l, l < next_label self → target labels l = Ok (place labels l)) as Htarget.
    { intros l Hl. unfold target. rewrite Hmarks; [done|]. rewrite Hm. apply elem_of_seq. lia. }
    assert (length labels = next_label self) as Hlen.
    { apply Nat.le_antisymm.
      - apply Nat.nlt_ge. intros Hlt. assert (labels !! next_label self = None) as Hn.
        { rewrite Hother; [apply lookup_ge_None_2; by rewrite length_replicate|]. rewrite Hm, elem_of_seq. lia. }
        apply lookup_ge_None in Hn. lia.
      - destruct (next_label self) as [|n] eqn:En; [lia|]. assert (is_Some (labels !! n)) as Hs%lookup_lt_is_Some; [|lia].
        rewrite Hmarks; [done|]. rewrite Hm. apply elem_of_seq. lia. }
    apply resolve_all_exact; [|by rewrite Hlen]. intros i n Hi Hn. simpl in Hi.
    assert (Forall (λ l, target labels l = Ok (place labels l)) (targets i)) as Hall by (eapply Forall_impl; [exact Hi|]; intros l Hl; apply Htarget; simpl in Hl; lia).
    destruct i; cbn [targets resolve_instruction relocate] in *; rewrite ?Forall_cons in Hall; try done; destruct_and!;
      repeat match goal with E : target labels _ = Ok _ |- _ => rewrite E; clear E; cbn [mbind result_bind] end; done.
Qed.

Lemma positioned_embeds L program code : ∀ p, positioned L p code → (∀ k i, instrs code !! k = Some i → instructions program !! (p + k) = Some (relocate L i)) →
  embeds L program p code.
Proof.
  induction code as [|[l|i] code IH]; intros p Hp Hi; simpl in *; [done|naive_solver|]. split.
  - specialize (Hi 0 i eq_refl). by rewrite Nat.add_0_r in Hi.
  - apply IH; [done|]. intros k j Hk. rewrite <- (Hi (S k) j Hk). f_equal. lia.
Qed.

(** ** The program *)

Section program.
Context `{PropertyData} (compiler_flags : RegExpFlags) (limits : CompileLimits) (metadata : CaptureMetadata).

(** Every compiled program is laid out, the whole match around the pattern. *)
Record laid_out (program : Program) (pattern : list (list Term)) (q : nat) : Prop := mkLaidOut {
  laid_start : instructions program !! 0 = Some (SaveStart 0);
  laid_pattern : lays_disjunction limits metadata program pattern (RegExpFlags.initial_mode compiler_flags) Forward 1 q 0 (repeat_count program);
  laid_end : instructions program !! q = Some (SaveEnd 0);
  laid_match : instructions program !! S q = Some MatchInstruction;
  laid_length : length (instructions program) = S (S q);
  laid_captures : capture_count program = S (length (spans metadata));
  laid_flags : flags program = compiler_flags
}.

Lemma build_code pattern o : runs limits metadata (initial_actions compiler_flags pattern) no_output o →
  ∃ code, emitted no_output o [] ([AssembledInstruction (SaveStart 0)] ++ code ++ [AssembledInstruction (SaveEnd 0)] ++ [AssembledInstruction MatchInstruction])
    ∧ ∀ L program p, embeds L program p code →
        lays_disjunction limits metadata program pattern (RegExpFlags.initial_mode compiler_flags) Forward p (p + ins code) 0 (next_repeat o).
Proof.
  intros (s1 & R1 & (s2 & R2 & (s3 & R3 & R4)%runs_cons_inv)%runs_cons_inv)%runs_cons_inv.
  apply runs_emit in R1 as (E1 & L1 & K1); [|done].
  destruct (disjunction_yields limits metadata _ _ pattern _ _ (Forall_true _ _ (λ a, Forall_true _ _ (term_yields limits metadata))) R2) as (c2 & E2 & Y2).
  apply runs_emit in R3 as (E3 & L3 & K3); [|done]. apply runs_emit in R4 as (E4 & L4 & K4); [|done].
  exists c2. split; [exact (emitted_app _ _ _ _ _ _ _ E1 (emitted_app _ _ _ _ _ _ _ E2 (emitted_app _ _ _ _ _ _ _ E3 E4)))|].
  intros L program p Hc. rewrite K4, K3. change 0 with (next_repeat no_output). rewrite <- K1. by eapply Y2.
Qed.

Lemma build_laid_out pattern program : build compiler_flags limits metadata pattern = Ok program → ∃ q, laid_out program pattern q.
Proof.
  unfold build. destruct (build_loop _ _ _ _ _) as [o|] eqn:Eo; [|done]. cbn [mbind result_bind]. apply build_runs, build_code in Eo as (code & [C _ M _ T] & Y).
  cbn [no_output assembly app] in C, M, T. rewrite <- C in M, T. cbn in M. rewrite Nat.sub_0_r in M. destruct (resolve_exact o M T) as (L & Hpos & ->). cbn [mbind result_bind]. intros [= <-].
  set (program := mkProgram _ _ _ _ _). assert (embeds L program 0 (assembly o)) as He.
  { apply positioned_embeds; [done|]. intros k i Hk. cbn. by rewrite list_lookup_fmap, Hk. }
  rewrite C in He. cbn [embeds relocate] in He. destruct He as [H0 He]. apply embeds_app in He as [Hc (He1 & He2 & _)].
  exists (1 + ins code). split; try done; [by apply (Y L)|].
  cbn. rewrite length_fmap, C. change (instrs (AssembledInstruction (SaveStart 0) :: code ++ [AssembledInstruction (SaveEnd 0); AssembledInstruction MatchInstruction]))
    with (SaveStart 0 :: instrs (code ++ [AssembledInstruction (SaveEnd 0); AssembledInstruction MatchInstruction])).
  unfold instrs. rewrite omap_app. cbn [length]. rewrite length_app. fold (instrs code). change (length (instrs code)) with (ins code). cbn. lia.
Qed.

Lemma build_no_fault pattern : no_fault (build compiler_flags limits metadata pattern).
Proof.
  unfold build. apply no_fault_bind; [by apply build_ends|]. intros o Eo. apply build_runs, build_code in Eo as (code & [C _ M _ T] & Y).
  cbn [no_output assembly app] in C, M, T. rewrite <- C in M, T. cbn in M. rewrite Nat.sub_0_r in M. by destruct (resolve_exact o M T) as (L & _ & ->).
Qed.
End program.

Scheme lays_mut := Minimality for lays Sort Prop
  with lays_sequence_mut := Minimality for lays_sequence Sort Prop
  with lays_disjunction_mut := Minimality for lays_disjunction Sort Prop.
Combined Scheme lays_all from lays_mut, lays_sequence_mut, lays_disjunction_mut.
