(* ===== verification/RegExpCompiled.v ===== *)
(** * Compiled programs

    Compiled programs satisfy what the executor's theorems ask of a program:
    their instructions name existing captures and repeats, the flow of control
    respects lookarounds, and a repeat that the executor's shortcut takes is
    closed by its own end.  Compilation and execution compose. *)

From S2P Require Import Prelude RuntimePrelude RegExp RegExpFacts RegExpSearch RegExpCompiler RegExpLayout.
From stdpp Require Import list gmap strings.
Local Open Scope nat_scope.

(** ** Captures *)

Record metadata_ok (md : CaptureMetadata) : Prop := mkMetadataOk {
  starts_ok : ∀ start index, by_start md !! start = Some index → 1 ≤ index ≤ length (spans md);
  spans_ok : ∀ k s, spans md !! k = Some s → s.2 = S k;
  names_ok : length (names md) = length (spans md)
}.

Lemma add_capture_ok md span name : metadata_ok md → metadata_ok (add_capture md span name).
Proof.
  intros [Hs Hk Hn]. split; cbn [add_capture spans by_start names]; rewrite ?length_app; cbn [length].
  - intros start index [[_ <-]|[_ E%Hs]]%lookup_insert_Some; lia.
  - intros k s [E|[Hge E]]%lookup_app_Some; [by apply Hk|]. apply list_lookup_singleton_Some in E as [E <-]. cbn. lia.
  - lia.
Qed.

Lemma collect_ok limits pattern md : collect_captures limits pattern = Ok md → metadata_ok md.
Proof.
  unfold collect_captures. assert (metadata_ok no_captures) as H0 by (split; cbn; naive_solver). revert H0. generalize no_captures.
  generalize (S (disjunction_size pattern)). intros fuel. generalize [VisitDisjunction pattern 0].
  induction fuel as [|fuel IH]; intros [|v stack] md0 Hok E; cbn [collect_loop] in E; try done; try (by injection E as <-).
  destruct (visit limits v md0) as [[pushed md1]|] eqn:Ev; [|done]. eapply IH; [|exact E]. clear E IH.
  destruct v as [d depth|[]]; cbn [visit] in Ev; repeat case_match; try done; injection Ev as <- <-; try done. by apply add_capture_ok.
Qed.

Lemma within_bound md first last : metadata_ok md → (within md first last).2 ≤ S (length (spans md)).
Proof.
  intros [_ Hk _]. unfold within. assert (Forall (λ s : Z * Z * nat, s.2 ≤ length (spans md)) (spans md)) as Hall.
  { apply Forall_lookup. intros k s Hs. rewrite (Hk k s Hs). by apply lookup_lt_Some in Hs. }
  assert (∀ l lower upper, Forall (λ s : Z * Z * nat, s.2 ≤ length (spans md)) l → upper ≤ S (length (spans md)) →
    (foldl (λ '(lower, upper) '(capture_start, capture_end, index),
      if (first <=? capture_start)%Z && (capture_end <=? last)%Z then (Z.min lower (Z.of_nat index), Nat.max upper (S index)) else (lower, upper)) (lower, upper) l).2
    ≤ S (length (spans md))) as Hfold.
  { induction l as [|[[a b] index] l IH]; intros lower upper Hl Hu; [done|]. apply Forall_cons in Hl as [Hi Hl]. cbn [foldl]. cbn in Hi. case_match; apply IH; try done. lia. }
  specialize (Hfold (spans md) u64_max 0 Hall ltac:(lia)). destruct (foldl _ _ _) as [lower upper]. cbn in Hfold. case_match; cbn; lia.
Qed.

(** ** Terms *)

(** A condition on every term of a tree. *)
Fixpoint term_all (f : Term → bool) (t : Term) : bool :=
  f t
  && match t with
     | LookAroundAssertion _ d | CapturingGroup _ _ d | IgnoreGroup _ d => forallb (λ a, forallb (term_all f) a) d
     | Quantifier _ _ _ _ body => term_all f body
     | _ => true
     end.

(** No class of strings has the empty string. *)
Fixpoint class_consumes (class : AstClass) : bool :=
  let '(mkAstClass _ _ body) := class in
  forallb (λ content,
    match content with
    | ContentsNested nested => class_consumes nested
    | ContentsStrings l => forallb (λ value, negb (bool_decide (value = []))) l
    | _ => true
    end) body.

Definition is_count (n : Z) : bool := ((0 <=? n) && (n <=? u64_max))%Z.

(** The counts of quantifiers are [u64]. *)
Definition node_ok (t : Term) : bool :=
  match t with
  | Quantifier min max _ _ _ => is_count min && match max with Some m => is_count m | None => true end
  | CharacterClassTerm class => class_consumes class
  | _ => true
  end.
Definition pattern_ok (pattern : list (list Term)) : bool := forallb (λ a, forallb (term_all node_ok) a) pattern.

Lemma insert_string_in value x l : x ∈ insert_string value l → x = value ∨ x ∈ l.
Proof. induction l as [|y l IH]; cbn [insert_string]; [set_solver|]. case_match; set_solver. Qed.

Lemma sort_strings_in x l : x ∈ sort_strings l → x ∈ l.
Proof.
  unfold sort_strings. assert (∀ acc, x ∈ foldl (λ sorted value, insert_string value sorted) acc l → x ∈ acc ∨ x ∈ l) as Hg.
  { induction l as [|y l IH]; intros acc Hx; [by left|]. apply IH in Hx as [Hx%insert_string_in|Hx]; set_solver. }
  intros Hx. by apply Hg in Hx as [[]%elem_of_nil|?].
Qed.

Lemma dedup_strings_in x l : x ∈ dedup_strings l → x ∈ l.
Proof. induction l as [|y l IH]; cbn [dedup_strings]; [done|]. repeat case_match; set_solver. Qed.

Section consumes.
Context `{PropertyData}.

Lemma class_consumes_strings class : class_consumes class = true → ∀ depth max_depth l, lower_character_class class depth max_depth = Ok l → Forall (λ value, value ≠ []) (strings l).
Proof.
  revert class. fix IH 1. intros [negative kind body] Hc depth max_depth l E. cbn [lower_character_class] in E. destruct (max_depth <? depth); [done|]. cbn [class_consumes] in Hc.
  match type of E with (?loop body ?acc ≫= _) = _ => set (gather := loop) in E end.
  assert (∀ acc acc', Forall (λ value, value ≠ []) acc.1.2 → gather body acc = Ok acc' → Forall (λ value, value ≠ []) acc'.1.2) as Hg.
  { clear E. induction body as [|content body IHb]; intros [[items strs] has] acc' Hs Eg; [by injection Eg as <-|].
    cbn [forallb] in Hc. apply andb_true_iff in Hc as [Hc1 Hc2]. cbn in Hs. destruct content as [first last|k|value|property|nested|alternatives]; cbn in Eg; try (by apply (IHb Hc2) in Eg).
    - destruct (lower_unicode_property property) as [lp|]; [|done]. by apply (IHb Hc2) in Eg.
    - destruct (lower_character_class nested (S depth) max_depth) as [ln|] eqn:En; [|done]. apply (IHb Hc2) in Eg; [done|]. cbn. apply Forall_app. split; [done|]. by eapply IH.
    - apply (IHb Hc2) in Eg; [done|]. cbn. apply Forall_app. split; [done|]. apply Forall_forall. intros x Hx.
      rewrite forallb_forall in Hc1. apply list_elem_of_In, Hc1 in Hx. by apply negb_true_iff, bool_decide_eq_false_1 in Hx. }
  destruct (gather body ([], [], false)) as [[[items strs] has]|] eqn:Eg; [|done]. injection E as <-. apply Hg in Eg; [|constructor]. cbn in *.
  apply Forall_forall. intros x Hx%dedup_strings_in%sort_strings_in. rewrite Forall_forall in Eg. by apply Eg.
Qed.
End consumes.

(** ** Lookaround depth *)

Section structured.
Context `{PropertyData} (limits : CompileLimits) (metadata : CaptureMetadata) (program : Program).
(** Whether the tree is restricted. *)
Context (strict : Prop).
Notation lays := (lays limits metadata program).
Notation lays_sequence := (lays_sequence limits metadata program).
Notation lays_disjunction := (lays_disjunction limits metadata program).

(** How many lookarounds are open before an instruction. *)
Definition opens (i : Instruction) : Z := match i with Lookaround _ _ _ => 1%Z | LookaroundAccept _ => (-1)%Z | _ => 0%Z end.
Definition lookaround_depth (pc : nat) : Z := foldr (λ i, Z.add (opens i)) 0%Z (take pc (instructions program)).
Definition in_main (pc : nat) : bool := (lookaround_depth pc =? 0)%Z.

Lemma depth_next pc i : instructions program !! pc = Some i → lookaround_depth (S pc) = (lookaround_depth pc + opens i)%Z.
Proof.
  intros Hi. unfold lookaround_depth. rewrite (take_S_r _ _ _ Hi), foldr_app. cbn. generalize (take pc (instructions program)). intros l.
  induction l as [|j l IH]; cbn; lia.
Qed.

(** What holds of the instructions from [p] to [q]. *)
Definition segment (p q k : nat) : Prop := ∀ pc i, p ≤ pc < q → instructions program !! pc = Some i →
  flows in_main pc i ∧ (strict → terminal_shape program pc i)
  ∧ match i with
    | SaveStart index | SaveEnd index => index < capture_count program
    | Class _ _ => strict → consumes i
    | Repeat slot _ _ _ _ _ _ last => slot < k ∧ last ≤ capture_count program
    | RepeatEnd slot head => slot < k ∧ p ≤ head < pc ∧ ∃ min max greedy body exit first last, instructions program !! head = Some (Repeat slot min max greedy body exit first last)
    | _ => True
    end.

(** A piece of code is balanced and proper. *)
Definition proper (p q k k' : nat) : Prop :=
  p ≤ q ∧ k ≤ k' ∧ ((0 ≤ lookaround_depth p)%Z → lookaround_depth q = lookaround_depth p ∧ segment p q k').

Lemma segment_app p r q k k' : p ≤ r → k ≤ k' → segment p r k → segment r q k' → segment p q k'.
Proof.
  intros Hpr Hk H1 H2 pc i Hpc Hi. destruct (decide (pc < r)).
  - destruct (H1 pc i ltac:(lia) Hi) as (Hf & Ht & Hx). split_and!; [done|done|]. destruct i; try done; naive_solver lia.
  - destruct (H2 pc i ltac:(lia) Hi) as (Hf & Ht & Hx). split_and!; [done|done|]. destruct i; try done; naive_solver lia.
Qed.

Lemma proper_app p r q k k1 k' : proper p r k k1 → proper r q k1 k' → proper p q k k'.
Proof.
  intros (Hp1 & Hk1 & H1) (Hp2 & Hk2 & H2). split_and!; [lia|lia|]. intros Hd. destruct (H1 Hd) as [E1 S1]. destruct H2 as [E2 S2]; [lia|].
  split; [lia|]. by eapply segment_app; [| |exact S1|].
Qed.

(** One instruction. *)
Lemma segment_one p i k : instructions program !! p = Some i → flows in_main p i → (strict → terminal_shape program p i) →
  match i with
  | SaveStart index | SaveEnd index => index < capture_count program
  | Class _ _ => strict → consumes i
  | Repeat slot _ _ _ _ _ _ last => slot < k ∧ last ≤ capture_count program
  | RepeatEnd _ _ => False
  | _ => True
  end → segment p (S p) k.
Proof. intros Hi Hf Ht Hx pc j Hpc Hj. assert (pc = p) as -> by lia. rewrite Hi in Hj. injection Hj as <-. split_and!; [done|done|]. by destruct i. Qed.

Lemma main_same p q : lookaround_depth q = lookaround_depth p → in_main q = in_main p.
Proof. unfold in_main. by intros ->. Qed.

Lemma main_next p i : instructions program !! p = Some i → opens i = 0%Z → in_main (S p) = in_main p.
Proof. intros Hi Ho. apply main_same. rewrite (depth_next _ _ Hi), Ho. lia. Qed.

Lemma proper_one p i k : instructions program !! p = Some i → opens i = 0%Z → flows in_main p i → (strict → terminal_shape program p i) →
  match i with SaveStart index | SaveEnd index => index < capture_count program | Class _ _ => strict → consumes i | Repeat _ _ _ _ _ _ _ _ | RepeatEnd _ _ => False | _ => True end → proper p (S p) k k.
Proof.
  intros Hi Ho Hf Ht Hx. split_and!; [lia|lia|]. intros _. split; [rewrite (depth_next _ _ Hi), Ho; lia|]. eapply segment_one; [done..|]. by destruct i.
Qed.

Lemma leaf_proper t mode p i k : leaf limits metadata t mode i → (strict → term_all node_ok t = true) → instructions program !! p = Some i → proper p (S p) k k.
Proof.
  intros Hl Hok Hi. assert (strict → consumes i) as Hc.
  { intros Hstrict%Hok. clear Hok. rename Hstrict into Hok. destruct t; cbn in Hl; try done; try (subst i; cbn; done); try (destruct Hl as (l & El & ->); cbn; try done).
    cbn [term_all node_ok] in Hok. rewrite andb_true_r in Hok. by eapply class_consumes_strings. }
  assert (opens i = 0%Z ∧ flows in_main p i ∧ (strict → terminal_shape program p i) ∧ match i with SaveStart _ | SaveEnd _ | Repeat _ _ _ _ _ _ _ _ | RepeatEnd _ _ => False | _ => True end) as (Ho & Hf & Ht & Hx).
  { destruct t; cbn in Hl; try done; try destruct Hl as (l & _ & Hl); subst i; cbn; (split_and!; [done| |done..]); by eapply main_next. }
  apply (proper_one p i k Hi Ho Hf Ht). by destruct i.
Qed.

(** In a restricted tree a token followed by the end of a repeat is the whole body of the repeat. *)
Lemma terminal_shape_quantifier p q k min max greedy first last : instructions program !! p = Some (Repeat k min max greedy (S p) (S q) first last) →
  strict → (min ≤ u64_max)%Z → instructions program !! q = Some (RepeatEnd k p) → S p ≤ q → (∃ k', segment (S p) q k') →
  terminal_shape program p (Repeat k min max greedy (S p) (S q) first last).
Proof.
  intros Ip Hstrict Hmin Iq Hpq [k' Hseg]. destruct greedy; [|done]. cbn [terminal_shape]. destruct (terminal_repeat _ _ _ _ _ _) as [t|] eqn:Et; [|done].
  unfold terminal_repeat in Et. destruct (is_token (instructions program !! S p)) eqn:Etok; [|by rewrite orb_true_r in Et].
  destruct (negb (first =? last)); [done|]. cbn [negb orb] in Et.
  assert (S p ≠ q) as Hne by (intros <-; by rewrite Iq in Etok).
  destruct (instructions program !! S (S p)) as [[]|] eqn:Ie; try done. cbn [negb] in Et. assert (q = S (S p)) as ->.
  { destruct (decide (q = S (S p))) as [|Hq]; [done|]. destruct (Hseg (S (S p)) _ ltac:(lia) Ie) as (_ & _ & _ & Hh & (min' & max' & g & b & e & f & l & Ih)).
    assert (head = S p) as -> by lia. by rewrite Ih in Etok. }
  rewrite Iq in Ie. injection Ie as <- <-. split_and!; [done|done|]. intros token Htok.
  destruct (Hseg (S p) token ltac:(lia) Htok) as (_ & _ & Hx). destruct token; try done. by apply Hx.
Qed.

Lemma look_proper kind p q k k' : instructions program !! p = Some (Lookaround kind (S p) (S q)) → instructions program !! q = Some (LookaroundAccept kind) →
  proper (S p) q k k' → proper p (S q) k k'.
Proof.
  intros Ip Iq (Hpq & Hk & Hin). split_and!; [lia|lia|]. intros Hd. pose proof (depth_next _ _ Ip) as Dp. pose proof (depth_next _ _ Iq) as Dq. cbn in Dp, Dq.
  destruct Hin as [D Sg]; [lia|]. assert (lookaround_depth (S q) = lookaround_depth p) as E by lia. split; [done|].
  eapply (segment_app _ (S p) _ k' k'); [lia|lia| |eapply (segment_app _ q _ k' k'); [lia|lia|exact Sg|]]; (eapply segment_one; [eassumption| |done..]); cbn.
  - split; [unfold in_main; apply Z.eqb_neq; lia|by apply main_same].
  - unfold in_main. apply Z.eqb_neq. lia.
Qed.

Lemma quantifier_proper p q k k' min max greedy first last : instructions program !! p = Some (Repeat k min max greedy (S p) (S q) first last) →
  instructions program !! q = Some (RepeatEnd k p) → (strict → (min ≤ u64_max)%Z) → last ≤ capture_count program → proper (S p) q (S k) k' → proper p (S q) k k'.
Proof.
  intros Ip Iq Hmin Hlast (Hpq & Hk & Hin). split_and!; [lia|lia|]. intros Hd. pose proof (depth_next _ _ Ip) as Dp. pose proof (depth_next _ _ Iq) as Dq. cbn in Dp, Dq.
  destruct Hin as [D Sg]; [lia|]. split; [lia|]. intros pc i Hpc Hi. destruct (decide (pc = p)) as [->|Hne]; [|destruct (decide (pc = q)) as [->|Hne']].
  - rewrite Ip in Hi. injection Hi as <-. split_and!; [split; apply main_same; lia| |lia|done]. intros Hstrict. eapply terminal_shape_quantifier; eauto.
  - rewrite Iq in Hi. injection Hi as <-. split_and!; [apply main_same; lia|done|lia|lia|lia|]. by repeat eexists.
  - destruct (Sg pc i ltac:(lia) Hi) as (Hf & Ht & Hx). split_and!; [done|done|]. destruct i; try done; naive_solver lia.
Qed.

Lemma forallb_rev {A} (f : A → bool) l : forallb f (rev l) = forallb f l.
Proof. induction l as [|a l IH]; [done|]. cbn [rev forallb]. rewrite forallb_app, IH. cbn. by rewrite andb_true_r, andb_comm. Qed.

Lemma ordered_ok f direction a : forallb f (ordered direction a) = forallb f a.
Proof. destruct direction; [done|apply forallb_rev]. Qed.

Context (Hmd : metadata_ok metadata) (Hcount : capture_count program = S (length (spans metadata))).

Lemma lays_proper :
  (∀ t mode direction p q k k', lays t mode direction p q k k' → (strict → term_all node_ok t = true) → proper p q k k')
  ∧ (∀ l mode direction p q k k', lays_sequence l mode direction p q k k' → (strict → forallb (term_all node_ok) l = true) → proper p q k k')
  ∧ (∀ d mode direction p q k k', lays_disjunction d mode direction p q k k' → (strict → pattern_ok d = true) → proper p q k k').
Proof.
  apply lays_all.
  - intros t mode direction p k i Hl Hi Hok. by eapply leaf_proper.
  - intros kind d mode direction p q k k' Ip _ IH Iq Hok. eapply look_proper; [done|done|]. apply IH. intros Hs. specialize (Hok Hs). cbn in Hok. exact Hok.
  - intros min max greedy span t mode direction p q k k' Ip _ IH Iq Hok.
    assert (strict → (min ≤ u64_max)%Z ∧ term_all node_ok t = true) as Hok'. { intros Hs%Hok. cbn [term_all node_ok] in Hs. unfold is_count in Hs. bool_to_prop. done. }
    eapply quantifier_proper; [done|done|naive_solver|rewrite Hcount; by apply within_bound|naive_solver].
  - intros span name d mode direction p q k k' index Hindex Ip _ IH Iq Hok. assert (index < capture_count program) as Hlt by (rewrite Hcount; apply (starts_ok _ Hmd) in Hindex; lia).
    eapply proper_app; [eapply (proper_one p _ k Ip); destruct direction; try done; by eapply main_next|].
    eapply proper_app; [by apply IH|]. eapply (proper_one q _ _ Iq); destruct direction; try done; by eapply main_next.
  - intros modifiers d mode direction p q k k' _ IH Hok. by apply IH.
  - intros mode direction p k _. split_and!; [lia|lia|]. intros _. split; [done|]. intros pc i Hpc. lia.
  - intros t l mode direction p r q k k1 k' _ IH1 _ IH2 Hok. eapply proper_app; [apply IH1|apply IH2]; intros Hs%Hok; cbn in Hs; by apply andb_true_iff in Hs as [??].
  - intros mode direction p k _. split_and!; [lia|lia|]. intros _. split; [done|]. intros pc i Hpc. lia.
  - intros a mode direction p q k k' _ IH Hok. apply IH. rewrite ordered_ok. intros Hs%Hok. unfold pattern_ok in Hs. cbn in Hs. by rewrite andb_true_r in Hs.
  - intros a a' d mode direction p r q k k1 k' Ip _ IH1 Ir _ IH2 Hok. unfold pattern_ok in *. cbn [forallb] in Hok.
    destruct IH1 as (Hp1 & Hk1 & IH1); [rewrite ordered_ok; intros Hs%Hok; by apply andb_true_iff in Hs as [??]|].
    destruct IH2 as (Hp2 & Hk2 & IH2); [intros Hs%Hok; by apply andb_true_iff in Hs as [??]|]. split_and!; [lia|lia|]. intros Hd.
    pose proof (depth_next _ _ Ip) as Dp. pose proof (depth_next _ _ Ir) as Dr. cbn in Dp, Dr. destruct IH1 as [D1 S1]; [lia|]. destruct IH2 as [D2 S2]; [lia|]. split; [lia|].
    eapply (segment_app _ (S p) _ k); [lia|lia|eapply segment_one; [exact Ip| |done..]; cbn; split; apply main_same; lia|].
    eapply (segment_app _ r _ k1); [lia|lia|exact S1|]. eapply (segment_app _ (S r) _ k1); [lia|lia| |exact S2]. eapply segment_one; [exact Ir| |done..]. cbn. apply main_same. lia.
Qed.
End structured.

(** ** Compilation *)

Section compiled.
Context `{PropertyData} (compiler_flags : RegExpFlags) (limits : CompileLimits) (metadata : CaptureMetadata) (Hmd : metadata_ok metadata).

Lemma laid_out_segments program pattern q strict : laid_out compiler_flags limits metadata program pattern q → (strict → pattern_ok pattern = true) →
  segment program strict 0 (S (S q)) (repeat_count program).
Proof.
  intros [I0 Hl Iq Im _ Hcount _] Hok. destruct (proj2 (proj2 (lays_proper limits metadata program strict Hmd Hcount)) _ _ _ _ _ _ _ Hl Hok) as (Hq & _ & Hin).
  pose proof (depth_next program _ _ I0) as D0. pose proof (depth_next program _ _ Iq) as Dq. assert (lookaround_depth program 0 = 0%Z) as Dz by done. cbn in D0, Dq.
  destruct Hin as [D Sg]; [lia|].
  assert (∀ p i, instructions program !! p = Some i → flows (in_main program) p i → match i with SaveStart 0 | SaveEnd 0 | MatchInstruction => True | _ => False end →
    segment program strict p (S p) (repeat_count program)) as Hone.
  { intros p i Hi Hf Hx. eapply segment_one; [exact Hi|exact Hf|by destruct i|]. destruct i as [| | | |[]|[]| | | | | | | |]; try done; rewrite Hcount; lia. }
  eapply (segment_app _ _ _ 1); [lia|done|eapply Hone; [exact I0|apply main_same; lia|done]|].
  eapply (segment_app _ _ _ q); [done|done|exact Sg|]. eapply (segment_app _ _ _ (S q)); [lia|done|eapply Hone; [exact Iq|apply main_same; lia|done]|].
  eapply Hone; [exact Im| |done]. cbn. unfold in_main. apply Z.eqb_eq. lia.
Qed.

Lemma laid_out_ok program pattern q : laid_out compiler_flags limits metadata program pattern q → program_ok program.
Proof.
  intros Hl. pose proof (laid_out_segments program pattern q False Hl ltac:(done)) as Hs. unfold program_ok. apply Forall_lookup. intros pc i Hi.
  pose proof (lookup_lt_Some _ _ _ Hi) as Hlt. rewrite (laid_length _ _ _ _ _ _ Hl) in Hlt. destruct (Hs pc i ltac:(lia) Hi) as (_ & _ & Hx). destruct i; try done; cbn in *; naive_solver.
Qed.

Lemma laid_out_structured program pattern q : laid_out compiler_flags limits metadata program pattern q → pattern_ok pattern = true →
  structured program (in_main program).
Proof.
  intros Hl Hok. pose proof (laid_out_segments program pattern q True Hl ltac:(done)) as Hs.
  assert (∀ pc i, instructions program !! pc = Some i → flows (in_main program) pc i ∧ terminal_shape program pc i) as Hi.
  { intros pc i Hi. pose proof (lookup_lt_Some _ _ _ Hi) as Hlt. rewrite (laid_length _ _ _ _ _ _ Hl) in Hlt. destruct (Hs pc i ltac:(lia) Hi) as (Hf & Ht & _). auto. }
  split; [by eapply laid_out_ok|done|naive_solver|naive_solver].
Qed.
End compiled.

(** C18. Compilation is total and its programs are sound: from every syntax tree
    the compiler ends with a program or with an error of its own, no label is
    unresolved and nothing panics.  On the program of any tree the executor
    never panics or loops, and the captures of a match lie in the input.  When
    the counts of quantifiers are [u64] and no class contains the empty string
    ([pattern_ok]), whatever it answers is what the backtracking search of the
    program finds. *)
Theorem regexp_compile_sound `{PropertyData} `{UnicodeData} flags limits pattern :
  match compile_pattern flags limits pattern with
  | Ok program =>
      (∀ input start exec, (0 ≤ max_steps exec)%Z →
         match (execute program input start exec).1 with
         | Ok None | Err (Fail _) => True
         | Ok (Some m) => match_ok program input m
         | Err _ => False
         end)
      ∧ (pattern_ok pattern = true → ∀ input start exec o steps, execute program input start exec = (Ok o, steps) → start ≤ length input →
           ∀ o', finds program input start o' ↔ o' = o)
  | Err (Fail e) => e ≠ ResourceLimit "unresolved instruction label"
  | Err _ => False
  end.
Proof.
  unfold compile_pattern. destruct (collect_captures limits pattern) as [md|[e| |]] eqn:Ec;
    try (pose proof (collect_ends limits (S (disjunction_size pattern)) [VisitDisjunction pattern 0] no_captures ltac:(cbn; lia)) as Hc;
      unfold collect_captures in Ec; by rewrite Ec in Hc). cbn [mbind result_bind]. apply collect_ok in Ec.
  pose proof (build_no_fault flags limits md pattern) as Hb. destruct (build flags limits md pattern) as [program|[e| |]] eqn:Eb; try done.
  apply build_laid_out in Eb as [q Hl]. split.
  - intros input start exec Hexec. pose proof (execute_safe program input start exec ltac:(by eapply laid_out_ok) Hexec) as Hs.
    destruct (execute program input start exec) as [[[m|]|[[]| |]] steps]; cbn; by try apply Hs.
  - intros Hok input start exec o steps He Hstart o'. eapply execute_finds; [|exact He|done]. by eapply laid_out_structured.
Qed.

(** ** Instances *)

Definition no_properties : PropertyData := Build_PropertyData (λ _, None) (λ _, None) (λ _, None) (λ _, None) (λ _, 0%Z) (λ _, 0%Z) (λ _ _, false).
Definition sample_compile_limits : CompileLimits := mkCompileLimits 100 100 10 10.

(** [/^(?=a)[ab]*$/] *)
Definition sample_pattern : list (list Term) :=
  [[BoundaryAssertion Start; LookAroundAssertion Ahead [[CharacterTerm 97]];
    Quantifier 0 None true (6, 10)%Z (CharacterClassTerm (mkAstClass false RegExp.Union [ContentsCharacter 97; ContentsCharacter 98]));
    BoundaryAssertion End_]].

(** The program of a pattern that compiles. *)
Definition compiled `{PropertyData} (flags : RegExpFlags) (pattern : list (list Term)) : Program :=
  match compile_pattern flags sample_compile_limits pattern with Ok program => program | Err _ => sample_program end.

(** On [aba] the sample matches as a whole. *)
Lemma regexp_compile_sound_witness :
  pattern_ok sample_pattern = true
  ∧ finds (H := ascii_data) (compiled (H := no_properties) RegExpFlags.default sample_pattern) [97; 98; 97]%Z 0 (Some [Some (0, 3)]).
Proof.
  split; [reflexivity|]. pose proof (regexp_compile_sound (H := no_properties) (H0 := ascii_data) RegExpFlags.default sample_compile_limits sample_pattern) as Hs.
  destruct (compile_pattern (H := no_properties) RegExpFlags.default sample_compile_limits sample_pattern) as [program|e] eqn:Ec; [|vm_compute in Ec; discriminate].
  assert (compiled (H := no_properties) RegExpFlags.default sample_pattern = program) as -> by (unfold compiled; by rewrite Ec).
  destruct Hs as [_ Hs]. specialize (Hs eq_refl [97; 98; 97]%Z 0 sample_limits (Some [Some (0, 3)])).
  destruct (execute (H := ascii_data) program [97; 98; 97]%Z 0 sample_limits) as [r steps] eqn:Ee.
  apply (Hs steps); [|cbn; lia|reflexivity]. f_equal. vm_compute in Ec. injection Ec as <-. vm_compute in Ee. by injection Ee as <- _.
Defined.
