(* ===== verification/RegExpMatcher.v ===== *)
(** * What a pattern matches

    A matcher defined on the syntax tree in the style of the language
    specification: a term takes a position, captures and a continuation, a
    quantifier is the specification's [RepeatMatcher].  Compiled programs find
    what this matcher finds: the numbering of groups, labels, the stack of
    alternatives, the slots of repeats, the frames of lookarounds and the
    shortcut for repeats before an end anchor implement it. *)

From S2P Require Import Prelude RuntimePrelude RegExp RegExpFacts RegExpSearch RegExpCompiler RegExpLayout RegExpCompiled.
From stdpp Require Import list gmap strings.
Local Open Scope nat_scope.

(** ** The matcher *)

(** [None] is an undefined match. *)
Notation attempt := (option Answer) (only parsing).
Notation continuation := (nat → list CaptureSlot → option Answer) (only parsing).

Definition orelse (a b : attempt) : attempt := match a with Some Failed => b | a => a end.

(** The first of the positions from which the rest matches. *)
Definition first_of (K : continuation) (c : list CaptureSlot) (positions : list nat) : attempt :=
  foldr (λ n rest, orelse (K n c) rest) (Some Failed) positions.

Definition capture_start (direction : Direction) (index n : nat) (c : list CaptureSlot) : option (list CaptureSlot) :=
  old ← c !! index;
  Some (<[index := mkCapture (Some n) (if bool_decide (direction = Forward) then None else capture_to old)]> c).
Definition capture_end (direction : Direction) (index n : nat) (c : list CaptureSlot) : option (list CaptureSlot) :=
  old ← c !! index;
  Some (<[index := mkCapture (if bool_decide (direction = Backward) then None else Some (default n (capture_from old))) (Some n)]> c).

(** The captures of a range of groups are forgotten. *)
Definition forget (first last : nat) (c : list CaptureSlot) : option (list CaptureSlot) :=
  if first <? last then (if last <=? length c then Some (take first c ++ replicate (last - first) empty_capture ++ drop last c) else None) else Some c.

(** A result, undefined where the code would panic. *)
Definition defined {E A} (m : outcome E A) : option A := match m with Ok a => Some a | Err _ => None end.

Section matcher.
Context `{PropertyData} `{UnicodeData} (leave : bool) (limits : CompileLimits) (metadata : CaptureMetadata) (input : list Z).

(** A term of one instruction. *)
Definition match_instruction (i : Instruction) (direction : Direction) (n : nat) (c : list CaptureSlot) (K : continuation) : attempt :=
  match i with
  | Character value mode =>
      decoded ← defined (decode_in_direction (E := ExecError) input n (unicode mode) direction);
      match decoded with Some (actual, next) => if same_character actual value mode then K next c else Some Failed | None => Some Failed end
  | Dot mode =>
      decoded ← defined (decode_in_direction (E := ExecError) input n (unicode mode) direction);
      match decoded with Some (actual, next) => if dot_all mode || negb (is_line_terminator actual) then K next c else Some Failed | None => Some Failed end
  | Class class mode =>
      positions ← defined (class_match_positions (E := ExecError) class input n mode direction);
      first_of K c positions
  | Boundary kind mode =>
      matched ← defined (boundary_matches (E := ExecError) kind input n mode);
      if matched : bool then K n c else Some Failed
  | BackReference indices mode =>
      match list.head (omap (λ index, c !! index ≫= range) indices) with
      | None => K n c
      | Some found =>
          matched ← defined (match_back_reference (E := ExecError) input n found mode direction);
          match matched with Some next => K next c | None => Some Failed end
      end
  | _ => None
  end.

Definition leaf_of (t : Term) (mode : MatchMode) : option Instruction :=
  match t with
  | BoundaryAssertion kind => Some (Boundary kind mode)
  | CharacterTerm value => Some (Character value mode)
  | DotTerm => Some (Dot mode)
  | CharacterClassEscape kind => Some (Class (single_item (class_escape kind) false) mode)
  | UnicodePropertyEscape property => l ← defined (lower_unicode_property property); Some (Class (single_item (Property l) (escape_strings property)) mode)
  | CharacterClassTerm class => l ← defined (lower_character_class class 0 (max_nesting limits)); Some (Class l mode)
  | IndexedReference index => Some (BackReference [index] mode)
  | NamedReference name => l ← by_name metadata !! name; Some (BackReference l mode)
  | _ => None
  end.

(** [RepeatMatcher] of the specification: [required] more iterations are needed,
    at most [allowed] are possible, and an optional iteration that does not move
    fails.  With [leave] the repeat is left when its last required iteration did
    not move, as the executor does; the specification tries optional iterations
    then. *)
Fixpoint repeat_matcher (fuel : nat) (body : nat → list CaptureSlot → continuation → attempt) (greedy : bool) (first last : nat)
    (required : Z) (allowed : option Z) (n : nat) (c : list CaptureSlot) (K : continuation) : attempt :=
  match fuel with
  | O => None
  | S fuel =>
      if bool_decide (allowed = Some 0%Z) then K n c else
      reset ← forget first last c;
      let iterate :=
        body n reset (λ n' c',
          if (required =? 0)%Z && (n' =? n) then Some Failed
          else if leave && (required =? 1)%Z && (n' =? n) then K n' c'
          else repeat_matcher fuel body greedy first last (Z.max 0 (required - 1)) (allowed ≫= λ a, Some (a - 1)%Z) n' c' K) in
      if (0 <? required)%Z then iterate
      else if greedy then orelse iterate (K n c) else orelse (K n c) iterate
  end.

(** The terms of an alternative one after the other, the alternatives of a
    disjunction in turn. *)
Section sequences.
Context (term : Term → MatchMode → Direction → nat → list CaptureSlot → continuation → attempt).
Fixpoint alternative_with (a : list Term) (mode : MatchMode) (direction : Direction) (n : nat) (c : list CaptureSlot) (K : continuation) : attempt :=
  match a with
  | [] => K n c
  | t :: a =>
      match direction with
      | Forward => term t mode direction n c (λ n c, alternative_with a mode direction n c K)
      | Backward => alternative_with a mode direction n c (λ n c, term t mode direction n c K)
      end
  end.
Fixpoint disjunction_with (d : list (list Term)) (mode : MatchMode) (direction : Direction) (n : nat) (c : list CaptureSlot) (K : continuation) : attempt :=
  match d with
  | [] => K n c
  | a :: rest =>
      match rest with
      | [] => alternative_with a mode direction n c K
      | _ => orelse (alternative_with a mode direction n c K) (disjunction_with rest mode direction n c K)
      end
  end.
End sequences.

Fixpoint match_term (t : Term) (mode : MatchMode) (direction : Direction) (n : nat) (c : list CaptureSlot) (K : continuation) {struct t} : attempt :=
  let match_disjunction := disjunction_with match_term in
  match t with
  | LookAroundAssertion kind d =>
      decided ← match_disjunction d mode (LookaroundKind.direction kind) n c (λ _ c, Some (Accepted (LookaroundKind.negative kind) c));
      match decided with
      | Final o => Some (Final o)
      | Accepted true _ => Some Failed
      | Accepted false c => K n c
      | Failed => if LookaroundKind.negative kind then K n c else Some Failed
      end
  | Quantifier min max greedy span t =>
      let '(first, last) := within metadata span.1 span.2 in
      repeat_matcher (S (Z.to_nat min + S (length input))) (λ n c K, match_term t mode direction n c K) greedy first last min max n c K
  | CapturingGroup span _ d =>
      index ← by_start metadata !! span.1;
      match direction with
      | Forward =>
          c ← capture_start direction index n c;
          match_disjunction d mode direction n c (λ n c, c ← capture_end direction index n c; K n c)
      | Backward =>
          c ← capture_end direction index n c;
          match_disjunction d mode direction n c (λ n c, c ← capture_start direction index n c; K n c)
      end
  | IgnoreGroup modifiers d => match_disjunction d (nested_mode mode modifiers) direction n c K
  | t => i ← leaf_of t mode; match_instruction i direction n c K
  end.
End matcher.

Section equations.
Context `{PropertyData} `{UnicodeData} (leave : bool) (limits : CompileLimits) (metadata : CaptureMetadata) (input : list Z).
Notation match_term := (match_term leave limits metadata input).
Notation match_disjunction := (disjunction_with match_term).

Lemma match_ignore modifiers d mode direction n c K :
  match_term (IgnoreGroup modifiers d) mode direction n c K = match_disjunction d (nested_mode mode modifiers) direction n c K.
Proof. done. Qed.
Lemma match_group span name d mode direction n c K :
  match_term (CapturingGroup span name d) mode direction n c K =
  (index ← by_start metadata !! span.1;
   match direction with
   | Forward =>
       c ← capture_start direction index n c;
       match_disjunction d mode direction n c (λ n c, c ← capture_end direction index n c; K n c)
   | Backward =>
       c ← capture_end direction index n c;
       match_disjunction d mode direction n c (λ n c, c ← capture_start direction index n c; K n c)
   end).
Proof. done. Qed.
Lemma match_look kind d mode direction n c K :
  match_term (LookAroundAssertion kind d) mode direction n c K =
  (decided ← match_disjunction d mode (LookaroundKind.direction kind) n c (λ _ c, Some (Accepted (LookaroundKind.negative kind) c));
   match decided with
   | Final o => Some (Final o)
   | Accepted true _ => Some Failed
   | Accepted false c => K n c
   | Failed => if LookaroundKind.negative kind then K n c else Some Failed
   end).
Proof. done. Qed.

Lemma leaf_of_leaf t mode i : leaf limits metadata t mode i → leaf_of limits metadata t mode = Some i
  ∧ ∀ direction n c K, match_term t mode direction n c K = match_instruction input i direction n c K.
Proof.
  destruct t; cbn [leaf]; try done; try (intros ->; done).
  - intros (l & E & ->). cbn [leaf_of RegExpMatcher.match_term]. by rewrite E.
  - intros (l & E & ->). cbn [leaf_of RegExpMatcher.match_term]. by rewrite E.
  - intros (l & E & ->). cbn [leaf_of RegExpMatcher.match_term]. by rewrite E.
Qed.
End equations.

(** ** Programs implement the matcher *)

Section implement.
Context `{PropertyData} `{UnicodeData} (limits : CompileLimits) (metadata : CaptureMetadata) (program : Program) (input : list Z).
Notation search := (search never program input).
Notation search_first := (search_first never program input).
Notation effect := (effect never program input).
Notation match_term := (match_term true limits metadata input).
Notation match_alternative := (alternative_with match_term).
Notation match_disjunction := (disjunction_with match_term).
Notation lays := (lays limits metadata program).
Notation lays_sequence := (lays_sequence limits metadata program).
Notation lays_disjunction := (lays_disjunction limits metadata program).

(** Repeats that differ where both are inactive. *)
Definition similar : list RepeatState → list RepeatState → Prop := Forall2 (λ a b, a = b ∨ active a = false ∧ active b = false).

#[export] Instance similar_equivalence : Equivalence similar.
Proof.
  split.
  - intros l. apply Forall_Forall2_diag, Forall_true. auto.
  - intros l k Hl. apply Forall2_flip. eapply Forall2_impl; [exact Hl|]. simpl. intros a b [->|[]]; auto.
  - intros l k m Hl Hk. eapply Forall2_trans; [|exact Hl|exact Hk]. simpl. intros a b d [->|[]] [->|[]]; auto.
Qed.

Lemma similar_lookup l l' j r : similar l l' → l !! j = Some r → active r = true → l' !! j = Some r.
Proof. intros Hl Hj Ha. destruct (Forall2_lookup_l _ _ _ _ _ Hl Hj) as (r' & Hj' & [<-|[Hn _]]); [done|congruence]. Qed.

Lemma similar_insert l l' j r : similar l l' → similar (<[j := r]> l) (<[j := r]> l').
Proof. intros Hl. apply Forall2_insert; [done|auto]. Qed.

Lemma similar_inactive l j r r' : l !! j = Some r → active r = false → active r' = false → similar l (<[j := r']> l).
Proof.
  intros Hj Ha Ha'. rewrite <- (list_insert_id l j r Hj) at 1. apply Forall2_insert; [reflexivity|auto].
Qed.

(** The slots from [k] to [k'] are inactive. *)
Definition idle (reps : list RepeatState) (k k' : nat) : Prop := ∀ j, k ≤ j < k' → ∃ r, reps !! j = Some r ∧ active r = false.

Lemma idle_similar reps reps' k k' : similar reps reps' → idle reps k k' → idle reps' k k'.
Proof. intros Hs Hi j Hj. destruct (Hi j Hj) as (r & Hr & Ha). destruct (Forall2_lookup_l _ _ _ _ _ Hs Hr) as (r' & Hr' & [<-|[_ Ha']]); eauto. Qed.

Lemma idle_sub reps k k' k1 k1' : k ≤ k1 → k1' ≤ k' → idle reps k k' → idle reps k1 k1'.
Proof. intros ? ? Hi j Hj. apply Hi. lia. Qed.

(** The search from a place does what the continuation says. *)
Definition realises (q : nat) (direction : Direction) (reps : list RepeatState) (K : continuation) : Prop :=
  ∀ n c r reps', K n c = Some r → similar reps reps' → search (mkState q n c reps' None direction) r.

Lemma realises_similar q direction reps reps' K : similar reps reps' → realises q direction reps K → realises q direction reps' K.
Proof. intros Hs HK n c r reps'' E Hs'. apply (HK n c r reps'' E). by transitivity reps'. Qed.

(** What the search makes of an effect. *)
Definition effect_answer (e : Effect) (r : Answer) : Prop :=
  match e with
  | Fails => r = Failed
  | Goes s => search s r
  | Tries l => search_first l r
  | _ => False
  end.
Lemma search_by_effect s e r : effect s = Ok e → effect_answer e r → search s r.
Proof.
  intros E Hr. destruct e as [|s'|l| | |]; cbn in Hr; [subst; by apply search_fails|by eapply search_goes|by eapply search_tries|done..].
Qed.

Lemma first_orelse s l a b r : orelse a b = Some r → (∀ r, a = Some r → search s r) → (∀ r, b = Some r → search_first l r) → search_first (s :: l) r.
Proof.
  intros E Ha Hb. destruct a as [[| |]|]; cbn in E; try done; try (injection E as <-; apply first_found; [by apply Ha|done]). apply first_next; [by apply Ha|by apply Hb].
Qed.

Lemma first_one s r : search s r → search_first [s] r.
Proof. intros Hs. destruct (decide (r = Failed)) as [->|Hne]; [by apply first_next; [|constructor]|by apply first_found]. Qed.

Lemma instruction_realised i p direction reps K : instructions program !! p = Some i → realises (S p) direction reps K →
  realises p direction reps (λ n c, match_instruction input i direction n c K).
Proof.
  intros Hi HK n c r reps' E Hs. set (s := mkState p n c reps' None direction).
  assert (∀ n' r, K n' c = Some r → search (move s n') r) as Hmove by (intros n' r' E'; by apply (HK n' c)).
  assert (token_failure s = Fails) as Hfail by done.
  assert (∀ e, effect s = Ok e → effect_answer e r → search s r) as Hby by (intros e; apply search_by_effect).
  unfold RegExpFacts.effect in Hby. cbn [pc s] in Hby. rewrite Hi in Hby. cbn [position RegExp.direction captures s] in Hby. fold s in Hby.
  destruct i as [value mode|mode|class mode|kind mode| | |indices mode| | | | | | |]; try done; cbn [match_instruction] in E; rewrite ?Hfail in Hby.
  - destruct (decode_in_direction input n (unicode mode) direction) as [[[a next]|]|]; [| |done]; cbn in E, Hby; (eapply Hby; [reflexivity|]); [|by injection E as <-].
    destruct (same_character a value mode); [by apply Hmove|by injection E as <-].
  - destruct (decode_in_direction input n (unicode mode) direction) as [[[a next]|]|]; [| |done]; cbn in E, Hby; (eapply Hby; [reflexivity|]); [|by injection E as <-].
    destruct (dot_all mode || negb (is_line_terminator a)); [by apply Hmove|by injection E as <-].
  - destruct (class_match_positions class input n mode direction) as [positions|]; [|done]. cbn [defined mbind option_bind result_bind] in E, Hby. eapply Hby; [reflexivity|].
    assert (∀ l r, first_of K c l = Some r → search_first (move s <$> l) r) as Hfirst.
    { clear -Hmove. induction l as [|next l IH]; intros r E; cbn in E; [injection E as <-; constructor|]. eapply first_orelse; [exact E|apply Hmove|apply IH]. }
    destruct positions as [|next l]; [by injection E as <-|]. by apply Hfirst.
  - destruct (boundary_matches kind input n mode) as [[]|]; [| |done]; cbn in E, Hby; (eapply Hby; [reflexivity|]); [by apply Hmove|by injection E as <-].
  - destruct (list.head _) as [found|]; [|eapply Hby; [reflexivity|]; by apply Hmove].
    destruct (match_back_reference input n found mode direction) as [[next|]|]; [| |done]; cbn in E, Hby; (eapply Hby; [reflexivity|]); [by apply Hmove|by injection E as <-].
Qed.

(** *** Repeats *)

Lemma start_iteration_exact s k b first last R reset : repeats s !! k = Some R → forget first last (captures s) = Some reset →
  start_iteration (E := ExecError) s k b first last =
  Ok (mkState b (position s) reset (<[k := mkRepeat (active R) (repeat_number R) (Some (position s)) (optional_attempted R)]> (repeats s)) (terminal s) (direction s)).
Proof.
  intros HR Hf. unfold start_iteration. rewrite HR. unfold forget in Hf. unfold fill.
  destruct (first <? last); [destruct (last <=? length (captures s)); [|done]|]; injection Hf as <-; done.
Qed.

Definition with_start (R : RepeatState) (n : nat) (attempted : bool) : RepeatState := mkRepeat true (repeat_number R) (Some n) attempted.

Section repeats.
Context (p q k : nat) (min : Z) (max : option Z) (greedy : bool) (first last : nat) (direction : Direction) (reps : list RepeatState).
Context (K : continuation) (body : nat → list CaptureSlot → continuation → attempt).
Context (Ip : instructions program !! p = Some (Repeat k min max greedy (S p) (S q) first last)) (Iq : instructions program !! q = Some (RepeatEnd k p)).
Context (Hmin : (min ≤ u64_max)%Z) (Hmax : ∀ m, max = Some m → (0 ≤ m ≤ u64_max)%Z).
Context (HK : realises (S q) direction reps K).
Context (r0 : RepeatState) (Hslot : reps !! k = Some r0) (Hidle : active r0 = false).
Context (Hbody : ∀ R K', realises q direction (<[k := R]> reps) K' → realises (S p) direction (<[k := R]> reps) (λ n c, body n c K')).

Notation required R := (Z.max 0 (min - repeat_number R)).
Notation allowed R := (max ≫= λ m, Some (m - repeat_number R)%Z).

(** The state of the repeat at its head. *)
Record counting (R : RepeatState) (n : nat) : Prop := mkCounting {
  counting_active : active R = true;
  counting_number : (0 ≤ repeat_number R ≤ u64_max)%Z;
  counting_attempted : optional_attempted R = true → (min ≤ repeat_number R)%Z;
  counting_max : ∀ m, max = Some m → (repeat_number R ≤ m)%Z;
  counting_moved : ((min <=? repeat_number R)%Z && ((0 <? repeat_number R)%Z && bool_decide (iteration_start R = Some n))) = false
}.

Lemma slot_lt : k < length reps.
Proof. by eapply lookup_lt_Some. Qed.

Lemma leave_realised R reps' n c r : K n c = Some r → similar (<[k := R]> reps) reps' →
  ∀ N I O, search (mkState (S q) n c (<[k := mkRepeat false N I O]> reps') None direction) r.
Proof.
  intros E Hs N I O. apply (HK n c r _ E). transitivity (<[k := mkRepeat false N I O]> reps); [by eapply similar_inactive|].
  rewrite <- (list_insert_insert_eq reps k (mkRepeat false N I O) R). by apply similar_insert.
Qed.

(** The end of an iteration, given the head with less fuel. *)
Lemma end_realised fuel R n (c : list CaptureSlot) :
  (∀ R n c r, counting R n → repeat_matcher true fuel body greedy first last (required R) (allowed R) n c K = Some r →
     ∀ reps', similar (<[k := R]> reps) reps' →
     ∃ e, repeat_effect never (mkState p n c reps' None direction) k min max greedy (S p) (S q) first last = Ok e ∧ effect_answer e r) →
  counting R n → allowed R ≠ Some 0%Z →
  realises q direction (<[k := with_start R n (min <=? repeat_number R)%Z]> reps) (λ n' c',
    if (required R =? 0)%Z && (n' =? n) then Some Failed
    else if true && (required R =? 1)%Z && (n' =? n) then K n' c'
    else repeat_matcher true fuel body greedy first last (Z.max 0 (required R - 1)) (allowed R ≫= λ a, Some (a - 1)%Z) n' c' K).
Proof.
  intros IH [Ha Hn Hopt Hm Hmv] Hal n' c' r reps' E Hs. set (R1 := with_start R n (min <=? repeat_number R)%Z) in *.
  assert (reps' !! k = Some R1) as Hk by (eapply similar_lookup; [exact Hs|by apply list_lookup_insert_eq, slot_lt|done]).
  set (R2 := mkRepeat true (saturating_add_u64 (repeat_number R) 1) (Some n) (min <=? repeat_number R)%Z).
  assert (repeat_number R2 = Z.min (repeat_number R + 1) u64_max) as HN by done.
  assert (similar (<[k := R2]> reps) (<[k := R2]> reps')) as Hs2 by (rewrite <- (list_insert_insert_eq reps k R2 R1); by apply similar_insert).
  assert (<[k := R2]> reps' !! k = Some R2) as Hk2 by (apply list_lookup_insert_eq; by eapply lookup_lt_Some).
  assert (∀ m, max = Some m → (repeat_number R < m)%Z) as Hlt.
  { intros m Em. specialize (Hm m Em). destruct (decide (m = repeat_number R)) as [Ee|]; [|lia]. exfalso. apply Hal. rewrite Em. cbn. do 2 f_equal. lia. }
  eapply search_goes; [unfold RegExpFacts.effect; cbn [pc]; rewrite Iq; cbn [repeats]; rewrite Hk; reflexivity|]. cbn [set_pc set_repeats position captures terminal RegExp.direction repeats]. fold R2.
  assert (∀ e, repeat_effect never (mkState p n' c' (<[k := R2]> reps') None direction) k min max greedy (S p) (S q) first last = Ok e → effect_answer e r →
    search (mkState p n' c' (<[k := R2]> reps') None direction) r) as Hhead.
  { intros e Ee. apply search_by_effect. unfold RegExpFacts.effect. cbn [pc]. rewrite Ip. cbn [repeats]. rewrite Hk2. exact Ee. }
  assert ((if (required R <=? 1)%Z && (n' =? n) then (if (required R =? 0)%Z then Some Failed else K n' c')
    else repeat_matcher true fuel body greedy first last (Z.max 0 (required R - 1)) (allowed R ≫= λ a, Some (a - 1)%Z) n' c' K) = Some r) as E'.
  { rewrite <- E. destruct (n' =? n); rewrite ?andb_true_r, ?andb_false_r; [|done]. cbn [andb]. clear -Hn.
    destruct (Z.eqb_spec (required R) 0), (Z.eqb_spec (required R) 1), (Z.leb_spec (required R) 1); try done; lia. }
  clear E. rename E' into E. destruct ((required R <=? 1)%Z && (n' =? n)) eqn:Estop.
  - apply andb_true_iff in Estop as [Hreq%Z.leb_le ->%Nat.eqb_eq]. eapply Hhead.
    + unfold repeat_effect. cbn [repeats position]. rewrite Hk2. cbn [expect ok_or mbind result_bind]. rewrite bool_decide_true by done.
      rewrite (proj2 (Z.leb_le min (repeat_number R2))) by (unfold u64_max in *; lia). rewrite (proj2 (Z.ltb_lt 0 (repeat_number R2))) by (unfold u64_max in *; lia). cbn [andb].
      replace (if optional_attempted R2 then _ else _) with (Ok (E := fault ExecError) (if (required R =? 0)%Z then Fails else
        Goes (mkState (S q) n c' (<[k := mkRepeat false (repeat_number R2) (iteration_start R2) (optional_attempted R2)]> (<[k := R2]> reps')) None direction))); [reflexivity|].
      cbn [optional_attempted R2]. destruct (Z.leb_spec min (repeat_number R)); [by rewrite (proj2 (Z.eqb_eq (required R) 0)) by lia|by rewrite (proj2 (Z.eqb_neq (required R) 0)) by lia].
    + destruct (required R =? 0)%Z; [by injection E as <-|]. cbn. by eapply leave_realised.
  - destruct (IH R2 n' c' r) with (reps' := <[k := R2]> reps') as (e & Ee & He); [| |exact Hs2|by eapply Hhead].
    + split; [done|unfold u64_max in *; lia|change (optional_attempted R2) with (min <=? repeat_number R)%Z; intros ?%Z.leb_le; rewrite HN; unfold u64_max in *; lia|intros m Em; specialize (Hlt m Em); lia|].
      apply andb_false_iff in Estop as [Hreq%Z.leb_gt|Hne%Nat.eqb_neq].
      * rewrite (proj2 (Z.leb_gt min (repeat_number R2))) by (unfold u64_max in *; lia). done.
      * rewrite bool_decide_false by (cbn; congruence). by rewrite !andb_false_r.
    + rewrite <- E. f_equal; [unfold u64_max in *; lia|]. destruct max as [m|]; [|done]. cbn [mbind option_bind]. specialize (Hlt m eq_refl). specialize (Hmax m eq_refl). f_equal. rewrite HN. unfold u64_max in *. lia.
Qed.

Lemma repeat_realised fuel : ∀ R n c r, counting R n → repeat_matcher true fuel body greedy first last (required R) (allowed R) n c K = Some r →
  ∀ reps', similar (<[k := R]> reps) reps' →
  ∃ e, repeat_effect never (mkState p n c reps' None direction) k min max greedy (S p) (S q) first last = Ok e ∧ effect_answer e r.
Proof.
  induction fuel as [|fuel IH]; intros R n c r HR E reps' Hs; [done|]. cbn [repeat_matcher] in E. destruct HR as [Ha Hn Hopt Hm Hmv].
  assert (reps' !! k = Some R) as Hk by (eapply similar_lookup; [exact Hs|by apply list_lookup_insert_eq, slot_lt|done]).
  unfold repeat_effect. cbn [repeats position]. rewrite Hk. cbn [expect ok_or mbind result_bind]. rewrite Hmv.
  case_bool_decide as Hal.
  { destruct max as [m|]; [|done]. injection Hal as Hal. rewrite (proj2 (Z.leb_le m (repeat_number R))) by lia. eexists. split; [done|]. cbn. by eapply leave_realised. }
  replace (match max with Some maximum => (maximum <=? repeat_number R)%Z | None => false end) with false.
  2: { destruct max as [m|]; [|done]. specialize (Hm m eq_refl). symmetry. apply Z.leb_gt. destruct (decide (m = repeat_number R)) as [->|]; [|lia]. exfalso. apply Hal. cbn. do 2 f_equal. lia. }
  destruct (forget first last c) as [reset|] eqn:Ef; [|done]. cbn [mbind option_bind] in E.
  match type of E with (if _ then ?it else _) = _ => set (iterate := it) in E end.
  assert (∀ r, iterate = Some r → ∀ reps'', similar (<[k := with_start R n (min <=? repeat_number R)%Z]> reps) reps'' →
    search (mkState (S p) n reset reps'' None direction) r) as Hiter.
  { clear E r. intros r E reps'' Hs''. eapply Hbody; [|exact E|exact Hs'']. clear E r reps'' Hs''. by apply (end_realised fuel R n c). }
  destruct (Z.ltb_spec 0 (required R)) as [Hreq|Hreq].
  - rewrite (proj2 (Z.ltb_lt (repeat_number R) min)) by lia. erewrite start_iteration_exact; [|exact Hk|exact Ef]. cbn [mbind result_bind]. eexists. split; [done|]. cbn.
    apply Hiter; [exact E|]. rewrite <- (list_insert_insert_eq reps k _ R). rewrite (proj2 (Z.leb_gt min (repeat_number R))) by lia. unfold with_start.
    rewrite Ha. destruct (optional_attempted R); [specialize (Hopt eq_refl); lia|]. by apply similar_insert.
  - rewrite (proj2 (Z.ltb_ge (repeat_number R) min)) by lia.
    erewrite start_iteration_exact; [|cbn; apply list_lookup_insert_eq; by eapply lookup_lt_Some|exact Ef]. cbn [mbind result_bind].
    rewrite (proj2 (Z.leb_le min (repeat_number R))) in Hiter by lia.
    assert (similar (<[k := with_start R n true]> reps) (<[k := with_start R n true]> reps')) as Hs'.
    { rewrite <- (list_insert_insert_eq reps k _ R). by apply similar_insert. }
    assert (∀ r, K n c = Some r → search (mkState (S q) n c (<[k := mkRepeat false (repeat_number R) (iteration_start R) (optional_attempted R)]> reps') None direction) r) as Hleave.
    { intros r' E'. by eapply leave_realised. }
    cbn [repeats set_repeats position terminal RegExp.direction active repeat_number optional_attempted]. rewrite list_insert_insert_eq. rewrite Ha. fold (with_start R n true).
    destruct greedy; (eexists; split; [reflexivity|]); cbn [effect_answer];
      (eapply first_orelse; [exact E| |]); intros r' E'; try apply first_one; auto.
Qed.
End repeats.

(** *** Terms *)

Lemma lays_slots :
  (∀ t mode direction p q k k', lays t mode direction p q k k' → k ≤ k')
  ∧ (∀ l mode direction p q k k', lays_sequence l mode direction p q k k' → k ≤ k')
  ∧ (∀ d mode direction p q k k', lays_disjunction d mode direction p q k k' → k ≤ k').
Proof. apply lays_all; intros; lia. Qed.

Lemma look_realised kind p q direction reps K M : instructions program !! p = Some (Lookaround kind (S p) (S q)) → instructions program !! q = Some (LookaroundAccept kind) →
  realises (S q) direction reps K →
  (∀ K', realises q (LookaroundKind.direction kind) reps K' → realises (S p) (LookaroundKind.direction kind) reps (λ n c, M n c K')) →
  realises p direction reps (λ n c,
    decided ← M n c (λ _ c, Some (Accepted (LookaroundKind.negative kind) c));
    match decided with
    | Final o => Some (Final o)
    | Accepted true _ => Some Failed
    | Accepted false c => K n c
    | Failed => if LookaroundKind.negative kind then K n c else Some Failed
    end).
Proof.
  intros Ip Iq HK HM n c r reps' E Hs.
  assert (effect (mkState p n c reps' None direction) = Ok (Looks kind (mkState (S p) n c reps' None (LookaroundKind.direction kind)) (mkState (S q) n c reps' None direction))) as Ee.
  { unfold RegExpFacts.effect. cbn [pc]. by rewrite Ip. }
  destruct (M n c _) as [a|] eqn:Ea; [|done]. cbn [mbind option_bind] in E.
  assert (search (mkState (S p) n c reps' None (LookaroundKind.direction kind)) a) as Ha.
  { eapply HM; [|exact Ea|exact Hs]. intros n' c' r' reps'' [= <-] _. apply search_accepts. unfold RegExpFacts.effect. cbn [pc]. by rewrite Iq. }
  destruct a as [|[] c'|o].
  - destruct (LookaroundKind.negative kind) eqn:Ek; [|injection E as <-; by eapply search_looks_failed]. eapply search_looks_holds; [exact Ee|exact Ha|done|by apply (HK n c)].
  - injection E as <-. by eapply search_looks_negative.
  - eapply search_looks_positive; [exact Ee|exact Ha|]. by apply (HK n c').
  - injection E as <-. by eapply search_looks_final.
Qed.

Lemma save_realised i p direction reps K (f : nat → list CaptureSlot → option (list CaptureSlot)) : instructions program !! p = Some i → realises (S p) direction reps K →
  (∃ index, i = SaveStart index ∧ f = capture_start direction index ∨ i = SaveEnd index ∧ f = capture_end direction index) →
  realises p direction reps (λ n c, c ← f n c; K n c).
Proof.
  intros Hi HK (index & Hf) n c r reps' E Hs. destruct (f n c) as [c'|] eqn:Ec; [|done]. cbn in E.
  eapply search_goes; [|by apply (HK n c' r reps' E Hs)]. unfold RegExpFacts.effect. cbn [pc]. rewrite Hi.
  destruct Hf as [[-> ->]|[-> ->]]; unfold capture_start, capture_end in Ec; cbn [captures]; destruct (c !! index) as [old|] eqn:Eo; try done; cbn in Ec; injection Ec as <-;
    cbn [expect ok_or mbind result_bind]; unfold write; by rewrite (proj2 (Nat.ltb_lt _ _)) by (by eapply lookup_lt_Some).
Qed.

Lemma alternative_backward x y mode n c K :
  match_alternative (x ++ y) mode Backward n c K = match_alternative y mode Backward n c (λ n c, match_alternative x mode Backward n c K).
Proof. revert K. induction x as [|t x IH]; intros K; [done|]. cbn [app alternative_with]. by rewrite IH. Qed.

Lemma split_realised p r q direction reps K M1 M2 : instructions program !! p = Some (Split (S p) (S r)) → instructions program !! r = Some (Jump q) →
  realises q direction reps K → (∀ K', realises r direction reps K' → realises (S p) direction reps (λ n c, M1 n c K')) →
  realises (S r) direction reps (λ n c, M2 n c K) → realises p direction reps (λ n c, orelse (M1 n c K) (M2 n c K)).
Proof.
  intros Ip Ir HK H1 H2 n c a reps' E Hs. eapply search_tries; [unfold RegExpFacts.effect; cbn [pc]; rewrite Ip; reflexivity|].
  eapply first_orelse; [exact E| |].
  - intros a' Ea. eapply H1; [|exact Ea|exact Hs]. intros n' c' r' reps'' E' Hs'. eapply search_goes; [unfold RegExpFacts.effect; cbn [pc]; by rewrite Ir|]. by apply (HK n' c').
  - intros a' Ea. apply first_one. by eapply H2.
Qed.

Lemma quantifier_realised p q k min max greedy span t mode direction reps K :
  instructions program !! p = Some (Repeat k min max greedy (S p) (S q) (within metadata span.1 span.2).1 (within metadata span.1 span.2).2) →
  instructions program !! q = Some (RepeatEnd k p) → node_ok (Quantifier min max greedy span t) = true → realises (S q) direction reps K →
  (∃ r, reps !! k = Some r ∧ active r = false) →
  (∀ R K', realises q direction (<[k := R]> reps) K' → realises (S p) direction (<[k := R]> reps) (λ n c, match_term t mode direction n c K')) →
  realises p direction reps (λ n c, match_term (Quantifier min max greedy span t) mode direction n c K).
Proof.
  intros Ip Iq Hcount HK (r0 & Hslot & Hidle) Hbody n c r reps' E Hs. cbn [match_term] in E. cbn [node_ok] in Hcount.
  apply andb_true_iff in Hcount as [Hmin Hmax]. unfold is_count in Hmin. bool_to_prop.
  assert (∀ m, max = Some m → (0 ≤ m ≤ u64_max)%Z) as Hmax'. { intros m ->. unfold is_count in Hmax. bool_to_prop. lia. }
  destruct (within metadata span.1 span.2) as [first last]. cbn [fst snd] in *. set (R := mkRepeat true 0 None false).
  destruct (Forall2_lookup_l _ _ _ _ _ Hs Hslot) as (r' & Hk & Hr'). assert (active r' = false) as Ha by (destruct Hr' as [<-|[_ ?]]; done).
  destruct (repeat_realised p q k min max greedy first last direction reps K (λ n c K, match_term t mode direction n c K) Ip Iq ltac:(lia) Hmax' HK r0 Hslot Hidle Hbody
    (S (Z.to_nat min + S (length input))) R n c r) with (reps' := <[k := R]> reps') as (e & Ee & He).
  - split; [done|cbn; unfold u64_max; lia|done|intros m Em; specialize (Hmax' m Em); cbn; lia|]. cbn. by rewrite andb_false_r.
  - rewrite <- E. f_equal; [cbn; lia|]. destruct max as [m|]; [|done]. cbn. f_equal. lia.
  - by apply similar_insert.
  - eapply search_by_effect; [|exact He]. unfold RegExpFacts.effect. cbn [pc]. rewrite Ip. cbn [repeats]. rewrite Hk. cbn [expect ok_or mbind result_bind]. rewrite Ha. exact Ee.
Qed.

Lemma lays_realised :
  (∀ t mode direction p q k k', lays t mode direction p q k k' → term_all node_ok t = true → ∀ reps K, realises q direction reps K → idle reps k k' →
     realises p direction reps (λ n c, match_term t mode direction n c K))
  ∧ (∀ l mode direction p q k k', lays_sequence l mode direction p q k k' → forallb (term_all node_ok) l = true → ∀ reps K, realises q direction reps K → idle reps k k' →
     ∀ a, l = ordered direction a → realises p direction reps (λ n c, match_alternative a mode direction n c K))
  ∧ (∀ d mode direction p q k k', lays_disjunction d mode direction p q k k' → pattern_ok d = true → ∀ reps K, realises q direction reps K → idle reps k k' →
     realises p direction reps (λ n c, match_disjunction d mode direction n c K)).
Proof.
  apply lays_all.
  - intros t mode direction p k i Hl Hi _ reps K HK _ n c r reps' E Hs. destruct (leaf_of_leaf true limits metadata input t mode i Hl) as [_ Em]. rewrite Em in E.
    by eapply instruction_realised.
  - intros kind d mode direction p q k k' Ip Hd IH Iq Hok reps K HK Hidle. apply (look_realised kind p q direction reps K (λ n c K, match_disjunction d mode (LookaroundKind.direction kind) n c K) Ip Iq HK).
    intros K' HK'. by apply IH.
  - intros min max greedy span t mode direction p q k k' Ip Ht IH Iq Hok reps K HK Hidle. cbn [term_all] in Hok. apply andb_true_iff in Hok as [Hcount Hok].
    pose proof (proj1 lays_slots _ _ _ _ _ _ _ Ht). eapply (quantifier_realised p q k min max greedy span t mode direction); try done.
    + apply Hidle. lia.
    + intros R K' HK'. apply IH; [done|done|]. intros j Hj. rewrite list_lookup_insert_ne by lia. apply Hidle. lia.
  - intros span name d mode direction p q k k' index Hindex Ip Hd IH Iq Hok reps K HK Hidle n c r reps' E Hs. rewrite match_group, Hindex in E. cbn [mbind option_bind] in E.
    destruct direction.
    + eapply (save_realised _ p Forward reps (λ n c, match_disjunction d mode Forward n c (λ n c, c ← capture_end Forward index n c; K n c)) (capture_start Forward index) Ip);
        [|exists index; auto|exact E|exact Hs]. apply IH; [exact Hok| |exact Hidle]. eapply save_realised; [exact Iq|exact HK|exists index; auto].
    + eapply (save_realised _ p Backward reps (λ n c, match_disjunction d mode Backward n c (λ n c, c ← capture_start Backward index n c; K n c)) (capture_end Backward index) Ip);
        [|exists index; auto|exact E|exact Hs]. apply IH; [exact Hok| |exact Hidle]. eapply save_realised; [exact Iq|exact HK|exists index; auto].
  - intros modifiers d mode direction p q k k' Hd IH Hok reps K HK Hidle. by apply IH.
  - intros mode direction p k _ reps K HK _ a Ha. assert (a = []) as ->; [|exact HK]. destruct direction, a as [|t a]; try done. cbn in Ha. by apply app_cons_not_nil in Ha.
  - intros t l mode direction p r q k k1 k' Ht IHt Hl IHl Hok reps K HK Hidle a Ha. cbn [forallb] in Hok. apply andb_true_iff in Hok as [Hok1 Hok2].
    pose proof (proj1 lays_slots _ _ _ _ _ _ _ Ht). pose proof (proj1 (proj2 lays_slots) _ _ _ _ _ _ _ Hl).
    assert (idle reps k k1) as Hi1 by (eapply idle_sub; [| |exact Hidle]; lia). assert (idle reps k1 k') as Hi2 by (eapply idle_sub; [| |exact Hidle]; lia).
    destruct direction; cbn [ordered] in Ha.
    + subst a. cbn [alternative_with]. apply IHt; [done| |done]. by apply (IHl Hok2 reps K HK Hi2 l).
    + assert (a = rev l ++ [t]) as -> by (by rewrite <- (rev_involutive a), <- Ha). intros n c a' reps' E Hs. rewrite alternative_backward in E. cbn [alternative_with] in E.
      eapply IHt; [done| |done|exact E|exact Hs]. apply (IHl Hok2 reps K HK Hi2 (rev l)). cbn. by rewrite rev_involutive.
  - intros mode direction p k _ reps K HK _. exact HK.
  - intros a mode direction p q k k' Hl IH Hok reps K HK Hidle. apply IH; try done. rewrite ordered_ok. unfold pattern_ok in Hok. cbn in Hok. by rewrite andb_true_r in Hok.
  - intros a a' d mode direction p r q k k1 k' Ip Hl IHl Ir Hd IHd Hok reps K HK Hidle. unfold pattern_ok in Hok. cbn [forallb] in Hok. apply andb_true_iff in Hok as [Hok1 Hok2].
    pose proof (proj1 (proj2 lays_slots) _ _ _ _ _ _ _ Hl). pose proof (proj2 (proj2 lays_slots) _ _ _ _ _ _ _ Hd).
    apply (split_realised p r q direction reps K (λ n c K, match_alternative a mode direction n c K) (λ n c K, match_disjunction (a' :: d) mode direction n c K) Ip Ir HK).
    + intros K' HK'. apply IHl; [by rewrite ordered_ok|done|by eapply idle_sub; [| |exact Hidle]|done].
    + apply IHd; [exact Hok2|done|]. by eapply idle_sub; [| |exact Hidle].
Qed.
End implement.
