(* ===== verification/RegExpCorrect.v ===== *)
(** * Compilation and execution are correct

    The matcher of [RegExpMatcher.v] is defined on every compiled pattern: every
    repeat moves towards an end of the input.  Hence whatever a compiled program
    answers is the answer of the matcher on the syntax tree. *)

From S2P Require Import Prelude RuntimePrelude RegExp RegExpFacts RegExpSearch RegExpCompiler RegExpLayout RegExpCompiled RegExpMatcher.
From stdpp Require Import list gmap strings.
Local Open Scope nat_scope.

(** ** Terms move in their direction *)

Definition moves (direction : Direction) (n n' : nat) : Prop := match direction with Forward => n ≤ n' | Backward => n' ≤ n end.

Lemma moves_refl direction n : moves direction n n.
Proof. destruct direction; cbn; lia. Qed.
Lemma moves_trans direction n n1 n2 : moves direction n n1 → moves direction n1 n2 → moves direction n n2.
Proof. destruct direction; cbn; lia. Qed.

Section moving.
Context `{UnicodeData} (input : list Z).
Notation inside n := (n ≤ length input).

Lemma decode_moves u direction p o : inside p → decode_in_direction (E := ExecError) input p u direction = Ok o → ∀ c n, o = Some (c, n) → inside n ∧ moves direction p n.
Proof.
  intros Hp E c n ->. destruct (decode_ok (E := ExecError) input p u direction Hp) as (o & E' & Ho). rewrite E in E'. injection E' as <-. specialize (Ho c n eq_refl). destruct direction; cbn; lia.
Qed.

Lemma match_string_moves value mode direction : ∀ p n, inside p → match_string (E := ExecError) input p value mode direction = Ok (Some n) → moves direction p n.
Proof.
  induction value as [|c value IH]; intros p n Hp E; cbn [match_string] in E; [injection E as <-; apply moves_refl|].
  destruct (decode_in_direction input p (unicode mode) direction) as [o|] eqn:Ed; [|done]. cbn in E. destruct o as [[a m]|]; [|done]. destruct (decode_moves _ _ _ _ Hp Ed a m eq_refl) as [Hm Hpm].
  destruct (negb _); [done|]. eapply moves_trans; [exact Hpm|by apply IH].
Qed.

Lemma prefixes_moves u direction max : ∀ value p l, inside p → directional_prefixes (E := ExecError) max input value p u direction = Ok l → Forall (λ e, moves direction p e.2) l.
Proof.
  induction max as [|max IH]; intros value p l Hp E; cbn [directional_prefixes] in E; [by injection E as <-|].
  destruct (decode_in_direction input p u direction) as [o|] eqn:Ed; [|done]. cbn [mbind result_bind] in E. destruct o as [[a n]|]; [|by injection E as <-].
  destruct (decode_moves _ _ _ _ Hp Ed a n eq_refl) as [Hn Hpn]. destruct (directional_prefixes max input _ n u direction) as [rest|] eqn:Er; [|done].
  injection E as <-. constructor; [done|]. eapply Forall_impl; [by eapply IH|]. intros e He. by eapply moves_trans.
Qed.

Lemma class_moves class p mode direction l : inside p → class_match_positions (E := ExecError) class input p mode direction = Ok l → Forall (moves direction p) l.
Proof.
  intros Hp. apply class_positions_all.
  - intros value n _. by apply match_string_moves.
  - intros dynamic. by apply prefixes_moves.
  - intros c n Ed. by destruct (decode_moves _ _ _ _ Hp Ed c n eq_refl).
Qed.

Lemma back_loop_moves mode direction fuel : ∀ p first last n, inside p → match_back_loop (E := ExecError) fuel input p first last mode direction = Ok (Some n) → moves direction p n.
Proof.
  induction fuel as [|fuel IH]; intros p first last n Hp E; cbn [match_back_loop] in E; destruct (last <=? first); try (injection E as <-; apply moves_refl); try done.
  match type of E with (?m ≫= _) = _ => destruct m as [o|]; [|done] end. cbn [mbind result_bind] in E. destruct o as [[expected nc]|]; [|done].
  match type of E with (if ?b then _ else _) = _ => destruct b; [done|] end.
  destruct (decode_in_direction input p (unicode mode) direction) as [o|] eqn:Ed; [|done]. cbn [mbind result_bind] in E. destruct o as [[a m]|]; [|done].
  destruct (decode_moves _ _ _ _ Hp Ed a m eq_refl) as [Hm Hpm]. destruct (negb _); [done|]. eapply moves_trans; [exact Hpm|]. destruct direction; by eapply IH.
Qed.
End moving.

(** ** The matcher is defined *)

Section defined.
Context `{PropertyData} `{UnicodeData} (leave : bool) (limits : CompileLimits) (metadata : CaptureMetadata) (program : Program) (input : list Z).
Notation match_term := (match_term leave limits metadata input).
Notation match_alternative := (alternative_with match_term).
Notation match_disjunction := (disjunction_with match_term).

(** A place of the input with proper captures. *)
Definition proper_at (n : nat) (c : list CaptureSlot) : Prop := n ≤ length input ∧ captures_ok program input c.

(** A defined match; captures that a lookaround hands over are proper. *)
Definition fine (a : attempt) : Prop :=
  match a with Some (Accepted _ c) => captures_ok program input c | Some _ => True | None => False end.

(** A matcher that is defined whenever its continuation is, ahead. *)
Definition defined_for (direction : Direction) (n : nat) (K : continuation) : Prop := ∀ n' c', proper_at n' c' → moves direction n n' → fine (K n' c').
Definition total (direction : Direction) (M : nat → list CaptureSlot → continuation → attempt) : Prop :=
  ∀ n c K, proper_at n c → defined_for direction n K → fine (M n c K).

Lemma defined_for_later direction n n' K : moves direction n n' → defined_for direction n K → defined_for direction n' K.
Proof. intros Hm HK n1 c1 Hp Hn. apply HK; [done|]. by eapply moves_trans. Qed.

Lemma orelse_fine a b : fine a → fine b → fine (orelse a b).
Proof. by destruct a as [[]|]. Qed.

(** A captured range ends in the input. *)
Lemma captured_inside c indices first last : captures_ok program input c → list.head (omap (λ index, c !! index ≫= range) indices) = Some (first, last) → last ≤ length input.
Proof.
  intros [_ Hc] (index & Ei)%head_omap. destruct (c !! index) as [[from to]|] eqn:Ecs; [|done]. unfold range in Ei. cbn in Ei. destruct from, to; try done. injection Ei as <- <-.
  rewrite Forall_lookup in Hc. apply (Hc _ _ Ecs). by right.
Qed.

Lemma instruction_total i direction : (match i with Character _ _ | Dot _ | Class _ _ | Boundary _ _ | BackReference _ _ => True | _ => False end) →
  total direction (λ n c K, match_instruction input i direction n c K).
Proof.
  intros Hi n c K [Hn Hc] HK. destruct i as [value mode|mode|class mode|kind mode| | |indices mode| | | | | | |]; try done; cbn [match_instruction].
  - destruct (decode_ok (E := ExecError) input n (unicode mode) direction Hn) as (o & E & _). pose proof (decode_moves input _ _ _ _ Hn E) as Hm. rewrite E. cbn.
    destruct o as [[a next]|]; [|done]. destruct (Hm a next eq_refl). case_match; [|done]. by apply HK.
  - destruct (decode_ok (E := ExecError) input n (unicode mode) direction Hn) as (o & E & _). pose proof (decode_moves input _ _ _ _ Hn E) as Hm. rewrite E. cbn.
    destruct o as [[a next]|]; [|done]. destruct (Hm a next eq_refl). case_match; [|done]. by apply HK.
  - destruct (class_positions_ok (E := ExecError) class input n mode direction Hn) as (l & E & Hl). pose proof (class_moves input _ _ _ _ _ Hn E) as Hm. rewrite E. cbn [defined mbind option_bind].
    clear E. induction l as [|m l IH]; [done|]. apply Forall_cons in Hl as [? Hl]. apply Forall_cons in Hm as [? Hm]. change (first_of K c (m :: l)) with (orelse (K m c) (first_of K c l)). apply orelse_fine; [by apply HK|by apply IH].
  - destruct (boundary_ok (E := ExecError) kind input n mode Hn) as [b ->]. cbn. destruct b; [|done]. apply HK; [done|apply moves_refl].
  - destruct (list.head _) as [[first last]|] eqn:Eh; [|apply HK; [done|apply moves_refl]]. unfold match_back_reference. cbn [fst snd].
    assert (last ≤ length input) as Hlast by (by eapply captured_inside).
    destruct (back_loop_ok (E := ExecError) input mode direction (last - first) n first last Hn Hlast ltac:(lia)) as (o & E & Ho). rewrite E. cbn. destruct o as [m|]; [|done].
    apply HK; [split; [by apply Ho|done]|]. by eapply back_loop_moves.
Qed.

Lemma forget_proper first last n c : last ≤ capture_count program → proper_at n c → ∃ c', forget first last c = Some c' ∧ proper_at n c'.
Proof.
  intros Hl (Hn & Hlen & Hc). unfold forget. destruct (Nat.ltb_spec first last); [|by eexists]. rewrite (proj2 (Nat.leb_le _ _)) by lia. eexists. split; [done|]. split; [done|split].
  - rewrite !length_app, length_take, length_replicate, length_drop. lia.
  - apply Forall_app. split; [by apply Forall_take|]. apply Forall_app. split; [apply Forall_replicate, empty_capture_ok|by apply Forall_drop].
Qed.

(** How far the end is. *)
Definition ahead (direction : Direction) (n : nat) : nat := match direction with Forward => length input - n | Backward => n end.

Lemma repeat_total direction body greedy first last K : last ≤ capture_count program → total direction body → ∀ fuel required allowed n c,
  proper_at n c → (0 ≤ required)%Z → Z.to_nat required + ahead direction n < fuel → defined_for direction n K →
  fine (repeat_matcher leave fuel body greedy first last required allowed n c K).
Proof.
  intros Hl Hbody. induction fuel as [|fuel IH]; intros required allowed n c Hp Hr Hf HK; [lia|]. cbn [repeat_matcher].
  assert (fine (K n c)) as Hhere by (apply HK; [done|apply moves_refl]). case_bool_decide; [done|].
  destruct (forget_proper first last n c Hl Hp) as (reset & -> & Hreset). cbn [mbind option_bind].
  match goal with |- fine (if _ then ?it else _) => assert (fine it) as Hit end.
  { apply Hbody; [done|]. intros n' c' Hp' Hm. destruct ((required =? 0)%Z && (n' =? n)) eqn:Estop; [done|].
    match goal with |- fine (if ?b then _ else _) => destruct b; [by apply HK|] end.
    apply IH; [done|lia| |by eapply defined_for_later]. destruct Hp' as [Hn' _]. destruct Hp as [Hn _].
    apply andb_false_iff in Estop as [Hreq%Z.eqb_neq|Hne%Nat.eqb_neq]; destruct direction; cbn in *; lia. }
  destruct (0 <? required)%Z; [exact Hit|]. destruct greedy; by apply orelse_fine.
Qed.

Lemma capture_start_proper direction index n c : index < capture_count program → proper_at n c → ∃ c', capture_start direction index n c = Some c' ∧ proper_at n c'.
Proof.
  intros Hi (Hn & Hlen & Hc). unfold capture_start. destruct (lookup_lt_is_Some_2 c index) as [old Ho]; [lia|]. rewrite Ho. cbn. eexists. split; [done|]. split; [done|split; [by rewrite length_insert|]].
  apply Forall_insert; [done|]. intros p [[= <-]|E]; [done|]. cbn in E. case_bool_decide; [done|]. rewrite Forall_lookup in Hc. apply (Hc _ _ Ho). by right.
Qed.
Lemma capture_end_proper direction index n c : index < capture_count program → proper_at n c → ∃ c', capture_end direction index n c = Some c' ∧ proper_at n c'.
Proof.
  intros Hi (Hn & Hlen & Hc). unfold capture_end. destruct (lookup_lt_is_Some_2 c index) as [old Ho]; [lia|]. rewrite Ho. cbn. eexists. split; [done|]. split; [done|split; [by rewrite length_insert|]].
  apply Forall_insert; [done|]. intros p [E|[= <-]]; [|done]. cbn in E. case_bool_decide; [done|]. destruct (capture_from old) as [f|] eqn:Ef; injection E as <-; [|done].
  rewrite Forall_lookup in Hc. apply (Hc _ _ Ho). by left.
Qed.

Lemma group_total direction M (first last : nat → list CaptureSlot → option (list CaptureSlot)) : total direction M →
  (∀ n c, proper_at n c → ∃ c', first n c = Some c' ∧ proper_at n c') → (∀ n c, proper_at n c → ∃ c', last n c = Some c' ∧ proper_at n c') →
  total direction (λ n c K, c ← first n c; M n c (λ n c, c ← last n c; K n c)).
Proof.
  intros HM H1 H2 n c K Hp HK. destruct (H1 n c Hp) as (c1 & -> & Hp1). cbn. apply HM; [done|]. intros n' c' Hp' Hm. destruct (H2 n' c' Hp') as (c2 & -> & Hp2). cbn. by apply HK.
Qed.

Lemma look_total kind direction M : total (LookaroundKind.direction kind) M →
  total direction (λ n c K,
    decided ← M n c (λ _ c, Some (Accepted (LookaroundKind.negative kind) c));
    match decided with
    | Final o => Some (Final o)
    | Accepted true _ => Some Failed
    | Accepted false c => K n c
    | Failed => if LookaroundKind.negative kind then K n c else Some Failed
    end).
Proof.
  intros HM n c K Hp HK. assert (fine (M n c (λ _ c, Some (Accepted (LookaroundKind.negative kind) c)))) as Ha by (apply HM; [done|]; by intros n' c' []).
  destruct (M n c _) as [a|]; [|done]. cbn. destruct a as [|[] c'|o]; try done.
  - destruct (LookaroundKind.negative kind); [|done]. apply HK; [done|apply moves_refl].
  - apply HK; [|apply moves_refl]. by destruct Hp.
Qed.

Lemma ordered_elem direction (a : list Term) t : t ∈ a → t ∈ ordered direction a.
Proof. destruct direction; [done|]. cbn. rewrite !list_elem_of_In. apply in_rev. Qed.

Lemma ordered_total direction mode : ∀ a, (∀ t, t ∈ a → total direction (λ n c K, match_term t mode direction n c K)) →
  total direction (λ n c K, match_alternative a mode direction n c K).
Proof.
  induction a as [|t a IH]; intros Ha n c K Hp HK; cbn [alternative_with]; [apply HK; [done|apply moves_refl]|].
  assert (total direction (λ n c K, match_term t mode direction n c K)) as Ht by (apply Ha, elem_of_cons; auto).
  specialize (IH ltac:(intros t' Ht'; apply Ha, elem_of_cons; auto)). destruct direction.
  - apply Ht; [done|]. intros n' c' Hp' Hm. apply IH; [done|by eapply defined_for_later].
  - apply IH; [done|]. intros n' c' Hp' Hm. apply Ht; [done|by eapply defined_for_later].
Qed.

Context (Hmd : metadata_ok metadata) (Hcount : capture_count program = S (length (spans metadata))).

Lemma lays_total :
  (∀ t mode direction p q k k', lays limits metadata program t mode direction p q k k' → term_all node_ok t = true → total direction (λ n c K, match_term t mode direction n c K))
  ∧ (∀ l mode direction p q k k', lays_sequence limits metadata program l mode direction p q k k' → forallb (term_all node_ok) l = true →
       ∀ t, t ∈ l → total direction (λ n c K, match_term t mode direction n c K))
  ∧ (∀ d mode direction p q k k', lays_disjunction limits metadata program d mode direction p q k k' → pattern_ok d = true → total direction (λ n c K, match_disjunction d mode direction n c K)).
Proof.
  apply lays_all.
  - intros t mode direction p k i Hl _ _ n c K Hp HK. destruct (leaf_of_leaf leave limits metadata input t mode i Hl) as [_ ->]. apply (instruction_total i direction); [|done|done].
    destruct t; cbn in Hl; try done; try destruct Hl as (l & _ & Hl); by subst i.
  - intros kind d mode direction p q k k' _ _ IH _ Hok. apply (look_total kind direction (λ n c K, match_disjunction d mode (LookaroundKind.direction kind) n c K)). by apply IH.
  - intros min max greedy span t mode direction p q k k' _ _ IH _ Hok n c K Hp HK. cbn [term_all node_ok] in Hok. unfold is_count in Hok. apply andb_true_iff in Hok as [Hc Hok]. bool_to_prop.
    cbn [RegExpMatcher.match_term]. pose proof (within_bound metadata span.1 span.2 Hmd) as Hw. destruct (within metadata span.1 span.2) as [first last]. cbn in Hw.
    eapply (repeat_total direction (λ n c K, match_term t mode direction n c K)); [lia|by apply IH|done|done| |done]. destruct Hp as [Hn _]. destruct direction; cbn; lia.
  - intros span name d mode direction p q k k' index Hindex _ _ IH _ Hok n c K Hp HK. rewrite match_group, Hindex. cbn [mbind option_bind].
    assert (index < capture_count program) as Hi by (rewrite Hcount; apply (starts_ok _ Hmd) in Hindex; lia). destruct direction.
    + apply (group_total Forward (λ n c K, match_disjunction d mode Forward n c K) (capture_start Forward index) (capture_end Forward index)); try done; [by apply IH|intros; by apply capture_start_proper|intros; by apply capture_end_proper].
    + apply (group_total Backward (λ n c K, match_disjunction d mode Backward n c K) (capture_end Backward index) (capture_start Backward index)); try done; [by apply IH|intros; by apply capture_end_proper|intros; by apply capture_start_proper].
  - intros modifiers d mode direction p q k k' _ IH Hok. by apply IH.
  - intros mode direction p k _ t []%elem_of_nil.
  - intros t l mode direction p r q k k1 k' _ IH1 _ IH2 Hok t' Ht'. cbn in Hok. apply andb_true_iff in Hok as [H1 H2]. apply elem_of_cons in Ht' as [->|Ht']; [by apply IH1|by apply IH2].
  - intros mode direction p k _ n c K Hp HK. cbn. apply HK; [done|apply moves_refl].
  - intros a mode direction p q k k' _ IH Hok. unfold pattern_ok in Hok. cbn in Hok. rewrite andb_true_r in Hok. apply ordered_total. intros t Ht. apply IH; [by rewrite ordered_ok|].
    by apply ordered_elem.
  - intros a a' d mode direction p r q k k1 k' _ _ IH1 _ _ IH2 Hok n c K Hp HK. unfold pattern_ok in Hok. cbn [forallb] in Hok. apply andb_true_iff in Hok as [H1 H2].
    change (fine (orelse (match_alternative a mode direction n c K) (match_disjunction (a' :: d) mode direction n c K))). apply orelse_fine; [|by apply IH2].
    apply ordered_total; [|done|done]. intros t Ht. apply IH1; [by rewrite ordered_ok|]. by apply ordered_elem.
Qed.
End defined.

(** ** Patterns *)

Section pattern.
Context `{PropertyData} `{UnicodeData} (leave : bool) (compiler_flags : RegExpFlags) (limits : CompileLimits) (metadata : CaptureMetadata) (pattern : list (list Term)) (input : list Z).

(** The whole pattern at a position: group zero around the disjunction. *)
Definition match_at (candidate : nat) : attempt :=
  c ← capture_start Forward 0 candidate (replicate (S (length (spans metadata))) empty_capture);
  disjunction_with (match_term leave limits metadata input) pattern (RegExpFlags.initial_mode compiler_flags) Forward candidate c
    (λ n c, c ← capture_end Forward 0 n c; Some (Final (Some (range <$> c)))).

(** The first position that matches; a sticky expression tries one. *)
Fixpoint match_from (fuel candidate : nat) : option (option (list (option (nat * nat)))) :=
  match fuel with
  | O => None
  | S fuel =>
      r ← match_at candidate;
      match RegExpSearch.top r with
      | Some m => Some (Some m)
      | None =>
          if sticky compiler_flags || (candidate =? length input) then Some None
          else match_from fuel (advance_index input candidate (RegExpFlags.unicode_mode compiler_flags))
      end
  end.
End pattern.

Definition match_pattern `{PropertyData} `{UnicodeData} (leave : bool) (compiler_flags : RegExpFlags) (limits : CompileLimits) (pattern : list (list Term)) (input : list Z) (start : nat) :
    option (option (list (option (nat * nat)))) :=
  metadata ← defined (collect_captures limits pattern);
  if length input <? start then Some None else match_from leave compiler_flags limits metadata pattern input (S (length input)) start.

Section correct.
Context `{PropertyData} `{UnicodeData} (compiler_flags : RegExpFlags) (limits : CompileLimits) (metadata : CaptureMetadata) (pattern : list (list Term)) (input : list Z).
Context (program : Program) (q : nat) (Hmd : metadata_ok metadata) (Hl : laid_out compiler_flags limits metadata program pattern q) (Hok : pattern_ok pattern = true).
Notation match_at := (match_at true compiler_flags limits metadata pattern input).
Notation match_from := (match_from true compiler_flags limits metadata pattern input).

Lemma match_at_defined candidate : candidate ≤ length input → is_Some (match_at candidate).
Proof.
  intros Hc. assert (fine program input (match_at candidate)) as Hf; [|by destruct (match_at candidate); [eexists|]].
  pose proof (laid_captures _ _ _ _ _ _ Hl) as Hcount.
  eapply (group_total program input Forward (λ n c K, disjunction_with (match_term true limits metadata input) pattern (RegExpFlags.initial_mode compiler_flags) Forward n c K)
    (capture_start Forward 0) (capture_end Forward 0)) with (K := λ n c, Some (Final (Some (range <$> c)))).
  - eapply (proj2 (proj2 (lays_total true limits metadata program input Hmd Hcount))); [apply Hl|done].
  - intros n c Hp. apply capture_start_proper; [lia|done].
  - intros n c Hp. apply capture_end_proper; [lia|done].
  - split; [done|]. split; [by rewrite length_replicate|]. apply Forall_replicate, empty_capture_ok.
  - done.
Qed.

Lemma idle_initial n : idle (replicate n idle_repeat) 0 n.
Proof. intros j Hj. exists idle_repeat. split; [apply lookup_replicate; split; [done|lia]|done]. Qed.

Lemma match_at_search candidate r : match_at candidate = Some r → search never program input (initial program candidate) r.
Proof.
  intros E. unfold initial. rewrite (laid_captures _ _ _ _ _ _ Hl). destruct Hl as [I0 Hlay Iq Im _ _ _].
  eapply (save_realised program input _ 0 Forward (replicate (repeat_count program) idle_repeat)
    (λ n c, disjunction_with (match_term true limits metadata input) pattern (RegExpFlags.initial_mode compiler_flags) Forward n c (λ n c, c ← capture_end Forward 0 n c; Some (Final (Some (range <$> c)))))
    (capture_start Forward 0) I0); [|exists 0; auto|exact E|reflexivity].
  apply (proj2 (proj2 (lays_realised limits metadata program input)) _ _ _ _ _ _ _ Hlay Hok); [|apply idle_initial].
  eapply (save_realised program input _ q Forward _ (λ _ c, Some (Final (Some (range <$> c))))); [exact Iq| |exists 0; auto].
  intros n c a reps' [= <-] _. apply search_ends. unfold effect. cbn [pc]. by rewrite Im.
Qed.

Lemma match_from_exact fuel : ∀ candidate, candidate ≤ length input → length input - candidate < fuel →
  ∃ o, match_from fuel candidate = Some o ∧ finds program input candidate o.
Proof.
  induction fuel as [|fuel IH]; intros candidate Hc Hf; [lia|]. cbn [RegExpCorrect.match_from]. destruct (match_at_defined candidate Hc) as [r Hr]. rewrite Hr. cbn [mbind option_bind].
  pose proof (match_at_search candidate r Hr) as Hs. pose proof (laid_flags _ _ _ _ _ _ Hl) as Hfl. destruct (RegExpSearch.top r) as [m|] eqn:Et; [eexists; split; [done|]; by eapply finds_match|].
  destruct (sticky compiler_flags || (candidate =? length input)) eqn:Estop.
  - eexists. split; [done|]. eapply finds_stop; [done|done|]. rewrite Hfl. apply orb_true_iff in Estop as [?|?%Nat.eqb_eq]; auto.
  - apply orb_false_iff in Estop as [Hst Hne%Nat.eqb_neq].
    assert (candidate < advance_index input candidate (RegExpFlags.unicode_mode compiler_flags) ≤ length input) as [Ha Hb].
    { unfold advance_index. destruct (decode_at _ _ _) as [[a m]|] eqn:Ed; [by apply decode_at_bound in Ed|lia]. }
    destruct (IH _ Hb ltac:(lia)) as (o & Eo & Ho). exists o. split; [done|]. eapply finds_next; [done|done|by rewrite Hfl|done|by rewrite Hfl].
Qed.
End correct.

Lemma correct `{PropertyData} `{UnicodeData} flags limits pattern program input start :
  compile_pattern flags limits pattern = Ok program → pattern_ok pattern = true →
  ∃ o, match_pattern true flags limits pattern input start = Some o
    ∧ ∀ exec o' steps, execute program input start exec = (Ok o', steps) → o' = o.
Proof.
  intros Ec Hok. unfold compile_pattern in Ec. unfold match_pattern. destruct (collect_captures limits pattern) as [md|] eqn:Em; [|done]. cbn [mbind result_bind] in Ec. cbn [defined mbind option_bind].
  apply collect_ok in Em. apply build_laid_out in Ec as [q Hl]. destruct (Nat.ltb_spec (length input) start) as [Hs|Hs].
  - exists None. split; [done|]. intros exec o' steps E. unfold execute, execute_with in E. rewrite (proj2 (Nat.ltb_lt _ _) Hs) in E. by injection E as <- <-.
  - destruct (match_from_exact flags limits md pattern input program q Em Hl Hok (S (length input)) start Hs ltac:(lia)) as (o & Eo & Ho). exists o. split; [done|].
    intros exec o' steps E. symmetry. eapply execute_finds; [by eapply laid_out_structured|exact E|done|exact Ho].
Qed.

(** C17. Compilation and execution are correct: for every pattern that compiles,
    whose counts are [u64] and whose classes do not contain the empty string,
    and every input and start, the matcher on the syntax tree is defined, and
    whatever the compiled program answers within its limits is the matcher's
    answer: the same decision, the same range, the same captures.  The matcher
    is the continuation semantics of the specification: alternatives in order,
    terms in reading direction, [RepeatMatcher] with its captures forgotten at
    every iteration, lookarounds that keep their captures. *)
Theorem regexp_correct `{PropertyData} `{UnicodeData} flags limits pattern program input start :
  compile_pattern flags limits pattern = Ok program → pattern_ok pattern = true →
  ∃ o, match_pattern true flags limits pattern input start = Some o
    ∧ ∀ exec o' steps, execute program input start exec = (Ok o', steps) → o' = o.
Proof. apply correct. Qed.

(** ** Instances *)

(** [/(?:|a)+/] *)
Definition empty_first : list (list Term) := [[Quantifier 1 None true (1, 7)%Z (IgnoreGroup None [[]; [CharacterTerm 97]])]].

(** [/^[\q{ab|}]*$/v] *)
Definition empty_string : list (list Term) :=
  [[BoundaryAssertion Start; Quantifier 0 None true (2, 11)%Z (CharacterClassTerm (mkAstClass false RegExp.Union [ContentsStrings [[97; 98]%Z; []]])); BoundaryAssertion End_]].
Definition set_flags : RegExpFlags := mkFlags false false false false false false true false.

Lemma regexp_correct_witness :
  match_pattern (H := no_properties) (H0 := ascii_data) true RegExpFlags.default sample_compile_limits empty_first [97]%Z 0 = Some (Some [Some (0, 0)])
  ∧ (execute (H := ascii_data) (compiled (H := no_properties) RegExpFlags.default empty_first) [97]%Z 0 sample_limits).1 = Ok (Some [Some (0, 0)]).
Proof.
  destruct (regexp_correct (H := no_properties) (H0 := ascii_data) RegExpFlags.default sample_compile_limits empty_first (compiled (H := no_properties) RegExpFlags.default empty_first)
    [97]%Z 0 eq_refl eq_refl) as (o & Eo & Ho).
  destruct (execute (H := ascii_data) (compiled (H := no_properties) RegExpFlags.default empty_first) [97]%Z 0 sample_limits) as [r steps] eqn:Ee.
  assert (r = Ok (Some [Some (0, 0)])) as -> by (vm_compute in Ee; by injection Ee as <- <-). apply Ho in Ee as <-. done.
Defined.

(** The executor departs from the specification's [RepeatMatcher]:
    [/(?:|a)+/] on the input [a] matches the empty string, where the
    specification's matcher, having required one empty iteration, tries an
    optional one and matches [a]. *)
Theorem regexp_repeat_divergence `{PropertyData} `{UnicodeData} :
  compile_pattern RegExpFlags.default sample_compile_limits empty_first = Ok (compiled RegExpFlags.default empty_first)
  ∧ (execute (compiled RegExpFlags.default empty_first) [97]%Z 0 sample_limits).1 = Ok (Some [Some (0, 0)])
  ∧ match_pattern false RegExpFlags.default sample_compile_limits empty_first [97]%Z 0 = Some (Some [Some (0, 1)]).
Proof. split_and!; vm_compute; reflexivity. Qed.

(** The shortcut for repeats before an end anchor loses matches when a class
    contains the empty string: [/^[\q{ab|}]*$/v] does not match [ab], because
    the iteration that matches the empty string fails and the exit of the repeat
    is no longer an alternative.  The matcher on the syntax tree and the search
    without the shortcut match the input. *)
Example regexp_empty_string_lost `{PropertyData} `{UnicodeData} :
  compile_pattern set_flags sample_compile_limits empty_string = Ok (compiled set_flags empty_string)
  ∧ (execute (compiled set_flags empty_string) [97; 98]%Z 0 sample_limits).1 = Ok None
  ∧ (execute_with never (compiled set_flags empty_string) [97; 98]%Z sample_limits 0).1 = Ok (Some [Some (0, 2)])
  ∧ match_pattern false set_flags sample_compile_limits empty_string [97; 98]%Z 0 = Some (Some [Some (0, 2)]).
Proof. split_and!; vm_compute; reflexivity. Qed.
