(* ===== verification/RegExpLanguage.v ===== *)
(** * The language's matcher

    What a pattern matches by the rules of the language alone, for patterns that
    are matched case-sensitively and whose classes hold single characters: how a
    character is read from the text, which characters an escape, a property or a
    class stands for, the assertions and the back references are written here
    from the language specification and share nothing with the executor.  The
    control structure is that of RegExpMatcher.v with the specification's
    [RepeatMatcher].  Every leaf of the executor agrees with its leaf here. *)

From S2P Require Import Prelude RuntimePrelude RegExp RegExpFacts RegExpSearch RegExpCompiler RegExpLayout RegExpCompiled RegExpMatcher RegExpCorrect.
From stdpp Require Import list gmap strings.
Local Open Scope nat_scope.

(** ** Sets of characters *)

Module Language.

Definition one_of (l : list Z) (c : Z) : bool := existsb (Z.eqb c) l.
Definition between (first last c : Z) : bool := ((first <=? c) && (c <=? last))%Z.

(** LineTerminator; WhiteSpace; the characters of [\d] and of [\w]. *)
Definition line_terminator (c : Z) : bool := one_of [0x0a; 0x0d; 0x2028; 0x2029]%Z c.
Definition white_space (c : Z) : bool :=
  one_of [0x09; 0x0b; 0x0c; 0x20; 0xa0; 0x1680; 0x202f; 0x205f; 0x3000; 0xfeff]%Z c || between 0x2000 0x200a c.
Definition decimal_digit (c : Z) : bool := between 0x30 0x39 c.
Definition word_character (c : Z) : bool :=
  between 0x61 0x7a c || between 0x41 0x5a c || decimal_digit c || (c =? 0x5f)%Z.

Definition escape_set (kind : CharacterClassEscapeKind) (c : Z) : bool :=
  match kind with
  | EscapeD => decimal_digit c
  | EscapeNegativeD => negb (decimal_digit c)
  | EscapeS => white_space c || line_terminator c
  | EscapeNegativeS => negb (white_space c || line_terminator c)
  | EscapeW => word_character c
  | EscapeNegativeW => negb (word_character c)
  end.

Section sets.
Context `{PropertyData}.

(** The general category and the script of a character, by the names of their
    values. *)
Definition in_category (name : string) (c : Z) : bool :=
  match category_named name, category_group_named name with
  | Some category, _ => (category_of c =? category)%Z
  | None, Some group => group (category_of c)
  | None, None => false
  end.
Definition in_script (name : string) (c : Z) : bool :=
  match script_named name with Some script => (script_of c =? script)%Z | None => false end.
Definition in_script_extensions (name : string) (c : Z) : bool :=
  match script_named name with Some script => has_script c script | None => false end.

Definition named (names : list string) (name : string) : bool := existsb (String.eqb name) names.

Definition property_set (property : PropertyEscape) (c : Z) : bool :=
  let name := escape_name property in
  let holds :=
    match escape_value property with
    | Some value =>
        if named ["General_Category"; "gc"]%string name then in_category value c
        else if named ["Script"; "sc"]%string name then in_script value c
        else if named ["Script_Extensions"; "scx"]%string name then in_script_extensions value c
        else false
    | None =>
        if named ["Any"]%string name then (c <=? 0x10ffff)%Z
        else if named ["ASCII"]%string name then (c <=? 0x7f)%Z
        else if named ["Assigned"]%string name then negb (category_of c =? UNASSIGNED)%Z
        else match ecma262_set name with Some set => set c | None => in_category name c end
    end in
  if escape_negative property then negb holds else holds.

(** The characters of a class. *)
Fixpoint class_set (class : AstClass) (c : Z) {struct class} : bool :=
  let '(mkAstClass negative kind body) := class in
  let member content :=
    match content with
    | ContentsRange first last => between first last c
    | ContentsEscape kind => escape_set kind c
    | ContentsCharacter value => (c =? value)%Z
    | ContentsProperty property => property_set property c
    | ContentsNested nested => class_set nested c
    | ContentsStrings alternatives => existsb (λ value, bool_decide (value = [c])) alternatives
    end in
  let contained :=
    match kind with
    | RegExp.Union => existsb member body
    | RegExp.Intersection => forallb member body
    | RegExp.Subtraction => match body with [] => false | first :: rest => member first && forallb (λ content, negb (member content)) rest end
    end in
  if negative then negb contained else contained.
End sets.

(** ** Reading the text *)

Section reading.
Context (input : list Z).

Definition lead (unit : Z) : bool := between 0xd800 0xdbff unit.
Definition trail (unit : Z) : bool := between 0xdc00 0xdfff unit.
Definition code_point (lead trail : Z) : Z := ((lead - 0xd800) * 0x400 + (trail - 0xdc00) + 0x10000)%Z.

(** The character that starts, or ends, at a position, and where it ends, or
    starts: a code unit, or in Unicode mode a surrogate pair. *)
Definition next_character (unicode : bool) (n : nat) : option (Z * nat) :=
  match input !! n, input !! (n + 1) with
  | Some first, Some second =>
      if unicode && lead first && trail second then Some (code_point first second, n + 2) else Some (first, n + 1)
  | Some first, None => Some (first, n + 1)
  | None, _ => None
  end.
Definition previous_character (unicode : bool) (n : nat) : option (Z * nat) :=
  match n with
  | 0 => None
  | 1 => match input !! 0 with Some first => Some (first, 0) | None => None end
  | S (S m) =>
      match input !! m, input !! (S m) with
      | Some first, Some second =>
          if unicode && lead first && trail second then Some (code_point first second, m) else Some (second, S m)
      | _, _ => None
      end
  end.
Definition character (unicode : bool) (direction : Direction) : nat → option (Z * nat) :=
  match direction with Forward => next_character unicode | Backward => previous_character unicode end.

(** A character of a set. *)
Definition character_of (set : Z → bool) (unicode : bool) (direction : Direction) (n : nat) : option nat :=
  match character unicode direction n with Some (c, n') => if set c then Some n' else None | None => None end.

(** The characters of [units] code units from [n] on; none if they do not end
    with a character. *)
Fixpoint spelling (fuel : nat) (unicode : bool) (direction : Direction) (n units : nat) : option (list Z) :=
  match units, fuel with
  | 0, _ => Some []
  | _, 0 => None
  | _, S fuel =>
      match character unicode direction n with
      | Some (c, n') =>
          let used := match direction with Forward => n' - n | Backward => n - n' end in
          if units <? used then None else (cons c) <$> spelling fuel unicode direction n' (units - used)
      | None => None
      end
  end.
(** The given characters follow. *)
Fixpoint follow (unicode : bool) (direction : Direction) (n : nat) (l : list Z) : option nat :=
  match l with
  | [] => Some n
  | c :: l => n' ← character_of (Z.eqb c) unicode direction n; follow unicode direction n' l
  end.

Definition back_reference (found : nat * nat) (unicode : bool) (direction : Direction) (n : nat) : option nat :=
  let '(first, last) := found in
  l ← spelling (last - first) unicode direction (match direction with Forward => first | Backward => last end) (last - first);
  follow unicode direction n l.

Definition is_at (set : Z → bool) (o : option (Z * nat)) : bool := match o with Some (c, _) => set c | None => false end.

Definition boundary (kind : BoundaryKind) (mode : MatchMode) (n : nat) : bool :=
  let before := previous_character (unicode mode) n in
  let after := next_character (unicode mode) n in
  match kind with
  | Start => (n =? 0) || multiline mode && is_at line_terminator before
  | End_ => (n =? length input) || multiline mode && is_at line_terminator after
  | Word => negb (bool_decide (is_at word_character before = is_at word_character after))
  | NotWord => bool_decide (is_at word_character before = is_at word_character after)
  end.
End reading.

(** ** The matcher *)

Section matcher.
Context `{PropertyData} (metadata : CaptureMetadata) (input : list Z).

(** On to where a leaf leads. *)
Definition continue_at (o : option nat) (c : list CaptureSlot) (K : nat → list CaptureSlot → option Answer) : option Answer :=
  match o with Some n => K n c | None => Some Failed end.

Definition refers (indices : list nat) (mode : MatchMode) (direction : Direction) (n : nat) (c : list CaptureSlot)
    (K : nat → list CaptureSlot → option Answer) : option Answer :=
  match list.head (omap (λ index, c !! index ≫= range) indices) with
  | None => K n c
  | Some found => continue_at (back_reference input found (unicode mode) direction n) c K
  end.

Definition match_leaf (t : Term) (mode : MatchMode) (direction : Direction) (n : nat) (c : list CaptureSlot)
    (K : nat → list CaptureSlot → option Answer) : option Answer :=
  let read set := continue_at (character_of input set (unicode mode) direction n) c K in
  match t with
  | CharacterTerm value => read (Z.eqb value)
  | DotTerm => read (λ c, dot_all mode || negb (line_terminator c))
  | CharacterClassEscape kind => read (escape_set kind)
  | UnicodePropertyEscape property => read (property_set property)
  | CharacterClassTerm class => read (class_set class)
  | BoundaryAssertion kind => if boundary input kind mode n then K n c else Some Failed
  | IndexedReference index => refers [index] mode direction n c K
  | NamedReference name => indices ← by_name metadata !! name; refers indices mode direction n c K
  | _ => None
  end.

Fixpoint match_term (t : Term) (mode : MatchMode) (direction : Direction) (n : nat) (c : list CaptureSlot)
    (K : nat → list CaptureSlot → option Answer) {struct t} : option Answer :=
  let match_disjunction := disjunction_with match_term in
  match t with
  | LookAroundAssertion kind d =>
      decided ← match_disjunction d mode (LookaroundKind.direction kind) n c (λ _ c, Some (Accepted (LookaroundKind.negative kind) c));
      match decided with
      | Final o => Some (Final o)
      | Accepted true _ => Some Failed
      | Accepted false c => K n c
      | Failed => if LookaroundKind.negative kind then K n c else Some Failed
      end
  | Quantifier min max greedy span t =>
      let '(first, last) := within metadata span.1 span.2 in
      repeat_matcher false (S (Z.to_nat min + S (length input))) (λ n c K, match_term t mode direction n c K) greedy first last min max n c K
  | CapturingGroup span _ d =>
      index ← by_start metadata !! span.1;
      match direction with
      | Forward =>
          c ← capture_start direction index n c;
          match_disjunction d mode direction n c (λ n c, c ← capture_end direction index n c; K n c)
      | Backward =>
          c ← capture_end direction index n c;
          match_disjunction d mode direction n c (λ n c, c ← capture_start direction index n c; K n c)
      end
  | IgnoreGroup modifiers d => match_disjunction d (nested_mode mode modifiers) direction n c K
  | t => match_leaf t mode direction n c K
  end.

Context (flags : RegExpFlags) (pattern : list (list Term)).

Definition match_at (candidate : nat) : option Answer :=
  c ← capture_start Forward 0 candidate (replicate (S (length (spans metadata))) empty_capture);
  disjunction_with match_term pattern (RegExpFlags.initial_mode flags) Forward candidate c
    (λ n c, c ← capture_end Forward 0 n c; Some (Final (Some (range <$> c)))).

(** The first position that matches; a sticky expression tries one. *)
Fixpoint match_from (fuel candidate : nat) : option (option (list (option (nat * nat)))) :=
  match fuel with
  | O => None
  | S fuel =>
      r ← match_at candidate;
      match RegExpSearch.top r with
      | Some m => Some (Some m)
      | None =>
          if sticky flags then Some None else
          match next_character input (RegExpFlags.unicode_mode flags) candidate with
          | Some (_, next) => match_from fuel next
          | None => Some None
          end
      end
  end.
End matcher.

Definition match_pattern `{PropertyData} (flags : RegExpFlags) (limits : CompileLimits) (pattern : list (list Term)) (input : list Z) (start : nat) :
    option (option (list (option (nat * nat)))) :=
  metadata ← defined (collect_captures limits pattern);
  if length input <? start then Some None else match_from metadata input flags pattern (S (length input)) start.

(** ** Plain patterns *)

(** A class of single characters with ordered ranges. *)
Fixpoint class_plain (class : AstClass) : bool :=
  let '(mkAstClass _ _ body) := class in
  forallb (λ content,
    match content with
    | ContentsRange first last => (first <=? last)%Z
    | ContentsProperty property => negb (escape_strings property)
    | ContentsNested nested => class_plain nested
    | ContentsStrings l => forallb (λ value, length value =? 1) l
    | _ => true
    end) body.

(** Nothing is matched case-insensitively and no class holds strings. *)
Definition term_plain (t : Term) : bool :=
  match t with
  | IgnoreGroup (Some modifiers) _ => negb (modifier_i (enabling modifiers))
  | UnicodePropertyEscape property => negb (escape_strings property)
  | CharacterClassTerm class => class_plain class
  | _ => true
  end.
Definition pattern_plain (pattern : list (list Term)) : bool := forallb (λ a, forallb (term_all term_plain) a) pattern.
End Language.

(** ** The leaves of the executor *)

Module LanguageFacts.
Import Language.

(** *** Sets *)

Lemma digit_exact c : is_digit c = decimal_digit c.
Proof. done. Qed.

Lemma terminator_exact c : is_line_terminator c = line_terminator c.
Proof. unfold is_line_terminator, line_terminator, one_of. cbn. by rewrite orb_false_r, !orb_assoc. Qed.

Lemma space_exact c : is_space c = white_space c || line_terminator c.
Proof.
  apply eq_true_iff_eq. unfold is_space, white_space, line_terminator, one_of, between. cbn.
  rewrite !orb_true_iff, !andb_true_iff, !Z.leb_le, !Z.eqb_eq. clear. split; [|intros H; repeat destruct H as [H|H]; try done; lia].
  intros H. repeat destruct H as [H|H]; try lia.
Qed.

Section sets.
Context `{PropertyData} `{UnicodeData} (mode : MatchMode) (Hcase : ignore_case mode = false).

Lemma canonicalize_exact c : canonicalize c mode = c.
Proof. unfold canonicalize. by rewrite Hcase. Qed.

Lemma same_character_exact a b : same_character a b mode = (a =? b)%Z.
Proof. unfold same_character. by rewrite !canonicalize_exact. Qed.

Lemma word_exact c : is_word c mode = word_character c.
Proof.
  unfold is_word, word_character. rewrite canonicalize_exact. fold (between 0x41 0x5a c) (between 0x61 0x7a c).
  change (is_digit c) with (decimal_digit c).
  by destruct (decimal_digit c), (between 0x41 0x5a c), (between 0x61 0x7a c), (c =? 0x5f)%Z.
Qed.

Lemma escape_exact kind c : class_item_matches (class_escape kind) [c] mode = escape_set kind c.
Proof.
  destruct kind; cbn [class_escape class_item_matches single escape_set];
    rewrite ?xorb_false_r, ?xorb_true_r, ?space_exact, ?word_exact; done.
Qed.

Lemma property_exact property l c : lower_unicode_property property = Ok l → escape_strings property = false →
  UnicodeProperty.matches_sequence l [c] mode = property_set property c ∧ property_strings l = false.
Proof.
  unfold lower_unicode_property. intros Hl Hs. rewrite Hs in Hl. cbn [andb] in Hl. injection Hl as <-. split; [|done].
  unfold compile_property, UnicodeProperty.matches_sequence, UnicodeProperty.matches, property_set. cbn [matcher].
  rewrite Hcase. cbn [negb]. destruct property as [negative strings name value]. cbn [escape_name escape_value escape_negative].
  assert (∀ b, xorb b negative = if negative then negb b else b) as Hx by (intros b; by destruct b, negative).
  unfold compile_code_point_matcher, compile_lone_property, compile_general_category, compile_script,
    in_category, in_script, in_script_extensions, named. cbn [existsb]. rewrite !orb_false_r.
  destruct value as [value|]; repeat (case_match; try done); simplify_eq; cbn; try done.
Qed.

(** One entry of a class. *)
Definition contents_set (c : Z) (content : ClassContents) : bool :=
  match content with
  | ContentsRange first last => between first last c
  | ContentsEscape kind => escape_set kind c
  | ContentsCharacter value => (c =? value)%Z
  | ContentsProperty property => property_set property c
  | ContentsNested nested => class_set nested c
  | ContentsStrings alternatives => existsb (λ value, bool_decide (value = [c])) alternatives
  end.

Lemma range_exact first last c : (first ≤ last)%Z → class_item_matches (Range first last) [c] mode = between first last c.
Proof. intros Hle. cbn [class_item_matches single]. rewrite !canonicalize_exact, Z.min_l, Z.max_r by done. done. Qed.

Lemma strings_exact alternatives c :
  class_contains_sequence (string_class alternatives) [c] mode = existsb (λ value, bool_decide (value = [c])) alternatives.
Proof.
  unfold string_class. cbn [class_contains_sequence]. rewrite xorb_false_r. induction alternatives as [|value l IH]; [done|]. cbn [fmap list_fmap existsb].
  change (list_fmap _ _ Sequence l) with (Sequence <$> l). rewrite IH. f_equal. cbn [class_item_matches]. unfold sequences_equal.
  destruct value as [|x [|y value]]; cbn; [by rewrite bool_decide_eq_false_2| |by rewrite bool_decide_eq_false_2]. rewrite same_character_exact, andb_true_r. apply eq_true_iff_eq.
  rewrite Z.eqb_eq, bool_decide_eq_true. split; congruence.
Qed.

Lemma existsb_exact c body items : Forall2 (λ content item, ∀ c, class_item_matches item [c] mode = contents_set c content) body items →
  existsb (λ item, class_item_matches item [c] mode) items = existsb (contents_set c) body.
Proof. induction 1 as [|content item body items Hi _ IH]; [done|]. cbn [existsb]. by rewrite Hi, IH. Qed.
Lemma forallb_exact c body items : Forall2 (λ content item, ∀ c, class_item_matches item [c] mode = contents_set c content) body items →
  forallb (λ item, class_item_matches item [c] mode) items = forallb (contents_set c) body.
Proof. induction 1 as [|content item body items Hi _ IH]; [done|]. cbn [forallb]. by rewrite Hi, IH. Qed.

Lemma class_exact class : class_plain class = true → ∀ depth max_depth l, lower_character_class class depth max_depth = Ok l →
  (∀ c, class_contains_sequence l [c] mode = class_set class c) ∧ Forall (λ value, length value = 1) (strings l) ∧ has_string_properties l = false.
Proof.
  revert class. fix IH 1. intros [negative kind body] Hc depth max_depth l E. cbn [lower_character_class] in E. destruct (max_depth <? depth); [done|]. cbn [class_plain] in Hc.
  match type of E with (?loop body ?acc ≫= _) = _ => set (gather := loop) in E end.
  assert (∀ items strs acc', Forall (λ value, length value = 1) strs → gather body (items, strs, false) = Ok acc' →
    ∃ items', acc'.1.1 = items ++ items' ∧ Forall (λ value, length value = 1) acc'.1.2 ∧ acc'.2 = false ∧
      Forall2 (λ content item, ∀ c, class_item_matches item [c] mode = contents_set c content) body items') as Hg.
  { clear E. induction body as [|content body IHb]; intros items strs acc' Hs Eg.
    { injection Eg as <-. exists []. rewrite app_nil_r. split_and!; [done|done|done|constructor]. }
    cbn [forallb] in Hc. apply andb_true_iff in Hc as [Hc1 Hc2]. specialize (IHb Hc2).
    assert (∀ item strs', Forall (λ value, length value = 1) strs' → (∀ c, class_item_matches item [c] mode = contents_set c content) →
      gather body (items ++ [item], strs', false) = Ok acc' →
      ∃ items', acc'.1.1 = items ++ items' ∧ Forall (λ value, length value = 1) acc'.1.2 ∧ acc'.2 = false ∧
        Forall2 (λ content item, ∀ c, class_item_matches item [c] mode = contents_set c content) (content :: body) items') as Hnext.
    { intros item strs' Hs' Hi Er. destruct (IHb _ _ _ Hs' Er) as (items' & -> & ? & ? & ?). exists (item :: items').
      rewrite <- app_assoc. split_and!; [done|done|done|by constructor]. }
    destruct content as [first last|k|value|property|nested|alternatives]; cbn in Eg.
    - eapply Hnext; [exact Hs| |exact Eg]. intros c. apply range_exact. by apply Z.leb_le.
    - eapply Hnext; [exact Hs| |exact Eg]. intros c. apply escape_exact.
    - eapply Hnext; [exact Hs| |exact Eg]. intros c. rewrite range_exact by done. cbn. unfold between. apply eq_true_iff_eq. rewrite andb_true_iff, !Z.leb_le, Z.eqb_eq. lia.
    - destruct (lower_unicode_property property) as [lp|] eqn:El; [|done]. cbn in Eg. apply negb_true_iff in Hc1.
      destruct (property_exact property lp 0 El Hc1) as [_ Hlp]. rewrite Hlp in Eg. eapply Hnext; [exact Hs| |exact Eg]. intros c. by apply property_exact.
    - destruct (lower_character_class nested (S depth) max_depth) as [ln|] eqn:En; [|done]. cbn in Eg. destruct (IH nested Hc1 _ _ _ En) as (Hn & Hstr & Hhas).
      rewrite Hhas in Eg. eapply (Hnext (Nested ln)); [|exact Hn|exact Eg]. by apply Forall_app.
    - eapply (Hnext (Nested (string_class alternatives))); [|apply strings_exact|exact Eg]. apply Forall_app. split; [done|]. apply Forall_forall. intros x Hx.
      rewrite forallb_forall in Hc1. apply list_elem_of_In, Hc1 in Hx. by apply Nat.eqb_eq. }
  destruct (gather body ([], [], false)) as [[[items strs] has]|] eqn:Eg; [|done]. injection E as <-. apply Hg in Eg as (items' & Ei & Hs & Hh & Hf); [|constructor].
  cbn in Ei, Hs, Hh. subst items' has. split_and!; [|apply Forall_forall; intros x Hx%dedup_strings_in%sort_strings_in; rewrite Forall_forall in Hs; by apply Hs|done].
  intros c. cbn [class_contains_sequence]. change (class_set (mkAstClass negative kind body) c) with
    (let contained := match kind with
       | RegExp.Union => existsb (contents_set c) body
       | RegExp.Intersection => forallb (contents_set c) body
       | RegExp.Subtraction => match body with [] => false | first :: rest => contents_set c first && forallb (λ content, negb (contents_set c content)) rest end
       end in if negative then negb contained else contained).
  cbv zeta. clear -Hf. destruct kind.
  - rewrite <- (existsb_exact c body items Hf). by destruct negative, (existsb _ items).
  - rewrite <- (forallb_exact c body items Hf). by destruct negative, (forallb _ items).
  - destruct Hf as [|content item body items Hi Hf]; [by destruct negative|]. rewrite <- Hi.
    assert (forallb (λ content, negb (contents_set c content)) body = negb (existsb (λ item, class_item_matches item [c] mode) items)) as ->.
    { rewrite (existsb_exact c body items Hf). clear. induction body as [|content body IH]; [done|]. cbn. by rewrite IH, negb_orb. }
    by destruct negative, (class_item_matches item [c] mode), (existsb _ items).
Qed.
End sets.

(** *** Reading *)

Section reading.
Context (input : list Z).
Notation inside n := (n ≤ length input).

Lemma code_point_exact first second : combine_surrogates first second = code_point first second.
Proof. rewrite combine_surrogates_eq. unfold code_point. lia. Qed.

Lemma next_exact u n : decode_at input n u = next_character input u n.
Proof.
  unfold decode_at, next_character. rewrite !Nat.add_1_r. destruct (input !! n) as [first|]; [|done]. cbn [mbind option_bind].
  destruct (input !! S n) as [second|]; [|done]. change (is_high_surrogate first) with (lead first).
  change (is_low_surrogate second) with (trail second). rewrite code_point_exact. by replace (n + 2) with (S (S n)) by lia.
Qed.

Lemma previous_exact {E} u n : inside n → decode_before (E := E) input n u = Ok (previous_character input u n).
Proof.
  intros Hn. unfold decode_before, previous_character. destruct n as [|[|m]]; [done| |].
  - destruct (lookup_lt_is_Some_2 input 0 ltac:(lia)) as [first ->]. cbn. by rewrite andb_false_r.
  - destruct (lookup_lt_is_Some_2 input m ltac:(lia)) as [first Ef], (lookup_lt_is_Some_2 input (S m) ltac:(lia)) as [second Es].
    rewrite Ef, Es, Nat.sub_succ, Nat.sub_0_r, Ef. unfold expect. cbn [ok_or mbind result_bind].
    change (is_high_surrogate first) with (lead first). change (is_low_surrogate second) with (trail second). rewrite code_point_exact.
    by destruct u, (trail second), (lead first).
Qed.

Lemma character_exact u direction n : inside n → decode_in_direction (E := ExecError) input n u direction = Ok (character input u direction n).
Proof. intros Hn. destruct direction; cbn [decode_in_direction character]; [by rewrite next_exact|by apply previous_exact]. Qed.

(** A character lies inside the text and is not empty. *)
Lemma character_moves u direction n c n' : inside n → character input u direction n = Some (c, n') →
  inside n' ∧ match direction with Forward => n < n' | Backward => n' < n end.
Proof.
  intros Hn E. destruct (decode_ok (E := ExecError) input n u direction Hn) as (o & Eo & Ho). rewrite character_exact, E in Eo by done. injection Eo as <-.
  specialize (Ho c n' eq_refl). destruct direction; lia.
Qed.

Lemma boundary_exact `{UnicodeData} kind mode n : ignore_case mode = false → inside n →
  boundary_matches (E := ExecError) kind input n mode = Ok (boundary input kind mode n).
Proof.
  intros Hcase Hn. unfold boundary_matches, boundary. rewrite !previous_exact by done. cbn [mbind result_bind]. rewrite !next_exact.
  assert (∀ o : option (Z * nat), match o with Some (value, _) => is_line_terminator value | None => false end = is_at line_terminator o) as Ht
    by (intros [[value m]|]; [apply terminator_exact|done]).
  assert (∀ o : option (Z * nat), match o with Some (value, _) => is_word value mode | None => false end = is_at word_character o) as Hw
    by (intros [[value m]|]; [by apply word_exact|done]).
  destruct kind; rewrite ?Ht, ?Hw.
  - destruct (n =? 0); [done|]. by destruct (multiline mode).
  - done.
  - by destruct (is_at word_character _), (is_at word_character _).
  - by destruct (is_at word_character _), (is_at word_character _).
Qed.

(** The lockstep loop reads the captured characters and then follows them. *)
Lemma back_loop_exact `{UnicodeData} mode direction : ignore_case mode = false → ∀ fuel p first last, inside p → inside last → last - first ≤ fuel →
  match_back_loop (E := ExecError) fuel input p first last mode direction =
  Ok (l ← spelling input fuel (unicode mode) direction (match direction with Forward => first | Backward => last end) (last - first);
      follow input (unicode mode) direction p l).
Proof.
  intros Hcase. induction fuel as [|fuel IH]; intros p first last Hp Hl Hf; cbn [match_back_loop]; destruct (Nat.leb_spec last first) as [Hle|Hlt].
  1,3: assert (last - first = 0) as -> by lia; done.
  { lia. }
  destruct (last - first) as [|units] eqn:Hu; [lia|]. cbn [spelling]. set (from := match direction with Forward => first | Backward => last end).
  assert (inside from) as Hfrom by (subst from; destruct direction; lia).
  rewrite (character_exact (unicode mode) direction from Hfrom). cbn [mbind result_bind]. destruct (character input (unicode mode) direction from) as [[c next]|] eqn:Ec; [|done].
  destruct (character_moves _ _ _ _ _ Hfrom Ec) as [Hnext Hmove].
  assert (match direction with Forward => last <? next | Backward => next <? first end =
    (S units <? match direction with Forward => next - from | Backward => from - next end)) as ->.
  { subst from. destruct direction; apply eq_true_iff_eq; rewrite !Nat.ltb_lt; lia. }
  destruct (Nat.ltb_spec (S units) (match direction with Forward => next - from | Backward => from - next end)) as [|Hin]; [done|].
  rewrite (character_exact (unicode mode) direction p Hp). cbn [mbind result_bind].
  assert (∀ (o : option (list Z)), (l ← cons c <$> o; follow input (unicode mode) direction p l) =
    (l ← o; n' ← character_of input (Z.eqb c) (unicode mode) direction p; follow input (unicode mode) direction n' l)) as ->.
  { by intros [l|]. }
  unfold character_of. destruct (character input (unicode mode) direction p) as [[a p']|] eqn:Ep; [|cbn; by destruct (spelling _ _ _ _ _ _)].
  destruct (character_moves _ _ _ _ _ Hp Ep) as [Hp' _]. rewrite (same_character_exact mode Hcase).
  destruct (c =? a)%Z; cbn [negb mbind option_bind]; [|by destruct (spelling _ _ _ _ _ _)].
  subst from. destruct direction.
  - rewrite IH by lia. by replace (last - next) with (S units - (next - first)) by lia.
  - rewrite IH by lia. by replace (next - first) with (S units - (last - next)) by lia.
Qed.

Lemma back_reference_exact `{UnicodeData} mode direction found p : ignore_case mode = false → inside p → inside found.2 →
  match_back_reference (E := ExecError) input p found mode direction = Ok (back_reference input found (unicode mode) direction p).
Proof. intros Hcase Hp Hl. destruct found as [first last]. unfold match_back_reference. by rewrite back_loop_exact. Qed.

(** A class of single characters is read as one. *)
Lemma class_positions_plain `{UnicodeData} class n mode direction : inside n → Forall (λ value, length value = 1) (strings class) → has_string_properties class = false →
  class_match_positions (E := ExecError) class input n mode direction =
  Ok (match character_of input (λ c, class_matches class c mode) (unicode mode) direction n with Some n' => [n'] | None => [] end).
Proof.
  intros Hn Hs Hh. unfold class_match_positions. rewrite Hh.
  assert (∀ l, Forall (λ value, length value = 1) l → string_positions (E := ExecError) class l input n mode direction [] = Ok []) as Hstr.
  { induction 1 as [|value l Hv _ IH]; [done|]. cbn [string_positions]. by rewrite Hv. }
  rewrite Hstr by done. cbn [mbind result_bind]. rewrite character_exact by done. cbn [mbind result_bind]. unfold character_of.
  destruct (character input (unicode mode) direction n) as [[c n']|]; [|done]. by destruct (class_matches class c mode).
Qed.
End reading.
End LanguageFacts.
