(* ===== verification/RegExpSpecification.v ===== *)
(** * The executor and the language specification

    The executor leaves a repeat whose last required iteration did not move,
    where the specification goes on with optional iterations.  The two agree on
    patterns in which that cannot happen or cannot matter; they differ on
    others.  On case-sensitive patterns with classes of single characters the
    executor's leaves are those of the language (RegExpLanguage.v), and so is
    its answer.  The examples at the end are where it is not. *)

From S2P Require Import Prelude RuntimePrelude RegExp RegExpFacts RegExpSearch RegExpCompiler RegExpLayout RegExpCompiled RegExpMatcher RegExpCorrect RegExpLanguage.
From stdpp Require Import list gmap strings.
Local Open Scope nat_scope.

(** ** Terms that move *)

(** A term that never matches without moving. *)
Fixpoint advances (t : Term) : bool :=
  match t with
  | CharacterTerm _ | DotTerm | CharacterClassEscape _ | UnicodePropertyEscape _ | CharacterClassTerm _ => true
  | CapturingGroup _ _ d | IgnoreGroup _ d => match d with [] => false | _ => forallb (λ a, existsb advances a) d end
  | Quantifier min _ _ _ body => (0 <? min)%Z && advances body
  | _ => false
  end.
Definition alternative_advances (a : list Term) : bool := existsb advances a.
Definition disjunction_advances (d : list (list Term)) : bool := match d with [] => false | _ => forallb alternative_advances d end.

(** A quantifier for which leaving early makes no difference: nothing is
    required, nothing more is allowed, or the body moves. *)
Definition repeat_exact (t : Term) : bool :=
  match t with
  | Quantifier min max _ _ body =>
      ((min =? 0)%Z || bool_decide (max = Some min) || advances body) && match max with Some m => (min <=? m)%Z | None => true end
  | _ => true
  end.
Definition pattern_exact (pattern : list (list Term)) : bool := forallb (λ a, forallb (term_all repeat_exact) a) pattern.

Definition strictly (direction : Direction) (n n' : nat) : Prop := match direction with Forward => n < n' | Backward => n' < n end.

Lemma strictly_moves direction n n' : moves direction n n' → n' ≠ n → strictly direction n n'.
Proof. destruct direction; cbn; lia. Qed.
Lemma strictly_ne direction n n' : strictly direction n n' → n' ≠ n.
Proof. destruct direction; cbn; lia. Qed.

Section strict.
Context `{UnicodeData} (input : list Z).
Notation inside n := (n ≤ length input).

Lemma decode_strict u direction p c n : inside p → decode_in_direction (E := ExecError) input p u direction = Ok (Some (c, n)) → strictly direction p n.
Proof.
  intros Hp E. destruct (decode_ok (E := ExecError) input p u direction Hp) as (o & E' & Ho). rewrite E in E'. injection E' as <-. specialize (Ho c n eq_refl). destruct direction; cbn; lia.
Qed.

Lemma match_string_strict value mode direction p n : inside p → value ≠ [] → match_string (E := ExecError) input p value mode direction = Ok (Some n) → strictly direction p n.
Proof.
  intros Hp Hne E. destruct value as [|c value]; [done|]. cbn [match_string] in E.
  destruct (decode_in_direction input p (unicode mode) direction) as [[[a m]|]|] eqn:Ed; [|done..]. cbn in E. destruct (negb _); [done|].
  destruct (decode_moves input _ _ _ _ Hp Ed a m eq_refl) as [Hm _]. apply decode_strict in Ed; [|done]. apply match_string_moves in E; [|done]. destruct direction; cbn in *; lia.
Qed.

Lemma prefixes_strict u direction max value p l : inside p → directional_prefixes (E := ExecError) max input value p u direction = Ok l → Forall (λ e, strictly direction p e.2) l.
Proof.
  intros Hp E. destruct max as [|max]; cbn [directional_prefixes] in E; [by injection E as <-|].
  destruct (decode_in_direction input p u direction) as [[[a n]|]|] eqn:Ed; [|by injection E as <-|done]. cbn [mbind result_bind] in E.
  destruct (decode_moves input _ _ _ _ Hp Ed a n eq_refl) as [Hn _]. apply decode_strict in Ed; [|done].
  destruct (directional_prefixes max input _ n u direction) as [rest|] eqn:Er; [|done]. injection E as <-. apply prefixes_moves in Er; [|done].
  constructor; [done|]. eapply Forall_impl; [exact Er|]. intros e He. destruct direction; cbn in *; lia.
Qed.

Lemma class_strict class p mode direction l : inside p → Forall (λ value, value ≠ []) (strings class) →
  class_match_positions (E := ExecError) class input p mode direction = Ok l → Forall (strictly direction p) l.
Proof.
  intros Hp Hne. apply class_positions_all.
  - intros value n Hv. unfold match_class_string. apply match_string_strict; [done|]. rewrite Forall_forall in Hne. specialize (Hne value Hv).
    destruct direction; [done|]. intros E. apply (f_equal (@rev Z)) in E. by rewrite rev_involutive in E.
  - intros dynamic. by apply prefixes_strict.
  - intros c n. by apply decode_strict.
Qed.
End strict.

(** ** Agreement *)

Section agree.
Context `{PropertyData} `{UnicodeData} (limits : CompileLimits) (metadata : CaptureMetadata) (program : Program) (input : list Z).
Notation early := (match_term true limits metadata input).
Notation spec := (match_term false limits metadata input).

(** Continuations agree ahead, and here unless the match has moved. *)
Definition agree (direction : Direction) (moved : bool) (n : nat) (K1 K2 : continuation) : Prop :=
  ∀ n' c', proper_at program input n' c' → moves direction n n' → (moved = true → n' ≠ n) → K1 n' c' = K2 n' c'.

(** Matchers agree when their continuations do. *)
Definition same (direction : Direction) (moved : bool) (M1 M2 : nat → list CaptureSlot → continuation → attempt) : Prop :=
  ∀ n c K1 K2, proper_at program input n c → agree direction moved n K1 K2 → M1 n c K1 = M2 n c K2.

Lemma agree_here direction n c K1 K2 : proper_at program input n c → agree direction false n K1 K2 → K1 n c = K2 n c.
Proof. intros Hp Ha. apply Ha; [done|apply moves_refl|done]. Qed.

Lemma agree_next direction m1 m2 m n n' K1 K2 : moves direction n n' → (m1 = true → n' ≠ n) → (m = true → m1 = true ∨ m2 = true) →
  agree direction m n K1 K2 → agree direction m2 n' K1 K2.
Proof.
  intros Hm H1 Hor Ha n2 c2 Hp Hm2 H2. apply Ha; [done|by eapply moves_trans|]. intros Hmt. destruct (Hor Hmt) as [-> | ->].
  - specialize (H1 eq_refl). destruct direction; cbn in *; lia.
  - specialize (H2 eq_refl). destruct direction; cbn in *; lia.
Qed.

Lemma instruction_same i direction moved : (moved = true → match i with Character _ _ | Dot _ => True | Class class _ => Forall (λ value, value ≠ []) (strings class) | _ => False end) →
  same direction moved (λ n c K, match_instruction input i direction n c K) (λ n c K, match_instruction input i direction n c K).
Proof.
  intros Hi n c K1 K2 [Hn Hc] Ha. destruct i as [value mode|mode|class mode|kind mode| | |indices mode| | | | | | |]; try done; cbn [match_instruction].
  - destruct (decode_in_direction input n (unicode mode) direction) as [[[a next]|]|] eqn:Ed; try done. cbn. case_match; [|done].
    destruct (decode_moves input _ _ _ _ Hn Ed a next eq_refl). apply Ha; [done|done|]. intros _. by eapply strictly_ne, decode_strict.
  - destruct (decode_in_direction input n (unicode mode) direction) as [[[a next]|]|] eqn:Ed; try done. cbn. case_match; [|done].
    destruct (decode_moves input _ _ _ _ Hn Ed a next eq_refl). apply Ha; [done|done|]. intros _. by eapply strictly_ne, decode_strict.
  - destruct (class_positions_ok (E := ExecError) class input n mode direction Hn) as (l & E & Hl). rewrite E. cbn [defined mbind option_bind].
    pose proof (class_moves input _ _ _ _ _ Hn E) as Hm. assert (moved = true → Forall (strictly direction n) l) as Hs by (intros Hmv; by eapply class_strict; [| |exact E]; [|apply Hi]).
    clear E. induction l as [|m l IH]; [done|]. apply Forall_cons in Hl as [Hm1 Hl]. apply Forall_cons in Hm as [Hm2 Hm].
    change (orelse (K1 m c) (first_of K1 c l) = orelse (K2 m c) (first_of K2 c l)). rewrite (Ha m c), IH; [done|done|done| |done|done|].
    + intros Hmv. by specialize (Hs Hmv); apply Forall_cons in Hs as [_ ?].
    + intros Hmv. specialize (Hs Hmv). apply Forall_cons in Hs as [? _]. by eapply strictly_ne.
  - assert (moved = false) as -> by (destruct moved; [by specialize (Hi eq_refl)|done]). destruct (boundary_matches kind input n mode) as [[]|]; try done. cbn. by eapply agree_here.
  - assert (moved = false) as -> by (destruct moved; [by specialize (Hi eq_refl)|done]). destruct (list.head _) as [[first last]|] eqn:Eh; [|by eapply agree_here].
    assert (last ≤ length input) as Hlast by (by eapply captured_inside).
    unfold match_back_reference. cbn [fst snd]. destruct (back_loop_ok (E := ExecError) input mode direction (last - first) n first last Hn Hlast ltac:(lia)) as (o & E & Ho). rewrite E. cbn.
    destruct o as [m|]; [|done]. apply Ha; [split; [by apply Ho|done]|by eapply back_loop_moves|done].
Qed.

Lemma agree_weaken direction m m' n K1 K2 : (m = true → m' = true) → agree direction m n K1 K2 → agree direction m' n K1 K2.
Proof. intros Hm Ha n' c' Hp Hmv Hne. apply Ha; [done|done|auto]. Qed.

(** *** Repeats *)

Lemma repeat_same direction greedy first last body1 body2 moved : last ≤ capture_count program → same direction moved body1 body2 →
  ∀ fuel required allowed n c K1 K2, proper_at program input n c → (0 ≤ required)%Z → Z.to_nat required + ahead input direction n < fuel →
  (required = 0%Z ∨ allowed = Some required ∨ moved = true) → (∀ a, allowed = Some a → (required ≤ a)%Z) →
  agree direction ((0 <? required)%Z && moved) n K1 K2 →
  repeat_matcher true fuel body1 greedy first last required allowed n c K1 = repeat_matcher false fuel body2 greedy first last required allowed n c K2.
Proof.
  intros Hl Hbody. induction fuel as [|fuel IH]; intros required allowed n c K1 K2 Hp Hr Hf Hcond Hal Ha; [done|]. cbn [repeat_matcher].
  assert (required = 0%Z → K1 n c = K2 n c) as Hhere by (intros ->; by eapply agree_here).
  case_bool_decide as Hz; [subst; specialize (Hal _ eq_refl); apply Hhere; lia|].
  destruct (forget_proper program input first last n c Hl Hp) as (reset & -> & Hreset). cbn [mbind option_bind].
  match goal with |- (if _ then ?it1 else _) = (if _ then ?it2 else _) => assert (it1 = it2) as Hit end.
  { apply Hbody; [done|]. intros n' c' Hp' Hm Hne. destruct ((required =? 0)%Z && (n' =? n)) eqn:Estop; [done|]. cbn [andb].
    assert (agree direction ((0 <? Z.max 0 (required - 1))%Z && moved) n' K1 K2) as Ha'.
    { eapply agree_next; [exact Hm|exact Hne| |exact Ha]. intros [_ Hmv]%andb_true_iff. auto. }
    assert (Z.to_nat (Z.max 0 (required - 1)) + ahead input direction n' < fuel) as Hf'.
    { destruct Hp' as [Hn' _], Hp as [Hn _]. apply andb_false_iff in Estop as [Hreq%Z.eqb_neq|Hn1%Nat.eqb_neq]; destruct direction; cbn in *; lia. }
    destruct ((required =? 1)%Z && (n' =? n)) eqn:Elast.
    - apply andb_true_iff in Elast as [->%Z.eqb_eq ->%Nat.eqb_eq]. destruct Hcond as [?|[->|Hmv]]; [done| |by specialize (Hne Hmv)].
      destruct fuel as [|fuel]; [lia|]. cbn. by eapply agree_here.
    - apply IH; [done|lia|done| | |done].
      + destruct Hcond as [->|[->|Hmv]]; [by left| |by auto]. destruct (decide (required = 0%Z)) as [->|]; [by left|]. right. left. cbn. f_equal. lia.
      + intros a Ea. destruct allowed as [a0|]; [|done]. cbn in Ea. injection Ea as <-. specialize (Hal a0 eq_refl). assert (a0 ≠ 0%Z) by congruence. lia. }
  rewrite Hit. destruct (Z.ltb_spec 0 required); [done|]. rewrite Hhere by lia. done.
Qed.

(** *** Lookarounds, groups and sequences *)

Lemma look_same kind direction M1 M2 : same (LookaroundKind.direction kind) false M1 M2 → RegExpCorrect.total program input (LookaroundKind.direction kind) M2 →
  let look M n c (K : continuation) :=
    decided ← M n c (λ _ c, Some (Accepted (LookaroundKind.negative kind) c));
    match decided with
    | Final o => Some (Final o)
    | Accepted true _ => Some Failed
    | Accepted false c => K n c
    | Failed => if LookaroundKind.negative kind then K n c else Some Failed
    end in
  same direction false (look M1) (look M2).
Proof.
  intros HM Htot look n c K1 K2 Hp Ha. unfold look. rewrite (HM n c _ (λ _ c, Some (Accepted (LookaroundKind.negative kind) c)) Hp) by done.
  assert (fine program input (M2 n c (λ _ c, Some (Accepted (LookaroundKind.negative kind) c)))) as Hf by (apply Htot; [done|]; by intros n' c' []).
  destruct (M2 n c _) as [[|[] c'|o]|]; try done; cbn.
  - destruct (LookaroundKind.negative kind); [|done]. by eapply agree_here.
  - destruct Hp. by eapply agree_here.
Qed.

Lemma group_same direction moved M1 M2 (first last : nat → list CaptureSlot → option (list CaptureSlot)) : same direction moved M1 M2 →
  (∀ n c, proper_at program input n c → ∃ c', first n c = Some c' ∧ proper_at program input n c') →
  (∀ n c, proper_at program input n c → ∃ c', last n c = Some c' ∧ proper_at program input n c') →
  same direction moved (λ n c K, c ← first n c; M1 n c (λ n c, c ← last n c; K n c)) (λ n c K, c ← first n c; M2 n c (λ n c, c ← last n c; K n c)).
Proof.
  intros HM H1 H2 n c K1 K2 Hp Ha. destruct (H1 n c Hp) as (c1 & -> & Hp1). cbn. apply HM; [done|]. intros n' c' Hp' Hm Hne.
  destruct (H2 n' c' Hp') as (c2 & -> & Hp2). cbn. by apply Ha.
Qed.

Lemma alternative_same direction mode a : (∀ t, t ∈ a → same direction (advances t) (λ n c K, early t mode direction n c K) (λ n c K, spec t mode direction n c K)) →
  same direction (alternative_advances a) (λ n c K, alternative_with early a mode direction n c K) (λ n c K, alternative_with spec a mode direction n c K).
Proof.
  induction a as [|t a IH]; intros Hall n c K1 K2 Hp Ha; cbn [alternative_with]; [by eapply agree_here|].
  assert (same direction (advances t) (λ n c K, early t mode direction n c K) (λ n c K, spec t mode direction n c K)) as Ht by (apply Hall, elem_of_cons; auto).
  specialize (IH ltac:(intros t' Ht'; apply Hall, elem_of_cons; auto)). cbn in Ha. destruct direction.
  - apply Ht; [done|]. intros n' c' Hp' Hm Hne. apply IH; [done|]. eapply agree_next; [exact Hm|exact Hne| |exact Ha]. by intros ?%orb_true_iff.
  - apply IH; [done|]. intros n' c' Hp' Hm Hne. apply Ht; [done|]. eapply agree_next; [exact Hm|exact Hne| |exact Ha]. intros [?|?]%orb_true_iff; auto.
Qed.

Context (Hmd : metadata_ok metadata) (Hcount : capture_count program = S (length (spans metadata))).

Lemma lays_same :
  (∀ t mode direction p q k k', lays limits metadata program t mode direction p q k k' → term_all node_ok t = true ∧ term_all repeat_exact t = true →
     same direction (advances t) (λ n c K, early t mode direction n c K) (λ n c K, spec t mode direction n c K))
  ∧ (∀ l mode direction p q k k', lays_sequence limits metadata program l mode direction p q k k' → forallb (term_all node_ok) l = true ∧ forallb (term_all repeat_exact) l = true →
     ∀ t, t ∈ l → same direction (advances t) (λ n c K, early t mode direction n c K) (λ n c K, spec t mode direction n c K))
  ∧ (∀ d mode direction p q k k', lays_disjunction limits metadata program d mode direction p q k k' → pattern_ok d = true ∧ pattern_exact d = true →
     same direction (disjunction_advances d) (λ n c K, disjunction_with early d mode direction n c K) (λ n c K, disjunction_with spec d mode direction n c K)).
Proof.
  apply lays_all.
  - intros t mode direction p k i Hl _ [Hok _] n c K1 K2 Hp Ha. destruct (leaf_of_leaf true limits metadata input t mode i Hl) as [_ ->].
    destruct (leaf_of_leaf false limits metadata input t mode i Hl) as [_ ->]. apply (instruction_same i direction (advances t)); [|done|done]. intros Hadv.
    destruct t; cbn in Hl, Hadv; try done; try (subst i; done); destruct Hl as (l & El & ->); [done|].
    cbn [term_all node_ok] in Hok. rewrite andb_true_r in Hok. by eapply class_consumes_strings.
  - intros kind d mode direction p q k k' _ Hd IH _ [Hok Hex]. apply (look_same kind direction (λ n c K, disjunction_with early d mode (LookaroundKind.direction kind) n c K)
      (λ n c K, disjunction_with spec d mode (LookaroundKind.direction kind) n c K)).
    + intros n c K1 K2 Hp Ha. apply IH; [done|done|]. by eapply agree_weaken; [|exact Ha].
    + eapply (proj2 (proj2 (lays_total false limits metadata program input Hmd Hcount))); [exact Hd|exact Hok].
  - intros min max greedy span t mode direction p q k k' _ _ IH _ [Hok Hex] n c K1 K2 Hp Ha. cbn [term_all node_ok repeat_exact] in Hok, Hex. unfold is_count in Hok.
    apply andb_true_iff in Hok as [Hc Hok]. apply andb_true_iff in Hex as [He Hex]. apply andb_true_iff in He as [He1 He2]. apply andb_true_iff in Hc as [Hc _]. bool_to_prop.
    cbn [RegExpMatcher.match_term]. pose proof (within_bound metadata span.1 span.2 Hmd) as Hw. destruct (within metadata span.1 span.2) as [first last]. cbn in Hw.
    eapply (repeat_same direction greedy first last (λ n c K, early t mode direction n c K) (λ n c K, spec t mode direction n c K) (advances t)); [lia|by apply IH|done|done| | | |exact Ha].
    + destruct Hp as [Hn _]. destruct direction; cbn; lia.
    + apply orb_true_iff in He1 as [[?%Z.eqb_eq|?%bool_decide_eq_true_1]%orb_true_iff|?]; auto.
    + intros a ->. by apply Z.leb_le.
  - intros span name d mode direction p q k k' index Hindex _ _ IH _ [Hok Hex] n c K1 K2 Hp Ha. rewrite !match_group, Hindex. cbn [mbind option_bind].
    assert (index < capture_count program) as Hi by (rewrite Hcount; apply (starts_ok _ Hmd) in Hindex; lia). destruct direction.
    + apply (group_same Forward (disjunction_advances d) (λ n c K, disjunction_with early d mode Forward n c K) (λ n c K, disjunction_with spec d mode Forward n c K)
        (capture_start Forward index) (capture_end Forward index)); try done; [by apply IH|intros; by apply capture_start_proper|intros; by apply capture_end_proper].
    + apply (group_same Backward (disjunction_advances d) (λ n c K, disjunction_with early d mode Backward n c K) (λ n c K, disjunction_with spec d mode Backward n c K)
        (capture_end Backward index) (capture_start Backward index)); try done; [by apply IH|intros; by apply capture_end_proper|intros; by apply capture_start_proper].
  - intros modifiers d mode direction p q k k' _ IH Hok. by apply IH.
  - intros mode direction p k _ t []%elem_of_nil.
  - intros t l mode direction p r q k k1 k' _ IH1 _ IH2 [Hok Hex] t' Ht'. cbn in Hok, Hex. apply andb_true_iff in Hok as [H1 H2]. apply andb_true_iff in Hex as [H3 H4].
    apply elem_of_cons in Ht' as [->|Ht']; [by apply IH1|by apply IH2].
  - intros mode direction p k _ n c K1 K2 Hp Ha. cbn. by eapply agree_here.
  - intros a mode direction p q k k' _ IH [Hok Hex] n c K1 K2 Hp Ha. unfold pattern_ok, pattern_exact in Hok, Hex. cbn in Hok, Hex, Ha. rewrite andb_true_r in Hok, Hex, Ha.
    apply (alternative_same direction mode a); [|done|done]. intros t Ht. apply IH; [by rewrite !ordered_ok|by apply ordered_elem].
  - intros a a' d mode direction p r q k k1 k' _ _ IH1 _ _ IH2 [Hok Hex] n c K1 K2 Hp Ha. unfold pattern_ok, pattern_exact in Hok, Hex. cbn [forallb] in Hok, Hex.
    apply andb_true_iff in Hok as [H1 H2]. apply andb_true_iff in Hex as [H3 H4].
    change (orelse (alternative_with early a mode direction n c K1) (disjunction_with early (a' :: d) mode direction n c K1)
      = orelse (alternative_with spec a mode direction n c K2) (disjunction_with spec (a' :: d) mode direction n c K2)).
    f_equal; [apply (alternative_same direction mode a); [|done|]|apply IH2; [done|done|]].
    + intros t Ht. apply IH1; [by rewrite !ordered_ok|by apply ordered_elem].
    + eapply agree_weaken; [|exact Ha]. cbn. by intros [? _]%andb_true_iff.
    + eapply agree_weaken; [|exact Ha]. cbn. by intros [_ ?]%andb_true_iff.
Qed.
End agree.

(** ** Agreement with the language *)

Section language.
Context `{PropertyData} `{UnicodeData} (limits : CompileLimits) (metadata : CaptureMetadata) (program : Program) (input : list Z).
Notation spec := (match_term false limits metadata input).
Notation language := (Language.match_term metadata input).
Notation same := (same program input).
Notation agree := (agree program input).

(** A set read by the executor and by the language. *)
Lemma read_same (f set : Z → bool) u direction n c K1 K2 : proper_at program input n c → agree direction false n K1 K2 → (∀ a, f a = set a) →
  match Language.character input u direction n with Some (a, next) => if f a then K1 next c else Some Failed | None => Some Failed end
  = Language.continue_at (Language.character_of input set u direction n) c K2.
Proof.
  intros [Hn Hc] Ha Hf. unfold Language.character_of. destruct (Language.character input u direction n) as [[a next]|] eqn:Ec; [|done].
  destruct (LanguageFacts.character_moves _ _ _ _ _ _ Hn Ec) as [Hi Hm]. rewrite Hf. destruct (set a); [|done].
  apply Ha; [done|destruct direction; cbn; lia|done].
Qed.

Lemma class_same class set mode direction : Forall (λ value, length value = 1) (strings class) → has_string_properties class = false →
  (∀ a, class_matches class a mode = set a) →
  same direction false (λ n c K, match_instruction input (Class class mode) direction n c K)
    (λ n c K, Language.continue_at (Language.character_of input set (unicode mode) direction n) c K).
Proof.
  intros Hs Hh Hset n c K1 K2 Hp Ha. cbn [match_instruction]. destruct Hp as [Hn Hc].
  rewrite LanguageFacts.class_positions_plain by done. cbn [defined mbind option_bind].
  rewrite <- (read_same (λ a, class_matches class a mode) set (unicode mode) direction n c K1 K2) by done. unfold Language.character_of.
  destruct (Language.character input (unicode mode) direction n) as [[a next]|]; [|done]. destruct (class_matches class a mode); [|done].
  change (orelse (K1 next c) (Some Failed) = K1 next c). by destruct (K1 next c) as [[]|].
Qed.

Lemma reference_same indices mode direction : ignore_case mode = false →
  same direction false (λ n c K, match_instruction input (BackReference indices mode) direction n c K)
    (λ n c K, Language.refers input indices mode direction n c K).
Proof.
  intros Hcase n c K1 K2 Hp Ha. cbn [match_instruction]. unfold Language.refers.
  destruct (list.head _) as [[first last]|] eqn:Eh; [|by eapply agree_here]. destruct Hp as [Hn Hc].
  assert (last ≤ length input) as Hlast by (by eapply captured_inside). pose proof (LanguageFacts.back_reference_exact input mode direction (first, last) n Hcase Hn Hlast) as Eb.
  rewrite Eb. cbn [defined mbind option_bind]. destruct (Language.back_reference input (first, last) (unicode mode) direction n) as [m|] eqn:Er; [|done].
  unfold match_back_reference in Eb. cbn [fst snd] in Eb. cbn [Language.continue_at].
  destruct (back_loop_ok (E := ExecError) input mode direction (last - first) n first last Hn Hlast ltac:(lia)) as (o & E & Ho). rewrite Eb in E. injection E as <-.
  apply Ha; [split; [by apply Ho|done]|by eapply back_loop_moves|done].
Qed.

Lemma leaf_same t mode direction i : leaf limits metadata t mode i → ignore_case mode = false → Language.term_plain t = true →
  same direction false (λ n c K, match_instruction input i direction n c K) (λ n c K, Language.match_leaf metadata input t mode direction n c K).
Proof.
  intros Hl Hcase Hplain. destruct t as [kind|kind d|min max greedy span t|value| |kind|property|class|span name d|modifiers d|index|name]; cbn in Hl; try done.
  - subst i. intros n c K1 K2 Hp Ha. cbn [match_instruction Language.match_leaf]. rewrite LanguageFacts.boundary_exact by (done || by destruct Hp).
    cbn [defined mbind option_bind]. case_match; [|done]. by eapply agree_here.
  - subst i. intros n c K1 K2 Hp Ha. cbn [match_instruction Language.match_leaf]. rewrite LanguageFacts.character_exact by (by destruct Hp). cbn [defined mbind option_bind].
    apply read_same; [done|done|]. intros a. by rewrite (LanguageFacts.same_character_exact mode Hcase), Z.eqb_sym.
  - subst i. intros n c K1 K2 Hp Ha. cbn [match_instruction Language.match_leaf]. rewrite LanguageFacts.character_exact by (by destruct Hp). cbn [defined mbind option_bind].
    apply read_same; [done|done|]. intros a. by rewrite LanguageFacts.terminator_exact.
  - subst i. apply (class_same (single_item (class_escape kind) false) (Language.escape_set kind)); [constructor|done|]. intros a.
    rewrite <- (LanguageFacts.escape_exact mode Hcase). unfold class_matches, single_item. cbn [class_contains_sequence existsb]. by rewrite orb_false_r, xorb_false_r.
  - destruct Hl as (l & El & ->). cbn in Hplain. apply negb_true_iff in Hplain. rewrite Hplain.
    apply (class_same (single_item (Property l) false) (Language.property_set property)); [constructor|done|]. intros a.
    destruct (LanguageFacts.property_exact mode Hcase property l a El Hplain) as [<- _].
    unfold class_matches, single_item. cbn [class_contains_sequence existsb]. by rewrite orb_false_r, xorb_false_r.
  - destruct Hl as (l & El & ->). destruct (LanguageFacts.class_exact mode Hcase class Hplain _ _ _ El) as (Hset & Hs & Hh). by apply class_same.
  - subst i. by apply reference_same.
  - destruct Hl as (l & El & ->). intros n c K1 K2 Hp Ha. cbn [Language.match_leaf]. rewrite El. cbn [mbind option_bind]. by apply reference_same.
Qed.

Lemma repeat_language direction greedy first last body1 body2 : last ≤ capture_count program → same direction false body1 body2 →
  ∀ fuel required allowed n c K1 K2, proper_at program input n c → agree direction false n K1 K2 →
  repeat_matcher false fuel body1 greedy first last required allowed n c K1 = repeat_matcher false fuel body2 greedy first last required allowed n c K2.
Proof.
  intros Hl Hbody. induction fuel as [|fuel IH]; intros required allowed n c K1 K2 Hp Ha; [done|]. cbn [repeat_matcher andb].
  assert (K1 n c = K2 n c) as Hhere by (by eapply agree_here). case_bool_decide; [done|].
  destruct (forget_proper program input first last n c Hl Hp) as (reset & -> & Hreset). cbn [mbind option_bind].
  match goal with |- (if _ then ?it1 else _) = (if _ then ?it2 else _) => assert (it1 = it2) as Hit end.
  { apply Hbody; [done|]. intros n' c' Hp' Hm _. case_match; [done|]. apply IH; [done|]. eapply (agree_next program input direction false false false n n'); [exact Hm|done|done|exact Ha]. }
  by rewrite Hit, Hhere.
Qed.

Lemma alternative_language direction mode a : (∀ t, t ∈ a → same direction false (λ n c K, spec t mode direction n c K) (λ n c K, language t mode direction n c K)) →
  same direction false (λ n c K, alternative_with spec a mode direction n c K) (λ n c K, alternative_with language a mode direction n c K).
Proof.
  induction a as [|t a IH]; intros Hall n c K1 K2 Hp Ha; cbn [alternative_with]; [by eapply agree_here|].
  pose proof (Hall t ltac:(apply elem_of_cons; auto)) as Ht. specialize (IH ltac:(intros t' Ht'; apply Hall, elem_of_cons; auto)). destruct direction.
  - apply Ht; [done|]. intros n' c' Hp' Hm _. apply IH; [done|]. eapply (agree_next program input Forward false false false n n'); [exact Hm|done|done|exact Ha].
  - apply IH; [done|]. intros n' c' Hp' Hm _. apply Ht; [done|]. eapply (agree_next program input Backward false false false n n'); [exact Hm|done|done|exact Ha].
Qed.

Context (Hmd : metadata_ok metadata) (Hcount : capture_count program = S (length (spans metadata))).

Lemma lays_language :
  (∀ t mode direction p q k k', lays limits metadata program t mode direction p q k k' → ignore_case mode = false →
     term_all node_ok t = true ∧ term_all Language.term_plain t = true →
     same direction false (λ n c K, spec t mode direction n c K) (λ n c K, language t mode direction n c K))
  ∧ (∀ l mode direction p q k k', lays_sequence limits metadata program l mode direction p q k k' → ignore_case mode = false →
     forallb (term_all node_ok) l = true ∧ forallb (term_all Language.term_plain) l = true →
     ∀ t, t ∈ l → same direction false (λ n c K, spec t mode direction n c K) (λ n c K, language t mode direction n c K))
  ∧ (∀ d mode direction p q k k', lays_disjunction limits metadata program d mode direction p q k k' → ignore_case mode = false →
     pattern_ok d = true ∧ Language.pattern_plain d = true →
     same direction false (λ n c K, disjunction_with spec d mode direction n c K) (λ n c K, disjunction_with language d mode direction n c K)).
Proof.
  apply lays_all.
  - intros t mode direction p k i Hl _ Hcase [_ Hpl] n c K1 K2 Hp Ha. destruct (leaf_of_leaf false limits metadata input t mode i Hl) as [_ ->].
    assert (Language.term_plain t = true) as Hplain by (by destruct t; cbn in Hpl; rewrite ?andb_true_r in Hpl).
    assert (language t mode direction n c K2 = Language.match_leaf metadata input t mode direction n c K2) as -> by (by destruct t; cbn in Hl).
    by apply (leaf_same t mode direction i).
  - intros kind d mode direction p q k k' _ Hd IH _ Hcase [Hok Hpl]. apply (look_same program input kind direction (λ n c K, disjunction_with spec d mode (LookaroundKind.direction kind) n c K)
      (λ n c K, disjunction_with language d mode (LookaroundKind.direction kind) n c K)).
    + by apply IH.
    + intros n c K Hp HK. rewrite <- (IH Hcase (conj Hok Hpl) n c K K Hp) by done.
      by eapply (proj2 (proj2 (lays_total false limits metadata program input Hmd Hcount))).
  - intros min max greedy span t mode direction p q k k' _ _ IH _ Hcase [Hok Hpl] n c K1 K2 Hp Ha.
    cbn [RegExpMatcher.match_term Language.match_term]. pose proof (within_bound metadata span.1 span.2 Hmd) as Hw. destruct (within metadata span.1 span.2) as [first last]. cbn in Hw.
    cbn [term_all] in Hok, Hpl. apply andb_true_iff in Hok as [_ Hok]. apply andb_true_iff in Hpl as [_ Hpl].
    by apply (repeat_language direction greedy first last (λ n c K, spec t mode direction n c K) (λ n c K, language t mode direction n c K)); [lia|apply IH| |].
  - intros span name d mode direction p q k k' index Hindex _ _ IH _ Hcase [Hok Hpl] n c K1 K2 Hp Ha. rewrite match_group. cbn [Language.match_term]. rewrite Hindex. cbn [mbind option_bind].
    assert (index < capture_count program) as Hi by (rewrite Hcount; apply (starts_ok _ Hmd) in Hindex; lia). destruct direction.
    + apply (group_same program input Forward false (λ n c K, disjunction_with spec d mode Forward n c K) (λ n c K, disjunction_with language d mode Forward n c K)
        (capture_start Forward index) (capture_end Forward index)); try done; [by apply IH|intros; by apply capture_start_proper|intros; by apply capture_end_proper].
    + apply (group_same program input Backward false (λ n c K, disjunction_with spec d mode Backward n c K) (λ n c K, disjunction_with language d mode Backward n c K)
        (capture_end Backward index) (capture_start Backward index)); try done; [by apply IH|intros; by apply capture_end_proper|intros; by apply capture_start_proper].
  - intros modifiers d mode direction p q k k' _ IH Hcase [Hok Hpl]. cbn [term_all] in Hpl. apply andb_true_iff in Hpl as [Hm Hpl]. apply IH; [|done].
    destruct modifiers as [m|]; [|done]. cbn in Hm. apply negb_true_iff in Hm. cbn. unfold apply_modifier. rewrite Hm, Hcase. by case_match.
  - intros mode direction p k _ _ t []%elem_of_nil.
  - intros t l mode direction p r q k k1 k' _ IH1 _ IH2 Hcase [Hok Hpl] t' Ht'. cbn in Hok, Hpl. apply andb_true_iff in Hok as [H1 H2]. apply andb_true_iff in Hpl as [H3 H4].
    apply elem_of_cons in Ht' as [->|Ht']; [by apply IH1|by apply IH2].
  - intros mode direction p k _ n c K1 K2 Hp Ha. cbn. by eapply agree_here.
  - intros a mode direction p q k k' _ IH Hcase [Hok Hpl]. unfold pattern_ok, Language.pattern_plain in Hok, Hpl. cbn in Hok, Hpl. rewrite andb_true_r in Hok, Hpl.
    apply (alternative_language direction mode a). intros t Ht. apply IH; [done|by rewrite !ordered_ok|by apply ordered_elem].
  - intros a a' d mode direction p r q k k1 k' _ _ IH1 _ _ IH2 Hcase [Hok Hpl] n c K1 K2 Hp Ha. unfold pattern_ok, Language.pattern_plain in Hok, Hpl. cbn [forallb] in Hok, Hpl.
    apply andb_true_iff in Hok as [H1 H2]. apply andb_true_iff in Hpl as [H3 H4].
    change (orelse (alternative_with spec a mode direction n c K1) (disjunction_with spec (a' :: d) mode direction n c K1)
      = orelse (alternative_with language a mode direction n c K2) (disjunction_with language (a' :: d) mode direction n c K2)).
    f_equal; [apply (alternative_language direction mode a); [|done|done]|by apply IH2]. intros t Ht. apply IH1; [done|by rewrite !ordered_ok|by apply ordered_elem].
Qed.
End language.

(** ** Patterns *)

Section pattern.
Context `{PropertyData} `{UnicodeData} (compiler_flags : RegExpFlags) (limits : CompileLimits) (metadata : CaptureMetadata) (pattern : list (list Term)) (input : list Z).
Context (program : Program) (q : nat) (Hmd : metadata_ok metadata) (Hl : laid_out compiler_flags limits metadata program pattern q).
Context (Hok : pattern_ok pattern = true) (Hex : pattern_exact pattern = true).

Lemma match_at_same candidate : candidate ≤ length input →
  match_at true compiler_flags limits metadata pattern input candidate = match_at false compiler_flags limits metadata pattern input candidate.
Proof.
  intros Hc. pose proof (laid_captures _ _ _ _ _ _ Hl) as Hcount.
  apply (group_same program input Forward (disjunction_advances pattern)
    (λ n c K, disjunction_with (match_term true limits metadata input) pattern (RegExpFlags.initial_mode compiler_flags) Forward n c K)
    (λ n c K, disjunction_with (match_term false limits metadata input) pattern (RegExpFlags.initial_mode compiler_flags) Forward n c K)
    (capture_start Forward 0) (capture_end Forward 0)) with (K1 := λ n c, Some (Final (Some (range <$> c)))) (K2 := λ n c, Some (Final (Some (range <$> c)))).
  - eapply (proj2 (proj2 (lays_same limits metadata program input Hmd Hcount))); [apply Hl|done].
  - intros n c Hp. apply capture_start_proper; [lia|done].
  - intros n c Hp. apply capture_end_proper; [lia|done].
  - split; [done|]. split; [by rewrite length_replicate|]. apply Forall_replicate, empty_capture_ok.
  - done.
Qed.

Lemma match_from_same fuel : ∀ candidate, candidate ≤ length input →
  match_from true compiler_flags limits metadata pattern input fuel candidate = match_from false compiler_flags limits metadata pattern input fuel candidate.
Proof.
  induction fuel as [|fuel IH]; intros candidate Hc; [done|]. cbn [match_from]. rewrite match_at_same by done.
  destruct (match_at false compiler_flags limits metadata pattern input candidate) as [r|]; [|done]. cbn [mbind option_bind].
  destruct (RegExpSearch.top r); [done|]. destruct (sticky compiler_flags || (candidate =? length input)) eqn:Es; [done|]. apply IH.
  unfold advance_index. destruct (decode_at _ _ _) as [[a m]|] eqn:Ed; [apply decode_at_bound in Ed; lia|done].
Qed.

Context (Hcase : flag_ignore_case compiler_flags = false) (Hpl : Language.pattern_plain pattern = true).

Lemma language_at candidate : candidate ≤ length input →
  match_at false compiler_flags limits metadata pattern input candidate = Language.match_at metadata input compiler_flags pattern candidate.
Proof.
  intros Hc. pose proof (laid_captures _ _ _ _ _ _ Hl) as Hcount.
  apply (group_same program input Forward false
    (λ n c K, disjunction_with (match_term false limits metadata input) pattern (RegExpFlags.initial_mode compiler_flags) Forward n c K)
    (λ n c K, disjunction_with (Language.match_term metadata input) pattern (RegExpFlags.initial_mode compiler_flags) Forward n c K)
    (capture_start Forward 0) (capture_end Forward 0)) with (K1 := λ n c, Some (Final (Some (range <$> c)))) (K2 := λ n c, Some (Final (Some (range <$> c)))).
  - eapply (proj2 (proj2 (lays_language limits metadata program input Hmd Hcount))); [apply Hl|done|done].
  - intros n c Hp. apply capture_start_proper; [lia|done].
  - intros n c Hp. apply capture_end_proper; [lia|done].
  - split; [done|]. split; [by rewrite length_replicate|]. apply Forall_replicate, empty_capture_ok.
  - done.
Qed.

Lemma language_from fuel : ∀ candidate, candidate ≤ length input →
  match_from false compiler_flags limits metadata pattern input fuel candidate = Language.match_from metadata input compiler_flags pattern fuel candidate.
Proof.
  induction fuel as [|fuel IH]; intros candidate Hc; [done|]. cbn [match_from Language.match_from]. rewrite language_at by done.
  destruct (Language.match_at metadata input compiler_flags pattern candidate) as [r|]; [|done]. cbn [mbind option_bind].
  destruct (RegExpSearch.top r); [done|]. destruct (sticky compiler_flags); [done|]. cbn [orb]. rewrite <- LanguageFacts.next_exact. unfold advance_index.
  destruct (Nat.eqb_spec candidate (length input)) as [->|Hne].
  - unfold decode_at. by rewrite (lookup_ge_None_2 input (length input)) by lia.
  - destruct (decode_at _ _ _) as [[a m]|] eqn:Ed; [apply IH; apply decode_at_bound in Ed; lia|].
    unfold decode_at in Ed. destruct (lookup_lt_is_Some_2 input candidate ltac:(lia)) as [x Ex]. rewrite Ex in Ed. cbn in Ed. by repeat case_match.
Qed.
End pattern.

(** C16. The executor against the language specification.  For every pattern
    that compiles, is matched case-sensitively (no [i] flag or modifier), whose
    classes and properties hold single characters, and whose quantifiers either
    require nothing, allow no more than they require, or have a body that moves;
    and for every input and start: the matcher of the specification, with its
    [RepeatMatcher] and its own reading of characters, sets, assertions and back
    references ([Language.match_pattern], which takes none of them from the
    executor), is defined, and whatever the compiled program answers within its
    limits is its answer. *)
Theorem regexp_specification `{PropertyData} `{UnicodeData} flags limits pattern program input start :
  compile_pattern flags limits pattern = Ok program → pattern_ok pattern = true → pattern_exact pattern = true →
  Language.pattern_plain pattern = true → flag_ignore_case flags = false →
  ∃ o, Language.match_pattern flags limits pattern input start = Some o
    ∧ ∀ exec o' steps, execute program input start exec = (Ok o', steps) → o' = o.
Proof.
  intros Ec Hok Hex Hpl Hcase. destruct (correct flags limits pattern program input start Ec Hok) as (o & Eo & Ho). exists o. split; [|exact Ho].
  rewrite <- Eo. unfold compile_pattern in Ec. unfold match_pattern, Language.match_pattern. destruct (collect_captures limits pattern) as [md|] eqn:Em; [|done]. cbn [mbind result_bind] in Ec. cbn [defined mbind option_bind].
  apply collect_ok in Em. apply build_laid_out in Ec as [q Hl]. destruct (Nat.ltb_spec (length input) start) as [Hs|Hs]; [done|].
  rewrite <- (language_from flags limits md pattern input program q Em Hl Hok Hcase Hpl) by done. symmetry. by eapply match_from_same.
Qed.

(** ** Instances *)

Lemma regexp_specification_witness :
  Language.match_pattern (H := no_properties) RegExpFlags.default sample_compile_limits sample_pattern [97; 98; 97]%Z 0 = Some (Some [Some (0, 3)])
  ∧ (execute (H := ascii_data) (compiled (H := no_properties) RegExpFlags.default sample_pattern) [97; 98; 97]%Z 0 sample_limits).1 = Ok (Some [Some (0, 3)]).
Proof.
  destruct (regexp_specification (H := no_properties) (H0 := ascii_data) RegExpFlags.default sample_compile_limits sample_pattern (compiled (H := no_properties) RegExpFlags.default sample_pattern)
    [97; 98; 97]%Z 0 eq_refl eq_refl eq_refl eq_refl eq_refl) as (o & Eo & Ho).
  destruct (execute (H := ascii_data) (compiled (H := no_properties) RegExpFlags.default sample_pattern) [97; 98; 97]%Z 0 sample_limits) as [r steps] eqn:Ee.
  assert (r = Ok (Some [Some (0, 3)])) as -> by (vm_compute in Ee; by injection Ee as <- <-). apply Ho in Ee as <-. done.
Defined.

(** [/[\q{}a]/v] on [a]: the empty string is tried before the character, the
    specification tries it last. *)
Example class_empty_first `{PropertyData} `{UnicodeData} :
  (l ← lower_character_class (mkAstClass false RegExp.Union [ContentsStrings [[]]; ContentsCharacter 97]) 0 10;
   map_err (λ _, Panic) (class_match_positions (E := ExecError) l [97]%Z 0 (RegExpFlags.initial_mode set_flags) Forward)) = Ok [0; 1].
Proof. vm_compute. reflexivity. Qed.

(** [/[Z-a]/i]: both ends of the range are canonicalized, so that it contains
    [m], which no member canonicalizes to, and not [_], which is a member. *)
Example range_case : let mode := mkMode true false false false false in
  class_item_matches (H := ascii_data) (Range 90 97) [109]%Z mode = true ∧ class_item_matches (H := ascii_data) (Range 90 97) [95]%Z mode = false
  ∧ ∀ member, (90 ≤ member ≤ 97)%Z → canonicalize (H := ascii_data) member mode ≠ canonicalize (H := ascii_data) 109 mode.
Proof.
  split_and!; [done|done|]. intros member Hm. assert (member ∈ seqZ 90 8) as Hin by (apply elem_of_seqZ; lia). clear Hm. revert member Hin.
  apply Forall_forall. apply (bool_decide_unpack _). vm_compute. done.
Qed.

(** [/[\q{ab}&&[^x]]/v] on [ab]: a negated class is taken to hold every string
    that is not one of its members, where the language's holds single
    characters only. *)
Example negated_class_strings `{PropertyData} `{UnicodeData} :
  (l ← lower_character_class (mkAstClass false RegExp.Intersection
         [ContentsStrings [[97; 98]%Z]; ContentsNested (mkAstClass true RegExp.Union [ContentsCharacter 120])]) 0 10;
   map_err (λ _, Panic) (class_match_positions (E := ExecError) l [97; 98]%Z 0 (RegExpFlags.initial_mode set_flags) Forward)) = Ok [2].
Proof. vm_compute. reflexivity. Qed.
