(* ===== verification/AbstractValues.v ===== *)
(** * Abstract values of the control-flow optimizer

    Models [crates/fusor-compiler/src/lowering/control_flow/optimizer/abstract_value.rs]:
    the lattice of compile-time values, the transfer of the abstract operand
    stack through one instruction and the outcome of a truthiness branch.  It
    opens with what the lowering shares: the failures of
    [lowering/error.rs], and the constants of [compiler_graph.rs] and
    [lowering/artifacts.rs] the transfer looks at.  A stack is the list of its
    entries with the top last, as the source's vector. *)

From S2P Require Import Prelude Opcode Codec Function VerifierModel Assembler CompilerString Values.
From stdpp Require Import list.
Local Open Scope Z_scope.

(** ** Failures of the lowering *)

(** A byte range of one source text. *)
Record Span : Set := mkSpan { span_start : Z; span_end : Z }.

(** The failures the control-flow stages report. *)
Module LeafCompilationError.
Inductive LeafCompilationError : Set :=
| SemanticInvariant (invariant : string) (span : option Span)
| CapacityExceeded (domain : string)
| BytecodeEncoding (span : Span) (source : EncodeError)
| BytecodeAssembly (span : option Span) (source : AssemblerError)
| BytecodeStackInvariant (span : Span) (pc : BytecodePc) (expected actual : Z)
| BytecodeVerification (span related_span : option Span) (source : VerificationError).
End LeafCompilationError.
Notation LeafCompilationError := LeafCompilationError.LeafCompilationError.
Import LeafCompilationError.

(** How a stage fails to give a value: with a reported failure, or without
    returning (an out-of-range index, a loop cut by its fuel). *)
Inductive leaf_failure : Set := Leaf (e : LeafCompilationError) | LeafStuck.

Notation leaf A := (result leaf_failure A).

Definition invariant_error (invariant : string) (span : option Span) : leaf_failure :=
  Leaf (SemanticInvariant invariant span).
Definition capacity_error (domain : string) : leaf_failure := Leaf (CapacityExceeded domain).

(** [usize::try_from(value)], reported by domain. *)
Definition usize_from_u32 (value : Z) (domain : string) : leaf nat :=
  ok_or (try_usize value) (capacity_error domain).
Definition u32_from_usize (value : nat) (domain : string) : leaf Z :=
  ok_or (try_u32 (Z.of_nat value)) (capacity_error domain).

(** ** Constants *)

(** [Binary64Constant] is its retained bits. *)
Definition CANONICAL_NAN_BITS : Z := 0x7ff8000000000000.
Definition binary64_from_bits (bits : Z) : Z :=
  if 0x7ff0000000000000 <? Z.land bits 0x7fffffffffffffff then CANONICAL_NAN_BITS else bits.

Module CompilerBigIntError.
Inductive CompilerBigIntError : Set :=
| Empty
| InvalidDigit (index : nat) (code_unit : Z)
| LeadingZero.
End CompilerBigIntError.
Notation CompilerBigIntError := CompilerBigIntError.CompilerBigIntError.

Record CompilerBigInt : Set := mkCompilerBigInt { decimal : CompilerString }.

Definition is_decimal_digit (unit : Z) : bool := (48 <=? unit) && (unit <=? 57).

(** Validates a canonical unsigned decimal spelling. *)
Definition try_from_decimal (decimal : CompilerString) : result CompilerBigIntError CompilerBigInt :=
  match CompilerStringCodeUnits.remaining (code_units decimal) with
  | [] => Err CompilerBigIntError.Empty
  | first :: rest =>
      reject_if (negb (is_decimal_digit first)) (CompilerBigIntError.InvalidDigit 0 first) ;;
      reject_if ((first =? 48) && negb (string_len decimal =? 1)) CompilerBigIntError.LeadingZero ;;
      try_for_each (λ '(index, code_unit),
        reject_if (negb (is_decimal_digit code_unit)) (CompilerBigIntError.InvalidDigit index code_unit))
        (enumerate_from 1 rest) ;;
      Ok (mkCompilerBigInt decimal)
  end.

(** One cooked/raw pair of a tagged template, and a template site. *)
Record CompilerTemplateElement : Set := mkTemplateElement {
  cooked : option CompilerString;
  raw : CompilerString }.
Record CompilerTemplateObject : Set := mkTemplateObject { template_elements : list CompilerTemplateElement }.

Module CompilerConstantValue.
Inductive CompilerConstantValue : Set :=
| Number (value : Z)
| String (value : CompilerString)
| BigInt (value : CompilerBigInt)
| TemplateObject (value : CompilerTemplateObject).
End CompilerConstantValue.
Notation CompilerConstantValue := CompilerConstantValue.CompilerConstantValue.

(** A constant-pool entry; a function entry is the index of its template. *)
Module CompiledConstant.
Inductive CompiledConstant : Set :=
| Value (value : CompilerConstantValue)
| Function (template : Z).

Definition value (self : CompiledConstant) : option CompilerConstantValue :=
  match self with Value value => Some value | Function _ => None end.
End CompiledConstant.
Notation CompiledConstant := CompiledConstant.CompiledConstant.

(** The pools the transfer reads. *)
Record ConstantInputs : Set := mkInputs { atoms : list CompilerAtom; constants : list CompiledConstant }.

Module ConstantInputs.
Definition atom (self : ConstantInputs) (index : Z) : option CompilerAtom :=
  index ← try_usize index; atoms self !! index.
Definition constant (self : ConstantInputs) (index : Z) : option CompiledConstant :=
  index ← try_usize index; constants self !! index.
End ConstantInputs.

(** ** The lattice *)

Module AbstractValue.
Inductive AbstractValue : Set :=
| Overdefined
| Undefined
| Null
| Boolean (value : bool)
| NumberI32 (value : Z)
| BigIntI32 (value : Z)
| EmptyString
| KnownTruthy
| KnownFalsy.

#[global] Instance AbstractValue_eq_dec : EqDecision AbstractValue.
Proof. solve_decision. Defined.

Definition truthiness (self : AbstractValue) : option bool :=
  match self with
  | Overdefined => None
  | Undefined | Null | Boolean false | EmptyString | KnownFalsy => Some false
  | Boolean true | KnownTruthy => Some true
  | NumberI32 value | BigIntI32 value => Some (negb (value =? 0))
  end.

Definition join (self incoming : AbstractValue) : AbstractValue :=
  if decide (self = incoming) then self else
  match truthiness self, truthiness incoming with
  | Some true, Some true => KnownTruthy
  | Some false, Some false => KnownFalsy
  | _, _ => Overdefined
  end.

Definition is_undefined (self : AbstractValue) : option bool :=
  match self with
  | Undefined => Some true
  | Null | Boolean _ | NumberI32 _ | BigIntI32 _ | EmptyString | KnownTruthy => Some false
  | Overdefined | KnownFalsy => None
  end.

Definition is_null (self : AbstractValue) : option bool :=
  match self with
  | Null => Some true
  | Undefined | Boolean _ | NumberI32 _ | BigIntI32 _ | EmptyString | KnownTruthy => Some false
  | Overdefined | KnownFalsy => None
  end.

Definition is_nullish (self : AbstractValue) : option bool :=
  match self with
  | Undefined | Null => Some true
  | Boolean _ | NumberI32 _ | BigIntI32 _ | EmptyString | KnownTruthy => Some false
  | Overdefined | KnownFalsy => None
  end.

Definition strict_equal (self right_ : AbstractValue) : option bool :=
  match self, right_ with
  | (Overdefined | KnownTruthy | KnownFalsy), _ | _, (Overdefined | KnownTruthy | KnownFalsy) => None
  | Undefined, Undefined | Null, Null | EmptyString, EmptyString => Some true
  | Boolean left_, Boolean right_ => Some (Bool.eqb left_ right_)
  | NumberI32 left_, NumberI32 right_ | BigIntI32 left_, BigIntI32 right_ => Some (left_ =? right_)
  | _, _ => Some false
  end.
End AbstractValue.
Notation AbstractValue := AbstractValue.AbstractValue.

(** ** Branches *)

Definition constant_branch_outcome (opcode : FinalOpcode) (stack : list AbstractValue) : option bool :=
  top ← last stack;
  truthy ← AbstractValue.truthiness top;
  match opcode with
  | FinalOpcode.IfTrue | FinalOpcode.IfTrue8 => Some truthy
  | FinalOpcode.IfFalse | FinalOpcode.IfFalse8 => Some (negb truthy)
  | _ => None
  end.

Definition is_truthiness_branch (opcode : FinalOpcode) : bool :=
  match opcode with
  | FinalOpcode.IfFalse | FinalOpcode.IfTrue | FinalOpcode.IfFalse8 | FinalOpcode.IfTrue8 => true
  | _ => false
  end.

(** ** The transfer *)

(** [vec.pop()]: the rest and the top. *)
Fixpoint vec_pop {A} (stack : list A) : option (list A * A) :=
  match stack with
  | [] => None
  | [top] => Some ([], top)
  | bottom :: stack => '(rest, top) ← vec_pop stack; Some (bottom :: rest, top)
  end.

(** [len.checked_sub(count)] *)
Definition checked_sub_len {A} (stack : list A) (count : nat) : option nat :=
  if (count <=? length stack)%nat then Some (length stack - count)%nat else None.

(** [slice.rotate_left(1)], [slice.rotate_right(1)] and [slice.swap(0, 1)]. *)
Definition rotate_left_one {A} (l : list A) : list A := match l with [] => [] | x :: l => l ++ [x] end.
Definition rotate_right_one {A} (l : list A) : list A :=
  match vec_pop l with None => [] | Some (rest, top) => top :: rest end.
Definition swap_first {A} (l : list A) : list A := match l with x :: y :: l => y :: x :: l | _ => l end.
(** [values[..n].rotate_right(1)] *)
Definition rotate_right_prefix {A} (n : nat) (l : list A) : list A := rotate_right_one (take n l) ++ drop n l.

Section transfer.
Context `{Allocator}.
Local Notation stack := (list AbstractValue).

Definition grow (stack : stack) (additional : Z) : leaf unit :=
  reserve "CFG constant transfer stack" (len stack) additional
    (capacity_error "CFG constant transfer stack").

Definition push_value (stack : stack) (value : AbstractValue) : leaf (list AbstractValue) :=
  grow stack 1 ;; Ok (stack ++ [value]).

Definition pop_value (stack : stack) : leaf (list AbstractValue * AbstractValue) :=
  ok_or (vec_pop stack) (invariant_error "verified optimizer transfer has its stack input" None).

Definition invalid_verified_operand {A} : leaf A :=
  Err (invariant_error "verified optimizer opcode retains its operand format" None).

Definition constant_truthiness (value : CompilerConstantValue) : AbstractValue :=
  let truthy :=
    match value with
    | CompilerConstantValue.Number number => negb (F64.eq number 0) && negb (F64.is_nan number)
    | CompilerConstantValue.String string => negb (string_is_empty string)
    | CompilerConstantValue.BigInt bigint =>
        negb (string_len (decimal bigint) =? 1)
        || negb (bool_decide (fst (CompilerStringCodeUnits.next (code_units (decimal bigint))) = Some 48))
    | CompilerConstantValue.TemplateObject _ => true
    end in
  if truthy then AbstractValue.KnownTruthy else AbstractValue.KnownFalsy.

Definition push_constant (stack : stack) (operands : Operands) (inputs : ConstantInputs) :
    leaf (list AbstractValue) :=
  index ← match operands with
          | Operands.Const index | Operands.Const8 index => Ok index
          | _ => invalid_verified_operand
          end;
  push_value stack
    (from_option constant_truthiness AbstractValue.Overdefined
       (ConstantInputs.constant inputs index ≫= CompiledConstant.value)).

Definition push_atom (stack : stack) (operands : Operands) (inputs : ConstantInputs) :
    leaf (list AbstractValue) :=
  match operands with
  | Operands.Atom index =>
      push_value stack
        (from_option (λ atom, if string_is_empty (atom_string atom) then AbstractValue.KnownFalsy
                              else AbstractValue.KnownTruthy)
           AbstractValue.Overdefined (ConstantInputs.atom inputs index))
  | _ => invalid_verified_operand
  end.

Definition push_i8 (stack : stack) (operands : Operands) : leaf (list AbstractValue) :=
  match operands with
  | Operands.I8 value => push_value stack (AbstractValue.NumberI32 value)
  | _ => invalid_verified_operand
  end.

Definition push_i16 (stack : stack) (operands : Operands) : leaf (list AbstractValue) :=
  match operands with
  | Operands.I16 value => push_value stack (AbstractValue.NumberI32 value)
  | _ => invalid_verified_operand
  end.

Definition push_i32 (stack : stack) (operands : Operands) (bigint : bool) : leaf (list AbstractValue) :=
  match operands with
  | Operands.I32 value =>
      push_value stack (if bigint then AbstractValue.BigIntI32 value else AbstractValue.NumberI32 value)
  | _ => invalid_verified_operand
  end.

Definition map_unary (stack : stack) (predicate : AbstractValue → AbstractValue) :
    leaf (list AbstractValue) :=
  '(stack, value) ← pop_value stack;
  push_value stack (predicate value).

Definition map_predicate (stack : stack) (predicate : AbstractValue → option bool) :
    leaf (list AbstractValue) :=
  map_unary stack (λ value, from_option AbstractValue.Boolean AbstractValue.Overdefined (predicate value)).

Definition strict_equality (stack : stack) (opcode : FinalOpcode) : leaf (list AbstractValue) :=
  '(stack, right_) ← pop_value stack;
  '(stack, left_) ← pop_value stack;
  let result := AbstractValue.strict_equal left_ right_ in
  let result := if decide (opcode = FinalOpcode.StrictNeq) then negb <$> result else result in
  push_value stack (from_option AbstractValue.Boolean AbstractValue.Overdefined result).

Definition duplicate_top (stack : stack) : leaf (list AbstractValue) :=
  value ← ok_or (last stack) (invariant_error "verified dup has an optimizer input" None);
  push_value stack value.

Definition duplicate_below_top (stack : stack) : leaf (list AbstractValue) :=
  '(stack, top) ← pop_value stack;
  value ← ok_or (last stack) (invariant_error "verified dup1 has two optimizer inputs" None);
  stack ← push_value stack value;
  push_value stack top.

Definition nip (stack : stack) : leaf (list AbstractValue) :=
  '(stack, top) ← pop_value stack;
  '(stack, _) ← pop_value stack;
  push_value stack top.

Definition apply_unknown_effect (stack : stack) (instruction : Instruction) : leaf (list AbstractValue) :=
  effect ← map_err (λ _, invariant_error
             "verified instruction retains a valid optimizer stack effect" None)
             (Instruction.stack_effect instruction);
  pops ← ok_or (try_usize (pops effect)) (capacity_error "optimizer pop count");
  reject_if (length stack <? pops)%nat
    (invariant_error "verified optimizer transfer does not underflow" None) ;;
  let stack := take (length stack - pops) stack in
  pushes ← ok_or (try_usize (pushes effect)) (capacity_error "optimizer push count");
  grow stack (Z.of_nat pushes) ;;
  Ok (stack ++ replicate pushes AbstractValue.Overdefined).

Definition duplicate_tail (stack : stack) (count : nat) : leaf (list AbstractValue) :=
  start ← ok_or (checked_sub_len stack count)
            (invariant_error "verified duplicate has optimizer inputs" None);
  grow stack (Z.of_nat count) ;;
  Ok (stack ++ drop start stack).

Definition insert_top_copy (stack : stack) (count : nat) : leaf (list AbstractValue) :=
  start ← ok_or (checked_sub_len stack count)
            (invariant_error "verified insert has optimizer inputs" None);
  top ← ok_or (last stack) (invariant_error "verified insert has an optimizer top value" None);
  grow stack 1 ;;
  Ok (take start stack ++ top :: drop start stack).

Definition permute_tail (stack : stack) (count : nat)
    (permutation : list AbstractValue → list AbstractValue) : leaf (list AbstractValue) :=
  start ← ok_or (checked_sub_len stack count)
            (invariant_error "verified permutation has optimizer inputs" None);
  Ok (take start stack ++ permutation (drop start stack)).

Definition transfer_stack (stack : stack) (instruction : Instruction) (inputs : ConstantInputs) :
    leaf (list AbstractValue) :=
  let opcode := Instruction.opcode instruction in
  let operands := Instruction.operands instruction in
  match opcode with
  | FinalOpcode.Undefined => push_value stack AbstractValue.Undefined
  | FinalOpcode.Null => push_value stack AbstractValue.Null
  | FinalOpcode.PushFalse => push_value stack (AbstractValue.Boolean false)
  | FinalOpcode.PushTrue => push_value stack (AbstractValue.Boolean true)
  | FinalOpcode.PushMinus1 => push_value stack (AbstractValue.NumberI32 (-1))
  | FinalOpcode.Push0 => push_value stack (AbstractValue.NumberI32 0)
  | FinalOpcode.Push1 => push_value stack (AbstractValue.NumberI32 1)
  | FinalOpcode.Push2 => push_value stack (AbstractValue.NumberI32 2)
  | FinalOpcode.Push3 => push_value stack (AbstractValue.NumberI32 3)
  | FinalOpcode.Push4 => push_value stack (AbstractValue.NumberI32 4)
  | FinalOpcode.Push5 => push_value stack (AbstractValue.NumberI32 5)
  | FinalOpcode.Push6 => push_value stack (AbstractValue.NumberI32 6)
  | FinalOpcode.Push7 => push_value stack (AbstractValue.NumberI32 7)
  | FinalOpcode.PushI8 => push_i8 stack operands
  | FinalOpcode.PushI16 => push_i16 stack operands
  | FinalOpcode.PushI32 => push_i32 stack operands false
  | FinalOpcode.PushBigIntI32 => push_i32 stack operands true
  | FinalOpcode.PushConst | FinalOpcode.PushConst8 => push_constant stack operands inputs
  | FinalOpcode.PushAtomValue => push_atom stack operands inputs
  | FinalOpcode.PushEmptyString => push_value stack AbstractValue.EmptyString
  | FinalOpcode.Object | FinalOpcode.FClosure | FinalOpcode.FClosure8 | FinalOpcode.PrivateSymbol =>
      push_value stack AbstractValue.KnownTruthy
  | FinalOpcode.Lnot =>
      map_unary stack (λ value,
        from_option (λ truthy, AbstractValue.Boolean (negb truthy)) AbstractValue.Overdefined
          (AbstractValue.truthiness value))
  | FinalOpcode.IsUndefined | FinalOpcode.TypeofIsUndefined => map_predicate stack AbstractValue.is_undefined
  | FinalOpcode.IsNull => map_predicate stack AbstractValue.is_null
  | FinalOpcode.IsUndefinedOrNull => map_predicate stack AbstractValue.is_nullish
  | FinalOpcode.StrictEq | FinalOpcode.StrictNeq => strict_equality stack opcode
  | FinalOpcode.Dup => duplicate_top stack
  | FinalOpcode.Dup1 => duplicate_below_top stack
  | FinalOpcode.Dup2 => duplicate_tail stack 2
  | FinalOpcode.Dup3 => duplicate_tail stack 3
  | FinalOpcode.Insert2 => insert_top_copy stack 2
  | FinalOpcode.Insert3 => insert_top_copy stack 3
  | FinalOpcode.Insert4 => insert_top_copy stack 4
  | FinalOpcode.Nip => nip stack
  | FinalOpcode.Swap => permute_tail stack 2 swap_first
  | FinalOpcode.Perm3 => permute_tail stack 3 swap_first
  | FinalOpcode.Perm4 => permute_tail stack 4 (rotate_right_prefix 3)
  | FinalOpcode.Perm5 => permute_tail stack 5 (rotate_right_prefix 4)
  | FinalOpcode.Rot3l => permute_tail stack 3 rotate_left_one
  | FinalOpcode.Rot3r => permute_tail stack 3 rotate_right_one
  | FinalOpcode.Rot4l => permute_tail stack 4 rotate_left_one
  | FinalOpcode.Rot5l => permute_tail stack 5 rotate_left_one
  | _ => apply_unknown_effect stack instruction
  end.
End transfer.
