(* ===== verification/Optimizer.v ===== *)
(** * The control-flow optimizer

    Models [crates/fusor-compiler/src/lowering/control_flow/optimizer.rs] and
    its [analysis.rs], [retention.rs], [metadata.rs] and [rewrite.rs]: constant
    propagation over the verified control flow, the choice of the instructions
    to keep, the re-emission of those through the symbolic assembler with known
    branches folded, and the renumbering of everything that names an
    instruction.  A vector indexed out of range panics in the source and is
    [LeafStuck] here, as is a loop cut by its fuel. *)

From S2P Require Import Prelude Opcode Codec Function VerifierModel Verifier Assembler CompilerString AbstractValues.
From stdpp Require Import list.
Local Open Scope Z_scope.
Import LeafCompilationError.

(** ** Shared data *)

(** One emitted instruction's position and source range. *)
Record SourceInstruction : Set := mkSourceInstruction { source_pc : BytecodePc; source_span : Span }.

(** A statement boundary with the stack depth the compiler expects there. *)
Record ResolvedStackAnchor : Set := mkResolvedAnchor {
  anchor_pc : BytecodePc;
  anchor_span : Span;
  anchor_depth : Z }.

(** [v[i]] and [v[i] = x] *)
Definition get_or_panic {A} (l : list A) (i : nat) : leaf A := ok_or (l !! i) LeafStuck.
Definition set_or_panic {A} (l : list A) (i : nat) (x : A) : leaf (list A) :=
  if (i <? length l)%nat then Ok (<[i := x]> l) else Err LeafStuck.

Definition opcode_at (v : VerifiedInstruction) : FinalOpcode :=
  Instruction.opcode (instruction (decoded v)).

(** [try_reserve_exact(capacity)] of a fresh vector. *)
Definition reserved_vec `{Allocator} (capacity : Z) (domain : string) : leaf unit :=
  reserve domain 0 capacity (capacity_error domain).

Definition required_successor (successor : option Z) : leaf Z :=
  ok_or successor (invariant_error "verified successor shape retains its target" None).

(** ** Constant propagation *)

Notation entry_stack := (option (list AbstractValue)).

(** The mutable locals of the analysis. *)
Record Propagation : Set := mkPropagation { entry_stacks : list entry_stack; pending : list nat }.

Section analysis.
Context `{Allocator}.

Definition reserve_worklist (worklist : list nat) : leaf unit :=
  reserve "CFG constant propagation worklist" (len worklist) 1
    (capacity_error "CFG constant propagation worklist").

Definition clone_values (values : list AbstractValue) (domain : string) : leaf (list AbstractValue) :=
  reserved_vec (len values) domain ;; Ok values.

(** The [for] loop of [join_entry_stack]. *)
Fixpoint join_values (established incoming : list AbstractValue) : list AbstractValue * bool :=
  match established, incoming with
  | current :: established, value :: incoming =>
      let joined := AbstractValue.join current value in
      let '(rest, changed) := join_values established incoming in
      (joined :: rest, negb (bool_decide (joined = current)) || changed)
  | _, _ => (established, false)
  end.

Definition join_entry_stack (established incoming : list AbstractValue) :
    leaf (list AbstractValue * bool) :=
  reject_if (negb (length established =? length incoming)%nat)
    (invariant_error "verified optimizer joins have equal stack depth" None) ;;
  Ok (join_values established incoming).

Definition merge_entry_stack (state : Propagation) (target : Z) (incoming : list AbstractValue) :
    leaf Propagation :=
  target ← usize_from_u32 target "optimizer successor index";
  entry ← ok_or (entry_stacks state !! target)
    (invariant_error "verified optimizer successor resolves to an instruction" None);
  '(entry, changed) ← match entry with
    | None =>
        incoming ← clone_values incoming "CFG constant entry stack";
        Ok (incoming, true)
    | Some established => join_entry_stack established incoming
    end;
  let entry_stacks := <[target := Some entry]> (entry_stacks state) in
  if changed : bool then
    reserve_worklist (pending state) ;;
    Ok (mkPropagation entry_stacks (pending state ++ [target]))
  else Ok (mkPropagation entry_stacks (pending state)).

Definition opaque_target_stack (control_flow : VerifiedControlFlow) (target : Z) :
    leaf (list AbstractValue) :=
  verified ← ok_or (VerifiedControlFlowQueries.instruction control_flow target)
    (invariant_error "opaque structural target resolves to a verified instruction" None);
  depth ← ok_or (entry_stack_depth verified)
    (invariant_error "executable structural target is verifier-reachable" None);
  depth ← usize_from_u32 depth "opaque structural target depth";
  reserved_vec (Z.of_nat depth) "opaque structural target stack" ;;
  Ok (replicate depth AbstractValue.Overdefined).

Definition propagate_branch (control_flow : VerifiedControlFlow) (state : Propagation)
    (opcode : FinalOpcode) (outcome : option bool) (taken not_taken : Z)
    (output : list AbstractValue) : leaf Propagation :=
  if is_truthiness_branch opcode then
    match outcome with
    | Some true => merge_entry_stack state taken output
    | Some false => merge_entry_stack state not_taken output
    | None =>
        state ← merge_entry_stack state taken output;
        merge_entry_stack state not_taken output
    end
  else
    opaque ← opaque_target_stack control_flow taken;
    state ← merge_entry_stack state taken opaque;
    merge_entry_stack state not_taken output.

(** Propagation along the successors. *)
Definition propagate_successors (control_flow : VerifiedControlFlow) (state : Propagation)
    (verified : VerifiedInstruction) (branch_outcome : option bool) (output : list AbstractValue) :
    leaf Propagation :=
  let successors := successors verified in
  match successors with
  | VerifiedSuccessors.Fallthrough _ =>
      target ← required_successor (VerifiedSuccessors.fallthrough successors);
      merge_entry_stack state target output
  | VerifiedSuccessors.Jump _ =>
      target ← required_successor (VerifiedSuccessors.jump_target successors);
      merge_entry_stack state target output
  | VerifiedSuccessors.Branch _ _ =>
      taken ← required_successor (VerifiedSuccessors.branch_target successors);
      not_taken ← required_successor (VerifiedSuccessors.fallthrough successors);
      propagate_branch control_flow state (opcode_at verified) branch_outcome taken not_taken output
  | VerifiedSuccessors.Terminate => Ok state
  end.

(** The evaluation counter against its limit. *)
Definition charge_evaluation (limits : VerificationLimits) (evaluations : Z) : leaf Z :=
  evaluations ← ok_or (checked_add_u64 evaluations 1)
    (capacity_error "CFG constant propagation evaluations");
  reject_if (max_transfer_evaluations limits <? evaluations)
    (capacity_error "CFG constant propagation evaluations") ;;
  Ok evaluations.

(** One turn of the loop, for the position just popped. *)
Definition propagate_position (control_flow : VerifiedControlFlow) (inputs : ConstantInputs)
    (state : Propagation) (position : nat) : leaf Propagation :=
  verified ← ok_or (instructions control_flow !! position)
    (invariant_error "CFG constant work item resolves to a verified instruction" None);
  match mjoin (entry_stacks state !! position) with
  | None => Ok state
  | Some entry_stack =>
      output ← clone_values entry_stack "CFG constant transfer stack";
      expected_depth ← ok_or (entry_stack_depth verified)
        (invariant_error "CFG constant work item is verifier-reachable" None);
      expected_depth ← usize_from_u32 expected_depth "verified optimizer stack depth";
      reject_if (negb (length output =? expected_depth)%nat)
        (invariant_error "CFG constant entry stack matches verified depth" None) ;;
      let instruction := instruction (decoded verified) in
      let branch_outcome := constant_branch_outcome (Instruction.opcode instruction) output in
      output ← transfer_stack output instruction inputs;
      propagate_successors control_flow state verified branch_outcome output
  end.

(** [while let Some(position) = worklist.pop_front()] *)
Fixpoint propagate_loop (control_flow : VerifiedControlFlow) (inputs : ConstantInputs)
    (limits : VerificationLimits) (fuel : nat) (evaluations : Z) (state : Propagation) :
    leaf (list entry_stack) :=
  match pending state with
  | [] => Ok (entry_stacks state)
  | position :: rest =>
      match fuel with
      | O => Err LeafStuck
      | S fuel =>
          evaluations ← charge_evaluation limits evaluations;
          state ← propagate_position control_flow inputs (mkPropagation (entry_stacks state) rest) position;
          propagate_loop control_flow inputs limits fuel evaluations state
      end
  end.

(** Every entry stack is set once, and each of its values changes at most twice. *)
Definition propagation_fuel (control_flow : VerifiedControlFlow) : nat :=
  S (sum_list_with (λ v, S (2 * Z.to_nat (default 0 (entry_stack_depth v)))) (instructions control_flow)).

Definition propagate_constants (control_flow : VerifiedControlFlow) (inputs : ConstantInputs)
    (limits : VerificationLimits) : leaf (list entry_stack) :=
  let instruction_count := length (instructions control_flow) in
  reserved_vec (Z.of_nat instruction_count) "CFG constant entry states" ;;
  match instruction_count with
  | O => Err (invariant_error "verified control flow has an optimizer entry instruction" None)
  | S rest =>
      reserve_worklist [] ;;
      propagate_loop control_flow inputs limits (propagation_fuel control_flow) 0
        (mkPropagation (Some [] :: replicate rest None) [O])
  end.
End analysis.

(** ** Retention *)

Definition is_initializer_put (opcode : FinalOpcode) : bool :=
  match opcode with
  | FinalOpcode.PutArg | FinalOpcode.PutArg0 | FinalOpcode.PutArg1 | FinalOpcode.PutArg2
  | FinalOpcode.PutArg3 | FinalOpcode.PutLoc | FinalOpcode.PutLoc8 | FinalOpcode.PutLoc0
  | FinalOpcode.PutLoc1 | FinalOpcode.PutLoc2 | FinalOpcode.PutLoc3 => true
  | _ => false
  end.

Definition is_closure_opcode (opcode : FinalOpcode) : bool :=
  match opcode with FinalOpcode.FClosure | FinalOpcode.FClosure8 => true | _ => false end.

Definition is_ordinary_branch (opcode : FinalOpcode) : bool :=
  match opcode with
  | FinalOpcode.IfFalse | FinalOpcode.IfFalse8 | FinalOpcode.IfTrue | FinalOpcode.IfTrue8
  | FinalOpcode.Goto | FinalOpcode.Goto8 | FinalOpcode.Goto16 => true
  | _ => false
  end.

Definition retain_binding_policy_anchors (control_flow : VerifiedControlFlow) (retained : list bool) :
    leaf (list bool) :=
  try_fold (λ retained '(position, verified),
    if decide (opcode_at verified = FinalOpcode.SetLocUninitialized)
    then set_or_panic retained position true else Ok retained)
    retained (enumerate (instructions control_flow)).

Definition retain_function_initializer_pairs (control_flow : VerifiedControlFlow) (retained : list bool) :
    leaf (list bool) :=
  let instructions := instructions control_flow in
  try_fold (λ retained position,
    current ← get_or_panic instructions position;
    if is_closure_opcode (opcode_at current) then
      next ← get_or_panic instructions (position + 1);
      if is_initializer_put (opcode_at next) then
        retained ← set_or_panic retained position true;
        set_or_panic retained (position + 1) true
      else Ok retained
    else Ok retained)
    retained (seq 0 (length instructions - 1)).

Section retention.
Context `{Allocator}.

Definition reserve_structural_worklist (worklist : list nat) : leaf unit :=
  reserve "CFG structural retention worklist" (len worklist) 1
    (capacity_error "CFG structural retention worklist").

(** The successors pushed for one visited instruction. *)
Definition push_structural_successors (visited : list bool) (worklist : list nat)
    (verified : VerifiedInstruction) : leaf (list nat) :=
  let successors := successors verified in
  try_fold (λ worklist successor,
    match successor with
    | None => Ok worklist
    | Some successor =>
        successor ← usize_from_u32 successor "structural exception successor";
        if negb (default false (visited !! successor)) then
          reserve_structural_worklist worklist ;; Ok (worklist ++ [successor])
        else Ok worklist
    end)
    worklist
    [VerifiedSuccessors.fallthrough successors; VerifiedSuccessors.branch_target successors;
     VerifiedSuccessors.jump_target successors].

(** [while let Some(position) = worklist.pop_front()].  An instruction is
    visited once and pushes at most three entries. *)
Fixpoint exception_loop (control_flow : VerifiedControlFlow) (fuel : nat)
    (visited retained : list bool) (worklist : list nat) : leaf (list bool) :=
  match worklist with
  | [] => Ok retained
  | position :: worklist =>
      match fuel with
      | O => Err LeafStuck
      | S fuel =>
          seen ← ok_or (visited !! position)
            (invariant_error "structural exception work item resolves to an instruction" None);
          if seen : bool then exception_loop control_flow fuel visited retained worklist else
          let visited := <[position := true]> visited in
          retained ← set_or_panic retained position true;
          verified ← get_or_panic (instructions control_flow) position;
          worklist ← push_structural_successors visited worklist verified;
          exception_loop control_flow fuel visited retained worklist
      end
  end.

Definition retain_exception_components (control_flow : VerifiedControlFlow)
    (executable retained : list bool) : leaf (list bool) :=
  let instruction_count := length (instructions control_flow) in
  reserved_vec (Z.of_nat instruction_count) "CFG structural exception components" ;;
  let visited := replicate instruction_count false in
  worklist ← try_fold (λ worklist '(position, verified),
      executed ← get_or_panic executable position;
      if negb executed && bool_decide (opcode_at verified = FinalOpcode.Catch) then
        reserve_structural_worklist worklist ;; Ok (worklist ++ [position])
      else Ok worklist)
    [] (enumerate (instructions control_flow));
  exception_loop control_flow (4 * instruction_count) visited retained worklist.

Definition ordinary_backward_target (verified : VerifiedInstruction) (position : nat) :
    leaf (option nat) :=
  if negb (is_ordinary_branch (opcode_at verified)) then Ok None else
  match (match VerifiedSuccessors.jump_target (successors verified) with
         | Some target => Some target
         | None => VerifiedSuccessors.branch_target (successors verified)
         end) with
  | None => Ok None
  | Some target =>
      target ← usize_from_u32 target "optimizer structural back-edge target";
      Ok (if (target <? position)%nat then Some target else None)
  end.

Definition is_retained_loop_activation_target (control_flow : VerifiedControlFlow)
    (retained : list bool) (target : nat) : leaf bool :=
  if negb (default false (retained !! target)) then Ok false else
  verified ← ok_or (instructions control_flow !! target)
    (invariant_error "optimizer structural back edge resolves to an instruction" None);
  Ok (bool_decide (opcode_at verified = FinalOpcode.SetLocUninitialized)).

(** One turn of the first loop: a back edge that stays certifies its target. *)
Definition certify_target (control_flow : VerifiedControlFlow) (branch_outcomes : list (option bool))
    (retained certified_targets : list bool) (entry : nat * VerifiedInstruction) : leaf (list bool) :=
  let '(position, verified) := entry in
  kept ← get_or_panic retained position;
  if negb kept then Ok certified_targets else
  outcome ← get_or_panic branch_outcomes position;
  if decide (outcome = Some false) then Ok certified_targets else
  target ← ordinary_backward_target verified position;
  match target with
  | None => Ok certified_targets
  | Some target =>
      activates ← is_retained_loop_activation_target control_flow retained target;
      if activates : bool then set_or_panic certified_targets target true else Ok certified_targets
  end.

(** One turn of the second loop: an uncertified target keeps a back edge. *)
Definition keep_certificate (control_flow : VerifiedControlFlow) (state : list bool * list bool)
    (position : nat) : leaf (list bool * list bool) :=
  let '(retained, certified_targets) := state in
  kept ← get_or_panic retained position;
  if kept : bool then Ok state else
  verified ← get_or_panic (instructions control_flow) position;
  target ← ordinary_backward_target verified position;
  match target with
  | None => Ok state
  | Some target =>
      activates ← is_retained_loop_activation_target control_flow retained target;
      if negb activates then Ok state else
      certified ← get_or_panic certified_targets target;
      if certified : bool then Ok state else
      retained ← set_or_panic retained position true;
      certified_targets ← set_or_panic certified_targets target true;
      Ok (retained, certified_targets)
  end.

Definition retain_loop_activation_certificates (control_flow : VerifiedControlFlow)
    (branch_outcomes : list (option bool)) (retained : list bool) : leaf (list bool) :=
  reserved_vec (len retained) "CFG loop activation targets" ;;
  certified_targets ← try_fold (certify_target control_flow branch_outcomes retained)
    (replicate (length retained) false) (enumerate (instructions control_flow));
  fst <$> try_fold (keep_certificate control_flow) (retained, certified_targets)
    (rev (seq 0 (length (instructions control_flow)))).

Definition retained_instructions (control_flow : VerifiedControlFlow) (executable : list bool)
    (branch_outcomes : list (option bool)) : leaf (list bool) :=
  reserved_vec (len executable) "CFG retained instructions" ;;
  retained ← retain_binding_policy_anchors control_flow executable;
  retained ← retain_function_initializer_pairs control_flow retained;
  retained ← retain_exception_components control_flow executable retained;
  retain_loop_activation_certificates control_flow branch_outcomes retained.
End retention.

(** ** Facts about the control flow *)

Record ControlFlowFacts : Set := mkFacts {
  branch_outcomes : list (option bool);
  retained : list bool }.

Module ControlFlowFacts.
Definition branch_outcome (self : ControlFlowFacts) (position : nat) : option bool :=
  mjoin (branch_outcomes self !! position).
Definition is_retained (self : ControlFlowFacts) (position : nat) : bool :=
  default false (retained self !! position).
Definition instruction_count (self : ControlFlowFacts) : nat := length (retained self).
Definition changes_control_flow (self : ControlFlowFacts) : bool :=
  existsb (λ outcome, bool_decide (is_Some outcome)) (branch_outcomes self)
  || existsb negb (retained self).
End ControlFlowFacts.

Definition analyze_control_flow `{Allocator} (control_flow : VerifiedControlFlow)
    (inputs : ConstantInputs) (limits : VerificationLimits) : leaf ControlFlowFacts :=
  let instruction_count := Z.of_nat (length (instructions control_flow)) in
  entry_stacks ← propagate_constants control_flow inputs limits;
  reserved_vec instruction_count "CFG constant branch outcomes" ;;
  reserved_vec instruction_count "CFG executable instructions" ;;
  let branch_outcomes :=
    map (λ '(position, verified),
      mjoin (entry_stacks !! position) ≫= constant_branch_outcome (opcode_at verified))
      (enumerate (instructions control_flow)) in
  let executable :=
    map (λ '(position, verified), bool_decide (is_Some (mjoin (entry_stacks !! position))))
      (enumerate (instructions control_flow)) in
  retained ← retained_instructions control_flow executable branch_outcomes;
  Ok (mkFacts branch_outcomes retained).
