(* ===== verification/OptimizerRewrite.v ===== *)
(** * The optimizer's rewriting

    Models [optimizer/metadata.rs] and [optimizer/rewrite.rs]: the retained
    instructions are planned again through the symbolic assembler, a branch
    with a known outcome as a [drop] and, where it is taken, a [goto]; the
    source table, the instruction indices and boundaries and the stack anchors
    follow the new numbering.  [optimize_control_flow] of [optimizer.rs]
    closes the file. *)

From S2P Require Import Prelude Opcode Codec Function VerifierModel Verifier Assembler CompilerString AbstractValues Optimizer.
From stdpp Require Import list.
Local Open Scope Z_scope.
Import LeafCompilationError.

(** ** Renumbering *)

Section metadata.
Context `{Allocator}.

Definition remap_sources (instruction_pcs : list BytecodePc) (origins : list nat)
    (sources : list SourceInstruction) : leaf (list SourceInstruction) :=
  reserved_vec (len instruction_pcs) "optimized source instructions" ;;
  try_map (λ '(pc, origin),
    source ← ok_or (sources !! origin)
      (invariant_error "optimized instruction origin resolves to a source span" None);
    Ok (mkSourceInstruction pc (source_span source)))
    (zip instruction_pcs origins).

Definition remap_instruction_metadata (old_indices prefix_instruction_counts : list Z)
    (facts : ControlFlowFacts) : leaf (list Z) :=
  reserved_vec (len old_indices) "optimized instruction metadata" ;;
  try_fold (λ remapped old_index,
    position ← usize_from_u32 old_index "compiler instruction metadata index";
    reject_if (ControlFlowFacts.instruction_count facts <=? position)%nat
      (invariant_error "compiler instruction metadata resolves to a verified instruction" None) ;;
    if negb (ControlFlowFacts.is_retained facts position) then Ok remapped else
    new_index ← ok_or (prefix_instruction_counts !! position)
      (invariant_error "compiler instruction metadata resolves before a verified instruction" None);
    Ok (remapped ++ [new_index]))
    [] old_indices.

Definition remap_boundary (boundary : Z) (prefix_instruction_counts : list Z) : leaf Z :=
  boundary ← usize_from_u32 boundary "compiler instruction boundary";
  ok_or (prefix_instruction_counts !! boundary)
    (invariant_error "compiler instruction boundary resolves in optimized control flow" None).

Definition remap_stack_anchor (control_flow : VerifiedControlFlow)
    (prefix_instruction_counts : list Z) (instruction_pcs : list BytecodePc)
    (facts : ControlFlowFacts) (remapped : list ResolvedStackAnchor) (anchor : ResolvedStackAnchor) :
    leaf (list ResolvedStackAnchor) :=
  let invariant name := invariant_error name (Some (anchor_span anchor)) in
  old_index ← ok_or (VerifiedControlFlowQueries.instruction_index_at control_flow (anchor_pc anchor))
    (invariant "pre-optimization statement anchor resolves to a verified instruction");
  old_index ← usize_from_u32 old_index "statement anchor instruction index";
  if negb (ControlFlowFacts.is_retained facts old_index) then Ok remapped else
  new_index ← ok_or (prefix_instruction_counts !! old_index)
    (invariant "statement anchor resolves to an optimized instruction boundary");
  new_index ← usize_from_u32 new_index "optimized statement anchor index";
  pc ← ok_or (instruction_pcs !! new_index)
    (invariant "optimized statement anchor resolves to a final instruction");
  Ok (remapped ++ [mkResolvedAnchor pc (anchor_span anchor) (anchor_depth anchor)]).

Definition remap_stack_anchors (control_flow : VerifiedControlFlow)
    (anchors : list ResolvedStackAnchor) (prefix_instruction_counts : list Z)
    (instruction_pcs : list BytecodePc) (facts : ControlFlowFacts) : leaf (list ResolvedStackAnchor) :=
  reserved_vec (len anchors) "optimized statement stack anchors" ;;
  try_fold (remap_stack_anchor control_flow prefix_instruction_counts instruction_pcs facts) [] anchors.
End metadata.

Definition validate_source_instructions (control_flow : VerifiedControlFlow)
    (source_instructions : list SourceInstruction) : leaf unit :=
  reject_if (negb (length source_instructions =? length (instructions control_flow))%nat)
    (invariant_error "pre-optimization source table covers every verified instruction"
       (source_span <$> last source_instructions)) ;;
  try_for_each (λ '(source, verified),
    reject_if (negb (source_pc source =? pc (decoded verified)))
      (invariant_error "pre-optimization source table follows verified instruction PCs"
         (Some (source_span source))))
    (zip source_instructions (instructions control_flow)).

(** ** Re-emission *)

Definition symbolic_branch_kind (opcode : FinalOpcode) : option BranchKind :=
  match opcode with
  | FinalOpcode.IfFalse | FinalOpcode.IfFalse8 => Some BranchKind.IfFalse
  | FinalOpcode.IfTrue | FinalOpcode.IfTrue8 => Some BranchKind.IfTrue
  | FinalOpcode.Goto | FinalOpcode.Goto8 | FinalOpcode.Goto16 => Some BranchKind.Goto
  | FinalOpcode.Catch => Some BranchKind.Catch
  | FinalOpcode.Gosub => Some BranchKind.Gosub
  | _ => None
  end.

Definition is_with_branch (opcode : FinalOpcode) : bool :=
  match opcode with
  | FinalOpcode.WithGetVar | FinalOpcode.WithPutVar | FinalOpcode.WithDeleteVar
  | FinalOpcode.WithMakeRef | FinalOpcode.WithGetRef => true
  | _ => false
  end.

(** [map_err(|source| BytecodeAssembly { span: Some(span), source })] *)
Definition assembly {A} (span : Span) (m : assembled A) : leaf A :=
  map_err (λ failure, match failure with
                      | Failed source => Leaf (BytecodeAssembly (Some span) source)
                      | Stuck => LeafStuck
                      end) m.

Definition label_for (labels : list (option AssemblerLabel)) (target : Z) : leaf AssemblerLabel :=
  target ← usize_from_u32 target "optimized branch target";
  ok_or (mjoin (labels !! target))
    (invariant_error "retained optimized branch target has a symbolic label" None).

Definition emitted_span (instruction_index : Z) (origins : list nat)
    (sources : list SourceInstruction) : leaf Span :=
  index ← usize_from_u32 instruction_index "optimized assembler instruction index";
  origin ← ok_or (origins !! index)
    (invariant_error "optimized assembler failure resolves to an instruction origin" None);
  source ← ok_or (sources !! origin)
    (invariant_error "optimized assembler failure origin resolves to a source span" None);
  Ok (source_span source).

(** The plan under construction and the origin of each planned instruction. *)
Notation emission := (BytecodeAssembler * list nat)%type.

Section rewrite.
Context `{Allocator}.

Definition push_origin (origins : list nat) (origin : nat) : leaf (list nat) :=
  reserve "optimized instruction origins" (len origins) 1
    (capacity_error "optimized instruction origins") ;;
  Ok (origins ++ [origin]).

Definition emit_instruction (state : emission) (origin : nat) (span : Span) (opcode : FinalOpcode)
    (operands : Operands) : leaf emission :=
  let '(plan, origins) := state in
  '(_, plan) ← assembly span (push plan opcode operands);
  origins ← push_origin origins origin;
  Ok (plan, origins).

Definition emit_branch (state : emission) (origin : nat) (span : Span) (kind : BranchKind)
    (target : AssemblerLabel) : leaf emission :=
  let '(plan, origins) := state in
  '(_, plan) ← assembly span (branch plan kind target);
  origins ← push_origin origins origin;
  Ok (plan, origins).

Definition emit_disconnected_terminal (state : emission) (origin : nat) (span : Span)
    (function_kind : FunctionKind) : leaf emission :=
  if decide (function_kind = FunctionKind.Normal) then
    emit_instruction state origin span FinalOpcode.ReturnUndef Operands.None
  else
    state ← emit_instruction state origin span FinalOpcode.Undefined Operands.None;
    emit_instruction state origin span FinalOpcode.ReturnAsync Operands.None.

(** The loop of [allocate_labels]. *)
Fixpoint allocate_labels_from (plan : BytecodeAssembler) (facts : ControlFlowFacts) (position : nat)
    (sources : list SourceInstruction) :
    leaf (BytecodeAssembler * list (option AssemblerLabel) * list Span) :=
  match sources with
  | [] => Ok (plan, [], [])
  | source :: sources =>
      if negb (ControlFlowFacts.is_retained facts position) then
        '(plan, labels, spans) ← allocate_labels_from plan facts (S position) sources;
        Ok (plan, None :: labels, spans)
      else
        '(label, plan) ← assembly (source_span source) (new_label plan);
        '(plan, labels, spans) ← allocate_labels_from plan facts (S position) sources;
        Ok (plan, Some label :: labels, source_span source :: spans)
  end.

Definition allocate_labels (plan : BytecodeAssembler) (sources : list SourceInstruction)
    (facts : ControlFlowFacts) :
    leaf (BytecodeAssembler * list (option AssemblerLabel) * list Span) :=
  reserved_vec (len sources) "optimized CFG labels" ;;
  reserved_vec (len sources) "optimized CFG label spans" ;;
  allocate_labels_from plan facts 0 sources.

Definition emit_rewritten_instruction (state : emission) (labels : list (option AssemblerLabel))
    (position : nat) (verified : VerifiedInstruction) (outcome : option bool) (span : Span) :
    leaf emission :=
  let instruction := instruction (decoded verified) in
  let opcode := Instruction.opcode instruction in
  let successors := successors verified in
  match outcome with
  | Some taken =>
      state ← emit_instruction state position span FinalOpcode.Drop Operands.None;
      if taken : bool then
        target ← required_successor (VerifiedSuccessors.branch_target successors);
        fallthrough ← required_successor (VerifiedSuccessors.fallthrough successors);
        if negb (target =? fallthrough) then
          label ← label_for labels target;
          emit_branch state position span BranchKind.Goto label
        else Ok state
      else Ok state
  | None =>
      match symbolic_branch_kind opcode with
      | Some kind =>
          let target := match successors with
                        | VerifiedSuccessors.Branch _ _ => VerifiedSuccessors.branch_target successors
                        | VerifiedSuccessors.Jump _ => VerifiedSuccessors.jump_target successors
                        | VerifiedSuccessors.Fallthrough _ | VerifiedSuccessors.Terminate => None
                        end in
          target ← required_successor target;
          label ← label_for labels target;
          emit_branch state position span kind label
      | None =>
          if is_with_branch opcode then
            match Instruction.operands instruction with
            | Operands.AtomLabelU8 atom _ value =>
                target ← required_successor (VerifiedSuccessors.branch_target successors);
                label ← label_for labels target;
                let '(plan, origins) := state in
                '(_, plan) ← assembly span (with_branch plan opcode atom value label);
                origins ← push_origin origins position;
                Ok (plan, origins)
            | _ => invalid_verified_operand
            end
          else emit_instruction state position span opcode (Instruction.operands instruction)
      end
  end.

Definition finish_assembler (plan : BytecodeAssembler) (origins : list nat)
    (sources : list SourceInstruction) (label_spans : list Span) : leaf AssembledBytecode :=
  match finish plan with
  | Ok assembly => Ok assembly
  | Err (Failed (AssemblerError.Encoding instruction_index source)) =>
      span ← emitted_span instruction_index origins sources;
      Err (Leaf (BytecodeEncoding span source))
  | Err (Failed source) =>
      let span :=
        match (index ← AssemblerError.error_instruction_index source;
               match emitted_span index origins sources with Ok span => Some span | Err _ => None end) with
        | Some span => Some span
        | None => index ← AssemblerError.error_label_index source; label_spans !! Z.to_nat index
        end in
      Err (Leaf (BytecodeAssembly span source))
  | Err Stuck => Err LeafStuck
  end.

Record RebuiltInstructions : Set := mkRebuilt {
  rebuilt_bytecode : list Z;
  rebuilt_pcs : list BytecodePc;
  rebuilt_origins : list nat;
  prefix_counts : list Z }.

(** The mutable locals of the emission loop. *)
Record EmissionState : Set := mkEmission {
  emitted : emission;
  boundaries : list Z;
  last_retained : option nat }.

(** One turn of the loop over the instructions. *)
Definition emit_position (labels : list (option AssemblerLabel)) (sources : list SourceInstruction)
    (facts : ControlFlowFacts) (state : EmissionState) (entry : nat * VerifiedInstruction) :
    leaf EmissionState :=
  let '(position, verified) := entry in
  '(emitted, last_retained) ←
    if ControlFlowFacts.is_retained facts position then
      source ← get_or_panic sources position;
      let span := source_span source in
      label ← ok_or (mjoin (labels !! position))
        (invariant_error "retained optimized instruction has a symbolic label" (Some span));
      let '(plan, origins) := emitted state in
      plan ← assembly span (bind plan label);
      emitted ← emit_rewritten_instruction (plan, origins) labels position verified
        (ControlFlowFacts.branch_outcome facts position) span;
      Ok (emitted, Some position)
    else Ok (emitted state, last_retained state);
  boundary ← u32_from_usize (length (snd emitted)) "optimized instruction boundary";
  Ok (mkEmission emitted (boundaries state ++ [boundary]) last_retained).

Definition is_fallthrough (s : VerifiedSuccessors) : bool :=
  match s with VerifiedSuccessors.Fallthrough _ => true | _ => false end.

(** [*prefix_counts.last_mut()? = boundary] *)
Definition set_last_boundary (boundaries : list Z) (boundary : Z) (span : Span) : leaf (list Z) :=
  '(rest, _) ← ok_or (vec_pop boundaries)
    (invariant_error "optimized instruction boundaries retain their final boundary" (Some span));
  Ok (rest ++ [boundary]).

(** The terminal after a last retained instruction that falls through. *)
Definition close_emission (control_flow : VerifiedControlFlow) (sources : list SourceInstruction)
    (state : EmissionState) : leaf EmissionState :=
  match last_retained state with
  | None => Ok state
  | Some position =>
      verified ← get_or_panic (instructions control_flow) position;
      if is_fallthrough (successors verified) then
        source ← get_or_panic sources position;
        let span := source_span source in
        emitted ← emit_disconnected_terminal (emitted state) position span
          (kind (function_header control_flow));
        boundary ← u32_from_usize (length (snd emitted)) "optimized final instruction boundary";
        boundaries ← set_last_boundary (boundaries state) boundary span;
        Ok (mkEmission emitted boundaries (last_retained state))
      else Ok state
  end.

(** [identity] is the allocation of the new assembler. *)
Definition assemble_optimized_control_flow (identity : Z) (control_flow : VerifiedControlFlow)
    (sources : list SourceInstruction) (facts : ControlFlowFacts) (limits : VerificationLimits) :
    leaf RebuiltInstructions :=
  let instruction_count := len (instructions control_flow) in
  let assembler_limits := mkAssemblerLimits (max_bytecode_bytes_per_function limits)
    (max_instructions_per_function limits) (max_transfer_evaluations limits) in
  '(plan, labels, label_spans) ← allocate_labels (with_limits identity assembler_limits) sources facts;
  reserved_vec (instruction_count + 1) "optimized instruction origins" ;;
  reserved_vec (instruction_count + 1) "optimized instruction boundaries" ;;
  state ← try_fold (emit_position labels sources facts) (mkEmission (plan, []) [0] None)
    (enumerate (instructions control_flow));
  state ← close_emission control_flow sources state;
  let '(plan, origins) := emitted state in
  assembled ← finish_assembler plan origins sources label_spans;
  reject_if (negb (length (instruction_pcs assembled) =? length origins)%nat)
    (invariant_error "optimized assembler returns one PC per emitted instruction"
       (source_span <$> last sources)) ;;
  Ok (mkRebuilt (assembled_bytecode assembled) (instruction_pcs assembled) origins (boundaries state)).

Record OptimizedControlFlow : Set := mkOptimized {
  optimized_bytecode : list Z;
  optimized_sources : list SourceInstruction;
  optimized_eval_reference_calls : list Z;
  optimized_parameter_end : option Z;
  optimized_prefix_start : Z;
  optimized_anchors : list ResolvedStackAnchor }.

Definition rebuild_optimized_control_flow (identity : Z) (control_flow : VerifiedControlFlow)
    (source_instructions : list SourceInstruction) (eval_reference_call_instructions : list Z)
    (parameter_initialization_end : option Z) (function_initializer_prefix_start : Z)
    (stack_anchors : list ResolvedStackAnchor) (facts : ControlFlowFacts)
    (limits : VerificationLimits) : leaf OptimizedControlFlow :=
  reject_if (negb (ControlFlowFacts.instruction_count facts =? length (instructions control_flow))%nat)
    (invariant_error "CFG optimization facts cover every verified instruction" None) ;;
  rebuilt ← assemble_optimized_control_flow identity control_flow source_instructions facts limits;
  let counts := prefix_counts rebuilt in
  sources ← remap_sources (rebuilt_pcs rebuilt) (rebuilt_origins rebuilt) source_instructions;
  eval_reference_calls ← remap_instruction_metadata eval_reference_call_instructions counts facts;
  parameter_end ← match parameter_initialization_end with
                  | Some boundary => Some <$> remap_boundary boundary counts
                  | None => Ok None
                  end;
  prefix_start ← remap_boundary function_initializer_prefix_start counts;
  anchors ← remap_stack_anchors control_flow stack_anchors counts (rebuilt_pcs rebuilt) facts;
  Ok (mkOptimized (rebuilt_bytecode rebuilt) sources eval_reference_calls parameter_end prefix_start anchors).

(** [Ok(None)] keeps the control flow as it is. *)
Definition optimize_control_flow (identity : Z) (control_flow : VerifiedControlFlow)
    (source_instructions : list SourceInstruction) (eval_reference_call_instructions : list Z)
    (parameter_initialization_end : option Z) (function_initializer_prefix_start : Z)
    (stack_anchors : list ResolvedStackAnchor) (inputs : ConstantInputs)
    (limits : VerificationLimits) : leaf (option OptimizedControlFlow) :=
  validate_source_instructions control_flow source_instructions ;;
  facts ← analyze_control_flow control_flow inputs limits;
  if negb (ControlFlowFacts.changes_control_flow facts) then Ok None else
  if existsb (λ '(position, verified),
       negb (ControlFlowFacts.is_retained facts position) && is_closure_opcode (opcode_at verified))
       (enumerate (instructions control_flow)) then Ok None else
  Some <$> rebuild_optimized_control_flow identity control_flow source_instructions
    eval_reference_call_instructions parameter_initialization_end function_initializer_prefix_start
    stack_anchors facts limits.
End rewrite.
