(* ===== verification/ControlFlow.v ===== *)
(** * Planned and finished control flow

    Models [crates/fusor-compiler/src/lowering/control_flow.rs]: the plan a
    function body is lowered into, with a source span per instruction and a
    depth expected at statement labels, its finishing into bytecode, and the
    two-stage verification around the optimizer.  A method that fails leaves
    its receiver unused (the lowering stops), so the changed plan is part of
    the success only. *)

From S2P Require Import Prelude Opcode Codec Function VerifierModel Verifier Assembler CompilerString AbstractValues Optimizer OptimizerRewrite.
From stdpp Require Import list.
Local Open Scope Z_scope.
Import LeafCompilationError.

(** ** Data *)

Record StackAnchor : Set := mkStackAnchor {
  anchored_instruction : nat;
  anchored_span : Span;
  expected_depth : Z }.

Record CompilerLabel : Set := mkCompilerLabel {
  assembler_label : AssemblerLabel;
  owner_span : Span;
  expected_stack_depth : option Z }.

Record PlannedInstruction : Set := mkPlannedInstruction {
  planned_opcode : FinalOpcode;
  planned_operands : Operands;
  planned_span : Span;
  eval_reference_call : bool }.

Module PlannedInstruction.
Definition new (opcode : FinalOpcode) (operands : Operands) (span : Span) : PlannedInstruction :=
  mkPlannedInstruction opcode operands span false.
Definition with_eval_reference_call (self : PlannedInstruction) : PlannedInstruction :=
  mkPlannedInstruction (planned_opcode self) (planned_operands self) (planned_span self) true.
End PlannedInstruction.

Record PlannedControlFlow : Set := mkPlanned {
  assembler : BytecodeAssembler;
  planned_max_instructions : Z;
  instruction_spans : list Span;
  eval_reference_call_instructions : list Z;
  parameter_initialization_end : option Z;
  function_initializer_prefix_start : option Z;
  label_spans : list Span;
  stack_anchors : list StackAnchor;
  last_instruction_can_fall_through : option bool;
  label_bound_after_last_instruction : bool;
  statement_stack_base : Z }.

Record FinishedControlFlow : Set := mkFinished {
  finished_bytecode : list Z;
  finished_sources : list SourceInstruction;
  finished_eval_reference_calls : list Z;
  finished_parameter_end : option Z;
  finished_prefix_start : Z;
  finished_anchors : list ResolvedStackAnchor }.

Record VerifiedFinishedControlFlow := mkVerifiedFinished {
  source_instructions : list SourceInstruction;
  control_flow : VerifiedControlFlow;
  verified_eval_reference_calls : list Z;
  verified_parameter_end : option Z;
  verified_prefix_start : Z }.

Record ControlFlowVerificationInputs : Set := mkVerificationInputs {
  inputs_capture_layout : CompilerCaptureLayout;
  inputs_constant_layout : CompilerConstantLayout;
  inputs_constants : ConstantInputs }.

(** Functional updates, one per field the methods assign. *)
Definition set_assembler (p : PlannedControlFlow) (a : BytecodeAssembler) : PlannedControlFlow :=
  mkPlanned a (planned_max_instructions p) (instruction_spans p) (eval_reference_call_instructions p)
    (parameter_initialization_end p) (function_initializer_prefix_start p) (label_spans p)
    (stack_anchors p) (last_instruction_can_fall_through p) (label_bound_after_last_instruction p)
    (statement_stack_base p).
Definition set_eval_reference_calls (p : PlannedControlFlow) (l : list Z) : PlannedControlFlow :=
  mkPlanned (assembler p) (planned_max_instructions p) (instruction_spans p) l
    (parameter_initialization_end p) (function_initializer_prefix_start p) (label_spans p)
    (stack_anchors p) (last_instruction_can_fall_through p) (label_bound_after_last_instruction p)
    (statement_stack_base p).
Definition set_parameter_end (p : PlannedControlFlow) (boundary : Z) : PlannedControlFlow :=
  mkPlanned (assembler p) (planned_max_instructions p) (instruction_spans p)
    (eval_reference_call_instructions p) (Some boundary) (function_initializer_prefix_start p)
    (label_spans p) (stack_anchors p) (last_instruction_can_fall_through p)
    (label_bound_after_last_instruction p) (statement_stack_base p).
Definition set_prefix_start (p : PlannedControlFlow) (boundary : Z) : PlannedControlFlow :=
  mkPlanned (assembler p) (planned_max_instructions p) (instruction_spans p)
    (eval_reference_call_instructions p) (parameter_initialization_end p) (Some boundary)
    (label_spans p) (stack_anchors p) (last_instruction_can_fall_through p)
    (label_bound_after_last_instruction p) (statement_stack_base p).
Definition push_label_span (p : PlannedControlFlow) (span : Span) : PlannedControlFlow :=
  mkPlanned (assembler p) (planned_max_instructions p) (instruction_spans p)
    (eval_reference_call_instructions p) (parameter_initialization_end p)
    (function_initializer_prefix_start p) (label_spans p ++ [span]) (stack_anchors p)
    (last_instruction_can_fall_through p) (label_bound_after_last_instruction p)
    (statement_stack_base p).
Definition push_stack_anchor (p : PlannedControlFlow) (anchor : StackAnchor) : PlannedControlFlow :=
  mkPlanned (assembler p) (planned_max_instructions p) (instruction_spans p)
    (eval_reference_call_instructions p) (parameter_initialization_end p)
    (function_initializer_prefix_start p) (label_spans p) (stack_anchors p ++ [anchor])
    (last_instruction_can_fall_through p) (label_bound_after_last_instruction p)
    (statement_stack_base p).
Definition set_label_bound (p : PlannedControlFlow) : PlannedControlFlow :=
  mkPlanned (assembler p) (planned_max_instructions p) (instruction_spans p)
    (eval_reference_call_instructions p) (parameter_initialization_end p)
    (function_initializer_prefix_start p) (label_spans p) (stack_anchors p)
    (last_instruction_can_fall_through p) true (statement_stack_base p).
Definition set_stack_base (p : PlannedControlFlow) (base : Z) : PlannedControlFlow :=
  mkPlanned (assembler p) (planned_max_instructions p) (instruction_spans p)
    (eval_reference_call_instructions p) (parameter_initialization_end p)
    (function_initializer_prefix_start p) (label_spans p) (stack_anchors p)
    (last_instruction_can_fall_through p) (label_bound_after_last_instruction p) base.

(** One more planned instruction: its span, whether it falls through, and no
    label bound after it. *)
Definition push_instruction_span (p : PlannedControlFlow) (span : Span) (can_fall_through : bool) :
    PlannedControlFlow :=
  mkPlanned (assembler p) (planned_max_instructions p) (instruction_spans p ++ [span])
    (eval_reference_call_instructions p) (parameter_initialization_end p)
    (function_initializer_prefix_start p) (label_spans p) (stack_anchors p)
    (Some can_fall_through) false (statement_stack_base p).

(** ** Planning *)

(** [identity] is the allocation of the assembler. *)
Definition new_planned (identity : Z) (limits : VerificationLimits) : PlannedControlFlow :=
  mkPlanned
    (with_limits identity (mkAssemblerLimits (max_bytecode_bytes_per_function limits)
       (max_instructions_per_function limits) (max_transfer_evaluations limits)))
    (max_instructions_per_function limits) [] [] None None [] [] None false 0.

Definition mark_parameter_initialization_end (self : PlannedControlFlow) (span : Span) :
    leaf PlannedControlFlow :=
  reject_if (bool_decide (is_Some (parameter_initialization_end self)))
    (invariant_error "parameter initialization has one instruction boundary" (Some span)) ;;
  boundary ← u32_from_usize (length (instruction_spans self))
    "parameter initialization instruction boundary";
  Ok (set_parameter_end self boundary).

Definition mark_function_initializer_prefix_start (self : PlannedControlFlow) (span : Span) :
    leaf PlannedControlFlow :=
  reject_if (bool_decide (is_Some (function_initializer_prefix_start self)))
    (invariant_error "function initializers have one entry-prefix boundary" (Some span)) ;;
  boundary ← u32_from_usize (length (instruction_spans self))
    "function initializer entry-prefix boundary";
  Ok (set_prefix_start self boundary).

Definition names_eval_instruction (opcode : FinalOpcode) (operands : Operands) : bool :=
  match opcode, operands with
  | (FinalOpcode.Eval | FinalOpcode.TailEval), Operands.NPopU16 _ _ => true
  | (FinalOpcode.ApplyEval | FinalOpcode.TailApplyEval), Operands.U16 _ => true
  | _, _ => false
  end.

Definition ends_path (opcode : FinalOpcode) : bool :=
  match opcode with
  | FinalOpcode.Ret | FinalOpcode.Return | FinalOpcode.ReturnUndef | FinalOpcode.ReturnAsync
  | FinalOpcode.TailCall | FinalOpcode.TailCallMethod | FinalOpcode.TailApply
  | FinalOpcode.TailEval | FinalOpcode.TailApplyEval | FinalOpcode.Throw => true
  | _ => false
  end.

Section planning.
Context `{Allocator}.

Definition emit (self : PlannedControlFlow) (instruction : PlannedInstruction) :
    leaf PlannedControlFlow :=
  let span := planned_span instruction in
  reject_if (eval_reference_call instruction
             && negb (names_eval_instruction (planned_opcode instruction) (planned_operands instruction)))
    (invariant_error "eval reference-call metadata names an eval-family instruction" (Some span)) ;;
  '(_, plan) ← assembly span
    (push (assembler self) (planned_opcode instruction) (planned_operands instruction));
  let self := set_assembler self plan in
  self ← if eval_reference_call instruction then
           index ← u32_from_usize (length (instruction_spans self))
             "eval reference-call instruction indices";
           Ok (set_eval_reference_calls self (eval_reference_call_instructions self ++ [index]))
         else Ok self;
  Ok (push_instruction_span self span (negb (ends_path (planned_opcode instruction)))).

Definition ensure_additional_instruction_capacity (self : PlannedControlFlow) (additional : Z)
    (span : Span) : leaf unit :=
  current ← ok_or (try_u64 (len (instruction_spans self))) (capacity_error "planned instruction count");
  required ← ok_or (checked_add_u64 current additional) (capacity_error "planned instruction count");
  let limit := planned_max_instructions self in
  reject_if (limit <? required)
    (Leaf (BytecodeAssembly (Some span)
       (AssemblerError.LimitExceeded Instructions (planned_max_instructions self) limit (limit + 1)))).

(** Whether the next emitted instruction has a local fallthrough entry. *)
Definition current_path_can_fall_through (self : PlannedControlFlow) : bool :=
  label_bound_after_last_instruction self
  || match last_instruction_can_fall_through self with
     | Some can_fall_through => can_fall_through
     | None => true
     end.

Definition new_label_with_expected_depth (self : PlannedControlFlow) (span : Span)
    (expected_stack_depth : option Z) : leaf (CompilerLabel * PlannedControlFlow) :=
  reserve "label source spans" (len (label_spans self)) 1 (capacity_error "label source spans") ;;
  '(label, plan) ← assembly span (new_label (assembler self));
  Ok (mkCompilerLabel label span expected_stack_depth, push_label_span (set_assembler self plan) span).

Definition new_compiler_label (self : PlannedControlFlow) (span : Span) :
    leaf (CompilerLabel * PlannedControlFlow) :=
  new_label_with_expected_depth self span None.

Definition new_statement_label (self : PlannedControlFlow) (span : Span) :
    leaf (CompilerLabel * PlannedControlFlow) :=
  new_label_with_expected_depth self span (Some (statement_stack_base self)).

Definition new_statement_label_with_offset (self : PlannedControlFlow) (span : Span) (offset : Z) :
    leaf (CompilerLabel * PlannedControlFlow) :=
  expected ← ok_or (checked_add_u32 (statement_stack_base self) offset)
    (capacity_error "statement operand-stack base");
  new_label_with_expected_depth self span (Some expected).

Definition push_statement_stack_base (self : PlannedControlFlow) : leaf PlannedControlFlow :=
  base ← ok_or (checked_add_u32 (statement_stack_base self) 1)
    (capacity_error "statement operand-stack base");
  Ok (set_stack_base self base).

Definition pop_statement_stack_base (self : PlannedControlFlow) (span : Span) :
    leaf PlannedControlFlow :=
  reject_if (statement_stack_base self <? 1)
    (invariant_error "statement operand-stack base is nonempty on exit" (Some span)) ;;
  Ok (set_stack_base self (statement_stack_base self - 1)).

Definition plan_branch (self : PlannedControlFlow) (kind : BranchKind) (target : CompilerLabel)
    (span : Span) : leaf PlannedControlFlow :=
  '(_, plan) ← assembly span (branch (assembler self) kind (assembler_label target));
  Ok (push_instruction_span (set_assembler self plan) span
        (match kind with BranchKind.Goto => false | _ => true end)).

Definition plan_with_branch (self : PlannedControlFlow) (opcode : FinalOpcode) (atom value : Z)
    (target : CompilerLabel) (span : Span) : leaf PlannedControlFlow :=
  '(_, plan) ← assembly span (with_branch (assembler self) opcode atom value (assembler_label target));
  Ok (push_instruction_span (set_assembler self plan) span true).

Definition plan_bind (self : PlannedControlFlow) (label : CompilerLabel) : leaf PlannedControlFlow :=
  plan ← assembly (owner_span label) (bind (assembler self) (assembler_label label));
  let self := set_assembler self plan in
  let self := match expected_stack_depth label with
              | Some depth =>
                  push_stack_anchor self
                    (mkStackAnchor (length (instruction_spans self)) (owner_span label) depth)
              | None => self
              end in
  Ok (set_label_bound self).

Definition ensure_terminal (self : PlannedControlFlow) (span : Span) : leaf PlannedControlFlow :=
  if current_path_can_fall_through self then
    emit self (PlannedInstruction.new FinalOpcode.ReturnUndef Operands.None span)
  else Ok self.

Definition ensure_generator_terminal (self : PlannedControlFlow) (span : Span) :
    leaf PlannedControlFlow :=
  if current_path_can_fall_through self then
    self ← emit self (PlannedInstruction.new FinalOpcode.Undefined Operands.None span);
    emit self (PlannedInstruction.new FinalOpcode.ReturnAsync Operands.None span)
  else Ok self.

(** A [LocalSlot] is its [u16] index. *)
Definition compact_get_local (slot : Z) : FinalOpcode * Operands :=
  if slot =? 0 then (FinalOpcode.GetLoc0, Operands.NoneLoc) else
  if slot =? 1 then (FinalOpcode.GetLoc1, Operands.NoneLoc) else
  if slot =? 2 then (FinalOpcode.GetLoc2, Operands.NoneLoc) else
  if slot =? 3 then (FinalOpcode.GetLoc3, Operands.NoneLoc) else
  if slot <=? 255 then (FinalOpcode.GetLoc8, Operands.Loc8 slot) else (FinalOpcode.GetLoc, Operands.Loc slot).

Definition ensure_script_terminal (self : PlannedControlFlow) (completion : Z) (span : Span) :
    leaf PlannedControlFlow :=
  if current_path_can_fall_through self then
    let '(opcode, operands) := compact_get_local completion in
    self ← emit self (PlannedInstruction.new opcode operands span);
    emit self (PlannedInstruction.new FinalOpcode.Return Operands.None span)
  else Ok self.

(** ** Finishing *)

Definition resolve_stack_anchor (instruction_pcs : list BytecodePc) (anchor : StackAnchor) :
    leaf ResolvedStackAnchor :=
  pc ← ok_or (instruction_pcs !! anchored_instruction anchor)
    (invariant_error "statement stack anchor resolves to a final instruction"
       (Some (anchored_span anchor)));
  Ok (mkResolvedAnchor pc (anchored_span anchor) (expected_depth anchor)).

Definition finish_plan (self : PlannedControlFlow) : leaf FinishedControlFlow :=
  let spans := instruction_spans self in
  reject_if (negb (statement_stack_base self =? 0))
    (invariant_error "statement operand-stack base returns to zero" (last spans)) ;;
  assembled ←
    match finish (assembler self) with
    | Ok assembled => Ok assembled
    | Err (Failed (AssemblerError.Encoding instruction_index source)) =>
        span ← ok_or (spans !! Z.to_nat instruction_index)
          (invariant_error "assembler encoding failure indexes a planned source span" None);
        Err (Leaf (BytecodeEncoding span source))
    | Err (Failed source) =>
        let span :=
          match (index ← AssemblerError.error_instruction_index source; spans !! Z.to_nat index) with
          | Some span => Some span
          | None => index ← AssemblerError.error_label_index source; label_spans self !! Z.to_nat index
          end in
        Err (Leaf (BytecodeAssembly span source))
    | Err Stuck => Err LeafStuck
    end;
  reject_if (negb (length (instruction_pcs assembled) =? length spans)%nat)
    (invariant_error "assembler returns one final PC per planned instruction" (last spans)) ;;
  anchors ← try_map (resolve_stack_anchor (instruction_pcs assembled)) (stack_anchors self);
  Ok (mkFinished (assembled_bytecode assembled)
        (zip_with mkSourceInstruction (instruction_pcs assembled) spans)
        (eval_reference_call_instructions self) (parameter_initialization_end self)
        (default 0 (function_initializer_prefix_start self)) anchors).

(** ** Verification *)

Definition exact_source_span (source_instructions : list SourceInstruction) (pc : BytecodePc) :
    option Span :=
  index ← binary_search_by_key source_pc pc source_instructions;
  source_span <$> source_instructions !! index.

Definition verify_staged_control_flow (bytecode : list Z) (domains : FunctionIndexDomains)
    (header : UnverifiedFunctionHeader) (capture_layout : CompilerCaptureLayout)
    (constant_layout : CompilerConstantLayout) (limits : VerificationLimits)
    (source_instructions : list SourceInstruction) : leaf VerifiedControlFlow :=
  match verify_compiler_control_flow
          (mkUnverifiedCompiler bytecode domains header (Some capture_layout) (Some constant_layout))
          limits with
  | Ok control_flow => Ok control_flow
  | Err source =>
      span ← match error_pc source with
             | Some pc =>
                 Some <$> ok_or (exact_source_span source_instructions pc)
                   (invariant_error "verifier instruction PC resolves to an exact source instruction" None)
             | None => Ok None
             end;
      related_span ←
        match error_kind source with
        | VerificationErrorKind.InconsistentStackAtJoin target _ _ _ =>
            Some <$> ok_or (exact_source_span source_instructions target)
              (invariant_error "verifier join target resolves to an exact source instruction" None)
        | _ => Ok None
        end;
      Err (Leaf (BytecodeVerification span related_span source))
  end.

Definition validate_stack_anchor (control_flow : VerifiedControlFlow) (anchor : ResolvedStackAnchor) :
    leaf unit :=
  let span := anchor_span anchor in
  index ← ok_or (VerifiedControlFlowQueries.instruction_index_at control_flow (anchor_pc anchor))
    (invariant_error "resolved statement stack anchor remains an instruction start" (Some span));
  instruction ← ok_or (VerifiedControlFlowQueries.instruction control_flow index)
    (invariant_error "resolved statement stack anchor has a verified instruction" (Some span));
  match entry_stack_depth instruction with
  | None => Ok tt
  | Some actual =>
      reject_if (negb (actual =? anchor_depth anchor))
        (Leaf (BytecodeStackInvariant span (anchor_pc anchor) (anchor_depth anchor) actual))
  end.

Definition validate_stack_anchors (control_flow : VerifiedControlFlow)
    (stack_anchors : list ResolvedStackAnchor) : leaf unit :=
  try_for_each (validate_stack_anchor control_flow) stack_anchors.

(** [identity] is the allocation of the optimizer's assembler. *)
Definition verify_with_inputs (identity : Z) (self : FinishedControlFlow)
    (domains : FunctionIndexDomains) (header : UnverifiedFunctionHeader)
    (inputs : ControlFlowVerificationInputs) (limits : VerificationLimits) :
    leaf VerifiedFinishedControlFlow :=
  let verify bytecode sources :=
    verify_staged_control_flow bytecode domains header (inputs_capture_layout inputs)
      (inputs_constant_layout inputs) limits sources in
  initial_control_flow ← verify (finished_bytecode self) (finished_sources self);
  optimized ← optimize_control_flow identity initial_control_flow (finished_sources self)
    (finished_eval_reference_calls self) (finished_parameter_end self) (finished_prefix_start self)
    (finished_anchors self) (inputs_constants inputs) limits;
  '(finished, control_flow) ←
    match optimized with
    | Some optimized =>
        control_flow ← verify (optimized_bytecode optimized) (optimized_sources optimized);
        Ok (mkFinished (optimized_bytecode optimized) (optimized_sources optimized)
              (optimized_eval_reference_calls optimized) (optimized_parameter_end optimized)
              (optimized_prefix_start optimized) (optimized_anchors optimized), control_flow)
    | None => Ok (self, initial_control_flow)
    end;
  validate_stack_anchors control_flow (finished_anchors finished) ;;
  Ok (mkVerifiedFinished (finished_sources finished) control_flow
        (finished_eval_reference_calls finished) (finished_parameter_end finished)
        (finished_prefix_start finished)).
End planning.
