(* ===== verification/OperandStack.v ===== *)
(** * The interpreter's operand stack

    Models the operand-stack helpers of [crates/fusor-runtime/src/vm/stack.rs],
    the arms of [execute_instruction] in [vm/execution.rs] that only touch the
    operand stack (literals, constants, stack permutations, the primitive
    predicates) or that move the frame along its verified successors
    (truthiness branches, [goto], [catch], [gosub], [ret]), the truth value of
    [runtime/heap.rs] and [value.rs], and the constants of
    [runtime/installation.rs] and [vm/bindings.rs] those arms push.  The
    identities the heap issues for a fresh object, closure or private name are
    an argument. *)

From S2P Require Import Prelude RuntimePrelude Opcode Codec VerifierModel JsStrings Arena BigInt BigIntText Values CompilerString AbstractValues.
From stdpp Require Import list.
Import StoredValue(StoredValue).
Local Open Scope Z_scope.

(** ** Entries *)

(** The payloads of a retained reference are opaque here. *)
Module OperandStackEntry.
Inductive OperandStackEntry : Set :=
| JavaScript (value : StoredValue)
| CapturedReference (index cell : Z)
| RealmGlobalReference (index reference : Z)
| CapturedReferenceAnchor
| Catch (handler : Z)
| ForOfCatch (active asynchronous : bool)
| FinallyReturn (continuation : Z).
End OperandStackEntry.
Import OperandStackEntry(OperandStackEntry).

Module EngineFault.
Inductive EngineFault : Set :=
| RuntimeInvariant (message : string)
| StackDepthMismatch (expected actual : Z)
| InvalidSuccessor
| UnreachableInstruction
| MissingInstruction (index : Z)
| MissingPoolEntry (pool : string) (index : Z)
| UnsupportedDispatch (opcode : FinalOpcode).
End EngineFault.
Notation EngineFault := EngineFault.EngineFault.

Notation engine A := (result EngineFault A).

(** ** Truth values *)

Definition primitive_to_boolean (self : StoredValue) : option bool :=
  match self with
  | StoredValue.Undefined | StoredValue.Null => Some false
  | StoredValue.Boolean value => Some value
  | StoredValue.Number value =>
      let value := JsNumber.as_f64 value in
      Some (negb (F64.eq value 0) && negb (F64.is_nan value))
  | StoredValue.BigInt value => Some (negb (BigInt.is_zero value))
  | StoredValue.String value => Some (negb (JsString.is_empty value))
  | StoredValue.Symbol _ => Some true
  | StoredValue.Function _ | StoredValue.Object _ => None
  end.

(** ** Installed constants *)

Record InstalledTemplateElement : Set := mkInstalledElement {
  installed_cooked : option Repr;
  installed_raw : Repr }.

Module InstalledConstant.
Inductive InstalledConstant : Set :=
| Number (value : JsNumber)
| String (value : Repr)
| BigInt (value : JsBigInt)
| TemplateObject (elements : list InstalledTemplateElement) (object : option ObjectId)
| Function (template : Z).
End InstalledConstant.
Import InstalledConstant(InstalledConstant).

Module InstallError.
Inductive InstallError : Set :=
| AllocationFailed (additional : Z)
| AuthorityInvariant (message : string)
| String (source : JsStringError)
| BigInt (source : BigIntError).
End InstallError.
Notation InstallError := InstallError.InstallError.

(** The outcome of a callee, in the caller's error type. *)
Definition relabel {E F A} (f : E → F) (m : outcome E A) : outcome F A :=
  map_err (λ e, match e with Fail e => Fail (f e) | Panic => Panic | OutOfFuel => OutOfFuel end) m.

Section installation.
Context `{Allocator}.

Definition runtime_string (value : CompilerString) : outcome JsStringError Repr :=
  match latin1_units value with
  | Some units => lift (JsString.from_latin1 units)
  | None =>
      let units := CompilerStringCodeUnits.remaining (code_units value) in
      JsString.from_code_units (mkUnits units false (len units))
  end.

Definition stage_element (element : CompilerTemplateElement) :
    outcome InstallError InstalledTemplateElement :=
  cooked ← match cooked element with
           | Some string => Some <$> relabel InstallError.String (runtime_string string)
           | None => Ok None
           end;
  raw ← relabel InstallError.String (runtime_string (raw element));
  Ok (mkInstalledElement cooked raw).

(** A [CompilerBigInt] holds decimal digits, which are valid UTF-8 exactly
    when they are ASCII. *)
Definition stage_constant (constant : CompiledConstant) : outcome InstallError InstalledConstant :=
  match constant with
  | CompiledConstant.Value (CompilerConstantValue.Number value) =>
      Ok (InstalledConstant.Number (JsNumber.from_f64 value))
  | CompiledConstant.Value (CompilerConstantValue.String value) =>
      InstalledConstant.String <$> relabel InstallError.String (runtime_string value)
  | CompiledConstant.Value (CompilerConstantValue.BigInt value) =>
      bytes ← lift (ok_or (latin1_units (decimal value))
        (InstallError.AuthorityInvariant "verified BigInt decimal is not compact ASCII"));
      lift (reject_if (negb (forallb (λ b, b <=? 127) bytes))
        (InstallError.AuthorityInvariant "verified BigInt decimal is not ASCII")) ;;
      InstalledConstant.BigInt <$> relabel InstallError.BigInt (BigIntText.from_str_radix bytes 10)
  | CompiledConstant.Value (CompilerConstantValue.TemplateObject value) =>
      let additional := len (template_elements value) in
      lift (reserve "installed template elements" 0 additional (InstallError.AllocationFailed additional)) ;;
      elements ← try_map stage_element (template_elements value);
      Ok (InstalledConstant.TemplateObject elements None)
  | CompiledConstant.Function template => Ok (InstalledConstant.Function template)
  end.
End installation.

(** ** Stack helpers *)

Notation operands := (list OperandStackEntry).

Module OperandStack.
Import EngineFault OperandStackEntry.

Definition push (stack : operands) (value : StoredValue) : operands := stack ++ [JavaScript value].

(** The value of an entry, or the fault of the helper that met it: [consumed],
    [inspected] or [indexed]. *)
Definition entry_value (verb : string) (entry : OperandStackEntry) : engine StoredValue :=
  let fault what := Err (RuntimeInvariant
    ("verified JavaScript value operation " +:+ verb +:+ " an internal " +:+ what)) in
  match entry with
  | JavaScript value => Ok value
  | Catch _ | ForOfCatch _ _ => fault "catch marker"
  | CapturedReference _ _ | RealmGlobalReference _ _ | CapturedReferenceAnchor =>
      fault "captured reference"
  | FinallyReturn _ => fault "finally return address"
  end.

Definition pop (stack : operands) : engine (operands * StoredValue) :=
  '(stack, entry) ← ok_or (vec_pop stack) (StackDepthMismatch 1 0);
  value ← entry_value "consumed" entry;
  Ok (stack, value).

Definition peek (stack : operands) : engine StoredValue :=
  entry ← ok_or (last stack) (StackDepthMismatch 1 0);
  entry_value "inspected" entry.

Definition stack_value_at (stack : operands) (index : nat) : engine StoredValue :=
  entry ← ok_or (stack !! index) (StackDepthMismatch (Z.min (Z.of_nat index + 1) u32_max) (len stack));
  entry_value "indexed" entry.

Definition pop_finally_continuation (stack : operands) : engine (operands * Z) :=
  '(stack, entry) ← ok_or (vec_pop stack) (StackDepthMismatch 1 0);
  match entry with
  | FinallyReturn continuation => Ok (stack, continuation)
  | _ => Err (RuntimeInvariant "verified ret operand is not an internal finally return address")
  end.

Definition drop_stack_entry (stack : operands) : engine operands :=
  '(stack, _) ← ok_or (vec_pop stack) (StackDepthMismatch 1 0);
  Ok stack.

Definition branch_successor (instruction : VerifiedInstruction) (taken : bool) : engine Z :=
  match successors instruction with
  | VerifiedSuccessors.Branch _ _ =>
      ok_or (if taken then VerifiedSuccessors.branch_target (successors instruction)
             else VerifiedSuccessors.fallthrough (successors instruction)) InvalidSuccessor
  | _ => Err InvalidSuccessor
  end.

(** The new stack and the instruction to go on with. *)
Definition enter_finally_subroutine (instruction : VerifiedInstruction) (stack : operands) :
    engine (operands * Z) :=
  target ← branch_successor instruction true;
  continuation ← branch_successor instruction false;
  Ok (stack ++ [FinallyReturn continuation], target).

(** The correction that makes the structural depth of [verified] fit. *)
Definition normalize_stack_depth_correction (verified : VerifiedInstruction) (stack : operands) :
    engine Z :=
  structural_depth ← ok_or (entry_stack_depth verified) UnreachableInstruction;
  let mismatch := StackDepthMismatch structural_depth (len stack) in
  actual_depth ← ok_or (try_u32 (len stack)) mismatch;
  if structural_depth <? actual_depth then Err mismatch else Ok (structural_depth - actual_depth).

Definition is_catch_marker (entry : OperandStackEntry) : bool :=
  match entry with Catch _ | ForOfCatch _ _ => true | _ => false end.

(** [iter().rposition(predicate)] *)
Fixpoint rposition {A} (predicate : A → bool) (l : list A) : option nat :=
  match l with
  | [] => None
  | x :: l =>
      match rposition predicate l with
      | Some position => Some (S position)
      | None => if predicate x then Some O else None
      end
  end.

Definition nip_catch (stack : operands) : engine operands :=
  peek stack ;;
  let top := (length stack - 1)%nat in
  marker ← ok_or (rposition is_catch_marker (take top stack))
    (RuntimeInvariant "verified nip_catch operand is not a catch marker");
  '(stack, top) ← pop stack;
  Ok (push (take marker stack) top).

Definition constant_index (operands : Operands) : option Z :=
  match operands with Operands.Const index | Operands.Const8 index => Some index | _ => None end.

Definition implied_integer (opcode : FinalOpcode) : option Z :=
  match opcode with
  | FinalOpcode.PushMinus1 => Some (-1)
  | FinalOpcode.Push0 => Some 0
  | FinalOpcode.Push1 => Some 1
  | FinalOpcode.Push2 => Some 2
  | FinalOpcode.Push3 => Some 3
  | FinalOpcode.Push4 => Some 4
  | FinalOpcode.Push5 => Some 5
  | FinalOpcode.Push6 => Some 6
  | FinalOpcode.Push7 => Some 7
  | _ => None
  end.

(** What the heap hands out while one instruction executes. *)
Record Allocation : Set := mkAllocation {
  new_object : ObjectId;
  new_function : FunctionId;
  new_private_name : AtomHandle }.

(** The value pushed and the pool, where a template site remembers its object. *)
Definition materialize_constant (constants : list InstalledConstant) (index : Z) (allocated : ObjectId) :
    engine (StoredValue * list InstalledConstant) :=
  constant ← ok_or (constants !! Z.to_nat index) (MissingPoolEntry "constant" index);
  match constant with
  | InstalledConstant.Number value => Ok (StoredValue.Number value, constants)
  | InstalledConstant.String value => Ok (StoredValue.String value, constants)
  | InstalledConstant.BigInt value => Ok (StoredValue.BigInt value, constants)
  | InstalledConstant.TemplateObject _ (Some object) => Ok (StoredValue.Object object, constants)
  | InstalledConstant.TemplateObject elements None =>
      Ok (StoredValue.Object allocated,
          <[Z.to_nat index := InstalledConstant.TemplateObject elements (Some allocated)]> constants)
  | InstalledConstant.Function _ => Err (MissingPoolEntry "ordinary value constant" index)
  end.

Definition function_constant (constants : list InstalledConstant) (index : Z) : engine Z :=
  match constants !! Z.to_nat index with
  | Some (InstalledConstant.Function function) => Ok function
  | _ => Err (MissingPoolEntry "function constant" index)
  end.

(** ** Dispatch *)

Section dispatch.
(** Which heap values carry the host's [IsHTMLDDA] mark, and the descriptions
    of the template's atoms. *)
Context (is_html_dda : StoredValue → bool) (installed_atoms : list Repr).

Definition to_boolean (value : StoredValue) : bool :=
  match primitive_to_boolean value with
  | Some result => result
  | None => negb (is_html_dda value)
  end.

Definition atom_description (index : Z) : engine Repr :=
  ok_or (installed_atoms !! Z.to_nat index) (MissingPoolEntry "atom" index).

(** The three entries [insert3] moves whole when they hold a retained reference. *)
Definition holds_retained_reference (stack : operands) : bool :=
  match checked_sub_len stack 3 with
  | None => false
  | Some base =>
      match drop base stack with
      | [(CapturedReference _ _ | RealmGlobalReference _ _); CapturedReferenceAnchor; JavaScript _] => true
      | _ => false
      end
  end.

Definition execute_insert3 (stack : operands) : engine operands :=
  if holds_retained_reference stack then
    '(stack, third) ← pop stack;
    '(stack, anchor) ← ok_or (vec_pop stack)
      (RuntimeInvariant "verified insert3 lost its captured-reference anchor");
    '(stack, reference) ← ok_or (vec_pop stack)
      (RuntimeInvariant "verified insert3 lost its captured reference");
    Ok (push ((push stack third ++ [reference]) ++ [anchor]) third)
  else
    '(stack, third) ← pop stack;
    '(stack, second) ← pop stack;
    '(stack, first) ← pop stack;
    Ok (push (push (push (push stack third) first) second) third).

(** The straight-line arms that push without popping. *)
Definition execute_push (opcode : FinalOpcode) (operands_ : Operands) (allocation : Allocation)
    (stack : operands) (constants : list InstalledConstant) :
    engine (operands * list InstalledConstant) :=
  let unsupported := Err (UnsupportedDispatch opcode) in
  let pushed value := Ok (push stack value, constants) in
  match opcode with
  | FinalOpcode.PushI32 =>
      match operands_ with
      | Operands.I32 value => pushed (StoredValue.Number (JsNumber.from_i32 value))
      | _ => unsupported
      end
  | FinalOpcode.PushMinus1 | FinalOpcode.Push0 | FinalOpcode.Push1 | FinalOpcode.Push2
  | FinalOpcode.Push3 | FinalOpcode.Push4 | FinalOpcode.Push5 | FinalOpcode.Push6
  | FinalOpcode.Push7 =>
      value ← ok_or (implied_integer opcode) (UnsupportedDispatch opcode);
      pushed (StoredValue.Number (JsNumber.from_i32 value))
  | FinalOpcode.PushI8 =>
      match operands_ with
      | Operands.I8 value => pushed (StoredValue.Number (JsNumber.from_i32 value))
      | _ => unsupported
      end
  | FinalOpcode.PushI16 =>
      match operands_ with
      | Operands.I16 value => pushed (StoredValue.Number (JsNumber.from_i32 value))
      | _ => unsupported
      end
  | FinalOpcode.PushConst | FinalOpcode.PushConst8 =>
      index ← ok_or (constant_index operands_) (MissingPoolEntry "constant" u32_max);
      '(value, constants) ← materialize_constant constants index (new_object allocation);
      Ok (push stack value, constants)
  | FinalOpcode.PushBigIntI32 =>
      match operands_ with
      | Operands.I32 value => pushed (StoredValue.BigInt (BigInt.from_i32 value))
      | _ => unsupported
      end
  | FinalOpcode.PushAtomValue =>
      match operands_ with
      | Operands.Atom index => string ← atom_description index; pushed (StoredValue.String string)
      | _ => unsupported
      end
  | FinalOpcode.PrivateSymbol =>
      match operands_ with
      | Operands.Atom index =>
          atom_description index ;; pushed (StoredValue.Symbol (new_private_name allocation))
      | _ => unsupported
      end
  | FinalOpcode.PushEmptyString => pushed (StoredValue.String JsString.empty)
  | FinalOpcode.Undefined => pushed StoredValue.Undefined
  | FinalOpcode.Null => pushed StoredValue.Null
  | FinalOpcode.PushFalse => pushed (StoredValue.Boolean false)
  | FinalOpcode.PushTrue => pushed (StoredValue.Boolean true)
  | FinalOpcode.Object => pushed (StoredValue.Object (new_object allocation))
  | FinalOpcode.FClosure | FinalOpcode.FClosure8 =>
      index ← ok_or (constant_index operands_) (MissingPoolEntry "function constant" u32_max);
      function_constant constants index ;;
      pushed (StoredValue.Function (new_function allocation))
  | _ => unsupported
  end.

(** The straight-line arms that move entries. *)
Definition execute_permutation (opcode : FinalOpcode) (stack : operands) : engine operands :=
  match opcode with
  | FinalOpcode.Drop => drop_stack_entry stack
  | FinalOpcode.Nip =>
      '(stack, top) ← pop stack;
      stack ← drop_stack_entry stack;
      Ok (push stack top)
  | FinalOpcode.Dup => value ← peek stack; Ok (push stack value)
  | FinalOpcode.Dup1 =>
      '(stack, top) ← pop stack;
      index ← ok_or (checked_sub_len stack 1) (StackDepthMismatch 2 (len stack + 1));
      value ← stack_value_at stack index;
      Ok (push (push stack value) top)
  | FinalOpcode.Dup2 =>
      '(stack, right_) ← pop stack;
      '(stack, left_) ← pop stack;
      Ok (push (push (push (push stack left_) right_) left_) right_)
  | FinalOpcode.Dup3 =>
      '(stack, third) ← pop stack;
      '(stack, second) ← pop stack;
      '(stack, first) ← pop stack;
      Ok (push (push (push (push (push (push stack first) second) third) first) second) third)
  | FinalOpcode.Insert2 =>
      '(stack, right_) ← pop stack;
      '(stack, left_) ← pop stack;
      Ok (push (push (push stack right_) left_) right_)
  | FinalOpcode.Insert3 => execute_insert3 stack
  | FinalOpcode.Insert4 =>
      '(stack, fourth) ← pop stack;
      '(stack, third) ← pop stack;
      '(stack, second) ← pop stack;
      '(stack, first) ← pop stack;
      Ok (push (push (push (push (push stack fourth) first) second) third) fourth)
  | FinalOpcode.Swap =>
      '(stack, right_) ← pop stack;
      '(stack, left_) ← pop stack;
      Ok (push (push stack right_) left_)
  | FinalOpcode.Perm3 =>
      '(stack, third) ← pop stack;
      '(stack, second) ← pop stack;
      '(stack, first) ← pop stack;
      Ok (push (push (push stack second) first) third)
  | FinalOpcode.Perm4 =>
      '(stack, fourth) ← pop stack;
      '(stack, third) ← pop stack;
      '(stack, second) ← pop stack;
      '(stack, first) ← pop stack;
      Ok (push (push (push (push stack third) first) second) fourth)
  | FinalOpcode.Perm5 =>
      '(stack, fifth) ← pop stack;
      '(stack, fourth) ← pop stack;
      '(stack, third) ← pop stack;
      '(stack, second) ← pop stack;
      '(stack, first) ← pop stack;
      Ok (push (push (push (push (push stack fourth) first) second) third) fifth)
  | FinalOpcode.Rot3l =>
      '(stack, third) ← pop stack;
      '(stack, second) ← pop stack;
      '(stack, first) ← pop stack;
      Ok (push (push (push stack second) third) first)
  | FinalOpcode.Rot3r =>
      '(stack, third) ← pop stack;
      '(stack, second) ← pop stack;
      '(stack, first) ← pop stack;
      Ok (push (push (push stack third) first) second)
  | FinalOpcode.Rot4l =>
      '(stack, fourth) ← pop stack;
      '(stack, third) ← pop stack;
      '(stack, second) ← pop stack;
      '(stack, first) ← pop stack;
      Ok (push (push (push (push stack second) third) fourth) first)
  | _ => Err (UnsupportedDispatch opcode)
  end.

(** The straight-line arms that test values. *)
Definition execute_predicate (opcode : FinalOpcode) (stack : operands) : engine operands :=
  match opcode with
  | FinalOpcode.Lnot =>
      '(stack, value) ← pop stack;
      Ok (push stack (StoredValue.Boolean (negb (to_boolean value))))
  | FinalOpcode.StrictEq | FinalOpcode.StrictNeq =>
      '(stack, right_) ← pop stack;
      '(stack, left_) ← pop stack;
      let equal := StoredValue.strict_equals left_ right_ in
      Ok (push stack (StoredValue.Boolean
            (if decide (opcode = FinalOpcode.StrictEq) then equal else negb equal)))
  | FinalOpcode.IsUndefinedOrNull =>
      '(stack, value) ← pop stack;
      Ok (push stack (StoredValue.Boolean
            match value with StoredValue.Undefined | StoredValue.Null => true | _ => false end))
  | FinalOpcode.IsNull =>
      '(stack, value) ← pop stack;
      Ok (push stack (StoredValue.Boolean match value with StoredValue.Null => true | _ => false end))
  | FinalOpcode.Nop => Ok stack
  | _ => Err (UnsupportedDispatch opcode)
  end.

Inductive arm : Set := PushArm | PermutationArm | PredicateArm.

(** The arm of a straight-line opcode; the opcodes of the rest of the
    interpreter have none. *)
Definition arm_of (opcode : FinalOpcode) : option arm :=
  match opcode with
  | FinalOpcode.PushI32 | FinalOpcode.PushMinus1 | FinalOpcode.Push0 | FinalOpcode.Push1
  | FinalOpcode.Push2 | FinalOpcode.Push3 | FinalOpcode.Push4 | FinalOpcode.Push5
  | FinalOpcode.Push6 | FinalOpcode.Push7 | FinalOpcode.PushI8 | FinalOpcode.PushI16
  | FinalOpcode.PushConst | FinalOpcode.PushConst8 | FinalOpcode.PushBigIntI32
  | FinalOpcode.PushAtomValue | FinalOpcode.PrivateSymbol | FinalOpcode.PushEmptyString
  | FinalOpcode.Undefined | FinalOpcode.Null | FinalOpcode.PushFalse | FinalOpcode.PushTrue
  | FinalOpcode.Object | FinalOpcode.FClosure | FinalOpcode.FClosure8 => Some PushArm
  | FinalOpcode.Drop | FinalOpcode.Nip | FinalOpcode.Dup | FinalOpcode.Dup1 | FinalOpcode.Dup2
  | FinalOpcode.Dup3 | FinalOpcode.Insert2 | FinalOpcode.Insert3 | FinalOpcode.Insert4
  | FinalOpcode.Swap | FinalOpcode.Perm3 | FinalOpcode.Perm4 | FinalOpcode.Perm5
  | FinalOpcode.Rot3l | FinalOpcode.Rot3r | FinalOpcode.Rot4l
  (* No arm of the source: dispatching these is a fault. *)
  | FinalOpcode.Rot5l => Some PermutationArm
  | FinalOpcode.Lnot | FinalOpcode.StrictEq | FinalOpcode.StrictNeq | FinalOpcode.IsUndefinedOrNull
  | FinalOpcode.IsNull | FinalOpcode.Nop
  | FinalOpcode.IsUndefined | FinalOpcode.TypeofIsUndefined => Some PredicateArm
  | _ => None
  end.

Definition execute_straight_line (opcode : FinalOpcode) (operands_ : Operands)
    (allocation : Allocation) (stack : operands) (constants : list InstalledConstant) :
    engine (operands * list InstalledConstant) :=
  match arm_of opcode with
  | Some PushArm => execute_push opcode operands_ allocation stack constants
  | Some PermutationArm => (λ stack, (stack, constants)) <$> execute_permutation opcode stack
  | Some PredicateArm => (λ stack, (stack, constants)) <$> execute_predicate opcode stack
  | None => Err (UnsupportedDispatch opcode)
  end.

(** A truthiness branch: the rest of the stack and the next instruction. *)
Definition execute_branch (instruction : VerifiedInstruction) (opcode : FinalOpcode) (stack : operands) :
    engine (operands * Z) :=
  '(stack, condition) ← pop stack;
  target ← branch_successor instruction
    match opcode with
    | FinalOpcode.IfFalse | FinalOpcode.IfFalse8 => negb (to_boolean condition)
    | _ => to_boolean condition
    end;
  Ok (stack, target).

Definition execute_goto (instruction : VerifiedInstruction) : engine Z :=
  ok_or (VerifiedSuccessors.jump_target (successors instruction)) InvalidSuccessor.

Definition execute_catch (instruction : VerifiedInstruction) (stack : operands) : engine operands :=
  handler ← branch_successor instruction true;
  Ok (stack ++ [Catch handler]).
End dispatch.

(** The unwinder's entry into the handler of the innermost marker: [marker] is
    its position in the frame's stack. *)
Definition enter_handler (stack : operands) (marker : nat) (caught : StoredValue) :
    engine (operands * Z) :=
  match stack !! marker with
  | Some (Catch handler) => Ok (push (take marker stack) caught, handler)
  | _ => Err (RuntimeInvariant "exception unwinder selected a non-catch operand entry")
  end.

(** The entry check of every executed instruction. *)
Definition check_entry_depth (verified : VerifiedInstruction) (correction : Z) (stack : operands) :
    engine unit :=
  structural_depth ← ok_or (entry_stack_depth verified) UnreachableInstruction;
  reject_if (structural_depth <? correction)
    (RuntimeInvariant "verified stack correction exceeds the structural stack depth") ;;
  let expected_depth := structural_depth - correction in
  reject_if (negb (len stack =? expected_depth)) (StackDepthMismatch expected_depth (len stack)).
End OperandStack.
