(* ===== verification/AbstractValueFacts.v ===== *)
(** * What an abstract value stands for

    The order of the optimizer's lattice and its joins, the operand-stack
    entries an abstract value describes, and the soundness of the abstract
    transfer against the interpreter's arms: whatever the interpreter leaves
    on a described stack, the transferred abstract stack describes. *)

From S2P Require Import Prelude RuntimePrelude Opcode Codec VerifierModel JsStrings JsStringFacts Arena BigInt BigIntFacts BigIntText Values ValueFacts CompilerString AbstractValues OperandStack.
From stdpp Require Import list.
Import StoredValue(StoredValue) OperandStackEntry(OperandStackEntry) InstalledConstant(InstalledConstant).
Local Open Scope Z_scope.

(** ** The order *)

Module AbstractOrder.
Import AbstractValue.

(** [y] is at least as uncertain as [x]. *)
Definition le (x y : AbstractValue) : Prop :=
  y = x ∨ y = Overdefined ∨
  (y = KnownTruthy ∧ truthiness x = Some true) ∨ (y = KnownFalsy ∧ truthiness x = Some false).

#[export] Instance le_refl : Reflexive le.
Proof. intros x. by left. Qed.

#[export] Instance le_trans : Transitive le.
Proof.
  intros x y z [->|[->|[[-> H]|[-> H]]]] [->|[->|[[-> H']|[-> H']]]];
    unfold le; simpl in *; simplify_eq; auto 10.
Qed.

#[export] Instance le_antisym : AntiSymm (=) le.
Proof.
  intros x y [->|[->|[[-> H]|[-> H]]]] [Hz|[Hz|[[Hz H']|[Hz H']]]]; simplify_eq/=; done.
Qed.

Lemma join_left x y : le x (join x y).
Proof.
  unfold join, le. destruct (decide (x = y)); [by left|].
  destruct (truthiness x) as [[]|], (truthiness y) as [[]|]; auto 10.
Qed.

Lemma join_right x y : le y (join x y).
Proof.
  unfold join, le. destruct (decide (x = y)) as [->|]; [by left|].
  destruct (truthiness x) as [[]|], (truthiness y) as [[]|]; auto 10.
Qed.

Lemma truthiness_le x y b : le x y → truthiness y = Some b → truthiness x = Some b.
Proof. intros [->|[->|[[-> H]|[-> H]]]]; simpl; congruence. Qed.

Lemma join_least x y z : le x z → le y z → le (join x y) z.
Proof.
  intros Hx Hy. unfold join. destruct (decide (x = y)) as [|Hne]; [done|].
  destruct Hx as [->|[->|[[-> H]|[-> H]]]]; [|by right; left|..];
    destruct Hy as [?|[?|[[? H']|[? H']]]]; simplify_eq/=; rewrite ?H, ?H'; try done; unfold le; auto 6.
Qed.

(** Steps left before [Overdefined]. *)
Definition rank (x : AbstractValue) : nat :=
  match x with Overdefined => 0 | KnownTruthy | KnownFalsy => 1 | _ => 2 end.

Lemma rank_le x : (rank x ≤ 2)%nat.
Proof. destruct x; simpl; lia. Qed.

Lemma rank_lt x y : le x y → y ≠ x → (rank y < rank x)%nat.
Proof.
  intros [->|[->|[[-> H]|[-> H]]]] Hne; [done|destruct x; simpl in *; try lia; done|..];
    destruct x as [| | |[]|z|z| | |]; simpl in *; simplify_eq; lia || done.
Qed.
End AbstractOrder.

(** ** Vectors *)

Section vectors.
Context {A : Type}.
Implicit Types (l r : list A).

Lemma vec_pop_snoc l x : vec_pop (l ++ [x]) = Some (l, x).
Proof. induction l as [|y l IH]; [done|]. simpl. rewrite IH. by destruct l. Qed.

Lemma vec_pop_Some l r x : vec_pop l = Some (r, x) ↔ l = r ++ [x].
Proof.
  split; [|intros ->; apply vec_pop_snoc].
  destruct l as [|y l _] using rev_ind; [done|]. rewrite vec_pop_snoc. by intros [= -> ->].
Qed.

Lemma checked_sub_app l r n : length r = n → checked_sub_len (l ++ r) n = Some (length l).
Proof.
  intros <-. unfold checked_sub_len. rewrite length_app. destruct (Nat.leb_spec (length r) (length l + length r));
    [f_equal; lia|lia].
Qed.

Lemma checked_sub_Some l n k : checked_sub_len l n = Some k → ∃ a b, l = a ++ b ∧ length a = k ∧ length b = n.
Proof.
  unfold checked_sub_len. destruct (Nat.leb_spec n (length l)); [|done]. intros [= <-].
  exists (take (length l - n) l), (drop (length l - n) l).
  rewrite take_drop, length_take, length_drop. split_and!; [done|lia|lia].
Qed.
End vectors.

(** ** Description *)

Section description.
Context (is_html_dda : StoredValue → bool).
Import AbstractOrder.
Local Notation to_boolean := (OperandStack.to_boolean is_html_dda).
Local Notation js v := (OperandStackEntry.JavaScript v).

(** The entries an abstract value stands for. *)
Definition describes (a : AbstractValue) (entry : OperandStackEntry) : Prop :=
  match a with
  | AbstractValue.Overdefined => True
  | AbstractValue.Undefined => entry = js StoredValue.Undefined
  | AbstractValue.Null => entry = js StoredValue.Null
  | AbstractValue.Boolean b => entry = js (StoredValue.Boolean b)
  | AbstractValue.NumberI32 n => is_i32 n ∧ entry = js (StoredValue.Number (JsNumber.from_i32 n))
  | AbstractValue.BigIntI32 n => is_i32 n ∧ entry = js (StoredValue.BigInt (BigInt.from_i32 n))
  | AbstractValue.EmptyString => entry = js (StoredValue.String JsString.empty)
  | AbstractValue.KnownTruthy => ∃ v, entry = js v ∧ to_boolean v = true
  | AbstractValue.KnownFalsy => ∃ v, entry = js v ∧ to_boolean v = false
  end.

Lemma from_int_eqb m n : is_i32 m → is_i32 n → F64.eq (F64.from_int m) (F64.from_int n) = (m =? n).
Proof.
  intros Hm%i32_small Hn%i32_small. unfold F64.eq.
  rewrite (proj2 (from_int_f64 m Hm)), (proj2 (from_int_f64 n Hn)). simpl.
  destruct (Z.eqb_spec m n) as [->|Hne]; [apply Z.eqb_refl|]. apply Z.eqb_neq.
  destruct (decide (m < n)) as [H|H]; [pose proof (from_int_key m n Hm Hn H); lia|].
  pose proof (from_int_key n m Hn Hm ltac:(lia)). lia.
Qed.

Lemma from_i32_eqb m n : is_i32 m → is_i32 n → bool_decide (BigInt.from_i32 m = BigInt.from_i32 n) = (m =? n).
Proof.
  intros Hm Hn. destruct (Z.eqb_spec m n) as [->|Hne]; [by apply bool_decide_true|].
  apply bool_decide_false. unfold BigInt.from_i32. intros [= E]. unfold is_i32 in *.
  assert (m = n) by divmod_lia. done.
Qed.

Lemma i32_truth n : is_i32 n → to_boolean (StoredValue.Number (JsNumber.from_i32 n)) = negb (n =? 0).
Proof.
  intros Hn. unfold OperandStack.to_boolean. simpl.
  rewrite (proj2 (from_int_f64 n (i32_small n Hn))), andb_true_r.
  change 0 with (F64.from_int 0) at 1. by rewrite from_int_eqb by (done || unfold is_i32; lia).
Qed.

Lemma bigint_i32_truth n : is_i32 n → to_boolean (StoredValue.BigInt (BigInt.from_i32 n)) = negb (n =? 0).
Proof.
  intros Hn. unfold OperandStack.to_boolean. simpl. f_equal. unfold BigInt.is_zero, BigInt.from_i32. simpl.
  destruct (Z.eqb_spec n 0) as [->|Hne]; [by apply bool_decide_true|].
  apply bool_decide_false. intros [= E]. unfold is_i32 in Hn. assert (n = 0) by divmod_lia. done.
Qed.

(** A known truth value is the one the interpreter computes. *)
Lemma describes_truth a entry b :
  AbstractValue.truthiness a = Some b → describes a entry → ∃ v, entry = js v ∧ to_boolean v = b.
Proof.
  destruct a as [| | |c|n|n| | |]; simpl; intros E H; simplify_eq; try (by eexists); try done.
  - destruct c; simplify_eq; by eexists.
  - destruct H as [Hn ->]. eexists. split; [done|]. by apply i32_truth.
  - destruct H as [Hn ->]. eexists. split; [done|]. by apply bigint_i32_truth.
Qed.

Lemma describes_le x y entry : le x y → describes x entry → describes y entry.
Proof.
  intros [->|[->|[[-> H]|[-> H]]]]; [done|done|..]; intros Hd; by eapply describes_truth in Hd.
Qed.

Lemma describes_boolean (o : option bool) b :
  (∀ c, o = Some c → b = c) →
  describes (from_option AbstractValue.Boolean AbstractValue.Overdefined o) (js (StoredValue.Boolean b)).
Proof. destruct o as [c|]; simpl; [|done]. intros H. by rewrite (H c). Qed.

(** The primitive predicates. *)
Lemma is_null_sound a v b : AbstractValue.is_null a = Some b → describes a (js v) →
  match v with StoredValue.Null => true | _ => false end = b.
Proof.
  destruct a; simpl; intros E H; simplify_eq; try done; try (by destruct H as [_ [= ->]]).
  destruct H as (w & [= <-] & Hw). by destruct v.
Qed.

Lemma is_nullish_sound a v b : AbstractValue.is_nullish a = Some b → describes a (js v) →
  match v with StoredValue.Undefined | StoredValue.Null => true | _ => false end = b.
Proof.
  destruct a; simpl; intros E H; simplify_eq; try done; try (by destruct H as [_ [= ->]]).
  destruct H as (w & [= <-] & Hw). by destruct v.
Qed.

Lemma strict_equal_sound a b v w c : AbstractValue.strict_equal a b = Some c →
  describes a (js v) → describes b (js w) → StoredValue.strict_equals v w = c.
Proof.
  intros E Ha Hb.
  destruct a as [| | |x|x|x| | |]; try discriminate E; destruct b as [| | |y|y|y| | |]; try discriminate E;
    simpl in *; destruct_and?; simplify_eq/=; try done.
  - unfold JsNumber.strict_equals. simpl. by apply from_int_eqb.
  - by apply from_i32_eqb.
Qed.

(** ** Aligned stacks *)

(** The abstract stack may be deeper: a frame whose stack lags behind the
    verified depth is described from the top. *)
Definition aligned (a : list AbstractValue) (stack : operands) : Prop :=
  ∃ below above, a = below ++ above ∧ Forall2 describes above stack.

Lemma aligned_nil a : aligned a [].
Proof. exists a, []. by rewrite app_nil_r. Qed.

Lemma aligned_push a stack x entry : aligned a stack → describes x entry → aligned (a ++ [x]) (stack ++ [entry]).
Proof.
  intros (below & above & -> & Hf) Hx. exists below, (above ++ [x]). rewrite app_assoc.
  split; [done|]. by apply Forall2_app; [|constructor].
Qed.

Lemma aligned_pop a stack entry : aligned a (stack ++ [entry]) →
  ∃ a' x, a = a' ++ [x] ∧ aligned a' stack ∧ describes x entry.
Proof.
  intros (below & above & -> & Hf).
  apply Forall2_app_inv_r in Hf as (above' & l & Hf & Hl & ->).
  apply Forall2_cons_inv_r in Hl as (x & l' & Hx & ->%Forall2_nil_inv_r & ->).
  exists (below ++ above'), x. rewrite app_assoc. split_and!; [done| |done]. by exists below, above'.
Qed.

Lemma aligned_app a stack l xs : aligned a stack → Forall2 describes xs l → aligned (a ++ xs) (stack ++ l).
Proof.
  intros (below & above & -> & Hf) Hx. exists below, (above ++ xs). rewrite app_assoc.
  split; [done|]. by apply Forall2_app.
Qed.

Lemma aligned_drop a stack l : aligned a (stack ++ l) → aligned (take (length a - length l) a) stack.
Proof.
  intros (below & above & -> & Hf). apply Forall2_app_inv_r in Hf as (u & w & Hu & Hw & ->).
  exists below, u. split; [|done]. rewrite app_assoc. apply take_app_length'.
  rewrite !length_app. apply Forall2_length in Hw. lia.
Qed.

Lemma aligned_le a a' stack : Forall2 le a a' → aligned a stack → aligned a' stack.
Proof.
  intros Hle (below & above & -> & Hf). apply Forall2_app_inv_l in Hle as (b' & u & Hb & Hu & ->).
  exists b', u. split; [done|]. clear Hb. revert u Hu.
  induction Hf as [|x e xs es Hx Hf IH]; intros u Hu.
  - apply Forall2_nil_inv_l in Hu as ->. constructor.
  - apply Forall2_cons_inv_l in Hu as (y & u' & Hy & Hu & ->). constructor; [by eapply describes_le|auto].
Qed.

Lemma overdefined_describes l : Forall2 describes (replicate (length l) AbstractValue.Overdefined) l.
Proof. induction l; simpl; by constructor. Qed.

Lemma aligned_opaque n stack : (length stack ≤ n)%nat → aligned (replicate n AbstractValue.Overdefined) stack.
Proof.
  intros Hn. exists (replicate (n - length stack) AbstractValue.Overdefined),
    (replicate (length stack) AbstractValue.Overdefined).
  split; [by rewrite <- replicate_add; f_equal; lia|]. apply overdefined_describes.
Qed.

Lemma aligned_length a stack : aligned a stack → (length stack ≤ length a)%nat.
Proof. intros (below & above & -> & Hf%Forall2_length). rewrite length_app. lia. Qed.
End description.
