(* ===== verification/TransferFacts.v ===== *)
(** * The abstract transfer is sound

    The constants a compiled function carries keep their truth value through
    installation, and every straight-line arm of the interpreter takes a
    described operand stack to one the abstract transfer describes. *)

From S2P Require Import Prelude RuntimePrelude Opcode Codec VerifierModel JsStrings JsStringFacts Arena BigInt BigIntFacts BigIntText Values ValueFacts CompilerString AbstractValues OperandStack AbstractValueFacts.
From stdpp Require Import list.
Import StoredValue(StoredValue) OperandStackEntry(OperandStackEntry) InstalledConstant(InstalledConstant).
Local Open Scope Z_scope.

(** ** Installed constants *)

Section constants.
Context (is_html_dda : StoredValue → bool).
Local Notation js v := (OperandStackEntry.JavaScript v).
Local Notation describes := (describes is_html_dda).
Local Notation to_boolean := (OperandStack.to_boolean is_html_dda).

(** What the compiler guarantees of a constant: a [BigInt] is validated. *)
Definition constant_ok (value : CompilerConstantValue) : Prop :=
  match value with
  | CompilerConstantValue.BigInt bigint => is_Some (match try_from_decimal (decimal bigint) with Ok b => Some b | Err _ => None end)
  | _ => True
  end.

(** An installed constant the optimizer's description of [value] fits. *)
Definition denotes (value : CompilerConstantValue) (installed : InstalledConstant) : Prop :=
  match installed with
  | InstalledConstant.Number n => describes (constant_truthiness value) (js (StoredValue.Number n))
  | InstalledConstant.String s => describes (constant_truthiness value) (js (StoredValue.String s))
  | InstalledConstant.BigInt b => describes (constant_truthiness value) (js (StoredValue.BigInt b))
  | InstalledConstant.TemplateObject _ (Some object) =>
      describes (constant_truthiness value) (js (StoredValue.Object object))
  | InstalledConstant.TemplateObject _ None => constant_truthiness value = AbstractValue.KnownTruthy
  | InstalledConstant.Function _ => True
  end.

Lemma describes_truthiness (b : bool) v : to_boolean v = b →
  describes (if b then AbstractValue.KnownTruthy else AbstractValue.KnownFalsy) (js v).
Proof. destruct b; intros H; by exists v. Qed.

Lemma runtime_string_len `{Allocator} s r : runtime_string s = Ok r → Repr.len r = string_len s.
Proof.
  unfold runtime_string, latin1_units, string_len, code_units.
  destruct (storage s) as [us|us]; cbn [CompilerStringCodeUnits.remaining].
  - rewrite lift_Ok. unfold JsString.from_latin1. intros E. inv_ok. destruct (decide (us = [])) as [->|]; inv_ok; by subst.
  - intros E. assert (len us ≤ MAX_STRING_CODE_UNITS) as Hle.
    { unfold JsString.from_code_units in E. cbn [lower_bound] in E.
      destruct (Z.ltb_spec MAX_STRING_CODE_UNITS (len us)); [done|lia]. }
    pose proof (runs_from_code_units us (len us) Hle ltac:(lia)) as Hr. rewrite E in Hr. simpl in Hr. subst r.
    unfold leaf_of. by repeat case_match.
Qed.

Lemma decimal_zero bigint : constant_ok (CompilerConstantValue.BigInt bigint) →
  ∃ cs, CompilerStringCodeUnits.remaining (code_units (decimal bigint)) = cs ∧
    cs ≠ [] ∧ Forall (λ c, 48 ≤ c ≤ 57) cs ∧ (head cs = Some 48 → cs = [48]).
Proof.
  unfold constant_ok, try_from_decimal.
  destruct (CompilerStringCodeUnits.remaining _) as [|c cs] eqn:E; [by intros [? ?]|].
  intros [b Hb]. destruct (mbind _ _) as [x|] eqn:Ex; [|done]. inv_ok.
  rename select (try_for_each _ _ = _) into Hf. apply try_for_each_Ok in Hf.
  rename select (negb _ = false) into Hc. apply negb_false_iff, andb_true_iff in Hc as [?%Z.leb_le ?%Z.leb_le].
  exists (c :: cs). split_and!; [done|done| |].
  - constructor; [lia|]. clear -Hf. generalize dependent 1%nat. induction cs as [|d cs IH]; intros n Hf; [done|].
    simpl in Hf. apply Forall_cons_1 in Hf as [Hd Hf]. constructor; [|by eapply IH].
    apply reject_if_Ok, negb_false_iff, andb_true_iff in Hd as [?%Z.leb_le ?%Z.leb_le]. lia.
  - simpl. intros [= ->]. rename select (_ && _ = false) into Hz. simpl in Hz. apply negb_false_iff, Z.eqb_eq in Hz.
    unfold string_len, code_units in *. destruct (storage _); simpl in E; subst; unfold len in Hz; simpl in Hz;
      (destruct cs; [done|simpl in Hz; lia]).
Qed.

Lemma decimal_spells cs : Forall (λ c, 48 ≤ c ≤ 57) cs → spells 10 cs (map (λ c, c - 48) cs).
Proof.
  induction 1 as [|c cs Hc _ IH]; [constructor|]. constructor; [|done].
  unfold BigIntText.to_digit. rewrite (proj2 (Z.leb_le 48 c)), (proj2 (Z.leb_le c 57)) by lia. simpl.
  by rewrite (proj2 (Z.ltb_lt _ _)) by lia.
Qed.

Lemma digits_value_positive ds : ∀ k, 0 < k → Forall (λ d, 0 ≤ d) ds → 0 < digits_value 10 k ds.
Proof.
  intros k Hk Hd. pose proof (digits_value_grows 10 ds ltac:(lia) Hd k ltac:(lia)). lia.
Qed.

Lemma staged_bigint `{Allocator} bigint b : constant_ok (CompilerConstantValue.BigInt bigint) →
  ∀ bytes, latin1_units (decimal bigint) = Some bytes → BigIntText.from_str_radix bytes 10 = Ok b →
  constant_truthiness (CompilerConstantValue.BigInt bigint)
  = if negb (BigInt.is_zero b) then AbstractValue.KnownTruthy else AbstractValue.KnownFalsy.
Proof.
  intros (cs & Hcs & Hne & Hd & Hhead)%decimal_zero bytes Hb Hp.
  assert (bytes = cs) as ->.
  { revert Hb Hcs. unfold latin1_units, code_units. destruct (storage _); simpl; congruence. }
  pose proof (from_str_radix_spec cs 10 ltac:(lia)) as Hspec. rewrite Hp in Hspec.
  destruct Hspec as (z & Hz & Hrepr). rewrite (repr_is_zero _ _ Hrepr).
  assert (z = digits_value 10 0 (map (λ c, c - 48) cs)) as ->.
  { apply (accepted_inj 10 cs); [done|]. pose proof (accepted_signed 10 [] [] cs (map (λ c, c - 48) cs) [] false) as Hl.
    simpl in Hl. rewrite app_nil_r in Hl. apply Hl; [constructor|by left; split; [left|]|done|by apply decimal_spells]. }
  unfold constant_truthiness.
  assert (string_len (decimal bigint) = len cs) as ->.
  { revert Hcs. unfold string_len, code_units. destruct (storage _); simpl; by intros ->. }
  assert (fst (CompilerStringCodeUnits.next (code_units (decimal bigint))) = head cs) as ->.
  { revert Hcs. unfold code_units. destruct (storage _) as [l|l]; simpl; intros ->; by destruct cs. }
  destruct cs as [|c cs]; [done|]. clear Hne. cbn [head]. apply Forall_cons_1 in Hd as [Hc Hd].
  assert (Forall (λ d, 0 ≤ d) (map (λ c, c - 48) cs)) as Hnn.
  { clear -Hd. induction Hd; simpl; constructor; [lia|done]. }
  destruct (decide (c = 48)) as [->|Hc48].
  - specialize (Hhead eq_refl). injection Hhead as ->. rewrite bool_decide_true by done. done.
  - rewrite bool_decide_false by congruence. simpl. rewrite orb_true_r.
    pose proof (digits_value_positive (map (λ c, c - 48) cs) (c - 48) ltac:(lia) Hnn).
    destruct (Z.eqb_spec (digits_value 10 (c - 48) (map (λ c, c - 48) cs)) 0); [lia|].
    unfold digits_value in *. simpl. destruct (Z.eqb_spec (foldl (λ acc d, acc * 10 + d) (0 * 10 + (c - 48)) (map (λ c, c - 48) cs)) 0) as [E|]; [|done].
    exfalso. replace (0 * 10 + (c - 48)) with (c - 48) in E by lia. done.
Qed.

(** Installation keeps the truth value the optimizer assumes. *)
Lemma stage_constant_denotes `{Allocator} value installed : constant_ok value →
  stage_constant (CompiledConstant.Value value) = Ok installed → denotes value installed.
Proof.
  intros Hok. destruct value as [n|s|b|t]; cbn [stage_constant].
  - intros [= <-]. unfold denotes, constant_truthiness. apply describes_truthiness. unfold OperandStack.to_boolean.
    cbn [primitive_to_boolean]. assert (JsNumber.as_f64 (JsNumber.from_f64 n) = n) as ->; [|done].
    destruct (JsNumber.from_f64 n) as [z|f] eqn:E; simpl.
    + by apply from_f64_int in E as [_ ->].
    + unfold JsNumber.from_f64 in E. by repeat case_match; simplify_eq.
  - intros (r & Hr & <-)%fmap_Ok. unfold denotes, constant_truthiness. apply describes_truthiness.
    apply map_err_Ok, runtime_string_len in Hr. unfold OperandStack.to_boolean. simpl.
    unfold JsString.is_empty, string_is_empty. by rewrite Hr.
  - intros E. inv_ok. subst. rename select (lift _ = Ok _) into Hx. clear Hx.
    rename select (lift _ = Ok _) into Hb. apply lift_Ok, ok_or_Ok in Hb.
    rename select (relabel _ _ = Ok _) into Hr. apply map_err_Ok in Hr.
    unfold denotes. rewrite (staged_bigint b _ Hok _ Hb Hr). by apply describes_truthiness.
  - intros E. inv_ok. by subst.
Qed.

(** The pool of the running function, against the one the optimizer saw. *)
Definition pool_ok (inputs : ConstantInputs) (pool : list InstalledConstant) : Prop :=
  ∀ n value installed, constants inputs !! n = Some (CompiledConstant.Value value) →
    pool !! n = Some installed → denotes value installed.

Lemma staged_pool_ok `{Allocator} inputs pool :
  Forall (λ c, from_option constant_ok True (CompiledConstant.value c)) (constants inputs) →
  Forall2 (λ c i, stage_constant c = Ok i) (constants inputs) pool → pool_ok inputs pool.
Proof.
  intros Hok Hf n value installed Hn Hp.
  apply Forall_lookup_1 with (i := n) (x := CompiledConstant.Value value) in Hok; [|done]. simpl in Hok.
  apply (Forall2_lookup_lr _ _ _ n _ _ Hf Hn) in Hp. by apply stage_constant_denotes.
Qed.

(** The descriptions of the running function's atoms. *)
Definition atoms_ok (inputs : ConstantInputs) (installed : list Repr) : Prop :=
  ∀ n atom string, atoms inputs !! n = Some atom → installed !! n = Some string →
    JsString.is_empty string = string_is_empty (atom_string atom).

(** The heap's fresh values are ordinary. *)
Definition allocation_ok (allocation : OperandStack.Allocation) : Prop :=
  is_html_dda (StoredValue.Object (OperandStack.new_object allocation)) = false ∧
  is_html_dda (StoredValue.Function (OperandStack.new_function allocation)) = false.
End constants.

(** ** Straight-line arms *)

Section transfer.
Context `{Allocator}.
Context (is_html_dda : StoredValue → bool) (installed_atoms : list Repr) (inputs : ConstantInputs).
Local Notation js v := (OperandStackEntry.JavaScript v).
Local Notation describes := (describes is_html_dda).
Local Notation aligned := (aligned is_html_dda).
Local Notation to_boolean := (OperandStack.to_boolean is_html_dda).
Implicit Types (a : list AbstractValue) (s : operands).

Lemma pop_Ok s r v : OperandStack.pop s = Ok (r, v) ↔ s = r ++ [js v].
Proof.
  unfold OperandStack.pop. split.
  - intros E. inv_ok. destruct x as [r' e]. inv_ok. simplify_eq.
    rename select (vec_pop _ = _) into Hp. apply vec_pop_Some in Hp as ->.
    rename select (OperandStack.entry_value _ _ = _) into He. by destruct e; simplify_eq/=.
  - intros ->. by rewrite vec_pop_snoc.
Qed.

Lemma drop_entry_Ok s r : OperandStack.drop_stack_entry s = Ok r ↔ ∃ e, s = r ++ [e].
Proof.
  unfold OperandStack.drop_stack_entry. split.
  - intros E. inv_ok. destruct x as [r' e]. inv_ok. subst.
    rename select (vec_pop _ = _) into Hp. apply vec_pop_Some in Hp as ->. by exists e.
  - intros [e ->]. by rewrite vec_pop_snoc.
Qed.

Lemma peek_Ok s v : OperandStack.peek s = Ok v ↔ ∃ r, s = r ++ [js v].
Proof.
  unfold OperandStack.peek. split.
  - intros E. inv_ok. rename select (last _ = _) into Hl. apply last_Some in Hl as [r ->].
    destruct x; simplify_eq/=. by exists r.
  - intros [r ->]. by rewrite last_snoc.
Qed.

Lemma stack_value_last s v : OperandStack.stack_value_at s (length s - 1) = Ok v →
  ∃ r, s = r ++ [js v].
Proof.
  unfold OperandStack.stack_value_at. intros E. inv_ok. destruct s as [|e s _] using rev_ind; [done|].
  rewrite length_app in *. simpl in *. rewrite lookup_app_r in * by lia.
  replace (length s + 1 - 1 - length s)%nat with O in * by lia. simplify_eq/=. exists s. by destruct x; simplify_eq/=.
Qed.

Lemma push_value_Ok a x a' : push_value a x = Ok a' → a' = a ++ [x].
Proof. unfold push_value. intros E. inv_ok. done. Qed.

Lemma pop_value_snoc a x : pop_value (a ++ [x]) = Ok (a, x).
Proof. unfold pop_value. by rewrite vec_pop_snoc. Qed.

(** The tail operations on a stack split at their depth. *)
Lemma duplicate_tail_app a l n a' : length l = n → duplicate_tail (a ++ l) n = Ok a' → a' = (a ++ l) ++ l.
Proof.
  intros Hl. unfold duplicate_tail. rewrite (checked_sub_app a l n Hl). simpl. intros E. inv_ok. subst.
  by rewrite drop_app_length.
Qed.

Lemma insert_top_copy_app a l n x a' : length l = n → last (a ++ l) = Some x →
  insert_top_copy (a ++ l) n = Ok a' → a' = a ++ x :: l.
Proof.
  intros Hl Hx. unfold insert_top_copy. rewrite (checked_sub_app a l n Hl), Hx. simpl. intros E. inv_ok. subst.
  by rewrite take_app_length, drop_app_length.
Qed.

Lemma permute_tail_app a l n f a' : length l = n → permute_tail (a ++ l) n f = Ok a' → a' = a ++ f l.
Proof.
  intros Hl. unfold permute_tail. rewrite (checked_sub_app a l n Hl). simpl. intros E. inv_ok. subst.
  by rewrite take_app_length, drop_app_length.
Qed.

(** The stack of an instruction the optimizer does not interpret. *)
Lemma unknown_effect_Ok a instruction a' : apply_unknown_effect a instruction = Ok a' →
  ∃ e, Instruction.stack_effect instruction = Ok e ∧ 0 ≤ pops e ≤ len a ∧ 0 ≤ pushes e ∧
    a' = take (length a - Z.to_nat (pops e)) a ++ replicate (Z.to_nat (pushes e)) AbstractValue.Overdefined.
Proof.
  unfold apply_unknown_effect. intros E. inv_ok. subst. rename x into e.
  repeat match goal with H : try_usize _ = Some _ |- _ => unfold try_usize in H; case_match; simplify_eq end.
  exists e. rename select (_ <? _ = false)%nat into Hlt. apply Nat.ltb_ge in Hlt.
  repeat match goal with H : _ && _ = true |- _ => apply andb_true_iff in H as [?%Z.leb_le ?%Z.leb_le] end.
  unfold len. split_and!; [done|lia|lia|lia|done].
Qed.

Lemma straight_line_effect opcode operands_ e arm : OperandStack.arm_of opcode = Some arm →
  Instruction.stack_effect (Instruction.mk opcode operands_) = Ok e →
  e = OpcodeMetadata.base_stack_effect (FinalOpcode.metadata opcode).
Proof.
  intros Harm. unfold Instruction.stack_effect, Instruction.is_derived_define_class.
  cbn [Instruction.opcode Instruction.operands].
  destruct (Operands.dynamic_argument_count operands_);
    destruct opcode; try discriminate Harm; by intros [= <-].
Qed.

Lemma unknown_effect_sound a instruction a' e s popped pushed :
  apply_unknown_effect a instruction = Ok a' → Instruction.stack_effect instruction = Ok e →
  len popped = pops e → len pushed = pushes e → aligned a (s ++ popped) → aligned a' (s ++ pushed).
Proof.
  intros (e' & He' & ? & ? & ->)%unknown_effect_Ok He Hpop Hpush Ha.
  assert (e' = e) as -> by congruence.
  replace (Z.to_nat (pops e)) with (length popped) by (unfold len in *; lia).
  replace (Z.to_nat (pushes e)) with (length pushed) by (unfold len in *; lia).
  apply aligned_app; [by apply aligned_drop|apply overdefined_describes].
Qed.
End transfer.

(** Inverts the interpreter's pops, then the alignment of what they found. *)
Ltac inv_pops :=
  repeat match goal with
  | H : OperandStack.pop _ = Ok ?p |- _ => destruct p as [? ?]; apply pop_Ok in H; subst
  | H : OperandStack.drop_stack_entry _ = Ok _ |- _ => apply drop_entry_Ok in H as [? ?]; subst
  | H : OperandStack.peek _ = Ok _ |- _ => apply peek_Ok in H as [? ?]; subst
  | H : (let '(_, _) := ?p in _) = Ok _ |- _ => destruct p as [? ?]
  | H : vec_pop _ = Some _ |- _ => apply vec_pop_Some in H; subst
  | _ => progress inv_ok
  end; subst; unfold OperandStack.push in *.

Ltac inv_aligned :=
  repeat match goal with
  | H : aligned _ _ (_ ++ [_]) |- _ => apply aligned_pop in H as (? & ? & -> & H & ?)
  end.

Section straight_line.
Context `{Allocator}.
Context (is_html_dda : StoredValue → bool) (installed_atoms : list Repr) (inputs : ConstantInputs).
Local Notation js v := (OperandStackEntry.JavaScript v).
Local Notation describes := (describes is_html_dda).
Local Notation aligned := (aligned is_html_dda).
Local Notation to_boolean := (OperandStack.to_boolean is_html_dda).
Implicit Types (a : list AbstractValue) (s : operands).

(** The entries moved by the permutations of the optimizer. *)
Ltac solve_permutation :=
  repeat match goal with
  | H : context [(_ ++ [_]) ++ _] |- _ => rewrite <- app_assoc in H; cbn [app] in H
  end;
  match goal with
  | H : permute_tail _ _ _ = Ok _ |- _ => apply permute_tail_app in H; [subst|reflexivity]
  | H : duplicate_tail _ _ = Ok _ |- _ => apply duplicate_tail_app in H; [subst|reflexivity]
  | H : insert_top_copy (_ ++ ?l) _ = Ok _ |- _ =>
      eapply insert_top_copy_app in H; [|reflexivity|rewrite last_app; reflexivity]; subst
  end;
  rewrite <- !app_assoc; cbn [app]; apply aligned_app; [done|];
  cbn; repeat constructor; done.

Lemma insert3_sound a s a' s' : aligned a s → insert_top_copy a 3 = Ok a' →
  OperandStack.execute_insert3 s = Ok s' → aligned a' s'.
Proof.
  intros Ha Ht Hs. unfold OperandStack.execute_insert3 in Hs.
  destruct (OperandStack.holds_retained_reference s); inv_pops; inv_aligned; solve_permutation.
Qed.

Lemma dup1_sound a s a' r top index v :
  aligned a s → s = r ++ [js top] → checked_sub_len r 1 = Some index →
  OperandStack.stack_value_at r index = Ok v → duplicate_below_top a = Ok a' →
  aligned a' (OperandStack.push (OperandStack.push r v) top).
Proof.
  intros Ha -> Hi Hv Ht. apply checked_sub_Some in Hi as Hi'. destruct Hi' as (b & c & Hr & Hb & Hc).
  assert (index = (length r - 1)%nat) as -> by (rewrite Hr, length_app; lia).
  apply stack_value_last in Hv as [r' ->]. clear Hr. inv_aligned. unfold duplicate_below_top in Ht.
  rewrite pop_value_snoc in Ht. cbn in Ht. rewrite last_snoc in Ht. inv_ok.
  repeat match goal with H : push_value _ _ = Ok _ |- _ => apply push_value_Ok in H; subst end.
  simplify_eq. unfold OperandStack.push. by repeat apply aligned_push.
Qed.

Lemma permutation_sound opcode operands_ a s a' s' :
  OperandStack.arm_of opcode = Some OperandStack.PermutationArm →
  aligned a s → transfer_stack a (Instruction.mk opcode operands_) inputs = Ok a' →
  OperandStack.execute_permutation opcode s = Ok s' → aligned a' s'.
Proof.
  intros Harm Ha Ht Hs.
  destruct opcode; try discriminate Harm; clear Harm; cbn in Ht, Hs; try discriminate Hs.
  - (* drop *) inv_pops. rewrite <- (app_nil_r s').
    pose proof Ht as (e & He & _)%unknown_effect_Ok.
    assert (e = mkStackEffect 1 0) as -> by (by eapply (straight_line_effect FinalOpcode.Drop)).
    by eapply (unknown_effect_sound is_html_dda _ _ _ _ _ [x]).
  - (* nip *) inv_pops. inv_aligned. unfold nip in Ht. rewrite pop_value_snoc in Ht. cbn in Ht.
    rewrite pop_value_snoc in Ht. cbn in Ht. apply push_value_Ok in Ht as ->. by apply aligned_push.
  - (* dup *) inv_pops. inv_aligned. unfold duplicate_top in Ht. rewrite last_snoc in Ht. cbn in Ht.
    apply push_value_Ok in Ht as ->. by repeat apply aligned_push.
  - (* dup1 *) inv_pops. by eapply dup1_sound.
  - inv_pops. inv_aligned. solve_permutation.
  - inv_pops. inv_aligned. solve_permutation.
  - inv_pops. inv_aligned. solve_permutation.
  - by eapply insert3_sound.
  - inv_pops. inv_aligned. solve_permutation.
  - inv_pops. inv_aligned. solve_permutation.
  - inv_pops. inv_aligned. solve_permutation.
  - inv_pops. inv_aligned. solve_permutation.
  - inv_pops. inv_aligned. solve_permutation.
  - inv_pops. inv_aligned. solve_permutation.
  - inv_pops. inv_aligned. solve_permutation.
  - inv_pops. inv_aligned. solve_permutation.
Qed.

Lemma predicate_sound opcode operands_ a s a' s' :
  OperandStack.arm_of opcode = Some OperandStack.PredicateArm →
  aligned a s → transfer_stack a (Instruction.mk opcode operands_) inputs = Ok a' →
  OperandStack.execute_predicate is_html_dda opcode s = Ok s' → aligned a' s'.
Proof.
  intros Harm Ha Ht Hs.
  destruct opcode; try discriminate Harm; clear Harm; cbn in Ht, Hs; try discriminate Hs.
  all: try (inv_pops; inv_aligned; unfold map_predicate, map_unary, strict_equality in Ht;
    rewrite pop_value_snoc in Ht; cbn in Ht; try (rewrite pop_value_snoc in Ht; cbn in Ht);
    apply push_value_Ok in Ht as ->; apply aligned_push; [done|]).
  - destruct (AbstractValue.truthiness x0) as [b|] eqn:Eb; [|done]. simpl.
    rename select (describes x0 _) into Hd.
    destruct (describes_truth is_html_dda _ _ _ Eb Hd) as (v & [= <-] & Hv). by rewrite Hv.
  - apply describes_boolean. intros c Hc. rewrite decide_False in Hc by done. rewrite decide_True by done.
    by eapply strict_equal_sound.
  - apply describes_boolean. intros c Hc. rewrite decide_True in Hc by done. rewrite decide_False by done.
    destruct (AbstractValue.strict_equal _ _) as [d|] eqn:E; simplify_eq/=. f_equal. by eapply strict_equal_sound.
  - apply describes_boolean. intros c Hc. by eapply is_nullish_sound.
  - inv_ok. subst. rewrite <- (app_nil_r s') in *.
    pose proof Ht as (e & He & _)%unknown_effect_Ok.
    assert (e = mkStackEffect 0 0) as -> by (by eapply (straight_line_effect FinalOpcode.Nop)).
    by eapply (unknown_effect_sound is_html_dda _ _ _ _ _ []).
  - apply describes_boolean. intros c Hc. by eapply is_null_sound.
Qed.

(** A template site that remembers its fresh object keeps the pool described. *)
Lemma pool_remembers pool n elements object :
  pool_ok is_html_dda inputs pool → is_html_dda (StoredValue.Object object) = false →
  pool !! n = Some (InstalledConstant.TemplateObject elements None) →
  pool_ok is_html_dda inputs (<[n := InstalledConstant.TemplateObject elements (Some object)]> pool).
Proof.
  intros Hpool Hfresh Hn m value installed Hm Hp. destruct (decide (m = n)) as [->|Hne].
  - rewrite list_lookup_insert_eq in Hp by (by eapply lookup_lt_Some). simplify_eq.
    pose proof (Hpool _ _ _ Hm Hn) as Hd. simpl in Hd |- *. rewrite Hd. eexists. split; [done|].
    unfold OperandStack.to_boolean. simpl. by rewrite Hfresh.
  - rewrite list_lookup_insert_ne in Hp by done. by eapply Hpool.
Qed.

Lemma materialize_sound pool pool' index allocated v :
  pool_ok is_html_dda inputs pool → is_html_dda (StoredValue.Object allocated) = false →
  OperandStack.materialize_constant pool index allocated = Ok (v, pool') →
  describes (from_option constant_truthiness AbstractValue.Overdefined
    (ConstantInputs.constant inputs index ≫= CompiledConstant.value)) (js v)
  ∧ pool_ok is_html_dda inputs pool'.
Proof.
  intros Hpool Hfresh Hm. unfold OperandStack.materialize_constant in Hm. inv_ok.
  rename x into installed. rename select (pool !! _ = _) into Hi.
  assert (∀ value, ConstantInputs.constant inputs index ≫= CompiledConstant.value = Some value →
    denotes is_html_dda value installed) as Hden.
  { intros value (c & Hc & Hv)%bind_Some. unfold ConstantInputs.constant in Hc.
    apply bind_Some in Hc as (n & Hn & Hc). destruct c as [value'|]; simplify_eq/=.
    eapply Hpool; [|exact Hi]. unfold try_usize in Hn. case_match; simplify_eq. exact Hc. }
  destruct installed as [n|t|b|elements [o|]|]; inv_ok; simplify_eq; (split; [|done || by apply pool_remembers]);
    destruct (ConstantInputs.constant inputs index ≫= CompiledConstant.value) as [value|] eqn:Ev;
    cbn [from_option]; try done; specialize (Hden value eq_refl); try done.
  simpl in Hden. rewrite Hden. eexists. split; [done|]. unfold OperandStack.to_boolean. simpl. by rewrite Hfresh.
Qed.

Lemma atom_describes index r :
  atoms_ok inputs installed_atoms → installed_atoms !! Z.to_nat index = Some r →
  describes (from_option (λ atom, if string_is_empty (atom_string atom) then AbstractValue.KnownFalsy
    else AbstractValue.KnownTruthy) AbstractValue.Overdefined (ConstantInputs.atom inputs index))
    (js (StoredValue.String r)).
Proof.
  intros Hok Hr. destruct (ConstantInputs.atom inputs index) as [atom|] eqn:E; [|done]. cbn [from_option].
  unfold ConstantInputs.atom in E. apply bind_Some in E as (n & Hn & Ha).
  unfold try_usize in Hn. case_match; simplify_eq. pose proof (Hok _ _ _ Ha Hr) as He. rewrite <- He.
  destruct (JsString.is_empty r) eqn:Er; (eexists; split; [done|]);
    unfold OperandStack.to_boolean; cbn [primitive_to_boolean]; by rewrite Er.
Qed.

Lemma push_sound opcode operands_ allocation a s a' s' pool pool' :
  OperandStack.arm_of opcode = Some OperandStack.PushArm → Operands.in_range operands_ →
  atoms_ok inputs installed_atoms → pool_ok is_html_dda inputs pool → allocation_ok is_html_dda allocation →
  aligned a s → transfer_stack a (Instruction.mk opcode operands_) inputs = Ok a' →
  OperandStack.execute_push installed_atoms opcode operands_ allocation s pool = Ok (s', pool') →
  aligned a' s' ∧ pool_ok is_html_dda inputs pool'.
Proof.
  intros Harm Hrange Hatoms Hpool [Hfo Hff] Ha Ht Hs.
  destruct opcode; try discriminate Harm; clear Harm; cbn in Ht, Hs;
    unfold push_i8, push_i16, push_i32, push_constant, push_atom in *;
    try (destruct operands_; cbn in Ht, Hs; try discriminate; simpl in Hrange); inv_ok; simplify_eq;
    repeat match goal with H : push_value _ _ = Ok _ |- _ => apply push_value_Ok in H as -> end;
    try (destruct x as [v pool1]; inv_ok; simplify_eq);
    try (match goal with H : OperandStack.materialize_constant _ _ _ = _ |- _ =>
      eapply materialize_sound in H as [Hd ?]; [|done..]; split; [by apply aligned_push|done] end);
    (split; [apply aligned_push; [done|]|done]).
  all: try (split; [unfold is_i32, is_i8, is_i16 in *; lia|done]).
  all: try (eexists; split; [done|]; unfold OperandStack.to_boolean; cbn [primitive_to_boolean];
            rewrite ?Hfo, ?Hff; done).
  all: try done.
  unfold OperandStack.atom_description in *. inv_ok. by apply atom_describes.
Qed.

Lemma straight_line_sound opcode operands_ allocation a s a' s' pool pool' :
  Operands.in_range operands_ → atoms_ok inputs installed_atoms → pool_ok is_html_dda inputs pool →
  (OperandStack.arm_of opcode = Some OperandStack.PushArm → allocation_ok is_html_dda allocation) →
  aligned a s → transfer_stack a (Instruction.mk opcode operands_) inputs = Ok a' →
  OperandStack.execute_straight_line is_html_dda installed_atoms opcode operands_ allocation s pool
    = Ok (s', pool') →
  aligned a' s' ∧ pool_ok is_html_dda inputs pool'.
Proof.
  intros Hr Hat Hp Hal Ha Ht. unfold OperandStack.execute_straight_line.
  destruct (OperandStack.arm_of opcode) as [[]|] eqn:Harm; [|..|done].
  - intros Hs. eapply push_sound; by eauto.
  - intros Hs. inv_ok. simplify_eq. split; [by eapply permutation_sound|done].
  - intros Hs. inv_ok. simplify_eq. split; [by eapply predicate_sound|done].
Qed.
End straight_line.
