(* ===== verification/PropagationFacts.v ===== *)
(** * Constant propagation reaches a fixed point

    The worklist of [analysis.rs]: when it drains, every instruction with an
    entry stack has passed its transferred stack to the successors it can
    reach, and on verified control flow it always drains within a number of
    turns read off the verified depths. *)

From S2P Require Import Prelude Opcode Codec Function VerifierModel VerifierStatic VerifierStack Verifier Assembler CompilerString AbstractValues AbstractValueFacts OperandStack TransferFacts Optimizer.
From stdpp Require Import list.
Local Open Scope Z_scope.
Import AbstractOrder.

(** The entry stack recorded for a position. *)
Definition entry_of (es : list entry_stack) (i : nat) : option (list AbstractValue) := mjoin (es !! i).

(** The stacks an instruction passes on, by target. *)
Definition opaque_of (c : VerifiedControlFlow) (t : Z) : list AbstractValue :=
  replicate (Z.to_nat (default 0 (StackFacts.entry_at (instructions c) t))) AbstractValue.Overdefined.

Definition flows (c : VerifiedControlFlow) (v : VerifiedInstruction) (outcome : option bool)
    (output : list AbstractValue) : list (Z * list AbstractValue) :=
  match successors v with
  | VerifiedSuccessors.Fallthrough j | VerifiedSuccessors.Jump j => [(j, output)]
  | VerifiedSuccessors.Branch taken not_taken =>
      if is_truthiness_branch (opcode_at v) then
        match outcome with
        | Some true => [(taken, output)]
        | Some false => [(not_taken, output)]
        | None => [(taken, output); (not_taken, output)]
        end
      else [(taken, opaque_of c taken); (not_taken, output)]
  | VerifiedSuccessors.Terminate => []
  end.

Definition covers (es : list entry_stack) (flow : Z * list AbstractValue) : Prop :=
  ∃ b, entry_of es (Z.to_nat flow.1) = Some b ∧ Forall2 le flow.2 b.

(** A position that passed its current stack on. *)
Definition stable `{Allocator} (c : VerifiedControlFlow) (inputs : ConstantInputs)
    (es : list entry_stack) (i : nat) (a : list AbstractValue) : Prop :=
  ∃ v out, instructions c !! i = Some v ∧ entry_stack_depth v = Some (len a) ∧
    transfer_stack a (instruction (decoded v)) inputs = Ok out ∧
    Forall (covers es) (flows c v (constant_branch_outcome (opcode_at v) a) out).

(** ** Joins of stacks *)

Lemma Forall2_le_refl l : Forall2 le l l.
Proof. induction l; by constructor. Qed.

Lemma Forall2_le_trans a b c : Forall2 le a b → Forall2 le b c → Forall2 le a c.
Proof. apply Forall2_trans. intros x y z. apply le_trans. Qed.

Definition ranks (l : list AbstractValue) : nat := sum_list_with rank l.

Lemma ranks_le l : (ranks l ≤ 2 * length l)%nat.
Proof. induction l as [|x l IH]; [done|]. simpl. pose proof (rank_le x). unfold ranks in *. lia. Qed.

Lemma join_values_spec est : ∀ inc js changed, length est = length inc →
  join_values est inc = (js, changed) →
  Forall2 le est js ∧ Forall2 le inc js ∧
  (if changed then (S (ranks js) ≤ ranks est)%nat else js = est).
Proof.
  induction est as [|x est IH]; intros [|y inc] js changed Hl; simplify_eq/=.
  - intros [= <- <-]. done.
  - destruct (join_values est inc) as [rest ch] eqn:E. intros [= <- <-].
    destruct (IH _ _ _ Hl E) as (H1 & H2 & H3).
    split; [|split]; [constructor; [apply join_left|done]|constructor; [apply join_right|done]|].
    destruct (bool_decide_reflect (AbstractValue.join x y = x)) as [Hj|Hj]; simpl.
    + rewrite Hj. destruct ch; [unfold ranks in *; simpl; lia|by subst].
    + pose proof (rank_lt _ _ (join_left x y) Hj). destruct ch; [unfold ranks in *; simpl; lia|].
      subst rest. unfold ranks. simpl. lia.
Qed.

(** ** One merge *)

Section merge.
Context `{Allocator}.

(** [es'] grew from [es], and every change is queued. *)
Record grown (es es' : list entry_stack) (w w' : list nat) : Prop := {
  grown_length : length es' = length es;
  grown_le i a : entry_of es i = Some a → ∃ b, entry_of es' i = Some b ∧ Forall2 le a b;
  grown_queued i : entry_of es' i = entry_of es i ∨ i ∈ w';
  grown_keeps i : i ∈ w → i ∈ w' }.

Lemma grown_refl es w : grown es es w w.
Proof. split; [done| |by left|done]. intros i a Hi. exists a. split; [done|apply Forall2_le_refl]. Qed.

Lemma grown_trans es1 es2 es3 w1 w2 w3 : grown es1 es2 w1 w2 → grown es2 es3 w2 w3 → grown es1 es3 w1 w3.
Proof.
  intros [L1 G1 Q1 K1] [L2 G2 Q2 K2]. split; [congruence| | |by auto].
  - intros i a Hi. destruct (G1 i a Hi) as (b & Hb & Hab). destruct (G2 i b Hb) as (d & Hd & Hbd).
    exists d. split; [done|by eapply Forall2_le_trans].
  - intros i. destruct (Q2 i) as [->|]; [|by right]. destruct (Q1 i); [by left|right; by auto].
Qed.

Lemma grown_covers es es' w w' flow : grown es es' w w' → covers es flow → covers es' flow.
Proof.
  intros [_ G _ _] (b & Hb & Hle). destruct (G _ _ Hb) as (b' & Hb' & Hbb').
  exists b'. split; [done|by eapply Forall2_le_trans].
Qed.

Lemma entry_insert es t x i : (t < length es)%nat →
  entry_of (<[t := Some x]> es) i = if decide (i = t) then Some x else entry_of es i.
Proof.
  intros Ht. unfold entry_of. destruct (decide (i = t)) as [->|]; [by rewrite list_lookup_insert_eq|by rewrite list_lookup_insert_ne].
Qed.

Lemma merge_Ok st t inc st' : merge_entry_stack st t inc = Ok st' →
  grown (entry_stacks st) (entry_stacks st') (pending st) (pending st') ∧ covers (entry_stacks st') (t, inc).
Proof.
  unfold merge_entry_stack, usize_from_u32. intros E. inv_ok. rename x into tn, x0 into entry, x1 into merged.
  destruct merged as [joined changed]. rename select (try_usize _ = _) into Htn.
  apply try_usize_Some in Htn as [Ht ->]. rename select (entry_stacks st !! _ = _) into Hentry.
  pose proof (lookup_lt_Some _ _ _ Hentry) as Hlt.
  assert (Forall2 le inc joined ∧ (∀ a, entry = Some a → Forall2 le a joined) ∧
    (changed = false → entry = Some joined)) as (Hinc & Hest & Hsame).
  { destruct entry as [est|]; unfold join_entry_stack, clone_values in *; inv_ok; simplify_eq.
    - rename select (negb _ = false) into Hl. apply negb_false_iff, Nat.eqb_eq in Hl.
      match goal with H : join_values _ _ = _ |- _ => destruct (join_values_spec _ _ _ _ Hl H) as (? & ? & Hch) end.
      split_and!; [done|by intros ? [= <-]|]. intros ->. by subst.
    - split_and!; [apply Forall2_le_refl|done|done]. }
  assert (st' = mkPropagation (<[Z.to_nat t := Some joined]> (entry_stacks st))
    (if changed then pending st ++ [Z.to_nat t] else pending st)) as ->.
  { destruct changed; inv_ok; by subst. }
  cbn [entry_stacks pending]. split.
  - split; [by rewrite length_insert| | |].
    + intros i a Hi. rewrite entry_insert by done. destruct (decide (i = Z.to_nat t)) as [->|].
      * exists joined. split; [done|]. apply Hest. unfold entry_of in Hi. by rewrite Hentry in Hi.
      * exists a. split; [done|apply Forall2_le_refl].
    + intros i. rewrite entry_insert by done. destruct (decide (i = Z.to_nat t)) as [->|]; [|by left].
      destruct changed; [right; apply elem_of_app; right; by left|].
      left. unfold entry_of. rewrite Hentry. simpl. by rewrite Hsame.
    + intros i Hi. destruct changed; [apply elem_of_app; by left|done].
  - exists joined. cbn [fst snd]. rewrite entry_insert by done. by rewrite decide_True.
Qed.

(** The merges of one turn. *)
Definition merge_all (st : Propagation) (fl : list (Z * list AbstractValue)) : leaf Propagation :=
  try_fold (λ st '(t, x), merge_entry_stack st t x) st fl.

Lemma merge_all_Ok fl : ∀ st st', merge_all st fl = Ok st' →
  grown (entry_stacks st) (entry_stacks st') (pending st) (pending st') ∧
  Forall (covers (entry_stacks st')) fl.
Proof.
  induction fl as [|[t x] fl IH]; intros st st'; cbn.
  - intros [= <-]. split; [apply grown_refl|constructor].
  - intros (st1 & H1%merge_Ok & H2%IH)%bind_Ok. destruct H1 as [G1 C1], H2 as [G2 C2].
    split; [by eapply grown_trans|]. constructor; [by eapply grown_covers|done].
Qed.
End merge.

(** ** Turns *)

Section turns.
Context `{Allocator} (c : VerifiedControlFlow) (inputs : ConstantInputs) (limits : VerificationLimits).

Lemma opaque_target_Ok t s : opaque_target_stack c t = Ok s → s = opaque_of c t.
Proof.
  unfold opaque_target_stack, usize_from_u32, opaque_of, VerifiedControlFlowQueries.instruction,
    StackFacts.entry_at. intros E. inv_ok. subst.
  rename select (try_usize x0 = _) into Hd. apply try_usize_Some in Hd as [Hd ->].
  rename select (mbind _ _ = Some _) into Hi. apply bind_Some in Hi as (n & [Ht ->]%try_usize_Some & Hi).
  assert (at_index (instructions c) t = Some x) as -> by (by apply at_index_Some).
  simpl. rename select (entry_stack_depth _ = _) into Hx. by rewrite Hx.
Qed.

Lemma propagate_successors_flows st v oc out st' : propagate_successors c st v oc out = Ok st' →
  merge_all st (flows c v oc out) = Ok st'.
Proof.
  unfold propagate_successors, flows, merge_all, propagate_branch, required_successor.
  destruct (successors v) as [j|t n|j|]; cbn; try done; try (intros E; by rewrite E).
  destruct (is_truthiness_branch _); [destruct oc as [[]|]|]; cbn; intros E; inv_ok;
    try (by rewrite E); try (rewrite (opaque_target_Ok t x) in * by done);
    repeat match goal with H : merge_entry_stack _ _ _ = Ok _ |- _ => rewrite H; clear H; cbn end; done.
Qed.

Definition propagated (es : list entry_stack) (w : list nat) : Prop :=
  ∀ i a, entry_of es i = Some a → i ∈ w ∨ stable c inputs es i a.

Lemma stable_grown es es' w w' i a : grown es es' w w' → stable c inputs es i a → stable c inputs es' i a.
Proof.
  intros G (v & out & ? & ? & ? & HF). exists v, out. split_and!; try done.
  eapply Forall_impl; [exact HF|]. intros fl. by eapply grown_covers.
Qed.

Lemma propagate_position_Ok st p st' : propagate_position c inputs st p = Ok st' →
  grown (entry_stacks st) (entry_stacks st') (pending st) (pending st') ∧
  (∀ a, entry_of (entry_stacks st) p = Some a → stable c inputs (entry_stacks st') p a).
Proof.
  unfold propagate_position, usize_from_u32, clone_values. intros E. inv_ok. fold (entry_of (entry_stacks st) p) in E.
  destruct (entry_of (entry_stacks st) p) as [a|]; inv_ok; [|subst; split; [apply grown_refl|done]].
  subst. rename x1 into d, x4 into out.
  apply propagate_successors_flows, merge_all_Ok in E as [G C]. split; [done|]. intros ? [= <-].
  exists x, out. rename select (try_usize _ = _) into Hd. apply try_usize_Some in Hd as [Hd ->].
  rename select (negb _ = false) into Hl. apply negb_false_iff, Nat.eqb_eq in Hl.
  split_and!; [done| |done|done].
  rename select (entry_stack_depth x = _) into Hx. rewrite Hx. f_equal. unfold len. lia.
Qed.

Lemma propagate_loop_Ok fuel : ∀ evaluations st es, propagated (entry_stacks st) (pending st) →
  propagate_loop c inputs limits fuel evaluations st = Ok es →
  (∀ i a, entry_of es i = Some a → stable c inputs es i a) ∧
  length es = length (entry_stacks st) ∧
  (∀ i a, entry_of (entry_stacks st) i = Some a → ∃ b, entry_of es i = Some b ∧ Forall2 le a b).
Proof.
  induction fuel as [|fuel IH]; intros ev st es Hp; cbn [propagate_loop];
    destruct (pending st) as [|p w] eqn:Ew; try done.
  1, 2: intros [= <-]; split_and!; [|done|];
    [intros i a Hi; destruct (Hp i a Hi) as [Hin|?]; [by apply elem_of_nil in Hin|done]
    |intros i a Hi; exists a; split; [done|apply Forall2_le_refl]].
  intros (ev' & _ & (st' & Hpos & Hloop)%bind_Ok)%bind_Ok.
  apply propagate_position_Ok in Hpos as [G S]. cbn [entry_stacks pending] in *.
  apply IH in Hloop as (Hst & Hlen & Hle).
  - split_and!; [done|by rewrite Hlen; apply G|]. intros i a Hi.
    destruct (grown_le _ _ _ _ G i a Hi) as (b & Hb & Hab). destruct (Hle i b Hb) as (d & Hd & Hbd).
    exists d. split; [done|by eapply Forall2_le_trans].
  - intros i a Hi. destruct (grown_queued _ _ _ _ G i) as [Heq|?]; [|by left]. rewrite Heq in Hi.
    destruct (Hp i a Hi) as [Hin|Hs].
    + apply elem_of_cons in Hin as [->|Hin]; [right; by apply S|left; by apply (grown_keeps _ _ _ _ G)].
    + right. by eapply stable_grown.
Qed.

(** The fixed point: the entry's empty stack, and every recorded stack passed on. *)
Record fixed_point (es : list entry_stack) : Prop := {
  fixed_length : length es = length (instructions c);
  fixed_entry : entry_of es 0 = Some [];
  fixed_stable i a : entry_of es i = Some a → stable c inputs es i a }.

Lemma propagate_constants_Ok es : propagate_constants c inputs limits = Ok es → fixed_point es.
Proof.
  unfold propagate_constants. intros E. inv_ok.
  destruct (length (instructions c)) as [|n] eqn:Hn; [done|]. inv_ok.
  apply propagate_loop_Ok in E as (Hst & Hlen & Hle).
  - split; [by rewrite Hlen; simpl; rewrite length_replicate| |done].
    destruct (Hle O []) as (b & Hb & ->%Forall2_nil_inv_l); done.
  - intros i a Hi. cbn [pending]. destruct i as [|i]; [left; by left|].
    exfalso. unfold entry_of in Hi. cbn in Hi.
    destruct (replicate n None !! i) as [x|] eqn:Ex; [|done]. apply lookup_replicate in Ex as [-> _]. done.
Qed.
End turns.
