(* ===== verification/OptimizerSound.v ===== *)
(** * Executions follow the propagated facts

    A frame of the interpreter as a step relation over the verified control
    flow: the arms modelled in [OperandStack] as they are written, every other
    instruction as any exchange of operands its stack effect allows.  Along
    every run the entry stack the optimizer computed describes the operand
    stack, so an instruction it found unreachable never executes and a branch
    it decided goes the decided way. *)

From S2P Require Import Prelude RuntimePrelude Opcode Codec Function VerifierModel VerifierStatic VerifierStack Verifier Assembler JsStrings Values CompilerString AbstractValues AbstractValueFacts OperandStack TransferFacts Optimizer PropagationFacts.
From stdpp Require Import list relations.
Import StoredValue(StoredValue) OperandStackEntry(OperandStackEntry) InstalledConstant(InstalledConstant).
Local Open Scope Z_scope.

(** ** Frames *)

Module Frame.

(** The part of a frame the optimizer reasons about: the index of the next
    instruction, the operand stack and the function's constant pool. *)
Record Frame : Set := mkFrame {
  instruction_index : Z;
  stack : operands;
  pool : list InstalledConstant }.

(** A marker that remembers where to go on. *)
Definition is_control_marker (entry : OperandStackEntry) : bool :=
  match entry with
  | OperandStackEntry.Catch _ | OperandStackEntry.FinallyReturn _ => true
  | _ => false
  end.

Definition inert (entries : operands) : Prop := Forall (λ e, is_control_marker e = false) entries.

(** An exchange of the top operands within the stack effect of [instruction]. *)
Definition exchanges (instruction : Instruction) (stack stack' : operands) : Prop :=
  ∃ effect rest popped pushed, Instruction.stack_effect instruction = Ok effect ∧
    stack = rest ++ popped ∧ len popped = pops effect ∧
    stack' = rest ++ pushed ∧ len pushed = pushes effect ∧ inert pushed.

Section frame.
Context (is_html_dda : StoredValue → bool) (installed_atoms : list Repr).

(** What calls made meanwhile do to the pool: template sites remember objects. *)
Definition remembered (before after : InstalledConstant) : Prop :=
  after = before ∨
  ∃ elements object, before = InstalledConstant.TemplateObject elements None ∧
    after = InstalledConstant.TemplateObject elements (Some object) ∧
    is_html_dda (StoredValue.Object object) = false.

Definition pool_advances : relation (list InstalledConstant) := Forall2 remembered.

(** The entry check of the interpreter, at some correction. *)
Definition admits (control_flow : VerifiedControlFlow) (frame : Frame) : Prop :=
  ∃ verified correction,
    VerifiedControlFlowQueries.instruction control_flow (instruction_index frame) = Some verified ∧
    0 ≤ correction ∧ OperandStack.check_entry_depth verified correction (stack frame) = Ok tt.

Definition is_with_opcode (opcode : FinalOpcode) : bool :=
  match opcode with
  | FinalOpcode.WithGetVar | FinalOpcode.WithPutVar | FinalOpcode.WithDeleteVar
  | FinalOpcode.WithMakeRef | FinalOpcode.WithGetRef => true
  | _ => false
  end.

(** What executing [verified] can do to the frame. *)
Inductive executes (verified : VerifiedInstruction) (s : operands) (p : list InstalledConstant) :
    Frame → Prop :=
| executes_straight_line allocation s' p' next :
    (OperandStack.arm_of (opcode_at verified) = Some OperandStack.PushArm →
     allocation_ok is_html_dda allocation) →
    OperandStack.execute_straight_line is_html_dda installed_atoms (opcode_at verified)
      (Instruction.operands (instruction (decoded verified))) allocation s p = Ok (s', p') →
    VerifiedSuccessors.fallthrough (successors verified) = Some next →
    executes verified s p (mkFrame next s' p')
| executes_branch s' next :
    is_truthiness_branch (opcode_at verified) = true →
    OperandStack.execute_branch is_html_dda verified (opcode_at verified) s = Ok (s', next) →
    executes verified s p (mkFrame next s' p)
| executes_goto next :
    OpcodeSemantics.successor_shape (opcode_semantics (opcode_at verified)) = Some SuccessorShape.Jump →
    OperandStack.execute_goto verified = Ok next →
    executes verified s p (mkFrame next s p)
| executes_catch s' next :
    opcode_at verified = FinalOpcode.Catch →
    OperandStack.execute_catch verified s = Ok s' →
    OperandStack.branch_successor verified false = Ok next →
    executes verified s p (mkFrame next s' p)
| executes_gosub s' next :
    opcode_at verified = FinalOpcode.Gosub →
    OperandStack.enter_finally_subroutine verified s = Ok (s', next) →
    executes verified s p (mkFrame next s' p)
| executes_ret s' next :
    opcode_at verified = FinalOpcode.Ret →
    OperandStack.pop_finally_continuation s = Ok (s', next) →
    executes verified s p (mkFrame next s' p)
| executes_with effect rest popped pushed p' (found : bool) next :
    is_with_opcode (opcode_at verified) = true →
    Instruction.stack_effect (instruction (decoded verified)) = Ok effect →
    s = rest ++ popped → len popped = pops effect →
    len pushed = pushes effect + (if found then with_branch_values (opcode_at verified) else 0) →
    inert pushed → pool_advances p p' →
    OperandStack.branch_successor verified found = Ok next →
    executes verified s p (mkFrame next (rest ++ pushed) p')
| executes_other s' p' next :
    OperandStack.arm_of (opcode_at verified) = None →
    exchanges (instruction (decoded verified)) s s' → pool_advances p p' →
    successors verified = VerifiedSuccessors.Fallthrough next →
    executes verified s p (mkFrame next s' p')
| executes_throw marker caught s' p' next :
    OperandStack.enter_handler s marker caught = Ok (s', next) → pool_advances p p' →
    executes verified s p (mkFrame next s' p').

(** A frame passes the entry check, then executes. *)
Inductive step (control_flow : VerifiedControlFlow) : Frame → Frame → Prop :=
| step_executes frame frame' verified :
    VerifiedControlFlowQueries.instruction control_flow (instruction_index frame) = Some verified →
    executes verified (stack frame) (pool frame) frame' →
    admits control_flow frame' →
    step control_flow frame frame'.

Definition runs (control_flow : VerifiedControlFlow) : relation Frame := rtc (step control_flow).
End frame.
End Frame.

(** ** Markers stay where they are *)

Section markers.
Import Frame.
Local Notation js v := (OperandStackEntry.JavaScript v).

(** [stack'] replaced the top of [stack] by entries that are no markers. *)
Definition retops (stack stack' : operands) : Prop :=
  ∃ rest popped pushed, stack = rest ++ popped ∧ stack' = rest ++ pushed ∧ inert pushed.

Lemma retops_push stack v : retops stack (OperandStack.push stack v).
Proof. exists stack, [], [js v]. rewrite app_nil_r. split_and!; [done|done|by repeat constructor]. Qed.

Lemma retops_refl stack : retops stack stack.
Proof. exists stack, [], []. rewrite !app_nil_r. split_and!; [done|done|constructor]. Qed.

Lemma exchanges_retops instruction stack stack' : exchanges instruction stack stack' → retops stack stack'.
Proof. intros (e & r & popped & pushed & ? & ? & ? & ? & ? & ?). by exists r, popped, pushed. Qed.

(** The markers of the new stack were there, over the same entries. *)
Lemma retops_marker stack stack' p e : retops stack stack' → stack' !! p = Some e →
  is_control_marker e = true → stack !! p = Some e ∧ take p stack' = take p stack.
Proof.
  intros (r & popped & pushed & -> & -> & Hin) Hp He.
  destruct (decide (p < length r)%nat) as [Hlt|Hge].
  - rewrite lookup_app_l in * by done. rewrite !take_app_le by lia. done.
  - rewrite lookup_app_r in Hp by lia. eapply Forall_lookup_1 in Hin; [|exact Hp]. simpl in Hin. congruence.
Qed.

Ltac solve_retops :=
  inv_pops; unfold retops; rewrite <- ?app_assoc; cbn [app];
  match goal with |- ∃ _ _ _, ?r ++ ?l = _ ∧ ?r ++ ?k = _ ∧ _ => exists r, l, k end;
  split_and!; [done|done|by repeat constructor].

Lemma insert3_retops stack stack' : OperandStack.execute_insert3 stack = Ok stack' → retops stack stack'.
Proof.
  unfold OperandStack.execute_insert3. destruct (OperandStack.holds_retained_reference stack) eqn:Hh; intros Hs.
  - unfold OperandStack.holds_retained_reference in Hh.
    destruct (checked_sub_len stack 3) as [base|] eqn:Hb; [|done].
    apply checked_sub_Some in Hb as (r & l & -> & <- & Hl). rewrite drop_app_length in Hh.
    destruct l as [|x [|y [|z [|]]]]; try done. destruct x; try done; destruct y; try done; destruct z; try done.
    all: rewrite (app_assoc r [_] [_; _]) in Hs || idtac.
    all: exists r; eexists _, _; split_and!; [done| |].
    all: change [?x; ?y; ?z] with ([x] ++ [y] ++ [z]) in Hs; rewrite !app_assoc in Hs.
    all: unfold OperandStack.pop in Hs; rewrite !vec_pop_snoc in Hs; cbn in Hs;
      rewrite !vec_pop_snoc in Hs; cbn in Hs; rewrite ?vec_pop_snoc in Hs; cbn in Hs;
      injection Hs as <-; unfold OperandStack.push; rewrite <- ?app_assoc; done || (by repeat constructor).
  - solve_retops.
Qed.

Lemma permutation_retops opcode stack stack' :
  OperandStack.execute_permutation opcode stack = Ok stack' → retops stack stack'.
Proof.
  intros Hs. destruct opcode; try discriminate Hs; cbn in Hs.
  all: try (by apply insert3_retops).
  all: try solve_retops.
  inv_pops. exists stack', [x], []. rewrite app_nil_r. split_and!; [done|done|constructor].
Qed.

Lemma predicate_retops is_html_dda opcode stack stack' :
  OperandStack.execute_predicate is_html_dda opcode stack = Ok stack' → retops stack stack'.
Proof.
  intros Hs. destruct opcode; try discriminate Hs; cbn in Hs; try solve_retops.
  inv_ok. subst. apply retops_refl.
Qed.

Lemma execute_push_retops atoms opcode operands_ allocation stack stack' pool pool' :
  OperandStack.execute_push atoms opcode operands_ allocation stack pool = Ok (stack', pool') →
  retops stack stack'.
Proof.
  intros Hs. destruct opcode; try discriminate Hs; cbn in Hs; try (destruct operands_; try discriminate Hs; cbn in Hs);
    inv_ok; try (destruct x as [? ?]; inv_ok); simplify_eq; apply retops_push.
Qed.

Lemma straight_line_retops is_html_dda atoms opcode operands_ allocation stack stack' pool pool' :
  OperandStack.execute_straight_line is_html_dda atoms opcode operands_ allocation stack pool
    = Ok (stack', pool') → retops stack stack'.
Proof.
  unfold OperandStack.execute_straight_line. destruct (OperandStack.arm_of opcode) as [[]|]; [| | |done].
  - apply execute_push_retops.
  - intros E. inv_ok. simplify_eq. by eapply permutation_retops.
  - intros E. inv_ok. simplify_eq. by eapply predicate_retops.
Qed.
End markers.

(** ** The invariant *)

Section soundness.
Import Frame.
Context `{Allocator} (is_html_dda : StoredValue → bool) (installed_atoms : list Repr).
Context (c : VerifiedControlFlow) (inputs : ConstantInputs) (es : list entry_stack).
Context (Hcode : Forall (λ v, Operands.in_range (Instruction.operands (instruction (decoded v)))) (instructions c)).
Context (Hatoms : atoms_ok inputs installed_atoms) (Hfix : fixed_point c inputs es).
Local Notation aligned := (aligned is_html_dda).
Local Notation executes := (executes is_html_dda installed_atoms).

(** A marker leads to an instruction whose entry stack fits what it restores. *)
Definition marker_ok (s : operands) (p : nat) (e : OperandStackEntry) : Prop :=
  match e with
  | OperandStackEntry.Catch h =>
      ∃ b, entry_of es (Z.to_nat h) = Some b ∧ Forall2 AbstractOrder.le (opaque_of c h) b
  | OperandStackEntry.FinallyReturn k =>
      ∃ b, entry_of es (Z.to_nat k) = Some b ∧ aligned b (take p s)
  | _ => True
  end.

Record described (f : Frame) : Prop := {
  described_index : 0 ≤ instruction_index f;
  described_entry : ∃ a, entry_of es (Z.to_nat (instruction_index f)) = Some a ∧ aligned a (stack f);
  described_markers p e : stack f !! p = Some e → marker_ok (stack f) p e;
  described_pool : pool_ok is_html_dda inputs (pool f) }.

Lemma retops_markers s s' : retops s s' →
  (∀ p e, s !! p = Some e → marker_ok s p e) → ∀ p e, s' !! p = Some e → marker_ok s' p e.
Proof.
  intros Hr Hm p e Hp. destruct (is_control_marker e) eqn:He; [|by destruct e].
  destruct (retops_marker _ _ _ _ Hr Hp He) as [Hs Ht]. specialize (Hm p e Hs).
  destruct e; try done. simpl in *. by rewrite Ht.
Qed.

Lemma pool_advances_ok p p' : pool_advances is_html_dda p p' → pool_ok is_html_dda inputs p → pool_ok is_html_dda inputs p'.
Proof.
  intros Hf Hp n value installed Hn Hi.
  destruct (Forall2_lookup_r _ _ _ _ _ Hf Hi) as (before & Hb & [->|(els & o & -> & -> & Ho)]); [by eapply Hp|].
  pose proof (Hp _ _ _ Hn Hb) as Hd. simpl in Hd |- *. rewrite Hd. eexists. split; [done|].
  unfold OperandStack.to_boolean. simpl. by rewrite Ho.
Qed.

Lemma query_lookup i v : VerifiedControlFlowQueries.instruction c i = Some v →
  instructions c !! Z.to_nat i = Some v ∧ 0 ≤ i.
Proof. intros (n & [? ->]%try_usize_Some & Hn)%bind_Some. done. Qed.

(** An admitted frame is no deeper than the verified depth of its index. *)
Lemma admits_depth f : admits c f → 0 ≤ instruction_index f ∧
  (length (stack f) ≤ length (opaque_of c (instruction_index f)))%nat.
Proof.
  intros (v & correction & [Hv Hi]%query_lookup & Hc & Hd). split; [done|].
  unfold OperandStack.check_entry_depth in Hd. inv_ok. subst.
  rename select (negb _ = false) into Hl. apply negb_false_iff, Z.eqb_eq in Hl.
  rename select (entry_stack_depth v = _) into He.
  unfold opaque_of, StackFacts.entry_at. assert (at_index (instructions c) (instruction_index f) = Some v) as ->
    by (by apply at_index_Some). simpl. rewrite He, length_replicate. simpl. unfold len in *. lia.
Qed.

(** A flow that covers the frame's new stack describes it. *)
Lemma covered t out s : covers es (t, out) → aligned out s →
  ∃ b, entry_of es (Z.to_nat t) = Some b ∧ aligned b s.
Proof. intros (b & Hb & Hle) Ha. exists b. split; [done|by eapply aligned_le]. Qed.

Lemma covered_opaque t out s : covers es (t, out) → out = opaque_of c t →
  (length s ≤ length out)%nat → ∃ b, entry_of es (Z.to_nat t) = Some b ∧ aligned b s.
Proof.
  intros Hc -> Hl. eapply covered; [done|]. unfold opaque_of in *. rewrite length_replicate in Hl.
  by apply aligned_opaque.
Qed.

(** What the fixed point says of a described frame's instruction. *)
Lemma described_stable f v : described f → VerifiedControlFlowQueries.instruction c (instruction_index f) = Some v →
  ∃ a out, entry_of es (Z.to_nat (instruction_index f)) = Some a ∧ aligned a (stack f) ∧
    transfer_stack a (instruction (decoded v)) inputs = Ok out ∧
    Forall (covers es) (flows c v (constant_branch_outcome (opcode_at v) a) out).
Proof.
  intros Hd [Hv _]%query_lookup. destruct (described_entry _ Hd) as (a & Ha & Hal).
  destruct (fixed_stable _ _ _ Hfix _ _ Ha) as (v' & out & Hv' & _ & Ht & Hf).
  assert (v' = v) as -> by congruence. by exists a, out.
Qed.

Lemma fallthrough_flows v oc out next : VerifiedSuccessors.fallthrough (successors v) = Some next →
  is_truthiness_branch (opcode_at v) = false → (next, out) ∈ flows c v oc out.
Proof.
  unfold flows. intros Hn ->. destruct (successors v); simplify_eq/=; [by left|right; by left].
Qed.

Lemma taken_flows v oc out next : OperandStack.branch_successor v true = Ok next →
  is_truthiness_branch (opcode_at v) = false → (next, opaque_of c next) ∈ flows c v oc out.
Proof.
  unfold OperandStack.branch_successor, flows. intros Hn ->. destruct (successors v); simplify_eq/=. by left.
Qed.

Lemma unknown_transfer a v out : OperandStack.arm_of (opcode_at v) = None →
  transfer_stack a (instruction (decoded v)) inputs = Ok out →
  apply_unknown_effect a (instruction (decoded v)) = Ok out.
Proof.
  unfold opcode_at, transfer_stack. destruct (Instruction.opcode (instruction (decoded v))); done.
Qed.

(** An instruction the optimizer does not interpret, on described operands. *)
Lemma unknown_describes a v out s popped pushed rest effect :
  OperandStack.arm_of (opcode_at v) = None → transfer_stack a (instruction (decoded v)) inputs = Ok out →
  Instruction.stack_effect (instruction (decoded v)) = Ok effect → aligned a s →
  s = rest ++ popped → len popped = pops effect → len pushed = pushes effect →
  aligned out (rest ++ pushed).
Proof.
  intros Harm Ht He Ha -> Hpop Hpush. apply unknown_transfer in Ht; [|done]. by eapply unknown_effect_sound.
Qed.

(** The base effect of the control instructions. *)
Lemma control_effect v effect : is_truthiness_branch (opcode_at v) = true ∨
    OpcodeSemantics.successor_shape (opcode_semantics (opcode_at v)) = Some SuccessorShape.Jump ∨
    opcode_at v = FinalOpcode.Catch ∨ opcode_at v = FinalOpcode.Gosub →
  Instruction.stack_effect (instruction (decoded v)) = Ok effect →
  effect = OpcodeMetadata.base_stack_effect (FinalOpcode.metadata (opcode_at v)) ∧
  OperandStack.arm_of (opcode_at v) = None.
Proof.
  unfold opcode_at, Instruction.stack_effect, Instruction.is_derived_define_class.
  destruct (Instruction.opcode (instruction (decoded v))); intros Hc He; simpl in *;
    try (exfalso; destruct Hc as [Hc|[Hc|[Hc|Hc]]]; discriminate Hc);
    destruct (Operands.dynamic_argument_count _); try discriminate He; injection He as <-; done.
Qed.

Lemma transfer_effect a v out : OperandStack.arm_of (opcode_at v) = None →
  transfer_stack a (instruction (decoded v)) inputs = Ok out →
  ∃ effect, Instruction.stack_effect (instruction (decoded v)) = Ok effect.
Proof. intros Ha Ht. apply unknown_transfer in Ht as (e & He & _)%unknown_effect_Ok; [|done]. by exists e. Qed.

(** The entry of the frame a step leads to. *)
Definition entry_fits (f : Frame) : Prop :=
  ∃ b, entry_of es (Z.to_nat (instruction_index f)) = Some b ∧ aligned b (stack f).

Lemma branch_fits a v out s s' next : aligned a s → is_truthiness_branch (opcode_at v) = true →
  transfer_stack a (instruction (decoded v)) inputs = Ok out →
  Forall (covers es) (flows c v (constant_branch_outcome (opcode_at v) a) out) →
  OperandStack.execute_branch is_html_dda v (opcode_at v) s = Ok (s', next) →
  (∃ b, entry_of es (Z.to_nat next) = Some b ∧ aligned b s') ∧
  ∀ taken, constant_branch_outcome (opcode_at v) a = Some taken →
    OperandStack.branch_successor v taken = Ok next.
Proof.
  intros Ha Hb Ht Hf Hx. unfold OperandStack.execute_branch in Hx. inv_ok. destruct x as [r condition].
  rename select (OperandStack.pop _ = _) into Hpop. apply pop_Ok in Hpop as ->. inv_ok. simplify_eq.
  rename select (OperandStack.branch_successor _ _ = _) into Hn.
  assert (Hdec : ∀ taken, constant_branch_outcome (opcode_at v) a = Some taken →
    OperandStack.branch_successor v taken = Ok next).
  { intros taken Hc. unfold constant_branch_outcome in Hc. apply bind_Some in Hc as (top & Htop & Hc).
    apply bind_Some in Hc as (truthy & Htr & Hc).
    apply aligned_pop in Ha as (a' & x & -> & _ & Hx). rewrite last_snoc in Htop. simplify_eq.
    destruct (describes_truth _ _ _ _ Htr Hx) as (w & [= <-] & Hw). rewrite Hw in Hn.
    destruct (opcode_at v); simplify_eq; done. }
  split; [|done].
  assert (aligned out s') as Ho.
  { destruct (transfer_effect a v out) as (e & He); [by destruct (opcode_at v)|done|].
    destruct (control_effect v e) as [-> Harm]; [by left|done|]. rewrite <- (app_nil_r s').
    eapply (unknown_describes _ _ _ _ [_] [] s'); try done; by destruct (opcode_at v). }
  eapply covered; [|done]. apply (proj1 (Forall_forall _ _) Hf). unfold flows. rewrite Hb.
  unfold OperandStack.branch_successor in *. destruct (successors v) as [|t n| |]; try done.
  destruct (constant_branch_outcome (opcode_at v) a) as [[]|]; simpl in *.
  - specialize (Hdec true eq_refl). simplify_eq/=. by left.
  - specialize (Hdec false eq_refl). simplify_eq/=. by left.
  - match type of Hn with context [if ?b then Some t else _] => destruct b end; simplify_eq/=; [by left|right; by left].
Qed.

Lemma straight_line_fits a v out f allocation s' p' next : described f → aligned a (stack f) →
  VerifiedControlFlowQueries.instruction c (instruction_index f) = Some v →
  (OperandStack.arm_of (opcode_at v) = Some OperandStack.PushArm → allocation_ok is_html_dda allocation) →
  transfer_stack a (instruction (decoded v)) inputs = Ok out →
  Forall (covers es) (flows c v (constant_branch_outcome (opcode_at v) a) out) →
  OperandStack.execute_straight_line is_html_dda installed_atoms (opcode_at v)
    (Instruction.operands (instruction (decoded v))) allocation (stack f) (pool f) = Ok (s', p') →
  VerifiedSuccessors.fallthrough (successors v) = Some next →
  (∃ b, entry_of es (Z.to_nat next) = Some b ∧ aligned b s') ∧ pool_ok is_html_dda inputs p'.
Proof.
  intros Hd Ha Hv Hal Ht Hf Hs Hn.
  assert (is_truthiness_branch (opcode_at v) = false) as Hb.
  { unfold OperandStack.execute_straight_line in Hs. by destruct (opcode_at v). }
  pose proof (proj1 (Forall_forall _ _) Hf _ (fallthrough_flows v _ out next Hn Hb)) as Hc. unfold opcode_at in *.
  apply query_lookup in Hv as [Hv _]. pose proof (Forall_lookup_1 _ _ _ _ Hcode Hv) as Hr. simpl in Hr.
  destruct (instruction (decoded v)) as [op ops]. cbn in *.
  destruct (straight_line_sound is_html_dda installed_atoms inputs op ops allocation a (stack f) out s' (pool f) p')
    as [Ho Hp]; try done; [apply Hd|]. split; [by eapply covered|done].
Qed.

(** A control instruction that goes on along a flow of its output. *)
Lemma control_fits a v out s s' next : aligned a s →
  transfer_stack a (instruction (decoded v)) inputs = Ok out → covers es (next, out) →
  OpcodeSemantics.successor_shape (opcode_semantics (opcode_at v)) = Some SuccessorShape.Jump ∧ s' = s ∨
  opcode_at v = FinalOpcode.Catch ∧ (∃ h, s' = s ++ [OperandStackEntry.Catch h]) →
  ∃ b, entry_of es (Z.to_nat next) = Some b ∧ aligned b s'.
Proof.
  intros Ha Ht Hc Hv. destruct (transfer_effect a v out) as (e & He); [|done|].
  { destruct Hv as [[Hv _]|[-> _]]; [by destruct (opcode_at v)|done]. }
  destruct (control_effect v e) as [-> Harm]; [by destruct Hv as [[Hv _]|[Hv _]]; auto|done|].
  eapply covered; [done|]. destruct Hv as [[Hv ->]|[Hv [h ->]]].
  - rewrite <- (app_nil_r s). eapply (unknown_describes _ _ _ _ [] []); try done; [by rewrite app_nil_r|..];
      by destruct (opcode_at v).
  - eapply (unknown_describes _ _ _ _ [] [_]); try done; [by rewrite app_nil_r|..]; by rewrite Hv.
Qed.

Lemma ret_fits f s' next : described f → OperandStack.pop_finally_continuation (stack f) = Ok (s', next) →
  (∃ b, entry_of es (Z.to_nat next) = Some b ∧ aligned b s') ∧ retops (stack f) s'.
Proof.
  intros Hd Hs. unfold OperandStack.pop_finally_continuation in Hs. inv_ok. destruct x as [r entry].
  rename select (vec_pop _ = _) into Hpop. apply vec_pop_Some in Hpop. destruct entry; simplify_eq.
  pose proof (described_markers _ Hd (length s') (OperandStackEntry.FinallyReturn next)) as Hm.
  rewrite Hpop in Hm |- *. rewrite lookup_app_r, Nat.sub_diag in Hm by lia.
  destruct (Hm eq_refl) as (b & Hb & Hal). rewrite take_app_length in Hal. split; [by exists b|].
  eexists s', [_], []. rewrite app_nil_r. split_and!; [done|done|constructor].
Qed.

Lemma handler_fits f m caught s' next : described f →
  OperandStack.enter_handler (stack f) m caught = Ok (s', next) →
  (length s' ≤ length (opaque_of c next))%nat →
  (∃ b, entry_of es (Z.to_nat next) = Some b ∧ aligned b s') ∧ retops (stack f) s'.
Proof.
  unfold OperandStack.enter_handler. intros Hd Hs Hl. destruct (stack f !! m) as [[]|] eqn:Em; simplify_eq.
  destruct (described_markers _ Hd m _ Em) as (b & Hb & Hle). split.
  - exists b. split; [done|]. eapply aligned_le; [done|]. unfold opaque_of in *. rewrite length_replicate in *.
    by apply aligned_opaque.
  - exists (take m (stack f)), (drop m (stack f)), [OperandStackEntry.JavaScript caught].
    rewrite take_drop. split_and!; [done|done|by repeat constructor].
Qed.

(** A new marker is as good as the flow it remembers. *)
Lemma push_marker s e : marker_ok s (length s) e → (∀ p e, s !! p = Some e → marker_ok s p e) →
  ∀ p e', (s ++ [e]) !! p = Some e' → marker_ok (s ++ [e]) p e'.
Proof.
  intros He Hs p e' Hp. destruct (decide (p < length s)%nat) as [Hlt|Hge].
  - rewrite lookup_app_l in Hp by done. specialize (Hs p e' Hp). destruct e'; try done. simpl in *.
    rewrite take_app_le by lia. done.
  - rewrite lookup_app_r in Hp by lia. apply list_lookup_singleton_Some in Hp as [Hp <-].
    assert (p = length s) as -> by lia. destruct e; try done. simpl in *. rewrite take_app_length. by rewrite take_ge in He by lia.
Qed.

(** The two instructions that push a marker. *)
Lemma catch_fits a v out s s' next : aligned a s → opcode_at v = FinalOpcode.Catch →
  transfer_stack a (instruction (decoded v)) inputs = Ok out →
  Forall (covers es) (flows c v (constant_branch_outcome (opcode_at v) a) out) →
  OperandStack.execute_catch v s = Ok s' → OperandStack.branch_successor v false = Ok next →
  (∀ p e, s !! p = Some e → marker_ok s p e) →
  (∃ b, entry_of es (Z.to_nat next) = Some b ∧ aligned b s') ∧ ∀ p e, s' !! p = Some e → marker_ok s' p e.
Proof.
  intros Ha Ho Ht Hc Hs Hn Hm. rewrite Forall_forall in Hc. unfold OperandStack.execute_catch in Hs. inv_ok. subst.
  rename select (OperandStack.branch_successor v true = _) into Hh.
  assert (VerifiedSuccessors.fallthrough (successors v) = Some next) as Hn'.
  { unfold OperandStack.branch_successor in Hn. destruct (successors v); simplify_eq/=; done. }
  split.
  - eapply control_fits; [done|done| |right; eauto]. apply Hc, fallthrough_flows; [done|by rewrite Ho].
  - apply push_marker; [|done]. apply (Hc (_, opaque_of c _)), taken_flows; [done|by rewrite Ho].
Qed.

Lemma gosub_fits a v out s s' next : aligned a s → opcode_at v = FinalOpcode.Gosub →
  transfer_stack a (instruction (decoded v)) inputs = Ok out →
  Forall (covers es) (flows c v (constant_branch_outcome (opcode_at v) a) out) →
  OperandStack.enter_finally_subroutine v s = Ok (s', next) → (length s' ≤ length (opaque_of c next))%nat →
  (∀ p e, s !! p = Some e → marker_ok s p e) →
  (∃ b, entry_of es (Z.to_nat next) = Some b ∧ aligned b s') ∧ ∀ p e, s' !! p = Some e → marker_ok s' p e.
Proof.
  intros Ha Ho Ht Hc Hs Hl Hm. rewrite Forall_forall in Hc.
  unfold OperandStack.enter_finally_subroutine in Hs. inv_ok. simplify_eq.
  rename select (OperandStack.branch_successor v false = _) into Hn.
  split; [eapply covered_opaque; [apply Hc; apply taken_flows; [done|by rewrite Ho]|done|done]|].
  apply push_marker; [|done]. simpl. rewrite take_ge by lia.
  destruct (transfer_effect a v out) as (e & He); [by rewrite Ho|done|].
  destruct (control_effect v e) as [-> Harm]; [by auto|done|].
  eapply (covered _ out); [apply Hc, fallthrough_flows; [|by rewrite Ho]|].
  - unfold OperandStack.branch_successor in Hn. destruct (successors v); simplify_eq/=; done.
  - rewrite <- (app_nil_r s). eapply (unknown_describes _ _ _ _ [] []); try done; [by rewrite app_nil_r|..]; by rewrite Ho.
Qed.

Lemma with_fits a v out s effect rest popped pushed (found : bool) next : aligned a s →
  is_with_opcode (opcode_at v) = true → transfer_stack a (instruction (decoded v)) inputs = Ok out →
  Forall (covers es) (flows c v (constant_branch_outcome (opcode_at v) a) out) →
  Instruction.stack_effect (instruction (decoded v)) = Ok effect →
  s = rest ++ popped → len popped = pops effect →
  len pushed = pushes effect + (if found then with_branch_values (opcode_at v) else 0) →
  OperandStack.branch_successor v found = Ok next →
  (length (rest ++ pushed) ≤ length (opaque_of c next))%nat →
  ∃ b, entry_of es (Z.to_nat next) = Some b ∧ aligned b (rest ++ pushed).
Proof.
  intros Ha Hw Ht Hc He -> Hpop Hpush Hn Hl. rewrite Forall_forall in Hc.
  assert (OperandStack.arm_of (opcode_at v) = None ∧ is_truthiness_branch (opcode_at v) = false) as [Harm Hb]
    by (by destruct (opcode_at v)).
  destruct found; [eapply covered_opaque; [apply Hc; by apply taken_flows|done|done]|].
  eapply (covered _ out); [apply Hc, fallthrough_flows; [|done]|eapply unknown_describes; try done; lia].
  unfold OperandStack.branch_successor in Hn. destruct (successors v); simplify_eq/=; done.
Qed.

Lemma executes_described f v f' : described f →
  VerifiedControlFlowQueries.instruction c (instruction_index f) = Some v →
  executes v (stack f) (pool f) f' → admits c f' → described f'.
Proof.
  intros Hd Hv Hx Hadm. destruct (admits_depth _ Hadm) as [Hi Hdepth].
  destruct (described_stable f v Hd Hv) as (a & out & He & Ha & Ht & Hf).
  pose proof (described_markers _ Hd) as Hm. pose proof (described_pool _ Hd) as Hpool.
  assert (Hmk : ∀ p', entry_fits f' → pool f' = p' → pool_ok is_html_dda inputs p' →
    (∀ p e, stack f' !! p = Some e → marker_ok (stack f') p e) → described f') by (intros; subst; by constructor).
  destruct Hx as [al s' p' next Hal Hs Hn|s' next Hb Hs|next Hj Hs|s' next Ho Hs Hn|s' next Ho Hs|s' next Ho Hs
    |e r popped pushed p' found next Hw He' Hs Hpop Hpush Hin Hp Hn|s' p' next Harm Hex Hp Hn
    |m caught s' p' next Hs Hp]; cbn [instruction_index stack pool] in *; unfold entry_fits in Hmk; cbn in Hmk.
  - destruct (straight_line_fits a v out f al s' p' next) as [? ?]; try done. eapply Hmk; try done.
    eapply retops_markers; [by eapply straight_line_retops|done].
  - destruct (branch_fits a v out (stack f) s' next) as [? _]; try done. eapply Hmk; try done.
    eapply retops_markers; [|done]. unfold OperandStack.execute_branch in Hs. inv_ok. destruct x as [? ?].
    rename select (OperandStack.pop _ = _) into Hp. apply pop_Ok in Hp. inv_ok. simplify_eq.
    eexists s', [_], []. rewrite app_nil_r. split_and!; [done|done|constructor].
  - eapply Hmk; try done. eapply control_fits; [done|done| |by left].
    apply (proj1 (Forall_forall _ _) Hf). unfold flows, OperandStack.execute_goto in *.
    destruct (successors v); simplify_eq/=; by left.
  - destruct (catch_fits a v out (stack f) s' next) as [? ?]; by eauto.
  - destruct (gosub_fits a v out (stack f) s' next) as [? ?]; by eauto.
  - destruct (ret_fits f s' next) as [? ?]; try done. eapply Hmk; try done. by eapply retops_markers.
  - eapply Hmk; try done; [by eapply with_fits|by eapply pool_advances_ok|].
    eapply retops_markers; [|done]. by exists r, popped, pushed.
  - eapply Hmk; try done; [|by eapply pool_advances_ok|].
    + destruct Hex as (e & r & popped & pushed & He' & Hs & Hpop & -> & Hpush & Hin).
      eapply (covered _ out); [|by eapply unknown_describes].
      apply (proj1 (Forall_forall _ _) Hf). unfold flows. rewrite Hn. by left.
    + eapply retops_markers; [by eapply exchanges_retops|done].
  - destruct (handler_fits f m caught s' next) as [? ?]; try done. eapply Hmk; try done; [by eapply pool_advances_ok|].
    by eapply retops_markers.
Qed.

(** ** Runs *)

Lemma runs_described pool0 f : pool_ok is_html_dda inputs pool0 →
  runs is_html_dda installed_atoms c (mkFrame 0 [] pool0) f → described f.
Proof.
  intros Hp Hr. eapply (rtc_ind_r described (mkFrame 0 [] pool0)); [| |exact Hr].
  - constructor; cbn; [done| |done|done]. exists []. split; [apply Hfix|apply aligned_nil].
  - intros f1 f2 _ [f3 f4 v Hv Hx Ha] Hd. by eapply executes_described.
Qed.
End soundness.
