(* ===== verification/RetentionFacts.v ===== *)
(** * The optimizer keeps every executable instruction

    The passes of [retention.rs] only set bits, so what constant propagation
    found executable is retained; with [OptimizerSound] this makes the facts
    of [analyze_control_flow] true of every execution. *)

From S2P Require Import Prelude RuntimePrelude Opcode Codec Function VerifierModel VerifierStack Verifier Assembler JsStrings Arena Values CompilerString AbstractValues AbstractValueFacts OperandStack TransferFacts Optimizer PropagationFacts OptimizerSound.
From stdpp Require Import list relations.
Import StoredValue(StoredValue) InstalledConstant(InstalledConstant).
Local Open Scope Z_scope.

(** ** Bits only grow *)

Definition raised (l l' : list bool) : Prop :=
  length l' = length l ∧ ∀ i, l !! i = Some true → l' !! i = Some true.

#[export] Instance raised_preorder : PreOrder raised.
Proof. split; [done|]. intros x y z [? Hxy] [? Hyz]. split; [congruence|auto]. Qed.

Lemma set_raises l i l' : set_or_panic l i true = Ok l' → raised l l'.
Proof.
  unfold set_or_panic. destruct (Nat.ltb_spec i (length l)); [|done]. intros [= <-].
  split; [by rewrite length_insert|]. intros j Hj. destruct (decide (i = j)) as [->|Hne].
  - by apply list_lookup_insert_eq.
  - by rewrite list_lookup_insert_ne.
Qed.

Lemma fold_relates {E S A} (R : relation S) `{!PreOrder R} (f : S → A → result E S) l :
  (∀ s x s', f s x = Ok s' → R s s') → ∀ s s', try_fold f s l = Ok s' → R s s'.
Proof.
  intros Hf. induction l as [|x l IH]; intros s s'; cbn; [by intros [= <-]|].
  intros (s1 & H1%Hf & H2%IH)%bind_Ok. by etrans.
Qed.

Section retention.
Context `{Allocator} (c : VerifiedControlFlow).

Lemma anchors_raise l l' : retain_binding_policy_anchors c l = Ok l' → raised l l'.
Proof.
  apply (fold_relates raised). intros s [p v] s'. case_decide; [apply set_raises|by intros [= <-]].
Qed.

Lemma initializers_raise l l' : retain_function_initializer_pairs c l = Ok l' → raised l l'.
Proof.
  apply (fold_relates raised). intros s p s' E. inv_ok_cases; subst; try done.
  etrans; by eapply set_raises.
Qed.

Lemma exception_loop_raises fuel : ∀ visited retained work retained',
  exception_loop c fuel visited retained work = Ok retained' → raised retained retained'.
Proof.
  induction fuel as [|fuel IH]; intros visited r [|p work] r'; cbn; try done; try (by intros [= <-]).
  intros E. inv_ok. destruct x; [by eapply IH|]. inv_ok. etrans; [by eapply set_raises|by eapply IH].
Qed.

Lemma exceptions_raise executable l l' : retain_exception_components c executable l = Ok l' → raised l l'.
Proof. unfold retain_exception_components. intros E. inv_ok. by eapply exception_loop_raises. Qed.

#[local] Instance raised_fst : PreOrder (λ s s' : list bool * list bool, raised s.1 s'.1).
Proof. split; [by intros ?|]. intros ? ? ?. apply transitivity. Qed.

Lemma certificates_raise outcomes l l' : retain_loop_activation_certificates c outcomes l = Ok l' → raised l l'.
Proof.
  unfold retain_loop_activation_certificates. intros E. inv_ok. subst.
  rename select (try_fold (keep_certificate c) _ _ = _) into Hk.
  apply (fold_relates (λ s s' : list bool * list bool, raised s.1 s'.1)) in Hk; [done|].
  intros [r ct] p [r' ct'] E. cbn in E. inv_ok_cases; simplify_eq; try done. by eapply set_raises.
Qed.

Lemma retained_raise executable outcomes l : retained_instructions c executable outcomes = Ok l → raised executable l.
Proof.
  unfold retained_instructions. intros E. inv_ok. etrans; [by eapply anchors_raise|].
  etrans; [by eapply initializers_raise|]. etrans; [by eapply exceptions_raise|]. by eapply certificates_raise.
Qed.
End retention.

(** ** The facts of the analysis *)

Lemma map_enumerate_lookup {A B} (f : nat * A → B) l : ∀ n i,
  map f (enumerate_from n l) !! i = (λ x, f ((n + i)%nat, x)) <$> l !! i.
Proof.
  induction l as [|x l IH]; intros n [|i]; cbn; try done; [by rewrite Nat.add_0_r|].
  rewrite IH. by replace (S n + i)%nat with (n + S i)%nat by lia.
Qed.

(** What the facts say of a position with an entry stack. *)
Lemma analyze_Ok `{Allocator} c inputs limits facts : analyze_control_flow c inputs limits = Ok facts →
  ∃ es, fixed_point c inputs es ∧ ∀ i v, instructions c !! i = Some v →
    ControlFlowFacts.branch_outcome facts i = (entry_of es i ≫= constant_branch_outcome (opcode_at v)) ∧
    (is_Some (entry_of es i) → ControlFlowFacts.is_retained facts i = true).
Proof.
  unfold analyze_control_flow. intros E. inv_ok. subst. rename x into es. exists es.
  split; [by eapply propagate_constants_Ok|]. intros i v Hv.
  unfold ControlFlowFacts.branch_outcome, ControlFlowFacts.is_retained. cbn [branch_outcomes retained].
  rewrite map_enumerate_lookup, Hv. split; [done|]. intros Hi.
  rename select (retained_instructions _ _ _ = _) into Hr. apply retained_raise in Hr as [_ Hr].
  rewrite (Hr i); [done|]. rewrite map_enumerate_lookup, Hv. cbn. f_equal. by apply bool_decide_true.
Qed.

(** The code of a verified function is made of valid instructions. *)
Lemma verified_valid limits gen bc domains c : byte_list bc → PipelineFacts.pipeline_ok limits gen bc domains c →
  Forall (λ v, Instruction.valid (instruction (decoded v))) (instructions c).
Proof.
  intros Hbc Hok. apply Forall_forall. intros v Hv.
  assert (decoded v ∈ decoded <$> instructions c) as Hin by (apply list_elem_of_fmap; by exists v).
  destruct (StreamFacts.decodes_to_decoded _ Hbc _ _ _ (PipelineFacts.pipeline_stream _ _ _ _ _ Hok) Hin) as [Hd _].
  by apply (CodecFacts.decode_instruction_sound _ _ _ Hbc) in Hd as (_ & Hvalid & _).
Qed.

Lemma verified_operands limits gen bc domains c : byte_list bc → PipelineFacts.pipeline_ok limits gen bc domains c →
  Forall (λ v, Operands.in_range (Instruction.operands (instruction (decoded v)))) (instructions c).
Proof.
  intros Hbc Hok. eapply Forall_impl; [by eapply verified_valid|]. by intros v (_ & _ & Hr).
Qed.

(** ** The facts are true of every execution *)

(** The frame is at a retained instruction, and a branch there with a known
    outcome takes it. *)
Record obeys (is_html_dda : StoredValue → bool) (c : VerifiedControlFlow) (facts : ControlFlowFacts)
    (f : Frame.Frame) : Prop := {
  obeys_retained : ControlFlowFacts.is_retained facts (Z.to_nat (Frame.instruction_index f)) = true;
  obeys_branch v taken s' next :
    VerifiedControlFlowQueries.instruction c (Frame.instruction_index f) = Some v →
    ControlFlowFacts.branch_outcome facts (Z.to_nat (Frame.instruction_index f)) = Some taken →
    OperandStack.execute_branch is_html_dda v (opcode_at v) (Frame.stack f) = Ok (s', next) →
    OperandStack.branch_successor v taken = Ok next }.

Lemma described_obeys `{Allocator} is_html_dda c inputs es facts f : fixed_point c inputs es →
  (∀ i v, instructions c !! i = Some v →
     ControlFlowFacts.branch_outcome facts i = (entry_of es i ≫= constant_branch_outcome (opcode_at v)) ∧
     (is_Some (entry_of es i) → ControlFlowFacts.is_retained facts i = true)) →
  described is_html_dda c inputs es f → obeys is_html_dda c facts f.
Proof.
  intros Hfix Hfacts Hd. destruct (described_entry _ _ _ _ _ Hd) as (a & Ha & Hal).
  destruct (fixed_stable _ _ _ Hfix _ _ Ha) as (v & out & Hv & _ & Ht & Hf).
  destruct (Hfacts _ v Hv) as [Ho Hk]. split; [apply Hk; by exists a|].
  intros v' taken s' next [Hv' _]%query_lookup Hout Hx. assert (v' = v) as -> by congruence.
  rewrite Ho, Ha in Hout. cbn in Hout.
  destruct (branch_fits is_html_dda c inputs es a v out (Frame.stack f) s' next) as [_ Hdec]; try done; [|by apply Hdec].
  clear -Hout. unfold constant_branch_outcome in Hout. apply bind_Some in Hout as (x & _ & (y & _ & Hz)%bind_Some).
  by destruct (opcode_at v).
Qed.

(** C4.  The analysis is sound: when constant propagation over a verified
    function answers, every frame a run reaches (literals, constants and
    template sites, permutations, tests, branches, [catch], [gosub], [ret],
    exceptions, and any other instruction within its stack effect) is at an
    instruction the optimizer retains, and a branch with a known outcome goes
    that way. *)
Theorem analysis_sound (a : Allocator) (is_html_dda : StoredValue → bool) (atoms : list Repr)
    (body : UnverifiedCompilerFunctionBody) (limits : VerificationLimits) (c : VerifiedControlFlow)
    (inputs : ConstantInputs) (facts : ControlFlowFacts) (pool : list InstalledConstant) (f : Frame.Frame)
    (Hbc : byte_list (compiler_bytecode body)) (Hmax : max_instructions_per_function limits ≤ u32_max)
    (Hc : verify_compiler_control_flow body limits = Ok c)
    (Hf : analyze_control_flow c inputs limits = Ok facts)
    (Hconstants : Forall (λ k, from_option constant_ok True (CompiledConstant.value k)) (constants inputs))
    (Hstaged : Forall2 (λ k i, stage_constant k = Ok i) (constants inputs) pool)
    (Hatoms : atoms_ok inputs atoms)
    (Hrun : Frame.runs is_html_dda atoms c (Frame.mkFrame 0 [] pool) f) :
  obeys is_html_dda c facts f.
Proof.
  unfold verify_compiler_control_flow in Hc. apply PipelineFacts.verify_common_Ok in Hc as Hok; [|done..].
  apply analyze_Ok in Hf as (es & Hfix & Hfacts).
  eapply (@described_obeys a); [exact Hfix|exact Hfacts|].
  eapply (runs_described is_html_dda atoms c inputs es); [by eapply verified_operands|done|done| |exact Hrun].
  by apply (@staged_pool_ok is_html_dda a).
Qed.

(** ** Closed runs *)

(** An arm that allocates nothing is handed any allocation. *)
Definition idle_allocation : OperandStack.Allocation :=
  OperandStack.mkAllocation (mkId 0 0 0) (mkId 0 0 0) (mkAtom 0 AtomKind.String None).

(** One step of a closed run: the arm evaluates and the entry check passes. *)
Ltac frame_step arm :=
  eapply rtc_l; [eapply Frame.step_executes; [reflexivity|arm|eexists _, 0; split; [reflexivity|split; [lia|reflexivity]]]|].

(** [x = 0; if (x) A else B] over a constant: [push_const8 0; if_false8 +3;
    push_1; return; push_2; return], with the constant [0.0]. *)
Definition constant_branch_body : UnverifiedCompilerFunctionBody :=
  mkUnverifiedCompiler [190; 0; 233; 3; 181; 40; 182; 40] (mkDomains 0 1 0 0 0)
    (UnverifiedFunctionHeader.ordinary_source_function true 0) None
    (Some (mkConstantLayout [CompilerConstantKind.Value])).

Definition constant_branch_inputs : ConstantInputs :=
  mkInputs [] [CompiledConstant.Value (CompilerConstantValue.Number 0)].

Definition constant_branch_verified : VerifiedControlFlow :=
  Eval vm_compute in
    match @verify_compiler_control_flow always_allocates constant_branch_body UNTRUSTED with
    | Ok c => c
    | Err _ => demo_verified
    end.

Definition constant_branch_facts : ControlFlowFacts :=
  Eval vm_compute in
    match @analyze_control_flow always_allocates constant_branch_verified constant_branch_inputs UNTRUSTED with
    | Ok facts => facts
    | Err _ => mkFacts [] []
    end.

Definition constant_branch_pool : list InstalledConstant :=
  [InstalledConstant.Number (JsNumber.from_f64 0)].

(** The branch is decided, the other arm goes, and a run takes the decided one. *)
Lemma analysis_sound_witness :
  constant_branch_facts = mkFacts [None; Some true; None; None; None; None] [true; true; false; false; true; true] ∧
  obeys (λ _, false) constant_branch_verified constant_branch_facts (Frame.mkFrame 4 [] constant_branch_pool).
Proof.
  split; [reflexivity|].
  apply (analysis_sound always_allocates (λ _, false) [] constant_branch_body UNTRUSTED constant_branch_verified
    constant_branch_inputs constant_branch_facts constant_branch_pool).
  - unfold byte_list, is_u8. repeat apply Forall_cons_2; try apply Forall_nil_2; simpl; lia.
  - vm_compute. discriminate.
  - vm_compute. reflexivity.
  - vm_compute. reflexivity.
  - repeat constructor.
  - repeat constructor.
  - intros n atom string Hn. by destruct n.
  - unfold Frame.runs.
    frame_step ltac:(eapply (Frame.executes_straight_line _ _ _ _ _ idle_allocation); [by repeat constructor|vm_compute; reflexivity|reflexivity]).
    frame_step ltac:(eapply Frame.executes_branch; [reflexivity|vm_compute; reflexivity]).
    apply rtc_refl.
Defined.
