(* ===== verification/PropagationTotal.v ===== *)
(** * Constant propagation always answers

    On verified control flow every transfer finds its operands, every join
    meets stacks of one depth, and each queued position pays with a value that
    moved up the lattice: the worklist drains within [propagation_fuel] turns,
    and only the evaluation budget can stop it earlier. *)

From S2P Require Import Prelude Opcode Codec Function VerifierModel VerifierHeader VerifierPredecode VerifierStatic VerifierStack Verifier Assembler CompilerString AbstractValues AbstractValueFacts OperandStack TransferFacts Optimizer PropagationFacts RetentionFacts.
From stdpp Require Import list.
Local Open Scope Z_scope.
Import AbstractOrder.

(** ** Recorded depths *)

Section depths.
Import StackFacts.
Context `{Allocator} (limits : VerificationLimits) (gen : bool).

Definition depths_bounded (vs : list VerifiedInstruction) : Prop :=
  ∀ i d, entry_at vs i = Some d → 0 ≤ d ≤ max_stack_depth limits.

Lemma turn_depths kind hg st i st' : max_stack_depth limits ≤ u32_max →
  analyze_index limits gen kind hg st i = Ok st' → depths_bounded (analysed st) → depths_bounded (analysed st').
Proof.
  intros Hm (v & Hv & Ht)%analyze_index_Ok Hb; [|done]. destruct (entry_stack_depth v) as [k|]; [|by subst].
  destruct Ht as (o & _ & Ho & Hmax & _ & _ & _ & Hmk & _). apply marked_spec in Hmk as (_ & _ & _ & _ & Hnew).
  intros j d [Hd|[_ (df & Hin)]]%Hnew; [by eapply Hb|]. pose proof (extra_bound (opcode_of v)).
  unfold edges in Hin. destruct (successors v);
    repeat (apply elem_of_cons in Hin as [Hin|Hin]); try (by apply not_elem_of_nil in Hin); injection Hin; lia.
Qed.

Lemma loop_depths kind hg fuel : ∀ st st', max_stack_depth limits ≤ u32_max →
  analyze_loop limits gen kind hg fuel st = Ok st' → depths_bounded (analysed st) → depths_bounded (analysed st').
Proof.
  induction fuel as [|fuel IH]; intros st st' Hm; cbn; [by intros [= <-]|].
  destruct (worklist st); [by intros [= <-]|]. intros E Hb. inv_ok. eapply IH; [done|done|]. by eapply turn_depths.
Qed.
End depths.

Lemma verified_depths `{Allocator} bc domains header mode captures constants limits c :
  byte_list bc → max_instructions_per_function limits ≤ u32_max → 0 ≤ max_stack_depth limits →
  verify_control_flow_common bc domains header mode captures constants limits = Ok c →
  depths_bounded limits (instructions c) ∧ max_stack_depth limits ≤ 65534.
Proof.
  intros Hbc Hmax H0 Hc. unfold verify_control_flow_common in Hc. inv_ok. subst c. cbn.
  rename select (validate_limits_and_counts _ _ _ _ _ = _) into Hl.
  apply HeaderFacts.validate_limits_and_counts_spec in Hl as [Hml _ _ _ _ _ _ _ _].
  unfold MAX_OPERAND_STACK_DEPTH in Hml. split; [|done].
  rename select (predecode_complete _ _ = _) into Hp.
  apply PredecodeFacts.predecode_complete_Ok in Hp as [Hpre _]; [|done|unfold_ints; lia].
  rename select (validate_static_semantics _ _ _ _ _ _ _ _ = _) into Hs.
  apply (StaticFacts.validate_static_semantics_Ok _ _ _ Hbc Hpre) in Hs as (_ & _ & Hall).
  rename select (analyze_ordinary_stack _ _ _ = _) into Ha. unfold analyze_ordinary_stack in Ha.
  destruct (structural_instructions _) as [|entry rest] eqn:Hs; [done|]. inv_ok. subst. cbn.
  rename select (analyze_loop _ _ _ _ _ _ = _) into Hloop.
  eapply loop_depths; [|exact Hloop|]; [unfold u32_max; lia|].
  intros i d Hd. unfold StackFacts.entry_at in Hd. apply bind_Some in Hd as (v & Hv & Hd).
  destruct (StackFacts.initial_entries entry rest i v d) as [_ ->]; [|done|done|lia].
  eapply Forall_impl; [exact Hall|]. by intros ? [].
Qed.

(** ** Every transfer succeeds *)

Section transfers.
Context `{GenerousAllocator}.

Lemma push_value_total a x : push_value a x = Ok (a ++ [x]).
Proof. unfold push_value, grow. by rewrite reserve_generous. Qed.

Lemma split_tail (a : list AbstractValue) n : Z.of_nat n ≤ len a → ∃ b l, a = b ++ l ∧ length l = n.
Proof.
  intros Hn. exists (take (length a - n) a), (drop (length a - n) a). rewrite take_drop, length_drop.
  split; [done|]. unfold len in Hn. lia.
Qed.

Lemma unknown_effect_total a i e : Instruction.stack_effect i = Ok e → 0 ≤ pops e ≤ len a →
  0 ≤ pushes e ≤ u64_max → len a ≤ u64_max →
  ∃ out, apply_unknown_effect a i = Ok out ∧ len out = len a - pops e + pushes e.
Proof.
  intros He Hp Hq Ha. unfold apply_unknown_effect. rewrite He. cbn [map_err mbind result_bind].
  assert (∀ z, 0 ≤ z ≤ u64_max → try_usize z = Some (Z.to_nat z)) as Hu.
  { intros z Hz. unfold try_usize. destruct (Z.leb_spec 0 z), (Z.leb_spec z u64_max); done || lia. }
  rewrite (Hu (pops e)) by lia. cbn [ok_or mbind result_bind].
  rewrite (proj2 (Nat.ltb_ge _ _)) by (unfold len in *; lia). cbn [reject_if mbind result_bind].
  rewrite (Hu (pushes e)) by lia. cbn [ok_or mbind result_bind]. unfold grow. rewrite reserve_generous. eexists. split; [reflexivity|].
  unfold len in *. rewrite length_app, length_take, length_replicate. lia.
Qed.

Lemma pop_value_two (b : list AbstractValue) x y : pop_value (b ++ [x; y]) = Ok (b ++ [x], y).
Proof. change [x; y] with ([x] ++ [y]). rewrite app_assoc. apply pop_value_snoc. Qed.

Lemma permute_total b l n f : length l = n → permute_tail (b ++ l) n f = Ok (b ++ f l).
Proof.
  intros Hl. unfold permute_tail. rewrite (checked_sub_app b l n Hl). cbn. by rewrite take_app_length, drop_app_length.
Qed.

Lemma duplicate_total b l n : length l = n → duplicate_tail (b ++ l) n = Ok ((b ++ l) ++ l).
Proof.
  intros Hl. unfold duplicate_tail, grow. rewrite (checked_sub_app b l n Hl), reserve_generous. cbn.
  by rewrite drop_app_length.
Qed.

Lemma insert_total b l n x : length l = n → last (b ++ l) = Some x → insert_top_copy (b ++ l) n = Ok (b ++ x :: l).
Proof.
  intros Hl Hx. unfold insert_top_copy, grow. rewrite (checked_sub_app b l n Hl), Hx, reserve_generous. cbn.
  by rewrite take_app_length, drop_app_length.
Qed.

(** Evaluates one transfer on a stack split at its operands. *)
Ltac transfer_value :=
  unfold map_predicate, map_unary, strict_equality, duplicate_top, duplicate_below_top, nip;
  repeat first
    [ rewrite push_value_total
    | rewrite pop_value_two | rewrite pop_value_snoc
    | rewrite last_snoc
    | rewrite permute_total by reflexivity
    | rewrite duplicate_total by reflexivity
    | erewrite insert_total by (reflexivity || (rewrite last_app; reflexivity))
    | progress cbn [ok_or mbind result_bind] ];
  eexists; split; [reflexivity|]; unfold len; rewrite ?length_app; cbn; lia.

(** The operand stack effect of an interpreted opcode, met exactly. *)
Lemma interpreted_total a i inputs e : OperandStack.arm_of (Instruction.opcode i) ≠ None → Instruction.valid i →
  Instruction.stack_effect i = Ok e → 0 ≤ pops e ≤ len a → len a ≤ u64_max →
  ∃ out, transfer_stack a i inputs = Ok out ∧ len out = len a - pops e + pushes e.
Proof.
  intros Harm (_ & Hfmt & _) He Hp Ha. destruct (OperandStack.arm_of (Instruction.opcode i)) as [arm|] eqn:Earm; [|done].
  destruct i as [o ops]. cbn [Instruction.opcode Instruction.operands] in *.
  pose proof (straight_line_effect o ops e arm Earm He) as Heff.
  assert (Hunk : o = FinalOpcode.Drop ∨ o = FinalOpcode.Nop → ∃ out, transfer_stack a (Instruction.mk o ops) inputs = Ok out ∧
    len out = len a - pops e + pushes e).
  { intros Ho. destruct (unknown_effect_total a _ _ He Hp) as (out & Hout & Hl); [|done|].
    { destruct Ho; subst; vm_compute; by split. }
    exists out. split; [|done]. by destruct Ho; subst. }
  clear He Harm. destruct (split_tail a (Z.to_nat (pops e))) as (b & l & -> & Hl); [lia|].
  destruct o; try discriminate Earm; try (by apply Hunk; auto); clear Hunk Earm; vm_compute in Heff; subst e;
    cbn [pops pushes] in Hl, Hp |- *; repeat (destruct l as [|? l]; try discriminate Hl); clear Hl Hp;
    rewrite ?app_nil_r; unfold transfer_stack; cbn [Instruction.opcode Instruction.operands];
    try transfer_value; vm_compute in Hfmt; destruct ops; try discriminate Hfmt;
    unfold push_i8, push_i16, push_i32, push_constant, push_atom; cbn [mbind result_bind]; transfer_value.
Qed.

Lemma effect_bounds i e : Instruction.valid i → Instruction.stack_effect i = Ok e → 0 ≤ pops e ∧ 0 ≤ pushes e ≤ 6.
Proof.
  intros (_ & _ & Hr) He. unfold Instruction.stack_effect in He.
  destruct (Instruction.is_derived_define_class i); [injection He as <-; cbn; lia|].
  assert (0 ≤ default 0 (Operands.dynamic_argument_count (Instruction.operands i)) ≤ 65535) as Hd.
  { destruct (Instruction.operands i); cbn in *; unfold is_u16 in *; lia. }
  apply OpcodeFacts.stack_effect_bound in He; lia.
Qed.

Lemma transfer_total a i inputs e : Instruction.valid i → Instruction.stack_effect i = Ok e →
  pops e ≤ len a → len a ≤ u64_max →
  ∃ out, transfer_stack a i inputs = Ok out ∧ len out = len a - pops e + pushes e.
Proof.
  intros Hv He Hp Ha. pose proof (effect_bounds i e Hv He).
  destruct (decide (OperandStack.arm_of (Instruction.opcode i) = None)) as [Harm|Harm].
  - destruct (unknown_effect_total a i e He) as (out & Hout & Hl); [lia|unfold u64_max; lia|done|].
    exists out. split; [|done]. rewrite <- Hout. unfold transfer_stack.
    destruct (Instruction.opcode i); done.
  - apply interpreted_total; try done. lia.
Qed.
End transfers.

(** ** Merges *)

Section merges.
Context `{GenerousAllocator} (vs : list VerifiedInstruction) (Hsmall : len vs ≤ u32_max).
Local Notation depth_at := (StackFacts.entry_at vs).

(** The stack of every position has its verified depth. *)
Record well_sized (es : list entry_stack) : Prop := {
  sized_length : length es = length vs;
  sized_depth i a : entry_of es i = Some a → depth_at (Z.of_nat i) = Some (len a) }.

(** What is left to pay: a stack to come, and the height of the values. *)
Definition owed (e : entry_stack) (v : VerifiedInstruction) : nat :=
  match e with
  | None => S (2 * Z.to_nat (default 0 (entry_stack_depth v)))
  | Some a => ranks a
  end.
Definition owing (es : list entry_stack) : nat := sum_list (zip_with owed es vs).

Lemma zip_insert (l : list entry_stack) (k : list VerifiedInstruction) : ∀ i e v e', l !! i = Some e → k !! i = Some v →
  (sum_list (zip_with owed (<[i := e']> l) k) + owed e v = sum_list (zip_with owed l k) + owed e' v)%nat.
Proof.
  revert k. induction l as [|x l IH]; intros k [|i] e v e' He Hk; destruct k as [|y k]; simplify_eq/=; [lia|].
  specialize (IH k i e v e' He Hk). lia.
Qed.

Lemma depth_lookup t d : depth_at t = Some d → 0 ≤ t ∧ try_usize t = Some (Z.to_nat t) ∧
  ∃ v, vs !! Z.to_nat t = Some v ∧ entry_stack_depth v = Some d.
Proof.
  intros (v & [Ht Hv]%at_index_Some & Hd)%bind_Some. pose proof (lookup_lt_Some _ _ _ Hv).
  split; [done|]. split; [|by exists v]. unfold try_usize, len in *.
  destruct (Z.leb_spec 0 t), (Z.leb_spec t u64_max); try done; unfold u32_max, u64_max in *; lia.
Qed.

Lemma merge_total st t inc : well_sized (entry_stacks st) → depth_at t = Some (len inc) →
  ∃ st', merge_entry_stack st t inc = Ok st' ∧ well_sized (entry_stacks st') ∧
    (owing (entry_stacks st') + length (pending st') ≤ owing (entry_stacks st) + length (pending st))%nat ∧
    (Forall (λ p, (p < length vs)%nat) (pending st) → Forall (λ p, (p < length vs)%nat) (pending st')).
Proof.
  intros [Hlen Hdep] Ht. destruct (depth_lookup _ _ Ht) as (Ht0 & Hu & v & Hv & Hd).
  pose proof (lookup_lt_Some _ _ _ Hv) as Hlt.
  destruct (lookup_lt_is_Some_2 (entry_stacks st) (Z.to_nat t)) as [e He]; [lia|].
  assert (∃ joined (changed : bool), (match e with
      | None => inc ← clone_values inc "CFG constant entry stack"; Ok (inc, true)
      | Some established => join_entry_stack established inc end) = Ok (joined, changed) ∧ length joined = length inc ∧
      (if changed then (S (ranks joined) ≤ owed e v)%nat else e = Some joined)) as (joined & changed & Hm & Hjl & Hpay).
  { destruct e as [est|].
    - assert (length est = length inc) as Hel.
      { assert (entry_of (entry_stacks st) (Z.to_nat t) = Some est) as Hes by (unfold entry_of; by rewrite He).
        specialize (Hdep _ _ Hes). rewrite Z2Nat.id in Hdep by done. rewrite Ht in Hdep. unfold len in Hdep. injection Hdep. lia. }
      destruct (join_values est inc) as [js ch] eqn:Ej. exists js, ch. unfold join_entry_stack.
      rewrite Hel, Nat.eqb_refl. cbn [negb reject_if mbind result_bind]. rewrite Ej.
      destruct (join_values_spec est inc js ch Hel Ej) as (Hle & _ & Hch). apply Forall2_length in Hle.
      split_and!; [done|lia|]. destruct ch; [exact Hch|by subst].
    - exists inc, true. unfold clone_values, reserved_vec. rewrite reserve_generous. split_and!; [done|done|].
      cbn. rewrite Hd. cbn. pose proof (ranks_le inc). unfold len in *. lia. }
  assert (well_sized (<[Z.to_nat t := Some joined]> (entry_stacks st))) as Hwf.
  { split; [by rewrite length_insert|]. intros i a. rewrite entry_insert by lia. case_decide as Hi; [|apply Hdep].
    intros [= <-]. subst i. rewrite Z2Nat.id by done. rewrite Ht. unfold len. by rewrite Hjl. }
  pose proof (zip_insert (entry_stacks st) vs _ e v (Some joined) He Hv) as Hz. cbn [owed] in Hz. fold (owing (entry_stacks st)) in Hz.
  fold (owing (<[Z.to_nat t := Some joined]> (entry_stacks st))) in Hz.
  unfold merge_entry_stack, usize_from_u32. rewrite Hu. cbn [ok_or mbind result_bind]. rewrite He. cbn [ok_or mbind result_bind].
  rewrite Hm. cbn [mbind result_bind]. destruct changed.
  - unfold Optimizer.reserve_worklist. rewrite reserve_generous. cbn [mbind result_bind]. eexists. split_and!; [done|done| |].
    + cbn [entry_stacks pending]. rewrite length_app. cbn. lia.
    + cbn. intros Hp. apply Forall_app. split; [done|]. by constructor.
  - subst e. eexists. split_and!; [done|done| |done]. cbn [entry_stacks pending owed] in *. lia.
Qed.
End merges.

(** ** Turns *)

Section turns.
Import StackFacts.
Context `{GenerousAllocator} (limits : VerificationLimits) (gen : bool) (bc : list Z)
  (domains : FunctionIndexDomains) (c : VerifiedControlFlow) (inputs : ConstantInputs).
Context (Hbc : byte_list bc) (Hok : PipelineFacts.pipeline_ok limits gen bc domains c)
  (Hdepths : depths_bounded limits (instructions c)) (Hmax : max_stack_depth limits ≤ 65534)
  (Hsmall : len (instructions c) ≤ u32_max).
Local Notation vs := (instructions c).
Local Notation sized := (well_sized vs).

(** A turn keeps the stacks sized and what is owed, queue included. *)
Definition pays (st st' : Propagation) : Prop :=
  sized (entry_stacks st') ∧
  (owing vs (entry_stacks st') + length (pending st') ≤ owing vs (entry_stacks st) + length (pending st))%nat ∧
  (Forall (λ p, (p < length vs)%nat) (pending st) → Forall (λ p, (p < length vs)%nat) (pending st')).

Lemma merge_all_total fl : ∀ st, sized (entry_stacks st) →
  Forall (λ flow, entry_at vs flow.1 = Some (len flow.2)) fl → ∃ st', merge_all st fl = Ok st' ∧ pays st st'.
Proof.
  unfold merge_all. induction fl as [|[t x] fl IH]; intros st Hs Hf; cbn [try_fold].
  - exists st. split; [done|]. by split_and!.
  - apply Forall_cons_1 in Hf as [Ht Hf]. cbn in Ht.
    destruct (merge_total vs Hsmall st t x Hs Ht) as (st1 & -> & Hs1 & Ho1 & Hp1). cbn [mbind result_bind].
    destruct (IH st1 Hs1 Hf) as (st2 & -> & Hs2 & Ho2 & Hp2). exists st2. split; [done|].
    split_and!; [done|lia|by auto].
Qed.

Lemma try_usize_small z : 0 ≤ z ≤ u32_max → try_usize z = Some (Z.to_nat z).
Proof.
  intros Hz. unfold try_usize. destruct (Z.leb_spec 0 z), (Z.leb_spec z u64_max); try done; unfold u32_max, u64_max in *; lia.
Qed.

Lemma opaque_target_total t d : entry_at vs t = Some d →
  opaque_target_stack c t = Ok (opaque_of c t) ∧ len (opaque_of c t) = d.
Proof.
  intros Ht. pose proof (Hdepths _ _ Ht). destruct (depth_lookup vs Hsmall _ _ Ht) as (Ht0 & Hu & v & Hv & Hd).
  unfold opaque_target_stack, opaque_of, VerifiedControlFlowQueries.instruction, usize_from_u32. rewrite Hu, Ht. cbn [mbind option_bind default].
  rewrite Hv. cbn [ok_or mbind result_bind]. rewrite Hd. cbn [ok_or mbind result_bind].
  rewrite try_usize_small by (unfold u32_max; lia). cbn [ok_or mbind result_bind]. unfold reserved_vec.
  rewrite reserve_generous. split; [done|]. unfold len. rewrite length_replicate. cbn. lia.
Qed.

Lemma successors_merge st v oc out : (∀ t n, successors v = VerifiedSuccessors.Branch t n →
    is_truthiness_branch (opcode_at v) = false → is_Some (entry_at vs t)) →
  propagate_successors c st v oc out = merge_all st (flows c v oc out).
Proof.
  intros Ht. unfold propagate_successors, flows, merge_all, propagate_branch, required_successor.
  assert (Hone : ∀ t x st, merge_entry_stack st t x = (st1 ← merge_entry_stack st t x; Ok st1)).
  { intros. by destruct (merge_entry_stack _ _ _). }
  destruct (successors v) as [j|t n|j|]; cbn; try done; try apply Hone.
  destruct (is_truthiness_branch _) eqn:Hb; [destruct oc as [[]|]; cbn; try apply Hone|].
  - destruct (merge_entry_stack st t out); [cbn; apply Hone|done].
  - destruct (Ht t n eq_refl eq_refl) as [d Hd]. destruct (opaque_target_total t d Hd) as [-> _]. cbn.
    destruct (merge_entry_stack st t _); [cbn; apply Hone|done].
Qed.

(** The stacks an instruction passes on fit their targets. *)
Lemma flows_sized p v k oc out o : vs !! p = Some v → entry_stack_depth v = Some k → transfer v k = Some o → len out = o →
  Forall (λ flow, entry_at vs flow.1 = Some (len flow.2)) (flows c v oc out) ∧
  (∀ t n, successors v = VerifiedSuccessors.Branch t n → is_Some (entry_at vs t)).
Proof.
  intros Hv Hk Ht Hl. assert (at_index vs (Z.of_nat p) = Some v) as Hi by (apply at_index_Some; rewrite Nat2Z.id; split; [lia|done]).
  destruct (PipelineFacts.certificate_at limits gen bc domains c Hbc Hok _ v k Hi Hk) as (_ & _ & o' & Ht' & _ & _ & _ & Hed & _).
  assert (o' = o) as -> by congruence. unfold edges in Hed. unfold flows.
  destruct (successors v) as [j|t n|j|] eqn:Hs.
  - destruct (Hed j o false) as (d & Hd & Heq); [by left|]. rewrite (Heq eq_refl) in Hd. split; [|done].
    repeat constructor. cbn. by rewrite Hl.
  - destruct (Hed n o false) as (d & Hd & Heq); [right; by left|]. rewrite (Heq eq_refl) in Hd.
    destruct (Hed t _ _ (list_elem_of_here _ _)) as (d' & Hd' & Heq').
    split; [|by intros ? ? [= <- <-]; exists d'].
    destruct (is_truthiness_branch (opcode_at v)) eqn:Hb.
    + assert (entry_at vs t = Some o) as Ht2.
      { rewrite Hd'. f_equal. change (opcode_of v) with (opcode_at v) in Heq'.
        assert (gen && bool_decide (opcode_at v = FinalOpcode.Gosub) = false ∧ extra (opcode_at v) = 0) as [Hg Hx].
        { clear -Hb. rewrite andb_false_iff. by destruct (opcode_at v); auto. }
        rewrite (Heq' Hg), Hx. lia. }
      destruct oc as [[]|]; repeat constructor; cbn; by rewrite Hl.
    + destruct (opaque_target_total t d' Hd') as [_ Ho]. repeat constructor; cbn; [by rewrite Ho|by rewrite Hl].
  - destruct (Hed j o false) as (d & Hd & Heq); [by left|]. rewrite (Heq eq_refl) in Hd. split; [|done].
    repeat constructor. cbn. by rewrite Hl.
  - by split.
Qed.

Lemma propagate_position_total st p : sized (entry_stacks st) → (p < length vs)%nat →
  ∃ st', propagate_position c inputs st p = Ok st' ∧ pays st st'.
Proof.
  intros Hs Hp. destruct (lookup_lt_is_Some_2 vs p Hp) as [v Hv]. unfold propagate_position. rewrite Hv. cbn [ok_or mbind result_bind].
  fold (entry_of (entry_stacks st) p). destruct (entry_of (entry_stacks st) p) as [a|] eqn:Ha; [|exists st; split; [done|by split_and!]].
  pose proof (sized_depth _ _ Hs _ _ Ha) as Hd. pose proof (Hdepths _ _ Hd) as Hb.
  apply bind_Some in Hd as (v' & [_ Hv']%at_index_Some & Hd). rewrite Nat2Z.id in Hv'. assert (v' = v) as -> by congruence.
  assert (at_index vs (Z.of_nat p) = Some v) as Hi by (apply at_index_Some; rewrite Nat2Z.id; split; [lia|done]).
  destruct (PipelineFacts.certificate_at limits gen bc domains c Hbc Hok _ v _ Hi Hd) as (_ & _ & o & Ht & _).
  pose proof Ht as Ht'. unfold transfer in Ht'. destruct (Instruction.stack_effect _) as [e|] eqn:He; [|done].
  destruct (Z.ltb_spec (len a) (pops e)) as [|Hpop]; [done|]. injection Ht' as Ho.
  destruct (transfer_total a (instruction (decoded v)) inputs e) as (out & Hout & Hlen);
    [exact (Forall_lookup_1 _ _ _ _ (verified_valid _ _ _ _ _ Hbc Hok) Hv)|done|done|unfold u64_max; lia|].
  destruct (flows_sized p v (len a) (constant_branch_outcome (opcode_at v) a) out o Hv Hd Ht ltac:(lia)) as [Hf Hbr].
  destruct (merge_all_total _ st Hs Hf) as (st' & Hm & Hpay). exists st'. split; [|done].
  unfold clone_values, reserved_vec, usize_from_u32. rewrite reserve_generous. cbn [mbind result_bind]. rewrite Hd.
  cbn [ok_or mbind result_bind]. rewrite try_usize_small by (unfold u32_max; lia). cbn [ok_or mbind result_bind].
  unfold len. rewrite Nat2Z.id, Nat.eqb_refl. cbn [negb reject_if mbind result_bind]. rewrite Hout. cbn [mbind result_bind].
  change (Instruction.opcode (instruction (decoded v))) with (opcode_at v).
  rewrite successors_merge; [exact Hm|]. intros t n Hsv _. by eapply Hbr.
Qed.

(** The loop ends with an answer, or with the evaluation budget spent. *)
Lemma propagate_loop_total fuel : ∀ evaluations st, sized (entry_stacks st) →
  Forall (λ p, (p < length vs)%nat) (pending st) → 0 ≤ evaluations →
  (owing vs (entry_stacks st) + length (pending st) ≤ fuel)%nat →
  (∃ es, propagate_loop c inputs limits fuel evaluations st = Ok es) ∨
  propagate_loop c inputs limits fuel evaluations st = Err (capacity_error "CFG constant propagation evaluations") ∧
  Z.min (max_transfer_evaluations limits) u64_max < evaluations + Z.of_nat fuel.
Proof.
  induction fuel as [|fuel IH]; intros ev st Hs Hp Hev Hfuel; cbn [propagate_loop];
    destruct (pending st) as [|p rest] eqn:Ep; [left; by eexists|cbn in Hfuel; lia|left; by eexists|].
  apply Forall_cons_1 in Hp as [Hp Hrest]. unfold charge_evaluation, checked_add_u64.
  destruct (Z.leb_spec (ev + 1) u64_max); [|right; split; [done|]; lia]. cbn [ok_or mbind result_bind].
  destruct (Z.ltb_spec (max_transfer_evaluations limits) (ev + 1)); [right; split; [done|]; lia|].
  cbn [reject_if mbind result_bind].
  destruct (propagate_position_total (mkPropagation (entry_stacks st) rest) p Hs Hp) as (st' & -> & Hs' & Ho & Hp').
  cbn [mbind result_bind entry_stacks pending] in *. cbn [length] in Hfuel.
  destruct (IH (ev + 1) st' Hs' (Hp' Hrest)) as [?|[? ?]]; [lia|lia|by left|right]. split; [done|lia].
Qed.

Lemma start_owing v rest : vs = v :: rest → (owing vs (Some [] :: replicate (length rest) None)
  ≤ sum_list_with (λ v, S (2 * Z.to_nat (default 0%Z (entry_stack_depth v)))) vs - 1)%nat.
Proof.
  intros ->. unfold owing. cbn [zip_with sum_list sum_list_with owed ranks].
  assert (sum_list (zip_with owed (replicate (length rest) None) rest)
    = sum_list_with (λ v, S (2 * Z.to_nat (default 0 (entry_stack_depth v)))) rest) as ->; [|simpl; lia].
  induction rest as [|w rest IH]; [done|]. cbn. by rewrite IH.
Qed.

Lemma propagate_constants_total :
  (∃ es, propagate_constants c inputs limits = Ok es) ∨
  propagate_constants c inputs limits = Err (capacity_error "CFG constant propagation evaluations") ∧
  Z.min (max_transfer_evaluations limits) u64_max < Z.of_nat (propagation_fuel c).
Proof.
  assert (entry_at vs 0 = Some 0) as He.
  { destruct Hok as [_ _ _ _ _ (vs0 & kd & Hcert & _)]. apply (certified_entry _ _ _ _ _ Hcert). }
  assert (∃ v rest, vs = v :: rest) as (v & rest & Evs).
  { apply bind_Some in He as (v & [_ Hv]%at_index_Some & _). destruct vs as [|v0 rest]; [done|by eexists _, _]. }
  unfold propagate_constants, reserved_vec, Optimizer.reserve_worklist. rewrite !reserve_generous.
  assert (length vs = S (length rest)) as -> by (by rewrite Evs). cbn [mbind result_bind].
  pose proof (propagate_loop_total (propagation_fuel c) 0 (mkPropagation (Some [] :: replicate (length rest) None) [O])) as Hl.
  cbn [entry_stacks pending length] in Hl. rewrite Z.add_0_l in Hl. apply Hl.
  - split; [rewrite Evs; simpl; by rewrite length_replicate|]. intros [|i] a Ha; [by injection Ha as <-|].
    exfalso. unfold entry_of in Ha. cbn in Ha.
    destruct (replicate (length rest) None !! i) as [x|] eqn:Ex; [|done]. apply lookup_replicate in Ex as [-> _]. done.
  - repeat constructor. rewrite Evs. simpl. lia.
  - lia.
  - pose proof (start_owing v rest Evs) as Ho. unfold propagation_fuel.
    assert (1 ≤ sum_list_with (λ v, S (2 * Z.to_nat (default 0%Z (entry_stack_depth v)))) vs)%nat; [rewrite Evs; simpl; lia|lia].
Qed.
End turns.

(** A fixed point, or the refusal of a budget below the bound on the turns. *)
Definition answers `{Allocator} (c : VerifiedControlFlow) (inputs : ConstantInputs) (limits : VerificationLimits) : Prop :=
  (∃ es, propagate_constants c inputs limits = Ok es ∧ fixed_point c inputs es) ∨
  propagate_constants c inputs limits = Err (capacity_error "CFG constant propagation evaluations") ∧
  Z.min (max_transfer_evaluations limits) u64_max < Z.of_nat (propagation_fuel c).

(** C9.  Constant propagation always answers: over a verified function and
    with memory to spare it returns a fixed point of the transfer (the empty
    stack at the entry, every recorded stack passed on to all the successors
    it can reach), and only an evaluation budget below one turn per
    instruction plus two per slot of its entry stack makes it refuse, never
    an invariant failure, an out-of-range index or a loop that does not
    end. *)
Theorem propagation_answers (a : Allocator) (Ha : GenerousAllocator) (body : UnverifiedCompilerFunctionBody)
    (limits : VerificationLimits) (c : VerifiedControlFlow) (inputs : ConstantInputs)
    (Hbc : byte_list (compiler_bytecode body)) (Hmax : max_instructions_per_function limits ≤ u32_max)
    (Hdepth : 0 ≤ max_stack_depth limits)
    (Hc : verify_compiler_control_flow body limits = Ok c) : answers c inputs limits.
Proof.
  unfold verify_compiler_control_flow in Hc. apply PipelineFacts.verify_common_Ok in Hc as Hok; [|done..].
  destruct (verified_depths _ _ _ _ _ _ _ _ Hbc Hmax Hdepth Hc) as [Hd Hm].
  assert (len (instructions c) ≤ u32_max) as Hs.
  { pose proof (PipelineFacts.pipeline_stream _ _ _ _ _ Hok) as Hst. unfold len.
    rewrite <- (length_fmap decoded (instructions c)).
    destruct (StreamFacts.decodes_to_length _ Hbc _ _ Hst) as [Hl|Hl]; [|rewrite Hl; cbn; unfold u32_max; lia].
    destruct (decoded <$> instructions c) eqn:E; [cbn; unfold u32_max; lia|].
    pose proof (StreamFacts.decodes_to_u32 _ Hbc _ _ Hst ltac:(done)). lia. }
  destruct (propagate_constants_total limits _ _ _ c inputs Hbc Hok Hd Hm Hs) as [[es He]|?]; [|by right].
  left. exists es. split; [done|]. by eapply (@propagate_constants_Ok a).
Qed.

Lemma propagation_answers_witness :
  @answers always_allocates constant_branch_verified constant_branch_inputs UNTRUSTED ∧
  propagation_fuel constant_branch_verified = 13%nat.
Proof.
  split; [|reflexivity].
  apply (propagation_answers always_allocates always_allocates_generous constant_branch_body UNTRUSTED).
  - unfold byte_list, is_u8. repeat apply Forall_cons_2; try apply Forall_nil_2; simpl; lia.
  - vm_compute. discriminate.
  - vm_compute. discriminate.
  - vm_compute. reflexivity.
Defined.
