(* ===== verification/EmissionFacts.v ===== *)
(** * What the optimizer emits

    The plan [assemble_optimized_control_flow] hands to the assembler, as one
    block of items per instruction of the original control flow, and the
    labels bound at the start of each retained block. *)

From S2P Require Import Prelude Opcode Codec Function VerifierModel VerifierStack Verifier Assembler AssemblerFinish CompilerString AbstractValues AbstractValueFacts Optimizer OptimizerRewrite.
From stdpp Require Import list.
Local Open Scope Z_scope.

(** ** The reference plan *)

Section reference.
Context (facts : ControlFlowFacts).
Local Notation kept i := (ControlFlowFacts.is_retained facts i).

(** The number of retained positions before [i]: the label of position [i]. *)
Fixpoint rank_of (i : nat) : nat :=
  match i with
  | O => O
  | S i => rank_of i + (if kept i then 1 else 0)
  end.

Definition label_of (target : Z) : Z := Z.of_nat (rank_of (Z.to_nat target)).

Definition block_target (s : VerifiedSuccessors) : option Z :=
  match s with
  | VerifiedSuccessors.Branch taken _ => Some taken
  | VerifiedSuccessors.Jump target => Some target
  | _ => None
  end.

(** A branch with a known outcome. *)
Definition folded_block (taken : bool) (s : VerifiedSuccessors) : list AssemblyItem :=
  AssemblyItem.Instruction (Instruction.mk FinalOpcode.Drop Operands.None) ::
  match s with
  | VerifiedSuccessors.Branch target fallthrough =>
      if taken && negb (target =? fallthrough)
      then [AssemblyItem.Branch BranchKind.Goto (label_of target)] else []
  | _ => []
  end.

(** A retained instruction without one. *)
Definition plain_block (v : VerifiedInstruction) : list AssemblyItem :=
  match symbolic_branch_kind (opcode_at v), block_target (successors v) with
  | Some kind, Some target => [AssemblyItem.Branch kind (label_of target)]
  | Some _, None => []
  | None, target =>
      if is_with_branch (opcode_at v) then
        match Instruction.operands (instruction (decoded v)), target with
        | Operands.AtomLabelU8 atom _ value, Some target =>
            [AssemblyItem.WithBranch (opcode_at v) atom value (label_of target)]
        | _, _ => []
        end
      else [AssemblyItem.Instruction (instruction (decoded v))]
  end.

Definition block_of (i : nat) (v : VerifiedInstruction) : list AssemblyItem :=
  if kept i then
    match ControlFlowFacts.branch_outcome facts i with
    | Some taken => folded_block taken (successors v)
    | None => plain_block v
    end
  else [].

(** The items before position [i], and how many. *)
Definition items_before (vs : list VerifiedInstruction) (i : nat) : list AssemblyItem :=
  concat (take i (imap block_of vs)).
Definition position_of (vs : list VerifiedInstruction) (i : nat) : nat := length (items_before vs i).

(** The original position of each of those items. *)
Definition origins_before (vs : list VerifiedInstruction) (i : nat) : list nat :=
  concat (take i (imap (λ i v, map (λ _, i) (block_of i v)) vs)).

Lemma origins_before_S vs i v : vs !! i = Some v →
  origins_before vs (S i) = origins_before vs i ++ map (λ _, i) (block_of i v).
Proof.
  intros Hv. unfold origins_before.
  rewrite (take_S_r _ i (map (λ _, i) (block_of i v))) by (by rewrite list_lookup_imap, Hv).
  rewrite concat_app. simpl. by rewrite app_nil_r.
Qed.

Lemma items_before_S vs i v : vs !! i = Some v → items_before vs (S i) = items_before vs i ++ block_of i v.
Proof.
  intros Hv. unfold items_before.
  rewrite (take_S_r _ i (block_of i v)) by (by rewrite list_lookup_imap, Hv).
  rewrite concat_app. simpl. by rewrite app_nil_r.
Qed.

Lemma position_S vs i v : vs !! i = Some v → position_of vs (S i) = (position_of vs i + length (block_of i v))%nat.
Proof. intros Hv. unfold position_of. by rewrite (items_before_S vs i v Hv), length_app. Qed.

Lemma position_beyond vs i : (length vs ≤ i)%nat → position_of vs i = position_of vs (S i).
Proof. intros Hi. unfold position_of, items_before. by rewrite !take_ge by (rewrite length_imap; lia). Qed.

Lemma rank_mono i j : (i ≤ j)%nat → (rank_of i ≤ rank_of j)%nat.
Proof. induction 1; [done|]. simpl. destruct (kept m); lia. Qed.

Lemma rank_strict i j : (i < j)%nat → kept i = true → (rank_of i < rank_of j)%nat.
Proof. intros Hij Hk. pose proof (rank_mono (S i) j Hij) as Hr. simpl in Hr. rewrite Hk in Hr. lia. Qed.

Lemma rank_inj i j : kept i = true → kept j = true → rank_of i = rank_of j → i = j.
Proof.
  intros Hi Hj Heq. destruct (lt_eq_lt_dec i j) as [[Hlt|]|Hlt]; [|done|].
  - pose proof (rank_strict i j Hlt Hi). lia.
  - pose proof (rank_strict j i Hlt Hj). lia.
Qed.
End reference.

(** ** Labels *)

Section labels.
Context `{Allocator} (facts : ControlFlowFacts).
Local Notation kept i := (ControlFlowFacts.is_retained facts i).
Local Notation rank := (rank_of facts).

(** A fresh plan with the labels of the first [n] positions. *)
Record fresh_labels (identity : Z) (n : nat) (plan : BytecodeAssembler) : Prop := {
  fresh_ok : PlanFacts.assembler_ok plan;
  fresh_identity : Assembler.identity plan = identity;
  fresh_items : items plan = [];
  fresh_bindings : label_bindings plan = replicate (rank n) None }.

Lemma allocate_labels_from_Ok identity sources : ∀ n plan plan' labels spans,
  fresh_labels identity n plan → allocate_labels_from plan facts n sources = Ok (plan', labels, spans) →
  fresh_labels identity (n + length sources) plan' ∧ limits plan' = limits plan ∧
  ∀ i, labels !! i = if decide (i < length sources)%nat
    then Some (if kept (n + i)%nat then Some (mkLabel identity (Z.of_nat (rank (n + i)%nat))) else None) else None.
Proof.
  induction sources as [|source sources IH]; intros n plan plan' labels spans Hf E; cbn in E.
  - injection E as <- <- <-. rewrite Nat.add_0_r. split_and!; [done|done|]. intros i. by rewrite decide_False by (simpl; lia).
  - replace (n + length (source :: sources))%nat with (S n + length sources)%nat by (simpl; lia).
    assert (Hshift : ∀ i (b : option AssemblerLabel) l, (∀ j, l !! j = if decide (j < length sources)%nat
        then Some (if kept (S n + j)%nat then Some (mkLabel identity (Z.of_nat (rank (S n + j)%nat))) else None) else None) →
      b = (if kept n then Some (mkLabel identity (Z.of_nat (rank n))) else None) →
      (b :: l) !! i = if decide (i < length (source :: sources))%nat
        then Some (if kept (n + i)%nat then Some (mkLabel identity (Z.of_nat (rank (n + i)%nat))) else None) else None).
    { intros [|i] b l Hl ->; cbn [length lookup list_lookup].
      - by rewrite decide_True, Nat.add_0_r by lia.
      - rewrite Hl. replace (n + S i)%nat with (S n + i)%nat by lia. by repeat case_decide; try lia. }
    destruct (kept n) eqn:Hk; cbn [negb] in E; inv_ok.
    + destruct x as [label plan1]. inv_ok. destruct x as [[plan2 labels2] spans2]. inv_ok. simplify_eq.
      rename select (assembly _ _ = _) into Hn. unfold assembly in Hn. apply map_err_Ok in Hn.
      pose proof (PlanFacts.new_label_ok plan (fresh_ok _ _ _ Hf) _ _ Hn) as Hok.
      unfold new_label in Hn. inv_ok. simplify_eq. rename select (try_u32 _ = _) into Hu.
      apply try_u32_Some in Hu as [-> Hu]. destruct Hf as [_ Hid Hit Hb].
      edestruct IH as (Hfr & Hlim & Hlab); [|done|].
      { constructor; cbn; [done|done|done|]. rewrite Hb, Hk, replicate_add. done. }
      split_and!; [done|done|]. intros i. apply Hshift; [done|]. do 2 f_equal; [done|].
      rewrite Hb. unfold len. by rewrite length_replicate.
    + destruct x as [[plan2 labels2] spans2]. inv_ok. simplify_eq.
      edestruct IH as (Hfr & Hlim & Hlab); [|done|].
      { destruct Hf as [? Hid Hit Hb]. constructor; [done..|]. cbn. by rewrite Hk, Nat.add_0_r. }
      split_and!; [done|done|]. intros i. by apply Hshift.
Qed.
End labels.

(** ** Blocks *)

Section emission.
Context `{Allocator} (facts : ControlFlowFacts) (identity : Z) (vs : list VerifiedInstruction)
  (labels : list (option AssemblerLabel)) (sources : list SourceInstruction).
Local Notation kept i := (ControlFlowFacts.is_retained facts i).
Local Notation rank := (rank_of facts).
Context (Hlabels : ∀ i l, labels !! i = Some (Some l) → kept i = true ∧ l = mkLabel identity (Z.of_nat (rank i)))
  (Hvs : Forall (λ v, Operands.in_range (Instruction.operands (instruction (decoded v)))) vs).

(** [plan'] is [plan] with [l] appended. *)
Definition appends (plan plan' : BytecodeAssembler) (l : list AssemblyItem) : Prop :=
  PlanFacts.assembler_ok plan' ∧ items plan' = items plan ++ l ∧
  label_bindings plan' = label_bindings plan ∧ Assembler.identity plan' = Assembler.identity plan ∧
  limits plan' = limits plan.

Lemma appends_trans p1 p2 p3 l k : appends p1 p2 l → appends p2 p3 k → appends p1 p3 (l ++ k).
Proof.
  intros (? & Hi & Hb & Hd & Hl) (? & Hi' & Hb' & Hd' & Hl').
  split_and!; [done| |congruence..]. by rewrite Hi', Hi, app_assoc.
Qed.

Lemma push_item_appends plan item plan' : push_item plan item = Ok plan' →
  items plan' = items plan ++ [item] ∧ label_bindings plan' = label_bindings plan ∧
  Assembler.identity plan' = Assembler.identity plan ∧ limits plan' = limits plan.
Proof. unfold push_item. intros E. inv_ok. by subst. Qed.

Lemma push_origin_Ok origins origin origins' : push_origin origins origin = Ok origins' → origins' = origins ++ [origin].
Proof. unfold push_origin. intros E. by inv_ok. Qed.

Lemma emit_instruction_Ok plan origins origin span opcode ops plan' origins' :
  PlanFacts.assembler_ok plan → Operands.in_range ops →
  emit_instruction (plan, origins) origin span opcode ops = Ok (plan', origins') →
  appends plan plan' [AssemblyItem.Instruction (Instruction.mk opcode ops)] ∧ origins' = origins ++ [origin].
Proof.
  intros Hok Hr E. cbn in E. inv_ok. destruct x as [n p]. inv_ok. simplify_eq.
  rename select (assembly _ _ = _) into Hp. apply map_err_Ok in Hp.
  pose proof (PlanFacts.push_ok plan Hok _ _ _ _ Hr Hp) as Hok'. unfold push in Hp. inv_ok. simplify_eq.
  rename select (Instruction.new _ _ = _) into Hnew. apply PlanFacts.new_ok in Hnew as [-> _]; [|done].
  rename select (push_item _ _ = _) into Hpush. apply push_item_appends in Hpush as (? & ? & ? & ?).
  rename select (push_origin _ _ = _) into Ho. apply push_origin_Ok in Ho. done.
Qed.

Lemma resolved_u32 plan label b : PlanFacts.assembler_ok plan → 0 ≤ Assembler.index label →
  resolve_label plan label = Ok b → is_u32 (Assembler.index label).
Proof.
  intros Hok H0 Hr. pose proof (PlanFacts.resolve_label_range _ _ _ H0 Hr). pose proof (PlanFacts.ok_labels _ Hok).
  unfold len in *. unfold_ints. lia.
Qed.

Lemma emit_branch_Ok plan origins origin span kind label plan' origins' :
  PlanFacts.assembler_ok plan → 0 ≤ Assembler.index label →
  emit_branch (plan, origins) origin span kind label = Ok (plan', origins') →
  appends plan plan' [AssemblyItem.Branch kind (Assembler.index label)] ∧ origins' = origins ++ [origin].
Proof.
  intros Hok Hr E. cbn in E. inv_ok. destruct x as [n p]. inv_ok. simplify_eq.
  rename select (assembly _ _ = _) into Hp. apply map_err_Ok in Hp.
  assert (is_u32 (Assembler.index label)) as Hu.
  { pose proof Hp as Hp'. unfold branch in Hp'. inv_ok. by eapply resolved_u32. }
  pose proof (PlanFacts.branch_ok plan Hok _ _ _ _ Hu Hp) as Hok'. unfold branch in Hp. inv_ok. simplify_eq.
  rename select (push_item _ _ = _) into Hpush. apply push_item_appends in Hpush as (? & ? & ? & ?).
  rename select (push_origin _ _ = _) into Ho. apply push_origin_Ok in Ho. done.
Qed.

Lemma emit_with_Ok plan origins position span opcode atom value label plan' origins' n :
  PlanFacts.assembler_ok plan → is_u32 atom → is_u8 value → 0 ≤ Assembler.index label →
  assembly span (with_branch plan opcode atom value label) = Ok (n, plan') →
  push_origin origins position = Ok origins' →
  appends plan plan' [AssemblyItem.WithBranch opcode atom value (Assembler.index label)] ∧
  origins' = origins ++ [position].
Proof.
  intros Hok Ha Hv Hr Hp Ho. apply map_err_Ok in Hp.
  assert (is_u32 (Assembler.index label)) as Hu.
  { pose proof Hp as Hp'. unfold with_branch in Hp'. inv_ok. by eapply resolved_u32. }
  pose proof (PlanFacts.with_branch_ok plan Hok _ _ _ _ _ _ Ha Hv Hu Hp) as Hok'. unfold with_branch in Hp. inv_ok. simplify_eq.
  rename select (push_item _ _ = _) into Hpush. apply push_item_appends in Hpush as (? & ? & ? & ?).
  apply push_origin_Ok in Ho. done.
Qed.

(** A resolved label is that of a retained position. *)
Lemma label_for_Ok target label : label_for labels target = Ok label →
  kept (Z.to_nat target) = true ∧ label = mkLabel identity (label_of facts target).
Proof.
  unfold label_for, usize_from_u32. intros E. inv_ok.
  rename select (try_usize _ = _) into Ht. unfold try_usize in Ht. case_match; [|done]. injection Ht as <-.
  destruct (labels !! Z.to_nat target) as [l|] eqn:El; [|done]. simpl in E. subst. by apply Hlabels in El.
Qed.

Lemma emit_goto_Ok plan origins position span target fallthrough plan' origins' : PlanFacts.assembler_ok plan →
  (if negb (target =? fallthrough) then
     label ← label_for labels target; emit_branch (plan, origins) position span BranchKind.Goto label
   else Ok (plan, origins)) = Ok (plan', origins') →
  let l := if negb (target =? fallthrough) then [AssemblyItem.Branch BranchKind.Goto (label_of facts target)] else [] in
  appends plan plan' l ∧ origins' = origins ++ map (λ _, position) l.
Proof.
  intros Hok E. destruct (negb (target =? fallthrough)); inv_ok; simplify_eq; cbn.
  - rename select (label_for _ _ = _) into Hl. apply label_for_Ok in Hl as [_ ->].
    apply emit_branch_Ok in E; [done|done|cbn; unfold label_of; lia].
  - rewrite app_nil_r. split; [|done]. unfold appends. by rewrite app_nil_r.
Qed.

(** Every retained instruction is emitted as its block. *)
Lemma emit_rewritten_Ok plan origins i v span plan' origins' :
  PlanFacts.assembler_ok plan → vs !! i = Some v → kept i = true →
  emit_rewritten_instruction (plan, origins) labels i v (ControlFlowFacts.branch_outcome facts i) span
    = Ok (plan', origins') →
  appends plan plan' (block_of facts i v) ∧ origins' = origins ++ map (λ _, i) (block_of facts i v).
Proof.
  intros Hok Hv Hk E. pose proof (Forall_lookup_1 _ _ _ _ Hvs Hv) as Hr. cbn in Hr.
  unfold emit_rewritten_instruction, required_successor in E. unfold block_of. rewrite Hk.
  destruct (ControlFlowFacts.branch_outcome facts i) as [taken|]; inv_ok.
  - destruct x as [plan1 origins1]. rename select (emit_instruction _ _ _ _ _ = _) into Hd.
    apply emit_instruction_Ok in Hd as [Ha ->]; [|done|done]. unfold folded_block.
    destruct taken; inv_ok; simplify_eq; cbn [andb].
    + destruct (successors v) as [|t n| |]; simplify_eq/=. apply emit_goto_Ok in E as [Hg ->]; [|apply Ha].
      split; [by eapply (appends_trans _ _ _ [_])|]. by rewrite <- app_assoc.
    + destruct (successors v); done.
  - unfold plain_block, opcode_at. destruct (symbolic_branch_kind _) as [kind|] eqn:Ek; inv_ok.
    + rename select (label_for _ _ = _) into Hl. apply label_for_Ok in Hl as [_ ->].
      apply emit_branch_Ok in E; [|done|cbn; unfold label_of; lia].
      destruct (successors v); simplify_eq/=; done.
    + destruct (is_with_branch _) eqn:Ew.
      * destruct (Instruction.operands (instruction (decoded v))) eqn:Eo; try discriminate E. inv_ok.
        rename select (label_for _ _ = _) into Hl. apply label_for_Ok in Hl as [_ ->].
        destruct x1 as [n p]. inv_ok. simplify_eq. destruct Hr as (Hra & Hrb & Hrc).
        destruct (successors v); simplify_eq/=.
        eapply (emit_with_Ok plan origins i span _ atom value (mkLabel identity (label_of facts x))); try done.
        cbn. unfold label_of. lia.
      * apply emit_instruction_Ok in E; [|done|done]. by destruct (instruction (decoded v)).
Qed.

(** ** The loop *)

Record emission_inv (n : nat) (st : EmissionState) : Prop := {
  inv_plan : PlanFacts.assembler_ok (fst (emitted st));
  inv_items : items (fst (emitted st)) = items_before facts vs n;
  inv_origins : snd (emitted st) = origins_before facts vs n;
  inv_boundaries : boundaries st = map (λ k, Z.of_nat (position_of facts vs k)) (seq 0 (S n));
  inv_bindings i : (i < length vs)%nat → kept i = true →
    label_bindings (fst (emitted st)) !! rank i
    = Some (if decide (i < n)%nat then Some (position_of facts vs i) else None) }.

Lemma origins_length i : length (origins_before facts vs i) = position_of facts vs i.
Proof.
  induction i as [|i IH]; [done|]. destruct (vs !! i) as [v|] eqn:Hv.
  - by rewrite (origins_before_S facts vs i v), (position_S facts vs i v), length_app, length_map, IH.
  - apply lookup_ge_None in Hv. rewrite <- (position_beyond facts vs i Hv), <- IH. unfold origins_before.
    by rewrite !take_ge by (rewrite length_imap; lia).
Qed.

Lemma seq_snoc a n : seq a (S n) = seq a n ++ [(a + n)%nat].
Proof. by rewrite seq_S. Qed.

(** Binding the label of the current position. *)
Lemma bind_binds plan label plan' n : (n < length vs)%nat → kept n = true →
  label = mkLabel identity (Z.of_nat (rank n)) → PlanFacts.assembler_ok plan →
  length (items plan) = position_of facts vs n → bind plan label = Ok plan' →
  (∀ i, (i < length vs)%nat → kept i = true →
    label_bindings plan !! rank i = Some (if decide (i < n)%nat then Some (position_of facts vs i) else None)) →
  PlanFacts.assembler_ok plan' ∧ items plan' = items plan ∧
  ∀ i, (i < length vs)%nat → kept i = true →
    label_bindings plan' !! rank i = Some (if decide (i < S n)%nat then Some (position_of facts vs i) else None).
Proof.
  intros Hn Hk -> Hok Hlen Hb Hold. pose proof (PlanFacts.bind_ok plan Hok _ _ Hb) as Hok'.
  unfold bind in Hb. inv_ok. subst. cbn in *. rewrite Nat2Z.id in *. split_and!; [done|done|].
  intros i Hi Hki. destruct (decide (rank i = rank n)) as [Hr|Hr].
  - apply rank_inj in Hr as ->; [|done..]. rewrite list_lookup_insert_eq.
    + rewrite Hlen. by rewrite decide_True by lia.
    + eapply lookup_lt_Some, (Hold n); done.
  - rewrite list_lookup_insert_ne by done. rewrite Hold by done. assert (i ≠ n) by congruence.
    repeat case_decide; done || lia.
Qed.

Lemma emit_position_inv n v st st' : vs !! n = Some v → emission_inv n st →
  emit_position labels sources facts st (n, v) = Ok st' → emission_inv (S n) st'.
Proof.
  intros Hv [Hok Hit Hor Hbd Hbi] E. pose proof (lookup_lt_Some _ _ _ Hv) as Hlt. unfold emit_position in E. inv_ok.
  destruct x as [[plan' origins'] lr]. inv_ok. subst st'. cbn [fst snd] in *.
  rename select (u32_from_usize _ _ = _) into Hu. unfold u32_from_usize in Hu. inv_ok. apply try_u32_Some in Hu as [-> _].
  assert (PlanFacts.assembler_ok plan' ∧ items plan' = items_before facts vs n ++ block_of facts n v ∧
    origins' = origins_before facts vs n ++ map (λ _, n) (block_of facts n v) ∧
    ∀ i, (i < length vs)%nat → kept i = true → label_bindings plan' !! rank i
      = Some (if decide (i < S n)%nat then Some (position_of facts vs i) else None)) as (Hok' & Hit' & Hor' & Hbi').
  { rename select (_ = Ok (plan', origins', lr)) into E. destruct (kept n) eqn:Hk.
    - inv_ok. destruct (emitted st) as [plan origins]. cbn [fst snd] in *. inv_ok. simplify_eq.
      rename select (mjoin _ = _) into Hl. destruct (labels !! n) as [o|] eqn:El; [|done]. simpl in Hl. subst o.
      apply Hlabels in El as [_ ->]. rename select (assembly _ (bind _ _) = _) into Hb. apply map_err_Ok in Hb.
      eapply bind_binds in Hb as (Hok1 & Hit1 & Hbi1); try done; [|by rewrite Hit].
      rename select (emit_rewritten_instruction _ _ _ _ _ _ = _) into He.
      eapply emit_rewritten_Ok in He as [(Ha & Hi & Hb' & _) ->]; try done.
      rewrite Hi, Hit1, Hit, Hb'. done.
    - simplify_eq. unfold block_of. rewrite Hk. destruct (emitted st) as [plan origins]. simplify_eq/=.
      rewrite !app_nil_r. split_and!; try done. intros i Hi Hki. rewrite Hbi by done.
      assert (i ≠ n) by congruence. repeat case_decide; done || lia. }
  constructor; cbn [emitted boundaries fst snd]; try done.
  - by rewrite (items_before_S facts vs n v).
  - by rewrite (origins_before_S facts vs n v).
  - rewrite Hbd. rewrite (seq_snoc 0 (S n)), map_app. cbn [map Nat.add]. do 3 f_equal.
    rewrite <- origins_length, (origins_before_S facts vs n v) by done. by rewrite Hor'.
Qed.

(** The closing terminal changes nothing before it but the last boundary. *)
Lemma close_emission_Ok c st st' : instructions c = vs → emission_inv (length vs) st →
  close_emission c sources st = Ok st' →
  PlanFacts.assembler_ok (fst (emitted st')) ∧
  (∃ tail, items (fst (emitted st')) = items_before facts vs (length vs) ++ tail) ∧
  label_bindings (fst (emitted st')) = label_bindings (fst (emitted st)) ∧
  ∃ extra last_boundary, snd (emitted st') = snd (emitted st) ++ extra ∧
    boundaries st' = map (λ k, Z.of_nat (position_of facts vs k)) (seq 0 (length vs)) ++ [last_boundary].
Proof.
  intros Hc [Hok Hit Hor Hbd Hbi] E. unfold close_emission in E. rewrite seq_snoc, map_app in Hbd.
  assert (Hsame : st' = st → PlanFacts.assembler_ok (fst (emitted st')) ∧
    (∃ tail, items (fst (emitted st')) = items_before facts vs (length vs) ++ tail) ∧
    label_bindings (fst (emitted st')) = label_bindings (fst (emitted st)) ∧
    ∃ extra last_boundary, snd (emitted st') = snd (emitted st) ++ extra ∧
      boundaries st' = map (λ k, Z.of_nat (position_of facts vs k)) (seq 0 (length vs)) ++ [last_boundary]).
  { intros ->. split_and!; [done|exists []; by rewrite app_nil_r|done|].
    exists []. eexists. rewrite app_nil_r. split; [done|exact Hbd]. }
  destruct (last_retained st) as [position|]; inv_ok; [|by apply Hsame].
  destruct (is_fallthrough _); inv_ok; [|by apply Hsame]. clear Hsame. subst st'.
  destruct (emitted st) as [plan origins]. destruct x1 as [plan' origins']. cbn [emitted boundaries fst snd] in *.
  rename select (set_last_boundary _ _ _ = _) into Hs. unfold set_last_boundary in Hs.
  rewrite Hbd in Hs. inv_ok. destruct x1 as [rest last_]. inv_ok. subst.
  rename select (vec_pop _ = _) into Hp. cbn [map] in Hp. rewrite vec_pop_snoc in Hp. injection Hp as <- _.
  rename select (emit_disconnected_terminal _ _ _ _ = _) into He. unfold emit_disconnected_terminal in He.
  case_decide; inv_ok.
  - apply emit_instruction_Ok in He as [(Ha & Hi & Hb & _) ->]; [|done|done].
    split_and!; [done|eexists; by rewrite Hi, Hit|done|by eexists _, _].
  - destruct x1 as [plan1 origins1]. rename select (emit_instruction _ _ _ FinalOpcode.Undefined _ = _) into Hu.
    apply emit_instruction_Ok in Hu as [Ha1 ->]; [|done|done].
    apply emit_instruction_Ok in He as [Ha2 ->]; [|apply Ha1|done].
    destruct (appends_trans _ _ _ _ _ Ha1 Ha2) as (Ha & Hi & Hb & _).
    split_and!; [done|eexists; by rewrite Hi, Hit|done|eexists _, _; by rewrite <- app_assoc].
Qed.
End emission.

(** ** The whole plan *)

(** The plan that was finished, against the reference. *)
Record emitted_plan (facts : ControlFlowFacts) (vs : list VerifiedInstruction)
    (rebuilt : RebuiltInstructions) (plan : BytecodeAssembler) : Prop := {
  plan_ok : PlanFacts.assembler_ok plan;
  plan_items : ∃ tail, items plan = items_before facts vs (length vs) ++ tail;
  plan_bindings i : (i < length vs)%nat → ControlFlowFacts.is_retained facts i = true →
    label_bindings plan !! rank_of facts i = Some (Some (position_of facts vs i));
  plan_origins : ∃ extra, rebuilt_origins rebuilt = origins_before facts vs (length vs) ++ extra;
  plan_counts : ∃ last_boundary, prefix_counts rebuilt
    = map (λ k, Z.of_nat (position_of facts vs k)) (seq 0 (length vs)) ++ [last_boundary] }.

Lemma finish_assembler_Ok `{Allocator} plan origins sources spans out :
  finish_assembler plan origins sources spans = Ok out → finish plan = Ok out.
Proof.
  unfold finish_assembler. destruct (finish plan) as [out'|[e|]]; [by intros [= ->]| |done].
  intros E. destruct e; inv_ok; done.
Qed.

Lemma allocate_labels_Ok `{Allocator} identity facts limits sources plan labels spans :
  PlanFacts.limits_ok limits →
  allocate_labels (with_limits identity limits) sources facts = Ok (plan, labels, spans) →
  fresh_labels facts identity (length sources) plan ∧
  ∀ i l, labels !! i = Some (Some l) →
    ControlFlowFacts.is_retained facts i = true ∧ l = mkLabel identity (Z.of_nat (rank_of facts i)).
Proof.
  unfold allocate_labels. intros Hlim E. inv_ok.
  eapply allocate_labels_from_Ok in E as (Hf & _ & Hl); [split; [exact Hf|]|].
  - intros i l Hi. rewrite Hl in Hi. case_decide; [|done]. simpl in Hi. case_match; by simplify_eq.
  - constructor; [by apply PlanFacts.start_ok|done|done|done].
Qed.

Lemma assemble_Ok `{Allocator} identity c sources facts limits rebuilt :
  length sources = length (instructions c) →
  Forall (λ v, Operands.in_range (Instruction.operands (instruction (decoded v)))) (instructions c) →
  PlanFacts.limits_ok (mkAssemblerLimits (max_bytecode_bytes_per_function limits)
    (max_instructions_per_function limits) (max_transfer_evaluations limits)) →
  assemble_optimized_control_flow identity c sources facts limits = Ok rebuilt →
  ∃ plan out, emitted_plan facts (instructions c) rebuilt plan ∧ finish plan = Ok out ∧
    rebuilt_bytecode rebuilt = assembled_bytecode out ∧ rebuilt_pcs rebuilt = instruction_pcs out.
Proof.
  intros Hs Hvs Hlim E. unfold assemble_optimized_control_flow in E. inv_ok.
  destruct x as [[plan0 labels] spans]. inv_ok. rename x2 into st1, x1 into st0.
  rename select (allocate_labels _ _ _ = _) into Hal. apply allocate_labels_Ok in Hal as [Hf Hl]; [|done].
  rename select (try_fold _ _ _ = _) into Hloop.
  apply (try_fold_enumerate _ (emission_inv facts (instructions c))) in Hloop; cbn [Nat.add] in *.
  - rename select (close_emission _ _ _ = _) into Hclose.
    destruct (close_emission_Ok facts (instructions c) sources Hvs c st0 st1 eq_refl Hloop Hclose)
      as (Hok & Hit & Hb & extra & lb & Ho & Hbd).
    destruct (emitted st1) as [plan origins]. cbn [fst snd] in *. inv_ok. subst rebuilt.
    rename select (finish_assembler _ _ _ _ = _) into Hfin. apply finish_assembler_Ok in Hfin.
    exists plan. eexists. split_and!; [|done|done|done]. constructor; cbn; try done.
    + intros i Hi Hk. rewrite Hb, (inv_bindings _ _ _ _ Hloop) by done. by rewrite decide_True by done.
    + exists extra. by rewrite Ho, (inv_origins _ _ _ _ Hloop).
    + by exists lb.
  - intros i v st st' Hv Hi He. rewrite Nat.add_1_r. by eapply (emit_position_inv facts identity).
  - destruct Hf as [Hok Hid Hit Hb]. constructor; cbn [emitted boundaries fst snd]; try done.
    intros i Hi Hk. rewrite Hb. rewrite decide_False by lia. apply lookup_replicate. split; [done|].
    rewrite Hs. by apply rank_strict.
Qed.
