(* ===== verification/MarkerRenaming.v ===== *)
(** * Arms are blind to the positions markers name

    A straight-line arm of the interpreter does the same to a stack whose
    [catch] markers and [finally] return addresses name other positions. *)

From S2P Require Import Prelude RuntimePrelude Opcode Codec VerifierModel JsStrings Values CompilerString AbstractValues AbstractValueFacts OperandStack TransferFacts OptimizerSound.
From stdpp Require Import list.
Import StoredValue(StoredValue) OperandStackEntry(OperandStackEntry) InstalledConstant(InstalledConstant).
Local Open Scope Z_scope.

(** ** Renaming markers *)

Section renaming.
Context (g : OperandStackEntry → OperandStackEntry).
Context (Hg : ∀ e, if Frame.is_control_marker e then Frame.is_control_marker (g e) = true else g e = e).
Local Notation js v := (OperandStackEntry.JavaScript v).

Implicit Types (s : operands) (e : OperandStackEntry).

Lemma rename_inert (l : operands) : Frame.inert l → g <$> l = l.
Proof.
  induction 1 as [|e l He _ IH]; [done|]. cbn. rewrite IH. f_equal. specialize (Hg e). by rewrite He in Hg.
Qed.

Lemma rename_js v : g (js v) = js v.
Proof. exact (Hg (js v)). Qed.

Lemma pop_snoc s v : OperandStack.pop (s ++ [js v]) = Ok (s, v).
Proof. by apply pop_Ok. Qed.

Lemma peek_snoc s v : OperandStack.peek (s ++ [js v]) = Ok v.
Proof. apply peek_Ok. by exists s. Qed.

Lemma drop_snoc s e : OperandStack.drop_stack_entry (s ++ [e]) = Ok s.
Proof. apply drop_entry_Ok. by exists e. Qed.

Lemma rename_vec_pop s : vec_pop (g <$> s) = (λ p : operands * OperandStackEntry, (g <$> p.1, g p.2)) <$> vec_pop s.
Proof.
  destruct s as [|e s _] using rev_ind; [done|]. rewrite fmap_app. cbn. by rewrite !vec_pop_snoc.
Qed.

(** Runs the interpreter's pops on an explicit stack. *)
Ltac run_pops :=
  inv_pops; rewrite ?fmap_app; cbn; rewrite ?rename_js;
  repeat (progress (rewrite ?pop_snoc, ?peek_snoc, ?drop_snoc, ?vec_pop_snoc); cbn);
  unfold OperandStack.push; rewrite ?fmap_app; cbn; rewrite ?rename_js; done.

(** A test that no marker passes is blind to the renaming. *)
Lemma rename_test (f : OperandStackEntry → bool) e :
  (∀ e, Frame.is_control_marker e = true → f e = false) → f (g e) = f e.
Proof.
  intros Hf. specialize (Hg e). destruct (Frame.is_control_marker e) eqn:He; [|by rewrite Hg].
  by rewrite !Hf.
Qed.

Definition is_reference (e : OperandStackEntry) : bool :=
  match e with OperandStackEntry.CapturedReference _ _ | OperandStackEntry.RealmGlobalReference _ _ => true | _ => false end.
Definition is_anchor (e : OperandStackEntry) : bool :=
  match e with OperandStackEntry.CapturedReferenceAnchor => true | _ => false end.
Definition is_javascript (e : OperandStackEntry) : bool :=
  match e with OperandStackEntry.JavaScript _ => true | _ => false end.

Lemma retained_reference_tests s : OperandStack.holds_retained_reference s =
  match checked_sub_len s 3 with
  | Some base =>
      match drop base s with [x; y; z] => is_reference x && is_anchor y && is_javascript z | _ => false end
  | None => false
  end.
Proof.
  unfold OperandStack.holds_retained_reference. destruct (checked_sub_len s 3) as [base|]; [|done].
  destruct (drop base s) as [|x [|y [|z [|w l]]]]; try done;
    destruct x; try done; destruct y; try done; by destruct z.
Qed.

Lemma retained_reference_renamed s :
  OperandStack.holds_retained_reference (g <$> s) = OperandStack.holds_retained_reference s.
Proof.
  rewrite !retained_reference_tests. unfold checked_sub_len. rewrite length_fmap.
  case_match; [|done]. case_match; simplify_eq. rewrite <- fmap_drop.
  destruct (drop _ s) as [|x [|y [|z [|w l]]]]; cbn; try done.
  by rewrite !rename_test by (by intros []).
Qed.

Lemma dup1_renamed s s' : OperandStack.execute_permutation FinalOpcode.Dup1 s = Ok s' →
  OperandStack.execute_permutation FinalOpcode.Dup1 (g <$> s) = Ok (g <$> s').
Proof.
  cbn. intros Hs. inv_pops. rewrite fmap_app. cbn. rewrite rename_js, pop_snoc. cbn.
  rename select (checked_sub_len _ _ = _) into Hc. rename select (OperandStack.stack_value_at _ _ = _) into Hv.
  unfold checked_sub_len in *. rewrite length_fmap. case_match; [|done]. injection Hc as <-. cbn.
  unfold OperandStack.stack_value_at in *. inv_ok. rewrite list_lookup_fmap.
  match goal with H : _ !! _ = Some ?e |- _ => rewrite H; destruct e end; simplify_eq/=.
  rewrite rename_js. cbn. unfold OperandStack.push. rewrite !fmap_app. cbn. by rewrite !rename_js.
Qed.

Lemma insert3_renamed s s' : OperandStack.execute_insert3 s = Ok s' →
  OperandStack.execute_insert3 (g <$> s) = Ok (g <$> s').
Proof.
  unfold OperandStack.execute_insert3. rewrite retained_reference_renamed.
  destruct (OperandStack.holds_retained_reference s); intros Hs; run_pops.
Qed.

Lemma permutation_renamed opcode s s' : OperandStack.execute_permutation opcode s = Ok s' →
  OperandStack.execute_permutation opcode (g <$> s) = Ok (g <$> s').
Proof.
  intros Hs. destruct opcode; try discriminate Hs; try (by apply dup1_renamed); try (by apply insert3_renamed);
    cbn in Hs |- *; run_pops.
Qed.

Lemma predicate_renamed is_html_dda opcode s s' : OperandStack.execute_predicate is_html_dda opcode s = Ok s' →
  OperandStack.execute_predicate is_html_dda opcode (g <$> s) = Ok (g <$> s').
Proof.
  intros Hs. destruct opcode; try discriminate Hs; cbn in Hs |- *; run_pops.
Qed.

Lemma push_renamed atoms opcode ops allocation s s' pool pool' :
  OperandStack.execute_push atoms opcode ops allocation s pool = Ok (s', pool') →
  OperandStack.execute_push atoms opcode ops allocation (g <$> s) pool = Ok (g <$> s', pool').
Proof.
  intros Hs. destruct opcode; try discriminate Hs; cbn in Hs |- *; try (destruct ops; try discriminate Hs; cbn in Hs |- *);
    inv_ok; repeat match goal with H : ?x = _ |- context [?x] => rewrite H; cbn end;
    try (match goal with p : StoredValue * list InstalledConstant |- _ => destruct p end; inv_ok);
    simplify_eq; unfold OperandStack.push; rewrite fmap_app; cbn; by rewrite rename_js.
Qed.

Lemma straight_line_renamed is_html_dda atoms opcode ops allocation s s' pool pool' :
  OperandStack.execute_straight_line is_html_dda atoms opcode ops allocation s pool = Ok (s', pool') →
  OperandStack.execute_straight_line is_html_dda atoms opcode ops allocation (g <$> s) pool = Ok (g <$> s', pool').
Proof.
  unfold OperandStack.execute_straight_line. destruct (OperandStack.arm_of opcode) as [[]|]; [| | |done].
  - apply push_renamed.
  - intros E. inv_ok. simplify_eq. by erewrite permutation_renamed.
  - intros E. inv_ok. simplify_eq. by erewrite predicate_renamed.
Qed.
End renaming.
