(* ===== verification/OptimizerSimulation.v ===== *)
(** * The optimized code simulates the original

    One step of a frame over the verified control flow against the steps of
    its mirror over the re-verified optimized one: the plan position of an
    original instruction, the successors the verifier finds there, the blocks
    of executable positions, and a lemma per kind of step. *)

From S2P Require Import Prelude RuntimePrelude Opcode Codec Function VerifierModel VerifierPredecode VerifierStatic VerifierStack Verifier Assembler AssemblerFacts AssemblerFinish JsStrings Arena Values CompilerString AbstractValues AbstractValueFacts OperandStack TransferFacts Optimizer OptimizerRewrite PropagationFacts OptimizerSound MarkerRenaming RetentionFacts EmissionFacts.
From stdpp Require Import list relations.
Import StoredValue(StoredValue) OperandStackEntry(OperandStackEntry) InstalledConstant(InstalledConstant).
Local Open Scope Z_scope.

(** ** Successors by position *)

Section positions.
Import CodecFacts StreamFacts TargetFacts StaticFacts.
Context (limits : VerificationLimits) (gen : bool) (bc : list Z) (domains : FunctionIndexDomains)
  (c : VerifiedControlFlow).
Context (Hbc : byte_list bc) (Hok : PipelineFacts.pipeline_ok limits gen bc domains c).
Let ds := decoded <$> instructions c.

Lemma starts_next p v j : instructions c !! p = Some v → starts_at ds j (next_pc (decoded v)) → j = Z.of_nat (S p).
Proof.
  intros Hv (Hj & d & Hd & Hp).
  assert (ds !! p = Some (decoded v)) as Hdv by (unfold ds; by rewrite list_lookup_fmap, Hv).
  pose proof (decodes_to_next _ Hbc _ _ _ _ (PipelineFacts.pipeline_stream _ _ _ _ _ Hok) Hdv) as Hn.
  fold ds in Hn. destruct (ds !! S p) as [d'|] eqn:Hd'.
  - assert (Z.to_nat j = S p); [|lia].
    eapply (decodes_to_position_inj _ Hbc); [apply Hok|exact Hd|exact Hd'|]. congruence.
  - apply list_elem_of_lookup_2 in Hd.
    destruct (decodes_to_decoded _ Hbc _ _ _ (PipelineFacts.pipeline_stream _ _ _ _ _ Hok) Hd) as (_ & ? & ?). lia.
Qed.

Lemma starts_target p v t tp dt : instructions c !! p = Some v → ds !! tp = Some dt →
  label_target (decoded v) = Some (pc dt) → (∃ q, label_target (decoded v) = Some q ∧ starts_at ds t q) →
  t = Z.of_nat tp.
Proof.
  intros Hv Hdt Hl (q & Hq & Ht & d & Hd & Hp). assert (Z.to_nat t = tp); [|lia].
  eapply (decodes_to_position_inj _ Hbc); [apply Hok|exact Hd|exact Hdt|]. congruence.
Qed.

(** The successors of an instruction, from its shape and its label. *)
Definition successors_exact (p : nat) (v : VerifiedInstruction) : Prop :=
  let lands t := ∀ tp dt, ds !! tp = Some dt → label_target (decoded v) = Some (pc dt) → t = Z.of_nat tp in
  match shape_of (decoded v) with
  | Some SuccessorShape.Fallthrough => successors v = VerifiedSuccessors.Fallthrough (Z.of_nat (S p))
  | Some SuccessorShape.Branch => ∃ t, successors v = VerifiedSuccessors.Branch t (Z.of_nat (S p)) ∧ lands t
  | Some SuccessorShape.Jump => ∃ t, successors v = VerifiedSuccessors.Jump t ∧ lands t
  | Some SuccessorShape.Terminate => successors v = VerifiedSuccessors.Terminate
  | None => False
  end.

Lemma verified_successors p v : instructions c !! p = Some v → successors_exact p v.
Proof.
  intros Hv. destruct (Forall_lookup_1 _ _ _ _ (PipelineFacts.pipeline_static _ _ _ _ _ Hok) Hv) as [Hs _].
  unfold successors_ok in Hs. unfold successors_exact.
  destruct (successors v) as [j|t n|t|]; destruct_and?;
    match goal with H : shape_of _ = _ |- _ => rewrite H end.
  - f_equal. by eapply starts_next.
  - exists t. split; [f_equal; by eapply starts_next|]. intros tp dt Hdt Hl. by eapply starts_target.
  - exists t. split; [done|]. intros tp dt Hdt Hl. by eapply starts_target.
  - done.
Qed.
End positions.

(** ** The emitted plan, position by position *)

Section plan.
Import ThreadFacts.
Context (plan : BytecodeAssembler).

(** Plan positions a chain of [goto] items leads to. *)
Definition goto_position (p q : nat) : Prop :=
  ∃ l, items plan !! p = Some (AssemblyItem.Branch BranchKind.Goto l) ∧ target_position plan l = Ok q.
Definition leads : nat → nat → Prop := rtc goto_position.

Lemma label_goto_target_Some l z : label_goto_target plan l = Some z →
  ∃ p, label_bindings plan !! l = Some (Some p) ∧ items plan !! p = Some (AssemblyItem.Branch BranchKind.Goto z).
Proof.
  unfold label_goto_target. intros (p & Hp & (item & Hi & Hz)%bind_Some)%bind_Some.
  destruct (label_bindings plan !! l) as [o|] eqn:El; [|done]. simpl in Hp. subst. exists p.
  split; [done|]. by destruct item as [|[]|]; simplify_eq.
Qed.

Lemma chain_leads n n' : goto_chain plan n n' → ∀ p p', label_bindings plan !! n = Some (Some p) →
  label_bindings plan !! n' = Some (Some p') → leads p p'.
Proof.
  induction 1 as [n|n m n' (z & Hz & ->) Hc IH]; intros p p' Hp Hp'; [simplify_eq; apply rtc_refl|].
  apply label_goto_target_Some in Hz as (q & Hq & Hi). simplify_eq.
  assert (∃ r, label_bindings plan !! Z.to_nat z = Some (Some r)) as [r Hr].
  { inversion Hc as [|? ? ? (z' & Hz' & _)]; subst; [by exists p'|].
    apply label_goto_target_Some in Hz' as (r & Hr & _). by exists r. }
  eapply rtc_l; [|by eapply IH]. exists z. split; [done|]. unfold target_position. by rewrite Hr.
Qed.
End plan.

Lemma concat_take_prefix {A} (l : list (list A)) i j : (i ≤ j)%nat → concat (take i l) `prefix_of` concat (take j l).
Proof.
  intros Hij. exists (concat (drop i (take j l))). rewrite <- concat_app.
  f_equal. replace (take i l) with (take i (take j l)) by (by rewrite take_take, Nat.min_l).
  by rewrite take_drop.
Qed.

Lemma block_items facts vs rebuilt plan i v k item : emitted_plan facts vs rebuilt plan →
  vs !! i = Some v → block_of facts i v !! k = Some item →
  items plan !! (position_of facts vs i + k)%nat = Some item.
Proof.
  intros Hplan Hv Hk. destruct (plan_items _ _ _ _ Hplan) as [tail Ht].
  assert (items_before facts vs (S i) `prefix_of` items plan) as [rest ->].
  { rewrite Ht. apply prefix_app_r, concat_take_prefix. by apply lookup_lt_Some in Hv. }
  rewrite (items_before_S facts vs i v Hv). unfold position_of.
  apply lookup_app_l_Some. rewrite lookup_app_r by lia. by rewrite Nat.add_comm, Nat.add_sub.
Qed.

#[local] Instance BranchKind_eq_dec : EqDecision BranchKind.
Proof. solve_decision. Defined.

(** ** The simulation *)

(** Markers of the original at the new positions. *)
Definition renumber (position : Z → Z) (entry : OperandStackEntry) : OperandStackEntry :=
  match entry with
  | OperandStackEntry.Catch handler => OperandStackEntry.Catch (position handler)
  | OperandStackEntry.FinallyReturn continuation => OperandStackEntry.FinallyReturn (position continuation)
  | _ => entry
  end.

(** A numbering of positions, on indices. *)
Definition on_indices (position : nat → nat) (index : Z) : Z := Z.of_nat (position (Z.to_nat index)).

Lemma renumber_markers position e :
  if Frame.is_control_marker e then Frame.is_control_marker (renumber position e) = true else renumber position e = e.
Proof. by destruct e. Qed.

(** Execution without the entry check of the interpreter. *)
Inductive moves (is_html_dda : StoredValue → bool) (atoms : list Repr) (c : VerifiedControlFlow) :
    Frame.Frame → Frame.Frame → Prop :=
| moves_executes f f' v :
    VerifiedControlFlowQueries.instruction c (Frame.instruction_index f) = Some v →
    Frame.executes is_html_dda atoms v (Frame.stack f) (Frame.pool f) f' → moves is_html_dda atoms c f f'.

(** The frame of the optimized code: the same operands, at the new position or
    past the [goto]s there. *)
Record mirrors (position : nat → nat) (plan : BytecodeAssembler) (f f' : Frame.Frame) : Prop := {
  mirrors_index : ∃ p, Frame.instruction_index f' = Z.of_nat p ∧
    leads plan (position (Z.to_nat (Frame.instruction_index f))) p;
  mirrors_stack : Frame.stack f' = renumber (on_indices position) <$> Frame.stack f;
  mirrors_pool : Frame.pool f' = Frame.pool f }.

Lemma with_opcode_facts o : is_with_branch o = true →
  OpcodeSemantics.successor_shape (opcode_semantics o) = Some SuccessorShape.Branch ∧
  OpcodeMetadata.operand_format (FinalOpcode.metadata o) = OperandFormat.AtomLabelU8 ∧
  symbolic_branch_kind o = None ∧ is_truthiness_branch o = false ∧ OperandStack.arm_of o = None.
Proof. by destruct o. Qed.

Section simulation.
Import ThreadFacts ReadyFacts FinishFacts StaticFacts TargetFacts Frame.
Context `{Allocator} (is_html_dda : StoredValue → bool) (installed_atoms : list Repr).
Context (limits : VerificationLimits) (gen : bool) (bc : list Z) (domains : FunctionIndexDomains)
  (c : VerifiedControlFlow) (Hbc : byte_list bc) (Hok : PipelineFacts.pipeline_ok limits gen bc domains c).
Context (inputs : ConstantInputs) (es : list entry_stack) (facts : ControlFlowFacts).
Context (Hatoms : atoms_ok inputs installed_atoms) (Hfix : fixed_point c inputs es)
  (Hfacts : ∀ i v, instructions c !! i = Some v →
     ControlFlowFacts.branch_outcome facts i = (entry_of es i ≫= constant_branch_outcome (opcode_at v)) ∧
     (is_Some (entry_of es i) → ControlFlowFacts.is_retained facts i = true)).
Context (rebuilt : RebuiltInstructions) (plan : BytecodeAssembler) (out : AssembledBytecode)
  (Hplan : emitted_plan facts (instructions c) rebuilt plan) (Hfin : finish plan = Ok out).
Context (limits' : VerificationLimits) (gen' : bool) (domains' : FunctionIndexDomains) (c' : VerifiedControlFlow)
  (Hok' : PipelineFacts.pipeline_ok limits' gen' (assembled_bytecode out) domains' c').
Local Notation vs := (instructions c).
Local Notation position := (position_of facts vs).
Local Notation executes := (Frame.executes is_html_dda installed_atoms).
Local Notation described := (described is_html_dda c inputs es).
Let ds' := decoded <$> instructions c'.

Lemma plan_ready : ready plan.
Proof.
  unfold finish in Hfin. inv_ok. eapply validate_ready; [by eapply plan_ok|done].
Qed.

Lemma plan_realized : byte_list (assembled_bytecode out) ∧ Forall2 (realizes plan ds') (items plan) ds'.
Proof.
  destruct (finish_realizes plan out (plan_ok _ _ _ _ Hplan) Hfin) as (Hb & _ & ds & Hds & _ & Hr).
  split; [done|]. unfold ds'. by rewrite (StreamFacts.decodes_to_functional _ _ _ _ (PipelineFacts.pipeline_stream _ _ _ _ _ Hok') Hds).
Qed.

(** An item of the plan is an instruction of the optimized control flow. *)
Lemma item_realized p item : items plan !! p = Some item →
  ∃ v', instructions c' !! p = Some v' ∧ realizes plan ds' item (decoded v') ∧ successors_exact c' p v'.
Proof.
  intros Hi. destruct plan_realized as [Hb Hr]. destruct (Forall2_lookup_l _ _ _ _ _ Hr Hi) as (d & Hd & Hre).
  unfold ds' in Hd. rewrite list_lookup_fmap in Hd. destruct (instructions c' !! p) as [v'|] eqn:Hv; [|done].
  injection Hd as <-. exists v'. split_and!; [done|done|by eapply verified_successors].
Qed.

(** What has an entry stack is retained. *)
Lemma executable_kept i : is_Some (entry_of es i) →
  ControlFlowFacts.is_retained facts i = true ∧ ∃ v, vs !! i = Some v.
Proof.
  intros [a Ha]. destruct (fixed_stable _ _ _ Hfix i a Ha) as (v & _ & Hv & _).
  split; [|by exists v]. eapply Hfacts; [done|by exists a].
Qed.

(** A bound label of an executable position is bound at its block. *)
Lemma label_lands t tp : is_Some (entry_of es (Z.to_nat t)) → target_position plan (label_of facts t) = Ok tp →
  tp = position (Z.to_nat t).
Proof.
  intros He Ht. destruct (executable_kept _ He) as (Hk & v & Hv%lookup_lt_Some).
  unfold target_position, label_of in Ht. rewrite Nat2Z.id, (plan_bindings _ _ _ _ Hplan) in Ht by done.
  by inv_ok; simplify_eq/=.
Qed.

Lemma label_bound t : is_Some (entry_of es (Z.to_nat t)) →
  label_bindings plan !! Z.to_nat (label_of facts t) = Some (Some (position (Z.to_nat t))).
Proof.
  intros He. destruct (executable_kept _ He) as (Hk & v & Hv%lookup_lt_Some).
  unfold label_of. by rewrite Nat2Z.id, (plan_bindings _ _ _ _ Hplan).
Qed.

Lemma query_at p v' : instructions c' !! p = Some v' →
  VerifiedControlFlowQueries.instruction c' (Z.of_nat p) = Some v'.
Proof.
  intros Hv. unfold VerifiedControlFlowQueries.instruction. destruct plan_realized as [Hb _].
  assert (ds' !! p = Some (decoded v')) as Hd by (unfold ds'; by rewrite list_lookup_fmap, Hv).
  pose proof (PipelineFacts.pipeline_stream _ _ _ _ _ Hok') as Hs. fold ds' in Hs.
  assert (ds' ≠ []) as Hne by (intros E; rewrite E in Hd; done).
  pose proof (StreamFacts.decodes_to_u32 _ Hb _ _ Hs Hne). apply lookup_lt_Some in Hd.
  destruct (StreamFacts.decodes_to_length _ Hb _ _ Hs) as [Hl|]; [|done].
  unfold try_usize. rewrite (proj2 (Z.leb_le _ _)), (proj2 (Z.leb_le _ _)) by (unfold_ints; lia).
  cbn. by rewrite Nat2Z.id.
Qed.

(** A branch item of the plan, in the optimized control flow. *)
Lemma branch_realized p k t : items plan !! p = Some (AssemblyItem.Branch k (label_of facts t)) →
  is_Some (entry_of es (Z.to_nat t)) →
  ∃ v' q, instructions c' !! p = Some v' ∧ opcode_at v' ∈ EmitFacts.branch_opcodes k ∧
    leads plan (position (Z.to_nat t)) q ∧
    (k = BranchKind.Catch ∨ k = BranchKind.Gosub → q = position (Z.to_nat t)) ∧
    successors v' = if decide (k = BranchKind.Goto) then VerifiedSuccessors.Jump (Z.of_nat q)
                    else VerifiedSuccessors.Branch (Z.of_nat q) (Z.of_nat (S p)).
Proof.
  intros Hi He. destruct (item_realized p _ Hi) as (v' & Hv & [Hop Hl] & Hs).
  assert (∃ l' q dt, lands plan ds' l' (decoded v') ∧ target_position plan l' = Ok q ∧ ds' !! q = Some dt ∧
    label_target (decoded v') = Some (pc dt) ∧ leads plan (position (Z.to_nat t)) q ∧
    (k = BranchKind.Catch ∨ k = BranchKind.Gosub → q = position (Z.to_nat t))) as (l' & q & dt & _ & Hq & Hdt & Hlab & Hle & Hex).
  { destruct (decide (k = BranchKind.Catch ∨ k = BranchKind.Gosub)) as [Hk|Hk].
    - assert (lands plan ds' (label_of facts t) (decoded v')) as Hl' by (by destruct Hk; subst k).
      destruct Hl' as (tp & dt & Htp & Hdt & Hlab). pose proof (label_lands t tp He Htp) as ->.
      exists (label_of facts t), (position (Z.to_nat t)), dt. split_and!; try done. by eexists _, _.
    - assert (∃ l', goto_chain plan (Z.to_nat (label_of facts t)) (Z.to_nat l') ∧ lands plan ds' l' (decoded v')) as (l' & Hc & Hl')
        by (destruct k; try (exfalso; by auto); destruct Hl as (l' & ? & _ & ?); by exists l').
      pose proof Hl' as (tp & dt & Htp & Hdt & Hlab). exists l', tp, dt. split_and!; try done.
      eapply chain_leads; [exact Hc|by apply label_bound|]. unfold target_position in Htp. inv_ok.
      by destruct (label_bindings plan !! Z.to_nat l') as [o|]; simplify_eq/=. }
  exists v', q. split_and!; try done. unfold successors_exact, shape_of in Hs. unfold opcode_at in Hop.
  assert (Hlands : ∀ t', (∀ tp dt, ds' !! tp = Some dt → label_target (decoded v') = Some (pc dt) → t' = Z.of_nat tp) →
    t' = Z.of_nat q) by (intros t' Ht'; by eapply Ht').
  destruct k; cbn in Hop; repeat (apply elem_of_cons in Hop as [Hop|Hop]); try (by apply not_elem_of_nil in Hop);
    rewrite Hop in Hs; cbn in Hs; destruct Hs as (t' & -> & Ht'%Hlands); by subst.
Qed.

(** *** Blocks of executable positions *)

Lemma executable_block i v a : vs !! i = Some v → entry_of es i = Some a →
  block_of facts i v = match constant_branch_outcome (opcode_at v) a with
                       | Some taken => folded_block facts taken (successors v)
                       | None => plain_block facts v
                       end.
Proof.
  intros Hv Ha. destruct (Hfacts i v Hv) as [Ho Hk]. unfold block_of. rewrite Hk, Ho, Ha by (by exists a). done.
Qed.

Lemma outcome_truthiness o a taken : constant_branch_outcome o a = Some taken → is_truthiness_branch o = true.
Proof.
  unfold constant_branch_outcome. intros (x & _ & (y & _ & Hz)%bind_Some)%bind_Some. by destruct o.
Qed.

Lemma no_outcome o a : is_truthiness_branch o = false → constant_branch_outcome o a = None.
Proof.
  intros Ho. destruct (constant_branch_outcome o a) eqn:E; [|done]. apply outcome_truthiness in E. congruence.
Qed.

Lemma original_successors i v : vs !! i = Some v → successors_exact c i v.
Proof. by apply (verified_successors limits gen bc domains). Qed.

(** An uninterpreted instruction is emitted as it is. *)
Lemma plain_moves i v a : vs !! i = Some v → entry_of es i = Some a →
  symbolic_branch_kind (opcode_at v) = None → is_with_branch (opcode_at v) = false →
  ∃ v', instructions c' !! position i = Some v' ∧ instruction (decoded v') = instruction (decoded v) ∧
    successors_exact c' (position i) v' ∧ position (S i) = S (position i).
Proof.
  intros Hv Ha Hk Hw. pose proof (executable_block i v a Hv Ha) as Hb.
  destruct (constant_branch_outcome (opcode_at v) a) as [taken|] eqn:Eo.
  { apply outcome_truthiness in Eo. by destruct (opcode_at v). }
  unfold plain_block in Hb. rewrite Hk, Hw in Hb.
  destruct (item_realized (position i + 0) (AssemblyItem.Instruction (instruction (decoded v)))) as (v' & Hv' & Hr & Hs).
  { eapply block_items; [done|done|]. by rewrite Hb. }
  rewrite Nat.add_0_r in *. exists v'. split_and!; [done|done|done|].
  rewrite (position_S facts vs i v Hv), Hb. simpl. lia.
Qed.

(** A symbolic branch with an unknown outcome. *)
Lemma branch_block i v a k : vs !! i = Some v → entry_of es i = Some a →
  symbolic_branch_kind (opcode_at v) = Some k → constant_branch_outcome (opcode_at v) a = None →
  ∃ t, successors v = (if decide (k = BranchKind.Goto) then VerifiedSuccessors.Jump t
                       else VerifiedSuccessors.Branch t (Z.of_nat (S i))) ∧
    items plan !! position i = Some (AssemblyItem.Branch k (label_of facts t)) ∧
    position (S i) = S (position i).
Proof.
  intros Hv Ha Hk Ho. pose proof (executable_block i v a Hv Ha) as Hb. rewrite Ho in Hb.
  pose proof (original_successors i v Hv) as Hs. unfold successors_exact, shape_of in Hs.
  unfold plain_block in Hb. rewrite Hk in Hb. unfold opcode_at in Hk.
  assert (∃ t, successors v = (if decide (k = BranchKind.Goto) then VerifiedSuccessors.Jump t
                       else VerifiedSuccessors.Branch t (Z.of_nat (S i)))) as (t & Ht).
  { destruct (Instruction.opcode (instruction (decoded v))); try discriminate Hk; injection Hk as <-; cbn in Hs;
      destruct Hs as (t & -> & _); by exists t. }
  exists t. split; [done|]. assert (block_target (successors v) = Some t) as Htt by (rewrite Ht; by case_decide).
  rewrite Htt in Hb. split.
  - rewrite <- (Nat.add_0_r (position i)). eapply block_items; [done|done|]. by rewrite Hb.
  - rewrite (position_S facts vs i v Hv), Hb. simpl. lia.
Qed.

Lemma with_block i v a : vs !! i = Some v → entry_of es i = Some a → is_with_branch (opcode_at v) = true →
  ∃ t, successors v = VerifiedSuccessors.Branch t (Z.of_nat (S i)) ∧ position (S i) = S (position i) ∧
    (is_Some (entry_of es (Z.to_nat t)) → ∃ v', instructions c' !! position i = Some v' ∧ opcode_at v' = opcode_at v ∧
       Instruction.stack_effect (instruction (decoded v')) = Instruction.stack_effect (instruction (decoded v)) ∧
       successors v' = VerifiedSuccessors.Branch (Z.of_nat (position (Z.to_nat t))) (Z.of_nat (S (position i)))).
Proof.
  intros Hv Ha Hw. pose proof (executable_block i v a Hv Ha) as Hb.
  destruct (with_opcode_facts _ Hw) as (Hsh & Hf & Hk & Hnt & _).
  destruct (constant_branch_outcome (opcode_at v) a) as [taken|] eqn:Eo.
  { apply outcome_truthiness in Eo. congruence. }
  pose proof (original_successors i v Hv) as Hs. unfold successors_exact, shape_of in Hs.
  pose proof (Forall_lookup_1 _ _ _ _ (verified_valid _ _ _ _ _ Hbc Hok) Hv) as (_ & Hfmt & _).
  unfold plain_block in Hb. rewrite Hk, Hw in Hb. unfold opcode_at in *. rewrite Hsh in Hs. rewrite Hf in Hfmt.
  destruct Hs as (t & Ht & _). rewrite Ht in Hb. cbn in Hb.
  destruct (instruction (decoded v)) as [o ops] eqn:Hins0. cbn [Instruction.opcode Instruction.operands] in *.
  destruct ops; try discriminate Hfmt.
  exists t. split; [done|]. split; [rewrite (position_S facts vs i v Hv), Hb; simpl; lia|]. intros He.
  destruct (item_realized (position i + 0) (AssemblyItem.WithBranch o atom value (label_of facts t)))
    as (v' & Hv' & ((tp & dt & Htp & Hdt & Hlab) & d' & Hins) & Hs').
  { eapply block_items; [done|done|]. by rewrite Hb. }
  rewrite Nat.add_0_r in *. pose proof (label_lands t tp He Htp) as ->. exists v'. rewrite Hins. split_and!; [done|done|done|].
  unfold successors_exact, shape_of in Hs'. rewrite Hins in Hs'. cbn in Hs'. rewrite Hsh in Hs'.
  destruct Hs' as (t' & -> & Hl). by rewrite (Hl _ _ Hdt Hlab).
Qed.

(** *** One step *)

Local Notation rename s := (renumber (on_indices position) <$> s).
Local Notation mirrors := (mirrors position plan).
Local Notation moves_to := (rtc (moves is_html_dda installed_atoms c')).

(** The mirror of a frame at position [i], before any [goto] is skipped. *)
Definition mirror (f : Frame) : Frame :=
  mkFrame (Z.of_nat (position (Z.to_nat (instruction_index f)))) (rename (stack f)) (pool f).

Definition follows (f2 : Frame) (q : nat) : Prop :=
  leads plan (position (Z.to_nat (instruction_index f2))) q.

Lemma one_move i v' s p f2 q : instructions c' !! position i = Some v' →
  executes v' (rename s) p (mkFrame (Z.of_nat q) (rename (stack f2)) (pool f2)) → follows f2 q →
  ∃ f2', moves_to (mkFrame (Z.of_nat (position i)) (rename s) p) f2' ∧ mirrors f2 f2'.
Proof.
  intros Hv' Hx Hq. eexists. split; [apply rtc_once; econstructor; [by apply query_at|exact Hx]|].
  constructor; cbn; [by exists q|done|done].
Qed.

Lemma next_follows f2 i : instruction_index f2 = Z.of_nat (S i) → position (S i) = S (position i) →
  follows f2 (S (position i)).
Proof. intros Hi Hp. unfold follows. rewrite Hi, Nat2Z.id, Hp. apply rtc_refl. Qed.

(** The exits of the enclosing handlers, from any position. *)
Lemma sim_throw q v' s p m caught s' p' next f2 : instructions c' !! q = Some v' →
  OperandStack.enter_handler s m caught = Ok (s', next) → pool_advances is_html_dda p p' →
  f2 = mkFrame next s' p' →
  ∃ f2', moves_to (mkFrame (Z.of_nat q) (rename s) p) f2' ∧ mirrors f2 f2'.
Proof.
  intros Hv' Hh Hp ->. unfold OperandStack.enter_handler in Hh.
  destruct (s !! m) as [[]|] eqn:Em; try discriminate Hh. injection Hh as <- <-.
  eexists. split; [apply rtc_once; econstructor; [by apply query_at|]|].
  - eapply (executes_throw _ _ _ _ _ m caught); [|done]. cbn. unfold OperandStack.enter_handler.
    by rewrite list_lookup_fmap, Em.
  - constructor; cbn; [eexists; split; [done|apply rtc_refl]| |done].
    unfold OperandStack.push. by rewrite fmap_app, <- fmap_take.
Qed.

Lemma shape_same v v' : instruction (decoded v') = instruction (decoded v) → shape_of (decoded v') = shape_of (decoded v).
Proof. unfold shape_of. by intros ->. Qed.

(** Straight-line arms and uninterpreted instructions. *)
Lemma sim_straight_line i v a s p allocation s' p' next : vs !! i = Some v → entry_of es i = Some a →
  (OperandStack.arm_of (opcode_at v) = Some OperandStack.PushArm → allocation_ok is_html_dda allocation) →
  OperandStack.execute_straight_line is_html_dda installed_atoms (opcode_at v)
    (Instruction.operands (instruction (decoded v))) allocation s p = Ok (s', p') →
  VerifiedSuccessors.fallthrough (successors v) = Some next →
  ∃ f2', moves_to (mkFrame (Z.of_nat (position i)) (rename s) p) f2' ∧ mirrors (mkFrame next s' p') f2'.
Proof.
  intros Hv Ha Hal Hs Hn.
  assert (symbolic_branch_kind (opcode_at v) = None ∧ is_with_branch (opcode_at v) = false ∧
    OpcodeSemantics.successor_shape (opcode_semantics (opcode_at v)) = Some SuccessorShape.Fallthrough) as (Hk & Hw & Hsh).
  { unfold OperandStack.execute_straight_line in Hs. clear -Hs. by destruct (opcode_at v). }
  destruct (plain_moves i v a Hv Ha Hk Hw) as (v' & Hv' & Hins & Hs' & Hpos).
  pose proof (original_successors i v Hv) as Ho. unfold successors_exact in *. rewrite (shape_same v v' Hins) in Hs'.
  unfold shape_of, opcode_at in *. rewrite Hsh in Ho, Hs'. rewrite Ho in Hn. injection Hn as <-.
  eapply one_move; [done| |by apply next_follows]. unfold opcode_at in Hal.
  eapply (executes_straight_line _ _ _ _ _ allocation); [unfold opcode_at; by rewrite Hins| |by rewrite Hs'].
  unfold opcode_at. rewrite Hins. eapply straight_line_renamed; [apply renumber_markers|done].
Qed.

Lemma sim_other i v a s p s' p' next : vs !! i = Some v → entry_of es i = Some a →
  OperandStack.arm_of (opcode_at v) = None → exchanges (instruction (decoded v)) s s' →
  pool_advances is_html_dda p p' → successors v = VerifiedSuccessors.Fallthrough next →
  ∃ f2', moves_to (mkFrame (Z.of_nat (position i)) (rename s) p) f2' ∧ mirrors (mkFrame next s' p') f2'.
Proof.
  intros Hv Ha Harm (e & r & popped & pushed & He & -> & Hpop & -> & Hpush & Hin) Hp Hn.
  pose proof (original_successors i v Hv) as Ho. unfold successors_exact in Ho.
  assert (shape_of (decoded v) = Some SuccessorShape.Fallthrough) as Hsh.
  { destruct (shape_of (decoded v)) as [[]|]; try done; try (destruct Ho as (? & ? & _)); congruence. }
  assert (symbolic_branch_kind (opcode_at v) = None ∧ is_with_branch (opcode_at v) = false) as [Hk Hw].
  { unfold shape_of in Hsh. change (Instruction.opcode (instruction (decoded v))) with (opcode_at v) in Hsh.
    clear -Hsh. by destruct (opcode_at v). }
  destruct (plain_moves i v a Hv Ha Hk Hw) as (v' & Hv' & Hins & Hs' & Hpos).
  unfold successors_exact in Hs'. rewrite (shape_same v v' Hins), Hsh in Hs'. rewrite Hsh, Hn in Ho. injection Ho as ->.
  eapply one_move; [done| |by apply next_follows]. cbn [stack pool]. eapply executes_other; [|..|done|exact Hs'].
  - unfold opcode_at in *. by rewrite Hins.
  - exists e, (rename r), (rename popped), pushed. rewrite Hins, !fmap_app. unfold len in *.
    rewrite length_fmap, (rename_inert _ (renumber_markers _) pushed Hin). done.
Qed.

Lemma sim_ret i v a s p s' next : vs !! i = Some v → entry_of es i = Some a → opcode_at v = FinalOpcode.Ret →
  OperandStack.pop_finally_continuation s = Ok (s', next) →
  ∃ f2', moves_to (mkFrame (Z.of_nat (position i)) (rename s) p) f2' ∧ mirrors (mkFrame next s' p) f2'.
Proof.
  intros Hv Ha Ho Hs. destruct (plain_moves i v a Hv Ha) as (v' & Hv' & Hins & _ & _); [by rewrite Ho..|].
  eapply (one_move i v' s p _ (position (Z.to_nat next))); [done| |apply rtc_refl].
  eapply executes_ret; [unfold opcode_at in *; by rewrite Hins|].
  unfold OperandStack.pop_finally_continuation in *. rewrite rename_vec_pop.
  destruct (vec_pop s) as [[r e]|]; [|done]. cbn in *. destruct e; inv_ok; simplify_eq. done.
Qed.

(** Symbolic branches. *)
Lemma sim_goto i v a s p next : vs !! i = Some v → entry_of es i = Some a →
  OpcodeSemantics.successor_shape (opcode_semantics (opcode_at v)) = Some SuccessorShape.Jump →
  OperandStack.execute_goto v = Ok next → is_Some (entry_of es (Z.to_nat next)) →
  (∃ l, items plan !! position i = Some (AssemblyItem.Branch BranchKind.Goto l) ∧ l = label_of facts next) ∧
  ∃ f2', moves_to (mkFrame (Z.of_nat (position i)) (rename s) p) f2' ∧ mirrors (mkFrame next s p) f2'.
Proof.
  intros Hv Ha Hsh Hx Hn.
  assert (symbolic_branch_kind (opcode_at v) = Some BranchKind.Goto ∧ constant_branch_outcome (opcode_at v) a = None) as [Hk Ho].
  { split; [|apply no_outcome]; clear -Hsh; by destruct (opcode_at v). }
  destruct (branch_block i v a _ Hv Ha Hk Ho) as (t & Ht & Hi & _). rewrite decide_True in Ht by done.
  unfold OperandStack.execute_goto in Hx. rewrite Ht in Hx. cbn in Hx. injection Hx as ->.
  split; [by eexists|]. destruct (branch_realized (position i) _ _ Hi Hn) as (v' & q & Hv' & Hop & Hle & _ & Hs').
  eapply (one_move i v' s p _ q); [done| |done]. eapply executes_goto.
  - cbn in Hop. repeat (apply elem_of_cons in Hop as [->|Hop]; [done|]). by apply not_elem_of_nil in Hop.
  - unfold OperandStack.execute_goto. by rewrite Hs'.
Qed.

Lemma sim_catch i v a s p s' next : vs !! i = Some v → entry_of es i = Some a → opcode_at v = FinalOpcode.Catch →
  OperandStack.execute_catch v s = Ok s' → OperandStack.branch_successor v false = Ok next →
  (∀ h, OperandStack.branch_successor v true = Ok h → is_Some (entry_of es (Z.to_nat h))) →
  ∃ f2', moves_to (mkFrame (Z.of_nat (position i)) (rename s) p) f2' ∧ mirrors (mkFrame next s' p) f2'.
Proof.
  intros Hv Ha Hop Hx Hn Hh. destruct (branch_block i v a BranchKind.Catch Hv Ha) as (t & Ht & Hi & Hpos);
    [by rewrite Hop|apply no_outcome; by rewrite Hop|].
  rewrite decide_False in Ht by done. unfold OperandStack.execute_catch, OperandStack.branch_successor in *.
  rewrite Ht in *. cbn in *. inv_ok. simplify_eq.
  destruct (branch_realized (position i) _ _ Hi) as (v' & q & Hv' & Hop' & _ & Hq & Hs'); [by apply Hh|].
  rewrite Hq in * by (by left). eapply one_move; [done| |by apply next_follows]. cbn [stack pool].
  eapply executes_catch; unfold OperandStack.execute_catch, OperandStack.branch_successor; rewrite ?Hs'; [|..|done].
  - apply elem_of_cons in Hop' as [->|Hop']; [done|]. by apply not_elem_of_nil in Hop'.
  - cbn. by rewrite fmap_app.
Qed.

Lemma sim_gosub i v a s p s' next : vs !! i = Some v → entry_of es i = Some a → opcode_at v = FinalOpcode.Gosub →
  OperandStack.enter_finally_subroutine v s = Ok (s', next) → is_Some (entry_of es (Z.to_nat next)) →
  ∃ f2', moves_to (mkFrame (Z.of_nat (position i)) (rename s) p) f2' ∧ mirrors (mkFrame next s' p) f2'.
Proof.
  intros Hv Ha Hop Hx Hn. destruct (branch_block i v a BranchKind.Gosub Hv Ha) as (t & Ht & Hi & Hpos);
    [by rewrite Hop|apply no_outcome; by rewrite Hop|].
  rewrite decide_False in Ht by done. unfold OperandStack.enter_finally_subroutine, OperandStack.branch_successor in *.
  rewrite Ht in *. cbn in *. inv_ok. simplify_eq.
  destruct (branch_realized (position i) _ _ Hi Hn) as (v' & q & Hv' & Hop' & Hle & Hq & Hs').
  rewrite Hq in * by (by right). eapply one_move; [done| |exact Hle]. cbn [stack pool].
  eapply executes_gosub; unfold OperandStack.enter_finally_subroutine, OperandStack.branch_successor; rewrite ?Hs'.
  - apply elem_of_cons in Hop' as [->|Hop']; [done|]. by apply not_elem_of_nil in Hop'.
  - cbn. rewrite fmap_app. cbn [fmap list_fmap renumber]. unfold on_indices. by rewrite Nat2Z.id, Hpos.
Qed.

Lemma sim_with i v a s p effect rest popped pushed p' (found : bool) next : vs !! i = Some v → entry_of es i = Some a →
  is_with_branch (opcode_at v) = true → Instruction.stack_effect (instruction (decoded v)) = Ok effect →
  s = rest ++ popped → len popped = pops effect →
  len pushed = pushes effect + (if found then with_branch_values (opcode_at v) else 0) →
  inert pushed → pool_advances is_html_dda p p' → OperandStack.branch_successor v found = Ok next →
  (∀ h, OperandStack.branch_successor v true = Ok h → is_Some (entry_of es (Z.to_nat h))) →
  ∃ f2', moves_to (mkFrame (Z.of_nat (position i)) (rename s) p) f2' ∧ mirrors (mkFrame next (rest ++ pushed) p') f2'.
Proof.
  intros Hv Ha Hw He -> Hpop Hpush Hin Hp Hn Hh. destruct (with_block i v a Hv Ha Hw) as (t & Ht & Hpos & Hv').
  unfold OperandStack.branch_successor in Hn, Hh. rewrite Ht in Hn, Hh. cbn in Hn, Hh.
  destruct (Hv' (Hh t eq_refl)) as (v' & Hlook & Hop & Heff & Hs').
  set (q := if found then position (Z.to_nat t) else S (position i)).
  eapply (one_move i v' _ p _ q); [done| |].
  - cbn [stack pool]. rewrite !fmap_app, (rename_inert _ (renumber_markers _) pushed Hin).
    eapply executes_with with (found := found); [by rewrite Hop|by rewrite Heff|done| |by rewrite Hop|done|done|].
    + unfold len in *. by rewrite length_fmap.
    + unfold OperandStack.branch_successor. rewrite Hs'. by destruct found.
  - unfold follows, q. destruct found; simplify_eq/=; [apply rtc_refl|]. rewrite Nat2Z.id, Hpos. apply rtc_refl.
Qed.

(** Truthiness branches: one whose outcome is open, and a folded one. *)
Lemma execute_branch_Ok v s s' next : OperandStack.execute_branch is_html_dda v (opcode_at v) s = Ok (s', next) →
  ∃ condition, s = s' ++ [OperandStackEntry.JavaScript condition] ∧
    OperandStack.branch_successor v
      match opcode_at v with
      | FinalOpcode.IfFalse | FinalOpcode.IfFalse8 => negb (OperandStack.to_boolean is_html_dda condition)
      | _ => OperandStack.to_boolean is_html_dda condition
      end = Ok next.
Proof.
  unfold OperandStack.execute_branch. intros E. inv_ok. destruct x as [r w].
  rename select (OperandStack.pop _ = _) into Hp. apply pop_Ok in Hp. inv_ok. simplify_eq. by exists w.
Qed.

Lemma same_family v v' k : symbolic_branch_kind (opcode_at v) = Some k → is_truthiness_branch (opcode_at v) = true →
  opcode_at v' ∈ EmitFacts.branch_opcodes k → is_truthiness_branch (opcode_at v') = true ∧ k ≠ BranchKind.Goto ∧
  ∀ b, match opcode_at v' with FinalOpcode.IfFalse | FinalOpcode.IfFalse8 => negb b | _ => b end
     = match opcode_at v with FinalOpcode.IfFalse | FinalOpcode.IfFalse8 => negb b | _ => b end.
Proof.
  intros Hk Hb Hop. destruct (opcode_at v); try discriminate Hb; injection Hk as <-; cbn in Hop;
    repeat (apply elem_of_cons in Hop as [Hop|Hop]; [by rewrite Hop|]); by apply not_elem_of_nil in Hop.
Qed.

Lemma sim_open_branch i v a s p s' next : vs !! i = Some v → entry_of es i = Some a →
  is_truthiness_branch (opcode_at v) = true → constant_branch_outcome (opcode_at v) a = None →
  OperandStack.execute_branch is_html_dda v (opcode_at v) s = Ok (s', next) →
  (∀ h, OperandStack.branch_successor v true = Ok h → is_Some (entry_of es (Z.to_nat h))) →
  ∃ f2', moves_to (mkFrame (Z.of_nat (position i)) (rename s) p) f2' ∧ mirrors (mkFrame next s' p) f2'.
Proof.
  intros Hv Ha Hb Ho Hx Hh. apply execute_branch_Ok in Hx as (w & -> & Hn).
  destruct (symbolic_branch_kind (opcode_at v)) as [k|] eqn:Hk; [|clear -Hb Hk; by destruct (opcode_at v)].
  destruct (branch_block i v a k Hv Ha Hk Ho) as (t & Ht & Hi & Hpos).
  assert (k ≠ BranchKind.Goto) as Hng by (clear -Hk Hb; by destruct (opcode_at v); simplify_eq/=).
  rewrite decide_False in Ht by done. unfold OperandStack.branch_successor in Hn, Hh. rewrite Ht in Hn, Hh. cbn in Hn, Hh.
  destruct (branch_realized (position i) _ _ Hi (Hh t eq_refl)) as (v' & q & Hv' & Hop & Hle & _ & Hs').
  rewrite decide_False in Hs' by done. destruct (same_family v v' k Hk Hb Hop) as (Hb' & _ & Hm). rewrite <- Hm in Hn.
  eapply (one_move i v' _ p _ (if (match opcode_at v' with FinalOpcode.IfFalse | FinalOpcode.IfFalse8 =>
    negb (OperandStack.to_boolean is_html_dda w) | _ => OperandStack.to_boolean is_html_dda w end) then q else S (position i))); [done| |].
  - eapply executes_branch; [done|]. unfold OperandStack.execute_branch. rewrite fmap_app. cbn [fmap list_fmap renumber].
    rewrite pop_snoc. cbn [mbind result_bind]. unfold OperandStack.branch_successor. rewrite Hs'.
    cbn [stack]. match goal with |- context [if ?b then _ else _] => destruct b end; done.
  - unfold follows. cbn [instruction_index]. match goal with |- context [if ?b then q else _] => destruct b end; simplify_eq/=; [done|].
    rewrite Nat2Z.id, Hpos. apply rtc_refl.
Qed.

Lemma sim_folded_branch i v a s p s' next taken : vs !! i = Some v → entry_of es i = Some a →
  is_truthiness_branch (opcode_at v) = true → constant_branch_outcome (opcode_at v) a = Some taken →
  OperandStack.execute_branch is_html_dda v (opcode_at v) s = Ok (s', next) →
  OperandStack.branch_successor v taken = Ok next → is_Some (entry_of es (Z.to_nat next)) →
  ∃ f2', moves_to (mkFrame (Z.of_nat (position i)) (rename s) p) f2' ∧ mirrors (mkFrame next s' p) f2'.
Proof.
  intros Hv Ha Hb Ho Hx Hn He. apply execute_branch_Ok in Hx as (w & -> & _).
  pose proof (executable_block i v a Hv Ha) as Hbl. rewrite Ho in Hbl.
  pose proof (original_successors i v Hv) as Hs. unfold successors_exact, shape_of in Hs.
  change (Instruction.opcode (instruction (decoded v))) with (opcode_at v) in Hs.
  assert (OpcodeSemantics.successor_shape (opcode_semantics (opcode_at v)) = Some SuccessorShape.Branch) as Hsh
    by (clear -Hb; by destruct (opcode_at v)).
  rewrite Hsh in Hs. destruct Hs as (t & Ht & _). unfold OperandStack.branch_successor in Hn. rewrite Ht in Hn, Hbl. cbn in Hn.
  destruct (item_realized (position i + 0) (AssemblyItem.Instruction (Instruction.mk FinalOpcode.Drop Operands.None)))
    as (v1 & Hv1 & Hins1 & Hs1).
  { eapply block_items; [done|done|]. by rewrite Hbl. }
  rewrite Nat.add_0_r in *. cbn in Hins1. unfold successors_exact, shape_of in Hs1. rewrite Hins1 in Hs1. cbn in Hs1.
  assert (moves is_html_dda installed_atoms c'
    (mkFrame (Z.of_nat (position i)) (rename (s' ++ [OperandStackEntry.JavaScript w])) p)
    (mkFrame (Z.of_nat (S (position i))) (rename s') p)) as Hdrop.
  { econstructor; [by apply query_at|]. eapply (executes_straight_line _ _ _ _ _ idle_allocation);
      [unfold opcode_at; by rewrite Hins1| |by rewrite Hs1].
    unfold opcode_at. rewrite Hins1. unfold OperandStack.execute_straight_line.
    cbn [OperandStack.arm_of OperandStack.execute_permutation Instruction.opcode]. rewrite fmap_app.
    cbn [fmap list_fmap renumber stack pool]. by rewrite drop_snoc. }
  pose proof (position_S facts vs i v Hv) as Hpos. rewrite Hbl in Hpos.
  assert (Hstay : position (Z.to_nat next) = S (position i) → ∃ f2',
    moves_to (mkFrame (Z.of_nat (position i)) (rename (s' ++ [OperandStackEntry.JavaScript w])) p) f2' ∧ mirrors (mkFrame next s' p) f2').
  { intros Hq. eexists. split; [by apply rtc_once|]. constructor; cbn; [|done|done].
    eexists. split; [done|]. rewrite Hq. apply rtc_refl. }
  unfold folded_block in *. destruct taken; cbn [andb] in *; [|injection Hn as <-].
  - injection Hn as ->. destruct (Z.eqb_spec next (Z.of_nat (S i))) as [->|Hne]; cbn in Hbl, Hpos.
    + apply Hstay. rewrite Nat2Z.id. lia.
    + destruct (branch_realized (S (position i)) BranchKind.Goto next) as (v2 & q & Hv2 & Hop & Hle & _ & Hs2); [|done|].
      { rewrite <- Nat.add_1_r. eapply block_items; [done|done|]. by rewrite Hbl. }
      eexists. split; [eapply rtc_l; [exact Hdrop|]; apply rtc_once; econstructor; [by apply query_at|]|].
      * eapply executes_goto; [|unfold OperandStack.execute_goto; by rewrite Hs2]. cbn in Hop.
        repeat (apply elem_of_cons in Hop as [->|Hop]; [done|]). by apply not_elem_of_nil in Hop.
      * constructor; cbn; [by exists q|done|done].
  - apply Hstay. rewrite Nat2Z.id. cbn in Hpos. lia.
Qed.

(** *** Positions past a [goto] *)

(** The first item of an executable block, by the opcode. *)
Lemma first_item i v a : vs !! i = Some v → entry_of es i = Some a →
  ∃ item, items plan !! position i = Some item ∧
    ∀ l, item = AssemblyItem.Branch BranchKind.Goto l →
      OpcodeSemantics.successor_shape (opcode_semantics (opcode_at v)) = Some SuccessorShape.Jump ∧
      ∃ t, successors v = VerifiedSuccessors.Jump t ∧ l = label_of facts t.
Proof.
  intros Hv Ha. destruct (is_with_branch (opcode_at v)) eqn:Hw.
  { destruct (with_opcode_facts _ Hw) as (_ & _ & Hk & Hnt & _). pose proof (executable_block i v a Hv Ha) as Hb.
    rewrite (no_outcome _ _ Hnt) in Hb. unfold plain_block in Hb. rewrite Hk, Hw in Hb.
    destruct (with_block i v a Hv Ha Hw) as (t & Ht & Hpos & _). rewrite (position_S facts vs i v Hv) in Hpos.
    destruct (block_of facts i v) as [|item l] eqn:Ebl; [simpl in Hpos; lia|].
    exists item. split; [rewrite <- (Nat.add_0_r (position i)); eapply block_items; [done|done|by rewrite Ebl]|].
    intros l' ->. clear -Hb. by repeat case_match. }
  pose proof (executable_block i v a Hv Ha) as Hb.
  destruct (constant_branch_outcome (opcode_at v) a) as [taken|] eqn:Eo.
  { eexists. split; [rewrite <- (Nat.add_0_r (position i)); eapply block_items; [done|done|by rewrite Hb]|done]. }
  destruct (symbolic_branch_kind (opcode_at v)) as [k|] eqn:Hk.
  - destruct (branch_block i v a k Hv Ha Hk Eo) as (t & Ht & Hi & _). eexists. split; [exact Hi|].
    intros l [= -> <-]. rewrite decide_True in Ht by done. split; [clear -Hk; by destruct (opcode_at v)|by exists t].
  - unfold plain_block in Hb. rewrite Hk, Hw in Hb. eexists.
    split; [rewrite <- (Nat.add_0_r (position i)); eapply block_items; [done|done|by rewrite Hb]|done].
Qed.

Lemma leads_item p q : leads plan p q → is_Some (items plan !! p) → is_Some (items plan !! q).
Proof.
  intros Hl Hp. induction Hl as [|p q r (l & Hi & Ht) _ IH]; [done|]. apply IH.
  destruct (ready_target plan plan_ready p _ l Hi eq_refl) as (tp & Htp & Hlt).
  assert (tp = q) as <- by congruence. by apply lookup_lt_is_Some_2.
Qed.

(** What a [goto] does: it jumps, or an exception leaves it. *)
Lemma executes_jump_only v s p f2 t : executes v s p f2 → successors v = VerifiedSuccessors.Jump t →
  OpcodeSemantics.successor_shape (opcode_semantics (opcode_at v)) = Some SuccessorShape.Jump →
  f2 = mkFrame t s p ∨ ∃ m caught s' p' next, OperandStack.enter_handler s m caught = Ok (s', next) ∧
    pool_advances is_html_dda p p' ∧ f2 = mkFrame next s' p'.
Proof.
  intros Hx Ht Hsh. destruct Hx as [al s' p' next Hal Hs Hn|s' next Hb Hs|next Hj Hs|s' next Ho Hs Hn|s' next Ho Hs|s' next Ho Hs
    |e r popped pushed p' found next Hw He' Hs Hpop Hpush Hin Hp Hn|s' p' next Harm Hex Hp Hn|m caught s' p' next Hs Hp].
  - by rewrite Ht in Hn.
  - clear -Hb Hsh. by destruct (opcode_at v).
  - left. unfold OperandStack.execute_goto in Hs. rewrite Ht in Hs. by injection Hs as ->.
  - clear -Ho Hsh. by rewrite Ho in Hsh.
  - clear -Ho Hsh. by rewrite Ho in Hsh.
  - clear -Ho Hsh. by rewrite Ho in Hsh.
  - clear -Hw Hsh. by destruct (opcode_at v).
  - by rewrite Ht in Hn.
  - right. by eexists _, _, _, _, _.
Qed.

(** ** The step lemma *)

Lemma branch_entries v oc out_ h : Forall (covers es) (flows c v oc out_) → oc = None ∨ is_truthiness_branch (opcode_at v) = false →
  OperandStack.branch_successor v true = Ok h → is_Some (entry_of es (Z.to_nat h)).
Proof.
  intros Hf Hoc Hh. unfold OperandStack.branch_successor in Hh. unfold flows in Hf.
  destruct (successors v) as [|t n| |]; try done. injection Hh as ->.
  assert (∃ x, (h, x) ∈ if is_truthiness_branch (opcode_at v) then match oc with Some true => [(h, out_)]
    | Some false => [(n, out_)] | None => [(h, out_); (n, out_)] end else [(h, opaque_of c h); (n, out_)]) as (x & Hin).
  { destruct Hoc as [-> | ->]; [destruct (is_truthiness_branch _)|]; eexists; by left. }
  destruct (proj1 (Forall_forall _ _) Hf _ Hin) as (b & Hb & _). by exists b.
Qed.

Lemma simulation_here f v f2 a out_ : vs !! Z.to_nat (instruction_index f) = Some v →
  entry_of es (Z.to_nat (instruction_index f)) = Some a → AbstractValueFacts.aligned is_html_dda a (stack f) →
  transfer_stack a (instruction (decoded v)) inputs = Ok out_ →
  Forall (covers es) (flows c v (constant_branch_outcome (opcode_at v) a) out_) →
  executes v (stack f) (pool f) f2 → is_Some (entry_of es (Z.to_nat (instruction_index f2))) →
  ∃ f2', moves_to (mirror f) f2' ∧ mirrors f2 f2'.
Proof.
  intros Hv Ha Hal Ht Hf Hx He2. unfold mirror. pose proof (λ h, branch_entries v _ out_ h Hf) as Hent.
  assert (is_Some (instructions c' !! position (Z.to_nat (instruction_index f)))) as [v0 Hv0].
  { destruct (first_item _ v a Hv Ha) as (item & Hi & _). destruct (item_realized _ _ Hi) as (v0 & ? & _). by exists v0. }
  destruct Hx as [al s' p' next Hall Hs Hn|s' next Hb Hs|next Hj Hs|s' next Ho Hs Hn|s' next Ho Hs|s' next Ho Hs
    |e r popped pushed p' found next Hw He' Hs Hpop Hpush Hin Hp Hn|s' p' next Harm Hex Hp Hn|m caught s' p' next Hs Hp].
  - by eapply sim_straight_line.
  - destruct (constant_branch_outcome (opcode_at v) a) as [taken|] eqn:Eo.
    + eapply sim_folded_branch; try done.
      destruct (branch_fits is_html_dda c inputs es a v out_ (stack f) s' next) as [_ Hk]; try done; [by rewrite Eo|by apply Hk].
    + eapply sim_open_branch; try done. intros h. apply Hent. by left.
  - by destruct (sim_goto (Z.to_nat (instruction_index f)) v a (stack f) (pool f) next).
  - eapply sim_catch; try done. intros h. apply Hent. right. by rewrite Ho.
  - by eapply sim_gosub.
  - by eapply sim_ret.
  - eapply sim_with; try done. intros h. apply Hent. right. by destruct (with_opcode_facts _ Hw) as (_ & _ & _ & ? & _).
  - by eapply sim_other.
  - by eapply sim_throw.
Qed.

Lemma simulation_step f v f2 f' : described f → described f2 →
  VerifiedControlFlowQueries.instruction c (instruction_index f) = Some v →
  executes v (stack f) (pool f) f2 → mirrors f f' → ∃ f2', moves_to f' f2' ∧ mirrors f2 f2'.
Proof.
  intros Hd Hd2 Hq Hx [(p & Hp & Hl) Hst Hpo]. destruct f' as [i' s' p']. cbn in Hp, Hst, Hpo. subst i' s' p'.
  destruct (described_stable is_html_dda c inputs es Hfix f v Hd Hq) as (a & out_ & Ha & Hal & Ht & Hf).
  destruct (described_entry _ _ _ _ _ Hd2) as (a2 & Ha2 & _).
  apply query_lookup in Hq as [Hv _].
  inversion Hl as [E|? q ? (l & Hi & Htp) Hrest E]; subst.
  - eapply simulation_here; try done; by exists a2.
  - destruct (first_item _ v a Hv Ha) as (item & Hi' & Hgoto). rewrite Hi in Hi'. injection Hi' as <-.
    destruct (Hgoto l eq_refl) as (Hsh & t & Hsv & ->).
    destruct (executes_jump_only v _ _ _ t Hx Hsv Hsh) as [->|(m & caught & s2 & p2 & next & Hh & Hpa & ->)].
    + exists (mkFrame (Z.of_nat p) (rename (stack f)) (pool f)). split; [apply rtc_refl|].
      constructor; cbn; [exists p; split; [done|]|done|done].
      cbn in Ha2. assert (q = position (Z.to_nat t)) as <- by (apply label_lands; [by exists a2|done]). done.
    + destruct (leads_item _ _ Hl) as [item Hit]; [by eexists|].
      destruct (item_realized _ _ Hit) as (v' & Hv' & _). by eapply sim_throw.
Qed.

Lemma simulation_runs pool0 f : pool_ok is_html_dda inputs pool0 →
  Frame.runs is_html_dda installed_atoms c (mkFrame 0 [] pool0) f →
  described f ∧ ∃ f', moves_to (mkFrame 0 [] pool0) f' ∧ mirrors f f'.
Proof.
  intros Hp Hr. pose proof (verified_operands _ _ _ _ _ Hbc Hok) as Hcode.
  assert (Hdesc : ∀ g, Frame.runs is_html_dda installed_atoms c (mkFrame 0 [] pool0) g → described g).
  { intros g Hg. by eapply (runs_described is_html_dda installed_atoms c inputs es Hcode Hatoms Hfix). }
  split; [by apply Hdesc|]. unfold Frame.runs in *. revert f Hr.
  apply (rtc_ind_r (λ f, ∃ f', moves_to (mkFrame 0 [] pool0) f' ∧ mirrors f f') (mkFrame 0 [] pool0)).
  - eexists. split; [apply rtc_refl|]. constructor; [|done|done]. exists 0%nat. split; [done|apply rtc_refl].
  - intros f1 f2 Hr1 Hs (f1' & Hm & Hmir). pose proof (rtc_r _ _ _ Hr1 Hs) as Hr2.
    destruct Hs as [f1 f2 v Hv Hx Hadm].
    destruct (simulation_step f1 v f2 f1') as (f2' & Hm2 & Hmir2); [by apply Hdesc|by apply Hdesc|done|done|done|].
    exists f2'. split; [by etrans|done].
Qed.

(** A plain instruction meets itself. *)
Lemma mirrors_plain f f' v : described f → mirrors f f' →
  VerifiedControlFlowQueries.instruction c (instruction_index f) = Some v →
  symbolic_branch_kind (opcode_at v) = None → is_with_branch (opcode_at v) = false →
  ∃ v', VerifiedControlFlowQueries.instruction c' (instruction_index f') = Some v' ∧
    instruction (decoded v') = instruction (decoded v).
Proof.
  intros Hd [(p & Hp & Hl) _ _] [Hv _]%query_lookup Hk Hw. destruct (described_entry _ _ _ _ _ Hd) as (a & Ha & _).
  inversion Hl as [E|? q ? (l & Hi & _) _ E]; subst.
  - destruct (plain_moves _ v a Hv Ha Hk Hw) as (v' & Hv' & Hins & _). exists v'. split; [|done].
    rewrite Hp. by apply query_at.
  - destruct (first_item _ v a Hv Ha) as (item & Hi' & Hgoto). rewrite Hi in Hi'. injection Hi' as <-.
    destruct (Hgoto l eq_refl) as (Hsh & _). clear -Hsh Hk. by destruct (opcode_at v).
Qed.

Lemma position_mono i j : (i ≤ j)%nat → (position i ≤ position j)%nat.
Proof.
  intros Hij. unfold position_of, items_before. destruct (concat_take_prefix (imap (block_of facts) vs) i j Hij) as [k ->].
  rewrite length_app. lia.
Qed.
End simulation.
