(* ===== verification/OptimizerCorrect.v ===== *)
(** * The optimized code behaves like the original

    Every run of the verified control flow is matched by a run of the one the
    compiler keeps, on the same operands up to the renumbering of the
    instructions that [catch] markers and [finally] return addresses name. *)

From S2P Require Import Prelude RuntimePrelude Opcode Codec Function VerifierModel VerifierPredecode VerifierStatic VerifierStack Verifier Assembler AssemblerFacts AssemblerFinish JsStrings Arena Values CompilerString AbstractValues AbstractValueFacts OperandStack TransferFacts Optimizer OptimizerRewrite PropagationFacts OptimizerSound MarkerRenaming RetentionFacts EmissionFacts ControlFlow OptimizerSimulation.
From stdpp Require Import list relations.
Import StoredValue(StoredValue) OperandStackEntry(OperandStackEntry) InstalledConstant(InstalledConstant).
Local Open Scope Z_scope.

(** ** The compiler's final control flow *)

(** [f'] of [c'] stands for [f] of [c]: the same operands, the same pool, and
    at an instruction that is no branch the same instruction. *)
Record stands_for (position : Z → Z) (c c' : VerifiedControlFlow) (f f' : Frame.Frame) : Prop := {
  stands_stack : Frame.stack f' = renumber position <$> Frame.stack f;
  stands_pool : Frame.pool f' = Frame.pool f;
  stands_instruction v :
    VerifiedControlFlowQueries.instruction c (Frame.instruction_index f) = Some v →
    symbolic_branch_kind (opcode_at v) = None → is_with_branch (opcode_at v) = false →
    ∃ v', VerifiedControlFlowQueries.instruction c' (Frame.instruction_index f') = Some v' ∧
      instruction (decoded v') = instruction (decoded v) }.

(** Limits of their Rust types. *)
Definition limits_typed (limits : VerificationLimits) : Prop :=
  is_u32 (max_bytecode_bytes_per_function limits) ∧ is_u32 (max_instructions_per_function limits) ∧
  is_u64 (max_transfer_evaluations limits).

Lemma staged_Ok `{Allocator} bc domains header captures constants limits sources c :
  byte_list bc → limits_typed limits →
  verify_staged_control_flow bc domains header captures constants limits sources = Ok c →
  PipelineFacts.pipeline_ok limits true bc domains c.
Proof.
  intros Hbc (_ & Hi & _) E. unfold verify_staged_control_flow in E.
  destruct (verify_compiler_control_flow _ _) as [c0|e] eqn:Ec; [injection E as ->|inv_ok; done].
  unfold verify_compiler_control_flow in Ec. eapply PipelineFacts.verify_common_Ok in Ec; [done|done|].
  unfold is_u32, u32_max in *. lia.
Qed.

Lemma rebuild_Ok `{Allocator} identity c sources calls parameter_end prefix_start anchors facts limits o :
  rebuild_optimized_control_flow identity c sources calls parameter_end prefix_start anchors facts limits = Ok o →
  ∃ rebuilt, assemble_optimized_control_flow identity c sources facts limits = Ok rebuilt ∧
    optimized_bytecode o = rebuilt_bytecode rebuilt.
Proof. unfold rebuild_optimized_control_flow. intros E. inv_ok. subst. by eexists. Qed.

Lemma validate_sources_length c sources : validate_source_instructions c sources = Ok tt →
  length sources = length (instructions c).
Proof. unfold validate_source_instructions. intros E. inv_ok. rename select (negb _ = false) into Hl. by apply negb_false_iff, Nat.eqb_eq in Hl. Qed.

Section final.
Context `{Allocator} (is_html_dda : StoredValue → bool) (atoms : list Repr).
Context (identity : Z) (finished : FinishedControlFlow) (domains : FunctionIndexDomains)
  (header : UnverifiedFunctionHeader) (inputs : ControlFlowVerificationInputs) (limits : VerificationLimits)
  (c : VerifiedControlFlow).
Context (Hbc : byte_list (finished_bytecode finished)) (Hlim : limits_typed limits)
  (Hc : verify_staged_control_flow (finished_bytecode finished) domains header (inputs_capture_layout inputs)
          (inputs_constant_layout inputs) limits (finished_sources finished) = Ok c)
  (Hatoms : atoms_ok (inputs_constants inputs) atoms).
Local Notation runs_to pool0 := (Frame.runs is_html_dda atoms c (Frame.mkFrame 0 [] pool0)).

(** What the property says, for a numbering. *)
Definition simulated (c' : VerifiedControlFlow) : Prop :=
  ∃ position, (∀ i j, i ≤ j → position i ≤ position j) ∧
    ∀ pool0 f, pool_ok is_html_dda (inputs_constants inputs) pool0 → runs_to pool0 f →
      ∃ f', rtc (moves is_html_dda atoms c') (Frame.mkFrame 0 [] pool0) f' ∧ stands_for position c c' f f'.

Lemma simulated_itself : simulated c.
Proof.
  exists id. split; [done|]. intros pool0 f _ Hr. exists f. split.
  - unfold Frame.runs in Hr. eapply rtc_congruence with (f := id); [|exact Hr].
    intros f1 f2 [f1' f2' v Hv Hx _]. by econstructor.
  - constructor; [|done|by eauto]. rewrite <- (list_fmap_id (Frame.stack f)) at 1.
    apply list_fmap_ext. by intros ? [] _.
Qed.

(** An optimization that rewrote the code: the facts behind it, the plan it
    finished and the bytes. *)
Lemma optimized_Ok sources calls parameter_end prefix_start anchors o :
  optimize_control_flow identity c sources calls parameter_end prefix_start anchors (inputs_constants inputs) limits
    = Ok (Some o) →
  ∃ es facts rebuilt plan out, fixed_point c (inputs_constants inputs) es ∧
    (∀ i v, instructions c !! i = Some v →
       ControlFlowFacts.branch_outcome facts i = (entry_of es i ≫= constant_branch_outcome (opcode_at v)) ∧
       (is_Some (entry_of es i) → ControlFlowFacts.is_retained facts i = true)) ∧
    emitted_plan facts (instructions c) rebuilt plan ∧ finish plan = Ok out ∧
    optimized_bytecode o = assembled_bytecode out.
Proof.
  intros Ho. pose proof (staged_Ok _ _ _ _ _ _ _ _ Hbc Hlim Hc) as Hok.
  unfold optimize_control_flow in Ho. inv_ok. rename x0 into facts.
  rename select (validate_source_instructions _ _ = _) into Hsrc. apply validate_sources_length in Hsrc.
  rename select (analyze_control_flow _ _ _ = _) into Han. apply analyze_Ok in Han as (es & Hfix & Hfacts).
  destruct (negb _); [done|]. destruct (existsb _ _); [done|]. inv_ok. simplify_eq.
  rename select (rebuild_optimized_control_flow _ _ _ _ _ _ _ _ _ = _) into Hre.
  apply rebuild_Ok in Hre as (rebuilt & Has & Hbytes).
  destruct (assemble_Ok _ _ _ _ _ _ Hsrc (verified_operands _ _ _ _ _ Hbc Hok) Hlim Has)
    as (plan & out & Hplan & Hfin & Hob & _).
  exists es, facts, rebuilt, plan, out. split_and!; try done. congruence.
Qed.

Lemma simulated_optimized sources calls parameter_end prefix_start anchors o sources' c' :
  optimize_control_flow identity c sources calls parameter_end prefix_start anchors (inputs_constants inputs) limits
    = Ok (Some o) →
  verify_staged_control_flow (optimized_bytecode o) domains header (inputs_capture_layout inputs)
    (inputs_constant_layout inputs) limits sources' = Ok c' → simulated c'.
Proof.
  intros Ho Hc'. pose proof (staged_Ok _ _ _ _ _ _ _ _ Hbc Hlim Hc) as Hok.
  destruct (optimized_Ok _ _ _ _ _ _ Ho) as (es & facts & rebuilt & plan & out & Hfix & Hfacts & Hplan & Hfin & Hob).
  rewrite Hob in Hc'. apply staged_Ok in Hc' as Hok'; [|by apply (FinishFacts.finish_realizes plan out (plan_ok _ _ _ _ Hplan) Hfin)|done].
  exists (on_indices (position_of facts (instructions c))). split.
  { intros i j Hij. unfold on_indices. apply Nat2Z.inj_le, position_mono. lia. }
  intros pool0 f Hpool Hr.
  destruct (simulation_runs is_html_dda atoms limits true _ domains c Hbc Hok _ es facts Hatoms Hfix Hfacts
    rebuilt plan out Hplan Hfin limits true domains c' Hok' pool0 f Hpool Hr) as (Hd & f' & Hm & Hmir).
  exists f'. split; [done|]. constructor; [apply Hmir|apply Hmir|]. intros v Hv Hk Hw.
  by eapply (mirrors_plain is_html_dda limits true _ domains c Hbc Hok _ es facts Hfix Hfacts
    rebuilt plan out Hplan Hfin limits true domains c' Hok').
Qed.
End final.

(** C3.  Optimization preserves execution: let [verify_with_inputs] accept a
    function whose control flow verified as [c].  Every run of [c] from the
    entry, exceptions, [finally] subroutines and calls that fill template
    sites included, is matched by a run of the control flow it returns, which
    holds the same operands and pool up to a monotone renumbering of the
    positions [catch] markers and return addresses name, and which is at the
    same instruction whenever the original is at one that is no branch. *)
Theorem optimization_preserves_execution (a : Allocator) (is_html_dda : StoredValue → bool) (atoms : list Repr)
    (identity : Z) (finished : FinishedControlFlow) (domains : FunctionIndexDomains)
    (header : UnverifiedFunctionHeader) (inputs : ControlFlowVerificationInputs) (limits : VerificationLimits)
    (c : VerifiedControlFlow) (r : VerifiedFinishedControlFlow)
    (Hbc : byte_list (finished_bytecode finished)) (Hlim : limits_typed limits)
    (Hc : verify_staged_control_flow (finished_bytecode finished) domains header (inputs_capture_layout inputs)
            (inputs_constant_layout inputs) limits (finished_sources finished) = Ok c)
    (Hatoms : atoms_ok (inputs_constants inputs) atoms)
    (Hr : verify_with_inputs identity finished domains header inputs limits = Ok r) :
  simulated is_html_dda atoms inputs c (control_flow r).
Proof.
  unfold verify_with_inputs in Hr. rewrite Hc in Hr. cbn [mbind result_bind] in Hr. inv_ok.
  destruct x as [o|]; inv_ok; subst x0; inv_ok; subst r; cbn [control_flow].
  - by eapply simulated_optimized.
  - apply simulated_itself.
Qed.

(** [if (true) return 1; else return 2;] *)
Definition folding_plan `{Allocator} : leaf FinishedControlFlow :=
  let span := mkSpan 0 1 in
  let planned o operands := PlannedInstruction.new o operands span in
  '(other, p) ← new_statement_label (new_planned 1 UNTRUSTED) span;
  p ← emit p (planned FinalOpcode.PushTrue Operands.None);
  p ← plan_branch p BranchKind.IfFalse other span;
  p ← emit p (planned FinalOpcode.Push1 Operands.NoneInt);
  p ← emit p (planned FinalOpcode.Return Operands.None);
  p ← plan_bind p other;
  p ← emit p (planned FinalOpcode.Push2 Operands.NoneInt);
  p ← emit p (planned FinalOpcode.Return Operands.None);
  finish_plan p.

Definition folding_finished : FinishedControlFlow :=
  Eval vm_compute in
    match @folding_plan always_allocates with Ok f => f | Err _ => mkFinished [] [] [] None 0 [] end.

Definition folding_inputs : ControlFlowVerificationInputs :=
  mkVerificationInputs (mkCaptureLayout [] None) (mkConstantLayout []) (mkInputs [] []).

Definition folding_header : UnverifiedFunctionHeader := UnverifiedFunctionHeader.ordinary_source_function false 0.

(** Its first verification, and what the compiler keeps. *)
Definition folding_original : VerifiedControlFlow :=
  Eval vm_compute in
    match @verify_staged_control_flow always_allocates (finished_bytecode folding_finished) (mkDomains 0 0 0 0 0)
            folding_header (inputs_capture_layout folding_inputs) (inputs_constant_layout folding_inputs) UNTRUSTED
            (finished_sources folding_finished) with
    | Ok c => c
    | Err _ => demo_verified
    end.

Definition folding_optimized : VerifiedFinishedControlFlow :=
  Eval vm_compute in
    match @verify_with_inputs always_allocates 2 folding_finished (mkDomains 0 0 0 0 0) folding_header folding_inputs
            UNTRUSTED with
    | Ok r => r
    | Err _ => mkVerifiedFinished [] demo_verified [] None 0
    end.

Definition folding_value : StoredValue := StoredValue.Number (JsNumber.from_i32 1).

Lemma folding_run :
  Frame.runs (λ _, false) [] folding_original (Frame.mkFrame 0 [] [])
    (Frame.mkFrame 3 [OperandStackEntry.JavaScript folding_value] []).
Proof.
  unfold Frame.runs.
  frame_step ltac:(eapply (Frame.executes_straight_line _ _ _ _ _ idle_allocation); [done|reflexivity|reflexivity]).
  frame_step ltac:(eapply Frame.executes_branch; reflexivity).
  frame_step ltac:(eapply (Frame.executes_straight_line _ _ _ _ _ idle_allocation); [done|reflexivity|reflexivity]).
  apply rtc_refl.
Qed.

(** The optimized code returns the same value. *)
Lemma optimization_preserves_execution_witness :
  ∃ f' v', rtc (moves (λ _, false) [] (control_flow folding_optimized)) (Frame.mkFrame 0 [] []) f' ∧
    Frame.stack f' = [OperandStackEntry.JavaScript folding_value] ∧
    VerifiedControlFlowQueries.instruction (control_flow folding_optimized) (Frame.instruction_index f') = Some v' ∧
    instruction (decoded v') = Instruction.mk FinalOpcode.Return Operands.None.
Proof.
  destruct (optimization_preserves_execution always_allocates (λ _, false) [] 2 folding_finished (mkDomains 0 0 0 0 0)
    folding_header folding_inputs UNTRUSTED folding_original folding_optimized) as (position & _ & Hsim).
  - unfold byte_list, is_u8. repeat apply Forall_cons_2; try apply Forall_nil_2; simpl; lia.
  - unfold limits_typed. repeat split; vm_compute; discriminate.
  - vm_compute. reflexivity.
  - intros n atom string Hn. by destruct n.
  - vm_compute. reflexivity.
  - destruct (Hsim [] _ ltac:(intros n value installed Hn; by destruct n) folding_run) as (f' & Hm & [Hst _ Hins]).
    destruct (Hins _ eq_refl eq_refl eq_refl) as (v' & Hv' & Hi). exists f', v'. split; [exact Hm|]. split; [exact Hst|].
    split; [exact Hv'|]. exact Hi.
Defined.
