(* ===== verification/OptimizerMetadata.v ===== *)
(** * Renumbered metadata

    What [metadata.rs] makes of the source table, the instruction lists, the
    boundaries and the statement anchors when the optimizer renumbers the
    instructions. *)

From S2P Require Import Prelude Opcode Codec Function VerifierModel VerifierPredecode VerifierStatic VerifierStack Verifier Assembler AssemblerFinish CompilerString AbstractValues Optimizer OptimizerRewrite PropagationFacts OptimizerSound RetentionFacts EmissionFacts OptimizerSimulation ControlFlow OptimizerCorrect.
From stdpp Require Import list.
Local Open Scope Z_scope.

Section metadata.
Context `{Allocator} (limits : VerificationLimits) (gen : bool) (bc : list Z) (domains : FunctionIndexDomains)
  (c : VerifiedControlFlow) (Hbc : byte_list bc) (Hok : PipelineFacts.pipeline_ok limits gen bc domains c).
Context (facts : ControlFlowFacts).
Local Notation vs := (instructions c).
Local Notation kept i := (ControlFlowFacts.is_retained facts i).
Local Notation position := (position_of facts vs).

(** A retained instruction leaves at least one. *)
Lemma block_nonempty i v : vs !! i = Some v → kept i = true → (1 ≤ length (block_of facts i v))%nat.
Proof.
  intros Hv Hk. unfold block_of. rewrite Hk.
  destruct (ControlFlowFacts.branch_outcome facts i) as [taken|]; [cbn; lia|].
  pose proof (verified_successors limits gen bc domains c Hbc Hok i v Hv) as Hs. unfold successors_exact, StaticFacts.shape_of in Hs.
  pose proof (Forall_lookup_1 _ _ _ _ (verified_valid _ _ _ _ _ Hbc Hok) Hv) as (_ & Hfmt & _).
  change (Instruction.opcode (instruction (decoded v))) with (opcode_at v) in *. unfold plain_block.
  destruct (is_with_branch (opcode_at v)) eqn:Hw.
  - destruct (with_opcode_facts _ Hw) as (Hsh & Hf & -> & _). rewrite Hsh in Hs. destruct Hs as (t & -> & _).
    rewrite Hf in Hfmt. cbn [block_target]. destruct (Instruction.operands _); try discriminate Hfmt. cbn. lia.
  - destruct (symbolic_branch_kind (opcode_at v)) as [k|] eqn:Ek; [|cbn; lia].
    assert (is_Some (block_target (successors v))) as [t ->]; [|cbn; lia].
    clear -Hs Ek. destruct (opcode_at v); try discriminate Ek; cbn in Hs; destruct Hs as (t & -> & _); by eexists.
Qed.

(** Boundaries part the retained instructions as they did. *)
Lemma position_order i j : (i < length vs)%nat → kept i = true → (i < j ↔ position i < position j)%nat.
Proof.
  intros Hi Hk. destruct (lookup_lt_is_Some_2 vs i Hi) as [v Hv]. split; intros Hij.
  - pose proof (position_S facts vs i v Hv). pose proof (block_nonempty i v Hv Hk).
    pose proof (position_mono c facts (S i) j Hij). lia.
  - destruct (decide (i < j)%nat); [done|]. pose proof (position_mono c facts j i ltac:(lia)). lia.
Qed.

Lemma origins_at i v : vs !! i = Some v → kept i = true →
  origins_before facts vs (length vs) !! position i = Some i.
Proof.
  intros Hv Hk. pose proof (block_nonempty i v Hv Hk) as Hb.
  assert (origins_before facts vs (S i) `prefix_of` origins_before facts vs (length vs)) as [rest ->].
  { apply concat_take_prefix. by apply lookup_lt_Some in Hv. }
  rewrite (origins_before_S facts vs i v Hv). rewrite <- app_assoc, lookup_app_r; rewrite origins_length; [|lia].
  rewrite Nat.sub_diag. destruct (block_of facts i v); [cbn in Hb; lia|done].
Qed.

(** ** The remapped tables *)

Context (rebuilt : RebuiltInstructions) (plan : BytecodeAssembler) (out : AssembledBytecode).
Context (Hplan : emitted_plan facts vs rebuilt plan) (Hfin : finish plan = Ok out)
  (Hpcs : rebuilt_pcs rebuilt = instruction_pcs out).

Lemma count_at b : (b < length vs)%nat → prefix_counts rebuilt !! b = Some (Z.of_nat (position b)).
Proof.
  intros Hb. destruct (plan_counts _ _ _ _ Hplan) as [last_ ->].
  rewrite lookup_app_l by (by rewrite length_map, length_seq).
  rewrite list_lookup_fmap, lookup_seq_lt by done. done.
Qed.

Lemma pc_at i v : vs !! i = Some v → kept i = true → is_Some (rebuilt_pcs rebuilt !! position i).
Proof.
  intros Hv Hk. pose proof (block_nonempty i v Hv Hk) as Hb.
  destruct (block_of facts i v) as [|item l] eqn:El; [cbn in Hb; lia|].
  assert (items plan !! (position i + 0)%nat = Some item) as Hi by (eapply block_items; [done|done|by rewrite El]).
  rewrite Nat.add_0_r in Hi. destruct (FinishFacts.finish_realizes plan out (plan_ok _ _ _ _ Hplan) Hfin) as (_ & _ & ds & _ & Hmap & Hr).
  destruct (Forall2_lookup_l _ _ _ _ _ Hr Hi) as (d & Hd & _). exists (pc d).
  rewrite Hpcs, <- Hmap. by apply (list_lookup_fmap_Some_2 pc ds (position i) d).
Qed.

Lemma sources_at sources sources' i v source : remap_sources (rebuilt_pcs rebuilt) (rebuilt_origins rebuilt) sources = Ok sources' →
  vs !! i = Some v → kept i = true → sources !! i = Some source →
  ∃ pc, rebuilt_pcs rebuilt !! position i = Some pc ∧
    sources' !! position i = Some (mkSourceInstruction pc (source_span source)).
Proof.
  intros Hr Hv Hk Hs. unfold remap_sources in Hr. inv_ok. apply try_map_Ok in Hr.
  destruct (pc_at i v Hv Hk) as [pc Hpc]. exists pc. split; [done|].
  destruct (plan_origins _ _ _ _ Hplan) as [extra Ho].
  assert (zip (rebuilt_pcs rebuilt) (rebuilt_origins rebuilt) !! position i = Some (pc, i)) as Hz.
  { apply lookup_zip_with_Some. exists pc, i. split_and!; [done|done|]. rewrite Ho.
    apply lookup_app_l_Some. by eapply origins_at. }
  destruct (Forall2_lookup_l _ _ _ _ _ Hr Hz) as (s' & Hs' & E). rewrite Hs in E. cbn in E. by injection E as <-.
Qed.

Lemma instruction_list_remapped old new : remap_instruction_metadata old (prefix_counts rebuilt) facts = Ok new →
  ControlFlowFacts.instruction_count facts = length vs →
  new = (λ i, Z.of_nat (position (Z.to_nat i))) <$> filter (λ i, kept (Z.to_nat i) = true) old.
Proof.
  intros Hr Hn. unfold remap_instruction_metadata in Hr. inv_ok.
  assert (∀ acc new, try_fold (λ remapped old_index,
      position ← usize_from_u32 old_index "compiler instruction metadata index";
      reject_if (ControlFlowFacts.instruction_count facts <=? position)%nat
        (invariant_error "compiler instruction metadata resolves to a verified instruction" None) ;;
      if negb (ControlFlowFacts.is_retained facts position) then Ok remapped else
      new_index ← ok_or (prefix_counts rebuilt !! position)
        (invariant_error "compiler instruction metadata resolves before a verified instruction" None);
      Ok (remapped ++ [new_index])) acc old = Ok new →
    new = acc ++ ((λ i, Z.of_nat (position (Z.to_nat i))) <$> filter (λ i, kept (Z.to_nat i) = true) old)) as Hall.
  { clear -Hplan Hn. induction old as [|z old IH]; intros acc new; cbn [try_fold].
    - intros [= <-]. cbn. by rewrite app_nil_r.
    - intros (acc' & E & Hrest)%bind_Ok. apply IH in Hrest as ->. clear IH. unfold usize_from_u32 in E. inv_ok.
      rename select (try_usize _ = _) into Hu. apply try_usize_Some in Hu as [_ ->].
      rename select (_ <=? _ = false)%nat into Hlt. apply Nat.leb_gt in Hlt. rewrite Hn in Hlt.
      destruct (kept (Z.to_nat z)) eqn:Hk; cbn [negb] in E; inv_ok; subst.
      + rewrite filter_cons_True by done. cbn. rewrite count_at in * by done. simplify_eq. by rewrite <- app_assoc.
      + rewrite filter_cons_False by congruence. done. }
  apply (Hall [] new Hr).
Qed.

Lemma boundary_remapped b new : remap_boundary b (prefix_counts rebuilt) = Ok new → b < len vs →
  new = Z.of_nat (position (Z.to_nat b)).
Proof.
  unfold remap_boundary, usize_from_u32. intros E Hb. inv_ok.
  rename select (try_usize _ = _) into Hu. apply try_usize_Some in Hu as [? ->]. rewrite count_at in E by (unfold len in Hb; lia). by injection E.
Qed.

(** Where a surviving anchor comes from. *)
Definition anchor_moved (anchors : list ResolvedStackAnchor) (new : ResolvedStackAnchor) : Prop :=
  ∃ old i, old ∈ anchors ∧ VerifiedControlFlowQueries.instruction_index_at c (anchor_pc old) = Some i ∧
    kept (Z.to_nat i) = true ∧ anchor_span new = anchor_span old ∧ anchor_depth new = anchor_depth old ∧
    rebuilt_pcs rebuilt !! position (Z.to_nat i) = Some (anchor_pc new).

Lemma anchor_step anchors acc anchor acc' : anchor ∈ anchors → Forall (anchor_moved anchors) acc →
  ControlFlowFacts.instruction_count facts = length vs →
  remap_stack_anchor c (prefix_counts rebuilt) (rebuilt_pcs rebuilt) facts acc anchor = Ok acc' →
  Forall (anchor_moved anchors) acc'.
Proof.
  intros Hin Hacc Hn E. unfold remap_stack_anchor, usize_from_u32 in E. inv_ok.
  rename select (VerifiedControlFlowQueries.instruction_index_at _ _ = _) into Hi.
  rename select (try_usize _ = _) into Hu. apply try_usize_Some in Hu as [_ ->].
  destruct (kept (Z.to_nat x)) eqn:Hk; cbn [negb] in E; [|by inv_ok; subst]. inv_ok. subst.
  assert (Z.to_nat x < length vs)%nat as Hlt.
  { rewrite <- Hn. unfold ControlFlowFacts.instruction_count. unfold ControlFlowFacts.is_retained in Hk.
    destruct (retained facts !! Z.to_nat x) eqn:Er; [|done]. by eapply lookup_lt_Some. }
  rewrite count_at in * by done. simplify_eq.
  rename select (try_usize _ = _) into Hu. apply try_usize_Some in Hu as [_ ->].
  rewrite Nat2Z.id in *. apply Forall_app. split; [done|]. constructor; [|constructor]. by exists anchor, x.
Qed.

Lemma anchors_remapped anchors new : remap_stack_anchors c anchors (prefix_counts rebuilt) (rebuilt_pcs rebuilt) facts = Ok new →
  ControlFlowFacts.instruction_count facts = length vs → Forall (anchor_moved anchors) new.
Proof.
  intros E Hn. unfold remap_stack_anchors in E. inv_ok.
  assert (∀ l acc new, (∀ x, x ∈ l → x ∈ anchors) → Forall (anchor_moved anchors) acc →
    try_fold (remap_stack_anchor c (prefix_counts rebuilt) (rebuilt_pcs rebuilt) facts) acc l = Ok new →
    Forall (anchor_moved anchors) new) as Hall; [|by eapply (Hall anchors [])].
  clear E new. induction l as [|x l IH]; intros acc new Hsub Hacc; cbn [try_fold]; [by intros [= <-]|].
  intros (acc' & E & Hrest)%bind_Ok. eapply (IH acc'); [| |exact Hrest].
  - intros y Hy. apply Hsub. by right.
  - eapply anchor_step; [|done|done|exact E]. apply Hsub. by left.
Qed.
End metadata.

(** ** The theorem *)

(** [o] describes the rewritten code as [sources], [calls], [parameter_end],
    [prefix_start] and [anchors] describe the original. *)
Record renumbered (c : VerifiedControlFlow) (facts : ControlFlowFacts) (sources : list SourceInstruction)
    (calls : list Z) (parameter_end : option Z) (prefix_start : Z) (anchors : list ResolvedStackAnchor)
    (o : OptimizedControlFlow) : Prop := {
  renumbered_order i j : (i < length (instructions c))%nat → ControlFlowFacts.is_retained facts i = true →
    (i < j ↔ position_of facts (instructions c) i < position_of facts (instructions c) j)%nat;
  renumbered_sources i source : ControlFlowFacts.is_retained facts i = true → sources !! i = Some source →
    ∃ pc, optimized_sources o !! position_of facts (instructions c) i
      = Some (mkSourceInstruction pc (source_span source));
  renumbered_calls : optimized_eval_reference_calls o
    = (λ i, Z.of_nat (position_of facts (instructions c) (Z.to_nat i)))
        <$> filter (λ i, ControlFlowFacts.is_retained facts (Z.to_nat i) = true) calls;
  renumbered_parameter_end b : parameter_end = Some b → b < len (instructions c) →
    optimized_parameter_end o = Some (Z.of_nat (position_of facts (instructions c) (Z.to_nat b)));
  renumbered_prefix_start : prefix_start < len (instructions c) →
    optimized_prefix_start o = Z.of_nat (position_of facts (instructions c) (Z.to_nat prefix_start));
  renumbered_anchors new : new ∈ optimized_anchors o → ∃ old i source, old ∈ anchors ∧
    VerifiedControlFlowQueries.instruction_index_at c (anchor_pc old) = Some i ∧
    ControlFlowFacts.is_retained facts (Z.to_nat i) = true ∧
    anchor_span new = anchor_span old ∧ anchor_depth new = anchor_depth old ∧
    optimized_sources o !! position_of facts (instructions c) (Z.to_nat i) = Some source ∧
    source_pc source = anchor_pc new }.

(** C10.  The metadata follows the code: after a rewrite, every retained
    instruction keeps its source range at its new index, the retained direct
    [eval] calls are named by their new indices and the dropped ones are
    gone, the end of parameter initialization and the start of the
    initializer prefix part the retained instructions exactly as before, and
    every surviving statement anchor keeps its range and depth at the new
    position of an instruction it was on. *)
Theorem metadata_renumbered (a : Allocator) (identity : Z) (body : UnverifiedCompilerFunctionBody)
    (limits : VerificationLimits) (c : VerifiedControlFlow) (sources : list SourceInstruction) (calls : list Z)
    (parameter_end : option Z) (prefix_start : Z) (anchors : list ResolvedStackAnchor)
    (facts : ControlFlowFacts) (o : OptimizedControlFlow)
    (Hbc : byte_list (compiler_bytecode body)) (Hlim : limits_typed limits)
    (Hc : verify_compiler_control_flow body limits = Ok c)
    (Hs : validate_source_instructions c sources = Ok tt)
    (Ho : rebuild_optimized_control_flow identity c sources calls parameter_end prefix_start anchors facts limits = Ok o) :
  renumbered c facts sources calls parameter_end prefix_start anchors o.
Proof.
  unfold verify_compiler_control_flow in Hc.
  apply PipelineFacts.verify_common_Ok in Hc as Hok; [|done|destruct Hlim as (_ & ? & _); unfold is_u32, u32_max in *; lia].
  apply validate_sources_length in Hs. unfold rebuild_optimized_control_flow in Ho. inv_ok. subst o.
  rename select (negb _ = false) into Hn. apply negb_false_iff, Nat.eqb_eq in Hn.
  rename select (assemble_optimized_control_flow _ _ _ _ _ = _) into Has.
  destruct (assemble_Ok _ _ _ _ _ _ Hs (verified_operands _ _ _ _ _ Hbc Hok) Hlim Has) as (plan & out & Hplan & Hfin & _ & Hpcs).
  pose proof (λ sources' i v source, sources_at _ _ _ _ c Hbc Hok facts _ plan out Hplan Hfin Hpcs sources sources' i v source) as Hsrc.
  constructor; cbn.
  - intros i j. by eapply position_order.
  - intros i source Hk Hi. destruct (lookup_lt_is_Some_2 (instructions c) i) as [v Hv].
    { rewrite <- Hs. by eapply lookup_lt_Some. }
    destruct (Hsrc _ i v source ltac:(eassumption) Hv Hk Hi) as (pc & _ & Hpc). by exists pc.
  - by eapply instruction_list_remapped.
  - intros b -> Hb. inv_ok. subst. f_equal. by eapply boundary_remapped.
  - intros Hb. by eapply boundary_remapped.
  - intros new Hin. rename select (remap_stack_anchors _ _ _ _ _ = _) into Ha.
    eapply anchors_remapped in Ha; [|done|done]. apply (proj1 (Forall_forall _ _) Ha) in Hin as (old & i & Hold & Hi & Hk & Hsp & Hd & Hpc).
    assert (Z.to_nat i < length (instructions c))%nat as Hlt.
    { rewrite <- Hn. unfold ControlFlowFacts.instruction_count. unfold ControlFlowFacts.is_retained in Hk.
      destruct (retained facts !! Z.to_nat i) eqn:Er; [|done]. by eapply lookup_lt_Some. }
    destruct (lookup_lt_is_Some_2 (instructions c) _ Hlt) as [v Hv].
    destruct (lookup_lt_is_Some_2 sources (Z.to_nat i)) as [source Hsi]; [lia|].
    destruct (Hsrc _ _ v source ltac:(eassumption) Hv Hk Hsi) as (pc & Hpc' & Hnew).
    exists old, i, (mkSourceInstruction pc (source_span source)). split_and!; try done. cbn. congruence.
Qed.

(** The rewritten [if (true)] of [OptimizerCorrect]. *)
Definition folding_facts : ControlFlowFacts :=
  Eval vm_compute in
    match @analyze_control_flow always_allocates folding_original (inputs_constants folding_inputs) UNTRUSTED with
    | Ok facts => facts
    | Err _ => mkFacts [] []
    end.

Definition folding_rewritten : option OptimizedControlFlow :=
  Eval vm_compute in
    match @rebuild_optimized_control_flow always_allocates 2 folding_original (finished_sources folding_finished)
            [2; 4] (Some 3) 0 (finished_anchors folding_finished) folding_facts UNTRUSTED with
    | Ok o => Some o
    | Err _ => None
    end.

Lemma metadata_renumbered_witness :
  match folding_rewritten with
  | Some o => optimized_eval_reference_calls o = [2] ∧ optimized_parameter_end o = Some 3 ∧
      renumbered folding_original folding_facts (finished_sources folding_finished) [2; 4] (Some 3) 0
        (finished_anchors folding_finished) o
  | None => False
  end.
Proof.
  unfold folding_rewritten. split; [reflexivity|]. split; [reflexivity|].
  apply (metadata_renumbered always_allocates 2
    (mkUnverifiedCompiler (finished_bytecode folding_finished) (mkDomains 0 0 0 0 0) folding_header
       (Some (inputs_capture_layout folding_inputs)) (Some (inputs_constant_layout folding_inputs))) UNTRUSTED).
  - unfold byte_list, is_u8. repeat apply Forall_cons_2; try apply Forall_nil_2; simpl; lia.
  - unfold limits_typed. repeat split; vm_compute; discriminate.
  - vm_compute. reflexivity.
  - vm_compute. reflexivity.
  - vm_compute. reflexivity.
Defined.
