(* ===== verification/ControlFlowPlans.v ===== *)
(** * Plans of a function body

    The invariant the planning operations of [control_flow.rs] keep, the exact
    source table a finished plan has, and a plan on which the compiler's two
    verifications disagree. *)

From S2P Require Import Prelude Opcode Codec Function VerifierModel VerifierStack Verifier Assembler AssemblerFinish CompilerString AbstractValues Optimizer OptimizerRewrite EmissionFacts ControlFlow OptimizerCorrect.
From stdpp Require Import list relations.
Local Open Scope Z_scope.

(** ** Planning *)

(** One successful call of the lowering, with arguments of their Rust types. *)
Inductive planning_step `{Allocator} (p : PlannedControlFlow) : PlannedControlFlow → Prop :=
| step_emit i p' : Operands.in_range (planned_operands i) → emit p i = Ok p' → planning_step p p'
| step_label span depth label p' :
    new_label_with_expected_depth p span depth = Ok (label, p') → planning_step p p'
| step_branch kind label span p' :
    is_u32 (index (assembler_label label)) → plan_branch p kind label span = Ok p' → planning_step p p'
| step_with opcode atom value label span p' :
    is_u32 atom → is_u8 value → is_u32 (index (assembler_label label)) →
    plan_with_branch p opcode atom value label span = Ok p' → planning_step p p'
| step_bind label p' : is_u32 (index (assembler_label label)) → plan_bind p label = Ok p' → planning_step p p'
| step_parameters span p' : mark_parameter_initialization_end p span = Ok p' → planning_step p p'
| step_prefix span p' : mark_function_initializer_prefix_start p span = Ok p' → planning_step p p'
| step_push_base p' : push_statement_stack_base p = Ok p' → planning_step p p'
| step_pop_base span p' : pop_statement_stack_base p span = Ok p' → planning_step p p'.

(** One span per planned item, recorded indices and anchors inside the plan. *)
Record planned_ok (p : PlannedControlFlow) : Prop := {
  planned_assembler : PlanFacts.assembler_ok (assembler p);
  planned_spans : length (instruction_spans p) = length (items (assembler p));
  planned_labels : length (label_spans p) = length (label_bindings (assembler p));
  planned_calls : Forall (λ i, 0 ≤ i < len (instruction_spans p)) (eval_reference_call_instructions p);
  planned_anchors : Forall (λ a, (anchored_instruction a ≤ length (instruction_spans p))%nat) (stack_anchors p);
  planned_parameter_end b : parameter_initialization_end p = Some b → 0 ≤ b ≤ len (instruction_spans p);
  planned_prefix_start b : function_initializer_prefix_start p = Some b → 0 ≤ b ≤ len (instruction_spans p) }.

Section planning.
Context `{Allocator}.

(** The invariant after one more item and its span. *)
Lemma planned_item p plan item span fall calls : planned_ok p → appends (assembler p) plan [item] →
  Forall (λ i, 0 ≤ i < len (instruction_spans p) + 1) calls →
  planned_ok (push_instruction_span (set_eval_reference_calls (set_assembler p plan) calls) span fall).
Proof.
  intros [Ha Hs Hl Hc Han Hp Hx] (Hok & Hi & Hb & _) Hcalls. constructor; cbn; try done.
  - rewrite !length_app, Hs, Hi. rewrite length_app. done.
  - by rewrite Hb.
  - eapply Forall_impl; [exact Hcalls|]. intros i. unfold len. rewrite length_app. cbn. lia.
  - eapply Forall_impl; [exact Han|]. intros i. cbn. rewrite length_app. lia.
  - intros b Hb'. apply Hp in Hb'. unfold len in *. rewrite length_app. cbn. lia.
  - intros b Hb'. apply Hx in Hb'. unfold len in *. rewrite length_app. cbn. lia.
Qed.

Lemma calls_grow p : planned_ok p →
  Forall (λ i, 0 ≤ i < len (instruction_spans p) + 1) (eval_reference_call_instructions p).
Proof. intros Hp. eapply Forall_impl; [apply (planned_calls _ Hp)|]. cbn. intros. lia. Qed.

Lemma emit_ok p i p' : Operands.in_range (planned_operands i) → planned_ok p → emit p i = Ok p' → planned_ok p'.
Proof.
  intros Hr Hp E. unfold emit in E. inv_ok. match goal with x : Z * BytecodeAssembler |- _ => destruct x as [n plan] end. inv_ok. subst p'.
  rename select (assembly _ _ = _) into Hpush. apply map_err_Ok in Hpush.
  pose proof (PlanFacts.push_ok _ (planned_assembler _ Hp) _ _ _ _ Hr Hpush) as Hok.
  unfold push in Hpush. inv_ok. simplify_eq. rename select (push_item _ _ = _) into Hpi.
  apply push_item_appends in Hpi as (? & ? & ? & ?).
  assert (∀ item calls, items plan = items (assembler p) ++ [item] →
    Forall (λ i, 0 ≤ i < len (instruction_spans p) + 1) calls →
    planned_ok (push_instruction_span (set_eval_reference_calls (set_assembler p plan) calls) (planned_span i)
      (negb (ends_path (planned_opcode i))))) as Hall.
  { intros item calls Hi Hc. by eapply planned_item. }
  match goal with Hx : (if eval_reference_call i then _ else _) = Ok _ |- _ => destruct (eval_reference_call i); inv_ok; subst end.
  - rename select (u32_from_usize _ _ = _) into Hu. unfold u32_from_usize in Hu. inv_ok. apply try_u32_Some in Hu as [-> _].
    eapply Hall; [done|]. apply Forall_app.
    split; [exact (calls_grow p Hp)|]. constructor; [|constructor]. cbn. unfold len. lia.
  - by eapply (Hall _ (eval_reference_call_instructions p)); [|apply calls_grow].
Qed.

Lemma branch_step_ok p kind label span p' : is_u32 (index (assembler_label label)) → planned_ok p →
  plan_branch p kind label span = Ok p' → planned_ok p'.
Proof.
  intros Hr Hp E. unfold plan_branch in E. inv_ok.
  match goal with x : Z * BytecodeAssembler |- _ => destruct x as [n plan] end. inv_ok. subst p'.
  rename select (assembly _ _ = _) into Hb. apply map_err_Ok in Hb.
  pose proof (PlanFacts.branch_ok _ (planned_assembler _ Hp) _ _ _ _ Hr Hb) as Hok.
  unfold branch in Hb. inv_ok. simplify_eq. rename select (push_item _ _ = _) into Hpi.
  apply push_item_appends in Hpi. eapply (planned_item p plan _ _ _ (eval_reference_call_instructions p)); [done| |by apply calls_grow].
  by split.
Qed.

Lemma with_step_ok p opcode atom value label span p' : is_u32 atom → is_u8 value →
  is_u32 (index (assembler_label label)) → planned_ok p →
  plan_with_branch p opcode atom value label span = Ok p' → planned_ok p'.
Proof.
  intros Ha Hv Hr Hp E. unfold plan_with_branch in E. inv_ok.
  match goal with x : Z * BytecodeAssembler |- _ => destruct x as [n plan] end. inv_ok. subst p'.
  rename select (assembly _ _ = _) into Hb. apply map_err_Ok in Hb.
  pose proof (PlanFacts.with_branch_ok _ (planned_assembler _ Hp) _ _ _ _ _ _ Ha Hv Hr Hb) as Hok.
  unfold with_branch in Hb. inv_ok. simplify_eq. rename select (push_item _ _ = _) into Hpi.
  apply push_item_appends in Hpi. eapply (planned_item p plan _ _ _ (eval_reference_call_instructions p)); [done| |by apply calls_grow].
  by split.
Qed.

Lemma label_step_ok p span depth label p' : planned_ok p →
  new_label_with_expected_depth p span depth = Ok (label, p') → planned_ok p'.
Proof.
  intros [Ha Hs Hl Hc Han Hpe Hx] E. unfold new_label_with_expected_depth in E. inv_ok.
  match goal with x : AssemblerLabel * BytecodeAssembler |- _ => destruct x as [l plan] end. inv_ok. simplify_eq.
  rename select (assembly _ _ = _) into Hb. apply map_err_Ok in Hb.
  pose proof (PlanFacts.new_label_ok _ Ha _ _ Hb) as Hok. unfold new_label in Hb. inv_ok. simplify_eq.
  constructor; cbn; try done. by rewrite !length_app, Hl.
Qed.

Lemma bind_step_ok p label p' : planned_ok p → plan_bind p label = Ok p' → planned_ok p'.
Proof.
  intros [Ha Hs Hl Hc Han Hpe Hx] E. unfold plan_bind in E. inv_ok. subst p'.
  rename select (assembly _ _ = _) into Hb. apply map_err_Ok in Hb. rename x into plan.
  pose proof (PlanFacts.bind_ok _ Ha _ _ Hb) as Hok. unfold bind in Hb. inv_ok. subst plan.
  destruct (expected_stack_depth label); constructor; cbn in *; try done; try (by rewrite length_insert).
  apply Forall_app. split; [done|]. constructor; [cbn; lia|constructor].
Qed.

Lemma planning_ok p p' : planned_ok p → planning_step p p' → planned_ok p'.
Proof.
  intros Hp [i q Hr E|span depth label q E|kind label span q Hr E|o atom value label span q Ha Hv Hr E|label q Hr E|span q E|span q E|q E|span q E].
  - by eapply emit_ok.
  - by eapply label_step_ok.
  - by eapply branch_step_ok.
  - exact (with_step_ok p o atom value label span q Ha Hv Hr Hp E).
  - by eapply bind_step_ok.
  - unfold mark_parameter_initialization_end, u32_from_usize in E. inv_ok. subst q.
    rename select (try_u32 _ = _) into Hu. apply try_u32_Some in Hu as [-> _]. destruct Hp. constructor; cbn; try done.
    intros b [= <-]. unfold len. lia.
  - unfold mark_function_initializer_prefix_start, u32_from_usize in E. inv_ok. subst q.
    rename select (try_u32 _ = _) into Hu. apply try_u32_Some in Hu as [-> _]. destruct Hp. constructor; cbn; try done.
    intros b [= <-]. unfold len. lia.
  - unfold push_statement_stack_base in E. inv_ok. subst q. by destruct Hp.
  - unfold pop_statement_stack_base in E. inv_ok. subst q. by destruct Hp.
Qed.

Lemma start_planned_ok identity limits : limits_typed limits → planned_ok (new_planned identity limits).
Proof.
  intros Hl. constructor; cbn; try done. by apply PlanFacts.start_ok.
Qed.

Lemma planned_reachable_ok identity limits p : limits_typed limits →
  rtc planning_step (new_planned identity limits) p → planned_ok p.
Proof.
  intros Hl Hr. eapply (rtc_ind_r planned_ok); [by apply start_planned_ok| |exact Hr].
  intros q q' _ Hs Hq. by eapply planning_ok.
Qed.

(** ** The source table *)

Lemma finish_plan_Ok p f : finish_plan p = Ok f → ∃ out, finish (assembler p) = Ok out ∧
  finished_bytecode f = assembled_bytecode out ∧
  finished_sources f = zip_with mkSourceInstruction (instruction_pcs out) (instruction_spans p) ∧
  length (instruction_pcs out) = length (instruction_spans p).
Proof.
  intros E. unfold finish_plan in E. inv_ok. subst f.
  match goal with Hf : match finish _ with _ => _ end = Ok ?o |- _ => assert (finish (assembler p) = Ok o) as Hfin;
    [revert Hf; clear; intros Hf; destruct (finish (assembler p)) as [o'|[e|]]; [by injection Hf as ->| |done];
     destruct e; inv_ok; done|exists o] end.
  split; [done|]. cbn. split; [done|]. split; [done|].
  match goal with Hl : negb (length (instruction_pcs ?o) =? _)%nat = false |- _ => by apply negb_false_iff, Nat.eqb_eq in Hl end.
Qed.

Lemma source_table p f : planned_ok p → finish_plan p = Ok f →
  ∃ ds, byte_list (finished_bytecode f) ∧ decodes_to (finished_bytecode f) 0 ds ∧ length ds = length (instruction_spans p) ∧
    ∀ i d span, ds !! i = Some d → instruction_spans p !! i = Some span →
      finished_sources f !! i = Some (mkSourceInstruction (pc d) span).
Proof.
  intros Hp (out & Hfin & Hbytes & Hsrc & Hlen)%finish_plan_Ok.
  destruct (FinishFacts.finish_realizes _ out (planned_assembler _ Hp) Hfin) as (Hb & _ & ds & Hds & Hpcs & Hr).
  exists ds. rewrite Hbytes, Hsrc. split_and!; [done|done|by rewrite <- Hlen, <- Hpcs, length_map|].
  intros i d span Hd Hs. apply lookup_zip_with_Some. exists (pc d), span. split_and!; [done| |done].
  rewrite <- Hpcs. by apply (list_lookup_fmap_Some_2 pc ds i d).
Qed.
End planning.

(** C28.  Diagnoses land on the right source: whatever calls planned a
    function, once it is finished the lookup behind every verifier diagnosis
    answers a position exactly when an instruction starts there, with the
    range that instruction was planned with. *)
Theorem source_lookup_exact (a : Allocator) (identity : Z) (limits : VerificationLimits) (p : PlannedControlFlow)
    (f : FinishedControlFlow) (Hlim : limits_typed limits)
    (Hp : rtc planning_step (new_planned identity limits) p) (Hf : finish_plan p = Ok f) :
  ∃ ds, decodes_to (finished_bytecode f) 0 ds ∧ length ds = length (instruction_spans p) ∧
    ∀ q span, exact_source_span (finished_sources f) q = Some span ↔
      ∃ i d, ds !! i = Some d ∧ pc d = q ∧ instruction_spans p !! i = Some span.
Proof.
  apply planned_reachable_ok in Hp; [|done].
  destruct (source_table p f Hp Hf) as (ds & Hb & Hds & Hlen & Htab). exists ds. split_and!; [done|done|].
  assert (length (finished_sources f) = length ds) as Hsl.
  { apply finish_plan_Ok in Hf as (out & _ & _ & -> & Hl). rewrite length_zip_with, Hlen. lia. }
  assert (Hboth : ∀ i s, finished_sources f !! i = Some s → ∃ d, ds !! i = Some d ∧ pc d = source_pc s ∧
    instruction_spans p !! i = Some (source_span s)).
  { intros i s Hs. pose proof (lookup_lt_Some _ _ _ Hs) as Hlt.
    destruct (lookup_lt_is_Some_2 ds i) as [d Hd]; [lia|].
    destruct (lookup_lt_is_Some_2 (instruction_spans p) i) as [span Hspan]; [lia|].
    pose proof (Htab i d span Hd Hspan) as Ht. exists d. by simplify_eq. }
  assert (strictly_ascending source_pc (finished_sources f)) as Hasc.
  { intros i j x y Hx Hy Hij. destruct (Hboth i x Hx) as (d & Hd & <- & _), (Hboth j y Hy) as (d' & Hd' & <- & _).
    by eapply (StreamFacts.decodes_to_sorted _ Hb). }
  intros q span. unfold exact_source_span. split.
  - intros (i & (s & Hs & <-)%(binary_search_Some _ _ _ Hasc) & Hsp)%bind_Some. rewrite Hs in Hsp. injection Hsp as <-.
    destruct (Hboth i s Hs) as (d & Hd & Hpc & Hspan). by exists i, d.
  - intros (i & d & Hd & <- & Hspan). pose proof (Htab i d span Hd Hspan) as Hs.
    rewrite (proj2 (binary_search_Some source_pc (pc d) _ Hasc i)) by (by eexists). cbn. by rewrite Hs.
Qed.

(** [return 1;], one range per instruction. *)
Definition small_plan : PlannedControlFlow :=
  Eval vm_compute in
    match (p ← @emit always_allocates (new_planned 1 UNTRUSTED)
                 (PlannedInstruction.new FinalOpcode.Push1 Operands.NoneInt (mkSpan 7 8));
           @emit always_allocates p (PlannedInstruction.new FinalOpcode.Return Operands.None (mkSpan 0 9))) with
    | Ok p => p
    | Err _ => new_planned 1 UNTRUSTED
    end.

Definition small_finished : FinishedControlFlow :=
  Eval vm_compute in
    match @finish_plan always_allocates small_plan with Ok f => f | Err _ => mkFinished [] [] [] None 0 [] end.

Lemma source_lookup_exact_witness :
  ∃ ds, decodes_to (finished_bytecode small_finished) 0 ds ∧ length ds = 2%nat ∧
    ∀ q span, exact_source_span (finished_sources small_finished) q = Some span ↔
      ∃ i d, ds !! i = Some d ∧ pc d = q ∧ instruction_spans small_plan !! i = Some span.
Proof.
  apply (source_lookup_exact always_allocates 1 UNTRUSTED small_plan small_finished).
  - unfold limits_typed. repeat split; vm_compute; discriminate.
  - eapply rtc_l; [eapply (step_emit _ (PlannedInstruction.new FinalOpcode.Push1 Operands.NoneInt (mkSpan 7 8)));
      [exact I|vm_compute; reflexivity]|].
    eapply rtc_l; [eapply (step_emit _ (PlannedInstruction.new FinalOpcode.Return Operands.None (mkSpan 0 9)));
      [exact I|vm_compute; reflexivity]|]. apply rtc_refl.
  - vm_compute. reflexivity.
Defined.

(** ** A dead loop *)

(** Planned by hand: a loop body that initializes a local, returns it and
    is followed by the test of an argument and the back edge, the shape of
    [do { let x = 1; return x; } while (a)]. *)
Definition dead_loop_plan `{Allocator} : leaf FinishedControlFlow :=
  let span := mkSpan 0 1 in
  let planned o operands := PlannedInstruction.new o operands span in
  '(iteration, p) ← new_statement_label (new_planned 1 UNTRUSTED) span;
  '(test, p) ← new_statement_label p span;
  '(done, p) ← new_statement_label p span;
  p ← plan_bind p iteration;
  p ← emit p (planned FinalOpcode.SetLocUninitialized (Operands.Loc 0));
  p ← emit p (planned FinalOpcode.Push1 Operands.NoneInt);
  p ← emit p (planned FinalOpcode.PutLoc0 Operands.NoneLoc);
  p ← emit p (planned FinalOpcode.GetLoc0 Operands.NoneLoc);
  p ← emit p (planned FinalOpcode.Return Operands.None);
  p ← plan_bind p test;
  p ← emit p (planned FinalOpcode.GetArg0 Operands.NoneArg);
  p ← plan_branch p BranchKind.IfTrue iteration span;
  p ← plan_bind p done;
  p ← ensure_terminal p span;
  finish_plan p.

(** The optimizer can break a valid function: the plan above verifies, but the
    dead back edge kept for its loop activation becomes the last instruction,
    no terminal is added after a branch, and the second verification rejects
    the rewritten code. *)
Example dead_loop_rejected :
  let domains := mkDomains 0 0 1 1 0 in
  let header := UnverifiedFunctionHeader.ordinary_source_function false 1 in
  ∃ f c e, @dead_loop_plan always_allocates = Ok f ∧
    @verify_staged_control_flow always_allocates (finished_bytecode f) domains header
      (inputs_capture_layout folding_inputs) (inputs_constant_layout folding_inputs) UNTRUSTED (finished_sources f) = Ok c ∧
    @verify_with_inputs always_allocates 2 f domains header folding_inputs UNTRUSTED
      = Err (Leaf (LeafCompilationError.BytecodeVerification (Some (mkSpan 0 1)) None e)) ∧
    opcode_at <$> last (instructions c) = Some FinalOpcode.ReturnUndef ∧
    error_pc e = Some 7.
Proof.
  do 3 eexists. split; [vm_compute; reflexivity|]. split; [vm_compute; reflexivity|].
  split; [vm_compute; reflexivity|]. split; vm_compute; reflexivity.
Qed.
