(* ===== verification/Sources.v ===== *)
(** * Source texts and positions

    Models [crates/fusor-diagnostics/src/source.rs]: registered source texts,
    byte spans, the index of line starts, conversion between byte offsets and
    lines with columns in three units, and line-aligned excerpts.  A [&str] is
    the list of its Unicode scalar values; offsets count the bytes of its UTF-8
    form, and slicing at an offset inside a character panics as in Rust.  The
    incoming source map of a file is data of a type of its own, which
    [SourceMaps] fills in. *)

From S2P Require Import Prelude RuntimePrelude.
From stdpp Require Import list gmap.
Local Open Scope Z_scope.

(** ** Text *)

(** [char::len_utf8] and [char::len_utf16] *)
Definition len_utf8 (c : Z) : Z :=
  if c <? 0x80 then 1 else if c <? 0x800 then 2 else if c <? 0x10000 then 3 else 4.
Definition len_utf16 (c : Z) : Z := if c <? 0x10000 then 1 else 2.

(** [str::len] *)
Fixpoint byte_len (text : list Z) : Z :=
  match text with [] => 0 | c :: text => len_utf8 c + byte_len text end.

(** The parts of a text before and from a byte offset, when the offset is the
    start of a character or the end. *)
Fixpoint char_split (offset : Z) (text : list Z) : option (list Z * list Z) :=
  if offset =? 0 then Some ([], text) else
  match text with
  | [] => None
  | c :: text =>
      match char_split (offset - len_utf8 c) text with
      | Some (before, after) => Some (c :: before, after)
      | None => None
      end
  end.

(** [str::is_char_boundary] *)
Definition is_char_boundary (text : list Z) (offset : Z) : bool :=
  match char_split offset text with Some _ => true | None => false end.

(** [&text[start..end]], [None] where it panics. *)
Definition str_slice (text : list Z) (start end_ : Z) : option (list Z) :=
  '(_, rest) ← char_split start text;
  '(part, _) ← char_split (end_ - start) rest;
  Some part.

(** [str::ends_with] *)
Definition ends_with (text suffix : list Z) : bool :=
  bool_decide (drop (length text - length suffix) text = suffix).

(** [slice::partition_point]: on a partitioned slice, how many elements satisfy
    the predicate. *)
Fixpoint partition_point {A} (predicate : A → bool) (l : list A) : nat :=
  match l with
  | [] => O
  | x :: l => if predicate x then S (partition_point predicate l) else O
  end.

(** ** Errors *)

Module SourceError.
Inductive SourceError : Set :=
| EmptySourceName
| DuplicateSourceName (name : list Z)
| SourceTooLarge (bytes : Z)
| TooManySources
| ForeignSourceId
| UnknownSourceId (index : Z)
| InvalidRange (start end_ source_len : Z)
| InvalidUtf8Boundary (offset : Z)
| InvalidSourceMapPosition (line column : Z).
End SourceError.
Notation SourceError := SourceError.SourceError.
Import SourceError.

(** ** Byte spans *)

Record ByteSpan : Set := mkByteSpan { span_first : Z; span_limit : Z }.

Module ByteSpan.
Definition new (source : list Z) (start end_ : Z) : result SourceError ByteSpan :=
  let bytes := byte_len source in
  ok_or (try_u32 bytes) (SourceTooLarge bytes) ;;
  reject_if ((end_ <? start) || (bytes <? end_)) (InvalidRange start end_ bytes) ;;
  reject_if (negb (is_char_boundary source start)) (InvalidUtf8Boundary start) ;;
  reject_if (negb (is_char_boundary source end_)) (InvalidUtf8Boundary end_) ;;
  start ← ok_or (try_u32 start) (SourceTooLarge bytes);
  end_ ← ok_or (try_u32 end_) (SourceTooLarge bytes);
  Ok (mkByteSpan start end_).
End ByteSpan.

(** ** Lines *)

Module ColumnEncoding.
Inductive ColumnEncoding : Set := Utf8Byte | UnicodeScalar | Utf16CodeUnit.
End ColumnEncoding.
Notation ColumnEncoding := ColumnEncoding.ColumnEncoding.

(** One-based. *)
Record LineColumn : Set := mkLineColumn { lc_line : Z; lc_column : Z }.

Record LineIndex : Set := mkLineIndex { starts : list Z }.

Definition CR : Z := 0x0d.
Definition LF : Z := 0x0a.
Definition is_line_terminator (c : Z) : bool :=
  (c =? CR) || (c =? LF) || (c =? 0x2028) || (c =? 0x2029).

(** Columns of a line's prefix. *)
Definition column_units (encoding : ColumnEncoding) (prefix : list Z) : Z :=
  match encoding with
  | ColumnEncoding.Utf8Byte => byte_len prefix
  | ColumnEncoding.UnicodeScalar => len prefix
  | ColumnEncoding.Utf16CodeUnit => foldr (λ c units, len_utf16 c + units) 0 prefix
  end.

Definition validate_offset (source : list Z) (offset : Z) : result SourceError unit :=
  reject_if (byte_len source <? offset) (InvalidRange offset offset (byte_len source)) ;;
  reject_if (negb (is_char_boundary source offset)) (InvalidUtf8Boundary offset).

Module LineIndex.
Definition push_start (bytes offset : Z) (starts : list Z) : result SourceError (list Z) :=
  start ← ok_or (try_u32 offset) (SourceTooLarge bytes);
  Ok (starts ++ [start]).

(** The loop of [new] over the text from [offset] on; the byte after a carriage
    return is a line feed when the next character is. *)
Fixpoint scan (bytes offset : Z) (remainder starts : list Z) : result SourceError (list Z) :=
  match remainder with
  | [] => Ok starts
  | character :: rest =>
      let width := len_utf8 character in
      if character =? CR then
        match rest with
        | next :: after =>
            if next =? LF then
              starts ← push_start bytes (offset + 2) starts; scan bytes (offset + 2) after starts
            else starts ← push_start bytes (offset + width) starts; scan bytes (offset + width) rest starts
        | [] => starts ← push_start bytes (offset + width) starts; scan bytes (offset + width) rest starts
        end
      else if is_line_terminator character then
        starts ← push_start bytes (offset + width) starts; scan bytes (offset + width) rest starts
      else scan bytes (offset + width) rest starts
  end.

Definition new (source : list Z) : result SourceError LineIndex :=
  ok_or (try_u32 (byte_len source)) (SourceTooLarge (byte_len source)) ;;
  starts ← scan (byte_len source) 0 source [0];
  Ok (mkLineIndex starts).

Definition line_index_at (self : LineIndex) (byte_offset : Z) : nat :=
  Nat.pred (partition_point (λ start, start <=? byte_offset) (starts self)).

Definition position (self : LineIndex) (source : list Z) (byte_offset : Z) (encoding : ColumnEncoding) :
    outcome SourceError LineColumn :=
  lift (validate_offset source byte_offset) ;;
  let line_index := line_index_at self byte_offset in
  line_start ← expect (starts self !! line_index);
  prefix ← expect (str_slice source line_start byte_offset);
  Ok (mkLineColumn (Z.of_nat line_index + 1) (column_units encoding prefix + 1)).

Definition line_content_end (self : LineIndex) (source : list Z) (line_index : nat) :
    outcome SourceError Z :=
  let next_start := from_option id (byte_len source) (starts self !! S line_index) in
  line_start ← expect (starts self !! line_index);
  line ← expect (str_slice source line_start next_start);
  Ok (if ends_with line [CR; LF] then next_start - 2
      else if ends_with line [CR] || ends_with line [LF] then next_start - 1
      else if ends_with line [0x2028] || ends_with line [0x2029] then next_start - len_utf8 0x2028
      else next_start).

(** The loop over the characters of a line's content. *)
Fixpoint seek (e : SourceError) (column line_start line_end relative utf16_column : Z)
    (content : list Z) : result SourceError Z :=
  match content with
  | [] => if utf16_column =? column then Ok line_end else Err e
  | character :: content =>
      if utf16_column =? column then Ok (line_start + relative) else
      let width := if len_utf16 character =? 1 then 1 else 2 in
      let next_column := Z.min (utf16_column + width) u32_max in
      if column <? next_column then Err e
      else seek e column line_start line_end (relative + len_utf8 character) next_column content
  end.

Definition byte_offset_for_source_map_position (self : LineIndex) (source : list Z) (line column : Z) :
    outcome SourceError Z :=
  let e := InvalidSourceMapPosition line column in
  line_index ← lift (ok_or (try_usize line) e);
  line_start ← lift (ok_or (starts self !! line_index) e);
  line_end ← line_content_end self source line_index;
  content ← expect (str_slice source line_start line_end);
  lift (seek e column line_start line_end 0 0 content).
End LineIndex.

(** ** Files and registries *)

Record SourceId : Set := mkSourceId { id_registry : Z; id_index : Z }.
#[global] Instance SourceId_eq_dec : EqDecision SourceId.
Proof. solve_decision. Defined.

Record SourceSpan : Set := mkSourceSpan { span_source : SourceId; span_bytes : ByteSpan }.

Record SourceSnippet : Set := mkSnippet {
  snippet_source_name : list Z;
  snippet_text : list Z;
  snippet_highlight : ByteSpan;
  snippet_starts_at : LineColumn }.

Record SourceFile (Map : Type) := mkSourceFile {
  display_name : list Z;
  file_text : list Z;
  file_lines : LineIndex;
  incoming_source_map : option Map }.
Arguments mkSourceFile {Map}.
Arguments display_name {Map}.
Arguments file_text {Map}.
Arguments file_lines {Map}.
Arguments incoming_source_map {Map}.

(** The identity of a registry is the address of an allocation of its own. *)
Record SourceRegistry (Map : Type) := mkSourceRegistry {
  identity : Z;
  files : list (SourceFile Map);
  names : gmap (list Z) Z }.
Arguments mkSourceRegistry {Map}.
Arguments identity {Map}.
Arguments files {Map}.
Arguments names {Map}.

Module SourceRegistry.
Section registry.
Context {Map : Type}.
Implicit Types self : SourceRegistry Map.

Definition new (identity : Z) : SourceRegistry Map := mkSourceRegistry identity [] ∅.

Definition register_with_source_map self (display_name text : list Z) (incoming_source_map : option Map) :
    result SourceError (SourceId * SourceRegistry Map) :=
  reject_if (bool_decide (display_name = [])) EmptySourceName ;;
  reject_if (bool_decide (is_Some (names self !! display_name))) (DuplicateSourceName display_name) ;;
  index ← ok_or (try_u32 (len (files self))) TooManySources;
  line_index ← LineIndex.new text;
  Ok (mkSourceId (identity self) index,
      mkSourceRegistry (identity self)
        (files self ++ [mkSourceFile display_name text line_index incoming_source_map])
        (<[display_name := index]> (names self))).

Definition register self (display_name text : list Z) : result SourceError (SourceId * SourceRegistry Map) :=
  register_with_source_map self display_name text None.

Definition source self (source_id : SourceId) : result SourceError (SourceFile Map) :=
  reject_if (negb (identity self =? id_registry source_id)) ForeignSourceId ;;
  ok_or (files self !! Z.to_nat (id_index source_id)) (UnknownSourceId (id_index source_id)).

(** [source_mut(source_id)?.incoming_source_map = source_map] *)
Definition set_source_map self (source_id : SourceId) (source_map : option Map) :
    result SourceError (SourceRegistry Map) :=
  file ← source self source_id;
  Ok (mkSourceRegistry (identity self)
        (<[Z.to_nat (id_index source_id) :=
           mkSourceFile (display_name file) (file_text file) (file_lines file) source_map]> (files self))
        (names self)).

Definition source_id_by_name self (display_name : list Z) : option SourceId :=
  mkSourceId (identity self) <$> names self !! display_name.

Definition span self (source_id : SourceId) (start end_ : Z) : result SourceError SourceSpan :=
  file ← source self source_id;
  bytes ← ByteSpan.new (file_text file) start end_;
  Ok (mkSourceSpan source_id bytes).

Definition position_with_encoding self (source_id : SourceId) (byte_offset : Z) (encoding : ColumnEncoding) :
    outcome SourceError LineColumn :=
  file ← lift (source self source_id);
  LineIndex.position (file_lines file) (file_text file) byte_offset encoding.

Definition position self (source_id : SourceId) (byte_offset : Z) : outcome SourceError LineColumn :=
  position_with_encoding self source_id byte_offset ColumnEncoding.UnicodeScalar.

(** The slices and the indexing of [starts] panic out of range, and so do the
    subtractions that make the highlight relative. *)
Definition snippet self (span : SourceSpan) (context_lines_before context_lines_after : nat) :
    outcome SourceError SourceSnippet :=
  file ← lift (source self (span_source span));
  let start := span_first (span_bytes span) in
  let end_ := span_limit (span_bytes span) in
  let start_line := LineIndex.line_index_at (file_lines file) start in
  let last_highlighted_byte := if start =? end_ then start else Z.max (end_ - 1) 0 in
  let end_line := LineIndex.line_index_at (file_lines file) last_highlighted_byte in
  let first_line := (start_line - context_lines_before)%nat in
  let final_line := Nat.min (end_line + context_lines_after) (length (starts (file_lines file)) - 1) in
  excerpt_start ← expect (starts (file_lines file) !! first_line);
  let excerpt_end := from_option id (byte_len (file_text file)) (starts (file_lines file) !! S final_line) in
  text ← expect (str_slice (file_text file) excerpt_start excerpt_end);
  relative_start ← expect (if start <? excerpt_start then None else Some (start - excerpt_start));
  relative_end ← expect (if end_ <? excerpt_start then None else Some (end_ - excerpt_start));
  highlight ← lift (ByteSpan.new text relative_start relative_end);
  starts_at ← LineIndex.position (file_lines file) (file_text file) excerpt_start ColumnEncoding.UnicodeScalar;
  Ok (mkSnippet (display_name file) text highlight starts_at).
End registry.
End SourceRegistry.
