(* ===== verification/SourceMaps.v ===== *)
(** * Resolution through source maps

    Models the lookup and resolution of
    [crates/fusor-diagnostics/src/source_map.rs]: one lookup in a decoded map,
    and the chain of lookups from a generated position to the deepest original
    one.  The decoded map is data of a library; what the code asks of it is the
    class [DecodedMaps]. *)

From S2P Require Import Prelude RuntimePrelude Sources.
From stdpp Require Import list gmap.
Local Open Scope Z_scope.

(** Zero-based, with UTF-16 columns. *)
Record SourceMapPosition : Set := mkPosition { pos_line : Z; pos_column : Z }.
#[global] Instance SourceMapPosition_eq_dec : EqDecision SourceMapPosition.
Proof. solve_decision. Defined.

Module SourceMapErrorKind.
Inductive SourceMapErrorKind : Set :=
| InputTooLarge
| InvalidJson
| InvalidDocument
| UnsupportedVersion
| UnsupportedFormat
| MalformedMappings
| DecoderPanicked
| LookupPanicked
| UnresolvedSection
| InvalidPosition
| ChainCycle
| ChainDepthExceeded.
End SourceMapErrorKind.
Notation SourceMapErrorKind := SourceMapErrorKind.SourceMapErrorKind.
Import SourceMapErrorKind.

(** The message is not kept. *)
Record SourceMapError : Set := mkSourceMapError {
  error_kind : SourceMapErrorKind;
  error_source : option SourceError }.

Module SourceMapError.
Definition new (kind : SourceMapErrorKind) : SourceMapError := mkSourceMapError kind None.
Definition from_source (source : SourceError) : SourceMapError := mkSourceMapError InvalidPosition (Some source).
End SourceMapError.

Record SourceMapMapping : Set := mkMapping {
  mapping_source_name : list Z;
  mapping_original : SourceMapPosition;
  mapping_name : option (list Z);
  mapping_source_content : option (list Z) }.

(** ** Decoded maps *)

(** A token, as its getters answer. *)
Record Token : Set := mkToken {
  has_source : bool;
  get_src_line : Z;
  get_src_col : Z;
  get_source : option (list Z);
  get_source_view : option (list Z);
  get_name : option (list Z) }.

Record MapSection (D : Type) := mkSection {
  get_offset : Z * Z;
  get_sourcemap : option D;
  get_url : option (list Z) }.
Arguments get_offset {D}.
Arguments get_sourcemap {D}.
Arguments get_url {D}.

(** The library's decoded maps: the sections of an indexed one, and the token
    that covers a position, where a lookup may unwind.  Embedded maps nest
    finitely. *)
Class DecodedMaps (D : Type) := {
  index_sections : D → option (list (MapSection D));
  lookup_token : D → Z → Z → option (option Token);
  nesting : D → nat }.

Class NestedMaps (D : Type) `{DecodedMaps D} : Prop :=
  nested_deeper : ∀ map sections section nested, index_sections map = Some sections →
    section ∈ sections → get_sourcemap section = Some nested → (nesting nested < nesting map)%nat.

(** Comparison of pairs of [u32]. *)
Definition pair_le (a b : Z * Z) : bool := (a.1 <? b.1) || ((a.1 =? b.1) && (a.2 <=? b.2)).

(** [iter().take_while(p).last()] *)
Fixpoint last_while {A} (p : A → bool) (found : option A) (l : list A) : option A :=
  match l with
  | [] => found
  | x :: l => if p x then last_while p (Some x) l else found
  end.

(** [a - b] on [u32] *)
Definition sub_or_panic {E} (a b : Z) : outcome E Z := expect (if a <? b then None else Some (a - b)).

Definition unnamed_section : list Z := ascii_chars "<unnamed section>".

Section maps.
Context {D : Type} `{DecodedMaps D}.

Fixpoint unresolved_section_url (fuel : nat) (map : D) (line column : Z) :
    outcome SourceMapError (option (list Z)) :=
  match fuel with
  | O => Err OutOfFuel
  | S fuel =>
      match index_sections map with
      | None => Ok None
      | Some sections =>
          match last_while (λ section, pair_le (get_offset section) (line, column)) None sections with
          | None => Ok None
          | Some section =>
              let '(offset_line, offset_column) := get_offset section in
              nested_line ← sub_or_panic line offset_line;
              nested_column ← if line =? offset_line then sub_or_panic column offset_column else Ok column;
              match get_sourcemap section with
              | Some nested => unresolved_section_url fuel nested nested_line nested_column
              | None => Ok (Some (default unnamed_section (get_url section)))
              end
          end
      end
  end.

(** The closure of [lookup]. *)
Definition lookup_mapping (map : D) (generated : SourceMapPosition) :
    outcome SourceMapError (option SourceMapMapping) :=
  url ← unresolved_section_url (S (nesting map)) map (pos_line generated) (pos_column generated);
  match url with
  | Some _ => Err (Fail (SourceMapError.new UnresolvedSection))
  | None =>
      token ← expect (lookup_token map (pos_line generated) (pos_column generated));
      match token with
      | None => Ok None
      | Some token =>
          if negb (has_source token) || (get_src_line token =? u32_max) || (get_src_col token =? u32_max)
          then Ok None else
          source_name ← lift (ok_or (get_source token) (SourceMapError.new MalformedMappings));
          Ok (Some (mkMapping source_name (mkPosition (get_src_line token) (get_src_col token))
                      (get_name token) (get_source_view token)))
      end
  end.

(** An unwinding lookup is caught and reported. *)
Definition lookup (map : D) (generated : SourceMapPosition) :
    outcome SourceMapError (option SourceMapMapping) :=
  match lookup_mapping map generated with
  | Err Panic => Err (Fail (SourceMapError.new LookupPanicked))
  | outcome => outcome
  end.
End maps.

(** ** Resolution *)

Record OriginalLocation : Set := mkOriginal {
  original_source_name : list Z;
  original_source_id : option SourceId;
  original_position : SourceMapPosition;
  original_embedded_source : option (list Z) }.

Record ResolvedLocation : Set := mkResolved {
  generated_source : SourceId;
  generated_position : SourceMapPosition;
  resolved_original : OriginalLocation;
  resolved_name : option (list Z);
  hops : nat }.

Definition is_mapped (self : ResolvedLocation) : bool := negb (hops self =? 0)%nat.

Record ResolvedSpan : Set := mkResolvedSpan {
  generated_span : SourceSpan;
  mapped_span : option SourceSpan;
  resolved_location : ResolvedLocation }.

Definition display_span (self : ResolvedSpan) : SourceSpan := default (generated_span self) (mapped_span self).

(** The mutable locals of the resolution loop. *)
Record Resolution : Set := mkResolution {
  current_id : SourceId;
  current_position : SourceMapPosition;
  current_original : OriginalLocation;
  current_name : option (list Z);
  current_hops : nat;
  visited : list (SourceId * SourceMapPosition) }.

Definition DEFAULT_MAX_CHAIN_DEPTH : nat := 32.

(** An outcome of the registry, as an error of the resolution. *)
Definition from_registry {A} (m : outcome SourceError A) : outcome SourceMapError A :=
  map_err (λ e, match e with
                | Fail source => Fail (SourceMapError.from_source source)
                | Panic => Panic
                | OutOfFuel => OutOfFuel
                end) m.

Section resolution.
Context {D : Type} `{DecodedMaps D}.
Implicit Types self : SourceRegistry D.

Definition source_map_position self (source_id : SourceId) (byte_offset : Z) :
    outcome SourceError SourceMapPosition :=
  position ← SourceRegistry.position_with_encoding self source_id byte_offset ColumnEncoding.Utf16CodeUnit;
  line ← lift (ok_or (try_u32 (lc_line position - 1)) (SourceError.InvalidSourceMapPosition u32_max 0));
  column ← lift (ok_or (try_u32 (lc_column position - 1)) (SourceError.InvalidSourceMapPosition line u32_max));
  Ok (mkPosition line column).

Definition byte_offset_for_source_map_position self (source_id : SourceId) (position : SourceMapPosition) :
    outcome SourceError Z :=
  file ← lift (SourceRegistry.source self source_id);
  LineIndex.byte_offset_for_source_map_position (file_lines file) (file_text file)
    (pos_line position) (pos_column position).

Definition validate_source_map_position (file : SourceFile D) (position : SourceMapPosition) :
    outcome SourceError unit :=
  LineIndex.byte_offset_for_source_map_position (file_lines file) (file_text file)
    (pos_line position) (pos_column position) ;; Ok tt.

(** One turn of the loop: the next state, or the last one. *)
Definition resolve_step self (max_depth : nat) (state : Resolution) :
    outcome SourceMapError (Resolution + Resolution) :=
  file ← from_registry (lift (SourceRegistry.source self (current_id state)));
  from_registry (validate_source_map_position file (current_position state)) ;;
  match incoming_source_map file with
  | None => Ok (inr state)
  | Some source_map =>
      let here := (current_id state, current_position state) in
      if bool_decide (here ∈ visited state) then Err (Fail (SourceMapError.new ChainCycle)) else
      let visited := here :: visited state in
      mapping ← lookup source_map (current_position state);
      match mapping with
      | None => Ok (inr state)
      | Some mapping =>
          if (current_hops state =? max_depth)%nat
          then Err (Fail (SourceMapError.new ChainDepthExceeded)) else
          let hops := S (current_hops state) in
          let name := match mapping_name mapping with Some name => Some name | None => current_name state end in
          let next_id := SourceRegistry.source_id_by_name self (mapping_source_name mapping) in
          let original := mkOriginal (mapping_source_name mapping) next_id (mapping_original mapping)
                            (mapping_source_content mapping) in
          Ok match next_id with
             | None => inr (mkResolution (current_id state) (current_position state) original name hops visited)
             | Some next_id => inl (mkResolution next_id (original_position original) original name hops visited)
             end
      end
  end.

Fixpoint resolve_loop self (max_depth fuel : nat) (state : Resolution) : outcome SourceMapError Resolution :=
  match fuel with
  | O => Err OutOfFuel
  | S fuel =>
      next ← resolve_step self max_depth state;
      match next with
      | inl state => resolve_loop self max_depth fuel state
      | inr state => Ok state
      end
  end.

Definition resolve_original_with_limit self (generated_source : SourceId)
    (generated_position : SourceMapPosition) (max_depth : nat) : outcome SourceMapError ResolvedLocation :=
  generated_file ← from_registry (lift (SourceRegistry.source self generated_source));
  from_registry (validate_source_map_position generated_file generated_position) ;;
  state ← resolve_loop self max_depth (S max_depth)
    (mkResolution generated_source generated_position
       (mkOriginal (display_name generated_file) (Some generated_source) generated_position None) None 0 []);
  Ok (mkResolved generated_source generated_position (current_original state) (current_name state)
        (current_hops state)).

Definition resolve_original self (generated_source : SourceId) (generated_position : SourceMapPosition) :
    outcome SourceMapError ResolvedLocation :=
  resolve_original_with_limit self generated_source generated_position DEFAULT_MAX_CHAIN_DEPTH.

Definition resolve_span_with_limit self (span : SourceSpan) (max_depth : nat) :
    outcome SourceMapError ResolvedSpan :=
  let start := span_first (span_bytes span) in
  let end_ := span_limit (span_bytes span) in
  generated_span ← from_registry (lift (SourceRegistry.span self (span_source span) start end_));
  start_position ← from_registry (source_map_position self (span_source span) start);
  location ← resolve_original_with_limit self (span_source span) start_position max_depth;
  mapped_span ←
    (if is_mapped location then
       match original_source_id (resolved_original location) with
       | Some mapped_source =>
           start ← from_registry (byte_offset_for_source_map_position self mapped_source
                                    (original_position (resolved_original location)));
           end_position ← from_registry (source_map_position self (span_source span) end_);
           end_location ← resolve_original_with_limit self (span_source span) end_position max_depth;
           end_ ← (if bool_decide (original_source_id (resolved_original end_location) = Some mapped_source) then
                     end_ ← from_registry (byte_offset_for_source_map_position self mapped_source
                                             (original_position (resolved_original end_location)));
                     Ok (Z.max end_ start)
                   else Ok start);
           Some <$> from_registry (lift (SourceRegistry.span self mapped_source start end_))
       | None => Ok None
       end
     else Ok None);
  Ok (mkResolvedSpan generated_span mapped_span location).

Definition resolve_span self (span : SourceSpan) : outcome SourceMapError ResolvedSpan :=
  resolve_span_with_limit self span DEFAULT_MAX_CHAIN_DEPTH.
End resolution.
