(* ===== verification/SourceFacts.v ===== *)
(** * Lines, positions and excerpts

    The lines of a text, defined without offsets, and what the line index makes
    of them: positions name the line and column of a byte offset, source-map
    positions and offsets are inverse to each other, and excerpts are whole
    lines around the highlighted text. *)

From S2P Require Import Prelude RuntimePrelude Sources.
From stdpp Require Import list gmap relations.
Local Open Scope Z_scope.

(** ** Byte lengths *)

Lemma len_utf8_bounds c : 1 ≤ len_utf8 c ≤ 4.
Proof. unfold len_utf8. repeat case_match; lia. Qed.

Lemma len_utf16_bounds c : 1 ≤ len_utf16 c ≤ 2 ∧ len_utf16 c ≤ len_utf8 c.
Proof. unfold len_utf16, len_utf8. repeat case_match; bool_to_prop; lia. Qed.

Lemma byte_len_app a b : byte_len (a ++ b) = byte_len a + byte_len b.
Proof. induction a; simpl; lia. Qed.

Lemma byte_len_length a : len a ≤ byte_len a.
Proof. unfold len. induction a as [|c a IH]; simpl; [lia|]. pose proof (len_utf8_bounds c). lia. Qed.

Lemma byte_len_nonneg a : 0 ≤ byte_len a.
Proof. pose proof (byte_len_length a). unfold len in *. lia. Qed.

Lemma byte_len_pos a : a ≠ [] → 0 < byte_len a.
Proof. destruct a as [|c a]; [done|]. intros _. simpl. pose proof (len_utf8_bounds c). pose proof (byte_len_nonneg a). lia. Qed.

Lemma char_split_app a b : char_split (byte_len a) (a ++ b) = Some (a, b).
Proof.
  induction a as [|c a IH]; simpl.
  - by destruct b.
  - pose proof (len_utf8_bounds c). pose proof (byte_len_nonneg a).
    destruct (Z.eqb_spec (len_utf8 c + byte_len a) 0); [lia|].
    replace (len_utf8 c + byte_len a - len_utf8 c) with (byte_len a) by lia. by rewrite IH.
Qed.

Lemma char_split_Some offset text a b :
  char_split offset text = Some (a, b) ↔ text = a ++ b ∧ byte_len a = offset.
Proof.
  split; [|intros [-> <-]; apply char_split_app]. revert offset a b.
  induction text as [|c text IH]; intros offset a b; simpl; destruct (Z.eqb_spec offset 0) as [->|]; try done.
  - by intros [= <- <-].
  - by intros [= <- <-].
  - destruct (char_split (offset - len_utf8 c) text) as [[a' b']|] eqn:E; [|done]. intros [= <- <-].
    destruct (IH _ _ _ E) as [-> ?]. split; [done|]. simpl. lia.
Qed.

Lemma is_char_boundary_spec text offset :
  is_char_boundary text offset = true ↔ ∃ a b, text = a ++ b ∧ byte_len a = offset.
Proof.
  unfold is_char_boundary. split.
  - destruct (char_split offset text) as [[a b]|] eqn:E; [|done]. intros _. exists a, b. by apply char_split_Some.
  - intros (a & b & -> & <-). by rewrite char_split_app.
Qed.

Lemma is_char_boundary_app a b : is_char_boundary (a ++ b) (byte_len a) = true.
Proof. apply is_char_boundary_spec. eauto. Qed.

Lemma str_slice_app a b c o : o = byte_len a + byte_len b → str_slice (a ++ b ++ c) (byte_len a) o = Some b.
Proof.
  intros ->. unfold str_slice. rewrite char_split_app. simpl.
  replace (byte_len a + byte_len b - byte_len a) with (byte_len b) by lia. by rewrite char_split_app.
Qed.

Lemma str_slice_Some text i j m : str_slice text i j = Some m →
  ∃ a b, text = a ++ m ++ b ∧ byte_len a = i ∧ byte_len m = j - i.
Proof.
  unfold str_slice. intros ([a r] & [-> <-]%char_split_Some & ([m' b] & [-> ?]%char_split_Some & [= <-])%bind_Some)%bind_Some.
  eauto.
Qed.

Lemma validate_offset_app a b : validate_offset (a ++ b) (byte_len a) = Ok tt.
Proof.
  unfold validate_offset. rewrite is_char_boundary_app, byte_len_app. pose proof (byte_len_nonneg b).
  by destruct (Z.ltb_spec (byte_len a + byte_len b) (byte_len a)); [lia|].
Qed.

(** ** Lines *)

(** The lines of a text, each with its terminator; the last has none. *)
Fixpoint split_lines (text : list Z) : list (list Z) :=
  match text with
  | [] => [[]]
  | c :: rest =>
      if is_line_terminator c then
        match rest with
        | next :: after => if (c =? CR) && (next =? LF) then [c; next] :: split_lines after else [c] :: split_lines rest
        | [] => [c] :: split_lines rest
        end
      else match split_lines rest with
           | line :: lines => (c :: line) :: lines
           | [] => [[c]]
           end
  end.

(** The offsets lines start at. *)
Fixpoint line_offsets (offset : Z) (lines : list (list Z)) : list Z :=
  match lines with
  | [] => []
  | line :: lines => offset :: line_offsets (offset + byte_len line) lines
  end.

(** Induction over the characters as the scan of the lines meets them. *)
Lemma line_ind (P : list Z → Prop) :
  P [] →
  (∀ rest, P rest → P (CR :: LF :: rest)) →
  (∀ c rest, is_line_terminator c = true → (c = CR → head rest ≠ Some LF) → P rest → P (c :: rest)) →
  (∀ c rest, is_line_terminator c = false → P rest → P (c :: rest)) →
  ∀ text, P text.
Proof.
  intros Hnil Hcrlf Hterm Hother text. cut (∀ n t, (length t ≤ n)%nat → P t); [by eauto|].
  intros n. induction n as [|n IH]; intros [|c t] Hl; simpl in Hl; try done; [lia|].
  destruct (is_line_terminator c) eqn:Hc; [|apply Hother, IH; [done|lia]].
  destruct (decide (c = CR ∧ head t = Some LF)) as [[-> Ht]|Hn].
  - destruct t as [|d t]; simplify_eq/=. apply Hcrlf, IH. lia.
  - apply Hterm; [done|naive_solver|apply IH; lia].
Qed.

Lemma split_lines_terminated c rest : is_line_terminator c = true → (c = CR → head rest ≠ Some LF) →
  split_lines (c :: rest) = [c] :: split_lines rest.
Proof.
  intros Hc Hn. cbn [split_lines]. rewrite Hc. destruct rest as [|next after]; [done|].
  destruct (Z.eqb_spec c CR), (Z.eqb_spec next LF); simpl in *; naive_solver.
Qed.

Lemma split_lines_cons text : ∃ line lines, split_lines text = line :: lines ∧
  (text = [] ∧ line = [] ∧ lines = [] ∨ ∃ c rest, text = c :: rest ∧ head line = Some c).
Proof.
  destruct text as [|rest _|c rest Hc Hn _|c rest Hc _] using line_ind; [by eauto 8|by eauto 10|..].
  - rewrite split_lines_terminated by done. eauto 10.
  - cbn [split_lines]. rewrite Hc. destruct (split_lines rest) as [|line lines]; eauto 10.
Qed.

Lemma split_lines_other c rest : is_line_terminator c = false →
  ∃ line lines, split_lines rest = line :: lines ∧ split_lines (c :: rest) = (c :: line) :: lines.
Proof.
  intros Hc. destruct (split_lines_cons rest) as (line & lines & E & _). exists line, lines.
  split; [done|]. cbn [split_lines]. by rewrite Hc, E.
Qed.

Lemma split_lines_concat text : concat (split_lines text) = text.
Proof.
  induction text as [|rest IH|c rest Hc Hn IH|c rest Hc IH] using line_ind; [done|..].
  - change (CR :: LF :: concat (split_lines rest) = CR :: LF :: rest). by rewrite IH.
  - rewrite split_lines_terminated by done. simpl. by rewrite IH.
  - destruct (split_lines_other c rest Hc) as (line & lines & E & ->). rewrite E in IH. simpl in *. by rewrite IH.
Qed.

Lemma line_offsets_length o ls : length (line_offsets o ls) = length ls.
Proof. revert o. induction ls; intros; simpl; auto. Qed.

Lemma line_offsets_lookup o ls j : (j < length ls)%nat →
  line_offsets o ls !! j = Some (o + byte_len (concat (take j ls))).
Proof.
  revert o j. induction ls as [|l ls IH]; intros o [|j] Hj; simpl in *; [lia|lia|f_equal; lia|].
  rewrite IH, byte_len_app by lia. f_equal. lia.
Qed.

(** The scan finds where lines start. *)
Lemma scan_spec bytes offset text acc : 0 ≤ offset → offset + byte_len text ≤ u32_max →
  LineIndex.scan bytes offset text acc = Ok (acc ++ tail (line_offsets offset (split_lines text))).
Proof.
  assert (Hpush : ∀ o starts, 0 ≤ o ≤ u32_max → LineIndex.push_start bytes o starts = Ok (starts ++ [o])).
  { intros o starts Ho. unfold LineIndex.push_start, try_u32.
    destruct (Z.leb_spec 0 o), (Z.leb_spec o u32_max); try lia. done. }
  assert (Htail : ∀ o t, line_offsets o (split_lines t) = o :: tail (line_offsets o (split_lines t))).
  { intros o t. by destruct (split_lines_cons t) as (? & ? & -> & _). }
  revert offset acc. induction text as [|rest IH|c rest Hc Hn IH|c rest Hc IH] using line_ind; intros offset acc Ho Hb.
  - simpl. by rewrite app_nil_r.
  - change (byte_len (CR :: LF :: rest)) with (1 + (1 + byte_len rest)) in Hb. pose proof (byte_len_nonneg rest).
    change (LineIndex.scan bytes offset (CR :: LF :: rest) acc)
      with (LineIndex.push_start bytes (offset + 2) acc ≫= LineIndex.scan bytes (offset + 2) rest).
    rewrite Hpush by lia. simpl. rewrite IH, <- app_assoc by lia. f_equal.
    change (split_lines (CR :: LF :: rest)) with ([CR; LF] :: split_lines rest).
    cbn [line_offsets tail byte_len]. change (len_utf8 CR + (len_utf8 LF + 0)) with 2. rewrite (Htail (offset + 2)) at 2. done.
  - rewrite split_lines_terminated by done. simpl in Hb. pose proof (byte_len_nonneg rest). pose proof (len_utf8_bounds c).
    assert (LineIndex.scan bytes offset (c :: rest) acc =
      (LineIndex.push_start bytes (offset + len_utf8 c) acc ≫= LineIndex.scan bytes (offset + len_utf8 c) rest)) as ->.
    { cbn [LineIndex.scan]. rewrite Hc. destruct rest as [|next after]; [by case_match|].
      destruct (Z.eqb_spec c CR), (Z.eqb_spec next LF); simpl in *; naive_solver. }
    rewrite Hpush by lia. cbn [mbind result_bind]. rewrite IH, <- app_assoc by lia. f_equal. cbn [line_offsets tail byte_len].
    rewrite Z.add_0_r. rewrite (Htail (offset + len_utf8 c)) at 2. done.
  - simpl in Hb. pose proof (len_utf8_bounds c).
    assert (LineIndex.scan bytes offset (c :: rest) acc = LineIndex.scan bytes (offset + len_utf8 c) rest acc) as ->.
    { cbn [LineIndex.scan]. rewrite Hc. destruct (Z.eqb_spec c CR) as [->|]; done. }
    rewrite IH by lia. destruct (split_lines_other c rest Hc) as (line & lines & -> & ->). simpl.
    do 2 f_equal. f_equal. lia.
Qed.

Lemma line_index_new text index : LineIndex.new text = Ok index ↔
  byte_len text ≤ u32_max ∧ index = mkLineIndex (line_offsets 0 (split_lines text)).
Proof.
  unfold LineIndex.new, try_u32. pose proof (byte_len_nonneg text).
  destruct (Z.leb_spec 0 (byte_len text)); [|lia]. destruct (Z.leb_spec (byte_len text) u32_max) as [Hu|Hu]; simpl.
  - rewrite scan_spec by lia. simpl. destruct (split_lines_cons text) as (? & ? & -> & _). simpl. naive_solver.
  - split; [done|]. lia.
Qed.

(** ** Locations *)

(** [offset] lies in line [i], after [prefix] and before [suffix]; only the end
    of the text has nothing after it in its line. *)
Record located (text : list Z) (offset : Z) (i : nat) (prefix suffix : list Z) : Prop := {
  located_line : split_lines text !! i = Some (prefix ++ suffix);
  located_last : suffix = [] → S i = length (split_lines text);
  located_offset : offset = byte_len (concat (take i (split_lines text))) + byte_len prefix }.

Lemma concat_split (lines : list (list Z)) before after : lines ≠ [] → concat lines = before ++ after →
  ∃ i prefix suffix, lines !! i = Some (prefix ++ suffix) ∧ (suffix = [] → S i = length lines) ∧
    before = concat (take i lines) ++ prefix ∧ after = suffix ++ concat (drop (S i) lines).
Proof.
  revert before. induction lines as [|line lines IH]; [done|]. intros before _ E. simpl in E.
  destruct (decide (lines = [])) as [->|Hne].
  { rewrite app_nil_r in E. exists 0%nat, before, after. simpl. rewrite E, app_nil_r. done. }
  apply app_eq_inv in E as [(k & -> & E)|(k & -> & E)].
  - destruct (decide (k = [])) as [->|Hk].
    + rewrite app_nil_r. destruct (IH [] Hne (eq_sym E)) as (i & p & q & Hi & Hl & Hb & Ha).
      exists (S i), p, q. simpl. split_and!; [done|naive_solver|by rewrite <- app_assoc, <- Hb, app_nil_r|done].
    + exists 0%nat, before, k. simpl. split_and!; [done|done|done|]. by rewrite drop_0.
  - destruct (IH k Hne E) as (i & p & q & Hi & Hl & Hb & Ha). exists (S i), p, q. simpl.
    split_and!; [done|naive_solver|by rewrite Hb, app_assoc|done].
Qed.

Lemma located_text text offset i prefix suffix : located text offset i prefix suffix →
  text = concat (take i (split_lines text)) ++ prefix ++ suffix ++ concat (drop (S i) (split_lines text)).
Proof.
  intros [Hi _ _]. rewrite <- (split_lines_concat text) at 1.
  rewrite <- (take_drop_middle _ _ _ Hi) at 1. by rewrite concat_app, concat_cons, <- app_assoc.
Qed.

(** Every boundary is located. *)
Lemma boundary_located text before after : text = before ++ after →
  ∃ i prefix suffix, located text (byte_len before) i prefix suffix ∧
    before = concat (take i (split_lines text)) ++ prefix ∧
    after = suffix ++ concat (drop (S i) (split_lines text)).
Proof.
  intros E. destruct (concat_split (split_lines text) before after) as (i & p & q & Hi & Hl & Hb & Ha).
  { by destruct (split_lines_cons text) as (? & ? & -> & _). }
  { by rewrite split_lines_concat. }
  exists i, p, q. split; [|done]. constructor; [done|done|]. by rewrite Hb, byte_len_app.
Qed.

Lemma partition_point_eq {A} (p : A → bool) l n :
  (n ≤ length l)%nat → (∀ j x, (j < n)%nat → l !! j = Some x → p x = true) →
  (∀ x, l !! n = Some x → p x = false) → partition_point p l = n.
Proof.
  revert n. induction l as [|y l IH]; intros n Hn Hlt He; simpl in *; [lia|].
  destruct n as [|n].
  - by rewrite (He y eq_refl).
  - rewrite (Hlt 0%nat y) by (done || lia). f_equal. apply IH; [lia| |done].
    intros j x Hj Hx. apply (Hlt (S j)); [lia|done].
Qed.

Lemma concat_take_le (lines : list (list Z)) j i : (j ≤ i)%nat →
  byte_len (concat (take j lines)) ≤ byte_len (concat (take i lines)).
Proof.
  intros Hj. replace i with (j + (i - j))%nat by lia. rewrite <- take_take_drop, concat_app, byte_len_app.
  pose proof (byte_len_nonneg (concat (take (i - j) (drop j lines)))). lia.
Qed.

Section indexed.
Context (text : list Z) (index : LineIndex) (Hindex : LineIndex.new text = Ok index).

Lemma starts_lookup j : (j < length (split_lines text))%nat →
  starts index !! j = Some (byte_len (concat (take j (split_lines text)))).
Proof. intros Hj. apply line_index_new in Hindex as [_ ->]. simpl. by rewrite line_offsets_lookup, Z.add_0_l. Qed.

Lemma starts_length : length (starts index) = length (split_lines text).
Proof. apply line_index_new in Hindex as [_ ->]. apply line_offsets_length. Qed.

(** An offset is in line [i] when line [i] starts at or before it and the next
    line does not. *)
Lemma line_index_at_eq offset i :
  (i < length (split_lines text))%nat → byte_len (concat (take i (split_lines text))) ≤ offset →
  ((S i < length (split_lines text))%nat → offset < byte_len (concat (take (S i) (split_lines text)))) →
  LineIndex.line_index_at index offset = i.
Proof.
  intros Hi Hle Hlt. unfold LineIndex.line_index_at. rewrite (partition_point_eq _ _ (S i)); [done|rewrite starts_length; lia|..].
  - intros j x Hj. rewrite starts_lookup by lia. intros [= <-]. apply Z.leb_le.
    pose proof (concat_take_le (split_lines text) j i ltac:(lia)). lia.
  - intros x Hx. pose proof (lookup_lt_Some _ _ _ Hx) as Hl. rewrite starts_length in Hl.
    rewrite starts_lookup in Hx by done. injection Hx as <-. apply Z.leb_gt. auto.
Qed.

Lemma concat_take_S (lines : list (list Z)) i line : lines !! i = Some line →
  byte_len (concat (take (S i) lines)) = byte_len (concat (take i lines)) + byte_len line.
Proof. intros Hi. by rewrite (take_S_r _ _ _ Hi), concat_app, byte_len_app, concat_cons, app_nil_r. Qed.

Lemma located_index offset i prefix suffix : located text offset i prefix suffix →
  LineIndex.line_index_at index offset = i.
Proof.
  intros [Hi Hl ->]. pose proof (byte_len_nonneg prefix). apply line_index_at_eq; [by eapply lookup_lt_Some|lia|].
  intros Hs. rewrite (concat_take_S _ _ _ Hi), byte_len_app.
  assert (suffix ≠ []) as Hne%byte_len_pos by (intros ->; specialize (Hl eq_refl); lia). lia.
Qed.

Lemma validate_offset_located offset i prefix suffix : located text offset i prefix suffix →
  validate_offset text offset = Ok tt.
Proof.
  intros Hl. pose proof (located_text _ _ _ _ _ Hl) as Ht. destruct Hl as [_ _ ->].
  rewrite app_assoc in Ht. rewrite <- byte_len_app. rewrite Ht at 1. apply validate_offset_app.
Qed.

Lemma position_located offset i prefix suffix encoding : located text offset i prefix suffix →
  LineIndex.position index text offset encoding
  = Ok (mkLineColumn (Z.of_nat i + 1) (column_units encoding prefix + 1)).
Proof.
  intros Hl. unfold LineIndex.position.
  rewrite (validate_offset_located _ _ _ _ Hl), (located_index _ _ _ _ Hl). cbn.
  pose proof (located_text _ _ _ _ _ Hl) as Ht. destruct Hl as [Hi _ ->].
  rewrite starts_lookup by (by eapply lookup_lt_Some). cbn.
  assert (str_slice text (byte_len (concat (take i (split_lines text))))
    (byte_len (concat (take i (split_lines text))) + byte_len prefix) = Some prefix) as ->; [|done].
  rewrite Ht at 1. by apply str_slice_app.
Qed.
End indexed.

(** ** Line contents *)

Definition is_terminator (t : list Z) : Prop := t = [CR; LF] ∨ ∃ c, t = [c] ∧ is_line_terminator c = true.

(** A line is text without terminators and then a terminator, which only the
    last line lacks. *)
Record line_parts (last : bool) (line content terminator : list Z) : Prop := {
  parts_line : line = content ++ terminator;
  parts_content : Forall (λ c, is_line_terminator c = false) content;
  parts_terminator : if last then terminator = [] else is_terminator terminator }.

Lemma split_lines_parts text i line : split_lines text !! i = Some line →
  ∃ content terminator, line_parts (bool_decide (S i = length (split_lines text))) line content terminator.
Proof.
  revert i line. induction text as [|rest IH|c rest Hc Hn IH|c rest Hc IH] using line_ind; intros i line Hi.
  - destruct i as [|i]; simplify_eq/=. exists [], []. done.
  - change (split_lines (CR :: LF :: rest)) with ([CR; LF] :: split_lines rest) in *. destruct i as [|i]; simplify_eq/=.
    + exists [], [CR; LF]. destruct (split_lines_cons rest) as (? & ? & -> & _).
      constructor; [done|done|]. by left.
    + destruct (IH i line Hi) as (content & t & Hp). exists content, t.
      by rewrite (bool_decide_ext _ (S i = length (split_lines rest))) by lia.
  - rewrite split_lines_terminated in * by done. destruct i as [|i]; simplify_eq/=.
    + exists [], [c]. destruct (split_lines_cons rest) as (? & ? & -> & _).
      constructor; [done|done|]. right. eauto.
    + destruct (IH i line Hi) as (content & t & Hp). exists content, t.
      by rewrite (bool_decide_ext _ (S i = length (split_lines rest))) by lia.
  - destruct (split_lines_other c rest Hc) as (l & ls & E & E'). rewrite E' in *. destruct i as [|i]; simplify_eq/=.
    + destruct (IH 0%nat l) as (content & t & [-> Hf Ht]); [by rewrite E|]. exists (c :: content), t.
      rewrite E in Ht. constructor; [done|by constructor|done].
    + destruct (IH (S i) line) as (content & t & Hp); [by rewrite E|]. exists content, t. by rewrite E in Hp.
Qed.

Lemma ends_with_app a b : ends_with (a ++ b) b = true.
Proof. unfold ends_with. rewrite length_app, Nat.add_sub, drop_app_length. by apply bool_decide_eq_true. Qed.

Lemma ends_with_last line c d suffix : last line = Some c → last suffix = Some d → c ≠ d → ends_with line suffix = false.
Proof.
  intros Hl (l & ->)%last_Some Hne. unfold ends_with. apply bool_decide_eq_false. intros E.
  rewrite <- (take_drop (length line - length (l ++ [d])) line), E, app_assoc, last_snoc in Hl. congruence.
Qed.

Lemma is_line_terminator_spec c : is_line_terminator c = true ↔ c = CR ∨ c = LF ∨ c = 0x2028 ∨ c = 0x2029.
Proof. unfold is_line_terminator. rewrite !orb_true_iff, !Z.eqb_eq. tauto. Qed.

(** What [line_content_end] takes off a line. *)
Lemma stripped last_line line content terminator : line_parts last_line line content terminator →
  (if ends_with line [CR; LF] then 2
   else if ends_with line [CR] || ends_with line [LF] then 1
   else if ends_with line [0x2028] || ends_with line [0x2029] then len_utf8 0x2028
   else 0) = byte_len terminator.
Proof.
  intros [-> Hf Ht].
  assert (Hno : ∀ c, is_line_terminator c = true → (last (content ++ terminator) ≠ Some c) →
    ends_with (content ++ terminator) [c] = false ∧ ends_with (content ++ terminator) [CR; c] = false).
  { intros c Hc Hl. destruct (last (content ++ terminator)) as [d|] eqn:E.
    - split; eapply ends_with_last; try done; congruence.
    - apply last_None in E. rewrite E. done. }
  destruct last_line.
  - subst terminator. rewrite app_nil_r in *.
    assert (Hall : ∀ c, is_line_terminator c = true → last content ≠ Some c).
    { intros c Hc Hl. apply last_Some in Hl as [l ->]. apply Forall_app in Hf as [_ Hf]. inversion Hf. congruence. }
    assert (Hone : ∀ c, is_line_terminator c = true → ends_with content [c] = false) by (intros c Hc; by apply Hno, Hall).
    rewrite (proj2 (Hno LF eq_refl (Hall LF eq_refl))), !Hone by done. done.
  - destruct Ht as [->|(c & -> & Hc)]; [by rewrite ends_with_app|].
    assert (ends_with (content ++ [c]) [CR; LF] = false) as ->.
    { destruct (decide (c = LF)) as [->|]; [|eapply ends_with_last; [apply last_snoc|done|done]].
      unfold ends_with. apply bool_decide_eq_false. rewrite length_app. intros E.
      apply (f_equal (λ l, take (length (content ++ [LF]) - 2) (content ++ [LF]) ++ l)) in E.
      rewrite length_app in E. simpl in E. rewrite take_drop in E.
      replace [CR; LF] with ([CR] ++ [LF]) in E by done. rewrite app_assoc in E. apply app_inj_tail in E as [E _].
      rewrite E in Hf. apply Forall_app in Hf as [_ Hf]. by inversion Hf. }
    assert (Hlast : ∀ d, c ≠ d → ends_with (content ++ [c]) [d] = false).
    { intros d Hd. eapply ends_with_last; [apply last_snoc|done|done]. }
    apply is_line_terminator_spec in Hc as [->|[->|[->| ->]]]; rewrite ?ends_with_app, ?Hlast by done; done.
Qed.

Notation utf16_len := (column_units ColumnEncoding.Utf16CodeUnit).

Lemma utf16_len_app a b : utf16_len (a ++ b) = utf16_len a + utf16_len b.
Proof. simpl. induction a as [|c a IH]; simpl in *; lia. Qed.

Lemma utf16_len_bounds a : 0 ≤ utf16_len a ≤ byte_len a ∧ (a ≠ [] → 0 < utf16_len a).
Proof.
  induction a as [|c a IH]; [done|]. pose proof (len_utf16_bounds c). simpl in *. lia.
Qed.

(** The loop over a line finds the prefix of that many code units. *)
Lemma seek_spec e column line_start relative units content :
  0 ≤ units → units + utf16_len content ≤ u32_max →
  let result := LineIndex.seek e column line_start (line_start + relative + byte_len content) relative units content in
  (∀ prefix suffix, content = prefix ++ suffix → units + utf16_len prefix = column →
     result = Ok (line_start + relative + byte_len prefix)) ∧
  (result = Err e ∨ ∃ prefix suffix, content = prefix ++ suffix ∧ units + utf16_len prefix = column ∧
     result = Ok (line_start + relative + byte_len prefix)).
Proof.
  revert relative units. induction content as [|c content IH]; intros relative units Hu Hb.
  - cbn [LineIndex.seek]. split.
    + intros prefix suffix [-> ->]%(eq_sym)%app_nil Hp. destruct (Z.eqb_spec units column); [done|simpl in Hp; lia].
    + destruct (Z.eqb_spec units column); [|by left]. right. exists [], []. simpl. split_and!; [done|lia|done].
  - pose proof (len_utf16_bounds c) as Hc. pose proof (utf16_len_bounds content) as [Hn _].
    assert (Hcons : ∀ l, utf16_len (c :: l) = len_utf16 c + utf16_len l) by done. rewrite Hcons in Hb.
    cbn [LineIndex.seek byte_len].
    assert ((if len_utf16 c =? 1 then 1 else 2) = len_utf16 c) as -> by (destruct (Z.eqb_spec (len_utf16 c) 1); lia).
    rewrite Z.min_l by lia. destruct (Z.eqb_spec units column) as [<-|Hne].
    + split.
      * intros prefix suffix E Hp. pose proof (utf16_len_bounds prefix) as [_ Hpos].
        destruct prefix as [|d prefix]; [simpl; f_equal; lia|]. specialize (Hpos ltac:(done)). lia.
      * right. exists [], (c :: content). simpl. split_and!; [done|lia|f_equal; lia].
    + destruct (Z.ltb_spec column (units + len_utf16 c)) as [Hlt|Hge].
      * split; [|by left]. intros [|d prefix] suffix E Hp; [simpl in Hp; lia|]. injection E as <- ->.
        rewrite Hcons in Hp. pose proof (utf16_len_bounds prefix). lia.
      * replace (line_start + relative + (len_utf8 c + byte_len content))
          with (line_start + (relative + len_utf8 c) + byte_len content) by lia.
        destruct (IH (relative + len_utf8 c) (units + len_utf16 c)) as [IH1 IH2]; [lia|lia|]. split.
        -- intros [|d prefix] suffix E Hp; [simpl in Hp; lia|]. injection E as <- ->. rewrite Hcons in Hp.
           rewrite (IH1 prefix suffix) by (done || lia). simpl. f_equal. lia.
        -- destruct IH2 as [IH2|(prefix & suffix & -> & Hp & IH2)]; [by left|]. right. exists (c :: prefix), suffix.
           rewrite Hcons. split_and!; [done|lia|]. rewrite IH2. simpl. f_equal. lia.
Qed.

(** No line feed follows a line that ends in a carriage return. *)
Lemma split_lines_break text i line next : split_lines text !! i = Some line → split_lines text !! S i = Some next →
  last line = Some CR → head (concat (drop (S i) (split_lines text))) ≠ Some LF.
Proof.
  revert i line next. induction text as [|rest IH|c rest Hc Hn IH|c rest Hc IH] using line_ind; intros i line next Hi Hs Hl.
  - done.
  - change (split_lines (CR :: LF :: rest)) with ([CR; LF] :: split_lines rest) in *.
    destruct i as [|i]; simplify_eq/=. by eapply IH.
  - rewrite split_lines_terminated in * by done. destruct i as [|i]; simplify_eq/=; [|by eapply IH].
    rewrite drop_0, split_lines_concat. auto.
  - destruct (split_lines_other c rest Hc) as (l & ls & E & E'). rewrite E' in *.
    assert (drop (S i) ((c :: l) :: ls) = drop (S i) (split_lines rest)) as -> by (by rewrite E).
    destruct i as [|i]; simplify_eq/=; [|by eapply (IH (S i)); rewrite ?E].
    destruct l as [|d l]; simplify_eq/=. by eapply (IH 0%nat); rewrite ?E.
Qed.

(** Between a carriage return and its line feed. *)
Definition splits_crlf (text : list Z) (offset : Z) : Prop :=
  ∃ before after, text = (before ++ [CR]) ++ LF :: after ∧ offset = byte_len (before ++ [CR]).

(** A location is within the content of its line or between a carriage return
    and its line feed. *)
Lemma located_content text offset i prefix suffix content terminator :
  located text offset i prefix suffix →
  line_parts (bool_decide (S i = length (split_lines text))) (prefix ++ suffix) content terminator →
  (∃ rest, content = prefix ++ rest) ∧ ¬ splits_crlf text offset ∨
  prefix = content ++ [CR] ∧ suffix = [LF] ∧ splits_crlf text offset.
Proof.
  intros Hl [E Hf Ht]. pose proof (located_text _ _ _ _ _ Hl) as Htext. destruct Hl as [Hi Hlast Ho].
  assert (Hsplit : splits_crlf text offset → last (concat (take i (split_lines text)) ++ prefix) = Some CR ∧
    head (suffix ++ concat (drop (S i) (split_lines text))) = Some LF).
  { intros (before & after & E1 & E2). rewrite Ho, <- byte_len_app in E2. rewrite app_assoc in Htext.
    pose proof (char_split_app (before ++ [CR]) (LF :: after)) as C1. rewrite <- E1, <- E2 in C1.
    pose proof (char_split_app (concat (take i (split_lines text)) ++ prefix)
      (suffix ++ concat (drop (S i) (split_lines text)))) as C2. rewrite <- Htext, C1 in C2.
    injection C2 as <- <-. by rewrite last_snoc. }
  assert (Hin : ∀ rest, content = prefix ++ rest → ¬ splits_crlf text offset).
  { intros rest -> [Hcr Hlf]%Hsplit. destruct prefix as [|d prefix] using rev_ind.
    - rewrite app_nil_r in Hcr. destruct i as [|j]; [done|].
      destruct (lookup_lt_is_Some_2 (split_lines text) j) as [line Hj]; [apply lookup_lt_Some in Hi; lia|].
      rewrite (take_S_r _ _ _ Hj), concat_app, concat_cons, app_nil_r in Hcr.
      destruct (split_lines_parts _ _ _ Hj) as (content & t & [-> _ Hnt]).
      rewrite bool_decide_eq_false_2 in Hnt by (apply lookup_lt_Some in Hi; lia).
      assert (last (content ++ t) = Some CR) as Hlc.
      { rewrite app_assoc in Hcr. destruct Hnt as [->|(d & -> & _)].
        - change [CR; LF] with ([CR] ++ [LF]) in Hcr. by rewrite app_assoc, last_snoc in Hcr.
        - rewrite last_snoc in Hcr |- *. done. }
      apply (split_lines_break _ _ _ _ Hj Hi Hlc). rewrite <- Hlf.
      by rewrite (drop_S _ _ _ Hi).
    - rewrite app_assoc, last_snoc in Hcr. injection Hcr as ->.
      rewrite !Forall_app, Forall_singleton in Hf. by destruct Hf as [[_ ?] _]. }
  apply app_eq_inv in E as [(k & -> & E)|(k & -> & E)]; [|left; split; [by exists k|by eapply Hin]].
  destruct (decide (k = [])) as [->|Hk].
  { left. rewrite app_nil_r in Hin |- *. split; [by exists []; rewrite app_nil_r|]. apply (Hin []). by rewrite app_nil_r. }
  right. case_bool_decide as Hd; [by destruct k; subst|].
  assert (suffix ≠ []) as Hs by (intros ->; auto).
  destruct Ht as [Ht|(d & Ht & _)]; rewrite Ht in E; destruct k as [|x [|y k]], suffix as [|z suffix]; simplify_eq/=;
    try (by destruct k); try (by destruct suffix).
  split_and!; [done|done|]. exists (concat (take i (split_lines text)) ++ content), (concat (drop (S i) (split_lines text))).
  split; [|by rewrite !byte_len_app; lia]. rewrite Htext at 1. by rewrite <- !app_assoc.
Qed.

Section offsets.
Context (text : list Z) (index : LineIndex) (Hindex : LineIndex.new text = Ok index).
Local Notation lines := (split_lines text).

Lemma line_text i line : lines !! i = Some line →
  text = concat (take i lines) ++ line ++ concat (drop (S i) lines).
Proof.
  intros Hi. rewrite <- (split_lines_concat text) at 1. rewrite <- (take_drop_middle _ _ _ Hi) at 1.
  by rewrite concat_app, concat_cons.
Qed.

(** Where the next line starts, or the text ends. *)
Lemma next_start i line : lines !! i = Some line →
  from_option id (byte_len text) (starts index !! S i) = byte_len (concat (take (S i) lines)).
Proof.
  intros Hi. destruct (decide (S i < length lines)%nat) as [Hs|Hs].
  - by rewrite (starts_lookup text index Hindex).
  - rewrite (lookup_ge_None_2 (starts index)) by (rewrite (starts_length text index Hindex); lia). simpl.
    rewrite take_ge by lia. by rewrite split_lines_concat.
Qed.

Lemma line_content_end_eq i line content terminator last_line : lines !! i = Some line →
  line_parts last_line line content terminator →
  LineIndex.line_content_end index text i = Ok (byte_len (concat (take i lines)) + byte_len content).
Proof.
  intros Hi Hp. unfold LineIndex.line_content_end.
  rewrite (next_start _ _ Hi), (starts_lookup text index Hindex) by (by eapply lookup_lt_Some).
  cbn [mbind result_bind expect ok_or].
  assert (str_slice text (byte_len (concat (take i lines))) (byte_len (concat (take (S i) lines))) = Some line) as ->.
  { rewrite (line_text _ _ Hi) at 1. apply str_slice_app. by apply concat_take_S. }
  cbn [mbind result_bind expect ok_or]. f_equal.
  pose proof (stripped _ _ _ _ Hp) as Hs. pose proof (concat_take_S _ _ _ Hi) as Hc.
  rewrite (parts_line _ _ _ _ Hp), byte_len_app in Hc.
  destruct (ends_with line [CR; LF]), (ends_with line [CR] || ends_with line [LF]),
    (ends_with line [0x2028] || ends_with line [0x2029]); lia.
Qed.

(** A source-map position inside the content of its line is found, and no other. *)
Lemma byte_offset_spec line column :
  let result := LineIndex.byte_offset_for_source_map_position index text line column in
  (∀ prefix suffix offset, 0 ≤ line ≤ u32_max → located text offset (Z.to_nat line) prefix suffix →
     utf16_len prefix = column → ¬ splits_crlf text offset → result = Ok offset) ∧
  (result = Err (Fail (SourceError.InvalidSourceMapPosition line column)) ∨
   ∃ prefix suffix offset, 0 ≤ line ∧ located text offset (Z.to_nat line) prefix suffix ∧
     utf16_len prefix = column ∧ ¬ splits_crlf text offset ∧ result = Ok offset).
Proof.
  unfold LineIndex.byte_offset_for_source_map_position. set (e := SourceError.InvalidSourceMapPosition line column).
  destruct (try_usize line) as [i|] eqn:Hline; cbn [ok_or lift map_err mbind result_bind].
  2: { split; [|by left]. intros ??? Hr. rewrite try_usize_u32 in Hline by (unfold is_u32, u32_max in *; lia). done. }
  apply try_usize_Some in Hline as [Hline ->]. set (i := Z.to_nat line).
  destruct (lines !! i) as [l|] eqn:Hi.
  2: { rewrite (lookup_ge_None_2 (starts index)) by (rewrite (starts_length text index Hindex); by apply lookup_ge_None).
    cbn. split; [|by left]. intros prefix suffix offset _ [Hl _ _]. congruence. }
  rewrite (starts_lookup text index Hindex) by (by eapply lookup_lt_Some). cbn [ok_or lift map_err mbind result_bind].
  destruct (split_lines_parts _ _ _ Hi) as (content & terminator & Hp).
  rewrite (line_content_end_eq _ _ _ _ _ Hi Hp). cbn [mbind result_bind].
  set (base := byte_len (concat (take i lines))).
  assert (Hslice : str_slice text base (base + byte_len content) = Some content).
  { rewrite (line_text _ _ Hi) at 1. rewrite (parts_line _ _ _ _ Hp), <- app_assoc. by apply str_slice_app. }
  rewrite Hslice. cbn [expect ok_or mbind result_bind].
  assert (Hfit : utf16_len content ≤ u32_max).
  { apply line_index_new in Hindex as [Hb _]. apply str_slice_Some in Hslice as (a & b & E & _).
    rewrite E, !byte_len_app in Hb. pose proof (utf16_len_bounds content). pose proof (byte_len_nonneg a).
    pose proof (byte_len_nonneg b). lia. }
  destruct (seek_spec e column base 0 0 content) as [Hfound Hall]; [lia|lia|].
  rewrite Z.add_0_r in Hfound, Hall. split.
  - intros prefix suffix offset _ Hl Hu Hns. pose proof Hl as Hl'. destruct Hl as [Hl _ ->]. simplify_eq.
    destruct (located_content _ _ _ _ _ _ _ Hl' Hp) as [[(rest & ->) _]|(_ & _ & Hsp)]; [|done].
    by rewrite (Hfound prefix rest) by (done || lia).
  - destruct Hall as [->|(prefix & rest & -> & Hu & ->)]; [by left|]. right.
    exists prefix, (rest ++ terminator), (base + byte_len prefix).
    assert (l = prefix ++ rest ++ terminator) as El by (by rewrite (parts_line _ _ _ _ Hp), <- app_assoc). rewrite El in *.
    assert (Hl : located text (base + byte_len prefix) i prefix (rest ++ terminator)).
    { constructor; [done| |done]. intros [-> ->]%app_nil. pose proof (parts_terminator _ _ _ _ Hp) as Ht.
      case_bool_decide; [done|]. by destruct Ht as [?|(? & ? & _)]. }
    split_and!; [done|done|lia| |done].
    destruct (located_content _ _ _ _ _ _ _ Hl Hp) as [[_ Hns]|(E & _)]; [done|].
    rewrite <- app_assoc in E. apply (f_equal length) in E. rewrite !length_app in E. simpl in E. lia.
Qed.
End offsets.

(** ** Registries *)

Record registry_ok {Map} (self : SourceRegistry Map) : Prop := {
  ok_lines : Forall (λ file, LineIndex.new (file_text file) = Ok (file_lines file)) (files self);
  ok_names name i : names self !! name = Some i ↔
    0 ≤ i ∧ ∃ file, files self !! Z.to_nat i = Some file ∧ display_name file = name }.

(** A call that changes a registry. *)
Inductive registry_step {Map} (self : SourceRegistry Map) : SourceRegistry Map → Prop :=
| step_register name text map id self' :
    SourceRegistry.register_with_source_map self name text map = Ok (id, self') → registry_step self self'
| step_set_map id map self' : SourceRegistry.set_source_map self id map = Ok self' → registry_step self self'.

Lemma registry_step_ok {Map} (self self' : SourceRegistry Map) : registry_step self self' → registry_ok self → registry_ok self'.
Proof.
  intros [name text map id self'' E|id map self'' E] [Hl Hn].
  - unfold SourceRegistry.register_with_source_map in E. inv_ok. simplify_eq.
    rename select (bool_decide (is_Some _) = false) into Hfresh. apply bool_decide_eq_false in Hfresh.
    rename select (try_u32 _ = Some _) into Hu. apply try_u32_Some in Hu as [? _]. subst. constructor; simpl.
    + apply Forall_app. split; [done|]. by constructor.
    + intros n i. unfold len. rewrite lookup_insert_Some, Hn. split.
      * intros [[<- <-]|(Hne & Hi & file & Hf & Hd)]; (split; [lia|]).
        -- eexists. by rewrite Nat2Z.id, list_lookup_middle.
        -- exists file. split; [|done]. by apply lookup_app_l_Some.
      * intros (Hi & file & [Hf|(Hge & Hf)]%lookup_app_Some & Hd).
        -- right. split; [|by eauto]. intros ->. apply Hfresh. exists i. apply Hn. eauto.
        -- apply list_lookup_singleton_Some in Hf as [Hz <-]. left. split; [done|lia].
  - unfold SourceRegistry.set_source_map in E. inv_ok. simplify_eq.
    rename select (SourceRegistry.source _ _ = Ok _) into Hs. unfold SourceRegistry.source in Hs. inv_ok.
    rename select (files self !! _ = Some _) into Hf. constructor; simpl.
    + apply Forall_insert; [done|]. simpl. by eapply (proj1 (Forall_lookup _ _) Hl).
    + intros n i. rewrite Hn. split; intros (Hi & file & Hfile & Hd); (split; [done|]).
      * destruct (decide (Z.to_nat i = Z.to_nat (id_index id))) as [Heq|Hne].
        -- rewrite Heq in *. simplify_eq. rewrite list_lookup_insert_eq by (by eapply lookup_lt_Some). eauto.
        -- rewrite list_lookup_insert_ne by done. eauto.
      * apply list_lookup_insert_Some in Hfile as [(Heq & <- & _)|[Hne Hfile]]; [|by eauto].
        rewrite <- Heq. eauto.
Qed.

Lemma registry_reachable {Map} identity (self : SourceRegistry Map) :
  rtc registry_step (SourceRegistry.new identity) self → registry_ok self.
Proof.
  assert (registry_ok (@SourceRegistry.new Map identity)) as Hnew.
  { constructor; [done|]. intros name i. simpl. rewrite lookup_empty. split; [done|]. intros (_ & file & ? & _). done. }
  intros Hr. induction Hr; eauto using registry_step_ok.
Qed.

Lemma registry_file {Map} (self : SourceRegistry Map) id file : registry_ok self → SourceRegistry.source self id = Ok file →
  LineIndex.new (file_text file) = Ok (file_lines file) ∧ files self !! Z.to_nat (id_index id) = Some file ∧
  id_registry id = identity self.
Proof.
  intros [Hl _] Hs. unfold SourceRegistry.source in Hs. inv_ok.
  rename select (negb _ = false) into Hi. apply negb_false_iff, Z.eqb_eq in Hi.
  split_and!; [|done|done]. by eapply (proj1 (Forall_lookup _ _) Hl).
Qed.

(** C26.  Positions are exact: in a registered source, whatever the order of
    registrations, a byte offset past the end or inside a character is refused
    as such, and at every other offset the answer is the line it lies in and
    one more than the bytes, characters or UTF-16 units before it in that line;
    no index or slice is out of range. *)
Theorem positions_exact {Map} (identity : Z) (self : SourceRegistry Map) (id : SourceId) (file : SourceFile Map)
    (Hself : rtc registry_step (SourceRegistry.new identity) self) (Hfile : SourceRegistry.source self id = Ok file)
    (offset : Z) (encoding : ColumnEncoding) :
  let text := file_text file in
  let answer := SourceRegistry.position_with_encoding self id offset encoding in
  (byte_len text < offset → answer = Err (Fail (SourceError.InvalidRange offset offset (byte_len text)))) ∧
  (offset ≤ byte_len text → (∀ before after, text = before ++ after → byte_len before ≠ offset) →
     answer = Err (Fail (SourceError.InvalidUtf8Boundary offset))) ∧
  (∀ before after, text = before ++ after → byte_len before = offset →
     ∃ i prefix suffix, located text offset i prefix suffix ∧
       before = concat (take i (split_lines text)) ++ prefix ∧
       answer = Ok (mkLineColumn (Z.of_nat i + 1) (column_units encoding prefix + 1))).
Proof.
  apply registry_reachable in Hself. destruct (registry_file _ _ _ Hself Hfile) as [Hindex _].
  unfold SourceRegistry.position_with_encoding. rewrite Hfile. cbn. split_and!.
  - intros Hlt. unfold LineIndex.position, validate_offset. by destruct (Z.ltb_spec (byte_len (file_text file)) offset); [|lia].
  - intros Hle Hno. unfold LineIndex.position, validate_offset.
    destruct (Z.ltb_spec (byte_len (file_text file)) offset); [lia|].
    destruct (is_char_boundary (file_text file) offset) eqn:E; [|done].
    apply is_char_boundary_spec in E as (before & after & Ht & Ho). by destruct (Hno before after).
  - intros before after Ht <-. destruct (boundary_located _ _ _ Ht) as (i & p & q & Hl & Hb & _).
    exists i, p, q. split_and!; [done|done|]. by eapply position_located.
Qed.

(** ** Excerpts *)

(** The offset of the last highlighted character, or of an empty highlight. *)
Definition last_highlighted (before highlighted : list Z) : Z :=
  match highlighted with
  | [] => byte_len before
  | _ => byte_len (before ++ removelast highlighted)
  end.

(** [s] shows [highlighted] of [text], after [before], in whole lines: from
    [context_before] lines ahead of the one it starts in to [context_after]
    lines behind the one it ends in, as far as there are. *)
Record excerpt_of (text before highlighted : list Z) (context_before context_after : nat) (s : SourceSnippet) : Prop := {
  excerpt_lines : ∃ i prefix suffix j prefix' suffix',
    located text (byte_len before) i prefix suffix ∧
    located text (last_highlighted before highlighted) j prefix' suffix' ∧
    let first := (i - context_before)%nat in
    let final := Nat.min (j + context_after) (length (split_lines text) - 1) in
    snippet_text s = concat (take (S final - first) (drop first (split_lines text))) ∧
    snippet_starts_at s = mkLineColumn (Z.of_nat first + 1) 1;
  excerpt_highlight : str_slice (snippet_text s) (span_first (snippet_highlight s)) (span_limit (snippet_highlight s))
    = Some highlighted }.

Lemma app_prefix (a b c d : list Z) : a ++ b = c ++ d → byte_len a ≤ byte_len c → ∃ k, c = a ++ k ∧ b = k ++ d.
Proof.
  intros [(k & -> & ->)|(k & -> & ->)]%app_eq_inv Hle; [|by eauto].
  rewrite byte_len_app in Hle. exists []. destruct k as [|x k]; [by rewrite !app_nil_r|].
  pose proof (byte_len_pos (x :: k) ltac:(done)). lia.
Qed.

Lemma byte_span_new text a b c start end_ : byte_len text ≤ u32_max → text = a ++ b ++ c →
  start = byte_len a → end_ = byte_len a + byte_len b → ByteSpan.new text start end_ = Ok (mkByteSpan start end_).
Proof.
  intros Hb E -> ->. unfold ByteSpan.new.
  assert (is_char_boundary text (byte_len a) = true) as -> by (rewrite E; apply is_char_boundary_app).
  assert (is_char_boundary text (byte_len a + byte_len b) = true) as ->.
  { rewrite E, app_assoc, <- byte_len_app. apply is_char_boundary_app. }
  pose proof (byte_len_nonneg a). pose proof (byte_len_nonneg b). pose proof (byte_len_nonneg c).
  assert (byte_len text = byte_len a + byte_len b + byte_len c) as Hl by (rewrite E, !byte_len_app; lia).
  unfold try_u32. repeat match goal with
  | |- context [?x <=? ?y] => destruct (Z.leb_spec x y); [|lia]
  | |- context [?x <? ?y] => destruct (Z.ltb_spec x y); [lia|]
  end. done.
Qed.

Lemma byte_span_Ok text start end_ span : ByteSpan.new text start end_ = Ok span →
  span = mkByteSpan start end_ ∧ byte_len text ≤ u32_max ∧
  ∃ a b c, text = a ++ b ++ c ∧ start = byte_len a ∧ end_ = byte_len a + byte_len b.
Proof.
  unfold ByteSpan.new. intros E. inv_ok.
  repeat match goal with
  | H : try_u32 _ = Some _ |- _ => apply try_u32_Some in H as [-> ?]
  | H : negb _ = false |- _ => apply negb_false_iff, is_char_boundary_spec in H as (? & ? & ? & ?)
  end.
  rename select (_ || _ = false) into Hr. apply orb_false_iff in Hr as [?%Z.ltb_ge ?%Z.ltb_ge].
  subst span. split; [done|]. split; [unfold is_u32, u32_max in *; lia|].
  rename select (byte_len _ = start) into Es. rename select (byte_len _ = end_) into Ee.
  assert (∃ a r d c, text = a ++ r ∧ text = d ++ c ∧ byte_len a = start ∧ byte_len d = end_) as (a & r & d & c & E1 & E2 & <- & <-)
    by (do 4 eexists; eauto).
  rewrite E1 in E2. destruct (app_prefix a r d c) as (k & -> & ->); [done|done|].
  exists a, k, c. by rewrite byte_len_app.
Qed.

(** The lines from [first] to [final]. *)
Lemma lines_between (lines : list (list Z)) first final : (first ≤ S final)%nat →
  concat lines = concat (take first lines) ++ concat (take (S final - first) (drop first lines)) ++ concat (drop (S final) lines).
Proof.
  intros Hf. assert (take (S final) lines = take first lines ++ take (S final - first) (drop first lines)) as E
    by (rewrite take_take_drop; f_equal; lia).
  rewrite <- (take_drop (S final) lines) at 1. by rewrite concat_app, E, concat_app, app_assoc.
Qed.

Section excerpts.
Context (text : list Z) (index : LineIndex) (Hindex : LineIndex.new text = Ok index).
Context (before highlighted after : list Z) (Htext : text = before ++ highlighted ++ after).
Local Notation lines := (split_lines text).

(** The line of the last highlighted byte is that of the last highlighted
    character. *)
Lemma last_highlighted_line : ∃ j prefix suffix,
  located text (last_highlighted before highlighted) j prefix suffix ∧
  (let end_ := byte_len before + byte_len highlighted in
   LineIndex.line_index_at index (if byte_len before =? end_ then byte_len before else Z.max (end_ - 1) 0) = j ∧
   end_ ≤ byte_len (concat (take (S j) lines))).
Proof.
  destruct highlighted as [|c mid _] using rev_ind.
  - destruct (boundary_located text before after) as (i & p & q & Hl & Hb & _); [done|]. exists i, p, q.
    split; [done|]. simpl. rewrite Z.add_0_r, Z.eqb_refl. split; [by eapply located_index|].
    destruct Hl as [Hi _ ->]. rewrite (concat_take_S _ _ _ Hi), byte_len_app. pose proof (byte_len_nonneg q). lia.
  - destruct (boundary_located text (before ++ mid) (c :: after)) as (i & p & q & Hl & Hb & Ha).
    { by rewrite Htext, <- !app_assoc. }
    exists i, p, q. assert (last_highlighted before (mid ++ [c]) = byte_len (before ++ mid)) as ->.
    { unfold last_highlighted. rewrite removelast_last. by destruct mid. }
    split; [done|]. cbv zeta. rewrite byte_len_app in Hl |- *. change (byte_len [c]) with (len_utf8 c + 0). rewrite Z.add_0_r.
    pose proof (len_utf8_bounds c). pose proof (byte_len_nonneg before). pose proof (byte_len_nonneg mid).
    destruct (Z.eqb_spec (byte_len before) (byte_len before + (byte_len mid + len_utf8 c))); [lia|].
    rewrite Z.max_l by lia. destruct q as [|d q].
    { destruct Hl as [Hi Hlast _]. specialize (Hlast eq_refl). rewrite drop_ge in Ha by lia. done. }
    simpl in Ha. injection Ha as <- _. destruct Hl as [Hi _ Ho].
    pose proof (concat_take_S _ _ _ Hi) as Hs. rewrite byte_len_app in Hs. simpl in Hs. pose proof (byte_len_nonneg q).
    pose proof (byte_len_nonneg p). split; [|lia].
    eapply line_index_at_eq; [done|by eapply lookup_lt_Some|lia|lia].
Qed.
End excerpts.

Lemma located_unique text offset i p q i' p' q' : byte_len text ≤ u32_max →
  located text offset i p q → located text offset i' p' q' → i = i'.
Proof.
  intros Hb H1 H2. assert (LineIndex.new text = Ok (mkLineIndex (line_offsets 0 (split_lines text)))) as Hi by (by apply line_index_new).
  by rewrite <- (located_index _ _ Hi _ _ _ _ H1), (located_index _ _ Hi _ _ _ _ H2).
Qed.

(** An offset further on is in no earlier line. *)
Lemma located_le text o i p q o' j p' q' : o ≤ o' → located text o i p q → located text o' j p' q' → (i ≤ j)%nat.
Proof.
  intros Hle [Hi _ Ho] [Hj Hlast Ho']. destruct (decide (i ≤ j)%nat); [done|]. exfalso.
  pose proof (concat_take_le (split_lines text) (S j) i ltac:(lia)) as Ht. rewrite (concat_take_S _ _ _ Hj), byte_len_app in Ht.
  pose proof (byte_len_nonneg p). apply lookup_lt_Some in Hi.
  assert (q' ≠ []) as Hq%byte_len_pos by (intros ->; specialize (Hlast eq_refl); lia). lia.
Qed.

(** The span of a registry's source, in terms of its text. *)
Lemma span_Ok {Map} (self : SourceRegistry Map) id start end_ span file : SourceRegistry.source self id = Ok file →
  SourceRegistry.span self id start end_ = Ok span →
  span = mkSourceSpan id (mkByteSpan start end_) ∧ byte_len (file_text file) ≤ u32_max ∧
  ∃ before highlighted after, file_text file = before ++ highlighted ++ after ∧
    start = byte_len before ∧ end_ = byte_len before + byte_len highlighted.
Proof.
  intros Hf Hs. unfold SourceRegistry.span in Hs. rewrite Hf in Hs. cbn in Hs. inv_ok. subst span.
  rename select (ByteSpan.new _ _ _ = Ok _) into Hn. apply byte_span_Ok in Hn as (-> & Hb & Hx). done.
Qed.

Lemma last_highlighted_le before highlighted : byte_len before ≤ last_highlighted before highlighted.
Proof.
  unfold last_highlighted. destruct highlighted; [lia|]. rewrite byte_len_app.
  match goal with |- context [removelast ?l] => pose proof (byte_len_nonneg (removelast l)) end. lia.
Qed.

(** The excerpt from the line [first] to the line [final] around the highlight. *)
Lemma excerpt_parts text before highlighted after i prefix suffix j first final :
  text = before ++ highlighted ++ after → located text (byte_len before) i prefix suffix →
  before = concat (take i (split_lines text)) ++ prefix →
  byte_len before + byte_len highlighted ≤ byte_len (concat (take (S j) (split_lines text))) →
  (first ≤ i)%nat → (i ≤ j ≤ final)%nat →
  let lines := split_lines text in
  let excerpt := concat (take (S final - first) (drop first lines)) in
  text = concat (take first lines) ++ excerpt ++ concat (drop (S final) lines) ∧
  byte_len (concat (take (S final) lines)) = byte_len (concat (take first lines)) + byte_len excerpt ∧
  ∃ x k, before = concat (take first lines) ++ x ∧ excerpt = x ++ highlighted ++ k.
Proof.
  intros Ht Hi Hbefore Hend Hfirst Hj lines excerpt.
  assert (Hwhole : text = concat (take first lines) ++ excerpt ++ concat (drop (S final) lines)).
  { rewrite <- (split_lines_concat text) at 1. apply lines_between. lia. }
  assert (Hto : concat (take first lines) ++ excerpt = concat (take (S final) lines)).
  { unfold excerpt. rewrite <- concat_app, take_take_drop. do 2 f_equal. lia. }
  split; [done|]. split; [by rewrite <- Hto, byte_len_app|].
  assert (before = concat (take first lines) ++ concat (take (i - first) (drop first lines)) ++ prefix) as Hx.
  { rewrite Hbefore at 1. rewrite app_assoc, <- concat_app, take_take_drop. do 3 f_equal. lia. }
  destruct (app_prefix (before ++ highlighted) after (concat (take (S final) lines)) (concat (drop (S final) lines)))
    as (k & Hk & _).
  { rewrite <- Hto, <- !app_assoc, <- Ht. done. }
  { rewrite byte_len_app. pose proof (concat_take_le lines (S j) (S final) ltac:(lia)). fold lines in Hend. lia. }
  eexists _, k. split; [exact Hx|]. rewrite <- Hto, Hx, <- !app_assoc in Hk. apply app_inv_head in Hk. by rewrite <- app_assoc.
Qed.

(** The first character of a line is at its start. *)
Lemma line_start_located text i line : split_lines text !! i = Some line →
  located text (byte_len (concat (take i (split_lines text)))) i [] line.
Proof.
  intros Hi. constructor; [done| |simpl; lia]. intros ->.
  destruct (split_lines_parts _ _ _ Hi) as (c & t & [E _ Ht]). case_bool_decide; [done|].
  destruct Ht as [->|(? & -> & _)]; by destruct c.
Qed.

Lemma snippet_excerpt {Map} (self : SourceRegistry Map) id file before highlighted after n m :
  registry_ok self → SourceRegistry.source self id = Ok file → file_text file = before ++ highlighted ++ after →
  ∃ s, SourceRegistry.snippet self (mkSourceSpan id (mkByteSpan (byte_len before) (byte_len before + byte_len highlighted))) n m
    = Ok s ∧ snippet_source_name s = display_name file ∧ excerpt_of (file_text file) before highlighted n m s.
Proof.
  intros Hok Hf Ht. destruct (registry_file _ _ _ Hok Hf) as [Hindex _].
  set (text := file_text file) in *. set (index := file_lines file) in *.
  destruct (boundary_located _ _ _ Ht) as (i & p & q & Hi & Hbefore & _).
  destruct (last_highlighted_line text index Hindex before highlighted after Ht) as (j & p' & q' & Hj & Hline & Hend).
  pose proof (located_le _ _ _ _ _ _ _ _ _ (last_highlighted_le before highlighted) Hi Hj) as Hij.
  pose proof (lookup_lt_Some _ _ _ (located_line _ _ _ _ _ Hj)) as Hjl.
  set (first := (i - n)%nat). set (final := Nat.min (j + m) (length (split_lines text) - 1)).
  assert (first ≤ i ∧ j ≤ final < length (split_lines text))%nat as [Hfirst Hfinal] by (unfold first, final; lia).
  destruct (excerpt_parts text before highlighted after i p q j first final) as (Hwhole & Hlen & x & k & Hx & Hk); [done..|lia|lia|].
  cbv zeta in *. set (lines := split_lines text) in *. set (excerpt := concat (take (S final - first) (drop first lines))) in *.
  destruct (lookup_lt_is_Some_2 lines final) as [fl Hfl]; [apply Hfinal|].
  destruct (lookup_lt_is_Some_2 lines first) as [ffl Hffl]; [clearbody first; lia|].
  unfold SourceRegistry.snippet. cbn [span_source span_bytes span_first span_limit]. rewrite Hf.
  cbn [lift map_err mbind result_bind]. fold text index. rewrite (located_index text index Hindex _ _ _ _ Hi), Hline.
  rewrite (starts_length text index Hindex). fold lines. fold first. fold final.
  rewrite (starts_lookup text index Hindex first) by (by eapply lookup_lt_Some). cbn [expect ok_or mbind result_bind].
  rewrite (next_start text index Hindex final fl Hfl). fold lines. rewrite Hlen.
  assert (str_slice text (byte_len (concat (take first lines))) (byte_len (concat (take first lines)) + byte_len excerpt)
    = Some excerpt) as ->.
  { rewrite Hwhole at 1. by apply str_slice_app. }
  cbn [expect ok_or mbind result_bind]. rewrite Hx, byte_len_app. pose proof (byte_len_nonneg x). pose proof (byte_len_nonneg highlighted).
  set (base := byte_len (concat (take first lines))).
  destruct (Z.ltb_spec (base + byte_len x) base); [lia|].
  destruct (Z.ltb_spec (base + byte_len x + byte_len highlighted) base); [lia|]. cbn [expect ok_or mbind result_bind].
  assert (byte_len excerpt ≤ u32_max) as He.
  { apply line_index_new in Hindex as [Hb _]. rewrite Hwhole, !byte_len_app in Hb.
    pose proof (byte_len_nonneg (concat (take first lines))). pose proof (byte_len_nonneg (concat (drop (S final) lines))). lia. }
  rewrite (byte_span_new excerpt x highlighted k) by (done || lia). cbn [lift map_err mbind result_bind].
  pose proof (position_located text index Hindex _ _ _ _ ColumnEncoding.UnicodeScalar (line_start_located _ _ _ Hffl)) as Hpos.
  fold lines base in Hpos. rewrite Hpos.
  eexists. split; [done|]. split; [done|]. constructor; cbn [snippet_text snippet_highlight snippet_starts_at span_first span_limit].
  - exists i, p, q, j, p', q'. rewrite Hx in Hi, Hj. by split_and!.
  - rewrite Hk. replace (base + byte_len x - base) with (byte_len x) by lia. by apply str_slice_app; lia.
Qed.

(** C39. Excerpts are exact: for every span a registry hands out, and any
    number of context lines, the excerpt exists; it consists of whole lines of
    the source, from the requested number of lines ahead of the start of the
    span to the requested number behind the last highlighted character, as far
    as the source has them; its highlight is the text of the span. *)
Theorem snippet_exact {Map} (identity : Z) (self : SourceRegistry Map) (id : SourceId) (file : SourceFile Map)
    (start end_ : Z) (span : SourceSpan) (context_before context_after : nat)
    (Hself : rtc registry_step (SourceRegistry.new identity) self) (Hfile : SourceRegistry.source self id = Ok file)
    (Hspan : SourceRegistry.span self id start end_ = Ok span) :
  ∃ before highlighted after s, file_text file = before ++ highlighted ++ after ∧
    start = byte_len before ∧ end_ = byte_len before + byte_len highlighted ∧
    SourceRegistry.snippet self span context_before context_after = Ok s ∧
    snippet_source_name s = display_name file ∧
    excerpt_of (file_text file) before highlighted context_before context_after s.
Proof.
  apply registry_reachable in Hself. destruct (span_Ok _ _ _ _ _ _ Hfile Hspan) as (-> & _ & before & hl & after & Ht & -> & ->).
  destruct (snippet_excerpt self id file before hl after context_before context_after Hself Hfile Ht) as (s & Hs & Hn & He).
  by exists before, hl, after, s.
Qed.

(** ** A small registry *)

(** [a], a carriage return with its line feed, [é], a line feed, [b]. *)
Definition small_text : list Z := [97; CR; LF; 233; LF; 98].

Definition small_registry : SourceRegistry unit :=
  match SourceRegistry.register (SourceRegistry.new 7) [102] small_text with
  | Ok (_, self) => self
  | Err _ => SourceRegistry.new 7
  end.

Lemma small_reachable : rtc registry_step (SourceRegistry.new 7) small_registry.
Proof. eapply rtc_once, (step_register _ [102] small_text None). vm_compute. reflexivity. Qed.

Lemma positions_exact_witness :
  ∃ i prefix suffix, located small_text 6 i prefix suffix ∧
    SourceRegistry.position_with_encoding small_registry (mkSourceId 7 0) 6 ColumnEncoding.Utf8Byte
      = Ok (mkLineColumn (Z.of_nat i + 1) (byte_len prefix + 1)) ∧
    SourceRegistry.position small_registry (mkSourceId 7 0) 5 = Ok (mkLineColumn 2 2) ∧
    SourceRegistry.position small_registry (mkSourceId 7 0) 4 = Err (Fail (SourceError.InvalidUtf8Boundary 4)).
Proof.
  pose proof (positions_exact 7 small_registry (mkSourceId 7 0) _ small_reachable ltac:(vm_compute; reflexivity) 6
    ColumnEncoding.Utf8Byte) as (_ & _ & H).
  destruct (H [97; CR; LF; 233; LF] [98]) as (i & p & q & Hl & _ & E); [vm_compute; reflexivity|vm_compute; reflexivity|].
  exists i, p, q. split; [exact Hl|]. split; [exact E|]. split; vm_compute; reflexivity.
Defined.

Lemma snippet_exact_witness :
  ∃ s, SourceRegistry.snippet small_registry (mkSourceSpan (mkSourceId 7 0) (mkByteSpan 3 5)) 0 0 = Ok s ∧
    snippet_text s = [233; LF] ∧ snippet_highlight s = mkByteSpan 0 2 ∧ snippet_starts_at s = mkLineColumn 2 1 ∧
    ∃ before highlighted, excerpt_of small_text before highlighted 0 0 s.
Proof.
  destruct (snippet_exact 7 small_registry (mkSourceId 7 0)
    (mkSourceFile [102] small_text (mkLineIndex [0; 3; 6]) None) 3 5 (mkSourceSpan (mkSourceId 7 0) (mkByteSpan 3 5)) 0 0
    small_reachable) as (before & hl & after & s & _ & _ & _ & Hs & _ & He); [vm_compute; reflexivity|vm_compute; reflexivity|].
  exists s. split; [exact Hs|]. revert He. vm_compute in Hs. injection Hs as <-. intros He.
  split; [reflexivity|]. split; [reflexivity|]. split; [reflexivity|]. by exists before, hl.
Defined.
