(* ===== verification/SourceMapFacts.v ===== *)
(** * Source-map positions and resolution

    Byte offsets and source-map positions are inverse to each other, and a
    resolution follows the chain of registered maps to its end. *)

From S2P Require Import Prelude RuntimePrelude Sources SourceMaps SourceFacts.
From stdpp Require Import list gmap relations.
Local Open Scope Z_scope.

(** ** Positions *)

Lemma lines_before_nonempty text i : (i < length (split_lines text))%nat →
  Z.of_nat i ≤ byte_len (concat (take i (split_lines text))).
Proof.
  induction i as [|i IH]; intros Hi; [done|].
  destruct (lookup_lt_is_Some_2 (split_lines text) i) as [line Hl]; [lia|].
  rewrite (concat_take_S _ _ _ Hl). specialize (IH ltac:(lia)).
  assert (line ≠ []) as Hne%byte_len_pos; [|lia].
  intros ->. destruct (line_start_located _ _ _ Hl) as [_ Hlast _]. specialize (Hlast eq_refl). lia.
Qed.

Lemma position_boundary index text offset encoding x :
  LineIndex.position index text offset encoding = Ok x → is_char_boundary text offset = true.
Proof.
  unfold LineIndex.position. intros (y & Hv & _)%bind_Ok. apply (proj1 (lift_Ok _ _)) in Hv.
  unfold validate_offset in Hv. apply bind_Ok in Hv as (? & _ & Hv%reject_if_Ok). by apply negb_false_iff.
Qed.

Section positions.
Context {D : Type} `{DecodedMaps D} (self : SourceRegistry D) (Hself : registry_ok self).

Lemma source_map_position_Ok id file offset position : SourceRegistry.source self id = Ok file →
  source_map_position self id offset = Ok position ↔
  ∃ prefix suffix, located (file_text file) offset (Z.to_nat (pos_line position)) prefix suffix ∧
    0 ≤ pos_line position ≤ u32_max ∧ pos_column position = utf16_len prefix.
Proof.
  intros Hf. destruct (registry_file _ _ _ Hself Hf) as [Hindex _]. destruct position as [line column].
  unfold source_map_position, SourceRegistry.position_with_encoding. rewrite Hf. cbn [lift map_err mbind result_bind].
  assert (Hat : ∀ i prefix suffix, located (file_text file) offset i prefix suffix →
    is_u32 (Z.of_nat i) ∧ is_u32 (utf16_len prefix)).
  { intros i prefix suffix Hl. pose proof (located_text _ _ _ _ _ Hl) as Ht. destruct Hl as [Hi _ _].
    apply lookup_lt_Some, lines_before_nonempty in Hi. apply line_index_new in Hindex as [Hb _].
    rewrite Ht, !byte_len_app in Hb. pose proof (utf16_len_bounds prefix) as [? _].
    pose proof (byte_len_nonneg suffix). pose proof (byte_len_nonneg (concat (drop (S i) (split_lines (file_text file))))).
    unfold is_u32, u32_max in *. lia. }
  assert (Hgo : ∀ i prefix suffix, located (file_text file) offset i prefix suffix →
    (position ← LineIndex.position (file_lines file) (file_text file) offset ColumnEncoding.Utf16CodeUnit;
     line ← lift (ok_or (try_u32 (lc_line position - 1)) (SourceError.InvalidSourceMapPosition u32_max 0));
     column ← lift (ok_or (try_u32 (lc_column position - 1)) (SourceError.InvalidSourceMapPosition line u32_max));
     Ok (mkPosition line column)) = Ok (mkPosition (Z.of_nat i) (utf16_len prefix))).
  { intros i prefix suffix Hl. destruct (Hat _ _ _ Hl) as [Hu1 Hu2].
    rewrite (position_located _ _ Hindex _ _ _ _ _ Hl). cbn [mbind result_bind lc_line lc_column].
    rewrite !Z.add_simpl_r, (proj2 (try_u32_Some _ _) (conj eq_refl Hu1)). cbn [ok_or lift map_err mbind result_bind].
    by rewrite (proj2 (try_u32_Some _ _) (conj eq_refl Hu2)). }
  split.
  - intros E. assert (is_char_boundary (file_text file) offset = true) as Hb.
    { apply bind_Ok in E as (x & Hp & _). by eapply position_boundary. }
    apply is_char_boundary_spec in Hb as (before & after & Ht & <-).
    destruct (boundary_located _ _ _ Ht) as (i & p & q & Hl & _). rewrite (Hgo _ _ _ Hl) in E. injection E as <- <-.
    destruct (Hat _ _ _ Hl) as [? _]. exists p, q. cbn [pos_line pos_column]. rewrite Nat2Z.id. unfold is_u32, u32_max in *.
    split_and!; [done|lia|lia|done].
  - intros (prefix & suffix & Hl & Hr & Hc). cbn [pos_line pos_column] in *. rewrite (Hgo _ _ _ Hl), Hc. do 2 f_equal. lia.
Qed.
End positions.

(** A position converts to the offsets that convert to it, those between a
    carriage return and its line feed excepted, and is refused otherwise. *)
Record positions_agree {D} `{DecodedMaps D} (self : SourceRegistry D) (id : SourceId) (file : SourceFile D)
    (position : SourceMapPosition) : Prop := {
  agree_offset offset : byte_offset_for_source_map_position self id position = Ok offset ↔
    source_map_position self id offset = Ok position ∧ ¬ splits_crlf (file_text file) offset;
  agree_refused : byte_offset_for_source_map_position self id position
      = Err (Fail (SourceError.InvalidSourceMapPosition (pos_line position) (pos_column position))) ∨
    ∃ offset, byte_offset_for_source_map_position self id position = Ok offset }.

(** C24.  Source-map positions and byte offsets are inverse: in a registered
    source a line and UTF-16 column convert to a byte offset exactly when that
    offset has this position and does not lie between a carriage return and
    its line feed; every other position is refused as such. *)
Theorem source_map_positions_inverse {D} `{DecodedMaps D} (identity : Z) (self : SourceRegistry D) (id : SourceId)
    (file : SourceFile D) (Hself : rtc registry_step (SourceRegistry.new identity) self)
    (Hfile : SourceRegistry.source self id = Ok file) (position : SourceMapPosition) :
  positions_agree self id file position.
Proof.
  apply registry_reachable in Hself. destruct (registry_file _ _ _ Hself Hfile) as [Hindex _].
  pose proof (λ offset, source_map_position_Ok self Hself id file offset position Hfile) as Hpos.
  destruct (byte_offset_spec _ _ Hindex (pos_line position) (pos_column position)) as [Hfound Hall].
  constructor; unfold byte_offset_for_source_map_position; rewrite Hfile; cbn [lift map_err mbind result_bind].
  - intros offset. rewrite Hpos. split.
    + destruct Hall as [->|(p & q & o & Hr & Hl & Hu & Hns & ->)]; [done|]. intros [= <-]. split; [|done].
      exists p, q. split_and!; [done|done| |done].
      assert (Hpos' : located (file_text file) o (Z.to_nat (pos_line position)) p q) by done.
      pose proof (located_text _ _ _ _ _ Hl) as Ht. destruct Hl as [Hi _ _]. apply lookup_lt_Some, lines_before_nonempty in Hi.
      apply line_index_new in Hindex as [Hb _]. rewrite Ht, byte_len_app in Hb.
      match type of Hb with _ + byte_len ?r ≤ _ => pose proof (byte_len_nonneg r) end. lia.
    + intros ((p & q & Hl & Hr & Hc) & Hns). by eapply Hfound.
  - destruct Hall as [->|(p & q & o & _ & _ & _ & _ & ->)]; eauto.
Qed.

(** ** Lookups *)

Lemma last_while_Some {A} (p : A → bool) found l x : last_while p found l = Some x → found = Some x ∨ p x = true ∧ x ∈ l.
Proof.
  revert found. induction l as [|y l IH]; intros found; simpl; [by left|].
  destruct (p y) eqn:E; [|by left]. intros [[= ->]|[Hp Hx]]%IH; right; (split; [done|set_solver]).
Qed.

Section lookups.
Context {D : Type} `{NestedMaps D}.

Lemma unresolved_section_url_total fuel map line column : (nesting map < fuel)%nat →
  ∃ url, unresolved_section_url fuel map line column = Ok url.
Proof.
  revert map line column. induction fuel as [|fuel IH]; intros map line column Hf; [lia|]. cbn [unresolved_section_url].
  destruct (index_sections map) as [sections|] eqn:Hs; [|by eauto].
  destruct (last_while _ None sections) as [section|] eqn:Hl; [|by eauto].
  apply last_while_Some in Hl as [?|[Hp Hin]]; [done|]. destruct (get_offset section) as [oline ocolumn].
  unfold pair_le in Hp. cbn [fst snd] in Hp. unfold sub_or_panic.
  assert (¬ line < oline ∧ (line = oline → ¬ column < ocolumn)) as [Hline Hcol] by (bool_to_prop; lia).
  destruct (Z.ltb_spec line oline); [done|]. cbn [expect ok_or mbind result_bind].
  destruct (Z.eqb_spec line oline) as [->|]; [destruct (Z.ltb_spec column ocolumn); [naive_solver|]|];
    cbn [expect ok_or mbind result_bind]; (destruct (get_sourcemap section) as [nested|] eqn:Hn; [|by eauto]);
    apply IH; pose proof (nested_deeper _ _ _ _ Hs Hin Hn); lia.
Qed.

(** A lookup answers or reports a failure of its own. *)
Lemma lookup_total map position :
  (∃ mapping, SourceMaps.lookup map position = Ok mapping) ∨
  ∃ kind, SourceMaps.lookup map position = Err (Fail (SourceMapError.new kind)) ∧ kind ≠ SourceMapErrorKind.ChainDepthExceeded.
Proof.
  unfold SourceMaps.lookup, lookup_mapping.
  destruct (unresolved_section_url_total (S (nesting map)) map (pos_line position) (pos_column position)) as [url ->]; [lia|].
  cbn [mbind result_bind]. destruct url as [url|]; [right; by eexists|].
  destruct (lookup_token map (pos_line position) (pos_column position)) as [[token|]|];
    cbn [expect ok_or mbind result_bind]; [|left; by eexists|right; by eexists].
  destruct (negb _ || _ || _); [left; by eexists|]. destruct (get_source token); [left; by eexists|right; by eexists].
Qed.
End lookups.

(** ** Chains *)

Notation place := (SourceId * SourceMapPosition)%type.

Section chains.
Context {D : Type} `{DecodedMaps D} (self : SourceRegistry D).

(** The position is one of the registered source. *)
Definition valid_place (here : place) (file : SourceFile D) : Prop :=
  SourceRegistry.source self here.1 = Ok file ∧ ∃ offset, byte_offset_for_source_map_position self here.1 here.2 = Ok offset.

(** The source's map has a mapping for the position. *)
Definition maps_to (here : place) (mapping : SourceMapMapping) : Prop :=
  ∃ file map, valid_place here file ∧ incoming_source_map file = Some map ∧ SourceMaps.lookup map here.2 = Ok (Some mapping).

(** The end of a chain: a source without a map, or with none for the position. *)
Definition unmapped (here : place) : Prop :=
  ∃ file, valid_place here file ∧
    (incoming_source_map file = None ∨ ∃ map, incoming_source_map file = Some map ∧ SourceMaps.lookup map here.2 = Ok None).

(** Where a mapping leads, when its source is registered. *)
Definition leads_to (mapping : SourceMapMapping) : option place :=
  (λ id, (id, mapping_original mapping)) <$> SourceRegistry.source_id_by_name self (mapping_source_name mapping).

(** The mappings from a place to the end of its chain. *)
Inductive chain : place → list SourceMapMapping → Prop :=
| chain_ends here : unmapped here → chain here []
| chain_leaves here mapping : maps_to here mapping → leads_to mapping = None → chain here [mapping]
| chain_hops here mapping next mappings :
    maps_to here mapping → leads_to mapping = Some next → chain next mappings → chain here (mapping :: mappings).

(** One hop between registered sources. *)
Definition hop (here next : place) : Prop := ∃ mapping, maps_to here mapping ∧ leads_to mapping = Some next.

(** What a resolution reports after the mappings of a chain. *)
Definition original_after (start : OriginalLocation) (mappings : list SourceMapMapping) : OriginalLocation :=
  match last mappings with
  | Some mapping => mkOriginal (mapping_source_name mapping)
      (SourceRegistry.source_id_by_name self (mapping_source_name mapping)) (mapping_original mapping)
      (mapping_source_content mapping)
  | None => start
  end.

Fixpoint name_after (start : option (list Z)) (mappings : list SourceMapMapping) : option (list Z) :=
  match mappings with
  | [] => start
  | mapping :: mappings =>
      name_after (match mapping_name mapping with Some name => Some name | None => start end) mappings
  end.

Lemma maps_to_det here m m' : maps_to here m → maps_to here m' → m = m'.
Proof.
  intros (f & map & [Hf _] & Hm & Hl) (f' & map' & [Hf' _] & Hm' & Hl'). congruence.
Qed.

Lemma unmapped_maps_to here m : unmapped here → ¬ maps_to here m.
Proof.
  intros (f & [Hf _] & Hu) (f' & map & [Hf' _] & Hm & Hl). rewrite Hf in Hf'. injection Hf' as <-.
  destruct Hu as [?|(map' & ? & ?)]; congruence.
Qed.

Lemma chain_det here ms ms' : chain here ms → chain here ms' → ms = ms'.
Proof.
  intros Hc. revert ms'. induction Hc as [here Hu|here m Hm Hl|here m next ms Hm Hl Hc IH]; intros ms' Hc'.
  - inversion Hc'; subst; [done|exfalso; by eapply unmapped_maps_to|exfalso; by eapply unmapped_maps_to].
  - inversion Hc' as [? Hu|? m' Hm' Hl'|? m' next' ms'' Hm' Hl' Hc'']; subst.
    + exfalso. by eapply unmapped_maps_to.
    + by rewrite (maps_to_det _ _ _ Hm Hm').
    + rewrite (maps_to_det _ _ _ Hm Hm') in Hl. congruence.
  - inversion Hc' as [? Hu|? m' Hm' Hl'|? m' next' ms'' Hm' Hl' Hc'']; subst.
    + exfalso. by eapply unmapped_maps_to.
    + rewrite (maps_to_det _ _ _ Hm Hm') in Hl. congruence.
    + rewrite (maps_to_det _ _ _ Hm Hm') in *. assert (next' = next) as -> by congruence. f_equal. auto.
Qed.

(** A hop shortens a chain, so no chain comes back. *)
Lemma chain_hop here next ms : hop here next → chain here ms → ∃ ms', chain next ms' ∧ (length ms' < length ms)%nat.
Proof.
  intros (m & Hm & Hl) Hc. inversion Hc as [? Hu|? m' Hm' Hl'|? m' next' ms' Hm' Hl' Hc']; subst.
  - exfalso. by eapply unmapped_maps_to.
  - rewrite (maps_to_det _ _ _ Hm Hm') in Hl. congruence.
  - rewrite (maps_to_det _ _ _ Hm Hm') in Hl. assert (next' = next) as -> by congruence. exists ms'. simpl. eauto with lia.
Qed.

Lemma chain_hops_shorter here next ms : tc hop here next → chain here ms → ∃ ms', chain next ms' ∧ (length ms' < length ms)%nat.
Proof.
  intros Ht. revert ms. induction Ht as [here next Hh|here mid next Hh _ IH]; intros ms Hc; [by eapply chain_hop|].
  destruct (chain_hop _ _ _ Hh Hc) as (ms' & Hc' & ?). destruct (IH _ Hc') as (ms'' & ? & ?). exists ms''. split; [done|lia].
Qed.

Lemma cyclic_no_chain here ms : tc hop here here → ¬ chain here ms.
Proof.
  intros Ht Hc. destruct (chain_hops_shorter _ _ _ Ht Hc) as (ms' & Hc' & Hlt). rewrite (chain_det _ _ _ Hc Hc') in Hlt. lia.
Qed.
End chains.

(** ** Resolution *)

Section resolution.
Context {D : Type} `{NestedMaps D} (self : SourceRegistry D) (Hself : registry_ok self).
Local Notation here state := (current_id state, current_position state).

Lemma from_registry_lift {A} (m : result SourceError A) :
  from_registry (lift m) = match m with Ok a => Ok a | Err e => Err (Fail (SourceMapError.from_source e)) end.
Proof. by destruct m. Qed.

(** The check of a place that every turn starts with. *)
Lemma place_checked id position :
  (∃ file, valid_place self (id, position) file ∧ SourceRegistry.source self id = Ok file ∧
     validate_source_map_position file position = Ok tt) ∨
  (∀ file, ¬ valid_place self (id, position) file) ∧
  ∃ e, (file ← from_registry (lift (SourceRegistry.source self id)); from_registry (validate_source_map_position file position))
    = Err (Fail (SourceMapError.from_source e)).
Proof.
  rewrite from_registry_lift. unfold valid_place, byte_offset_for_source_map_position, validate_source_map_position. cbn [fst snd].
  destruct (SourceRegistry.source self id) as [file|e] eqn:Hf; cbn [lift map_err mbind result_bind].
  2: { right. split; [by intros ? [? _]|by exists e]. }
  destruct (registry_file _ _ _ Hself Hf) as [Hindex _].
  destruct (byte_offset_spec _ _ Hindex (pos_line position) (pos_column position)) as [_ [Ho|(_ & _ & o & _ & _ & _ & _ & Ho)]];
    rewrite Ho; cbn.
  - right. split; [|by eexists]. intros file' [? (o & ?)]. done.
  - left. exists file. rewrite Ho. eauto.
Qed.

(** A place off the registered sources ends no chain. *)
Lemma invalid_no_chain place ms : (∀ file, ¬ valid_place self place file) → ¬ chain self place ms.
Proof.
  intros Hv Hc. inversion Hc as [? (f & ? & _)|? ? (f & ? & ? & _)|? ? ? ? (f & ? & ? & _)]; subst; by eapply Hv.
Qed.

(** What one turn does. *)
Inductive turn (max_depth : nat) (state : Resolution) : outcome SourceMapError (Resolution + Resolution) → Prop :=
| turn_ends : unmapped self (here state) → turn max_depth state (Ok (inr state))
| turn_leaves mapping : maps_to self (here state) mapping → leads_to self mapping = None →
    current_hops state ≠ max_depth →
    turn max_depth state (Ok (inr (mkResolution (current_id state) (current_position state)
      (original_after self (current_original state) [mapping]) (name_after (current_name state) [mapping])
      (S (current_hops state)) (here state :: visited state))))
| turn_hops mapping next : maps_to self (here state) mapping → leads_to self mapping = Some next →
    current_hops state ≠ max_depth → here state ∉ visited state →
    turn max_depth state (Ok (inl (mkResolution next.1 next.2
      (original_after self (current_original state) [mapping]) (name_after (current_name state) [mapping])
      (S (current_hops state)) (here state :: visited state))))
| turn_too_deep mapping : maps_to self (here state) mapping → current_hops state = max_depth →
    turn max_depth state (Err (Fail (SourceMapError.new SourceMapErrorKind.ChainDepthExceeded)))
| turn_cycles : here state ∈ visited state →
    turn max_depth state (Err (Fail (SourceMapError.new SourceMapErrorKind.ChainCycle)))
| turn_fails e : (∀ ms, ¬ chain self (here state) ms) → error_kind e ≠ SourceMapErrorKind.ChainDepthExceeded →
    turn max_depth state (Err (Fail e)).

Lemma resolve_step_turn max_depth state : turn max_depth state (resolve_step self max_depth state).
Proof.
  destruct (place_checked (current_id state) (current_position state)) as [(file & Hv & Hf & Hc)|[Hv (e & He)]].
  2: { assert (resolve_step self max_depth state = Err (Fail (SourceMapError.from_source e))) as ->.
    { unfold resolve_step. revert He. destruct (from_registry (lift _)) as [f|]; [|by intros [= ->]]. cbn [mbind result_bind].
      destruct (from_registry (validate_source_map_position f _)) as [|]; [done|by intros [= ->]]. }
    apply turn_fails; [|done]. intros ms. by apply invalid_no_chain. }
  unfold resolve_step. rewrite from_registry_lift, Hf. cbn [mbind result_bind]. rewrite Hc. cbn [from_registry map_err mbind result_bind].
  destruct (incoming_source_map file) as [map|] eqn:Hm.
  2: { apply turn_ends. exists file. eauto. }
  case_bool_decide as Hin; [by apply turn_cycles|].
  destruct (lookup_total map (current_position state)) as [([mapping|] & Hl)|(kind & Hl & Hk)]; rewrite Hl; cbn [mbind result_bind].
  - assert (Hto : maps_to self (here state) mapping) by (exists file, map; eauto).
    destruct (Nat.eqb_spec (current_hops state) max_depth); [by eapply turn_too_deep|].
    destruct (SourceRegistry.source_id_by_name self (mapping_source_name mapping)) as [next|] eqn:Hn.
    + pose proof (turn_hops max_depth state mapping (next, mapping_original mapping) Hto) as Ht.
      cbn in Ht. rewrite Hn in Ht. apply Ht; [|done|done]. unfold leads_to. by rewrite Hn.
    + pose proof (turn_leaves max_depth state mapping Hto) as Ht. cbn in Ht. rewrite Hn in Ht. apply Ht; [|done].
      unfold leads_to. by rewrite Hn.
  - apply turn_ends. exists file. eauto.
  - apply turn_fails; [|done]. intros ms Hch.
    inversion Hch as [? (f & [Hf' _] & Hu)|? ? (f & m & [Hf' _] & Hm' & Hl')|? ? ? ? (f & m & [Hf' _] & Hm' & Hl')]; subst;
      cbn [fst snd] in *; rewrite Hf in Hf'; injection Hf' as <-; try congruence.
    destruct Hu as [?|(m & ? & ?)]; congruence.
Qed.

(** The answer of a resolution from a state that has made some hops already. *)
Definition resolved (max_depth : nat) (state : Resolution) (answer : outcome SourceMapError Resolution) : Prop :=
  match answer with
  | Ok state' => ∃ ms, chain self (here state) ms ∧ (current_hops state + length ms ≤ max_depth)%nat ∧
      current_original state' = original_after self (current_original state) ms ∧
      current_name state' = name_after (current_name state) ms ∧
      current_hops state' = (current_hops state + length ms)%nat
  | Err (Fail e) =>
      ∀ ms, chain self (here state) ms →
        error_kind e = SourceMapErrorKind.ChainDepthExceeded ∧ (max_depth < current_hops state + length ms)%nat
  | Err _ => False
  end.

Lemma resolve_loop_resolved max_depth fuel state :
  (current_hops state ≤ max_depth)%nat → fuel = S (max_depth - current_hops state) →
  (∀ p, p ∈ visited state → tc (hop self) p (here state)) →
  resolved max_depth state (resolve_loop self max_depth fuel state).
Proof.
  revert state. induction fuel as [|fuel IH]; intros state Hh Hf Hvis; [done|]. cbn [resolve_loop].
  destruct (resolve_step_turn max_depth state) as [Hu|m Hm Hl Hd|m next Hm Hl Hd Hn|m Hm Hd|Hc|e Hno Hk]; cbn [mbind result_bind resolved].
  - exists []. split_and!; [by constructor|simpl; lia|done|done|simpl; lia].
  - exists [m]. cbn. split_and!; [by apply chain_leaves|lia|done|done|lia].
  - specialize (IH (mkResolution next.1 next.2 (original_after self (current_original state) [m])
      (name_after (current_name state) [m]) (S (current_hops state)) (here state :: visited state))).
    cbn [current_hops current_id current_position visited] in IH. destruct next as [id position]. cbn [fst snd] in IH |- *.
    assert (Hhop : hop self (here state) (id, position)) by (by exists m).
    assert (∀ p, p ∈ here state :: visited state → tc (hop self) p (id, position)) as Hvis'.
    { intros p [->|Hp]%elem_of_cons; [by apply tc_once|]. eapply tc_r; [by apply Hvis|done]. }
    specialize (IH ltac:(lia) ltac:(lia) Hvis'). unfold resolved in IH |- *. destruct (resolve_loop self max_depth fuel _) as [state'|[e| |]]; [|..|done|done].
    + destruct IH as (ms & Hc & Hlen & Ho & Hna & Hho). cbn in Hlen, Ho, Hna, Hho. exists (m :: ms). cbn [length name_after].
      split_and!; [by eapply chain_hops|lia| |done|lia]. rewrite Ho. unfold original_after. rewrite last_cons.
      by destruct (last ms).
    + intros ms Hc. destruct (chain_hop _ _ _ _ Hhop Hc) as (ms' & Hc' & Hlt). destruct (IH ms' Hc') as [? ?].
      split; [done|]. cbn in *. lia.
  - intros ms Hc. split; [done|]. inversion Hc as [? Hu|? m' Hm' Hl'|? m' next' ms' Hm' Hl' Hc']; subst; cbn [length].
    + exfalso. by eapply unmapped_maps_to.
    + lia.
    + lia.
  - intros ms Hch. exfalso. eapply cyclic_no_chain; [by apply Hvis|exact Hch].
  - intros ms Hch. by destruct (Hno ms).
Qed.
End resolution.

(** What a resolution answers. *)
Lemma resolve_original_answers {D} `{NestedMaps D} (self : SourceRegistry D) id position max_depth : registry_ok self →
  match resolve_original_with_limit self id position max_depth with
  | Ok r => ∃ file ms, SourceRegistry.source self id = Ok file ∧ chain self (id, position) ms ∧ (length ms ≤ max_depth)%nat ∧
      r = mkResolved id position (original_after self (mkOriginal (display_name file) (Some id) position None) ms)
            (name_after None ms) (length ms)
  | Err (Fail e) => ∀ ms, chain self (id, position) ms →
      error_kind e = SourceMapErrorKind.ChainDepthExceeded ∧ (max_depth < length ms)%nat
  | Err _ => False
  end.
Proof.
  intros Hself. unfold resolve_original_with_limit.
  destruct (place_checked self Hself id position) as [(file & Hv & Hf & Hc)|[Hv (e & He)]].
  - rewrite from_registry_lift, Hf. cbn [mbind result_bind]. rewrite Hc. cbn [from_registry map_err mbind result_bind].
    pose proof (resolve_loop_resolved self Hself max_depth (S max_depth) (mkResolution id position
      (mkOriginal (display_name file) (Some id) position None) None 0 [])) as Hr.
    cbn [current_hops visited current_id current_position] in Hr.
    specialize (Hr ltac:(lia) ltac:(f_equal; lia) ltac:(by intros p ?%elem_of_nil)). unfold resolved in Hr.
    destruct (resolve_loop _ _ _ _) as [state'|[e| |]]; cbn [mbind result_bind] in *; [|done..].
    destruct Hr as (ms & Hch & Hlen & -> & -> & ->). cbn in *. by exists file, ms.
  - assert (∀ k : SourceFile D → outcome SourceMapError ResolvedLocation,
      (generated_file ← from_registry (lift (SourceRegistry.source self id));
       from_registry (validate_source_map_position generated_file position) ;; k generated_file)
      = Err (Fail (SourceMapError.from_source e))) as ->.
    { intros k. revert He. destruct (from_registry (lift _)) as [f|]; [|by intros [= ->]]. cbn [mbind result_bind].
      destruct (from_registry (validate_source_map_position f _)); [done|by intros [= ->]]. }
    intros ms Hch. exfalso. by eapply invalid_no_chain.
Qed.

(** C25.  Resolution follows the maps to the end: over registered sources, in
    any order of registrations, with embedded maps that nest finitely, a
    resolution within [max_depth] hops returns the deepest original location,
    the last name and the number of hops of the one chain of mappings from the
    generated position; it is refused with [ChainDepthExceeded] only when the
    chain is longer, and otherwise only when there is no chain: a position off
    its source, a failed lookup or a cycle.  It always ends. *)
Theorem resolution_exact {D} `{NestedMaps D} (identity : Z) (self : SourceRegistry D)
    (Hself : rtc registry_step (SourceRegistry.new identity) self) (id : SourceId) (position : SourceMapPosition)
    (max_depth : nat) :
  match resolve_original_with_limit self id position max_depth with
  | Ok r => ∃ file ms, SourceRegistry.source self id = Ok file ∧ chain self (id, position) ms ∧ (length ms ≤ max_depth)%nat ∧
      r = mkResolved id position (original_after self (mkOriginal (display_name file) (Some id) position None) ms)
            (name_after None ms) (length ms)
  | Err (Fail e) => ∀ ms, chain self (id, position) ms →
      error_kind e = SourceMapErrorKind.ChainDepthExceeded ∧ (max_depth < length ms)%nat
  | Err _ => False
  end.
Proof. apply registry_reachable in Hself. by apply resolve_original_answers. Qed.

(** ** Spans *)

Section spans.
Context {D : Type} `{NestedMaps D} (self : SourceRegistry D) (Hself : registry_ok self).

(** Resolutions end in a value or an error. *)
Definition concludes {E A} (m : outcome E A) : Prop := match m with Ok _ | Err (Fail _) => True | _ => False end.

Lemma concludes_bind {E A B} (m : outcome E A) (f : A → outcome E B) :
  concludes m → (∀ a, m = Ok a → concludes (f a)) → concludes (m ≫= f).
Proof. destruct m as [a|[]]; simpl; auto. Qed.

Lemma concludes_registry {A} (m : outcome SourceError A) : concludes m → concludes (from_registry m).
Proof. by destruct m as [|[]]. Qed.

Lemma concludes_lift {E A} (m : result E A) : concludes (lift m).
Proof. by destruct m. Qed.

Lemma byte_offset_concludes id position : concludes (byte_offset_for_source_map_position self id position).
Proof.
  apply concludes_bind; [apply concludes_lift|]. intros file Hf. apply (proj1 (lift_Ok _ _)) in Hf.
  destruct (registry_file _ _ _ Hself Hf) as [Hindex _].
  destruct (byte_offset_spec _ _ Hindex (pos_line position) (pos_column position))
    as [_ [->|(_ & _ & o & _ & _ & _ & _ & ->)]]; done.
Qed.

(** A found offset is a boundary of the text. *)
Lemma byte_offset_boundary id file position offset : SourceRegistry.source self id = Ok file →
  byte_offset_for_source_map_position self id position = Ok offset →
  ∃ before after, file_text file = before ++ after ∧ byte_len before = offset.
Proof.
  intros Hf Ho. unfold byte_offset_for_source_map_position in Ho. rewrite Hf in Ho. cbn in Ho.
  destruct (registry_file _ _ _ Hself Hf) as [Hindex _].
  destruct (byte_offset_spec _ _ Hindex (pos_line position) (pos_column position))
    as [_ [E|(p & q & o & _ & Hl & _ & _ & E)]]; rewrite E in Ho; [done|]. injection Ho as <-.
  pose proof (located_text _ _ _ _ _ Hl) as Ht. destruct Hl as [_ _ ->]. rewrite app_assoc in Ht.
  eexists _, _. split; [exact Ht|]. by rewrite byte_len_app.
Qed.

(** Two boundaries in order are a span. *)
Lemma span_between id file before after before' after' : SourceRegistry.source self id = Ok file →
  file_text file = before ++ after → file_text file = before' ++ after' → byte_len before ≤ byte_len before' →
  SourceRegistry.span self id (byte_len before) (byte_len before')
    = Ok (mkSourceSpan id (mkByteSpan (byte_len before) (byte_len before'))).
Proof.
  intros Hf E1 E2 Hle. destruct (registry_file _ _ _ Hself Hf) as [Hindex _]. apply line_index_new in Hindex as [Hb _].
  unfold SourceRegistry.span. rewrite Hf. cbn [mbind result_bind].
  destruct (app_prefix before after before' after') as (k & Hk & Ha); [congruence|done|].
  rewrite (byte_span_new (file_text file) before k after'); [done|done| |done|by rewrite Hk, byte_len_app].
  by rewrite E1, Ha.
Qed.

Lemma source_map_position_concludes id offset : concludes (source_map_position self id offset).
Proof.
  unfold source_map_position, SourceRegistry.position_with_encoding. apply concludes_bind.
  - apply concludes_bind; [apply concludes_lift|]. intros file Hf. apply (proj1 (lift_Ok _ _)) in Hf.
    destruct (registry_file _ _ _ Hself Hf) as [Hindex _].
    destruct (is_char_boundary (file_text file) offset) eqn:Hb.
    + apply is_char_boundary_spec in Hb as (before & after & Ht & <-).
      destruct (boundary_located _ _ _ Ht) as (i & p & q & Hl & _). by rewrite (position_located _ _ Hindex _ _ _ _ _ Hl).
    + unfold LineIndex.position, validate_offset. rewrite Hb. by destruct (_ <? _).
  - intros position _. apply concludes_bind; [apply concludes_lift|]. intros line _.
    apply concludes_bind; [apply concludes_lift|]. done.
Qed.

Lemma resolve_original_concludes id position max_depth : concludes (resolve_original_with_limit self id position max_depth).
Proof.
  pose proof (resolve_original_answers self id position max_depth Hself) as Ha.
  by destruct (resolve_original_with_limit self id position max_depth) as [|[]].
Qed.

Lemma byte_offset_source id position offset : byte_offset_for_source_map_position self id position = Ok offset →
  ∃ file, SourceRegistry.source self id = Ok file.
Proof. intros (file & Hf & _)%bind_Ok. apply (proj1 (lift_Ok _ _)) in Hf. eauto. Qed.

(** Two found offsets of a source span it, in order. *)
Lemma found_span id position position' a b : byte_offset_for_source_map_position self id position = Ok a →
  byte_offset_for_source_map_position self id position' = Ok b → a ≤ b →
  SourceRegistry.span self id a b = Ok (mkSourceSpan id (mkByteSpan a b)).
Proof.
  intros Ha Hb Hle. destruct (byte_offset_source _ _ _ Ha) as [file Hf].
  destruct (byte_offset_boundary _ _ _ _ Hf Ha) as (x & y & E & <-), (byte_offset_boundary _ _ _ _ Hf Hb) as (x' & y' & E' & <-).
  by eapply span_between.
Qed.

Lemma resolve_span_concludes span max_depth : concludes (resolve_span_with_limit self span max_depth).
Proof.
  assert (Hoffset := byte_offset_concludes). assert (Hposition := source_map_position_concludes).
  assert (Horiginal := resolve_original_concludes).
  unfold resolve_span_with_limit.
  repeat first
    [ apply concludes_lift | apply Hoffset | apply Hposition | apply Horiginal | done
    | apply concludes_registry
    | apply concludes_bind; [|intros ? _] | case_match ].
Qed.

Lemma from_registry_Ok {A} (m : outcome SourceError A) a : from_registry m = Ok a ↔ m = Ok a.
Proof. apply map_err_Ok. Qed.

(** Where an offset of a source is mapped to: the location its position
    resolves to. *)
Definition resolves_to (id : SourceId) (offset : Z) (max_depth : nat) (location : ResolvedLocation) : Prop :=
  ∃ position, source_map_position self id offset = Ok position ∧
    resolve_original_with_limit self id position max_depth = Ok location.

(** The registered source and the offset there of a location. *)
Definition original_offset (location : ResolvedLocation) (source : SourceId) (offset : Z) : Prop :=
  original_source_id (resolved_original location) = Some source ∧
  byte_offset_for_source_map_position self source (original_position (resolved_original location)) = Ok offset.

(** What a resolved span reports: the generated span, the location of its
    start, and, if it offers a mapped span, one that is valid in the source the
    start is mapped to and begins there. *)
Record span_resolved (span : SourceSpan) (max_depth : nat) (r : ResolvedSpan) : Prop := {
  resolved_generated : generated_span r = span;
  resolved_start : resolves_to (span_source span) (span_first (span_bytes span)) max_depth (resolved_location r);
  resolved_mapped mapped : mapped_span r = Some mapped →
    is_mapped (resolved_location r) = true ∧
    SourceRegistry.span self (span_source mapped) (span_first (span_bytes mapped)) (span_limit (span_bytes mapped)) = Ok mapped ∧
    original_offset (resolved_location r) (span_source mapped) (span_first (span_bytes mapped)) }.

(** A span as the registry hands it out. *)
Definition registered_span (span : SourceSpan) : Prop :=
  SourceRegistry.span self (span_source span) (span_first (span_bytes span)) (span_limit (span_bytes span)) = Ok span.

Lemma resolve_span_answers span max_depth r : registered_span span →
  resolve_span_with_limit self span max_depth = Ok r → span_resolved span max_depth r.
Proof.
  intros Hspan. unfold registered_span in Hspan. unfold resolve_span_with_limit. rewrite Hspan.
  cbn [lift from_registry map_err mbind result_bind].
  intros (start_position & Hsp%from_registry_Ok & (location & Hloc & (mapped & Hm & [= <-])%bind_Ok)%bind_Ok)%bind_Ok.
  constructor; cbn [generated_span resolved_location mapped_span]; [done|by exists start_position|].
  intros m ->. destruct (is_mapped location); [|done].
  destruct (original_source_id (resolved_original location)) as [source|] eqn:Hs; [|done].
  apply bind_Ok in Hm as (start & Hstart%from_registry_Ok & Hm). apply bind_Ok in Hm as (end_position & _ & Hm).
  apply bind_Ok in Hm as (end_location & _ & Hm). apply bind_Ok in Hm as (end_ & Hend & Hm).
  assert (SourceRegistry.span self source start end_ = Ok (mkSourceSpan source (mkByteSpan start end_))) as Hnew.
  { case_bool_decide; [|injection Hend as <-; eapply found_span; [done|done|lia]].
    apply bind_Ok in Hend as (e & He%from_registry_Ok & [= <-]).
    destruct (Z.max_spec e start) as [[_ ->]|[? ->]]; eapply found_span; first [done|lia]. }
  rewrite from_registry_lift, Hnew in Hm. injection Hm as <-. cbn [span_source span_bytes span_first span_limit].
  done.
Qed.

Lemma resolve_span_unmapped span max_depth location : registered_span span →
  resolves_to (span_source span) (span_first (span_bytes span)) max_depth location →
  is_mapped location = false ∨ original_source_id (resolved_original location) = None →
  resolve_span_with_limit self span max_depth = Ok (mkResolvedSpan span None location).
Proof.
  intros Hspan (position & Hp & Hl) Hno. unfold registered_span in Hspan. unfold resolve_span_with_limit.
  rewrite Hspan. cbn [lift from_registry map_err mbind result_bind].
  rewrite (proj2 (from_registry_Ok _ _) Hp). cbn [mbind result_bind]. rewrite Hl. cbn [mbind result_bind].
  destruct Hno as [-> | ->]; [done|]. by destruct (is_mapped location).
Qed.

Lemma resolve_span_mapped span max_depth location end_location source start end_ : registered_span span →
  resolves_to (span_source span) (span_first (span_bytes span)) max_depth location → is_mapped location = true →
  resolves_to (span_source span) (span_limit (span_bytes span)) max_depth end_location →
  original_offset location source start → original_offset end_location source end_ → start ≤ end_ →
  resolve_span_with_limit self span max_depth
    = Ok (mkResolvedSpan span (Some (mkSourceSpan source (mkByteSpan start end_))) location).
Proof.
  intros Hspan (position & Hp & Hl) Hm (end_position & Hp' & Hl') [Hs Ho] [Hs' Ho'] Hle.
  unfold registered_span in Hspan. unfold resolve_span_with_limit.
  rewrite Hspan. cbn [lift from_registry map_err mbind result_bind].
  rewrite (proj2 (from_registry_Ok _ _) Hp). cbn [mbind result_bind]. rewrite Hl. cbn [mbind result_bind].
  rewrite Hm, Hs, (proj2 (from_registry_Ok _ _) Ho). cbn [mbind result_bind].
  rewrite (proj2 (from_registry_Ok _ _) Hp'). cbn [mbind result_bind]. rewrite Hl'. cbn [mbind result_bind].
  rewrite bool_decide_eq_true_2 by done. rewrite (proj2 (from_registry_Ok _ _) Ho'). cbn [mbind result_bind].
  rewrite Z.max_l by done. rewrite from_registry_lift. by rewrite (found_span _ _ _ _ _ Ho Ho' Hle).
Qed.
End spans.

(** C27.  Spans resolve through source maps: for every span a registry hands
    out, resolving it ends in a value or an error.  When the start is unmapped,
    or mapped into a source that is not registered, the result is the generated
    span with the location of the start and no mapped span; when both endpoints
    reach the same registered source, in order, it is the generated span, the
    location of the start and exactly the range between the two originals.  In
    every case a result keeps the generated span, locates the start as the
    resolution of its position does, and a mapped span it offers is valid in
    the source the start is mapped to and begins where the start is mapped. *)
Theorem resolve_span_exact {D} `{NestedMaps D} (identity : Z) (self : SourceRegistry D)
    (Hself : rtc registry_step (SourceRegistry.new identity) self) (id : SourceId) (start end_ : Z) (span : SourceSpan)
    (Hspan : SourceRegistry.span self id start end_ = Ok span) (max_depth : nat) :
  match resolve_span_with_limit self span max_depth with
  | Ok r => span_resolved self span max_depth r
  | Err (Fail _) => True
  | Err _ => False
  end ∧
  (∀ location, resolves_to self id start max_depth location →
     is_mapped location = false ∨ original_source_id (resolved_original location) = None →
     resolve_span_with_limit self span max_depth = Ok (mkResolvedSpan span None location)) ∧
  ∀ location end_location source s e,
    resolves_to self id start max_depth location → is_mapped location = true →
    resolves_to self id end_ max_depth end_location →
    original_offset self location source s → original_offset self end_location source e → s ≤ e →
    resolve_span_with_limit self span max_depth
      = Ok (mkResolvedSpan span (Some (mkSourceSpan source (mkByteSpan s e))) location).
Proof.
  apply registry_reachable in Hself. pose proof Hspan as Hsp. unfold SourceRegistry.span in Hsp.
  apply bind_Ok in Hsp as (file & Hf & _). destruct (span_Ok _ _ _ _ _ _ Hf Hspan) as (-> & _). split_and!.
  - pose proof (resolve_span_concludes self Hself (mkSourceSpan id (mkByteSpan start end_)) max_depth) as Hs.
    destruct (resolve_span_with_limit _ _ _) as [r|[]] eqn:E; [|done..]. by eapply resolve_span_answers.
  - intros location. by apply (resolve_span_unmapped self (mkSourceSpan id (mkByteSpan start end_))).
  - intros location end_location source s e.
    by apply (resolve_span_mapped self Hself (mkSourceSpan id (mkByteSpan start end_))).
Qed.

(** ** Concrete maps *)

(** A map as the tokens of its mapped positions. *)
Notation token_map := (list (SourceMapPosition * Token)).

#[global] Instance token_maps : DecodedMaps token_map := {
  index_sections _ := None;
  lookup_token map line column :=
    Some (snd <$> find (λ entry, bool_decide (entry.1 = mkPosition line column)) map);
  nesting _ := O }.

#[global] Instance token_maps_nested : NestedMaps token_map.
Proof. by intros map sections section nested. Qed.

Definition token_to (name : list Z) (line column : Z) : Token := mkToken true line column (Some name) None None.

(** A generated source [g] whose first character comes from [p] and whose
    second comes from [q], both registered; [p] may have a map too. *)
Definition generated_map : token_map := [(mkPosition 0 0, token_to [112] 0 1); (mkPosition 0 1, token_to [113] 0 0)].

Definition registered (self : SourceRegistry token_map) (name text : list Z) (map : option token_map) : SourceRegistry token_map :=
  match SourceRegistry.register_with_source_map self name text map with
  | Ok (_, self) => self
  | Err _ => self
  end.

Definition mapped_registry (original : option token_map) : SourceRegistry token_map :=
  registered (registered (registered (SourceRegistry.new 7) [103] [120; 121] (Some generated_map))
    [112] [120; 120] original) [113] [121] None.

Lemma mapped_reachable original : rtc registry_step (SourceRegistry.new 7) (mapped_registry original).
Proof.
  eapply rtc_l; [apply (step_register _ [103] [120; 121] (Some generated_map) (mkSourceId 7 0)); vm_compute; reflexivity|].
  eapply rtc_l; [apply (step_register _ [112] [120; 120] original (mkSourceId 7 1)); vm_compute; reflexivity|].
  eapply rtc_l; [apply (step_register _ [113] [121] None (mkSourceId 7 2)); vm_compute; reflexivity|].
  assert (∀ s, s = mapped_registry original → rtc registry_step s (mapped_registry original)) as Hs by (by intros ? ->).
  apply Hs. vm_compute. reflexivity.
Qed.

Lemma source_map_positions_inverse_witness :
  source_map_position (mapped_registry None) (mkSourceId 7 1) 1 = Ok (mkPosition 0 1) ∧ ¬ splits_crlf [120; 120] 1.
Proof.
  apply (source_map_positions_inverse 7 (mapped_registry None) (mkSourceId 7 1)
    (mkSourceFile [112] [120; 120] (mkLineIndex [0]) None) (mapped_reachable None)
    ltac:(vm_compute; reflexivity) (mkPosition 0 1)). vm_compute. reflexivity.
Defined.

(** [p] comes from [r], which is not registered. *)
Definition original_map : token_map := [(mkPosition 0 1, token_to [114] 4 2)].

(** The chain from the first character of [g] through [p] to [r]. *)
Lemma resolution_exact_witness :
  ∃ r, resolve_original (mapped_registry (Some original_map)) (mkSourceId 7 0) (mkPosition 0 0) = Ok r ∧ hops r = 2%nat ∧
    original_source_name (resolved_original r) = [114] ∧ original_position (resolved_original r) = mkPosition 4 2 ∧
    ∃ ms, chain (mapped_registry (Some original_map)) (mkSourceId 7 0, mkPosition 0 0) ms ∧ length ms = 2%nat.
Proof.
  pose proof (resolution_exact 7 (mapped_registry (Some original_map)) (mapped_reachable _) (mkSourceId 7 0) (mkPosition 0 0) 32) as Hr.
  destruct (resolve_original_with_limit (mapped_registry (Some original_map)) (mkSourceId 7 0) (mkPosition 0 0) 32) as [r|e] eqn:E;
    [|exfalso; vm_compute in E; discriminate].
  exists r. split; [exact E|]. destruct Hr as (file & ms & _ & Hc & _ & Hr). vm_compute in E. injection E as E.
  split; [by subst r|]. split; [by subst r|]. split; [by subst r|]. exists ms. split; [exact Hc|].
  rewrite <- E in Hr. by injection Hr.
Defined.

(** A generated source whose two characters come from [p], one line down. *)
Definition ordered_map : token_map := [(mkPosition 0 0, token_to [112] 1 0); (mkPosition 0 2, token_to [112] 1 1)].

Definition ordered_registry : SourceRegistry token_map :=
  registered (registered (SourceRegistry.new 7) [103] [120; 121] (Some ordered_map)) [112] [10; 120; 120] None.

Lemma ordered_reachable : rtc registry_step (SourceRegistry.new 7) ordered_registry.
Proof.
  eapply rtc_l; [apply (step_register _ [103] [120; 121] (Some ordered_map) (mkSourceId 7 0)); vm_compute; reflexivity|].
  eapply rtc_l; [apply (step_register _ [112] [10; 120; 120] None (mkSourceId 7 1)); vm_compute; reflexivity|].
  assert (∀ s, s = ordered_registry → rtc registry_step s ordered_registry) as Hs by (by intros ? ->).
  apply Hs. vm_compute. reflexivity.
Qed.

(** The whole generated text is the first character of the second line of
    [p]. *)
Lemma resolve_span_exact_witness :
  ∃ r, resolve_span ordered_registry (mkSourceSpan (mkSourceId 7 0) (mkByteSpan 0 2)) = Ok r ∧
    mapped_span r = Some (mkSourceSpan (mkSourceId 7 1) (mkByteSpan 1 2)).
Proof.
  destruct (resolve_span_exact 7 ordered_registry ordered_reachable (mkSourceId 7 0) 0 2
    (mkSourceSpan (mkSourceId 7 0) (mkByteSpan 0 2)) ltac:(vm_compute; reflexivity) 32) as (_ & _ & Hr).
  destruct (resolve_original_with_limit ordered_registry (mkSourceId 7 0) (mkPosition 0 0) 32) as [location|e] eqn:E;
    [|exfalso; vm_compute in E; discriminate].
  destruct (resolve_original_with_limit ordered_registry (mkSourceId 7 0) (mkPosition 0 2) 32) as [end_location|e] eqn:E';
    [|exfalso; vm_compute in E'; discriminate].
  eexists. split; [apply (Hr location end_location (mkSourceId 7 1) 1 2)|reflexivity].
  - exists (mkPosition 0 0). split; [vm_compute; reflexivity|exact E].
  - vm_compute in E. injection E as <-. reflexivity.
  - exists (mkPosition 0 2). split; [vm_compute; reflexivity|exact E'].
  - vm_compute in E. injection E as <-. split; vm_compute; reflexivity.
  - vm_compute in E'. injection E' as <-. split; vm_compute; reflexivity.
  - lia.
Defined.

(** ** Where the code departs from its documentation *)

(** Endpoints in different sources do not fall back to the generated span:
    what is displayed is an empty span of the original. *)
Lemma differently_sourced_collapses : ∃ r,
  resolve_span (mapped_registry None) (mkSourceSpan (mkSourceId 7 0) (mkByteSpan 0 1)) = Ok r ∧
  display_span r = mkSourceSpan (mkSourceId 7 1) (mkByteSpan 1 1).
Proof. eexists. split; vm_compute; reflexivity. Qed.

(** A valid span that starts between a carriage return and its line feed is
    refused, although its source has no map at all. *)
Lemma crlf_span_refused :
  let self := registered (SourceRegistry.new 7) [102] small_text None in
  SourceRegistry.span self (mkSourceId 7 0) 2 3 = Ok (mkSourceSpan (mkSourceId 7 0) (mkByteSpan 2 3)) ∧
  resolve_span self (mkSourceSpan (mkSourceId 7 0) (mkByteSpan 2 3))
    = Err (Fail (SourceMapError.from_source (SourceError.InvalidSourceMapPosition 0 2))).
Proof. split; vm_compute; reflexivity. Qed.
